(* ===== verification/_CoqProject ===== *)
-Q . S2P
Prelude.v
BTree.v
Text.v
PathNames.v
Toml.v
SocketAddr.v
Endpoint.v
Idents.v
Metadata.v
Delegation.v
AvailableIds.v
FileSystem.v
Auth.v
KeyRefresh.v
Paths.v
Storage.v
LeaseRecord.v
LedgerSpec.v
Allocator.v
RuntimeLedger.v
Config.v
Account.v
StorageDeletion.v
StorageFrame.v
StorageScan.v
LeaseStore.v
AllocatorSafety.v
RuntimeSafety.v
LifecycleLocks.v
Manager.v
BrokerWire.v
IdmapBroker.v
ManagerProtocol.v
ManagerSafety.v
ManagerClaims.v
EnginePolicy.v
LaunchPolicy.v
LinuxLaunch.v
Domains.v
DomainSafety.v
Admission.v
HostTasks.v
ChannelBridge.v
Channels.v
ProcessControl.v
CgroupPaths.v
ControlGroups.v
ControlGroupSafety.v
ChildRecords.v
ChildSetup.v
ChildSafety.v
SyscallNames.v
SeccompFilter.v
LandlockRules.v
LaunchSetup.v
LinuxSpawn.v
LinuxSpawnSafety.v
ChildHandle.v
