(* ===== verification/Prelude.v ===== *)
(** * shbox: a verification library

    shbox is an SSH daemon that gives every key its own persistent sandboxes.  A
    client authenticates with an Ed25519 key; the user name it asks for names a
    sandbox, which the daemon creates on first use, runs commands in, and deletes
    on request.  This library models the daemon's core, from its configuration
    and a connection's admission through login, channels and the sandbox registry
    to the launch and the end of a process, with the engine that confines it on
    Linux, and proves it correct.  Paths below are
    relative to [crates/shbox/src/] unless they name another crate.

    ** Parts of the program and the files that model them

    - Text and records.  [Text] holds what the source uses of Rust's [str]:
      integer formatting and parsing, UTF-8, white space, lines, escaping.
      [Toml] states the laws of the TOML library, which is a parameter.  [BTree]
      is [BTreeMap] as a sorted association list, over the [KeyOrder] interface
      of this file.
    - Names.  [Idents]: [Id] is [SandboxId] ([sandbox/id.rs]), [Fingerprint] the
      key fingerprint with its base64 decoder and [Principals] the roles
      ([auth.rs]).
    - Authentication.  [Auth] is the rest of [auth.rs]: the checks on the two
      key files, the authorized-keys parser, [AuthSnapshot] and [KeyStore], with
      the handler [auth_publickey] of [ssh/mod.rs].  [KeyRefresh] proves what
      refreshing guarantees over time and under concurrent requests.
    - Sandbox records.  [Metadata] is [sandbox/metadata.rs].
    - The registry on disk.  [FileSystem] is a directory tree with the
      descriptor-relative system calls of [sandbox/storage.rs], each of which may
      fail, and the fault injector; [Storage] is the module's operations.
      [StorageDeletion], [StorageFrame] and [StorageScan] prove deletion, the
      frame rule (an operation on one sandbox leaves the others alone) and the
      completeness of scans and inspections.
    - Subordinate IDs.  [Delegation] is [sandbox/subid/delegation.rs]: ranges,
      the [getsubids] parser and the generation cache.  [AvailableIds] is the
      interval map of [sandbox/subid/mod.rs].  [LeaseRecord] and [LeaseStore] are
      [sandbox/subid/ledger.rs]: the record's encoding and the ledger directory.
      [LedgerSpec] is the interface between the two halves, a class [LeaseLedger] of
      what the allocator may rely on; [LeaseStore] implements it.  [Allocator] is
      [SubidAllocator], proved against the interface; [AllocatorSafety] lets any
      number of processes run its operations in any order.
    - The manager ([sandbox/manager.rs]).  [RuntimeLedger] is the in-memory
      ledger, one definition per critical section; [RuntimeSafety] is the step
      relation of threads that run critical sections in any order, and its
      invariants.  [LifecycleLocks] is the map of reference-counted locks.
      [Manager] is the service itself, composing registry, allocator, ledger and
      launcher: claim, list, delete, launch, startup, shutdown.
      [ManagerProtocol] shows that whole operations are runs of the step
      relation, [ManagerSafety] what sequences of operations preserve,
      [ManagerClaims] what single operations return.
    - The privileged ID-map broker ([platform/idmap_broker.rs]), a separate root
      process that gives the daemon ID-mapped mounts.  [BrokerWire] is the
      request, the response and the ancillary data with the descriptors, read
      from raw memory; [IdmapBroker] is the broker's handling of a connection and
      the daemon's client.
    - Configuration.  [PathNames] and [SocketAddr] hold what the source uses of
      Rust's paths and socket addresses; [Endpoint] is [endpoint.rs], [Paths] the
      daemon's directories ([paths.rs]), [Config] the configuration file, its
      validation and the caps ([config.rs]), [Account] the daemon's account
      ([account.rs]).
    - Launching.  [EnginePolicy] is the engine's policy, command and error types
      with its validation ([policy.rs], [command.rs], [error.rs] and [validate.rs]
      of [crates/shbox-sandbox/src/]); [LaunchPolicy] turns a configuration into
      them ([platform/policy.rs]), with the runtime temporary trees; [LinuxLaunch]
      builds the command of a launch ([platform/linux.rs]) and composes the two.
      [Domains] is the registry of process domains (control groups) of the same
      file, a step relation over launching, deleting and ending threads;
      [DomainSafety] proves who owns what in it.  [ProcessControl] is the control
      of one process.
    - The engine on Linux ([crates/shbox-sandbox/src/linux/]).  [CgroupPaths] and
      [ControlGroups] are [cgroup.rs] with the process domains of [mod.rs]: where
      groups may be created, creating, watching, killing, removing and reclaiming
      them; [ControlGroupSafety] proves them.  [SyscallNames] and [SeccompFilter]
      are [syscall_names.rs] and [seccomp.rs], [LandlockRules] is [landlock.rs].
      [ChildRecords] holds the records a child and its launcher exchange and the
      loop of the supervisor of a PID namespace; [ChildSetup] is what a cloned
      child does up to [execve], stage by stage ([child.rs], [caps.rs]), over a
      model of the process's credentials, mounts and descriptors; [ChildSafety]
      proves it.  [LaunchSetup] builds a child's set-up from a configuration
      ([build_child_setup] of [mod.rs]) and composes validation, set-up and child.
      [LinuxSpawn] is the launcher's side: streams, the identity handshake, the
      clone, the confirmation, the ID-map helpers; [LinuxSpawnSafety] proves it.
      [ChildHandle] is the handle of a running child.
    - Serving.  [Admission] is the capped counters of [server.rs] as atomic
      operations of threads, [HostTasks] its registry of host bridges.
      [ChannelBridge] is the task that joins a process to its channel, with its
      pumps and queue ([ssh/channel.rs], [ssh/host.rs]); [Channels] is the channel
      registry with its mailboxes and the callbacks of a connection
      ([ssh/channel.rs], [ssh/mod.rs]).

    ** How the code is represented

    A fallible function returns [result], a method that mutates its receiver is a
    state monad [M] whose state survives an error.  Machine integers are [Z] with
    the wrap-around written out; byte strings are [string].  A hash map is a
    [gmap] and an ordered map a sorted list.  Every system call on the registry
    may fail at any moment (the script [w_env]), so a theorem about an operation
    is about every point at which it may be cut short.  The key files, which
    others edit, and the descriptors a broker's client holds are seen through a
    history of the kernel's answers, one per system call, so nothing is assumed
    between two calls.  The engine meets the kernel in the same way: each call is
    answered as of its time, and what was asked is recorded in order, so that a
    theorem can say what happened, in which order, and what did not.  Concurrency is explicit: a step relation over threads for
    the ledger, the lifecycle locks, the key store, the process domains, the
    admission counters, the host tasks, the bridges and the channels, and an
    argument for what other threads do while an operation waits.

    Code that is not in the repository is a parameter: TOML ([Toml]), the OpenSSH
    key library ([Auth.KeyLibrary]), the process launcher behind the
    [ProcessLauncher] trait ([Manager]), host facts such as account lookups
    ([FileSystem.Host], [Delegation]), the BPF compiler ([SeccompFilter.Seccompiler]),
    the Landlock library ([LandlockRules.LandlockApi]) and the kernel of each part of
    the engine ([CgroupKernel], [ChildKernel], [SpawnKernel], [HandleKernel]).  Where a theorem needs something of a
    parameter it is a law of a class or a hypothesis, and a sample instance shows
    that it can hold.

    ** What is proved

    - Authentication: the parser accepts exactly the strict format; roles are
      exactly what the two files say; no key is taken from an unvetted file; in
      every interleaving only completely validated snapshots serve, no signal is
      lost and reloads are single-flight; an unchanged answer is a current one.
    - Registry: creation publishes a valid entry; records never change owner nor
      return from Deleting; the record is the last thing a deletion removes;
      inspection is sound and scans are exact; deletion succeeds where it can.
    - Subordinate IDs: no two leases ever share a UID, a GID or a sandbox, over
      any interleaving of any number of processes failing anywhere; claims take
      the least free pair; ledger writes are atomic and loads exact;
      reconciliation follows its table and live leases survive it.
    - Manager: counters balance, admission is exact, deletion and shutdown stop
      launches, locks exclude; every sequence of operations, one after the other, is
      a run of that protocol for the in-memory ledger, keeps names and leases
      distinct and leaks no reservation; strangers change nothing; a claim grants
      the identity of a lease whose IDs the host delegates at that moment; deletion
      frees resources in order; the daemon does not serve before startup
      reconciliation succeeded.
    - Broker: whatever a client sends, only vetted descriptors of a peer that is
      who it claims are mounted, for an identity it may have; requests have one
      encoding; parsing ancillary data stays inside its buffer and ends;
      descriptors survive the trip; the client takes only its own grant.
    - Configuration: what the validator accepts passed its checks, printed endpoints
      parse back, the daemon's directories are its own and private.
    - Launching: an accepted configuration never makes the engine refuse a launch;
      the environment is exactly the layered one; temporary trees are private and
      reclaimed; in every interleaving a control group has one owner and stays as
      long as a launch holds it.
    - The engine: for every configuration that passed validation, a program that
      starts runs as configured (identity, capabilities, rules and mounts, and the
      descriptors unless its own filter refuses the closings); user code starts only
      after the successful calls of every stage, in order, and a child whose set-up
      fails makes no [execve]; a launch that succeeds was confirmed, one that fails
      leaves no descriptor and kills and waits for its child; a child leaves the
      mapping barrier only after the mapper ran and then its maps were read back and
      exact; filters answer as the policy says and file rules are enforced or
      refused; groups are created all or nothing, reclaimed only when they are the
      daemon's and empty, and a wait for one makes at most four calls after its
      deadline; the supervisor forwards signals to the user's process or group only,
      kills the namespace only at its end and reports for that process only; reports
      survive any fragmentation, statuses are settled once, and teardown asks exactly
      what it should and ends five calls after its half second.
    - Serving: the caps hold in every interleaving of atomic operations; a channel
      begins one operation, within its principal's rights, with bounded mailboxes;
      a bridge that completes delivered every byte in order, one that gives up
      leaves the sandbox process alone, and none is stuck; shutdown waits for
      every host bridge.
    - Round trips of both durable records, of the child's reports and of the mount
      table, and canonical base64.
    - Defects, as theorems about runs of the code: two ways in which a revoked
      key is never noticed, broker refusals that are never delivered, records
      that cannot be deleted or block the ledger, a lock map that never shrinks, a
      launch that is never taken back, a request that ends the wrong operation, a
      forced stop that reaches no process, signals to processes that ended, a bus
      error reported as a termination, read paths that expose the daemon, system-call
      rules that are lost beside others, descriptors left open by a filter that
      refuses [close], and isolated children that outlive the
      daemon because the parent-death signal is cleared.

    ** Bounds and fuel

    Recursion that is not structural carries fuel.  Text functions take the
    string's length.  Tree removal takes the height of the tree, with which
    [deletion_succeeds] shows it completes.  The search for a runtime token takes
    the number of live tokens plus one; it always finds one as long as that
    number is below 2^64 - 1.  A wait with a deadline takes a finite list of ticks,
    each with what other threads did meanwhile; theorems hold for every list.  The
    engine's loops with a deadline are repeated 2^[WAIT_TURNS] and 2^[REAP_TURNS]
    times by doubling, and running out of turns is an error of its own; since every
    call takes a nanosecond the deadline comes first, and the theorems about the two
    loops show that this error never happens.  The binary search takes the length of its table, the walk
    to the root of the control groups the number of path components.  A loop that
    reads or writes a pipe takes the list of what each call did.

    ** Not modelled

    The validation of the registry's root directory and of its ancestors;
    [lockfile.rs] and [hostkey.rs], which are file locks and key generation; the
    SSH and WebSocket transports, the listeners and the supervision of connections
    ([ws.rs], the rest of [server.rs]), asynchronous I/O on library types; PTYs and
    host processes ([platform/terminal.rs], [ssh/host.rs]) and everything for macOS
    ([platform/macos.rs], [macos/] of the engine); the broker's endless accept loop;
    of the Linux engine, the thread that performs the spawns and its lock, the
    keeper process of an ID-mapped namespace and the report of the kernel's
    capabilities; poisoned mutexes; logging and the command line.

    Of what is modelled: the file system of the registry and of the leases has no
    permission checks by mode bits (a call may fail at any time, with any error) and
    no partial writes (a write that is cut short is a failed one whose data is not
    there).  The manager's operations do not carry the lifecycle locks, which are a
    component of their own ([LifecycleLocks]): sequences of operations run one after
    the other, and while one waits, others begin, finish and drop launches.  The
    kernel's enforcement of Landlock is a parameter with a law for handled rights
    only.  A system-call filter that kills the child instead of refusing a call is
    outside the model of the child. *)

From stdpp Require Export base option list strings gmap.
From Stdlib Require Export ZArith Lia.
#[global] Open Scope Z_scope.
Set Default Goal Selector "!".

(** ** Rust results

    [result E A] is Rust's [Result<A, E>].  The monad instances give the [?]
    operator stdpp's notation [x ← m; k]. *)

Inductive result (E A : Type) : Type :=
| Ok (a : A)
| Err (e : E).
Arguments Ok {E A} a.
Arguments Err {E A} e.

#[global] Instance result_ret E : MRet (result E) := fun A a => Ok a.
#[global] Instance result_bind E : MBind (result E) := fun A B f m =>
  match m with Ok a => f a | Err e => Err e end.
#[global] Instance result_fmap E : FMap (result E) := fun A B f m =>
  match m with Ok a => Ok (f a) | Err e => Err e end.

Definition map_err {E E' A} (f : E → E') (m : result E A) : result E' A :=
  match m with Ok a => Ok a | Err e => Err (f e) end.

Definition ok_or {E A} (e : E) (o : option A) : result E A :=
  match o with Some a => Ok a | None => Err e end.

Definition is_ok {E A} (m : result E A) : bool :=
  match m with Ok _ => true | Err _ => false end.

(** ** Stateful fallible computations

    A method that mutates its receiver and may return early with an error.
    The state survives an error: what was done before the [?] stays done. *)

Definition M (S E A : Type) : Type := S → result E A * S.

#[global] Instance M_ret S E : MRet (M S E) := fun A a s => (Ok a, s).
#[global] Instance M_bind S E : MBind (M S E) := fun A B f m s =>
  match m s with
  | (Ok a, s') => f a s'
  | (Err e, s') => (Err e, s')
  end.

Definition fail {S E A} (e : E) : M S E A := fun s => (Err e, s).
Definition getS {S E} : M S E S := fun s => (Ok s, s).
Definition modifyS {S E} (f : S → S) : M S E unit := fun s => (Ok tt, f s).
Definition liftR {S E A} (r : result E A) : M S E A := fun s => (r, s).
Definition mapE {S E E' A} (f : E → E') (m : M S E A) : M S E' A := fun s =>
  match m s with (r, s') => (map_err f r, s') end.

(** Run a computation and hand its result to the caller as a value: the
    source's [match f(..) { Ok(..) => .., Err(..) => .. }]. *)
Definition tryM {S E E' A} (m : M S E A) : M S E' (result E A) := fun s =>
  match m s with (r, s') => (Ok r, s') end.

(** Inversion of runs that succeed, and of runs that fail. *)
Section runs.
Context {S E A B : Type}.
Implicit Types s : S.

Lemma bind_Ok (m : M S E A) (f : A → M S E B) s b s' :
  (m ≫= f) s = (Ok b, s') → ∃ a s1, m s = (Ok a, s1) ∧ f a s1 = (Ok b, s').
Proof. unfold mbind, M_bind. destruct (m s) as [[a|e] s1]; naive_solver. Qed.

Lemma bind_inv (m : M S E A) (f : A → M S E B) s r s' :
  (m ≫= f) s = (r, s') →
  (∃ a s1, m s = (Ok a, s1) ∧ f a s1 = (r, s')) ∨ (∃ e, m s = (Err e, s') ∧ r = Err e).
Proof. unfold mbind, M_bind. destruct (m s) as [[a|e] s1]; naive_solver. Qed.

Lemma bind_run (m : M S E A) (f : A → M S E B) s a s1 :
  m s = (Ok a, s1) → (m ≫= f) s = f a s1.
Proof. unfold mbind, M_bind. by intros ->. Qed.

Lemma mapE_run {E'} (g : E → E') (m : M S E A) s a s1 :
  m s = (Ok a, s1) → mapE g m s = (Ok a, s1).
Proof. unfold mapE. by intros ->. Qed.

Lemma tryM_run {E'} (m : M S E A) s r s1 : m s = (r, s1) → (tryM m : M S E' _) s = (Ok r, s1).
Proof. unfold tryM. by intros ->. Qed.

Lemma mapE_Ok {E'} (g : E → E') (m : M S E A) s a s' :
  mapE g m s = (Ok a, s') → m s = (Ok a, s').
Proof. unfold mapE. destruct (m s) as [[] ?]; simpl; naive_solver. Qed.

Lemma tryM_Ok {E'} (m : M S E A) s r s' :
  (tryM m : M S E' _) s = (Ok r, s') → m s = (r, s').
Proof. unfold tryM. destruct (m s). naive_solver. Qed.

Lemma liftR_Ok (r : result E A) s a s' : liftR r s = (Ok a, s') → r = Ok a ∧ s' = s.
Proof. unfold liftR. naive_solver. Qed.

Lemma ret_Ok (a a' : A) s s' : (mret a : M S E A) s = (Ok a', s') → a' = a ∧ s' = s.
Proof. unfold mret, M_ret. naive_solver. Qed.

Lemma map_err_Ok {E'} (g : E → E') (r : result E A) a : map_err g r = Ok a → r = Ok a.
Proof. destruct r; simpl; naive_solver. Qed.

Lemma ok_or_Ok (e : E) (o : option A) a : ok_or e o = Ok a → o = Some a.
Proof. destruct o; simpl; naive_solver. Qed.
End runs.

(** ** Machine integers

    Integers are [Z]; the wrap-around of each width is written out. *)

Definition u32_max : Z := 2 ^ 32 - 1.
Definition u64_max : Z := 2 ^ 64 - 1.
Definition wrap_u32 (z : Z) : Z := z mod 2 ^ 32.
Definition wrap_u64 (z : Z) : Z := z mod 2 ^ 64.
Definition saturating_add_u32 (a b : Z) : Z := Z.min (a + b) u32_max.

(** ** Bytes and strings

    A Rust [str] or byte slice is a [string]; an [ascii] is one byte. *)

Definition byte_val (c : Ascii.ascii) : Z := Z.of_N (Ascii.N_of_ascii c).

Definition str_len (s : string) : Z := Z.of_nat (String.length s).

Fixpoint str_all (p : Ascii.ascii → bool) (s : string) : bool :=
  match s with
  | EmptyString => true
  | String c s' => p c && str_all p s'
  end.

(** [u8::is_ascii_digit], [u8::is_ascii_alphanumeric] and a range test. *)
Definition in_range (lo hi : Z) (c : Ascii.ascii) : bool :=
  (lo <=? byte_val c) && (byte_val c <=? hi).
Definition is_ascii_digit : Ascii.ascii → bool := in_range 48 57.
Definition is_ascii_alphabetic (c : Ascii.ascii) : bool :=
  in_range 65 90 c || in_range 97 122 c.
Definition is_ascii_alphanumeric (c : Ascii.ascii) : bool :=
  is_ascii_digit c || is_ascii_alphabetic c.

(** [str::strip_prefix]. *)
Fixpoint strip_prefix (p s : string) : option string :=
  match p, s with
  | EmptyString, _ => Some s
  | String a p', String b s' =>
      if bool_decide (a = b) then strip_prefix p' s' else None
  | String _ _, EmptyString => None
  end.

(** [str::strip_suffix]. *)
Fixpoint strip_suffix (suf s : string) : option string :=
  if bool_decide (s = suf) then Some EmptyString
  else match s with
       | EmptyString => None
       | String c s' => String c <$> strip_suffix suf s'
       end.

(** [str::starts_with]. *)
Definition starts_with (p s : string) : bool :=
  match strip_prefix p s with Some _ => true | None => false end.

(** ** Total orders on keys

    The [Ord] instances the source's [BTreeMap]s and sorts use: numeric order
    on IDs, bytewise order on strings. *)

Class KeyOrder (K : Type) := {
  kcompare : K → K → comparison;
  kcompare_eq : ∀ a b, kcompare a b = Eq ↔ a = b;
  kcompare_antisym : ∀ a b, kcompare b a = CompOpp (kcompare a b);
  kcompare_trans : ∀ a b c,
    kcompare a b = Lt → kcompare b c = Lt → kcompare a c = Lt;
}.

Definition klt {K} `{KeyOrder K} (a b : K) : Prop := kcompare a b = Lt.
Definition kle {K} `{KeyOrder K} (a b : K) : Prop := kcompare a b ≠ Gt.

#[global] Program Instance Z_order : KeyOrder Z := {| kcompare := Z.compare |}.
Next Obligation. intros; apply Z.compare_eq_iff. Qed.
Next Obligation. intros; apply Z.compare_antisym. Qed.
Next Obligation. intros a b c; rewrite !Z.compare_lt_iff; lia. Qed.

Lemma ascii_compare_trans a b c :
  Ascii.compare a b = Lt → Ascii.compare b c = Lt → Ascii.compare a c = Lt.
Proof. unfold Ascii.compare; rewrite !N.compare_lt_iff; lia. Qed.

Lemma string_compare_trans (a b c : string) :
  String.compare a b = Lt → String.compare b c = Lt → String.compare a c = Lt.
Proof.
  revert b c; induction a as [|x a IH]; intros [|y b] [|z c]; simpl; try done.
  destruct (Ascii.compare x y) eqn:Hxy, (Ascii.compare y z) eqn:Hyz; try done.
  - apply Ascii.compare_eq_iff in Hxy, Hyz; subst.
    unfold Ascii.compare; rewrite N.compare_refl. apply IH.
  - apply Ascii.compare_eq_iff in Hxy; subst; by rewrite Hyz.
  - apply Ascii.compare_eq_iff in Hyz; subst; by rewrite Hxy.
  - by rewrite (ascii_compare_trans _ _ _ Hxy Hyz).
Qed.

Lemma string_compare_refl (a : string) : String.compare a a = Eq.
Proof.
  induction a as [|x a IH]; simpl; [done|].
  unfold Ascii.compare; by rewrite N.compare_refl.
Qed.

#[global] Program Instance string_order : KeyOrder string :=
  {| kcompare := String.compare |}.
Next Obligation.
  intros a b; split; [apply String.compare_eq_iff|]. intros ->. apply string_compare_refl.
Qed.
Next Obligation.
  intros a b. rewrite (String.compare_antisym a b). by rewrite CompOpp_involutive.
Qed.
Next Obligation. apply string_compare_trans. Qed.

Section key_order.
Context {K : Type} `{KeyOrder K}.

Lemma kcompare_refl (a : K) : kcompare a a = Eq.
Proof. by apply kcompare_eq. Qed.

Lemma klt_irrefl (a : K) : ¬ klt a a.
Proof. unfold klt; by rewrite kcompare_refl. Qed.

Lemma klt_trans (a b c : K) : klt a b → klt b c → klt a c.
Proof. apply kcompare_trans. Qed.

Lemma kcompare_gt (a b : K) : kcompare a b = Gt ↔ klt b a.
Proof.
  unfold klt; rewrite (kcompare_antisym a b). destruct (kcompare a b); simpl; split; congruence.
Qed.

Lemma kle_lt_or_eq (a b : K) : kle a b ↔ klt a b ∨ a = b.
Proof.
  unfold kle, klt. destruct (kcompare a b) eqn:Hc.
  - apply kcompare_eq in Hc. naive_solver.
  - naive_solver.
  - split; [done|]. intros [?| ->]; [done|]. by rewrite kcompare_refl in Hc.
Qed.
Lemma key_eq_or_ne (a b : K) : a = b ∨ a ≠ b.
Proof.
  destruct (kcompare a b) eqn:Hc; [left; by apply kcompare_eq|right..];
    intros ->; by rewrite kcompare_refl in Hc.
Qed.
End key_order.

(** ** Sorting

    [slice::sort_by] and [sort_unstable]: insertion into a list kept in order. *)

Fixpoint insert_by {A} (leb : A → A → bool) (a : A) (l : list A) : list A :=
  match l with
  | [] => [a]
  | b :: l' => if leb a b then a :: b :: l' else b :: insert_by leb a l'
  end.

Definition sort_by {A} (leb : A → A → bool) (l : list A) : list A :=
  foldr (insert_by leb) [] l.

Lemma elem_insert_by {A} (leb : A → A → bool) a l x : x ∈ insert_by leb a l ↔ x = a ∨ x ∈ l.
Proof.
  induction l as [|b l IH]; simpl.
  - rewrite !elem_of_cons. naive_solver.
  - destruct (leb a b); rewrite !elem_of_cons; [naive_solver|]. rewrite IH. naive_solver.
Qed.

Lemma elem_sort_by {A} (leb : A → A → bool) l x : x ∈ sort_by leb l ↔ x ∈ l.
Proof.
  unfold sort_by. induction l as [|a l IH]; simpl; [done|].
  rewrite elem_insert_by, IH, elem_of_cons. done.
Qed.

Lemma insert_by_perm {A} (leb : A → A → bool) a l : insert_by leb a l ≡ₚ a :: l.
Proof.
  induction l as [|b l IH]; simpl; [done|]. destruct (leb a b); [done|].
  rewrite IH. constructor.
Qed.

Lemma sort_by_perm {A} (leb : A → A → bool) l : sort_by leb l ≡ₚ l.
Proof.
  unfold sort_by. induction l as [|a l IH]; simpl; [done|]. by rewrite insert_by_perm, IH.
Qed.

Lemma filter_ext_in {B} (P Q : B → Prop) `{∀ x, Decision (P x), ∀ x, Decision (Q x)} (l : list B) :
  (∀ x, x ∈ l → P x ↔ Q x) → filter P l = filter Q l.
Proof.
  induction l as [|x l IH]; intros HPQ; [done|].
  assert (P x ↔ Q x) by (apply HPQ; by left).
  rewrite !filter_cons, IH by (intros y ?; apply HPQ; by right).
  destruct (decide (P x)), (decide (Q x)); naive_solver.
Qed.

(** ** Counting *)

(** How many members of a list pass a test. *)
Fixpoint count_by {A} (p : A → bool) (l : list A) : Z :=
  match l with [] => 0 | x :: rest => (if p x then 1 else 0) + count_by p rest end.

Section count_by.
Context {A : Type} (p : A → bool).

Lemma count_by_app l r : count_by p (l ++ r) = count_by p l + count_by p r.
Proof. induction l as [|x l IH]; cbn; [done|]. rewrite IH. lia. Qed.

Lemma count_by_nonneg l : 0 <= count_by p l.
Proof. induction l as [|x l IH]; cbn; [done|]. destruct (p x); lia. Qed.

Lemma count_by_zero l : count_by p l = 0 ↔ Forall (fun x => p x = false) l.
Proof.
  induction l as [|x l IH]; cbn; [done|]. rewrite Forall_cons, <-IH. pose proof (count_by_nonneg l).
  destruct (p x); [|naive_solver]. split; [lia|by intros [? _]].
Qed.

Lemma count_by_perm l l' : l ≡ₚ l' → count_by p l = count_by p l'.
Proof. induction 1 as [| ? ? ? ? IH | | ? ? ? ? IH ? IH']; cbn; lia. Qed.

Lemma count_by_pos x l : p x = true → x ∈ l → 1 <= count_by p l.
Proof.
  intros Hx [l1 [l2 ->]]%list_elem_of_split. rewrite count_by_app. cbn. rewrite Hx.
  pose proof (count_by_nonneg l1). pose proof (count_by_nonneg l2). lia.
Qed.

Lemma count_by_le (q : A → bool) l : (∀ x, p x = true → q x = true) → count_by p l <= count_by q l.
Proof.
  intros Hpq. induction l as [|x l IH]; cbn; [done|]. specialize (Hpq x). destruct (p x), (q x); lia || naive_solver.
Qed.
End count_by.

(** ** Automation *)

(** Facts the components share; each component adds its own. *)
Create HintDb shbox.
#[export] Hint Resolve klt_irrefl klt_trans : shbox.

(** Case analysis on the scrutinee of a [match] or [if], keeping the equation. *)
Ltac split_match :=
  match goal with
  | |- context [match ?x with _ => _ end] => destruct x eqn:?
  | H : context [match ?x with _ => _ end] |- _ => destruct x eqn:?
  end.

(** Peel the [x ← m; k] chain of an equation about a [result] or a run of [M]. *)
Ltac unfold_monad :=
  unfold mbind, mret, result_bind, result_ret, M_bind, M_ret, fail, getS,
    modifyS, liftR, mapE, tryM in *.

(** Compute through the binds whose first computation is already a value. *)
Ltac bind_step :=
  cbn [mbind mret result_bind result_ret M_bind M_ret map_err ok_or negb andb orb fst snd].

Ltac run_steps :=
  unfold_monad; repeat (split_match; simplify_eq/=).

(** Open up a hypothesis that a run succeeded, one bind at a time. *)
Ltac inv_run :=
  repeat match goal with
  | H : (_ ≫= _) _ = (Ok _, _) |- _ => apply bind_Ok in H as (? & ? & ? & ?)
  | H : mapE _ _ _ = (Ok _, _) |- _ => apply mapE_Ok in H
  | H : tryM _ _ = (Ok _, _) |- _ => apply tryM_Ok in H
  | H : liftR _ _ = (Ok _, _) |- _ => apply liftR_Ok in H as [? ->]
  | H : mret _ _ = (Ok _, _) |- _ => apply ret_Ok in H as [-> ->]
  | H : fail _ _ = (Ok _, _) |- _ => discriminate H
  | H : map_err _ _ = Ok _ |- _ => apply map_err_Ok in H
  | H : ok_or _ _ = Ok _ |- _ => apply ok_or_Ok in H
  | H : (if ?b then _ else _) _ = (Ok _, _) |- _ => destruct b eqn:?
  end.

(** Case analysis on the value a run branches on. *)
Ltac split_run :=
  match goal with
  | H : match ?x with _ => _ end _ = (_, _) |- _ => destruct x eqn:?
  end.

(** Boolean tests of the source as propositions. *)
Ltac bool_to_prop :=
  repeat match goal with
  | H : (_ && _) = true |- _ => apply andb_true_iff in H as [? ?]
  | H : (_ || _) = false |- _ => apply orb_false_iff in H as [? ?]
  | H : (_ <=? _) = true |- _ => apply Z.leb_le in H
  | H : (_ <=? _) = false |- _ => apply Z.leb_gt in H
  | H : (_ <? _) = true |- _ => apply Z.ltb_lt in H
  | H : (_ <? _) = false |- _ => apply Z.ltb_ge in H
  | H : (_ =? _) = true |- _ => apply Z.eqb_eq in H
  | H : (_ =? _) = false |- _ => apply Z.eqb_neq in H
  | H : negb _ = true |- _ => apply negb_true_iff in H
  | H : negb _ = false |- _ => apply negb_false_iff in H
  | H : bool_decide _ = true |- _ => apply bool_decide_eq_true_1 in H
  | H : bool_decide _ = false |- _ => apply bool_decide_eq_false_1 in H
  end.
