(* ===== verification/BTree.v ===== *)
(** * [BTreeMap] as a strictly sorted association list

    [std::collections::BTreeMap] is an ordered map; the source relies on its
    order (the allocator takes the first interval, reconciliation walks the
    leases in sandbox order).  A map is a list of bindings in strictly
    increasing key order; the operations below keep it so. *)

From S2P Require Import Prelude.

Section btree.
Context {K V : Type} `{KeyOrder K}.
#[local] Abbreviation btree := (list (K * V)).

(** Strictly increasing keys. *)
Fixpoint above (k : K) (m : btree) : Prop :=
  match m with
  | [] => True
  | (k', _) :: m' => klt k k' ∧ above k' m'
  end.

Definition sorted (m : btree) : Prop :=
  match m with
  | [] => True
  | (k, _) :: m' => above k m'
  end.

(** [BTreeMap::get]. *)
Fixpoint bt_get (k : K) (m : btree) : option V :=
  match m with
  | [] => None
  | (k', v) :: m' =>
      match kcompare k k' with
      | Eq => Some v
      | _ => bt_get k m'
      end
  end.

(** [BTreeMap::insert]. *)
Fixpoint bt_insert (k : K) (v : V) (m : btree) : btree :=
  match m with
  | [] => [(k, v)]
  | (k', v') :: m' =>
      match kcompare k k' with
      | Lt => (k, v) :: (k', v') :: m'
      | Eq => (k, v) :: m'
      | Gt => (k', v') :: bt_insert k v m'
      end
  end.

(** [BTreeMap::remove]. *)
Fixpoint bt_remove (k : K) (m : btree) : btree :=
  match m with
  | [] => []
  | (k', v') :: m' =>
      match kcompare k k' with
      | Eq => m'
      | _ => (k', v') :: bt_remove k m'
      end
  end.

(** [BTreeMap::range(..=k).next_back()]: the greatest binding not above [k]. *)
Fixpoint bt_last_le (k : K) (m : btree) : option (K * V) :=
  match m with
  | [] => None
  | (k', v') :: m' =>
      match kcompare k' k with
      | Gt => None
      | _ => match bt_last_le k m' with
             | Some b => Some b
             | None => Some (k', v')
             end
      end
  end.

(** [iter().collect::<BTreeMap<_, _>>()]: later bindings win. *)
Definition bt_collect (l : list (K * V)) : btree :=
  foldl (fun m b => bt_insert b.1 b.2 m) [] l.

Lemma above_weaken k k' m : klt k k' → above k' m → above k m.
Proof. destruct m as [|[a v] m]; simpl; [done|]. intros ? [??]; eauto with shbox. Qed.

Lemma above_sorted k m : above k m → sorted m.
Proof. destruct m as [|[a v] m]; simpl; naive_solver. Qed.

Lemma above_lt k m a v : above k m → (a, v) ∈ m → klt k a.
Proof.
  revert k; induction m as [|[b w] m IH]; intros k Hab Hin; [by apply not_elem_of_nil in Hin|].
  destruct Hab as [Hkb Hab]. apply elem_of_cons in Hin as [[= -> ->]|Hin]; [done|].
  eauto with shbox.
Qed.

Lemma above_insert k m a v : klt k a → above k m → above k (bt_insert a v m).
Proof.
  revert k; induction m as [|[b w] m IH]; intros k Hka Hab; simpl; [done|].
  destruct Hab as [Hkb Hab]. destruct (kcompare a b) eqn:Hc; simpl.
  - apply kcompare_eq in Hc; by subst.
  - done.
  - split; [done|]. apply IH; [|done]. by apply kcompare_gt.
Qed.

Lemma above_remove k m a : above k m → above k (bt_remove a m).
Proof.
  revert k; induction m as [|[b w] m IH]; intros k Hab; simpl; [done|].
  destruct Hab as [Hkb Hab].
  destruct (kcompare a b); simpl; eauto using above_weaken.
Qed.

Lemma sorted_insert a v m : sorted m → sorted (bt_insert a v m).
Proof.
  destruct m as [|[b w] m]; simpl; [done|]. intros Hab.
  destruct (kcompare a b) eqn:Hc; simpl.
  - apply kcompare_eq in Hc; by subst.
  - done.
  - apply above_insert; [|done]. by apply kcompare_gt.
Qed.

Lemma sorted_remove a m : sorted m → sorted (bt_remove a m).
Proof.
  destruct m as [|[b w] m]; simpl; [done|]. intros Hab.
  destruct (kcompare a b); simpl; eauto using above_sorted, above_remove.
Qed.

Lemma sorted_tail b m : sorted (b :: m) → sorted m.
Proof. destruct b; apply above_sorted. Qed.

Lemma sorted_collect l : sorted (bt_collect l).
Proof.
  unfold bt_collect. cut (sorted []); [|done]. generalize (@nil (K * V)) as m.
  induction l as [|b l IH]; intros m Hm; simpl; [done|]. by apply IH, sorted_insert.
Qed.

Lemma bt_get_above k m : above k m → bt_get k m = None.
Proof.
  induction m as [|[b w] m IH]; intros Hab; simpl; [done|].
  destruct Hab as [Hkb Hab]. unfold klt in Hkb; rewrite Hkb.
  apply IH. eauto using above_weaken.
Qed.

Lemma bt_get_elem k v m : sorted m → bt_get k m = Some v ↔ (k, v) ∈ m.
Proof.
  induction m as [|[b w] m IH]; intros Hs; simpl.
  { split; [done|]. by intros ?%not_elem_of_nil. }
  rewrite elem_of_cons. specialize (IH (above_sorted _ _ Hs)).
  destruct (kcompare k b) eqn:Hc.
  - apply kcompare_eq in Hc; subst. split; [naive_solver|].
    intros [|Hin]; [naive_solver|]. by apply (above_lt b) in Hin; [apply klt_irrefl in Hin|].
  - rewrite IH. split; [by right|]. intros [[= -> ->]|]; [|done].
    by rewrite kcompare_refl in Hc.
  - rewrite IH. split; [by right|]. intros [[= -> ->]|]; [|done].
    by rewrite kcompare_refl in Hc.
Qed.

Lemma bt_get_insert_eq k v m : bt_get k (bt_insert k v m) = Some v.
Proof.
  induction m as [|[b w] m IH]; simpl; [by rewrite kcompare_refl|].
  destruct (kcompare k b) eqn:Hc; simpl; rewrite ?kcompare_refl; [done..|]. by rewrite Hc.
Qed.

Lemma bt_get_insert_ne k k' v m : k ≠ k' → bt_get k' (bt_insert k v m) = bt_get k' m.
Proof.
  intros Hne. induction m as [|[b w] m IH]; simpl.
  - destruct (kcompare k' k) eqn:Hc; [|done..]. apply kcompare_eq in Hc; congruence.
  - destruct (kcompare k b) eqn:Hc; simpl.
    + apply kcompare_eq in Hc; subst.
      destruct (kcompare k' b) eqn:Hc'; [|done..]. apply kcompare_eq in Hc'; congruence.
    + destruct (kcompare k' k) eqn:Hc'; [|done..]. apply kcompare_eq in Hc'; congruence.
    + by rewrite IH.
Qed.

Lemma bt_get_remove_eq k m : sorted m → bt_get k (bt_remove k m) = None.
Proof.
  induction m as [|[b w] m IH]; simpl; [done|]. intros Hs.
  destruct (kcompare k b) eqn:Hc; simpl.
  - apply kcompare_eq in Hc; subst. by apply bt_get_above.
  - rewrite Hc. eauto using above_sorted.
  - rewrite Hc. eauto using above_sorted.
Qed.

Lemma bt_get_remove_ne k k' m : k ≠ k' → bt_get k' (bt_remove k m) = bt_get k' m.
Proof.
  intros Hne. induction m as [|[b w] m IH]; simpl; [done|].
  destruct (kcompare k b) eqn:Hc; simpl; [|by rewrite IH..].
  apply kcompare_eq in Hc; subst.
  destruct (kcompare k' b) eqn:Hc'; [|done..]. apply kcompare_eq in Hc'; congruence.
Qed.

(** The greatest binding not above [k], characterised. *)
Lemma bt_last_le_Some k m a v :
  sorted m → bt_last_le k m = Some (a, v) →
  (a, v) ∈ m ∧ kle a k ∧ ∀ b w, (b, w) ∈ m → kle b k → kle b a.
Proof.
  revert a v; induction m as [|[b w] m IH]; intros a v Hs Hl; simpl in Hl; [done|].
  assert (Hgo : kcompare b k ≠ Gt) by by destruct (kcompare b k).
  assert (Hl' : match bt_last_le k m with Some b => Some b | None => Some (b, w) end
                = Some (a, v)) by by destruct (kcompare b k).
  clear Hl. destruct (bt_last_le k m) as [[c x]|] eqn:Hm; simplify_eq/=.
  - destruct (IH a v) as (Hin & Hle & Hmax); [by eapply above_sorted|done|].
    split; [by right|]. split; [done|]. intros d y Hd Hdk.
    apply elem_of_cons in Hd as [[= -> ->]|Hd]; [|eauto].
    apply kle_lt_or_eq; left. by eapply above_lt.
  - split; [by left|]. split; [done|]. intros d y Hd Hdk.
    apply elem_of_cons in Hd as [[= -> ->]|Hd].
    { apply kle_lt_or_eq; by right. }
    exfalso. clear IH. induction m as [|[e z] m IHm]; [by apply not_elem_of_nil in Hd|].
    simpl in Hm. destruct Hs as [Hbe Hs].
    destruct (kcompare e k) eqn:He; [by destruct (bt_last_le k m) as [[]|]..|].
    apply kcompare_gt in He. assert (klt k d).
    { apply elem_of_cons in Hd as [[= -> ->]|Hd]; [done|].
      eapply klt_trans; [done|]. by eapply above_lt. }
    apply Hdk. by apply kcompare_gt.
Qed.

Lemma bt_last_le_None k m a v :
  sorted m → bt_last_le k m = None → (a, v) ∈ m → klt k a.
Proof.
  destruct m as [|[b w] m]; intros Hs Hl Hin; [by apply not_elem_of_nil in Hin|].
  simpl in Hl. destruct (kcompare b k) eqn:Hc;
    [by destruct (bt_last_le k m) as [[]|]..|].
  apply kcompare_gt in Hc. apply elem_of_cons in Hin as [[= -> ->]|Hin]; [done|].
  eapply klt_trans; [done|]. by eapply above_lt.
Qed.

(** Membership after an update, for a key below or above the others. *)
Lemma elem_of_bt_insert k v m b :
  sorted m → b ∈ bt_insert k v m ↔ b = (k, v) ∨ (b ∈ m ∧ b.1 ≠ k).
Proof.
  intros Hs. destruct b as [a w]. rewrite <-bt_get_elem by by apply sorted_insert.
  destruct (key_eq_or_ne a k) as [->|Hne].
  - rewrite bt_get_insert_eq. naive_solver.
  - rewrite bt_get_insert_ne, bt_get_elem by congruence || done. naive_solver.
Qed.

Lemma elem_of_bt_remove k m b :
  sorted m → b ∈ bt_remove k m ↔ b ∈ m ∧ b.1 ≠ k.
Proof.
  intros Hs. destruct b as [a w]. rewrite <-bt_get_elem by by apply sorted_remove.
  destruct (key_eq_or_ne a k) as [->|Hne].
  - rewrite bt_get_remove_eq by done. naive_solver.
  - rewrite bt_get_remove_ne, bt_get_elem by congruence || done. naive_solver.
Qed.

Lemma bt_insert_last k v m :
  (∀ b, b ∈ m → klt b.1 k) → bt_insert k v m = m ++ [(k, v)].
Proof.
  induction m as [|[b w] m IH]; intros Hlt; simpl; [done|].
  assert (Hb : klt b k) by (apply (Hlt (b, w)); by left).
  assert (Hc : kcompare k b = Gt) by by apply kcompare_gt.
  rewrite Hc, IH; [done|]. intros x Hx. apply Hlt. by right.
Qed.

Lemma sorted_snoc m k v : sorted m → (∀ b, b ∈ m → klt b.1 k) → sorted (m ++ [(k, v)]).
Proof. intros Hs Hlt. rewrite <-bt_insert_last by done. by apply sorted_insert. Qed.

Lemma sorted_app_lt m k v l b : sorted (m ++ (k, v) :: l) → b ∈ m → klt b.1 k.
Proof.
  induction m as [|[a w] m IH]; intros Hs Hb; [by apply not_elem_of_nil in Hb|].
  apply elem_of_cons in Hb as [->|Hb].
  - simpl in *. eapply above_lt; [exact Hs|]. rewrite elem_of_app. right. by left.
  - apply IH; [|done]. exact (above_sorted _ _ Hs).
Qed.

(** Collecting bindings that are already in order changes nothing. *)
Lemma bt_collect_sorted l : sorted l → bt_collect l = l.
Proof.
  intros Hs. unfold bt_collect.
  enough (Hg : ∀ m, sorted (m ++ l) → foldl (fun m b => bt_insert b.1 b.2 m) m l = m ++ l)
    by exact (Hg [] Hs).
  clear Hs. induction l as [|[k v] l IH]; intros m Hs; simpl; [by rewrite app_nil_r|].
  rewrite bt_insert_last by (intros b Hb; by eapply sorted_app_lt).
  rewrite IH; rewrite <-app_assoc; done.
Qed.

(** Collecting bindings with distinct keys keeps them all. *)
Lemma elem_of_bt_collect l b : NoDup l.*1 → b ∈ bt_collect l ↔ b ∈ l.
Proof.
  unfold bt_collect.
  enough (Hg : ∀ m, sorted m → NoDup l.*1 → (∀ k v, (k, v) ∈ m → k ∉ l.*1) →
    b ∈ foldl (fun m b => bt_insert b.1 b.2 m) m l ↔ b ∈ m ∨ b ∈ l).
  { intros Hnd. rewrite Hg; [|done|done|by intros k v ?%not_elem_of_nil].
    split; [|by right]. by intros [?%not_elem_of_nil|]. }
  induction l as [|[k v] l IH]; intros m Hs Hnd Hk; simpl.
  { split; [by left|]. by intros [|?%not_elem_of_nil]. }
  simpl in Hnd. apply NoDup_cons in Hnd as [Hkl Hnd].
  rewrite IH; [|by apply sorted_insert|done|].
  - rewrite elem_of_bt_insert by done. simpl. rewrite elem_of_cons. split; [naive_solver|].
    intros [Hb|[->|Hb]]; [left|by left; left|by right]. right. split; [done|]. intros Heq.
    destruct b as [k' w]. simpl in Heq; subst. apply (Hk k w Hb). by left.
  - intros k' w. rewrite elem_of_bt_insert by done. intros [[= -> ->]|[Hin _]]; [done|].
    specialize (Hk _ _ Hin). simpl in Hk. rewrite not_elem_of_cons in Hk. tauto.
Qed.

Lemma sorted_NoDup m : sorted m → NoDup m.*1.
Proof.
  induction m as [|[k v] m IH]; intros Hs; simpl; [constructor|].
  apply NoDup_cons. split; [|eauto using above_sorted].
  intros ([k' w] & -> & Hin)%list_elem_of_fmap. simpl in *.
  by eapply klt_irrefl, above_lt.
Qed.

Lemma bt_remove_absent k m : bt_get k m = None → bt_remove k m = m.
Proof.
  induction m as [|[a v] m IH]; simpl; [done|].
  destruct (kcompare k a); [done|..]; intros ?; by rewrite IH.
Qed.

Lemma bt_remove_perm k v m : bt_get k m = Some v → m ≡ₚ (k, v) :: bt_remove k m.
Proof.
  induction m as [|[a w] m IH]; simpl; [done|].
  destruct (kcompare k a) eqn:Hc.
  - intros [= ->]. apply kcompare_eq in Hc. by subst.
  - intros Hg. rewrite (IH Hg) at 1. constructor.
  - intros Hg. rewrite (IH Hg) at 1. constructor.
Qed.

Lemma bt_insert_perm k v m : sorted m → bt_insert k v m ≡ₚ (k, v) :: bt_remove k m.
Proof.
  induction m as [|[a w] m IH]; intros Hs; simpl; [done|]. pose proof (sorted_tail _ _ Hs) as Hs'.
  destruct (kcompare k a) eqn:Hc; [done|..].
  - rewrite bt_remove_absent; [done|]. apply bt_get_above. eapply above_weaken; [|exact Hs]. exact Hc.
  - rewrite (IH Hs'). constructor.
Qed.
End btree.

Arguments above {K V _} k m : simpl nomatch.
Arguments sorted {K V _} m : simpl nomatch.
#[export] Hint Resolve sorted_insert sorted_remove sorted_collect sorted_tail : shbox.
