(* ===== verification/Text.v ===== *)
(** * Rust text primitives

    What the source uses of the standard library's text code: integer
    formatting and parsing, UTF-8 validation and lossy decoding, the [{:?}]
    escaping of strings, and the line and whitespace splitting of [str]. *)

From S2P Require Import Prelude.

(** ** Formatting integers *)

Definition digit_char (d : Z) : Ascii.ascii :=
  Ascii.ascii_of_N (Z.to_N (if d <? 10 then 48 + d else 87 + d)).

(** [{}] of an unsigned integer; the fuel bounds its number of digits. *)
Fixpoint radix_go (base : Z) (fuel : nat) (n : Z) (acc : string) : string :=
  match fuel with
  | O => acc
  | S fuel' =>
      let acc' := String (digit_char (n mod base)) acc in
      if n <? base then acc' else radix_go base fuel' (n / base) acc'
  end.

Definition fmt_dec (n : Z) : string := radix_go 10 (S (Z.to_nat (Z.log2 n))) n EmptyString.
Definition fmt_hex (n : Z) : string := radix_go 16 (S (Z.to_nat (Z.log2 n))) n EmptyString.

(** [{:0wx}]: lower-case hexadecimal, zero-padded to [w] digits. *)
Fixpoint fmt_hex_fixed (w : nat) (n : Z) : string :=
  match w with
  | O => EmptyString
  | S w' => (fmt_hex_fixed w' (n / 16) +:+ String (digit_char (n mod 16)) EmptyString)%stdpp
  end.

(** ** Parsing integers: [str::parse::<uN>] *)

Definition digit_val (c : Ascii.ascii) : option Z :=
  if is_ascii_digit c then Some (byte_val c - 48) else None.

Fixpoint parse_digits (max acc : Z) (s : string) : option Z :=
  match s with
  | EmptyString => Some acc
  | String c s' =>
      match digit_val c with
      | None => None
      | Some d =>
          let acc' := acc * 10 + d in
          if max <? acc' then None else parse_digits max acc' s'
      end
  end.

(** An optional leading plus sign, then at least one digit, within the type. *)
Definition parse_uint (max : Z) (s : string) : option Z :=
  let digits := match strip_prefix "+" s with Some s' => s' | None => s end in
  match digits with
  | EmptyString => None
  | _ => parse_digits max 0 digits
  end.

Definition parse_u32 : string → option Z := parse_uint u32_max.
Definition parse_u64 : string → option Z := parse_uint u64_max.

(** ** UTF-8

    [utf8_next s] inspects the first character of a non-empty byte string:
    whether it is well formed, and how many bytes it (or its longest valid
    prefix) takes. *)

Definition nth_byte (n : nat) (s : string) : Z :=
  match String.get n s with Some c => byte_val c | None => 0 end.

Definition between (lo hi b : Z) : bool := (lo <=? b) && (b <=? hi).

Definition utf8_second (b0 b1 : Z) : bool :=
  if b0 =? 224 then between 160 191 b1
  else if b0 =? 237 then between 128 159 b1
  else if b0 =? 240 then between 144 191 b1
  else if b0 =? 244 then between 128 143 b1
  else between 128 191 b1.

Definition utf8_next (s : string) : bool * nat :=
  let b0 := nth_byte 0 s in
  let b1 := nth_byte 1 s in
  let b2 := nth_byte 2 s in
  let b3 := nth_byte 3 s in
  if b0 <? 128 then (true, 1%nat)
  else if between 194 223 b0 then
    if between 128 191 b1 then (true, 2%nat) else (false, 1%nat)
  else if between 224 239 b0 then
    if negb (utf8_second b0 b1) then (false, 1%nat)
    else if between 128 191 b2 then (true, 3%nat) else (false, 2%nat)
  else if between 240 244 b0 then
    if negb (utf8_second b0 b1) then (false, 1%nat)
    else if negb (between 128 191 b2) then (false, 2%nat)
    else if between 128 191 b3 then (true, 4%nat) else (false, 3%nat)
  else (false, 1%nat).

Fixpoint str_drop (n : nat) (s : string) : string :=
  match n, s with
  | S n', String _ s' => str_drop n' s'
  | _, _ => s
  end.

Fixpoint str_take (n : nat) (s : string) : string :=
  match n, s with
  | S n', String c s' => String c (str_take n' s')
  | _, _ => EmptyString
  end.

(** [std::str::from_utf8(..).is_ok()]. *)
Fixpoint utf8_valid_go (fuel : nat) (s : string) : bool :=
  match fuel, s with
  | _, EmptyString => true
  | O, _ => false
  | S fuel', _ =>
      let '(ok, n) := utf8_next s in
      if ok then utf8_valid_go fuel' (str_drop n s) else false
  end.
Definition utf8_valid (s : string) : bool := utf8_valid_go (String.length s) s.

Definition byte_of (b : Z) : Ascii.ascii := Ascii.ascii_of_N (Z.to_N b).
Definition replacement_char : string :=
  String (byte_of 239) (String (byte_of 191) (String (byte_of 189) EmptyString)).

(** [String::from_utf8_lossy]. *)
Fixpoint utf8_lossy_go (fuel : nat) (s : string) : string :=
  match fuel, s with
  | _, EmptyString => EmptyString
  | O, _ => EmptyString
  | S fuel', _ =>
      let '(ok, n) := utf8_next s in
      ((if ok then str_take n s else replacement_char)
         +:+ utf8_lossy_go fuel' (str_drop n s))%stdpp
  end.
Definition from_utf8_lossy (s : string) : string := utf8_lossy_go (String.length s) s.

(** The scalar value of the first character of a valid UTF-8 string. *)
Definition utf8_scalar (s : string) : Z :=
  let b0 := nth_byte 0 s in
  let cont n := Z.land (nth_byte n s) 63 in
  match (utf8_next s).2 with
  | 2%nat => Z.land b0 31 * 64 + cont 1%nat
  | 3%nat => (Z.land b0 15 * 64 + cont 1%nat) * 64 + cont 2%nat
  | 4%nat => ((Z.land b0 7 * 64 + cont 1%nat) * 64 + cont 2%nat) * 64 + cont 3%nat
  | _ => b0
  end.

(** ** The [Debug] form of a string

    [{:?}] on [str] escapes the quote, the backslash, NUL, tab, newline and
    carriage return by name and every other unprintable scalar as a brace
    escape.  Which scalars above ASCII count as printable is decided by the
    Unicode tables of [core], a parameter here. *)

Definition quote_char : Ascii.ascii := byte_of 34.
Definition backslash_char : Ascii.ascii := byte_of 92.

Definition escape_unicode (cp : Z) : string :=
  (String backslash_char "u{" +:+ fmt_hex cp +:+ "}")%stdpp.

Section debug.
Context (printable : Z → bool).

Definition escape_char (s : string) (n : nat) : string :=
  let cp := utf8_scalar s in
  if cp =? 0 then String backslash_char "0"
  else if cp =? 9 then String backslash_char "t"
  else if cp =? 10 then String backslash_char "n"
  else if cp =? 13 then String backslash_char "r"
  else if cp =? 34 then String backslash_char (String quote_char EmptyString)
  else if cp =? 92 then String backslash_char (String backslash_char EmptyString)
  else if cp <? 128 then
    if between 32 126 cp then str_take n s else escape_unicode cp
  else if printable cp then str_take n s else escape_unicode cp.

Fixpoint debug_go (fuel : nat) (s : string) : string :=
  match fuel, s with
  | _, EmptyString => EmptyString
  | O, _ => EmptyString
  | S fuel', _ =>
      let n := (utf8_next s).2 in
      (escape_char s n +:+ debug_go fuel' (str_drop n s))%stdpp
  end.

Definition debug_str (s : string) : string :=
  (String quote_char (debug_go (String.length s) s) +:+ String quote_char EmptyString)%stdpp.
End debug.

(** ** Whitespace and lines

    [char::is_whitespace] over UTF-8: [ws_prefix] drops one leading white-space
    character. *)

Definition ws_prefix (s : string) : option string :=
  let b0 := nth_byte 0 s in
  let b1 := nth_byte 1 s in
  let b2 := nth_byte 2 s in
  match s with
  | EmptyString => None
  | String _ s' =>
      if between 9 13 b0 || (b0 =? 32) then Some s'
      else if (b0 =? 194) && ((b1 =? 133) || (b1 =? 160)) then Some (str_drop 2 s)
      else if ((b0 =? 225) && (b1 =? 154) && (b2 =? 128))
           || ((b0 =? 226) && (b1 =? 128)
               && (between 128 138 b2 || (b2 =? 168) || (b2 =? 169) || (b2 =? 175)))
           || ((b0 =? 226) && (b1 =? 129) && (b2 =? 159))
           || ((b0 =? 227) && (b1 =? 128) && (b2 =? 128))
      then Some (str_drop 3 s)
      else None
  end.

Fixpoint trim_start_go (fuel : nat) (s : string) : string :=
  match fuel, ws_prefix s with
  | S fuel', Some s' => trim_start_go fuel' s'
  | _, _ => s
  end.
(** [str::trim_start]. *)
Definition trim_start (s : string) : string := trim_start_go (String.length s) s.

(** [str::trim_end]: cut at the first position from which only white space
    remains. *)
Fixpoint trim_end (s : string) : string :=
  match trim_start s with
  | EmptyString => EmptyString
  | _ => match s with
         | EmptyString => EmptyString
         | String c s' => String c (trim_end s')
         end
  end.

(** [str::trim]. *)
Definition trim (s : string) : string := trim_end (trim_start s).

(** The characters before the first white space, and the rest. *)
Fixpoint take_word (fuel : nat) (s : string) : string * string :=
  match fuel, s with
  | S fuel', String c s' =>
      match ws_prefix s with
      | Some _ => (EmptyString, s)
      | None => let '(w, rest) := take_word fuel' s' in (String c w, rest)
      end
  | _, _ => (EmptyString, s)
  end.

(** [str::split_whitespace]. *)
Fixpoint split_whitespace_go (fuel : nat) (s : string) : list string :=
  match fuel, trim_start s with
  | _, EmptyString => []
  | O, _ => []
  | S fuel', t =>
      let '(w, rest) := take_word (String.length t) t in
      w :: split_whitespace_go fuel' rest
  end.
Definition split_whitespace (s : string) : list string :=
  split_whitespace_go (String.length s) s.

(** [str::split_ascii_whitespace]: runs of bytes other than space, tab, line
    feed, form feed and carriage return. *)
Definition is_ascii_whitespace (c : Ascii.ascii) : bool :=
  let b := byte_val c in
  (b =? 32) || (b =? 9) || (b =? 10) || (b =? 12) || (b =? 13).

Fixpoint split_ascii_go (cur : option (string → string)) (s : string) : list string :=
  match s with
  | EmptyString => match cur with Some f => [f EmptyString] | None => [] end
  | String c s' =>
      if is_ascii_whitespace c then
        match cur with
        | Some f => f EmptyString :: split_ascii_go None s'
        | None => split_ascii_go None s'
        end
      else
        let f := default (fun t => t) cur in
        split_ascii_go (Some (fun t => f (String c t))) s'
  end.
Definition split_ascii_whitespace (s : string) : list string := split_ascii_go None s.

(** [str::split_once(c)]. *)
Fixpoint split_once (c : Ascii.ascii) (s : string) : option (string * string) :=
  match s with
  | EmptyString => None
  | String a s' =>
      if bool_decide (a = c) then Some (EmptyString, s')
      else match split_once c s' with
           | Some (l, r) => Some (String a l, r)
           | None => None
           end
  end.

Definition newline : Ascii.ascii := byte_of 10.
Definition cr_str : string := String (byte_of 13) EmptyString.

(** [str::lines]: split at newlines, drop one trailing carriage return per
    line, and no final empty line. *)
Fixpoint split_lines (cur : string → string) (s : string) : list string :=
  match s with
  | EmptyString => match cur EmptyString with EmptyString => [] | l => [l] end
  | String c s' =>
      if bool_decide (c = newline) then
        let l := cur EmptyString in
        (match strip_suffix cr_str l with Some l' => l' | None => l end)
          :: split_lines (fun t => t) s'
      else split_lines (fun t => cur (String c t)) s'
  end.
Definition lines (s : string) : list string := split_lines (fun t => t) s.
