(* ===== verification/PathNames.v ===== *)
(** * Paths as text ([std::path], [Paths::contains])

    A [PathBuf] that a client or the configuration names is its text; what the
    source compares are its components.  [Path::ancestors] walks the parents, and
    [contains] is the containment test of [paths.rs]. *)

From S2P Require Import Prelude Text.

(** [str::split(c)]: the segments between the separators, the empty ones too. *)
Fixpoint split_on (c : Ascii.ascii) (cur : string → string) (s : string) : list string :=
  match s with
  | EmptyString => [cur EmptyString]
  | String a s' =>
      if bool_decide (a = c) then cur EmptyString :: split_on c (fun t => t) s'
      else split_on c (fun t => cur (String a t)) s'
  end.

(** [str::split_once(sep)] for a separator of several characters. *)
Fixpoint split_once_str (sep s : string) : option (string * string) :=
  match strip_prefix sep s with
  | Some rest => Some (EmptyString, rest)
  | None =>
      match s with
      | EmptyString => None
      | String a s' =>
          match split_once_str sep s' with
          | Some (l, r) => Some (String a l, r)
          | None => None
          end
      end
  end.

(** [str::contains(c)] for one character. *)
Definition contains_char (c : Ascii.ascii) (s : string) : bool :=
  negb (str_all (fun a => negb (bool_decide (a = c))) s).

Definition ends_with (suf s : string) : bool :=
  match strip_suffix suf s with Some _ => true | None => false end.

Module Path.

(** [Path::components]: the root, then the names; a leading dot of a relative
    path stays. *)
Definition components (s : string) : list string :=
  let names := split_on (byte_of 47) (fun t => t) s in
  let plain := filter (fun n => n ≠ "" ∧ n ≠ ".") in
  if starts_with "/" s then "/" :: plain names
  else match names with
       | "." :: rest => "." :: plain rest
       | _ => plain names
       end.

(** [Path::is_absolute] on Unix. *)
Definition is_absolute (s : string) : bool := starts_with "/" s.

(** [Path::strip_prefix], on components. *)
Fixpoint strip_components (prefix path : list string) : option (list string) :=
  match prefix, path with
  | [], _ => Some path
  | a :: prefix', b :: path' => if bool_decide (a = b) then strip_components prefix' path' else None
  | _ :: _, [] => None
  end.

(** [Path::parent], on components: the root and the empty path have none. *)
Definition parent (p : list string) : option (list string) :=
  match p with
  | [] => None
  | ["/"] => None
  | _ => Some (removelast p)
  end.

(** [Path::ancestors]: the path, its parent, and so on.  A path has one more
    ancestor than components at most. *)
Fixpoint ancestors_go (fuel : nat) (p : list string) : list (list string) :=
  match fuel with
  | O => []
  | S fuel' => p :: match parent p with Some q => ancestors_go fuel' q | None => [] end
  end.
Definition ancestors (p : list string) : list (list string) := ancestors_go (S (length p)) p.

(** [Paths::contains]: [path] is [root] or lies inside it. *)
Definition contains (root path : string) : bool :=
  existsb (fun dir => bool_decide (dir = components root)) (ancestors (components path)).

(** ** Facts *)

Lemma strip_components_Some prefix path rest :
  strip_components prefix path = Some rest → path = prefix ++ rest.
Proof.
  revert path; induction prefix as [|a prefix IH]; intros path; simpl; [by intros [= ->]|].
  destruct path as [|b path]; [done|]. case_bool_decide; [|done]. subst. intros Hr%IH. by subst.
Qed.

Lemma parent_Some p q : parent p = Some q → ∃ n, p = q ++ [n].
Proof.
  intros Hp. assert (p ≠ [] ∧ q = removelast p) as [Hne ->].
  { unfold parent in Hp. repeat case_match; naive_solver. }
  exists (List.last p ""). by apply app_removelast_last.
Qed.

Lemma parent_snoc p n : p ≠ [] → parent (p ++ [n]) = Some p.
Proof.
  intros Hp. unfold parent. rewrite (removelast_last p n).
  destruct p as [|a [|b p]]; [done|..]; simpl; repeat case_match; done.
Qed.

Lemma ancestors_sound fuel p q : q ∈ ancestors_go fuel p → q `prefix_of` p.
Proof.
  revert p; induction fuel as [|fuel IH]; intros p; simpl; [by intros ?%not_elem_of_nil|].
  intros [-> |Hq]%elem_of_cons; [done|]. destruct (parent p) as [p'|] eqn:Hp.
  - apply parent_Some in Hp as [n ->]. apply IH in Hq. by apply prefix_app_r.
  - by apply not_elem_of_nil in Hq.
Qed.

Lemma ancestors_complete p q l fuel :
  q ≠ [] → p = q ++ l → (length l < fuel)%nat → q ∈ ancestors_go fuel p.
Proof.
  intros Hq ->. revert fuel; induction l as [|n l IH] using rev_ind; intros fuel Hf.
  - destruct fuel as [|fuel]; [simpl in Hf; lia|]. rewrite app_nil_r. by left.
  - rewrite length_app in Hf. simpl in Hf. destruct fuel as [|fuel]; [lia|]. simpl.
    rewrite app_assoc, parent_snoc by (destruct q; done).
    right. apply IH. lia.
Qed.

(** The ancestors of a path are the prefixes of its components: containment is
    the prefix order. *)
Lemma contains_prefix root path :
  components root ≠ [] →
  contains root path = true ↔ components root `prefix_of` components path.
Proof.
  intros Hne. unfold contains. rewrite <-Is_true_true, existb_True, Exists_exists. split.
  - intros (dir & Hin & Hdir). apply bool_decide_unpack in Hdir as ->.
    by apply ancestors_sound in Hin.
  - intros [l Hl]. exists (components root). split; [|by apply bool_decide_pack].
    apply (ancestors_complete _ _ l); [done..|]. rewrite Hl, length_app. lia.
Qed.

Lemma components_absolute s : is_absolute s = true → components s ≠ [].
Proof. unfold components, is_absolute. by intros ->. Qed.
End Path.
