(* ===== verification/Toml.v ===== *)
(** * The TOML boundary

    Metadata and lease records are written by hand-rolled formatting and read
    back through the [toml] and [serde] crates, which are not part of the
    repository.  [TomlCrate] is what the readers call; [TomlLaws] states the two
    facts of the TOML specification the proofs rely on: a document of
    [key = value] lines with distinct bare keys, basic strings without escapes
    and decimal integers parses to those pairs; and a further line whose value
    is a quoted string with Rust's escapes, if the document still parses (not
    every Rust escape is a TOML escape), adds one string under its key.
    [MiniToml] is a concrete parser that satisfies them. *)

From S2P Require Import Prelude Text.

Inductive toml_value :=
| TString (s : string)
| TInteger (n : Z)
| TOther.

Class TomlCrate := {
  toml_error : Type;
  toml_display : toml_error → string;
  toml_custom : string → toml_error;
  toml_parse : string → result toml_error (list (string * toml_value));
}.

(** The Unicode tables behind [{:?}], also outside the repository. *)
Class UnicodeTables := { printable : Z → bool }.

(** ** Reading a struct out of a table: [#[derive(Deserialize)]] with
    [deny_unknown_fields] *)

Section deserialize.
Context `{TomlCrate}.

Fixpoint table_get (key : string) (t : list (string * toml_value)) : option toml_value :=
  match t with
  | [] => None
  | (k, v) :: t' => if bool_decide (k = key) then Some v else table_get key t'
  end.

Definition de_string (key : string) (t : list (string * toml_value)) : result toml_error string :=
  match table_get key t with
  | Some (TString s) => Ok s
  | Some _ => Err (toml_custom "invalid type: expected a string")
  | None => Err (toml_custom ("missing field " +:+ key))
  end.

Definition de_u32 (key : string) (t : list (string * toml_value)) : result toml_error Z :=
  match table_get key t with
  | Some (TInteger n) =>
      if between 0 u32_max n then Ok n else Err (toml_custom "invalid value: expected u32")
  | Some _ => Err (toml_custom "invalid type: expected u32")
  | None => Err (toml_custom ("missing field " +:+ key))
  end.

(** A field marked [#[serde(default)]] of type [Option<String>]. *)
Definition de_opt_string (key : string) (t : list (string * toml_value))
    : result toml_error (option string) :=
  match table_get key t with
  | Some (TString s) => Ok (Some s)
  | Some _ => Err (toml_custom "invalid type: expected a string")
  | None => Ok None
  end.

Definition deny_unknown_fields (fields : list string) (t : list (string * toml_value))
    : result toml_error unit :=
  if forallb (fun kv : string * toml_value => bool_decide (kv.1 ∈ fields)) t then Ok tt
  else Err (toml_custom "unknown field").
End deserialize.

(** ** Documents of plain lines *)

Definition ascii_char : Ascii.ascii → bool := in_range 0 127.

Definition plain_char (c : Ascii.ascii) : bool :=
  in_range 32 126 c && negb (bool_decide (c = quote_char)) && negb (bool_decide (c = backslash_char)).

Definition key_char (c : Ascii.ascii) : bool :=
  is_ascii_alphanumeric c || bool_decide (c = byte_of 95) || bool_decide (c = byte_of 45).

Definition plain_value (v : toml_value) : Prop :=
  match v with
  | TString s => str_all plain_char s = true
  | TInteger n => 0 <= n < 2 ^ 63
  | TOther => False
  end.

Definition bare_key (k : string) : Prop := k ≠ EmptyString ∧ str_all key_char k = true.

Definition render_value (v : toml_value) : string :=
  match v with
  | TString s => (String quote_char s +:+ String quote_char EmptyString)
  | TInteger n => fmt_dec n
  | TOther => EmptyString
  end.

Definition render_line (kv : string * toml_value) : string :=
  (kv.1 +:+ " = " +:+ render_value kv.2 +:+ String newline EmptyString).

Definition render (kvs : list (string * toml_value)) : string :=
  foldr (fun kv acc => render_line kv +:+ acc) EmptyString kvs.

Class TomlLaws `{TomlCrate} : Prop := {
  toml_parse_render : ∀ kvs,
    NoDup kvs.*1 → Forall bare_key kvs.*1 → Forall plain_value kvs.*2 →
    toml_parse (render kvs) = Ok kvs;
  toml_parse_escaped : ∀ (printable : Z → bool) kvs k q t,
    NoDup (kvs.*1 ++ [k]) → Forall bare_key (kvs.*1 ++ [k]) → Forall plain_value kvs.*2 →
    str_all ascii_char q = true →
    toml_parse (render kvs +:+ k +:+ " = " +:+ debug_str printable q
                  +:+ String newline EmptyString) = Ok t →
    ∃ s, t = kvs ++ [(k, TString s)];
}.

(** ** Lemmas on strings *)

Lemma str_app_cons c (a b : string) : (String c a +:+ b) = String c (a +:+ b).
Proof. done. Qed.

Lemma str_app_nil_l (a : string) : (EmptyString +:+ a) = a.
Proof. done. Qed.

Lemma str_all_app p a b : str_all p (a +:+ b) = str_all p a && str_all p b.
Proof. induction a as [|c a IH]; [done|]. rewrite str_app_cons. cbn. rewrite IH. apply andb_assoc. Qed.

Lemma str_all_impl (p q : Ascii.ascii → bool) s :
  (∀ c, p c = true → q c = true) → str_all p s = true → str_all q s = true.
Proof.
  intros Hpq. induction s as [|c s IH]; simpl; [done|]. rewrite !andb_true_iff.
  intros [??]. auto.
Qed.

Lemma str_app_assoc (a b c : string) : ((a +:+ b) +:+ c) = (a +:+ b +:+ c).
Proof. induction a as [|x a IH]; [done|]. rewrite !str_app_cons. cbn. by f_equal. Qed.

Lemma str_app_nil_r (a : string) : (a +:+ EmptyString) = a.
Proof. induction a as [|x a IH]; [done|]. rewrite !str_app_cons. cbn. by f_equal. Qed.

Lemma str_length_app a b : String.length (a +:+ b) = (String.length a + String.length b)%nat.
Proof. induction a as [|x a IH]; [done|]. rewrite !str_app_cons. cbn. by f_equal. Qed.

Lemma str_len_app a b : str_len (a +:+ b) = str_len a + str_len b.
Proof. unfold str_len. rewrite str_length_app. lia. Qed.

Lemma str_len_cons c a : str_len (String c a) = 1 + str_len a.
Proof. unfold str_len. cbn [String.length]. lia. Qed.

Lemma str_len_nil : str_len EmptyString = 0.
Proof. done. Qed.

Lemma str_len_nonneg a : 0 <= str_len a.
Proof. unfold str_len. lia. Qed.

Lemma split_once_app c a b :
  str_all (fun x => negb (bool_decide (x = c))) a = true →
  split_once c (a +:+ String c b) = Some (a, b).
Proof.
  induction a as [|x a IH]; intros Ha; rewrite ?str_app_nil_l, ?str_app_cons; cbn in *.
  - by rewrite bool_decide_true.
  - apply andb_true_iff in Ha as [Hx Ha]. bool_to_prop.
    rewrite bool_decide_false by done. by rewrite IH.
Qed.

Lemma strip_prefix_app p s : strip_prefix p (p +:+ s) = Some s.
Proof.
  induction p as [|c p IH]; [done|]. rewrite str_app_cons. cbn. by rewrite bool_decide_true.
Qed.

Lemma strip_suffix_app suf s : strip_suffix suf (s +:+ suf) = Some s.
Proof.
  induction s as [|c s IH]; rewrite ?str_app_nil_l, ?str_app_cons.
  - destruct suf; cbn; by rewrite bool_decide_true.
  - cbn. rewrite bool_decide_false; [by rewrite IH|].
    intros Heq. apply (f_equal String.length) in Heq. simpl in Heq.
    rewrite str_length_app in Heq. lia.
Qed.

Lemma strip_suffix_Some suf s r : strip_suffix suf s = Some r → s = (r +:+ suf).
Proof.
  revert r; induction s as [|c s IH]; intros r; simpl.
  - case_bool_decide; intros; by simplify_eq.
  - case_bool_decide; intros Hr; [by simplify_eq|].
    destruct (strip_suffix suf s) as [r'|] eqn:Hs; [|done]. simplify_eq/=.
    rewrite str_app_cons. f_equal. by apply IH.
Qed.

Lemma strip_prefix_Some p s r : strip_prefix p s = Some r → s = (p +:+ r).
Proof.
  revert s; induction p as [|c p IH]; intros [|d s]; simpl; intros Hr; simplify_eq/=; try done.
  case_bool_decide; [|done]. subst. rewrite str_app_cons. f_equal. by apply IH.
Qed.

(** ** ASCII text *)


Lemma in_range_bounds lo hi c : in_range lo hi c = true ↔ lo <= byte_val c <= hi.
Proof. unfold in_range. rewrite andb_true_iff, !Z.leb_le. done. Qed.

Lemma byte_val_nonneg c : 0 <= byte_val c.
Proof. unfold byte_val. lia. Qed.

Lemma ascii_char_lt c : ascii_char c = true ↔ byte_val c < 128.
Proof.
  unfold ascii_char. rewrite in_range_bounds. pose proof (byte_val_nonneg c). lia.
Qed.

Lemma utf8_next_ascii c s : ascii_char c = true → utf8_next (String c s) = (true, 1%nat).
Proof.
  rewrite ascii_char_lt. intros Hc. unfold utf8_next, nth_byte. cbn [String.get].
  apply Z.ltb_lt in Hc. by rewrite Hc.
Qed.

Lemma utf8_valid_ascii s : str_all ascii_char s = true → utf8_valid s = true.
Proof.
  unfold utf8_valid. induction s as [|c s IH]; intros Ha; [done|].
  cbn [str_all] in Ha. apply andb_true_iff in Ha as [Hc Ha].
  cbn [String.length utf8_valid_go]. rewrite utf8_next_ascii by done. by apply IH.
Qed.

Lemma from_utf8_lossy_ascii s : str_all ascii_char s = true → from_utf8_lossy s = s.
Proof.
  unfold from_utf8_lossy. induction s as [|c s IH]; intros Ha; [done|].
  cbn [str_all] in Ha. apply andb_true_iff in Ha as [Hc Hs].
  cbn [String.length utf8_lossy_go]. rewrite utf8_next_ascii by done.
  cbn [str_take str_drop]. rewrite str_app_cons, str_app_nil_l, IH; done.
Qed.

Lemma plain_ascii c : plain_char c = true → ascii_char c = true.
Proof.
  unfold plain_char. rewrite !andb_true_iff, in_range_bounds. intros [[? _] _].
  apply ascii_char_lt. lia.
Qed.

Lemma byte_val_inj c d : byte_val c = byte_val d → c = d.
Proof.
  unfold byte_val. intros Hz%N2Z.inj. rewrite <-(Ascii.ascii_N_embedding c), Hz.
  apply Ascii.ascii_N_embedding.
Qed.

(** Plain text is its own [Debug] form, up to the quotes. *)
Lemma debug_str_plain `{UnicodeTables} s :
  str_all plain_char s = true →
  debug_str printable s = (String quote_char s +:+ String quote_char EmptyString).
Proof.
  intros Hs. unfold debug_str. do 2 f_equal.
  induction s as [|c s IH]; [done|]. cbn [str_all] in Hs. apply andb_true_iff in Hs as [Hc Hs].
  cbn [String.length debug_go]. unfold escape_char, utf8_scalar.
  rewrite utf8_next_ascii by by apply plain_ascii. cbn [snd nth_byte String.get str_drop].
  unfold plain_char in Hc. rewrite !andb_true_iff, in_range_bounds in Hc.
  destruct Hc as [[Hr Hq] Hb]. bool_to_prop. unfold nth_byte. cbn [String.get].
  assert (byte_val c ≠ 34) by (intros E; apply Hq; by apply byte_val_inj).
  assert (byte_val c ≠ 92) by (intros E; apply Hb; by apply byte_val_inj).
  repeat match goal with |- context [byte_val c =? ?k] =>
    destruct (byte_val c =? k) eqn:?; bool_to_prop; [lia|] end.
  destruct (byte_val c <? 128) eqn:?; bool_to_prop; [|lia].
  unfold between. destruct (32 <=? byte_val c) eqn:?; bool_to_prop; [|lia].
  destruct (byte_val c <=? 126) eqn:?; bool_to_prop; [|lia].
  cbn [andb str_take]. rewrite IH by done. by rewrite str_app_cons.
Qed.

(** ** Decimal round trip *)

Lemma digit_val_char d : 0 <= d < 10 → digit_val (digit_char d) = Some d.
Proof.
  intros Hd. assert (Hall : forallb (fun w => bool_decide (digit_val (digit_char w) = Some w))
    (seqZ 0 10) = true) by by vm_compute.
  rewrite List.forallb_forall in Hall. apply (bool_decide_eq_true_1 _), Hall.
  apply list_elem_of_In, elem_of_seqZ. lia.
Qed.

Lemma parse_radix fuel n acc z max :
  0 <= n < 10 ^ Z.of_nat fuel → (0 < fuel)%nat → 0 <= z → n <= max →
  z * 10 ^ (str_len (radix_go 10 fuel n acc) - str_len acc) + n <= max →
  parse_digits max z (radix_go 10 fuel n acc) =
    parse_digits max (z * 10 ^ (str_len (radix_go 10 fuel n acc) - str_len acc) + n) acc.
Proof.
  revert n acc; induction fuel as [|fuel IH]; intros n acc Hn Hf Hz Hmax Hb; [lia|].
  cbn [radix_go] in *. destruct (n <? 10) eqn:H10; bool_to_prop.
  - rewrite Z.mod_small in * by lia. cbn [parse_digits]. rewrite digit_val_char by lia.
    unfold str_len in *. cbn [String.length] in *.
    replace (Z.of_nat (S (String.length acc)) - Z.of_nat (String.length acc)) with 1 in * by lia.
    rewrite Z.pow_1_r in *. destruct (max <? z * 10 + n) eqn:Hm; bool_to_prop; [lia|done].
  - set (acc' := String (digit_char (n mod 10)) acc) in *.
    assert (Hdiv : 0 <= n / 10 < 10 ^ Z.of_nat fuel).
    { rewrite Nat2Z.inj_succ, Z.pow_succ_r in Hn by lia.
      split; [apply Z.div_pos; lia|]. apply Z.div_lt_upper_bound; lia. }
    assert (Hf0 : (0 < fuel)%nat).
    { destruct fuel; [|lia]. change (10 ^ Z.of_nat 0) with 1 in Hdiv.
      Z.to_euclidean_division_equations; lia. }
    assert (Hlen : str_len acc' = str_len acc + 1) by (unfold str_len, acc'; cbn; lia).
    assert (Hge : str_len acc' <= str_len (radix_go 10 fuel (n / 10) acc')).
    { clear. generalize acc' as a, (n / 10) as m.
      induction fuel as [|f IHf]; intros a m; cbn [radix_go]; [lia|].
      destruct (m <? 10); [unfold str_len; cbn; lia|].
      etransitivity; [|apply IHf]. unfold str_len; cbn; lia. }
    set (L := str_len (radix_go 10 fuel (n / 10) acc')) in *.
    assert (Hpow : 10 ^ (L - str_len acc) = 10 * 10 ^ (L - str_len acc')).
    { rewrite <-Z.pow_succ_r by lia. f_equal. lia. }
    assert (Hmod : n = 10 * (n / 10) + n mod 10) by (apply Z.div_mod; lia).
    assert (Hp0 : 0 < 10 ^ (L - str_len acc')) by (apply Z.pow_pos_nonneg; lia).
    pose proof (Z.mod_pos_bound n 10 ltac:(lia)) as Hmb.
    assert (Hstep : z * 10 ^ (L - str_len acc) + n =
      (z * 10 ^ (L - str_len acc') + n / 10) * 10 + n mod 10) by (rewrite Hpow; nia).
    rewrite IH; [|done|done|done|nia|unfold L in *; nia].
    fold L. unfold acc' at 2. cbn [parse_digits]. rewrite digit_val_char by lia.
    rewrite <-Hstep. destruct (max <? _) eqn:Hm; bool_to_prop; [lia|done].
Qed.

Lemma log2_fuel n : 0 <= n → n < 10 ^ Z.of_nat (S (Z.to_nat (Z.log2 n))).
Proof.
  intros Hn. destruct (Z.eq_dec n 0) as [->|]; [done|].
  apply Z.lt_le_trans with (2 ^ Z.succ (Z.log2 n)).
  { apply Z.log2_spec. lia. }
  pose proof (Z.log2_nonneg n). rewrite Nat2Z.inj_succ, Z2Nat.id by lia.
  apply Z.pow_le_mono_l. lia.
Qed.

Lemma parse_digits_fmt max n : 0 <= n <= max → parse_digits max 0 (fmt_dec n) = Some n.
Proof.
  intros Hn. unfold fmt_dec. rewrite parse_radix; try lia.
  - done.
  - split; [lia|]. apply log2_fuel. lia.
Qed.

(** The digits of a formatted integer. *)
Lemma radix_go_digits fuel n acc :
  0 <= n → str_all is_ascii_digit acc = true →
  str_all is_ascii_digit (radix_go 10 fuel n acc) = true.
Proof.
  revert n acc; induction fuel as [|fuel IH]; intros n acc Hn Ha; cbn [radix_go]; [done|].
  assert (Hd : is_ascii_digit (digit_char (n mod 10)) = true).
  { pose proof (digit_val_char (n mod 10) ltac:(apply Z.mod_pos_bound; lia)) as Hv.
    unfold digit_val in Hv. by destruct (is_ascii_digit _). }
  assert (Ha' : str_all is_ascii_digit (String (digit_char (n mod 10)) acc) = true).
  { cbn [str_all]. by rewrite Hd, Ha. }
  destruct (n <? 10); [done|]. apply IH; [apply Z.div_pos; lia|done].
Qed.

Lemma fmt_dec_digits n : 0 <= n → str_all is_ascii_digit (fmt_dec n) = true.
Proof. intros. by apply radix_go_digits. Qed.

Lemma radix_go_nonempty fuel n acc c r :
  acc = String c r → ∃ c' r', radix_go 10 fuel n acc = String c' r'.
Proof.
  revert n acc c r; induction fuel as [|fuel IH]; intros n acc c r ->; cbn [radix_go]; [eauto|].
  destruct (n <? 10); eauto.
Qed.

Lemma fmt_dec_nonempty n : ∃ c r, fmt_dec n = String c r.
Proof.
  unfold fmt_dec. cbn [radix_go]. destruct (n <? 10); [eauto|].
  by eapply radix_go_nonempty.
Qed.

(** A plain document is ASCII. *)
Lemma render_ascii kvs :
  Forall bare_key kvs.*1 → Forall plain_value kvs.*2 → str_all ascii_char (render kvs) = true.
Proof.
  induction kvs as [|[k v] kvs IH]; intros Hk Hv; [done|].
  apply Forall_cons in Hk as [[_ Hk] Hks], Hv as [Hv Hvs].
  cbn [render foldr]. fold (render kvs). unfold render_line. cbn [fst snd].
  rewrite !str_all_app, !andb_true_iff. split_and!; [| | |done|by apply IH]; [|done|].
  - eapply str_all_impl; [|exact Hk]. intros c. unfold key_char.
    rewrite !orb_true_iff, !bool_decide_eq_true. unfold is_ascii_alphanumeric.
    unfold is_ascii_digit, is_ascii_alphabetic. rewrite !orb_true_iff, !in_range_bounds.
    rewrite ascii_char_lt. intros [[[|[|]]| ->]| ->]; lia || done.
  - cbn [snd] in Hv. destruct v as [s|n|]; cbn [plain_value render_value] in *; [|..|done].
    + rewrite str_app_cons. cbn [str_all]. rewrite str_all_app.
      rewrite (str_all_impl _ _ _ plain_ascii Hv). done.
    + eapply str_all_impl; [|apply fmt_dec_digits; lia].
      intros c. unfold is_ascii_digit, ascii_char. rewrite !in_range_bounds. lia.
Qed.

(** The [{:?}] form of an ASCII string is printable ASCII. *)
Lemma escape_ascii printable c s :
  ascii_char c = true → str_all (in_range 32 126) (escape_char printable (String c s) 1) = true.
Proof.
  intros Hc. unfold escape_char, utf8_scalar. rewrite utf8_next_ascii by done.
  change (nth_byte 0 (String c s)) with (byte_val c). cbn [snd].
  apply ascii_char_lt in Hc as Hlt. apply Z.ltb_lt in Hlt. rewrite Hlt.
  cbn [str_take]. revert Hc. clear. by destruct c as [[] [] [] [] [] [] [] []]; vm_compute.
Qed.

Lemma debug_str_ascii printable q :
  str_all ascii_char q = true → str_all (in_range 32 126) (debug_str printable q) = true.
Proof.
  intros Hq. unfold debug_str. rewrite str_app_cons. cbn [str_all]. rewrite str_all_app.
  apply andb_true_iff; split; [by vm_compute|]. apply andb_true_iff; split; [|by vm_compute].
  induction q as [|c q IH]; [done|]. cbn [str_all] in Hq. apply andb_true_iff in Hq as [Hc Hq].
  cbn [String.length debug_go]. rewrite utf8_next_ascii by done. cbn [snd str_drop].
  rewrite str_all_app, escape_ascii by done. auto.
Qed.

(** ** A concrete parser *)

Module MiniToml.

Definition parse_value (s : string) : option toml_value :=
  match s with
  | EmptyString => None
  | String c body =>
      if bool_decide (c = quote_char)
      then TString <$> strip_suffix (String quote_char EmptyString) body
      else TInteger <$> parse_digits (2 ^ 63 - 1) 0 s
  end.

Definition parse_line (line : string) : option (string * toml_value) :=
  '(k, v) ← split_once (byte_of 61) line;
  key ← strip_suffix " " k;
  val ← strip_prefix " " v;
  w ← parse_value val;
  Some (key, w).

Fixpoint parse_doc (fuel : nat) (s : string) : option (list (string * toml_value)) :=
  match s, fuel with
  | EmptyString, _ => Some []
  | _, O => None
  | _, S fuel' =>
      '(line, rest) ← split_once newline s;
      kv ← parse_line line;
      kvs ← parse_doc fuel' rest;
      Some (kv :: kvs)
  end.

Definition parse (s : string) : result string (list (string * toml_value)) :=
  match parse_doc (String.length s) s with
  | Some kvs => Ok kvs
  | None => Err "TOML parse error"
  end.

#[global] Instance mini_crate : TomlCrate := {|
  toml_error := string;
  toml_display := fun e => e;
  toml_custom := fun e => e;
  toml_parse := parse;
|}.

#[global] Instance ascii_tables : UnicodeTables := {| printable := fun _ => true |}.

Lemma parse_value_render v : plain_value v → parse_value (render_value v) = Some v.
Proof.
  destruct v as [s|n|]; cbn [plain_value render_value]; [intros _|intros Hn|done].
  - unfold parse_value. rewrite str_app_cons, bool_decide_true by done.
    by rewrite strip_suffix_app.
  - destruct (fmt_dec_nonempty n) as (c & r & Hf). unfold parse_value. rewrite Hf.
    pose proof (fmt_dec_digits n ltac:(lia)) as Hd. rewrite Hf in Hd. cbn in Hd.
    apply andb_true_iff in Hd as [Hd _]. rewrite bool_decide_false.
    + rewrite <-Hf, parse_digits_fmt by lia. done.
    + intros ->. by vm_compute in Hd.
Qed.

Lemma key_split k text :
  bare_key k →
  split_once (byte_of 61) (k +:+ " = " +:+ text) = Some (k +:+ " ", " " +:+ text).
Proof.
  intros [_ Hk].
  change (" = " +:+ text) with (" " +:+ String (byte_of 61) (" " +:+ text)).
  rewrite <-str_app_assoc. apply split_once_app. rewrite str_all_app.
  apply andb_true_iff; split; [|by vm_compute].
  eapply str_all_impl; [|exact Hk]. intros c Hc.
  apply negb_true_iff, bool_decide_eq_false. intros ->. by vm_compute in Hc.
Qed.

Lemma parse_line_render k v :
  bare_key k → plain_value v →
  parse_line (k +:+ " = " +:+ render_value v) = Some (k, v).
Proof.
  intros Hk Hv. unfold parse_line. rewrite key_split by done. cbn [mbind option_bind]. rewrite strip_suffix_app, strip_prefix_app.
  cbn [mbind option_bind]. by rewrite parse_value_render.
Qed.

Lemma line_no_newline k v :
  bare_key k → plain_value v →
  str_all (fun x => negb (bool_decide (x = newline))) (k +:+ " = " +:+ render_value v) = true.
Proof.
  intros [_ Hk] Hv. rewrite !str_all_app, !andb_true_iff. split_and!; [|by vm_compute|].
  - eapply str_all_impl; [|exact Hk]. intros c Hc.
    apply negb_true_iff, bool_decide_eq_false. intros ->. by vm_compute in Hc.
  - destruct v as [s|n|]; cbn [plain_value render_value] in *; [|..|done].
    + rewrite str_app_cons. cbn [str_all]. rewrite str_all_app.
      apply andb_true_iff; split; [by vm_compute|]. apply andb_true_iff; split; [|by vm_compute].
      eapply str_all_impl; [|exact Hv]. intros c Hc.
      apply negb_true_iff, bool_decide_eq_false. intros ->. by vm_compute in Hc.
    + eapply str_all_impl; [|apply (fmt_dec_digits n); lia]. intros c Hc.
      apply negb_true_iff, bool_decide_eq_false. intros ->. by vm_compute in Hc.
Qed.

Lemma debug_line_no_newline printable k q :
  bare_key k → str_all ascii_char q = true →
  str_all (fun x => negb (bool_decide (x = newline)))
    (k +:+ " = " +:+ debug_str printable q) = true.
Proof.
  intros [_ Hk] Hq. rewrite !str_all_app, !andb_true_iff. split_and!; [|by vm_compute|].
  - eapply str_all_impl; [|exact Hk]. intros c Hc.
    apply negb_true_iff, bool_decide_eq_false. intros ->. by vm_compute in Hc.
  - eapply str_all_impl; [|by apply debug_str_ascii]. intros c Hc.
    apply negb_true_iff, bool_decide_eq_false. intros ->. by vm_compute in Hc.
Qed.

Lemma parse_doc_render kvs rest fuel :
  Forall bare_key kvs.*1 → Forall plain_value kvs.*2 →
  (String.length (render kvs +:+ rest) ≤ fuel)%nat →
  parse_doc fuel (render kvs +:+ rest)
  = app kvs <$> parse_doc (fuel - List.length kvs) rest.
Proof.
  revert fuel. induction kvs as [|[k v] kvs IH]; intros fuel Hk Hv Hf.
  { rewrite str_app_nil_l, Nat.sub_0_r. by destruct (parse_doc fuel rest). }
  rewrite !fmap_cons, !Forall_cons in *. destruct Hk as [Hk Hks], Hv as [Hv Hvs].
  cbn [render foldr] in *. fold (render kvs) in *. unfold render_line in *. cbn [fst snd] in *.
  rewrite !str_length_app in Hf. cbn [String.length List.length] in *.
  destruct fuel as [|fuel]; [exfalso; cbn in Hf; lia|].
  assert (Hshape : (((k +:+ " = " +:+ render_value v +:+ String newline EmptyString)
     +:+ render kvs) +:+ rest)
     = ((k +:+ " = " +:+ render_value v) +:+ String newline (render kvs +:+ rest))).
  { by rewrite !str_app_assoc. }
  rewrite Hshape. clear Hshape. destruct (_ +:+ String newline (_ +:+ _)) as [|c r] eqn:Hs.
  { exfalso. apply (f_equal String.length) in Hs. rewrite str_length_app in Hs.
    cbn in Hs. lia. }
  cbn [parse_doc]. rewrite <-Hs. rewrite split_once_app by by apply line_no_newline.
  cbn [mbind option_bind]. rewrite parse_line_render by done. cbn [mbind option_bind].
  rewrite IH; [|done..|rewrite str_length_app; cbn in Hf; lia].
  cbn [Nat.sub]. by destruct (parse_doc (fuel - List.length kvs) rest).
Qed.

#[global] Instance mini_laws : TomlLaws.
Proof.
  constructor.
  - intros kvs _ Hk Hv. simpl. unfold parse.
    pose proof (parse_doc_render kvs EmptyString (String.length (render kvs)) Hk Hv) as Hp.
    rewrite !str_app_nil_r in Hp. rewrite Hp by lia.
    destruct (_ - _)%nat; simpl; by rewrite app_nil_r.
  - intros printable kvs k q t _ Hk Hv Hq. rewrite Forall_app, Forall_singleton in Hk.
    destruct Hk as [Hks Hk]. simpl. unfold parse. rewrite parse_doc_render by done.
    set (fuel := (_ - _)%nat).
    assert (Hl : ∀ kvs', parse_doc fuel (k +:+ " = " +:+ debug_str printable q
        +:+ String newline EmptyString) = Some kvs' → ∃ s, kvs' = [(k, TString s)]).
    2:{ destruct (parse_doc fuel _); simpl; [|done]. intros [= <-].
        destruct (Hl _ eq_refl) as [s ->]. eauto. }
    intros kvs'. destruct fuel as [|fuel']; [by destruct k|].
    assert (Hshape : (k +:+ " = " +:+ debug_str printable q +:+ String newline EmptyString)
      = ((k +:+ " = " +:+ debug_str printable q) +:+ String newline EmptyString))
      by by rewrite !str_app_assoc.
    rewrite Hshape. clear Hshape. destruct (_ +:+ String newline _) as [|c r] eqn:Hs.
    { apply (f_equal String.length) in Hs. rewrite str_length_app in Hs. cbn in Hs. lia. }
    cbn [parse_doc]. rewrite <-Hs, split_once_app by by apply debug_line_no_newline.
    cbn [mbind option_bind]. unfold parse_line. rewrite key_split by done.
    cbn [mbind option_bind]. rewrite strip_suffix_app, strip_prefix_app.
    cbn [mbind option_bind]. unfold debug_str, parse_value. rewrite str_app_cons.
    rewrite bool_decide_eq_true_2, strip_suffix_app by done.
    destruct fuel'; simpl; intros [= <-]; eauto.
Qed.
End MiniToml.
