(* ===== verification/SocketAddr.v ===== *)
(** * Socket addresses ([std::net::SocketAddr])

    The text form of a socket address, as the standard library reads and writes
    it: dotted IPv4 with its port, and bracketed IPv6 with an embedded IPv4 tail,
    the compressed run of zeros and an optional scope.  A listen endpoint is
    printed and read back when the command line names it, so the last section
    proves that reading undoes writing. *)

From S2P Require Import Prelude Text Toml PathNames.

Module Net.

(** An address: four octets, or eight segments with flow information and scope. *)
Inductive addr :=
| V4 (octets : list Z) (port : Z)
| V6 (segments : list Z) (port flowinfo scope_id : Z).

#[global] Instance addr_eq_dec : EqDecision addr.
Proof. solve_decision. Defined.

(** ** Reading *)

(** [char::to_digit(radix)]. *)
Definition to_digit (radix : Z) (c : Ascii.ascii) : option Z :=
  let v := byte_val c in
  let d := if in_range 48 57 c then v - 48
           else if in_range 97 122 c then v - 87
           else if in_range 65 90 c then v - 55 else 36 in
  if d <? radix then Some d else None.

(** The longest run of digits. *)
Fixpoint digit_run (radix : Z) (s : string) : list Z * string :=
  match s with
  | EmptyString => ([], s)
  | String c s' =>
      match to_digit radix c with
      | Some d => let '(ds, rest) := digit_run radix s' in (d :: ds, rest)
      | None => ([], s)
      end
  end.

Definition number (radix : Z) (ds : list Z) : Z := foldl (fun n d => n * radix + d) 0 ds.

Definition parser (A : Type) : Type := string → option (A * string).

(** [Parser::read_number]: at most [max_digits] of them, no superfluous leading
    zero unless allowed, and a value within the type. *)
Definition read_number (radix : Z) (max_digits : option nat) (allow_zero_prefix : bool) (max : Z)
    : parser Z := fun s =>
  let '(ds, rest) := digit_run radix s in
  match ds with
  | [] => None
  | d :: more =>
      if match max_digits with Some k => bool_decide (k < length ds)%nat | None => false end then None
      else if negb allow_zero_prefix && (d =? 0) && negb (bool_decide (more = [])) then None
      else if max <? number radix ds then None
      else Some (number radix ds, rest)
  end.

Definition read_given_char (c : Ascii.ascii) : parser unit := fun s =>
  match s with
  | String a s' => if bool_decide (a = c) then Some (tt, s') else None
  | EmptyString => None
  end.

(** [Parser::read_separator]: the separator before every item but the first. *)
Definition read_separator {A} (sep : Ascii.ascii) (index : nat) (inner : parser A) : parser A := fun s =>
  match index with
  | O => inner s
  | S _ => '(_, s') ← read_given_char sep s; inner s'
  end.

Definition dot : Ascii.ascii := byte_of 46.
Definition colon : Ascii.ascii := byte_of 58.
Definition percent : Ascii.ascii := byte_of 37.
Definition open_bracket : Ascii.ascii := byte_of 91.
Definition close_bracket : Ascii.ascii := byte_of 93.

(** [Parser::read_ipv4_addr]. *)
Definition read_octet (index : nat) : parser Z :=
  read_separator dot index (read_number 10 (Some 3%nat) false 255).
Definition read_ipv4_addr : parser (list Z) := fun s =>
  '(a, s) ← read_octet 0 s;
  '(b, s) ← read_octet 1 s;
  '(c, s) ← read_octet 2 s;
  '(d, s) ← read_octet 3 s;
  Some ([a; b; c; d], s).

(** [read_groups], from the group [i] with [left] groups to read: the groups
    read, whether they end with an embedded IPv4 address, and the text left. *)
Fixpoint read_groups (i left : nat) (s : string) : list Z * bool * string :=
  match left with
  | O => ([], false, s)
  | S left' =>
      match (if bool_decide (1 < left)%nat then read_separator colon i read_ipv4_addr s else None) with
      | Some ([a; b; c; d], rest) => ([a * 256 + b; c * 256 + d], true, rest)
      | _ =>
          match read_separator colon i (read_number 16 (Some 4%nat) true 65535) s with
          | Some (g, rest) =>
              let '(gs, v4, rest') := read_groups (S i) left' rest in (g :: gs, v4, rest')
          | None => ([], false, s)
          end
      end
  end.

(** [Parser::read_ipv6_addr]. *)
Definition read_ipv6_addr : parser (list Z) := fun s =>
  let '(head, head_ipv4, s) := read_groups 0 8 s in
  if bool_decide (length head = 8%nat) then Some (head, s)
  else if head_ipv4 then None
  else
    '(_, s) ← read_given_char colon s;
    '(_, s) ← read_given_char colon s;
    let '(tail, _, s) := read_groups 0 (8 - (length head + 1)) s in
    Some (head ++ replicate (8 - length head - length tail) 0 ++ tail, s).

Definition read_port : parser Z := fun s =>
  '(_, s) ← read_given_char colon s; read_number 10 None true 65535 s.
Definition read_scope_id : parser Z := fun s =>
  '(_, s) ← read_given_char percent s; read_number 10 None true u32_max s.

Definition read_socket_addr_v4 : parser addr := fun s =>
  '(ip, s) ← read_ipv4_addr s; '(port, s) ← read_port s; Some (V4 ip port, s).
Definition read_bracketed (read_ip : parser (list Z)) : parser addr := fun s =>
  '(_, s) ← read_given_char open_bracket s;
  '(ip, s) ← read_ip s;
  let '(scope_id, s) := match read_scope_id s with Some r => r | None => (0, s) end in
  '(_, s) ← read_given_char close_bracket s;
  '(port, s) ← read_port s;
  Some (V6 ip port 0 scope_id, s).
Definition read_socket_addr_v6 : parser addr := read_bracketed read_ipv6_addr.

(** [SocketAddr::from_str]: the whole text. *)
Definition from_str (s : string) : option addr :=
  '(a, rest) ← match read_socket_addr_v4 s with Some r => Some r | None => read_socket_addr_v6 s end;
  match rest with EmptyString => Some a | _ => None end.

(** ** Writing *)

Fixpoint join (sep : string) (l : list string) : string :=
  match l with
  | [] => EmptyString
  | [a] => a
  | a :: l' => a +:+ sep +:+ join sep l'
  end.

(** [Ipv6Addr::to_ipv4_mapped]. *)
Definition to_ipv4_mapped (segments : list Z) : option (list Z) :=
  match segments with
  | [0; 0; 0; 0; 0; m; ab; cd] =>
      if m =? 65535 then Some [ab / 256; ab mod 256; cd / 256; cd mod 256] else None
  | _ => None
  end.

(** The first longest run of zero segments, as a start and a length. *)
Fixpoint longest_zeroes (i : nat) (segments : list Z) (longest current : nat * nat) : nat * nat :=
  match segments with
  | [] => longest
  | segment :: rest =>
      if segment =? 0 then
        let current := ((if bool_decide (current.2 = 0%nat) then i else current.1), S current.2) in
        longest_zeroes (S i) rest (if bool_decide (longest.2 < current.2)%nat then current else longest)
          current
      else longest_zeroes (S i) rest longest (0%nat, 0%nat)
  end.

Definition fmt_subslice (chunk : list Z) : string := join ":" (fmt_hex <$> chunk).

Definition fmt_ipv4 (octets : list Z) : string := join "." (fmt_dec <$> octets).

Definition fmt_ipv6 (segments : list Z) : string :=
  match to_ipv4_mapped segments with
  | Some octets => "::ffff:" +:+ fmt_ipv4 octets
  | None =>
      let '(start, len) := longest_zeroes 0 segments (0%nat, 0%nat) (0%nat, 0%nat) in
      if bool_decide (1 < len)%nat
      then fmt_subslice (take start segments) +:+ "::" +:+ fmt_subslice (drop (start + len) segments)
      else fmt_subslice segments
  end.

(** [Display]. *)
Definition to_string (a : addr) : string :=
  match a with
  | V4 octets port => fmt_ipv4 octets +:+ ":" +:+ fmt_dec port
  | V6 segments port _ scope_id =>
      "[" +:+ fmt_ipv6 segments +:+ (if scope_id =? 0 then "" else "%" +:+ fmt_dec scope_id)
          +:+ "]:" +:+ fmt_dec port
  end.

(** [SocketAddr::from(([0, 0, 0, 0], port))]. *)
Definition unspecified (port : Z) : addr := V4 [0; 0; 0; 0] port.

(** The values of the type; reading leaves the flow information at zero. *)
Definition wf (a : addr) : Prop :=
  match a with
  | V4 octets port => length octets = 4%nat ∧ Forall (fun o => 0 <= o <= 255) octets ∧ 0 <= port <= 65535
  | V6 segments port flowinfo scope_id =>
      length segments = 8%nat ∧ Forall (fun g => 0 <= g <= 65535) segments ∧ 0 <= port <= 65535 ∧
      flowinfo = 0 ∧ 0 <= scope_id <= u32_max
  end.

Example addr_examples :
  from_str "127.0.0.1:22" = Some (V4 [127; 0; 0; 1] 22) ∧
  from_str "[::1]:8080" = Some (V6 [0; 0; 0; 0; 0; 0; 0; 1] 8080 0 0) ∧
  from_str "[fe80::1%3]:22" = Some (V6 [65152; 0; 0; 0; 0; 0; 0; 1] 22 0 3) ∧
  from_str "[::ffff:10.0.0.1]:1" = Some (V6 [0; 0; 0; 0; 0; 65535; 2560; 1] 1 0 0) ∧
  from_str "127.0.0.01:22" = None ∧ from_str "localhost:22" = None ∧
  from_str "1.2.3.4:65536" = None ∧ from_str "1.2.3.4:22x" = None ∧
  to_string (V6 [0; 1; 0; 0; 2; 0; 0; 0] 443 0 0) = "[0:1:0:0:2::]:443" ∧
  to_string (V6 [0; 0; 0; 0; 0; 65535; 2560; 1] 1 0 0) = "[::ffff:10.0.0.1]:1".
Proof. by vm_compute. Qed.

(** ** Numbers read back *)

Definition text (ds : list Z) : string := foldr (fun d s => String (digit_char d) s) EmptyString ds.

Definition is_digit (radix d : Z) : Prop := 0 <= d < radix.

(** [s] does not continue a number. *)
Definition stops (s : string) : Prop :=
  match s with EmptyString => True | String c _ => to_digit 16 c = None end.

Lemma to_digit_char radix d : 0 < radix <= 16 → is_digit radix d → to_digit radix (digit_char d) = Some d.
Proof.
  intros Hr Hd. assert (Hall : forallb (fun r => forallb (fun w =>
      bool_decide (w < r → to_digit r (digit_char w) = Some w)) (seqZ 0 16)) (seqZ 0 17) = true)
    by by vm_compute.
  rewrite List.forallb_forall in Hall. specialize (Hall radix).
  rewrite List.forallb_forall in Hall. unfold is_digit in Hd.
  assert (Hw : bool_decide (d < radix → to_digit radix (digit_char d) = Some d) = true).
  { apply Hall; apply list_elem_of_In, elem_of_seqZ; lia. }
  apply bool_decide_eq_true_1 in Hw. apply Hw. lia.
Qed.

Lemma to_digit_mono c : to_digit 16 c = None → to_digit 10 c = None.
Proof.
  unfold to_digit. repeat case_match; try done; bool_to_prop; lia.
Qed.

Lemma digit_run_text radix ds rest :
  (radix = 10 ∨ radix = 16) → Forall (is_digit radix) ds → stops rest →
  digit_run radix (text ds +:+ rest) = (ds, rest).
Proof.
  intros Hr Hds Hstop. induction Hds as [|d ds Hd Hds IH].
  - rewrite str_app_nil_l. destruct rest as [|c rest]; [done|]. cbn in *.
    destruct Hr as [-> | ->]; [by rewrite to_digit_mono|by rewrite Hstop].
  - change (text (d :: ds)) with (String (digit_char d) (text ds)). rewrite str_app_cons. cbn.
    rewrite to_digit_char by (done || lia). by rewrite IH.
Qed.

Lemma number_snoc radix ds d : number radix (ds ++ [d]) = number radix ds * radix + d.
Proof. unfold number. by rewrite foldl_app. Qed.

(** A formatted number: its digits, without a leading zero. *)
Lemma radix_text radix fuel n acc :
  1 < radix → 0 <= n < radix ^ Z.of_nat (S fuel) →
  ∃ d ds, radix_go radix (S fuel) n acc = text (d :: ds) +:+ acc ∧
    Forall (is_digit radix) (d :: ds) ∧ number radix (d :: ds) = n ∧
    (ds = [] ∨ d ≠ 0 ∧ radix ^ Z.of_nat (length ds) <= n).
Proof.
  intros Hr. revert n acc; induction fuel as [|fuel IH]; intros n acc Hn; cbn [radix_go].
  - rewrite Z.pow_1_r in Hn. destruct (n <? radix) eqn:Hlt; bool_to_prop; [|lia].
    exists n, []. rewrite Z.mod_small by lia. split_and!; [done| |done|by left].
    constructor; [|done]. done.
  - pose proof (Z.div_mod n radix ltac:(lia)) as Hdm.
    pose proof (Z.mod_pos_bound n radix ltac:(lia)) as Hmb.
    destruct (n <? radix) eqn:Hlt; bool_to_prop.
    { exists n, []. rewrite Z.mod_small by lia. split_and!; [done| |done|by left].
      constructor; [|done]. unfold is_digit. lia. }
    rewrite Nat2Z.inj_succ, Z.pow_succ_r in Hn by lia.
    destruct (IH (n / radix) (String (digit_char (n mod radix)) acc)) as (d & ds & Ht & Hds & Hv & Hz).
    { split; [apply Z.div_pos; lia|]. apply Z.div_lt_upper_bound; lia. }
    exists d, (ds ++ [n mod radix]). split_and!.
    + cbn [radix_go] in Ht. rewrite Ht. clear. change (d :: ds ++ [n mod radix]) with ((d :: ds) ++ [n mod radix]).
      induction (d :: ds) as [|e es IH]; [done|]. cbn [text foldr app]. fold (text es) (text (es ++ [n mod radix])).
      rewrite !str_app_cons. by f_equal.
    + rewrite app_comm_cons, Forall_app. split; [done|]. constructor; [done|constructor].
    + rewrite app_comm_cons, number_snoc, Hv. lia.
    + right. assert (Hq : radix ^ Z.of_nat (length ds) <= n / radix).
      { destruct Hz as [-> |[_ Hz]]; [|done]. simpl. apply Z.div_le_lower_bound; lia. }
      rewrite length_app, Nat2Z.inj_add, Z.pow_add_r by lia. simpl. rewrite Z.pow_1_r. split; [|nia].
      destruct Hz as [-> |[Hd _]]; [|done]. cbn in Hv. intros ->. cbn in Hq.
      pose proof (Z.div_le_lower_bound n radix 1). lia.
Qed.

Lemma log2_radix radix n : 2 <= radix → 0 <= n → n < radix ^ Z.of_nat (S (Z.to_nat (Z.log2 n))).
Proof.
  intros Hr Hn. destruct (Z.eq_dec n 0) as [-> |]; [simpl; lia|].
  apply Z.lt_le_trans with (2 ^ Z.succ (Z.log2 n)); [apply Z.log2_spec; lia|].
  pose proof (Z.log2_nonneg n). rewrite Nat2Z.inj_succ, Z2Nat.id by lia.
  apply Z.pow_le_mono_l. lia.
Qed.

Definition fmt_radix (radix n : Z) : string := radix_go radix (S (Z.to_nat (Z.log2 n))) n EmptyString.

Lemma read_formatted radix max_digits zero max n rest :
  (radix = 10 ∨ radix = 16) → 0 <= n <= max → stops rest →
  (∀ k, max_digits = Some k → (0 < k)%nat ∧ n < radix ^ Z.of_nat k) →
  read_number radix max_digits zero max (fmt_radix radix n +:+ rest) = Some (n, rest).
Proof.
  intros Hr Hn Hstop Hk.
  destruct (radix_text radix (Z.to_nat (Z.log2 n)) n EmptyString) as (d & ds & Ht & Hds & Hv & Hz).
  { lia. } { split; [lia|]. apply log2_radix; lia. }
  unfold fmt_radix. rewrite Ht, str_app_nil_r. unfold read_number.
  rewrite digit_run_text by done. rewrite Hv.
  assert (Hlen : match max_digits with
                 | Some k => bool_decide (k < length (d :: ds))%nat | None => false end = false).
  { destruct max_digits as [k|]; [|done]. apply bool_decide_eq_false_2. simpl.
    destruct (Hk k eq_refl) as [Hk0 Hlt]. destruct Hz as [-> |[_ Hge]]; [simpl; lia|].
    enough (Z.of_nat (length ds) < Z.of_nat k) by lia.
    apply (Z.pow_lt_mono_r_iff radix); lia. }
  rewrite Hlen. replace (max <? n) with false by (symmetry; apply Z.ltb_ge; lia).
  replace (negb zero && (d =? 0) && negb (bool_decide (ds = []))) with false; [done|].
  destruct Hz as [-> |[Hd _]].
  - rewrite bool_decide_true by done. by rewrite andb_false_r.
  - apply Z.eqb_neq in Hd. rewrite Hd. by rewrite andb_false_r.
Qed.

Lemma fmt_stops c s : to_digit 16 c = None → stops (String c s).
Proof. done. Qed.

(** [s] does not contain [c]. *)
Definition lacks (c : Ascii.ascii) (s : string) : bool := str_all (fun x => negb (bool_decide (x = c))) s.

(** A group of hexadecimal digits is not the start of a dotted address. *)
Lemma digit_run_group s rest radix :
  lacks dot s = true → stops rest →
  match rest with String c _ => c ≠ dot | EmptyString => True end →
  match (digit_run radix (s +:+ rest)).2 with
  | String c _ => c ≠ dot | EmptyString => True end ∨ 16 < radix.
Proof.
  intros Hs Hstop Hdot. destruct (decide (16 < radix)) as [|Hr]; [by right|left].
  induction s as [|c s IH]; rewrite ?str_app_nil_l, ?str_app_cons.
  - destruct rest as [|c rest]; [done|]. cbn in *.
    assert (to_digit radix c = None) as ->; [|done].
    unfold to_digit in *. repeat case_match; try done; bool_to_prop; lia.
  - cbn in Hs. apply andb_true_iff in Hs as [Hc Hs]. cbn. destruct (to_digit radix c).
    + destruct (digit_run radix (s +:+ rest)) eqn:Hrun. cbn in *. by apply IH.
    + cbn. by bool_to_prop.
Qed.

Lemma fmt_radix_lacks c radix n :
  1 < radix <= 16 → to_digit radix c = None → 0 <= n → lacks c (fmt_radix radix n) = true.
Proof.
  intros Hr Hc Hn. destruct (radix_text radix (Z.to_nat (Z.log2 n)) n EmptyString) as (d & ds & Ht & Hds & _).
  { lia. } { split; [lia|]. apply log2_radix; lia. }
  unfold fmt_radix, lacks. rewrite Ht, str_app_nil_r. clear Ht.
  induction Hds as [|e es He Hes IH]; [done|].
  change (text (e :: es)) with (String (digit_char e) (text es)). cbn [str_all].
  rewrite IH, andb_true_r. apply negb_true_iff, bool_decide_eq_false_2. intros Heq.
  pose proof (to_digit_char radix e ltac:(lia) He) as Hd. by rewrite Heq, Hc in Hd.
Qed.

Lemma fmt_hex_no_dot n : 0 <= n → lacks dot (fmt_hex n) = true.
Proof. intros. by apply (fmt_radix_lacks dot 16). Qed.

(** What ends a run of groups: a bracket, a scope, or the compressed zeros. *)
Definition ends_groups (s : string) : Prop :=
  match s with
  | String c s' => c = close_bracket ∨ c = percent ∨
                   (c = colon ∧ match s' with String c' _ => c' = colon | EmptyString => False end)
  | EmptyString => False
  end.

Lemma ends_groups_stops s : ends_groups s → stops s ∧ match s with String c _ => c ≠ dot | EmptyString => True end.
Proof. destruct s as [|c s]; [done|]. cbn. intros [-> |[-> |[-> _]]]; done. Qed.

Lemma number_stops radix k zero max s :
  (radix = 10 ∨ radix = 16) → stops s → read_number radix k zero max s = None.
Proof.
  intros Hr Hs. unfold read_number. destruct s as [|c s]; [done|]. cbn in *.
  destruct Hr as [-> | ->]; [by rewrite to_digit_mono|by rewrite Hs].
Qed.

Lemma no_group_follows i s :
  ends_groups s →
  read_separator colon i read_ipv4_addr s = None ∧
  read_separator colon i (read_number 16 (Some 4%nat) true 65535) s = None.
Proof.
  intros He. pose proof (ends_groups_stops _ He) as [Hs _]. destruct i as [|i]; cbn [read_separator].
  - unfold read_ipv4_addr, read_octet. cbn [read_separator].
    rewrite !number_stops by auto. done.
  - destruct s as [|c s]; [done|]. cbn [ends_groups] in He. cbn [read_given_char].
    destruct He as [-> |[-> |[-> Hc]]]; [done..|].
    rewrite bool_decide_true by done. cbn. destruct s as [|c' s]; [done|]. subst c'.
    unfold read_ipv4_addr, read_octet. cbn [read_separator]. rewrite !number_stops by (done || auto). done.
Qed.

Lemma no_ipv4_group n rest :
  0 <= n → stops rest → match rest with String c _ => c ≠ dot | EmptyString => True end →
  read_ipv4_addr (fmt_hex n +:+ rest) = None.
Proof.
  intros Hn Hs Hdot. unfold read_ipv4_addr.
  change (read_octet 0) with (read_number 10 (Some 3%nat) false 255).
  destruct (read_number 10 (Some 3%nat) false 255 (fmt_hex n +:+ rest)) as [[a s']|] eqn:Hr; [|done].
  destruct (digit_run_group (fmt_hex n) rest 10) as [Hd|]; [by apply fmt_hex_no_dot|done..| |lia].
  assert (Hs' : (digit_run 10 (fmt_hex n +:+ rest)).2 = s').
  { revert Hr. unfold read_number. destruct (digit_run _ _) as [ds r].
    repeat (case_match; try done); by intros [= _ <-]. }
  rewrite Hs' in Hd. cbn. unfold read_octet. cbn [read_separator]. destruct s' as [|c s']; [done|].
  cbn. by rewrite bool_decide_false.
Qed.

Fixpoint groups_text (i : nat) (gs : list Z) : string :=
  match gs with
  | [] => EmptyString
  | g :: gs' => match i with O => "" | S _ => ":" end +:+ fmt_hex g +:+ groups_text (S i) gs'
  end.

Lemma groups_text_S i gs : groups_text (S i) gs = groups_text 1 gs.
Proof.
  revert i; induction gs as [|g gs IH]; intros i; [done|]. cbn [groups_text]. by rewrite !(IH (S _)).
Qed.

Lemma join_groups g gs : fmt_subslice (g :: gs) = fmt_hex g +:+ groups_text 1 gs.
Proof.
  revert g; induction gs as [|g' gs IH]; intros g.
  - cbn [groups_text]. rewrite str_app_nil_r. done.
  - unfold fmt_subslice in *. cbn [groups_text].
    change (join ":" (fmt_hex <$> g :: g' :: gs))
      with (fmt_hex g +:+ ":" +:+ join ":" (fmt_hex <$> g' :: gs)).
    by rewrite IH, (groups_text_S 1).
Qed.

Lemma subslice_text gs : fmt_subslice gs = groups_text 0 gs.
Proof. destruct gs as [|g gs]; [done|]. rewrite join_groups. done. Qed.

Lemma groups_text_follow i gs rest :
  ends_groups rest →
  stops (groups_text (S i) gs +:+ rest) ∧
  match groups_text (S i) gs +:+ rest with String c _ => c ≠ dot | EmptyString => True end.
Proof.
  intros He. destruct gs as [|g gs].
  - rewrite str_app_nil_l. by apply ends_groups_stops.
  - cbn [groups_text]. rewrite !str_app_assoc, !str_app_cons. done.
Qed.

(** Reading a printed run of groups. *)
Lemma read_groups_text i left gs rest :
  Forall (fun g => 0 <= g <= 65535) gs → (length gs <= left)%nat → ends_groups rest →
  read_groups i left (groups_text i gs +:+ rest) = (gs, false, rest).
Proof.
  intros Hgs. revert i left; induction Hgs as [|g gs Hg Hgs IH]; intros i left Hlen He.
  - cbn [groups_text]. rewrite str_app_nil_l. destruct left as [|left]; [done|]. cbn [read_groups].
    destruct (no_group_follows i rest He) as [H4 H6]. rewrite H6, H4.
    by destruct (bool_decide _).
  - destruct left as [|left]; [simpl in Hlen; lia|]. simpl in Hlen.
    destruct (groups_text_follow i gs rest He) as [Hstop Hdot].
    assert (Hsep : ∀ A (p : parser A), read_separator colon i p (groups_text i (g :: gs) +:+ rest)
                     = p (fmt_hex g +:+ groups_text (S i) gs +:+ rest)).
    { intros A p. cbn [groups_text]. rewrite !str_app_assoc. destruct i; [by rewrite str_app_nil_l|].
      rewrite str_app_cons. cbn [read_separator read_given_char]. by rewrite bool_decide_true. }
    cbn [read_groups]. rewrite !Hsep, no_ipv4_group by (done || lia).
    rewrite (read_formatted 16) by (auto; lia || (intros ? [= <-]; cbn; lia)).
    rewrite IH by (done || lia). by destruct (bool_decide _).
Qed.

(** ** Addresses read back *)

Definition zero_span (l : list Z) (span : nat * nat) : Prop :=
  (span.1 + span.2 <= length l)%nat ∧ ∀ k, (span.1 <= k < span.1 + span.2)%nat → l !! k = Some 0.

Lemma longest_zeroes_span pre post longest current :
  zero_span pre longest → zero_span pre current → (current.1 + current.2 = length pre ∨ current.2 = 0)%nat →
  zero_span (pre ++ post) (longest_zeroes (length pre) post longest current).
Proof.
  revert pre longest current; induction post as [|g post IH]; intros pre longest current Hl Hc Hend.
  - by rewrite app_nil_r.
  - assert (Hgrow : ∀ span, zero_span pre span → zero_span (pre ++ [g]) span).
    { intros span [Hb Hz]. split; [rewrite length_app; lia|]. intros k Hk.
      rewrite lookup_app_l by lia. auto. }
    cbn [longest_zeroes]. replace (S (length pre)) with (length (pre ++ [g])) by (rewrite length_app; simpl; lia).
    rewrite cons_middle, app_assoc. destruct (g =? 0) eqn:Hg; bool_to_prop.
    + subst g. set (cur := (_, S current.2)).
      assert (Hcur : zero_span (pre ++ [0]) cur ∧ (cur.1 + cur.2)%nat = length (pre ++ [0%Z])).
      { rewrite length_app. unfold cur, zero_span. simpl. destruct Hc as [Hb Hz].
        assert (Hs : ((if bool_decide (current.2 = 0%nat) then length pre else current.1) + S current.2
                      = length pre + 1)%nat) by (case_bool_decide; lia).
        rewrite length_app. simpl. split; [|done]. split; [lia|]. intros k Hk.
        destruct (decide (k < length pre)%nat).
        - rewrite lookup_app_l by lia. apply Hz. case_bool_decide; lia.
        - rewrite lookup_app_r by lia. by replace (k - length pre)%nat with 0%nat by lia. }
      destruct Hcur as [Hcur Hend']. apply IH; [case_bool_decide; auto|done|by left].
    + apply IH; [auto| |by right]. split; [simpl; lia|]. simpl. lia.
Qed.

Lemma compressed_zeroes l start len :
  longest_zeroes 0 l (0%nat, 0%nat) (0%nat, 0%nat) = (start, len) →
  (start + len <= length l)%nat ∧ l = take start l ++ replicate len 0 ++ drop (start + len) l.
Proof.
  intros Hl. destruct (longest_zeroes_span [] l (0%nat, 0%nat) (0%nat, 0%nat)) as [Hb Hz].
  { by split; [|simpl; lia]. } { by split; [|simpl; lia]. } { by right. }
  simpl in Hb, Hz. rewrite Hl in Hb, Hz. simpl in Hb, Hz. split; [done|].
  rewrite <-(take_drop start l) at 1. f_equal. rewrite <-(take_drop len (drop start l)) at 1.
  rewrite drop_drop. f_equal. apply list_eq. intros k. destruct (decide (k < len)%nat).
  - rewrite lookup_take_lt, lookup_drop, lookup_replicate_2 by lia. apply Hz. lia.
  - rewrite lookup_take_ge by lia. symmetry. apply lookup_ge_None. rewrite length_replicate. lia.
Qed.

Lemma octet_char_stops rest : stops (String dot rest).
Proof. done. Qed.

Lemma read_ipv4_text octets rest :
  length octets = 4%nat → Forall (fun o => 0 <= o <= 255) octets → stops rest →
  read_ipv4_addr (fmt_ipv4 octets +:+ rest) = Some (octets, rest).
Proof.
  intros Hlen Ho Hrest. destruct octets as [|a [|b [|c [|d []]]]]; try done.
  repeat (apply Forall_cons in Ho as [? Ho]).
  assert (Hn : ∀ o r, 0 <= o <= 255 → stops r →
    read_number 10 (Some 3%nat) false 255 (fmt_dec o +:+ r) = Some (o, r)).
  { intros o r Hor Hr. apply (read_formatted 10); [by left|lia|done|]. intros k [= <-]. cbn. lia. }
  change (fmt_ipv4 [a; b; c; d])
    with (fmt_dec a +:+ "." +:+ fmt_dec b +:+ "." +:+ fmt_dec c +:+ "." +:+ fmt_dec d).
  rewrite !str_app_assoc. unfold read_ipv4_addr, read_octet. cbn [read_separator].
  do 3 (rewrite Hn by (done || lia); cbn [mbind option_bind];
        rewrite str_app_cons; cbn [read_given_char]; rewrite bool_decide_true by done;
        cbn [mbind option_bind]; rewrite str_app_nil_l).
  by rewrite Hn by (done || lia).
Qed.

Lemma mapped_segments segments octets :
  to_ipv4_mapped segments = Some octets → Forall (fun g => 0 <= g <= 65535) segments →
  ∃ a b c d, octets = [a; b; c; d] ∧ segments = [0; 0; 0; 0; 0; 65535; a * 256 + b; c * 256 + d] ∧
    Forall (fun o => 0 <= o <= 255) octets.
Proof.
  unfold to_ipv4_mapped. intros Hm Hs. repeat (case_match; try done). bool_to_prop. simplify_eq.
  repeat (apply Forall_cons in Hs as [? Hs]).
  eexists _, _, _, _. split; [done|].
  repeat match goal with |- context [?x / 256] => is_var x;
    pose proof (Z.div_mod x 256 ltac:(lia)); pose proof (Z.mod_pos_bound x 256 ltac:(lia));
    assert (0 <= x / 256 < 256) by (split; [apply Z.div_pos|apply Z.div_lt_upper_bound]; lia);
    generalize dependent (x / 256); generalize dependent (x mod 256); intros end.
  split; [do 5 f_equal; repeat f_equal; lia|]. repeat constructor; lia.
Qed.

Definition one_group (i left' : nat) (later : string → list Z * bool * string) (s : string)
    : list Z * bool * string :=
  match (if bool_decide (1 < S left')%nat then read_separator colon i read_ipv4_addr s else None) with
  | Some ([a; b; c; d], rest) => ([a * 256 + b; c * 256 + d], true, rest)
  | _ =>
      match read_separator colon i (read_number 16 (Some 4%nat) true 65535) s with
      | Some (g, rest) => let '(gs, v4, rest') := later rest in (g :: gs, v4, rest')
      | None => ([], false, s)
      end
  end.

Lemma read_groups_S i left' s :
  read_groups i (S left') s = one_group i left' (read_groups (S i) left') s.
Proof. done. Qed.

Lemma read_ipv6_mapped a b c d rest :
  Forall (fun o => 0 <= o <= 255) [a; b; c; d] → ends_groups rest →
  read_ipv6_addr ("::ffff:" +:+ fmt_ipv4 [a; b; c; d] +:+ rest)
    = Some ([0; 0; 0; 0; 0; 65535; a * 256 + b; c * 256 + d], rest).
Proof.
  intros Ho He. unfold read_ipv6_addr.
  set (tail := fmt_ipv4 [a; b; c; d] +:+ rest).
  assert ("::ffff:" +:+ tail = String colon (String colon ("ffff:" +:+ tail))) as -> by done.
  pose proof (read_groups_text 0 8 [] (String colon (String colon ("ffff:" +:+ tail)))) as Hhead.
  cbn [groups_text] in Hhead. rewrite str_app_nil_l in Hhead.
  rewrite Hhead by first [apply Forall_nil; done | simpl; lia | by right; right].
  rewrite bool_decide_false by done. cbn [read_given_char]. rewrite !bool_decide_true by done.
  cbn [mbind option_bind length Nat.sub Nat.add].
  assert (Htail : read_groups 1 6 (String colon tail) = ([a * 256 + b; c * 256 + d], true, rest)).
  { rewrite read_groups_S. generalize (read_groups 2 5) as later. intros later. unfold one_group.
    rewrite bool_decide_true by lia. cbn [read_separator read_given_char].
    rewrite bool_decide_true by done. cbn [mbind option_bind]. unfold tail.
    by rewrite read_ipv4_text by (done || apply ends_groups_stops, He). }
  assert (Hfmt : "ffff:" +:+ tail = fmt_hex 65535 +:+ String colon tail).
  { assert (fmt_hex 65535 = "ffff") as -> by by vm_compute. by rewrite !str_app_cons, !str_app_nil_l. }
  rewrite Hfmt. clear Hfmt Hhead. clearbody tail.
  assert (Hff : read_groups 0 7 (fmt_hex 65535 +:+ String colon tail) =
                ([65535; a * 256 + b; c * 256 + d], true, rest)).
  { remember (String colon tail) as more eqn:Hmore.
    rewrite read_groups_S. revert Htail. generalize (read_groups 1 6) as later. intros later Htail.
    unfold one_group. rewrite bool_decide_true by lia. cbn [read_separator].
    rewrite no_ipv4_group by (subst; done || lia).
    rewrite (read_formatted 16) by (subst; done || lia || auto || (intros ? [= <-]; cbn; lia)).
    rewrite Htail. reflexivity. }
  cbn [read_given_char]. rewrite bool_decide_true by done. cbn [mbind option_bind].
  rewrite Hff. reflexivity.
Qed.

Lemma read_ipv6_text segments rest :
  length segments = 8%nat → Forall (fun g => 0 <= g <= 65535) segments → ends_groups rest →
  match rest with String c _ => c ≠ colon | EmptyString => True end →
  read_ipv6_addr (fmt_ipv6 segments +:+ rest) = Some (segments, rest).
Proof.
  intros Hlen Hs He Hcolon. unfold fmt_ipv6.
  destruct (to_ipv4_mapped segments) as [octets|] eqn:Hm.
  - apply mapped_segments in Hm as (a & b & c & d & -> & -> & Ho); [|done].
    rewrite str_app_assoc. by apply read_ipv6_mapped.
  - destruct (longest_zeroes 0 segments _ _) as [start len] eqn:Hz.
    apply compressed_zeroes in Hz as [Hb Hsplit]. case_bool_decide as Hlen1.
    + unfold read_ipv6_addr. rewrite !subslice_text, !str_app_assoc.
      set (back := drop (start + len) segments) in *.
      assert (Hfront : length (take start segments) = start) by (rewrite length_take; lia).
      assert (Hback : length back = (8 - start - len)%nat) by (unfold back; rewrite length_drop; lia).
      rewrite read_groups_text; [|by apply Forall_take|lia|by right; right].
      rewrite bool_decide_false by lia. rewrite !str_app_cons, str_app_nil_l.
      do 2 (cbn [read_given_char]; rewrite bool_decide_true by done; cbn [mbind option_bind]).
      rewrite read_groups_text; [|by apply Forall_drop|lia|done].
      rewrite Hfront, Hback. replace (8 - start - (8 - start - len))%nat with len by lia.
      by rewrite <-Hsplit.
    + unfold read_ipv6_addr. rewrite subslice_text.
      rewrite read_groups_text by (done || lia). by rewrite bool_decide_true.
Qed.

Lemma v4_not_bracketed s : read_socket_addr_v4 (String open_bracket s) = None.
Proof. done. Qed.

Lemma no_scope_at_bracket s : read_scope_id (String close_bracket s) = None.
Proof. done. Qed.

Lemma read_port_text port :
  0 <= port <= 65535 → read_port (":" +:+ fmt_dec port) = Some (port, EmptyString).
Proof.
  intros Hp. unfold read_port. rewrite str_app_cons, str_app_nil_l. cbn [read_given_char].
  rewrite bool_decide_true by done. cbn [mbind option_bind].
  rewrite <-(str_app_nil_r (fmt_dec port)). apply (read_formatted 10); (done || by left).
Qed.

Lemma read_scope_text scope_id rest :
  0 <= scope_id <= u32_max → stops rest →
  read_scope_id (String percent (fmt_dec scope_id +:+ rest)) = Some (scope_id, rest).
Proof.
  intros Hs Hrest. unfold read_scope_id. cbn [read_given_char].
  rewrite bool_decide_true by done. cbn [mbind option_bind].
  apply (read_formatted 10); (done || by left).
Qed.

Lemma bracketed_steps read_ip s ip s1 scope_id s2 port s3 :
  read_ip s = Some (ip, s1) →
  match read_scope_id s1 with Some r => r | None => (0, s1) end = (scope_id, String close_bracket s2) →
  read_port s2 = Some (port, s3) →
  read_bracketed read_ip (String open_bracket s) = Some (V6 ip port 0 scope_id, s3).
Proof.
  intros Hip Hscope Hport. unfold read_bracketed. cbn [read_given_char].
  rewrite bool_decide_true by done. cbn [mbind option_bind]. rewrite Hip. cbn [mbind option_bind].
  rewrite Hscope. cbn [read_given_char]. rewrite bool_decide_true by done. cbn [mbind option_bind].
  by rewrite Hport.
Qed.

Lemma read_v6_text segments port scope_id :
  wf (V6 segments port 0 scope_id) →
  read_socket_addr_v6 (to_string (V6 segments port 0 scope_id))
    = Some (V6 segments port 0 scope_id, EmptyString).
Proof.
  intros (Hlen & Hs & Hp & _ & Hscope). unfold to_string, read_socket_addr_v6.
  pose proof (read_port_text port Hp) as Hport.
  assert (Hbr : "]:" +:+ fmt_dec port = String close_bracket (":" +:+ fmt_dec port))
    by by rewrite !str_app_cons.
  rewrite Hbr. clear Hbr. revert Hport. generalize (":" +:+ fmt_dec port) as tail. intros tail Hport.
  rewrite str_app_cons, str_app_nil_l. destruct (scope_id =? 0) eqn:Hz; bool_to_prop.
  - subst scope_id. rewrite str_app_nil_l. eapply bracketed_steps; [| |exact Hport].
    + apply read_ipv6_text; [done..|by left|done].
    + by rewrite no_scope_at_bracket.
  - rewrite str_app_assoc, str_app_cons, str_app_nil_l. eapply bracketed_steps; [| |exact Hport].
    + apply read_ipv6_text; [done..|by right; left|done].
    + by rewrite read_scope_text.
Qed.

(** Reading undoes writing. *)
Lemma from_str_to_string a : wf a → from_str (to_string a) = Some a.
Proof.
  destruct a as [octets port|segments port flowinfo scope_id]; unfold from_str.
  - intros (Hlen & Ho & Hp). cbn [to_string]. unfold read_socket_addr_v4.
    rewrite read_ipv4_text by (done || by rewrite str_app_cons). cbn [mbind option_bind].
    rewrite read_port_text by done. reflexivity.
  - intros Hwf. assert (flowinfo = 0) as -> by apply Hwf. rewrite read_v6_text by done.
    cbn [to_string]. rewrite str_app_cons, v4_not_bracketed. reflexivity.
Qed.

(** ** What is read is an address *)

Lemma digit_run_range radix s ds rest : digit_run radix s = (ds, rest) → Forall (fun d => 0 <= d) ds.
Proof.
  revert ds rest; induction s as [|c s IH]; intros ds rest; cbn; [by intros [= <- _]|].
  destruct (to_digit radix c) as [d|] eqn:Hd; [|by intros [= <- _]].
  destruct (digit_run radix s) as [ds' rest']. intros [= <- _]. constructor; [|by eapply IH].
  revert Hd. unfold to_digit, in_range. repeat case_match; try done; intros [= <-]; bool_to_prop; lia.
Qed.

Lemma number_nonneg radix ds : 0 <= radix → Forall (fun d => 0 <= d) ds → 0 <= number radix ds.
Proof.
  intros Hr. induction ds as [|d ds IH] using rev_ind; [done|].
  rewrite Forall_app, Forall_singleton. intros [Hds Hd]. rewrite number_snoc. apply IH in Hds. nia.
Qed.

Lemma read_number_range radix k zero max s n rest :
  0 <= radix → read_number radix k zero max s = Some (n, rest) → 0 <= n <= max.
Proof.
  intros Hr. unfold read_number. destruct (digit_run radix s) as [ds r] eqn:Hrun.
  apply digit_run_range in Hrun. destruct ds as [|d ds]; [done|].
  destruct (max <? number radix (d :: ds)) eqn:Hmax; [by repeat (case_match; try done)|].
  repeat (case_match; try done); intros [= <- _]; bool_to_prop;
    (split; [by apply number_nonneg|done]).
Qed.

Lemma read_octet_range i s o rest : read_octet i s = Some (o, rest) → 0 <= o <= 255.
Proof.
  unfold read_octet, read_separator. destruct i; [by apply read_number_range|].
  destruct (read_given_char dot s) as [[]|]; [|done]. by apply read_number_range.
Qed.

Lemma read_ipv4_wf s octets rest :
  read_ipv4_addr s = Some (octets, rest) → length octets = 4%nat ∧ Forall (fun o => 0 <= o <= 255) octets.
Proof.
  unfold read_ipv4_addr. intros Hr.
  do 4 (apply bind_Some in Hr as ([? ?] & ?%read_octet_range & Hr)).
  simplify_eq. split; [done|]. by repeat apply Forall_cons_2 || apply Forall_nil_2.
Qed.

Lemma read_groups_wf i left s gs v4 rest :
  read_groups i left s = (gs, v4, rest) →
  (length gs <= left)%nat ∧ Forall (fun g => 0 <= g <= 65535) gs.
Proof.
  revert i s gs v4 rest; induction left as [|left IH]; intros i s gs v4 rest; [by intros [= <- _ _]|].
  rewrite read_groups_S. unfold one_group.
  set (o := if bool_decide _ then _ else _).
  assert (Ho : ∀ octets r, o = Some (octets, r) →
    (1 < S left)%nat ∧ length octets = 4%nat ∧ Forall (fun o => 0 <= o <= 255) octets).
  { intros octets r. unfold o. case_bool_decide; [|done]. intros Hv. split; [done|].
    unfold read_separator in Hv. destruct i; [by eapply read_ipv4_wf|].
    destruct (read_given_char colon s) as [[]|]; [|done]. by eapply read_ipv4_wf. }
  assert (Hplain : match read_separator colon i (read_number 16 (Some 4%nat) true 65535) s with
      | Some (g, rest) => let '(gs, v4, rest') := read_groups (S i) left rest in (g :: gs, v4, rest')
      | None => ([], false, s) end = (gs, v4, rest) →
    (length gs <= S left)%nat ∧ Forall (fun g => 0 <= g <= 65535) gs).
  { clear o Ho. destruct (read_separator colon i (read_number 16 (Some 4%nat) true 65535) s) as [[g r]|] eqn:Hg;
      [|intros ?; simplify_eq; split; [simpl; lia|done]].
    destruct (read_groups (S i) left r) as [[gs' v4'] r'] eqn:Hrec. apply IH in Hrec as [Hl Hf].
    intros ?; simplify_eq. split; [simpl; lia|]. apply Forall_cons_2; [|done]. revert Hg.
    unfold read_separator. destruct i; [by apply read_number_range|].
    destruct (read_given_char colon s) as [[]|]; [|done]. by apply read_number_range. }
  destruct o as [[octets r]|]; [|done]. destruct (Ho octets r eq_refl) as (Hleft & Hlen & Hoct).
  destruct octets as [|a [|b [|c [|d []]]]]; try done.
  intros ?; simplify_eq. repeat (apply Forall_cons in Hoct as [? Hoct]).
  split; [simpl; lia|]. apply Forall_cons_2; [lia|]. apply Forall_cons_2; [lia|done].
Qed.

Lemma read_ipv6_wf s segments rest :
  read_ipv6_addr s = Some (segments, rest) →
  length segments = 8%nat ∧ Forall (fun g => 0 <= g <= 65535) segments.
Proof.
  unfold read_ipv6_addr. destruct (read_groups 0 8 s) as [[head v4] s1] eqn:Hh.
  apply read_groups_wf in Hh as [Hl Hf]. case_bool_decide; [by intros [= <- _]|].
  destruct v4; [done|]. intros Hr. do 2 apply bind_Some in Hr as ([[] ?] & _ & Hr).
  destruct (read_groups 0 (8 - (length head + 1)) _) as [[tail v4'] s3] eqn:Ht.
  apply read_groups_wf in Ht as [Hl' Hf']. injection Hr as <- _.
  rewrite !length_app, length_replicate, !Forall_app. split; [lia|]. split_and!; [done| |done].
  apply Forall_replicate. lia.
Qed.

Lemma read_port_range s port rest : read_port s = Some (port, rest) → 0 <= port <= 65535.
Proof.
  unfold read_port. destruct (read_given_char colon s) as [[]|]; [|done]. by apply read_number_range.
Qed.

Lemma from_str_wf s a : from_str s = Some a → wf a.
Proof.
  unfold from_str. intros Hr. apply bind_Some in Hr as ([a' rest] & Ha & Hr).
  assert (a' = a) as -> by (by destruct rest; simplify_eq). clear Hr.
  destruct (read_socket_addr_v4 s) as [r|] eqn:H4; [injection Ha as ->|].
  - unfold read_socket_addr_v4 in H4. apply bind_Some in H4 as ([ip ?] & [? ?]%read_ipv4_wf & H4).
    apply bind_Some in H4 as ([port ?] & ?%read_port_range & [= <- _]). done.
  - unfold read_socket_addr_v6, read_bracketed in Ha.
    apply bind_Some in Ha as ([[] ?] & _ & Ha).
    apply bind_Some in Ha as ([ip s1] & [? ?]%read_ipv6_wf & Ha).
    destruct (match read_scope_id s1 with Some r => r | None => (0, s1) end) as [scope s2] eqn:Hscope.
    apply bind_Some in Ha as ([[] ?] & _ & Ha).
    apply bind_Some in Ha as ([port ?] & ?%read_port_range & [= <- _]).
    do 4 (split; [done|]). revert Hscope. unfold read_scope_id.
    destruct (read_given_char percent s1) as [[[] s5]|]; [|intros [= <- _]; unfold u32_max; lia].
    cbn [mbind option_bind]. destruct (read_number 10 None true u32_max s5) as [[]|] eqn:Hn;
      [|intros [= <- _]; unfold u32_max; lia].
    intros [= <- _]. eapply read_number_range, Hn. lia.
Qed.

(** ** The characters of an address *)

Lemma join_lacks c sep l :
  lacks c sep = true → Forall (fun s => lacks c s = true) l → lacks c (join sep l) = true.
Proof.
  intros Hsep Hl. unfold lacks in *. induction Hl as [|s l Hs Hl IH]; [done|].
  destruct l as [|s' l]; [done|]. change (join sep (s :: s' :: l)) with (s +:+ sep +:+ join sep (s' :: l)).
  by rewrite !str_all_app, Hs, Hsep, IH.
Qed.

Lemma join_fmt_lacks c sep radix l :
  1 < radix <= 16 → to_digit radix c = None → lacks c sep = true → Forall (fun n => 0 <= n) l →
  lacks c (join sep (fmt_radix radix <$> l)) = true.
Proof.
  intros Hr Hc Hsep Hl. apply join_lacks; [done|]. apply Forall_fmap.
  eapply Forall_impl; [exact Hl|]. intros n Hn. by apply fmt_radix_lacks.
Qed.

Lemma fmt_ipv6_lacks c segments :
  to_digit 16 c = None → c ≠ dot → c ≠ colon → Forall (fun g => 0 <= g <= 65535) segments →
  lacks c (fmt_ipv6 segments) = true.
Proof.
  intros Hc Hdot Hcolon Hs. assert (Hn : ∀ l, Forall (fun g => 0 <= g <= 65535) l → Forall (fun g => 0 <= g) l).
  { intros l Hl. eapply Forall_impl; [exact Hl|]. simpl. lia. }
  assert (Hsep : lacks c ":" = true) by (cbn; rewrite bool_decide_false; naive_solver).
  unfold fmt_ipv6. destruct (to_ipv4_mapped segments) as [octets|] eqn:Hm.
  - apply mapped_segments in Hm as (a & b & e & d & -> & _ & Ho); [|done].
    unfold lacks in *. rewrite str_all_app, andb_true_iff. split.
    + assert (c ≠ byte_of 102) by (intros ->; done).
      cbn. rewrite !bool_decide_false by naive_solver. done.
    + apply (join_fmt_lacks c "." 10); [lia|by apply to_digit_mono| |].
      * cbn. rewrite bool_decide_false; naive_solver.
      * eapply Forall_impl; [exact Ho|]. simpl. lia.
  - destruct (longest_zeroes _ _ _ _) as [start len]. unfold lacks in *. case_bool_decide.
    + rewrite !str_all_app, !andb_true_iff. split_and!.
      * apply (join_fmt_lacks c ":" 16); [lia|done..|]. by apply Hn, Forall_take.
      * cbn in *. rewrite bool_decide_false; naive_solver.
      * apply (join_fmt_lacks c ":" 16); [lia|done..|]. by apply Hn, Forall_drop.
    + apply (join_fmt_lacks c ":" 16); [lia|done..|]. by apply Hn.
Qed.

(** No other character is printed: a path or a query never starts inside. *)
Lemma to_string_lacks c a :
  to_digit 16 c = None → c ∉ [dot; colon; percent; open_bracket; close_bracket] → wf a →
  lacks c (to_string a) = true.
Proof.
  intros Hc Hin. rewrite !not_elem_of_cons in Hin. destruct Hin as (? & ? & ? & ? & ? & _).
  assert (Hdec : ∀ n, 0 <= n → lacks c (fmt_dec n) = true).
  { intros n Hn. apply (fmt_radix_lacks c 10); [lia|by apply to_digit_mono|done]. }
  destruct a as [octets port|segments port flowinfo scope_id]; cbn [wf to_string]; unfold lacks in *.
  - intros (Hlen & Ho & Hp). rewrite !str_all_app, !andb_true_iff. split_and!.
    + apply (join_fmt_lacks c "." 10); [lia|by apply to_digit_mono| |].
      * cbn. rewrite bool_decide_false; naive_solver.
      * eapply Forall_impl; [exact Ho|]. simpl. lia.
    + cbn. rewrite bool_decide_false; naive_solver.
    + apply Hdec. lia.
  - intros (Hlen & Hs & Hp & _ & Hscope). rewrite !str_all_app, !andb_true_iff. split_and!.
    + cbn. rewrite bool_decide_false; naive_solver.
    + by apply fmt_ipv6_lacks.
    + destruct (scope_id =? 0); [done|]. rewrite str_all_app, Hdec by lia. rewrite andb_true_r.
      cbn. rewrite bool_decide_false; naive_solver.
    + cbn. rewrite !bool_decide_false; naive_solver.
    + apply Hdec. lia.
Qed.
End Net.
