(* ===== verification/Endpoint.v ===== *)
(** * Listen endpoints ([endpoint.rs])

    The transport URIs the daemon listens on.  Which transports exist is decided
    by the build's features; an endpoint of a transport that was not compiled in
    is refused. *)

From S2P Require Import Prelude Text Toml PathNames SocketAddr.

(** The build: [cfg(feature = ..)] and [cfg(target_os = "linux")]. *)
Class Build := { feature_tcp : bool; feature_ws : bool; target_linux : bool }.

Module Endpoint.

Inductive ListenEndpoint :=
| Tcp (address : Net.addr)
| WebSocket (address : Net.addr) (path : string).

#[global] Instance ListenEndpoint_eq_dec : EqDecision ListenEndpoint.
Proof. solve_decision. Defined.

Definition address (e : ListenEndpoint) : Net.addr :=
  match e with Tcp a => a | WebSocket a _ => a end.

Definition to_string (e : ListenEndpoint) : string :=
  match e with
  | Tcp a => "tcp://" +:+ Net.to_string a
  | WebSocket a path => "ws://" +:+ Net.to_string a +:+ path
  end.

Inductive EndpointError :=
| MissingScheme (input : string)
| Malformed (input detail : string)
| FeatureNotCompiled (input scheme : string)
| UnknownScheme (input scheme : string)
| WssRefused (input : string).

Section endpoint.
Context `{Build} `{UnicodeTables}.

Definition display (e : EndpointError) : string :=
  match e with
  | MissingScheme input =>
      "listen endpoint " +:+ debug_str printable input
        +:+ " must be a transport URI like tcp://0.0.0.0:22 or ws://0.0.0.0:8080/ssh"
  | Malformed input detail => "listen endpoint " +:+ debug_str printable input +:+ ": " +:+ detail
  | FeatureNotCompiled input scheme =>
      "listen endpoint " +:+ debug_str printable input +:+ " uses " +:+ scheme
        +:+ " transport, but shbox was built without the `" +:+ scheme +:+ "` feature"
  | UnknownScheme input scheme =>
      "listen endpoint " +:+ debug_str printable input +:+ ": unknown transport scheme "
        +:+ debug_str printable scheme +:+ " (expected tcp or ws)"
  | WssRefused input =>
      "listen endpoint " +:+ debug_str printable input
        +:+ ": wss:// is not supported; terminate TLS at a reverse proxy and use ws://"
  end.

Definition bad_address (value rest : string) : EndpointError :=
  Malformed value (debug_str printable rest +:+ " is not a valid host:port socket address").

Definition slash : Ascii.ascii := byte_of 47.
Definition question : Ascii.ascii := byte_of 63.
Definition hash : Ascii.ascii := byte_of 35.
Definition nul : Ascii.ascii := byte_of 0.

Definition parse_tcp (rest value : string) : result EndpointError ListenEndpoint :=
  if feature_tcp then
    if contains_char slash rest then Err (Malformed value "tcp endpoints carry no path")
    else a ← ok_or (bad_address value rest) (Net.from_str rest); mret (Tcp a)
  else Err (FeatureNotCompiled value "tcp").

Definition parse_ws (rest value : string) : result EndpointError ListenEndpoint :=
  if feature_ws then
    let '(authority, path) :=
      match split_once slash rest with
      | Some (authority, path) => (authority, String slash path)
      | None => (rest, "/")
      end in
    if bool_decide (authority = "") then Err (bad_address value rest)
    else if contains_char question path
    then Err (Malformed value "query parameters are not part of the WebSocket transport")
    else if contains_char hash path || contains_char nul path
    then Err (Malformed value "invalid WebSocket path")
    else if negb (bool_decide (path = "/"))
            && (negb (starts_with "/" path)
                || existsb (fun segment => bool_decide (segment = "..")) (split_on slash (fun t => t) path))
    then Err (Malformed value ("invalid WebSocket path " +:+ debug_str printable path))
    else a ← ok_or (bad_address value rest) (Net.from_str authority); mret (WebSocket a path)
  else Err (FeatureNotCompiled value "ws").

Definition from_str (value : string) : result EndpointError ListenEndpoint :=
  '(scheme, rest) ← ok_or (MissingScheme value) (split_once_str "://" value);
  if bool_decide (scheme = "tcp") then parse_tcp rest value
  else if bool_decide (scheme = "ws") then parse_ws rest value
  else if bool_decide (scheme = "wss") then Err (WssRefused value)
  else Err (UnknownScheme value scheme).

(** ** Well-formed endpoints

    What a [ListenEndpoint] that was read satisfies: its transport is compiled
    in, and a WebSocket path is rooted, names no parent directory, and carries no
    query, fragment or NUL. *)
Definition ws_path (path : string) : Prop :=
  (∃ rest, path = String slash rest) ∧
  contains_char question path = false ∧ contains_char hash path = false ∧
  contains_char nul path = false ∧
  (".." ∉ split_on slash (fun t => t) path).

Definition wf (e : ListenEndpoint) : Prop :=
  match e with
  | Tcp a => feature_tcp = true ∧ Net.wf a
  | WebSocket a path => feature_ws = true ∧ Net.wf a ∧ ws_path path
  end.

Lemma slash_path_no_parent path :
  negb (bool_decide (path = "/"))
    && (negb (starts_with "/" path)
        || existsb (fun segment => bool_decide (segment = "..")) (split_on slash (fun t => t) path))
    = false → starts_with "/" path = true → ".." ∉ split_on slash (fun t => t) path.
Proof.
  intros Hf Hs Hin. rewrite Hs in Hf. cbn [negb orb] in Hf.
  case_bool_decide as Hp;
    [subst; revert Hin; refine (bool_decide_unpack (".." ∉ _) _); by vm_compute|].
  cbn in Hf. apply (not_true_iff_false _) in Hf. apply Hf, List.existsb_exists.
  exists "..". split; [by apply list_elem_of_In|]. by apply bool_decide_eq_true_2.
Qed.

Lemma starts_with_slash rest : starts_with "/" (String slash rest) = true.
Proof. done. Qed.

Lemma parse_ws_wf rest value e : parse_ws rest value = Ok e → wf e.
Proof.
  unfold parse_ws. destruct feature_ws eqn:Hws; [|done].
  set (ap := match split_once slash rest with Some _ => _ | None => _ end).
  assert (Hpath : ∃ r, ap.2 = String slash r).
  { unfold ap. destruct (split_once slash rest) as [[a p]|]; eexists; [done|]. by vm_compute. }
  destruct ap as [authority path]. cbn in Hpath. destruct Hpath as [r ->].
  case_bool_decide; [done|]. destruct (contains_char question _) eqn:?; [done|].
  destruct (contains_char hash _ || _) eqn:?; [done|]. destruct (_ && _) eqn:Hparent; [done|].
  destruct (Net.from_str authority) as [a|] eqn:Ha; [|done]. intros [= <-]. bool_to_prop.
  split_and!; [done|by eapply Net.from_str_wf|]. split_and!; try done; [by eexists|].
  by apply slash_path_no_parent.
Qed.

Lemma endpoint_wf value e : from_str value = Ok e → wf e.
Proof.
  unfold from_str. destruct (split_once_str "://" value) as [[scheme rest]|]; [|done]. cbn.
  case_bool_decide.
  - unfold parse_tcp. destruct feature_tcp eqn:?; [|done]. destruct (contains_char _ _); [done|].
    destruct (Net.from_str rest) eqn:Ha; [|done]. intros [= <-]. split; [done|].
    by eapply Net.from_str_wf.
  - case_bool_decide; [apply parse_ws_wf|]. by case_bool_decide.
Qed.

Lemma lacks_contains c s : Net.lacks c s = true → contains_char c s = false.
Proof. unfold Net.lacks, contains_char. by intros ->. Qed.

Lemma addr_lacks_slash a : Net.wf a → Net.lacks slash (Net.to_string a) = true.
Proof. intros. apply Net.to_string_lacks; [done| |done]. refine (bool_decide_unpack (slash ∉ _) _). by vm_compute. Qed.

Lemma addr_nonempty a : Net.wf a → Net.to_string a ≠ "".
Proof. intros Hwf He. pose proof (Net.from_str_to_string a Hwf) as Ha. by rewrite He in Ha. Qed.

(** Reading undoes writing. *)
Lemma endpoint_roundtrip e : wf e → from_str (to_string e) = Ok e.
Proof.
  destruct e as [a|a path]; cbn [wf to_string].
  - intros (Hf & Ha). unfold from_str.
    assert (split_once_str "://" ("tcp://" +:+ Net.to_string a) = Some ("tcp", Net.to_string a)) as ->.
    { rewrite !str_app_cons, str_app_nil_l. done. }
    cbn [mbind ok_or result_bind]. rewrite bool_decide_true by done. unfold parse_tcp.
    rewrite Hf, lacks_contains by by apply addr_lacks_slash. by rewrite Net.from_str_to_string.
  - intros (Hf & Ha & (r & ->) & Hq & Hh & Hn & Hparent). unfold from_str.
    assert (split_once_str "://" ("ws://" +:+ Net.to_string a +:+ String slash r)
            = Some ("ws", Net.to_string a +:+ String slash r)) as ->.
    { rewrite !str_app_cons, str_app_nil_l. done. }
    cbn [mbind ok_or result_bind]. rewrite bool_decide_false, bool_decide_true by done. unfold parse_ws.
    rewrite Hf, split_once_app by by apply addr_lacks_slash.
    rewrite bool_decide_false by by apply addr_nonempty. rewrite Hq, Hh, Hn. cbn [orb].
    assert (existsb (fun segment => bool_decide (segment = ".."))
              (split_on slash (fun t => t) (String slash r)) = false) as ->.
    { apply not_true_iff_false. rewrite List.existsb_exists. intros (seg & Hin & ->%bool_decide_eq_true_1).
      by apply Hparent, list_elem_of_In. }
    rewrite starts_with_slash. cbn [negb orb]. rewrite andb_false_r.
    by rewrite Net.from_str_to_string.
Qed.
End endpoint.
End Endpoint.
