(* ===== verification/Idents.v ===== *)
(** * Sandbox identifiers and key fingerprints

    [Id] models [sandbox/id.rs]; [Fingerprint] models the fingerprint half of
    [auth.rs]. *)

From S2P Require Import Prelude Text Toml.

(** ** Sandbox identifiers *)

Module Id.

Definition MAX_ID_BYTES : Z := 64.

Inductive InvalidSandboxId :=
| Empty
| TooLong (length : Z)
| Byte (index : Z) (byte : Ascii.ascii).

(** The loop over [bytes.iter().enumerate().skip(1)]. *)
Fixpoint check_rest (index : Z) (s : string) : result InvalidSandboxId unit :=
  match s with
  | EmptyString => Ok tt
  | String byte s' =>
      if negb (is_ascii_alphanumeric byte) && negb (bool_decide (byte = byte_of 45))
      then Err (Byte index byte)
      else check_rest (index + 1) s'
  end.

(** A [SandboxId] is the string it was parsed from. *)
Definition parse (raw : string) : result InvalidSandboxId string :=
  match raw with
  | EmptyString => Err Empty
  | String first rest =>
      if MAX_ID_BYTES <? str_len raw then Err (TooLong (str_len raw))
      else if negb (is_ascii_alphanumeric first) then Err (Byte 0 first)
      else _ ← check_rest 1 rest; Ok raw
  end.

(** [impl Display for InvalidSandboxId]. *)
Definition display (e : InvalidSandboxId) : string :=
  match e with
  | Empty => "sandbox id is empty"
  | TooLong length =>
      ("sandbox id is " +:+ fmt_dec length +:+ " bytes, the limit is " +:+ fmt_dec MAX_ID_BYTES)
  | Byte index byte =>
      ("sandbox id contains invalid byte 0x" +:+ fmt_hex_fixed 2 (byte_val byte)
         +:+ " at offset " +:+ fmt_dec index)
  end.

(** The documented grammar, [[A-Za-z0-9][A-Za-z0-9-]{0,63}]. *)
Definition id_byte (c : Ascii.ascii) : bool :=
  is_ascii_alphanumeric c || bool_decide (c = byte_of 45).

Definition grammar (raw : string) : Prop :=
  ∃ first rest, raw = String first rest ∧ is_ascii_alphanumeric first = true
    ∧ str_all id_byte rest = true ∧ (String.length rest ≤ 63)%nat.

Lemma check_rest_spec index s :
  check_rest index s = Ok tt ↔ str_all id_byte s = true.
Proof.
  revert index; induction s as [|c s IH]; intros index; simpl; [done|].
  unfold id_byte at 1.
  destruct (is_ascii_alphanumeric c), (bool_decide (c = byte_of 45)); simpl;
    [apply IH..|]. split; discriminate.
Qed.

(** The reported byte is the first one outside the alphabet. *)
Lemma check_rest_error index s e :
  check_rest index s = Err e →
  ∃ good bad rest, s = (good +:+ String bad rest) ∧ str_all id_byte good = true
    ∧ id_byte bad = false ∧ e = Byte (index + str_len good) bad.
Proof.
  revert index; induction s as [|c s IH]; intros index He; simpl in He; [done|].
  destruct (negb (is_ascii_alphanumeric c) && negb (bool_decide (c = byte_of 45))) eqn:Hc.
  - simplify_eq. exists EmptyString, c, s. split_and!; try done.
    + unfold id_byte. destruct (is_ascii_alphanumeric c), (bool_decide (c = byte_of 45)); done.
    + f_equal. unfold str_len; simpl; lia.
  - destruct (IH _ He) as (good & bad & rest & -> & Hg & Hb & ->).
    exists (String c good), bad, rest. split_and!; try done.
    + simpl. rewrite Hg. unfold id_byte.
      destruct (is_ascii_alphanumeric c), (bool_decide (c = byte_of 45)); done.
    + f_equal. unfold str_len; simpl; lia.
Qed.

Lemma parse_ok raw id : parse raw = Ok id ↔ id = raw ∧ grammar raw.
Proof.
  unfold parse, grammar, MAX_ID_BYTES, str_len. destruct raw as [|c s].
  { split; [done|]. intros [_ (f & r & [=] & _)]. }
  destruct (64 <? Z.of_nat (String.length (String c s))) eqn:Hl; bool_to_prop; simpl in Hl.
  { split; [done|]. intros [_ (f & r & [= -> ->] & _ & _ & ?)]. lia. }
  destruct (is_ascii_alphanumeric c) eqn:Hc; simpl.
  - destruct (check_rest 1 s) as [[]|e] eqn:Hr; simpl.
    + apply check_rest_spec in Hr. split.
      * intros [= <-]. split; [done|]. exists c, s. split_and!; try done. lia.
      * intros [-> _]. done.
    + split; [done|]. intros [_ (f & r & [= -> ->] & _ & Hall & _)].
      apply (check_rest_spec 1) in Hall. congruence.
  - split; [done|]. intros [_ (f & r & [= -> ->] & ? & _)]. congruence.
Qed.

Lemma parse_self raw : grammar raw → parse raw = Ok raw.
Proof. intros Hg. by apply parse_ok. Qed.

(** Every byte of an identifier is a letter, a digit or a hyphen. *)
Lemma grammar_bytes raw : grammar raw → str_all id_byte raw = true.
Proof.
  intros (f & r & -> & Hf & Hr & _). simpl. unfold id_byte at 1. by rewrite Hf, Hr.
Qed.

Lemma id_byte_plain c : id_byte c = true → plain_char c = true.
Proof.
  unfold id_byte, is_ascii_alphanumeric, is_ascii_digit, is_ascii_alphabetic.
  rewrite !orb_true_iff, !in_range_bounds. intros Hc.
  assert (Hv : 45 <= byte_val c <= 57 ∨ 65 <= byte_val c <= 90 ∨ 97 <= byte_val c <= 122).
  { destruct Hc as [[|[|]]|Hc]; [lia..|]. bool_to_prop; subst. left. done. }
  unfold plain_char. rewrite !andb_true_iff, in_range_bounds, !negb_true_iff.
  split_and!; [lia..| |];
    apply bool_decide_eq_false_2; intros ->; vm_compute in Hv; intuition congruence.
Qed.

Lemma grammar_plain raw : grammar raw → str_all plain_char raw = true.
Proof. intros Hg. eapply str_all_impl; [apply id_byte_plain|by apply grammar_bytes]. Qed.

Lemma grammar_len raw : grammar raw → 1 <= str_len raw <= MAX_ID_BYTES.
Proof.
  intros (f & r & -> & _ & _ & ?). unfold str_len, MAX_ID_BYTES. simpl. lia.
Qed.

(** [SandboxId::parse] decides the documented grammar on every input, and
    every error value is exact: the empty string, a length beyond the limit, or
    the offset and value of the first byte the grammar refuses. *)
Theorem parse_decides_grammar raw :
  match parse raw with
  | Ok id => id = raw ∧ grammar raw
  | Err Empty => raw = EmptyString
  | Err (TooLong n) => n = str_len raw ∧ MAX_ID_BYTES < n
  | Err (Byte i b) =>
      str_len raw <= MAX_ID_BYTES ∧
      ∃ good rest, raw = (good +:+ String b rest) ∧ i = str_len good
        ∧ (good = EmptyString ∧ is_ascii_alphanumeric b = false
           ∨ grammar good ∧ id_byte b = false)
  end.
Proof.
  destruct (parse raw) as [id|e] eqn:Hp; [by apply parse_ok in Hp|].
  unfold parse in Hp. destruct raw as [|c s]; [by simplify_eq|].
  destruct (MAX_ID_BYTES <? str_len (String c s)) eqn:Hl; bool_to_prop; [by simplify_eq|].
  destruct (is_ascii_alphanumeric c) eqn:Hc; simpl in Hp.
  - destruct (check_rest 1 s) as [|e'] eqn:Hr; simplify_eq/=.
    apply check_rest_error in Hr as (good & bad & rest & -> & Hg & Hb & ->).
    split; [done|]. exists (String c good), rest. split_and!; [done|unfold str_len; simpl; lia|].
    right. split; [|done]. exists c, good. split_and!; try done.
    unfold MAX_ID_BYTES, str_len in Hl. simpl in Hl. rewrite str_length_app in Hl. lia.
  - simplify_eq. split; [done|]. exists EmptyString, s. split_and!; try done. by left.
Qed.

(** An accepted identifier is a safe single path component: it is neither
    empty nor a dot entry nor the reserved host selector [_], it has at most 64
    bytes, and it contains no slash, NUL, dot or white space. *)
Theorem parsed_id_is_safe_component raw id :
  parse raw = Ok id →
  id ≠ EmptyString ∧ id ≠ "." ∧ id ≠ ".." ∧ id ≠ "_" ∧ str_len id <= 64
  ∧ str_all (fun c => negb (bool_decide
      (c ∈ [byte_of 0; byte_of 9; byte_of 10; byte_of 13; byte_of 32; byte_of 46; byte_of 47])))
      id = true.
Proof.
  intros [-> Hg]%parse_ok. pose proof (grammar_len _ Hg) as Hlen. unfold MAX_ID_BYTES in Hlen.
  pose proof (grammar_bytes _ Hg) as Hb. split_and!; try lia.
  1: intros ->; vm_compute in Hlen; intuition congruence.
  1-3: by intros ->.
  eapply str_all_impl; [|exact Hb]. intros c Hc.
  apply negb_true_iff, bool_decide_eq_false_2. rewrite !elem_of_cons. intros Hin.
  assert (Hbad : Forall (fun x => id_byte x = false)
    [byte_of 0; byte_of 9; byte_of 10; byte_of 13; byte_of 32; byte_of 46; byte_of 47])
    by by repeat constructor.
  rewrite Forall_forall in Hbad. rewrite (Hbad c) in Hc; [done|]. by rewrite !elem_of_cons.
Qed.

Lemma parsed_id_is_safe_component_witness :
  parse "Dev-1" = Ok "Dev-1" ∧ "Dev-1" ≠ "..".
Proof.
  split; [reflexivity|].
  destruct (parsed_id_is_safe_component "Dev-1" "Dev-1") as (_ & _ & Hd & _); [reflexivity|].
  exact Hd.
Defined.
End Id.

(** ** Principals: [auth::Role] and [auth::Principal] *)

Module Principals.

Inductive Role := Normal | Admin.

#[global] Instance Role_eq_dec : EqDecision Role.
Proof. solve_decision. Defined.

Record Principal := MkPrincipal { fingerprint : string; role : Role }.

End Principals.

(** ** Key fingerprints *)

Module Fingerprint.

Definition BASE64_ALPHABET : string :=
  "ABCDEFGHIJKLMNOPQRSTUVWXYZabcdefghijklmnopqrstuvwxyz0123456789+/".

Inductive FingerprintError :=
| MissingPrefix
| BadLength (length : Z)
| InvalidCharacter (index : Z) (byte : Ascii.ascii)
| NonCanonical.

Definition wrap_u8 (z : Z) : Z := z mod 256.

Fixpoint position (i : Z) (c : Ascii.ascii) (s : string) : option Z :=
  match s with
  | EmptyString => None
  | String a s' => if bool_decide (a = c) then Some i else position (i + 1) c s'
  end.

Definition base64_value (byte : Ascii.ascii) : option Z := position 0 byte BASE64_ALPHABET.

(** The first loop of [decode_sha256_base64]: characters to 6-bit values. *)
Fixpoint values_of (index : Z) (s : string) : result FingerprintError (list Z) :=
  match s with
  | EmptyString => Ok []
  | String byte s' =>
      match base64_value byte with
      | None => Err (InvalidCharacter index byte)
      | Some v => vs ← values_of (index + 1) s'; Ok (v :: vs)
      end
  end.

(** The loop over [values[..40].as_chunks::<4>()]. *)
Definition decode_group (v0 v1 v2 v3 : Z) : list Z :=
  [ Z.lor (wrap_u8 (Z.shiftl v0 2)) (Z.shiftr v1 4);
    Z.lor (wrap_u8 (Z.shiftl v1 4)) (Z.shiftr v2 2);
    Z.lor (wrap_u8 (Z.shiftl v2 6)) v3 ].

Fixpoint decode_groups (n : nat) (vs : list Z) : list Z :=
  match n, vs with
  | S n', v0 :: v1 :: v2 :: v3 :: vs' => decode_group v0 v1 v2 v3 ++ decode_groups n' vs'
  | _, _ => []
  end.

Definition decode_sha256_base64 (digest : string) : result FingerprintError (list Z) :=
  if negb (str_len digest =? 43) then Err (BadLength (str_len digest))
  else
    values ← values_of 0 digest;
    let out := decode_groups 10 values in
    match drop 40 values with
    | [v0; v1; v2] =>
        if negb (Z.land v2 3 =? 0) then Err NonCanonical
        else Ok (out ++ [ Z.lor (wrap_u8 (Z.shiftl v0 2)) (Z.shiftr v1 4);
                          Z.lor (wrap_u8 (Z.shiftl v1 4)) (Z.shiftr v2 2) ])
    | _ => Err (BadLength (str_len digest))
    end.

(** [KeyFingerprint::parse]: the fingerprint is the string it was parsed from. *)
Definition parse (raw : string) : result FingerprintError string :=
  digest ← ok_or MissingPrefix (strip_prefix "SHA256:" raw);
  _ ← decode_sha256_base64 digest;
  Ok raw.

Lemma parse_same raw fp : parse raw = Ok fp → fp = raw.
Proof. unfold parse, ok_or. intros Hp. run_steps. done. Qed.

(** [impl Display for FingerprintError]. *)
Definition display (e : FingerprintError) : string :=
  match e with
  | MissingPrefix =>
      ("fingerprint must start with " +:+ String quote_char "SHA256:"
         +:+ String quote_char EmptyString)
  | BadLength length =>
      ("fingerprint body must be 43 unpadded base64 characters, got " +:+ fmt_dec length)
  | InvalidCharacter index byte =>
      ("fingerprint contains invalid base64 character 0x" +:+ fmt_hex_fixed 2 (byte_val byte)
         +:+ " at offset " +:+ fmt_dec index)
  | NonCanonical => "fingerprint base64 padding bits are not zero"
  end.

(** *** The reference encoding

    Unpadded standard base64 of 32 bytes, written with division and remainder:
    ten groups of three bytes and one final pair. *)

Definition base64_char (v : Z) : Ascii.ascii :=
  match String.get (Z.to_nat v) BASE64_ALPHABET with Some c => c | None => byte_of 0 end.

Definition encode_group (b0 b1 b2 : Z) : list Z :=
  [b0 / 4; (b0 mod 4) * 16 + b1 / 16; (b1 mod 16) * 4 + b2 / 64; b2 mod 64].

Fixpoint encode_values (bs : list Z) : list Z :=
  match bs with
  | b0 :: b1 :: b2 :: bs' => encode_group b0 b1 b2 ++ encode_values bs'
  | [b0; b1] => [b0 / 4; (b0 mod 4) * 16 + b1 / 16; (b1 mod 16) * 4]
  | _ => []
  end.

Definition string_of_values (vs : list Z) : string :=
  foldr (fun v s => String (base64_char v) s) EmptyString vs.

Definition encode_unpadded (bs : list Z) : string := string_of_values (encode_values bs).

Definition is_byte (b : Z) : Prop := 0 <= b < 256.
Definition sextet (v : Z) : Prop := 0 <= v < 64.

Lemma lor_add a b k : 0 <= k → 0 <= b < 2 ^ k → Z.lor (a * 2 ^ k) b = a * 2 ^ k + b.
Proof.
  intros Hk Hb. assert (Hl : Z.land (a * 2 ^ k) b = 0).
  { apply Z.bits_inj'. intros n Hn. rewrite Z.land_spec, Z.bits_0.
    destruct (Z.lt_ge_cases n k).
    - by rewrite Z.mul_pow2_bits_low.
    - rewrite andb_false_iff. right. destruct (Z.eq_dec b 0) as [->|]; [apply Z.bits_0|].
      apply Z.bits_above_log2; [lia|]. apply Z.log2_lt_pow2; [lia|].
      eapply Z.lt_le_trans; [apply Hb|]. by apply Z.pow_le_mono_r. }
  rewrite <-Z.lxor_lor by done. symmetry. by apply Z.add_nocarry_lxor.
Qed.

Lemma shl_lor v w k : 0 <= k < 8 → 0 <= w < 2 ^ k → sextet v →
  Z.lor (wrap_u8 (Z.shiftl v k)) w = (v mod 2 ^ (8 - k)) * 2 ^ k + w.
Proof.
  intros Hk Hw Hv. unfold wrap_u8. rewrite Z.shiftl_mul_pow2 by lia.
  replace 256 with (2 ^ (8 - k) * 2 ^ k).
  2:{ rewrite <-Z.pow_add_r by lia. by replace (8 - k + k) with 8 by lia. }
  rewrite Z.mul_mod_distr_r by (apply Z.pow_nonzero; lia). by apply lor_add; [lia|].
Qed.

Lemma decode_group_arith v0 v1 v2 v3 :
  sextet v0 → sextet v1 → sextet v2 → sextet v3 →
  decode_group v0 v1 v2 v3 =
    [v0 * 4 + v1 / 16; (v1 mod 16) * 16 + v2 / 4; (v2 mod 4) * 64 + v3].
Proof.
  unfold decode_group. intros H0 H1 H2 H3. unfold sextet in *.
  rewrite !Z.shiftr_div_pow2 by lia. rewrite !shl_lor; unfold sextet; try done;
    change (2 ^ 4) with 16; change (2 ^ 2) with 4; change (2 ^ 6) with 64;
    try (Z.to_euclidean_division_equations; lia).
  change (2 ^ (8 - 2)) with 64. by rewrite (Z.mod_small v0 64).
Qed.

Lemma encode_decode_group v0 v1 v2 v3 :
  sextet v0 → sextet v1 → sextet v2 → sextet v3 →
  encode_group (v0 * 4 + v1 / 16) ((v1 mod 16) * 16 + v2 / 4) ((v2 mod 4) * 64 + v3)
    = [v0; v1; v2; v3].
Proof.
  unfold encode_group, sextet. intros.
  repeat f_equal; Z.to_euclidean_division_equations; lia.
Qed.

Lemma decode_encode_group b0 b1 b2 :
  is_byte b0 → is_byte b1 → is_byte b2 →
  decode_group (b0 / 4) ((b0 mod 4) * 16 + b1 / 16) ((b1 mod 16) * 4 + b2 / 64) (b2 mod 64)
    = [b0; b1; b2].
Proof.
  unfold is_byte. intros. rewrite decode_group_arith;
    try (unfold sextet; Z.to_euclidean_division_equations; lia).
  repeat f_equal; Z.to_euclidean_division_equations; lia.
Qed.

Lemma position_get i c s v :
  position i c s = Some v → i <= v < i + str_len s ∧ String.get (Z.to_nat (v - i)) s = Some c.
Proof.
  revert i; induction s as [|a s IH]; intros i Hp; simpl in Hp; [done|].
  unfold str_len in *; simpl. destruct (bool_decide (a = c)) eqn:Hac; bool_to_prop; simplify_eq.
  - replace (Z.to_nat (v - v)) with O by lia. split; [lia|done].
  - destruct (IH _ Hp) as [? Hg]. split; [lia|].
    by replace (Z.to_nat (v - i)) with (S (Z.to_nat (v - (i + 1)))) by lia.
Qed.

Lemma base64_value_char c v : base64_value c = Some v → sextet v ∧ base64_char v = c.
Proof.
  intros Hv. apply position_get in Hv as [Hr Hg]. change (str_len _) with 64 in Hr.
  unfold sextet, base64_char. rewrite Z.sub_0_r in Hg. rewrite Hg. split; [lia|done].
Qed.

Definition all_sextets : list Z := seqZ 0 64.

Lemma base64_char_value v : sextet v → base64_value (base64_char v) = Some v.
Proof.
  intros Hv.
  assert (Hall : forallb (fun w => bool_decide (base64_value (base64_char w) = Some w))
                   all_sextets = true) by by vm_compute.
  rewrite List.forallb_forall in Hall. apply (bool_decide_eq_true_1 _), Hall.
  apply list_elem_of_In, elem_of_seqZ. unfold sextet in Hv; lia.
Qed.

Lemma values_of_ok i s vs :
  values_of i s = Ok vs → Forall sextet vs ∧ string_of_values vs = s
    ∧ length vs = String.length s.
Proof.
  revert i vs; induction s as [|c s IH]; intros i vs Hv; simpl in Hv; [by simplify_eq|].
  destruct (base64_value c) as [v|] eqn:Hc; [|done]. run_steps.
  destruct (IH _ _ Heqr) as (? & <- & <-). apply base64_value_char in Hc as [??].
  split_and!; [by constructor| |done]. simpl. by f_equal.
Qed.

Lemma values_of_string i vs :
  Forall sextet vs → values_of i (string_of_values vs) = Ok vs.
Proof.
  intros Hvs; revert i; induction Hvs as [|v vs Hv Hvs IH]; intros i; simpl; [done|].
  rewrite base64_char_value by done. by rewrite IH.
Qed.

Lemma string_of_values_len vs : str_len (string_of_values vs) = Z.of_nat (length vs).
Proof. unfold str_len. f_equal. induction vs; simpl; congruence. Qed.

Lemma land_3 v : Z.land v 3 = v mod 4.
Proof. apply (Z.land_ones v 2). lia. Qed.

Lemma decode_groups_encode n vs tl :
  length vs = (4 * n)%nat → Forall sextet vs →
  length (decode_groups n (vs ++ tl)) = (3 * n)%nat
    ∧ Forall is_byte (decode_groups n (vs ++ tl))
    ∧ ∀ bs, encode_values (decode_groups n (vs ++ tl) ++ bs) = vs ++ encode_values bs.
Proof.
  revert vs; induction n as [|n IH]; intros vs Hl Hvs.
  { destruct vs; [|simpl in Hl; lia]. done. }
  destruct vs as [|v0 [|v1 [|v2 [|v3 vs]]]]; simpl in Hl; try lia.
  rewrite !Forall_cons in Hvs. destruct Hvs as (H0 & H1 & H2 & H3 & Hvs).
  destruct (IH vs) as (Hlen & Hb & He); [lia|done|].
  cbn [app decode_groups]. rewrite decode_group_arith by done. split_and!.
  - cbn [app length]. lia.
  - repeat (apply Forall_cons; split); [..|done];
      unfold is_byte, sextet in *; Z.to_euclidean_division_equations; lia.
  - intros bs. cbn [app encode_values]. rewrite encode_decode_group by done.
    cbn [app]. by rewrite He.
Qed.

Lemma encode_groups_decode n bs tl vl :
  length bs = (3 * n)%nat → Forall is_byte bs →
  Forall sextet (encode_values tl) →
  ∃ vs, encode_values (bs ++ tl) = vs ++ encode_values tl ∧ length vs = (4 * n)%nat
    ∧ Forall sextet vs ∧ decode_groups n (vs ++ vl) = bs.
Proof.
  revert bs; induction n as [|n IH]; intros bs Hl Hbs Htl.
  { destruct bs; [|simpl in Hl; lia]. by exists []. }
  destruct bs as [|b0 [|b1 [|b2 bs]]]; simpl in Hl; try lia.
  rewrite !Forall_cons in Hbs. destruct Hbs as (H0 & H1 & H2 & Hbs).
  destruct (IH bs) as (vs & He & Hlen & Hvs & Hd); [lia|done..|].
  exists (encode_group b0 b1 b2 ++ vs). split_and!.
  - cbn [app encode_values]. by rewrite He, (assoc_L (++)).
  - rewrite length_app, Hlen. cbn. lia.
  - apply Forall_app; split; [|done]. unfold encode_group.
    repeat (apply Forall_cons; split); [..|done];
      unfold is_byte, sextet in *; Z.to_euclidean_division_equations; lia.
  - unfold encode_group. cbn [app decode_groups].
    rewrite decode_encode_group by done. by rewrite Hd.
Qed.

#[local] Opaque decode_groups.

(** What a digest decodes to, and that it re-encodes to itself. *)
Lemma decode_ok_encode digest out :
  decode_sha256_base64 digest = Ok out →
  length out = 32%nat ∧ Forall is_byte out ∧ encode_unpadded out = digest.
Proof.
  unfold decode_sha256_base64, str_len. intros Hd.
  destruct (negb (Z.of_nat (String.length digest) =? 43)) eqn:Hlen; [done|]. bool_to_prop.
  destruct (values_of 0 digest) as [vs|] eqn:Hv; [|done]. cbn [mbind result_bind] in Hd.
  apply values_of_ok in Hv as (Hsx & Hs & Hl).
  rewrite <-(take_drop 40 vs) in Hsx, Hs.
  assert (Htl : length (take 40 vs) = 40%nat) by (rewrite length_take; lia).
  apply Forall_app in Hsx as [Hsx Hsx'].
  destruct (drop 40 vs) as [|v0 [|v1 [|v2 [|]]]] eqn:Hdr; try done.
  destruct (negb (Z.land v2 3 =? 0)) eqn:Hc; [done|]. bool_to_prop. rewrite land_3 in Hc.
  rewrite <-(take_drop 40 vs), Hdr in Hd.
  destruct (decode_groups_encode 10 (take 40 vs) [v0; v1; v2]) as (Hlen' & Hb & He);
    [done..|].
  rewrite !Forall_cons in Hsx'. destruct Hsx' as (H0 & H1 & H2 & _).
  rewrite !Z.shiftr_div_pow2 in Hd by lia. unfold sextet in *.
  rewrite !shl_lor in Hd by (unfold sextet; try lia; Z.to_euclidean_division_equations; lia).
  cbn [mbind result_bind] in Hd. injection Hd as <-. change (2 ^ 4) with 16. change (2 ^ 2) with 4.
  change (2 ^ (8 - 2)) with 64. change (2 ^ (8 - 4)) with 16. split_and!.
  - rewrite length_app, Hlen'. done.
  - apply Forall_app; split; [done|]. repeat (apply Forall_cons; split); [..|done];
      unfold is_byte; Z.to_euclidean_division_equations; lia.
  - unfold encode_unpadded. rewrite He. simpl.
    replace ((v0 mod 64 * 4 + v1 / 16) / 4) with v0
      by (Z.to_euclidean_division_equations; lia).
    replace ((v0 mod 64 * 4 + v1 / 16) mod 4 * 16 + (v1 mod 16 * 16 + v2 / 4) / 16) with v1
      by (Z.to_euclidean_division_equations; lia).
    replace ((v1 mod 16 * 16 + v2 / 4) mod 16 * 4) with v2
      by (Z.to_euclidean_division_equations; lia).
    done.
Qed.

Lemma encode_decode_ok bs :
  length bs = 32%nat → Forall is_byte bs →
  decode_sha256_base64 (encode_unpadded bs) = Ok bs.
Proof.
  intros Hl Hbs. rewrite <-(take_drop 30 bs) in Hbs |- *.
  apply Forall_app in Hbs as [Hbs Hbs'].
  assert (Hlt : length (take 30 bs) = 30%nat) by (rewrite length_take; lia).
  assert (Hld : length (drop 30 bs) = 2%nat) by (rewrite length_drop; lia).
  destruct (drop 30 bs) as [|b0 [|b1 [|]]]; simpl in Hld; try lia.
  rewrite !Forall_cons in Hbs'. destruct Hbs' as (H0 & H1 & _). unfold is_byte in *.
  assert (Htl : Forall sextet (encode_values [b0; b1])).
  { simpl. repeat (apply Forall_cons; split); [..|done];
      unfold sextet; Z.to_euclidean_division_equations; lia. }
  destruct (encode_groups_decode 10 (take 30 bs) [b0; b1] (encode_values [b0; b1]))
    as (vs & He & Hlen & Hvs & Hd); [done..|].
  unfold encode_unpadded. rewrite He. unfold decode_sha256_base64.
  rewrite string_of_values_len, length_app, Hlen. simpl length. change (Z.of_nat _) with 43.
  rewrite values_of_string by by apply Forall_app. simpl.
  rewrite drop_app_length' by done. simpl in Hd. rewrite Hd.
  rewrite land_3. replace ((b1 mod 16 * 4) mod 4) with 0
    by (Z.to_euclidean_division_equations; lia). simpl.
  unfold sextet in *. rewrite !Z.shiftr_div_pow2 by lia.
  rewrite !shl_lor by (unfold sextet; try lia; Z.to_euclidean_division_equations; lia).
  change (2 ^ 4) with 16. change (2 ^ 2) with 4.
  change (2 ^ (8 - 2)) with 64. change (2 ^ (8 - 4)) with 16.
  repeat f_equal; Z.to_euclidean_division_equations; lia.
Qed.

Lemma base64_char_plain v : sextet v → plain_char (base64_char v) = true.
Proof.
  intros Hv.
  assert (Hall : forallb (fun w => plain_char (base64_char w)) all_sextets = true)
    by by vm_compute.
  rewrite List.forallb_forall in Hall. apply Hall.
  apply list_elem_of_In, elem_of_seqZ. unfold sextet in Hv; lia.
Qed.

Lemma parse_plain raw fp :
  parse raw = Ok fp → str_all plain_char fp = true ∧ str_len fp = 50.
Proof.
  intros Hp. pose proof (parse_same _ _ Hp) as ->. unfold parse, ok_or in Hp.
  destruct (strip_prefix "SHA256:" raw) as [d|] eqn:Hs; [|done]. cbn [mbind result_bind] in Hp.
  destruct (decode_sha256_base64 d) as [out|] eqn:Hd; [|done].
  apply strip_prefix_Some in Hs as ->. rewrite str_all_app, str_len_app.
  unfold decode_sha256_base64 in Hd.
  destruct (negb (str_len d =? 43)) eqn:Hl; [done|]. bool_to_prop.
  split; [|rewrite Hl; done]. apply andb_true_iff; split; [by vm_compute|].
  destruct (values_of 0 d) as [vs|] eqn:Hv; [|done].
  apply values_of_ok in Hv as (Hsx & <- & _). clear -Hsx.
  induction Hsx as [|v vs Hv Hsx IH]; [done|]. cbn [string_of_values foldr str_all].
  apply andb_true_iff. split; [by apply base64_char_plain|done].
Qed.

(** [KeyFingerprint::parse] accepts exactly the canonical unpadded base64
    of 32 bytes after [SHA256:], so that a fingerprint string and its digest
    determine each other. *)
Theorem parse_is_canonical_base64 raw fp :
  parse raw = Ok fp ↔
  fp = raw ∧ ∃ digest, length digest = 32%nat ∧ Forall is_byte digest
    ∧ raw = ("SHA256:" +:+ encode_unpadded digest).
Proof.
  split.
  - intros Hp. split; [by apply parse_same|]. unfold parse, ok_or in Hp.
    destruct (strip_prefix "SHA256:" raw) as [d|] eqn:Hs; [|done]. cbn [mbind result_bind] in Hp.
    destruct (decode_sha256_base64 d) as [out|] eqn:Hd; [|done].
    apply strip_prefix_Some in Hs as ->. apply decode_ok_encode in Hd as (? & ? & <-). eauto.
  - intros [-> (d & Hl & Hb & ->)]. unfold parse. rewrite strip_prefix_app.
    cbn [ok_or mbind result_bind]. by rewrite encode_decode_ok.
Qed.
End Fingerprint.
