(* ===== verification/Metadata.v ===== *)
(** * Durable sandbox metadata ([sandbox/metadata.rs])

    The v1 record of a sandbox: its validated ID, its owner's fingerprint and
    its lifecycle state, with the text form it is stored in. *)

From S2P Require Import Prelude Text Toml Idents.

Module Metadata.

Definition VERSION : Z := 1.
Definition MAX_BYTES : Z := 16 * 1024.

Inductive State := Active | Deleting.

#[global] Instance State_eq_dec : EqDecision State.
Proof. solve_decision. Defined.

Record t := Mk { id : string; owner : string; state : State }.

#[global] Instance t_eq_dec : EqDecision t.
Proof. solve_decision. Defined.

Definition state_str (s : State) : string :=
  match s with Active => "active" | Deleting => "deleting" end.

Definition active (i o : string) : t := Mk i o Active.
Definition is_active (m : t) : bool := bool_decide (state m = Active).
Definition is_deleting (m : t) : bool := bool_decide (state m = Deleting).
Definition with_state (m : t) (s : State) : t := Mk (id m) (owner m) s.

Record RawMetadata := MkRaw
  { raw_version : Z; raw_id : string; raw_owner : string; raw_state : string }.

Section metadata.
Context `{TomlCrate} `{UnicodeTables}.

Inductive Error :=
| TooLarge (size : Z)
| NotUtf8
| Toml (error : toml_error)
| UnsupportedVersion (version : Z)
| InvalidId (reason : string)
| MismatchedId (expected found : string)
| InvalidOwner (reason : string)
| InvalidState (state : string).

Definition state_parse (raw : string) : result Error State :=
  if bool_decide (raw = "active") then Ok Active
  else if bool_decide (raw = "deleting") then Ok Deleting
  else Err (InvalidState raw).

Definition nl : string := String newline EmptyString.

(** The stable field order of [Metadata::encode]. *)
Definition encode (m : t) : string :=
  ("version = " +:+ fmt_dec VERSION +:+ nl
     +:+ "id = " +:+ debug_str printable (id m) +:+ nl
     +:+ "owner = " +:+ debug_str printable (owner m) +:+ nl
     +:+ "state = " +:+ debug_str printable (state_str (state m)) +:+ nl).

(** [toml::from_str::<RawMetadata>]. *)
Definition raw_from_str (text : string) : result toml_error RawMetadata :=
  t ← toml_parse text;
  _ ← deny_unknown_fields ["version"; "id"; "owner"; "state"] t;
  v ← de_u32 "version" t;
  i ← de_string "id" t;
  o ← de_string "owner" t;
  s ← de_string "state" t;
  Ok (MkRaw v i o s).

Definition decode (bytes expected_id : string) : result Error t :=
  if MAX_BYTES <? str_len bytes then Err (TooLarge (str_len bytes))
  else if negb (utf8_valid bytes) then Err NotUtf8
  else
    raw ← map_err Toml (raw_from_str bytes);
    if negb (raw_version raw =? VERSION) then Err (UnsupportedVersion (raw_version raw))
    else
      i ← map_err (fun e => InvalidId (Id.display e)) (Id.parse (raw_id raw));
      if negb (bool_decide (i = expected_id)) then Err (MismatchedId expected_id i)
      else
        o ← map_err (fun e => InvalidOwner (Fingerprint.display e))
              (Fingerprint.parse (raw_owner raw));
        s ← state_parse (raw_state raw);
        Ok (Mk i o s).

(** [impl Display for Error]. *)
Definition display (e : Error) : string :=
  match e with
  | TooLarge size =>
      ("metadata is " +:+ fmt_dec size +:+ " bytes, limit is " +:+ fmt_dec MAX_BYTES)
  | NotUtf8 => "metadata is not valid UTF-8"
  | Toml error => ("metadata is not valid TOML: " +:+ toml_display error)
  | UnsupportedVersion version =>
      ("metadata version " +:+ fmt_dec version +:+ " is unsupported")
  | InvalidId reason => ("metadata id is invalid: " +:+ reason)
  | MismatchedId expected found =>
      ("metadata id does not match directory " +:+ expected +:+ " (found " +:+ found +:+ ")")
  | InvalidOwner reason => ("metadata owner is invalid: " +:+ reason)
  | InvalidState state =>
      ("metadata state " +:+ debug_str printable state +:+ " is invalid")
  end.

(** The records the constructors can build: both strings are validated types. *)
Definition wf (m : t) : Prop :=
  Id.grammar (id m) ∧ Fingerprint.parse (owner m) = Ok (owner m).

Lemma state_parse_str s : state_parse (state_str s) = Ok s.
Proof. by destruct s. Qed.

(** Whatever the TOML parser returns, an accepted record is well formed and
    names the directory it was read from. *)
Lemma decode_wf bytes expected m :
  decode bytes expected = Ok m → wf m ∧ id m = expected.
Proof.
  unfold decode, map_err. intros Hd. run_steps. bool_to_prop.
  match goal with Hi : Id.parse _ = Ok _ |- _ => apply Id.parse_ok in Hi as [-> Hg] end.
  split; [split; [done|]|done].
  match goal with Ho : Fingerprint.parse _ = Ok _ |- _ =>
    cbn; by rewrite (Fingerprint.parse_same _ _ Ho) in Ho |- * end.
Qed.

Lemma wf_plain m :
  wf m → str_all plain_char (id m) = true ∧ str_all plain_char (owner m) = true
    ∧ str_len (id m) <= 64 ∧ str_len (owner m) = 50.
Proof.
  intros [Hg Ho]. apply Fingerprint.parse_plain in Ho as [??].
  pose proof (Id.grammar_len _ Hg). unfold Id.MAX_ID_BYTES in *.
  split_and!; [by apply Id.grammar_plain|done|lia|done].
Qed.

(** The record as the key/value lines it is stored in. *)
Definition fields (m : t) : list (string * toml_value) :=
  [("version", TInteger VERSION); ("id", TString (id m)); ("owner", TString (owner m));
   ("state", TString (state_str (state m)))].

Lemma encode_render m : wf m → encode m = render (fields m).
Proof.
  intros (Hi & Ho & _)%wf_plain. unfold encode.
  rewrite !debug_str_plain by (try done; by destruct (state m)).
  unfold render, fields, render_line, nl. cbn [foldr fst snd render_value].
  by rewrite !str_app_assoc.
Qed.

Lemma fields_plain m :
  wf m → NoDup (fields m).*1 ∧ Forall bare_key (fields m).*1 ∧ Forall plain_value (fields m).*2.
Proof.
  intros (Hi & Ho & _)%wf_plain. split_and!.
  - change (NoDup ["version"; "id"; "owner"; "state"]).
    apply (bool_decide_unpack _). by vm_compute.
  - repeat (apply Forall_cons; split); try done; by vm_compute.
  - repeat (apply Forall_cons; split); try done; cbn [plain_value].
    by destruct (state m).
Qed.

Lemma encode_len m : wf m → str_len (encode m) <= MAX_BYTES.
Proof.
  intros Hw. rewrite encode_render by done. apply wf_plain in Hw as (_ & _ & Hi & Ho).
  unfold render, fields, render_line. cbn [foldr fst snd render_value].
  rewrite ?str_len_app, ?str_len_cons, ?str_len_nil, ?str_len_app, ?str_len_cons, ?str_len_nil.
  assert (str_len (state_str (state m)) <= 8) by by destruct (state m).
  change (str_len (fmt_dec VERSION)) with 1. unfold MAX_BYTES. lia.
Qed.

Lemma fields_ascii m : wf m → str_all ascii_char (encode m) = true.
Proof.
  intros Hw. rewrite encode_render by done.
  destruct (fields_plain m Hw) as (_ & Hk & Hv). by apply render_ascii.
Qed.

Lemma raw_from_str_encode `{!TomlLaws} m :
  wf m → raw_from_str (encode m)
    = Ok (MkRaw VERSION (id m) (owner m) (state_str (state m))).
Proof.
  intros Hw. destruct (fields_plain m Hw) as (Hnd & Hk & Hv).
  unfold raw_from_str. rewrite encode_render by done. by rewrite toml_parse_render.
Qed.

Lemma decode_encode `{!TomlLaws} m : wf m → decode (encode m) (id m) = Ok m.
Proof.
  intros Hw. unfold decode. pose proof (encode_len m Hw) as Hlen.
  destruct (MAX_BYTES <? str_len (encode m)) eqn:Hl; bool_to_prop; [lia|].
  rewrite utf8_valid_ascii by by apply fields_ascii. cbn [negb].
  rewrite raw_from_str_encode by done. destruct Hw as [Hg Ho].
  cbn [map_err mbind result_bind raw_version raw_id raw_owner raw_state].
  rewrite Z.eqb_refl. cbn [negb]. rewrite Id.parse_self by done.
  cbn [map_err mbind result_bind]. rewrite bool_decide_eq_true_2 by done. cbn [negb].
  rewrite Ho. cbn [map_err mbind result_bind]. rewrite state_parse_str.
  by destruct m.
Qed.

(** What [Metadata::encode] writes, [Metadata::decode] reads back, for
    every record the program can construct. *)
Theorem metadata_roundtrip `{!TomlLaws} m :
  wf m → decode (encode m) (id m) = Ok m.
Proof. apply decode_encode. Qed.

(** An accepted document is small and valid UTF-8, its owner and ID are
    valid, and its ID is the directory it was found in: a record cannot be
    transplanted into another sandbox, whatever the TOML parser returns. *)
Theorem decode_validates bytes expected m :
  decode bytes expected = Ok m →
  wf m ∧ id m = expected ∧ str_len bytes <= MAX_BYTES ∧ utf8_valid bytes = true.
Proof.
  intros Hd. pose proof (decode_wf _ _ _ Hd) as [??]. unfold decode in Hd.
  destruct (MAX_BYTES <? str_len bytes) eqn:?; [done|]. bool_to_prop.
  destruct (utf8_valid bytes); [|done]. auto.
Qed.
End metadata.

Arguments Error {_}.

Definition sample : t :=
  Mk "dev" "SHA256:AAAAAAAAAAAAAAAAAAAAAAAAAAAAAAAAAAAAAAAAAAA" Active.

Lemma metadata_roundtrip_witness :
  decode (encode sample) "dev" = Ok sample.
Proof.
  apply (metadata_roundtrip sample). split; [|reflexivity].
  apply (Id.parse_ok "dev" "dev"). reflexivity.
Defined.

Lemma decode_validates_witness :
  decode (encode sample) "dev" = Ok sample ∧ id sample = "dev".
Proof.
  assert (Hd : decode (encode sample) "dev" = Ok sample) by reflexivity.
  split; [exact Hd|]. apply (decode_validates _ _ _ Hd).
Defined.
End Metadata.
