(* ===== verification/Delegation.v ===== *)
(** * Subordinate-ID delegation ([sandbox/subid/delegation.rs])

    Delegated ranges, the parser of the [getsubids] output and the
    generation-checked cache of the daemon's delegation. *)

From S2P Require Import Prelude Text Toml.

Module Delegation.

(** ** Ranges *)

(** A half-open range of 32-bit IDs. *)
Record SubidRange := MkRange { start : Z; count : Z }.

#[global] Instance SubidRange_eq_dec : EqDecision SubidRange.
Proof. solve_decision. Defined.

Inductive Error :=
| HelperMissing
| HelperIo (detail : string)
| HelperFailed (code : option Z) (stderr : string)
| AccountLookup
| CachePoisoned
| GenerationChanged
| MalformedLine (line : string)
| MalformedRange (line reason : string)
| Range (reason : string).

(** [SubidRange::new(start: u64, count: u64)].  The sum is a plain [u64]
    addition, which wraps in a build without overflow checks; the casts keep
    the low 32 bits. *)
Definition new (start count : Z) : result Error SubidRange :=
  if count =? 0 then Err (Range "zero-length subordinate range")
  else if u32_max <? start then Err (Range "range start exceeds the 32-bit ID space")
  else
    let end_ := wrap_u64 (start + count) in
    if u32_max + 1 <? end_ then Err (Range "range end overflows the 32-bit ID space")
    else Ok (MkRange (wrap_u32 start) (wrap_u32 count)).

(** [SubidRange::end], exclusive, in [u64]. *)
Definition end_ (r : SubidRange) : Z := start r + count r.

Definition contains (r : SubidRange) (id : Z) : bool := (start r <=? id) && (id <? end_ r).

(** [SubidRange::ids]: the IDs in increasing order, cast back to [u32]. *)
Definition ids (r : SubidRange) : list Z := wrap_u32 <$> seqZ (start r) (end_ r - start r).

(** What [new] promises when the sum does not leave [u64]. *)
Definition range_wf (r : SubidRange) : Prop :=
  0 <= start r ∧ 0 < count r ∧ end_ r <= 2 ^ 32.

Record Delegation := MkDelegation
  { uid_ranges : list SubidRange; gid_ranges : list SubidRange }.

#[global] Instance Delegation_eq_dec : EqDecision Delegation.
Proof. solve_decision. Defined.

Definition contains_uid (d : Delegation) (uid : Z) : bool :=
  existsb (fun r => contains r uid) (uid_ranges d).
Definition contains_gid (d : Delegation) (gid : Z) : bool :=
  existsb (fun r => contains r gid) (gid_ranges d).

(** ** The [getsubids] output *)

(** [{:?}] of an exit code. *)
Definition debug_code (code : option Z) : string :=
  match code with
  | None => "None"
  | Some c =>
      ("Some(" +:+ (if c <? 0 then "-" +:+ fmt_dec (- c) else fmt_dec c) +:+ ")")
  end.

Section parser.
Context `{UnicodeTables}.

(** [impl Display for Error]. *)
Definition display (e : Error) : string :=
  match e with
  | HelperMissing => "getsubids is not installed or not on PATH"
  | HelperIo detail => ("getsubids could not be executed: " +:+ detail)
  | HelperFailed code stderr =>
      ("getsubids failed with status " +:+ debug_code code
         +:+ (if bool_decide (stderr = EmptyString) then EmptyString else ": " +:+ stderr))
  | AccountLookup => "the daemon account has no passwd-database name"
  | CachePoisoned => "delegation cache is poisoned"
  | GenerationChanged => "subordinate-ID delegation changed during discovery"
  | MalformedLine line => ("malformed getsubids output line " +:+ debug_str printable line)
  | MalformedRange line reason =>
      ("invalid subordinate range in getsubids line " +:+ debug_str printable line
         +:+ ": " +:+ reason)
  | Range reason => ("invalid subordinate range: " +:+ reason)
  end.

(** One non-empty line: [<index>: <name> <start> <count>]. *)
Definition parse_line (line : string) : result Error SubidRange :=
  '(index, rest) ← ok_or (MalformedLine line) (split_once (byte_of 58) line);
  match parse_u32 (trim index) with
  | None => Err (MalformedLine line)
  | Some _ =>
      match split_whitespace rest with
      | [name; start; count] =>
          if bool_decide (name = EmptyString) then Err (MalformedLine line)
          else
            start ← ok_or (MalformedLine line) (parse_u64 start);
            count ← ok_or (MalformedLine line) (parse_u64 count);
            map_err (fun error => MalformedRange line (display error)) (new start count)
      | _ => Err (MalformedLine line)
      end
  end.

Fixpoint parse_lines (ls : list string) : result Error (list SubidRange) :=
  match ls with
  | [] => Ok []
  | l :: ls' =>
      let line := trim_end l in
      if bool_decide (line = EmptyString) then parse_lines ls'
      else
        r ← parse_line line;
        rs ← parse_lines ls';
        Ok (r :: rs)
  end.

Definition parse_getsubids_output (output : string) : result Error (list SubidRange) :=
  parse_lines (lines output).

(** ** Running the helper *)

(** What [Command::output()] returned. *)
Inductive command_output :=
| SpawnNotFound
| SpawnFailed (detail : string)
| Exited (code : option Z) (stdout stderr : string).

Definition run_getsubids (o : command_output) : result Error (list SubidRange) :=
  match o with
  | SpawnNotFound => Err HelperMissing
  | SpawnFailed detail => Err (HelperIo detail)
  | Exited code stdout stderr =>
      if bool_decide (code = Some 0) then parse_getsubids_output (from_utf8_lossy stdout)
      else Err (HelperFailed code (trim (from_utf8_lossy stderr)))
  end.

(** [query_for_account]: [getsubids user], then [getsubids -g user]. *)
Definition query_for_account (uid_out gid_out : command_output) : result Error Delegation :=
  uids ← run_getsubids uid_out;
  gids ← run_getsubids gid_out;
  Ok (MkDelegation uids gids).
End parser.

(** ** The cache *)

(** Size and modification time of a source file, when it exists. *)
Record FileGeneration := MkFileGen { present : bool; len : Z; modified : option Z }.
Record DelegationGeneration := MkGen
  { subuid : FileGeneration; subgid : FileGeneration; nsswitch : FileGeneration }.

#[global] Instance FileGeneration_eq_dec : EqDecision FileGeneration.
Proof. solve_decision. Defined.
#[global] Instance DelegationGeneration_eq_dec : EqDecision DelegationGeneration.
Proof. solve_decision. Defined.

(** [FileGeneration::read] of what [fs::metadata] returned. *)
Definition read_generation (m : option (Z * option Z)) : FileGeneration :=
  match m with
  | Some (l, t) => MkFileGen true l t
  | None => MkFileGen false 0 None
  end.

Record DelegationCache := MkCache
  { account : option (result Error string);
    cached : option (DelegationGeneration * Delegation) }.

Definition empty_cache : DelegationCache := MkCache None None.

(** What the world answers during one [query_with_generation]: the source
    generation at its three observation points, the passwd lookup, and the two
    helper runs of each query. *)
Record world := MkWorld
  { gen0 : DelegationGeneration; gen1 : DelegationGeneration; gen2 : DelegationGeneration;
    lookup_account : result Error string;
    first_query : string → result Error Delegation;
    second_query : string → result Error Delegation }.

(** [DelegationCache::publish]. *)
Definition publish (g : DelegationGeneration) (d : Delegation) (c : DelegationCache)
    : DelegationCache :=
  match cached c with
  | Some (g', _) => if bool_decide (g' = g) then c else MkCache (account c) (Some (g, d))
  | None => MkCache (account c) (Some (g, d))
  end.

(** [current_account_name]: resolved once per process. *)
Definition current_account_name (w : world) (c : DelegationCache)
    : result Error string * DelegationCache :=
  match account c with
  | Some r => (r, c)
  | None => (lookup_account w, MkCache (Some (lookup_account w)) (cached c))
  end.

(** The cold path of [query_with_generation]: query, and look at the sources
    again before publishing. *)
Definition query_fresh (w : world) (c : DelegationCache)
    : result Error Delegation * DelegationCache :=
  match current_account_name w c with
  | (Err e, c) => (Err e, c)
  | (Ok name, c) =>
      match first_query w name with
      | Err e => (Err e, c)
      | Ok d =>
          if negb (bool_decide (gen0 w = gen1 w)) then
            match second_query w name with
            | Err e => (Err e, c)
            | Ok d' =>
                if negb (bool_decide (gen2 w = gen1 w)) then (Err GenerationChanged, c)
                else (Ok d', publish (gen2 w) d' c)
            end
          else (Ok d, publish (gen0 w) d c)
      end
  end.

Definition query_with_generation (force : bool) (w : world) (c : DelegationCache)
    : result Error Delegation * DelegationCache :=
  match force, cached c with
  | false, Some (g, d) => if bool_decide (g = gen0 w) then (Ok d, c) else query_fresh w c
  | _, _ => query_fresh w c
  end.

Definition query : world → DelegationCache → result Error Delegation * DelegationCache :=
  query_with_generation false.
Definition refresh : world → DelegationCache → result Error Delegation * DelegationCache :=
  query_with_generation true.

(** ** Ranges, proved *)

Lemma wrap_u32_id z : 0 <= z <= u32_max → wrap_u32 z = z.
Proof. unfold wrap_u32, u32_max. intros. apply Z.mod_small. lia. Qed.

Lemma new_exact s c r :
  0 <= s → 0 <= c → s + c <= u64_max →
  new s c = Ok r ↔ 0 < c ∧ s + c <= 2 ^ 32 ∧ s <= u32_max ∧
    r = MkRange s (wrap_u32 c).
Proof.
  intros Hs Hc Hb. unfold new, wrap_u64.
  assert (Hw : (s + c) mod 2 ^ 64 = s + c)
    by (apply Z.mod_small; unfold u64_max in Hb; lia). rewrite Hw.
  destruct (c =? 0) eqn:?, (u32_max <? s) eqn:?, (u32_max + 1 <? s + c) eqn:?; bool_to_prop;
    unfold u32_max in *; try (split; [done|]; intros; lia).
  rewrite (wrap_u32_id s) by (unfold u32_max; lia). split.
  - intros [= <-]. repeat split; try done; lia.
  - intros (_ & _ & _ & ->). done.
Qed.

Lemma wf_contains r id : range_wf r → contains r id = true ↔ start r <= id < start r + count r.
Proof.
  intros _. unfold contains, end_. rewrite andb_true_iff, Z.leb_le, Z.ltb_lt. done.
Qed.

(** While [start + count] stays inside [u64] and the range is not the
    whole ID space, [SubidRange::new] accepts exactly the non-empty ranges
    inside the 32-bit ID space, and the range it builds contains and enumerates
    exactly [start .. start + count). *)
Theorem new_checks_the_id_space s c :
  0 <= s → 0 <= c → s + c <= u64_max → c ≠ 2 ^ 32 →
  match new s c with
  | Ok r => range_wf r ∧ start r = s ∧ count r = c
      ∧ (∀ id, contains r id = true ↔ s <= id < s + c)
      ∧ ids r = seqZ s c
  | Err _ => c = 0 ∨ 2 ^ 32 < s + c
  end.
Proof.
  intros Hs Hc Hsum Hfull. destruct (new s c) as [r|e] eqn:Hn.
  - apply new_exact in Hn as (Hc0 & Hle & _ & ->); [|done..].
    rewrite (wrap_u32_id c) by (clear -Hs Hc Hle Hfull; unfold u32_max; lia).
    assert (Hwf : range_wf (MkRange s c)) by (unfold range_wf, end_; simpl; lia).
    split_and!; try done.
    + intros id. by rewrite wf_contains.
    + unfold ids, end_. simpl. replace (s + c - s) with c by lia.
      rewrite <-(list_fmap_id (seqZ s c)) at 2. apply list_fmap_ext.
      intros k x Hx. apply list_elem_of_lookup_2, elem_of_seqZ in Hx.
      unfold id. apply wrap_u32_id. unfold u32_max. lia.
  - destruct (decide (c = 0)) as [->|]; [by left|]. right.
    apply Z.nle_gt. intros Hle.
    assert (new s c = Ok (MkRange s (wrap_u32 c))); [|congruence].
    apply new_exact; unfold u32_max in *; try done. split_and!; done || lia.
Qed.

Lemma new_checks_the_id_space_witness :
  0 <= 165536 ∧ match new 165536 65536 with Ok r => count r = 65536 | Err _ => False end.
Proof.
  split; [lia|].
  pose proof (new_checks_the_id_space 165536 65536 ltac:(lia) ltac:(lia)
    ltac:(unfold u64_max; lia) ltac:(lia)) as Hn.
  assert (E : new 165536 65536 = Ok (MkRange 165536 65536)) by reflexivity.
  rewrite E in Hn |- *. destruct Hn as (_ & _ & Hc & _). exact Hc.
Defined.

(** The cases [SubidRange::new] does not check.  A count that carries
    [start + count] past [u64] wraps the end below the limit and is accepted
    with a truncated count, and the whole ID space [0 .. 2^32) is accepted as a
    range of length zero. *)
Theorem new_accepts_wrapping_counts s c :
  0 < s <= u32_max → 2 ^ 64 - s <= c <= u64_max →
  new s c = Ok (MkRange s (wrap_u32 c)) ∧ 2 ^ 32 < s + c
  ∧ new 0 (2 ^ 32) = Ok (MkRange 0 0).
Proof.
  intros Hs Hc. unfold u32_max, u64_max in *. split_and!; [|lia|by vm_compute].
  unfold new, wrap_u64.
  assert (Hw : (s + c) mod 2 ^ 64 = s + c - 2 ^ 64).
  { rewrite <-(Z.mod_small (s + c - 2 ^ 64) (2 ^ 64)) by lia.
    rewrite <-(Z.mod_add (s + c - 2 ^ 64) 1 (2 ^ 64)) by lia. f_equal. lia. }
  rewrite Hw, (wrap_u32_id s) by (unfold u32_max; lia). unfold u32_max.
  destruct (c =? 0) eqn:?, (2 ^ 32 - 1 <? s) eqn:?, (2 ^ 32 - 1 + 1 <? s + c - 2 ^ 64) eqn:?;
    bool_to_prop; try lia. done.
Qed.

Lemma new_accepts_wrapping_counts_witness :
  new 10 u64_max = Ok (MkRange 10 u32_max) ∧ 2 ^ 32 < 10 + u64_max.
Proof.
  destruct (new_accepts_wrapping_counts 10 u64_max) as (Hn & Hb & _);
    [unfold u32_max; lia|unfold u64_max; lia|].
  split; [exact Hn|exact Hb].
Defined.

(** ** The parser, proved *)

(** Visible ASCII characters: what account names and numbers are made of. *)
Definition graph_char : Ascii.ascii → bool := in_range 33 126.

Lemma digit_graph c : is_ascii_digit c = true → graph_char c = true.
Proof. unfold is_ascii_digit, graph_char. rewrite !in_range_bounds. lia. Qed.

Lemma ws_prefix_graph c s : graph_char c = true → ws_prefix (String c s) = None.
Proof.
  unfold graph_char. rewrite in_range_bounds. intros Hc. unfold ws_prefix, nth_byte.
  cbn [String.get]. unfold between.
  repeat match goal with
  | |- context [?a <=? byte_val c] => destruct (a <=? byte_val c) eqn:?; bool_to_prop
  | |- context [byte_val c <=? ?a] => destruct (byte_val c <=? a) eqn:?; bool_to_prop
  | |- context [byte_val c =? ?a] => destruct (byte_val c =? a) eqn:?; bool_to_prop
  end; try lia; done.
Qed.

Lemma trim_start_graph c s : graph_char c = true → trim_start (String c s) = String c s.
Proof.
  intros Hc. unfold trim_start. cbn [String.length trim_start_go].
  by rewrite ws_prefix_graph.
Qed.

(** Printable ASCII, the space included. *)
Definition text_char : Ascii.ascii → bool := in_range 32 126.

Lemma ws_prefix_text c s :
  text_char c = true → ws_prefix (String c s) = None ∨ ws_prefix (String c s) = Some s.
Proof.
  intros Hc. destruct (graph_char c) eqn:Hg; [left; by apply ws_prefix_graph|right].
  unfold text_char, graph_char, in_range in *. bool_to_prop.
  assert (Hv : byte_val c = 32).
  { destruct (33 <=? byte_val c) eqn:?; bool_to_prop; [|lia].
    destruct (byte_val c <=? 126) eqn:?; bool_to_prop; [done|lia]. }
  unfold ws_prefix, nth_byte. cbn [String.get]. by rewrite Hv.
Qed.

Lemma trim_start_text s c :
  str_all text_char s = true → graph_char c = true →
  ∃ t, trim_start (s +:+ String c EmptyString) = (t +:+ String c EmptyString).
Proof.
  intros Hs Hc. unfold trim_start.
  generalize (String.length (s +:+ String c EmptyString)) as fuel.
  revert Hs; induction s as [|d s IH]; intros Hs fuel.
  - exists EmptyString. destruct fuel; [done|]. cbn [trim_start_go].
    by rewrite str_app_nil_l, ws_prefix_graph.
  - cbn [str_all] in Hs. apply andb_true_iff in Hs as [Hd Hs].
    destruct fuel as [|fuel]; [by exists (String d s)|]. cbn [trim_start_go].
    rewrite str_app_cons. destruct (ws_prefix_text d (s +:+ String c EmptyString) Hd) as [Hw|Hw];
      rewrite Hw; [by exists (String d s)|by apply IH].
Qed.

Lemma trim_end_text s c :
  str_all text_char s = true → graph_char c = true →
  trim_end (s +:+ String c EmptyString) = (s +:+ String c EmptyString).
Proof.
  intros Hs Hc. induction s as [|d s IH].
  - rewrite str_app_nil_l. cbn [trim_end]. by rewrite trim_start_graph.
  - destruct (trim_start_text _ _ Hs Hc) as [t Ht]. rewrite str_app_cons in *.
    cbn [trim_end]. rewrite Ht. cbn [str_all] in Hs. apply andb_true_iff in Hs as [_ Hs].
    rewrite IH by done. by destruct t.
Qed.

Lemma str_snoc s : s ≠ EmptyString → ∃ t c, s = (t +:+ String c EmptyString).
Proof.
  induction s as [|c s IH]; intros Hne; [done|]. destruct s as [|d s].
  - by exists EmptyString, c.
  - destruct IH as (t & e & ->); [done|]. by exists (String c t), e.
Qed.

Lemma trim_graph s :
  s ≠ EmptyString → str_all graph_char s = true → trim s = s.
Proof.
  intros Hne Hs. unfold trim.
  assert (Ht : trim_start s = s).
  { destruct s as [|c s]; [done|]. cbn [str_all] in Hs. apply andb_true_iff in Hs as [??].
    by apply trim_start_graph. }
  rewrite Ht. destruct (str_snoc s Hne) as (t & c & ->). rewrite str_all_app in Hs.
  apply andb_true_iff in Hs as [Hs Hc]. cbn [str_all] in Hc. rewrite andb_true_r in Hc.
  apply trim_end_text; [|done]. eapply str_all_impl; [|exact Hs].
  intros x. unfold graph_char, text_char. rewrite !in_range_bounds. lia.
Qed.

Lemma take_word_graph fuel w rest :
  (String.length w < fuel)%nat → str_all graph_char w = true →
  take_word fuel (w +:+ " " +:+ rest) = (w, " " +:+ rest).
Proof.
  revert fuel; induction w as [|c w IH]; intros [|fuel] Hf Hw; cbn [String.length] in Hf; try lia.
  - done.
  - cbn [str_all] in Hw. apply andb_true_iff in Hw as [Hc Hw].
    rewrite str_app_cons. cbn [take_word]. rewrite ws_prefix_graph by done.
    rewrite IH; [done|lia|done].
Qed.

Lemma take_word_graph_end fuel w :
  (String.length w ≤ fuel)%nat → str_all graph_char w = true →
  take_word fuel w = (w, EmptyString).
Proof.
  revert fuel; induction w as [|c w IH]; intros [|fuel] Hf Hw; cbn [String.length] in Hf; try lia;
    try done.
  cbn [str_all] in Hw. apply andb_true_iff in Hw as [Hc Hw].
  cbn [take_word]. rewrite ws_prefix_graph by done. rewrite IH; [done|lia|done].
Qed.

Definition word (w : string) : Prop := w ≠ EmptyString ∧ str_all graph_char w = true.

Lemma trim_start_word w rest : word w → trim_start (" " +:+ w +:+ rest) = (w +:+ rest).
Proof.
  intros [Hne Hw]. destruct w as [|c w]; [done|]. cbn [str_all] in Hw.
  apply andb_true_iff in Hw as [Hc _]. rewrite (str_app_cons c w). unfold trim_start.
  change (" " +:+ String c (w +:+ rest)) with (String (byte_of 32) (String c (w +:+ rest))).
  cbn [String.length trim_start_go].
  change (ws_prefix (String (byte_of 32) (String c (w +:+ rest))))
    with (Some (String c (w +:+ rest))).
  cbn [trim_start_go]. by rewrite ws_prefix_graph.
Qed.

Lemma split_whitespace_cons fuel w rest :
  word w → (0 < fuel)%nat →
  split_whitespace_go fuel (" " +:+ w +:+ " " +:+ rest)
    = w :: split_whitespace_go (pred fuel) (" " +:+ rest).
Proof.
  intros Hw Hf. destruct fuel as [|fuel]; [lia|]. cbn [split_whitespace_go pred].
  rewrite trim_start_word by done. pose proof Hw as [Hne Hg].
  destruct (w +:+ " " +:+ rest) as [|c r] eqn:Hs; [by destruct w|]. rewrite <-Hs.
  rewrite take_word_graph; [done|rewrite !str_length_app; cbn; lia|done].
Qed.

Lemma split_whitespace_last fuel w :
  word w → (1 < fuel)%nat → split_whitespace_go fuel (" " +:+ w) = [w].
Proof.
  intros Hw Hf. destruct fuel as [|[|fuel]]; [lia..|]. cbn [split_whitespace_go].
  pose proof (trim_start_word w EmptyString Hw) as Ht. rewrite !str_app_nil_r in Ht.
  rewrite Ht. pose proof Hw as [Hne Hg]. destruct w as [|c w]; [done|].
  by rewrite take_word_graph_end.
Qed.

Lemma split_whitespace_three a b c :
  word a → word b → word c →
  split_whitespace (" " +:+ a +:+ " " +:+ b +:+ " " +:+ c) = [a; b; c].
Proof.
  intros Ha Hb Hc. unfold split_whitespace.
  set (n := String.length _). assert (Hn : (6 ≤ n)%nat).
  { unfold n. rewrite !str_length_app. destruct Ha, Hb, Hc.
    destruct a, b, c; try done. cbn. lia. }
  rewrite split_whitespace_cons by (done || lia).
  rewrite split_whitespace_cons by (done || lia).
  rewrite split_whitespace_last by (done || lia). done.
Qed.

Lemma parse_uint_fmt max n : 0 <= n <= max → parse_uint max (fmt_dec n) = Some n.
Proof.
  intros Hn. unfold parse_uint. destruct (fmt_dec_nonempty n) as (c & r & Hf).
  pose proof (fmt_dec_digits n ltac:(lia)) as Hd.
  assert (Hp : strip_prefix "+" (fmt_dec n) = None).
  { rewrite Hf in *. cbn [str_all] in Hd. apply andb_true_iff in Hd as [Hd _].
    cbn [strip_prefix]. rewrite bool_decide_eq_false_2; [done|]. intros <-. by vm_compute in Hd. }
  rewrite Hp. rewrite Hf at 1. by apply parse_digits_fmt.
Qed.

Lemma fmt_dec_word n : 0 <= n → word (fmt_dec n).
Proof.
  intros Hn. split.
  - destruct (fmt_dec_nonempty n) as (c & r & ->). done.
  - eapply str_all_impl; [apply digit_graph|by apply fmt_dec_digits].
Qed.

(** One line of [getsubids] output, as shadow-utils prints it. *)
Definition print_line (index : Z) (name : string) (r : SubidRange) : string :=
  (fmt_dec index +:+ ":" +:+ " " +:+ name +:+ " " +:+ fmt_dec (start r)
     +:+ " " +:+ fmt_dec (count r)).

Definition print_output (entries : list (Z * string * SubidRange)) : string :=
  foldr (fun e acc => print_line e.1.1 e.1.2 e.2 +:+ String newline acc) EmptyString entries.

Definition entry_wf (e : Z * string * SubidRange) : Prop :=
  0 <= e.1.1 <= u32_max ∧ word e.1.2 ∧ range_wf e.2 ∧ count e.2 ≠ 2 ^ 32.

Lemma word_text w : word w → str_all text_char w = true.
Proof.
  intros [_ Hw]. eapply str_all_impl; [|exact Hw].
  intros x. unfold graph_char, text_char. rewrite !in_range_bounds. lia.
Qed.

Lemma print_line_text i name r :
  0 <= i → word name → range_wf r →
  ∃ s c, print_line i name r = (s +:+ String c EmptyString)
    ∧ str_all text_char s = true ∧ graph_char c = true.
Proof.
  intros Hi Hw (Hs & Hc & _). unfold print_line.
  destruct (fmt_dec_word (count r)) as [Hne Hg]; [lia|].
  destruct (str_snoc _ Hne) as (t & c & Ht). rewrite Ht in *.
  rewrite str_all_app in Hg. apply andb_true_iff in Hg as [Hg Hcg].
  exists (fmt_dec i +:+ ":" +:+ " " +:+ name +:+ " " +:+ fmt_dec (start r) +:+ " " +:+ t), c.
  split; [by rewrite !str_app_assoc|]. split; [|cbn in Hcg; by rewrite andb_true_r in Hcg].
  rewrite !str_all_app, !andb_true_iff. split_and!; try by vm_compute.
  - apply word_text, fmt_dec_word. lia.
  - by apply word_text.
  - apply word_text, fmt_dec_word. lia.
  - eapply str_all_impl; [|exact Hg].
    intros x. unfold graph_char, text_char. rewrite !in_range_bounds. lia.
Qed.

Lemma split_lines_app cur l rest :
  str_all text_char l = true →
  split_lines cur (l +:+ String newline rest) =
    (match strip_suffix cr_str (cur l) with Some l' => l' | None => cur l end) :: lines rest.
Proof.
  revert cur; induction l as [|c l IH]; intros cur Hl.
  - rewrite str_app_nil_l. cbn [split_lines]. by rewrite bool_decide_eq_true_2.
  - cbn [str_all] in Hl. apply andb_true_iff in Hl as [Hc Hl].
    rewrite str_app_cons. cbn [split_lines]. rewrite bool_decide_eq_false_2.
    + by rewrite IH.
    + intros ->. by vm_compute in Hc.
Qed.

Lemma lines_text l rest :
  str_all text_char l = true → lines (l +:+ String newline rest) = l :: lines rest.
Proof.
  intros Hl. unfold lines. rewrite split_lines_app by done. f_equal.
  destruct (strip_suffix cr_str l) as [l'|] eqn:Hs; [|done].
  apply strip_suffix_Some in Hs as ->. rewrite str_all_app in Hl.
  apply andb_true_iff in Hl as [_ Hl]. by vm_compute in Hl.
Qed.

Section parser_proofs.
Context `{UnicodeTables}.

Lemma parse_print_line i name r :
  entry_wf (i, name, r) → parse_line (print_line i name r) = Ok r.
Proof.
  intros (Hi & Hw & (Hs & Hc & He) & Hfull). cbn [fst snd] in *. unfold parse_line, print_line.
  unfold end_ in He.
  assert (Hso : split_once (byte_of 58) (fmt_dec i +:+ ":" +:+ " " +:+ name +:+ " "
      +:+ fmt_dec (start r) +:+ " " +:+ fmt_dec (count r))
    = Some (fmt_dec i, " " +:+ name +:+ " " +:+ fmt_dec (start r) +:+ " " +:+ fmt_dec (count r))).
  { apply split_once_app. eapply str_all_impl; [|apply (fmt_dec_digits i); lia].
    intros c Hd. apply negb_true_iff, bool_decide_eq_false_2. intros ->. by vm_compute in Hd. }
  rewrite Hso. cbn [ok_or mbind result_bind].
  destruct (fmt_dec_word i) as [Hne Hg]; [lia|]. rewrite trim_graph by done.
  unfold parse_u32. rewrite parse_uint_fmt by lia.
  rewrite split_whitespace_three by (done || by apply fmt_dec_word; lia).
  destruct Hw as [Hne' _]. rewrite bool_decide_eq_false_2 by done.
  unfold parse_u64. rewrite !parse_uint_fmt by (unfold u64_max; lia).
  cbn [ok_or mbind result_bind].
  assert (Hn : new (start r) (count r) = Ok r); [|by rewrite Hn].
  apply new_exact; unfold u64_max, u32_max; try lia. split_and!; try lia.
  rewrite wrap_u32_id by (unfold u32_max; lia). by destruct r.
Qed.

(** The parser reads back what [getsubids] prints: any list of well-formed
    delegations, in order, whatever their indices and account names. *)
Theorem parse_getsubids_roundtrip entries :
  Forall entry_wf entries →
  parse_getsubids_output (print_output entries) = Ok entries.*2.
Proof.
  intros Hwf. unfold parse_getsubids_output.
  induction Hwf as [|[[i name] r] entries He Hwf IH]; [done|].
  pose proof He as (Hi & Hw & Hr & _). cbn [fst snd] in *.
  destruct (print_line_text i name r) as (s & c & Hl & Hs & Hc); [lia|done..|].
  cbn [print_output foldr fst snd]. rewrite lines_text.
  2:{ rewrite Hl, str_all_app, Hs. cbn [str_all]. unfold graph_char, text_char in *.
      rewrite in_range_bounds in Hc. apply andb_true_iff; split; [done|].
      rewrite andb_true_r. apply in_range_bounds. lia. }
  cbn [parse_lines]. rewrite Hl, trim_end_text by done. rewrite <-Hl.
  rewrite bool_decide_eq_false_2 by (rewrite Hl; by destruct s).
  rewrite parse_print_line by done. cbn [mbind result_bind].
  unfold print_output in IH. by rewrite IH.
Qed.
End parser_proofs.

Lemma parse_getsubids_roundtrip_witness :
  parse_getsubids_output (print_output [(0, "ubuntu", MkRange 165536 65536)])
    = Ok [MkRange 165536 65536].
Proof.
  apply (parse_getsubids_roundtrip [(0, "ubuntu", MkRange 165536 65536)]).
  apply Forall_cons; split; [|apply Forall_nil; exact I].
  unfold entry_wf, word, range_wf, end_, u32_max. cbn [fst snd start count].
  repeat split; try lia; try reflexivity; discriminate.
Defined.

(** ** The cache, proved *)

(** [truth g d]: a query that ran entirely under source generation [g] can
    answer [d].  The world of one call is honest when its helper runs that are
    bracketed by two equal observations answer under that generation. *)
Section cache.
Context (truth : DelegationGeneration → Delegation → Prop).

Definition honest (w : world) : Prop :=
  ∀ name d,
    (gen0 w = gen1 w → first_query w name = Ok d → truth (gen0 w) d)
    ∧ (gen1 w = gen2 w → second_query w name = Ok d → truth (gen2 w) d).

Definition cache_ok (c : DelegationCache) : Prop :=
  ∀ g d, cached c = Some (g, d) → truth g d.

Lemma publish_ok g d c : cache_ok c → truth g d → cache_ok (publish g d c).
Proof.
  unfold cache_ok, publish. intros Hc Ht g' d'.
  destruct (cached c) as [[g0 d0]|] eqn:Hcd; [|by intros [= <- <-]].
  case_bool_decide; [rewrite Hcd; by apply Hc|]. by intros [= <- <-].
Qed.

Lemma current_account_cached w c : cached (current_account_name w c).2 = cached c.
Proof. unfold current_account_name. by destruct (account c). Qed.

Definition answer_ok (w : world) (c c' : DelegationCache) (r : result Error Delegation) : Prop :=
  match r with
  | Ok d => truth (gen0 w) d ∨ (gen0 w ≠ gen1 w ∧ gen1 w = gen2 w ∧ truth (gen2 w) d)
  | Err _ => cached c' = cached c
  end.

Lemma query_fresh_ok w c :
  cache_ok c → honest w →
  cache_ok (query_fresh w c).2 ∧ answer_ok w c (query_fresh w c).2 (query_fresh w c).1.
Proof.
  intros Hc Hw. unfold query_fresh. pose proof (current_account_cached w c) as Hcc.
  destruct (current_account_name w c) as [[name|e] c1]; simpl in Hcc.
  2:{ split; [|done]. unfold cache_ok; simpl. by rewrite Hcc. }
  assert (Hc1 : cache_ok c1) by (unfold cache_ok; by rewrite Hcc).
  destruct (first_query w name) as [d|e] eqn:Hq1; [|done].
  destruct (Hw name d) as [H1 _].
  case_bool_decide as Hg; simpl.
  - split; [apply publish_ok|left]; auto.
  - destruct (second_query w name) as [d'|e] eqn:Hq2; [|done].
    destruct (Hw name d') as [_ H2]. case_bool_decide as Hg'; simpl; [|done].
    split; [apply publish_ok|right; split_and!]; auto.
Qed.

(** The cache never serves or publishes a snapshot under the wrong source
    generation.  A successful query returns an answer of the generation
    observed at its start or, after a racing edit, of the generation observed
    at its end; a failed query leaves the snapshot alone; and the cache
    invariant is preserved on every path. *)
Theorem query_serves_matching_generation force w c :
  cache_ok c → honest w →
  cache_ok (query_with_generation force w c).2
  ∧ answer_ok w c (query_with_generation force w c).2 (query_with_generation force w c).1.
Proof.
  intros Hc Hw. unfold query_with_generation.
  destruct force; [by apply query_fresh_ok|].
  destruct (cached c) as [[g d]|] eqn:Hcd; [|by apply query_fresh_ok].
  case_bool_decide; [|by apply query_fresh_ok]. subst.
  split; [done|]. left. by apply Hc.
Qed.
End cache.

Definition gen_a : DelegationGeneration :=
  MkGen (MkFileGen true 20 (Some 1)) (MkFileGen true 20 (Some 1)) (MkFileGen false 0 None).
Definition del_a : Delegation := MkDelegation [MkRange 100000 10] [MkRange 100000 10].
Definition del_b : Delegation := MkDelegation [MkRange 300000 10] [MkRange 300000 10].
Definition world_a : world :=
  MkWorld gen_a gen_a gen_a (Ok "shbox") (fun _ => Ok del_a) (fun _ => Ok del_a).

Lemma query_serves_matching_generation_witness :
  answer_ok (fun g d => g = gen_a ∧ d = del_a) world_a empty_cache
    (query_with_generation false world_a empty_cache).2
    (query_with_generation false world_a empty_cache).1.
Proof.
  apply (query_serves_matching_generation (fun g d => g = gen_a ∧ d = del_a) false
    world_a empty_cache).
  - intros g d Hc. discriminate Hc.
  - intros name d. split; intros _ Hq; split; try reflexivity; injection Hq as <-; reflexivity.
Defined.

(** A forced refresh does not refresh the cache.  When the answer of the
    subordinate-ID source changes without a change of the watched files,
    [refresh] returns the new delegation but leaves the old snapshot published,
    and the next [query] serves the old one. *)
Theorem refresh_keeps_the_stale_snapshot w c d_old d_new name :
  cached c = Some (gen0 w, d_old) → account c = Some (Ok name) → gen0 w = gen1 w →
  first_query w name = Ok d_new →
  refresh w c = (Ok d_new, c) ∧ (query w (refresh w c).2).1 = Ok d_old.
Proof.
  intros Hc Ha Hg Hq.
  assert (Hr : refresh w c = (Ok d_new, c)).
  { unfold refresh, query_with_generation, query_fresh, current_account_name.
    rewrite Ha, Hq, bool_decide_eq_true_2 by done. simpl. unfold publish. rewrite Hc.
    by rewrite bool_decide_eq_true_2. }
  split; [done|]. rewrite Hr. unfold query, query_with_generation. simpl. rewrite Hc.
  by rewrite bool_decide_eq_true_2.
Qed.

Lemma refresh_keeps_the_stale_snapshot_witness :
  let c := MkCache (Some (Ok "shbox")) (Some (gen_a, del_b)) in
  refresh world_a c = (Ok del_a, c) ∧ (query world_a (refresh world_a c).2).1 = Ok del_b.
Proof.
  intros c. apply (refresh_keeps_the_stale_snapshot world_a c del_b del_a "shbox"); reflexivity.
Defined.
End Delegation.
