(* ===== verification/AvailableIds.v ===== *)
(** * The free-interval set of the allocator ([AvailableIds] of
    [sandbox/subid/mod.rs])

    Sorted inclusive free intervals for one delegated ID kind, refined here to
    the set of IDs they stand for. *)

From Stdlib Require Import Sorted.
From S2P Require Import Prelude BTree Delegation.

Module AvailableIds.
Import Delegation.

Abbreviation intervals := (list (Z * Z)).

(** [range.ids().count()]. *)
Definition ids_count (r : SubidRange) : Z := Z.max 0 (end_ r - start r).

(** The closed interval of a range, with the casts of the source. *)
Definition closed (r : SubidRange) : Z * Z :=
  (start r, wrap_u32 (wrap_u64 (start r + ids_count r - 1))).

(** [Vec<(u32, u32)>::sort_unstable]. *)
Definition pair_leb (a b : Z * Z) : bool :=
  (a.1 <? b.1) || ((a.1 =? b.1) && (a.2 <=? b.2)).

Definition sort_unstable : intervals → intervals := sort_by pair_leb.

(** The merge loop; [merged] is kept with its last element first. *)
Definition merge_step (merged : intervals) (iv : Z * Z) : intervals :=
  match merged with
  | (s0, previous_end) :: m' =>
      if iv.1 <=? saturating_add_u32 previous_end 1
      then (s0, Z.max previous_end iv.2) :: m'
      else iv :: merged
  | [] => [iv]
  end.

Definition from_ranges (ranges : list SubidRange) : intervals :=
  bt_collect (reverse (foldl merge_step [] (sort_unstable (closed <$> ranges)))).

Definition remove (id : Z) (m : intervals) : intervals :=
  match bt_last_le id m with
  | None => m
  | Some (s, e) =>
      if e <? id then m
      else if s =? e then bt_remove s m
      else if id =? s then bt_insert (id + 1) e (bt_remove s m)
      else if id =? e then bt_insert s (e - 1) m
      else bt_insert (id + 1) e (bt_insert s (id - 1) m)
  end.

Definition lowest (m : intervals) : option Z :=
  match m with [] => None | (s, _) :: _ => Some s end.

(** ** The set of IDs *)

Definition mem (m : intervals) (x : Z) : Prop := ∃ s e, (s, e) ∈ m ∧ s <= x <= e.

(** Sorted, inside [u32], non-empty and pairwise disjoint intervals. *)
Record wf (m : intervals) : Prop := MkWf {
  wf_sorted : sorted m;
  wf_bounds : ∀ s e, (s, e) ∈ m → 0 <= s ∧ s <= e ∧ e <= u32_max;
  wf_apart : ∀ s1 e1 s2 e2, (s1, e1) ∈ m → (s2, e2) ∈ m → s1 < s2 → e1 < s2;
}.

Lemma klt_Z (a b : Z) : klt a b ↔ a < b.
Proof. apply Z.compare_lt_iff. Qed.

Lemma kle_Z (a b : Z) : kle a b ↔ a <= b.
Proof. apply Z.compare_le_iff. Qed.

Lemma sorted_functional (m : intervals) s e1 e2 : sorted m → (s, e1) ∈ m → (s, e2) ∈ m → e1 = e2.
Proof.
  intros Hs H1 H2. apply bt_get_elem in H1, H2; [|done..]. congruence.
Qed.

(** The interval that holds [id] is the greatest one starting at or below it. *)
Lemma last_le_holds m id s e x y :
  wf m → bt_last_le id m = Some (s, e) → (x, y) ∈ m → x <= id <= y → x = s ∧ y = e ∧ id <= e.
Proof.
  intros [Hs Hb Ha] Hl Hin Hxy. apply bt_last_le_Some in Hl as (Hse & Hle & Hmax); [|done].
  rewrite kle_Z in Hle. specialize (Hmax _ _ Hin). rewrite !kle_Z in Hmax.
  specialize (Hmax ltac:(lia)).
  assert (x = s) as ->.
  { destruct (decide (x = s)); [done|]. pose proof (Ha _ _ _ _ Hin Hse ltac:(lia)). lia. }
  pose proof (sorted_functional _ _ _ _ Hs Hin Hse). lia.
Qed.

Lemma remove_absent m id : wf m → ¬ mem m id → remove id m = m.
Proof.
  intros Hw Hn. unfold remove. destruct (bt_last_le id m) as [[s e]|] eqn:Hl; [|done].
  destruct (e <? id) eqn:?; [done|]. bool_to_prop. exfalso. apply Hn.
  apply bt_last_le_Some in Hl as (Hin & Hle & _); [|apply Hw]. rewrite kle_Z in Hle.
  exists s, e. split; [done|lia].
Qed.

(** The bindings after a removal: the interval that held [id] is replaced by
    its non-empty parts. *)
Lemma remove_bindings m id s e a b :
  wf m → (s, e) ∈ m → s <= id <= e →
  (a, b) ∈ remove id m ↔
    ((a, b) ∈ m ∧ a ≠ s) ∨ (a = s ∧ b = id - 1 ∧ s < id) ∨ (a = id + 1 ∧ b = e ∧ id < e).
Proof.
  intros Hw Hse Hid. pose proof Hw as [Hs Hb Ha]. unfold remove.
  assert (Hl : bt_last_le id m = Some (s, e)).
  { destruct (bt_last_le id m) as [[x y]|] eqn:Hl.
    - destruct (last_le_holds m id x y s e) as (<- & <- & _); done.
    - pose proof (bt_last_le_None _ _ _ _ Hs Hl Hse) as Hlt. rewrite klt_Z in Hlt. lia. }
  rewrite Hl. destruct (Hb _ _ Hse) as (_ & Hle & _).
  assert (Hfree : ∀ y, id < e → (id + 1, y) ∈ m → False).
  { intros y Hlt Hy. pose proof (Ha _ _ _ _ Hse Hy ltac:(lia)). lia. }
  assert (Hfun : ∀ y, (s, y) ∈ m → y = e) by (intros; by eapply sorted_functional).
  destruct (e <? id) eqn:?; bool_to_prop; [lia|].
  destruct (s =? e) eqn:?; bool_to_prop.
  { rewrite elem_of_bt_remove by done. simpl. naive_solver lia. }
  destruct (id =? s) eqn:?; bool_to_prop.
  { rewrite elem_of_bt_insert, elem_of_bt_remove by auto with shbox. simpl. subst.
    split; [naive_solver lia|]. intros [[Hin Hne]|[?|?]]; [right|naive_solver lia..].
    split; [done|]. intros ->. eapply Hfree; [|done]. lia. }
  destruct (id =? e) eqn:?; bool_to_prop.
  { rewrite elem_of_bt_insert by done. simpl. naive_solver lia. }
  rewrite !elem_of_bt_insert by auto with shbox. simpl. split.
  - naive_solver lia.
  - intros [[Hin Hne]|[?|?]]; [right; split; [right|]|naive_solver lia..]; [done|].
    intros ->. eapply Hfree; [|done]. lia.
Qed.

Lemma remove_sorted m id : sorted m → sorted (remove id m).
Proof. unfold remove. intros. repeat case_match; auto with shbox. Qed.

(** Removing an ID removes exactly that ID. *)
Lemma remove_spec m id :
  wf m → wf (remove id m) ∧ ∀ x, mem (remove id m) x ↔ mem m x ∧ x ≠ id.
Proof.
  intros Hw. pose proof Hw as [Hs Hb Ha].
  destruct (bt_last_le id m) as [[s e]|] eqn:Hl.
  2:{ assert (Hn : ¬ mem m id).
      { intros (x & y & Hin & Hx). pose proof (bt_last_le_None _ _ _ _ Hs Hl Hin) as Hlt.
        rewrite klt_Z in Hlt. lia. }
      rewrite remove_absent by done. split; [done|]. intros x. split; [|tauto].
      intros Hx. split; [done|]. by intros ->. }
  destruct (decide (id <= e)) as [Hide|Hgt].
  2:{ assert (Hn : ¬ mem m id).
      { intros (x & y & Hin & Hx). destruct (last_le_holds m id s e x y); naive_solver lia. }
      rewrite remove_absent by done. split; [done|]. intros x. split; [|tauto].
      intros Hx. split; [done|]. by intros ->. }
  pose proof (bt_last_le_Some _ _ _ _ Hs Hl) as (Hse & Hle & _). rewrite kle_Z in Hle.
  assert (Hiff := fun a b => remove_bindings m id s e a b Hw Hse (conj Hle Hide)).
  split; [split|].
  - by apply remove_sorted.
  - intros a b Hin. apply Hiff in Hin. pose proof (Hb _ _ Hse). naive_solver lia.
  - intros a1 b1 a2 b2 H1 H2 Hlt. apply Hiff in H1, H2.
    destruct H1 as [[H1 N1]|H1], H2 as [[H2 N2]|H2].
    + by eapply Ha.
    + assert (a1 < s ∨ s < a1) as [Hc|Hc] by lia.
      * pose proof (Ha _ _ _ _ H1 Hse Hc). lia.
      * pose proof (Ha _ _ _ _ Hse H1 Hc). lia.
    + assert (a2 < s ∨ s < a2) as [Hc|Hc] by lia.
      * pose proof (Ha _ _ _ _ H2 Hse Hc). pose proof (Hb _ _ H2). lia.
      * pose proof (Ha _ _ _ _ Hse H2 Hc). lia.
    + lia.
  - intros x. unfold mem. split.
    + intros (a & b & Hin & Hx). apply Hiff in Hin as [[Hin Hne]|Hin].
      * split; [eauto|]. intros ->. destruct (last_le_holds m id s e a b); naive_solver.
      * split; [exists s, e; split; [done|]|]; lia.
    + intros [(a & b & Hin & Hx) Hne]. destruct (decide (a = s)) as [->|Has].
      * assert (b = e) as -> by by eapply sorted_functional.
        destruct (decide (x < id)).
        { exists s, (id - 1). rewrite Hiff. split; [right; left|]; lia. }
        { exists (id + 1), e. rewrite Hiff. split; [right; right|]; lia. }
      * exists a, b. rewrite Hiff. auto.
Qed.

Lemma lowest_spec m :
  wf m →
  match lowest m with
  | Some x => mem m x ∧ ∀ y, mem m y → x <= y
  | None => ∀ y, ¬ mem m y
  end.
Proof.
  intros [Hs Hb Ha]. destruct m as [|[s e] m]; simpl.
  - intros y (a & b & Hin & _). by apply not_elem_of_nil in Hin.
  - split.
    + exists s, e. split; [by left|]. pose proof (Hb s e ltac:(by left)). lia.
    + intros y (a & b & Hin & Hy). apply elem_of_cons in Hin as [[= -> ->]|Hin]; [lia|].
      pose proof (above_lt _ _ _ _ Hs Hin) as Hlt. rewrite klt_Z in Hlt. lia.
Qed.

(** ** Building the set from the delegation *)

Definition starts_sorted : intervals → Prop := StronglySorted (fun a b => a.1 <= b.1).

Lemma pair_leb_false a b : pair_leb a b = false → b.1 <= a.1.
Proof. unfold pair_leb. intros H. bool_to_prop. lia. Qed.

Lemma pair_leb_true a b : pair_leb a b = true → a.1 <= b.1.
Proof.
  unfold pair_leb. rewrite orb_true_iff, andb_true_iff, Z.ltb_lt, Z.eqb_eq. lia.
Qed.

Lemma insert_sorted_starts a l : starts_sorted l → starts_sorted (insert_by pair_leb a l).
Proof.
  induction 1 as [|b l Hl IH Hb]; simpl; [by repeat constructor|].
  destruct (pair_leb a b) eqn:Hc.
  - apply pair_leb_true in Hc. repeat constructor; try done.
    eapply List.Forall_impl; [|exact Hb]. simpl. lia.
  - apply pair_leb_false in Hc. constructor; [done|].
    apply List.Forall_forall. intros x Hx. apply list_elem_of_In, elem_insert_by in Hx.
    destruct Hx as [->|Hx]; [done|]. rewrite List.Forall_forall in Hb.
    apply Hb. by apply list_elem_of_In.
Qed.

Lemma sort_unstable_spec l :
  starts_sorted (sort_unstable l) ∧ ∀ x, x ∈ sort_unstable l ↔ x ∈ l.
Proof.
  split; [|apply elem_sort_by]. unfold sort_unstable, sort_by.
  induction l as [|a l IH]; simpl; [constructor|by apply insert_sorted_starts].
Qed.

Definition bounded (a : Z * Z) : Prop := 0 <= a.1 <= a.2 ∧ a.2 <= u32_max.

(** The state of the merge loop: the newest interval first, each strictly above
    the older ones. *)
Record merged_ok (acc : intervals) : Prop := MkMerged {
  mo_bounds : ∀ a, a ∈ acc → bounded a;
  mo_apart : StronglySorted (fun newer older => older.2 < newer.1) acc;
}.

Lemma merge_step_ok acc iv :
  merged_ok acc → bounded iv → (∀ a, a ∈ acc → a.1 <= iv.1) →
  merged_ok (merge_step acc iv) ∧ (∀ a, a ∈ merge_step acc iv → a.1 <= iv.1)
  ∧ ∀ x, mem (merge_step acc iv) x ↔ mem acc x ∨ iv.1 <= x <= iv.2.
Proof.
  intros [Hb Ha] Hiv Hle. destruct iv as [s e]. unfold bounded in *. simpl in *.
  assert (Hone : ∀ acc' x, mem ((s, e) :: acc') x ↔ mem acc' x ∨ s <= x <= e).
  { intros acc' x. unfold mem. setoid_rewrite elem_of_cons. naive_solver. }
  destruct acc as [|[s0 e0] acc]; simpl.
  { split_and!; [split| |apply Hone].
    - intros a. rewrite list_elem_of_singleton. by intros ->.
    - by repeat constructor.
    - intros a. rewrite list_elem_of_singleton. by intros ->. }
  pose proof (Hb (s0, e0) ltac:(by left)) as H0. pose proof (Hle (s0, e0) ltac:(by left)) as Hle0.
  simpl in *. inversion_clear Ha as [|? ? Hs Hf].
  unfold saturating_add_u32. destruct (s <=? Z.min (e0 + 1) u32_max) eqn:Hc; bool_to_prop.
  - split_and!; [split| |].
    + intros a. rewrite elem_of_cons. intros [->|Hin]; [unfold bounded; simpl; lia|]. apply Hb. by right.
    + constructor; [done|]. eapply List.Forall_impl; [|exact Hf]. done.
    + intros a. rewrite elem_of_cons. intros [->|Hin]; [done|]. apply Hle. by right.
    + intros x. unfold mem. setoid_rewrite elem_of_cons. split.
      * intros (a & b & [[= -> ->]|Hin] & Hx); [|left; exists a, b; auto].
        destruct (decide (x <= e0)); [left; exists s0, e0; auto with lia|right; lia].
      * intros [(a & b & [[= -> ->]|Hin] & Hx)|Hx].
        { exists s0, (Z.max e0 e). auto with lia. }
        { exists a, b. auto. }
        { exists s0, (Z.max e0 e). auto with lia. }
  - assert (Hgap : e0 < s) by lia. split_and!; [split| |apply Hone].
    + intros a. rewrite elem_of_cons. intros [->|Hin]; [done|]. by apply Hb.
    + constructor; [by constructor|]. constructor; [done|].
      apply List.Forall_forall. intros [a b] Hin. rewrite List.Forall_forall in Hf.
      specialize (Hf _ Hin). simpl in *. lia.
    + intros a. rewrite elem_of_cons. intros [->|Hin]; [done|]. by apply Hle.
Qed.

Lemma merge_fold_ok l acc :
  starts_sorted l → (∀ a, a ∈ l → bounded a) → merged_ok acc →
  (∀ a b, a ∈ acc → b ∈ l → a.1 <= b.1) →
  merged_ok (foldl merge_step acc l)
  ∧ ∀ x, mem (foldl merge_step acc l) x ↔ mem acc x ∨ mem l x.
Proof.
  intros Hl. revert acc. induction Hl as [|[s e] l Hl IH Hs]; intros acc Hb Hacc Hle; simpl.
  { split; [done|]. intros x. split; [by left|]. intros [|(a & b & Hin & _)]; [done|].
    by apply not_elem_of_nil in Hin. }
  destruct (merge_step_ok acc (s, e)) as (Hok & Hup & Hmem); [done| | |].
  { apply Hb. by left. }
  { intros a Ha. apply Hle; [done|by left]. }
  destruct (IH (merge_step acc (s, e))) as [Hok' Hmem']; [|done| |].
  { intros a Ha. apply Hb. by right. }
  { intros a b Ha Hbl. specialize (Hup _ Ha). rewrite List.Forall_forall in Hs.
    specialize (Hs b ltac:(by apply list_elem_of_In)). simpl in *. lia. }
  split; [done|]. intros x. rewrite Hmem', Hmem. unfold mem at 3 4.
  setoid_rewrite elem_of_cons. simpl. unfold mem. naive_solver.
Qed.

Lemma merged_wf acc :
  merged_ok acc → bt_collect (reverse acc) = reverse acc ∧ wf (reverse acc).
Proof.
  intros [Hb Ha].
  assert (Hap : ∀ a b, a ∈ acc → b ∈ acc → a.1 < b.1 → a.2 < b.1).
  { clear -Hb Ha. induction Ha as [|c acc Hs IH Hf]; [intros a b H; by apply not_elem_of_nil in H|].
    intros a b. rewrite !elem_of_cons. rewrite List.Forall_forall in Hf.
    setoid_rewrite <-list_elem_of_In in Hf.
    intros [->|Ha'] [->|Hb'] Hlt.
    - lia.
    - specialize (Hf _ Hb'). pose proof (Hb b ltac:(by right)). unfold bounded in *. lia.
    - by apply Hf.
    - apply IH; auto. intros x Hx. apply Hb. by right. }
  assert (Hs : sorted (reverse acc)).
  { clear Hap. induction Ha as [|[k v] acc Hs IH Hf]; [done|]. rewrite reverse_cons.
    apply sorted_snoc; [apply IH; intros a Hin; apply Hb; by right|].
    intros b Hin. rewrite elem_of_reverse in Hin. rewrite List.Forall_forall in Hf.
    specialize (Hf b ltac:(by apply list_elem_of_In)).
    pose proof (Hb b ltac:(by right)). unfold bounded in *. apply klt_Z. simpl in *. lia. }
  split; [by apply bt_collect_sorted|]. split; [done| |].
  - intros s e Hin. rewrite elem_of_reverse in Hin. specialize (Hb _ Hin).
    unfold bounded in Hb. simpl in Hb. lia.
  - intros s1 e1 s2 e2 H1 H2 Hlt. rewrite elem_of_reverse in H1, H2.
    by apply (Hap _ _ H1 H2).
Qed.

Lemma closed_wf r : range_wf r → closed r = (start r, start r + count r - 1).
Proof.
  intros (Hs & Hc & He). unfold closed, ids_count, end_ in *.
  replace (Z.max 0 _) with (count r) by lia. f_equal.
  unfold wrap_u64. rewrite Z.mod_small by lia. apply wrap_u32_id. unfold u32_max. lia.
Qed.

Lemma from_ranges_spec ranges :
  Forall range_wf ranges →
  wf (from_ranges ranges)
  ∧ ∀ x, mem (from_ranges ranges) x ↔ existsb (fun r => contains r x) ranges = true.
Proof.
  intros Hr. unfold from_ranges. set (cl := closed <$> ranges).
  destruct (sort_unstable_spec cl) as [Hs He].
  destruct (merge_fold_ok (sort_unstable cl) []) as [Hok Hmem]; [done|..].
  { intros a Ha. apply He in Ha. apply list_elem_of_fmap in Ha as (r & -> & Hin).
    rewrite Forall_forall in Hr. specialize (Hr _ Hin). rewrite closed_wf by done.
    destruct Hr as (? & ? & Hend). unfold bounded, end_, u32_max in *. simpl. lia. }
  { split; [|constructor]. intros a Ha. by apply not_elem_of_nil in Ha. }
  { intros a b Ha. by apply not_elem_of_nil in Ha. }
  destruct (merged_wf _ Hok) as [-> Hw]. split; [done|]. intros x.
  transitivity (mem cl x).
  { transitivity (mem (foldl merge_step [] (sort_unstable cl)) x).
    - unfold mem. by setoid_rewrite elem_of_reverse.
    - rewrite Hmem. unfold mem. setoid_rewrite He. split; [|by right].
      intros [(a & b & Hin & _)|]; [|done]. by apply not_elem_of_nil in Hin. }
  rewrite List.existsb_exists. rewrite Forall_forall in Hr. unfold mem, cl. split.
  - intros (a & b & Hin & Hx). apply list_elem_of_fmap in Hin as (r & Heq & Hin).
    exists r. split; [by apply list_elem_of_In|]. specialize (Hr _ Hin).
    rewrite closed_wf in Heq by done. apply wf_contains; [done|]. simplify_eq. lia.
  - intros (r & Hin & Hc). apply list_elem_of_In in Hin. specialize (Hr _ Hin).
    apply wf_contains in Hc; [|done]. exists (start r), (start r + count r - 1).
    split; [|lia]. apply list_elem_of_fmap. exists r. by rewrite closed_wf.
Qed.

(** ** A build followed by removals *)

Definition remove_all (taken : list Z) (m : intervals) : intervals :=
  foldl (fun m id => remove id m) m taken.

Lemma remove_all_spec taken m :
  wf m → wf (remove_all taken m) ∧ ∀ x, mem (remove_all taken m) x ↔ mem m x ∧ x ∉ taken.
Proof.
  revert m. induction taken as [|id taken IH]; intros m Hw; simpl.
  { split; [done|]. intros x. split; [|by intros [??]]. intros; split; [done|].
    by apply not_elem_of_nil. }
  destruct (remove_spec m id Hw) as [Hw' Hm]. destruct (IH _ Hw') as [Hw'' Hm'].
  split; [done|]. intros x. rewrite Hm', Hm, not_elem_of_cons. tauto.
Qed.

(** The abstract pool: the delegated IDs that are not taken. *)
Definition free (ranges : list SubidRange) (taken : list Z) (x : Z) : Prop :=
  existsb (fun r => contains r x) ranges = true ∧ x ∉ taken.

Lemma available_spec ranges taken :
  Forall range_wf ranges →
  wf (remove_all taken (from_ranges ranges))
  ∧ ∀ x, mem (remove_all taken (from_ranges ranges)) x ↔ free ranges taken x.
Proof.
  intros Hr. destruct (from_ranges_spec ranges Hr) as [Hw Hm].
  destruct (remove_all_spec taken _ Hw) as [Hw' Hm']. split; [done|].
  intros x. unfold free. by rewrite Hm', Hm.
Qed.

Lemma lowest_free ranges taken :
  Forall range_wf ranges →
  match lowest (remove_all taken (from_ranges ranges)) with
  | Some x => free ranges taken x ∧ ∀ y, free ranges taken y → x <= y
  | None => ∀ y, ¬ free ranges taken y
  end.
Proof.
  intros Hr. destruct (available_spec ranges taken Hr) as [Hw Hm].
  pose proof (lowest_spec _ Hw) as Hl. destruct (lowest _); setoid_rewrite <-Hm; done.
Qed.

(** The interval set is a faithful representation of the free pool.  Built
    from any overlapping, adjacent or unordered delegation and after any
    sequence of removals, its intervals stay sorted, disjoint and inside [u32]
    (so that neither [id + 1] nor [end - 1] overflows), and they hold exactly
    the delegated IDs that were not removed. *)
Theorem intervals_represent_the_pool ranges taken :
  Forall range_wf ranges →
  let m := remove_all taken (from_ranges ranges) in
  sorted m
  ∧ (∀ s e, (s, e) ∈ m → 0 <= s ∧ s <= e ∧ e <= u32_max)
  ∧ (∀ s1 e1 s2 e2, (s1, e1) ∈ m → (s2, e2) ∈ m → s1 < s2 → e1 < s2)
  ∧ ∀ x, (∃ s e, (s, e) ∈ m ∧ s <= x <= e) ↔ free ranges taken x.
Proof.
  intros Hr m. destruct (available_spec ranges taken Hr) as [[Hs Hb Ha] Hm]. auto.
Qed.

Definition sample_ranges : list SubidRange :=
  [MkRange 200000 5; MkRange 100000 10; MkRange 100005 10; MkRange 100015 1].

Lemma sample_ranges_wf : Forall range_wf sample_ranges.
Proof.
  repeat (apply Forall_cons; split; [unfold range_wf, end_; simpl; lia|]).
  apply Forall_nil. exact I.
Defined.

Lemma intervals_represent_the_pool_witness :
  remove_all [100000; 100003] (from_ranges sample_ranges)
    = [(100001, 100002); (100004, 100015); (200000, 200004)]
  ∧ sorted (remove_all [100000; 100003] (from_ranges sample_ranges)).
Proof.
  split; [reflexivity|].
  apply (intervals_represent_the_pool sample_ranges [100000; 100003] sample_ranges_wf).
Defined.

(** [lowest] is the least free ID of the pool, and reports exhaustion
    exactly when every delegated ID is taken. *)
Theorem lowest_is_least_free ranges taken :
  Forall range_wf ranges →
  match lowest (remove_all taken (from_ranges ranges)) with
  | Some x => free ranges taken x ∧ ∀ y, free ranges taken y → x <= y
  | None => ∀ y, ¬ free ranges taken y
  end.
Proof. apply lowest_free. Qed.

Lemma lowest_is_least_free_witness :
  lowest (remove_all [100000; 100001] (from_ranges sample_ranges)) = Some 100002
  ∧ free sample_ranges [100000; 100001] 100002.
Proof.
  split; [reflexivity|].
  pose proof (lowest_is_least_free sample_ranges [100000; 100001] sample_ranges_wf) as Hl.
  change (lowest _) with (Some 100002) in Hl. exact (proj1 Hl).
Defined.
End AvailableIds.
