(* ===== verification/FileSystem.v ===== *)
(** * The filesystem the registry runs on

    The descriptor-relative primitives of [sandbox/storage.rs], over an explicit
    directory tree.  A descriptor is the path of its directory below the root
    the store was opened on.  Every system call may fail: [w_env] scripts, call
    by call, whether the kernel refuses it with an I/O error (and then it has no
    effect); once the script is used up calls behave normally.  [w_fault] is the
    point armed in the store's [FaultInjector], if any. *)

From S2P Require Import Prelude Text Toml.

Inductive io_error :=
| Errno (n : Z)
| IoOther (msg : string).

#[global] Instance io_error_eq_dec : EqDecision io_error.
Proof. solve_decision. Defined.

Definition ENOENT : Z := 2.
Definition EIO : Z := 5.
Definition EEXIST : Z := 17.
Definition ENOTDIR : Z := 20.
Definition EISDIR : Z := 21.
Definition ENOTEMPTY : Z := 39.
Definition ELOOP : Z := 40.

(** [errno_is]. *)
Definition errno_is (e : io_error) (n : Z) : bool :=
  match e with Errno k => k =? n | IoOther _ => false end.

(** ** Directory trees *)

Inductive node :=
| NFile (mode uid : Z) (data : string)
| NDir (mode uid : Z) (entries : list (string * node))
| NSymlink (uid : Z)
| NOther (mode uid : Z).

Abbreviation entries := (list (string * node)).

Definition S_IFMT : Z := 61440.
Definition S_IFDIR : Z := 16384.
Definition S_IFREG : Z := 32768.
Definition S_IFLNK : Z := 40960.
Definition S_IFIFO : Z := 4096.

Record stat := MkStat { st_mode : Z; st_uid : Z }.

Definition stat_of (n : node) : stat :=
  match n with
  | NFile mode uid _ => MkStat (Z.lor S_IFREG mode) uid
  | NDir mode uid _ => MkStat (Z.lor S_IFDIR mode) uid
  | NSymlink uid => MkStat (Z.lor S_IFLNK 511) uid
  | NOther mode uid => MkStat (Z.lor S_IFIFO mode) uid
  end.

Definition is_directory (mode : Z) : bool := Z.land mode S_IFMT =? S_IFDIR.
Definition is_regular (mode : Z) : bool := Z.land mode S_IFMT =? S_IFREG.
Definition mode_bits (mode : Z) : Z := Z.land mode 511.
(** [mode_bits(mode) & 0o022 != 0]. *)
Definition group_or_world_writable (mode : Z) : bool := negb (Z.land (mode_bits mode) 18 =? 0).

Fixpoint ent_get (name : string) (es : entries) : option node :=
  match es with
  | [] => None
  | (k, n) :: es' => if bool_decide (k = name) then Some n else ent_get name es'
  end.

Fixpoint ent_del (name : string) (es : entries) : entries :=
  match es with
  | [] => []
  | (k, n) :: es' => if bool_decide (k = name) then es' else (k, n) :: ent_del name es'
  end.

Fixpoint ent_set (name : string) (n : node) (es : entries) : entries :=
  match es with
  | [] => [(name, n)]
  | (k, m) :: es' =>
      if bool_decide (k = name) then (k, n) :: es' else (k, m) :: ent_set name n es'
  end.

(** A descriptor: the path of a directory below the root. *)
Abbreviation fd := (list string).

Fixpoint node_at (p : fd) (n : node) : option node :=
  match p with
  | [] => Some n
  | name :: p' =>
      match n with
      | NDir _ _ es => child ← ent_get name es; node_at p' child
      | _ => None
      end
  end.

(** Replace the entries of the directory at [p]. *)
Fixpoint set_entries (p : fd) (f : entries → entries) (n : node) : node :=
  match n with
  | NDir mode uid es =>
      match p with
      | [] => NDir mode uid (f es)
      | name :: p' =>
          match ent_get name es with
          | Some child => NDir mode uid (ent_set name (set_entries p' f child) es)
          | None => n
          end
      end
  | _ => n
  end.

(** Only directories look like directories, whatever their permission bits. *)
Lemma is_directory_bit k mode b :
  0 <= k → Z.testbit k b = true → Z.testbit S_IFMT b = true → Z.testbit S_IFDIR b = false →
  is_directory (Z.lor k mode) = false.
Proof.
  intros _ Hk Hm Hd. unfold is_directory. apply Z.eqb_neq. intros Heq.
  apply (f_equal (fun z => Z.testbit z b)) in Heq.
  by rewrite Z.land_spec, Z.lor_spec, Hk, Hm, Hd in Heq.
Qed.

Lemma is_directory_dir n :
  is_directory (st_mode (stat_of n)) = true → ∃ mode uid es, n = NDir mode uid es.
Proof.
  destruct n as [mode u data|mode u es|u|mode u]; simpl; [|eauto|done|].
  - by rewrite (is_directory_bit S_IFREG mode 15).
  - by rewrite (is_directory_bit S_IFIFO mode 12).
Qed.

(** ** Fault points *)

Inductive FaultPoint :=
| CreateSandboxDirectory | CreateWorkspace | MetadataTempCreate | MetadataWrite
| MetadataFileSync | MetadataRename | MetadataParentSync | RegistryParentSync
| DeleteEntry | DeleteRootSync
| LeaseTempCreate | LeaseWrite | LeaseFileSync | LeaseRename | LeaseParentSync
| LeaseUnlink | LeaseUnlinkSync.

#[global] Instance FaultPoint_eq_dec : EqDecision FaultPoint.
Proof. solve_decision. Defined.

(** [{point:?}]. *)
Definition point_debug (p : FaultPoint) : string :=
  match p with
  | CreateSandboxDirectory => "CreateSandboxDirectory" | CreateWorkspace => "CreateWorkspace"
  | MetadataTempCreate => "MetadataTempCreate" | MetadataWrite => "MetadataWrite"
  | MetadataFileSync => "MetadataFileSync" | MetadataRename => "MetadataRename"
  | MetadataParentSync => "MetadataParentSync" | RegistryParentSync => "RegistryParentSync"
  | DeleteEntry => "DeleteEntry" | DeleteRootSync => "DeleteRootSync"
  | LeaseTempCreate => "LeaseTempCreate" | LeaseWrite => "LeaseWrite"
  | LeaseFileSync => "LeaseFileSync" | LeaseRename => "LeaseRename"
  | LeaseParentSync => "LeaseParentSync" | LeaseUnlink => "LeaseUnlink"
  | LeaseUnlinkSync => "LeaseUnlinkSync"
  end.

Record world := MkWorld
  { w_root : option node; w_env : list bool; w_fault : option FaultPoint; w_counter : Z }.

Definition with_root (r : option node) (w : world) : world :=
  MkWorld r (w_env w) (w_fault w) (w_counter w).

(** [FaultInjector::trip]: fail once at the armed point. *)
Definition trip (point : FaultPoint) : M world io_error unit := fun w =>
  if bool_decide (w_fault w = Some point)
  then (Err (IoOther ("injected fault at " +:+ point_debug point)), MkWorld (w_root w) (w_env w) None (w_counter w))
  else (Ok tt, w).

(** The kernel's verdict on the next system call. *)
Definition sys : M world io_error unit := fun w =>
  match w_env w with
  | [] => (Ok tt, w)
  | b :: env' =>
      (if b then Err (Errno EIO) else Ok tt,
       MkWorld (w_root w) env' (w_fault w) (w_counter w))
  end.

(** ** System calls *)

(** [TEMP_COUNTER.fetch_add(1)]. *)
Definition fetch_add_counter : M world io_error Z := fun w =>
  (Ok (w_counter w), MkWorld (w_root w) (w_env w) (w_fault w) (wrap_u64 (w_counter w + 1))).

Definition get_entries (d : fd) : M world io_error entries := fun w =>
  match w_root w ≫= node_at d with
  | Some (NDir _ _ es) => (Ok es, w)
  | Some _ => (Err (Errno ENOTDIR), w)
  | None => (Err (Errno ENOENT), w)
  end.

Definition update_entries (d : fd) (f : entries → entries) : M world io_error unit := fun w =>
  (Ok tt, with_root (set_entries d f <$> w_root w) w).

(** [CString::new(name)]. *)
Definition has_nul (name : string) : bool := negb (str_all (fun c => negb (byte_val c =? 0)) name).
Definition check_name (name : string) : M world io_error unit :=
  if has_nul name then fail (IoOther "path component contains NUL") else mret tt.

Definition open_as_directory (o : option node) (d : fd) : M world io_error fd :=
  match o with
  | None => fail (Errno ENOENT)
  | Some (NSymlink _) => fail (Errno ELOOP)
  | Some n =>
      _ ← sys;
      if is_directory (st_mode (stat_of n)) then mret d else fail (Errno ENOTDIR)
  end.

Definition open_directory_path : M world io_error fd :=
  _ ← sys;
  w ← getS;
  open_as_directory (w_root w) [].

Definition open_directory_at (parent : fd) (name : string) : M world io_error fd :=
  _ ← check_name name;
  _ ← sys;
  es ← get_entries parent;
  open_as_directory (ent_get name es) (parent ++ [name]).

Definition fstat (d : fd) : M world io_error stat :=
  _ ← sys;
  w ← getS;
  match w_root w ≫= node_at d with
  | Some n => mret (stat_of n)
  | None => fail (Errno ENOENT)
  end.

Definition stat_at (parent : fd) (name : string) : M world io_error stat :=
  _ ← check_name name;
  _ ← sys;
  es ← get_entries parent;
  match ent_get name es with
  | Some n => mret (stat_of n)
  | None => fail (Errno ENOENT)
  end.

Definition read_names (d : fd) : M world io_error (list string) :=
  _ ← sys;
  es ← get_entries d;
  mret es.*1.

(** The process the code runs as: its effective IDs and process ID, the path
    of its data root, and the platform's text for an I/O error. *)
Class Host := {
  euid : Z;
  egid : Z;
  pid : Z;
  data_root : string;
  io_display : io_error → string;
}.

(** A process to run concrete examples as. *)
Definition sample_host : Host := {|
  euid := 1000; egid := 1000; pid := 7; data_root := "/srv/shbox";
  io_display := fun e => match e with Errno n => fmt_dec n | IoOther m => m end |}.

Section calls.
Context `{Host}.

Definition mkdir_at (parent : fd) (name : string) (mode : Z) : M world io_error unit :=
  _ ← check_name name;
  _ ← sys;
  es ← get_entries parent;
  match ent_get name es with
  | Some _ => fail (Errno EEXIST)
  | None => update_entries parent (fun es => ent_set name (NDir mode euid []) es)
  end.

(** [O_CREAT | O_EXCL]; the file is its name in the parent. *)
Definition create_file_at (parent : fd) (name : string) (mode : Z) : M world io_error unit :=
  _ ← check_name name;
  _ ← sys;
  es ← get_entries parent;
  match ent_get name es with
  | Some _ => fail (Errno EEXIST)
  | None => update_entries parent (fun es => ent_set name (NFile mode euid EmptyString) es)
  end.
End calls.

(** [File::write_all] on a freshly created file. *)
Definition write_all (parent : fd) (name : string) (data : string) : M world io_error unit :=
  _ ← sys;
  es ← get_entries parent;
  match ent_get name es with
  | Some (NFile mode uid _) =>
      update_entries parent (fun es => ent_set name (NFile mode uid data) es)
  | _ => fail (Errno EIO)
  end.

Definition sync_all : M world io_error unit := sys.
Definition sync_directory : M world io_error unit := sys.

Definition read_file_at (parent : fd) (name : string) (max_bytes : Z)
    : M world io_error string :=
  _ ← check_name name;
  _ ← sys;
  es ← get_entries parent;
  match ent_get name es with
  | None => fail (Errno ENOENT)
  | Some (NSymlink _) => fail (Errno ELOOP)
  | Some (NDir _ _ _) => fail (Errno EISDIR)
  | Some (NOther _ _) => fail (Errno EIO)
  | Some (NFile _ _ data) =>
      _ ← sys;
      if max_bytes <? str_len data then fail (IoOther "metadata exceeds the size limit")
      else mret data
  end.

(** [renameat] inside one directory. *)
Definition rename_at (parent : fd) (from to : string) : M world io_error unit :=
  _ ← check_name from;
  _ ← check_name to;
  _ ← sys;
  es ← get_entries parent;
  match ent_get from es with
  | None => fail (Errno ENOENT)
  | Some n =>
      match ent_get to es with
      | Some (NDir _ _ _) => fail (Errno EISDIR)
      | _ => update_entries parent (fun es => ent_set to n (ent_del from es))
      end
  end.

Inductive unlink_flag := UnlinkFile | AtRemovedir.

(** What [unlinkat] does to an entry, or the error it reports. *)
Definition unlink_check (flag : unlink_flag) (o : option node) : option io_error :=
  match flag, o with
  | _, None => Some (Errno ENOENT)
  | UnlinkFile, Some (NDir _ _ _) => Some (Errno EISDIR)
  | UnlinkFile, Some _ => None
  | AtRemovedir, Some (NDir _ _ []) => None
  | AtRemovedir, Some (NDir _ _ _) => Some (Errno ENOTEMPTY)
  | AtRemovedir, Some _ => Some (Errno ENOTDIR)
  end.

Definition unlink_at (parent : fd) (name : string) (flag : unlink_flag)
    : M world io_error unit :=
  _ ← check_name name;
  _ ← sys;
  es ← get_entries parent;
  match unlink_check flag (ent_get name es) with
  | Some e => fail e
  | None => update_entries parent (ent_del name)
  end.

(** ** A program logic for the tree

    [hoare P m Q]: from a tree satisfying [P], whatever the kernel refuses and
    whatever fault is armed, [m] ends in a result and a tree related by [Q]. *)

Definition hoare {E A} (P : option node → Prop) (m : M world E A)
    (Q : result E A → option node → Prop) : Prop :=
  ∀ w, P (w_root w) → Q (m w).1 (w_root (m w).2).

Lemma hoare_conseq {E A} (P P' : option node → Prop) (m : M world E A) Q Q' :
  hoare P' m Q' → (∀ t, P t → P' t) → (∀ r t, Q' r t → Q r t) → hoare P m Q.
Proof. intros Hm HP HQ w Hw. auto. Qed.

Lemma hoare_ret {E A} (a : A) (Q : result E A → option node → Prop) :
  hoare (Q (Ok a)) (mret a) Q.
Proof. by intros w Hw. Qed.

Lemma hoare_fail {E A} (e : E) (Q : result E A → option node → Prop) :
  hoare (Q (Err e)) (fail e) Q.
Proof. by intros w Hw. Qed.

Lemma hoare_liftR {E A} (r : result E A) (Q : result E A → option node → Prop) :
  hoare (Q r) (liftR r) Q.
Proof. by intros w Hw. Qed.

Lemma hoare_bind {E A B} P (m : M world E A) (f : A → M world E B) Q R :
  hoare P m (fun r t => match r with Ok a => R a t | Err e => Q (Err e) t end) →
  (∀ a, hoare (R a) (f a) Q) →
  hoare P (m ≫= f) Q.
Proof.
  intros Hm Hf w Hw. specialize (Hm w Hw). unfold mbind, M_bind.
  destruct (m w) as [[a|e] w']; simpl in *; [by apply Hf|done].
Qed.

Lemma hoare_mapE {E E' A} (g : E → E') P (m : M world E A) Q :
  hoare P m (fun r t => Q (map_err g r) t) → hoare P (mapE g m) Q.
Proof.
  intros Hm w Hw. specialize (Hm w Hw). unfold mapE. by destruct (m w) as [r w'].
Qed.

Lemma hoare_tryM {E E' A} P (m : M world E A) (Q : result E' (result E A) → option node → Prop) :
  hoare P m (fun r t => Q (Ok r) t) → hoare P (tryM m) Q.
Proof.
  intros Hm w Hw. specialize (Hm w Hw). unfold tryM. by destruct (m w) as [r w'].
Qed.

Lemma hoare_sys (P : option node → Prop) : hoare P sys (fun _ t => P t).
Proof. intros w Hw. unfold sys. by destruct (w_env w). Qed.

Lemma hoare_trip point (P : option node → Prop) : hoare P (trip point) (fun _ t => P t).
Proof. intros w Hw. unfold trip. by case_bool_decide. Qed.

Lemma hoare_check_name name (P : option node → Prop) : hoare P (check_name name) (fun _ t => P t).
Proof. intros w Hw. unfold check_name. by destruct (has_nul name). Qed.

Lemma hoare_fetch_add (P : option node → Prop) : hoare P fetch_add_counter (fun _ t => P t).
Proof. by intros w Hw. Qed.

Lemma hoare_get_entries d (P : option node → Prop) :
  hoare P (get_entries d) (fun r t => P t ∧
    match r with
    | Ok es => ∃ mode uid, t ≫= node_at d = Some (NDir mode uid es)
    | Err e => True
    end).
Proof.
  intros w Hw. unfold get_entries. destruct (w_root w ≫= node_at d) as [[]|] eqn:Hn; simpl; eauto.
Qed.

Lemma hoare_update_entries d f (Q : result io_error unit → option node → Prop) :
  hoare (fun t => Q (Ok tt) (set_entries d f <$> t)) (update_entries d f) Q.
Proof. by intros w Hw. Qed.

(** A computation that never changes the tree. *)
Definition read_only {E A} (m : M world E A) : Prop := ∀ w, w_root (m w).2 = w_root w.

Lemma read_only_hoare {E A} (m : M world E A) P :
  read_only m → hoare P m (fun _ t => P t).
Proof. intros Hm w Hw. by rewrite Hm. Qed.

Lemma read_only_ret {E A} (a : A) : read_only (mret a : M world E A).
Proof. done. Qed.

Lemma read_only_fail {E A} (e : E) : read_only (fail e : M world E A).
Proof. done. Qed.

Lemma read_only_liftR {E A} (r : result E A) : read_only (liftR r).
Proof. done. Qed.

Lemma read_only_getS {E} : read_only (getS : M world E world).
Proof. done. Qed.

Lemma read_only_bind {E A B} (m : M world E A) (f : A → M world E B) :
  read_only m → (∀ a, read_only (f a)) → read_only (m ≫= f).
Proof.
  intros Hm Hf w. specialize (Hm w). unfold mbind, M_bind.
  destruct (m w) as [[a|e] w']; simpl in *; [by rewrite Hf|done].
Qed.

Lemma read_only_mapE {E E' A} (g : E → E') (m : M world E A) : read_only m → read_only (mapE g m).
Proof. intros Hm w. specialize (Hm w). unfold mapE. by destruct (m w). Qed.

Lemma read_only_tryM {E E' A} (m : M world E A) :
  read_only m → read_only (tryM m : M world E' (result E A)).
Proof. intros Hm w. specialize (Hm w). unfold tryM. by destruct (m w). Qed.

Lemma read_only_sys : read_only sys.
Proof. intros w. unfold sys. by destruct (w_env w). Qed.

Lemma read_only_trip point : read_only (trip point).
Proof. intros w. unfold trip. by case_bool_decide. Qed.

Lemma read_only_get_entries d : read_only (get_entries d).
Proof. intros w. unfold get_entries. by destruct (w_root w ≫= node_at d) as [[]|]. Qed.

Create HintDb read_only.
#[export] Hint Resolve read_only_ret read_only_fail read_only_liftR read_only_getS
  read_only_mapE read_only_tryM read_only_sys read_only_trip read_only_get_entries : read_only.

Ltac read_only_tac :=
  repeat first
    [ progress intros
    | apply read_only_bind
    | solve [eauto with read_only]
    | apply read_only_mapE | apply read_only_tryM
    | case_match ].

Lemma read_only_check_name name : read_only (check_name name).
Proof. unfold check_name. read_only_tac. Qed.
#[export] Hint Resolve read_only_check_name : read_only.

Lemma read_only_open_as o d : read_only (open_as_directory o d).
Proof. unfold open_as_directory. read_only_tac. Qed.
#[export] Hint Resolve read_only_open_as : read_only.

Lemma read_only_open_path : read_only open_directory_path.
Proof. unfold open_directory_path. read_only_tac. Qed.

Lemma read_only_open_at d name : read_only (open_directory_at d name).
Proof. unfold open_directory_at. read_only_tac. Qed.

Lemma read_only_fstat d : read_only (fstat d).
Proof. unfold fstat. read_only_tac. Qed.

Lemma read_only_stat_at d name : read_only (stat_at d name).
Proof. unfold stat_at. read_only_tac. Qed.

Lemma read_only_read_names d : read_only (read_names d).
Proof. unfold read_names. read_only_tac. Qed.

Lemma read_only_read_file d name max : read_only (read_file_at d name max).
Proof. unfold read_file_at. read_only_tac. Qed.
#[export] Hint Resolve read_only_open_path read_only_open_at read_only_fstat read_only_stat_at
  read_only_read_names read_only_read_file : read_only.

(** *** What a successful read saw *)

Lemma ro_root {E A} (m : M world E A) w r w' : read_only m → m w = (r, w') → w_root w' = w_root w.
Proof. intros Hm Hr. specialize (Hm w). by rewrite Hr in Hm. Qed.

(** Replace the tree of every intermediate world by the first one. *)
Ltac norm_roots :=
  repeat match goal with
  | E : w_root ?x = w_root _ |- _ => try rewrite !E in *; clear E
  end.

Lemma sys_root w r w' : sys w = (r, w') → w_root w' = w_root w.
Proof. apply ro_root, read_only_sys. Qed.

Lemma check_name_Ok name w u w' : check_name name w = (Ok u, w') → w' = w.
Proof. unfold check_name. intros. inv_run; done. Qed.

Lemma get_entries_Ok d w es w' :
  get_entries d w = (Ok es, w') → w' = w ∧ ∃ mode u, w_root w ≫= node_at d = Some (NDir mode u es).
Proof. unfold get_entries. destruct (w_root w ≫= node_at d) as [[]|]; simpl; naive_solver. Qed.

Lemma node_at_child d name n : node_at (d ++ [name]) n = node_at d n ≫= node_at [name].
Proof.
  revert n. induction d as [|x d IH]; intros n; simpl; [done|].
  destruct n as [| mode u es| |]; try done. destruct (ent_get x es) as [child|]; simpl; [|done].
  apply IH.
Qed.

Lemma child_entry d name (t : option node) mode u es :
  t ≫= node_at d = Some (NDir mode u es) → t ≫= node_at (d ++ [name]) = ent_get name es.
Proof.
  destruct t as [n|]; simpl; [|done]. intros Hd. rewrite node_at_child, Hd. simpl.
  by destruct (ent_get name es).
Qed.

(** Each call that succeeded looked at the entry [d ++ [name]] of the tree. *)
Lemma entry_seen {A} d name (k : option node → M world io_error A) w a w' :
  (_ ← check_name name; _ ← sys; es ← get_entries d; k (ent_get name es)) w = (Ok a, w') →
  ∃ w1, w_root w1 = w_root w ∧ k (w_root w ≫= node_at (d ++ [name])) w1 = (Ok a, w')
    ∧ ∃ mode u es, w_root w ≫= node_at d = Some (NDir mode u es).
Proof.
  intros Hr. inv_run.
  match goal with Hc : check_name _ _ = _ |- _ => apply check_name_Ok in Hc as -> end.
  match goal with Hy : sys _ = _ |- _ => apply sys_root in Hy as Hroot end.
  match goal with Hg : get_entries _ _ = _ |- _ => apply get_entries_Ok in Hg as (-> & mode & u & Hd) end.
  eexists. split; [exact Hroot|]. rewrite Hroot in Hd. rewrite (child_entry _ _ _ _ _ _ Hd). eauto.
Qed.

Lemma stat_at_Ok d name w st w' :
  stat_at d name w = (Ok st, w') →
  ∃ n, w_root w ≫= node_at (d ++ [name]) = Some n ∧ st = stat_of n.
Proof.
  intros (w1 & _ & Hk & _)%(entry_seen d name (fun o => match o with
    | Some n => mret (stat_of n) | None => fail (Errno ENOENT) end)).
  destruct (w_root w ≫= node_at (d ++ [name])); inv_run. eauto.
Qed.

(** [ENOENT] from a directory that exists means the entry does not. *)
Lemma entry_absent {A} d name (k : option node → M world io_error A) w e w' mode u es :
  w_root w ≫= node_at d = Some (NDir mode u es) →
  (∀ n w1, (k (Some n) w1).1 ≠ Err e) → errno_is e ENOENT = true →
  (_ ← check_name name; _ ← sys; es ← get_entries d; k (ent_get name es)) w = (Err e, w') →
  w_root w ≫= node_at (d ++ [name]) = None.
Proof.
  intros Hd Hk He Hr. rewrite (child_entry _ _ _ _ _ _ Hd).
  apply bind_inv in Hr as [(u1 & w1 & ->%check_name_Ok & Hr)|(x & Hc & [= ->])].
  2:{ unfold check_name in Hc. destruct (has_nul name); unfold_monad; by simplify_eq. }
  apply bind_inv in Hr as [(u2 & w2 & Hs & Hr)|(x & Hc & [= ->])].
  2:{ unfold sys in Hc. by destruct (w_env w) as [|[]]; simplify_eq. }
  apply sys_root in Hs. apply bind_inv in Hr as [(es' & w3 & Hg & Hr)|(x & Hc & [= ->])].
  2:{ unfold get_entries in Hc. rewrite Hs, Hd in Hc. by simplify_eq. }
  apply get_entries_Ok in Hg as (-> & mode' & u' & Hd'). rewrite Hs, Hd in Hd'. simplify_eq.
  destruct (ent_get name es') as [n|] eqn:Hn; [|done]. exfalso.
  apply (Hk n w2). by rewrite Hr.
Qed.

Lemma stat_absent d name w e w' mode u es :
  w_root w ≫= node_at d = Some (NDir mode u es) →
  stat_at d name w = (Err e, w') → errno_is e ENOENT = true →
  w_root w ≫= node_at (d ++ [name]) = None.
Proof.
  intros Hd Hs He. eapply (entry_absent d name (fun o => match o with
    | Some n => mret (stat_of n) | None => fail (Errno ENOENT) end)); [done|done|done|exact Hs].
Qed.

Lemma read_file_Ok d name max w data w' :
  read_file_at d name max w = (Ok data, w') →
  ∃ mode u, w_root w ≫= node_at (d ++ [name]) = Some (NFile mode u data).
Proof.
  unfold read_file_at.
  intros (w1 & _ & Hk & _)%(entry_seen d name (fun o => match o with
    | None => fail (Errno ENOENT) | Some (NSymlink _) => fail (Errno ELOOP)
    | Some (NDir _ _ _) => fail (Errno EISDIR) | Some (NOther _ _) => fail (Errno EIO)
    | Some (NFile _ _ data) => _ ← sys;
        if max <? str_len data then fail (IoOther "metadata exceeds the size limit")
        else mret data end)).
  destruct (w_root w ≫= node_at (d ++ [name])) as [[]|]; inv_run. eauto.
Qed.

Lemma open_directory_Ok d name w d' w' :
  open_directory_at d name w = (Ok d', w') →
  d' = d ++ [name] ∧ ∃ mode u es, w_root w ≫= node_at (d ++ [name]) = Some (NDir mode u es).
Proof.
  intros (w1 & _ & Hk & _)%(entry_seen d name (fun o => open_as_directory o (d ++ [name]))).
  unfold open_as_directory in Hk.
  destruct (w_root w ≫= node_at (d ++ [name])) as [[mode u data|mode u es|u|mode u]|]; inv_run;
    simplify_eq; [| |]; try (split; [done|]; by eauto).
  all: match goal with Hd : is_directory _ = true |- _ =>
    apply is_directory_dir in Hd as (? & ? & ? & ?); discriminate end.
Qed.

Lemma open_path_Ok w d w' :
  open_directory_path w = (Ok d, w') →
  d = [] ∧ ∃ mode u es, w_root w = Some (NDir mode u es).
Proof.
  unfold open_directory_path. intros Ho. inv_run.
  match goal with Hs : sys _ = _ |- _ => apply sys_root in Hs as Hs' end.
  unfold getS in *. simplify_eq. unfold open_as_directory in *.
  destruct (w_root _) as [[mode u data|mode u es|u|mode u]|]; inv_run; simplify_eq; eauto 8.
  all: match goal with Hd : is_directory _ = true |- _ =>
    apply is_directory_dir in Hd as (? & ? & ? & ?); discriminate end.
Qed.

Lemma fstat_Ok d w st w' :
  fstat d w = (Ok st, w') → ∃ n, w_root w ≫= node_at d = Some n ∧ st = stat_of n.
Proof.
  unfold fstat. intros Hf. inv_run.
  match goal with Hs : sys _ = _ |- _ => apply sys_root in Hs as Hroot end.
  unfold getS in *. simplify_eq. rewrite Hroot in *.
  destruct (w_root w ≫= node_at d); inv_run. eauto.
Qed.

Lemma read_names_Ok d w names w' :
  read_names d w = (Ok names, w') →
  ∃ mode u es, w_root w ≫= node_at d = Some (NDir mode u es) ∧ names = es.*1.
Proof.
  unfold read_names. intros Hf. inv_run.
  match goal with Hs : sys _ = _ |- _ => apply sys_root in Hs as Hroot end.
  match goal with Hg : get_entries _ _ = _ |- _ => apply get_entries_Ok in Hg as (-> & mode & u & Hd) end.
  rewrite Hroot in Hd. eauto.
Qed.

(** ** Entries *)

Lemma ent_get_set_eq name n es : ent_get name (ent_set name n es) = Some n.
Proof.
  induction es as [|[k m] es IH]; simpl.
  - by rewrite bool_decide_eq_true_2.
  - case_bool_decide; simpl; [by rewrite bool_decide_eq_true_2|].
    by rewrite bool_decide_eq_false_2.
Qed.

Lemma ent_get_set_ne name name' n es :
  name ≠ name' → ent_get name' (ent_set name n es) = ent_get name' es.
Proof.
  intros Hne. induction es as [|[k m] es IH]; simpl.
  - by rewrite bool_decide_eq_false_2.
  - case_bool_decide; simpl; subst; [by rewrite !bool_decide_eq_false_2|by rewrite IH].
Qed.

Lemma ent_get_del_ne name name' es :
  name ≠ name' → ent_get name' (ent_del name es) = ent_get name' es.
Proof.
  intros Hne. induction es as [|[k m] es IH]; simpl; [done|].
  case_bool_decide; simpl; subst; [by rewrite bool_decide_eq_false_2|by rewrite IH].
Qed.

Lemma ent_get_None name es : ent_get name es = None ↔ name ∉ es.*1.
Proof.
  induction es as [|[k m] es IH]; simpl; [split; [|done]; intros _; apply not_elem_of_nil|].
  rewrite not_elem_of_cons. case_bool_decide; [naive_solver|]. rewrite IH. naive_solver.
Qed.

Lemma ent_get_elem name n es : ent_get name es = Some n → (name, n) ∈ es.
Proof.
  induction es as [|[k m] es IH]; simpl; [done|].
  case_bool_decide; intros; simplify_eq; [by left|right; auto].
Qed.

Lemma ent_elem_get name n es : NoDup es.*1 → (name, n) ∈ es → ent_get name es = Some n.
Proof.
  induction es as [|[k m] es IH]; simpl; [by intros _ ?%not_elem_of_nil|].
  rewrite NoDup_cons, elem_of_cons. intros [Hk Hnd] [[= -> ->]|Hin].
  - by rewrite bool_decide_eq_true_2.
  - rewrite bool_decide_eq_false_2; [auto|]. intros ->. apply Hk.
    apply list_elem_of_fmap. by exists (name, n).
Qed.

Lemma ent_get_del_eq name es : NoDup es.*1 → ent_get name (ent_del name es) = None.
Proof.
  induction es as [|[k m] es IH]; simpl; [done|]. rewrite NoDup_cons. intros [Hk Hnd].
  case_bool_decide; simpl; [subst; by apply ent_get_None|].
  rewrite bool_decide_eq_false_2 by done. auto.
Qed.

Lemma ent_set_names name n es x : x ∈ (ent_set name n es).*1 ↔ x = name ∨ x ∈ es.*1.
Proof.
  induction es as [|[k m] es IH]; simpl.
  - rewrite elem_of_cons. done.
  - case_bool_decide; simpl; rewrite !elem_of_cons; [naive_solver|]. rewrite IH. naive_solver.
Qed.

Lemma ent_del_names name es x : x ∈ (ent_del name es).*1 → x ∈ es.*1.
Proof.
  induction es as [|[k m] es IH]; simpl; [done|].
  case_bool_decide; simpl; rewrite ?elem_of_cons; naive_solver.
Qed.

Lemma ent_del_names_ne name es x : NoDup es.*1 → x ∈ (ent_del name es).*1 → x ≠ name.
Proof.
  intros Hnd Hx ->. apply ent_get_del_eq with (name := name) in Hnd. by apply ent_get_None in Hnd.
Qed.

Lemma ent_set_NoDup name n es : NoDup es.*1 → NoDup (ent_set name n es).*1.
Proof.
  induction es as [|[k m] es IH]; simpl; intros Hnd; [by repeat constructor; intros ?%not_elem_of_nil|].
  case_bool_decide; simpl; [done|]. apply NoDup_cons in Hnd as [Hk Hnd].
  apply NoDup_cons. split; [|auto]. rewrite ent_set_names. naive_solver.
Qed.

Lemma ent_del_NoDup name es : NoDup es.*1 → NoDup (ent_del name es).*1.
Proof.
  induction es as [|[k m] es IH]; simpl; intros Hnd; [done|].
  apply NoDup_cons in Hnd as [Hk Hnd]. case_bool_decide; simpl; [done|].
  apply NoDup_cons. split; [|auto]. intros ?%ent_del_names. done.
Qed.

(** ** Trees under updates *)

Lemma node_at_app p q n : node_at (p ++ q) n = node_at p n ≫= node_at q.
Proof.
  revert n. induction p as [|x p IH]; intros n; simpl; [done|].
  destruct n as [| mode u es| |]; try done. destruct (ent_get x es) as [child|]; simpl; [|done].
  apply IH.
Qed.

Lemma node_at_set_same d f n mode u es :
  node_at d n = Some (NDir mode u es) → node_at d (set_entries d f n) = Some (NDir mode u (f es)).
Proof.
  revert n. induction d as [|x d IH]; intros n Hn; simpl in *.
  - by simplify_eq.
  - destruct n as [| mode' u' es'| |]; try done.
    destruct (ent_get x es') as [child|] eqn:Hx; simpl in *; [|done].
    rewrite ent_get_set_eq. simpl. by apply IH.
Qed.

(** [p] leads outside the directory [d]: the two part before the end of [d]. *)
Definition outside (d p : fd) : Prop :=
  ∃ k x y d' p', d = k ++ x :: d' ∧ p = k ++ y :: p' ∧ x ≠ y.

Lemma node_at_set_outside d f n p : outside d p → node_at p (set_entries d f n) = node_at p n.
Proof.
  intros (k & x & y & d' & p' & -> & -> & Hne). revert n.
  induction k as [|z k IH]; intros n; simpl; destruct n as [| mode u es| |]; try done.
  - destruct (ent_get x es) as [child|] eqn:Hx; [|done]. simpl. by rewrite ent_get_set_ne.
  - destruct (ent_get z es) as [child|] eqn:Hz; simpl; rewrite ?Hz; [|done].
    rewrite ent_get_set_eq. simpl. apply IH.
Qed.

(** ** Calls on one directory

    [dirAt d P t]: the tree has a directory at [d] whose entries satisfy [P].
    Each call either leaves the tree alone or performs its one update. *)

Definition dirAt (d : fd) (P : entries → Prop) (t : option node) : Prop :=
  ∃ mode uid es, t ≫= node_at d = Some (NDir mode uid es) ∧ P es.

Lemma dirAt_impl d (P Q : entries → Prop) t : (∀ es, P es → Q es) → dirAt d P t → dirAt d Q t.
Proof. intros HPQ (m & u & es & Ht & HP). exists m, u, es. auto. Qed.

(** The postcondition of a call that updates the entries by [f] if it succeeds. *)
Definition updatedAt {E A} (d : fd) (P : entries → Prop) (guard : entries → Prop)
    (f : entries → entries) (r : result E A) (t : option node) : Prop :=
  match r with
  | Ok _ => dirAt d (fun es => ∃ es1, P es1 ∧ guard es1 ∧ es = f es1) t
  | Err _ => dirAt d P t
  end.

Lemma dirAt_entries {A} d (P : entries → Prop) (f : entries → M world io_error A) Q :
  (∀ m u es, P es → hoare (fun t => t ≫= node_at d = Some (NDir m u es)) (f es) Q) →
  hoare (dirAt d P) (es ← get_entries d; f es) Q.
Proof.
  intros Hf w (m & u & es & Hw & HP). unfold mbind, M_bind, get_entries. rewrite Hw. simpl.
  by apply (Hf m u es).
Qed.

Lemma dirAt_update d (P guard : entries → Prop) f m u es :
  P es → guard es →
  hoare (fun t => t ≫= node_at d = Some (NDir m u es)) (update_entries d f)
    (updatedAt d P guard f).
Proof.
  intros HP Hg w Hw. simpl. destruct (w_root w) as [n|]; simpl in *; [|done].
  eexists m, u, _. split; [by apply node_at_set_same|]. by exists es.
Qed.

Lemma hoare_checked {A} (P : option node → Prop) name (m : M world io_error A) Q :
  (∀ e t, P t → Q (Err e) t) → hoare P m Q →
  hoare P (_ ← check_name name; _ ← sys; m) Q.
Proof.
  intros He Hm. eapply hoare_bind with (R := fun _ => P).
  { eapply hoare_conseq; [apply (hoare_check_name name P)|done|]. intros [] ??; auto. }
  intros _. eapply hoare_bind with (R := fun _ => P); [|done].
  eapply hoare_conseq; [apply (hoare_sys P)|done|]. intros [] ??; auto.
Qed.

Lemma hoare_fail_at {E A} d (P guard : entries → Prop) f (e : E) m u es :
  P es → hoare (fun t => t ≫= node_at d = Some (NDir m u es)) (fail e : M world E A)
    (updatedAt d P guard f).
Proof. intros HP w Hw. by exists m, u, es. Qed.

Lemma mkdir_spec `{Host} d (P : entries → Prop) name mode :
  hoare (dirAt d P) (mkdir_at d name mode)
    (updatedAt d P (fun es => ent_get name es = None) (ent_set name (NDir mode euid []))).
Proof.
  unfold mkdir_at. apply hoare_checked; [done|]. apply dirAt_entries. intros m u es HP.
  destruct (ent_get name es) eqn:He; [by apply hoare_fail_at|by apply dirAt_update].
Qed.

Lemma create_file_spec `{Host} d (P : entries → Prop) name mode :
  hoare (dirAt d P) (create_file_at d name mode)
    (updatedAt d P (fun es => ent_get name es = None) (ent_set name (NFile mode euid EmptyString))).
Proof.
  unfold create_file_at. apply hoare_checked; [done|]. apply dirAt_entries. intros m u es HP.
  destruct (ent_get name es) eqn:He; [by apply hoare_fail_at|by apply dirAt_update].
Qed.

Lemma write_all_spec d (P : entries → Prop) name data mode uid :
  (∀ es, P es → ∃ old, ent_get name es = Some (NFile mode uid old)) →
  hoare (dirAt d P) (write_all d name data)
    (updatedAt d P (fun _ => True) (ent_set name (NFile mode uid data))).
Proof.
  intros HPn. unfold write_all. eapply hoare_bind with (R := fun _ => dirAt d P).
  { eapply hoare_conseq; [apply (hoare_sys (dirAt d P))|done|]. by intros [] ??. }
  intros _. apply dirAt_entries. intros m u es HP. destruct (HPn es HP) as [old ->].
  by apply dirAt_update.
Qed.

Lemma rename_spec d (P : entries → Prop) from to n :
  (∀ es, P es → ent_get from es = Some n) →
  hoare (dirAt d P) (rename_at d from to)
    (updatedAt d P (fun _ => True) (fun es => ent_set to n (ent_del from es))).
Proof.
  intros HPn. unfold rename_at. eapply hoare_bind with (R := fun _ => dirAt d P).
  { eapply hoare_conseq; [apply (hoare_check_name from (dirAt d P))|done|]. by intros [] ??. }
  intros _. apply hoare_checked; [done|]. apply dirAt_entries. intros m u es HP.
  rewrite (HPn es HP).
  destruct (ent_get to es) as [[]|]; first [by apply hoare_fail_at|by apply dirAt_update].
Qed.

Lemma unlink_spec d (P : entries → Prop) name flag :
  hoare (dirAt d P) (unlink_at d name flag)
    (updatedAt d P (fun es => unlink_check flag (ent_get name es) = None) (ent_del name)).
Proof.
  unfold unlink_at. apply hoare_checked; [done|]. apply dirAt_entries. intros m u es HP.
  destruct (unlink_check _ _) eqn:Hc; [by apply hoare_fail_at|by apply dirAt_update].
Qed.

(** A computation whose updates are confined to the directory [d]. *)
Definition confined {E A} (d : fd) (m : M world E A) : Prop :=
  ∀ w p, outside d p → w_root (m w).2 ≫= node_at p = w_root w ≫= node_at p.

Lemma confined_read_only {E A} d (m : M world E A) : read_only m → confined d m.
Proof. intros Hm w p _. by rewrite Hm. Qed.

Lemma confined_bind {E A B} d (m : M world E A) (f : A → M world E B) :
  confined d m → (∀ a, confined d (f a)) → confined d (m ≫= f).
Proof.
  intros Hm Hf w p Hp. specialize (Hm w p Hp). unfold mbind, M_bind.
  destruct (m w) as [[a|e] w']; simpl in *; [by rewrite Hf|done].
Qed.

Lemma confined_mapE {E E' A} d (g : E → E') (m : M world E A) : confined d m → confined d (mapE g m).
Proof. intros Hm w p Hp. specialize (Hm w p Hp). unfold mapE. by destruct (m w). Qed.

Lemma confined_tryM {E E' A} d (m : M world E A) :
  confined d m → confined d (tryM m : M world E' (result E A)).
Proof. intros Hm w p Hp. specialize (Hm w p Hp). unfold tryM. by destruct (m w). Qed.

Lemma confined_update d f : confined d (update_entries d f).
Proof.
  intros w p Hp. simpl. destruct (w_root w) as [n|]; simpl; [|done]. by apply node_at_set_outside.
Qed.

Lemma read_only_fetch_add : read_only fetch_add_counter.
Proof. done. Qed.
#[export] Hint Resolve read_only_fetch_add : read_only.

Ltac confined_tac :=
  repeat first
    [ progress intros
    | apply confined_update
    | solve [apply confined_read_only; eauto with read_only]
    | apply confined_bind | apply confined_mapE | apply confined_tryM
    | case_match ].

Lemma confined_mkdir `{Host} d name mode : confined d (mkdir_at d name mode).
Proof. unfold mkdir_at. confined_tac. Qed.

Lemma confined_create_file `{Host} d name mode : confined d (create_file_at d name mode).
Proof. unfold create_file_at. confined_tac. Qed.

Lemma confined_write_all d name data : confined d (write_all d name data).
Proof. unfold write_all. confined_tac. Qed.

Lemma confined_rename d from to : confined d (rename_at d from to).
Proof. unfold rename_at. confined_tac. Qed.

Lemma confined_unlink d name flag : confined d (unlink_at d name flag).
Proof. unfold unlink_at. confined_tac. Qed.

(** A computation that keeps the owner and mode of the directory [d]. *)
Definition attrs (d : fd) (mode u : Z) (t : option node) : Prop :=
  ∃ es, t ≫= node_at d = Some (NDir mode u es).

Definition keeps_attrs {E A} (d : fd) (m : M world E A) : Prop :=
  ∀ mode u, hoare (attrs d mode u) m (fun _ => attrs d mode u).

Lemma keeps_read_only {E A} d (m : M world E A) : read_only m → keeps_attrs d m.
Proof. intros Hm mode u. by apply read_only_hoare. Qed.

Lemma keeps_bind {E A B} d (m : M world E A) (f : A → M world E B) :
  keeps_attrs d m → (∀ a, keeps_attrs d (f a)) → keeps_attrs d (m ≫= f).
Proof.
  intros Hm Hf mode u. eapply hoare_bind with (R := fun _ => attrs d mode u); [|intros a; apply Hf].
  eapply hoare_conseq; [apply Hm|done|]. by intros [] ??.
Qed.

Lemma keeps_mapE {E E' A} d (g : E → E') (m : M world E A) : keeps_attrs d m → keeps_attrs d (mapE g m).
Proof. intros Hm mode u. apply hoare_mapE, Hm. Qed.

Lemma keeps_tryM {E E' A} d (m : M world E A) :
  keeps_attrs d m → keeps_attrs d (tryM m : M world E' (result E A)).
Proof. intros Hm mode u. apply hoare_tryM, Hm. Qed.

Lemma keeps_update d f : keeps_attrs d (update_entries d f).
Proof.
  intros mode u w [es Hd]. simpl. destruct (w_root w) as [t|]; simpl in *; [|done].
  exists (f es). by apply node_at_set_same.
Qed.

Ltac keeps_tac :=
  repeat first
    [ progress intros
    | apply keeps_update
    | solve [apply keeps_read_only; eauto with read_only]
    | apply keeps_bind | apply keeps_mapE | apply keeps_tryM
    | case_match ].

Lemma keeps_mkdir `{Host} d name mode : keeps_attrs d (mkdir_at d name mode).
Proof. unfold mkdir_at. keeps_tac. Qed.

Lemma keeps_create_file `{Host} d name mode : keeps_attrs d (create_file_at d name mode).
Proof. unfold create_file_at. keeps_tac. Qed.

Lemma keeps_write_all d name data : keeps_attrs d (write_all d name data).
Proof. unfold write_all. keeps_tac. Qed.

Lemma keeps_rename d from to : keeps_attrs d (rename_at d from to).
Proof. unfold rename_at. keeps_tac. Qed.

Lemma keeps_unlink d name flag : keeps_attrs d (unlink_at d name flag).
Proof. unfold unlink_at. keeps_tac. Qed.

(** *** The root directory *)

Definition dirP (P : entries → Prop) (t : option node) : Prop :=
  ∃ mode uid es, t = Some (NDir mode uid es) ∧ P es.

Lemma dirP_at P t : dirP P t ↔ dirAt [] P t.
Proof.
  unfold dirP, dirAt. destruct t as [n|]; simpl; [done|]. split; naive_solver.
Qed.

Lemma dirP_impl (P Q : entries → Prop) t : (∀ es, P es → Q es) → dirP P t → dirP Q t.
Proof. intros HPQ (m & u & es & -> & HP). by exists m, u, es; auto. Qed.

Definition updated {E A} (P : entries → Prop) (guard : entries → Prop) (f : entries → entries)
    (r : result E A) (t : option node) : Prop :=
  match r with
  | Ok _ => dirP (fun es => ∃ es1, P es1 ∧ guard es1 ∧ es = f es1) t
  | Err _ => dirP P t
  end.

Lemma hoare_root {E A} (P guard : entries → Prop) f (m : M world E A) :
  hoare (dirAt [] P) m (updatedAt [] P guard f) → hoare (dirP P) m (updated P guard f).
Proof.
  intros Hm. eapply hoare_conseq; [exact Hm|intros t; apply dirP_at|].
  intros [] t; simpl; apply dirP_at.
Qed.

Lemma create_file_root `{Host} (P : entries → Prop) name mode :
  hoare (dirP P) (create_file_at [] name mode)
    (updated P (fun es => ent_get name es = None) (ent_set name (NFile mode euid EmptyString))).
Proof. apply hoare_root, create_file_spec. Qed.

Lemma write_all_root (P : entries → Prop) name data mode uid :
  (∀ es, P es → ∃ old, ent_get name es = Some (NFile mode uid old)) →
  hoare (dirP P) (write_all [] name data)
    (updated P (fun _ => True) (ent_set name (NFile mode uid data))).
Proof. intros. by apply hoare_root, write_all_spec. Qed.

Lemma rename_root (P : entries → Prop) from to n :
  (∀ es, P es → ent_get from es = Some n) →
  hoare (dirP P) (rename_at [] from to)
    (updated P (fun _ => True) (fun es => ent_set to n (ent_del from es))).
Proof. intros. by apply hoare_root, rename_spec. Qed.

Lemma unlink_root (P : entries → Prop) name flag :
  hoare (dirP P) (unlink_at [] name flag)
    (updated P (fun es => unlink_check flag (ent_get name es) = None) (ent_del name)).
Proof. apply hoare_root, unlink_spec. Qed.

(** A call that changes nothing, in front of others. *)
Lemma hoare_skip_io {A} (P : option node → Prop) (m : M world io_error unit)
    (k : M world io_error A) Q :
  read_only m → (∀ e t, P t → Q (Err e) t) → hoare P k Q → hoare P (_ ← m; k) Q.
Proof.
  intros Hm He Hk. eapply hoare_bind with (R := fun _ => P); [|done].
  eapply hoare_conseq; [by apply (read_only_hoare _ P)|done|]. intros [] ??; simpl; auto.
Qed.

Lemma hoare_step_io {A} (P R : option node → Prop) (m : M world io_error unit)
    (k : M world io_error A) Q :
  hoare P m (fun r t => match r with Ok _ => R t | Err _ => P t end) →
  (∀ e t, P t → Q (Err e) t) → hoare R k Q → hoare P (_ ← m; k) Q.
Proof.
  intros Hm He Hk. eapply hoare_bind with (R := fun _ => R); [|done].
  eapply hoare_conseq; [done..|]. intros [] ??; simpl; auto.
Qed.

(** ** Removals and the paths they spare *)

Lemma path_cases (d p : fd) : outside d p ∨ (∃ q, d = p ++ q) ∨ (∃ x q, p = d ++ x :: q).
Proof.
  revert p. induction d as [|a d IH]; intros [|b p].
  - right; left. by exists [].
  - right; right. by exists b, p.
  - right; left. by exists (a :: d).
  - destruct (decide (a = b)) as [->|Hne].
    + destruct (IH p) as [(k & x & y & d' & p' & -> & -> & Hxy)|[[q ->]|(x & q & ->)]].
      * left. by exists (b :: k), x, y, d', p'.
      * right; left. by exists q.
      * right; right. by exists x, q.
    + left. by exists [], a, b, d, p.
Qed.

Lemma set_entries_prefix p q f n :
  is_Some (node_at p n) → is_Some (node_at p (set_entries (p ++ q) f n)).
Proof.
  revert n. induction p as [|x p IH]; intros n [m Hm]; simpl; [by eexists|].
  simpl in Hm. destruct n as [| mode u es| |]; try done.
  destruct (ent_get x es) as [child|] eqn:Hx; simpl in *; [|done].
  rewrite ent_get_set_eq. simpl. apply IH. by eexists.
Qed.

(** What [unlinkat] does: nothing, or it drops an entry that is a file or an
    empty directory. *)
Lemma unlink_run d name flag w :
  w_root (unlink_at d name flag w).2 = w_root w
  ∨ ∃ mode u es n, w_root w ≫= node_at d = Some (NDir mode u es) ∧ ent_get name es = Some n
      ∧ unlink_check flag (Some n) = None
      ∧ w_root (unlink_at d name flag w).2 = set_entries d (ent_del name) <$> w_root w.
Proof.
  destruct (unlink_at d name flag w) as [r w'] eqn:Hu. unfold unlink_at in Hu.
  apply bind_inv in Hu as [(u1 & w1 & ->%check_name_Ok & Hr)|(x & Hc & ->)].
  2:{ left. by apply (ro_root _ _ _ _ (read_only_check_name name)) in Hc. }
  apply bind_inv in Hr as [(u2 & w2 & Hs%sys_root & Hr)|(x & Hs%sys_root & ->)]; [|by left].
  apply bind_inv in Hr as [(es & w3 & Hg & Hr)|(x & Hg & ->)].
  2:{ left. apply (ro_root _ _ _ _ (read_only_get_entries d)) in Hg. simpl. congruence. }
  apply get_entries_Ok in Hg as (-> & mode & u & Hd).
  destruct (unlink_check flag (ent_get name es)) eqn:Hck.
  { unfold_monad. simplify_eq/=. by left. }
  right. destruct (ent_get name es) as [n|] eqn:Hn; [|by destruct flag].
  exists mode, u, es, n. unfold update_entries in Hr. simplify_eq/=. by rewrite <-Hs.
Qed.

(** Only leaves are unlinked: a path below the entry would make it a non-empty
    directory. *)
Lemma unlink_check_leaf flag n x q :
  unlink_check flag (Some n) = None → node_at (x :: q) n = None.
Proof. destruct n as [|mode u [|b es]| |], flag; done. Qed.

(** Removing [d/name] leaves every other path in place. *)
Lemma unlink_spares p d name flag w :
  p ≠ d ++ [name] → is_Some (w_root w ≫= node_at p) →
  is_Some (w_root (unlink_at d name flag w).2 ≫= node_at p).
Proof.
  intros Hne Hp. destruct (unlink_run d name flag w) as [->|(mode & u & es & n & Hd & Hn & Hck & ->)];
    [done|]. destruct (w_root w) as [t|]; simpl in *; [|done].
  destruct (path_cases d p) as [Hout|[[q ->]|(x & q & ->)]].
  - by rewrite node_at_set_outside.
  - by apply set_entries_prefix.
  - rewrite node_at_app in *. rewrite (node_at_set_same _ _ _ _ _ _ Hd). rewrite Hd in Hp.
    simpl in *. destruct (decide (x = name)) as [->|Hx]; [|by rewrite ent_get_del_ne].
    rewrite Hn in Hp. simpl in Hp. destruct q as [|y q]; [done|].
    rewrite (unlink_check_leaf flag n y q Hck) in Hp. by destruct Hp.
Qed.

(** ... and every other file unchanged. *)
Lemma unlink_spares_file p mode u data d name flag w :
  p ≠ d ++ [name] → w_root w ≫= node_at p = Some (NFile mode u data) →
  w_root (unlink_at d name flag w).2 ≫= node_at p = Some (NFile mode u data).
Proof.
  intros Hne Hp. destruct (unlink_run d name flag w) as [->|(m & u' & es & n & Hd & Hn & Hck & ->)];
    [done|]. destruct (w_root w) as [t|]; simpl in *; [|done].
  destruct (path_cases d p) as [Hout|[[q ->]|(x & q & ->)]].
  - by rewrite node_at_set_outside.
  - rewrite node_at_app, Hp in Hd. simpl in Hd. by destruct q.
  - rewrite node_at_app in *. rewrite (node_at_set_same _ _ _ _ _ _ Hd). rewrite Hd in Hp.
    simpl in *. destruct (decide (x = name)) as [->|Hx]; [|by rewrite ent_get_del_ne].
    rewrite Hn in Hp. simpl in Hp. destruct q as [|y q]; [done|].
    by rewrite (unlink_check_leaf flag n y q Hck) in Hp.
Qed.
