(* ===== verification/Auth.v ===== *)
(** * Key sources and the key store ([auth.rs])

    The two authorized-keys files, their safety checks and parser, the
    authentication snapshot built from them, and the store that keeps the live
    snapshot and refreshes it when a file changes.

    The files belong to the operator and may change at any moment, so nothing
    here assumes that two system calls see the same file system: [now t] is what
    the kernel shows to the [t]-th system call of a history, and a computation
    threads the clock.  The OpenSSH key library is a parameter ([KeyLibrary]). *)

From S2P Require Import Prelude BTree Text Toml Idents FileSystem.

Module Auth.
Import Principals.

(** ** What the system shows *)

(** [std::path::Path]: a path is rooted, or relative to the working directory
    (which [Path::parent] reaches as the empty path). *)
Inductive path :=
| PRoot
| PEmpty
| PJoin (dir : path) (name : string).

#[global] Instance path_eq_dec : EqDecision path.
Proof. solve_decision. Defined.

Definition parent (p : path) : option path :=
  match p with PJoin dir _ => Some dir | _ => None end.

(** What [std::fs::Metadata] reports. *)
Record metadata := MkMetadata
  { md_mode : Z; md_uid : Z; md_len : Z; md_dev : Z; md_ino : Z;
    md_ctime : Z; md_ctime_nsec : Z }.

Definition is_symlink (mode : Z) : bool := Z.land mode S_IFMT =? S_IFLNK.

(** What one moment of the file system answers: [lstat], [stat], and opening
    with [O_NOFOLLOW]; an opened file's read may fail in turn. *)
Record view := MkView
  { v_lstat : path → result io_error metadata;
    v_stat : path → result io_error metadata;
    v_open : path → result io_error (result io_error string) }.

Class Kernel := { now : nat → view; euid : Z }.

(** [russh::keys]: the OpenSSH public-key parser, the algorithm test and the
    SHA-256 fingerprint's text. *)
Class KeyLibrary := {
  PublicKey : Type;
  from_openssh : string → option PublicKey;
  is_ed25519 : PublicKey → bool;
  sha256_fingerprint : PublicKey → string }.

Inductive Error :=
| Home (message : string)
| Invalid (p : path) (reason : string)
| Io (p : path) (message : string) (source : io_error)
| EmptyAuthSnapshot (host_path allowed_path : path).

Definition MAX_AUTHORIZED_KEYS_BYTES : Z := 1048576.
Definition MAX_AUTHORIZED_KEYS_LINE_BYTES : Z := 8192.

(** [Read::take(n)] and [read_to_end]: at most [n] bytes. *)
Fixpoint read_at_most (n : Z) (s : string) : string :=
  match s with
  | EmptyString => EmptyString
  | String c s' => if n <=? 0 then EmptyString else String c (read_at_most (n - 1) s')
  end.

Section kernel.
Context `{Kernel}.

Notation A := (M nat Error).

(** ** System calls *)

Definition symlink_metadata {E} (p : path) : M nat E (result io_error metadata) :=
  fun t => (Ok (v_lstat (now t) p), S t).
Definition stat_path {E} (p : path) : M nat E (result io_error metadata) :=
  fun t => (Ok (v_stat (now t) p), S t).
Definition open_nofollow {E} (p : path) : M nat E (result io_error (result io_error string)) :=
  fun t => (Ok (v_open (now t) p), S t).

(** ** File-level checks *)

Fixpoint validate_key_source_parents (source_name : string) (immediate : bool) (directory : path)
    : A unit :=
  link ← symlink_metadata directory;
  match link with
  | Err err => fail (Io directory ("cannot stat " +:+ source_name +:+ " parent") err)
  | Ok link_metadata =>
      if immediate && is_symlink (md_mode link_metadata)
      then fail (Invalid directory (source_name +:+ " parent must not be a symlink"))
      else
        followed ← stat_path directory;
        match followed with
        | Err err => fail (Io directory ("cannot stat " +:+ source_name +:+ " parent") err)
        | Ok md =>
            if negb (is_directory (md_mode md))
            then fail (Invalid directory (source_name +:+ " parent is not a directory"))
            else if negb (Z.land (md_mode md) 18 =? 0)
            then fail (Invalid directory (source_name +:+ " parent is group or world writable"))
            else if immediate && negb (md_uid md =? euid)
            then fail (Invalid directory (source_name +:+ " parent is not owned by the daemon user"))
            else match directory with
                 | PJoin up _ => validate_key_source_parents source_name false up
                 | _ => mret tt
                 end
        end
  end.

Definition validate_key_source_file (p : path) (source_name : string) : A bool :=
  found ← symlink_metadata p;
  match found with
  | Err err =>
      if errno_is err ENOENT then mret false
      else fail (Io p ("cannot stat " +:+ source_name) err)
  | Ok md =>
      if negb (is_regular (md_mode md))
      then fail (Invalid p (source_name +:+ " is not a regular file"))
      else if MAX_AUTHORIZED_KEYS_BYTES <? md_len md
      then fail (Invalid p (source_name +:+ " exceeds the " +:+ fmt_dec MAX_AUTHORIZED_KEYS_BYTES
                              +:+ " byte limit"))
      else if negb (md_uid md =? euid)
      then fail (Invalid p (source_name +:+ " is not owned by the daemon user"))
      else if negb (Z.land (md_mode md) 18 =? 0)
      then fail (Invalid p (source_name +:+ " is group or world writable"))
      else
        _ ← match parent p with
            | Some directory => validate_key_source_parents source_name true directory
            | None => mret tt
            end;
        mret true
  end.

Definition read_key_source (p : path) (source_name : string) : A (option string) :=
  present ← validate_key_source_file p source_name;
  if negb present then mret None
  else
    opened ← open_nofollow p;
    match opened with
    | Err err => fail (Io p ("cannot open " +:+ source_name) err)
    | Ok (Err err) => fail (Io p ("cannot read " +:+ source_name) err)
    | Ok (Ok content) =>
        let bytes := read_at_most (MAX_AUTHORIZED_KEYS_BYTES + 1) content in
        if MAX_AUTHORIZED_KEYS_BYTES <? str_len bytes
        then fail (Invalid p (source_name +:+ " exceeds the " +:+ fmt_dec MAX_AUTHORIZED_KEYS_BYTES
                                +:+ " byte limit"))
        else mret (Some bytes)
    end.

(** ** The authorized-keys parser *)

Context `{KeyLibrary}.

Record AuthorizedKey := MkAuthorizedKey { key_fingerprint : string }.

(** The loop of [parse_key_source] over the numbered lines. *)
Fixpoint parse_lines (p : path) (number : Z) (ls : list string) (seen : gset string)
    (keys : list AuthorizedKey) : result Error (list AuthorizedKey) :=
  match ls with
  | [] => Ok keys
  | line :: ls' =>
      let reject := fun why => Err (Invalid p ("line " +:+ fmt_dec number +:+ why)) in
      if MAX_AUTHORIZED_KEYS_LINE_BYTES <? str_len line
      then reject " exceeds the 8 KiB limit"
      else
        let trimmed := trim line in
        if bool_decide (trimmed = "") || starts_with "#" trimmed
        then parse_lines p (number + 1) ls' seen keys
        else
          let fields := split_ascii_whitespace trimmed in
          let algorithm := default "" (fields !! 0%nat) in
          let blob := default "" (fields !! 1%nat) in
          if negb (bool_decide (algorithm = "ssh-ed25519")) || bool_decide (blob = "")
          then reject " is not bare `ssh-ed25519 <base64> [comment]`"
          else
            match from_openssh trimmed with
            | None => reject " contains an invalid public key"
            | Some key =>
                if negb (is_ed25519 key) then reject " is not an Ed25519 key"
                else
                  let fingerprint := sha256_fingerprint key in
                  if bool_decide (fingerprint ∈ seen)
                  then reject " duplicates an earlier key"
                  else parse_lines p (number + 1) ls' ({[fingerprint]} ∪ seen)
                         (keys ++ [MkAuthorizedKey fingerprint])
            end
  end.

Definition parse_key_source (bytes : string) (p : path) (allow_empty : bool)
    : result Error (list AuthorizedKey) :=
  if MAX_AUTHORIZED_KEYS_BYTES <? str_len bytes
  then Err (Invalid p "file exceeds the 1 MiB limit")
  else if negb (utf8_valid bytes) then Err (Invalid p "file is not valid UTF-8")
  else
    keys ← parse_lines p 1 (lines bytes) ∅ [];
    if bool_decide (length keys = 0%nat) && negb allow_empty
    then Err (Invalid p "no valid Ed25519 key found")
    else Ok keys.

(** ** The snapshot *)

Record AuthSnapshot := MkSnapshot
  { keys : list AuthorizedKey; principals : list (string * Role); admin_count : Z }.

(** The two loops of [AuthSnapshot::load]: a key already present keeps its
    first role. *)
Definition add_key (role : Role) (s : AuthSnapshot) (k : AuthorizedKey) : AuthSnapshot :=
  match bt_get (key_fingerprint k) (principals s) with
  | Some _ => s
  | None =>
      MkSnapshot (keys s ++ [k]) (bt_insert (key_fingerprint k) role (principals s))
        (match role with Admin => admin_count s + 1 | Normal => admin_count s end)
  end.

Definition load_source (p : path) (source_name : string) : A (list AuthorizedKey) :=
  bytes ← read_key_source p source_name;
  match bytes with
  | Some bytes => liftR (parse_key_source bytes p true)
  | None => mret []
  end.

Definition merge_keys (host_keys allowed_keys : list AuthorizedKey) : AuthSnapshot :=
  fold_left (add_key Normal) allowed_keys
    (fold_left (add_key Admin) host_keys (MkSnapshot [] [] 0)).

(** [AuthSnapshot::load]. *)
Definition snapshot_load (host_path allowed_path : path) : A AuthSnapshot :=
  host_keys ← load_source host_path "authorized_keys";
  allowed_keys ← load_source allowed_path "allowed_keys";
  let s := merge_keys host_keys allowed_keys in
  if bool_decide (length (keys s) = 0%nat)
  then fail (EmptyAuthSnapshot host_path allowed_path)
  else mret s.

Definition authenticate (s : AuthSnapshot) (key : PublicKey) : option Principal :=
  if negb (is_ed25519 key) then None
  else
    let candidate := sha256_fingerprint key in
    match bt_get candidate (principals s) with
    | Some role => Some (MkPrincipal candidate role)
    | None => None
    end.

(** ** The key store *)

Inductive FileIdentity :=
| Absent
| Inode (dev ino ctime_ns mode size : Z).

#[global] Instance FileIdentity_eq_dec : EqDecision FileIdentity.
Proof. solve_decision. Defined.

Record SourceIdentities := MkIdentities { id_host : FileIdentity; id_allowed : FileIdentity }.

#[global] Instance SourceIdentities_eq_dec : EqDecision SourceIdentities.
Proof. solve_decision. Defined.

Definition observe_identity {E} (p : path) : M nat E FileIdentity :=
  found ← symlink_metadata p;
  mret match found with
       | Ok md => Inode (md_dev md) (md_ino md) (md_ctime_nsec md) (md_mode md) (md_len md)
       | Err _ => Absent
       end.

Definition observe {E} (host allowed : path) : M nat E SourceIdentities :=
  h ← observe_identity host;
  a ← observe_identity allowed;
  mret (MkIdentities h a).

Record KeyStore := MkStore
  { host_path : path; allowed_path : path; snapshot : AuthSnapshot;
    identities : SourceIdentities; revalidate : bool }.

Definition with_identities (ids : SourceIdentities) (st : KeyStore) : KeyStore :=
  MkStore (host_path st) (allowed_path st) (snapshot st) ids (revalidate st).
Definition with_snapshot (s : AuthSnapshot) (st : KeyStore) : KeyStore :=
  MkStore (host_path st) (allowed_path st) s (identities st) (revalidate st).
Definition with_revalidate (b : bool) (st : KeyStore) : KeyStore :=
  MkStore (host_path st) (allowed_path st) (snapshot st) (identities st) b.

Inductive RefreshOutcome := Unchanged | Reloaded.

(** [KeyStore::load]. *)
Definition store_load (host allowed : path) : A KeyStore :=
  s ← snapshot_load host allowed;
  ids ← observe host allowed;
  mret (MkStore host allowed s ids false).

(** [KeyStore::invalidate]. *)
Definition invalidate (st : KeyStore) : KeyStore := with_revalidate true st.

(** The fast path's test, once both sources were observed: no revalidation is
    asked for and the identities are the cached ones. *)
Definition looks_unchanged (st : KeyStore) (observed : SourceIdentities) : bool :=
  negb (revalidate st) && bool_decide (identities st = observed).

(** What the write guard publishes of a load's result. *)
Definition publish (observed : SourceIdentities) (loaded : result Error AuthSnapshot)
    (st : KeyStore) : result Error RefreshOutcome * KeyStore :=
  match loaded with
  | Ok s => (Ok Reloaded, with_snapshot s (with_identities observed st))
  | Err e => (Err e, with_identities observed st)
  end.

(** A request runs against the store and the clock. *)
Notation K := (M (KeyStore * nat) Error).

Definition on_clock {B} (m : A B) : K B :=
  fun s => let '(st, t) := s in let '(r, t') := m t in (r, (st, t')).
Definition on_store {B} (f : KeyStore → result Error B * KeyStore) : K B :=
  fun s => let '(st, t) := s in let '(r, st') := f st in (r, (st', t)).

(** The slow path, under the write guard. *)
Definition reload : K RefreshOutcome :=
  s ← getS;
  let st := s.1 in
  observed ← on_clock (observe (host_path st) (allowed_path st));
  forced ← on_store (fun st => (Ok (revalidate st), with_revalidate false st));
  if negb forced && bool_decide (identities st = observed) then mret Unchanged
  else
    loaded ← tryM (on_clock (snapshot_load (host_path st) (allowed_path st)));
    on_store (publish observed loaded).

(** [KeyStore::refresh_if_changed]. *)
Definition refresh_if_changed : K RefreshOutcome :=
  s ← getS;
  let st := s.1 in
  observed ← on_clock (observe (host_path st) (allowed_path st));
  if looks_unchanged st observed then mret Unchanged else reload.

(** [KeyStore::snapshot_for_auth]. *)
Definition snapshot_for_auth : K AuthSnapshot :=
  _ ← (tryM refresh_if_changed : K (result Error RefreshOutcome));
  s ← getS;
  mret (snapshot s.1).

(** ** The login of a connection: [ConnHandler::auth_publickey] in [ssh/mod.rs] *)

Record Conn := MkConn
  { c_username : option string; c_principal : option Principal; c_authenticated : bool }.

Inductive Auth := Accept | Reject.

Definition auth_publickey (user : string) (key : PublicKey) (conn : Conn) : K (Auth * Conn) :=
  s ← snapshot_for_auth;
  match authenticate s key with
  | None => mret (Reject, conn)
  | Some principal =>
      if bool_decide (user = "_") && negb (bool_decide (role principal = Admin))
      then mret (Reject, conn)
      else mret (Accept, MkConn (Some user) (Some principal) true)
  end.

(** ** What a key file says

    Each line within the limit is blank or a comment, or names one Ed25519 key;
    [file_keys ls fps] reads a file's lines as the fingerprints they name. *)

Definition ignorable (line : string) : Prop :=
  trim line = "" ∨ starts_with "#" (trim line) = true.

Definition key_line (line fingerprint : string) : Prop :=
  ∃ key blob rest,
    split_ascii_whitespace (trim line) = "ssh-ed25519" :: blob :: rest ∧ blob ≠ "" ∧
    from_openssh (trim line) = Some key ∧ is_ed25519 key = true ∧
    fingerprint = sha256_fingerprint key.

Inductive file_keys : list string → list string → Prop :=
| fk_nil : file_keys [] []
| fk_skip line ls fps :
    str_len line <= MAX_AUTHORIZED_KEYS_LINE_BYTES → ignorable line →
    file_keys ls fps → file_keys (line :: ls) fps
| fk_key line ls fp fps :
    str_len line <= MAX_AUTHORIZED_KEYS_LINE_BYTES → ¬ ignorable line → key_line line fp →
    file_keys ls fps → file_keys (line :: ls) (fp :: fps).

Lemma ignorable_test line :
  bool_decide (trim line = "") || starts_with "#" (trim line) = true ↔ ignorable line.
Proof. by rewrite orb_true_iff, bool_decide_eq_true. Qed.

Lemma parse_lines_sound p number ls seen ks out :
  parse_lines p number ls seen ks = Ok out →
  ∃ fps, file_keys ls fps ∧ NoDup fps ∧ (∀ fp, fp ∈ fps → fp ∉ seen) ∧
         out = ks ++ (MkAuthorizedKey <$> fps).
Proof.
  revert number seen ks; induction ls as [|line ls IH]; intros number seen ks; simpl.
  { intros [= <-]. exists []. rewrite app_nil_r. repeat split; [constructor..|set_solver]. }
  case_match eqn:Hlen; [done|]. bool_to_prop.
  destruct (bool_decide _ || _) eqn:Hskip.
  { intros (fps & ? & ? & ? & ?)%IH. exists fps. repeat split; [|done..].
    apply fk_skip; [done|by apply ignorable_test|done]. }
  assert (¬ ignorable line) by (by rewrite <-ignorable_test, Hskip).
  destruct (negb _ || _) eqn:Hfields; [done|]. bool_to_prop.
  destruct (split_ascii_whitespace (trim line)) as [|alg [|blob rest]] eqn:Hsplit; simplify_eq/=.
  destruct (from_openssh (trim line)) as [key|] eqn:Hkey; [|done].
  destruct (is_ed25519 key) eqn:Hed; [|done]. simpl.
  case_bool_decide; [done|].
  intros (fps & Hfps & Hnd & Hseen & ->)%IH.
  exists (sha256_fingerprint key :: fps). rewrite <-app_assoc. repeat split.
  - apply fk_key; [done..| |done]. eexists _, _, _. done.
  - constructor; [|done]. intros Hin. by apply Hseen in Hin; set_solver.
  - intros fp [->|Hin]%elem_of_cons; [done|]. apply Hseen in Hin. set_solver.
Qed.

Lemma parse_lines_complete p ls fps :
  file_keys ls fps → ∀ number seen ks, NoDup fps → (∀ fp, fp ∈ fps → fp ∉ seen) →
  parse_lines p number ls seen ks = Ok (ks ++ (MkAuthorizedKey <$> fps)).
Proof.
  induction 1 as [|line ls fps Hlen Hig _ IH|line ls fp fps Hlen Hig Hkey _ IH];
    intros number seen ks Hnd Hseen; simpl.
  - by rewrite app_nil_r.
  - case_match; bool_to_prop; [lia|].
    apply ignorable_test in Hig as ->. by apply IH.
  - case_match; bool_to_prop; [lia|].
    rewrite <-ignorable_test in Hig. apply not_true_is_false in Hig as ->.
    destruct Hkey as (key & blob & rest & -> & Hblob & -> & Hed & ->). simpl.
    rewrite (bool_decide_eq_false_2 _ Hblob), Hed. simpl.
    apply NoDup_cons in Hnd as [Hfresh Hnd].
    rewrite bool_decide_eq_false_2; [|apply Hseen; by left].
    rewrite IH, <-app_assoc; [done|done|].
    intros fp Hin. assert (fp ∉ seen) by (apply Hseen; by right). set_solver.
Qed.

(** The authorized-keys parser accepts exactly the files of the strict
    format, and reads them exactly: at most one mebibyte of valid UTF-8 in which
    every line is at most 8 KiB and blank, a comment, or one bare Ed25519 key,
    with no key twice (and at least one where an empty file is not allowed); the
    result is the keys' fingerprints in file order. *)
Theorem parse_key_source_exact bytes p allow_empty out :
  parse_key_source bytes p allow_empty = Ok out ↔
  ∃ fps, str_len bytes <= MAX_AUTHORIZED_KEYS_BYTES ∧ utf8_valid bytes = true ∧
         file_keys (lines bytes) fps ∧ NoDup fps ∧ (fps = [] → allow_empty = true) ∧
         out = MkAuthorizedKey <$> fps.
Proof.
  unfold parse_key_source. split.
  - case_match; [done|]. destruct (utf8_valid bytes); [|done]. bool_to_prop. simpl.
    destruct (parse_lines _ _ _ _ _) as [ks|] eqn:Hp; [|done]. simpl.
    apply parse_lines_sound in Hp as (fps & ? & ? & _ & ->).
    case_match eqn:He; [done|]. intros [= <-].
    exists fps. repeat split; [done..|]. intros ->. simpl in He. by destruct allow_empty.
  - intros (fps & Hlen & -> & Hfk & Hnd & Hempty & ->).
    case_match; bool_to_prop; [lia|]. simpl.
    rewrite (parse_lines_complete _ _ _ Hfk); [|done|set_solver]. simpl.
    destruct fps; simpl; [by rewrite Hempty|done].
Qed.

(** ** What the file checks establish *)

Definition unwritable (mode : Z) : Prop := Z.land mode 18 = 0.

(** [p]'s directories, the immediate one first. *)
Fixpoint directories (p : path) : list path :=
  match p with PJoin dir _ => dir :: directories dir | _ => [] end.

(** Between the moments [t] and [t'] the directory [d] was seen to be one nobody
    but its owner can write to. *)
Definition safe_directory (t t' : nat) (d : path) : Prop :=
  ∃ u md, (t <= u < t')%nat ∧ v_stat (now u) d = Ok md ∧
          is_directory (md_mode md) = true ∧ unwritable (md_mode md).

(** ... and the immediate parent the daemon's own, not reached by a link. *)
Definition own_directory (t t' : nat) (d : path) : Prop :=
  ∃ u link md, (t <= u)%nat ∧ (S u < t')%nat ∧ v_lstat (now u) d = Ok link ∧
    is_symlink (md_mode link) = false ∧ v_stat (now (S u)) d = Ok md ∧ md_uid md = euid.

Lemma safe_directory_mono t t' u u' d :
  (u <= t)%nat → (t' <= u')%nat → safe_directory t t' d → safe_directory u u' d.
Proof. intros ? ? (v & md & ? & ?). exists v, md. split; [lia|done]. Qed.

Lemma validate_parents_ok name dir imm t t' :
  validate_key_source_parents name imm dir t = (Ok (), t') →
  (t < t')%nat ∧ (∀ d, d ∈ dir :: directories dir → safe_directory t t' d) ∧
  (imm = true → own_directory t t' dir).
Proof.
  revert imm t; induction dir as [| |dir IH nm]; intros imm t Hrun; simpl in Hrun;
    unfold mbind, M_bind, symlink_metadata, stat_path, fail in Hrun;
    repeat case_match; simplify_eq/=; bool_to_prop;
    try (unfold mret, M_ret in Hrun; simplify_eq);
    (match goal with
     | H : v_lstat (now t) ?d = Ok ?link, H' : v_stat (now (S t)) ?d = Ok ?md |- _ =>
         assert (∀ u, (S t < u)%nat → safe_directory t u d) as Hsafe
           by (intros u ?; exists (S t), md; split_and!; [lia|lia|done..]);
         assert (∀ u, (S t < u)%nat → imm = true → own_directory t u d) as Hown
           by (intros u ? ->; simpl in *; bool_to_prop; exists t, link, md; split_and!; first [lia | naive_solver])
     end).
  1,2: split_and!; [lia| |apply Hown; lia];
       intros d [->|Hd]%elem_of_cons; [apply Hsafe; lia|by inversion Hd].
  apply IH in Hrun as (? & Hrec & _). split_and!; [lia| |apply Hown; lia].
  intros d [->|Hd]%elem_of_cons; [apply Hsafe; lia|].
  eapply safe_directory_mono; [..|apply Hrec, Hd]; lia.
Qed.

(** What a vetted entry looked like to the first call. *)
Definition safe_file (md : metadata) : Prop :=
  is_regular (md_mode md) = true ∧ md_len md <= MAX_AUTHORIZED_KEYS_BYTES ∧
  md_uid md = euid ∧ unwritable (md_mode md).

Lemma validate_file_ok p name t r t' :
  validate_key_source_file p name t = (Ok r, t') →
  (t < t')%nat ∧
  if r then
    (∃ md, v_lstat (now t) p = Ok md ∧ safe_file md) ∧
    (∀ d, d ∈ directories p → safe_directory t t' d) ∧
    (∀ d, parent p = Some d → own_directory t t' d)
  else ∃ err, v_lstat (now t) p = Err err ∧ errno_is err ENOENT = true.
Proof.
  unfold validate_key_source_file, symlink_metadata. intros Hrun.
  unfold mbind at 1, M_bind at 1 in Hrun. destruct (v_lstat (now t) p) as [md|err] eqn:Hl.
  2:{ case_match; [|done]. unfold mret, M_ret in Hrun. simplify_eq. split; [lia|by exists err]. }
  do 4 (case_match; [done|]). bool_to_prop.
  assert (∃ md', Ok md = Ok md' :> result io_error metadata ∧ safe_file md') as Hfile
    by (by exists md).
  apply bind_Ok in Hrun as ([] & t1 & Hpar & Hret). apply ret_Ok in Hret as [-> ->].
  destruct p as [| |dir nm]; simpl in *; try (apply ret_Ok in Hpar as [_ ->]).
  1,2: split_and!; [lia|done|intros ? ?; set_solver|done].
  apply validate_parents_ok in Hpar as (? & Hsafe & Hown).
  split_and!; [lia|done| |].
  - intros d Hd. eapply safe_directory_mono; [..|by apply Hsafe]; lia.
  - intros d [= <-]. destruct (Hown eq_refl) as (u & link & md' & ? & ? & ?).
    exists u, link, md'. split_and!; first [lia | naive_solver].
Qed.

Lemma read_at_most_short n s : str_len (read_at_most n s) < n → read_at_most n s = s.
Proof.
  revert n; induction s as [|c s IH]; intros n; simpl; [done|].
  case_match; bool_to_prop; unfold str_len; simpl; [lia|].
  intros Hlt. f_equal. apply IH. unfold str_len. lia.
Qed.

Lemma read_key_source_ok p name t r t' :
  read_key_source p name t = (Ok r, t') →
  (t < t')%nat ∧
  match r with
  | None => ∃ err, v_lstat (now t) p = Err err ∧ errno_is err ENOENT = true
  | Some bytes =>
      (∃ md, v_lstat (now t) p = Ok md ∧ safe_file md) ∧
      (∀ d, d ∈ directories p → safe_directory t t' d) ∧
      (∀ d, parent p = Some d → own_directory t t' d) ∧
      (∃ u, (t < u < t')%nat ∧ v_open (now u) p = Ok (Ok bytes)) ∧
      str_len bytes <= MAX_AUTHORIZED_KEYS_BYTES
  end.
Proof.
  unfold read_key_source. intros (present & t1 & Hval & Hrun)%bind_Ok.
  apply validate_file_ok in Hval as [Hlt Hval]. destruct present; simpl in Hrun.
  2:{ apply ret_Ok in Hrun as [-> ->]. done. }
  destruct Hval as (Hfile & Hdirs & Hparent).
  unfold mbind, M_bind, open_nofollow in Hrun.
  destruct (v_open (now t1) p) as [[content|]|] eqn:Hopen; [|done..].
  case_match eqn:Hbig; [done|]. apply ret_Ok in Hrun as [-> ->]. bool_to_prop.
  rewrite read_at_most_short in * by lia.
  split_and!; [lia|done| | | |done].
  - intros d Hd. eapply safe_directory_mono; [..|by apply Hdirs]; lia.
  - intros d Hd. destruct (Hparent d Hd) as (u & link & md' & ? & ? & ?).
    exists u, link, md'. split_and!; first [lia | naive_solver].
  - exists t1. split; [lia|done].
Qed.

(** ** Roles *)

Lemma add_keys_spec role ks s :
  sorted (principals s) → NoDup (key_fingerprint <$> ks) →
  let s' := fold_left (add_key role) ks s in
  sorted (principals s') ∧
  (∀ fp, bt_get fp (principals s') =
     match bt_get fp (principals s) with
     | Some r => Some r
     | None => if bool_decide (fp ∈ key_fingerprint <$> ks) then Some role else None
     end) ∧
  keys s' = keys s ++ filter (fun k => bt_get (key_fingerprint k) (principals s) = None) ks ∧
  admin_count s' = admin_count s +
    match role with Admin => Z.of_nat (length (keys s')) - Z.of_nat (length (keys s)) | Normal => 0 end.
Proof.
  revert s; induction ks as [|k ks IH]; intros s Hs Hnd; cbn [fold_left].
  { split_and!; [done| |by rewrite app_nil_r|destruct role; lia].
    intros fp. destruct (bt_get fp _); [done|]. by rewrite bool_decide_eq_false_2; [|set_solver]. }
  rewrite fmap_cons in *. apply NoDup_cons in Hnd as [Hk Hnd]. unfold add_key at 2 4 6 8 10.
  destruct (bt_get (key_fingerprint k) (principals s)) as [r|] eqn:Hget.
  - destruct (IH s Hs Hnd) as (? & Hlook & Hkeys & Hcount). split_and!; [done| | |done].
    + intros fp. rewrite Hlook. destruct (bt_get fp (principals s)) eqn:Hfp; [done|].
      case_bool_decide; case_bool_decide; set_solver.
    + rewrite Hkeys, filter_cons_False; [done|by rewrite Hget].
  - set (s1 := MkSnapshot _ _ _).
    destruct (IH s1 (sorted_insert _ _ _ Hs) Hnd) as (? & Hlook & Hkeys & Hcount).
    split_and!; [done| | |].
    + intros fp. rewrite Hlook. simpl. destruct (decide (fp = key_fingerprint k)) as [->|Hne].
      * rewrite bt_get_insert_eq, Hget, bool_decide_eq_true_2; [done|set_solver].
      * rewrite bt_get_insert_ne by done. destruct (bt_get fp (principals s)); [done|].
        case_bool_decide; case_bool_decide; set_solver.
    + rewrite Hkeys, filter_cons_True by done. simpl. rewrite <-app_assoc. simpl. f_equal. f_equal.
      apply filter_ext_in. intros x Hx. simpl. rewrite bt_get_insert_ne; [done|].
      intros Heq. apply Hk. rewrite Heq. by apply list_elem_of_fmap_2.
    + rewrite Hcount. simpl. rewrite length_app. simpl. destruct role; lia.
Qed.

Lemma load_source_ok p name t ks t' :
  load_source p name t = (Ok ks, t') →
  (t < t')%nat ∧ NoDup (key_fingerprint <$> ks) ∧
  ∃ bytes, read_key_source p name t = (Ok bytes, t') ∧
    match bytes with
    | None => ks = []
    | Some bytes => parse_key_source bytes p true = Ok ks
    end.
Proof.
  unfold load_source. intros (bytes & t1 & Hread & Hrun)%bind_Ok.
  pose proof (read_key_source_ok _ _ _ _ _ Hread) as [? _].
  destruct bytes as [bytes|].
  - apply liftR_Ok in Hrun as [Hparse ->]. split_and!; [done| |by exists (Some bytes)].
    unfold parse_key_source in Hparse.
    repeat case_match; simplify_eq. bool_to_prop.
    destruct (parse_lines _ _ _ _ _) as [out|] eqn:Hp; simplify_eq/=.
    case_match; simplify_eq. apply parse_lines_sound in Hp as (fps & _ & Hnd & _ & ->).
    simpl. rewrite <-list_fmap_compose. by rewrite list_fmap_id.
  - apply ret_Ok in Hrun as [-> ->]. split_and!; [done|constructor|by exists None].
Qed.

Lemma merge_keys_spec hk ak :
  NoDup (key_fingerprint <$> hk) → NoDup (key_fingerprint <$> ak) →
  let s := merge_keys hk ak in
  (∀ fp, bt_get fp (principals s) =
     if bool_decide (fp ∈ key_fingerprint <$> hk) then Some Admin
     else if bool_decide (fp ∈ key_fingerprint <$> ak) then Some Normal else None) ∧
  keys s = hk ++ filter (fun k => key_fingerprint k ∉ key_fingerprint <$> hk) ak ∧
  admin_count s = Z.of_nat (length hk).
Proof.
  intros Hh Ha. unfold merge_keys. set (s0 := MkSnapshot [] [] 0).
  destruct (add_keys_spec Admin hk s0) as (Hs & Hlook & Hkeys & Hcount); [done..|].
  set (s1 := fold_left (add_key Admin) hk s0) in *.
  destruct (add_keys_spec Normal ak s1 Hs Ha) as (_ & Hlook' & Hkeys' & Hcount').
  assert (keys s1 = hk) as Hk1.
  { rewrite Hkeys. simpl. clear. induction hk as [|k hk IH]; [done|].
    by rewrite filter_cons_True, IH. }
  split_and!.
  - intros fp. rewrite Hlook', Hlook. simpl. by case_bool_decide.
  - rewrite Hkeys', Hk1. f_equal. apply filter_ext_in. intros k _. rewrite Hlook. simpl.
    case_bool_decide; naive_solver.
  - rewrite Hcount', Hcount, Hk1. simpl. lia.
Qed.

(** Roles come from the files exactly.  A snapshot that loads holds the keys
    the host file names, all as administrators and nothing else as one, and then
    the keys only the allowed file names, as normal principals; no fingerprint
    appears twice, the snapshot is not empty, and a key authenticates with exactly
    the role its fingerprint has there, if it is an Ed25519 key at all. *)
Theorem snapshot_roles_are_exact host allowed t s t' :
  snapshot_load host allowed t = (Ok s, t') →
  ∃ hk ak t1,
    load_source host "authorized_keys" t = (Ok hk, t1) ∧
    load_source allowed "allowed_keys" t1 = (Ok ak, t') ∧
    keys s = hk ++ filter (fun k => key_fingerprint k ∉ key_fingerprint <$> hk) ak ∧
    keys s ≠ [] ∧ NoDup (key_fingerprint <$> keys s) ∧ admin_count s = Z.of_nat (length hk) ∧
    ∀ key, authenticate s key =
      let fp := sha256_fingerprint key in
      if negb (is_ed25519 key) then None
      else if bool_decide (fp ∈ key_fingerprint <$> hk) then Some (MkPrincipal fp Admin)
      else if bool_decide (fp ∈ key_fingerprint <$> ak) then Some (MkPrincipal fp Normal)
      else None.
Proof.
  unfold snapshot_load. intros (hk & t1 & Hh & Hrun)%bind_Ok.
  apply bind_Ok in Hrun as (ak & t2 & Ha & Hrun).
  case_bool_decide as Hne; [done|]. apply ret_Ok in Hrun as [-> ->].
  pose proof (load_source_ok _ _ _ _ _ Hh) as (_ & Hndh & _).
  pose proof (load_source_ok _ _ _ _ _ Ha) as (_ & Hnda & _).
  destruct (merge_keys_spec hk ak Hndh Hnda) as (Hlook & Hkeys & Hcount).
  exists hk, ak, t1. split_and!; [done..| | |done|].
  - intros Hnil. by rewrite Hnil in Hne.
  - rewrite Hkeys, fmap_app. apply NoDup_app. split_and!; [done| |].
    + intros fp Hin (k & -> & [? ?]%list_elem_of_filter)%list_elem_of_fmap. done.
    + eapply sublist_NoDup; [exact Hnda|]. apply fmap_sublist, sublist_filter.
  - intros key. unfold authenticate. destruct (is_ed25519 key); [|done]. simpl. rewrite Hlook.
    by case_bool_decide; [|case_bool_decide].
Qed.

(** Nothing is trusted unvetted.  Keys come from a source only if its entry was
    seen to be a regular file of the daemon's, unwritable for group and world and
    within the size limit; every directory above it was seen to be a directory
    unwritable for group and world, the nearest one the daemon's own and not a
    link; and the keys are those of the bytes that opening the path without
    following links then gave.  A source without an entry contributes no keys. *)
Theorem key_sources_are_vetted p name t ks t' :
  load_source p name t = (Ok ks, t') →
  (ks = [] ∧ ∃ err, v_lstat (now t) p = Err err ∧ errno_is err ENOENT = true) ∨
  ∃ md u bytes,
    v_lstat (now t) p = Ok md ∧ safe_file md ∧
    (∀ d, d ∈ directories p → safe_directory t t' d) ∧
    (∀ d, parent p = Some d → own_directory t t' d) ∧
    (t < u < t')%nat ∧ v_open (now u) p = Ok (Ok bytes) ∧
    parse_key_source bytes p true = Ok ks.
Proof.
  intros (_ & _ & bytes & Hread & Hks)%load_source_ok.
  apply read_key_source_ok in Hread as [_ Hread]. destruct bytes as [bytes|]; [|by left].
  right. destruct Hread as ((md & ? & ?) & ? & ? & (u & ? & ?) & _). by exists md, u, bytes.
Qed.

End kernel.

(** ** A sample host

    Alice's account, with one administrator key and, in the allowed file, that
    key again and a second one. *)

Module Sample.

Definition fp1 : string := "SHA256:AAAAAAAAAAAAAAAAAAAAAAAAAAAAAAAAAAAAAAAAAAA".
Definition fp2 : string := "SHA256:BBBBBBBBBBBBBBBBBBBBBBBBBBBBBBBBBBBBBBBBBBA".

#[local] Instance library : KeyLibrary := {|
  PublicKey := string;
  from_openssh s := split_ascii_whitespace s !! 1%nat;
  is_ed25519 k := negb (bool_decide (k = "rsa"));
  sha256_fingerprint k := if bool_decide (k = "alice") then fp1 else fp2 |}.

Definition home : path := PJoin (PJoin PRoot "home") "alice".
Definition host : path := PJoin (PJoin home ".ssh") "authorized_keys".
Definition allowed : path := PJoin (PJoin home ".config") "allowed_keys".

Definition directory_md : metadata := MkMetadata (S_IFDIR + 448) 1000 4096 1 2 5 6.
Definition file_md (ctime nsec : Z) (content : string) : metadata :=
  MkMetadata (S_IFREG + 384) 1000 (str_len content) 1 3 ctime nsec.

(** A moment at which the host file holds [content], last changed at [ctime]
    seconds and [nsec] nanoseconds, and the allowed file a fixed text. *)
Definition allowed_text : string :=
  "ssh-ed25519 alice" +:+ String newline "ssh-ed25519 bob" +:+ String newline EmptyString.

Definition files (ctime nsec : Z) (content : string) (p : path) : option (metadata * string) :=
  if bool_decide (p = host) then Some (file_md ctime nsec content, content)
  else if bool_decide (p = allowed) then Some (file_md 1 1 allowed_text, allowed_text)
  else None.

Definition view_at (ctime nsec : Z) (content : string) : view :=
  let lstat p := match files ctime nsec content p with
                 | Some (md, _) => Ok md
                 | None => Ok directory_md
                 end in
  MkView lstat lstat
    (fun p => match files ctime nsec content p with
              | Some (_, c) => Ok (Ok c)
              | None => Err (Errno EISDIR)
              end).

Definition host_text : string := "# admins" +:+ String newline "ssh-ed25519 alice home".

#[local] Instance steady : Kernel := {| now _ := view_at 7 8 host_text; euid := 1000 |}.

Lemma snapshot_roles_are_exact_witness :
  ∃ s t', snapshot_load host allowed 0%nat = (Ok s, t') ∧ admin_count s = 1 ∧
    authenticate s "alice" = Some (MkPrincipal fp1 Admin) ∧
    authenticate s "bob" = Some (MkPrincipal fp2 Normal) ∧ authenticate s "rsa" = None.
Proof.
  destruct (snapshot_load host allowed 0%nat) as [[s|e] t'] eqn:Hload;
    [|exfalso; revert Hload; vm_compute; discriminate].
  exists s, t'. split; [done|].
  destruct (snapshot_roles_are_exact _ _ _ _ _ Hload)
    as (hk & ak & t1 & Hh & Ha & _ & _ & _ & Hcount & Hauth).
  vm_compute in Hh. injection Hh as <- <-. vm_compute in Ha. injection Ha as <- _.
  rewrite !Hauth, Hcount. repeat split; vm_compute; reflexivity.
Defined.

Lemma key_sources_are_vetted_witness :
  ∃ ks t', load_source host "authorized_keys" 0%nat = (Ok ks, t') ∧ ks ≠ [] ∧
    own_directory 0%nat t' (PJoin home ".ssh").
Proof.
  destruct (load_source host "authorized_keys" 0%nat) as [[ks|e] t'] eqn:Hload;
    [|exfalso; revert Hload; vm_compute; discriminate].
  exists ks, t'. split; [done|].
  destruct (key_sources_are_vetted _ _ _ _ _ Hload)
    as [(-> & ? & Herr & _)|(md & u & bytes & _ & _ & _ & Hown & _)].
  { vm_compute in Herr. discriminate. }
  split; [|by apply Hown]. intros ->. vm_compute in Hload. discriminate.
Defined.

End Sample.
End Auth.
