(* ===== verification/KeyRefresh.v ===== *)
(** * The key store over time

    What [KeyStore::refresh_if_changed] does in each case, what an unchanged
    answer is worth, logins, and the store under concurrent requests and
    signals. *)

From S2P Require Import Prelude BTree Text Toml Idents FileSystem Auth.

Module KeyRefresh.
Import Principals Auth.

Section refresh.
Context `{Kernel} `{KeyLibrary}.

(** ** One refresh, case by case *)

Definition identity_at (v : view) (p : path) : FileIdentity :=
  match v_lstat v p with
  | Ok md => Inode (md_dev md) (md_ino md) (md_ctime_nsec md) (md_mode md) (md_len md)
  | Err _ => Absent
  end.

(** The identities two calls starting at [t] observe. *)
Definition observed_at (host allowed : path) (t : nat) : SourceIdentities :=
  MkIdentities (identity_at (now t) host) (identity_at (now (S t)) allowed).

Lemma observe_run {E} host allowed t :
  (observe host allowed : M nat E _) t = (Ok (observed_at host allowed t), S (S t)).
Proof. done. Qed.

Notation seen st t := (observed_at (host_path st) (allowed_path st) t).

Lemma reload_run st t :
  reload (st, t) =
    if negb (revalidate st) && bool_decide (identities st = seen st t)
    then (Ok Unchanged, (st, S (S t)))
    else let '(loaded, t') := snapshot_load (host_path st) (allowed_path st) (S (S t)) in
         let '(r, st') := publish (seen st t) loaded (with_revalidate false st) in
         (r, (st', t')).
Proof.
  unfold reload, observed_at, identity_at. unfold_monad. simpl.
  destruct (negb (revalidate st) && _) eqn:Hfast; unfold on_clock, on_store.
  - apply andb_true_iff in Hfast as [Hrev%negb_true_iff _].
    destruct st; simpl in *; by subst.
  - destruct (snapshot_load _ _ _) as [r t']. by destruct (publish _ _ _).
Qed.

Lemma refresh_run st t :
  refresh_if_changed (st, t) =
    if looks_unchanged st (seen st t) then (Ok Unchanged, (st, S (S t))) else reload (st, S (S t)).
Proof.
  unfold refresh_if_changed, observed_at, identity_at. unfold_monad. simpl.
  by destruct (looks_unchanged _ _).
Qed.

(** An unchanged answer leaves the store alone and rests on one observation. *)
Lemma refresh_unchanged st t st' t' :
  refresh_if_changed (st, t) = (Ok Unchanged, (st', t')) →
  st' = st ∧ revalidate st = false ∧
  ∃ u, (t <= u)%nat ∧ (S u < t')%nat ∧ identities st = seen st u.
Proof.
  rewrite refresh_run, reload_run. unfold looks_unchanged. intros Hrun.
  case_match eqn:Hfast.
  { simplify_eq. bool_to_prop. split_and!; [done..|]. exists t. by split_and!; [lia..|]. }
  clear Hfast. case_match eqn:Hslow.
  { simplify_eq. bool_to_prop. split_and!; [done..|]. exists (S (S t)). by split_and!; [lia..|]. }
  by destruct (snapshot_load _ _ _) as [[] ?]; simplify_eq/=.
Qed.

(** Any other answer comes from a load that began after the observation. *)
Lemma refresh_loaded st t r st' t' :
  refresh_if_changed (st, t) = (r, (st', t')) → r ≠ Ok Unchanged →
  ∃ u loaded, (t <= u)%nat ∧
    snapshot_load (host_path st) (allowed_path st) (S (S u)) = (loaded, t') ∧
    (r, st') = publish (seen st u) loaded (with_revalidate false st).
Proof.
  rewrite refresh_run, reload_run. intros Hrun Hr.
  destruct (looks_unchanged _ _); [congruence|].
  destruct (negb _ && _); [congruence|].
  destruct (snapshot_load _ _ _) as [loaded u'] eqn:Hload. destruct (publish _ _ _) eqn:Hpub.
  simplify_eq. exists (S (S t)), loaded. by split_and!; [lia|..].
Qed.

Lemma refresh_forced st t r st' t' :
  revalidate st = true → refresh_if_changed (st, t) = (r, (st', t')) → r ≠ Ok Unchanged.
Proof. intros Hrev Hrun ->. apply refresh_unchanged in Hrun as (_ & ? & _). congruence. Qed.

(** ** What an unchanged answer is worth *)

(** What a path held at one moment: no entry, or what opening it gives. *)
Definition source_at (v : view) (p : path) : option (result io_error (result io_error string)) :=
  match v_lstat v p with
  | Err e => if errno_is e ENOENT then None else Some (v_open v p)
  | Ok _ => Some (v_open v p)
  end.

(** The keys such a source stands for, if it is a well-formed one. *)
Definition keys_from (p : path) (src : option (result io_error (result io_error string)))
    : option (list AuthorizedKey) :=
  match src with
  | None => Some []
  | Some (Ok (Ok content)) =>
      match parse_key_source content p true with Ok ks => Some ks | Err _ => None end
  | _ => None
  end.

(** The same directory entry with the same status-change time, or the same
    failure to find one. *)
Definition same_entry (r r' : result io_error metadata) : Prop :=
  match r, r' with
  | Ok md, Ok md' =>
      md_dev md = md_dev md' ∧ md_ino md = md_ino md' ∧ md_ctime md = md_ctime md' ∧
      md_ctime_nsec md = md_ctime_nsec md' ∧ md_mode md = md_mode md' ∧ md_len md = md_len md'
  | Err e, Err e' => e = e'
  | _, _ => False
  end.

(** The kernel's discipline: a path whose entry is the same at two moments held
    the same file, unmodified, in between. *)
Definition changes_are_stamped (p : path) : Prop :=
  ∀ t1 t2 t3, (t1 <= t2 <= t3)%nat → same_entry (v_lstat (now t1) p) (v_lstat (now t3) p) →
    source_at (now t2) p = source_at (now t3) p.

(** The store's identities tell any two such entries apart. *)
Definition identities_are_faithful (p : path) : Prop :=
  ∀ t1 t3, identity_at (now t1) p = identity_at (now t3) p →
    same_entry (v_lstat (now t1) p) (v_lstat (now t3) p).

Lemma load_source_steady p name t ks t' src :
  load_source p name t = (Ok ks, t') →
  (∀ u, (t <= u < t')%nat → source_at (now u) p = src) → keys_from p src = Some ks.
Proof.
  intros (Hlt & _ & bytes & Hread & Hks)%load_source_ok Hsrc.
  apply read_key_source_ok in Hread as [_ Hread]. destruct bytes as [bytes|].
  - destruct Hread as ((md & Hmd & _) & _ & _ & (u & Hu & Hopen) & _).
    assert (source_at (now u) p = source_at (now t) p) as Heq by (rewrite !Hsrc by lia; done).
    assert (source_at (now u) p = Some (Ok (Ok bytes))) as Hs.
    { unfold source_at in *. rewrite Hmd, Hopen in *. by repeat case_match. }
    rewrite <-(Hsrc u), Hs by lia. simpl. by rewrite Hks.
  - destruct Hread as (err & Herr & Hno). rewrite <-(Hsrc t) by lia.
    unfold source_at. rewrite Herr, Hno. by subst.
Qed.

(** The observation made before the load that filled the store, and a later equal
    one, enclose everything the load saw of a source. *)
Lemma enclosed_source p name t0 t t' t3 ks :
  changes_are_stamped p → identities_are_faithful p →
  (t0 <= t)%nat → (t' <= t3)%nat → identity_at (now t0) p = identity_at (now t3) p →
  load_source p name t = (Ok ks, t') → keys_from p (source_at (now t3) p) = Some ks.
Proof.
  intros Hst Hfa Hle Hle' Heq Hload. eapply load_source_steady; [exact Hload|].
  intros u Hu. apply (Hst t0); [lia|]. by apply Hfa.
Qed.

(** An unchanged answer is a current one.  Once a request reloaded the key
    files, a later request that finds nothing to do serves, untouched, exactly
    the snapshot of the keys the two files hold when it looks at them, provided
    the kernel stamps every change and the observed identities tell different
    entries apart. *)
Theorem unchanged_serves_current st t st1 t1 t2 st2 t3 :
  (∀ p, p = host_path st ∨ p = allowed_path st → changes_are_stamped p ∧ identities_are_faithful p) →
  refresh_if_changed (st, t) = (Ok Reloaded, (st1, t1)) → (t1 <= t2)%nat →
  refresh_if_changed (st1, t2) = (Ok Unchanged, (st2, t3)) →
  ∃ u hk ak, (t2 <= u < t3)%nat ∧
    keys_from (host_path st) (source_at (now u) (host_path st)) = Some hk ∧
    keys_from (allowed_path st) (source_at (now (S u)) (allowed_path st)) = Some ak ∧
    st2 = st1 ∧ snapshot st2 = merge_keys hk ak.
Proof.
  intros Hp Hre Hle Hun.
  apply refresh_unchanged in Hun as (-> & _ & u & Hu & Hu' & Hids).
  apply refresh_loaded in Hre as (v & loaded & Hv & Hload & Hpub); [|done].
  destruct loaded as [s|e]; simplify_eq/=.
  unfold snapshot_load in Hload. apply bind_Ok in Hload as (hk & ta & Hh & Hload).
  apply bind_Ok in Hload as (ak & tb & Ha & Hload).
  case_match; [done|]. apply ret_Ok in Hload as [-> ->].
  pose proof (load_source_ok _ _ _ _ _ Hh) as [? _].
  pose proof (load_source_ok _ _ _ _ _ Ha) as [? _].
  exists u, hk, ak. split_and!; [lia|lia| | |done|done].
  - destruct (Hp (host_path st)) as [? ?]; [by left|].
    eapply (enclosed_source _ _ v); [..|exact Hh]; [done|done|lia|lia|done].
  - destruct (Hp (allowed_path st)) as [? ?]; [by right|].
    eapply (enclosed_source _ _ (S v)); [..|exact Ha]; [done|done|lia|lia|done].
Qed.

(** ** Logins *)

Lemma snapshot_for_auth_run st t :
  ∃ st' t', snapshot_for_auth (st, t) = (Ok (snapshot st'), (st', t')) ∧
    (refresh_if_changed (st, t)).2 = (st', t').
Proof.
  unfold snapshot_for_auth. unfold_monad.
  destruct (refresh_if_changed (st, t)) as [r [st' t']]. by exists st', t'.
Qed.

(** A login is decided by the refreshed snapshot alone.  Every attempt is
    answered; it is accepted exactly when the snapshot in force after the refresh
    knows the key and, for the host selector, knows it as an administrator's; an
    accepted connection carries that principal, a rejected one is unchanged.  The
    snapshot in force is the old one, or one that the refresh loaded in full. *)
Theorem login_follows_the_snapshot user key conn st t :
  ∃ out conn' st' t',
    auth_publickey user key conn (st, t) = (Ok (out, conn'), (st', t')) ∧
    (snapshot st' = snapshot st ∨
     ∃ u, (t < u)%nat ∧
       snapshot_load (host_path st) (allowed_path st) u = (Ok (snapshot st'), t')) ∧
    match out with
    | Accept => ∃ p, authenticate (snapshot st') key = Some p ∧
                  (user = "_" → role p = Admin) ∧ conn' = MkConn (Some user) (Some p) true
    | Reject => conn' = conn ∧
                  ∀ p, authenticate (snapshot st') key = Some p → user = "_" ∧ role p = Normal
    end.
Proof.
  destruct (snapshot_for_auth_run st t) as (st' & t' & Hrun & Href).
  unfold auth_publickey. unfold mbind at 1, M_bind at 1. rewrite Hrun.
  assert (snapshot st' = snapshot st ∨
     ∃ u, (t < u)%nat ∧
       snapshot_load (host_path st) (allowed_path st) u = (Ok (snapshot st'), t')) as Hsnap.
  { destruct (refresh_if_changed (st, t)) as [r [st2 t2]] eqn:Hr. simpl in Href. simplify_eq.
    destruct r as [[]|e]; [by apply refresh_unchanged in Hr as (-> & _); left|..];
      (apply refresh_loaded in Hr as (u & [s|e'] & Hu & Hload & Hpub); [..|done]); simplify_eq/=;
      first [by left | right; exists (S (S u)); split; [lia|done]]. }
  destruct (authenticate (snapshot st') key) as [p|] eqn:Hauth.
  2:{ exists Reject, conn, st', t'. split_and!; [done..|]. intros p ?; congruence. }
  destruct (bool_decide (user = "_") && negb (bool_decide (role p = Admin))) eqn:Hsel.
  - exists Reject, conn, st', t'. split_and!; [done..|]. rewrite Hauth. intros p' [= <-]. bool_to_prop.
    split; [done|]. by destruct (role p).
  - exists Accept, (MkConn (Some user) (Some p) true), st', t'. split_and!; [done..|].
    exists p. split_and!; [done| |done]. intros ->. simpl in Hsel. by bool_to_prop.
Qed.

(** ** Concurrent requests

    Requests run on blocking threads, each the sequence of [refresh_if_changed]'s
    accesses to what they share: the two observations, the flag, the comparison
    under the read guard, and under the write guard the second observation with
    the flag's swap, then the load and its publication.  Signals set the flag at
    any moment. *)

Inductive phase :=
| Observed (o : SourceIdentities)
| Reading (o : SourceIdentities)
| Waiting
| Guarded
| Loading (o : SourceIdentities)
| Done (r : result Error RefreshOutcome).

(** The ghost fields count loads and signals, say whether a load has begun since
    the last signal, and which requests arrived since then. *)
Record daemon := MkDaemon
  { d_store : KeyStore; d_clock : nat; d_writer : option nat; d_threads : gmap nat phase;
    d_loads : nat; d_signals : nat; d_answered : bool; d_fresh : gset nat }.

Definition at_phase (i : nat) (ph : phase) (d : daemon) : daemon :=
  MkDaemon (d_store d) (d_clock d) (d_writer d) (<[i := ph]> (d_threads d))
    (d_loads d) (d_signals d) (d_answered d) (d_fresh d).
Definition at_clock (t : nat) (d : daemon) : daemon :=
  MkDaemon (d_store d) t (d_writer d) (d_threads d) (d_loads d) (d_signals d) (d_answered d) (d_fresh d).
Definition at_writer (w : option nat) (d : daemon) : daemon :=
  MkDaemon (d_store d) (d_clock d) w (d_threads d) (d_loads d) (d_signals d) (d_answered d) (d_fresh d).
Definition at_store (st : KeyStore) (d : daemon) : daemon :=
  MkDaemon st (d_clock d) (d_writer d) (d_threads d) (d_loads d) (d_signals d) (d_answered d) (d_fresh d).
Definition loaded_once (d : daemon) : daemon :=
  MkDaemon (d_store d) (d_clock d) (d_writer d) (d_threads d) (S (d_loads d)) (d_signals d) true (d_fresh d).
Definition signalled (d : daemon) : daemon :=
  MkDaemon (d_store d) (d_clock d) (d_writer d) (d_threads d) (d_loads d) (S (d_signals d)) false ∅.

Definition arrived (i : nat) (d : daemon) : daemon :=
  MkDaemon (d_store d) (d_clock d) (d_writer d) (d_threads d) (d_loads d) (d_signals d)
    (d_answered d) ({[i]} ∪ d_fresh d).

Notation sees d := (observed_at (host_path (d_store d)) (allowed_path (d_store d)) (d_clock d)).

Inductive step (d : daemon) : daemon → Prop :=
| step_arrive i :
    d_threads d !! i = None →
    step d (arrived i (at_phase i (Observed (sees d)) (at_clock (S (S (d_clock d))) d)))
| step_flag i o :
    d_threads d !! i = Some (Observed o) →
    step d (at_phase i (if revalidate (d_store d) then Waiting else Reading o) d)
| step_compare i o :
    d_threads d !! i = Some (Reading o) → d_writer d = None →
    step d (at_phase i (if bool_decide (identities (d_store d) = o)
                        then Done (Ok Unchanged) else Waiting) d)
| step_lock i :
    d_threads d !! i = Some Waiting → d_writer d = None →
    step d (at_phase i Guarded (at_writer (Some i) d))
| step_decide_unchanged i :
    d_threads d !! i = Some Guarded →
    revalidate (d_store d) = false → identities (d_store d) = sees d →
    step d (at_phase i (Done (Ok Unchanged)) (at_writer None (at_clock (S (S (d_clock d))) d)))
| step_decide_load i :
    d_threads d !! i = Some Guarded →
    revalidate (d_store d) = true ∨ identities (d_store d) ≠ sees d →
    step d (at_phase i (Loading (sees d))
              (at_store (with_revalidate false (d_store d)) (at_clock (S (S (d_clock d))) d)))
| step_load i o loaded t' r st' :
    d_threads d !! i = Some (Loading o) →
    snapshot_load (host_path (d_store d)) (allowed_path (d_store d)) (d_clock d) = (loaded, t') →
    publish o loaded (d_store d) = (r, st') →
    step d (at_phase i (Done r)
              (at_writer None (loaded_once (at_store st' (at_clock t' d)))))
| step_signal : step d (signalled (at_store (invalidate (d_store d)) d))
| step_tick : step d (at_clock (S (d_clock d)) d).

Definition started (st : KeyStore) (t : nat) : daemon := MkDaemon st t None ∅ 0 0 true ∅.

Inductive reachable (d0 : daemon) : daemon → Prop :=
| reach_start : reachable d0 d0
| reach_step d d' : reachable d0 d → step d d' → reachable d0 d'.

(** The write guard is exclusive: who holds it is past the lock and not done. *)
Definition guarded (ph : option phase) : bool :=
  match ph with Some Guarded | Some (Loading _) => true | _ => false end.
Definition guard_ok (w : option nat) (ths : gmap nat phase) : Prop :=
  ∀ i, w = Some i ↔ guarded (ths !! i) = true.

Lemma guard_update w ths i ph :
  guard_ok w ths →
  (guarded (Some ph) = true → guarded (ths !! i) = true ∨ w = None) →
  guard_ok (if guarded (Some ph) then Some i else if guarded (ths !! i) then None else w)
    (<[i := ph]> ths).
Proof.
  intros Hok Hph j. destruct (decide (i = j)) as [<-|Hne].
  - rewrite lookup_insert_eq. destruct (guarded (Some ph)) eqn:Hg; [done|].
    destruct (guarded (ths !! i)) eqn:Hi; (split; [|done]); [done|].
    intros Hw%Hok. congruence.
  - rewrite lookup_insert_ne by done.
    destruct (guarded (Some ph)).
    + destruct Hph as [Hi|Hw]; [done|..]; split; intros Hj; [congruence|..].
      * apply Hok in Hj. apply Hok in Hi. congruence.
      * congruence.
      * apply Hok in Hj. congruence.
    + destruct (guarded (ths !! i)) eqn:Hi; [|apply Hok].
      split; [done|]. intros Hj. apply Hok in Hj. apply Hok in Hi. congruence.
Qed.

Lemma guard_step d d' :
  step d d' → guard_ok (d_writer d) (d_threads d) → guard_ok (d_writer d') (d_threads d').
Proof.
  intros Hstep Hok. destruct Hstep as [i Hi|i o Hi|i o Hi|i Hi|i Hi|i Hi|i o r t' r' st' Hi| |];
    simpl; try done;
    match goal with
    | |- guard_ok _ (<[i := ?ph]> _) => pose proof (guard_update _ _ i ph Hok) as Hup
    end; rewrite Hi in Hup; simpl in Hup; try (by apply Hup; auto).
  - destruct (revalidate (d_store d)); by apply Hup.
  - case_bool_decide; by apply Hup.
  - assert (d_writer d = Some i) as -> by (apply Hok; by rewrite Hi). apply Hup; auto.
Qed.

(** The clock never runs backwards. *)
Definition advances {B} (m : M nat Error B) : Prop := ∀ t, (t <= (m t).2)%nat.

Lemma advances_bind {B C} (m : M nat Error B) (f : B → M nat Error C) :
  advances m → (∀ b, advances (f b)) → advances (m ≫= f).
Proof.
  intros Hm Hf t. unfold mbind, M_bind. specialize (Hm t).
  destruct (m t) as [[b|e] t1]; simpl in *; [|done]. specialize (Hf b t1). lia.
Qed.
Lemma advances_ret {B} (b : B) : advances (mret b).
Proof. by intros t. Qed.
Lemma advances_fail {B} (e : Error) : advances (fail e : M nat Error B).
Proof. by intros t. Qed.
Lemma advances_liftR {B} (r : result Error B) : advances (liftR r).
Proof. by intros t. Qed.
Lemma advances_lstat p : advances (symlink_metadata p).
Proof. intros t; simpl; lia. Qed.
Lemma advances_stat p : advances (stat_path p).
Proof. intros t; simpl; lia. Qed.
Lemma advances_open p : advances (open_nofollow p).
Proof. intros t; simpl; lia. Qed.
#[local] Hint Resolve advances_bind advances_ret advances_fail advances_liftR advances_lstat
  advances_stat advances_open : core.

Ltac advance := repeat (apply advances_bind; [auto|intros]); repeat case_match; auto.

Lemma advances_parents name imm dir : advances (validate_key_source_parents name imm dir).
Proof.
  revert imm; induction dir as [| |dir IH nm]; intros imm; simpl;
    (apply advances_bind; [auto|intros [link|err]; [|auto]]);
    (destruct (_ && _); [auto|]); advance.
Qed.
#[local] Hint Resolve advances_parents : core.
Lemma advances_file p name : advances (validate_key_source_file p name).
Proof.
  unfold validate_key_source_file. apply advances_bind; [auto|]. intros [md|err]; advance.
Qed.
Lemma advances_source p name : advances (load_source p name).
Proof.
  unfold load_source, read_key_source.
  apply advances_bind; [|intros; case_match; auto].
  apply advances_bind; [apply advances_file|]. intros []; simpl; [|auto]. advance.
Qed.
Lemma advances_load host allowed : advances (snapshot_load host allowed).
Proof.
  unfold snapshot_load. apply advances_bind; [apply advances_source|intros hk].
  apply advances_bind; [apply advances_source|intros ak]. case_match; auto.
Qed.

(** The store's snapshot is the complete result of some earlier load. *)
Definition validated (host allowed : path) (d : daemon) : Prop :=
  host_path (d_store d) = host ∧ allowed_path (d_store d) = allowed ∧
  ∃ u u', (u' <= d_clock d)%nat ∧ snapshot_load host allowed u = (Ok (snapshot (d_store d)), u').

Lemma validated_step host allowed d d' :
  step d d' → validated host allowed d → validated host allowed d'.
Proof.
  intros Hstep (Hh & Ha & u & u' & Hle & Hload).
  assert (∀ d1, d_store d1 = d_store d ∨ (∃ b, d_store d1 = with_revalidate b (d_store d)) →
    (d_clock d <= d_clock d1)%nat → validated host allowed d1) as Hsame.
  { intros d1 [Hs|[b Hs]] ?; unfold validated; rewrite !Hs; simpl;
      (split_and!; [done..|]); exists u, u'; split; [lia|done|lia|done]. }
  destruct Hstep as [i Hi|i o Hi|i o Hi|i Hi|i Hi|i Hi|i o r t' r' st' Hi Hrun Hpub| |];
    try (apply Hsame; simpl; [by left|lia]); try (apply Hsame; simpl; [right; by eexists|lia]).
  pose proof (advances_load (host_path (d_store d)) (allowed_path (d_store d)) (d_clock d)) as Ht.
  rewrite Hrun in Ht. simpl in Ht.
  destruct r as [s|e]; simplify_eq/=.
  - split_and!; [done..|]. exists (d_clock d), t'. by split.
  - split_and!; [done..|]. exists u, u'. simpl. split; [lia|done].
Qed.

(** C28: only complete, validated snapshots ever serve.  Whatever requests and
    signals do in whatever order after a start that succeeded, the snapshot in
    force is at every moment the full result of one successful load of the two
    configured files that had ended by then. *)
Theorem only_validated_snapshots_serve host allowed t st t1 d :
  store_load host allowed t = (Ok st, t1) → reachable (started st t1) d →
  ∃ u u', (u' <= d_clock d)%nat ∧ snapshot_load host allowed u = (Ok (snapshot (d_store d)), u').
Proof.
  unfold store_load. intros (s & u & Hload & Hrun)%bind_Ok Hreach.
  apply bind_Ok in Hrun as (ids & u1 & Hobs & Hret). apply ret_Ok in Hret as [-> ->].
  rewrite observe_run in Hobs. simplify_eq.
  cut (validated host allowed d); [by intros (_ & _ & ?)|].
  induction Hreach as [|d d' _ IH Hstep]; [|by eapply validated_step].
  split_and!; [done..|]. exists t, u. simpl. split; [lia|done].
Qed.

(** ** Answering signals and counting loads *)

(** The holder of the write guard is about to load. *)
Definition owed (d : daemon) : Prop :=
  ∃ i o, d_writer d = Some i ∧ d_threads d !! i = Some (Loading o).

(** A signal is answered, or will be; requests that came after it do not settle
    for less. *)
Record signals_ok (d : daemon) : Prop := {
  so_guard : guard_ok (d_writer d) (d_threads d);
  so_pending : d_answered d = true ∨ revalidate (d_store d) = true ∨ owed d;
  so_reading i o : i ∈ d_fresh d → d_threads d !! i = Some (Reading o) →
    d_answered d = true ∨ owed d;
  so_done i r : i ∈ d_fresh d → d_threads d !! i = Some (Done r) → d_answered d = true }.

Lemma owed_step d d' :
  step d d' → guard_ok (d_writer d) (d_threads d) → d_answered d = true ∨ owed d →
  (d_answered d' = true ∨ owed d') ∨ d_fresh d' = ∅ ∧ revalidate (d_store d') = true.
Proof.
  intros Hstep Hok [Hans|(j & o' & Hj & Hload)]; [destruct Hstep; simpl; auto|].
  assert (∀ i ph ph', d_threads d !! i = ph → guarded ph = false → 
    <[i := ph']> (d_threads d) !! j = Some (Loading o')) as Hkeep.
  { intros i ph ph' Hi Hg. rewrite lookup_insert_ne; [done|]. intros ->.
    rewrite Hload in Hi. by subst. }
  assert (∀ i, d_threads d !! i = Some Guarded → False) as Hno.
  { intros i Hi. assert (d_writer d = Some i) by (apply Hok; by rewrite Hi). congruence. }
  destruct Hstep as [i Hi|i o Hi|i o Hi|i Hi|i Hi|i Hi|i o r t' r' st' Hi Hrun Hpub| |];
    simpl; auto; try congruence; try (by exfalso; eapply Hno);
    left; right; exists j, o'; (split; [done|]); first [done | by eapply Hkeep].
Qed.

Lemma owed_not_free d : owed d → d_writer d = None → False.
Proof. intros (? & ? & ? & _) ?. congruence. Qed.

Lemma guarded_answers d i :
  signals_ok d → d_threads d !! i = Some Guarded → revalidate (d_store d) = false →
  d_answered d = true.
Proof.
  intros Hok Hi Hrev. destruct (so_pending _ Hok) as [?|[?|(j & o & Hj & Hload)]]; [done|congruence|].
  assert (d_writer d = Some i) by (apply (so_guard _ Hok); by rewrite Hi). congruence.
Qed.

Lemma signals_pending_step d d' :
  step d d' → signals_ok d →
  d_answered d' = true ∨ revalidate (d_store d') = true ∨ owed d'.
Proof.
  intros Hstep Hok. destruct (so_pending _ Hok) as [Hans|[Hrev|Howed]].
  - destruct (owed_step _ _ Hstep (so_guard _ Hok)) as [[]|[]]; auto.
  - destruct Hstep as [i Hi|i o Hi|i o Hi|i Hi|i Hi|i Hi|i o r t' r' st' Hi Hrun Hpub| |]; simpl; auto.
    right; right. exists i, (sees d). split; [|by apply lookup_insert_eq].
    apply (so_guard _ Hok). by rewrite Hi.
  - destruct (owed_step _ _ Hstep (so_guard _ Hok)) as [[]|[]]; auto.
Qed.

(** A request in some phase after a step was there before it, or just moved. *)
Lemma step_moves d d' j ph :
  step d d' → j ∈ d_fresh d' → d_threads d' !! j = Some ph →
  (j ∈ d_fresh d ∧ d_threads d !! j = Some ph) ∨
  match ph with
  | Reading _ => revalidate (d_store d) = false
  | Done _ =>
      d_answered d' = true ∨
      d_answered d' = d_answered d ∧ j ∈ d_fresh d ∧
      ((∃ o, d_threads d !! j = Some (Reading o) ∧ d_writer d = None) ∨
       (d_threads d !! j = Some Guarded ∧ revalidate (d_store d) = false))
  | _ => True
  end.
Proof.
  intros Hstep Hj Hph.
  destruct Hstep as [i Hi|i o Hi|i o Hi Hw|i Hi|i Hi Hrev|i Hi|i o r t' r' st' Hi Hrun Hpub| |];
    simpl in *; [..|by apply not_elem_of_empty in Hj|by left];
    (apply lookup_insert_Some in Hph as [[<- <-]|[Hne Hph]];
     [|left; split; [|done]; first [done|apply elem_of_union in Hj as [<-%elem_of_singleton|?]; done]]).
  - by right.
  - right. by destruct (revalidate _) eqn:?.
  - right. case_bool_decide; [|done]. right. split_and!; [done|done|left; by exists o].
  - by right.
  - right. right. split_and!; [done|done|by right].
  - by right.
  - right. by left.
Qed.

Lemma answered_step d d' : step d d' → d_answered d = true → d_answered d' = true ∨ d_fresh d' = ∅.
Proof. intros [] ?; simpl; auto. Qed.

Lemma signals_step d d' : step d d' → signals_ok d → signals_ok d'.
Proof.
  intros Hstep Hok. pose proof (owed_step _ _ Hstep (so_guard _ Hok)) as Howed.
  pose proof (answered_step _ _ Hstep) as Hans.
  split; [by eapply guard_step, Hok|by eapply signals_pending_step|..].
  - intros j o Hj Hread. cut (d_answered d = true ∨ owed d).
    { intros [?|[Hf _]]%Howed; [done|]. rewrite Hf in Hj. by apply not_elem_of_empty in Hj. }
    destruct (step_moves _ _ _ _ Hstep Hj Hread) as [[? ?]|Hrev]; [by eapply (so_reading _ Hok)|].
    destruct (so_pending _ Hok) as [?|[?|?]]; [by left|congruence|by right].
  - intros j r Hj Hdone.
    assert (d_answered d = true → d_answered d' = true) as Hkeep.
    { intros [?|Hf]%Hans; [done|]. rewrite Hf in Hj. by apply not_elem_of_empty in Hj. }
    destruct (step_moves _ _ _ _ Hstep Hj Hdone)
      as [[? ?]|[?|(_ & Hfr & [(o & Hi & Hw)|[Hi Hrev]])]]; [|done|..]; apply Hkeep.
    + by eapply (so_done _ Hok).
    + destruct (so_reading _ Hok _ _ Hfr Hi) as [?|Ho]; [done|]. by destruct (owed_not_free _ Ho).
    + by eapply guarded_answers.
Qed.

Lemma started_ok st t : signals_ok (started st t).
Proof. split; simpl; [|auto|set_solver..]. intros i. simpl. by rewrite lookup_empty. Qed.

(** A revalidation signal is never lost, however requests interleave: until
    some request begins a load, the flag stays up or the request holding the
    write guard is about to load; and a request that arrived after the last
    signal does not complete before a load that began after that signal. *)
Theorem signals_are_never_lost st t d :
  reachable (started st t) d →
  (d_answered d = true ∨ revalidate (d_store d) = true ∨ owed d) ∧
  ∀ i r, i ∈ d_fresh d → d_threads d !! i = Some (Done r) → d_answered d = true.
Proof.
  intros Hreach. cut (signals_ok d); [intros Hok; split; [apply Hok|apply (so_done _ Hok)]|].
  induction Hreach as [|d d' _ IH Hstep]; [apply started_ok|by eapply signals_step].
Qed.

(** While the files keep the identities [o], the loads still to come are paid for:
    the one under way or due to the cached identities, and the raised flag. *)
Definition loading (w : option nat) (ths : gmap nat phase) : bool :=
  match w with
  | Some i => match ths !! i with Some (Loading _) => true | _ => false end
  | None => false
  end.

Definition due (o : SourceIdentities) (d : daemon) : nat :=
  ((if loading (d_writer d) (d_threads d) then 1
    else if bool_decide (identities (d_store d) = o) then 0 else 1) +
   (if revalidate (d_store d) then 1 else 0))%nat.

Lemma loading_insert w ths i ph :
  guard_ok w ths → guarded (ths !! i) = false → loading w (<[i := ph]> ths) = loading w ths.
Proof.
  intros Hok Hi. destruct w as [j|]; [|done]. simpl.
  rewrite lookup_insert_ne; [done|]. intros ->. assert (guarded (ths !! j) = true) by by apply Hok.
  congruence.
Qed.

Record paid (host allowed : path) (o : SourceIdentities) (k : nat) (d : daemon) : Prop := {
  pd_guard : guard_ok (d_writer d) (d_threads d);
  pd_host : host_path (d_store d) = host;
  pd_allowed : allowed_path (d_store d) = allowed;
  pd_loading i o' : d_threads d !! i = Some (Loading o') → o' = o;
  pd_due : (d_loads d + due o d <= k + d_signals d)%nat }.

Lemma publish_paths o loaded st r st' :
  publish o loaded st = (r, st') →
  host_path st' = host_path st ∧ allowed_path st' = allowed_path st ∧
  revalidate st' = revalidate st ∧ identities st' = o.
Proof. destruct loaded; simpl; intros; simplify_eq; done. Qed.

Lemma due_step host allowed o k d d' :
  (∀ t, observed_at host allowed t = o) → step d d' → paid host allowed o k d →
  (d_loads d' + due o d' + d_signals d <= d_loads d + due o d + d_signals d')%nat.
Proof.
  intros Hsteady Hstep [Hok Hh Ha Hload _]. unfold due.
  destruct Hstep as [i Hi|i o' Hi|i o' Hi Hw|i Hi Hw|i Hi Hrev|i Hi Hwhy|i o' l t' r st' Hi Hrun Hpub| |];
    simpl;
    [..|destruct (revalidate (d_store d)); simpl; lia|lia];
    try (rewrite loading_insert by (done || by rewrite Hi); lia).
  - rewrite Hw. simpl. rewrite lookup_insert_eq. lia.
  - assert (d_writer d = Some i) as -> by (apply Hok; by rewrite Hi). simpl. rewrite Hi. lia.
  - assert (d_writer d = Some i) as -> by (apply Hok; by rewrite Hi). simpl.
    rewrite Hi, lookup_insert_eq. rewrite Hh, Ha, Hsteady in Hwhy.
    destruct Hwhy as [->|Hne]; [|rewrite bool_decide_eq_false_2 by done]; lia.
  - assert (d_writer d = Some i) as -> by (apply Hok; by rewrite Hi). simpl. rewrite Hi.
    apply Hload in Hi as ->. apply publish_paths in Hpub as (_ & _ & -> & ->).
    rewrite bool_decide_eq_true_2 by done. lia.
Qed.

Lemma paid_step host allowed o k d d' :
  (∀ t, observed_at host allowed t = o) → step d d' → paid host allowed o k d →
  paid host allowed o k d'.
Proof.
  intros Hsteady Hstep Hp. pose proof (due_step _ _ _ _ _ _ Hsteady Hstep Hp) as Hdue.
  pose proof (pd_due _ _ _ _ _ Hp) as Hle. destruct Hp as [Hok Hh Ha Hload _].
  split; [by eapply guard_step| | | |lia]; clear Hdue Hle;
    destruct Hstep as [i Hi|i o' Hi|i o' Hi Hw|i Hi Hw|i Hi Hrev|i Hi Hwhy|i o' l t' r st' Hi Hrun Hpub| |];
    simpl; try done; try (by apply publish_paths in Hpub as (? & ? & _); congruence);
    (intros j o1 [[<- Hph]|[Hne Hph]]%lookup_insert_Some;
     [repeat case_match; simplify_eq|by eapply Hload]).
  apply Hsteady.
Qed.

(** Refreshes are single-flight.  While the two files keep their identities,
    any number of requests in any interleaving run the full load at most once for
    every signal, and once more if the files had changed since the last load. *)
Theorem refreshes_are_single_flight st t o d :
  (∀ u, observed_at (host_path st) (allowed_path st) u = o) → revalidate st = false →
  reachable (started st t) d →
  (d_loads d <= (if bool_decide (identities st = o) then 0 else 1) + d_signals d)%nat.
Proof.
  intros Hsteady Hrev Hreach. set (k := if bool_decide _ then _ else _).
  cut (paid (host_path st) (allowed_path st) o k d); [intros Hp; pose proof (pd_due _ _ _ _ _ Hp); lia|].
  induction Hreach as [|d d' _ IH Hstep]; [|by eapply paid_step].
  split; simpl; [|done..|]; [intros i; by rewrite lookup_empty|].
  unfold due. simpl. rewrite Hrev. lia.
Qed.

(** ** One request alone is a run of the system *)

(** [d'] is [d] after the request [i] ran to completion with the answer [r]. *)
Definition served (i : nat) (r : result Error RefreshOutcome) (st' : KeyStore) (t' : nat)
    (d d' : daemon) : Prop :=
  d_store d' = st' ∧ d_clock d' = t' ∧ d_threads d' !! i = Some (Done r) ∧ d_writer d' = None ∧
  d_fresh d' = {[i]} ∪ d_fresh d ∧ d_signals d' = d_signals d.

Lemma reload_runs d0 d i r st' t' :
  reachable d0 d → d_writer d = None → d_threads d !! i = Some Waiting →
  reload (d_store d, d_clock d) = (r, (st', t')) →
  ∃ d', reachable d0 d' ∧ d_store d' = st' ∧ d_clock d' = t' ∧ d_threads d' !! i = Some (Done r) ∧
    d_writer d' = None ∧ d_fresh d' = d_fresh d ∧ d_signals d' = d_signals d.
Proof.
  intros Hreach Hw Hi Hrun. pose proof (reach_step _ _ _ Hreach (step_lock _ _ Hi Hw)) as Hlock.
  rewrite reload_run in Hrun.
  match type of Hlock with reachable _ ?d1 => set (dl := d1) in * end.
  assert (d_threads dl !! i = Some Guarded) as Hg by apply lookup_insert_eq.
  destruct (negb _ && _) eqn:Hsame.
  - bool_to_prop. simplify_eq.
    eexists. split; [eapply reach_step; [exact Hlock|by apply (step_decide_unchanged _ i Hg)]|].
    simpl. by rewrite lookup_insert_eq.
  - destruct (snapshot_load _ _ _) as [loaded t2] eqn:Hload.
    destruct (publish _ _ _) as [r2 st2] eqn:Hpub. simplify_eq.
    assert (reachable d0 (at_phase i (Loading (sees dl))
      (at_store (with_revalidate false (d_store dl)) (at_clock (S (S (d_clock dl))) dl)))) as Hdec.
    { eapply reach_step; [exact Hlock|]. apply (step_decide_load _ i Hg). simpl.
      destruct (revalidate (d_store d)); [by left|right]. simpl in Hsame. by bool_to_prop. }
    eexists. split; [eapply reach_step; [exact Hdec|]|].
    { eapply (step_load _ i); [apply lookup_insert_eq|exact Hload|exact Hpub]. }
    simpl. by rewrite lookup_insert_eq.
Qed.

(** The concurrent system contains the sequential one.  Wherever no request
    holds the write guard, a request that runs [refresh_if_changed] from beginning
    to end without interruption is a run of the system with the same answer, the
    same store and the same system calls. *)
Lemma refresh_is_a_run d0 d i r st' t' :
  reachable d0 d → d_writer d = None → d_threads d !! i = None →
  refresh_if_changed (d_store d, d_clock d) = (r, (st', t')) →
  ∃ d', reachable d0 d' ∧ served i r st' t' d d'.
Proof.
  intros Hreach Hw Hi Hrun. rewrite refresh_run in Hrun. unfold looks_unchanged in Hrun.
  pose proof (reach_step _ _ _ Hreach (step_arrive _ _ Hi)) as Harr.
  match type of Harr with reachable _ ?d1 => set (da := d1) in * end.
  assert (d_threads da !! i = Some (Observed (sees d))) as Ho by apply lookup_insert_eq.
  pose proof (reach_step _ _ _ Harr (step_flag _ _ _ Ho)) as Hflag. simpl in Hflag.
  match type of Hflag with reachable _ ?d1 => set (df := d1) in * end.
  assert (d_threads df !! i = Some (if revalidate (d_store d) then Waiting else Reading (sees d)))
    as Hf by apply lookup_insert_eq.
  destruct (revalidate (d_store d)); simpl in Hrun.
  { destruct (reload_runs _ _ _ _ _ _ Hflag Hw Hf Hrun) as (d' & ?). by exists d'. }
  pose proof (reach_step _ _ _ Hflag (step_compare _ _ _ Hf Hw)) as Hcmp. simpl in Hcmp.
  match type of Hcmp with reachable _ ?d1 => set (dc := d1) in * end.
  assert (d_threads dc !! i = Some (if bool_decide (identities (d_store d) = sees d)
    then Done (Ok Unchanged) else Waiting)) as Hc by apply lookup_insert_eq.
  case_bool_decide.
  - simplify_eq. by exists dc.
  - destruct (reload_runs _ _ _ _ _ _ Hcmp Hw Hc Hrun) as (d' & ?). by exists d'.
Qed.

End refresh.

(** ** Samples *)

Module Samples.
Import Sample.
#[local] Existing Instance library.

(** The files of the sample host at rest. *)
Module Rest.
#[local] Existing Instance steady.

Definition ids : SourceIdentities := observed_at host allowed 0.
Definition store : KeyStore :=
  MkStore host allowed (merge_keys [MkAuthorizedKey fp1] [MkAuthorizedKey fp1; MkAuthorizedKey fp2])
    ids false.

Lemma booted : store_load host allowed 0%nat = (Ok store, 22%nat).
Proof. vm_compute. reflexivity. Qed.

Lemma reloads : refresh_if_changed (invalidate store, 22%nat) = (Ok Reloaded, (store, 46%nat)).
Proof. vm_compute. reflexivity. Qed.

Lemma stamped p : changes_are_stamped p.
Proof. by intros t1 t2 t3 _ _. Qed.
Lemma faithful p : identities_are_faithful p.
Proof. intros t1 t3 _. unfold same_entry. simpl. by case_match. Qed.

Lemma unchanged_serves_current_witness :
  ∃ u hk ak, (60 <= u < 62)%nat ∧
    keys_from host (source_at (now u) host) = Some hk ∧
    keys_from allowed (source_at (now (S u)) allowed) = Some ak ∧
    store = store ∧ snapshot store = merge_keys hk ak.
Proof.
  apply (unchanged_serves_current (invalidate store) 22 store 46 60 store 62).
  - intros p _. split; [apply stamped|apply faithful].
  - apply reloads.
  - lia.
  - vm_compute. reflexivity.
Defined.

Definition signalled_start : daemon := signalled (at_store (invalidate store) (started store 22)).

Lemma signal_reaches : reachable (started store 22) signalled_start.
Proof. eapply reach_step; [apply reach_start|apply step_signal]. Qed.

Lemma run_after_signal :
  ∃ d', reachable (started store 22) d' ∧ served 0 (Ok Reloaded) store 46 signalled_start d'.
Proof. apply refresh_is_a_run; [apply signal_reaches|done..|apply reloads]. Qed.

Lemma signals_are_never_lost_witness :
  ∃ d, reachable (started store 22) d ∧ d_signals d = 1%nat ∧ d_answered d = true.
Proof.
  destruct run_after_signal as (d & Hreach & _ & _ & Hd & _ & Hf & Hs).
  exists d. split_and!; [done..|].
  destruct (signals_are_never_lost store 22 d Hreach) as [_ Hdone].
  eapply Hdone; [|exact Hd]. rewrite Hf. set_solver.
Defined.

Lemma refreshes_are_single_flight_witness :
  ∃ d, reachable (started store 22) d ∧ (d_loads d <= 0 + 1)%nat.
Proof.
  destruct run_after_signal as (d & Hreach & _ & _ & _ & _ & _ & Hs). exists d. split; [done|].
  change 1%nat with (d_signals signalled_start). rewrite <-Hs.
  by apply (refreshes_are_single_flight store 22 ids d).
Defined.

Lemma only_validated_snapshots_serve_witness :
  ∃ d u u', reachable (started store 22) d ∧ (u' <= d_clock d)%nat ∧
    snapshot_load host allowed u = (Ok (snapshot (d_store d)), u').
Proof.
  exists signalled_start.
  destruct (only_validated_snapshots_serve host allowed 0 store 22 signalled_start)
    as (u & u' & ? & ?); [apply booted|apply signal_reaches|].
  exists u, u'. split; [apply signal_reaches|done].
Defined.

End Rest.

(** The host file is edited once: alice's key is replaced by carol's. *)
Definition edited_text : string := "# admins" +:+ String newline "ssh-ed25519 carol home".

Definition edit_at (k : nat) (ctime nsec : Z) : Kernel := {|
  now t := if Nat.ltb t k then view_at 7 8 host_text else view_at ctime nsec edited_text;
  euid := 1000 |}.

Lemma edit_late k ctime nsec u :
  (k <= u)%nat → @now (edit_at k ctime nsec) u = view_at ctime nsec edited_text.
Proof. intros Hle. simpl. by rewrite (proj2 (Nat.ltb_ge _ _) Hle). Qed.

(** The store the daemon starts with, having read alice's key. *)
Definition stale_store (ids : SourceIdentities) : KeyStore :=
  MkStore host allowed (merge_keys [MkAuthorizedKey fp1] [MkAuthorizedKey fp1; MkAuthorizedKey fp2])
    ids false.

(** Where the cached identities are those of the edited file, no request ever
    notices the edit. *)
Lemma stale_forever k ctime nsec ids u :
  (k <= u)%nat →
  ids = MkIdentities (identity_at (view_at ctime nsec edited_text) host)
          (identity_at (view_at ctime nsec edited_text) allowed) →
  @refresh_if_changed (edit_at k ctime nsec) _ (stale_store ids, u)
    = (Ok Unchanged, (stale_store ids, S (S u))).
Proof.
  intros Hle ->. rewrite refresh_run. unfold observed_at. rewrite !edit_late by (simpl; lia).
  unfold looks_unchanged. simpl. by rewrite bool_decide_eq_true_2.
Qed.

(** The start reads the identities after the files ([KeyStore::load]), so an
    edit between the two is never noticed: there is a run in which the
    administrator key that the daemon read was revoked before its start ended,
    the kernel shows the edit to every later look, and yet every later request
    finds nothing to do and keeps accepting the revoked key as an administrator's. *)
Theorem start_can_miss_a_revocation :
  ∃ (K : Kernel) st t,
    @store_load K _ host allowed 0%nat = (Ok st, t) ∧
    authenticate (snapshot st) "alice" = Some (MkPrincipal fp1 Admin) ∧
    ∀ u, (t <= u)%nat →
      keys_from host (source_at (now u) host) = Some [MkAuthorizedKey fp2] ∧
      @refresh_if_changed K _ (st, u) = (Ok Unchanged, (st, S (S u))).
Proof.
  exists (edit_at 20 9 9).
  exists (stale_store (MkIdentities (identity_at (view_at 9 9 edited_text) host)
                                    (identity_at (view_at 9 9 edited_text) allowed))), 22%nat.
  split_and!; [vm_compute; reflexivity..|]. intros u Hu. rewrite edit_late by lia.
  split; [vm_compute; reflexivity|]. apply stale_forever; [lia|done].
Qed.

(** An identity keeps only the nanoseconds of the status-change time
    ([observe_identity] takes [ctime_nsec] alone), so an edit of the same length a
    whole number of seconds later looks like no change: there is a run in which
    the kernel stamps every change, the administrator key is revoked long after
    the start, and every later request finds nothing to do and keeps accepting
    it. *)
Theorem whole_seconds_are_invisible :
  ∃ (K : Kernel) st t,
    (∀ p, @changes_are_stamped K p) ∧
    @store_load K _ host allowed 0%nat = (Ok st, t) ∧
    authenticate (snapshot st) "alice" = Some (MkPrincipal fp1 Admin) ∧
    ∀ u, (t + 100 <= u)%nat →
      keys_from host (source_at (now u) host) = Some [MkAuthorizedKey fp2] ∧
      @refresh_if_changed K _ (st, u) = (Ok Unchanged, (st, S (S u))).
Proof.
  exists (edit_at 122 9 8).
  exists (stale_store (MkIdentities (identity_at (view_at 9 8 edited_text) host)
                                    (identity_at (view_at 9 8 edited_text) allowed))), 22%nat.
  split_and!; [|vm_compute; reflexivity..|].
  - intros p t1 t2 t3 Hle. simpl.
    destruct (Nat.ltb t1 122) eqn:H1, (Nat.ltb t2 122) eqn:H2, (Nat.ltb t3 122) eqn:H3;
      try done; rewrite ?Nat.ltb_lt, ?Nat.ltb_ge in *; try lia; unfold source_at; simpl;
      unfold files; (case_bool_decide; [by intros (_ & _ & ? & _)|done]).
  - intros u Hu. rewrite edit_late by lia.
    split; [vm_compute; reflexivity|]. apply stale_forever; [lia|done].
Qed.

End Samples.
End KeyRefresh.
