(* ===== verification/Paths.v ===== *)
(** * Paths and directories ([paths.rs])

    The fixed locations under the XDG roots, and the directories the daemon makes
    and validates at start.  Other processes may change the directories between
    two calls, so each system call gets its own answer from the kernel; [p_made]
    records what the daemon itself changed. *)

From S2P Require Import Prelude Text PathNames Toml Idents FileSystem Auth.

Module Paths.
Import Auth.

(** The text of a path. *)
Fixpoint path_text (p : path) : string :=
  match p with
  | PRoot => "/"
  | PEmpty => ""
  | PJoin PRoot name => "/" +:+ name
  | PJoin PEmpty name => name
  | PJoin dir name => path_text dir +:+ "/" +:+ name
  end.

Record t := MkPaths
  { config_dir : path; config_file : path; allowed_keys_file : path; data_dir : path;
    sandboxes_root : path; registry_lock : path; subid_leases_root : path; state_dir : path;
    host_key : path; state_lock : path; runtime_dir : path }.

Definition from_roots (config_dir data_dir state_dir : path) : t :=
  {| config_file := PJoin config_dir "config.toml";
     allowed_keys_file := PJoin config_dir "allowed_keys";
     sandboxes_root := PJoin data_dir "sandboxes";
     registry_lock := PJoin data_dir "registry.lock";
     subid_leases_root := PJoin data_dir "subid-leases";
     host_key := PJoin state_dir "host_key";
     state_lock := PJoin state_dir "lock";
     runtime_dir := PJoin state_dir "runtime";
     config_dir := config_dir; data_dir := data_dir; state_dir := state_dir |}.

Record PathError := MkPathError
  { message : string; error_path : option path; source : option io_error }.

Definition PREFIX : string := "shbox".

Definition xdg_unavailable (variable : string) : PathError :=
  MkPathError (variable +:+ " is not set; cannot resolve the shbox " +:+ PREFIX +:+ " directories")
    None None.
Definition create_error (p : path) (source : io_error) : PathError :=
  MkPathError "failed to create shbox directory" (Some p) (Some source).
Definition stat_error (p : path) (source : io_error) : PathError :=
  MkPathError "failed to inspect shbox path" (Some p) (Some source).
Definition unsafe_path (p : path) (reason : string) : PathError :=
  MkPathError ("unsafe shbox path: " +:+ reason) (Some p) None.

Definition display `{Host} (e : PathError) : string :=
  message e
    +:+ match error_path e with Some p => ": " +:+ path_text p | None => "" end
    +:+ match source e with Some err => ": " +:+ io_display err | None => "" end.

(** The [xdg] crate's answers for the [shbox] prefix, and the environment. *)
Class XdgEnvironment := {
  get_config_home : option path;
  get_data_home : option path;
  get_state_home : option path;
  var_HOME : option string }.

Definition resolve `{XdgEnvironment} : result PathError t :=
  config_root ← ok_or (xdg_unavailable "XDG_CONFIG_HOME (~/.config)") get_config_home;
  data_root ← ok_or (xdg_unavailable "XDG_DATA_HOME (~/.local/share)") get_data_home;
  state_root ← ok_or (xdg_unavailable "XDG_STATE_HOME (~/.local/state)") get_state_home;
  mret (from_roots config_root data_root state_root).

Definition home_dir `{XdgEnvironment} : result PathError string :=
  ok_or (xdg_unavailable "HOME")
    (home ← var_HOME; if bool_decide (home = "") then None else Some home).

(** ** Directories *)

Inductive made :=
| Mkdir (p : path)
| Chmod (p : path) (mode : Z)
| Rmdir (p : path)
| RemoveFile (p : path)
| RemoveTree (p : path).

Class DirKernel := {
  lstat_at : nat → path → result io_error metadata;
  mkdir_at : nat → path → result io_error unit;
  chmod_at : nat → path → Z → result io_error unit;
  rmdir_at : nat → path → result io_error unit;
  remove_file_at : nat → path → result io_error unit;
  remove_tree_at : nat → path → result io_error unit;
  geteuid : Z }.

Record dir_state := MkDirs { p_clock : nat; p_made : list made }.

Section dirs.
Context `{DirKernel}.

Notation D := (M dir_state PathError).

Definition lstat {E} (p : path) : M dir_state E (result io_error metadata) := fun s =>
  (Ok (lstat_at (p_clock s) p), MkDirs (S (p_clock s)) (p_made s)).
(** A call that changes the file system; it is recorded when it succeeds. *)
Definition change (m : made) (r : result io_error unit) : M dir_state io_error unit := fun s =>
  (r, MkDirs (S (p_clock s)) (if is_ok r then p_made s ++ [m] else p_made s)).
Definition create_dir (p : path) : M dir_state io_error unit := fun s =>
  change (Mkdir p) (mkdir_at (p_clock s) p) s.
Definition set_permissions (p : path) (mode : Z) : M dir_state io_error unit := fun s =>
  change (Chmod p mode) (chmod_at (p_clock s) p mode) s.

Definition remove_dir (p : path) : M dir_state io_error unit := fun s =>
  change (Rmdir p) (rmdir_at (p_clock s) p) s.
Definition remove_file (p : path) : M dir_state io_error unit := fun s =>
  change (RemoveFile p) (remove_file_at (p_clock s) p) s.
Definition remove_dir_all (p : path) : M dir_state io_error unit := fun s =>
  change (RemoveTree p) (remove_tree_at (p_clock s) p) s.

Definition validate_dir (p : path) : D unit :=
  found ← lstat p;
  match found with
  | Err err => fail (stat_error p err)
  | Ok md =>
      if negb (is_directory (md_mode md)) then fail (unsafe_path p "not a directory")
      else if negb (md_uid md =? geteuid) then fail (unsafe_path p "not owned by the daemon user")
      else if negb (Z.land (md_mode md) 18 =? 0) then fail (unsafe_path p "group or world writable")
      else mret tt
  end.

(** The first loop of [ensure_dir]: the missing suffix of the path's ancestors,
    in the order they were pushed. *)
Fixpoint missing_dirs (p current : path) (missing : list path) : D (list path) :=
  found ← lstat current;
  match found with
  | Ok _ => mret missing
  | Err err =>
      if errno_is err ENOENT then
        match current with
        | PJoin up _ => missing_dirs p up (missing ++ [current])
        | _ => fail (create_error p (IoOther "no existing parent"))
        end
      else fail (create_error p err)
  end.

(** The second loop. *)
Fixpoint create_dirs (p : path) (dirs : list path) : D unit :=
  match dirs with
  | [] => mret tt
  | dir :: rest =>
      _ ← mapE (create_error p) (create_dir dir);
      _ ← mapE (create_error p) (set_permissions dir 448);
      create_dirs p rest
  end.

Definition ensure_dir (p : path) : D unit :=
  missing ← missing_dirs p p [];
  _ ← create_dirs p (reverse missing);
  validate_dir p.

Definition ensure (paths : t) : D unit :=
  found ← lstat (config_dir paths);
  _ ← match found with
      | Ok _ => validate_dir (config_dir paths)
      | Err err =>
          if errno_is err ENOENT then mret tt else fail (stat_error (config_dir paths) err)
      end;
  _ ← ensure_dir (data_dir paths);
  _ ← ensure_dir (sandboxes_root paths);
  _ ← ensure_dir (subid_leases_root paths);
  _ ← ensure_dir (state_dir paths);
  ensure_dir (runtime_dir paths).

(** ** What start-up guarantees *)

(** Some call between [t] and [t'] saw a private directory of the daemon. *)
Definition private_dir (t t' : nat) (p : path) : Prop :=
  ∃ u md, (t <= u < t')%nat ∧ lstat_at u p = Ok md ∧ is_directory (md_mode md) = true ∧
    md_uid md = geteuid ∧ Z.land (md_mode md) 18 = 0.

(** [missing], from a path upwards, is the run of its ancestors that no call had
    found; the next one up existed. *)
Fixpoint missing_above (p : path) (missing : list path) : Prop :=
  match missing with
  | [] => True
  | q :: rest => q = p ∧ match p with PJoin up _ => missing_above up rest | _ => False end
  end.

(** What making [dirs] changes: each directory, then its mode. *)
Definition made_dirs (dirs : list path) : list made :=
  dirs ≫= (fun d => [Mkdir d; Chmod d 448]).

(** [p] or one of its ancestors. *)
Fixpoint on_path (q p : path) : Prop :=
  q = p ∨ match p with PJoin up _ => on_path q up | _ => False end.

Lemma lstat_run {E} p s :
  (lstat p : M dir_state E _) s = (Ok (lstat_at (p_clock s) p), MkDirs (S (p_clock s)) (p_made s)).
Proof. done. Qed.

Lemma lstat_Ok {E} p s r s' :
  (lstat p : M dir_state E _) s = (Ok r, s') →
  r = lstat_at (p_clock s) p ∧ s' = MkDirs (S (p_clock s)) (p_made s).
Proof. rewrite lstat_run. by intros [= <- <-]. Qed.

Lemma validate_dir_Ok p s s' :
  validate_dir p s = (Ok tt, s') →
  private_dir (p_clock s) (p_clock s') p ∧ p_made s' = p_made s ∧ (p_clock s <= p_clock s')%nat.
Proof.
  unfold validate_dir. intros Hr. apply bind_Ok in Hr as (r & s1 & [-> ->]%lstat_Ok & Hr).
  destruct (lstat_at _ _) as [md|] eqn:Hmd; [|done].
  destruct (is_directory _) eqn:?; [|done]. destruct (md_uid md =? _) eqn:?; [|done].
  destruct (Z.land _ _ =? 0) eqn:?; [|done]. apply ret_Ok in Hr as [_ ->]. bool_to_prop. cbn.
  split_and!; [|done|lia]. exists (p_clock s), md. split_and!; (done || lia).
Qed.

Lemma missing_dirs_Ok p current missing s all s' :
  missing_dirs p current missing s = (Ok all, s') →
  ∃ more, all = missing ++ more ∧ missing_above current more ∧ p_made s' = p_made s ∧
    (p_clock s <= p_clock s')%nat.
Proof.
  revert missing s; induction current as [| |up IH name]; intros missing s Hr; cbn in Hr;
    apply bind_Ok in Hr as (r & s1 & [-> ->]%lstat_Ok & Hr);
    destruct (lstat_at _ _) as [md|err]; try destruct (errno_is err ENOENT); try done.
  1,2,3: apply ret_Ok in Hr as [-> ->]; exists []; rewrite app_nil_r; cbn; split_and!; (done || lia).
  apply IH in Hr as (more & -> & Hmore & Hmade & Hclock).
  exists (PJoin up name :: more). rewrite <-app_assoc. cbn in *. split_and!; (done || lia).
Qed.

Lemma create_dirs_Ok p dirs s s' :
  create_dirs p dirs s = (Ok tt, s') →
  p_made s' = p_made s ++ made_dirs dirs ∧ (p_clock s <= p_clock s')%nat.
Proof.
  revert s; induction dirs as [|d dirs IH]; intros s Hr; cbn in Hr.
  - apply ret_Ok in Hr as [_ ->]. cbn. rewrite app_nil_r. split; (done || lia).
  - apply bind_Ok in Hr as ([] & s1 & Hm%mapE_Ok & Hr). apply bind_Ok in Hr as ([] & s2 & Hc%mapE_Ok & Hr).
    unfold create_dir, set_permissions, change in Hm, Hc. injection Hm as Hm <-. injection Hc as Hc <-.
    rewrite Hm, Hc in Hr. apply IH in Hr as [Hmade Hclock]. cbn in *.
    split; [by rewrite Hmade, <-!app_assoc|lia].
Qed.

Lemma private_dir_weaken t1 t1' t2 t2' p :
  (t2 <= t1)%nat → (t1' <= t2')%nat → private_dir t1 t1' p → private_dir t2 t2' p.
Proof. intros ?? (u & md & ? & ?). exists u, md. split; [lia|done]. Qed.

Lemma ensure_dir_Ok p s s' :
  ensure_dir p s = (Ok tt, s') →
  private_dir (p_clock s) (p_clock s') p ∧ (p_clock s <= p_clock s')%nat ∧
  ∃ missing, missing_above p missing ∧ p_made s' = p_made s ++ made_dirs (reverse missing).
Proof.
  unfold ensure_dir. intros Hr. apply bind_Ok in Hr as (all & s1 & Hmiss & Hr).
  apply bind_Ok in Hr as ([] & s2 & Hcreate & Hval).
  apply missing_dirs_Ok in Hmiss as (more & -> & Habove & Hm1 & Hc1).
  apply create_dirs_Ok in Hcreate as [Hm2 Hc2]. apply validate_dir_Ok in Hval as (Hp & Hm3 & Hc3).
  split_and!; [eapply private_dir_weaken; [..|exact Hp]; lia|lia|].
  exists more. split; [done|]. by rewrite Hm3, Hm2, Hm1.
Qed.

Lemma missing_above_on_path p missing q : missing_above p missing → q ∈ missing → on_path q p.
Proof.
  revert missing; induction p as [| |up IH name]; intros [|q' missing]; cbn; try (by intros _ ?%not_elem_of_nil);
    try (by intros [_ []]).
  intros [-> Hm] [-> |Hq]%elem_of_cons; [by left|]. right. by eapply IH.
Qed.

(** The five directories the daemon writes to. *)
Definition written (paths : t) : list path :=
  [data_dir paths; sandboxes_root paths; subid_leases_root paths; state_dir paths; runtime_dir paths].

Definition made_for (dirs : list path) (roots : list path) : Prop :=
  ∀ d, d ∈ dirs → ∃ root, root ∈ roots ∧ on_path d root.

(** A start-up that passes [Paths::ensure] saw each of the five directories it
    writes to as the daemon's own and private, and the configuration directory as
    absent or private; all it changed was to make missing ancestors of the five, each
    with mode 0700. *)
Theorem startup_directories_are_private paths s s' :
  ensure paths s = (Ok tt, s') →
  Forall (private_dir (p_clock s) (p_clock s')) (written paths) ∧
  (lstat_at (p_clock s) (config_dir paths) = Err (Errno ENOENT) ∨
   private_dir (p_clock s) (p_clock s') (config_dir paths)) ∧
  ∃ dirs, p_made s' = p_made s ++ made_dirs dirs ∧ made_for dirs (written paths).
Proof.
  unfold ensure. intros Hr. apply bind_Ok in Hr as (r & s0 & [-> ->]%lstat_Ok & Hr).
  apply bind_Ok in Hr as ([] & s1 & Hconf & Hr).
  do 4 (apply bind_Ok in Hr as ([] & ? & ?%ensure_dir_Ok & Hr)). apply ensure_dir_Ok in Hr.
  destruct_and!. repeat match goal with H : ∃ _, _ |- _ => destruct H as (? & ? & ?) end.
  assert (Hc : p_made s1 = p_made s ∧ (p_clock s < p_clock s1)%nat ∧
    (lstat_at (p_clock s) (config_dir paths) = Err (Errno ENOENT) ∨
     private_dir (p_clock s) (p_clock s1) (config_dir paths))).
  { destruct (lstat_at _ (config_dir paths)) as [md|err] eqn:Hl.
    - apply validate_dir_Ok in Hconf as (Hp & Hm & Hk). cbn in *. split_and!; [done|lia|].
      right. eapply private_dir_weaken; [..|exact Hp]; lia.
    - destruct (errno_is err ENOENT) eqn:He; [|done]. apply ret_Ok in Hconf as [_ ->]. cbn.
      split_and!; [done|lia|]. left. unfold errno_is in He. destruct err; [|done].
      bool_to_prop. by subst. }
  destruct Hc as (Hm & Hk & Hconf'). split_and!.
  - repeat first [apply Forall_cons_2|apply Forall_nil_2];
      (eapply private_dir_weaken; [..|eassumption]; lia).
  - destruct Hconf' as [?|Hp]; [by left|right]. eapply private_dir_weaken; [..|exact Hp]; lia.
  - eexists (reverse _ ++ reverse _ ++ reverse _ ++ reverse _ ++ reverse _). split.
    + unfold made_dirs. rewrite !bind_app, !app_assoc. by repeat (etransitivity; [eassumption|]; f_equal).
    + intros d Hd. rewrite !elem_of_app, !elem_of_reverse in Hd. unfold written.
      destruct Hd as [Hd|[Hd|[Hd|[Hd|Hd]]]]; eapply missing_above_on_path in Hd; try eassumption;
        eexists; (split; [|exact Hd]); set_solver.
Qed.
End dirs.

(** A kernel whose only missing directory is the runtime directory, once. *)
Definition fresh_state : DirKernel := {|
  lstat_at := fun u p => if bool_decide (u = 10%nat) then Err (Errno ENOENT)
                         else Ok (MkMetadata 16832 1000 0 0 0 0 0);
  mkdir_at := fun _ _ => Ok tt; chmod_at := fun _ _ _ => Ok tt; rmdir_at := fun _ _ => Ok tt;
  remove_file_at := fun _ _ => Ok tt; remove_tree_at := fun _ _ => Ok tt; geteuid := 1000 |}.

Definition sample_roots : t :=
  from_roots (PJoin PRoot "config") (PJoin PRoot "data") (PJoin PRoot "state").

Lemma startup_directories_are_private_witness :
  ∃ s', @ensure fresh_state sample_roots (MkDirs 0 []) = (Ok tt, s') ∧
    p_made s' = [Mkdir (runtime_dir sample_roots); Chmod (runtime_dir sample_roots) 448] ∧
    Forall (@private_dir fresh_state 0%nat (p_clock s')) (written sample_roots).
Proof.
  eexists. split; [vm_compute; reflexivity|]. split; [reflexivity|].
  edestruct (@startup_directories_are_private fresh_state sample_roots (MkDirs 0 [])) as [Hp _].
  - vm_compute; reflexivity.
  - exact Hp.
Defined.
End Paths.
