(* ===== verification/Storage.v ===== *)
(** * The durable sandbox registry ([sandbox/storage.rs])

    One directory per sandbox, holding [metadata.toml] and [workspace].  All
    traversal is descriptor-relative and follows no link. *)

From S2P Require Import Prelude Text Toml Idents Metadata FileSystem.

Module Storage.

Definition METADATA_NAME : string := "metadata.toml".
Definition WORKSPACE_NAME : string := "workspace".
Definition TEMP_PREFIX : string := ".metadata.toml.tmp".

Inductive Entry :=
| Absent
| Active (m : Metadata.t)
| Deleting (m : Metadata.t)
| Corrupt (reason : string).

Record ScanResult := MkScan { entries_found : list (string * Entry); unknown_entries : Z }.

Inductive Error :=
| AlreadyExists (path : string)
| CorruptEntry (path reason : string)
| Io (operation path : string) (source : io_error).

Section storage.
Context `{TomlCrate} `{UnicodeTables} `{Host}.
(** The path of the registry root. *)
Context (root_path : string).

Abbreviation St := (M world Error).

Definition entry_path (id : string) : string := (root_path +:+ "/" +:+ id).
Definition workspace_path (id : string) : string := (entry_path id +:+ "/workspace").

Definition io (operation id : string) (source : io_error) : Error :=
  Io operation (entry_path id) source.
Definition io_path (operation : string) (source : io_error) : Error :=
  Io operation root_path source.

Definition open_root : St fd := mapE (io_path "open sandbox root") open_directory_path.

Definition trip_storage (point : FaultPoint) (id : string) : St unit :=
  mapE (io "injected storage fault" id) (trip point).

(** [Storage::sync_directory]. *)
Definition sync_at (point : FaultPoint) : M world io_error unit :=
  _ ← trip point;
  sync_directory.

(** The loop over the directory's names. *)
Definition known_names (names : list string) : bool :=
  forallb (fun name => bool_decide (name = METADATA_NAME) || bool_decide (name = WORKSPACE_NAME))
    names.

(** The checks on [workspace] once the metadata is decoded. *)
Definition inspect_workspace (id : string) (d : fd) (metadata : Metadata.t) : St Entry :=
  r ← tryM (stat_at d WORKSPACE_NAME);
  match r with
  | Err source =>
      if errno_is source ENOENT && Metadata.is_deleting metadata then mret (Deleting metadata)
      else if errno_is source ENOENT then mret (Corrupt "workspace is missing")
      else fail (io "stat sandbox workspace" id source)
  | Ok workspace_stat =>
      if negb (is_directory (st_mode workspace_stat))
      then mret (Corrupt "workspace is not a directory")
      else if negb (st_uid workspace_stat =? euid)
      then mret (Corrupt "workspace is not daemon-owned")
      else if group_or_world_writable (st_mode workspace_stat)
      then mret (Corrupt "workspace is group or world writable")
      else mret (match Metadata.state metadata with
                 | Metadata.Active => Active metadata
                 | Metadata.Deleting => Deleting metadata
                 end)
  end.

(** The checks on [metadata.toml]. *)
Definition inspect_metadata (id : string) (d : fd) : St Entry :=
  r ← tryM (stat_at d METADATA_NAME);
  match r with
  | Err source =>
      if errno_is source ENOENT then mret (Corrupt "metadata.toml is missing")
      else fail (io "stat sandbox metadata" id source)
  | Ok metadata_stat =>
      if negb (is_regular (st_mode metadata_stat))
      then mret (Corrupt "metadata.toml is not a regular file")
      else if negb (st_uid metadata_stat =? euid)
      then mret (Corrupt "metadata.toml is not daemon-owned")
      else if negb (mode_bits (st_mode metadata_stat) =? 384)
      then mret (Corrupt "metadata.toml does not have mode 0600")
      else
        bytes ← mapE (io "read sandbox metadata" id) (read_file_at d METADATA_NAME Metadata.MAX_BYTES);
        match Metadata.decode bytes id with
        | Ok metadata => inspect_workspace id d metadata
        | Err error => mret (Corrupt (Metadata.display error))
        end
  end.

Definition inspect_directory (id : string) (d : fd) : St Entry :=
  directory_stat ← mapE (io "stat sandbox directory" id) (fstat d);
  if negb (is_directory (st_mode directory_stat))
  then mret (Corrupt "sandbox entry is not a directory")
  else if negb (st_uid directory_stat =? euid)
  then mret (Corrupt "sandbox directory is not daemon-owned")
  else if group_or_world_writable (st_mode directory_stat)
  then mret (Corrupt "sandbox directory is group or world writable")
  else
    names ← mapE (io "scan sandbox directory" id) (read_names d);
    if negb (known_names names)
    then mret (Corrupt "sandbox directory contains an unknown management entry")
    else inspect_metadata id d.

Definition inspect (id : string) : St Entry :=
  root ← open_root;
  r ← tryM (open_directory_at root id);
  match r with
  | Ok directory => inspect_directory id directory
  | Err source =>
      if errno_is source ENOENT then mret Absent
      else if errno_is source ELOOP then mret (Corrupt "sandbox directory is a symlink")
      else if errno_is source ENOTDIR then mret (Corrupt "sandbox entry is not a directory")
      else fail (io "open sandbox directory" id source)
  end.

(** One name of [scan]: [None] is an unknown management entry. *)
Definition scan_one (root : fd) (name : string) : St (option (string * Entry)) :=
  if negb (utf8_valid name) then mret None
  else
    match Id.parse name with
    | Err _ => mret None
    | Ok id =>
        r ← tryM (open_directory_at root name);
        entry ← match r with
                | Ok directory => inspect_directory id directory
                | Err source =>
                    if errno_is source ELOOP then mret (Corrupt "sandbox directory is a symlink")
                    else if errno_is source ENOTDIR
                    then mret (Corrupt "sandbox entry is not a directory")
                    else fail (io "open sandbox directory" id source)
                end;
        mret (Some (id, entry))
    end.

Fixpoint scan_names (root : fd) (names : list string) : St ScanResult :=
  match names with
  | [] => mret (MkScan [] 0)
  | name :: names' =>
      found ← scan_one root name;
      rest ← scan_names root names';
      mret (match found with
            | Some b => MkScan (b :: entries_found rest) (unknown_entries rest)
            | None => MkScan (entries_found rest) (unknown_entries rest + 1)
            end)
  end.

Definition scan : St ScanResult :=
  root ← open_root;
  names ← mapE (io_path "scan sandbox root") (read_names root);
  scan_names root names.

Definition metadata_temp_name (counter : Z) : string :=
  (TEMP_PREFIX +:+ "-" +:+ fmt_dec pid +:+ "-" +:+ fmt_dec counter).

(** The closure of [write_metadata_at]. *)
Definition write_metadata_steps (d : fd) (name : string) (metadata : Metadata.t)
    : M world io_error unit :=
  _ ← trip MetadataTempCreate;
  _ ← create_file_at d name 384;
  _ ← trip MetadataWrite;
  _ ← write_all d name (Metadata.encode metadata);
  _ ← trip MetadataFileSync;
  _ ← sync_all;
  _ ← trip MetadataRename;
  rename_at d name METADATA_NAME.

Definition write_metadata_at (d : fd) (metadata : Metadata.t) : M world io_error unit :=
  counter ← fetch_add_counter;
  let name := metadata_temp_name counter in
  r ← tryM (write_metadata_steps d name metadata);
  match r with
  | Ok tt => mret tt
  | Err e =>
      _ ← tryM (unlink_at d name UnlinkFile);
      fail e
  end.

Definition create_active (id owner : string) : St Metadata.t :=
  root ← open_root;
  _ ← trip_storage CreateSandboxDirectory id;
  r ← tryM (mkdir_at root id 448);
  match r with
  | Err source =>
      if errno_is source EEXIST then fail (AlreadyExists (entry_path id))
      else fail (io "create sandbox directory" id source)
  | Ok tt =>
      directory ← mapE (io "open new sandbox directory" id) (open_directory_at root id);
      _ ← trip_storage CreateWorkspace id;
      _ ← mapE (io "create sandbox workspace" id) (mkdir_at directory WORKSPACE_NAME 448);
      let metadata := Metadata.active id owner in
      _ ← mapE (io "publish sandbox metadata" id) (write_metadata_at directory metadata);
      _ ← mapE (io "sync sandbox directory" id) (sync_at MetadataParentSync);
      _ ← mapE (io "sync sandbox root" id) (sync_at RegistryParentSync);
      mret metadata
  end.

(** [write_metadata] once the current record is known. *)
Definition replace_metadata (directory : fd) (current metadata : Metadata.t) : St unit :=
  let id := Metadata.id metadata in
  if negb (bool_decide (Metadata.owner current = Metadata.owner metadata))
  then fail (CorruptEntry (entry_path id) "metadata owner cannot be changed")
  else if bool_decide (Metadata.state current = Metadata.Deleting)
          && bool_decide (Metadata.state metadata = Metadata.Active)
  then fail (CorruptEntry (entry_path id) "Deleting metadata cannot return to Active")
  else
    _ ← mapE (io "replace sandbox metadata" id) (write_metadata_at directory metadata);
    mapE (io "sync sandbox metadata" id) (sync_at MetadataParentSync).

Definition write_metadata (metadata : Metadata.t) : St unit :=
  let id := Metadata.id metadata in
  root ← open_root;
  directory ← mapE (io "open sandbox directory" id) (open_directory_at root id);
  entry ← inspect_directory id directory;
  match entry with
  | Active current | Deleting current => replace_metadata directory current metadata
  | Absent => fail (CorruptEntry (entry_path id) "sandbox disappeared while updating metadata")
  | Corrupt reason => fail (CorruptEntry (entry_path id) reason)
  end.

(** The loop of [remove_children] over the names read at its start;
    [recurse] is the recursive call on a subdirectory. *)
Fixpoint remove_loop (recurse : fd → M world io_error unit) (d : fd) (names : list string)
    : M world io_error unit :=
  match names with
  | [] => mret tt
  | name :: names' =>
      if bool_decide (name = METADATA_NAME) then remove_loop recurse d names'
      else
        r ← tryM (stat_at d name);
        match r with
        | Err source =>
            if errno_is source ENOENT then remove_loop recurse d names' else fail source
        | Ok stat =>
            _ ← trip DeleteEntry;
            _ ← (if is_directory (st_mode stat) then
                   child ← open_directory_at d name;
                   _ ← recurse child;
                   _ ← trip DeleteEntry;
                   unlink_at d name AtRemovedir
                 else unlink_at d name UnlinkFile);
            remove_loop recurse d names'
        end
  end.

(** [remove_children]; the fuel bounds the nesting depth. *)
Fixpoint remove_children (fuel : nat) (d : fd) : M world io_error unit :=
  match fuel with
  | O => fail (IoOther "directory nesting exceeds the tree")
  | S fuel' =>
      names ← read_names d;
      remove_loop (remove_children fuel') d names
  end.

(** The height of a tree: enough fuel for any directory in it. *)
Fixpoint height (n : node) : nat :=
  match n with
  | NDir _ _ es => S (foldr (fun b acc => Nat.max (height b.2) acc) 0%nat es)
  | _ => 0%nat
  end.

Definition tree_height (t : option node) : nat :=
  match t with Some n => height n | None => 0%nat end.

Definition remove_tree (id : string) : St unit :=
  root ← open_root;
  r ← tryM (open_directory_at root id);
  match r with
  | Err source =>
      if errno_is source ENOENT then mret tt
      else fail (io "open sandbox for deletion" id source)
  | Ok directory =>
      w ← getS;
      _ ← mapE (io "remove sandbox contents" id)
            (remove_children (tree_height (w_root w)) directory);
      _ ← mapE (io "remove sandbox metadata" id) (trip DeleteEntry);
      _ ← mapE (io "remove sandbox metadata" id) (unlink_at directory METADATA_NAME UnlinkFile);
      _ ← mapE (io "remove sandbox directory" id) (unlink_at root id AtRemovedir);
      mapE (io "sync sandbox root after deletion" id) (sync_at DeleteRootSync)
  end.

(** [impl Display for Error]. *)
Definition display (e : Error) : string :=
  match e with
  | AlreadyExists path => ("sandbox entry already exists: " +:+ path)
  | CorruptEntry path reason => ("corrupt sandbox entry " +:+ path +:+ ": " +:+ reason)
  | Io operation path source => (operation +:+ " " +:+ path +:+ ": " +:+ io_display source)
  end.
End storage.

Section proofs.
Context `{TomlCrate} `{UnicodeTables} `{Host}.
Context (root_path : string).

(** ** Inspection reads only, and reports what is there *)

Lemma read_only_open_root : read_only (open_root root_path).
Proof. unfold open_root. read_only_tac. Qed.
#[local] Hint Resolve read_only_open_root : read_only.

Lemma read_only_inspect_workspace id d m : read_only (inspect_workspace root_path id d m).
Proof. unfold inspect_workspace. read_only_tac. Qed.
#[local] Hint Resolve read_only_inspect_workspace : read_only.

Lemma read_only_inspect_metadata id d : read_only (inspect_metadata root_path id d).
Proof. unfold inspect_metadata. read_only_tac. Qed.
#[local] Hint Resolve read_only_inspect_metadata : read_only.

Lemma read_only_inspect_directory id d : read_only (inspect_directory root_path id d).
Proof. unfold inspect_directory. read_only_tac. Qed.
#[local] Hint Resolve read_only_inspect_directory : read_only.

Lemma read_only_inspect id : read_only (inspect root_path id).
Proof. unfold inspect. read_only_tac. Qed.

Lemma read_only_scan_one root name : read_only (scan_one root_path root name).
Proof. unfold scan_one. read_only_tac. Qed.
#[local] Hint Resolve read_only_scan_one : read_only.

Lemma read_only_scan_names root names : read_only (scan_names root_path root names).
Proof. induction names as [|name names IH]; simpl; read_only_tac. Qed.
#[local] Hint Resolve read_only_scan_names : read_only.

Lemma read_only_scan : read_only (scan root_path).
Proof. unfold scan. read_only_tac. Qed.

(** The metadata stored for a sandbox. *)
Definition metadata_in (id : string) (o : option node) : option Metadata.t :=
  match o with
  | Some (NFile _ _ data) =>
      match Metadata.decode data id with Ok m => Some m | Err _ => None end
  | _ => None
  end.

Definition metadata_of (t : option node) (id : string) : option Metadata.t :=
  metadata_in id (t ≫= node_at [id; METADATA_NAME]).

(** A safe directory: the daemon's own, writable by nobody else. *)
Definition safe_dir (n : node) : Prop :=
  ∃ mode es, n = NDir mode euid es ∧ group_or_world_writable (Z.lor S_IFDIR mode) = false.

(** What a valid registry entry looks like on disk. *)
Record entry_valid (t : option node) (id : string) (m : Metadata.t) : Prop := MkValid {
  ev_dir : ∃ n, t ≫= node_at [id] = Some n ∧ safe_dir n;
  ev_names : ∃ mode u es, t ≫= node_at [id] = Some (NDir mode u es)
    ∧ ∀ name, name ∈ es.*1 → name = METADATA_NAME ∨ name = WORKSPACE_NAME;
  ev_metadata : ∃ mode data, t ≫= node_at [id; METADATA_NAME] = Some (NFile mode euid data)
    ∧ mode_bits (Z.lor S_IFREG mode) = 384 ∧ Metadata.decode data id = Ok m;
  ev_workspace : (∃ n, t ≫= node_at [id; WORKSPACE_NAME] = Some n ∧ safe_dir n)
    ∨ (Metadata.state m = Metadata.Deleting ∧ t ≫= node_at [id; WORKSPACE_NAME] = None);
}.

Lemma safe_dir_stat n :
  is_directory (st_mode (stat_of n)) = true → st_uid (stat_of n) = euid →
  group_or_world_writable (st_mode (stat_of n)) = false → safe_dir n.
Proof.
  intros (mode & u & es & ->)%is_directory_dir Hu Hw. simpl in *. subst. by exists mode, es.
Qed.

Lemma known_names_spec names :
  known_names names = true → ∀ name, name ∈ names → name = METADATA_NAME ∨ name = WORKSPACE_NAME.
Proof.
  unfold known_names. rewrite List.forallb_forall. intros Hk name Hin%list_elem_of_In.
  specialize (Hk _ Hin). by rewrite orb_true_iff, !bool_decide_eq_true in Hk.
Qed.

Definition reported (e : Entry) : option Metadata.t :=
  match e with Active m | Deleting m => Some m | _ => None end.

Lemma inspect_workspace_Ok id d m w e w' m' :
  inspect_workspace root_path id d m w = (Ok e, w') → reported e = Some m' →
  (∃ mode u es, w_root w ≫= node_at d = Some (NDir mode u es)) →
  m' = m ∧ e = match Metadata.state m with Metadata.Active => Active m | Metadata.Deleting => Deleting m end
  ∧ ((∃ n, w_root w ≫= node_at (d ++ [WORKSPACE_NAME]) = Some n ∧ safe_dir n)
     ∨ (Metadata.state m = Metadata.Deleting ∧ w_root w ≫= node_at (d ++ [WORKSPACE_NAME]) = None)).
Proof.
  intros Hi Hrep (mode & u & es & Hd). unfold inspect_workspace in Hi. inv_run.
  split_run; inv_run; simplify_eq/=.
  - match goal with Hs : stat_at _ _ _ = _ |- _ => apply stat_at_Ok in Hs as (n & Hn & ->) end.
    bool_to_prop.
    assert (Hsafe : safe_dir n) by by apply safe_dir_stat.
    destruct (Metadata.state m) eqn:Hst; simplify_eq/=; split_and!; eauto.
  - match goal with Hb : _ && _ = true |- _ => apply andb_true_iff in Hb as [He Hdel] end.
    apply bool_decide_eq_true in Hdel. rewrite Hdel. split_and!; [done..|]. right. split; [done|].
    by eapply stat_absent.
Qed.

Lemma inspect_directory_Ok id d w e w' m :
  inspect_directory root_path id d w = (Ok e, w') → reported e = Some m → d = [id] →
  entry_valid (w_root w) id m
  ∧ e = match Metadata.state m with Metadata.Active => Active m | Metadata.Deleting => Deleting m end.
Proof.
  intros Hi Hrep ->. unfold inspect_directory in Hi. inv_run; simplify_eq/=.
  match goal with Hs : fstat _ _ = _ |- _ =>
    apply (ro_root _ _ _ _ (read_only_fstat _)) in Hs as Hr1;
    apply fstat_Ok in Hs as (n & Hn & ->) end.
  match goal with Hs : read_names _ _ = _ |- _ =>
    apply (ro_root _ _ _ _ (read_only_read_names _)) in Hs as Hr2;
    apply read_names_Ok in Hs as (mode & u & es & Hd & ->) end.
  bool_to_prop.
  match goal with Hk : known_names _ = true |- _ => pose proof (known_names_spec _ Hk) as Hnames end.
  assert (Hsafe : safe_dir n) by by apply safe_dir_stat.
  unfold inspect_metadata in *. inv_run. split_run; inv_run; simplify_eq/=.
  match goal with Hs : stat_at _ _ _ = _ |- _ =>
    apply (ro_root _ _ _ _ (read_only_stat_at _ _)) in Hs as Hr3;
    apply stat_at_Ok in Hs as (mn & Hmn & ->) end.
  match goal with Hs : read_file_at _ _ _ _ = _ |- _ =>
    apply (ro_root _ _ _ _ (read_only_read_file _ _ _)) in Hs as Hr4;
    apply read_file_Ok in Hs as (fmode & fu & Hf) end.
  split_run; inv_run; simplify_eq/=.
  match goal with Hw : inspect_workspace _ _ _ _ ?wx = _ |- _ =>
    apply (inspect_workspace_Ok _ _ _ _ _ _ m) in Hw as (-> & -> & Hws); [|done|] end.
  - norm_roots. rewrite Hmn in Hf. simplify_eq. simpl in *. bool_to_prop. subst.
    split; [|done]. split; [by eauto|by eauto 6|by eauto 6|done].
  - norm_roots. eauto.
Qed.

(** ** Metadata writes *)

(** Entries that agree with [es0] but for temporaries and the metadata. *)
Definition kept (es0 es : entries) : Prop :=
  ∀ name, starts_with TEMP_PREFIX name = false → name ≠ METADATA_NAME →
    ent_get name es = ent_get name es0.

Definition meta_written (es0 : entries) (m : Metadata.t) (ok : bool) (es : entries) : Prop :=
  kept es0 es
  ∧ (ent_get METADATA_NAME es =
       if ok then Some (NFile 384 euid (Metadata.encode m)) else ent_get METADATA_NAME es0)
  ∧ (ok = true → NoDup es0.*1 → ∀ x, x ∈ es.*1 → x = METADATA_NAME ∨ x ∈ es0.*1).

Lemma temp_is_temp c : starts_with TEMP_PREFIX (metadata_temp_name c) = true.
Proof. unfold starts_with, metadata_temp_name. by rewrite strip_prefix_app. Qed.

Lemma temp_not_metadata c : metadata_temp_name c ≠ METADATA_NAME.
Proof. intros Heq. pose proof (temp_is_temp c) as Ht. by rewrite Heq in Ht. Qed.

Lemma kept_set es0 es c n : kept es0 es → kept es0 (ent_set (metadata_temp_name c) n es).
Proof.
  intros Hk name Ht Hm. rewrite ent_get_set_ne; [by apply Hk|].
  intros <-. by rewrite temp_is_temp in Ht.
Qed.

Lemma kept_del es0 es c : kept es0 es → kept es0 (ent_del (metadata_temp_name c) es).
Proof.
  intros Hk name Ht Hm. rewrite ent_get_del_ne; [by apply Hk|].
  intros <-. by rewrite temp_is_temp in Ht.
Qed.

Lemma write_metadata_steps_spec d es0 c m :
  hoare (dirAt d (eq es0)) (write_metadata_steps d (metadata_temp_name c) m)
    (fun r => dirAt d (meta_written es0 m (is_ok r))).
Proof.
  set (temp := metadata_temp_name c). pose proof (temp_not_metadata c) as Hne. fold temp in Hne.
  set (base := fun es => kept es0 es ∧ ent_get METADATA_NAME es = ent_get METADATA_NAME es0
    ∧ (NoDup es0.*1 → NoDup es.*1 ∧ ∀ x, x ∈ es.*1 → x = temp ∨ x ∈ es0.*1)).
  set (staged := fun data es => base es ∧ ent_get temp es = Some (NFile 384 euid data)).
  assert (Hset : ∀ n es, base es → base (ent_set temp n es)).
  { intros n es (Hk & Hm & Hn). split_and!; [by apply kept_set|by rewrite ent_get_set_ne|].
    intros Hnd. destruct (Hn Hnd) as [Hnd' Hx]. split; [by apply ent_set_NoDup|].
    intros x. rewrite ent_set_names. naive_solver. }
  assert (Hbase : base es0) by (split_and!; [done..|]; intros; by split; [|right]).
  assert (Hinit : ∀ t, dirAt d (eq es0) t → dirAt d (meta_written es0 m false) t).
  { intros t. apply dirAt_impl. by intros es <-. }
  assert (Hst : ∀ data t, dirAt d (staged data) t → dirAt d (meta_written es0 m false) t).
  { intros data t. apply dirAt_impl. by intros es [(? & ? & _) _]. }
  unfold write_metadata_steps.
  apply hoare_skip_io; [auto with read_only|auto|].
  eapply hoare_step_io with (R := dirAt d (staged EmptyString)); [|auto|].
  { eapply hoare_conseq; [apply (create_file_spec d (eq es0))|done|]. intros [] t; [|done].
    apply dirAt_impl. intros es (es1 & <- & _ & ->). split; [by apply Hset|apply ent_get_set_eq]. }
  apply hoare_skip_io; [auto with read_only|eauto|].
  eapply hoare_step_io with (R := dirAt d (staged (Metadata.encode m))); [|eauto|].
  { eapply hoare_conseq; [apply (write_all_spec d (staged EmptyString) temp (Metadata.encode m) 384 euid);
      intros es [_ ?]; by eexists|done|]. intros [] t; [|done].
    apply dirAt_impl. intros es (es1 & [Hs _] & _ & ->). split; [by apply Hset|apply ent_get_set_eq]. }
  apply hoare_skip_io; [auto with read_only|eauto|].
  apply hoare_skip_io; [unfold sync_all; auto with read_only|eauto|].
  apply hoare_skip_io; [auto with read_only|eauto|].
  eapply hoare_conseq; [apply (rename_spec d (staged (Metadata.encode m))); by intros es [_ ?]|done|].
  intros [] t; simpl; [|eauto]. apply dirAt_impl. intros es (es1 & [(Hk & _ & Hn) _] & _ & ->).
  split_and!; [|apply ent_get_set_eq|].
  - intros name Ht Hm. rewrite ent_get_set_ne by done. by apply (kept_del _ _ c).
  - intros _ Hnd x. rewrite ent_set_names. intros [->|Hx]; [by left|right].
    destruct (Hn Hnd) as [Hnd1 Hall]. pose proof (ent_del_names_ne _ _ _ Hnd1 Hx).
    apply ent_del_names in Hx. destruct (Hall x Hx); done.
Qed.

Lemma write_metadata_at_spec d es0 m :
  hoare (dirAt d (eq es0)) (write_metadata_at d m) (fun r => dirAt d (meta_written es0 m (is_ok r))).
Proof.
  unfold write_metadata_at. eapply hoare_bind with (R := fun _ => dirAt d (eq es0)).
  { eapply hoare_conseq; [apply (hoare_fetch_add (dirAt d (eq es0)))|done|].
    intros [] t; simpl; [done|]. apply dirAt_impl. by intros es <-. }
  intros c. eapply hoare_bind with (R := fun r => dirAt d (meta_written es0 m (is_ok r))).
  { apply hoare_tryM, write_metadata_steps_spec. }
  intros [[]|e]; [by intros w Hw|].
  eapply hoare_bind with (R := fun _ => dirAt d (meta_written es0 m false)); [|by intros _ w Hw].
  apply hoare_tryM. eapply hoare_conseq; [apply (unlink_spec d (meta_written es0 m false))|done|].
  intros [] t; [|done]. apply dirAt_impl. intros es (es1 & (Hk & Hm & _) & _ & ->).
  split_and!; [by apply kept_del| |done]. by rewrite ent_get_del_ne by apply temp_not_metadata.
Qed.

Lemma confined_write_metadata_at d m : confined d (write_metadata_at d m).
Proof.
  unfold write_metadata_at, write_metadata_steps, sync_all.
  pose proof (confined_create_file d). pose proof (confined_write_all d).
  pose proof (confined_rename d). pose proof (confined_unlink d). confined_tac; auto.
Qed.

Lemma open_root_Ok w d w' :
  open_root root_path w = (Ok d, w') →
  d = [] ∧ w_root w' = w_root w ∧ ∃ mode u es, w_root w = Some (NDir mode u es).
Proof.
  intros Ho. pose proof (ro_root _ _ _ _ read_only_open_root Ho) as Hr.
  unfold open_root in Ho. apply mapE_Ok, open_path_Ok in Ho as [-> Hd]. done.
Qed.

Lemma entry_valid_metadata t id m : entry_valid t id m → metadata_of t id = Some m.
Proof.
  intros [_ _ (mode & data & Hn & _ & Hd) _]. unfold metadata_of. rewrite Hn. simpl. by rewrite Hd.
Qed.

Lemma metadata_of_entries t id mode u es :
  t ≫= node_at [id] = Some (NDir mode u es) →
  metadata_of t id = metadata_in id (ent_get METADATA_NAME es).
Proof.
  intros Hd. unfold metadata_of. f_equal. exact (child_entry [id] METADATA_NAME _ _ _ _ Hd).
Qed.

Lemma metadata_in_encode `{!TomlLaws} m mode u :
  Metadata.wf m → metadata_in (Metadata.id m) (Some (NFile mode u (Metadata.encode m))) = Some m.
Proof. intros Hw. unfold metadata_in. by rewrite Metadata.decode_encode. Qed.

(** What a metadata update may do to the stored record. *)
Definition meta_step (id : string) (m : Metadata.t) (ok : bool) (t t' : option node) : Prop :=
  (∀ p, outside [id] p → t' ≫= node_at p = t ≫= node_at p)
  ∧ (t' ≫= node_at [id; WORKSPACE_NAME] = t ≫= node_at [id; WORKSPACE_NAME])
  ∧ (metadata_of t' id = metadata_of t id ∨ metadata_of t' id = Some m)
  ∧ (ok = true → metadata_of t' id = Some m).

Lemma meta_step_refl id m t : meta_step id m false t t.
Proof. split_and!; [done|done|by left|done]. Qed.

Lemma write_metadata_at_step `{!TomlLaws} m w r w' :
  Metadata.wf m → write_metadata_at [Metadata.id m] m w = (r, w') →
  (∃ mode u es, w_root w ≫= node_at [Metadata.id m] = Some (NDir mode u es)) →
  meta_step (Metadata.id m) m (is_ok r) (w_root w) (w_root w').
Proof.
  intros Hw Hr (mode & u & es & Hd).
  pose proof (write_metadata_at_spec [Metadata.id m] es m w) as Hs.
  pose proof (confined_write_metadata_at [Metadata.id m] m w) as Hc. rewrite Hr in Hs, Hc.
  cbn [fst snd] in *. destruct Hs as (mode' & u' & es' & Hd' & Hk & Hm & _); [by exists mode, u, es|].
  split_and!; [done| | |].
  - change ([Metadata.id m; WORKSPACE_NAME]) with ([Metadata.id m] ++ [WORKSPACE_NAME]).
    rewrite (child_entry _ _ _ _ _ _ Hd), (child_entry _ _ _ _ _ _ Hd'). by apply Hk.
  - rewrite (metadata_of_entries _ _ _ _ _ Hd), (metadata_of_entries _ _ _ _ _ Hd'), Hm.
    destruct (is_ok r); [right; by apply metadata_in_encode|by left].
  - intros Hok. rewrite Hok in Hm.
    rewrite (metadata_of_entries _ _ _ _ _ Hd'), Hm. by apply metadata_in_encode.
Qed.

Lemma read_only_sync_at point : read_only (sync_at point).
Proof. unfold sync_at, sync_directory. read_only_tac. Qed.

(** The rule a replacement obeys: same owner, never back from [Deleting]. *)
Definition may_replace (current m : Metadata.t) : Prop :=
  Metadata.owner current = Metadata.owner m
  ∧ (Metadata.state current = Metadata.Deleting → Metadata.state m = Metadata.Deleting).

Lemma replace_metadata_step `{!TomlLaws} current m w r w' :
  Metadata.wf m → replace_metadata root_path [Metadata.id m] current m w = (r, w') →
  (∃ mode u es, w_root w ≫= node_at [Metadata.id m] = Some (NDir mode u es)) →
  meta_step (Metadata.id m) m (is_ok r) (w_root w) (w_root w')
  ∧ (w_root w' = w_root w ∨ may_replace current m).
Proof.
  intros Hw Hr Hd. unfold replace_metadata in Hr. cbn zeta in Hr.
  destruct (bool_decide (Metadata.owner current = Metadata.owner m)) eqn:Hown.
  2:{ unfold_monad. simplify_eq/=. split; [apply meta_step_refl|by left]. }
  destruct (bool_decide (Metadata.state current = Metadata.Deleting)
    && bool_decide (Metadata.state m = Metadata.Active)) eqn:Hst.
  { unfold_monad. simplify_eq/=. split; [apply meta_step_refl|by left]. }
  cbn [negb] in Hr. split.
  2:{ right. bool_to_prop. split; [done|]. intros Hdel. rewrite Hdel in Hst.
      rewrite bool_decide_eq_true_2 in Hst by done. simpl in Hst. bool_to_prop.
      by destruct (Metadata.state m). }
  apply bind_inv in Hr as [(x & w1 & Hwr & Hr)|(e & Hwr & ->)].
  - apply mapE_Ok, write_metadata_at_step in Hwr as (Ho & Hws & Hm & Hk); [|done..].
    apply (ro_root _ _ _ _ (read_only_mapE _ _ (read_only_sync_at _))) in Hr.
    rewrite Hr. split_and!; auto.
  - unfold mapE in Hwr. destruct (write_metadata_at _ _ w) as [[]wx] eqn:Hx; simplify_eq/=.
    by apply write_metadata_at_step in Hx.
Qed.

(** [write_metadata] replaces a valid record by one it may replace, and touches
    nothing else. *)
Lemma write_metadata_step `{!TomlLaws} m w r w' :
  Metadata.wf m → write_metadata root_path m w = (r, w') →
  meta_step (Metadata.id m) m (is_ok r) (w_root w) (w_root w')
  ∧ (w_root w' = w_root w ∨ ∃ current,
       metadata_of (w_root w) (Metadata.id m) = Some current ∧ may_replace current m).
Proof.
  intros Hw Hr. unfold write_metadata in Hr. cbn zeta in Hr. set (id := Metadata.id m) in *.
  assert (Hsame : ∀ e w1, w_root w1 = w_root w → (Err e : result Error unit, w1) = (r, w') →
    meta_step id m (is_ok r) (w_root w) (w_root w') ∧ (w_root w' = w_root w ∨ ∃ current,
       metadata_of (w_root w) id = Some current ∧ may_replace current m)).
  { intros e w1 Heq [= <- <-]. rewrite Heq. split; [apply meta_step_refl|by left]. }
  apply bind_inv in Hr as [(d & w1 & Ho & Hr)|(e & Ho & ->)].
  2:{ apply (Hsame e w'); [|done]. by apply (ro_root _ _ _ _ read_only_open_root) in Ho. }
  apply open_root_Ok in Ho as (-> & Hr1 & _).
  apply bind_inv in Hr as [(d & w2 & Ho & Hr)|(e & Ho & ->)];
    pose proof (ro_root _ _ _ _ (read_only_mapE _ _ (read_only_open_at [] id)) Ho) as Hr2.
  2:{ apply (Hsame e w'); [congruence|done]. }
  apply mapE_Ok, open_directory_Ok in Ho as (-> & mode & u & es & Hd). simpl in Hr, Hd.
  apply bind_inv in Hr as [(entry & w3 & Hi & Hr)|(e & Hi & ->)];
    pose proof (ro_root _ _ _ _ (read_only_inspect_directory _ _) Hi) as Hr3.
  2:{ apply (Hsame e w'); [congruence|done]. }
  assert (Hroot : w_root w3 = w_root w) by congruence.
  destruct (reported entry) as [current|] eqn:Hrep.
  2:{ destruct entry; simplify_eq/=; eapply Hsame; done. }
  pose proof (inspect_directory_Ok _ _ _ _ _ _ Hi Hrep eq_refl) as [Hv _].
  apply entry_valid_metadata in Hv. rewrite Hr2, Hr1 in Hv.
  assert (Hr' : replace_metadata root_path [id] current m w3 = (r, w'))
    by by destruct entry; simplify_eq/=.
  apply replace_metadata_step in Hr' as [Hms Hmay]; [|done|].
  - rewrite Hroot in *. split; [done|]. destruct Hmay; [by left|right; eauto].
  - rewrite Hroot, <-Hr1. eauto.
Qed.

(** C26: a durable record changes owner never, and goes back from [Deleting] to
    [Active] never.  Whatever [write_metadata] is asked to write and wherever it
    fails, the sandbox's record afterwards is the old one or the requested one,
    the latter only if the old one has the same owner and is not being deleted
    (or the request is [Deleting] too); success means the requested record is
    in place; no other sandbox and no workspace is touched. *)
Theorem write_metadata_is_monotone `{!TomlLaws} m w r w' :
  Metadata.wf m → write_metadata root_path m w = (r, w') →
  let id := Metadata.id m in
  (∀ current, metadata_of (w_root w) id = Some current →
     metadata_of (w_root w') id = Some current
     ∨ metadata_of (w_root w') id = Some m
       ∧ Metadata.owner current = Metadata.owner m
       ∧ (Metadata.state current = Metadata.Deleting → Metadata.state m = Metadata.Deleting))
  ∧ (is_ok r = true → metadata_of (w_root w') id = Some m)
  ∧ (∀ id' p, id' ≠ id → w_root w' ≫= node_at (id' :: p) = w_root w ≫= node_at (id' :: p))
  ∧ w_root w' ≫= node_at [id; WORKSPACE_NAME] = w_root w ≫= node_at [id; WORKSPACE_NAME].
Proof.
  intros Hw Hr. apply write_metadata_step in Hr as [(Ho & Hws & Hm & Hok) Hmay]; [|done].
  split_and!; [|done| |done].
  - intros current Hc. destruct Hmay as [Hsame|(c & Hc' & Hmay)]; [left; by rewrite Hsame|].
    rewrite Hc in Hc'. simplify_eq. destruct Hm as [Hm|Hm]; [left; congruence|].
    right. by destruct Hmay.
  - intros id' p Hne. apply Ho. exists [], (Metadata.id m), id', [], p. done.
Qed.

(** ** Creation *)

Lemma keeps_write_metadata_at d m : keeps_attrs d (write_metadata_at d m).
Proof.
  unfold write_metadata_at, write_metadata_steps, sync_all.
  pose proof (keeps_create_file d). pose proof (keeps_write_all d).
  pose proof (keeps_rename d). pose proof (keeps_unlink d). keeps_tac; auto.
Qed.

Lemma hoare_Ok {E A} P (m : M world E A) Q w a w' :
  hoare P m Q → m w = (Ok a, w') → P (w_root w) → Q (Ok a) (w_root w').
Proof. intros Hm Hr HP. specialize (Hm w HP). by rewrite Hr in Hm. Qed.

(** The mode and owner of a directory, and its entries. *)
Lemma attrs_dirAt d mode u P t :
  attrs d mode u t → dirAt d P t → ∃ es, t ≫= node_at d = Some (NDir mode u es) ∧ P es.
Proof. intros [es Hd] (m & v & es' & Hd' & HP). exists es. split; [done|]. by simplify_eq. Qed.

Lemma created_directory id w w' u0 :
  mkdir_at [] id 448 w = (Ok u0, w') → (∃ mode u es, w_root w = Some (NDir mode u es)) →
  w_root w' ≫= node_at [id] = Some (NDir 448 euid []).
Proof.
  intros Hm (mode & u & es & Hr).
  eapply (hoare_Ok _ _ _ _ _ _ (mkdir_spec [] (eq es) id 448)) in Hm
    as (m & v & es' & Hd & es1 & <- & _ & ->); [|by rewrite Hr; exists mode, u, es].
  change [id] with ([] ++ [id]). rewrite (child_entry _ _ _ _ _ _ Hd). apply ent_get_set_eq.
Qed.

Lemma create_active_Ok `{!TomlLaws} id own w m w' :
  Id.grammar id → Fingerprint.parse own = Ok own →
  create_active root_path id own w = (Ok m, w') →
  m = Metadata.active id own ∧ entry_valid (w_root w') id m.
Proof.
  intros Hid Hown Hr. unfold create_active in Hr.
  apply bind_Ok in Hr as (d & w1 & Ho & Hr). apply open_root_Ok in Ho as (-> & Hr1 & Hdir).
  rewrite <-Hr1 in Hdir. apply bind_Ok in Hr as (u2 & w2 & Ht & Hr).
  apply (ro_root _ _ _ _ (read_only_mapE _ _ (read_only_trip _))) in Ht. rewrite <-Ht in Hdir.
  apply bind_Ok in Hr as (o & w3 & Hmk & Hr). apply tryM_Ok in Hmk.
  destruct o as [[]|e]; [|by destruct (errno_is e EEXIST)].
  apply created_directory in Hmk; [|done].
  apply bind_Ok in Hr as (d & w4 & Ho & Hr).
  pose proof (ro_root _ _ _ _ (read_only_mapE _ _ (read_only_open_at [] id)) Ho) as Hr4.
  apply mapE_Ok, open_directory_Ok in Ho as [-> _]. cbn [app] in Hr. rewrite <-Hr4 in Hmk.
  apply bind_Ok in Hr as (u5 & w5 & Ht5 & Hr).
  apply (ro_root _ _ _ _ (read_only_mapE _ _ (read_only_trip _))) in Ht5. rewrite <-Ht5 in Hmk.
  apply bind_Ok in Hr as (u6 & w6 & Hws & Hr). apply mapE_Ok in Hws.
  pose proof (hoare_Ok _ _ _ _ _ _ (keeps_mkdir [id] WORKSPACE_NAME 448 448 euid) Hws
    ltac:(by exists [])) as Hat6.
  eapply (hoare_Ok _ _ _ _ _ _ (mkdir_spec [id] (eq []) WORKSPACE_NAME 448)) in Hws as Hd6;
    [|by exists 448, euid, []]. cbn zeta in Hr. set (md := Metadata.active id own) in *.
  set (es6 := [(WORKSPACE_NAME, NDir 448 euid [])]).
  assert (Hes6 : dirAt [id] (eq es6) (w_root w6)).
  { destruct Hd6 as (m6 & u & es & Hd & es1 & <- & _ & ->). by exists m6, u, es6. }
  apply bind_Ok in Hr as (u7 & w7 & Hwr & Hr). apply mapE_Ok in Hwr.
  pose proof (hoare_Ok _ _ _ _ _ _ (keeps_write_metadata_at [id] md 448 euid) Hwr Hat6) as Hat7.
  eapply (hoare_Ok _ _ _ _ _ _ (write_metadata_at_spec [id] es6 md)) in Hwr; [|done].
  destruct (attrs_dirAt _ _ _ _ _ Hat7 Hwr) as (es7 & Hd7 & Hk & Hm7 & Hn7). cbn [is_ok] in Hm7.
  apply bind_Ok in Hr as (u8 & w8 & Hs8 & Hr).
  apply (ro_root _ _ _ _ (read_only_mapE _ _ (read_only_sync_at _))) in Hs8.
  apply bind_Ok in Hr as (u9 & w9 & Hs9 & Hr).
  apply (ro_root _ _ _ _ (read_only_mapE _ _ (read_only_sync_at _))) in Hs9.
  unfold_monad. simplify_eq. split; [done|]. rewrite Hs9, Hs8.
  assert (Hchild : ∀ x, w_root w7 ≫= node_at [id; x] = ent_get x es7).
  { intros x. change [id; x] with ([id] ++ [x]). by apply (child_entry _ _ _ _ _ _ Hd7). }
  split.
  - eexists. split; [exact Hd7|]. by eexists _, _.
  - eexists _, _, _. split; [exact Hd7|]. intros x Hx.
    destruct (Hn7 eq_refl) with (x := x) as [->|Hin]; [|done|by left|].
    + apply (bool_decide_unpack _). by vm_compute.
    + right. apply list_elem_of_singleton in Hin. done.
  - exists 384, (Metadata.encode (Metadata.active id own)). rewrite Hchild. split_and!; [done..|].
    by apply (Metadata.decode_encode (Metadata.active id own)).
  - left. exists (NDir 448 euid []). rewrite Hchild, Hk by done. split; [done|]. by exists 448, [].
Qed.

(** What [create_active] publishes is a valid [Active] entry: a directory
    of mode 0700 holding exactly the record, of mode 0600, naming the sandbox
    and its owner, and an empty workspace. *)
Theorem create_publishes_a_valid_entry `{!TomlLaws} id own w m w' :
  Id.grammar id → Fingerprint.parse own = Ok own →
  create_active root_path id own w = (Ok m, w') →
  m = Metadata.Mk id own Metadata.Active ∧ entry_valid (w_root w') id m.
Proof. apply create_active_Ok. Qed.

Lemma inspect_Ok id w e w' m :
  inspect root_path id w = (Ok e, w') → reported e = Some m →
  w_root w' = w_root w ∧ entry_valid (w_root w) id m ∧ Metadata.id m = id
  ∧ e = match Metadata.state m with
        | Metadata.Active => Active m
        | Metadata.Deleting => Deleting m
        end.
Proof.
  intros Hi Hrep. pose proof (ro_root _ _ _ _ (read_only_inspect id) Hi) as Hroot.
  unfold inspect in Hi. apply bind_Ok in Hi as (d & w1 & Ho & Hi).
  apply open_root_Ok in Ho as (-> & Hr1 & _). apply bind_Ok in Hi as (o & w2 & Ho & Hi).
  pose proof (ro_root _ _ _ _ (read_only_tryM _ (read_only_open_at [] id)) Ho) as Hr2.
  apply tryM_Ok in Ho. destruct o as [d|x].
  2:{ repeat case_match; unfold_monad; simplify_eq/=. }
  apply open_directory_Ok in Ho as [-> _].
  apply inspect_directory_Ok with (m := m) in Hi as [Hv He]; [|done..].
  rewrite Hr2, Hr1 in Hv. split_and!; [done..| |done].
  destruct Hv as [_ _ (mode & data & _ & _ & Hdec) _]. by apply Metadata.decode_wf in Hdec as [_ ?].
Qed.

(** Inspection is sound and reads only: an entry reported as [Active] or
    [Deleting] is a directory of the daemon, writable by nobody else, that holds
    the record and the workspace and nothing else; the record is the daemon's,
    has mode 0600, and decodes to what is reported, for this very sandbox; only
    a [Deleting] entry may lack its workspace. *)
Theorem inspect_is_sound id w e w' m :
  inspect root_path id w = (Ok e, w') → reported e = Some m →
  w_root w' = w_root w ∧ entry_valid (w_root w) id m ∧ Metadata.id m = id
  ∧ e = match Metadata.state m with
        | Metadata.Active => Active m
        | Metadata.Deleting => Deleting m
        end.
Proof. apply inspect_Ok. Qed.

(** A defect of the code: a process that dies while it rewrites a record
    makes the sandbox unusable.  Once [write_metadata_at] has created its
    temporary file and before it has renamed or unlinked it, the entry is never
    again reported as [Active] or [Deleting], although the old record is intact:
    inspection takes the leftover for an unknown management entry, and nothing
    ever removes it. *)
Theorem interrupted_write_spoils_the_entry id c w w1 w2 e w3 :
  create_file_at [id] (metadata_temp_name c) 384 w = (Ok tt, w1) →
  w_root w2 = w_root w1 → inspect root_path id w2 = (Ok e, w3) → reported e = None.
Proof.
  intros Hc Hr Hi. destruct (reported e) as [m|] eqn:Hrep; [|done]. exfalso.
  destruct (inspect_Ok _ _ _ _ _ Hi Hrep) as (_ & Hv & _).
  destruct (ev_names _ _ _ Hv) as (mode & u & es & Hd & Hnames).
  assert (Hdir : dirAt [id] (fun _ => True) (w_root w)).
  { unfold create_file_at in Hc. inv_run.
    match goal with Hk : check_name _ _ = _ |- _ => apply check_name_Ok in Hk as -> end.
    match goal with Hy : sys _ = _ |- _ => apply sys_root in Hy as Hroot end.
    match goal with Hg : get_entries _ _ = _ |- _ => apply get_entries_Ok in Hg as (-> & m1 & u1 & Hd1) end.
    rewrite Hroot in Hd1. by eexists _, _, _. }
  eapply (hoare_Ok _ _ _ _ _ _ (create_file_spec [id] (fun _ => True) _ 384)) in Hc
    as (m1 & u1 & es1 & Hd1 & es2 & _ & _ & ->); [|done].
  rewrite Hr, Hd1 in Hd. simplify_eq.
  destruct (Hnames (metadata_temp_name c)) as [Ht|Ht].
  - apply ent_set_names. by left.
  - by apply temp_not_metadata in Ht.
  - pose proof (temp_is_temp c) as Htt. by rewrite Ht in Htt.
Qed.
End proofs.

#[local] Existing Instance sample_host.

Definition dev : Metadata.t := Metadata.sample.

Lemma dev_wf : Metadata.wf dev.
Proof. split; [|reflexivity]. apply (Id.parse_ok "dev" "dev"). reflexivity. Defined.

(** A registry that holds the sandbox [dev], and the kernel's script. *)
Definition registry (env : list bool) : world :=
  MkWorld (Some (NDir 448 1000
    [("dev", NDir 448 1000
       [("workspace", NDir 448 1000 [("notes", NFile 420 1000 "hello")]);
        ("metadata.toml", NFile 384 1000 (Metadata.encode dev))]);
     ("web", NDir 448 1000 [])])) env None 0.

Lemma write_metadata_is_monotone_witness :
  metadata_of (w_root (write_metadata "/r" (Metadata.with_state dev Metadata.Deleting) (registry [])).2)
    "dev" = Some (Metadata.with_state dev Metadata.Deleting).
Proof.
  assert (Hk : is_ok (write_metadata "/r" (Metadata.with_state dev Metadata.Deleting) (registry [])).1 = true)
    by (vm_compute; reflexivity).
  destruct (write_metadata "/r" (Metadata.with_state dev Metadata.Deleting) (registry []))
    as [r w'] eqn:Hw.
  apply (write_metadata_is_monotone "/r" (Metadata.with_state dev Metadata.Deleting) (registry []) r w').
  - split; [apply dev_wf|reflexivity].
  - exact Hw.
  - exact Hk.
Defined.

Definition empty_registry : world := MkWorld (Some (NDir 448 1000 [])) [] None 0.

Lemma create_publishes_a_valid_entry_witness :
  entry_valid (w_root (create_active "/r" "dev" (Metadata.owner dev) empty_registry).2) "dev" dev.
Proof.
  assert (Hk : (create_active "/r" "dev" (Metadata.owner dev) empty_registry).1 = Ok dev)
    by (vm_compute; reflexivity).
  destruct (create_active "/r" "dev" (Metadata.owner dev) empty_registry) as [r w'] eqn:Hw.
  simpl in Hk. subst r.
  apply (create_publishes_a_valid_entry "/r" "dev" (Metadata.owner dev) empty_registry dev w');
    [apply dev_wf|reflexivity|exact Hw].
Defined.

Lemma inspect_is_sound_witness :
  (inspect "/r" "dev" (registry [])).1 = Ok (Active dev)
  ∧ entry_valid (w_root (registry [])) "dev" dev.
Proof.
  assert (Hk : (inspect "/r" "dev" (registry [])).1 = Ok (Active dev)) by (vm_compute; reflexivity).
  split; [exact Hk|].
  destruct (inspect "/r" "dev" (registry [])) as [r w'] eqn:Hw. simpl in Hk. subst r.
  apply (inspect_is_sound "/r" "dev" (registry []) (Active dev) w' dev Hw eq_refl).
Defined.

(** A crash in the middle of the deletion's first step: the valid sandbox [dev]
    is reported corrupt. *)
Lemma interrupted_write_spoils_the_entry_witness :
  (inspect "/r" "dev" (registry [])).1 = Ok (Active dev)
  ∧ (let w1 := (create_file_at ["dev"] (metadata_temp_name 0) 384 (registry [])).2 in
     (inspect "/r" "dev" w1).1
       = Ok (Corrupt "sandbox directory contains an unknown management entry")
     ∧ reported (Corrupt "sandbox directory contains an unknown management entry") = None).
Proof.
  split; [vm_compute; reflexivity|]. intros w1.
  assert (Hi : (inspect "/r" "dev" w1).1
    = Ok (Corrupt "sandbox directory contains an unknown management entry"))
    by (vm_compute; reflexivity).
  split; [exact Hi|].
  destruct (inspect "/r" "dev" w1) as [r w3] eqn:Hw. simpl in Hi. subst r.
  apply (interrupted_write_spoils_the_entry "/r" "dev" 0 (registry []) w1 w1 _ w3);
    [reflexivity|reflexivity|exact Hw].
Defined.
End Storage.
