(* ===== verification/LeaseRecord.v ===== *)
(** * Subordinate-ID lease records ([sandbox/subid/ledger.rs], records)

    One record leases one UID/GID pair to one sandbox incarnation, named by a
    random lease token. *)

From S2P Require Import Prelude Text Toml Idents Metadata FileSystem.

Module Lease.

Definition VERSION : Z := 1.
Definition MAX_RECORD_BYTES : Z := 4 * 1024.
Definition LEASE_ID_HEX : nat := 32.
Definition RECORD_SUFFIX : string := ".toml".
Definition TEMP_PREFIX : string := ".lease.toml.tmp".
Definition LOCK_FILE_BASENAME : string := ".lease.lock".

Inductive LeaseState := Reserved | Active | Releasing | Quarantined.

#[global] Instance LeaseState_eq_dec : EqDecision LeaseState.
Proof. solve_decision. Defined.

Definition state_str (s : LeaseState) : string :=
  match s with
  | Reserved => "reserved"
  | Active => "active"
  | Releasing => "releasing"
  | Quarantined => "quarantined"
  end.

Record LeaseRecord := MkLease
  { lease_id : string; sandbox_id : string; owner : string; uid : Z; gid : Z;
    state : LeaseState; quarantine_reason : option string }.

#[global] Instance LeaseRecord_eq_dec : EqDecision LeaseRecord.
Proof. solve_decision. Defined.

(** A reason survives only in the [Quarantined] state. *)
Definition with_state (r : LeaseRecord) (s : LeaseState) : LeaseRecord :=
  MkLease (lease_id r) (sandbox_id r) (owner r) (uid r) (gid r) s
    (if bool_decide (s = Quarantined) then quarantine_reason r else None).

Definition with_quarantine_reason (r : LeaseRecord) (reason : string) : LeaseRecord :=
  let q := with_state r Quarantined in
  MkLease (lease_id q) (sandbox_id q) (owner q) (uid q) (gid q) (state q) (Some reason).

Record RawLease := MkRawLease
  { raw_version : Z; raw_lease_id : string; raw_sandbox_id : string; raw_owner : string;
    raw_uid : Z; raw_gid : Z; raw_state : string; raw_reason : option string }.

Definition hex_byte (c : Ascii.ascii) : bool := is_ascii_digit c || in_range 97 102 c.

(** The test of [validate_lease_id]. *)
Definition valid_lease_id (s : string) : bool :=
  bool_decide (String.length s = LEASE_ID_HEX) && str_all hex_byte s.

(** [new_lease_id] of a random 128-bit token. *)
Definition new_lease_id (token : Z) : string := fmt_hex_fixed LEASE_ID_HEX token.

Definition file_name_of (lease_id : string) : string := (lease_id +:+ RECORD_SUFFIX).
Definition file_name (r : LeaseRecord) : string := file_name_of (lease_id r).

Section lease.
Context `{TomlCrate} `{UnicodeTables}.

Inductive Error :=
| Io (operation : string) (source : io_error)
| UnsafeDirectory (reason : string)
| UnknownFileName (name : string)
| CorruptRecord (name reason : string)
| MissingRecord (lease_id : string)
| TooLarge (size : Z)
| NotUtf8
| Toml (error : toml_error)
| UnsupportedVersion (version : Z)
| InvalidLeaseId (lease_id : string)
| MismatchedLeaseId (expected found : string)
| InvalidSandboxId (reason : string)
| InvalidOwner (reason : string)
| ZeroId
| InvalidState (state : string)
| InvalidQuarantineReason.

Definition state_parse (raw : string) : result Error LeaseState :=
  if bool_decide (raw = "reserved") then Ok Reserved
  else if bool_decide (raw = "active") then Ok Active
  else if bool_decide (raw = "releasing") then Ok Releasing
  else if bool_decide (raw = "quarantined") then Ok Quarantined
  else Err (InvalidState raw).

Definition validate_lease_id (lease_id : string) : result Error unit :=
  if valid_lease_id lease_id then Ok tt else Err (InvalidLeaseId lease_id).

Definition encode (r : LeaseRecord) : string :=
  let nl := Metadata.nl in
  ("version = " +:+ fmt_dec VERSION +:+ nl
     +:+ "lease_id = " +:+ debug_str printable (lease_id r) +:+ nl
     +:+ "sandbox_id = " +:+ debug_str printable (sandbox_id r) +:+ nl
     +:+ "owner = " +:+ debug_str printable (owner r) +:+ nl
     +:+ "uid = " +:+ fmt_dec (uid r) +:+ nl
     +:+ "gid = " +:+ fmt_dec (gid r) +:+ nl
     +:+ "state = " +:+ debug_str printable (state_str (state r)) +:+ nl
     +:+ match quarantine_reason r with
         | Some reason =>
             ("quarantine_reason = " +:+ debug_str printable reason +:+ nl)
         | None => EmptyString
         end).

(** [toml::from_str::<RawLease>]. *)
Definition raw_from_str (text : string) : result toml_error RawLease :=
  t ← toml_parse text;
  _ ← deny_unknown_fields
        ["version"; "lease_id"; "sandbox_id"; "owner"; "uid"; "gid"; "state";
         "quarantine_reason"] t;
  v ← de_u32 "version" t;
  l ← de_string "lease_id" t;
  s ← de_string "sandbox_id" t;
  o ← de_string "owner" t;
  u ← de_u32 "uid" t;
  g ← de_u32 "gid" t;
  st ← de_string "state" t;
  q ← de_opt_string "quarantine_reason" t;
  Ok (MkRawLease v l s o u g st q).

Definition decode (bytes expected_lease_id : string) : result Error LeaseRecord :=
  if MAX_RECORD_BYTES <? str_len bytes then Err (TooLarge (str_len bytes))
  else
    _ ← validate_lease_id expected_lease_id;
    if negb (utf8_valid bytes) then Err NotUtf8
    else
      raw ← map_err Toml (raw_from_str bytes);
      if negb (raw_version raw =? VERSION) then Err (UnsupportedVersion (raw_version raw))
      else if negb (bool_decide (raw_lease_id raw = expected_lease_id))
      then Err (MismatchedLeaseId expected_lease_id (raw_lease_id raw))
      else
        _ ← validate_lease_id (raw_lease_id raw);
        s ← map_err (fun e => InvalidSandboxId (Id.display e)) (Id.parse (raw_sandbox_id raw));
        o ← map_err (fun e => InvalidOwner (Fingerprint.display e))
              (Fingerprint.parse (raw_owner raw));
        if (raw_uid raw =? 0) || (raw_gid raw =? 0) then Err ZeroId
        else
          st ← state_parse (raw_state raw);
          if bool_decide (is_Some (raw_reason raw)) && negb (bool_decide (st = Quarantined))
          then Err InvalidQuarantineReason
          else Ok (MkLease (raw_lease_id raw) s o (raw_uid raw) (raw_gid raw) st
                     (raw_reason raw)).

(** [impl Display for Error]; the text of an I/O error is the platform's. *)
Definition display `{Host} (e : Error) : string :=
  let root := (data_root +:+ "/subid-leases") in
  match e with
  | Io operation source =>
      ("could not " +:+ operation +:+ " under " +:+ root +:+ ": " +:+ io_display source)
  | UnsafeDirectory reason =>
      ("lease directory " +:+ root +:+ " is unsafe: " +:+ reason)
  | UnknownFileName name =>
      ("unexpected file " +:+ debug_str printable name
         +:+ " in the lease directory (expected <lease-id>.toml)")
  | CorruptRecord name reason =>
      ("lease record " +:+ debug_str printable name +:+ " is corrupt: " +:+ reason)
  | MissingRecord lease_id => ("lease record " +:+ lease_id +:+ " does not exist")
  | TooLarge size =>
      ("lease record is " +:+ fmt_dec size +:+ " bytes, limit is " +:+ fmt_dec MAX_RECORD_BYTES)
  | NotUtf8 => "lease record is not valid UTF-8"
  | Toml error => ("lease record is not valid TOML: " +:+ toml_display error)
  | UnsupportedVersion version =>
      ("lease record version " +:+ fmt_dec version +:+ " is unsupported")
  | InvalidLeaseId lease_id =>
      ("lease id " +:+ debug_str printable lease_id +:+ " is not "
         +:+ fmt_dec (Z.of_nat LEASE_ID_HEX) +:+ " lowercase hex characters")
  | MismatchedLeaseId expected found =>
      ("lease record names incarnation " +:+ debug_str printable found +:+ ", expected "
         +:+ debug_str printable expected)
  | InvalidSandboxId reason => ("lease record sandbox id is invalid: " +:+ reason)
  | InvalidOwner reason => ("lease record owner is invalid: " +:+ reason)
  | ZeroId => "lease record maps UID or GID 0"
  | InvalidState state =>
      ("lease record state " +:+ debug_str printable state +:+ " is invalid")
  | InvalidQuarantineReason =>
      "lease record has a quarantine reason but is not quarantined"
  end.
End lease.

Arguments Error {_}.
Arguments Io {_}. Arguments UnsafeDirectory {_}. Arguments UnknownFileName {_}.
Arguments CorruptRecord {_}. Arguments MissingRecord {_}.

Section lease_proofs.
Context `{TomlCrate} `{UnicodeTables}.

(** What [decode] establishes of a record, and the program maintains: a valid
    token, a valid sandbox, a valid owner, non-zero 32-bit IDs, and a reason
    only on a quarantined record. *)
Record wf (r : LeaseRecord) : Prop := MkWf {
  wf_lease : valid_lease_id (lease_id r) = true;
  wf_sandbox : Id.grammar (sandbox_id r);
  wf_owner : Fingerprint.parse (owner r) = Ok (owner r);
  wf_uid : 0 < uid r <= u32_max;
  wf_gid : 0 < gid r <= u32_max;
  wf_reason : quarantine_reason r = None ∨ state r = Quarantined;
}.

Lemma lease_state_parse_str s : state_parse (state_str s) = Ok s.
Proof. by destruct s. Qed.

Lemma de_u32_bounds key t n : de_u32 key t = Ok n → 0 <= n <= u32_max.
Proof.
  unfold de_u32, between. intros Hd. run_steps. bool_to_prop. lia.
Qed.

Lemma raw_from_str_bounds text raw :
  raw_from_str text = Ok raw → 0 <= raw_uid raw <= u32_max ∧ 0 <= raw_gid raw <= u32_max.
Proof.
  unfold raw_from_str. intros Hr. unfold_monad.
  repeat (case_match; simplify_eq/=; []). simpl. split; by eapply de_u32_bounds.
Qed.

Lemma lease_decode_wf bytes expected r :
  decode bytes expected = Ok r → wf r ∧ lease_id r = expected.
Proof.
  unfold decode, map_err, validate_lease_id. intros Hd. run_steps. bool_to_prop.
  match goal with Hr : raw_from_str _ = Ok _ |- _ =>
    destruct (raw_from_str_bounds _ _ Hr) as [Hu Hg] end.
  match goal with Hi : Id.parse _ = Ok _ |- _ => apply Id.parse_ok in Hi as [-> Hid] end.
  match goal with Ho : Fingerprint.parse _ = Ok _ |- _ =>
    pose proof (Fingerprint.parse_same _ _ Ho) as ->; pose proof Ho as Hown end.
  split; [|done]. split; try done.
  - simpl. lia.
  - simpl. lia.
  - simpl. match goal with Hq : _ && _ = false |- _ => apply andb_false_iff in Hq as [Hq|Hq] end;
      bool_to_prop; [left|by right].
    destruct (raw_reason _) as [q|]; [|done]. exfalso. eauto.
Qed.

(** ** Tokens *)

Lemma digit_char_hex d : 0 <= d < 16 → hex_byte (digit_char d) = true ∧
  ∀ e, 0 <= e < 16 → digit_char d = digit_char e → d = e.
Proof.
  intros Hd.
  assert (Hall : forallb (fun d => hex_byte (digit_char d) && forallb (fun e =>
      negb (bool_decide (digit_char d = digit_char e)) || (d =? e)) (seqZ 0 16)) (seqZ 0 16) = true)
    by by vm_compute.
  rewrite List.forallb_forall in Hall. specialize (Hall d).
  rewrite <-list_elem_of_In, elem_of_seqZ, andb_true_iff in Hall.
  destruct Hall as [Hx Hy]; [lia|]. split; [done|]. intros e He Heq.
  rewrite List.forallb_forall in Hy. specialize (Hy e).
  rewrite <-list_elem_of_In, elem_of_seqZ in Hy. specialize (Hy ltac:(lia)).
  rewrite bool_decide_eq_true_2 in Hy by done. simpl in Hy. by apply Z.eqb_eq.
Qed.

Lemma hex_fixed_shape w n :
  0 <= n → String.length (fmt_hex_fixed w n) = w ∧ str_all hex_byte (fmt_hex_fixed w n) = true.
Proof.
  revert n. induction w as [|w IH]; intros n Hn; cbn [fmt_hex_fixed]; [done|].
  destruct (IH (n / 16)) as [Hl Ha]; [apply Z.div_pos; lia|].
  rewrite str_length_app, str_all_app, Hl, Ha. cbn [String.length str_all].
  destruct (digit_char_hex (n mod 16)) as [-> _]; [apply Z.mod_pos_bound; lia|].
  split; [lia|done].
Qed.

Lemma str_snoc_inj a b c d :
  (a +:+ String c EmptyString) = (b +:+ String d EmptyString) → a = b ∧ c = d.
Proof.
  revert b. induction a as [|x a IH]; intros [|y b]; rewrite ?str_app_nil_l, ?str_app_cons.
  - by intros [= ->].
  - intros [= _ Hb]. by destruct b.
  - intros [= _ Ha]. by destruct a.
  - intros [= -> Heq]. destruct (IH _ Heq) as [-> ->]. done.
Qed.

Lemma hex_fixed_inj w n m :
  0 <= n < 16 ^ Z.of_nat w → 0 <= m < 16 ^ Z.of_nat w →
  fmt_hex_fixed w n = fmt_hex_fixed w m → n = m.
Proof.
  revert n m. induction w as [|w IH]; intros n m Hn Hm; cbn [fmt_hex_fixed].
  { change (16 ^ Z.of_nat 0) with 1 in *. lia. }
  rewrite Nat2Z.inj_succ, Z.pow_succ_r in Hn, Hm by lia. intros [Hd Hc]%str_snoc_inj.
  apply IH in Hd; [|split; [apply Z.div_pos; lia|apply Z.div_lt_upper_bound; lia]..].
  pose proof (Z.mod_pos_bound n 16 ltac:(lia)). pose proof (Z.mod_pos_bound m 16 ltac:(lia)).
  apply digit_char_hex in Hc; [|lia..].
  rewrite (Z.div_mod n 16), (Z.div_mod m 16) by lia. lia.
Qed.

Lemma new_lease_id_valid token : 0 <= token → valid_lease_id (new_lease_id token) = true.
Proof.
  intros Ht. unfold valid_lease_id, new_lease_id.
  destruct (hex_fixed_shape LEASE_ID_HEX token Ht) as [Hl Ha].
  by rewrite bool_decide_eq_true_2, Ha.
Qed.

(** ** Text form *)

Lemma hex_byte_plain c : hex_byte c = true → plain_char c = true.
Proof.
  intros Hc. apply Id.id_byte_plain. unfold Id.id_byte, hex_byte in *.
  apply orb_true_iff. left. unfold is_ascii_alphanumeric. apply orb_true_iff in Hc as [Hc|Hc].
  - by rewrite Hc.
  - unfold is_ascii_alphabetic. rewrite in_range_bounds in Hc.
    rewrite (proj2 (in_range_bounds 97 122 c)) by lia. by rewrite !orb_true_r.
Qed.

Lemma valid_lease_id_plain s :
  valid_lease_id s = true → str_all plain_char s = true ∧ str_len s = 32.
Proof.
  unfold valid_lease_id. rewrite andb_true_iff. intros [Hl Ha]. bool_to_prop.
  split; [eapply str_all_impl; [apply hex_byte_plain|done]|]. unfold str_len. by rewrite Hl.
Qed.

Definition fields (r : LeaseRecord) : list (string * toml_value) :=
  [("version", TInteger VERSION); ("lease_id", TString (lease_id r));
   ("sandbox_id", TString (sandbox_id r)); ("owner", TString (owner r));
   ("uid", TInteger (uid r)); ("gid", TInteger (gid r));
   ("state", TString (state_str (state r)))]
  ++ match quarantine_reason r with
     | Some reason => [("quarantine_reason", TString reason)]
     | None => []
     end.

Definition plain_reason (r : LeaseRecord) : Prop :=
  match quarantine_reason r with Some q => str_all plain_char q = true | None => True end.

Lemma lease_wf_plain r :
  wf r → str_all plain_char (lease_id r) = true ∧ str_all plain_char (sandbox_id r) = true
    ∧ str_all plain_char (owner r) = true ∧ str_all plain_char (state_str (state r)) = true.
Proof.
  intros [Hl Hs Ho _ _ _]. split_and!.
  - by apply valid_lease_id_plain.
  - by apply Id.grammar_plain.
  - by apply (Fingerprint.parse_plain _ _ Ho).
  - by destruct (state r).
Qed.

Lemma lease_encode_render r : wf r → plain_reason r → encode r = render (fields r).
Proof.
  intros (Hl & Hs & Ho & Hst)%lease_wf_plain Hq. unfold encode, fields, plain_reason in *.
  rewrite !(debug_str_plain (lease_id r)), !(debug_str_plain (sandbox_id r)),
    !(debug_str_plain (owner r)), !(debug_str_plain (state_str (state r))) by done.
  unfold render, render_line, Metadata.nl.
  destruct (quarantine_reason r) as [q|]; [rewrite (debug_str_plain q) by done|];
    cbn [app foldr fst snd render_value]; by rewrite !str_app_assoc.
Qed.

Lemma lease_fields_plain r :
  wf r → plain_reason r →
  NoDup (fields r).*1 ∧ Forall bare_key (fields r).*1 ∧ Forall plain_value (fields r).*2.
Proof.
  intros Hw Hq. pose proof (lease_wf_plain r Hw) as (Hl & Hs & Ho & Hst).
  destruct Hw as [_ _ _ Hu Hg _]. unfold u32_max, fields, plain_reason in *.
  rewrite !fmap_app. destruct (quarantine_reason r) as [q|]; simpl app; split_and!.
  1,4: apply (bool_decide_unpack _); by vm_compute.
  1,3: repeat (apply Forall_cons; split); try done; by vm_compute.
  all: repeat (apply Forall_cons; split); try done; cbn [plain_value]; try lia; done.
Qed.

Lemma radix_len fuel n acc : str_len (radix_go 10 fuel n acc) <= str_len acc + Z.of_nat fuel.
Proof.
  revert n acc. induction fuel as [|fuel IH]; intros n acc; cbn [radix_go]; [lia|].
  destruct (n <? 10); [rewrite str_len_cons; lia|].
  etransitivity; [apply IH|]. rewrite str_len_cons. lia.
Qed.

Lemma fmt_dec_len n : 0 < n <= u32_max → str_len (fmt_dec n) <= 33.
Proof.
  intros Hn. unfold fmt_dec. etransitivity; [apply radix_len|]. rewrite str_len_nil.
  assert (Z.log2 n < 32) by (apply Z.log2_lt_pow2; unfold u32_max in Hn; lia).
  pose proof (Z.log2_nonneg n). lia.
Qed.

Lemma lease_encode_len r :
  wf r → plain_reason r →
  match quarantine_reason r with Some q => str_len q <= 3000 | None => True end →
  str_len (encode r) <= MAX_RECORD_BYTES.
Proof.
  intros Hw Hq Hlen. rewrite lease_encode_render by done. destruct Hw as [Hl Hs Ho Hu Hg _].
  apply valid_lease_id_plain in Hl as [_ Hl]. pose proof (Id.grammar_len _ Hs) as Hs'.
  apply Fingerprint.parse_plain in Ho as [_ Ho].
  pose proof (fmt_dec_len _ Hu). pose proof (fmt_dec_len _ Hg).
  assert (str_len (state_str (state r)) <= 11) by by destruct (state r).
  unfold Id.MAX_ID_BYTES in Hs'.
  unfold render, fields, render_line.
  destruct (quarantine_reason r) as [q|]; cbn [app foldr fst snd render_value];
    change (fmt_dec VERSION) with "1";
    repeat (rewrite ?str_len_app, ?str_len_cons, ?str_len_nil);
    unfold MAX_RECORD_BYTES; lia.
Qed.

Lemma encode_ascii r : wf r → plain_reason r → str_all ascii_char (encode r) = true.
Proof.
  intros Hw Hq. rewrite lease_encode_render by done.
  destruct (lease_fields_plain r Hw Hq) as (_ & Hk & Hv). by apply render_ascii.
Qed.

Lemma between_u32 n : 0 < n <= u32_max → between 0 u32_max n = true.
Proof. intros Hn. unfold between. apply andb_true_iff. rewrite !Z.leb_le. lia. Qed.

#[local] Opaque between.

Lemma raw_from_fields r text :
  0 < uid r <= u32_max → 0 < gid r <= u32_max → toml_parse text = Ok (fields r) →
  raw_from_str text = Ok (MkRawLease VERSION (lease_id r) (sandbox_id r) (owner r)
    (uid r) (gid r) (state_str (state r)) (quarantine_reason r)).
Proof.
  intros Hu Hg Htext. unfold raw_from_str. rewrite Htext.
  assert (Hde : ∀ key n, table_get key (fields r) = Some (TInteger n) → 0 < n <= u32_max →
    de_u32 key (fields r) = Ok n).
  { intros key n Ht Hn. unfold de_u32. by rewrite Ht, between_u32. }
  change (result_bind toml_error) with (@mbind (result toml_error) _).
  unfold mbind, result_bind at 1.
  rewrite (Hde "version" VERSION), (Hde "uid" (uid r)), (Hde "gid" (gid r));
    [|unfold fields; destruct (quarantine_reason r); done..].
  unfold fields. by destruct (quarantine_reason r).
Qed.

Lemma lease_raw_from_str_encode `{!TomlLaws} r :
  wf r → plain_reason r →
  raw_from_str (encode r) = Ok (MkRawLease VERSION (lease_id r) (sandbox_id r) (owner r)
    (uid r) (gid r) (state_str (state r)) (quarantine_reason r)).
Proof.
  intros Hw Hq. destruct (lease_fields_plain r Hw Hq) as (Hnd & Hk & Hv).
  apply raw_from_fields; [apply Hw..|]. rewrite lease_encode_render by done.
  by rewrite toml_parse_render.
Qed.

Lemma lease_decode_encode `{!TomlLaws} r :
  wf r → plain_reason r →
  match quarantine_reason r with Some q => str_len q <= 3000 | None => True end →
  decode (encode r) (lease_id r) = Ok r.
Proof.
  intros Hw Hq Hlen. pose proof (lease_encode_len r Hw Hq Hlen) as Hl. unfold decode.
  destruct (MAX_RECORD_BYTES <? str_len (encode r)) eqn:?; bool_to_prop; [lia|].
  rewrite utf8_valid_ascii by by apply encode_ascii.
  unfold validate_lease_id. rewrite lease_raw_from_str_encode by done.
  destruct Hw as [Hlid Hs Ho Hu Hg Hr].
  repeat (rewrite ?Hlid; bind_step). cbn [raw_version raw_lease_id raw_sandbox_id raw_owner
    raw_uid raw_gid raw_state raw_reason].
  rewrite Z.eqb_refl, bool_decide_eq_true_2, Hlid by done. bind_step.
  rewrite Id.parse_self by done. bind_step. rewrite Ho. bind_step.
  destruct (uid r =? 0) eqn:?, (gid r =? 0) eqn:?; bool_to_prop; try lia. bind_step.
  rewrite lease_state_parse_str. bind_step. destruct Hr as [Hr|Hr]; rewrite Hr.
  - rewrite bool_decide_eq_false_2 by (by intros [? ?]). destruct r; simpl in *; by subst.
  - rewrite andb_false_r. destruct r; simpl in *; by subst.
Qed.

(** What [LeaseRecord::encode] writes, [LeaseRecord::decode] reads back:
    every well-formed record whose quarantine reason, if any, is plain text of
    at most 3000 bytes. *)
Theorem lease_roundtrip `{!TomlLaws} r :
  wf r → plain_reason r →
  match quarantine_reason r with Some q => str_len q <= 3000 | None => True end →
  decode (encode r) (lease_id r) = Ok r.
Proof. apply lease_decode_encode. Qed.

(** Whatever text a quarantine reason holds, a record that can be read back
    at all keeps its identity. *)
Definition ascii_reason (r : LeaseRecord) : Prop :=
  match quarantine_reason r with Some q => str_all ascii_char q = true | None => True end.

Lemma encode_parses `{!TomlLaws} r t :
  wf r → ascii_reason r → toml_parse (encode r) = Ok t →
  ∃ reason, t = fields (MkLease (lease_id r) (sandbox_id r) (owner r) (uid r) (gid r) (state r) reason).
Proof.
  intros Hw Hq Ht. set (base := MkLease (lease_id r) (sandbox_id r) (owner r) (uid r) (gid r) (state r) None).
  assert (Hwb : wf base) by (destruct Hw; split; simpl; auto).
  destruct (lease_fields_plain base Hwb I) as (Hnd & Hk & Hv).
  unfold ascii_reason in Hq. destruct (quarantine_reason r) as [q|] eqn:Hr.
  - apply (toml_parse_escaped printable (fields base) "quarantine_reason" q t) in Hq as [s ->];
      [by exists (Some s)|..|done|].
    + apply (bool_decide_unpack _); by vm_compute.
    + apply Forall_app. split; [done|]. apply Forall_singleton. by vm_compute.
    + rewrite <-lease_encode_render by done. rewrite <-Ht. f_equal. unfold encode. simpl. rewrite Hr.
      change Metadata.nl with (String newline EmptyString). by rewrite !str_app_assoc.
  - exists None. change (fields _) with (fields base).
    rewrite lease_encode_render in Ht; [|done|by unfold plain_reason; rewrite Hr].
    replace (fields r) with (fields base) in Ht by (unfold fields; simpl; by rewrite Hr).
    rewrite toml_parse_render in Ht by done. by simplify_eq.
Qed.

Lemma decode_encode_identity `{!TomlLaws} r r' :
  wf r → ascii_reason r → decode (encode r) (lease_id r) = Ok r' →
  lease_id r' = lease_id r ∧ sandbox_id r' = sandbox_id r ∧ owner r' = owner r
  ∧ uid r' = uid r ∧ gid r' = gid r ∧ state r' = state r.
Proof.
  intros Hw Hq Hd. unfold decode in Hd.
  destruct (toml_parse (encode r)) as [t|e] eqn:Ht.
  - destruct (encode_parses r t Hw Hq Ht) as [reason ->].
    apply raw_from_fields in Ht; [|apply Hw..]. rewrite Ht in Hd.
    unfold map_err, validate_lease_id in Hd. run_steps.
    match goal with Hi : Id.parse _ = Ok _ |- _ => apply Id.parse_ok in Hi as [-> _] end.
    match goal with Ho : Fingerprint.parse _ = Ok _ |- _ =>
      apply Fingerprint.parse_same in Ho as -> end.
    match goal with Hs : state_parse _ = Ok _ |- _ => rewrite lease_state_parse_str in Hs end.
    by simplify_eq/=.
  - unfold raw_from_str in Hd. rewrite Ht in Hd. unfold map_err in Hd. run_steps.
Qed.

(** A reason longer than the record limit makes the record unreadable. *)
Lemma oversized_encode r q :
  quarantine_reason r = Some q → str_all plain_char q = true → MAX_RECORD_BYTES < str_len q →
  MAX_RECORD_BYTES < str_len (encode r).
Proof.
  intros Hr Hq Hlen. unfold encode. rewrite Hr, (debug_str_plain q) by done.
  rewrite !str_len_app, ?str_len_cons.
  repeat match goal with |- context [str_len ?s] =>
    lazymatch goal with
    | _ : 0 <= str_len s |- _ => fail
    | _ => pose proof (str_len_nonneg s)
    end end. lia.
Qed.

(** Lease tokens: every 128-bit draw names a valid record, and distinct
    draws name distinct records. *)
Theorem lease_tokens_valid_and_distinct t1 t2 :
  0 <= t1 < 2 ^ 128 → 0 <= t2 < 2 ^ 128 →
  valid_lease_id (new_lease_id t1) = true
  ∧ (new_lease_id t1 = new_lease_id t2 → t1 = t2).
Proof.
  intros H1 H2. split; [apply new_lease_id_valid; lia|].
  apply hex_fixed_inj; change (16 ^ Z.of_nat LEASE_ID_HEX) with (2 ^ 128); done.
Qed.

End lease_proofs.

Definition sample : LeaseRecord :=
  MkLease "aaaaaaaaaaaaaaaaaaaaaaaaaaaaaaaa" "dev"
    "SHA256:AAAAAAAAAAAAAAAAAAAAAAAAAAAAAAAAAAAAAAAAAAA" 100000 200000 Active None.

Lemma sample_wf : wf sample.
Proof.
  split; try reflexivity; simpl; try (unfold u32_max; lia); [|by left].
  apply (Id.parse_ok "dev" "dev"). reflexivity.
Defined.

Lemma lease_roundtrip_witness :
  decode (encode sample) "aaaaaaaaaaaaaaaaaaaaaaaaaaaaaaaa" = Ok sample.
Proof. apply (lease_roundtrip sample sample_wf); exact I. Defined.

Lemma lease_tokens_valid_and_distinct_witness :
  new_lease_id 255 = "000000000000000000000000000000ff"
  ∧ valid_lease_id (new_lease_id 255) = true.
Proof.
  split; [reflexivity|].
  apply (lease_tokens_valid_and_distinct 255 256); lia.
Defined.
End Lease.
