(* ===== verification/LedgerSpec.v ===== *)
(** * What the allocator relies on of its lease ledger

    The interface between [sandbox/subid/mod.rs] and [sandbox/subid/ledger.rs]:
    the operations the allocator calls, an abstract view of the stored records
    by lease token, and what each operation does to that view, whether it
    succeeds or fails.  [LeaseStore] discharges it for the directory on disk;
    [Allocator] is proved against it. *)

From S2P Require Import Prelude Text Toml Idents Metadata FileSystem LeaseRecord.
Import Lease.

Definition to_option {E A} (r : result E A) : option A :=
  match r with Ok a => Some a | Err _ => None end.

(** What a write of [r] leaves to be read back. *)
Definition stored `{TomlCrate} `{UnicodeTables} (r : LeaseRecord) : option LeaseRecord :=
  to_option (decode (encode r) (lease_id r)).

Abbreviation lview := (string → option LeaseRecord).

(** One lease may have been replaced by [new]; on success it has been. *)
Definition replaced (lid : string) (new : option LeaseRecord) (ok : bool) (v v' : lview) : Prop :=
  (∀ id, id ≠ lid → v' id = v id)
  ∧ if ok then v' lid = new else v' lid = v lid ∨ v' lid = new.

Class LeaseLedger `{TomlCrate} `{UnicodeTables} (St : Type) := {
  ledger_ok : St → Prop;
  view : St → lview;

  l_lock : M St Error unit;
  l_load : M St Error (list LeaseRecord);
  l_read : string → M St Error (option LeaseRecord);
  l_write : LeaseRecord → M St Error unit;
  l_remove : string → M St Error unit;
  l_remove_stale_temps : M St Error unit;

  view_wf : ∀ s id r, view s id = Some r → wf r ∧ lease_id r = id;
  l_lock_spec : ∀ s r s', ledger_ok s → l_lock s = (r, s') →
    ledger_ok s' ∧ ∀ id, view s' id = view s id;
  l_load_spec : ∀ s r s', ledger_ok s → l_load s = (r, s') →
    ledger_ok s' ∧ (∀ id, view s' id = view s id)
    ∧ ∀ rs, r = Ok rs → ∀ x, x ∈ rs ↔ view s (lease_id x) = Some x;
  l_read_spec : ∀ id s r s', ledger_ok s → l_read id s = (r, s') →
    ledger_ok s' ∧ (∀ id', view s' id' = view s id') ∧ ∀ o, r = Ok o → view s id = o;
  l_write_spec : ∀ x s r s', ledger_ok s → valid_lease_id (lease_id x) = true →
    l_write x s = (r, s') →
    ledger_ok s' ∧ replaced (lease_id x) (stored x) (is_ok r) (view s) (view s');
  l_remove_spec : ∀ lid s r s', ledger_ok s → l_remove lid s = (r, s') →
    ledger_ok s' ∧ replaced lid None (is_ok r) (view s) (view s');
  l_remove_stale_temps_spec : ∀ s r s', ledger_ok s → l_remove_stale_temps s = (r, s') →
    ledger_ok s' ∧ ∀ id, view s' id = view s id;
}.
