(* ===== verification/Allocator.v ===== *)
(** * The subordinate-ID allocator ([sandbox/subid/mod.rs])

    Leases one UID and one GID to each isolated sandbox, over the durable ledger
    of [LedgerSpec].  The in-memory part is an index from sandboxes to lease
    tokens and the set of claims not yet acknowledged.  Every mutation runs under
    the ledger lock and the selection mutex, so that one operation is one step of
    the system; a poisoned mutex (the process panicked) is not represented. *)

From S2P Require Import Prelude BTree Text Toml Idents Metadata Delegation AvailableIds FileSystem LeaseRecord LedgerSpec.

Module Allocator.
Import Lease.
Import Delegation (SubidRange, Delegation, uid_ranges, gid_ranges, contains, contains_uid,
  contains_gid, range_wf).

Record PoolCapacity := MkCapacity
  { delegated : Z; free : Z; reserved : Z; active : Z; releasing : Z; quarantined : Z }.

Inductive IdKind := Uid | Gid.

Section allocator.
Context `{TomlCrate} `{UnicodeTables} `{Host}.
Context {St : Type} `{!LeaseLedger St}.

Inductive Error :=
| Ledger (error : Lease.Error)
| Corrupt (reason : string)
| StateConflict (reason : string)
| MissingLease (lease_id : string)
| Undelegated (lease_id : string) (uid_delegated gid_delegated : bool)
| Exhausted (uid gid : PoolCapacity)
| Lookup (reason : string).

Record SubidAllocator := MkAllocator
  { store : St; lease_ids : gmap string string; pending_activations : gset string }.

(** [SubidAllocator::new]. *)
Definition new (s : St) : SubidAllocator := MkAllocator s ∅ ∅.

Abbreviation Al := (M SubidAllocator Error).

(** A call into the store: its error becomes [Error::Ledger]. *)
Definition on_store {A} (m : M St Lease.Error A) : Al A := fun a =>
  let '(r, s') := m (store a) in
  (map_err Ledger r, MkAllocator s' (lease_ids a) (pending_activations a)).

Definition set_lease_ids (f : gmap string string → gmap string string) : Al unit :=
  modifyS (fun a => MkAllocator (store a) (f (lease_ids a)) (pending_activations a)).
Definition set_pending (f : gset string → gset string) : Al unit :=
  modifyS (fun a => MkAllocator (store a) (lease_ids a) (f (pending_activations a))).

(** [validate_uniqueness], with the three sets of the loop. *)
Fixpoint uniqueness_loop (seen_uid seen_gid : gset Z) (seen_sandbox : gset string)
    (records : list LeaseRecord) : result Error unit :=
  match records with
  | [] => Ok tt
  | record :: records' =>
      if bool_decide (uid record ∈ seen_uid)
      then Err (Corrupt ("UID " +:+ fmt_dec (uid record) +:+ " appears in more than one lease record"))
      else if bool_decide (gid record ∈ seen_gid)
      then Err (Corrupt ("GID " +:+ fmt_dec (gid record) +:+ " appears in more than one lease record"))
      else if bool_decide (sandbox_id record ∈ seen_sandbox)
      then Err (Corrupt ("sandbox " +:+ sandbox_id record +:+ " holds more than one lease record"))
      else uniqueness_loop ({[uid record]} ∪ seen_uid) ({[gid record]} ∪ seen_gid)
             ({[sandbox_id record]} ∪ seen_sandbox) records'
  end.

Definition validate_uniqueness (records : list LeaseRecord) : result Error unit :=
  uniqueness_loop ∅ ∅ ∅ records.

(** [capacity]: the counters of an exhaustion report. *)
Definition count_state (s : LeaseState) (records : list LeaseRecord) : Z :=
  Z.of_nat (length (filter (fun r => state r = s) records)).

Definition capacity (ranges : list SubidRange) (records : list LeaseRecord) (kind : IdKind)
    : PoolCapacity :=
  let delegated := foldr Z.add 0 (AvailableIds.ids_count <$> ranges) in
  let id r := match kind with Uid => uid r | Gid => gid r end in
  let used := Z.of_nat (length (filter (fun r =>
    existsb (fun range => contains range (id r)) ranges = true) records)) in
  MkCapacity delegated (Z.max 0 (delegated - used))
    (count_state Reserved records) (count_state Active records)
    (count_state Releasing records) (count_state Quarantined records).

Definition load : Al (list LeaseRecord) :=
  records ← on_store l_load;
  _ ← liftR (validate_uniqueness records);
  _ ← set_lease_ids (fun _ =>
        foldl (fun m r => <[sandbox_id r := lease_id r]> m) ∅ records);
  mret records.

Definition load_indexed : Al (list (string * LeaseRecord)) :=
  records ← load;
  mret (bt_collect ((fun r => (sandbox_id r, r)) <$> records)).

Definition lease_for (sandbox : string) : Al (option LeaseRecord) :=
  a ← getS;
  match lease_ids a !! sandbox with
  | None => m ← load_indexed; mret (bt_get sandbox m)
  | Some lease =>
      r ← on_store (l_read lease);
      match r with
      | Some record =>
          if bool_decide (sandbox_id record = sandbox) then mret (Some record)
          else fail (Corrupt ("lease " +:+ lease_id record +:+ " is indexed for sandbox "
                                +:+ sandbox +:+ " but names sandbox " +:+ sandbox_id record))
      | None => m ← load_indexed; mret (bt_get sandbox m)
      end
  end.

(** Both guards; the mutex itself cannot fail here. *)
Definition mutation_guard : Al unit := on_store l_lock.

Definition same_incarnation (current expected : LeaseRecord) : bool :=
  bool_decide (lease_id current = lease_id expected)
  && bool_decide (sandbox_id current = sandbox_id expected)
  && bool_decide (owner current = owner expected)
  && (uid current =? uid expected)
  && (gid current =? gid expected).

(** The IDs [claim] strikes from a pool before it chooses. *)
Definition taken (own : Z) (id : LeaseRecord → Z) (records : list LeaseRecord) : list Z :=
  [0; own] ++ (id <$> records).

Definition exhausted (d : Delegation) (records : list LeaseRecord) : Error :=
  Exhausted (capacity (uid_ranges d) records Uid) (capacity (gid_ranges d) records Gid).

(** [claim]; [token] is the random draw of [new_lease_id]. *)
Definition claim (token : Z) (sandbox owner : string) (d : Delegation) : Al LeaseRecord :=
  _ ← mutation_guard;
  _ ← on_store l_remove_stale_temps;
  records ← load;
  if existsb (fun r => bool_decide (sandbox_id r = sandbox)) records
  then fail (StateConflict ("sandbox " +:+ sandbox
         +:+ " already holds a lease; one durable sandbox has exactly one incarnation lease"))
  else
    let available_uid :=
      AvailableIds.remove_all (taken euid uid records) (AvailableIds.from_ranges (uid_ranges d)) in
    let available_gid :=
      AvailableIds.remove_all (taken egid gid records) (AvailableIds.from_ranges (gid_ranges d)) in
    u ← liftR (ok_or (exhausted d records) (AvailableIds.lowest available_uid));
    g ← liftR (ok_or (exhausted d records) (AvailableIds.lowest available_gid));
    let record := MkLease (new_lease_id token) sandbox owner u g Active None in
    _ ← on_store (l_write record);
    _ ← set_pending (fun p => {[lease_id record]} ∪ p);
    _ ← set_lease_ids (fun m => <[sandbox_id record := lease_id record]> m);
    mret record.

(** Read the record of [expected]'s token and check it is that incarnation. *)
Definition current_record (conflict : string) (expected : LeaseRecord) : Al LeaseRecord :=
  r ← on_store (l_read (lease_id expected));
  current ← liftR (ok_or (MissingLease (lease_id expected)) r);
  if negb (same_incarnation current expected)
  then fail (StateConflict ("lease " +:+ lease_id expected +:+ conflict))
  else mret current.

Definition not_incarnation : string :=
  " is not the expected incarnation (sandbox/owner/IDs changed)".

Definition expected_record (expected : LeaseRecord) (states : list LeaseState) : Al LeaseRecord :=
  current ← current_record not_incarnation expected;
  if negb (bool_decide (state_str (state current) ∈ state_str <$> states))
  then fail (StateConflict ("lease " +:+ lease_id expected +:+ " is "
         +:+ state_str (state current) +:+ ", expected "
         +:+ String.concat " or " (state_str <$> states)))
  else mret current.

Definition activate (expected : LeaseRecord) : Al LeaseRecord :=
  _ ← mutation_guard;
  current ← current_record not_incarnation expected;
  match state expected, state current with
  | Active, Active =>
      a ← getS;
      let acknowledged := bool_decide (lease_id expected ∈ pending_activations a) in
      _ ← set_pending (fun p => p ∖ {[lease_id expected]});
      if acknowledged then mret current
      else fail (StateConflict ("lease " +:+ lease_id expected +:+ " is already active"))
  | Reserved, Reserved =>
      let next := with_state current Active in
      _ ← on_store (l_write next);
      mret next
  | _, current_state =>
      fail (StateConflict ("lease " +:+ lease_id expected +:+ " is " +:+ state_str current_state
              +:+ ", expected Reserved or a pending Active claim"))
  end.

Definition transition (expected : LeaseRecord) (from : list LeaseState) (to : LeaseState)
    : Al LeaseRecord :=
  _ ← mutation_guard;
  current ← expected_record expected from;
  let next := with_state current to in
  _ ← on_store (l_write next);
  mret next.

Definition begin_release (expected : LeaseRecord) : Al unit :=
  _ ← transition expected [Active; Reserved] Releasing;
  mret tt.

(** The common tail of [finish_release] and [free_reserved_absent]. *)
Definition remove_expected (expected : LeaseRecord) (from : LeaseState) : Al unit :=
  _ ← mutation_guard;
  _ ← expected_record expected [from];
  _ ← on_store (l_remove (lease_id expected));
  _ ← set_pending (fun p => p ∖ {[lease_id expected]});
  set_lease_ids (delete (sandbox_id expected)).

Definition finish_release (expected : LeaseRecord) : Al unit := remove_expected expected Releasing.
Definition free_reserved_absent (expected : LeaseRecord) : Al unit := remove_expected expected Reserved.

Definition quarantine (expected : LeaseRecord) (reason : string) : Al unit :=
  _ ← mutation_guard;
  current ← current_record " is not the expected incarnation" expected;
  _ ← on_store (l_write (with_quarantine_reason current reason));
  set_pending (fun p => p ∖ {[lease_id expected]}).

Definition validate_delegated (record : LeaseRecord) (d : Delegation) : result Error unit :=
  let uid_delegated := contains_uid d (uid record) in
  let gid_delegated := contains_gid d (gid record) in
  if uid_delegated && gid_delegated then Ok tt
  else Err (Undelegated (lease_id record) uid_delegated gid_delegated).

(** *** Startup reconciliation *)

(** What the durable-sandbox scan reports for one sandbox. *)
Inductive SandboxView :=
| ViewActive (owner : string)
| ViewDeleting (owner : string)
| ViewCorrupt (reason : string).

Record Reconciliation := MkReport
  { promoted : list LeaseRecord; freed : list LeaseRecord;
    quarantines : list (LeaseRecord * string); resuming_deletion : list LeaseRecord }.

Definition push_promoted (r : LeaseRecord) (t : Reconciliation) : Reconciliation :=
  MkReport (promoted t ++ [r]) (freed t) (quarantines t) (resuming_deletion t).
Definition push_freed (r : LeaseRecord) (t : Reconciliation) : Reconciliation :=
  MkReport (promoted t) (freed t ++ [r]) (quarantines t) (resuming_deletion t).
Definition push_quarantined (r : LeaseRecord) (reason : string) (t : Reconciliation)
    : Reconciliation :=
  MkReport (promoted t) (freed t) (quarantines t ++ [(r, reason)]) (resuming_deletion t).
Definition push_resuming (r : LeaseRecord) (t : Reconciliation) : Reconciliation :=
  MkReport (promoted t) (freed t) (quarantines t) (resuming_deletion t ++ [r]).

(** The [Active { owner } | Deleting { owner } if owner == record.owner] arm. *)
Definition owned_by (record : LeaseRecord) (v : SandboxView) : bool :=
  match v with
  | ViewActive o | ViewDeleting o => bool_decide (o = owner record)
  | ViewCorrupt _ => false
  end.

Definition quarantine_into (report : Reconciliation) (record : LeaseRecord) (reason : string)
    : Al Reconciliation :=
  _ ← quarantine record reason;
  mret (push_quarantined record reason report).

(** One turn of the loop of [reconcile_loaded]. *)
Definition reconcile_one (runtime_proof : bool) (report : Reconciliation) (record : LeaseRecord)
    (sandbox : option SandboxView) : Al Reconciliation :=
  match state record with
  | Reserved =>
      match sandbox with
      | None => _ ← free_reserved_absent record; mret (push_freed record report)
      | Some v =>
          if owned_by record v then
            p ← activate record; mret (push_promoted p report)
          else match v with
               | ViewCorrupt reason => quarantine_into report record reason
               | _ => quarantine_into report record
                        "reserved lease owner does not match the durable sandbox owner"
               end
      end
  | Active =>
      let reason :=
        match sandbox with
        | Some v =>
            if owned_by record v then None
            else match v with
                 | ViewCorrupt reason =>
                     Some ("active lease has a corrupt durable sandbox: " +:+ reason)
                 | _ => Some "active lease owner does not match the durable sandbox owner"
                 end
        | None => Some "active lease with no durable sandbox"
        end in
      match reason with
      | Some reason => quarantine_into report record reason
      | None => mret report
      end
  | Releasing =>
      match sandbox with
      | Some (ViewCorrupt reason) =>
          quarantine_into report record
            ("releasing lease has a corrupt durable sandbox: " +:+ reason)
      | Some v =>
          if owned_by record v then mret (push_resuming record report)
          else quarantine_into report record
                 "releasing lease owner does not match the durable sandbox owner"
      | None =>
          if runtime_proof then
            _ ← finish_release record; mret (push_freed record report)
          else mret report
      end
  | Quarantined => mret report
  end.

Fixpoint reconcile_loop (lookup : string → result string (option SandboxView))
    (runtime_proof : bool) (report : Reconciliation) (records : list LeaseRecord)
    : Al Reconciliation :=
  match records with
  | [] => mret report
  | record :: records' =>
      sandbox ← liftR (map_err Lookup (lookup (sandbox_id record)));
      report' ← reconcile_one runtime_proof report record sandbox;
      reconcile_loop lookup runtime_proof report' records'
  end.

Definition reconcile_loaded (records : list (string * LeaseRecord))
    (lookup : string → result string (option SandboxView)) (runtime_proof : bool)
    : Al Reconciliation :=
  reconcile_loop lookup runtime_proof (MkReport [] [] [] []) records.*2.

Definition reconcile (lookup : string → result string (option SandboxView)) (runtime_proof : bool)
    : Al Reconciliation :=
  records ← load_indexed;
  reconcile_loaded records lookup runtime_proof.
End allocator.
Arguments Error {_}.
Arguments SubidAllocator St : clear implicits.

(** ** The abstract lease protocol

    What any allocator operation, succeeding or failing, may do to the ledger. *)

Section protocol.
Context `{TomlCrate} `{UnicodeTables}.

(** The state changes a record may go through. *)
Definition moves (from to : LeaseState) : bool :=
  match from, to with
  | Reserved, Active | Active, Releasing | Reserved, Releasing | _, Quarantined => true
  | _, _ => false
  end.

Definition updates (v : lview) (lid : string) (o : option LeaseRecord) (v' : lview) : Prop :=
  v' lid = o ∧ ∀ id, id ≠ lid → v' id = v id.

(** Which operation takes the step: a claim under a new token, a quarantine
    with its reason, or any other. *)
Inductive label := LClaim (lid : string) | LQuarantine (reason : string) | LOther.

Inductive lease_step (l : label) (v v' : lview) : Prop :=
| step_skip : (∀ id, v' id = v id) → lease_step l v v'
| step_publish r :
    l = LClaim (lease_id r) → state r = Active → quarantine_reason r = None →
    (∀ id r0, v id = Some r0 →
       uid r0 ≠ uid r ∧ gid r0 ≠ gid r ∧ sandbox_id r0 ≠ sandbox_id r) →
    updates v (lease_id r) (Some r) v' → lease_step l v v'
| step_move r r' :
    v (lease_id r) = Some r → same_incarnation r' r = true →
    moves (state r) (state r') = true →
    updates v (lease_id r) (Some r') v' → lease_step l v v'
| step_free r :
    v (lease_id r) = Some r → state r = Releasing ∨ state r = Reserved →
    updates v (lease_id r) None v' → lease_step l v v'
| step_spoil r reason :
    l = LQuarantine reason →
    v (lease_id r) = Some r → stored (with_quarantine_reason r reason) = None →
    updates v (lease_id r) None v' → lease_step l v v'.

Definition any_step (v v' : lview) : Prop := ∃ l, lease_step l v v'.

(** No ID and no sandbox is in two leases. *)
Definition unique (v : lview) : Prop := ∀ id1 id2 r1 r2,
  v id1 = Some r1 → v id2 = Some r2 →
  uid r1 = uid r2 ∨ gid r1 = gid r2 ∨ sandbox_id r1 = sandbox_id r2 → id1 = id2.

Lemma same_incarnation_spec r' r :
  same_incarnation r' r = true ↔
  lease_id r' = lease_id r ∧ sandbox_id r' = sandbox_id r ∧ owner r' = owner r
  ∧ uid r' = uid r ∧ gid r' = gid r.
Proof.
  unfold same_incarnation.
  rewrite !andb_true_iff, !bool_decide_eq_true, !Z.eqb_eq. tauto.
Qed.

Lemma unique_drop v v' lid : unique v → updates v lid None v' → unique v'.
Proof.
  intros Hu [Hl Ho] id1 id2 r1 r2 H1 H2 Hs.
  assert (id1 ≠ lid) by congruence. assert (id2 ≠ lid) by congruence.
  rewrite Ho in H1, H2 by done. by eapply Hu.
Qed.

Lemma lease_step_unique l v v' : unique v → lease_step l v v' → unique v'.
Proof.
  intros Hu [Hv|r _ _ _ Hfresh [Hl Ho]|r r' Hr Hi _ [Hl Ho]|r _ _ Hup|r reason _ _ _ Hup];
    [|..|by eapply unique_drop|by eapply unique_drop];
    intros id1 id2 r1 r2 H1 H2 Hs.
  - rewrite Hv in H1, H2. by eapply Hu.
  - destruct (decide (id1 = lease_id r)) as [->|Hn1], (decide (id2 = lease_id r)) as [->|Hn2];
      [done|rewrite Ho in H2 by done|rewrite Ho in H1 by done|rewrite Ho in H1, H2 by done];
      [| |by eapply Hu].
    + specialize (Hfresh _ _ H2). naive_solver.
    + specialize (Hfresh _ _ H1). naive_solver.
  - apply same_incarnation_spec in Hi as (_ & Hsb & _ & Hui & Hgi).
    destruct (decide (id1 = lease_id r)) as [->|Hn1], (decide (id2 = lease_id r)) as [->|Hn2];
      [done|rewrite Ho in H2 by done|rewrite Ho in H1 by done|rewrite Ho in H1, H2 by done];
      [| |by eapply Hu]; simplify_eq; eapply Hu; [done|done| |done|done|]; rewrite ?H1, ?H2; intuition congruence.
Qed.
End protocol.

(** ** The operations refine the protocol *)

Section refinement.
Context `{TomlCrate} `{UnicodeTables} `{!TomlLaws} `{Host}.
Context {St : Type} `{!LeaseLedger St}.
Implicit Types a : SubidAllocator St.

(** The ledger is well formed and reads as before. *)
Definition reads a a' : Prop :=
  ledger_ok (store a') ∧ ∀ id, view (store a') id = view (store a) id.

Lemma reads_refl a : ledger_ok (store a) → reads a a.
Proof. done. Qed.

Lemma reads_trans a1 a2 a3 : reads a1 a2 → reads a2 a3 → reads a1 a3.
Proof. intros [_ H12] [Hok H23]. split; [done|]. intros id. by rewrite H23. Qed.

Lemma on_store_inv {A} (m : M St Lease.Error A) a r a' :
  on_store m a = (r, a') →
  ∃ r0, m (store a) = (r0, store a') ∧ r = map_err Ledger r0
    ∧ lease_ids a' = lease_ids a ∧ pending_activations a' = pending_activations a.
Proof. unfold on_store. destruct (m (store a)) as [r0 s']. intros [= <- <-]. by exists r0. Qed.

Lemma map_err_ok {E E' A} (g : E → E') (r : result E A) : is_ok (map_err g r) = is_ok r.
Proof. by destruct r. Qed.

Lemma guard_reads a r a' :
  ledger_ok (store a) → mutation_guard a = (r, a') →
  reads a a' ∧ pending_activations a' = pending_activations a ∧ lease_ids a' = lease_ids a.
Proof.
  intros Hok (r0 & Hl & _ & Hi & Hp)%on_store_inv. by apply l_lock_spec in Hl.
Qed.

Lemma sweep_reads a r a' :
  ledger_ok (store a) → on_store l_remove_stale_temps a = (r, a') → reads a a'.
Proof. intros Hok (r0 & Hl & _)%on_store_inv. by apply l_remove_stale_temps_spec in Hl. Qed.

Lemma load_reads a r a' :
  ledger_ok (store a) → load a = (r, a') →
  reads a a' ∧ ∀ rs, r = Ok rs → ∀ x, x ∈ rs ↔ view (store a) (lease_id x) = Some x.
Proof.
  intros Hok Hl. unfold load in Hl. apply bind_inv in Hl as [(rs & a1 & Hs & Hk)|(e & Hs & ->)].
  - apply on_store_inv in Hs as (r0 & Hs & Hr & _). apply l_load_spec in Hs as (Hok' & Hv & Hx); [|done].
    destruct r0 as [rs'|]; simplify_eq/=.
    apply bind_inv in Hk as [(u & a2 & [_ ->]%liftR_Ok & Hk)|(e & He & ->)].
    + unfold_monad. simplify_eq/=. split; [done|]. intros rs [= <-]. by apply Hx.
    + unfold liftR in He. simplify_eq. by split.
  - apply on_store_inv in Hs as (r0 & Hs & Hr & _). by apply l_load_spec in Hs as (? & ? & _).
Qed.

Lemma current_reads msg e a r a' :
  ledger_ok (store a) → current_record msg e a = (r, a') →
  reads a a' ∧ pending_activations a' = pending_activations a
  ∧ ∀ c, r = Ok c → view (store a) (lease_id e) = Some c ∧ same_incarnation c e = true.
Proof.
  intros Hok Hl. unfold current_record in Hl.
  apply bind_inv in Hl as [(o & a1 & Hs & Hk)|(x & Hs & ->)];
    apply on_store_inv in Hs as (r0 & Hs & Hr & _ & Hp);
    apply l_read_spec in Hs as (Hok' & Hv & Hx); [|done| |done].
  - destruct r0 as [o'|]; simplify_eq/=. specialize (Hx _ eq_refl).
    destruct o' as [c|]; unfold_monad; simpl in Hk; [|by simplify_eq].
    destruct (same_incarnation c e) eqn:Hi; simplify_eq/=; [|done].
    split; [done|]. split; [done|]. by intros c' [= <-].
  - by split.
Qed.

Lemma expected_reads e states a r a' :
  ledger_ok (store a) → expected_record e states a = (r, a') →
  reads a a' ∧ ∀ c, r = Ok c →
    view (store a) (lease_id e) = Some c ∧ same_incarnation c e = true ∧ state c ∈ states.
Proof.
  intros Hok Hl. unfold expected_record in Hl.
  apply bind_inv in Hl as [(c & a1 & Hs & Hk)|(x & Hs & ->)];
    apply current_reads in Hs as (Hr & _ & Hc); [|done| |done].
  - destruct (Hc c eq_refl) as [Hv Hi].
    destruct (bool_decide _) eqn:Hin; unfold_monad; simplify_eq/=; [|done].
    split; [done|]. intros c' [= <-]. split_and!; [done..|]. bool_to_prop.
    apply list_elem_of_fmap in Hin as (st & Heq & Hin).
    replace (state c) with st; [done|]. by destruct st, (state c).
  - by split.
Qed.

(** *** Writes and removals *)

Lemma write_step x a r a' :
  ledger_ok (store a) → valid_lease_id (lease_id x) = true →
  on_store (l_write x) a = (r, a') →
  ledger_ok (store a') ∧ pending_activations a' = pending_activations a
  ∧ (updates (view (store a)) (lease_id x) (stored x) (view (store a'))
     ∨ is_ok r = false ∧ ∀ id, view (store a') id = view (store a) id).
Proof.
  intros Hok Hv (r0 & Hw & -> & _ & Hp)%on_store_inv. rewrite map_err_ok.
  apply l_write_spec in Hw as (Hok' & Ho & Hn); [|done..]. split; [done|]. split; [done|].
  destruct (is_ok r0); [by left|]. destruct Hn as [Hn|Hn]; [right|by left]. split; [done|].
  intros id. destruct (decide (id = lease_id x)) as [->|]; auto.
Qed.

Lemma remove_step lid a r a' :
  ledger_ok (store a) → on_store (l_remove lid) a = (r, a') →
  ledger_ok (store a') ∧ (updates (view (store a)) lid None (view (store a'))
     ∨ is_ok r = false ∧ ∀ id, view (store a') id = view (store a) id).
Proof.
  intros Hok (r0 & Hw & -> & _)%on_store_inv. rewrite map_err_ok.
  apply l_remove_spec in Hw as (Hok' & Ho & Hn); [|done..]. split; [done|].
  destruct (is_ok r0); [by left|]. destruct Hn as [Hn|Hn]; [right|by left]. split; [done|].
  intros id. destruct (decide (id = lid)) as [->|]; auto.
Qed.

Lemma updates_from v v0 lid o v' : (∀ id, v id = v0 id) → updates v lid o v' → updates v0 lid o v'.
Proof. intros He [Hl Ho]. split; [done|]. intros id Hn. rewrite Ho by done. apply He. Qed.

(** A state change other than quarantine is stored as it is. *)
Lemma with_state_wf r s : wf r → wf (with_state r s).
Proof.
  intros [Hl Hs Ho Hu Hg Hr]. split; try done. simpl.
  case_bool_decide; [by right|by left].
Qed.

Lemma stored_with_state r s : wf r → s ≠ Quarantined → stored (with_state r s) = Some (with_state r s).
Proof.
  intros Hw Hs. unfold stored.
  assert (Hr : quarantine_reason (with_state r s) = None)
    by (simpl; by rewrite bool_decide_eq_false_2).
  rewrite lease_decode_encode; [done|by apply with_state_wf|by unfold plain_reason; rewrite Hr|by rewrite Hr].
Qed.

Lemma same_incarnation_with r s : same_incarnation (with_state r s) r = true.
Proof. by apply same_incarnation_spec. Qed.

(** Writing the next state of the current record is a move. *)
Lemma move_step c s a0 a r a' :
  reads a0 a → ledger_ok (store a) → view (store a0) (lease_id c) = Some c →
  s ≠ Quarantined → moves (state c) s = true →
  on_store (l_write (with_state c s)) a = (r, a') →
  ledger_ok (store a') ∧ lease_step LOther (view (store a0)) (view (store a'))
  ∧ (is_ok r = true → updates (view (store a0)) (lease_id c) (Some (with_state c s)) (view (store a'))).
Proof.
  intros [_ Hr] Hok Hc Hs Hm Hw. destruct (view_wf _ _ _ Hc) as [Hwf _].
  apply write_step in Hw as (Hok' & _ & Hstep); [|done|apply Hwf]. split; [done|].
  destruct Hstep as [Hu|[Hf Hk]].
  - rewrite stored_with_state in Hu by done. apply (updates_from _ _ _ _ _ Hr) in Hu.
    split; [|done].
    apply (step_move _ _ _ c (with_state c s)); auto using same_incarnation_with.
  - split; [apply step_skip; intros; by rewrite Hk, Hr|]. by rewrite Hf.
Qed.

Lemma current_lease_id a e c :
  view (store a) (lease_id e) = Some c → view (store a) (lease_id c) = Some c.
Proof. intros Hc. by destruct (view_wf _ _ _ Hc) as [_ ->]. Qed.

(** The postcondition all operations share. *)
Definition steps (l : label) a a' : Prop :=
  ledger_ok (store a') ∧ lease_step l (view (store a)) (view (store a')).

Lemma reads_steps l a a' : reads a a' → steps l a a'.
Proof. intros [Hok Hv]. split; [done|]. by apply step_skip. Qed.

Lemma transition_steps e from to a r a' :
  ledger_ok (store a) → (∀ s, s ∈ from → moves s to = true) → to ≠ Quarantined →
  transition e from to a = (r, a') →
  steps LOther a a' ∧ ∀ next, r = Ok next → ∃ c,
    view (store a) (lease_id e) = Some c ∧ same_incarnation c e = true ∧ state c ∈ from
    ∧ next = with_state c to ∧ updates (view (store a)) (lease_id c) (Some next) (view (store a')).
Proof.
  intros Hok Hmv Hto Hl. unfold transition in Hl.
  apply bind_inv in Hl as [(u & a1 & Hg & Hk)|(x & Hg & ->)];
    apply guard_reads in Hg as [Hg _]; [|done| |done].
  2:{ split; [by apply reads_steps|done]. }
  apply bind_inv in Hk as [(c & a2 & He & Hk)|(x & He & ->)];
    apply expected_reads in He as [He Hc]; [|by destruct Hg| |by destruct Hg].
  2:{ split; [by eapply reads_steps, reads_trans|done]. }
  destruct (Hc c eq_refl) as (Hv & Hi & Hst). rewrite (proj2 Hg) in Hv.
  pose proof (reads_trans _ _ _ Hg He) as Hr.
  apply bind_inv in Hk as [(u' & a3 & Hw & Hk)|(x & Hw & ->)];
    (eapply move_step in Hw as (Hok' & Hs & Hu);
      [|exact Hr|apply Hr|by eapply current_lease_id|done|by apply Hmv]).
  - unfold_monad. simplify_eq/=. split; [done|]. intros next [= <-]. exists c.
    split_and!; [done..|by apply Hu].
  - split; [done|]. done.
Qed.

Lemma wf_active c : wf c → state c = Active → with_state c Active = c.
Proof.
  intros [_ _ _ _ _ [Hq|Hq]] Hs; [|congruence]. destruct c; simpl in *; by subst.
Qed.

Lemma activate_steps e a r a' :
  ledger_ok (store a) → activate e a = (r, a') →
  steps LOther a a' ∧ ∀ c', r = Ok c' → ∃ c,
    view (store a) (lease_id e) = Some c ∧ same_incarnation c e = true
    ∧ (state c = Reserved ∨ state c = Active ∧ lease_id e ∈ pending_activations a)
    ∧ c' = with_state c Active
    ∧ updates (view (store a)) (lease_id e) (Some c') (view (store a')).
Proof.
  intros Hok Hl. unfold activate in Hl.
  apply bind_inv in Hl as [(u & a1 & Hg & Hk)|(x & Hg & ->)];
    apply guard_reads in Hg as (Hg & Hp1 & _); [|done| |done].
  2:{ split; [by apply reads_steps|done]. }
  apply bind_inv in Hk as [(c & a2 & He & Hk)|(x & He & ->)];
    apply current_reads in He as (He & Hp2 & Hc); [|by destruct Hg| |by destruct Hg].
  2:{ split; [by eapply reads_steps, reads_trans|done]. }
  destruct (Hc c eq_refl) as (Hv & Hi). rewrite (proj2 Hg) in Hv.
  pose proof (reads_trans _ _ _ Hg He) as Hr. destruct (view_wf _ _ _ Hv) as [Hwf Hid].
  assert (Hskip : ∀ a3, store a3 = store a2 → steps LOther a a3).
  { intros a3 Heq. apply reads_steps. by destruct Hr as [? Hrv]; split; rewrite Heq. }
  destruct (state e), (state c) eqn:Hst;
    try (unfold_monad; simplify_eq/=; split; [by apply Hskip|done]).
  - apply bind_inv in Hk as [(u' & a3 & Hw & Hk)|(x & Hw & ->)];
    (eapply move_step in Hw as (Hok' & Hs & Hu);
      [|exact Hr|apply Hr|by eapply current_lease_id|done|by rewrite Hst]); [|done].
    unfold_monad. simplify_eq/=. split; [done|]. intros next [= <-]. exists c.
    specialize (Hu eq_refl). rewrite Hid in Hu. auto.
  - unfold_monad. simpl in Hk. case_bool_decide as Hack; simplify_eq/=; (split; [by apply Hskip|]); [|done].
    intros c' [= <-]. exists c. rewrite wf_active by done.
    split_and!; [done..|right; split; [done|by rewrite <-Hp1, <-Hp2]|done|].
    split; [by rewrite (proj2 Hr)|]. intros id _. by rewrite (proj2 Hr).
Qed.

Lemma begin_release_steps e a r a' :
  ledger_ok (store a) → begin_release e a = (r, a') →
  steps LOther a a' ∧ (is_ok r = true → ∃ c, view (store a) (lease_id e) = Some c
    ∧ same_incarnation c e = true ∧ (state c = Active ∨ state c = Reserved)
    ∧ updates (view (store a)) (lease_id e) (Some (with_state c Releasing)) (view (store a'))).
Proof.
  intros Hok Hl. unfold begin_release in Hl.
  assert (Hmv : ∀ s, s ∈ [Active; Reserved] → moves s Releasing = true).
  { intros s. rewrite !elem_of_cons. intros [->|[->|Hn%not_elem_of_nil]]; done. }
  apply bind_inv in Hl as [(next & a1 & Ht & Hk)|(x & Ht & ->)];
    apply (transition_steps _ _ _ _ _ _ Hok Hmv) in Ht as [Ht Hn]; [|done| |done].
  - unfold_monad. simplify_eq. split; [done|]. intros _.
    destruct (Hn _ eq_refl) as (c & Hv & Hi & Hst & -> & Hu). exists c.
    rewrite !elem_of_cons in Hst. pose proof (view_wf _ _ _ Hv) as [_ Hid]. rewrite Hid in Hu.
    split_and!; [done|done|by destruct Hst as [|[|Hx%not_elem_of_nil]]; auto|done].
  - by split.
Qed.

Lemma remove_expected_steps e from a r a' :
  ledger_ok (store a) → from = Releasing ∨ from = Reserved →
  remove_expected e from a = (r, a') →
  steps LOther a a'
  ∧ (is_ok r = true → updates (view (store a)) (lease_id e) None (view (store a')))
  ∧ (is_ok r = false ∧ reads a a'
     ∨ ∃ c, view (store a) (lease_id e) = Some c ∧ same_incarnation c e = true ∧ state c = from).
Proof.
  intros Hok Hfrom Hl. unfold remove_expected in Hl.
  apply bind_inv in Hl as [(u & a1 & Hg & Hk)|(x & Hg & ->)];
    apply guard_reads in Hg as [Hg _]; [|done| |done].
  2:{ split_and!; [by apply reads_steps|done|by left]. }
  apply bind_inv in Hk as [(c & a2 & He & Hk)|(x & He & ->)];
    apply expected_reads in He as [He Hc]; [|by destruct Hg| |by destruct Hg].
  2:{ pose proof (reads_trans _ _ _ Hg He). split_and!; [by apply reads_steps|done|by left]. }
  destruct (Hc c eq_refl) as (Hv & Hi & Hst). rewrite (proj2 Hg) in Hv.
  pose proof (reads_trans _ _ _ Hg He) as Hr. apply list_elem_of_singleton in Hst.
  assert (Hrem : ∀ (r0 : result Error unit) a3, on_store (l_remove (lease_id e)) a2 = (r0, a3) →
    steps LOther a a3 ∧ (is_ok r0 = true → updates (view (store a)) (lease_id e) None (view (store a3)))).
  { intros r0 a3 Hs. apply remove_step in Hs as [Hok' Hs]; [|apply Hr].
    destruct Hs as [Hu|[Hf Hk']].
    - apply (updates_from _ _ _ _ _ (proj2 Hr)) in Hu. split; [|done]. split; [done|].
      pose proof (view_wf _ _ _ Hv) as [_ Hid].
      apply (step_free _ _ _ c); rewrite ?Hid; [done|by rewrite Hst|done].
    - split; [|by rewrite Hf]. split; [done|]. apply step_skip. intros id.
      by rewrite Hk', (proj2 Hr). }
  apply bind_inv in Hk as [(u' & a3 & Hs & Hk)|(x & Hs & ->)];
    destruct (Hrem _ _ Hs) as [Hstep Hup].
  - unfold set_pending, set_lease_ids in Hk. unfold_monad. simplify_eq/=.
    split_and!; [done|auto|right; eauto].
  - split_and!; [done|done|right; eauto].
Qed.

Lemma quarantine_steps e reason a r a' :
  ledger_ok (store a) → str_all ascii_char reason = true →
  quarantine e reason a = (r, a') →
  steps (LQuarantine reason) a a' ∧ (∀ id, view (store a') id = view (store a) id
    ∨ id = lease_id e ∧ ∃ c, view (store a) id = Some c
        ∧ view (store a') id = stored (with_quarantine_reason c reason)) ∧ (is_ok r = true → ∃ c, view (store a) (lease_id e) = Some c
    ∧ same_incarnation c e = true
    ∧ updates (view (store a)) (lease_id e) (stored (with_quarantine_reason c reason))
        (view (store a'))).
Proof.
  intros Hok Hasc Hl. unfold quarantine in Hl.
  apply bind_inv in Hl as [(u & a1 & Hg & Hk)|(x & Hg & ->)];
    apply guard_reads in Hg as [Hg _]; [|done| |done].
  2:{ split_and!; [by apply reads_steps|left; by apply Hg|done]. }
  apply bind_inv in Hk as [(c & a2 & He & Hk)|(x & He & ->)];
    apply current_reads in He as (He & _ & Hc); [|by destruct Hg| |by destruct Hg].
  2:{ pose proof (reads_trans _ _ _ Hg He) as Hr.
      split_and!; [by apply reads_steps|left; by apply Hr|done]. }
  destruct (Hc c eq_refl) as (Hv & Hi). rewrite (proj2 Hg) in Hv.
  pose proof (reads_trans _ _ _ Hg He) as Hr. pose proof (view_wf _ _ _ Hv) as [Hwf Hid].
  set (q := with_quarantine_reason c reason) in *.
  assert (Hq : ∀ (r0 : result Error unit) a3, on_store (l_write q) a2 = (r0, a3) →
    steps (LQuarantine reason) a a3 ∧ (∀ id, view (store a3) id = view (store a) id
        ∨ id = lease_id e ∧ ∃ c, view (store a) id = Some c
            ∧ view (store a3) id = stored (with_quarantine_reason c reason))
      ∧ (is_ok r0 = true → updates (view (store a)) (lease_id e) (stored q) (view (store a3)))).
  { intros r0 a3 Hs. apply write_step in Hs as (Hok' & _ & Hs); [|apply Hr|apply Hwf].
    change (lease_id q) with (lease_id c) in Hs. rewrite Hid in Hs.
    destruct Hs as [Hu|[Hf Hk']].
    - apply (updates_from _ _ _ _ _ (proj2 Hr)) in Hu. split_and!; [| |done].
      2:{ intros id. destruct (decide (id = lease_id e)) as [->|Hn]; [right|left; by apply Hu].
          split; [done|]. exists c. split; [done|apply Hu]. }
      split; [done|].
      destruct (stored q) as [q'|] eqn:Hq.
      + assert (Hdec : decode (encode q) (lease_id q) = Ok q').
        { unfold stored in Hq. destruct (decode _ _); simplify_eq/=; done. }
        apply decode_encode_identity in Hdec as (? & ? & ? & ? & ? & Hst); [|by destruct Hwf; split; auto|done].
        apply (step_move _ _ _ c q'); rewrite ?Hid; [done|by apply same_incarnation_spec| |done].
        rewrite Hst. by destruct (state c).
      + apply (step_spoil _ _ _ c reason); by rewrite ?Hid.
    - split_and!; [|left; by rewrite Hk', (proj2 Hr)|by rewrite Hf].
      split; [done|]. apply step_skip. intros id. by rewrite Hk', (proj2 Hr). }
  apply bind_inv in Hk as [(u' & a3 & Hs & Hk)|(x & Hs & ->)];
    destruct (Hq _ _ Hs) as (Hstep & Heach & Hup); [|done].
  unfold set_pending in Hk. unfold_monad. simplify_eq/=.
  split_and!; [done..|]. intros _. exists c. auto.
Qed.

(** *** Claims *)

(** The IDs a claim may choose from: delegated, neither root nor the daemon's
    own, and in no lease whatever its state. *)
Definition assignable (ranges : list SubidRange) (own : Z) (id : LeaseRecord → Z) (v : lview)
    (x : Z) : Prop :=
  existsb (fun range => contains range x) ranges = true ∧ x ≠ 0 ∧ x ≠ own
  ∧ ∀ lid r, v lid = Some r → id r ≠ x.

Definition least (P : Z → Prop) (x : Z) : Prop := P x ∧ ∀ y, P y → x <= y.

Lemma free_assignable ranges own id v records x :
  (∀ r, r ∈ records ↔ v (lease_id r) = Some r) → (∀ lid r, v lid = Some r → lease_id r = lid) →
  AvailableIds.free ranges (taken own id records) x ↔ assignable ranges own id v x.
Proof.
  intros Hrec Hid. unfold AvailableIds.free, taken, assignable.
  rewrite not_elem_of_app, !not_elem_of_cons. split.
  - intros (Hd & (Hz & Ho & _) & Hn). split_and!; [done..|]. intros lid r Hr <-.
    apply Hn, list_elem_of_fmap. exists r. split; [done|]. apply Hrec. by rewrite (Hid _ _ Hr).
  - intros (Hd & Hz & Ho & Hn). split_and!; [done..|apply not_elem_of_nil|].
    intros (r & -> & Hr%Hrec)%list_elem_of_fmap. by eapply Hn.
Qed.

Lemma lowest_assignable ranges own id v records :
  Forall range_wf ranges →
  (∀ r, r ∈ records ↔ v (lease_id r) = Some r) → (∀ lid r, v lid = Some r → lease_id r = lid) →
  match AvailableIds.lowest (AvailableIds.remove_all (taken own id records)
          (AvailableIds.from_ranges ranges)) with
  | Some x => least (assignable ranges own id v) x
  | None => ∀ x, ¬ assignable ranges own id v x
  end.
Proof.
  intros Hr Hrec Hid. pose proof (AvailableIds.lowest_free ranges (taken own id records) Hr) as Hl.
  destruct (AvailableIds.lowest _) as [x|]; unfold least;
    setoid_rewrite <-(free_assignable ranges own id v records); done.
Qed.

Lemma assignable_bounds ranges own id v x :
  Forall range_wf ranges → assignable ranges own id v x → 0 < x <= u32_max.
Proof.
  intros Hr (Hd & Hz & _). apply List.existsb_exists in Hd as (range & Hin & Hc).
  rewrite Forall_forall in Hr. specialize (Hr range ltac:(by apply list_elem_of_In)).
  apply Delegation.wf_contains in Hc; [|done]. destruct Hr as (? & ? & Hend).
  unfold Delegation.end_, u32_max in *. lia.
Qed.

Lemma view_ids (s : St) lid r : view s lid = Some r → lease_id r = lid.
Proof. intros Hv. by apply view_wf in Hv as [_ ?]. Qed.

(** Writing a fresh record is a publication. *)
Lemma publish_step record a0 a r a' :
  reads a0 a → wf record → state record = Active → quarantine_reason record = None →
  (∀ id r0, view (store a0) id = Some r0 →
    uid r0 ≠ uid record ∧ gid r0 ≠ gid record ∧ sandbox_id r0 ≠ sandbox_id record) →
  on_store (l_write record) a = (r, a') →
  steps (LClaim (lease_id record)) a0 a' ∧ (is_ok r = true →
    updates (view (store a0)) (lease_id record) (Some record) (view (store a')))
  ∧ ∀ id, id ≠ lease_id record → view (store a') id = view (store a0) id.
Proof.
  intros [Hok Hr] Hwf Hst Hq Hfresh Hw.
  apply write_step in Hw as (Hok' & _ & Hs); [|done|apply Hwf]. destruct Hs as [Hu|[Hf Hk]].
  - assert (Hsr : stored record = Some record).
    { unfold stored. rewrite lease_decode_encode; [done|done|by unfold plain_reason; rewrite Hq|by rewrite Hq]. }
    rewrite Hsr in Hu. apply (updates_from _ _ _ _ _ Hr) in Hu.
    split_and!; [|done|apply Hu]. split; [done|]. by apply (step_publish _ _ _ record).
  - split_and!; [|by rewrite Hf|intros; by rewrite Hk, Hr].
    split; [done|]. apply step_skip. intros id. by rewrite Hk, Hr.
Qed.

Lemma on_store_error {A} (m : M St Lease.Error A) a r a' :
  on_store m a = (r, a') → ∀ e, r = Err e → ∃ x, e = Ledger x.
Proof. intros (r0 & _ & -> & _)%on_store_inv e He. destruct r0; simplify_eq/=; eauto. Qed.

Lemma uniqueness_error records : ∀ su sg ss e,
  uniqueness_loop su sg ss records = Err e → ∃ x, e = Corrupt x.
Proof.
  induction records as [|r rs IH]; intros su sg ss e; simpl; [done|].
  repeat case_bool_decide; [naive_solver..|]. apply IH.
Qed.

Lemma load_error a r a' :
  load a = (r, a') → ∀ e, r = Err e → match e with Exhausted _ _ => False | _ => True end.
Proof.
  intros Hl e ->. unfold load in Hl.
  apply bind_inv in Hl as [(rs & a1 & Hs & Hk)|(x & Hs & [= ->])].
  - apply bind_inv in Hk as [(u & a2 & _ & Hk)|(x & Hv & [= ->])]; [by unfold_monad|].
    unfold liftR in Hv. injection Hv as Hv _. by apply uniqueness_error in Hv as [? ->].
  - by destruct (on_store_error _ _ _ _ Hs _ eq_refl) as [? ->].
Qed.

Section claim.
Context (token : Z) (sandbox own : string) (d : Delegation).
Context (Htoken : 0 <= token) (Hsandbox : Id.grammar sandbox)
  (Hown : Fingerprint.parse own = Ok own)
  (Huids : Forall range_wf (uid_ranges d)) (Hgids : Forall range_wf (gid_ranges d)).

Lemma claimed_wf u g v :
  assignable (uid_ranges d) euid uid v u → assignable (gid_ranges d) egid gid v g →
  wf (MkLease (new_lease_id token) sandbox own u g Active None).
Proof.
  intros Hu%assignable_bounds Hg%assignable_bounds; [|done..].
  split; simpl; auto using new_lease_id_valid.
Qed.

Lemma claim_steps a r a' :
  ledger_ok (store a) → claim token sandbox own d a = (r, a') →
  steps (LClaim (new_lease_id token)) a a' ∧ (∀ id, id ≠ new_lease_id token → view (store a') id = view (store a) id)
  ∧ match r with
  | Ok record => ∃ u g, record = MkLease (new_lease_id token) sandbox own u g Active None
      ∧ least (assignable (uid_ranges d) euid uid (view (store a))) u
      ∧ least (assignable (gid_ranges d) egid gid (view (store a))) g
      ∧ updates (view (store a)) (lease_id record) (Some record) (view (store a'))
  | Err (Exhausted _ _) =>
      (∀ x, ¬ assignable (uid_ranges d) euid uid (view (store a)) x)
      ∨ (∀ x, ¬ assignable (gid_ranges d) egid gid (view (store a)) x)
  | Err _ => True
  end.
Proof.
  intros Hok Hl. unfold claim in Hl.
  apply bind_inv in Hl as [(u0 & a1 & Hg & Hk)|(x & Hg & ->)];
    pose proof (on_store_error _ _ _ _ Hg) as Hge; apply guard_reads in Hg as [Hg _]; [|done| |done].
  2:{ split_and!; [by apply reads_steps|intros; by apply Hg|]. by destruct (Hge _ eq_refl) as [? ->]. }
  apply bind_inv in Hk as [(u1 & a2 & Hs & Hk)|(x & Hs & ->)];
    pose proof (on_store_error _ _ _ _ Hs) as Hse; apply sweep_reads in Hs; [|apply Hg| |apply Hg].
  2:{ pose proof (reads_trans _ _ _ Hg Hs) as Hr2.
      split_and!; [by apply reads_steps|intros; by apply Hr2|]. by destruct (Hse _ eq_refl) as [? ->]. }
  pose proof (reads_trans _ _ _ Hg Hs) as Hr2. clear Hg Hs Hge Hse.
  apply bind_inv in Hk as [(rs & a3 & Hl & Hk)|(x & Hl & ->)];
    pose proof (load_error _ _ _ Hl) as Hle; apply load_reads in Hl as [Hl Hrec]; [|apply Hr2| |apply Hr2].
  2:{ pose proof (reads_trans _ _ _ Hr2 Hl) as Hr.
      split_and!; [by apply reads_steps|intros; by apply Hr|]. specialize (Hle _ eq_refl). by destruct x. }
  specialize (Hrec _ eq_refl). setoid_rewrite (proj2 Hr2) in Hrec.
  pose proof (reads_trans _ _ _ Hr2 Hl) as Hr. clear Hr2 Hl Hle.
  destruct (existsb _ rs) eqn:Hex.
  { unfold_monad. simplify_eq/=. split_and!; [by apply reads_steps|intros; by apply Hr|done]. }
  pose proof (lowest_assignable _ euid uid _ rs Huids Hrec (view_ids _)) as Hlu.
  pose proof (lowest_assignable _ egid gid _ rs Hgids Hrec (view_ids _)) as Hlg.
  cbn zeta in Hk. revert Hlu Hlg Hk.
  destruct (AvailableIds.lowest (AvailableIds.remove_all (taken euid uid rs) _)) as [u|];
    intros Hlu; destruct (AvailableIds.lowest _) as [g|]; intros Hlg Hk;
    try (unfold_monad; simplify_eq/=; split_and!; [by apply reads_steps|intros; by apply Hr|by auto]).
  rewrite (bind_run _ _ _ u a3), (bind_run _ _ _ g a3) in Hk by done.
  set (record := MkLease _ _ _ _ _ _ _) in *.
  assert (Hwf : wf record) by (eapply claimed_wf; [apply Hlu|apply Hlg]).
  assert (Hfresh : ∀ id r0, view (store a) id = Some r0 →
    uid r0 ≠ uid record ∧ gid r0 ≠ gid record ∧ sandbox_id r0 ≠ sandbox_id record).
  { intros id r0 Hv. destruct Hlu as [(_ & _ & _ & Hu) _], Hlg as [(_ & _ & _ & Hg) _].
    split_and!; [by eapply Hu|by eapply Hg|]. intros Heq.
    assert (Hin : r0 ∈ rs) by (apply Hrec; by rewrite (view_ids _ _ _ Hv)).
    assert (existsb (fun r => bool_decide (sandbox_id r = sandbox)) rs = true); [|congruence].
    apply List.existsb_exists. exists r0. split; [by apply list_elem_of_In|].
    by apply bool_decide_eq_true_2. }
  apply bind_inv in Hk as [(u' & a4 & Hs & Hk)|(x & Hs & ->)];
    destruct (publish_step record a a3 _ _ Hr Hwf eq_refl eq_refl Hfresh Hs)
      as (Hstep & Hup & Hoth).
  - unfold set_pending, set_lease_ids in Hk. unfold_monad. simplify_eq/=.
    split_and!; [done..|]. exists u, g. auto.
  - split_and!; [done..|]. by destruct (on_store_error _ _ _ _ Hs _ eq_refl) as [? ->].
Qed.
End claim.

(** *** Reconciliation *)

Inductive action := Keep | Resume | Promote | Free | QuarantineFor (reason : string).

(** The decision table of startup reconciliation. *)
Definition verdict (runtime_proof : bool) (record : LeaseRecord) (sandbox : option SandboxView)
    : action :=
  match state record, sandbox with
  | Quarantined, _ => Keep
  | Reserved, None => Free
  | Active, None => QuarantineFor "active lease with no durable sandbox"
  | Releasing, None => if runtime_proof then Free else Keep
  | Reserved, Some (ViewCorrupt reason) => QuarantineFor reason
  | Active, Some (ViewCorrupt reason) =>
      QuarantineFor ("active lease has a corrupt durable sandbox: " +:+ reason)
  | Releasing, Some (ViewCorrupt reason) =>
      QuarantineFor ("releasing lease has a corrupt durable sandbox: " +:+ reason)
  | st, Some (ViewActive o | ViewDeleting o) =>
      if bool_decide (o = owner record) then
        match st with Reserved => Promote | Releasing => Resume | _ => Keep end
      else QuarantineFor
        match st with
        | Reserved => "reserved lease owner does not match the durable sandbox owner"
        | Active => "active lease owner does not match the durable sandbox owner"
        | _ => "releasing lease owner does not match the durable sandbox owner"
        end
  end.

(** What the ledger holds under the record's token afterwards. *)
Definition outcome (record : LeaseRecord) (act : action) : option LeaseRecord :=
  match act with
  | Keep | Resume => Some record
  | Promote => Some (with_state record Active)
  | Free => None
  | QuarantineFor reason => stored (with_quarantine_reason record reason)
  end.

Definition tally (t : Reconciliation) (record : LeaseRecord) (act : action) : Reconciliation :=
  match act with
  | Keep => t
  | Resume => push_resuming record t
  | Promote => push_promoted (with_state record Active) t
  | Free => push_freed record t
  | QuarantineFor reason => push_quarantined record reason t
  end.

Definition ascii_view (sandbox : option SandboxView) : Prop :=
  match sandbox with Some (ViewCorrupt reason) => str_all ascii_char reason = true | _ => True end.

(** The action carried out on a record that is on disk as it was loaded. *)
Definition carries_out a (record : LeaseRecord) (act : action) t (r : result Error Reconciliation)
    a' : Prop :=
  (∃ l, steps l a a') ∧ ∀ t', r = Ok t' →
    updates (view (store a)) (lease_id record) (outcome record act) (view (store a'))
    ∧ t' = tally t record act.

Lemma updates_same (v v' : lview) lid o : v lid = o → (∀ id, v' id = v id) → updates v lid o v'.
Proof. intros <- Hv. by split. Qed.

Lemma keep_carries a record act t r a' :
  ledger_ok (store a) → view (store a) (lease_id record) = Some record →
  outcome record act = Some record →
  (mret (tally t record act) : M (SubidAllocator St) Error _) a = (r, a') →
  carries_out a record act t r a'.
Proof.
  intros Hok Hv Ho Hm. unfold_monad. simplify_eq. split; [by exists LOther; apply reads_steps, reads_refl|].
  intros t' [= <-]. split; [|done]. apply updates_same; [by rewrite Ho|done].
Qed.

Lemma quarantine_carries a record reason t r a' :
  ledger_ok (store a) → view (store a) (lease_id record) = Some record →
  str_all ascii_char reason = true →
  quarantine_into t record reason a = (r, a') →
  carries_out a record (QuarantineFor reason) t r a'.
Proof.
  intros Hok Hv Hasc Hq. unfold quarantine_into in Hq.
  apply bind_inv in Hq as [(u & a1 & Hq & Hk)|(x & Hq & ->)];
    apply quarantine_steps in Hq as (Hs & _ & Hu); [|done..| |done|done]; [|by split; [eexists|]].
  unfold_monad. simplify_eq. split; [by eexists|]. intros t' [= <-].
  destruct (Hu eq_refl) as (c & Hc & _ & Hup). simplify_eq. done.
Qed.

Lemma free_carries a record from t r a' :
  ledger_ok (store a) → view (store a) (lease_id record) = Some record →
  from = Releasing ∨ from = Reserved →
  (_ ← remove_expected record from; mret (push_freed record t)) a = (r, a') →
  carries_out a record Free t r a'.
Proof.
  intros Hok Hv Hf Hq.
  apply bind_inv in Hq as [(u & a1 & Hq & Hk)|(x & Hq & ->)];
    apply remove_expected_steps in Hq as (Hs & Hu & _); [|done..| |done|done]; [|by split; [eexists|]].
  unfold_monad. simplify_eq. split; [by eexists|]. intros t' [= <-]. auto.
Qed.

Lemma promote_carries a record t r a' :
  ledger_ok (store a) → view (store a) (lease_id record) = Some record →
  (p ← activate record; mret (push_promoted p t)) a = (r, a') →
  carries_out a record Promote t r a'.
Proof.
  intros Hok Hv Hq.
  apply bind_inv in Hq as [(p & a1 & Hq & Hk)|(x & Hq & ->)];
    apply activate_steps in Hq as [Hs Hu]; [|done| |done]; [|by split; [eexists|]].
  unfold_monad. simplify_eq. split; [by eexists|]. intros t' [= <-].
  destruct (Hu _ eq_refl) as (c & Hc & _ & _ & -> & Hup). simplify_eq. done.
Qed.

Lemma str_all_ascii_app x y :
  str_all ascii_char x = true → str_all ascii_char y = true → str_all ascii_char (x +:+ y) = true.
Proof. intros Hx Hy. by rewrite str_all_app, Hx, Hy. Qed.

(** One turn of the loop does what the decision table says. *)
Lemma reconcile_one_carries proof record sandbox t a r a' :
  ledger_ok (store a) → view (store a) (lease_id record) = Some record → ascii_view sandbox →
  reconcile_one proof t record sandbox a = (r, a') →
  carries_out a record (verdict proof record sandbox) t r a'.
Proof.
  intros Hok Hv Hasc Hm. unfold reconcile_one, verdict, owned_by in *.
  destruct (state record), sandbox as [[o|o|reason]|]; simpl in Hasc;
    try (destruct (bool_decide (o = owner record)));
    try (destruct proof);
    first [ by eapply promote_carries | by eapply keep_carries
          | by eapply free_carries; [done|done|left|exact Hm]
          | by eapply free_carries; [done|done|right|exact Hm]
          | by eapply quarantine_carries;
              [done|done|first [exact Hasc | by vm_compute | by apply str_all_ascii_app]|exact Hm]
          | idtac ].
Qed.

Definition found (lookup : string → result string (option SandboxView)) (record : LeaseRecord)
    : option SandboxView :=
  match lookup (sandbox_id record) with Ok sandbox => sandbox | Err _ => None end.

Lemma lease_step_trans_others v v' lid o id : updates v lid o v' → id ≠ lid → v' id = v id.
Proof. intros [_ Ho] Hn. by apply Ho. Qed.

Lemma reconcile_loop_spec lookup proof records : ∀ t a r a',
  ledger_ok (store a) → NoDup (lease_id <$> records) →
  (∀ x, x ∈ records → view (store a) (lease_id x) = Some x) →
  (∀ sb v, lookup sb = Ok v → ascii_view v) →
  reconcile_loop lookup proof t records a = (r, a') →
  ledger_ok (store a') ∧ rtc any_step (view (store a)) (view (store a'))
  ∧ ∀ t', r = Ok t' →
    (∀ x, x ∈ records → is_ok (lookup (sandbox_id x)) = true
       ∧ view (store a') (lease_id x) = outcome x (verdict proof x (found lookup x)))
    ∧ (∀ id, id ∉ lease_id <$> records → view (store a') id = view (store a) id)
    ∧ t' = foldl (fun t x => tally t x (verdict proof x (found lookup x))) t records.
Proof.
  induction records as [|x records IH]; intros t a r a' Hok Hnd Hrec Hasc Hl; simpl in Hl.
  { unfold_monad. simplify_eq. split_and!; [done..|]. intros t' [= <-].
    split_and!; [by intros ? ?%not_elem_of_nil|done..]. }
  apply NoDup_cons in Hnd as [Hx Hnd].
  apply bind_inv in Hl as [(v & a1 & [Hlk ->]%liftR_Ok & Hl)|(e & Hlk & ->)].
  2:{ unfold liftR in Hlk. by simplify_eq. }
  apply map_err_Ok in Hlk. pose proof (Hrec x ltac:(by left)) as Hvx.
  apply bind_inv in Hl as [(t1 & a1 & Ho & Hl)|(e & Ho & ->)];
    (eapply reconcile_one_carries in Ho as [[l [Hok1 Hs1]] Hc1]; [|done..|by eapply Hasc]).
  2:{ split_and!; [done|apply rtc_once; by exists l|done]. }
  destruct (Hc1 _ eq_refl) as [Hup ->].
  assert (Hf : found lookup x = v) by (unfold found; by rewrite Hlk). rewrite <-Hf in Hup, Hl.
  eapply IH in Hl as (Hok' & Hs' & Hc'); [|done|done| |done].
  2:{ intros y Hy. rewrite (lease_step_trans_others _ _ _ _ _ Hup); [by apply Hrec; right|].
      intros Heq. apply Hx. rewrite <-Heq. by apply list_elem_of_fmap_2. }
  split_and!; [done|by eapply rtc_l; [exists l|]|]. intros t' Ht. destruct (Hc' t' Ht) as (Hin & Hout & Ht').
  split_and!; [|intros id|done].
  - intros y [->|Hy]%elem_of_cons; [|auto]. rewrite Hlk. split; [done|].
    rewrite Hout by done. by destruct Hup.
  - rewrite fmap_cons, not_elem_of_cons. intros [Hn Hnot]. rewrite Hout by done.
    by eapply lease_step_trans_others.
Qed.

(** *** The whole ledger *)

Lemma uniqueness_ok records : ∀ su sg ss,
  uniqueness_loop su sg ss records = Ok tt →
  NoDup (sandbox_id <$> records) ∧ ∀ r, r ∈ records → sandbox_id r ∉ ss.
Proof.
  induction records as [|x records IH]; intros su sg ss; simpl; intros Hu.
  { split; [constructor|]. by intros r ?%not_elem_of_nil. }
  repeat case_bool_decide; [done..|]. apply IH in Hu as [Hnd Hn]. split.
  - apply NoDup_cons. split; [|done]. intros (y & Heq & Hy)%list_elem_of_fmap.
    specialize (Hn y Hy). set_solver.
  - intros r [->|Hr]%elem_of_cons; [done|]. specialize (Hn r Hr). set_solver.
Qed.

Lemma load_indexed_spec a r a' :
  ledger_ok (store a) → load_indexed a = (r, a') →
  reads a a' ∧ ∀ m, r = Ok m →
    (∀ x, x ∈ m.*2 ↔ view (store a) (lease_id x) = Some x)
    ∧ NoDup (lease_id <$> m.*2) ∧ sorted m ∧ ∀ sb x, (sb, x) ∈ m → sandbox_id x = sb.
Proof.
  intros Hok Hl. unfold load_indexed in Hl.
  apply bind_inv in Hl as [(rs & a1 & Hld & Hk)|(e & Hld & ->)]; pose proof Hld as Hld0;
    apply load_reads in Hld as [Hr Hrec]; [|done| |done]; [|by split].
  unfold_monad. simplify_eq. split; [done|]. intros m [= <-]. specialize (Hrec _ eq_refl).
  assert (Hnd : NoDup (sandbox_id <$> rs)).
  { unfold load in Hld0. apply bind_Ok in Hld0 as (rs' & a2 & _ & Hk).
    apply bind_Ok in Hk as ([] & a3 & [Hu _]%liftR_Ok & Hk).
    unfold set_lease_ids in Hk. unfold_monad. simplify_eq/=. by apply uniqueness_ok in Hu as [? _]. }
  set (l := (fun r => (sandbox_id r, r)) <$> rs) in *.
  assert (Hkeys : l.*1 = sandbox_id <$> rs) by (unfold l; by rewrite <-list_fmap_compose).
  assert (Hin : ∀ sb x, (sb, x) ∈ bt_collect l ↔ sb = sandbox_id x ∧ x ∈ rs).
  { intros sb x. rewrite elem_of_bt_collect by by rewrite Hkeys.
    unfold l. rewrite list_elem_of_fmap. naive_solver. }
  assert (Hval : ∀ x, x ∈ (bt_collect l).*2 ↔ x ∈ rs).
  { intros x. rewrite list_elem_of_fmap. split.
    - intros ([sb y] & -> & Hy). by apply Hin in Hy as [_ ?].
    - intros Hx. exists (sandbox_id x, x). split; [done|]. by apply Hin. }
  split_and!; [intros x; by rewrite Hval| |apply sorted_collect|intros sb x Hx; by apply Hin in Hx as [-> _]].
  apply NoDup_fmap_2_strong.
  - intros x y Hx%Hval%Hrec Hy%Hval%Hrec Heq. rewrite Heq in Hx. congruence.
  - apply (NoDup_fmap_1 sandbox_id).
    replace (sandbox_id <$> (bt_collect l).*2) with ((bt_collect l).*1);
      [by apply sorted_NoDup, sorted_collect|].
    rewrite <-list_fmap_compose. apply list_fmap_ext. intros i [sb x] Hx.
    apply list_elem_of_lookup_2, Hin in Hx as [-> _]. done.
Qed.

Lemma reads_rtc a a' : reads a a' → rtc any_step (view (store a)) (view (store a')).
Proof. intros [_ Hv]. apply rtc_once. exists LOther. by apply step_skip. Qed.

Lemma reconcile_steps lookup proof a r a' :
  ledger_ok (store a) → (∀ sb v, lookup sb = Ok v → ascii_view v) →
  reconcile lookup proof a = (r, a') →
  ledger_ok (store a') ∧ rtc any_step (view (store a)) (view (store a'))
  ∧ ∀ t, r = Ok t → ∃ records,
    (∀ x, x ∈ records ↔ view (store a) (lease_id x) = Some x)
    ∧ (∀ x, x ∈ records → is_ok (lookup (sandbox_id x)) = true
        ∧ view (store a') (lease_id x) = outcome x (verdict proof x (found lookup x)))
    ∧ (∀ id, view (store a) id = None → view (store a') id = None)
    ∧ t = foldl (fun t x => tally t x (verdict proof x (found lookup x))) (MkReport [] [] [] []) records.
Proof.
  intros Hok Hasc Hl. unfold reconcile in Hl.
  apply bind_inv in Hl as [(m & a1 & Hld & Hk)|(e & Hld & ->)];
    apply load_indexed_spec in Hld as [Hr Hm]; [|done| |done].
  2:{ split_and!; [apply Hr|by apply reads_rtc|done]. }
  destruct (Hm m eq_refl) as (Hrec & Hnd & _ & _).
  eapply reconcile_loop_spec in Hk as (Hok' & Hs & Hc); [|apply Hr|done| |done].
  2:{ intros x Hx. rewrite (proj2 Hr). by apply Hrec. }
  split_and!; [done|by etrans; [by apply reads_rtc|]|].
  intros t Ht. destruct (Hc t Ht) as (Hin & Hout & ->). exists m.*2. split_and!; [done..| |done].
  intros id Hid. rewrite Hout; [by rewrite (proj2 Hr)|].
  intros (x & -> & Hx%Hrec)%list_elem_of_fmap. congruence.
Qed.

Lemma rtc_unique v v' : unique v → rtc any_step v v' → unique v'.
Proof.
  intros Hu Hr. induction Hr as [|v1 v2 v3 [l Hs] _ IH]; eauto using lease_step_unique.
Qed.
End refinement.
End Allocator.
