(* ===== verification/RuntimeLedger.v ===== *)
(** * The manager's in-memory ledger ([sandbox/manager.rs])

    [Ledger] and the methods that take its mutex: the records of the durable
    sandboxes, the blocked IDs, the owners' counts, and the runtime registry
    with its per-sandbox index.  Each method below is one critical section, so
    that an interleaving of threads is a sequence of these functions.  The
    [usize] counters count objects in memory and stay far below their width;
    that the decrements do not go below zero is proved. *)

From S2P Require Import Prelude BTree Text Toml Idents Metadata Delegation FileSystem Storage LeaseRecord Allocator.

Module RuntimeLedger.

(** [config::Caps], the fields the manager reads. *)
Record Caps := MkCaps
  { max_sandboxes : Z; max_sandboxes_per_owner : Z; max_concurrent_launches_per_sandbox : Z }.

Inductive CapacityLimit := Sandboxes | SandboxesPerOwner | SandboxLaunches.

(** [platform::LaunchError]: its message. *)
Record LaunchError := MkLaunchError { launch_message : string }.

Inductive RuntimeMarker := Launching | Running.

#[global] Instance RuntimeMarker_eq_dec : EqDecision RuntimeMarker.
Proof. solve_decision. Defined.

Record RuntimeLease := MkRuntimeLease { lease_token : Z; lease_sandbox : string }.

(** What [begin_launch] reads of a [SandboxHandle]. *)
Record HandleKey := MkHandleKey { handle_id : string; handle_owner : string }.

Section ledger.
Context `{TomlCrate}.
(** The launcher's process controls. *)
Context {P : Type}.

Inductive Error :=
| StorageError (error : Storage.Error)
| SubidError (error : Allocator.Error)
| DelegationError (error : Delegation.Error)
| Cleanup (source : Storage.Error)
| RuntimeCleanup
| Launch (source : LaunchError)
| Limit (limit : CapacityLimit)
| Unavailable.

Record RuntimeEntry := MkRuntime
  { sandbox_id : string; marker : RuntimeMarker; cancelled : bool; process : option P }.

Record Ledger := MkLedger
  { records : list (string * Metadata.t);
    blocked : gset string;
    unknown_entries : Z;
    owner_counts : gmap string Z;
    reserved_sandboxes : Z;
    runtime : gmap Z RuntimeEntry;
    runtime_by_sandbox : gmap string (gset Z);
    next_token : Z }.

(** [Ledger::default]. *)
Definition empty_ledger : Ledger := MkLedger [] ∅ 0 ∅ 0 ∅ ∅ 0.

Definition set_records (f : list (string * Metadata.t) → list (string * Metadata.t)) (l : Ledger)
    : Ledger :=
  MkLedger (f (records l)) (blocked l) (unknown_entries l) (owner_counts l) (reserved_sandboxes l)
    (runtime l) (runtime_by_sandbox l) (next_token l).
Definition set_blocked (f : gset string → gset string) (l : Ledger) : Ledger :=
  MkLedger (records l) (f (blocked l)) (unknown_entries l) (owner_counts l) (reserved_sandboxes l)
    (runtime l) (runtime_by_sandbox l) (next_token l).
Definition set_unknown (n : Z) (l : Ledger) : Ledger :=
  MkLedger (records l) (blocked l) n (owner_counts l) (reserved_sandboxes l)
    (runtime l) (runtime_by_sandbox l) (next_token l).
Definition set_counts (f : gmap string Z → gmap string Z) (l : Ledger) : Ledger :=
  MkLedger (records l) (blocked l) (unknown_entries l) (f (owner_counts l)) (reserved_sandboxes l)
    (runtime l) (runtime_by_sandbox l) (next_token l).
Definition set_reserved (f : Z → Z) (l : Ledger) : Ledger :=
  MkLedger (records l) (blocked l) (unknown_entries l) (owner_counts l) (f (reserved_sandboxes l))
    (runtime l) (runtime_by_sandbox l) (next_token l).
Definition set_runtime (r : gmap Z RuntimeEntry) (i : gmap string (gset Z)) (l : Ledger) : Ledger :=
  MkLedger (records l) (blocked l) (unknown_entries l) (owner_counts l) (reserved_sandboxes l)
    r i (next_token l).
Definition set_next (n : Z) (l : Ledger) : Ledger :=
  MkLedger (records l) (blocked l) (unknown_entries l) (owner_counts l) (reserved_sandboxes l)
    (runtime l) (runtime_by_sandbox l) n.

(** ** The runtime registry *)

Definition insert_runtime (token : Z) (entry : RuntimeEntry) (l : Ledger) : Ledger :=
  set_runtime (<[token := entry]> (runtime l))
    (<[sandbox_id entry := {[token]} ∪ default ∅ (runtime_by_sandbox l !! sandbox_id entry)]>
       (runtime_by_sandbox l)) l.

Definition remove_runtime (token : Z) (l : Ledger) : option RuntimeEntry * Ledger :=
  match runtime l !! token with
  | None => (None, l)
  | Some entry =>
      let index :=
        match runtime_by_sandbox l !! sandbox_id entry with
        | None => runtime_by_sandbox l
        | Some tokens =>
            let tokens' := tokens ∖ {[token]} in
            if bool_decide (tokens' = ∅) then delete (sandbox_id entry) (runtime_by_sandbox l)
            else <[sandbox_id entry := tokens']> (runtime_by_sandbox l)
        end in
      (Some entry, set_runtime (delete token (runtime l)) index l)
  end.

(** The iteration order of a [HashSet] is unspecified; [elements] is one. *)
Definition runtime_tokens_for (l : Ledger) (id : string) : list Z :=
  elements (default ∅ (runtime_by_sandbox l !! id)).

(** [next_runtime_token]; the loop stops within one turn more than there are
    live tokens and the skipped zero, as the keys it tries are distinct. *)
Fixpoint next_loop (fuel : nat) (next : Z) (r : gmap Z RuntimeEntry) : Z :=
  let next' := wrap_u64 (next + 1) in
  if negb (next' =? 0) && bool_decide (r !! next' = None) then next'
  else match fuel with
       | O => next'
       | S fuel' => next_loop fuel' next' r
       end.

Definition next_runtime_token (l : Ledger) : Z * Ledger :=
  let token := next_loop (S (size (runtime l))) (next_token l) (runtime l) in
  (token, set_next token l).

(** ** Owner counts *)

Definition increment_owner (counts : gmap string Z) (owner : string) : gmap string Z :=
  <[owner := default 0 (counts !! owner) + 1]> counts.

Definition decrement_owner (counts : gmap string Z) (owner : string) : gmap string Z :=
  match counts !! owner with
  | None => counts
  | Some count => if count - 1 =? 0 then delete owner counts else <[owner := count - 1]> counts
  end.

Definition same_identity (left right : Metadata.t) : bool :=
  bool_decide (Metadata.id left = Metadata.id right)
  && bool_decide (Metadata.owner left = Metadata.owner right).

(** The loop of [remove_record_from_ledger] over a sandbox's tokens; the second
    component lists the processes it calls [terminate] on. *)
Fixpoint drop_tokens (tokens : list Z) (l : Ledger) : Ledger * list P :=
  match tokens with
  | [] => (l, [])
  | token :: tokens' =>
      match remove_runtime token l with
      | (None, _) => drop_tokens tokens' l
      | (Some entry, l') =>
          let '(l'', terminated) := drop_tokens tokens' l' in
          (l'', match process entry with Some p => p :: terminated | None => terminated end)
      end
  end.

Definition remove_record_from_ledger (id : string) (l : Ledger) : Ledger * list P :=
  let l1 :=
    match bt_get id (records l) with
    | None => l
    | Some metadata =>
        set_counts (fun c => decrement_owner c (Metadata.owner metadata))
          (set_records (bt_remove id) l)
    end in
  drop_tokens (runtime_tokens_for l1 id) l1.

(** ** Records *)

Definition note_valid_record (id : string) (metadata : Metadata.t) (l : Ledger)
    : bool * (Ledger * list P) :=
  if bool_decide (id ∈ blocked l) then (false, (l, []))
  else match bt_get id (records l) with
       | Some existing =>
           if negb (same_identity existing metadata) then
             let '(l', terminated) := remove_record_from_ledger id l in
             (false, (set_blocked (fun b => {[id]} ∪ b) l', terminated))
           else (true, (set_records (bt_insert id metadata) l, []))
       | None =>
           (true, (set_records (bt_insert id metadata)
                     (set_counts (fun c => increment_owner c (Metadata.owner metadata)) l), []))
       end.

Definition note_corrupt (id : string) (l : Ledger) : Ledger * list P :=
  let '(l', terminated) := remove_record_from_ledger id l in
  (set_blocked (fun b => {[id]} ∪ b) l', terminated).

Definition is_blocked (id : string) (l : Ledger) : bool := bool_decide (id ∈ blocked l).
Definition has_record (id : string) (l : Ledger) : bool := bool_decide (is_Some (bt_get id (records l))).

Definition sandbox_count (l : Ledger) : Z := Z.of_nat (length (records l)).

Definition reserve_sandbox (caps : Caps) (owner : string) (l : Ledger)
    : result CapacityLimit unit * Ledger :=
  if max_sandboxes caps <=? Z.min (sandbox_count l + reserved_sandboxes l) u64_max
  then (Err Sandboxes, l)
  else if max_sandboxes_per_owner caps <=? default 0 (owner_counts l !! owner)
  then (Err SandboxesPerOwner, l)
  else (Ok tt, set_counts (fun c => increment_owner c owner) (set_reserved (fun n => n + 1) l)).

Definition release_sandbox (owner : string) (l : Ledger) : Ledger :=
  set_counts (fun c => decrement_owner c owner) (set_reserved (fun n => Z.max 0 (n - 1)) l).

Definition insert_reserved (metadata : Metadata.t) (l : Ledger) : Ledger :=
  set_records (bt_insert (Metadata.id metadata) metadata) (set_reserved (fun n => Z.max 0 (n - 1)) l).

Definition replace_record (metadata : Metadata.t) (l : Ledger) : Ledger :=
  set_records (bt_insert (Metadata.id metadata) metadata) l.

(** ** Launches *)

(** [begin_launch]; [frozen] is [launch_admission_frozen]. *)
Definition begin_launch (caps : Caps) (frozen : bool) (h : HandleKey) (l : Ledger)
    : result Error RuntimeLease * Ledger :=
  if frozen then (Err Unavailable, l)
  else match bt_get (handle_id h) (records l) with
       | None => (Err Unavailable, l)
       | Some metadata =>
           if negb (bool_decide (Metadata.state metadata = Metadata.Active))
              || negb (bool_decide (Metadata.owner metadata = handle_owner h))
           then (Err Unavailable, l)
           else if max_concurrent_launches_per_sandbox caps
                     <=? Z.of_nat (size (default ∅ (runtime_by_sandbox l !! handle_id h)))
           then (Err (Limit SandboxLaunches), l)
           else
             let '(token, l1) := next_runtime_token l in
             (Ok (MkRuntimeLease token (handle_id h)),
              insert_runtime token (MkRuntime (handle_id h) Launching false None) l1)
       end.

(** [finish_launch]; [durable] is what [storage.inspect] reports, read under the
    ledger's mutex. *)
Definition finish_launch (durable : result Storage.Error Storage.Entry) (lease : RuntimeLease)
    (control : P) (l : Ledger) : bool * Ledger :=
  let record := bt_get (lease_sandbox lease) (records l) in
  let sandbox_active :=
    match record with
    | Some m => bool_decide (Metadata.state m = Metadata.Active)
    | None => false
    end in
  let durable_active :=
    match durable, record with
    | Ok (Storage.Active m), Some r => bool_decide (Metadata.owner m = Metadata.owner r)
    | _, _ => false
    end in
  match runtime l !! lease_token lease with
  | Some entry =>
      if bool_decide (marker entry = Launching)
         && bool_decide (sandbox_id entry = lease_sandbox lease)
         && sandbox_active && durable_active && negb (cancelled entry)
      then (true, set_runtime
              (<[lease_token lease := MkRuntime (sandbox_id entry) Running (cancelled entry) (Some control)]>
                 (runtime l)) (runtime_by_sandbox l) l)
      else (false, l)
  | None => (false, l)
  end.

(** [clear_runtime]; [clean] answers [wait_for_cleanup(ZERO)]. *)
Definition clear_runtime (clean : P → bool) (lease : RuntimeLease) (l : Ledger) : Ledger :=
  match runtime l !! lease_token lease with
  | Some entry =>
      if bool_decide (sandbox_id entry = lease_sandbox lease)
         && match process entry with Some p => clean p | None => true end
      then (remove_runtime (lease_token lease) l).2
      else l
  | None => l
  end.

(** The first critical section of [cancel_runtime], over a sandbox's tokens. *)
Definition cancel_entry (e : RuntimeEntry) : RuntimeEntry :=
  MkRuntime (sandbox_id e) (marker e) true (process e).

Fixpoint cancel_tokens (tokens : list Z) (l : Ledger) : list P * Ledger :=
  match tokens with
  | [] => ([], l)
  | token :: tokens' =>
      match runtime l !! token with
      | None => cancel_tokens tokens' l
      | Some entry =>
          let '(ps, l') := cancel_tokens tokens'
            (set_runtime (<[token := cancel_entry entry]> (runtime l)) (runtime_by_sandbox l) l) in
          (match process entry with Some p => p :: ps | None => ps end, l')
      end
  end.

Definition cancel_marks (id : string) (l : Ledger) : list P * Ledger :=
  cancel_tokens (runtime_tokens_for l id) l.

(** The controls of a set of tokens. *)
Definition controls (tokens : list Z) (l : Ledger) : list P :=
  omap (fun token => runtime l !! token ≫= process) tokens.

(** The first critical section of [shutdown_runtime] and the one of
    [force_shutdown_runtime]: every entry is cancelled. *)
Definition shutdown_marks (l : Ledger) : list P * Ledger :=
  (controls (elements (dom (runtime l))) l,
   set_runtime (cancel_entry <$> runtime l) (runtime_by_sandbox l) l).

(** ** Loading the registry *)

(** One entry of [reconcile_scan]. *)
Definition reconcile_entry (id : string) (entry : Storage.Entry) (l : Ledger) : Ledger * list P :=
  match entry with
  | Storage.Active metadata | Storage.Deleting metadata =>
      match bt_get id (records l) with
      | Some existing =>
          if same_identity existing metadata then
            let l1 := set_records (bt_insert id metadata) l in
            let l2 :=
              if bool_decide (Metadata.owner existing = Metadata.owner metadata) then l1
              else set_counts (fun c =>
                     increment_owner (decrement_owner c (Metadata.owner existing))
                       (Metadata.owner metadata)) l1 in
            (set_blocked (fun b => b ∖ {[id]}) l2, [])
          else
            let '(l', terminated) := remove_record_from_ledger id l in
            (set_blocked (fun b => {[id]} ∪ b) l', terminated)
      | None =>
          (set_blocked (fun b => b ∖ {[id]})
             (set_counts (fun c => increment_owner c (Metadata.owner metadata))
                (set_records (bt_insert id metadata) l)), [])
      end
  | Storage.Corrupt _ =>
      let '(l', terminated) := remove_record_from_ledger id l in
      (set_blocked (fun b => {[id]} ∪ b) l', terminated)
  | Storage.Absent => (l, [])
  end.

Fixpoint reconcile_entries (es : list (string * Storage.Entry)) (l : Ledger) : Ledger * list P :=
  match es with
  | [] => (l, [])
  | (id, entry) :: es' =>
      let '(l1, t1) := reconcile_entry id entry l in
      let '(l2, t2) := reconcile_entries es' l1 in
      (l2, t1 ++ t2)
  end.

Fixpoint remove_records (ids : list string) (l : Ledger) : Ledger * list P :=
  match ids with
  | [] => (l, [])
  | id :: ids' =>
      let '(l1, t1) := remove_record_from_ledger id l in
      let '(l2, t2) := remove_records ids' l1 in
      (l2, t1 ++ t2)
  end.

Definition reconcile_scan (scan : Storage.ScanResult) (l : Ledger) : Ledger * list P :=
  let '(l1, t1) := reconcile_entries (Storage.entries_found scan)
                     (set_unknown (Storage.unknown_entries scan) l) in
  let seen := (Storage.entries_found scan).*1 in
  let '(l2, t2) := remove_records (filter (fun id => id ∉ seen) (records l1).*1) l1 in
  (l2, t1 ++ t2).
End ledger.
Arguments Error {_}.
Arguments RuntimeEntry P : clear implicits.
Arguments Ledger P : clear implicits.
End RuntimeLedger.
