(* ===== verification/Config.v ===== *)
(** * Configuration ([config.rs])

    The raw document, the validators, and the immutable snapshot [build] makes of
    it.  The TOML reader is a parameter; [realpath_at] and the calls on the file
    itself are answers of the kernel to numbered calls, since nothing keeps the
    file system still while the configuration is read. *)

From S2P Require Import Prelude BTree Text PathNames Toml SocketAddr Endpoint Idents FileSystem RuntimeLedger Auth Paths.

Module Config.
Import Endpoint.

Definition MAX_CONFIG_BYTES : Z := 1048576.
Definition MAX_ENV_VALUE_BYTES : Z := 4096.

Inductive NetworkMode := Disabled | Outbound.
Inductive SandboxIdentity := Host | Isolated.
Inductive LogLevel := LError | LWarn | LInfo | LDebug | LTrace.

#[global] Instance NetworkMode_eq_dec : EqDecision NetworkMode.
Proof. solve_decision. Defined.
#[global] Instance SandboxIdentity_eq_dec : EqDecision SandboxIdentity.
Proof. solve_decision. Defined.

(** The schema words, in the order the messages list them. *)
Definition network_words : list (string * NetworkMode) := [("disabled", Disabled); ("outbound", Outbound)].
Definition identity_words : list (string * SandboxIdentity) := [("host", Host); ("isolated", Isolated)].
Definition log_words : list (string * LogLevel) :=
  [("error", LError); ("warn", LWarn); ("info", LInfo); ("debug", LDebug); ("trace", LTrace)].

Fixpoint from_word {A} (words : list (string * A)) (word : string) : option A :=
  match words with
  | [] => None
  | (w, a) :: rest => if bool_decide (word = w) then Some a else from_word rest word
  end.

Definition words_joined {A} (words : list (string * A)) : string := Net.join ", " words.*1.

(** [config::Caps] and its built-in values. *)
Record Caps := MkCaps
  { max_unauthenticated_connections : Z; max_connections : Z; max_channels_per_connection : Z;
    max_concurrent_launches_per_sandbox : Z; max_host_processes : Z; max_auth_attempts : Z;
    max_sandboxes : Z; max_sandboxes_per_owner : Z; handshake_timeout_secs : Z }.

Definition default_caps : Caps :=
  {| max_unauthenticated_connections := 32; max_connections := 128;
     max_channels_per_connection := 16; max_concurrent_launches_per_sandbox := 128;
     max_host_processes := 16; max_auth_attempts := 6; max_sandboxes := 1024;
     max_sandboxes_per_owner := 128; handshake_timeout_secs := 30 |}.

(** The fields the sandbox manager reads. *)
Definition manager_caps (c : Caps) : RuntimeLedger.Caps :=
  RuntimeLedger.MkCaps (max_sandboxes c) (max_sandboxes_per_owner c)
    (max_concurrent_launches_per_sandbox c).

Record RawSandbox := MkRawSandbox
  { raw_shell : option string; raw_network : option string; raw_identity : option string;
    raw_read_paths : option (list string); raw_env : option (list (string * string));
    memory_max : option Z; swap_max : option Z; pids_max : option Z;
    raw_cpu_quota_micros : option Z; raw_cpu_period_micros : option Z;
    raw_cgroup_parent : option string }.

Record RawConfig := MkRawConfig
  { raw_listen : option (list string); raw_log_level : option string;
    raw_sandbox : option RawSandbox }.

Definition RawSandbox_default : RawSandbox :=
  MkRawSandbox None None None None None None None None None None None.
Definition RawConfig_default : RawConfig := MkRawConfig None None None.

Record SandboxResources := MkResources
  { memory_bytes : option Z; swap_bytes : option Z; pids : option Z;
    cpu_quota_micros : option Z; cpu_period_micros : option Z }.

Record t := MkConfig
  { listen : list ListenEndpoint; log_level : LogLevel; network : NetworkMode;
    sandbox_shell : option string; read_paths : list string;
    sandbox_env : list (string * string); resources : SandboxResources;
    cgroup_parent : option string; identity : SandboxIdentity }.

Inductive Error :=
| Parse (message : string)
| Invalid (field message : string)
| TooLarge (size limit : Z)
| Io (field message : string) (source : io_error).

(** ** Environment names *)

Definition is_valid_env_name (name : string) : bool :=
  match name with
  | EmptyString => false
  | String first rest =>
      (is_ascii_alphabetic first || (byte_val first =? 95))
      && str_all (fun byte => is_ascii_alphanumeric byte || (byte_val byte =? 95)) rest
  end.

Definition RESERVED_ENV_NAMES : list string :=
  ["HOME"; "PWD"; "SHELL"; "TMPDIR"; "TERM";
   "AGENT_NETWORK_PROXY"; "__COMPAT_LAYER"; "COMSPEC"; "PSModulePath"; "PATHEXT";
   "BASH_ENV"; "ENV"; "PYTHONPATH"; "PYTHONSTARTUP"; "PYTHONHOME"; "NODE_OPTIONS"; "PERL5OPT";
   "PERL5LIB"; "RUBYOPT"; "RUBYLIB"; "ZDOTDIR"; "IFS"; "PROMPT_COMMAND";
   "GCONV_PATH"; "HOSTALIASES"; "LOCPATH"; "GETCONF_DIR"; "JAVA_TOOL_OPTIONS"; "_JAVA_OPTIONS";
   "CLASSPATH"; "GOFLAGS"; "GIT_CONFIG_GLOBAL"; "GIT_CONFIG_SYSTEM"; "GIT_SSH_COMMAND"; "GIT_SSH";
   "GIT_EXEC_PATH"; "GIT_TEMPLATE_DIR"; "GIT_EXTERNAL_DIFF"; "GIT_ASKPASS"; "GIT_EDITOR";
   "GIT_SEQUENCE_EDITOR"; "OPENSSL_CONF"; "EDITOR"; "VISUAL"; "PAGER"; "CARGO_HOME";
   "http_proxy"; "HTTP_PROXY"; "https_proxy"; "HTTPS_PROXY"; "ALL_PROXY"; "all_proxy"; "NO_PROXY";
   "no_proxy"; "ftp_proxy"; "FTP_PROXY"; "SOCKS_PROXY"; "socks_proxy"; "CGI_HTTP_PROXY";
   "CURL_CA_BUNDLE"; "SSL_CERT_FILE"; "SSL_CERT_DIR"; "REQUESTS_CA_BUNDLE"].

Definition RESERVED_ENV_PREFIXES : list string :=
  ["SHBOX_"; "LD_"; "DYLD_"; "COR_"; "CORECLR_"; "DOTNET_"; "COMPLUS_"].

(** ** The system *)

Class ConfigKernel := {
  stat_config_at : nat → Auth.path → result io_error Auth.metadata;
  read_config_at : nat → Auth.path → result io_error string;
  realpath_at : nat → string → result io_error string;
  config_euid : Z;
  (** [toml::from_str] for the schema: the document, or the reader's message. *)
  from_toml : string → result string RawConfig }.

Section config.
Context `{Build} `{UnicodeTables} `{FileSystem.Host} `{ConfigKernel}.

Notation C := (M nat Error).

Definition display_error (e : Error) : string :=
  match e with
  | Parse message => "invalid config: " +:+ message
  | Invalid field message =>
      "invalid config field " +:+ debug_str printable field +:+ ": " +:+ message
  | TooLarge size limit =>
      "config file is " +:+ fmt_dec size +:+ " bytes, the limit is " +:+ fmt_dec limit
  | Io field message source => "config " +:+ field +:+ ": " +:+ message +:+ ": " +:+ io_display source
  end.

(** [fs::canonicalize]. *)
Definition canonicalize {E} (p : string) : M nat E (result io_error string) := fun now =>
  (Ok (realpath_at now p), S now).

(** ** Validators *)

Definition default_listen : result Error (list ListenEndpoint) :=
  if feature_tcp then Ok [Tcp (Net.unspecified 22)]
  else Err (Invalid "listen"
    "listen must be set explicitly: this build has no `tcp` feature, so there is no default listener").

Fixpoint validate_listen_values (listen : list ListenEndpoint) (values : list string)
    : result Error (list ListenEndpoint) :=
  match values with
  | [] => Ok listen
  | value :: rest =>
      endpoint ← map_err (fun err => Invalid "listen" (Endpoint.display err)) (Endpoint.from_str value);
      if bool_decide (endpoint ∈ listen)
      then Err (Invalid "listen" ("duplicate listen endpoint " +:+ Endpoint.to_string endpoint))
      else validate_listen_values (listen ++ [endpoint]) rest
  end.

Definition validate_listen (raw : option (list string)) : result Error (list ListenEndpoint) :=
  match raw with
  | None => default_listen
  | Some [] =>
      Err (Invalid "listen" "listen must not be empty; omit it to use the default listener")
  | Some values => validate_listen_values [] values
  end.

Definition word_error {A} (words : list (string * A)) (field word : string) : Error :=
  Invalid field (field +:+ " must be one of " +:+ words_joined words +:+ ", got "
                   +:+ debug_str printable word).

Definition validate_log_level (raw : option string) : result Error LogLevel :=
  match raw with
  | None => Ok LInfo
  | Some word => ok_or (word_error log_words "log_level" word) (from_word log_words word)
  end.

Definition validate_network (raw : option string) : result Error NetworkMode :=
  match raw with
  | None => Ok Disabled
  | Some word => ok_or (word_error network_words "sandbox.network" word) (from_word network_words word)
  end.

Definition validate_identity (raw : option string) : result Error SandboxIdentity :=
  match raw with
  | None => Ok Host
  | Some word =>
      identity ← ok_or (word_error identity_words "sandbox.identity" word) (from_word identity_words word);
      if bool_decide (identity = Isolated) && negb target_linux
      then Err (Invalid "sandbox.identity"
                  ("sandbox.identity = " +:+ String quote_char ("isolated" +:+ String quote_char "")
                     +:+ " is only supported on Linux"))
      else Ok identity
  end.

Definition validate_configured_path (raw : option string) (field : string)
    : result Error (option string) :=
  match raw with
  | None => Ok None
  | Some value =>
      if negb (starts_with "/" value)
      then Err (Invalid field (field +:+ " must be an absolute path, got " +:+ debug_str printable value))
      else if has_nul value then Err (Invalid field (field +:+ " must not contain NUL"))
      else Ok (Some value)
  end.

Definition validate_cgroup_parent (raw : option string) : result Error (option string) :=
  match raw with
  | None => Ok None
  | Some value =>
      if negb (Path.is_absolute value)
      then Err (Invalid "sandbox.cgroup_parent"
                  ("must be an absolute cgroup v2 directory, got " +:+ debug_str printable value))
      else Ok (Some value)
  end.

Definition nonzero (field why : string) (value : option Z) : result Error (option Z) :=
  match value with
  | Some 0 => Err (Invalid field why)
  | other => Ok other
  end.

Definition validate_resources (sandbox : RawSandbox) : result Error SandboxResources :=
  memory ← nonzero "sandbox.memory_max" "must be greater than zero bytes" (memory_max sandbox);
  swap ← nonzero "sandbox.swap_max" "must be greater than zero bytes" (swap_max sandbox);
  pids ← nonzero "sandbox.pids_max" "must be greater than zero" (pids_max sandbox);
  quota ← nonzero "sandbox.cpu_quota_micros" "must be greater than zero" (raw_cpu_quota_micros sandbox);
  period ← match raw_cpu_period_micros sandbox with
           | Some period =>
               if (1000 <=? period) && (period <=? 1000000) then Ok (Some period)
               else Err (Invalid "sandbox.cpu_period_micros" "must be between 1000 and 1000000")
           | None => Ok None
           end;
  match period, quota with
  | Some _, None => Err (Invalid "sandbox.cpu_period_micros" "requires sandbox.cpu_quota_micros")
  | _, _ => Ok (MkResources memory swap pids quota period)
  end.

Definition env_error (message : string) : Error := Invalid "sandbox.env" message.

Definition validate_env_name (name : string) : result Error unit :=
  if negb (is_valid_env_name name)
  then Err (env_error ("environment name " +:+ debug_str printable name +:+ " is not a POSIX identifier"))
  else if bool_decide (name ∈ RESERVED_ENV_NAMES)
  then Err (env_error ("environment name " +:+ debug_str printable name
                         +:+ " is managed by shbox and cannot be set"))
  else if existsb (fun prefix => starts_with prefix name) RESERVED_ENV_PREFIXES
  then Err (env_error ("environment name " +:+ debug_str printable name +:+ " uses a reserved prefix"))
  else Ok tt.

Definition validate_env_value (name value : string) : result Error unit :=
  if has_nul value
  then Err (env_error ("environment value for " +:+ debug_str printable name +:+ " contains NUL"))
  else if MAX_ENV_VALUE_BYTES <? str_len value
  then Err (env_error ("environment value for " +:+ debug_str printable name +:+ " exceeds the "
                         +:+ fmt_dec MAX_ENV_VALUE_BYTES +:+ " byte limit"))
  else Ok tt.

Fixpoint validate_env_entries (env entries : list (string * string))
    : result Error (list (string * string)) :=
  match entries with
  | [] => Ok env
  | (name, value) :: rest =>
      _ ← validate_env_name name;
      _ ← validate_env_value name value;
      validate_env_entries (bt_insert name value env) rest
  end.

Definition validate_sandbox_env (raw : option (list (string * string)))
    : result Error (list (string * string)) :=
  match raw with
  | None => Ok []
  | Some entries => validate_env_entries [] entries
  end.

(** The roots a read path is held against, with the words of the message. *)
Definition protected_roots (paths : Paths.t) : list (Auth.path * string) :=
  [(Paths.data_dir paths, "sandbox data root"); (Paths.state_dir paths, "state root");
   (Paths.config_dir paths, "config directory")].

(** The inner loop over the roots: a root that does not resolve is skipped. *)
Fixpoint check_roots (value resolved : string) (roots : list (Auth.path * string)) : C unit :=
  match roots with
  | [] => mret tt
  | (root, role) :: rest =>
      found ← canonicalize (Paths.path_text root);
      match found with
      | Err _ => check_roots value resolved rest
      | Ok root =>
          if Path.contains root resolved
          then fail (Invalid "sandbox.read_paths"
                       ("read path " +:+ debug_str printable value +:+ " exposes the shbox " +:+ role))
          else check_roots value resolved rest
      end
  end.

Definition read_path_error (message : string) : Error := Invalid "sandbox.read_paths" message.

(** [PathBuf]s are equal when their components are. *)
Definition same_path (a b : string) : bool := bool_decide (Path.components a = Path.components b).

Fixpoint validate_read_values (paths : Paths.t) (canonical values : list string) : C (list string) :=
  match values with
  | [] => mret canonical
  | value :: rest =>
      if bool_decide (value = "") || negb (starts_with "/" value)
      then fail (read_path_error ("read path must be absolute, got " +:+ debug_str printable value))
      else if has_nul value then fail (read_path_error "read path must not contain NUL")
      else
        found ← canonicalize value;
        match found with
        | Err err =>
            fail (Io "sandbox.read_paths"
                    ("read path " +:+ debug_str printable value
                       +:+ " does not exist or is not accessible: " +:+ io_display err) err)
        | Ok resolved =>
            _ ← check_roots value resolved (protected_roots paths);
            if existsb (same_path resolved) canonical
            then fail (read_path_error ("duplicate read path " +:+ debug_str printable value))
            else validate_read_values paths (canonical ++ [resolved]) rest
        end
  end.

Definition validate_read_paths (raw : option (list string)) (paths : Paths.t) : C (list string) :=
  validate_read_values paths [] (default [] raw).

Definition build (raw : RawConfig) (paths : Paths.t) : C t :=
  listen ← liftR (validate_listen (raw_listen raw));
  log_level ← liftR (validate_log_level (raw_log_level raw));
  let sandbox := default RawSandbox_default (raw_sandbox raw) in
  network ← liftR (validate_network (raw_network sandbox));
  sandbox_shell ← liftR (validate_configured_path (raw_shell sandbox) "sandbox.shell");
  read_paths ← validate_read_paths (raw_read_paths sandbox) paths;
  sandbox_env ← liftR (validate_sandbox_env (raw_env sandbox));
  resources ← liftR (validate_resources sandbox);
  cgroup_parent ← liftR (validate_cgroup_parent (raw_cgroup_parent sandbox));
  identity ← liftR (validate_identity (raw_identity sandbox));
  mret {| listen := listen; log_level := log_level; network := network;
          sandbox_shell := sandbox_shell; read_paths := read_paths; sandbox_env := sandbox_env;
          resources := resources; cgroup_parent := cgroup_parent; identity := identity |}.

(** ** The file *)

Definition stat_config {E} (p : Auth.path) : M nat E (result io_error Auth.metadata) := fun now =>
  (Ok (stat_config_at now p), S now).

Definition parse_file (p : Auth.path) : C RawConfig :=
  found ← stat_config p;
  match found with
  | Err err => fail (Io "config" "cannot stat config file" err)
  | Ok metadata =>
      if negb (is_regular (Auth.md_mode metadata))
      then fail (Invalid "config" "config path is not a regular file")
      else if negb (Auth.md_uid metadata =? config_euid)
      then fail (Invalid "config" "config file is not owned by the daemon user")
      else if negb (Z.land (Auth.md_mode metadata) 18 =? 0)
      then fail (Invalid "config" "config file is group or world writable")
      else
        content ← (fun now => (Ok (read_config_at now p), S now) : _ * _);
        match content with
        | Err err => fail (Io "config" "cannot read config file" err)
        | Ok content =>
            let bytes := Auth.read_at_most (MAX_CONFIG_BYTES + 1) content in
            if MAX_CONFIG_BYTES <? str_len bytes then fail (TooLarge (str_len bytes) MAX_CONFIG_BYTES)
            else if negb (utf8_valid bytes)
            then fail (Invalid "config" "config file is not valid UTF-8")
            else liftR (map_err Parse (from_toml bytes))
        end
  end.

Definition load_snapshot (paths : Paths.t) (cli_listen : option (list ListenEndpoint)) : C t :=
  found ← stat_config (Paths.config_file paths);
  raw ← match found with
        | Ok _ => raw ← parse_file (Paths.config_file paths); mret (Some raw)
        | Err err =>
            if errno_is err ENOENT then mret None
            else fail (Io "config" "cannot stat config file" err)
        end;
  let raw := default RawConfig_default raw in
  let raw :=
    match raw_listen raw, cli_listen with
    | None, Some endpoints =>
        MkRawConfig (Some (Endpoint.to_string <$> endpoints)) (raw_log_level raw) (raw_sandbox raw)
    | _, _ => raw
    end in
  build raw paths.

(** ** What an accepted configuration guarantees *)

(** The machine types of the raw document: its integers are unsigned, its
    environment table an ordered map. *)
Definition nonneg (o : option Z) : Prop := ∀ n, o = Some n → 0 <= n.
Definition raw_typed (raw : RawConfig) : Prop :=
  ∀ sandbox, raw_sandbox raw = Some sandbox →
    nonneg (memory_max sandbox) ∧ nonneg (swap_max sandbox) ∧ nonneg (pids_max sandbox) ∧
    nonneg (raw_cpu_quota_micros sandbox) ∧
    (∀ entries, raw_env sandbox = Some entries → sorted entries).

Definition listen_ok (l : list ListenEndpoint) : Prop :=
  l ≠ [] ∧ NoDup l ∧ Forall Endpoint.wf l.

Definition absolute_path (p : string) : Prop := starts_with "/" p = true.

Definition env_entry_ok (e : string * string) : Prop :=
  is_valid_env_name e.1 = true ∧ (e.1 ∉ RESERVED_ENV_NAMES) ∧
  Forall (fun prefix => starts_with prefix e.1 = false) RESERVED_ENV_PREFIXES ∧
  has_nul e.2 = false ∧ str_len e.2 <= MAX_ENV_VALUE_BYTES.

Definition positive (o : option Z) : Prop := ∀ n, o = Some n → 0 < n.

Definition resources_ok (r : SandboxResources) : Prop :=
  positive (memory_bytes r) ∧ positive (swap_bytes r) ∧ positive (pids r) ∧
  positive (cpu_quota_micros r) ∧
  (∀ n, cpu_period_micros r = Some n → 1000 <= n <= 1000000 ∧ is_Some (cpu_quota_micros r)).

(** A read path was resolved from an absolute value, and when each protected root
    was looked at, the path did not lie inside it.  It may enclose the root. *)
Definition vetted_read_path (paths : Paths.t) (t t' : nat) (resolved : string) : Prop :=
  (∃ value u, (t <= u < t')%nat ∧ absolute_path value ∧ has_nul value = false ∧
              realpath_at u value = Ok resolved) ∧
  Forall (fun root => ∃ u, (t <= u < t')%nat ∧
            ∀ r, realpath_at u (Paths.path_text root.1) = Ok r → Path.contains r resolved = false)
    (protected_roots paths).

Record wf (paths : Paths.t) (now now' : nat) (c : t) : Prop := MkWf
  { wf_listen : listen_ok (listen c);
    wf_shell : ∀ p, sandbox_shell c = Some p → absolute_path p ∧ has_nul p = false;
    wf_read_paths : Forall (vetted_read_path paths now now') (read_paths c) ∧
                    NoDup (Path.components <$> read_paths c);
    wf_env : sorted (sandbox_env c) ∧ Forall env_entry_ok (sandbox_env c);
    wf_resources : resources_ok (resources c);
    wf_cgroup_parent : ∀ p, cgroup_parent c = Some p → absolute_path p;
    wf_identity : identity c = Isolated → target_linux = true }.

Lemma listen_values_ok acc values l :
  NoDup acc → Forall Endpoint.wf acc → validate_listen_values acc values = Ok l →
  NoDup l ∧ Forall Endpoint.wf l ∧ (length acc + length values = length l)%nat.
Proof.
  revert acc; induction values as [|value values IH]; intros acc Hnd Hwf; cbn.
  - intros [= ->]. split_and!; (done || lia).
  - destruct (Endpoint.from_str value) as [e|] eqn:He; [|done]. cbn. case_bool_decide; [done|].
    intros Hl. apply IH in Hl as (? & ? & Hlen).
    + rewrite length_app in Hlen. simpl in Hlen. split_and!; (done || lia).
    + apply NoDup_app. split_and!; [done| |apply NoDup_singleton]. set_solver.
    + apply Forall_app. split; [done|]. apply Forall_singleton. by eapply Endpoint.endpoint_wf.
Qed.

Lemma validate_listen_ok raw l : validate_listen raw = Ok l → listen_ok l.
Proof.
  unfold validate_listen. destruct raw as [[|v vs]|]; [done|..].
  - intros (? & ? & Hlen)%listen_values_ok; [|constructor..].
    split_and!; [|done..]. intros ->. simpl in Hlen. lia.
  - unfold default_listen. destruct feature_tcp eqn:Htcp; [|done]. intros [= <-].
    split_and!; [done|apply NoDup_singleton|]. apply Forall_singleton. split; [done|].
    split_and!; [done| |lia|lia]. repeat apply Forall_cons_2; (lia || apply Forall_nil_2).
Qed.

(** A list of endpoints that the builder prints is read back as it was. *)
Lemma validate_listen_printed acc endpoints :
  Forall Endpoint.wf endpoints → NoDup (acc ++ endpoints) →
  validate_listen_values acc (Endpoint.to_string <$> endpoints) = Ok (acc ++ endpoints).
Proof.
  revert acc; induction endpoints as [|e endpoints IH]; intros acc Hwf Hnd; cbn.
  - by rewrite app_nil_r.
  - apply Forall_cons in Hwf as [He Hwf]. rewrite Endpoint.endpoint_roundtrip by done. cbn.
    rewrite bool_decide_false; [|apply NoDup_app in Hnd; set_solver].
    rewrite (cons_middle e acc endpoints), app_assoc in Hnd |- *. by apply IH.
Qed.

Lemma nonzero_ok field why o o' : nonzero field why o = Ok o' → nonneg o → o' = o ∧ positive o.
Proof.
  unfold nonzero, nonneg, positive. destruct o as [[|p|p]|]; [done|..]; intros [= <-] Hn; (split; [done|]);
    intros n Heq; simplify_eq; [lia|]. specialize (Hn _ eq_refl). lia.
Qed.

Lemma validate_resources_ok sandbox r :
  nonneg (memory_max sandbox) → nonneg (swap_max sandbox) → nonneg (pids_max sandbox) →
  nonneg (raw_cpu_quota_micros sandbox) →
  validate_resources sandbox = Ok r → resources_ok r.
Proof.
  intros Hm Hs Hp Hq. unfold validate_resources.
  destruct (nonzero _ _ (memory_max sandbox)) as [memory|] eqn:Em; [|done]. cbn.
  destruct (nonzero _ _ (swap_max sandbox)) as [swap|] eqn:Es; [|done]. cbn.
  destruct (nonzero _ _ (pids_max sandbox)) as [pids|] eqn:Ep; [|done]. cbn.
  destruct (nonzero _ _ (raw_cpu_quota_micros sandbox)) as [quota|] eqn:Eq; [|done]. cbn.
  apply nonzero_ok in Em as [-> ?], Es as [-> ?], Ep as [-> ?], Eq as [-> ?]; [|done..].
  destruct (raw_cpu_period_micros sandbox) as [period|]; cbn.
  - destruct (_ && _) eqn:Hrange; [|done]. cbn. bool_to_prop.
    destruct (raw_cpu_quota_micros sandbox) as [q|] eqn:Hquota; [|done]. intros [= <-].
    split_and!; [done..|]. intros n [= <-]. split; [lia|by eexists].
  - intros [= <-]. split_and!; done.
Qed.

Lemma validate_env_name_ok name :
  validate_env_name name = Ok tt ↔
  is_valid_env_name name = true ∧ (name ∉ RESERVED_ENV_NAMES) ∧
  Forall (fun prefix => starts_with prefix name = false) RESERVED_ENV_PREFIXES.
Proof.
  unfold validate_env_name. destruct (is_valid_env_name name); cbn [negb]; [|naive_solver].
  case_bool_decide; [naive_solver|].
  destruct (existsb _ RESERVED_ENV_PREFIXES) eqn:He; (split; [try done; intros _|naive_solver || intros (_ & _ & Hf)]).
  - apply List.existsb_exists in He as (prefix & Hin & Hpre). rewrite Forall_forall in Hf.
    apply list_elem_of_In in Hin. by rewrite Hf in Hpre.
  - split_and!; [done..|]. apply Forall_forall. intros prefix Hin. apply not_true_iff_false. intros Hpre.
    apply not_true_iff_false in He. apply He, List.existsb_exists. exists prefix.
    split; [by apply list_elem_of_In|done].
Qed.

Lemma validate_env_value_ok name value :
  validate_env_value name value = Ok tt ↔ has_nul value = false ∧ str_len value <= MAX_ENV_VALUE_BYTES.
Proof.
  unfold validate_env_value. destruct (has_nul value); [naive_solver|].
  destruct (_ <? _) eqn:Hlen; bool_to_prop; split; try done; intros [_ ?]; lia.
Qed.

Lemma validate_entry_ok name value :
  (_ ← validate_env_name name; validate_env_value name value) = Ok tt ↔ env_entry_ok (name, value).
Proof.
  unfold env_entry_ok. cbn [fst snd]. rewrite <-validate_env_value_ok with (name := name).
  destruct (validate_env_name name) as [[]|] eqn:Hn; cbn.
  - apply validate_env_name_ok in Hn. naive_solver.
  - split; [done|]. intros (Hname & Hres & Hpre & _). assert (validate_env_name name = Ok tt) as Hok
      by by apply validate_env_name_ok. congruence.
Qed.

Lemma env_entries_ok env entries env' :
  sorted env → Forall env_entry_ok env → validate_env_entries env entries = Ok env' →
  sorted env' ∧ Forall env_entry_ok env' ∧ Forall env_entry_ok entries ∧
  env' = foldl (fun m b => bt_insert b.1 b.2 m) env entries.
Proof.
  revert env; induction entries as [|[name value] entries IH]; intros env Hs Hok; cbn.
  - intros [= <-]. split_and!; (done || constructor).
  - intros Hr. assert (Hentry : env_entry_ok (name, value)).
    { apply validate_entry_ok. destruct (validate_env_name name) as [[]|]; [|done]. cbn in *.
      destruct (validate_env_value name value) as [[]|]; [done|done]. }
    apply validate_entry_ok in Hentry as Hrun.
    destruct (validate_env_name name) as [[]|]; [|done]. cbn in *. rewrite Hrun in Hr. cbn in Hr.
    apply IH in Hr as (? & ? & ? & ?); [|by apply sorted_insert|].
    + split_and!; [done..| |done]. by apply Forall_cons_2.
    + apply Forall_forall. intros b Hb%elem_of_bt_insert; [|done].
      rewrite Forall_forall in Hok. naive_solver.
Qed.

Lemma check_roots_ok value resolved roots now now' :
  check_roots value resolved roots now = (Ok tt, now') →
  (now <= now')%nat ∧
  Forall (fun root => ∃ u, (now <= u < now')%nat ∧
            ∀ r, realpath_at u (Paths.path_text root.1) = Ok r → Path.contains r resolved = false) roots.
Proof.
  revert now; induction roots as [|[root role] roots IH]; intros now; cbn [check_roots].
  - intros [_ ->]%ret_Ok. split; [lia|constructor].
  - intros Hr. apply bind_Ok in Hr as (found & s1 & Hf & Hr). injection Hf as <- <-.
    assert (Hrest : check_roots value resolved roots (S now) = (Ok tt, now') ∧
      ∀ r, realpath_at now (Paths.path_text root) = Ok r → Path.contains r resolved = false).
    { destruct (realpath_at now _) as [r|]; [|split; [exact Hr|congruence]].
      destruct (Path.contains r resolved) eqn:Hc; [discriminate Hr|]. split; [exact Hr|congruence]. }
    destruct Hrest as [Hrest Hroot]. apply IH in Hrest as [Hle Hall]. split; [lia|].
    apply Forall_cons_2.
    + exists now. split; [lia|done].
    + eapply Forall_impl; [exact Hall|]. intros r (u & Hu & Hr'). exists u. split; [lia|done].
Qed.

Lemma vetted_weaken paths t1 t1' t2 t2' resolved :
  (t2 <= t1)%nat → (t1' <= t2')%nat →
  vetted_read_path paths t1 t1' resolved → vetted_read_path paths t2 t2' resolved.
Proof.
  intros Hlo Hhi [(value & u & Hu & Hv) Hroots]. split; [exists value, u; split; [lia|done]|].
  eapply Forall_impl; [exact Hroots|]. intros r (u' & Hu' & Hr). exists u'. split; [lia|done].
Qed.

Lemma read_values_ok paths canonical values now l now' :
  validate_read_values paths canonical values now = (Ok l, now') →
  NoDup (Path.components <$> canonical) →
  (now <= now')%nat ∧ NoDup (Path.components <$> l) ∧
  ∃ more, l = canonical ++ more ∧ Forall (vetted_read_path paths now now') more.
Proof.
  revert canonical now; induction values as [|value values IH]; intros canonical now Hr Hnd;
    cbn [validate_read_values] in Hr.
  - apply ret_Ok in Hr as [-> ->]. split_and!; [lia|done|]. exists []. rewrite app_nil_r. by split.
  - destruct (bool_decide (value = "") || negb (starts_with "/" value)) eqn:Habs; [done|].
    destruct (has_nul value) eqn:Hnul; [done|]. bool_to_prop.
    apply bind_Ok in Hr as (found & s1 & Hf & Hr). injection Hf as <- <-.
    destruct (realpath_at now value) as [resolved|] eqn:Hreal; [|done].
    apply bind_Ok in Hr as ([] & s2 & Hroots & Hr). apply check_roots_ok in Hroots as [Hle Hroots].
    destruct (existsb (same_path resolved) canonical) eqn:Hdup; [done|].
    apply IH in Hr as (Hle' & Hnd' & more & -> & Hmore).
    + split_and!; [lia|done|]. exists (resolved :: more). rewrite <-app_assoc. split; [done|].
      apply Forall_cons_2.
      * split; [exists value, now; split_and!; (done || lia)|].
        eapply Forall_impl; [exact Hroots|]. intros r (u & Hu & Hr). exists u. split; [lia|done].
      * eapply Forall_impl; [exact Hmore|]. intros r. apply vetted_weaken; lia.
    + rewrite fmap_app. apply NoDup_app. split_and!; [done| |apply NoDup_singleton].
      intros x Hx Hin. apply list_elem_of_singleton in Hin as ->.
      apply list_elem_of_fmap in Hx as (p & Hp & Hin). apply not_true_iff_false in Hdup.
      apply Hdup, List.existsb_exists. exists p. split; [by apply list_elem_of_In|].
      by apply bool_decide_eq_true_2.
Qed.

Lemma configured_path_ok raw field p :
  validate_configured_path raw field = Ok p →
  p = raw ∧ ∀ v, p = Some v → absolute_path v ∧ has_nul v = false.
Proof.
  unfold validate_configured_path. destruct raw as [v|]; [|by intros [= <-]].
  destruct (starts_with "/" v) eqn:?; [|done]. destruct (has_nul v) eqn:?; [done|]. cbn.
  intros [= <-]. split; [done|]. by intros ? [= <-].
Qed.

(** The validated environment is the table itself. *)
Lemma validate_sandbox_env_ok raw env :
  (∀ entries, raw = Some entries → sorted entries) → validate_sandbox_env raw = Ok env →
  sorted env ∧ Forall env_entry_ok env ∧ env = default [] raw.
Proof.
  unfold validate_sandbox_env. destruct raw as [entries|]; [|intros _ [= <-]; by repeat constructor].
  intros Hs (? & ? & ? & Heq)%env_entries_ok; [|done..]. split_and!; [done..|].
  rewrite Heq. by apply bt_collect_sorted, Hs.
Qed.

(** C37: A configuration that [build] accepts passed the checks that config.rs makes,
    whatever the document was: at least one listener, no two the same, each of a transport that is
    compiled in; an absolute shell; read paths that were resolved and lay in none
    of the daemon's roots, without duplicates; an ordered environment of unreserved
    POSIX names with bounded values; positive limits, a CPU period only with a
    quota; an absolute control-group parent; and isolation only on Linux.  Of the
    documented rules one is not checked and not claimed: that no read path encloses a
    root ([enclosing_read_paths_are_accepted] shows one that is accepted). *)
Theorem accepted_configurations_are_well_formed raw paths now c now' :
  raw_typed raw → build raw paths now = (Ok c, now') → wf paths now now' c.
Proof.
  intros Htyped Hr. unfold build in Hr. inv_run. subst.
  set (sandbox := default RawSandbox_default (raw_sandbox raw)) in *.
  assert (Hs : nonneg (memory_max sandbox) ∧ nonneg (swap_max sandbox) ∧ nonneg (pids_max sandbox) ∧
    nonneg (raw_cpu_quota_micros sandbox) ∧ ∀ entries, raw_env sandbox = Some entries → sorted entries).
  { unfold sandbox. destruct (raw_sandbox raw) as [sb|] eqn:Hraw; [by apply Htyped|]. by split_and!. }
  destruct Hs as (Hm & Hsw & Hp & Hq & Henv).
  match goal with H : validate_read_paths _ _ _ = _ |- _ =>
    apply read_values_ok in H as (Hle & Hnd & more & Hmore & Hvetted); [|constructor] end.
  match goal with H : validate_configured_path _ _ = _ |- _ => apply configured_path_ok in H as [_ Hshell] end.
  match goal with H : validate_sandbox_env _ = _ |- _ =>
    apply validate_sandbox_env_ok in H as (Hsorted & Hentries & _); [|done] end.
  split; cbn; try done.
  - by eapply validate_listen_ok.
  - split; [|done]. cbn in Hmore. by subst.
  - by eapply validate_resources_ok.
  - match goal with H : validate_cgroup_parent ?raw = _ |- _ => revert H; unfold validate_cgroup_parent;
      destruct raw as [v|]; [|by intros [= <-]]; destruct (Path.is_absolute v) eqn:Ha; [|done];
      intros [= <-] ? [= <-]; exact Ha end.
  - match goal with H : validate_identity ?raw = _ |- _ => revert H; unfold validate_identity;
      destruct raw as [word|]; [|by intros [= <-]] end.
    destruct (ok_or _ _) as [i|]; [|done]. cbn.
    case_bool_decide; cbn; [|by intros [= <-]]. by destruct target_linux.
Qed.

(** The snapshot of a daemon without a configuration file. *)
Definition default_config (endpoints : list ListenEndpoint) : t :=
  {| listen := endpoints; log_level := LInfo; network := Disabled; sandbox_shell := None;
     read_paths := []; sandbox_env := []; resources := MkResources None None None None None;
     cgroup_parent := None; identity := Host |}.

(** Endpoints given on the command line, printed into the document and read
    back, are the listeners of the snapshot exactly when the file names none: a
    daemon without a file starts with the built-in defaults and those endpoints, and
    one whose file omits [listen] gets them in place of the default. *)
Theorem command_line_listeners_are_used paths endpoints now :
  endpoints ≠ [] → NoDup endpoints → Forall Endpoint.wf endpoints →
  (stat_config_at now (Paths.config_file paths) = Err (Errno ENOENT) →
   load_snapshot paths (Some endpoints) now = (Ok (default_config endpoints), S now)) ∧
  (∀ md raw now1 c now',
   stat_config_at now (Paths.config_file paths) = Ok md →
   parse_file (Paths.config_file paths) (S now) = (Ok raw, now1) →
   load_snapshot paths (Some endpoints) now = (Ok c, now') →
   match raw_listen raw with
   | None => listen c = endpoints
   | Some values => validate_listen (Some values) = Ok (listen c)
   end).
Proof.
  intros Hne Hnd Hwf.
  assert (Hlisten : validate_listen (Some (Endpoint.to_string <$> endpoints)) = Ok endpoints).
  { unfold validate_listen. destruct endpoints as [|e es]; [done|].
    rewrite fmap_cons. change (Endpoint.to_string e :: (Endpoint.to_string <$> es))
      with (Endpoint.to_string <$> e :: es). by apply (validate_listen_printed []). }
  split.
  - intros Hstat. unfold load_snapshot.
    rewrite (bind_run _ _ now (Err (Errno ENOENT)) (S now)) by (unfold stat_config; by rewrite Hstat).
    rewrite (bind_run _ _ (S now) None (S now)) by reflexivity. unfold build.
    rewrite (bind_run _ _ (S now) endpoints (S now)); [reflexivity|].
    unfold liftR. f_equal. exact Hlisten.
  - intros md raw now1 c now' Hstat Hparse Hr. unfold load_snapshot in Hr.
    apply bind_Ok in Hr as (found & s1 & Hf & Hr). injection Hf as <- <-. rewrite Hstat in Hr.
    apply bind_Ok in Hr as (raw' & s2 & Hraw & Hr).
    apply bind_Ok in Hraw as (raw1 & s3 & Hp & Hraw). rewrite Hparse in Hp. injection Hp as <- <-.
    apply ret_Ok in Hraw as [-> ->]. cbn [default from_option id] in Hr. unfold build in Hr.
    destruct (raw_listen raw) as [values|] eqn:Hl; cbn [raw_listen] in Hr; rewrite ?Hl in Hr;
      apply bind_Ok in Hr as (l & s3 & [Hv ->]%liftR_Ok & Hr); inv_run; subst; cbn [listen]; congruence.
Qed.

(** [inner] names a place strictly below [outer]. *)
Definition strictly_below (outer inner : string) : Prop :=
  ∃ l, l ≠ [] ∧ Path.components inner = Path.components outer ++ l.

Lemma outer_not_inside outer inner :
  strictly_below outer inner → Path.components outer ≠ [] →
  Path.contains inner outer = false ∧ Path.contains outer inner = true.
Proof.
  intros (l & Hl & Hin) Hne. split.
  - apply not_true_iff_false. rewrite Path.contains_prefix by (rewrite Hin; by destruct (Path.components outer)).
    intros Hp%prefix_length. rewrite Hin, length_app in Hp. destruct l; [done|]. simpl in Hp. lia.
  - apply Path.contains_prefix; [done|]. rewrite Hin. by apply prefix_app_r.
Qed.

Lemma check_roots_enclosing value resolved roots now :
  Path.components resolved ≠ [] →
  Forall (fun root => ∀ u, ∃ r, realpath_at u (Paths.path_text root.1) = Ok r ∧ strictly_below resolved r) roots →
  check_roots value resolved roots now = (Ok tt, (now + length roots)%nat).
Proof.
  intros Hne Hroots. revert now; induction Hroots as [|[root role] roots Hroot Hroots IH]; intros now.
  - cbn. by rewrite Nat.add_0_r.
  - cbn [check_roots]. destruct (Hroot now) as (r & Hr & Hbelow). cbn [fst] in Hr.
    unfold mbind, M_bind, canonicalize. rewrite Hr.
    destruct (outer_not_inside _ _ Hbelow Hne) as [-> _]. rewrite IH. f_equal. simpl. lia.
Qed.

(** A read path that encloses the daemon's data, state and configuration roots is
    accepted: the containment test asks whether the path lies inside a root, never
    whether a root lies inside the path, so the read-only grant covers the roots
    that the option must not expose. *)
Theorem enclosing_read_paths_are_accepted paths value resolved now :
  absolute_path value → has_nul value = false → realpath_at now value = Ok resolved →
  absolute_path resolved →
  Forall (fun root => ∀ u, ∃ r, realpath_at u (Paths.path_text root.1) = Ok r ∧ strictly_below resolved r)
    (protected_roots paths) →
  validate_read_paths (Some [value]) paths now = (Ok [resolved], (now + 4)%nat) ∧
  Forall (fun root => ∀ u r, realpath_at u (Paths.path_text root.1) = Ok r →
            Path.contains resolved r = true) (protected_roots paths).
Proof.
  intros Habs Hnul Hreal Hres Hroots. pose proof (Path.components_absolute _ Hres) as Hne. split.
  - unfold validate_read_paths. cbn [default from_option id validate_read_values].
    rewrite (bool_decide_false (value = "")) by (intros ->; done). rewrite Habs, Hnul. cbn [negb orb].
    unfold mbind, M_bind at 1. unfold canonicalize. rewrite Hreal.
    unfold mbind, M_bind. rewrite check_roots_enclosing by done. cbn. do 2 f_equal. lia.
  - eapply Forall_impl; [exact Hroots|]. intros root Hroot u r Hr.
    destruct (Hroot u) as (r' & Hr' & Hbelow). rewrite Hr in Hr'. injection Hr' as <-.
    by apply outer_not_inside.
Qed.
End config.

(** ** Concrete runs *)

Definition sample_build : Build := {| feature_tcp := true; feature_ws := true; target_linux := true |}.

Definition home_alice : Auth.path := Auth.PJoin (Auth.PJoin Auth.PRoot "home") "alice".

Definition sample_paths : Paths.t :=
  Paths.from_roots (Auth.PJoin home_alice "config") (Auth.PJoin home_alice "data")
    (Auth.PJoin home_alice "state").

(** No configuration file, and every absolute path resolves to itself. *)
Definition sample_kernel : ConfigKernel := {|
  stat_config_at := fun _ _ => Err (Errno ENOENT);
  read_config_at := fun _ _ => Err (Errno ENOENT);
  realpath_at := fun _ p => if Path.is_absolute p then Ok p else Err (Errno ENOENT);
  config_euid := 1000;
  from_toml := fun _ => Ok RawConfig_default |}.

Definition sample_tables : UnicodeTables := {| printable := fun _ => true |}.

Definition sample_endpoints : list ListenEndpoint :=
  [Tcp (Net.V4 [127; 0; 0; 1] 2222); WebSocket (Net.V6 [0; 0; 0; 0; 0; 0; 0; 1] 8080 0 0) "/ssh"].

Definition sample_sandbox : RawSandbox :=
  MkRawSandbox (Some "/bin/bash") (Some "outbound") (Some "isolated") (Some ["/opt/toolchain"])
    (Some [("EXTRA", "1"); ("LANG", "C.UTF-8")]) (Some 1073741824) None (Some 256) (Some 50000) (Some 100000)
    (Some "/sys/fs/cgroup/shbox").

Definition sample_raw : RawConfig :=
  MkRawConfig (Some (Endpoint.to_string <$> sample_endpoints)) (Some "debug") (Some sample_sandbox).

Definition sample_build_result : result Error t * nat :=
  @build sample_build sample_tables sample_host sample_kernel sample_raw sample_paths 0%nat.

(** The snapshot of the sample document. *)
Definition sample_config : t :=
  match sample_build_result.1 with Ok c => c | Err _ => default_config [] end.

Lemma accepted_configurations_are_well_formed_witness :
  sample_build_result = (Ok sample_config, 4%nat) ∧
  @wf sample_build sample_kernel sample_paths 0%nat 4%nat sample_config.
Proof.
  split; [vm_compute; reflexivity|].
  apply (@accepted_configurations_are_well_formed sample_build sample_tables sample_host sample_kernel
           sample_raw sample_paths 0%nat sample_config 4%nat).
  - intros sandbox [= <-]. split_and!; try (intros ? [= <-]; lia); try done.
    intros ? [= <-]. vm_compute. done.
  - vm_compute. reflexivity.
Defined.

Lemma sample_endpoints_wf : Forall (@Endpoint.wf sample_build) sample_endpoints.
Proof.
  apply Forall_forall. intros e He. assert (∃ v, @Endpoint.from_str sample_build sample_tables v = Ok e) as [v Hv].
  { exists (Endpoint.to_string e). unfold sample_endpoints in He. rewrite !elem_of_cons, elem_of_nil in He.
    destruct He as [-> |[-> |[]]]; vm_compute; reflexivity. }
  by eapply Endpoint.endpoint_wf.
Qed.

Lemma command_line_listeners_are_used_witness :
  @load_snapshot sample_build sample_tables sample_host sample_kernel sample_paths (Some sample_endpoints) 0%nat
    = (Ok (default_config sample_endpoints), 1%nat).
Proof.
  apply (@command_line_listeners_are_used sample_build sample_tables sample_host sample_kernel
           sample_paths sample_endpoints 0%nat).
  - done.
  - refine (bool_decide_unpack _ _). vm_compute. done.
  - apply sample_endpoints_wf.
  - reflexivity.
Defined.

Lemma enclosing_read_paths_are_accepted_witness :
  @validate_read_paths sample_tables sample_host sample_kernel (Some ["/home/alice"]) sample_paths 0%nat
    = (Ok ["/home/alice"], 4%nat).
Proof.
  apply (@enclosing_read_paths_are_accepted sample_tables sample_host sample_kernel
           sample_paths "/home/alice" "/home/alice" 0%nat); try reflexivity.
  unfold protected_roots. repeat apply Forall_cons_2; [..|apply Forall_nil_2]; intros u;
    eexists; (split; [reflexivity|]); [exists ["data"]|exists ["state"]|exists ["config"]]; by vm_compute.
Defined.
End Config.
