(* ===== verification/Account.v ===== *)
(** * The daemon's account ([account.rs])

    The passwd entry of the daemon's user, which supplies the login shell, and the
    check that a shell can be executed. *)

From S2P Require Import Prelude Text PathNames Toml SocketAddr Endpoint FileSystem RuntimeLedger Auth Paths Config.

Module Account.

Record t := MkAccount { name : string; home : string; shell : string }.

Inductive Error :=
| Passwd (uid : Z) (message : string)
| Shell (path message : string).

(** What [getpwuid_r] answers for a user: an error number, no entry, or the
    entry's fields; and the calls on a shell's path. *)
Class AccountKernel := {
  getpwuid_r : Z → result Z (option (string * string * string));
  account_euid : Z;
  strerror : Z → string;
  stat_shell : string → result io_error Z;
  access_x : string → bool }.

Section account.
Context `{AccountKernel} `{FileSystem.Host}.

Definition display (e : Error) : string :=
  match e with
  | Passwd uid message =>
      "cannot resolve daemon account (uid " +:+ fmt_dec uid +:+ "): " +:+ message
  | Shell path message => "invalid shell " +:+ from_utf8_lossy path +:+ ": " +:+ message
  end.

Definition current_account : result Error t :=
  match getpwuid_r account_euid with
  | Err rc => Err (Passwd account_euid (strerror rc))
  | Ok None => Err (Passwd account_euid "no passwd entry for the daemon uid")
  | Ok (Some (pw_name, pw_dir, pw_shell)) =>
      let name := from_utf8_lossy pw_name in
      let home := from_utf8_lossy pw_dir in
      let shell := from_utf8_lossy pw_shell in
      if bool_decide (name = "") || bool_decide (home = "")
      then Err (Passwd account_euid "passwd entry has no name or home directory")
      else Ok (MkAccount name home shell)
  end.

Definition login_shell_path (shell : string) : string :=
  if bool_decide (shell = "") then "/bin/sh" else shell.

Definition host_shell (a : t) : string := login_shell_path (shell a).

Definition sandbox_shell (a : t) (config : Config.t) : result Error string :=
  match Config.sandbox_shell config with
  | Some configured => Ok configured
  | None => Ok (login_shell_path (shell a))
  end.

Definition validate_executable (path : string) : result Error unit :=
  match stat_shell path with
  | Err err => Err (Shell path ("cannot stat shell: " +:+ io_display err))
  | Ok mode =>
      if negb (is_regular mode) then Err (Shell path "shell is not a regular file")
      else if has_nul path then Err (Shell path "shell path contains NUL")
      else if negb (access_x path) then Err (Shell path "shell is not executable by the daemon user")
      else Ok tt
  end.
End account.
End Account.
