(* ===== verification/StorageDeletion.v ===== *)
(** * Deleting a sandbox tree ([Storage::remove_tree])

    What a deletion removes, in which order, and when it cannot finish. *)

From S2P Require Import Prelude Text Toml Idents Metadata FileSystem Storage.

Module StorageDeletion.
Import Storage.

Section proofs.
Context `{TomlCrate} `{UnicodeTables} `{Host}.
Context (root_path : string).

(** [preserves Inv m]: whatever fails, [m] keeps the tree in [Inv]. *)
Definition preserves {E A} (Inv : option node → Prop) (m : M world E A) : Prop :=
  hoare Inv m (fun _ => Inv).

Lemma preserves_bind {E A B} Inv (m : M world E A) (f : A → M world E B) :
  preserves Inv m → (∀ a, preserves Inv (f a)) → preserves Inv (m ≫= f).
Proof.
  intros Hm Hf. eapply hoare_bind with (R := fun _ => Inv); [|done].
  eapply hoare_conseq; [exact Hm|done|]. by intros [] ??.
Qed.

Lemma preserves_read_only {E A} Inv (m : M world E A) : read_only m → preserves Inv m.
Proof. apply read_only_hoare. Qed.

Lemma preserves_mapE {E E' A} Inv (g : E → E') (m : M world E A) :
  preserves Inv m → preserves Inv (mapE g m).
Proof. intros Hm. apply hoare_mapE. exact Hm. Qed.

(** The directory a successful open returns. *)
Lemma preserves_open {A} Inv d name (k : fd → M world io_error A) :
  preserves Inv (k (d ++ [name])) → preserves Inv (child ← open_directory_at d name; k child).
Proof.
  intros Hk w Hw. unfold mbind, M_bind.
  destruct (open_directory_at d name w) as [[d'|e] w'] eqn:Ho;
    pose proof (ro_root _ _ _ _ (read_only_open_at d name) Ho) as Hr.
  - apply open_directory_Ok in Ho as [-> _]. apply Hk. by rewrite Hr.
  - simpl. by rewrite Hr.
Qed.

Lemma remove_loop_preserves Inv recurse d names :
  (∀ name flag, name ≠ METADATA_NAME → preserves Inv (unlink_at d name flag)) →
  (∀ name, name ≠ METADATA_NAME → preserves Inv (recurse (d ++ [name]))) →
  preserves Inv (remove_loop recurse d names).
Proof.
  intros Hu Hrec. induction names as [|name names IH]; simpl;
    [by apply preserves_read_only, read_only_ret|].
  case_bool_decide as Hn; [done|].
  apply preserves_bind; [apply preserves_read_only; auto with read_only|]. intros [st|e].
  - apply preserves_bind; [apply preserves_read_only; auto with read_only|]. intros _.
    apply preserves_bind; [|done]. destruct (is_directory _); [|by apply Hu].
    apply preserves_open. apply preserves_bind; [by apply Hrec|]. intros _.
    apply preserves_bind; [apply preserves_read_only; auto with read_only|]. intros _. by apply Hu.
  - destruct (errno_is _ _); [done|]. by apply preserves_read_only, read_only_fail.
Qed.

(** [remove_children] unlinks below its directory only, and never an entry
    named [metadata.toml]. *)
Lemma remove_children_preserves Inv fuel d :
  (∀ q name flag, name ≠ METADATA_NAME → preserves Inv (unlink_at (d ++ q) name flag)) →
  preserves Inv (remove_children fuel d).
Proof.
  revert d. induction fuel as [|fuel IH]; intros d Hu; simpl;
    [by apply preserves_read_only, read_only_fail|].
  apply preserves_bind; [apply preserves_read_only; auto with read_only|]. intros names.
  apply remove_loop_preserves.
  - intros name flag Hn. specialize (Hu [] name flag Hn). by rewrite app_nil_r in Hu.
  - intros name Hn. apply IH. intros q x flag Hx. rewrite <-app_assoc. by apply Hu.
Qed.

(** ** A tree that cannot be deleted *)

Definition present (p : fd) (t : option node) : Prop := is_Some (t ≫= node_at p).

Lemma unlink_preserves_present p d name flag :
  p ≠ d ++ [name] → preserves (present p) (unlink_at d name flag).
Proof. intros Hne w Hw. by apply unlink_spares. Qed.

Lemma remove_children_present fuel d p :
  last p = Some METADATA_NAME → preserves (present p) (remove_children fuel d).
Proof.
  intros Hl. apply remove_children_preserves. intros q name flag Hn.
  apply unlink_preserves_present. intros ->. rewrite last_snoc in Hl. congruence.
Qed.

(** After its contents, the directory itself: an entry left below keeps it. *)
Lemma rmdir_blocked x q name w u w' :
  present (name :: x :: q) (w_root w) → unlink_at [] name AtRemovedir w = (Ok u, w') → False.
Proof.
  intros Hp Hu. unfold unlink_at in Hu. inv_run.
  match goal with Hc : check_name _ _ = _ |- _ => apply check_name_Ok in Hc as -> end.
  match goal with Hy : sys _ = _ |- _ => apply sys_root in Hy as Hroot end.
  match goal with Hg : get_entries _ _ = _ |- _ => apply get_entries_Ok in Hg as (-> & mode & m & Hd) end.
  split_run; inv_run. rewrite Hroot in Hd.
  match goal with Hck : unlink_check _ _ = None |- _ => rename Hck into Hleaf end.
  rewrite <-(child_entry [] name _ _ _ _ Hd) in Hleaf.
  unfold present in Hp. change (name :: x :: q) with ([] ++ [name] ++ x :: q) in Hp.
  destruct (w_root w) as [t|]; [|by destruct Hp]. cbn [mbind option_bind] in *.
  rewrite app_assoc, node_at_app in Hp.
  destruct (node_at ([] ++ [name]) t) as [n|]; [|by destruct Hp]. cbn [mbind option_bind] in Hp.
  rewrite (unlink_check_leaf _ _ x q Hleaf) in Hp. by destruct Hp.
Qed.

Lemma open_as_error n d w e :
  (open_as_directory (Some n) d w).1 = Err e → errno_is e ENOENT = false.
Proof.
  intros Heq. assert (Hcases : e = Errno ELOOP ∨ e = Errno EIO ∨ e = Errno ENOTDIR).
  { assert (Hgen : ∀ b : bool,
      ((_ ← sys; if b then mret d else fail (Errno ENOTDIR)) w).1 = Err e →
      e = Errno EIO ∨ e = Errno ENOTDIR).
    { intros b. unfold mbind, M_bind, sys. destruct (w_env w) as [|[] env], b; simpl; intros [= <-]; auto. }
    destruct n; simpl in Heq; [| |left; congruence|]; right; by eapply Hgen. }
  by destruct Hcases as [-> | [-> | ->]].
Qed.

Lemma remove_tree_blocked id q w u w' :
  q ≠ [] → present (id :: q ++ [METADATA_NAME]) (w_root w) →
  remove_tree root_path id w = (Ok u, w') → False.
Proof.
  intros Hq Hp Hr. unfold remove_tree in Hr.
  apply bind_Ok in Hr as (d & w1 & Ho & Hr). apply open_root_Ok in Ho as (-> & Hr1 & mode & m & es & Hdir).
  rewrite <-Hr1 in Hp. set (p := id :: q ++ [METADATA_NAME]) in *.
  apply bind_Ok in Hr as (r & w2 & Ho & Hr).
  pose proof (ro_root _ _ _ _ (read_only_tryM _ (read_only_open_at [] id)) Ho) as Hr2.
  rewrite <-Hr2 in Hp. apply tryM_Ok in Ho.
  destruct r as [d|e].
  2:{ destruct (errno_is e ENOENT) eqn:He; [|done].
      eapply (entry_absent [] id (fun o => open_as_directory o ([] ++ [id]))) in Ho; [|..|done].
      - unfold present, p in Hp. rewrite Hr2 in Hp. destruct (w_root w1) as [t|]; [|by destruct Hp].
        simpl in *. destruct t as [| ? ? es'| |]; try by destruct Hp.
        destruct (ent_get id es') as [n|]; [by destruct n|by destruct Hp].
      - rewrite Hr1, Hdir. done.
      - intros n w0 Heq. by rewrite (open_as_error n _ _ _ Heq) in He. }
  apply open_directory_Ok in Ho as [-> _]. simpl in Hr.
  rewrite (bind_run _ _ _ w2 w2) in Hr by done.
  apply bind_Ok in Hr as (u1 & w3 & Hc & Hr). apply mapE_Ok in Hc.
  pose proof (remove_children_present (tree_height (w_root w2)) [id] p) as Hpres.
  specialize (Hpres ltac:(unfold p; rewrite app_comm_cons; apply last_snoc) w2 Hp).
  rewrite Hc in Hpres. simpl in Hpres.
  apply bind_Ok in Hr as (u2 & w4 & Ht & Hr).
  apply (ro_root _ _ _ _ (read_only_mapE _ _ (read_only_trip _))) in Ht. rewrite <-Ht in Hpres.
  apply bind_Ok in Hr as (u3 & w5 & Hu & Hr). apply mapE_Ok in Hu.
  pose proof (unlink_spares p [id] METADATA_NAME UnlinkFile w4) as Hsp. rewrite Hu in Hsp.
  specialize (Hsp ltac:(unfold p; destruct q as [|? []]; simpl; congruence) Hpres). simpl in Hsp.
  apply bind_Ok in Hr as (u4 & w6 & Hrm & _). apply mapE_Ok in Hrm.
  destruct q as [|y q]; [done|]. by eapply (rmdir_blocked y (q ++ [METADATA_NAME])).
Qed.

(** ** What a finished removal leaves *)

Definition absent (p : fd) (t : option node) : Prop := t ≫= node_at p = None.

(** The directory at [d] exists and its entries have distinct names. *)
Definition nodup_at (d : fd) (t : option node) : Prop := dirAt d (fun es => NoDup es.*1) t.

Lemma absent_stays d x q name flag :
  preserves (absent (d ++ [x])) (unlink_at (d ++ q) name flag).
Proof.
  intros w Hw. unfold absent in *.
  destruct (unlink_run (d ++ q) name flag w) as [->|(mode & u & es & n & Hd & Hn & Hck & ->)]; [done|].
  destruct (w_root w) as [t|]; simpl in *; [|done].
  rewrite node_at_app in Hd. destruct (node_at d t) as [nd|] eqn:Hnd; simpl in Hd; [|done].
  rewrite node_at_app, Hnd in Hw. cbn [mbind option_bind] in Hw.
  destruct q as [|y q].
  - rewrite app_nil_r. simpl in Hd. simplify_eq. rewrite node_at_app.
    rewrite (node_at_set_same _ _ _ _ _ _ Hnd). simpl in *.
    destruct (decide (x = name)) as [->|Hx]; [by rewrite Hn in Hw|]. by rewrite ent_get_del_ne.
  - destruct (decide (x = y)) as [->|Hxy].
    + exfalso. destruct nd; simpl in Hd, Hw; try done.
      destruct (ent_get y entries); simpl in *; done.
    + rewrite node_at_set_outside; [|by exists d, y, x, q, []]. by rewrite node_at_app, Hnd.
Qed.

Lemma set_entries_names y q f mode u es :
  ∃ es', set_entries (y :: q) f (NDir mode u es) = NDir mode u es'
    ∧ (NoDup es.*1 → NoDup es'.*1).
Proof.
  simpl. destruct (ent_get y es); eexists; split; [done|apply ent_set_NoDup|done|done].
Qed.

Lemma set_entries_app d q f n m :
  node_at d n = Some m → node_at d (set_entries (d ++ q) f n) = Some (set_entries q f m).
Proof.
  revert n. induction d as [|x d IH]; intros n Hn; simpl in *; [by simplify_eq|].
  destruct n as [|mode u es| |]; try done. destruct (ent_get x es) eqn:Hx; simpl in *; [|done].
  rewrite ent_get_set_eq. simpl. by apply IH.
Qed.

Lemma nodup_stays d q name flag : preserves (nodup_at d) (unlink_at (d ++ q) name flag).
Proof.
  intros w Hw.
  destruct (unlink_run (d ++ q) name flag w) as [Hr|(mode & u & es & n & _ & _ & _ & Hr)];
    unfold nodup_at, dirAt in *; rewrite Hr; [done|].
  destruct Hw as (mode' & u' & es' & Hd & Hnd). destruct (w_root w) as [t|]; simpl in *; [|done].
  rewrite (set_entries_app _ _ _ _ _ Hd). destruct q as [|y q].
  - simpl. eexists _, _, _. split; [done|]. by apply ent_del_NoDup.
  - destruct (set_entries_names y q (ent_del name) mode' u' es') as (es2 & -> & Hn).
    eexists _, _, _. split; [done|]. auto.
Qed.

(** The names in [S] are gone from [d], and [d] is well formed. *)
Definition cleared (d : fd) (S : string → Prop) (t : option node) : Prop :=
  nodup_at d t ∧ ∀ x, S x → absent (d ++ [x]) t.

Lemma unlink_cleared d S q name flag : preserves (cleared d S) (unlink_at (d ++ q) name flag).
Proof.
  intros w [Hn Ha]. split; [by apply nodup_stays|]. intros x Hx. apply absent_stays. auto.
Qed.

Lemma unlink_cleared_here d S name flag : preserves (cleared d S) (unlink_at d name flag).
Proof. pose proof (unlink_cleared d S [] name flag) as Hu. by rewrite app_nil_r in Hu. Qed.

Lemma remove_children_cleared fuel d S x : preserves (cleared d S) (remove_children fuel (d ++ x)).
Proof.
  apply remove_children_preserves. intros q name flag _. rewrite <-app_assoc. apply unlink_cleared.
Qed.

Lemma unlink_Ok_absent d name flag w u w' :
  unlink_at d name flag w = (Ok u, w') → nodup_at d (w_root w) → absent (d ++ [name]) (w_root w').
Proof.
  intros Hu Hn. pose proof (unlink_spec d (fun es => NoDup es.*1) name flag w Hn) as Hs.
  rewrite Hu in Hs. destruct Hs as (mode & m & es & Hd & es1 & Hnd & _ & ->).
  unfold absent. cbn [fst snd] in Hd. rewrite (child_entry _ _ _ _ _ _ Hd). by apply ent_get_del_eq.
Qed.

Lemma preserves_run {E A} Inv (m : M world E A) w r w' :
  preserves Inv m → m w = (r, w') → Inv (w_root w) → Inv (w_root w').
Proof. intros Hm Hr Hw. specialize (Hm w Hw). by rewrite Hr in Hm. Qed.

(** One name of the loop, on success. *)
Lemma remove_loop_Ok fuel d names : ∀ S w w',
  cleared d S (w_root w) → remove_loop (remove_children fuel) d names w = (Ok tt, w') →
  cleared d (fun x => S x ∨ x ∈ names ∧ x ≠ METADATA_NAME) (w_root w').
Proof.
  induction names as [|name names IH]; intros S w w' Hc Hl; cbn [remove_loop] in Hl.
  { injection Hl as <-. destruct Hc as [Hn Ha]. split; [done|].
    intros x [Hx|[Hx%not_elem_of_nil _]]; [by apply Ha|done]. }
  case_bool_decide as Hname.
  { apply (IH S) in Hl as [Hn Ha]; [|done]. split; [done|]. intros x [Hx|[Hx Hm]]; apply Ha; [by left|].
    apply elem_of_cons in Hx as [->|Hx]; [done|by right]. }
  assert (Hdone : ∀ w1, cleared d S (w_root w1) → absent (d ++ [name]) (w_root w1) →
    remove_loop (remove_children fuel) d names w1 = (Ok tt, w') →
    cleared d (fun x => S x ∨ x ∈ name :: names ∧ x ≠ METADATA_NAME) (w_root w')).
  { intros w1 [Hn Ha] Hab Hrun. apply (IH (fun x => S x ∨ x = name)) in Hrun as [Hn' Ha'].
    - split; [done|]. intros x [Hx|[Hx Hm]]; apply Ha'; [by left; left|].
      apply elem_of_cons in Hx as [->|Hx]; [by left; right|by right].
    - split; [done|]. intros x [Hx|Hx]; [by apply Ha|by subst]. }
  apply bind_Ok in Hl as (r & w1 & Hs & Hl).
  pose proof (ro_root _ _ _ _ (read_only_tryM _ (read_only_stat_at d name)) Hs) as Hr1.
  apply tryM_Ok in Hs. rewrite <-Hr1 in Hc. destruct r as [st|e].
  - apply bind_Ok in Hl as (u1 & w2 & Ht & Hl). apply (ro_root _ _ _ _ (read_only_trip _)) in Ht.
    apply bind_Ok in Hl as (u2 & w3 & Hu & Hl). rewrite <-Ht in Hc.
    enough (Hgo : cleared d S (w_root w3) ∧ absent (d ++ [name]) (w_root w3)) by (destruct Hgo; by apply (Hdone w3)).
    destruct (is_directory (st_mode st)).
    + apply bind_Ok in Hu as (child & w4 & Ho & Hu).
      pose proof (ro_root _ _ _ _ (read_only_open_at d name) Ho) as Hr4.
      apply open_directory_Ok in Ho as [-> _]. rewrite <-Hr4 in Hc.
      apply bind_Ok in Hu as (u3 & w5 & Hrc & Hu).
      pose proof (preserves_run _ _ _ _ _ (remove_children_cleared fuel d S [name]) Hrc Hc) as Hc5.
      apply bind_Ok in Hu as (u4 & w6 & Ht' & Hu). apply (ro_root _ _ _ _ (read_only_trip _)) in Ht'.
      rewrite <-Ht' in Hc5. split; [|by eapply unlink_Ok_absent; [|apply Hc5]].
      by eapply preserves_run; [apply unlink_cleared_here|..].
    + split; [by eapply preserves_run; [apply unlink_cleared_here|..]|].
      by eapply unlink_Ok_absent; [|apply Hc].
  - destruct (errno_is e ENOENT) eqn:He; [|done]. apply (Hdone w1); [done| |done].
    destruct Hc as [(mode & u & es & Hd & _) _]. unfold absent. rewrite Hr1 in Hd |- *.
    by eapply stat_absent.
Qed.

Lemma remove_children_Ok fuel d w w' :
  nodup_at d (w_root w) → remove_children fuel d w = (Ok tt, w') →
  dirAt d (fun es => NoDup es.*1 ∧ ∀ x, x ∈ es.*1 → x = METADATA_NAME) (w_root w').
Proof.
  intros Hn Hr. destruct fuel as [|fuel]; simpl in Hr; [done|].
  apply bind_Ok in Hr as (names & w1 & Hnames & Hl).
  pose proof (ro_root _ _ _ _ (read_only_read_names d) Hnames) as Hr1.
  apply read_names_Ok in Hnames as (mode & u & es & Hd & ->).
  apply (remove_loop_Ok fuel d es.*1 (fun x => x ∉ es.*1)) in Hl as [(m & u' & es' & Hd' & Hnd) Ha].
  - exists m, u', es'. split_and!; [done..|]. intros x Hx.
    destruct (decide (x = METADATA_NAME)) as [|Hm]; [done|]. exfalso.
    assert (Habs : absent (d ++ [x]) (w_root w')).
    { apply Ha. destruct (decide (x ∈ es.*1)); [right|left]; done. }
    unfold absent in Habs. rewrite (child_entry _ _ _ _ _ _ Hd') in Habs.
    by apply ent_get_None in Habs.
  - rewrite Hr1. split; [done|]. intros x Hx. unfold absent.
    rewrite (child_entry _ _ _ _ _ _ Hd). by apply ent_get_None.
Qed.

(** *** Invariants of the whole of [remove_tree] *)

(** The run of a deletion that got past opening the directory. *)
Definition remove_tail (id : string) (fuel : nat) : M world Error unit :=
  _ ← mapE (io root_path "remove sandbox contents" id) (remove_children fuel [id]);
  _ ← mapE (io root_path "remove sandbox metadata" id) (trip DeleteEntry);
  _ ← mapE (io root_path "remove sandbox metadata" id) (unlink_at [id] METADATA_NAME UnlinkFile);
  _ ← mapE (io root_path "remove sandbox directory" id) (unlink_at [] id AtRemovedir);
  mapE (io root_path "sync sandbox root after deletion" id) (sync_at DeleteRootSync).

Lemma remove_tree_run id w r w' :
  remove_tree root_path id w = (r, w') →
  w_root w' = w_root w ∧ (is_ok r = true → absent [id] (w_root w))
  ∨ ∃ w1, w_root w1 = w_root w ∧ remove_tail id (tree_height (w_root w)) w1 = (r, w').
Proof.
  intros Hr. unfold remove_tree in Hr.
  apply bind_inv in Hr as [(d & w1 & Ho & Hr)|(e & Ho & ->)].
  2:{ left. by apply (ro_root _ _ _ _ (read_only_open_root root_path)) in Ho. }
  apply open_root_Ok in Ho as (-> & Hr1 & mode & m & es & Hdir).
  apply bind_inv in Hr as [(o & w2 & Ho & Hr)|(e & Ho & ->)];
    pose proof (ro_root _ _ _ _ (read_only_tryM _ (read_only_open_at [] id)) Ho) as Hr2.
  2:{ left. by split; [congruence|]. }
  apply tryM_Ok in Ho. destruct o as [d|e].
  - apply open_directory_Ok in Ho as [-> _]. right. exists w2. split; [congruence|].
    rewrite (bind_run _ _ _ w2 w2) in Hr by done. by rewrite Hr2, Hr1 in Hr.
  - left. destruct (errno_is e ENOENT) eqn:He; unfold_monad; simplify_eq; (split; [congruence|]); [|done].
    intros _. unfold absent. rewrite <-Hr1.
    eapply (entry_absent [] id (fun o => open_as_directory o ([] ++ [id]))) in Ho; [done|..|done].
    + by rewrite Hr1, Hdir.
    + intros n w0 Heq. by rewrite (open_as_error n _ _ _ Heq) in He.
Qed.

Lemma remove_tail_preserves id fuel Inv :
  (∀ q name flag, preserves Inv (unlink_at ([id] ++ q) name flag)) →
  preserves Inv (unlink_at [] id AtRemovedir) →
  preserves Inv (remove_tail id fuel).
Proof.
  intros Hin Hout. unfold remove_tail.
  apply preserves_bind; [by apply preserves_mapE, remove_children_preserves; auto|]. intros _.
  apply preserves_bind; [apply preserves_read_only; auto with read_only|]. intros _.
  apply preserves_bind; [apply preserves_mapE, (Hin [])|]. intros _.
  apply preserves_bind; [by apply preserves_mapE|]. intros _.
  apply preserves_read_only, read_only_mapE, read_only_sync_at.
Qed.

Lemma remove_tree_frame id w r w' id' p :
  remove_tree root_path id w = (r, w') → id' ≠ id →
  w_root w' ≫= node_at (id' :: p) = w_root w ≫= node_at (id' :: p).
Proof.
  intros [[-> _]|(w1 & Hr & Ht)]%remove_tree_run Hne; [done|].
  set (Inv := fun t : option node => t ≫= node_at (id' :: p) = w_root w ≫= node_at (id' :: p)).
  eapply (preserves_run Inv) in Ht; [done|..|by unfold Inv; rewrite Hr].
  apply remove_tail_preserves.
  - intros q name flag wx Hx. unfold Inv in *.
    rewrite (confined_unlink ([id] ++ q) name flag wx (id' :: p)); [done|].
    by exists [], id, id', q, p.
  - intros wx Hx. unfold Inv in *.
    destruct (unlink_run [] id AtRemovedir wx) as [->|(mode & u & es & n & Hd & _ & _ & ->)]; [done|].
    destruct (w_root wx) as [t|]; [|done]. simpl in Hd, Hx |- *. simplify_eq. simpl in *.
    by rewrite ent_get_del_ne.
Qed.

Definition only_record (id : string) (t : option node) : Prop :=
  dirAt [id] (fun es => NoDup es.*1 ∧ ∀ x, x ∈ es.*1 → x = METADATA_NAME) t.

Lemma emptied es :
  NoDup es.*1 → (∀ x, x ∈ es.*1 → x = METADATA_NAME) → ent_del METADATA_NAME es = [].
Proof.
  destruct es as [|[k n] [|[k' n'] es]]; intros Hnd Hall; [done|..].
  - simpl. rewrite (Hall k) by (simpl; by left). by rewrite bool_decide_eq_true_2.
  - exfalso. simpl in Hnd. apply NoDup_cons in Hnd as [Hk _]. apply Hk.
    rewrite (Hall k) by (simpl; by left). rewrite (Hall k') by (simpl; by right; left). by left.
Qed.

Lemma unlink_Err_same d name flag w e w' :
  unlink_at d name flag w = (Err e, w') → w_root w' = w_root w.
Proof.
  intros Hu. unfold unlink_at in Hu.
  apply bind_inv in Hu as [(u1 & w1 & Hc & Hr)|(x & Hc & _)];
    apply (ro_root _ _ _ _ (read_only_check_name name)) in Hc; [|done].
  apply bind_inv in Hr as [(u2 & w2 & Hs%sys_root & Hr)|(x & Hs%sys_root & _)]; [|congruence].
  apply bind_inv in Hr as [(es & w3 & Hg & Hr)|(x & Hg & _)];
    apply (ro_root _ _ _ _ (read_only_get_entries d)) in Hg; [|congruence].
  destruct (unlink_check _ _); unfold_monad; simplify_eq/=. congruence.
Qed.

(** The states a deletion passes through: the record is still there; then the
    directory is empty; then it is gone. *)
Definition deletion_state (id : string) (n : node) (t : option node) : Prop :=
  t ≫= node_at [id; METADATA_NAME] = Some n
  ∨ (∃ mode u, t ≫= node_at [id] = Some (NDir mode u []))
  ∨ absent [id] t.

Lemma remove_tail_states id fuel mode u data w r w' :
  w_root w ≫= node_at [id; METADATA_NAME] = Some (NFile mode u data) →
  nodup_at [id] (w_root w) → nodup_at [] (w_root w) →
  remove_tail id fuel w = (r, w') →
  deletion_state id (NFile mode u data) (w_root w') ∧ (is_ok r = true → absent [id] (w_root w')).
Proof.
  intros Hf Hnd Hroot Hr. unfold remove_tail in Hr.
  set (Inv := fun t => t ≫= node_at [id; METADATA_NAME] = Some (NFile mode u data) ∧ nodup_at [] t).
  assert (Hrc : preserves Inv (remove_children fuel [id])).
  { apply remove_children_preserves. intros q name flag Hn w0 [Hx Hy]. split.
    - apply unlink_spares_file; [|done]. intros Heq. apply (f_equal last) in Heq.
      rewrite last_snoc in Heq. simpl in Heq. congruence.
    - by apply (nodup_stays [] ([id] ++ q)). }
  apply bind_inv in Hr as [(u1 & w1 & Hc & Hr)|(e & Hc & ->)].
  2:{ apply (preserves_run _ _ _ _ _ (preserves_mapE _ _ _ Hrc)) in Hc as [Hx _]; [|done].
      split; [by left|done]. }
  apply mapE_Ok in Hc. pose proof (preserves_run _ _ _ _ _ Hrc Hc ltac:(by split)) as [Hf1 Hroot1].
  destruct u1. apply remove_children_Ok in Hc as (m1 & u1 & es1 & Hd1 & Hnd1 & Hall1); [|done].
  apply bind_inv in Hr as [(u2 & w2 & Ht & Hr)|(e & Ht & ->)];
    apply (ro_root _ _ _ _ (read_only_mapE _ _ (read_only_trip _))) in Ht; rewrite <-Ht in *.
  2:{ split; [by left|done]. }
  apply bind_inv in Hr as [(u3 & w3 & Hu & Hr)|(e & Hu & ->)].
  2:{ unfold mapE in Hu. destruct (unlink_at [id] _ _ w2) as [[] wx] eqn:Hx; simplify_eq/=.
      apply unlink_Err_same in Hx. rewrite Hx. split; [by left|done]. }
  apply mapE_Ok in Hu.
  pose proof (unlink_spec [id] (eq es1) METADATA_NAME UnlinkFile w2) as Hs.
  pose proof (preserves_run _ _ _ _ _ (nodup_stays [] [id] METADATA_NAME UnlinkFile) Hu Hroot1) as Hroot3.
  rewrite Hu in Hs. destruct Hs as (m3 & u3' & es3 & Hd3 & es1' & <- & _ & ->); [by exists m1, u1, es1|].
  cbn [fst snd] in Hd3. rewrite emptied in Hd3 by done.
  apply bind_inv in Hr as [(u4 & w4 & Hu4 & Hr)|(e & Hu4 & ->)].
  - apply mapE_Ok in Hu4. apply (unlink_Ok_absent [] id) in Hu4; [|done].
    apply (ro_root _ _ _ _ (read_only_mapE _ _ (read_only_sync_at _))) in Hr. rewrite Hr.
    split; [by right; right|done].
  - unfold mapE in Hu4. destruct (unlink_at [] _ _ w3) as [[] wx] eqn:Hx; simplify_eq/=.
    apply unlink_Err_same in Hx. rewrite Hx. split; [|done]. right; left. by eexists _, _.
Qed.

(** ** Deletion succeeds

    When the kernel refuses nothing, a tree without a nested [metadata.toml] is
    removed, and the fuel of the model is never exhausted. *)

Definition calm (w : world) : Prop := w_env w = [] ∧ w_fault w = None.

(** [n] holds no entry named [metadata.toml] and is a proper tree. *)
Fixpoint clean (n : node) : Prop :=
  match n with
  | NDir mode _ es =>
      is_directory (Z.lor S_IFDIR mode) = true ∧ NoDup es.*1
      ∧ foldr (fun b P => (b.1 ≠ METADATA_NAME ∧ has_nul b.1 = false ∧ clean b.2) ∧ P) True es
  | _ => True
  end.

Lemma clean_children mode u es name n :
  clean (NDir mode u es) → (name, n) ∈ es →
  name ≠ METADATA_NAME ∧ has_nul name = false ∧ clean n.
Proof.
  intros (_ & _ & Hc). induction es as [|b es IH]; [by intros ?%not_elem_of_nil|]. simpl in Hc.
  intros [<-|Hin]%elem_of_cons; [apply Hc|]. apply IH; [apply Hc|done].
Qed.

Lemma height_child mode u es name n :
  (name, n) ∈ es → (height n < height (NDir mode u es))%nat.
Proof.
  intros Hin. simpl. apply Nat.lt_succ_r.
  induction es as [|b es IH]; [by apply not_elem_of_nil in Hin|]. simpl.
  apply elem_of_cons in Hin as [<-|Hin]; simpl; [lia|]. specialize (IH Hin). lia.
Qed.

Lemma calm_sys w : calm w → sys w = (Ok tt, w).
Proof. intros [He _]. unfold sys. by rewrite He. Qed.

Lemma calm_trip w point : calm w → trip point w = (Ok tt, w).
Proof. intros [_ Hf]. unfold trip. rewrite Hf. by rewrite bool_decide_eq_false_2. Qed.

Lemma calm_check w name : has_nul name = false → check_name name w = (Ok tt, w).
Proof. intros Hn. unfold check_name. by rewrite Hn. Qed.

Lemma calm_entries d w mode u es :
  w_root w ≫= node_at d = Some (NDir mode u es) → get_entries d w = (Ok es, w).
Proof. intros Hd. unfold get_entries. by rewrite Hd. Qed.

Lemma calm_names d w mode u es :
  calm w → w_root w ≫= node_at d = Some (NDir mode u es) → read_names d w = (Ok es.*1, w).
Proof.
  intros Hc Hd. unfold read_names. rewrite (bind_run _ _ _ _ _ (calm_sys _ Hc)).
  by rewrite (bind_run _ _ _ _ _ (calm_entries _ _ _ _ _ Hd)).
Qed.

(** A child of [d] in the tree of [w]. *)
Lemma child_of d name w n :
  w_root w ≫= node_at (d ++ [name]) = Some n →
  ∃ mode u es, w_root w ≫= node_at d = Some (NDir mode u es) ∧ ent_get name es = Some n.
Proof.
  destruct (w_root w) as [t|]; simpl; [|done]. rewrite node_at_app. intros Hn.
  destruct (node_at d t) as [nd|]; simpl in Hn; [|done]. destruct nd as [|mode u es| |]; try done.
  destruct (ent_get name es) eqn:He; simpl in Hn; [|done]. exists mode, u, es. naive_solver.
Qed.

Lemma calm_call {A} d name w n (k : option node → M world io_error A) :
  calm w → has_nul name = false → w_root w ≫= node_at (d ++ [name]) = Some n →
  (_ ← check_name name; _ ← sys; es ← get_entries d; k (ent_get name es)) w = k (Some n) w.
Proof.
  intros Hc Hnul (mode & u & es & Hd & Hn)%child_of.
  erewrite bind_run by by apply calm_check. erewrite bind_run by by apply calm_sys.
  erewrite bind_run by by eapply calm_entries. by rewrite Hn.
Qed.

Lemma calm_stat d name w n :
  calm w → has_nul name = false → w_root w ≫= node_at (d ++ [name]) = Some n →
  stat_at d name w = (Ok (stat_of n), w).
Proof.
  intros Hc Hnul Hn. exact (calm_call d name w n (fun o => match o with
    | Some n => mret (stat_of n) | None => fail (Errno ENOENT) end) Hc Hnul Hn).
Qed.

Lemma calm_open d name w mode u es :
  calm w → has_nul name = false → w_root w ≫= node_at (d ++ [name]) = Some (NDir mode u es) →
  is_directory (Z.lor S_IFDIR mode) = true →
  open_directory_at d name w = (Ok (d ++ [name]), w).
Proof.
  intros Hc Hnul Hn Hd. unfold open_directory_at.
  rewrite (calm_call d name w _ (fun o => open_as_directory o (d ++ [name])) Hc Hnul Hn).
  simpl. erewrite bind_run by by apply calm_sys. by rewrite Hd.
Qed.

Lemma calm_unlink d name flag w n :
  calm w → has_nul name = false → w_root w ≫= node_at (d ++ [name]) = Some n →
  unlink_check flag (Some n) = None →
  ∃ w', unlink_at d name flag w = (Ok tt, w') ∧ calm w'.
Proof.
  intros Hc Hnul Hn Hck. eexists. unfold unlink_at. split.
  - rewrite (calm_call d name w n (fun o => match unlink_check flag o with
      | Some e => fail e | None => update_entries d (ent_del name) end) Hc Hnul Hn).
    rewrite Hck. reflexivity.
  - by destruct Hc.
Qed.

(** The entries of [d] that a loop over [names] still has to remove. *)
Definition removable (fuel : nat) (d : fd) (names : list string) (w : world) : Prop :=
  ∀ x, x ∈ names → x ≠ METADATA_NAME → has_nul x = false
    ∧ ∃ n, w_root w ≫= node_at (d ++ [x]) = Some n ∧ clean n ∧ (height n ≤ fuel)%nat.

Lemma removable_keep fuel d names name w w' :
  name ∉ names →
  (∀ x, x ≠ name → w_root w' ≫= node_at (d ++ [x]) = w_root w ≫= node_at (d ++ [x])) →
  removable fuel d (name :: names) w → removable fuel d names w'.
Proof.
  intros Hn Hk Hr x Hx Hm. rewrite Hk by (by intros ->). apply Hr; [by right|done].
Qed.

Lemma outside_sibling d x y q : x ≠ y → outside (d ++ [x] ++ q) (d ++ [y]).
Proof. intros Hne. by exists d, x, y, q, []. Qed.

Lemma remove_children_sibling fuel d x y w :
  x ≠ y → w_root (remove_children fuel (d ++ [x]) w).2 ≫= node_at (d ++ [y])
    = w_root w ≫= node_at (d ++ [y]).
Proof.
  intros Hne.
  set (Inv := fun t : option node => t ≫= node_at (d ++ [y]) = w_root w ≫= node_at (d ++ [y])).
  assert (Hp : preserves Inv (remove_children fuel (d ++ [x]))); [|by apply Hp].
  apply remove_children_preserves. intros q name flag _ w0 Hw0. unfold Inv in *.
  rewrite (confined_unlink _ name flag w0 (d ++ [y])); [done|].
  rewrite <-app_assoc. by apply outside_sibling.
Qed.

Lemma unlink_sibling d name flag x w :
  x ≠ name → w_root (unlink_at d name flag w).2 ≫= node_at (d ++ [x]) = w_root w ≫= node_at (d ++ [x]).
Proof.
  intros Hne. destruct (unlink_run d name flag w) as [->|(mode & u & es & n & Hd & _ & _ & ->)]; [done|].
  rewrite (child_entry _ _ _ _ _ _ Hd). destruct (w_root w) as [t|]; simpl in *; [|done].
  rewrite node_at_app, (node_at_set_same _ _ _ _ _ _ Hd). simpl. rewrite ent_get_del_ne by done.
  by destruct (ent_get x es).
Qed.

(** A cleared subdirectory is empty. *)
Lemma cleared_empty fuel d w w' mode u es :
  w_root w ≫= node_at d = Some (NDir mode u es) → clean (NDir mode u es) →
  remove_children fuel d w = (Ok tt, w') →
  ∃ mode' u', w_root w' ≫= node_at d = Some (NDir mode' u' []).
Proof.
  intros Hd Hc Hr. pose proof Hc as (_ & Hnd & _).
  assert (Habs : absent (d ++ [METADATA_NAME]) (w_root w)).
  { unfold absent. rewrite (child_entry _ _ _ _ _ _ Hd).
    destruct (ent_get METADATA_NAME es) as [n|] eqn:Hn; [|done]. exfalso.
    apply ent_get_elem in Hn. by eapply clean_children in Hn as [? _]. }
  assert (Habs' : absent (d ++ [METADATA_NAME]) (w_root w')).
  { eapply preserves_run; [|exact Hr|exact Habs]. apply remove_children_preserves.
    intros q name flag _. apply absent_stays. }
  apply remove_children_Ok in Hr as (m & v & es' & Hd' & _ & Hall); [|by exists mode, u, es].
  destruct es' as [|[k n] es']; [by eexists _, _|]. exfalso. unfold absent in Habs'.
  rewrite (child_entry _ _ _ _ _ _ Hd') in Habs'. simpl in Habs'.
  rewrite (Hall k) in Habs' by (simpl; by left). by rewrite bool_decide_eq_true_2 in Habs'.
Qed.

Lemma remove_loop_succeeds fuel d names : ∀ w,
  (∀ d' w0 mode u es, calm w0 → w_root w0 ≫= node_at d' = Some (NDir mode u es) →
     clean (NDir mode u es) → (height (NDir mode u es) ≤ fuel)%nat →
     ∃ w', remove_children fuel d' w0 = (Ok tt, w') ∧ calm w') →
  calm w → NoDup names → removable fuel d names w →
  ∃ w', remove_loop (remove_children fuel) d names w = (Ok tt, w') ∧ calm w'.
Proof.
  induction names as [|name names IH]; intros w Hrec Hc Hnd Hrem; cbn [remove_loop]; [by eexists|].
  apply NoDup_cons in Hnd as [Hnot Hnd]. case_bool_decide as Hname.
  { apply IH; [done..|]. intros x Hx. apply Hrem. by right. }
  destruct (Hrem name ltac:(by left) Hname) as (Hnul & n & Hn & Hcl & Hh).
  erewrite bind_run by by apply tryM_run, calm_stat. cbn beta iota.
  erewrite bind_run by by apply calm_trip.
  destruct (is_directory (st_mode (stat_of n))) eqn:Hdir.
  - apply is_directory_dir in Hdir as (mode & u & es & ->).
    destruct (Hrec (d ++ [name]) w mode u es) as (w1 & Hr1 & Hc1); [done..|].
    destruct (cleared_empty fuel (d ++ [name]) w w1 mode u es) as (m & v & He); [done..|].
    destruct (calm_unlink d name AtRemovedir w1 (NDir m v [])) as (w2 & Hu & Hc2); [done..|].
    destruct (IH w2) as (w3 & Hr3 & Hc3); [done..| |].
    + eapply removable_keep; [done| |done]. intros x Hx.
      pose proof (unlink_sibling d name AtRemovedir x w1 Hx) as Hs. rewrite Hu in Hs. cbn [snd] in Hs. rewrite Hs.
      pose proof (remove_children_sibling fuel d name x w ltac:(done)) as Hs'. by rewrite Hr1 in Hs'.
    + exists w3. split; [|done]. erewrite bind_run; [exact Hr3|].
      erewrite bind_run by (eapply calm_open; [done..|apply Hcl]).
      erewrite bind_run by exact Hr1. erewrite bind_run by by apply calm_trip. exact Hu.
  - assert (Hck : unlink_check UnlinkFile (Some n) = None).
    { destruct n as [|mode u es| |]; try done. simpl in Hcl, Hdir. destruct Hcl. congruence. }
    destruct (calm_unlink d name UnlinkFile w n) as (w2 & Hu & Hc2); [done..|].
    destruct (IH w2) as (w3 & Hr3 & Hc3); [done..| |].
    + eapply removable_keep; [done| |done]. intros x Hx.
      pose proof (unlink_sibling d name UnlinkFile x w Hx) as Hs. by rewrite Hu in Hs.
    + exists w3. split; [|done]. by erewrite bind_run; [exact Hr3|].
Qed.

Lemma remove_children_succeeds fuel : ∀ d w mode u es,
  calm w → w_root w ≫= node_at d = Some (NDir mode u es) → NoDup es.*1 →
  (∀ name n, (name, n) ∈ es → name ≠ METADATA_NAME → has_nul name = false ∧ clean n) →
  (height (NDir mode u es) ≤ fuel)%nat →
  ∃ w', remove_children fuel d w = (Ok tt, w') ∧ calm w'.
Proof.
  induction fuel as [|fuel IH]; intros d w mode u es Hc Hd Hnd Hcl Hh; [simpl in Hh; lia|].
  cbn [remove_children]. erewrite bind_run by by eapply calm_names.
  apply remove_loop_succeeds; [|done|done|].
  - intros d' w0 mode' u' es' Hc' Hd' Hcl' Hh'. pose proof Hcl' as (_ & Hnd' & _).
    eapply IH; [done..| |done]. intros name n Hin Hm.
    by eapply clean_children in Hin as (_ & ? & ?).
  - intros x Hx Hm. apply list_elem_of_fmap in Hx as ([k n] & -> & Hin). cbn [fst] in *.
    destruct (Hcl k n Hin Hm) as [Hnul Hcn]. split; [done|]. exists n.
    rewrite (child_entry _ _ _ _ _ _ Hd). split_and!; [by apply ent_elem_get|done|].
    pose proof (height_child mode u es k n Hin). lia.
Qed.

(** C17: a deletion removes the sandbox's record last.  However [remove_tree]
    is interrupted, afterwards the durable record is still there unchanged, or
    the sandbox directory is already empty, or it is gone; it reports success
    only if the directory is gone, and no other sandbox is touched.  So startup
    can always see and resume an unfinished deletion. *)
Theorem deletion_removes_the_record_last id mode u data w r w' :
  w_root w ≫= node_at [id; METADATA_NAME] = Some (NFile mode u data) →
  dirAt [id] (fun es => NoDup es.*1) (w_root w) → dirAt [] (fun es => NoDup es.*1) (w_root w) →
  remove_tree root_path id w = (r, w') →
  (w_root w' ≫= node_at [id; METADATA_NAME] = Some (NFile mode u data)
   ∨ (∃ m v, w_root w' ≫= node_at [id] = Some (NDir m v []))
   ∨ w_root w' ≫= node_at [id] = None)
  ∧ (is_ok r = true → w_root w' ≫= node_at [id] = None)
  ∧ ∀ id' p, id' ≠ id → w_root w' ≫= node_at (id' :: p) = w_root w ≫= node_at (id' :: p).
Proof.
  intros Hf Hnd Hroot Hr.
  assert (Hfr : ∀ id' p, id' ≠ id → w_root w' ≫= node_at (id' :: p) = w_root w ≫= node_at (id' :: p))
    by (intros; by eapply remove_tree_frame).
  apply remove_tree_run in Hr as [[Heq Habs]|(w1 & Hr1 & Ht)].
  - rewrite Heq. split_and!; [by left|done|by intros ?? _].
  - rewrite <-Hr1 in Hf, Hnd, Hroot. by apply (remove_tail_states _ _ mode u data) in Ht as [Hs Hok].
Qed.

Lemma calm_open_root w mode u es :
  calm w → w_root w = Some (NDir mode u es) → is_directory (Z.lor S_IFDIR mode) = true →
  open_root root_path w = (Ok [], w).
Proof.
  intros Hc Hr Hd. unfold open_root. apply mapE_run. unfold open_directory_path.
  erewrite bind_run by by apply calm_sys. erewrite bind_run by done. rewrite Hr. simpl.
  erewrite bind_run by by apply calm_sys. by rewrite Hd.
Qed.

(** Past the contents, only the record is left, and the rest succeeds. *)
Lemma remove_tail_finishes id w mode u data :
  calm w → has_nul id = false → nodup_at [] (w_root w) →
  w_root w ≫= node_at [id; METADATA_NAME] = Some (NFile mode u data) → only_record id (w_root w) →
  ∃ w', (_ ← mapE (io root_path "remove sandbox metadata" id) (trip DeleteEntry);
         _ ← mapE (io root_path "remove sandbox metadata" id) (unlink_at [id] METADATA_NAME UnlinkFile);
         _ ← mapE (io root_path "remove sandbox directory" id) (unlink_at [] id AtRemovedir);
         mapE (io root_path "sync sandbox root after deletion" id) (sync_at DeleteRootSync)) w
        = (Ok tt, w') ∧ absent [id] (w_root w').
Proof.
  intros Hc Hnul Hroot Hf (m1 & u1 & es1 & Hd1 & Hnd1 & Hall1).
  destruct (calm_unlink [id] METADATA_NAME UnlinkFile w (NFile mode u data)) as (w1 & Hu1 & Hc1);
    [done..|].
  pose proof (unlink_spec [id] (eq es1) METADATA_NAME UnlinkFile w) as Hs. rewrite Hu1 in Hs.
  destruct Hs as (m3 & u3 & es3 & Hd3 & es1' & <- & _ & ->); [by exists m1, u1, es1|].
  cbn [fst snd] in Hd3. rewrite emptied in Hd3 by done.
  pose proof (preserves_run _ _ _ _ _ (nodup_stays [] [id] METADATA_NAME UnlinkFile) Hu1 Hroot) as Hroot1.
  destruct (calm_unlink [] id AtRemovedir w1 (NDir m3 u3 [])) as (w2 & Hu2 & Hc2); [done..|].
  exists w2. split; [|by apply (unlink_Ok_absent [] id) in Hu2].
  erewrite bind_run by by apply mapE_run, calm_trip.
  erewrite bind_run by by apply mapE_run. erewrite bind_run by by apply mapE_run.
  apply mapE_run. unfold sync_at. erewrite bind_run by by apply calm_trip. by apply calm_sys.
Qed.

(** C35: when nothing fails, a deletion finishes: a sandbox directory with its
    record and any tree below it that has no entry named [metadata.toml] is
    removed completely. *)
Theorem deletion_succeeds id w rmode ru res dmode du es mode u data :
  w_env w = [] → w_fault w = None → has_nul id = false →
  w_root w = Some (NDir rmode ru res) → is_directory (Z.lor S_IFDIR rmode) = true → NoDup res.*1 →
  ent_get id res = Some (NDir dmode du es) → is_directory (Z.lor S_IFDIR dmode) = true → NoDup es.*1 →
  ent_get METADATA_NAME es = Some (NFile mode u data) →
  (∀ name n, (name, n) ∈ es → name ≠ METADATA_NAME → has_nul name = false ∧ clean n) →
  ∃ w', remove_tree root_path id w = (Ok tt, w') ∧ w_root w' ≫= node_at [id] = None.
Proof.
  intros Henv Hfault Hnul Hr Hrd Hrnd Hid Hdd Hnd Hmeta Hcl.
  assert (Hc : calm w) by done.
  assert (Hd : w_root w ≫= node_at [id] = Some (NDir dmode du es)) by (rewrite Hr; simpl; by rewrite Hid).
  assert (Hm : w_root w ≫= node_at [id; METADATA_NAME] = Some (NFile mode u data)).
  { rewrite Hr. simpl. rewrite Hid. simpl. by rewrite Hmeta. }
  assert (Hroot : nodup_at [] (w_root w)) by (rewrite Hr; by exists rmode, ru, res).
  destruct (remove_children_succeeds (tree_height (w_root w)) [id] w dmode du es)
    as (w1 & Hrc & Hc1); [done..| |].
  { rewrite Hr. apply ent_get_elem, (height_child rmode ru) in Hid. unfold tree_height. lia. }
  assert (Hinv : w_root w1 ≫= node_at [id; METADATA_NAME] = Some (NFile mode u data)
    ∧ nodup_at [] (w_root w1)).
  { eapply (preserves_run (fun t => t ≫= node_at [id; METADATA_NAME] = Some (NFile mode u data)
      ∧ nodup_at [] t)); [|exact Hrc|done].
    apply remove_children_preserves. intros q name flag Hn w0 [Hx Hy]. split.
    - apply unlink_spares_file; [|done]. intros Heq. apply (f_equal last) in Heq.
      rewrite last_snoc in Heq. simpl in Heq. congruence.
    - by apply (nodup_stays [] ([id] ++ q)). }
  pose proof (remove_children_Ok _ _ _ _ ltac:(by exists dmode, du, es) Hrc) as Honly.
  destruct (remove_tail_finishes id w1 mode u data) as (w2 & Ht & Habs);
    [done|done|apply Hinv|apply Hinv|done|].
  exists w2. split; [|done]. unfold remove_tree.
  erewrite bind_run by by eapply calm_open_root.
  erewrite bind_run by by eapply tryM_run, (calm_open []).
  cbn beta iota. rewrite (bind_run _ _ _ w w) by done. erewrite bind_run by by apply mapE_run.
  exact Ht.
Qed.

(** A defect of the code: a sandbox whose workspace holds anywhere an
    entry named [metadata.toml] can never be deleted.  [remove_children] skips
    that name at every level, not only in the sandbox directory, so that the
    directory that holds it is never empty and its removal fails, on every
    attempt. *)
Theorem nested_metadata_blocks_deletion id q w r w' :
  q ≠ [] → is_Some (w_root w ≫= node_at (id :: q ++ [METADATA_NAME])) →
  remove_tree root_path id w = (r, w') → is_ok r = false.
Proof.
  intros Hq Hp Hr. destruct r as [u|e]; [|done]. exfalso. by eapply remove_tree_blocked.
Qed.
End proofs.

#[local] Existing Instance sample_host.

Lemma registry_dir id mode u es :
  w_root (registry []) ≫= node_at id = Some (NDir mode u es) →
  bool_decide (NoDup es.*1) = true → dirAt id (fun es => NoDup es.*1) (w_root (registry [])).
Proof. intros Hd Hn. apply bool_decide_eq_true_1 in Hn. exists mode, u, es. by split. Defined.

Lemma deletion_removes_the_record_last_witness :
  (w_root (remove_tree "/r" "dev" (registry [false; false; false; false; false; true])).2
     ≫= node_at ["dev"; METADATA_NAME])
  = Some (NFile 384 1000 (Metadata.encode dev))
  ∨ (∃ m v, w_root (remove_tree "/r" "dev" (registry [false; false; false; false; false; true])).2
       ≫= node_at ["dev"] = Some (NDir m v []))
  ∨ w_root (remove_tree "/r" "dev" (registry [false; false; false; false; false; true])).2
       ≫= node_at ["dev"] = None.
Proof.
  destruct (remove_tree "/r" "dev" (registry [false; false; false; false; false; true]))
    as [r w'] eqn:Hr.
  apply (deletion_removes_the_record_last "/r" "dev" 384 1000 (Metadata.encode dev)
    (registry [false; false; false; false; false; true]) r w').
  - reflexivity.
  - eapply registry_dir; reflexivity.
  - eapply registry_dir; reflexivity.
  - exact Hr.
Defined.

Lemma deletion_succeeds_witness :
  ∃ w', remove_tree "/r" "dev" (registry []) = (Ok tt, w') ∧ w_root w' ≫= node_at ["dev"] = None.
Proof.
  eapply (deletion_succeeds "/r" "dev" (registry []));
    [reflexivity..| | | | | | |]; try reflexivity.
  - apply (bool_decide_unpack _). vm_compute. exact I.
  - apply (bool_decide_unpack _). vm_compute. exact I.
  - intros name n Hin Hne. apply elem_of_cons in Hin as [Heq|Hin].
    + injection Heq as -> ->. split; [reflexivity|].
      split; [reflexivity|]. split; [apply (bool_decide_unpack _); vm_compute; exact I|].
      split; [|exact I]. split; [discriminate|]. split; [reflexivity|exact I].
    + apply elem_of_cons in Hin as [Heq|Hin]; [|by apply not_elem_of_nil in Hin].
      injection Heq as -> ->. by destruct Hne.
Defined.

(** A workspace with a file of that name. *)
Definition blocked_registry : world :=
  MkWorld (Some (NDir 448 1000
    [("dev", NDir 448 1000
       [("workspace", NDir 448 1000 [("metadata.toml", NFile 420 1000 "[package]")]);
        ("metadata.toml", NFile 384 1000 (Metadata.encode dev))])])) [] None 0.

Lemma nested_metadata_blocks_deletion_witness :
  is_ok (remove_tree "/r" "dev" blocked_registry).1 = false.
Proof.
  destruct (remove_tree "/r" "dev" blocked_registry) as [r w'] eqn:Hr.
  apply (nested_metadata_blocks_deletion "/r" "dev" ["workspace"] blocked_registry r w');
    [discriminate|eexists; reflexivity|exact Hr].
Defined.
End StorageDeletion.
