(* ===== verification/StorageFrame.v ===== *)
(** * What a change to one sandbox leaves alone

    Every operation of [Storage] that changes the disk changes it at or below
    the directory of its sandbox.  [local_to id Inv] says that [Inv] survives
    such changes; the operations are shown once to preserve every such [Inv],
    and the two used are the other sandboxes' trees and the distinctness of the
    names in the root. *)

From S2P Require Import Prelude Text Toml Idents Metadata FileSystem Storage StorageDeletion.

Module StorageFrame.
Import Storage StorageDeletion.

Section proofs.
Context `{TomlCrate} `{UnicodeTables} `{Host}.
Context (root_path : string).

Record local_to (id : string) (Inv : option node → Prop) : Prop := MkLocal {
  lc_below : ∀ q f, preserves Inv (update_entries (id :: q) f);
  lc_set : ∀ n, preserves Inv (update_entries [] (ent_set id n));
  lc_del : preserves Inv (update_entries [] (ent_del id));
}.

Section local.
Context (id : string) (Inv : option node → Prop).
Hypothesis Hlocal : local_to id Inv.

Lemma local_read_only {E A} (m : M world E A) : read_only m → preserves Inv m.
Proof. apply preserves_read_only. Qed.

Lemma local_tryM {E E' A} (m : M world E A) : preserves Inv m → preserves Inv (tryM m : M world E' _).
Proof. intros Hm w Hw. specialize (Hm w Hw). unfold tryM. by destruct (m w). Qed.

(** The case analysis all system calls share. *)
Ltac local_call :=
  repeat first
    [ apply preserves_bind; [solve [apply local_read_only; auto with read_only]|intros]
    | solve [apply local_read_only; auto with read_only]
    | apply (lc_below _ _ Hlocal)
    | case_match ].

Lemma local_create_file q name mode : preserves Inv (create_file_at (id :: q) name mode).
Proof. unfold create_file_at. local_call. Qed.

Lemma local_mkdir q name mode : preserves Inv (mkdir_at (id :: q) name mode).
Proof. unfold mkdir_at. local_call. Qed.

Lemma local_write_all q name data : preserves Inv (write_all (id :: q) name data).
Proof. unfold write_all. local_call. Qed.

Lemma local_rename q from to : preserves Inv (rename_at (id :: q) from to).
Proof. unfold rename_at. local_call. Qed.

Lemma local_unlink q name flag : preserves Inv (unlink_at (id :: q) name flag).
Proof. unfold unlink_at. local_call. Qed.

Lemma local_mkdir_root mode : preserves Inv (mkdir_at [] id mode).
Proof. unfold mkdir_at. local_call. apply (lc_set _ _ Hlocal). Qed.

Lemma local_unlink_root flag : preserves Inv (unlink_at [] id flag).
Proof. unfold unlink_at. local_call. apply (lc_del _ _ Hlocal). Qed.

Lemma local_write_metadata_at metadata : preserves Inv (write_metadata_at [id] metadata).
Proof.
  unfold write_metadata_at. apply preserves_bind; [apply local_read_only; auto with read_only|].
  intros counter. apply preserves_bind.
  - apply local_tryM. unfold write_metadata_steps.
    do 7 (apply preserves_bind; [first [apply local_create_file|apply local_write_all|
      apply local_read_only; auto with read_only]|intros _]). apply local_rename.
  - intros [[]|e]; [apply local_read_only; auto with read_only|].
    apply preserves_bind; [apply local_tryM, local_unlink|]. intros _.
    apply local_read_only; auto with read_only.
Qed.

(** A call on the directory that was opened under the root. *)
Lemma local_open {A} name (g : io_error → Error) (k : fd → M world Error A) :
  preserves Inv (k [name]) → preserves Inv (d ← mapE g (open_directory_at [] name); k d).
Proof.
  intros Hk w Hw. unfold mbind, M_bind. destruct (mapE g (open_directory_at [] name) w) as [[d|e] w'] eqn:Ho;
    pose proof (ro_root _ _ _ _ (read_only_mapE _ _ (read_only_open_at [] name)) Ho) as Hr.
  - apply mapE_Ok, open_directory_Ok in Ho as [-> _]. apply Hk. by rewrite Hr.
  - simpl. by rewrite Hr.
Qed.

Lemma local_root {A} (k : fd → M world Error A) :
  preserves Inv (k []) → preserves Inv (root ← open_root root_path; k root).
Proof.
  intros Hk w Hw. unfold mbind, M_bind. destruct (open_root root_path w) as [[d|e] w'] eqn:Ho;
    pose proof (ro_root _ _ _ _ (read_only_open_root root_path) Ho) as Hr.
  - apply open_root_Ok in Ho as (-> & _). apply Hk. by rewrite Hr.
  - simpl. by rewrite Hr.
Qed.

Lemma local_create owner : preserves Inv (create_active root_path id owner).
Proof.
  unfold create_active. apply local_root. cbn beta.
  apply preserves_bind; [apply local_read_only, read_only_mapE, read_only_trip|]. intros _.
  apply preserves_bind; [apply local_tryM, local_mkdir_root|].
  intros [[]|e]; [|case_match; apply local_read_only; auto with read_only]. apply local_open. cbn beta.
  apply preserves_bind; [apply local_read_only, read_only_mapE, read_only_trip|]. intros _.
  apply preserves_bind; [apply preserves_mapE, local_mkdir|]. intros _. cbn zeta.
  apply preserves_bind; [apply preserves_mapE, local_write_metadata_at|]. intros _.
  do 2 (apply preserves_bind; [apply local_read_only, read_only_mapE, read_only_sync_at|intros _]).
  apply local_read_only; auto with read_only.
Qed.

Lemma local_write_metadata m : Metadata.id m = id → preserves Inv (write_metadata root_path m).
Proof.
  intros Hid. unfold write_metadata. rewrite Hid. apply local_root. apply local_open. cbn beta.
  apply preserves_bind; [apply local_read_only, read_only_inspect_directory|].
  intros e. destruct e; try solve [apply local_read_only; auto with read_only];
    unfold replace_metadata; (case_match; [apply local_read_only; auto with read_only|]);
    (case_match; [apply local_read_only; auto with read_only|]);
    (apply preserves_bind; [apply preserves_mapE, local_write_metadata_at|]; intros _;
     apply local_read_only, read_only_mapE, read_only_sync_at).
Qed.

Lemma local_remove_tree : preserves Inv (remove_tree root_path id).
Proof.
  intros w Hw. destruct (remove_tree root_path id w) as [r w'] eqn:Hr. simpl.
  apply remove_tree_run in Hr as [[-> _]|(w1 & Hr1 & Ht)]; [done|]. rewrite <-Hr1 in Hw.
  eapply (preserves_run Inv) in Ht; [exact Ht| |exact Hw].
  apply remove_tail_preserves; [intros q; apply (local_unlink q)|apply local_unlink_root].
Qed.
End local.

(** ** Other sandboxes *)

Lemma others_local id id' p x :
  id' ≠ id → local_to id (fun t => t ≫= node_at (id' :: p) = x).
Proof.
  intros Hne. split.
  - intros q f w Hw. unfold update_entries. cbn [fst snd w_root with_root].
    destruct (w_root w) as [t|]; [|done]. cbn [fmap option_fmap option_map mbind option_bind] in *.
    rewrite node_at_set_outside; [done|]. by exists [], id, id', q, p.
  - intros n w Hw. simpl. destruct (w_root w) as [[]|]; simpl in *; try done.
    by rewrite ent_get_set_ne.
  - intros w Hw. simpl. destruct (w_root w) as [[]|]; simpl in *; try done. by rewrite ent_get_del_ne.
Qed.

(** ** Names in the root *)

Definition names_distinct (t : option node) : Prop :=
  match t with Some (NDir _ _ es) => NoDup es.*1 | _ => True end.

Lemma names_local id : local_to id names_distinct.
Proof.
  split.
  - intros q f w Hw. unfold update_entries. cbn [fst snd w_root with_root].
    destruct (w_root w) as [[| mode u es | |]|]; try done. cbn [fmap option_fmap option_map].
    destruct (set_entries_names id q f mode u es) as (es' & -> & Hn). by apply Hn.
  - intros n w Hw. simpl. destruct (w_root w) as [[]|]; simpl in *; try done. by apply ent_set_NoDup.
  - intros w Hw. simpl. destruct (w_root w) as [[]|]; simpl in *; try done. by apply ent_del_NoDup.
Qed.

(** A deletion that reports success has removed the directory. *)
Lemma remove_tree_gone id w w' :
  names_distinct (w_root w) → remove_tree root_path id w = (Ok tt, w') → absent [id] (w_root w').
Proof.
  intros Hn Hr. apply remove_tree_run in Hr as [[-> Ha]|(w1 & Hr1 & Ht)]; [by apply Ha|].
  rewrite <-Hr1 in Hn. unfold remove_tail in Ht.
  assert (Hu : ∀ q name flag, preserves names_distinct (unlink_at (id :: q) name flag))
    by (intros; by apply local_unlink, names_local).
  apply bind_Ok in Ht as (u2 & w2 & Hch & Ht). apply mapE_Ok in Hch.
  assert (Hn2 : names_distinct (w_root w2)).
  { eapply (preserves_run names_distinct); [|exact Hch|exact Hn].
    apply remove_children_preserves. intros q name flag _. apply (Hu q). }
  apply bind_Ok in Ht as (u3 & w3 & Htr & Ht).
  apply (ro_root _ _ _ _ (read_only_mapE _ _ (read_only_trip _))) in Htr. rewrite <-Htr in Hn2.
  apply bind_Ok in Ht as (u4 & w4 & Hun & Ht). apply mapE_Ok in Hun.
  apply (preserves_run names_distinct _ _ _ _ (Hu [] _ _) Hun) in Hn2.
  apply bind_Ok in Ht as (u5 & w5 & Hrm & Ht). apply mapE_Ok in Hrm.
  apply (ro_root _ _ _ _ (read_only_mapE _ _ (read_only_sync_at _))) in Ht. rewrite Ht.
  apply (unlink_Ok_absent [] id) in Hrm as Hgone; [exact Hgone|].
  unfold unlink_at in Hrm. apply bind_Ok in Hrm as (? & w6 & ->%check_name_Ok & Hrm).
  apply bind_Ok in Hrm as (? & w7 & Hs%sys_root & Hrm). apply bind_Ok in Hrm as (es & w8 & Hg & _).
  apply get_entries_Ok in Hg as (-> & mode & u & Hd). rewrite Hs in Hd. exists mode, u, es.
  split; [done|]. destruct (w_root w4); simpl in Hd; [|done]. by simplify_eq/=.
Qed.
End proofs.
End StorageFrame.
