(* ===== verification/StorageScan.v ===== *)
(** * Scanning the registry ([Storage::scan])

    A scan that succeeds reports every directory of the root whose name is a
    sandbox identifier, exactly once, and reports it as a valid entry exactly if
    it is one on disk. *)

From S2P Require Import Prelude Text Toml Idents Metadata FileSystem Storage.

Module StorageScan.
Import Storage.

Section proofs.
Context `{TomlCrate} `{UnicodeTables} `{Host}.
Context (root_path : string).

(** Permission bits are twelve: [st_mode] keeps the file type apart from them. *)
Definition plain_modes (t : option node) : Prop := ∀ path n,
  t ≫= node_at path = Some n →
  match n with NDir mode _ _ | NFile mode _ _ => 0 <= mode < 4096 | _ => True end.

Lemma mode_type k mode :
  0 <= mode < 4096 → Z.land k 4095 = 0 → Z.land k S_IFMT = k → Z.land (Z.lor k mode) S_IFMT = k.
Proof.
  intros Hm Hk Hk'. rewrite Z.land_lor_distr_l, Hk'.
  assert (Hz : Z.land mode S_IFMT = 0).
  { replace mode with (Z.land mode 4095).
    - rewrite <-Z.land_assoc. change (Z.land 4095 S_IFMT) with 0. apply Z.land_0_r.
    - change 4095 with (Z.ones 12). rewrite Z.land_ones by lia. by apply Z.mod_small. }
  by rewrite Hz, Z.lor_0_r.
Qed.

Lemma safe_dir_checks n :
  safe_dir n → (∀ mode u es, n = NDir mode u es → 0 <= mode < 4096) →
  is_directory (st_mode (stat_of n)) = true ∧ (st_uid (stat_of n) =? euid) = true
  ∧ group_or_world_writable (st_mode (stat_of n)) = false.
Proof.
  intros (mode & es & -> & Hw) Hm. split_and!; [|apply Z.eqb_refl|exact Hw].
  unfold is_directory. apply Z.eqb_eq. simpl. by rewrite mode_type; [|by eapply Hm|..].
Qed.

Lemma plain_dir t path n :
  plain_modes t → t ≫= node_at path = Some n → ∀ mode u es, n = NDir mode u es → 0 <= mode < 4096.
Proof. intros Hp Hn mode u es ->. apply (Hp _ _ Hn). Qed.

Lemma known_names_true names :
  (∀ name, name ∈ names → name = METADATA_NAME ∨ name = WORKSPACE_NAME) → known_names names = true.
Proof.
  intros Hn. unfold known_names. apply List.forallb_forall. intros name Hin%list_elem_of_In.
  rewrite orb_true_iff, !bool_decide_eq_true. by apply Hn.
Qed.

Lemma inspect_workspace_complete id m w e w' :
  inspect_workspace root_path id [id] m w = (Ok e, w') → plain_modes (w_root w) →
  entry_valid (w_root w) id m → reported e = Some m.
Proof.
  intros Hi Hp Hv. unfold inspect_workspace in Hi. apply bind_Ok in Hi as (r & w1 & Hs & Hi).
  apply tryM_Ok in Hs. destruct r as [st|err].
  - apply stat_at_Ok in Hs as (n & Hn & ->).
    destruct (ev_workspace _ _ _ Hv) as [(n' & Hn' & Hsafe)|[_ Hnone]]; cbn [app] in Hn; [|congruence].
    rewrite Hn' in Hn. simplify_eq.
    destruct (safe_dir_checks _ Hsafe (plain_dir _ _ _ Hp Hn')) as (Hd & Hu & Hw).
    rewrite Hd, Hu, Hw in Hi. simpl in Hi. inv_run. by destruct (Metadata.state m).
  - destruct (errno_is err ENOENT) eqn:He; simpl in Hi; [|done].
    destruct (ev_names _ _ _ Hv) as (mode & u & es & Hd & _).
    pose proof (stat_absent _ _ _ _ _ _ _ _ Hd Hs He) as Hnone. cbn [app] in Hnone.
    destruct (ev_workspace _ _ _ Hv) as [(n' & Hn' & _)|[Hst _]]; [congruence|].
    unfold Metadata.is_deleting in Hi. rewrite bool_decide_true in Hi by done. by inv_run.
Qed.

Lemma inspect_directory_complete id w e w' m :
  inspect_directory root_path id [id] w = (Ok e, w') → plain_modes (w_root w) →
  entry_valid (w_root w) id m → reported e = Some m.
Proof.
  intros Hi Hp Hv. unfold inspect_directory in Hi. apply bind_Ok in Hi as (st & w1 & Hs & Hi).
  apply mapE_Ok in Hs. apply (ro_root _ _ _ _ (read_only_fstat _)) in Hs as Hr1.
  apply fstat_Ok in Hs as (n & Hn & ->).
  destruct (ev_dir _ _ _ Hv) as (n' & Hn' & Hsafe). rewrite Hn' in Hn. simplify_eq.
  destruct (safe_dir_checks _ Hsafe (plain_dir _ _ _ Hp Hn')) as (Hd & Hu & Hw).
  rewrite Hd, Hu, Hw in Hi. simpl in Hi. apply bind_Ok in Hi as (names & w2 & Hs & Hi).
  apply mapE_Ok in Hs. apply (ro_root _ _ _ _ (read_only_read_names _)) in Hs as Hr2.
  apply read_names_Ok in Hs as (mode & u & es & Hes & ->). rewrite Hr1 in Hes.
  destruct (ev_names _ _ _ Hv) as (mode' & u' & es' & Hes' & Hnames). rewrite Hes' in Hes. simplify_eq.
  rewrite known_names_true in Hi by done. simpl in Hi.
  unfold inspect_metadata in Hi. apply bind_Ok in Hi as (r & w3 & Hs & Hi).
  pose proof (ro_root _ _ _ _ (read_only_tryM _ (read_only_stat_at _ _)) Hs) as Hr3.
  apply tryM_Ok in Hs. destruct (ev_metadata _ _ _ Hv) as (fm & data & Hf & Hbits & Hdec).
  assert (Hr : w_root w2 = w_root w) by congruence.
  destruct r as [st|err].
  - apply stat_at_Ok in Hs as (mn & Hmn & ->). rewrite Hr in Hmn. cbn [app] in Hmn.
    rewrite Hf in Hmn. simplify_eq.
    assert (Hreg : is_regular (Z.lor S_IFREG fm) = true).
    { unfold is_regular. apply Z.eqb_eq, mode_type; [by apply (Hp _ _ Hf)|done..]. }
    simpl in Hi. rewrite Hreg, Z.eqb_refl in Hi. rewrite Hbits in Hi. simpl in Hi.
    apply bind_Ok in Hi as (bytes & w4 & Hs & Hi). apply mapE_Ok in Hs.
    apply (ro_root _ _ _ _ (read_only_read_file _ _ _)) in Hs as Hr4.
    apply read_file_Ok in Hs as (fmode & fu & Hf'). rewrite Hr3, Hr in Hf'. cbn [app] in Hf'.
    rewrite Hf in Hf'. simplify_eq. rewrite Hdec in Hi.
    apply (inspect_workspace_complete _ _ _ _ _ Hi); rewrite ?Hr4, ?Hr3, Hr; done.
  - destruct (errno_is err ENOENT) eqn:He; [|done].
    rewrite <-Hr in Hn'. pose proof (stat_absent _ _ _ _ _ _ _ _ Hn' Hs He) as Hnone.
    rewrite Hr in Hnone. cbn [app] in Hnone. congruence.
Qed.

(** A directory fails to open only for reasons of the kernel's. *)
Lemma open_directory_fails name w e w' mode u es :
  w_root w ≫= node_at [name] = Some (NDir mode u es) → 0 <= mode < 4096 →
  open_directory_at [] name w = (Err e, w') → errno_is e ELOOP = false ∧ errno_is e ENOTDIR = false.
Proof.
  intros Hd Hm Ho. unfold open_directory_at in Ho.
  destruct (w_root w) as [[| rm ru res | |]|] eqn:Hroot; simpl in Hd; try done.
  assert (Hdir : is_directory (Z.lor S_IFDIR mode) = true)
    by by apply Z.eqb_eq, mode_type.
  apply bind_inv in Ho as [(u1 & w1 & ->%check_name_Ok & Ho)|(x & Hc & [= ->])].
  2:{ unfold check_name in Hc. destruct (has_nul name); unfold_monad; by simplify_eq. }
  assert (Hsys : ∀ w0 x w0', sys w0 = (Err x, w0') → errno_is x ELOOP = false ∧ errno_is x ENOTDIR = false).
  { intros w0 x w0'. unfold sys. destruct (w_env w0) as [|[]]; intros; by simplify_eq. }
  apply bind_inv in Ho as [(u2 & w2 & Hs & Ho)|(x & Hc & [= ->])]; [|by eapply Hsys].
  apply sys_root in Hs. apply bind_inv in Ho as [(es' & w3 & Hg & Ho)|(x & Hc & [= ->])].
  2:{ unfold get_entries in Hc. rewrite Hs, Hroot in Hc. by simplify_eq. }
  apply get_entries_Ok in Hg as (-> & mode' & u' & Hd'). rewrite Hs, Hroot in Hd'. simplify_eq/=.
  destruct (ent_get name es') as [n|]; simplify_eq/=.
  apply bind_inv in Ho as [(u3 & w4 & _ & Ho)|(x & Hc & [= ->])]; [|by eapply Hsys].
  by rewrite Hdir in Ho.
Qed.

(** One name: what a successful turn of the loop adds. *)
Lemma scan_one_Ok name w r w' :
  scan_one root_path [] name w = (Ok r, w') →
  match r with
  | None => Id.parse name = Ok name → utf8_valid name = false
  | Some (id, e) =>
      id = name ∧ utf8_valid name = true ∧ Id.grammar name
      ∧ (∀ m, reported e = Some m → entry_valid (w_root w) id m ∧ Metadata.id m = id
           ∧ e = match Metadata.state m with
                 | Metadata.Active => Active m | Metadata.Deleting => Deleting m end)
      ∧ (plain_modes (w_root w) → ∀ m, entry_valid (w_root w) id m → reported e = Some m)
  end.
Proof.
  unfold scan_one. intros Hs. destruct (utf8_valid name) eqn:Hu; simpl in Hs; [|by inv_run].
  destruct (Id.parse name) as [id|] eqn:Hid; [|by inv_run].
  apply Id.parse_ok in Hid as [-> Hg]. apply bind_Ok in Hs as (o & w1 & Ho & Hs).
  pose proof (ro_root _ _ _ _ (read_only_tryM _ (read_only_open_at [] name)) Ho) as Hr1.
  apply tryM_Ok in Ho. apply bind_Ok in Hs as (e & w2 & He & Hs). inv_run. split_and!; [done..| |].
  - intros m Hm. destruct o as [d|err]; [|by repeat case_match; inv_run; simplify_eq/=].
    apply open_directory_Ok in Ho as [-> _].
    apply inspect_directory_Ok with (m := m) in He as [Hv He]; [|done..]. rewrite Hr1 in Hv.
    split_and!; [done| |done].
    destruct Hv as [_ _ (mode & data & _ & _ & Hdec) _]. by apply Metadata.decode_wf in Hdec as [_ ?].
  - intros Hp m Hv. destruct o as [d|err].
    + apply open_directory_Ok in Ho as [-> _].
      apply (inspect_directory_complete _ _ _ _ _ He); by rewrite Hr1.
    + exfalso. destruct (ev_names _ _ _ Hv) as (mode & u & es & Hd & _).
      destruct (open_directory_fails _ _ _ _ _ _ _ Hd (Hp _ _ Hd) Ho) as [Hl Hn].
      by rewrite Hl, Hn in He.
Qed.

Lemma scan_names_Ok names : ∀ w scan w',
  scan_names root_path [] names w = (Ok scan, w') →
  (entries_found scan).*1 = filter (fun name => utf8_valid name = true ∧ is_ok (Id.parse name) = true) names
  ∧ ∀ id e, (id, e) ∈ entries_found scan →
      (∀ m, reported e = Some m → entry_valid (w_root w) id m ∧ Metadata.id m = id
         ∧ e = match Metadata.state m with
               | Metadata.Active => Active m | Metadata.Deleting => Deleting m end)
      ∧ (plain_modes (w_root w) → ∀ m, entry_valid (w_root w) id m → reported e = Some m).
Proof.
  induction names as [|name names IH]; intros w scan w' Hs; simpl in Hs.
  { inv_run. split; [done|]. by intros ? ? []%not_elem_of_nil. }
  apply bind_Ok in Hs as (r & w1 & Hone & Hs).
  pose proof (ro_root _ _ _ _ (read_only_scan_one _ _ _) Hone) as Hr.
  apply scan_one_Ok in Hone. apply bind_Ok in Hs as (rest & w2 & Hrest & Hs). inv_run.
  destruct (IH _ _ _ Hrest) as [Hn He]. rewrite Hr in He. rewrite filter_cons.
  destruct r as [[id e]|]; cbn [entries_found].
  - destruct Hone as (-> & Hu & Hg & Hone). rewrite decide_True by (split; [done|by rewrite Id.parse_self]).
    split; [by rewrite fmap_cons, Hn|]. intros id' e' [[= -> ->]|Hin]%elem_of_cons; [done|by apply He].
  - rewrite decide_False; [done|]. intros [Hu Hp]. destruct (Id.parse name) as [id|] eqn:Hid; [|done].
    pose proof (proj1 (Id.parse_ok name id) Hid) as [-> _]. by rewrite (Hone eq_refl) in Hu.
Qed.

(** A scan reports the identifiers among the root's names, in order, and each
    entry as it is on disk. *)
Lemma scan_Ok w scan w' :
  Storage.scan root_path w = (Ok scan, w') →
  ∃ mode u es, w_root w = Some (NDir mode u es)
  ∧ (entries_found scan).*1 = filter (fun name => utf8_valid name = true ∧ is_ok (Id.parse name) = true) (es.*1)
  ∧ ∀ id e, (id, e) ∈ entries_found scan →
      (∀ m, reported e = Some m → entry_valid (w_root w) id m ∧ Metadata.id m = id
         ∧ e = match Metadata.state m with
               | Metadata.Active => Active m | Metadata.Deleting => Deleting m end)
      ∧ (plain_modes (w_root w) → ∀ m, entry_valid (w_root w) id m → reported e = Some m).
Proof.
  unfold Storage.scan. intros Hs. apply bind_Ok in Hs as (d & w1 & Ho & Hs).
  apply open_root_Ok in Ho as (-> & Hr1 & _). apply bind_Ok in Hs as (names & w2 & Hn & Hs).
  apply mapE_Ok in Hn. pose proof (ro_root _ _ _ _ (read_only_read_names _) Hn) as Hr2.
  apply read_names_Ok in Hn as (mode & u & es & Hd & ->).
  rewrite Hr1 in Hd. exists mode, u, es. split.
  { destruct (w_root w); simpl in Hd; [by simplify_eq|done]. }
  apply scan_names_Ok in Hs. by rewrite Hr2, Hr1 in Hs.
Qed.
End proofs.

(** ** A checker for [plain_modes] *)

Fixpoint modes_check (n : node) : bool :=
  match n with
  | NDir mode _ es =>
      (0 <=? mode) && (mode <? 4096) && forallb (fun b => modes_check b.2) es
  | NFile mode _ _ => (0 <=? mode) && (mode <? 4096)
  | _ => true
  end.

Lemma modes_check_sound n : modes_check n = true → plain_modes (Some n).
Proof.
  intros Hc path. revert n Hc. induction path as [|x path IH]; intros n Hc m Hm; simpl in Hm.
  - simplify_eq. destruct m; simpl in Hc; bool_to_prop; done || lia.
  - destruct n as [|mode u es| |]; try done. destruct (ent_get x es) as [child|] eqn:He; [|done].
    apply ent_get_elem in He. simpl in Hc. apply andb_true_iff in Hc as [_ Hc].
    rewrite List.forallb_forall in Hc. apply (IH child); [|done].
    apply (Hc (x, child)). by apply list_elem_of_In.
Qed.
End StorageScan.
