(* ===== verification/LeaseStore.v ===== *)
(** * The lease ledger on disk ([sandbox/subid/ledger.rs], [LeaseStore])

    One directory with one file per lease, a lock file that is never removed,
    and temporary files of interrupted writers. *)

From S2P Require Import Prelude Text Toml Idents Metadata FileSystem LeaseRecord LedgerSpec.

Module LeaseStore.
Import Lease.

Section store.
Context `{TomlCrate} `{UnicodeTables} `{Host}.

Abbreviation St := (M world (@Error _)).

(** [validate_ownership]: fstat, then type, owner and mode. *)
Definition validate_ownership (d : fd) : St unit :=
  stat ← mapE (Io "stat the lease directory") (fstat d);
  if negb (is_directory (st_mode stat)) then fail (UnsafeDirectory "not a directory")
  else if negb (st_uid stat =? euid) then fail (UnsafeDirectory "not owned by the daemon user")
  else if group_or_world_writable (st_mode stat)
  then fail (UnsafeDirectory "group or world writable")
  else mret tt.

Definition open_root : St fd :=
  d ← mapE (Io "open the lease directory") open_directory_path;
  _ ← validate_ownership d;
  mret d.

Definition trip_lease (point : FaultPoint) : St unit :=
  mapE (Io "injected lease fault") (trip point).

(** [sync_parent_directory] of the root: open the parent, fsync it. *)
Definition sync_parent_directory : St unit :=
  _ ← mapE (Io "open the lease directory parent") sys;
  mapE (Io "fsync the lease directory parent") sys.

(** [open_lock_file]: open or create the lock file, then check it. *)
Definition open_lock_file (d : fd) : St unit :=
  _ ← mapE (Io "open the lease ledger lock file") (
        _ ← sys;
        es ← get_entries d;
        match ent_get LOCK_FILE_BASENAME es with
        | Some (NSymlink _) => fail (Errno ELOOP)
        | Some (NDir _ _ _) => fail (Errno EISDIR)
        | Some _ => mret tt
        | None =>
            update_entries d (fun es => ent_set LOCK_FILE_BASENAME (NFile 384 euid EmptyString) es)
        end);
  stat ← mapE (Io "stat the lease ledger lock file") (stat_at d LOCK_FILE_BASENAME);
  if negb (is_regular (st_mode stat))
  then fail (UnsafeDirectory "ledger lock file is not a regular file")
  else if negb (st_uid stat =? euid)
  then fail (UnsafeDirectory "ledger lock file is not owned by the daemon user")
  else if group_or_world_writable (st_mode stat)
  then fail (UnsafeDirectory "ledger lock file is group or world writable")
  else mret tt.

(** [LeaseStore::open]: create the directory with mode 0700 on first use. *)
Definition create_root : M world io_error bool :=
  _ ← sys;
  w ← getS;
  match w_root w with
  | Some _ => mret false
  | None => fun w => (Ok true, with_root (Some (NDir 448 euid [])) w)
  end.

Definition open : St unit :=
  created ← mapE (Io "create the lease directory") create_root;
  _ ← (if created : bool then
         _ ← mapE (Io "set the lease directory mode") sys;
         sync_parent_directory
       else mret tt);
  d ← mapE (Io "open the lease directory") open_directory_path;
  _ ← validate_ownership d;
  open_lock_file d.

(** [LeaseStore::lock]: a blocking [flock]; an interrupted call is retried. *)
Definition lock : St unit := mapE (Io "lock the lease ledger") sys.

Definition read_named (d : fd) (name : string) : St LeaseRecord :=
  lease_id ← liftR (ok_or (UnknownFileName name) (strip_suffix RECORD_SUFFIX name));
  _ ← liftR (map_err (fun _ => UnknownFileName name) (validate_lease_id lease_id));
  stat ← mapE (Io "stat a lease record") (stat_at d name);
  if negb (is_regular (st_mode stat)) then fail (UnknownFileName name)
  else if group_or_world_writable (st_mode stat)
  then fail (CorruptRecord name "record is group or world writable")
  else
    bytes ← mapE (Io "read a lease record") (read_file_at d name MAX_RECORD_BYTES);
    liftR (map_err (fun error => CorruptRecord name (display error)) (decode bytes lease_id)).

(** The loop of [load] over the directory's names. *)
Fixpoint load_names (d : fd) (names : list string) : St (list LeaseRecord) :=
  match names with
  | [] => mret []
  | raw :: names' =>
      let name := from_utf8_lossy raw in
      if starts_with TEMP_PREFIX name then load_names d names'
      else if bool_decide (name = LOCK_FILE_BASENAME) then load_names d names'
      else
        record ← read_named d name;
        records ← load_names d names';
        mret (record :: records)
  end.

Definition lease_id_leb (a b : LeaseRecord) : bool :=
  match String.compare (lease_id a) (lease_id b) with Gt => false | _ => true end.

Definition load : St (list LeaseRecord) :=
  d ← open_root;
  names ← mapE (Io "scan") (read_names d);
  records ← load_names d names;
  mret (sort_by lease_id_leb records).

Fixpoint remove_temps (d : fd) (names : list string) : St unit :=
  match names with
  | [] => mret tt
  | raw :: names' =>
      let name := from_utf8_lossy raw in
      _ ← (if starts_with TEMP_PREFIX name
           then mapE (Io "remove a stale temp file") (unlink_at d name UnlinkFile)
           else mret tt);
      remove_temps d names'
  end.

Definition remove_stale_temps : St unit :=
  d ← open_root;
  names ← mapE (Io "scan") (read_names d);
  remove_temps d names.

(** Absence is [None]. *)
Definition read (lease_id : string) : St (option LeaseRecord) :=
  _ ← liftR (validate_lease_id lease_id);
  d ← open_root;
  let name := file_name_of lease_id in
  r ← tryM (stat_at d name);
  match r with
  | Ok _ => record ← read_named d name; mret (Some record)
  | Err error =>
      if errno_is error ENOENT then mret None
      else fail (Io "stat a lease record" error)
  end.

Definition temp_name (counter : Z) : string :=
  (TEMP_PREFIX +:+ "-" +:+ fmt_dec pid +:+ "-" +:+ fmt_dec counter).

(** The closure of [write]: temp file, write, fsync, rename, parent fsync. *)
Definition write_steps (d : fd) (temp : string) (record : LeaseRecord) : St unit :=
  _ ← trip_lease LeaseTempCreate;
  _ ← mapE (Io "create a lease temp file") (create_file_at d temp 384);
  _ ← trip_lease LeaseWrite;
  _ ← mapE (Io "write a lease record") (write_all d temp (encode record));
  _ ← trip_lease LeaseFileSync;
  _ ← mapE (Io "fsync a lease record") sync_all;
  _ ← trip_lease LeaseRename;
  _ ← mapE (Io "rename a lease record into place") (rename_at d temp (file_name record));
  _ ← trip_lease LeaseParentSync;
  mapE (Io "fsync the lease directory") sync_directory.

Definition write (record : LeaseRecord) : St unit :=
  d ← open_root;
  counter ← mapE (Io "") fetch_add_counter;
  let temp := temp_name counter in
  r ← tryM (write_steps d temp record);
  match r with
  | Ok tt => mret tt
  | Err e =>
      _ ← tryM (unlink_at d temp UnlinkFile);
      fail e
  end.

(** [remove]: unlink exactly the lease's file, then fsync the directory. *)
Definition remove (lease_id : string) : St unit :=
  _ ← liftR (validate_lease_id lease_id);
  d ← open_root;
  _ ← trip_lease LeaseUnlink;
  r ← tryM (unlink_at d (file_name_of lease_id) UnlinkFile);
  match r with
  | Ok tt =>
      _ ← trip_lease LeaseUnlinkSync;
      mapE (Io "fsync the lease directory after unlink") sync_directory
  | Err error =>
      if errno_is error ENOENT then fail (MissingRecord lease_id)
      else fail (Io "unlink a lease record" error)
  end.
End store.

Section proofs.
Context `{TomlCrate} `{UnicodeTables} `{Host}.

(** ** The abstract ledger

    What the directory stores under each lease token. *)

Definition entry (t : option node) (name : string) : option node :=
  match t with Some (NDir _ _ es) => ent_get name es | _ => None end.

Definition record_of (lease_id : string) (n : option node) : option LeaseRecord :=
  match n with
  | Some (NFile _ _ data) => to_option (decode data lease_id)
  | _ => None
  end.

Definition record_at (t : option node) (lease_id : string) : option LeaseRecord :=
  record_of lease_id (entry t (file_name_of lease_id)).

(** Directory entries have distinct names.  This is all that the ledger's own invariant
    asks for: it does not say that every record decodes, or that loading succeeds. *)
Definition tree_ok (t : option node) : Prop :=
  match t with Some (NDir _ _ es) => NoDup es.*1 | _ => True end.

(** *** File names *)

Lemma file_name_inj a b : file_name_of a = file_name_of b → a = b.
Proof.
  intros Hab. assert (Ha : strip_suffix RECORD_SUFFIX (file_name_of a) = Some a)
    by apply strip_suffix_app.
  rewrite Hab in Ha. unfold file_name_of in Ha. rewrite strip_suffix_app in Ha. congruence.
Qed.

(** A lease file does not start with a dot; temporaries and the lock file do. *)
Lemma lease_file_head id :
  valid_lease_id id = true → ∃ c s, file_name_of id = String c s ∧ hex_byte c = true.
Proof.
  unfold valid_lease_id. rewrite andb_true_iff. intros [Hl Ha]. bool_to_prop.
  destruct id as [|c id]; [done|]. simpl in Ha. apply andb_true_iff in Ha as [Hc _].
  exists c, (id +:+ RECORD_SUFFIX). by rewrite <-str_app_cons.
Qed.

Lemma lease_file_not_special id :
  valid_lease_id id = true →
  starts_with TEMP_PREFIX (file_name_of id) = false ∧ file_name_of id ≠ LOCK_FILE_BASENAME.
Proof.
  intros (c & s & -> & Hc)%lease_file_head. split.
  - unfold starts_with, TEMP_PREFIX. cbn [strip_prefix]. rewrite bool_decide_eq_false_2; [done|].
    by intros <-.
  - intros [= -> _]. done.
Qed.

Lemma temp_name_fresh id counter :
  valid_lease_id id = true → temp_name counter ≠ file_name_of id.
Proof.
  intros Hv Heq. destruct (lease_file_not_special id Hv) as [Hs _].
  rewrite <-Heq in Hs. unfold starts_with, temp_name in Hs. by rewrite strip_prefix_app in Hs.
Qed.

Lemma lease_file_ascii id :
  valid_lease_id id = true → str_all ascii_char (file_name_of id) = true.
Proof.
  intros [Hp _]%valid_lease_id_plain. unfold file_name_of. rewrite str_all_app.
  rewrite (str_all_impl _ _ _ plain_ascii Hp). done.
Qed.

(** *** Reads change nothing *)

Lemma read_only_validate d : read_only (validate_ownership d).
Proof. unfold validate_ownership. read_only_tac. Qed.

Lemma read_only_store_root : read_only open_root.
Proof. unfold open_root. pose proof read_only_validate. read_only_tac. Qed.
#[local] Hint Resolve read_only_validate read_only_store_root : read_only.

Lemma read_only_read_named d name : read_only (read_named d name).
Proof. unfold read_named. read_only_tac. Qed.
#[local] Hint Resolve read_only_read_named : read_only.

Lemma read_only_load_names d names : read_only (load_names d names).
Proof. induction names as [|raw names IH]; simpl; read_only_tac. Qed.
#[local] Hint Resolve read_only_load_names : read_only.

Lemma read_only_load : read_only load.
Proof. unfold load. read_only_tac. Qed.

Lemma read_only_read id : read_only (read id).
Proof. unfold read. read_only_tac. Qed.

Lemma read_only_lock : read_only lock.
Proof. unfold lock. read_only_tac. Qed.

(** *** What a read returns is what is stored *)

Lemma store_open_root_Ok w d w' :
  open_root w = (Ok d, w') →
  d = [] ∧ w_root w' = w_root w ∧ ∃ mode uid es, w_root w = Some (NDir mode uid es).
Proof.
  intros Ho. pose proof (ro_root _ _ _ _ read_only_store_root Ho) as Hroot.
  unfold open_root in Ho. inv_run.
  match goal with Hp : open_directory_path _ = _ |- _ => apply open_path_Ok in Hp as [-> Hd] end.
  done.
Qed.

Lemma get_entries_root w es w' :
  get_entries [] w = (Ok es, w') → w' = w ∧ ∀ name, entry (w_root w) name = ent_get name es.
Proof.
  unfold get_entries. destruct (w_root w) as [[]|]; simpl; naive_solver.
Qed.

Lemma stat_at_root name w r w' :
  stat_at [] name w = (Ok r, w') →
  w_root w' = w_root w ∧ ∃ n, entry (w_root w) name = Some n ∧ r = stat_of n.
Proof.
  intros Hs. pose proof (ro_root _ _ _ _ (read_only_stat_at [] name) Hs) as Hroot.
  split; [done|]. unfold stat_at in Hs. inv_run.
  match goal with Hg : get_entries _ _ = _ |- _ => apply get_entries_root in Hg as [-> Hent] end.
  match goal with Hc : check_name _ _ = _ |- _ => apply check_name_Ok in Hc as -> end.
  match goal with Hy : sys _ = _ |- _ => apply (ro_root _ _ _ _ read_only_sys) in Hy end.
  destruct (ent_get name _) as [n|] eqn:He; inv_run.
  exists n. split; [congruence|done].
Qed.

Lemma read_file_root name max w data w' :
  read_file_at [] name max w = (Ok data, w') →
  ∃ mode uid, entry (w_root w) name = Some (NFile mode uid data).
Proof.
  intros Hs. unfold read_file_at in Hs. inv_run.
  match goal with Hg : get_entries _ _ = _ |- _ => apply get_entries_root in Hg as [-> Hent] end.
  match goal with Hc : check_name _ _ = _ |- _ => apply check_name_Ok in Hc as -> end.
  match goal with Hy : sys w = _ |- _ =>
    apply (ro_root _ _ _ _ read_only_sys) in Hy; rewrite Hy in Hent end. rewrite Hent.
  destruct (ent_get name _) as [[]|] eqn:He; inv_run; try done. eauto.
Qed.

Lemma read_named_Ok name w r w' :
  read_named [] name w = (Ok r, w') →
  name = file_name_of (lease_id r) ∧ record_at (w_root w) (lease_id r) = Some r.
Proof.
  intros Hr. unfold read_named in Hr. inv_run.
  repeat match goal with Hs : stat_at _ _ _ = _ |- _ =>
    apply (ro_root _ _ _ _ (read_only_stat_at [] name)) in Hs end.
  match goal with Hd : decode _ _ = Ok _ |- _ =>
    pose proof (lease_decode_wf _ _ _ Hd) as [Hw Hid]; rename Hd into Hdec end.
  match goal with Hs : strip_suffix _ _ = _ |- _ => apply strip_suffix_Some in Hs end.
  match goal with Hf : read_file_at _ _ _ _ = _ |- _ =>
    apply read_file_root in Hf as (mode & u & Hfile) end.
  assert (Hn : name = file_name_of (lease_id r)) by (unfold file_name_of; congruence).
  split; [done|]. unfold record_at. rewrite <-Hn.
  match goal with Hy : w_root _ = w_root w |- _ => rewrite <-Hy end.
  rewrite Hfile. simpl. by rewrite Hid, Hdec.
Qed.

Lemma record_at_wf t id r : record_at t id = Some r → wf r ∧ lease_id r = id.
Proof.
  unfold record_at, record_of. intros Hr. destruct (entry _ _) as [[mode u data| | |]|]; try done.
  destruct (decode data id) as [r'|] eqn:Hd; simplify_eq/=. by apply (lease_decode_wf data).
Qed.

Lemma entry_node name mode uid es t :
  t = Some (NDir mode uid es) → entry t name = t ≫= node_at ([] ++ [name]).
Proof. intros ->. simpl. by destruct (ent_get name es). Qed.

Lemma read_Ok id w o w' :
  read id w = (Ok o, w') →
  match o with
  | Some r => lease_id r = id ∧ record_at (w_root w) id = Some r
  | None => record_at (w_root w) id = None
  end.
Proof.
  intros Hr. unfold read in Hr. inv_run.
  match goal with Ho : open_root _ = _ |- _ =>
    apply store_open_root_Ok in Ho as (-> & Hroot & mode & u & es & Hdir) end.
  rewrite <-Hroot in *. split_run; inv_run.
  - match goal with Hs : stat_at _ _ _ = _ |- _ =>
      apply (ro_root _ _ _ _ (read_only_stat_at _ _)) in Hs as Hst end.
    match goal with Hn : read_named _ _ _ = _ |- _ => apply read_named_Ok in Hn as [Hname Hat] end.
    apply file_name_inj in Hname. subst. by rewrite Hst in Hat.
  - unfold record_at. erewrite entry_node by exact Hdir.
    erewrite stat_absent; [done| |done|done]. by rewrite Hdir.
Qed.

Lemma load_names_sound names w rs w' r :
  load_names [] names w = (Ok rs, w') → r ∈ rs →
  record_at (w_root w) (lease_id r) = Some r.
Proof.
  revert w rs. induction names as [|raw names IH]; intros w rs Hl Hin; cbn [load_names] in Hl; inv_run.
  - by apply not_elem_of_nil in Hin.
  - eauto.
  - eauto.
  - match goal with Hn : read_named _ _ _ = _ |- _ =>
      pose proof (ro_root _ _ _ _ (read_only_read_named _ _) Hn) as Hroot;
      apply read_named_Ok in Hn as [_ Hat] end.
    apply elem_of_cons in Hin as [->|Hin]; [done|]. rewrite <-Hroot. eauto.
Qed.

Lemma load_names_complete names w rs w' id :
  load_names [] names w = (Ok rs, w') → valid_lease_id id = true → file_name_of id ∈ names →
  ∃ r, r ∈ rs ∧ lease_id r = id.
Proof.
  intros Hl Hv. revert w rs Hl.
  induction names as [|raw names IH]; intros w rs Hl Hin; [by apply not_elem_of_nil in Hin|].
  destruct (lease_file_not_special id Hv) as [Ht Hk]. cbn [load_names] in Hl.
  apply elem_of_cons in Hin as [<-|Hin].
  - rewrite from_utf8_lossy_ascii, Ht, bool_decide_eq_false_2 in Hl
      by auto using lease_file_ascii. inv_run.
    match goal with Hn : read_named _ _ _ = _ |- _ => apply read_named_Ok in Hn as [Hname Hat] end.
    apply file_name_inj in Hname. eexists. by split; [left|].
  - inv_run; [by eauto..|]. edestruct IH as (r & Hr & Hid); [done..|]. exists r. by split; [right|].
Qed.

(** A successful scan returns exactly the stored records. *)
Lemma load_Ok w rs w' :
  load w = (Ok rs, w') → ∀ r, r ∈ rs ↔ record_at (w_root w) (lease_id r) = Some r.
Proof.
  intros Hl r. unfold load in Hl. inv_run.
  match goal with Ho : open_root _ = _ |- _ =>
    apply store_open_root_Ok in Ho as (-> & Hroot & mode & u & es & Hdir) end.
  match goal with Hn : read_names _ _ = _ |- _ =>
    pose proof (ro_root _ _ _ _ (read_only_read_names _) Hn) as Hroot';
    unfold read_names in Hn; inv_run end.
  match goal with Hg : get_entries _ _ = _ |- _ => apply get_entries_root in Hg as [-> Hent] end.
  rewrite elem_sort_by. rewrite <-Hroot, <-Hroot'. split.
  - intros Hin. by eapply load_names_sound.
  - intros Hat. destruct (record_at_wf _ _ _ Hat) as [[Hv _ _ _ _ _] _].
    edestruct load_names_complete as (r' & Hin & Hid); [done|exact Hv|..].
    + apply dec_stable. intros Hn. apply ent_get_None in Hn. unfold record_at in Hat. by rewrite Hent, Hn in Hat.
    + match goal with Hln : load_names _ _ _ = _ |- _ =>
        pose proof (load_names_sound _ _ _ _ _ Hln Hin) as Hat' end.
      rewrite Hid, Hat in Hat'. by simplify_eq.
Qed.

(** *** Updates touch one lease *)

(** [frame es0 lid es]: the entries [es] have distinct names and agree with
    [es0] on every lease file but that of [lid]. *)
Definition frame (es0 : entries) (lid : string) (es : entries) : Prop :=
  NoDup es.*1 ∧ ∀ id, valid_lease_id id = true → id ≠ lid →
    ent_get (file_name_of id) es = ent_get (file_name_of id) es0.

(** [same es0 lid es]: moreover they agree on that of [lid]. *)
Definition same (es0 : entries) (lid : string) (es : entries) : Prop :=
  frame es0 lid es ∧ ent_get (file_name_of lid) es = ent_get (file_name_of lid) es0.

Lemma frame_set es0 lid es name n :
  frame es0 lid es → (∀ id, valid_lease_id id = true → id ≠ lid → name ≠ file_name_of id) →
  frame es0 lid (ent_set name n es).
Proof.
  intros [Hnd Hf] Hn. split; [by apply ent_set_NoDup|]. intros id Hv Hne.
  rewrite ent_get_set_ne by auto. auto.
Qed.

Lemma frame_del es0 lid es name :
  frame es0 lid es → (∀ id, valid_lease_id id = true → id ≠ lid → name ≠ file_name_of id) →
  frame es0 lid (ent_del name es).
Proof.
  intros [Hnd Hf] Hn. split; [by apply ent_del_NoDup|]. intros id Hv Hne.
  rewrite ent_get_del_ne by auto. auto.
Qed.

Lemma file_name_apart lid id : id ≠ lid → file_name_of lid ≠ file_name_of id.
Proof. intros Hne Heq%file_name_inj. by subst. Qed.

(** A step that reads nothing and writes nothing, in front of another. *)
Lemma hoare_skip {A} (P : option node → Prop) (m : M world io_error unit) op
    (k : M world Error A) Q :
  read_only m → (∀ e t, P t → Q (Err e) t) → hoare P k Q →
  hoare P (_ ← mapE (Io op) m; k) Q.
Proof.
  intros Hm He Hk. eapply hoare_bind with (R := fun _ => P); [|done]. apply hoare_mapE.
  eapply hoare_conseq; [by apply read_only_hoare|done|]. intros [] ??; simpl; auto.
Qed.

Lemma hoare_step {A} (P R : option node → Prop) (m : M world io_error unit) op
    (k : M world Error A) Q :
  hoare P m (fun r t => match r with Ok _ => R t | Err _ => P t end) →
  (∀ e t, P t → Q (Err e) t) → hoare R k Q →
  hoare P (_ ← mapE (Io op) m; k) Q.
Proof.
  intros Hm He Hk. eapply hoare_bind with (R := fun _ => R); [|done]. apply hoare_mapE.
  eapply hoare_conseq; [done..|]. intros [] ??; simpl; auto.
Qed.

(** The outcome of a write: the record's file is as before or holds the new
    record, and on success holds the new record. *)
Definition written (es0 : entries) (record : LeaseRecord) (ok : bool) (es : entries) : Prop :=
  let name := file_name record in
  let new := Some (NFile 384 euid (encode record)) in
  frame es0 (lease_id record) es ∧
  if ok then ent_get name es = new else ent_get name es = ent_get name es0 ∨ ent_get name es = new.

Lemma write_steps_spec es0 record counter :
  valid_lease_id (lease_id record) = true →
  hoare (dirP (same es0 (lease_id record))) (write_steps [] (temp_name counter) record)
    (fun r t => dirP (written es0 record (is_ok r)) t).
Proof.
  intros Hv. set (lid := lease_id record) in *. set (temp := temp_name counter).
  assert (Htemp : ∀ id, valid_lease_id id = true → temp ≠ file_name_of id)
    by (intros; by apply temp_name_fresh).
  assert (Hset : ∀ n es, same es0 lid es → same es0 lid (ent_set temp n es)).
  { intros n es [Hf He]. split; [apply frame_set; auto|]. rewrite ent_get_set_ne; auto. }
  assert (Herr : ∀ (P : entries → Prop) t, (∀ es, P es → same es0 lid es) → dirP P t →
    dirP (written es0 record false) t).
  { intros P t HP. apply dirP_impl. intros es [Hf He]%HP. split; [done|]. by left. }
  set (staged := fun data es => same es0 lid es ∧ ent_get temp es = Some (NFile 384 euid data)).
  unfold write_steps, trip_lease.
  apply hoare_skip; [auto with read_only|intros; by eapply Herr|].
  eapply hoare_step with (R := dirP (staged EmptyString)).
  { eapply hoare_conseq; [apply create_file_root|done|]. intros [] t; [|done].
    apply dirP_impl. intros es (es1 & Hs & _ & ->). split; [auto|apply ent_get_set_eq]. }
  { intros; by eapply Herr. }
  apply hoare_skip; [auto with read_only|intros; eapply Herr; [|done]; by intros ? []|].
  eapply hoare_step with (R := dirP (staged (encode record))).
  { eapply hoare_conseq; [apply (write_all_root (staged EmptyString) temp (encode record) 384 euid);
      intros es [_ ?]; by eexists|done|]. intros [] t; [|done].
    apply dirP_impl. intros es (es1 & [Hs _] & _ & ->). split; [auto|apply ent_get_set_eq]. }
  { intros; eapply Herr; [|done]; by intros ? []. }
  apply hoare_skip; [auto with read_only|intros; eapply Herr; [|done]; by intros ? []|].
  apply hoare_skip; [unfold sync_all; auto with read_only
    |intros; eapply Herr; [|done]; by intros ? []|].
  apply hoare_skip; [auto with read_only|intros; eapply Herr; [|done]; by intros ? []|].
  eapply hoare_step with (R := dirP (written es0 record true)).
  { eapply hoare_conseq; [apply (rename_root (staged (encode record)));
      intros es [_ ?]; done|done|]. intros [] t; [|done].
    apply dirP_impl. intros es (es1 & [[Hf He] _] & _ & ->). split; [|apply ent_get_set_eq].
    apply frame_set; [apply frame_del; auto|]. intros id _. apply file_name_apart. }
  { intros; eapply Herr; [|done]; by intros ? []. }
  assert (Hlate : ∀ t, dirP (written es0 record true) t → dirP (written es0 record false) t).
  { intros t. apply dirP_impl. intros es [Hf He]. split; [done|]. by right. }
  apply hoare_skip; [auto with read_only|auto|]. apply hoare_mapE.
  eapply hoare_conseq; [apply (read_only_hoare sync_directory (dirP (written es0 record true))),
    read_only_sys|done|].
  intros [] t; simpl; auto.
Qed.

(** Opening the root gives the directory, or nothing happens. *)
Lemma hoare_open_root {A} (t0 : option node) (k : fd → M world Error A) Q :
  (∀ e, Q (Err e) t0) →
  (∀ mode uid es, t0 = Some (NDir mode uid es) → hoare (fun t => t = t0) (k []) Q) →
  hoare (fun t => t = t0) (d ← open_root; k d) Q.
Proof.
  intros He Hk w Hw. unfold mbind, M_bind. destruct (open_root w) as [[d|e] w'] eqn:Ho.
  - apply store_open_root_Ok in Ho as (-> & Hroot & mode & u & es & Hdir).
    eapply Hk; [|by rewrite Hroot]. by rewrite <-Hw.
  - simpl. apply (ro_root _ _ _ _ read_only_store_root) in Ho. rewrite Ho, Hw. auto.
Qed.

Definition unchanged_or (lid : string) (new : option LeaseRecord) (ok : bool)
    (t0 t : option node) : Prop :=
  tree_ok t ∧ replaced lid new ok (record_at t0) (record_at t).

Lemma unchanged_refl lid new t : tree_ok t → unchanged_or lid new false t t.
Proof. intros Ht. split; [done|]. split; [done|]. by left. Qed.

Lemma record_at_invalid t id : valid_lease_id id = false → record_at t id = None.
Proof.
  intros Hv. destruct (record_at t id) as [r|] eqn:Hr; [|done].
  apply record_at_wf in Hr as [[Hl _ _ _ _ _] <-]. congruence.
Qed.

Lemma frame_records mode uid es0 lid es mode' uid' id :
  frame es0 lid es → id ≠ lid →
  record_at (Some (NDir mode uid es)) id = record_at (Some (NDir mode' uid' es0)) id.
Proof.
  intros [_ Hf] Hne. destruct (valid_lease_id id) eqn:Hv.
  - unfold record_at. simpl. by rewrite Hf.
  - by rewrite !record_at_invalid.
Qed.

(** [write]: atomic, and confined to the record's own lease. *)
Lemma write_spec t0 record :
  valid_lease_id (lease_id record) = true → tree_ok t0 →
  hoare (fun t => t = t0) (write record)
    (fun r t => unchanged_or (lease_id record) (stored record) (is_ok r) t0 t).
Proof.
  intros Hv Hok. unfold write. apply hoare_open_root; [intros; by apply unchanged_refl|].
  intros mode u es0 Heq. assert (Hnd : NoDup es0.*1) by by rewrite Heq in Hok.
  assert (Hfin : ∀ ok t, dirP (written es0 record ok) t →
    unchanged_or (lease_id record) (stored record) ok t0 t).
  { intros ok t (m & u' & es & -> & Hf & He). rewrite Heq. split; [apply Hf|].
    split; [intros; by eapply frame_records|]. unfold record_at, file_name in *. simpl.
    destruct ok; [by rewrite He|]. destruct He as [He|He]; rewrite He; auto. }
  eapply hoare_bind with (R := fun _ t => t = t0).
  { apply hoare_mapE. eapply hoare_conseq; [apply (hoare_fetch_add (fun t => t = t0))|done|]. intros [] ? Ht; [done|].
    simpl in *. subst. by apply unchanged_refl. }
  intros counter. eapply hoare_bind with (R := fun r => dirP (written es0 record (is_ok r))).
  { apply hoare_tryM. eapply hoare_conseq; [by apply (write_steps_spec es0)| |done].
    intros t ->. rewrite Heq. by exists mode, u, es0. }
  intros [[]|e]; [intros w Hw; apply (Hfin true), Hw|].
  eapply hoare_bind with (R := fun _ => dirP (written es0 record false)).
  { apply hoare_tryM. eapply hoare_conseq; [apply unlink_root|done|].
    intros [] t; [|done]. apply dirP_impl. intros es (es1 & [Hf He] & _ & ->).
    split; [apply frame_del; auto using temp_name_fresh|].
    by rewrite ent_get_del_ne by by apply temp_name_fresh. }
  intros _ w Hw. apply (Hfin false), Hw.
Qed.

(** A successful write leaves the encoded record in the lease's file. *)
Lemma write_entry record w u w' :
  valid_lease_id (lease_id record) = true → tree_ok (w_root w) → write record w = (Ok u, w') →
  entry (w_root w') (file_name record) = Some (NFile 384 euid (encode record)).
Proof.
  intros Hv Hok Hw. unfold write in Hw. inv_run.
  match goal with Ho : open_root _ = _ |- _ =>
    apply store_open_root_Ok in Ho as (-> & Hroot & mode & u0 & es & Hdir) end.
  match goal with Hf : fetch_add_counter _ = _ |- _ => injection Hf as <- <- end.
  match goal with Hs : write_steps _ _ _ ?w1 = (?r, _) |- _ =>
    pose proof (write_steps_spec es record (w_counter x0) Hv w1) as Hsp; rewrite Hs in Hsp end.
  split_run; inv_run.
  destruct Hsp as (m & u2 & es' & Hr & _ & He).
  { simpl. rewrite Hroot, Hdir. eexists _, _, es. split; [done|].
    rewrite Hdir in Hok. by split; [split|]. }
  destruct a. unfold_monad. simplify_eq. unfold entry. simpl in Hr. by rewrite Hr.
Qed.

(** A scan that succeeds has read every lease file. *)
Lemma load_reads_all w rs w' id :
  load w = (Ok rs, w') → valid_lease_id id = true → is_Some (entry (w_root w) (file_name_of id)) →
  is_Some (record_at (w_root w) id).
Proof.
  intros Hl Hv [n Hn]. pose proof (load_Ok _ _ _ Hl) as Hspec. unfold load in Hl. inv_run.
  match goal with Ho : open_root _ = _ |- _ =>
    apply store_open_root_Ok in Ho as (-> & Hroot & mode & u & es & Hdir) end.
  match goal with Hn : read_names _ _ = _ |- _ =>
    pose proof (ro_root _ _ _ _ (read_only_read_names _) Hn) as Hroot';
    unfold read_names in Hn; inv_run end.
  match goal with Hg : get_entries _ _ = _ |- _ => apply get_entries_root in Hg as [-> Hent] end.
  edestruct load_names_complete as (r & Hin & Hid); [done|exact Hv|..].
  - apply dec_stable. intros Hno%ent_get_None. rewrite <-Hroot, <-Hroot', Hent in Hn. congruence.
  - exists r. rewrite <-Hid. apply Hspec. by apply elem_sort_by.
Qed.

(** [remove]: unlinks exactly one lease. *)
Lemma store_remove_spec t0 lid :
  tree_ok t0 →
  hoare (fun t => t = t0) (remove lid) (fun r t => unchanged_or lid None (is_ok r) t0 t).
Proof.
  intros Hok. unfold remove, validate_lease_id.
  destruct (valid_lease_id lid) eqn:Hv; [|intros w Hw; simpl; rewrite Hw; by apply unchanged_refl].
  eapply hoare_bind with (R := fun _ t => t = t0); [by intros w Hw|]. intros _.
  apply hoare_open_root; [intros; by apply unchanged_refl|].
  intros mode u es0 Heq. assert (Hnd : NoDup es0.*1) by by rewrite Heq in Hok.
  set (gone := fun es => frame es0 lid es ∧ ent_get (file_name_of lid) es = None).
  assert (Hgone : ∀ ok t, dirP gone t → unchanged_or lid None ok t0 t).
  { intros ok t (m & u' & es & -> & Hf & He). rewrite Heq. split; [apply Hf|].
    split; [intros; by eapply frame_records|]. unfold record_at. simpl. rewrite He.
    destruct ok; auto. }
  assert (Hsame : ∀ t, dirP (eq es0) t → unchanged_or lid None false t0 t).
  { intros t (m & u' & es & -> & <-). rewrite Heq. split; [done|]. split; [done|]. by left. }
  unfold trip_lease. apply hoare_skip; [auto with read_only| |].
  { intros ? ? ->. by apply unchanged_refl. }
  eapply hoare_bind with (R := fun r => dirP (if is_ok r then gone else eq es0)).
  { apply hoare_tryM. eapply hoare_conseq; [apply (unlink_root (eq es0))| |].
    - intros t ->. rewrite Heq. by exists mode, u, es0.
    - intros [] t; [|done]. apply dirP_impl. intros es (es1 & <- & _ & ->).
      split; [apply frame_del; [done|intros id _; apply file_name_apart]|].
      by apply ent_get_del_eq. }
  intros [[]|e]; cbn [is_ok].
  - apply hoare_skip; [auto with read_only|auto|]. apply hoare_mapE.
    eapply hoare_conseq; [apply (read_only_hoare sync_directory (dirP gone)), read_only_sys|done|].
    intros [] t; simpl; auto.
  - destruct (errno_is _ _); intros w Hw; apply Hsame, Hw.
Qed.

(** [remove_stale_temps]: no lease is touched. *)
Lemma remove_temps_spec es0 names :
  hoare (dirP (fun es => NoDup es.*1 ∧ ∀ id, valid_lease_id id = true →
      ent_get (file_name_of id) es = ent_get (file_name_of id) es0))
    (remove_temps [] names)
    (fun _ => dirP (fun es => NoDup es.*1 ∧ ∀ id, valid_lease_id id = true →
      ent_get (file_name_of id) es = ent_get (file_name_of id) es0)).
Proof.
  set (P := fun es : entries => _). induction names as [|raw names IH]; simpl; [by intros w Hw|].
  eapply hoare_bind with (R := fun _ => dirP P); [|by intros _].
  destruct (starts_with _ _) eqn:Ht; [|by intros w Hw]. apply hoare_mapE.
  eapply hoare_conseq; [apply (unlink_root P)|done|].
  intros [] t; [|done]. apply dirP_impl. intros es (es1 & [Hnd Hf] & _ & ->).
  split; [by apply ent_del_NoDup|]. intros id Hv. rewrite ent_get_del_ne; [auto|].
  intros Heq. destruct (lease_file_not_special id Hv) as [Hs _]. congruence.
Qed.

Lemma remove_stale_temps_entries t0 :
  tree_ok t0 →
  hoare (fun t => t = t0) remove_stale_temps
    (fun _ t => tree_ok t ∧ ∀ id, valid_lease_id id = true →
       entry t (file_name_of id) = entry t0 (file_name_of id)).
Proof.
  intros Hok. unfold remove_stale_temps. apply hoare_open_root; [done|].
  intros mode u es0 Heq. eapply hoare_bind with (R := fun _ t => t = t0).
  { apply hoare_mapE. eapply hoare_conseq; [apply (read_only_hoare _ (fun t => t = t0)); auto with read_only|done|].
    intros [] t; simpl; intros ->; done. }
  intros names. eapply hoare_conseq; [apply (remove_temps_spec es0)| |].
  - intros t ->. rewrite Heq in *. by exists mode, u, es0.
  - intros _ t (m & u' & es & -> & Hnd & Hf). rewrite Heq. auto.
Qed.

Lemma remove_stale_temps_spec t0 :
  tree_ok t0 →
  hoare (fun t => t = t0) remove_stale_temps
    (fun _ t => tree_ok t ∧ ∀ id, record_at t id = record_at t0 id).
Proof.
  intros Hok. eapply hoare_conseq; [by apply (remove_stale_temps_entries t0)|done|].
  intros _ t [Ht He]. split; [done|]. intros id.
  destruct (valid_lease_id id) eqn:Hv; [|by rewrite !record_at_invalid].
  unfold record_at. by rewrite He.
Qed.

(** ** The directory implements the ledger the allocator relies on *)

#[global] Program Instance disk_ledger : LeaseLedger world := {|
  ledger_ok w := tree_ok (w_root w);
  view w := record_at (w_root w);
  l_lock := lock; l_load := load; l_read := read;
  l_write := write; l_remove := remove; l_remove_stale_temps := remove_stale_temps;
|}.
Next Obligation. intros w id r. apply record_at_wf. Qed.
Next Obligation.
  intros w r w' Hok Hl. simpl in *. apply (ro_root _ _ _ _ read_only_lock) in Hl. by rewrite Hl.
Qed.
Next Obligation.
  intros w r w' Hok Hl. simpl in *. pose proof (ro_root _ _ _ _ read_only_load Hl) as ->.
  split_and!; [done..|]. intros rs ->. by eapply load_Ok.
Qed.
Next Obligation.
  intros id w r w' Hok Hl. simpl in *. pose proof (ro_root _ _ _ _ (read_only_read id) Hl) as ->.
  split_and!; [done..|]. intros [x|] ->; apply read_Ok in Hl; [by destruct Hl|done].
Qed.
Next Obligation.
  intros x w r w' Hok Hv Hl. pose proof (write_spec (w_root w) x Hv Hok w eq_refl) as Hs.
  by rewrite Hl in Hs.
Qed.
Next Obligation.
  intros lid w r w' Hok Hl. pose proof (store_remove_spec (w_root w) lid Hok w eq_refl) as Hs.
  by rewrite Hl in Hs.
Qed.
Next Obligation.
  intros w r w' Hok Hl. pose proof (remove_stale_temps_spec (w_root w) Hok w eq_refl) as Hs.
  by rewrite Hl in Hs.
Qed.

(** ** Runs that meet no fault *)

Definition quiet (es : entries) (counter : Z) : world :=
  MkWorld (Some (NDir 448 euid es)) [] None counter.

Lemma open_root_quiet es c : open_root (quiet es c) = (Ok [], quiet es c).
Proof.
  unfold open_root, validate_ownership, quiet. unfold_monad. simpl. by rewrite Z.eqb_refl.
Qed.

Lemma no_nul p name :
  (∀ c, p c = true → 0 < byte_val c) → str_all p name = true → has_nul name = false.
Proof.
  intros Hp Hn. unfold has_nul. apply negb_false_iff. eapply str_all_impl; [|exact Hn].
  intros c Hc. apply negb_true_iff, Z.eqb_neq. specialize (Hp c Hc). lia.
Qed.

Lemma printable_no_nul name : str_all (in_range 32 126) name = true → has_nul name = false.
Proof. apply no_nul. intros c Hc%in_range_bounds. lia. Qed.

Lemma lease_file_no_nul id : valid_lease_id id = true → has_nul (file_name_of id) = false.
Proof.
  intros [Hp _]%valid_lease_id_plain. apply printable_no_nul. unfold file_name_of.
  rewrite str_all_app. apply andb_true_iff. split; [|by vm_compute].
  eapply str_all_impl; [|exact Hp]. intros c. unfold plain_char. rewrite !andb_true_iff. tauto.
Qed.

Lemma temp_no_nul c : 0 <= pid → 0 <= c → has_nul (temp_name c) = false.
Proof.
  intros Hp Hc. apply printable_no_nul. unfold temp_name. rewrite !str_all_app.
  assert (Hd : ∀ n, 0 <= n → str_all (in_range 32 126) (fmt_dec n) = true).
  { intros n Hn. eapply str_all_impl; [|by apply fmt_dec_digits].
    intros x. unfold is_ascii_digit. rewrite !in_range_bounds. lia. }
  rewrite !Hd by done. by vm_compute.
Qed.

Lemma check_name_ok name w : has_nul name = false → check_name name w = (Ok tt, w).
Proof. intros Hn. unfold check_name. by rewrite Hn. Qed.

Lemma trip_quiet p es c : trip_lease p (quiet es c) = (Ok tt, quiet es c).
Proof. done. Qed.

Lemma sys_quiet es c : sys (quiet es c) = (Ok tt, quiet es c).
Proof. done. Qed.

Lemma create_quiet name mode es c :
  has_nul name = false → ent_get name es = None →
  create_file_at [] name mode (quiet es c)
  = (Ok tt, quiet (ent_set name (NFile mode euid EmptyString) es) c).
Proof.
  intros Hn He. unfold create_file_at. erewrite bind_run by by apply check_name_ok.
  unfold_monad. simpl. by rewrite He.
Qed.

Lemma write_all_quiet name data es c mode u old :
  ent_get name es = Some (NFile mode u old) →
  write_all [] name data (quiet es c) = (Ok tt, quiet (ent_set name (NFile mode u data) es) c).
Proof. intros He. unfold write_all. unfold_monad. simpl. by rewrite He. Qed.

Definition not_dir (o : option node) : Prop :=
  match o with Some (NDir _ _ _) => False | _ => True end.

Lemma rename_quiet from to n es c :
  has_nul from = false → has_nul to = false → ent_get from es = Some n → not_dir (ent_get to es) →
  rename_at [] from to (quiet es c) = (Ok tt, quiet (ent_set to n (ent_del from es)) c).
Proof.
  intros Hf Ht He Hd. unfold rename_at. do 2 (erewrite bind_run by by apply check_name_ok).
  unfold_monad. simpl. rewrite He. by destruct (ent_get to es) as [[]|].
Qed.

Lemma write_steps_quiet es c temp record :
  temp ≠ file_name record → has_nul temp = false → has_nul (file_name record) = false →
  ent_get temp es = None → not_dir (ent_get (file_name record) es) →
  ∃ es', write_steps [] temp record (quiet es c) = (Ok tt, quiet es' c)
    ∧ ent_get (file_name record) es' = Some (NFile 384 euid (encode record)).
Proof.
  intros Hne Hnt Hnf Ht Hn. eexists. split; [|apply ent_get_set_eq]. unfold write_steps.
  rewrite (bind_run (trip_lease LeaseTempCreate) _ _ _ _ (trip_quiet _ _ _)).
  erewrite bind_run by (by apply mapE_run, create_quiet).
  rewrite (bind_run (trip_lease LeaseWrite) _ _ _ _ (trip_quiet _ _ _)).
  erewrite bind_run by (by eapply mapE_run, write_all_quiet; apply ent_get_set_eq).
  rewrite (bind_run (trip_lease LeaseFileSync) _ _ _ _ (trip_quiet _ _ _)).
  erewrite bind_run by by apply mapE_run, sys_quiet.
  rewrite (bind_run (trip_lease LeaseRename) _ _ _ _ (trip_quiet _ _ _)).
  erewrite bind_run by (eapply mapE_run, rename_quiet;
    [done|done|apply ent_get_set_eq|by rewrite !ent_get_set_ne]).
  rewrite (bind_run (trip_lease LeaseParentSync) _ _ _ _ (trip_quiet _ _ _)).
  by apply mapE_run, sys_quiet.
Qed.

Lemma write_quiet es c record :
  valid_lease_id (lease_id record) = true → 0 <= pid → 0 <= c →
  ent_get (temp_name c) es = None → not_dir (ent_get (file_name record) es) →
  ∃ es', write record (quiet es c) = (Ok tt, quiet es' (wrap_u64 (c + 1)))
    ∧ ent_get (file_name record) es' = Some (NFile 384 euid (encode record)).
Proof.
  intros Hv Hp Hc Ht Hn.
  destruct (write_steps_quiet es (wrap_u64 (c + 1)) (temp_name c) record) as (es' & Hs & He);
    [by apply temp_name_fresh|by apply temp_no_nul|by apply lease_file_no_nul|done|done|].
  exists es'. split; [|done]. unfold write. erewrite bind_run by apply open_root_quiet.
  assert (Hf : mapE (Io EmptyString) fetch_add_counter (quiet es c)
    = (Ok c, quiet es (wrap_u64 (c + 1)))) by done.
  rewrite (bind_run _ _ _ _ _ Hf). cbn zeta.
  by rewrite (bind_run _ _ _ _ _ (tryM_run _ _ _ _ Hs)).
Qed.

Lemma read_quiet es c id data :
  valid_lease_id id = true → ent_get (file_name_of id) es = Some (NFile 384 euid data) →
  str_len data <= MAX_RECORD_BYTES →
  read id (quiet es c)
  = (Some <$> map_err (fun error => CorruptRecord (file_name_of id) (display error))
                (decode data id), quiet es c).
Proof.
  intros Hv He Hl. pose proof (lease_file_no_nul _ Hv) as Hnf.
  assert (Hst : stat_at [] (file_name_of id) (quiet es c)
    = (Ok (stat_of (NFile 384 euid data)), quiet es c)).
  { unfold stat_at. erewrite bind_run by by apply check_name_ok. unfold_monad. simpl. by rewrite He. }
  assert (Hrd : read_file_at [] (file_name_of id) MAX_RECORD_BYTES (quiet es c)
    = (Ok data, quiet es c)).
  { unfold read_file_at. erewrite bind_run by by apply check_name_ok. unfold_monad. simpl.
    rewrite He. simpl. destruct (MAX_RECORD_BYTES <? _) eqn:?; bool_to_prop; [lia|done]. }
  assert (Hnm : read_named [] (file_name_of id) (quiet es c)
    = (map_err (fun error => CorruptRecord (file_name_of id) (display error)) (decode data id),
       quiet es c)).
  { unfold read_named, validate_lease_id.
    rewrite (strip_suffix_app RECORD_SUFFIX id
      : strip_suffix RECORD_SUFFIX (file_name_of id) = Some id).
    erewrite bind_run by reflexivity. rewrite Hv.
    erewrite !bind_run by reflexivity. erewrite bind_run by by apply mapE_run.
    cbn [st_mode stat_of]. change (is_regular _) with true.
    change (group_or_world_writable _) with false. cbn [negb].
    by erewrite bind_run by by apply mapE_run. }
  unfold read, validate_lease_id. rewrite Hv. erewrite bind_run by done.
  erewrite bind_run by apply open_root_quiet. erewrite bind_run by by apply tryM_run.
  unfold mbind, M_bind. rewrite Hnm. by destruct (decode data id).
Qed.

(** C31: [write] is all or nothing and touches one lease only.  Whatever the
    kernel refuses and wherever the process is cut off, every other lease reads
    as before, and the written one reads as the old record or as the new one;
    success means the new one is in place. *)
Theorem lease_write_is_atomic w record r w' :
  valid_lease_id (lease_id record) = true → tree_ok (w_root w) →
  write record w = (r, w') →
  tree_ok (w_root w')
  ∧ (∀ id, id ≠ lease_id record → record_at (w_root w') id = record_at (w_root w) id)
  ∧ match r with
    | Ok _ => record_at (w_root w') (lease_id record) = stored record
    | Err _ => record_at (w_root w') (lease_id record) = record_at (w_root w) (lease_id record)
               ∨ record_at (w_root w') (lease_id record) = stored record
    end.
Proof.
  intros Hv Hok Hw. destruct (write_spec (w_root w) record Hv Hok w eq_refl) as (Ht & Ho & Hn).
  rewrite Hw in *. split_and!; [done..|]. by destruct r.
Qed.

(** A scan that succeeds returns exactly the stored records: nothing is
    skipped silently, nothing is invented. *)
Theorem lease_load_is_exact w rs w' :
  load w = (Ok rs, w') →
  w_root w' = w_root w ∧ ∀ r, r ∈ rs ↔ record_at (w_root w) (lease_id r) = Some r.
Proof.
  intros Hl. split; [by apply (ro_root _ _ _ _ read_only_load) in Hl|]. by eapply load_Ok.
Qed.

(** When nothing fails, [write] succeeds and [read] returns the record. *)
Theorem lease_write_then_read `{!TomlLaws} es c record :
  wf record → plain_reason record →
  match quarantine_reason record with Some q => str_len q <= 3000 | None => True end →
  0 <= pid → 0 <= c →
  ent_get (temp_name c) es = None → not_dir (ent_get (file_name record) es) →
  let '(r, w') := write record (MkWorld (Some (NDir 448 euid es)) [] None c) in
  r = Ok tt ∧ (read (lease_id record) w').1 = Ok (Some record).
Proof.
  intros Hw Hq Hlen Hp Hc Ht Hn. destruct (write_quiet es c record) as (es' & Hr & He);
    [apply Hw|done..|]. unfold quiet in Hr at 1. rewrite Hr. split; [done|].
  erewrite read_quiet; [|apply Hw|exact He|by apply lease_encode_len].
  by rewrite lease_decode_encode.
Qed.
End proofs.

#[local] Existing Instance sample_host.

(** A ledger whose directory holds the sample lease and an interrupted write;
    the kernel refuses the fifth call. *)
Definition sample_world : world :=
  MkWorld (Some (NDir 448 1000 [(".lease.lock", NFile 384 1000 EmptyString);
      (file_name sample, NFile 384 1000 (encode sample));
      (".lease.toml.tmp-3-0", NFile 384 1000 "version = 1")]))
    [false; false; false; false; true] None 0.

Lemma sample_tree_ok : tree_ok (w_root sample_world).
Proof. apply (bool_decide_unpack _). vm_compute. exact I. Defined.

Lemma lease_write_is_atomic_witness :
  let w' := (write (with_state sample Releasing) sample_world).2 in
  is_ok (write (with_state sample Releasing) sample_world).1 = false
  ∧ (record_at (w_root w') (lease_id sample) = record_at (w_root sample_world) (lease_id sample)
     ∨ record_at (w_root w') (lease_id sample) = stored (with_state sample Releasing)).
Proof.
  assert (Hf : is_ok (write (with_state sample Releasing) sample_world).1 = false)
    by (vm_compute; reflexivity).
  split; [exact Hf|].
  destruct (write (with_state sample Releasing) sample_world) as [[u|e] w'] eqn:Hw;
    [discriminate|].
  apply (lease_write_is_atomic sample_world (with_state sample Releasing) (Err e) w'
    eq_refl sample_tree_ok Hw).
Defined.

Lemma lease_load_is_exact_witness :
  ∃ w', load (with_root (w_root sample_world) (quiet [] 0)) = (Ok [sample], w')
  ∧ sample ∈ [sample].
Proof.
  eexists. split; [vm_compute; reflexivity|].
  eapply (lease_load_is_exact (with_root (w_root sample_world) (quiet [] 0)));
    vm_compute; reflexivity.
Defined.

Lemma lease_write_then_read_witness :
  let '(r, w') := write sample (MkWorld (Some (NDir 448 euid [])) [] None 0) in
  r = Ok tt ∧ (read (lease_id sample) w').1 = Ok (Some sample).
Proof.
  apply (lease_write_then_read [] 0 sample sample_wf I I); [simpl; lia|lia|reflexivity|exact I].
Defined.
End LeaseStore.
