(* ===== verification/AllocatorSafety.v ===== *)
(** * Safety of subordinate-ID allocation

    The allocator's operations composed: several processes, each with its own
    in-memory index, over one ledger; any of them may fail at any system call,
    die and be restarted.  No two leases ever share an ID or a sandbox, and a
    lease leaves the ledger only through its release. *)

From stdpp Require Import relations.
From S2P Require Import Prelude BTree Text Toml Idents Metadata Delegation AvailableIds FileSystem LeaseRecord LedgerSpec LeaseStore Allocator.

Module AllocatorSafety.
Import Lease Allocator.
Import Delegation (MkDelegation, MkRange, Delegation, uid_ranges, gid_ranges, range_wf).

Section system.
Context `{TomlCrate} `{UnicodeTables} `{!TomlLaws} `{Host}.
Context {St : Type} `{!LeaseLedger St}.

(** ** Operations *)

Inductive op :=
| OpLoad
| OpLeaseFor (sandbox : string)
| OpClaim (token : Z) (sandbox own : string) (d : Delegation)
| OpActivate (expected : LeaseRecord)
| OpBeginRelease (expected : LeaseRecord)
| OpFinishRelease (expected : LeaseRecord)
| OpQuarantine (expected : LeaseRecord) (reason : string)
| OpReconcile (lookup : string → result string (option SandboxView)) (runtime_proof : bool).

(** The arguments callers can pass: typed sandbox and owner, ranges that
    [SubidRange::new] accepted without wrapping, ASCII reasons. *)
Definition valid_op (o : op) : Prop :=
  match o with
  | OpClaim token sandbox owner d =>
      0 <= token ∧ Id.grammar sandbox ∧ Fingerprint.parse owner = Ok owner
      ∧ Forall range_wf (uid_ranges d) ∧ Forall range_wf (gid_ranges d)
  | OpQuarantine _ reason => str_all ascii_char reason = true
  | OpReconcile lookup _ => ∀ sb v, lookup sb = Ok v → ascii_view v
  | _ => True
  end.

(** The allocator after the operation, whether it succeeded or failed. *)
Definition run (o : op) (a : SubidAllocator St) : SubidAllocator St :=
  match o with
  | OpLoad => (load a).2
  | OpLeaseFor sandbox => (lease_for sandbox a).2
  | OpClaim token sandbox owner d => (claim token sandbox owner d a).2
  | OpActivate e => (activate e a).2
  | OpBeginRelease e => (begin_release e a).2
  | OpFinishRelease e => (finish_release e a).2
  | OpQuarantine e reason => (quarantine e reason a).2
  | OpReconcile lookup proof => (reconcile lookup proof a).2
  end.

(** ** Processes over one ledger *)

Record system := MkSystem { disk : St; procs : list (gmap string string * gset string) }.

Inductive sys_step (s : system) : system → Prop :=
| sys_op i ids pending o a' :
    procs s !! i = Some (ids, pending) → valid_op o →
    a' = run o (MkAllocator (disk s) ids pending) →
    sys_step s (MkSystem (store a') (<[i := (lease_ids a', pending_activations a')]> (procs s)))
| sys_restart i : sys_step s (MkSystem (disk s) (<[i := (∅, ∅)]> (procs s)))
| sys_spawn : sys_step s (MkSystem (disk s) (procs s ++ [(∅, ∅)])).

Lemma lease_for_reads sandbox (a : SubidAllocator St) r a' :
  ledger_ok (store a) → lease_for sandbox a = (r, a') → reads a a'.
Proof.
  intros Hok Hl. unfold lease_for in Hl.
  assert (Hcold : ∀ a1, reads a a1 →
    (m ← load_indexed; mret (bt_get sandbox m)) a1 = (r, a') → reads a a').
  { intros a1 Hr Hk. apply bind_inv in Hk as [(m & a2 & Hld & Hk)|(x & Hld & ->)];
      apply load_indexed_spec in Hld as [Hld _]; [|apply Hr| |apply Hr];
      [unfold_monad; simplify_eq|]; by eapply reads_trans. }
  rewrite (bind_run _ _ _ a a) in Hl by done.
  destruct (lease_ids a !! sandbox) as [lid|]; [|by apply (Hcold a)].
  apply bind_inv in Hl as [(o & a1 & Hs & Hk)|(x & Hs & ->)];
    apply on_store_inv in Hs as (r0 & Hs & _); apply l_read_spec in Hs as (Hok' & Hv & _);
    [|done| |done]; [|done].
  destruct o as [c|]; [|by apply (Hcold a1)].
  case_bool_decide; unfold_monad; by simplify_eq.
Qed.

(** One operation other than reconciliation is one step of the protocol. *)
Definition label_of (o : op) : label :=
  match o with
  | OpClaim token _ _ _ => LClaim (new_lease_id token)
  | OpQuarantine _ reason => LQuarantine reason
  | _ => LOther
  end.

Lemma run_steps_once o (a : SubidAllocator St) :
  valid_op o → ledger_ok (store a) → (∀ lookup proof, o ≠ OpReconcile lookup proof) →
  steps (label_of o) a (run o a).
Proof.
  intros Hv Hok Hnr. destruct o; simpl in *; [..|by destruct (Hnr lookup runtime_proof)].
  - destruct (load a) eqn:Hl. apply load_reads in Hl as [Hl _]; [|done]. by apply reads_steps.
  - destruct (lease_for sandbox a) eqn:Hl. apply lease_for_reads in Hl; [|done]. by apply reads_steps.
  - destruct Hv as (? & ? & ? & ? & ?). destruct (claim token sandbox own d a) eqn:Hl.
    apply claim_steps in Hl as [Hl _]; auto.
  - destruct (activate expected a) eqn:Hl. apply activate_steps in Hl as [Hl _]; auto.
  - destruct (begin_release expected a) eqn:Hl. apply begin_release_steps in Hl as [Hl _]; auto.
  - destruct (finish_release expected a) eqn:Hl.
    apply remove_expected_steps in Hl as [Hl _]; auto.
  - destruct (quarantine expected reason a) eqn:Hl. apply quarantine_steps in Hl as [Hl _]; auto.
Qed.

(** Every operation is a run of the abstract protocol. *)
Lemma run_refines o (a : SubidAllocator St) :
  valid_op o → ledger_ok (store a) →
  ledger_ok (store (run o a)) ∧ rtc any_step (view (store a)) (view (store (run o a))).
Proof.
  intros Hv Hok. destruct o as [| | | | | | |lookup proof] eqn:Ho; rewrite <-Ho in *.
  8:{ subst. simpl. destruct (reconcile lookup proof a) eqn:Hl.
      by apply reconcile_steps in Hl as (? & ? & _). }
  all: destruct (run_steps_once o a) as [Hok' Hs]; [done..|by intros ?? ->|].
  all: split; [done|]; apply rtc_once; by eexists.
Qed.

Definition safe (s : system) : Prop := ledger_ok (disk s) ∧ unique (view (disk s)).

Lemma sys_step_safe s s' : safe s → sys_step s s' → safe s'.
Proof.
  intros [Hok Hu] [i ids pending o a' _ Hv ->|i|]; [|done..].
  destruct (run_refines o (MkAllocator (disk s) ids pending)) as [Hok' Hr]; [done..|].
  split; [done|]. by eapply rtc_unique.
Qed.

(** C1: no subordinate ID is ever leased twice.  In every state any number of
    daemon processes can reach over one ledger, by any interleaving of claims,
    activations, releases, quarantines and reconciliations, with failures at any
    system call, crashes and restarts, two different leases differ in their UID,
    in their GID and in their sandbox. *)
Theorem ids_never_shared s s' id1 id2 r1 r2 :
  ledger_ok (disk s) → unique (view (disk s)) → rtc sys_step s s' →
  view (disk s') id1 = Some r1 → view (disk s') id2 = Some r2 → id1 ≠ id2 →
  uid r1 ≠ uid r2 ∧ gid r1 ≠ gid r2 ∧ sandbox_id r1 ≠ sandbox_id r2.
Proof.
  intros Hok Hu Hr Hv1 Hv2 Hne.
  assert (Hs : safe s') by (eapply (rtc_ind_r safe); [by split|intros; by eapply sys_step_safe|exact Hr]).
  destruct Hs as [_ Hs]. split_and!; intros Heq; apply Hne; eapply Hs; eauto.
Qed.

(** [claim] leases the least free pair.  The record it returns is durably
    in the ledger, names the requested sandbox and owner and is [Active]; its UID
    is the least delegated UID that is neither 0 nor the daemon's own nor in any
    lease of whatever state, and likewise its GID; no other lease changes.  It
    reports exhaustion only if no such UID or no such GID exists. *)
Theorem claim_leases_least_free_pair token sandbox own d (a : SubidAllocator St) r a' :
  0 <= token → Id.grammar sandbox → Fingerprint.parse own = Ok own →
  Forall range_wf (uid_ranges d) → Forall range_wf (gid_ranges d) →
  ledger_ok (store a) → claim token sandbox own d a = (r, a') →
  match r with
  | Ok record =>
      lease_id record = new_lease_id token ∧ sandbox_id record = sandbox ∧ owner record = own
      ∧ state record = Active
      ∧ least (assignable (uid_ranges d) euid uid (view (store a))) (uid record)
      ∧ least (assignable (gid_ranges d) egid gid (view (store a))) (gid record)
      ∧ view (store a') (lease_id record) = Some record
      ∧ ∀ id, id ≠ lease_id record → view (store a') id = view (store a) id
  | Err (Exhausted _ _) =>
      (∀ x, ¬ assignable (uid_ranges d) euid uid (view (store a)) x)
      ∨ (∀ x, ¬ assignable (gid_ranges d) egid gid (view (store a)) x)
  | Err _ => True
  end.
Proof.
  intros Ht Hs Ho Hu Hg Hok Hc. apply claim_steps in Hc as (_ & _ & Hc); [|done..].
  destruct r as [record|e]; [|done].
  destruct Hc as (u & g & -> & Hlu & Hlg & Hv & Hf). by split_and!.
Qed.

(** The release barrier.  [finish_release] removes a lease only if the
    ledger holds that very incarnation in the [Releasing] state; then exactly
    that lease is gone.  Against any other record under the token, or none, it
    fails and the ledger reads as before: a stale caller frees nothing. *)
Theorem finish_release_is_guarded e (a : SubidAllocator St) r a' :
  ledger_ok (store a) → finish_release e a = (r, a') →
  (is_ok r = true →
     view (store a') (lease_id e) = None
     ∧ ∀ id, id ≠ lease_id e → view (store a') id = view (store a) id)
  ∧ ((¬ ∃ c, view (store a) (lease_id e) = Some c ∧ sandbox_id c = sandbox_id e
         ∧ owner c = owner e ∧ uid c = uid e ∧ gid c = gid e ∧ state c = Releasing) →
     is_ok r = false ∧ ∀ id, view (store a') id = view (store a) id).
Proof.
  intros Hok Hl. apply remove_expected_steps in Hl as (_ & Hu & Hc); [|by auto..].
  split; [done|]. intros Hno. destruct Hc as [[Hf [_ Hv]]|(c & Hv & Hi & Hst)]; [done|].
  destruct Hno. exists c. apply same_incarnation_spec in Hi as (_ & ? & ? & ? & ?). done.
Qed.

(** What must hold of an operation for it to leave the lease [c] readable: a
    claim draws another token, a quarantine writes a reason that can be read
    back. *)
Definition spares (c : LeaseRecord) (o : op) : Prop :=
  match o with
  | OpClaim token _ _ _ => new_lease_id token ≠ lease_id c
  | OpQuarantine _ reason => stored (with_quarantine_reason c reason) ≠ None
  | OpReconcile _ _ => False
  | _ => True
  end.

Lemma step_keeps l (v v' : lview) c :
  lease_step l v v' → v (lease_id c) = Some c → state c = Active ∨ state c = Quarantined →
  l ≠ LClaim (lease_id c) →
  (∀ reason, l = LQuarantine reason → stored (with_quarantine_reason c reason) ≠ None) →
  ∃ c', v' (lease_id c) = Some c' ∧ same_incarnation c' c = true
    ∧ (c' = c ∨ moves (state c) (state c') = true).
Proof.
  intros Hs Hv Hst Hpub Hsp.
  assert (Hkeep : v' (lease_id c) = v (lease_id c) → ∃ c', v' (lease_id c) = Some c'
    ∧ same_incarnation c' c = true ∧ (c' = c ∨ moves (state c) (state c') = true)).
  { intros Heq. exists c. rewrite Heq. split_and!; [done| |by left]. by apply same_incarnation_spec. }
  assert (Hother : ∀ lid o, updates v lid o v' → lease_id c ≠ lid → v' (lease_id c) = v (lease_id c))
    by (intros lid o [_ Ho] Hn; by apply Ho).
  destruct Hs as [Hk|r Hl _ _ _ Hu|r r' Hr Hi Hm Hu|r Hr Hf Hu|r reason Hl Hr Hno Hu];
    [by apply Hkeep|..]; (destruct (decide (lease_id c = lease_id r)) as [Heq|Hn]; [|by eauto]).
  - by rewrite <-Heq in Hl.
  - exists r'. rewrite <-Heq in Hr. simplify_eq. split_and!; [apply Hu|done|by right].
  - rewrite <-Heq in Hr. simplify_eq. intuition congruence.
  - rewrite <-Heq in Hr. simplify_eq. by destruct (Hsp reason).
Qed.

(** A lease in use is never taken away.  Whatever another operation does,
    however it fails, an [Active] or [Quarantined] lease keeps its sandbox,
    owner, UID and GID; its state is unchanged or moved along
    [Active -> Releasing] or to [Quarantined].  (A claim under a new random
    token; a quarantine reason that can be read back.) *)
Theorem live_lease_survives o (a : SubidAllocator St) c :
  ledger_ok (store a) → valid_op o → spares c o →
  view (store a) (lease_id c) = Some c → state c = Active ∨ state c = Quarantined →
  ∃ c', view (store (run o a)) (lease_id c) = Some c'
    ∧ sandbox_id c' = sandbox_id c ∧ owner c' = owner c ∧ uid c' = uid c ∧ gid c' = gid c
    ∧ (c' = c ∨ moves (state c) (state c') = true).
Proof.
  intros Hok Hv Hsp Hc Hst.
  destruct (run_steps_once o a) as [_ Hs]; [done..|by intros ?? ->|].
  apply (step_keeps _ _ _ c) in Hs as (c' & Hc' & Hi & Hm); [|done..| |].
  - exists c'. apply same_incarnation_spec in Hi as (_ & ? & ? & ? & ?). done.
  - destruct o; simpl in *; congruence.
  - destruct o; simpl in *; congruence.
Qed.

(** Startup reconciliation does to every lease what the decision table
    says and to nothing else: a lease is freed only if its sandbox is absent and
    it was [Reserved], or [Releasing] with the runtime proven clean; it is kept
    if its owner agrees; otherwise it is quarantined.  The report lists exactly
    those decisions, in sandbox order of the scan. *)
Theorem reconcile_follows_the_table lookup proof (a : SubidAllocator St) t a' :
  ledger_ok (store a) → (∀ sb v, lookup sb = Ok v → ascii_view v) →
  reconcile lookup proof a = (Ok t, a') →
  ∃ records,
    (∀ x, x ∈ records ↔ view (store a) (lease_id x) = Some x)
    ∧ (∀ x, x ∈ records →
        view (store a') (lease_id x) = outcome x (verdict proof x (found lookup x)))
    ∧ (∀ id, view (store a) id = None → view (store a') id = None)
    ∧ t = foldl (fun t x => tally t x (verdict proof x (found lookup x)))
            (MkReport [] [] [] []) records.
Proof.
  intros Hok Hasc Hr. apply reconcile_steps in Hr as (_ & _ & Hc); [|done..].
  destruct (Hc t eq_refl) as (records & Hrec & Hin & Hout & Ht). exists records.
  split_and!; [done|intros x Hx; by apply Hin|done..].
Qed.
End system.

(** ** On disk *)

Section disk.
Context `{TomlCrate} `{UnicodeTables} `{Host}.

(** A lease file that is too large to read stops every scan. *)
Lemma unreadable_blocks_load lid mode u data (b : SubidAllocator world) :
  valid_lease_id lid = true → MAX_RECORD_BYTES < str_len data →
  LeaseStore.entry (w_root (store b)) (file_name_of lid) = Some (NFile mode u data) →
  is_ok (load b).1 = false.
Proof.
  intros Hv Hlen He. destruct (load b) as [[rs|]b'] eqn:Hl; [|done]. exfalso. unfold load in Hl.
  apply bind_Ok in Hl as (rs' & b1 & Hs & _). apply on_store_inv in Hs as (r0 & Hs & Hr & _).
  destruct r0 as [rs0|]; [|done].
  apply (LeaseStore.load_reads_all _ _ _ lid) in Hs as [x Hx]; [|done|by rewrite He].
  unfold LeaseStore.record_at in Hx. rewrite He in Hx. simpl in Hx. unfold decode in Hx.
  apply Z.ltb_lt in Hlen. rewrite Hlen in Hx. discriminate Hx.
Qed.

Lemma unreadable_blocks_claim lid mode u data (b : SubidAllocator world) token sandbox own d :
  LeaseStore.tree_ok (w_root (store b)) →
  valid_lease_id lid = true → MAX_RECORD_BYTES < str_len data →
  LeaseStore.entry (w_root (store b)) (file_name_of lid) = Some (NFile mode u data) →
  is_ok (claim token sandbox own d b).1 = false.
Proof.
  intros Hok Hv Hlen He. destruct (claim token sandbox own d b) as [[r|]b'] eqn:Hc; [|done].
  exfalso. unfold claim in Hc. apply bind_Ok in Hc as (x1 & b1 & Hg & Hc).
  apply on_store_inv in Hg as (r1 & Hg & _).
  apply (ro_root _ _ _ _ LeaseStore.read_only_lock) in Hg.
  apply bind_Ok in Hc as (x2 & b2 & Hs & Hc). apply on_store_inv in Hs as (r2 & Hs & _).
  pose proof (LeaseStore.remove_stale_temps_entries (w_root (store b1))
    ltac:(by rewrite Hg) (store b1) eq_refl) as [_ Hent].
  simpl in Hs. rewrite Hs in Hent. simpl in Hent.
  apply bind_Ok in Hc as (rs & b3 & Hl & _).
  pose proof (unreadable_blocks_load lid mode u data b2 Hv Hlen) as Hb.
  rewrite Hl in Hb. discriminate Hb. by rewrite Hent, Hg.
Qed.

(** A defect of the code: quarantining a lease with a reason of more than
    4096 bytes, for example a long error report about a corrupt sandbox,
    reports success and makes the whole ledger unreadable: the stored record
    exceeds the size limit of the reader, so that from then on every scan, and
    with it every claim of every sandbox, fails. *)
Theorem long_quarantine_reason_blocks_the_ledger e reason (a a' b : SubidAllocator world)
    token sandbox own d :
  LeaseStore.tree_ok (w_root (store a)) →
  str_all plain_char reason = true → MAX_RECORD_BYTES < str_len reason →
  quarantine e reason a = (Ok tt, a') →
  w_root (store b) = w_root (store a') →
  is_ok (load b).1 = false ∧ is_ok (claim token sandbox own d b).1 = false.
Proof.
  intros Hok Hpl Hlen Hq Hb. unfold quarantine in Hq.
  apply bind_Ok in Hq as (u & a1 & Hg & Hq). apply guard_reads in Hg as [Hg _]; [|done].
  apply bind_Ok in Hq as (c & a2 & Hc & Hq).
  apply current_reads in Hc as (Hc & _ & Hcur); [|apply Hg].
  destruct (Hcur c eq_refl) as [Hv _]. destruct (view_wf _ _ _ Hv) as [Hwf _].
  apply bind_Ok in Hq as (u' & a3 & Hw & Hq).
  assert (Hok3 : ledger_ok (store a3)).
  { apply write_step in Hw as [Hw _]; [done|apply Hc|apply Hwf]. }
  apply on_store_inv in Hw as (r0 & Hw & Hr0 & _). destruct r0 as [u0|]; [|done].
  set (q := with_quarantine_reason c reason) in *.
  apply LeaseStore.write_entry in Hw; [|apply Hwf|apply Hc].
  assert (Hroot : w_root (store b) = w_root (store a3)).
  { rewrite Hb. unfold set_pending in Hq. unfold_monad. by simplify_eq. }
  rewrite <-Hroot in Hw. pose proof (oversized_encode q reason eq_refl Hpl Hlen) as Ho.
  split; [by apply (unreadable_blocks_load (lease_id q) 384 euid (encode q)); [apply Hwf|..]|].
  apply (unreadable_blocks_claim (lease_id q) 384 euid (encode q)); [|apply Hwf|done..].
  by rewrite Hroot.
Qed.
End disk.

(** ** A run of two daemons over one directory *)

#[local] Existing Instance sample_host.

Definition fp : string := "SHA256:AAAAAAAAAAAAAAAAAAAAAAAAAAAAAAAAAAAAAAAAAAA".
Definition two_ids : Delegation := MkDelegation [MkRange 100000 2] [MkRange 200000 2].
Definition empty_ledger : world := MkWorld (Some (NDir 448 1000 [])) [] None 0.

Definition claim_dev : op := OpClaim 1 "dev" fp two_ids.
Definition claim_web : op := OpClaim 2 "web" fp two_ids.

Definition after_dev : SubidAllocator world := run claim_dev (new empty_ledger).
Definition after_web : SubidAllocator world := run claim_web (MkAllocator (store after_dev) ∅ ∅).

Definition dev_lease : LeaseRecord :=
  MkLease (new_lease_id 1) "dev" fp 100000 200000 Active None.
Definition web_lease : LeaseRecord :=
  MkLease (new_lease_id 2) "web" fp 100001 200001 Active None.

(** The second daemon, which has never loaded the ledger, gets the next pair. *)
Example two_claims :
  (claim 1 "dev" fp two_ids (new empty_ledger)).1 = Ok dev_lease
  ∧ (claim 2 "web" fp two_ids (MkAllocator (store after_dev) ∅ ∅)).1 = Ok web_lease.
Proof. vm_compute. done. Qed.

(** The whole life of a lease; its pair is the next one to be leased. *)
Example lease_lifecycle :
  let '(_, a1) := activate dev_lease after_dev in
  let '(r2, a2) := begin_release dev_lease a1 in
  let '(r3, a3) := finish_release dev_lease a2 in
  r2 = Ok tt ∧ r3 = Ok tt
  ∧ (claim 3 "web" fp two_ids a3).1
    = Ok (MkLease (new_lease_id 3) "web" fp 100000 200000 Active None).
Proof. vm_compute. done. Qed.

Lemma dev_grammar : Id.grammar "dev".
Proof. apply (Id.parse_ok "dev" "dev"). reflexivity. Defined.

Lemma web_grammar : Id.grammar "web".
Proof. apply (Id.parse_ok "web" "web"). reflexivity. Defined.

Lemma two_ids_wf : Forall range_wf (uid_ranges two_ids) ∧ Forall range_wf (gid_ranges two_ids).
Proof.
  split; (apply Forall_cons; split; [unfold range_wf, Delegation.end_; simpl; lia|]);
    apply Forall_nil; exact I.
Defined.

Lemma claim_dev_valid : valid_op claim_dev.
Proof.
  split_and!; [lia|exact dev_grammar|reflexivity|apply two_ids_wf|apply two_ids_wf].
Defined.

Lemma claim_web_valid : valid_op claim_web.
Proof.
  split_and!; [lia|exact web_grammar|reflexivity|apply two_ids_wf|apply two_ids_wf].
Defined.

Lemma empty_ledger_ok : ledger_ok empty_ledger.
Proof. apply NoDup_nil. exact I. Defined.

Lemma empty_ledger_unique : unique (view empty_ledger).
Proof. intros id1 id2 r1 r2 Hv. discriminate Hv. Defined.

Definition sys0 : system := MkSystem empty_ledger [(∅, ∅); (∅, ∅)].
Definition sys1 : system :=
  MkSystem (store after_dev)
    (<[0%nat := (lease_ids after_dev, pending_activations after_dev)]> (procs sys0)).
Definition sys2 : system :=
  MkSystem (store after_web)
    (<[1%nat := (lease_ids after_web, pending_activations after_web)]> (procs sys1)).

Lemma two_claims_run : rtc sys_step sys0 sys2.
Proof.
  apply (rtc_l _ _ sys1);
    [exact (sys_op sys0 0%nat ∅ ∅ claim_dev after_dev eq_refl claim_dev_valid eq_refl)|].
  apply (rtc_l _ _ sys2); [|apply rtc_refl].
  exact (sys_op sys1 1%nat ∅ ∅ claim_web after_web eq_refl claim_web_valid eq_refl).
Defined.

Lemma ids_never_shared_witness :
  uid dev_lease ≠ uid web_lease ∧ gid dev_lease ≠ gid web_lease
  ∧ sandbox_id dev_lease ≠ sandbox_id web_lease.
Proof.
  apply (ids_never_shared sys0 sys2 (new_lease_id 1) (new_lease_id 2) dev_lease web_lease
    empty_ledger_ok empty_ledger_unique two_claims_run).
  - vm_compute. reflexivity.
  - vm_compute. reflexivity.
  - vm_compute. discriminate.
Defined.

Lemma claim_leases_least_free_pair_witness :
  view (store (claim 1 "dev" fp two_ids (new empty_ledger)).2) (new_lease_id 1) = Some dev_lease.
Proof.
  destruct (claim 1 "dev" fp two_ids (new empty_ledger)) as [r a'] eqn:Hc.
  pose proof (claim_leases_least_free_pair 1 "dev" fp two_ids (new empty_ledger) r a'
    ltac:(lia) dev_grammar eq_refl (proj1 two_ids_wf) (proj2 two_ids_wf) empty_ledger_ok Hc) as Ht.
  assert (Hr : (claim 1 "dev" fp two_ids (new empty_ledger)).1 = Ok dev_lease)
    by (vm_compute; reflexivity).
  rewrite Hc in Hr. simpl in Hr. subst r. apply Ht.
Defined.

Lemma finish_release_is_guarded_witness :
  is_ok (finish_release dev_lease after_dev).1 = false
  ∧ view (store (finish_release dev_lease after_dev).2) (lease_id dev_lease) = Some dev_lease.
Proof.
  assert (Hd : view (store after_dev) (lease_id dev_lease) = Some dev_lease)
    by (vm_compute; reflexivity).
  destruct (finish_release dev_lease after_dev) as [r a'] eqn:Hf.
  destruct (finish_release_is_guarded dev_lease after_dev r a') as [_ Hsame].
  - apply (run_refines claim_dev (new empty_ledger) claim_dev_valid empty_ledger_ok).
  - exact Hf.
  - destruct Hsame as [Hr Hv].
    + intros (c & Hc & _ & _ & _ & _ & Hst). rewrite Hd in Hc. injection Hc as <-. discriminate Hst.
    + split; [exact Hr|]. rewrite <-Hd. apply Hv.
Defined.

Lemma live_lease_survives_witness :
  ∃ c', view (store after_web) (lease_id dev_lease) = Some c' ∧ uid c' = 100000.
Proof.
  destruct (live_lease_survives claim_web (MkAllocator (store after_dev) ∅ ∅) dev_lease)
    as (c' & Hv & _ & _ & Hu & _).
  - apply (run_refines claim_dev (new empty_ledger) claim_dev_valid empty_ledger_ok).
  - exact claim_web_valid.
  - vm_compute. discriminate.
  - vm_compute. reflexivity.
  - left. reflexivity.
  - exists c'. split; [exact Hv|exact Hu].
Defined.

Lemma reconcile_follows_the_table_witness :
  ∃ t a', reconcile (fun _ => Ok None) true after_dev = (Ok t, a')
  ∧ ∃ records, t = foldl (fun t x => tally t x (verdict true x None)) (MkReport [] [] [] []) records.
Proof.
  destruct (reconcile (fun _ => Ok None) true after_dev) as [r a'] eqn:Hr.
  assert (Hok : is_ok (reconcile (fun _ => Ok None) true after_dev).1 = true)
    by (vm_compute; reflexivity).
  rewrite Hr in Hok. destruct r as [t|]; [|discriminate Hok].
  exists t, a'. split; [reflexivity|].
  destruct (reconcile_follows_the_table (fun _ => Ok None) true after_dev t a')
    as (records & _ & _ & _ & Ht); [| |exact Hr|].
  - apply (run_refines claim_dev (new empty_ledger) claim_dev_valid empty_ledger_ok).
  - intros sb v Hv. injection Hv as <-. exact I.
  - exists records. exact Ht.
Defined.

Definition long_reason : string := String.concat EmptyString (replicate 410 "corrupt - ").

Lemma long_quarantine_reason_blocks_the_ledger_witness :
  (quarantine dev_lease long_reason after_dev).1 = Ok tt
  ∧ is_ok (claim 3 "new" fp two_ids (quarantine dev_lease long_reason after_dev).2).1 = false.
Proof.
  assert (Hq : (quarantine dev_lease long_reason after_dev).1 = Ok tt)
    by (vm_compute; reflexivity).
  split; [exact Hq|].
  destruct (quarantine dev_lease long_reason after_dev) as [r a'] eqn:He. simpl in Hq. subst r.
  apply (long_quarantine_reason_blocks_the_ledger dev_lease long_reason after_dev a' a').
  - apply (run_refines claim_dev (new empty_ledger) claim_dev_valid empty_ledger_ok).
  - vm_compute. reflexivity.
  - vm_compute. reflexivity.
  - exact He.
  - reflexivity.
Defined.
End AllocatorSafety.
