(* ===== verification/RuntimeSafety.v ===== *)
(** * The manager's ledger under concurrency

    Threads of the daemon interleave at the ledger's mutex; operations on one
    sandbox are serialised by its lifecycle lock.  [step] is one critical
    section of one thread; the invariants hold after any number of them. *)

From stdpp Require Import relations.
From S2P Require Import Prelude BTree Text Toml Idents Metadata Delegation FileSystem Storage LeaseRecord Allocator RuntimeLedger.

Module RuntimeSafety.
Import RuntimeLedger.

(** ** Counting records by owner *)

Definition owned (o : string) (rs : list (string * Metadata.t)) : Z :=
  Z.of_nat (length (filter (fun b => Metadata.owner b.2 = o) rs)).

Definition one_if (b : bool) : Z := if b then 1 else 0.

Lemma owned_perm o rs rs' : rs ≡ₚ rs' → owned o rs = owned o rs'.
Proof. intros Hp. unfold owned. by rewrite Hp. Qed.

Lemma owned_cons o b rs :
  owned o (b :: rs) = owned o rs + one_if (bool_decide (Metadata.owner b.2 = o)).
Proof.
  unfold owned. rewrite filter_cons. case_decide; [rewrite bool_decide_true by done|
    rewrite bool_decide_false by done]; simpl; lia.
Qed.

Lemma owned_nonneg o rs : 0 <= owned o rs.
Proof. unfold owned. lia. Qed.

Lemma owned_remove o id m rs :
  bt_get id rs = Some m →
  owned o rs = owned o (bt_remove id rs) + one_if (bool_decide (Metadata.owner m = o)).
Proof. intros Hg. rewrite (owned_perm _ _ _ (bt_remove_perm _ _ _ Hg)). by rewrite owned_cons. Qed.

Lemma owned_insert_new o id m rs :
  sorted rs → bt_get id rs = None →
  owned o (bt_insert id m rs) = owned o rs + one_if (bool_decide (Metadata.owner m = o)).
Proof.
  intros Hs Hg. rewrite (owned_perm _ _ _ (bt_insert_perm _ _ _ Hs)), owned_cons.
  by rewrite (bt_remove_absent _ _ Hg).
Qed.

Lemma owned_insert_same o id m m0 rs :
  sorted rs → bt_get id rs = Some m0 → Metadata.owner m = Metadata.owner m0 →
  owned o (bt_insert id m rs) = owned o rs.
Proof.
  intros Hs Hg Ho. rewrite (owned_perm _ _ _ (bt_insert_perm _ _ _ Hs)), owned_cons.
  rewrite (owned_remove _ _ _ _ Hg). simpl. by rewrite Ho.
Qed.

(** ** The owners' counters *)

Abbreviation count_of c o := (default 0 ((c : gmap string Z) !! (o : string))).

Definition positive (c : gmap string Z) : Prop := ∀ o n, c !! o = Some n → 0 < n.

Lemma increment_count c o' o :
  count_of (increment_owner c o') o = count_of c o + one_if (bool_decide (o' = o)).
Proof.
  unfold increment_owner. case_bool_decide; [subst; by rewrite lookup_insert_eq|].
  rewrite lookup_insert_ne by done. simpl. lia.
Qed.

Lemma count_nonneg c o : positive c → 0 <= count_of c o.
Proof. intros Hp. destruct (c !! o) eqn:Hc; simpl; [|lia]. apply Hp in Hc. lia. Qed.

Lemma increment_positive c o : positive c → positive (increment_owner c o).
Proof.
  intros Hp o' n. unfold increment_owner. destruct (decide (o = o')) as [->|].
  - rewrite lookup_insert_eq. intros [= <-]. pose proof (count_nonneg c o' Hp). lia.
  - rewrite lookup_insert_ne by done. apply Hp.
Qed.

Lemma decrement_count c o' o :
  positive c → 0 < count_of c o' →
  count_of (decrement_owner c o') o = count_of c o - one_if (bool_decide (o' = o)).
Proof.
  intros Hp Hpos. unfold decrement_owner. destruct (c !! o') as [n|] eqn:Hc; simpl in Hpos; [|lia].
  destruct (n - 1 =? 0) eqn:Hn; bool_to_prop; case_bool_decide as Ho; subst.
  - rewrite lookup_delete_eq, Hc. simpl. lia.
  - rewrite lookup_delete_ne by done. simpl. lia.
  - rewrite lookup_insert_eq, Hc. simpl. lia.
  - rewrite lookup_insert_ne by done. simpl. lia.
Qed.

Lemma decrement_positive c o : positive c → positive (decrement_owner c o).
Proof.
  intros Hp o' n. unfold decrement_owner. destruct (c !! o) as [k|] eqn:Hc; [|apply Hp].
  apply Hp in Hc as Hk. destruct (k - 1 =? 0) eqn:Hn; bool_to_prop; destruct (decide (o = o')) as [->|].
  - by rewrite lookup_delete_eq.
  - rewrite lookup_delete_ne by done. apply Hp.
  - rewrite lookup_insert_eq. intros [= <-]. lia.
  - rewrite lookup_insert_ne by done. apply Hp.
Qed.

Section registry.
Context {P : Type}.
Implicit Types l : Ledger P.

(** ** The runtime registry and its index *)

Definition index_of l (id : string) : gset Z := default ∅ (runtime_by_sandbox l !! id).

Record indexed l : Prop := MkIndexed {
  ix_mirror : ∀ id t, t ∈ index_of l id ↔ ∃ e, runtime l !! t = Some e ∧ sandbox_id e = id;
  ix_nonempty : ∀ id, runtime_by_sandbox l !! id ≠ Some ∅;
}.

Lemma index_insert l id t e :
  sandbox_id e = id → index_of (insert_runtime t e l) id = {[t]} ∪ index_of l id.
Proof. intros <-. unfold index_of, insert_runtime. simpl. by rewrite lookup_insert_eq. Qed.

Lemma index_insert_ne l id t e :
  sandbox_id e ≠ id → index_of (insert_runtime t e l) id = index_of l id.
Proof. intros Hne. unfold index_of, insert_runtime. simpl. by rewrite lookup_insert_ne. Qed.

Lemma indexed_insert l t e :
  indexed l → runtime l !! t = None → indexed (insert_runtime t e l).
Proof.
  intros [Hm Hn] Hf. split.
  - intros id t'. destruct (decide (sandbox_id e = id)) as [Hid|Hid].
    + rewrite index_insert by done. rewrite elem_of_union, elem_of_singleton, Hm. simpl.
      destruct (decide (t = t')) as [->|]; [rewrite lookup_insert_eq|rewrite lookup_insert_ne by done];
        naive_solver.
    + rewrite index_insert_ne by done. rewrite Hm. simpl.
      destruct (decide (t = t')) as [->|]; [rewrite lookup_insert_eq|rewrite lookup_insert_ne by done];
        naive_solver.
  - intros id. simpl. destruct (decide (sandbox_id e = id)) as [<-|].
    + rewrite lookup_insert_eq. intros [= He]. set_solver.
    + by rewrite lookup_insert_ne.
Qed.

Lemma remove_runtime_spec l t l' o :
  indexed l → remove_runtime t l = (o, l') →
  o = runtime l !! t
  ∧ runtime l' = delete t (runtime l)
  ∧ (∀ id, index_of l' id = index_of l id ∖ {[t]})
  ∧ (∀ id, runtime_by_sandbox l' !! id ≠ Some ∅)
  ∧ l' = set_runtime (runtime l') (runtime_by_sandbox l') l.
Proof.
  intros [Hm Hn]. unfold remove_runtime. destruct (runtime l !! t) as [e|] eqn:Ht.
  2:{ intros [= <- <-]. rewrite delete_id by done. split_and!; [done..| |done|by destruct l].
      intros id. apply set_eq. intros x. rewrite elem_of_difference, elem_of_singleton, Hm.
      naive_solver. }
  intros [= <- <-]. simpl.
  assert (Hin : t ∈ index_of l (sandbox_id e)) by (apply Hm; eauto).
  unfold index_of in *. destruct (runtime_by_sandbox l !! sandbox_id e) as [ts|] eqn:Hts;
    simpl in Hin; [|set_solver].
  assert (Hother : ∀ id, id ≠ sandbox_id e →
    default ∅ (runtime_by_sandbox l !! id) = default ∅ (runtime_by_sandbox l !! id) ∖ {[t]}).
  { intros id Hid. apply set_eq. intros x. rewrite elem_of_difference, elem_of_singleton.
    split; [|naive_solver]. intros Hx. split; [done|]. intros ->.
    apply Hm in Hx as (e' & He' & Hs). congruence. }
  split_and!; [done|done|..|done].
  - intros id. destruct (decide (id = sandbox_id e)) as [->|Hid].
    + rewrite Hts. simpl. case_bool_decide as He.
      * by rewrite lookup_delete_eq.
      * by rewrite lookup_insert_eq.
    + rewrite <-(Hother id Hid). case_bool_decide as He; simpl.
      * by rewrite lookup_delete_ne.
      * by rewrite lookup_insert_ne.
  - intros id. destruct (decide (id = sandbox_id e)) as [->|Hid]; case_bool_decide as He; simpl.
    + by rewrite lookup_delete_eq.
    + rewrite lookup_insert_eq. congruence.
    + by rewrite lookup_delete_ne.
    + by rewrite lookup_insert_ne.
Qed.

Lemma indexed_remove l t : indexed l → indexed (remove_runtime t l).2.
Proof.
  intros Hix. destruct (remove_runtime t l) as [o l'] eqn:Hr.
  destruct (remove_runtime_spec _ _ _ _ Hix Hr) as (_ & Hrt & Hidx & Hne & _).
  split; [|done]. intros id x. simpl. rewrite Hidx, Hrt.
  rewrite elem_of_difference, elem_of_singleton, (ix_mirror _ Hix).
  destruct (decide (t = x)) as [->|].
  - rewrite lookup_delete_eq. naive_solver.
  - rewrite lookup_delete_ne by done. naive_solver.
Qed.

(** Entries replaced in place, with their sandboxes. *)
Lemma indexed_update l r :
  indexed l → (∀ t, sandbox_id <$> r !! t = sandbox_id <$> runtime l !! t) →
  indexed (set_runtime r (runtime_by_sandbox l) l).
Proof.
  intros [Hm Hn] Hs. split; [|done]. intros id t.
  change (index_of (set_runtime r (runtime_by_sandbox l) l) id) with (index_of l id).
  rewrite Hm. simpl. specialize (Hs t).
  destruct (r !! t) as [e|], (runtime l !! t) as [e'|]; simplify_eq/=; naive_solver.
Qed.
(** [l'] differs from [l] in the runtime registry only. *)
Definition books_kept l l' : Prop :=
  l' = set_runtime (runtime l') (runtime_by_sandbox l') l.

Lemma books_kept_refl l : books_kept l l.
Proof. by destruct l. Qed.

Lemma books_kept_trans l1 l2 l3 : books_kept l1 l2 → books_kept l2 l3 → books_kept l1 l3.
Proof. unfold books_kept. intros H12 H23. rewrite H23, H12. by destruct l1. Qed.

Lemma drop_tokens_spec ts : ∀ l l' ps,
  indexed l → drop_tokens ts l = (l', ps) →
  indexed l' ∧ books_kept l l'
  ∧ (∀ t, runtime l' !! t = if bool_decide (t ∈ ts) then None else runtime l !! t)
  ∧ (∀ t e p, t ∈ ts → runtime l !! t = Some e → process e = Some p → p ∈ ps).
Proof.
  induction ts as [|t ts IH]; intros l l' ps Hix; simpl.
  { intros [= <- <-]. split_and!; [done|apply books_kept_refl|done|]. intros ??? []%not_elem_of_nil. }
  destruct (remove_runtime t l) as [o l1] eqn:Hr.
  pose proof (indexed_remove l t Hix) as Hix1. rewrite Hr in Hix1. simpl in Hix1.
  destruct (remove_runtime_spec _ _ _ _ Hix Hr) as (Ho & Hrt & _ & _ & Hk).
  destruct o as [e|].
  - destruct (drop_tokens ts l1) as [l2 qs] eqn:Hd. intros [= <- <-].
    destruct (IH _ _ _ Hix1 Hd) as (Hix2 & Hk2 & Hl & Hp). split_and!; [done| |..].
    + by eapply books_kept_trans.
    + intros x. rewrite Hl, Hrt. case_bool_decide as Hin.
      * by rewrite bool_decide_true by set_solver.
      * destruct (decide (x = t)) as [->|]; [rewrite lookup_delete_eq|rewrite lookup_delete_ne by done];
          [by rewrite bool_decide_true by set_solver|by rewrite bool_decide_false by set_solver].
    + intros x e' p Hx He Hp'. destruct (decide (x = t)) as [->|Hne].
      * rewrite <-Ho in He. simplify_eq. rewrite Hp'. left.
      * assert (p ∈ qs); [|by destruct (process e); [right|]].
        apply (Hp x e'); [set_solver| |done]. by rewrite Hrt, lookup_delete_ne.
  - intros Hd. destruct (IH _ _ _ Hix Hd) as (Hix2 & Hk2 & Hl & Hp). split_and!; [done..| |].
    + intros x. rewrite Hl. repeat case_bool_decide; set_solver.
    + intros x e' p [->|Hx]%elem_of_cons He Hp'; [congruence|]. by eapply Hp.
Qed.

Lemma remove_record_spec l id l' ps :
  indexed l → remove_record_from_ledger id l = (l', ps) →
  indexed l' ∧ records l' = bt_remove id (records l) ∧ blocked l' = blocked l
  ∧ owner_counts l' = match bt_get id (records l) with
                      | Some m => decrement_owner (owner_counts l) (Metadata.owner m)
                      | None => owner_counts l
                      end
  ∧ reserved_sandboxes l' = reserved_sandboxes l ∧ next_token l' = next_token l
  ∧ (∀ t, runtime l' !! t = match runtime l !! t with
                            | Some e => if bool_decide (sandbox_id e = id) then None else Some e
                            | None => None
                            end)
  ∧ (∀ t e p, runtime l !! t = Some e → sandbox_id e = id → process e = Some p → p ∈ ps).
Proof.
  intros Hix. unfold remove_record_from_ledger.
  set (l1 := match bt_get id (records l) with Some _ => _ | None => _ end).
  assert (H1 : indexed l1 ∧ runtime l1 = runtime l ∧ index_of l1 id = index_of l id
    ∧ records l1 = bt_remove id (records l) ∧ blocked l1 = blocked l
    ∧ owner_counts l1 = match bt_get id (records l) with
                        | Some m => decrement_owner (owner_counts l) (Metadata.owner m)
                        | None => owner_counts l
                        end
    ∧ reserved_sandboxes l1 = reserved_sandboxes l ∧ next_token l1 = next_token l).
  { subst l1. destruct (bt_get id (records l)) eqn:Hg.
    - split; [by destruct Hix|]. done.
    - split; [done|]. by rewrite bt_remove_absent. }
  clearbody l1. destruct H1 as (Hix1 & Hr1 & Hi1 & H1). intros Hd.
  destruct (drop_tokens_spec _ _ _ _ Hix1 Hd) as (Hix2 & Hk & Hl & Hp).
  assert (Htok : ∀ t, t ∈ runtime_tokens_for l1 id ↔ ∃ e, runtime l !! t = Some e ∧ sandbox_id e = id).
  { intros t. unfold runtime_tokens_for. rewrite elem_of_elements. rewrite <-Hr1. apply Hix1. }
  split; [done|]. destruct H1 as (H1 & H2 & H3 & H4 & H5).
  rewrite Hk. simpl. split_and!; [done..| |].
  - intros t. rewrite Hl, Hr1. destruct (runtime l !! t) as [e|] eqn:Ht.
    + rewrite (bool_decide_ext _ (sandbox_id e = id)); [done|]. rewrite Htok, Ht. naive_solver.
    + by case_bool_decide.
  - intros t e p Ht Hs Hpr. apply (Hp t e); [apply Htok; eauto|by rewrite Hr1|done].
Qed.
(** ** Live launches *)

Record registry_ok (caps : Caps) l : Prop := MkRegistry {
  rg_indexed : indexed l;
  rg_launches : ∀ id, Z.of_nat (size (index_of l id)) <= Z.max 0 (max_concurrent_launches_per_sandbox caps);
  rg_next : 0 <= next_token l < 2 ^ 64;
  rg_tokens : ∀ t e, runtime l !! t = Some e → 0 < t < 2 ^ 64;
}.

(** Entries disappear, or change in place. *)
Lemma registry_shrink caps l l' :
  registry_ok caps l → indexed l' → next_token l' = next_token l →
  (∀ t e', runtime l' !! t = Some e' →
     ∃ e, runtime l !! t = Some e ∧ sandbox_id e = sandbox_id e') →
  registry_ok caps l'.
Proof.
  intros [Hix Hln Hnx Htk] Hix' Hn Hsub. split; [done| |by rewrite Hn|].
  - intros id. etrans; [|apply (Hln id)]. apply inj_le, subseteq_size. intros t Ht.
    apply Hix' in Ht as (e' & He' & <-). apply Hsub in He' as (e & He & Hs).
    apply Hix. eauto.
  - intros t e' He'. apply Hsub in He' as (e & He & _). by eapply Htk.
Qed.

(** The keys one turn of the loop after the other tries. *)
Fixpoint tried (n : nat) (next : Z) : list Z :=
  match n with
  | O => []
  | S n' => wrap_u64 (next + 1) :: tried n' (wrap_u64 (next + 1))
  end.

Lemma wrap_wrap a b : wrap_u64 (wrap_u64 a + b) = wrap_u64 (a + b).
Proof. unfold wrap_u64. by rewrite Zplus_mod_idemp_l. Qed.

Lemma elem_of_tried n next x :
  x ∈ tried n next ↔ ∃ k, 1 <= k <= Z.of_nat n ∧ x = wrap_u64 (next + k).
Proof.
  revert next. induction n as [|n IH]; intros next; cbn [tried].
  { rewrite elem_of_nil. split; [done|]. intros (k & ? & _). lia. }
  rewrite elem_of_cons, IH. setoid_rewrite wrap_wrap. split.
  - intros [->|(k & Hk & ->)]; [exists 1|exists (1 + k)]; (split; [lia|f_equal; lia]).
  - intros (k & Hk & ->). destruct (decide (k = 1)) as [->|]; [by left|right].
    exists (k - 1). split; [lia|f_equal; lia].
Qed.

Lemma wrap_inj a b : wrap_u64 a = wrap_u64 b → Z.abs (a - b) < 2 ^ 64 → a = b.
Proof.
  unfold wrap_u64. intros He Hb.
  pose proof (Z.div_mod a (2 ^ 64) ltac:(lia)). pose proof (Z.div_mod b (2 ^ 64) ltac:(lia)). nia.
Qed.

Lemma tried_NoDup n next : Z.of_nat n <= 2 ^ 64 → NoDup (tried n next).
Proof.
  revert next. induction n as [|n IH]; intros next Hn; cbn [tried]; constructor; [|apply IH; lia].
  rewrite elem_of_tried. intros (k & Hk & Heq). rewrite wrap_wrap in Heq.
  apply wrap_inj in Heq; lia.
Qed.

Definition usable (r : gmap Z (RuntimeEntry P)) (t : Z) : Prop := t ≠ 0 ∧ r !! t = None.

#[local] Instance usable_dec r t : Decision (usable r t).
Proof. unfold usable. apply _. Defined.

Lemma next_loop_first fuel next r :
  (∃ t, t ∈ tried (S fuel) next ∧ usable r t) → usable r (next_loop fuel next r).
Proof.
  revert next. induction fuel as [|fuel IH]; intros next (t & Ht & Hu); cbn [next_loop].
  all: destruct (negb _ && _) eqn:Hb; [bool_to_prop; done|].
  all: apply elem_of_cons in Ht as [->|Ht];
    [destruct Hu; apply andb_false_iff in Hb as [Hb|Hb]; by bool_to_prop|].
  - by apply elem_of_nil in Ht.
  - apply IH. eauto.
Qed.

Lemma next_loop_range fuel next (r : gmap Z (RuntimeEntry P)) : 0 <= next_loop fuel next r < 2 ^ 64.
Proof.
  revert next. induction fuel as [|fuel IH]; intros next; cbn [next_loop];
    (destruct (negb _ && _); [|try apply IH]); apply Z.mod_pos_bound; lia.
Qed.

(** The loop finds a free token: the keys it tries outnumber those in use. *)
Lemma next_loop_fresh next (r : gmap Z (RuntimeEntry P)) :
  Z.of_nat (size r) + 2 <= 2 ^ 64 → usable r (next_loop (S (size r)) next r).
Proof.
  intros Hn. apply next_loop_first. set (c := tried (S (S (size r))) next).
  destruct (decide (Exists (usable r) c)) as [He|He]; [by apply Exists_exists in He|exfalso].
  assert (Hsub : c ⊆+ 0 :: elements (dom r)).
  { apply NoDup_submseteq; [apply tried_NoDup; lia|]. intros t Ht.
    destruct (decide (t = 0)) as [->|Hz]; [left|right]. apply elem_of_elements, elem_of_dom.
    destruct (r !! t) eqn:Hr; [eauto|]. destruct He. apply Exists_exists. by exists t. }
  apply submseteq_length in Hsub. subst c.
  assert (Hlen : ∀ n nx, length (tried n nx) = n) by (induction n; intros; cbn; auto).
  rewrite Hlen in Hsub. cbn [length] in Hsub. change (length (elements (dom r))) with (size (dom r)) in Hsub.
  rewrite size_dom in Hsub. lia.
Qed.

End registry.

(** ** Lifecycle phases

    A thread that holds the lifecycle lock of a sandbox, and what it has
    established under it: the record it noted, that there is none, or a
    reservation it has made and not yet turned into a record. *)

Inductive phase :=
| Holding
| Known (m : Metadata.t)
| Vacant
| InFlight (owner : string).

#[global] Instance phase_eq_dec : EqDecision phase.
Proof. solve_decision. Defined.

Definition reserving (p : phase) : Prop := match p with InFlight _ => True | _ => False end.
#[global] Instance reserving_dec p : Decision (reserving p).
Proof. destruct p; apply _. Defined.

Section counting.
Context (Q : phase → Prop) `{!∀ p, Decision (Q p)}.

Definition tally (m : gmap string phase) : Z := Z.of_nat (size (filter (fun b => Q b.2) m)).

Definition weight (o : option phase) : Z :=
  match o with Some p => one_if (bool_decide (Q p)) | None => 0 end.

Lemma tally_insert_new m id p : m !! id = None → tally (<[id := p]> m) = tally m + weight (Some p).
Proof.
  intros Hn. unfold tally. simpl. case_bool_decide as Hq.
  - rewrite map_filter_insert_True by done. rewrite map_size_insert_None; [simpl; lia|].
    apply map_lookup_filter_None. by left.
  - rewrite map_filter_insert_False by done. rewrite delete_id by done. simpl. lia.
Qed.

Lemma tally_delete m id : tally (delete id m) = tally m - weight (m !! id).
Proof.
  destruct (m !! id) as [p|] eqn:Hm; [|rewrite delete_id by done; simpl; lia].
  rewrite <-(insert_id m id p Hm) at 2. rewrite <-insert_delete_eq.
  rewrite tally_insert_new by apply lookup_delete_eq. lia.
Qed.

Lemma tally_insert m id p :
  tally (<[id := p]> m) = tally m - weight (m !! id) + weight (Some p).
Proof.
  rewrite <-insert_delete_eq, tally_insert_new by apply lookup_delete_eq. rewrite tally_delete. lia.
Qed.

Lemma tally_nonneg m : 0 <= tally m.
Proof. unfold tally. lia. Qed.
End counting.

Abbreviation inflight o := (tally (fun p => p = InFlight o)).
Abbreviation pending := (tally reserving).

Lemma inflight_weight o p :
  weight (fun p => p = InFlight o) (Some p) =
  match p with InFlight o' => one_if (bool_decide (o' = o)) | _ => 0 end.
Proof.
  simpl. destruct p; try (by rewrite bool_decide_false). f_equal. apply bool_decide_ext. naive_solver.
Qed.

Lemma pending_weight p :
  weight reserving (Some p) = match p with InFlight _ => 1 | _ => 0 end.
Proof. by destruct p. Qed.

Lemma inflight_pos o id ph : ph !! id = Some (InFlight o) → 0 < inflight o ph ∧ 0 < pending ph.
Proof.
  intros Hp. pose proof (tally_delete (fun p => p = InFlight o) ph id) as H1.
  pose proof (tally_delete reserving ph id) as H2. rewrite Hp in H1, H2.
  rewrite inflight_weight, bool_decide_true in H1 by done. rewrite pending_weight in H2.
  pose proof (tally_nonneg (fun p => p = InFlight o) (delete id ph)).
  pose proof (tally_nonneg reserving (delete id ph)). simpl in H1. lia.
Qed.

(** ** The books *)

Definition phase_ok (p : phase) (record : option Metadata.t) : Prop :=
  match p with
  | Holding => True
  | Known m => record = Some m
  | Vacant | InFlight _ => record = None
  end.

Section books.
Context {P : Type}.
Implicit Types l : Ledger P.
Implicit Types ph : gmap string phase.

Record books_ok l ph : Prop := MkBooks {
  bk_sorted : sorted (records l);
  bk_keyed : ∀ id m, bt_get id (records l) = Some m → Metadata.id m = id;
  bk_counts : ∀ o, count_of (owner_counts l) o = owned o (records l) + inflight o ph;
  bk_positive : positive (owner_counts l);
  bk_reserved : reserved_sandboxes l = pending ph;
  bk_phases : ∀ id p, ph !! id = Some p → phase_ok p (bt_get id (records l));
}.

(** A step that concerns one sandbox. *)
Lemma books_step l ph l' ph' id :
  books_ok l ph → sorted (records l') →
  (∀ id', id' ≠ id → bt_get id' (records l') = bt_get id' (records l)) →
  (∀ id', id' ≠ id → ph' !! id' = ph !! id') →
  (∀ m, bt_get id (records l') = Some m → Metadata.id m = id) →
  (∀ p, ph' !! id = Some p → phase_ok p (bt_get id (records l'))) →
  (∀ o, count_of (owner_counts l') o = owned o (records l') + inflight o ph') →
  positive (owner_counts l') → reserved_sandboxes l' = pending ph' → books_ok l' ph'.
Proof.
  intros Hb Hs Hr Hp Hk Hph Hc Hpos Hres. split; [done| |done..|].
  - intros id' m. destruct (decide (id' = id)) as [->|]; [apply Hk|]. rewrite Hr by done. apply Hb.
  - intros id' p. destruct (decide (id' = id)) as [->|]; [apply Hph|].
    rewrite Hr, Hp by done. apply Hb.
Qed.

Lemma books_same l ph l' :
  books_ok l ph → records l' = records l → owner_counts l' = owner_counts l →
  reserved_sandboxes l' = reserved_sandboxes l → books_ok l' ph.
Proof. intros [] Hr Hc Hs. split; rewrite ?Hr, ?Hc, ?Hs; done. Qed.

(** A change of phase that makes and drops no reservation. *)
Lemma books_phase l ph id p :
  books_ok l ph → (∀ o, ph !! id ≠ Some (InFlight o)) → (∀ o, p ≠ InFlight o) →
  phase_ok p (bt_get id (records l)) → books_ok l (<[id := p]> ph).
Proof.
  intros Hb Hn Hp Hok. apply (books_step l ph l (<[id := p]> ph) id); try apply Hb; [done|..].
  - intros id' Hne. by rewrite lookup_insert_ne.
  - rewrite lookup_insert_eq. by intros ? [= <-].
  - intros o. rewrite tally_insert, inflight_weight.
    replace (weight (fun p => p = InFlight o) (ph !! id)) with 0; [|].
    + destruct p; try by destruct (Hp owner). all: rewrite (bk_counts _ _ Hb); lia.
    + destruct (ph !! id) as [q|] eqn:Hq; [|done]. rewrite inflight_weight.
      destruct q; try done. by destruct (Hn owner).
  - rewrite tally_insert, pending_weight, (bk_reserved _ _ Hb).
    replace (weight reserving (ph !! id)) with 0; [destruct p; try lia; by destruct (Hp owner)|].
    destruct (ph !! id) as [q|] eqn:Hq; [|done]. rewrite pending_weight.
    destruct q; try done. by destruct (Hn owner).
Qed.

Lemma books_leave l ph id :
  books_ok l ph → (∀ o, ph !! id ≠ Some (InFlight o)) → books_ok l (delete id ph).
Proof.
  intros Hb Hn. pose proof (books_phase l ph id Holding Hb Hn ltac:(done) I) as Hh.
  rewrite <-delete_insert_eq with (x := Holding). destruct Hh as [H1 H2 H3 H4 H5 H6]. split; [done..| |done| |].
  - intros o. rewrite tally_delete, lookup_insert_eq, inflight_weight. specialize (H3 o). lia.
  - rewrite tally_delete, lookup_insert_eq, pending_weight. lia.
  - intros id' p. destruct (decide (id = id')) as [->|]; [by rewrite lookup_delete_eq|].
    rewrite lookup_delete_ne by done. apply H6.
Qed.

(** Dropping a record, by a thread that has no reservation for it. *)
Lemma books_remove l ph id l' ps :
  books_ok l ph → indexed l → (∀ p, ph !! id = Some p → p = Holding) →
  remove_record_from_ledger id l = (l', ps) → books_ok l' ph.
Proof.
  intros Hb Hix Hp Hr.
  destruct (remove_record_spec _ _ _ _ Hix Hr) as (_ & Hrec & _ & Hcnt & Hres & _).
  assert (Hpos : ∀ m, bt_get id (records l) = Some m → 0 < count_of (owner_counts l) (Metadata.owner m)).
  { intros m Hm. rewrite (bk_counts _ _ Hb), (owned_remove _ _ _ _ Hm), bool_decide_true by done.
    pose proof (owned_nonneg (Metadata.owner m) (bt_remove id (records l))).
    pose proof (tally_nonneg (fun p => p = InFlight (Metadata.owner m)) ph). simpl. lia. }
  apply (books_step l ph l' ph id); rewrite ?Hrec, ?Hres, ?Hcnt; try done.
  - by apply sorted_remove, Hb.
  - intros id' Hne. by apply bt_get_remove_ne.
  - rewrite bt_get_remove_eq by apply Hb. done.
  - intros p Hq. by rewrite (Hp p Hq).
  - intros o. destruct (bt_get id (records l)) as [m|] eqn:Hm.
    + rewrite decrement_count by (apply Hb || by apply Hpos).
      rewrite (bk_counts _ _ Hb), (owned_remove _ _ _ _ Hm). lia.
    + rewrite bt_remove_absent by done. apply Hb.
  - destruct (bt_get id (records l)); [apply decrement_positive|]; apply Hb.
  - apply Hb.
Qed.

Lemma same_identity_spec a b :
  same_identity a b = true ↔ Metadata.id a = Metadata.id b ∧ Metadata.owner a = Metadata.owner b.
Proof. unfold same_identity. by rewrite andb_true_iff, !bool_decide_eq_true. Qed.

(** A record replaced by one of the same owner. *)
Lemma books_replace l ph id m0 m :
  books_ok l ph → bt_get id (records l) = Some m0 → Metadata.id m = id →
  Metadata.owner m = Metadata.owner m0 → (∀ o, ph !! id ≠ Some (InFlight o)) →
  books_ok (set_records (bt_insert id m) l) (<[id := Known m]> ph).
Proof.
  intros Hb Hg Hid Ho Hn.
  pose proof (books_phase l ph id Holding Hb Hn ltac:(done) I) as Hh.
  rewrite <-insert_insert_eq with (y := Holding). set (ph1 := <[id := Holding]> ph) in *.
  assert (Hp1 : ph1 !! id = Some Holding) by apply lookup_insert_eq.
  apply (books_step l ph1 _ _ id); try apply Hh; simpl.
  - by apply sorted_insert, Hb.
  - intros id' Hne. by apply bt_get_insert_ne.
  - intros id' Hne. by apply lookup_insert_ne.
  - intros m'. rewrite bt_get_insert_eq. by intros [= <-].
  - intros p. rewrite lookup_insert_eq. intros [= <-]. apply bt_get_insert_eq.
  - intros o. rewrite (owned_insert_same _ _ _ m0) by (apply Hb || done).
    rewrite tally_insert, Hp1, !inflight_weight, (bk_counts _ _ Hh). lia.
  - rewrite tally_insert, Hp1, !pending_weight, (bk_reserved _ _ Hh). lia.
Qed.

(** A record that was not known. *)
Lemma books_add l ph id m :
  books_ok l ph → bt_get id (records l) = None → Metadata.id m = id →
  (∀ o, ph !! id ≠ Some (InFlight o)) →
  books_ok (set_records (bt_insert id m)
              (set_counts (fun c => increment_owner c (Metadata.owner m)) l)) (<[id := Known m]> ph).
Proof.
  intros Hb Hg Hid Hn.
  pose proof (books_phase l ph id Holding Hb Hn ltac:(done) I) as Hh.
  rewrite <-insert_insert_eq with (y := Holding). set (ph1 := <[id := Holding]> ph) in *.
  assert (Hp1 : ph1 !! id = Some Holding) by apply lookup_insert_eq.
  apply (books_step l ph1 _ _ id); try apply Hh; simpl.
  - by apply sorted_insert, Hb.
  - intros id' Hne. by apply bt_get_insert_ne.
  - intros id' Hne. by apply lookup_insert_ne.
  - intros m'. rewrite bt_get_insert_eq. by intros [= <-].
  - intros p. rewrite lookup_insert_eq. intros [= <-]. apply bt_get_insert_eq.
  - intros o. rewrite increment_count, (owned_insert_new _ _ _ _ (bk_sorted _ _ Hb) Hg).
    rewrite tally_insert, Hp1, !inflight_weight, (bk_counts _ _ Hh). lia.
  - by apply increment_positive, Hb.
  - rewrite tally_insert, Hp1, !pending_weight, (bk_reserved _ _ Hh). lia.
Qed.

Lemma books_note l ph id m b l' ps :
  books_ok l ph → indexed l → ph !! id = Some Holding → Metadata.id m = id →
  note_valid_record id m l = (b, (l', ps)) →
  books_ok l' (if b then <[id := Known m]> ph else ph).
Proof.
  intros Hb Hix Hp Hid. unfold note_valid_record. case_bool_decide; [by intros [= <- <- <-]|].
  destruct (bt_get id (records l)) as [m0|] eqn:Hg.
  - destruct (same_identity m0 m) eqn:Hs; simpl.
    + intros [= <- <- <-]. apply same_identity_spec in Hs as [_ Hs].
      apply (books_replace _ _ _ m0); auto. by rewrite Hp.
    + destruct (remove_record_from_ledger id l) as [l1 qs] eqn:Hr. intros [= <- <- <-].
      apply (books_same l1); [|done..]. eapply books_remove; [done..| |done]. by rewrite Hp; intros ? [= <-].
  - intros [= <- <- <-]. apply books_add; auto. by rewrite Hp.
Qed.

Lemma books_reserve caps l ph id o l' :
  books_ok l ph → ph !! id = Some Vacant → reserve_sandbox caps o l = (Ok tt, l') →
  books_ok l' (<[id := InFlight o]> ph).
Proof.
  intros Hb Hp. unfold reserve_sandbox. repeat case_match; try done. intros [= <-].
  pose proof (bk_phases _ _ Hb _ _ Hp) as Hg. simpl in Hg.
  apply (books_step l ph _ _ id); try apply Hb; simpl; [done|..].
  - intros id' Hne. by apply lookup_insert_ne.
  - intros p. rewrite lookup_insert_eq. by intros [= <-].
  - intros o'. rewrite increment_count, tally_insert, Hp, !inflight_weight, (bk_counts _ _ Hb). lia.
  - by apply increment_positive, Hb.
  - rewrite tally_insert, Hp, !pending_weight, (bk_reserved _ _ Hb). lia.
Qed.

Lemma books_unreserve l ph id o :
  books_ok l ph → ph !! id = Some (InFlight o) →
  books_ok (release_sandbox o l) (<[id := Holding]> ph).
Proof.
  intros Hb Hp. destruct (inflight_pos _ _ _ Hp) as [Hi1 Hi2].
  assert (Hpos : 0 < count_of (owner_counts l) o).
  { rewrite (bk_counts _ _ Hb). pose proof (owned_nonneg o (records l)). lia. }
  apply (books_step l ph _ _ id); try apply Hb; simpl; [done|..].
  - intros id' Hne. by apply lookup_insert_ne.
  - intros p. rewrite lookup_insert_eq. by intros [= <-].
  - intros o'. rewrite decrement_count by (apply Hb || done).
    rewrite tally_insert, Hp, !inflight_weight, (bk_counts _ _ Hb). lia.
  - by apply decrement_positive, Hb.
  - rewrite tally_insert, Hp, !pending_weight, (bk_reserved _ _ Hb). lia.
Qed.

Lemma books_publish l ph m :
  books_ok l ph → ph !! Metadata.id m = Some (InFlight (Metadata.owner m)) →
  books_ok (insert_reserved m l) (<[Metadata.id m := Known m]> ph).
Proof.
  intros Hb Hp. destruct (inflight_pos _ _ _ Hp) as [Hi1 Hi2].
  pose proof (bk_phases _ _ Hb _ _ Hp) as Hg. simpl in Hg.
  apply (books_step l ph _ _ (Metadata.id m)); try apply Hb; simpl.
  - by apply sorted_insert, Hb.
  - intros id' Hne. by apply bt_get_insert_ne.
  - intros id' Hne. by apply lookup_insert_ne.
  - intros m'. rewrite bt_get_insert_eq. by intros [= <-].
  - intros p. rewrite lookup_insert_eq. intros [= <-]. apply bt_get_insert_eq.
  - intros o. rewrite (owned_insert_new _ _ _ _ (bk_sorted _ _ Hb) Hg).
    rewrite tally_insert, Hp, !inflight_weight, (bk_counts _ _ Hb). lia.
  - rewrite tally_insert, Hp, !pending_weight, (bk_reserved _ _ Hb). lia.
Qed.
End books.

(** ** One critical section *)

Section system.
Context `{TomlCrate} {P : Type} (caps : Caps).
Implicit Types l : Ledger P.

Record shared := MkShared
  { led : Ledger P; phases : gmap string phase; frozen : bool }.

Definition with_led l (s : shared) : shared := MkShared l (phases s) (frozen s).
Definition with_phase (id : string) (p : phase) (s : shared) : shared :=
  MkShared (led s) (<[id := p]> (phases s)) (frozen s).

(** The label is the sandbox whose lifecycle lock the acting thread holds. *)
Inductive step : option string → shared → shared → Prop :=
| step_acquire s id :
    phases s !! id = None → step (Some id) s (with_phase id Holding s)
| step_unlock s id p :
    phases s !! id = Some p → ¬ reserving p →
    step (Some id) s (MkShared (led s) (delete id (phases s)) (frozen s))
| step_note s id m b l' ps :
    phases s !! id = Some Holding → Metadata.id m = id →
    note_valid_record id m (led s) = (b, (l', ps)) →
    step (Some id) s (MkShared l' (if b then <[id := Known m]> (phases s) else phases s) (frozen s))
| step_corrupt s id l' ps :
    phases s !! id = Some Holding → note_corrupt id (led s) = (l', ps) →
    step (Some id) s (with_led l' s)
| step_vacant s id :
    phases s !! id = Some Holding → is_blocked id (led s) = false → has_record id (led s) = false →
    step (Some id) s (with_phase id Vacant s)
| step_reserve s id o l' :
    phases s !! id = Some Vacant → reserve_sandbox caps o (led s) = (Ok tt, l') →
    step (Some id) s (with_phase id (InFlight o) (with_led l' s))
| step_unreserve s id o :
    phases s !! id = Some (InFlight o) →
    step (Some id) s (with_phase id Holding (with_led (release_sandbox o (led s)) s))
| step_publish s m :
    phases s !! Metadata.id m = Some (InFlight (Metadata.owner m)) →
    step (Some (Metadata.id m)) s
      (with_phase (Metadata.id m) (Known m) (with_led (insert_reserved m (led s)) s))
| step_replace s m st :
    phases s !! Metadata.id m = Some (Known m) →
    step (Some (Metadata.id m)) s
      (with_phase (Metadata.id m) (Known (Metadata.with_state m st))
         (with_led (replace_record (Metadata.with_state m st) (led s)) s))
| step_remove s id p l' ps :
    phases s !! id = Some p → ¬ reserving p → remove_record_from_ledger id (led s) = (l', ps) →
    step (Some id) s (with_phase id Holding (with_led l' s))
| step_begin s h r l' :
    Z.of_nat (size (runtime (led s))) + 2 <= 2 ^ 64 →
    begin_launch caps (frozen s) h (led s) = (r, l') → step None s (with_led l' s)
| step_finish s durable lease control b l' :
    finish_launch durable lease control (led s) = (b, l') → step None s (with_led l' s)
| step_clear s clean lease : step None s (with_led (clear_runtime clean lease (led s)) s)
| step_cancel s id : step (Some id) s (with_led (cancel_marks id (led s)).2 s)
| step_reap s token : step None s (with_led (remove_runtime token (led s)).2 s)
| step_freeze s : step None s (MkShared (led s) (phases s) true)
| step_marks s : step None s (with_led (shutdown_marks (led s)).2 s).

Definition steps : shared → shared → Prop := rtc (fun s s' => ∃ who, step who s s').

Record inv (s : shared) : Prop := MkInv {
  inv_books : books_ok (led s) (phases s);
  inv_registry : registry_ok caps (led s);
}.

(** *** Launch sections keep the registry *)

Lemma registry_begin l fr h r l' :
  registry_ok caps l → Z.of_nat (size (runtime l)) + 2 <= 2 ^ 64 →
  begin_launch caps fr h l = (r, l') → registry_ok caps l'.
Proof.
  intros Hrg Hsz. unfold begin_launch.
  destruct fr; [by intros [= <- <-]|]. destruct (bt_get _ _) as [m|]; [|by intros [= <- <-]].
  destruct (negb _ || _); [by intros [= <- <-]|].
  destruct (_ <=? _) eqn:Hcap; [by intros [= <- <-]|]. bool_to_prop.
  destruct (next_loop_fresh (next_token l) (runtime l) Hsz) as [Hz Hf].
  pose proof (next_loop_range (S (size (runtime l))) (next_token l) (runtime l)) as Hr.
  unfold next_runtime_token. remember (next_loop _ _ _) as t eqn:Ht. clear Ht.
  intros [= <- <-]. destruct Hrg as [Hix Hln Hnx Htk].
  assert (Hix1 : indexed (set_next t l)) by by destruct Hix.
  split; [by apply indexed_insert| |done|].
  - intros id. destruct (decide (handle_id h = id)) as [<-|Hne].
    + rewrite index_insert by done. fold (index_of l (handle_id h)) in Hcap.
      change (index_of (set_next t l) (handle_id h)) with (index_of l (handle_id h)).
      rewrite size_union_alt, size_singleton.
      assert (size (index_of l (handle_id h) ∖ {[t]}) ≤ size (index_of l (handle_id h)))%nat
        by (apply subseteq_size; set_solver). lia.
    + rewrite index_insert_ne by done. apply (Hln id).
  - intros t' e. simpl. destruct (decide (t = t')) as [<-|]; [lia|].
    rewrite lookup_insert_ne by done. apply Htk.
Qed.

Lemma registry_update l r :
  registry_ok caps l → (∀ t, sandbox_id <$> r !! t = sandbox_id <$> runtime l !! t) →
  registry_ok caps (set_runtime r (runtime_by_sandbox l) l).
Proof.
  intros Hrg Hs. eapply registry_shrink; [done|by apply indexed_update; [apply Hrg|]|done|].
  intros t e' He'. simpl in He'. specialize (Hs t). rewrite He' in Hs.
  destruct (runtime l !! t) as [e|]; simplify_eq/=. eauto.
Qed.

Lemma registry_remove l t : registry_ok caps l → registry_ok caps (remove_runtime t l).2.
Proof.
  intros Hrg. pose proof (indexed_remove l t (rg_indexed _ _ Hrg)) as Hix.
  destruct (remove_runtime t l) as [o l'] eqn:Hr.
  destruct (remove_runtime_spec _ _ _ _ (rg_indexed _ _ Hrg) Hr) as (_ & Hrt & _ & _ & Hk).
  eapply registry_shrink; [done|done|by rewrite Hk|]. intros t' e'. simpl. rewrite Hrt.
  intros [_ He]%lookup_delete_Some. eauto.
Qed.

Lemma cancel_tokens_spec ts : ∀ l ps l',
  cancel_tokens ts l = (ps, l') →
  books_kept l l' ∧ runtime_by_sandbox l' = runtime_by_sandbox l
  ∧ ∀ t, runtime l' !! t =
      if bool_decide (t ∈ ts) then cancel_entry <$> runtime l !! t else runtime l !! t.
Proof.
  induction ts as [|t ts IH]; intros l ps l'; simpl.
  { intros [= <- <-]. split_and!; [apply books_kept_refl|done..]. }
  destruct (runtime l !! t) as [e|] eqn:He.
  - destruct (cancel_tokens ts _) as [qs l1] eqn:Hc. intros [= <- <-].
    destruct (IH _ _ _ Hc) as (Hk & Hi & Hl). split_and!; [|done|].
    + eapply books_kept_trans; [|exact Hk]. done.
    + intros x. rewrite Hl. simpl. destruct (decide (x = t)) as [->|Hne].
      * rewrite lookup_insert_eq, (bool_decide_true (t ∈ t :: ts)), He by set_solver.
        by case_bool_decide.
      * rewrite lookup_insert_ne by done. rewrite (bool_decide_ext (x ∈ t :: ts) (x ∈ ts)); [done|].
        set_solver.
  - intros Hc. destruct (IH _ _ _ Hc) as (Hk & Hi & Hl). split_and!; [done..|].
    intros x. rewrite Hl. destruct (decide (x = t)) as [->|Hne].
    + rewrite He. by repeat case_bool_decide.
    + rewrite (bool_decide_ext (x ∈ t :: ts) (x ∈ ts)); [done|]. set_solver.
Qed.

Lemma finish_launch_shape durable lease control l b l' :
  finish_launch durable lease control l = (b, l') →
  (b = false ∧ l' = l)
  ∨ (b = true ∧ ∃ e, runtime l !! lease_token lease = Some e
     ∧ sandbox_id e = lease_sandbox lease ∧ marker e = Launching ∧ cancelled e = false
     ∧ (∃ m r, durable = Ok (Storage.Active m) ∧ bt_get (lease_sandbox lease) (records l) = Some r
          ∧ Metadata.owner m = Metadata.owner r ∧ Metadata.state r = Metadata.Active)
     ∧ l' = set_runtime (<[lease_token lease := MkRuntime (sandbox_id e) Running false (Some control)]>
              (runtime l)) (runtime_by_sandbox l) l).
Proof.
  unfold finish_launch. destruct (runtime l !! lease_token lease) as [e|] eqn:He; [|intros [= <- <-]; by left].
  destruct (_ && _) eqn:Hb; [|intros [= <- <-]; by left]. intros [= <- <-]. right. split; [done|].
  exists e. bool_to_prop. destruct (cancelled e) eqn:Hc; [done|].
  split_and!; [done..| |done].
  destruct durable as [[| m | |]|], (bt_get _ _) as [r|]; try done. exists m, r. bool_to_prop. done.
Qed.

Lemma registry_finish durable lease control l b l' :
  registry_ok caps l → finish_launch durable lease control l = (b, l') → registry_ok caps l'.
Proof.
  intros Hrg [[_ ->]|(_ & e & He & _ & _ & _ & _ & ->)]%finish_launch_shape; [done|].
  apply registry_update; [done|]. intros t. destruct (decide (lease_token lease = t)) as [<-|].
  - by rewrite lookup_insert_eq, He.
  - by rewrite lookup_insert_ne.
Qed.

Lemma registry_drop l id l' ps :
  registry_ok caps l → remove_record_from_ledger id l = (l', ps) → registry_ok caps l'.
Proof.
  intros Hrg Hr. destruct (remove_record_spec _ _ _ _ (rg_indexed _ _ Hrg) Hr)
    as (Hix & _ & _ & _ & _ & Hn & Hrt & _).
  eapply registry_shrink; [done..|]. intros t e'. rewrite Hrt.
  destruct (runtime l !! t) as [e|]; [|done]. case_bool_decide; [done|]. intros [= <-]. eauto.
Qed.

Lemma registry_same l l' :
  registry_ok caps l → runtime l' = runtime l → runtime_by_sandbox l' = runtime_by_sandbox l →
  next_token l' = next_token l → registry_ok caps l'.
Proof.
  intros [[Hm Hne] Hln Hnx Htk] Hr Hi Hn. unfold index_of in *.
  split; [split|..]; unfold index_of; rewrite ?Hi, ?Hr, ?Hn; done.
Qed.

Lemma begin_launch_books l fr h r l' :
  begin_launch caps fr h l = (r, l') →
  records l' = records l ∧ owner_counts l' = owner_counts l
  ∧ reserved_sandboxes l' = reserved_sandboxes l.
Proof.
  unfold begin_launch, next_runtime_token. remember (next_loop _ _ _) as t eqn:Ht. clear Ht.
  repeat case_match; intros; by simplify_eq/=.
Qed.

Lemma remove_runtime_books l t :
  records (remove_runtime t l).2 = records l ∧ owner_counts (remove_runtime t l).2 = owner_counts l
  ∧ reserved_sandboxes (remove_runtime t l).2 = reserved_sandboxes l.
Proof. unfold remove_runtime. by repeat case_match. Qed.

Lemma clear_runtime_cases clean lease l :
  clear_runtime clean lease l = l
  ∨ clear_runtime clean lease l = (remove_runtime (lease_token lease) l).2.
Proof. unfold clear_runtime. repeat case_match; auto. Qed.

Lemma not_reserving p : ¬ reserving p → ∀ o, Some p ≠ Some (InFlight o).
Proof. intros Hp o [= ->]. by apply Hp. Qed.

Lemma step_books who s s' : step who s s' → inv s → books_ok (led s') (phases s').
Proof.
  intros Hst [Hb Hrg]. pose proof (rg_indexed _ _ Hrg) as Hix.
  destruct Hst as [s id Hp|s id p Hp Hnr|s id m b l' ps Hp Hid Hn|s id l' ps Hp Hn|s id Hp Hbl Hhr
    |s id o l' Hp Hr|s id o Hp|s m Hp|s m st Hp|s id p l' ps Hp Hnr Hr|s h r l' Hsz Hl|s d le c b l' Hl
    |s clean le|s id|s t|s|s]; simpl.
  - apply books_phase; [done|by rewrite Hp|done|done].
  - apply books_leave; [done|]. rewrite Hp. by apply not_reserving.
  - by eapply books_note.
  - unfold note_corrupt in Hn. destruct (remove_record_from_ledger id (led s)) as [l1 qs] eqn:Hr.
    simplify_eq. apply (books_same l1); [|done..]. eapply books_remove; [done..| |done].
    by rewrite Hp; intros ? [= <-].
  - apply books_phase; [done|by rewrite Hp|done|]. simpl. unfold has_record in Hhr. bool_to_prop.
    by apply eq_None_not_Some.
  - by eapply books_reserve.
  - by apply books_unreserve.
  - by apply books_publish.
  - pose proof (bk_phases _ _ Hb _ _ Hp) as Hg. apply (books_replace _ _ (Metadata.id m) m); auto.
    by rewrite Hp.
  - assert (Hh : books_ok (led s) (<[id := Holding]> (phases s))).
    { apply books_phase; [done| |done|done]. rewrite Hp. by apply not_reserving. }
    eapply books_remove; [exact Hh|done| |done]. rewrite lookup_insert_eq. by intros ? [= <-].
  - apply begin_launch_books in Hl as (H1 & H2 & H3). by eapply books_same.
  - apply finish_launch_shape in Hl as [[_ ->]|(_ & e & _ & _ & _ & _ & _ & ->)]; [done|].
    by eapply books_same.
  - destruct (clear_runtime_cases clean le (led s)) as [-> | ->]; [done|].
    destruct (remove_runtime_books (led s) (lease_token le)) as (? & ? & ?). by eapply books_same.
  - unfold cancel_marks. destruct (cancel_tokens _ _) as [ps l'] eqn:Hc.
    apply cancel_tokens_spec in Hc as (Hk & _). apply (books_same (led s)); [done|by rewrite Hk..].
  - destruct (remove_runtime_books (led s) t) as (? & ? & ?). by eapply books_same.
  - done.
  - by eapply books_same.
Qed.

Lemma step_registry who s s' : step who s s' → inv s → registry_ok caps (led s').
Proof.
  intros Hst [Hb Hrg].
  destruct Hst as [s id Hp|s id p Hp Hnr|s id m b l' ps Hp Hid Hn|s id l' ps Hp Hn|s id Hp Hbl Hhr
    |s id o l' Hp Hr|s id o Hp|s m Hp|s m st Hp|s id p l' ps Hp Hnr Hr|s h r l' Hsz Hl|s d le c b l' Hl
    |s clean le|s id|s t|s|s]; simpl; try done; try by eapply registry_same.
  - unfold note_valid_record in Hn. case_bool_decide; [by simplify_eq|].
    destruct (bt_get id (records (led s))); [|simplify_eq; by eapply registry_same].
    destruct (same_identity _ _); simpl in Hn; [simplify_eq; by eapply registry_same|].
    destruct (remove_record_from_ledger id (led s)) as [l1 qs] eqn:Hr. simplify_eq.
    eapply registry_drop in Hr; [|done]. by apply (registry_same l1).
  - unfold note_corrupt in Hn. destruct (remove_record_from_ledger id (led s)) as [l1 qs] eqn:Hr.
    simplify_eq. eapply registry_drop in Hr; [|done]. by apply (registry_same l1).
  - unfold reserve_sandbox in Hr. repeat case_match; simplify_eq. by eapply registry_same.
  - by eapply registry_drop.
  - by eapply registry_begin.
  - by eapply registry_finish.
  - destruct (clear_runtime_cases clean le (led s)) as [-> | ->]; [done|]. by apply registry_remove.
  - unfold cancel_marks. destruct (cancel_tokens _ _) as [ps l'] eqn:Hc.
    apply cancel_tokens_spec in Hc as (Hk & Hi & Hl). simpl. rewrite Hk, Hi.
    apply registry_update; [done|]. intros t. rewrite Hl.
    case_bool_decide; [|done]. by destruct (runtime (led s) !! t).
  - by apply registry_remove.
  - apply registry_update; [done|]. intros t. rewrite lookup_fmap. by destruct (runtime (led s) !! t).
Qed.

Lemma step_inv who s s' : step who s s' → inv s → inv s'.
Proof. intros Hst Hi. split; [by eapply step_books|by eapply step_registry]. Qed.

Lemma steps_inv s s' : steps s s' → inv s → inv s'.
Proof. induction 1 as [|s1 s2 s3 [who Hst] _ IH]; [done|]. intros Hi. by eapply IH, step_inv. Qed.

(** *** Loading *)

(** What [Storage::scan] guarantees: a decoded record names its directory. *)
Definition scan_wf (scan : Storage.ScanResult) : Prop := ∀ id e m,
  (id, e) ∈ Storage.entries_found scan → Storage.reported e = Some m → Metadata.id m = id.

Definition loaded (scan : Storage.ScanResult) : shared :=
  MkShared (reconcile_scan scan empty_ledger).1 ∅ false.

Definition idle_ok l : Prop := books_ok l ∅ ∧ registry_ok caps l.

Lemma idle_drop l id l' ps :
  idle_ok l → remove_record_from_ledger id l = (l', ps) → idle_ok l'.
Proof.
  intros [Hb Hrg] Hr. split; [|by eapply registry_drop].
  eapply books_remove; [done|apply Hrg| |done]. by rewrite lookup_empty.
Qed.

Lemma idle_block l f : idle_ok l → idle_ok (set_blocked f l).
Proof. intros [Hb Hrg]. split; [by apply (books_same l)|by apply (registry_same l)]. Qed.

Lemma idle_known l id m : books_ok l (<[id := Known m]> ∅) → books_ok l ∅.
Proof.
  intros Hb. rewrite <-(delete_insert_id ∅ id (Known m)) by apply lookup_empty.
  apply books_leave; [done|]. by rewrite lookup_insert_eq.
Qed.

Lemma idle_entry id e l l' ps :
  idle_ok l → (∀ m, Storage.reported e = Some m → Metadata.id m = id) →
  reconcile_entry id e l = (l', ps) → idle_ok l'.
Proof.
  intros Hi Hid. unfold reconcile_entry.
  assert (Hdrop : ∀ l' ps, (let '(l', t) := remove_record_from_ledger id l in
    (set_blocked (fun b => {[id]} ∪ b) l', t)) = (l', ps) → idle_ok l').
  { intros l1 qs. destruct (remove_record_from_ledger id l) as [l2 rs] eqn:Hr.
    intros [= <- <-]. apply idle_block. by eapply idle_drop. }
  assert (Hrec : ∀ m l' ps, Metadata.id m = id →
    match bt_get id (records l) with
    | Some existing =>
        if same_identity existing m then
          let l1 := set_records (bt_insert id m) l in
          let l2 :=
            if bool_decide (Metadata.owner existing = Metadata.owner m) then l1
            else set_counts (fun c =>
                   increment_owner (decrement_owner c (Metadata.owner existing))
                     (Metadata.owner m)) l1 in
          (set_blocked (fun b => b ∖ {[id]}) l2, [])
        else
          let '(l', t) := remove_record_from_ledger id l in (set_blocked (fun b => {[id]} ∪ b) l', t)
    | None =>
        (set_blocked (fun b => b ∖ {[id]})
           (set_counts (fun c => increment_owner c (Metadata.owner m))
              (set_records (bt_insert id m) l)), [])
    end = (l', ps) → idle_ok l').
  { intros m l1 qs Hm. destruct Hi as [Hb Hrg]. destruct (bt_get id (records l)) as [m0|] eqn:Hg.
    - destruct (same_identity m0 m) eqn:Hs; [|apply Hdrop]. apply same_identity_spec in Hs as [_ Hs].
      rewrite bool_decide_true by done. intros [= <- <-]. apply idle_block.
      split; [|by apply (registry_same l)]. apply (idle_known _ id m).
      apply (books_replace _ _ _ m0); auto.
    - intros [= <- <-]. apply idle_block. split; [|by apply (registry_same l)].
      apply (idle_known _ id m). apply (books_add l ∅ id m Hb Hg Hm). by rewrite lookup_empty. }
  destruct e; [by intros [= <- <-]|by apply Hrec, Hid|by apply Hrec, Hid|apply Hdrop].
Qed.

Lemma idle_entries es : ∀ l l' ps,
  idle_ok l → (∀ id e m, (id, e) ∈ es → Storage.reported e = Some m → Metadata.id m = id) →
  reconcile_entries es l = (l', ps) → idle_ok l'.
Proof.
  induction es as [|[id e] es IH]; intros l l' ps Hi Hid; simpl; [by intros [= <- <-]|].
  destruct (reconcile_entry id e l) as [l1 t1] eqn:H1.
  destruct (reconcile_entries es l1) as [l2 t2] eqn:H2. intros [= <- <-].
  eapply IH; [|intros; eapply Hid; [by right|done]|done].
  eapply idle_entry; [done| |done]. intros m. apply (Hid id e m). by left.
Qed.

Lemma idle_records ids : ∀ l l' ps, idle_ok l → remove_records ids l = (l', ps) → idle_ok l'.
Proof.
  induction ids as [|id ids IH]; intros l l' ps Hi; simpl; [by intros [= <- <-]|].
  destruct (remove_record_from_ledger id l) as [l1 t1] eqn:H1.
  destruct (remove_records ids l1) as [l2 t2] eqn:H2. intros [= <- <-].
  eapply IH; [|done]. by eapply idle_drop.
Qed.

Lemma idle_empty n : idle_ok (set_unknown n empty_ledger).
Proof.
  split; split; simpl; try done.
  - split; [|done]. intros id t. unfold index_of. simpl. rewrite lookup_empty. simpl.
    split; [set_solver|]. intros (e & He & _). by rewrite lookup_empty in He.
  - intros id. unfold index_of. simpl. rewrite lookup_empty. cbn -[size]. rewrite size_empty. lia.
Qed.

Lemma loaded_inv scan : scan_wf scan → inv (loaded scan).
Proof.
  intros Hw. unfold loaded, reconcile_scan.
  destruct (reconcile_entries _ _) as [l1 t1] eqn:H1.
  destruct (remove_records _ _) as [l2 t2] eqn:H2. simpl.
  assert (Hi : idle_ok l2) by (eapply idle_records; [eapply idle_entries; [apply idle_empty|apply Hw|done]|done]).
  by destruct Hi.
Qed.

Lemma reachable_inv scan s : scan_wf scan → steps (loaded scan) s → inv s.
Proof. intros Hw Hs. eapply steps_inv; [done|by apply loaded_inv]. Qed.

(** *** Where runtime entries come from *)

Definition kept_entry (e e' : RuntimeEntry P) : Prop :=
  sandbox_id e' = sandbox_id e ∧ marker e' = marker e ∧ process e' = process e
  ∧ (cancelled e = true → cancelled e' = true).

Lemma kept_refl e : kept_entry e e.
Proof. done. Qed.

Lemma kept_cancel e : kept_entry e (cancel_entry e).
Proof. done. Qed.

Lemma step_entries who s s' t e' :
  step who s s' → inv s → runtime (led s') !! t = Some e' →
  (∃ e, runtime (led s) !! t = Some e ∧ kept_entry e e')
  ∨ (∃ m, bt_get (sandbox_id e') (records (led s)) = Some m ∧ Metadata.state m = Metadata.Active)
    ∧ (frozen s = false ∨ ∃ e, runtime (led s) !! t = Some e ∧ cancelled e = false).
Proof.
  intros Hst [Hb Hrg]. pose proof (rg_indexed _ _ Hrg) as Hix.
  assert (Hsame : ∀ l, runtime l = runtime (led s) → runtime l !! t = Some e' →
    ∃ e, runtime (led s) !! t = Some e ∧ kept_entry e e') by (intros l -> ?; eauto using kept_refl).
  assert (Hdrop : ∀ id l ps, remove_record_from_ledger id (led s) = (l, ps) →
    runtime l !! t = Some e' → ∃ e, runtime (led s) !! t = Some e ∧ kept_entry e e').
  { intros id l ps Hr. destruct (remove_record_spec _ _ _ _ Hix Hr) as (_ & _ & _ & _ & _ & _ & Hl & _).
    rewrite Hl. destruct (runtime (led s) !! t) as [e|] eqn:He; [|done].
    case_bool_decide; [done|]. intros [= <-]. eauto using kept_refl. }
  assert (Hreap : ∀ x, runtime (remove_runtime x (led s)).2 !! t = Some e' →
    ∃ e, runtime (led s) !! t = Some e ∧ kept_entry e e').
  { intros x. destruct (remove_runtime x (led s)) as [o l] eqn:Hr.
    destruct (remove_runtime_spec _ _ _ _ Hix Hr) as (_ & Hl & _). simpl. rewrite Hl.
    intros [_ He]%lookup_delete_Some. eauto using kept_refl. }
  destruct Hst as [s id Hp|s id p Hp Hnr|s id m b l' ps Hp Hid Hn|s id l' ps Hp Hn|s id Hp Hbl Hhr
    |s id o l' Hp Hr|s id o Hp|s m Hp|s m st Hp|s id p l' ps Hp Hnr Hr|s h r l' Hsz Hl|s d le c b l' Hl
    |s clean le|s id|s x|s|s]; simpl; intros He'; try (left; by eauto using kept_refl).
  - left. unfold note_valid_record in Hn. case_bool_decide; [simplify_eq; eauto|].
    destruct (bt_get id (records (led s))); [|simplify_eq; eauto].
    destruct (same_identity _ _); simpl in Hn; [simplify_eq; eauto|].
    destruct (remove_record_from_ledger id (led s)) as [l1 qs] eqn:Hr. simplify_eq. eauto.
  - left. unfold note_corrupt in Hn. destruct (remove_record_from_ledger id (led s)) as [l1 qs] eqn:Hr.
    simplify_eq. eauto.
  - left. unfold reserve_sandbox in Hr. repeat case_match; simplify_eq. eauto.
  - revert Hl. unfold begin_launch, next_runtime_token. remember (next_loop _ _ _) as x eqn:Hx. clear Hx.
    destruct (frozen s) eqn:Hf; [intros; simplify_eq; left; eauto|].
    destruct (bt_get _ _) as [m|] eqn:Hg; [|intros; simplify_eq; left; eauto].
    destruct (_ || _) eqn:Hok; [intros; simplify_eq; left; eauto|].
    destruct (_ <=? _); [intros; simplify_eq; left; eauto|]. intros [= <- <-].
    simpl in He'. destruct (decide (x = t)) as [->|]; [rewrite lookup_insert_eq in He'|
      rewrite lookup_insert_ne in He' by done; left; eauto using kept_refl].
    simplify_eq/=. right. bool_to_prop. split; [eauto|by left].
  - apply finish_launch_shape in Hl as [[_ ->]|(_ & e & He & Hs & Hm & Hc & (m & r & _ & Hg & _ & Hst) & ->)];
      [left; eauto using kept_refl|]. simpl in He'.
    destruct (decide (lease_token le = t)) as [<-|]; [rewrite lookup_insert_eq in He'|
      rewrite lookup_insert_ne in He' by done; left; eauto using kept_refl].
    simplify_eq/=. right. rewrite Hs. split; eauto.
  - left. destruct (clear_runtime_cases clean le (led s)) as [Hc|Hc]; rewrite Hc in He'; eauto using kept_refl.
  - left. unfold cancel_marks in He'. destruct (cancel_tokens _ _) as [ps l'] eqn:Hc.
    apply cancel_tokens_spec in Hc as (_ & _ & Hl). simpl in He'. rewrite Hl in He'.
    case_bool_decide; [|eauto using kept_refl].
    destruct (runtime (led s) !! t) as [e|]; simplify_eq/=. eauto using kept_cancel.
  - left. rewrite lookup_fmap in He'. destruct (runtime (led s) !! t) as [e|]; simplify_eq/=.
    eauto using kept_cancel.
Qed.

(** ** Theorems *)

(** C11: the owners' accounts balance.  Whatever registry was loaded and however
    the threads interleave, an owner's counter is the number of records it owns
    plus the reservations in flight for it, no counter is ever zero or negative
    (the decrement does not underflow), and [reserved_sandboxes] is the number of
    reservations in flight. *)
Theorem accounts_balance scan s :
  scan_wf scan → steps (loaded scan) s →
  (∀ o, default 0 (owner_counts (led s) !! o) = owned o (records (led s)) + inflight o (phases s))
  ∧ (∀ o n, owner_counts (led s) !! o = Some n → 0 < n)
  ∧ reserved_sandboxes (led s) = pending (phases s).
Proof. intros Hw Hs. destruct (reachable_inv _ _ Hw Hs) as [[] _]. done. Qed.

(** The per-sandbox index mirrors the runtime registry: after any
    interleaving a token is indexed under a sandbox exactly if it is registered
    with that sandbox, no index set is left empty, every token is a non-zero
    [u64], and no sandbox has more live launches than its cap. *)
Theorem index_mirrors_the_registry scan s :
  scan_wf scan → steps (loaded scan) s →
  (∀ id t, t ∈ default ∅ (runtime_by_sandbox (led s) !! id)
     ↔ ∃ e, runtime (led s) !! t = Some e ∧ sandbox_id e = id)
  ∧ (∀ id, runtime_by_sandbox (led s) !! id ≠ Some ∅)
  ∧ (∀ t e, runtime (led s) !! t = Some e → 0 < t < 2 ^ 64)
  ∧ ∀ id, Z.of_nat (size (default ∅ (runtime_by_sandbox (led s) !! id)))
          <= Z.max 0 (max_concurrent_launches_per_sandbox caps).
Proof.
  intros Hw Hs. destruct (reachable_inv _ _ Hw Hs) as [_ [[Hm Hn] Hln _ Htk]]. done.
Qed.

(** Admission of a new sandbox is exact: a reservation is granted if and
    only if the durable sandboxes and the reservations in flight, in total and
    for the owner, are below both caps. *)
Theorem admission_is_exact scan s o :
  scan_wf scan → steps (loaded scan) s → max_sandboxes caps <= u32_max →
  is_ok (reserve_sandbox caps o (led s)).1 = true ↔
  Z.of_nat (length (records (led s))) + pending (phases s) < max_sandboxes caps
  ∧ owned o (records (led s)) + inflight o (phases s) < max_sandboxes_per_owner caps.
Proof.
  intros Hw Hs Hc. destruct (reachable_inv _ _ Hw Hs) as [Hb _]. unfold reserve_sandbox, sandbox_count.
  rewrite (bk_reserved _ _ Hb), (bk_counts _ _ Hb).
  assert (u32_max < u64_max) by (unfold u32_max, u64_max; lia).
  destruct (max_sandboxes caps <=? _) eqn:H1; bool_to_prop; simpl; [split; [done|lia]|].
  destruct (max_sandboxes_per_owner caps <=? _) eqn:H2; bool_to_prop; simpl; [split; [done|lia]|].
  split; [|done]. intros _. split; [lia|done].
Qed.

(** A launch is admitted only for an [Active] sandbox of the handle's owner,
    while shutdown has not begun and the sandbox is below its launch cap; it gets
    a token no live launch has, registered as a launch in progress without a
    process; every other entry stays. *)
Theorem launch_admission scan s h lease l' :
  scan_wf scan → steps (loaded scan) s → Z.of_nat (size (runtime (led s))) + 2 <= 2 ^ 64 →
  begin_launch caps (frozen s) h (led s) = (Ok lease, l') →
  frozen s = false
  ∧ (∃ m, bt_get (handle_id h) (records (led s)) = Some m ∧ Metadata.state m = Metadata.Active
          ∧ Metadata.owner m = handle_owner h)
  ∧ Z.of_nat (size (default ∅ (runtime_by_sandbox (led s) !! handle_id h)))
      < max_concurrent_launches_per_sandbox caps
  ∧ lease_sandbox lease = handle_id h ∧ lease_token lease ≠ 0
  ∧ runtime (led s) !! lease_token lease = None
  ∧ runtime l' = <[lease_token lease := MkRuntime (handle_id h) Launching false None]> (runtime (led s)).
Proof.
  intros Hw Hs Hsz. destruct (next_loop_fresh (next_token (led s)) (runtime (led s)) Hsz) as [Hz Hf].
  unfold begin_launch, next_runtime_token. remember (next_loop _ _ _) as t eqn:Ht. clear Ht.
  destruct (frozen s); [done|]. destruct (bt_get _ _) as [m|]; [|done].
  destruct (_ || _) eqn:Hb; [done|]. destruct (_ <=? _) eqn:Hc; [done|]. intros [= <- <-].
  bool_to_prop. split_and!; try done. by exists m.
Qed.

(** Every entry is an old one, cancelled. *)
Definition winding_down (from : gmap Z (RuntimeEntry P)) (who : RuntimeEntry P → Prop) l : Prop :=
  ∀ t e, runtime l !! t = Some e → who e →
    cancelled e = true ∧ ∃ e0, from !! t = Some e0 ∧ sandbox_id e = sandbox_id e0
      ∧ marker e = marker e0 ∧ process e = process e0.

Lemma winding_kept from (who : RuntimeEntry P → Prop) l t e e' :
  winding_down from who l → runtime l !! t = Some e → kept_entry e e' → who e →
  cancelled e' = true ∧ ∃ e0, from !! t = Some e0 ∧ sandbox_id e' = sandbox_id e0
      ∧ marker e' = marker e0 ∧ process e' = process e0.
Proof.
  intros Hw He (Hs & Hm & Hp & Hc) Hwho. destruct (Hw _ _ He Hwho) as (Hcan & e0 & He0 & Hs0 & Hm0 & Hp0).
  split; [auto|]. exists e0. split_and!; congruence.
Qed.

Lemma step_frozen who s s' : step who s s' → frozen s = true → frozen s' = true.
Proof. by destruct 1. Qed.

(** Shutdown is final.  Once admission is frozen and the running entries
    have been marked, then however the threads go on, every registered launch is
    one that was registered before, cancelled, with the process it had: none is
    admitted, and none in progress is committed. *)
Theorem shutdown_is_final s0 s :
  inv s0 → frozen s0 = true → steps (with_led (shutdown_marks (led s0)).2 s0) s →
  winding_down (runtime (led s0)) (fun _ => True) (led s)
  ∧ ∀ durable lease control, (finish_launch durable lease control (led s)).1 = false.
Proof.
  intros Hi Hf Hs. set (s1 := with_led _ s0) in Hs.
  assert (Hi1 : inv s1) by (eapply step_inv; [apply step_marks|done]).
  assert (Hw1 : winding_down (runtime (led s0)) (fun _ => True) (led s1)).
  { intros t e. subst s1. simpl. rewrite lookup_fmap.
    destruct (runtime (led s0) !! t) as [e0|]; [|done]. intros [= <-] _. split; [done|]. by exists e0. }
  assert (Hf1 : frozen s1 = true) by done. clearbody s1.
  assert (Hw : winding_down (runtime (led s0)) (fun _ => True) (led s)).
  { induction Hs as [|s1 s2 s3 [who Hst] _ IH]; [done|].
    apply IH; [by eapply step_inv| |by eapply step_frozen].
    intros t e' He' _. destruct (step_entries _ _ _ _ _ Hst Hi1 He') as [(e & He & Hk)|(_ & [Hn|(e & He & Hc)])].
    - by eapply winding_kept.
    - congruence.
    - destruct (Hw1 _ _ He I) as [Hc' _]. congruence. }
  split; [done|]. intros durable lease control.
  destruct (finish_launch durable lease control (led s)) as [b l'] eqn:Hl.
  apply finish_launch_shape in Hl as [[-> _]|(_ & e & He & _ & _ & Hc & _)]; [done|].
  destruct (Hw _ _ He I). congruence.
Qed.

(** The steps of the threads that do not hold the lock of [id]. *)
Definition others (id : string) : shared → shared → Prop :=
  rtc (fun s s' => ∃ who, who ≠ Some id ∧ step who s s').

Lemma step_other_phase who s s' id :
  step who s s' → who ≠ Some id → phases s' !! id = phases s !! id.
Proof.
  destruct 1 as [s id' Hp|s id' p Hp Hnr|s id' m b l' ps Hp Hid Hn|s id' l' ps Hp Hn|s id' Hp Hbl Hhr
    |s id' o l' Hp Hr|s id' o Hp|s m Hp|s m st Hp|s id' p l' ps Hp Hnr Hr|s h r l' Hsz Hl|s d le c b l' Hl
    |s clean le|s id'|s x|s|s]; simpl; intros Hne; try done;
    try (rewrite lookup_insert_ne by congruence; done).
  - by rewrite lookup_delete_ne by congruence.
  - destruct b; [|done]. by rewrite lookup_insert_ne by congruence.
Qed.

(** C13: a deletion stops its sandbox.  Once the thread that holds the lock of a
    sandbox has put the [Deleting] record in the ledger and cancelled its
    launches, then whatever the other threads do, every registered launch of the
    sandbox is one that was there, cancelled: no new launch is admitted and none
    in progress is committed. *)
Theorem deletion_stops_launches s0 s id m :
  inv s0 → phases s0 !! id = Some (Known m) → Metadata.state m = Metadata.Deleting →
  others id (with_led (cancel_marks id (led s0)).2 s0) s →
  winding_down (runtime (led s0)) (fun e => sandbox_id e = id) (led s)
  ∧ ∀ durable lease control, lease_sandbox lease = id →
      (finish_launch durable lease control (led s)).1 = false.
Proof.
  intros Hi Hp Hd Hs. set (s1 := with_led _ s0) in Hs.
  assert (Hi1 : inv s1) by (eapply step_inv; [apply (step_cancel s0 id)|done]).
  assert (Hw1 : winding_down (runtime (led s0)) (fun e => sandbox_id e = id) (led s1)).
  { intros t e. subst s1. unfold cancel_marks. simpl.
    destruct (cancel_tokens _ _) as [ps l'] eqn:Hc. apply cancel_tokens_spec in Hc as (_ & _ & Hl).
    simpl. rewrite Hl. intros He Hid. rewrite bool_decide_true in He.
    - destruct (runtime (led s0) !! t) as [e0|]; simplify_eq/=. split; [done|]. by exists e0.
    - unfold runtime_tokens_for. apply elem_of_elements, (rg_indexed _ _ (inv_registry _ Hi)).
      case_bool_decide; destruct (runtime (led s0) !! t) as [e0|]; simplify_eq/=; eauto. }
  assert (Hp1 : phases s1 !! id = Some (Known m)) by done. clearbody s1.
  assert (Hw : winding_down (runtime (led s0)) (fun e => sandbox_id e = id) (led s)
    ∧ inv s ∧ phases s !! id = Some (Known m)).
  { induction Hs as [|s1 s2 s3 (who & Hne & Hst) _ IH]; [done|].
    apply IH; [by eapply step_inv| |by rewrite (step_other_phase _ _ _ _ Hst Hne)].
    intros t e' He' Hid. destruct (step_entries _ _ _ _ _ Hst Hi1 He') as [(e & He & Hk)|((m' & Hg & Ha) & _)].
    - eapply winding_kept; [done..|]. destruct Hk. congruence.
    - pose proof (bk_phases _ _ (inv_books _ Hi1) _ _ Hp1) as Hr. simpl in Hr. congruence. }
  destruct Hw as (Hw & His & Hps). split; [done|]. intros durable lease control Hid.
  destruct (finish_launch durable lease control (led s)) as [b l'] eqn:Hl.
  apply finish_launch_shape in Hl as [[-> _]|(_ & e & He & Hse & _ & Hc & _)]; [done|].
  destruct (Hw _ _ He ltac:(congruence)). congruence.
Qed.
End system.

(** ** A concrete interleaving

    The registry holds [dev]; one thread reserves a place for [web] while
    another launches a process (number 7) in [dev]. *)

Definition sample_caps : Caps := MkCaps 4 2 2.
Definition dev : Metadata.t := Metadata.sample.
Definition sample_scan : Storage.ScanResult := Storage.MkScan [("dev", Storage.Active dev)] 0.
Definition dev_lease : RuntimeLease := MkRuntimeLease 1 "dev".

Definition t0 : @shared nat := loaded sample_scan.
Definition t1 : shared := with_phase "web" Holding t0.
Definition t2 : shared := with_phase "web" Vacant t1.
Definition t3 : shared :=
  with_phase "web" (InFlight (Metadata.owner dev))
    (with_led (reserve_sandbox sample_caps (Metadata.owner dev) (led t2)).2 t2).
Definition t4 : shared :=
  with_led (begin_launch sample_caps false (MkHandleKey "dev" (Metadata.owner dev)) (led t3)).2 t3.
Definition t5 : shared :=
  with_led (finish_launch (Ok (Storage.Active dev)) dev_lease 7%nat (led t4)).2 t4.

Lemma sample_scan_wf : scan_wf sample_scan.
Proof.
  intros id e m Hin Hr. apply list_elem_of_singleton in Hin. injection Hin as -> ->.
  injection Hr as <-. reflexivity.
Qed.

Lemma trace_to_t3 : steps sample_caps t0 t3.
Proof.
  apply (rtc_l _ t0 t1); [exists (Some "web"); by apply step_acquire|].
  apply (rtc_l _ t1 t2); [exists (Some "web"); by apply step_vacant|].
  apply rtc_once. exists (Some "web"). apply (step_reserve _ t2 "web"); [done|]. vm_compute. reflexivity.
Qed.

Lemma trace_to_t5 : steps sample_caps t0 t5.
Proof.
  etrans; [apply trace_to_t3|].
  apply (rtc_l _ t3 t4);
    [exists None; eapply (step_begin _ t3); [by vm_compute|apply surjective_pairing]|].
  apply rtc_once. exists None. eapply (step_finish _ t4). apply surjective_pairing.
Qed.

Lemma accounts_balance_witness :
  scan_wf sample_scan
  ∧ default 0 (owner_counts (led t5) !! Metadata.owner dev) = 2
  ∧ 2 = owned (Metadata.owner dev) (records (led t5)) + inflight (Metadata.owner dev) (phases t5).
Proof.
  split; [exact sample_scan_wf|]. split; [vm_compute; reflexivity|].
  destruct (accounts_balance sample_caps sample_scan t5 sample_scan_wf trace_to_t5) as [Hb _].
  rewrite <-(Hb (Metadata.owner dev)). vm_compute. reflexivity.
Defined.

Lemma index_mirrors_the_registry_witness :
  ∃ e, runtime (led t5) !! 1 = Some e ∧ sandbox_id e = "dev".
Proof.
  destruct (index_mirrors_the_registry sample_caps sample_scan t5 sample_scan_wf trace_to_t5) as [Hm _].
  apply (Hm "dev" 1), (bool_decide_unpack _). vm_compute. exact I.
Defined.

Lemma admission_is_exact_witness :
  is_ok (reserve_sandbox sample_caps "SHA256:other" (led t5)).1 = true
  ∧ owned "SHA256:other" (records (led t5)) + inflight "SHA256:other" (phases t5) < 2.
Proof.
  assert (Hk : is_ok (reserve_sandbox sample_caps "SHA256:other" (led t5)).1 = true)
    by (vm_compute; reflexivity).
  split; [exact Hk|].
  apply (admission_is_exact sample_caps sample_scan t5 "SHA256:other" sample_scan_wf trace_to_t5)
    in Hk as [_ Hk]; [exact Hk|vm_compute; discriminate].
Defined.

Lemma launch_admission_witness :
  (begin_launch sample_caps (frozen t3) (MkHandleKey "dev" (Metadata.owner dev)) (led t3)).1 = Ok dev_lease
  ∧ runtime (led t4) = <[1 := MkRuntime "dev" Launching false None]> (runtime (led t3)).
Proof.
  split; [vm_compute; reflexivity|].
  apply (launch_admission sample_caps sample_scan t3 (MkHandleKey "dev" (Metadata.owner dev)) dev_lease
           (led t4) sample_scan_wf trace_to_t3); [vm_compute; discriminate|vm_compute; reflexivity].
Defined.

(** Shutdown while the process runs. *)
Definition t6 : shared := MkShared (led t5) (phases t5) true.

Lemma t6_inv : inv sample_caps t6.
Proof.
  eapply step_inv; [apply (step_freeze _ t5)|].
  apply (reachable_inv _ sample_scan); [apply sample_scan_wf|apply trace_to_t5].
Qed.

Lemma shutdown_is_final_witness :
  frozen t6 = true
  ∧ winding_down (runtime (led t6)) (fun _ => True) (shutdown_marks (led t6)).2.
Proof.
  split; [reflexivity|].
  apply (shutdown_is_final sample_caps t6 (with_led (shutdown_marks (led t6)).2 t6) t6_inv eq_refl).
  apply rtc_refl.
Defined.

(** [dev] is deleted while its process runs. *)
Definition dev_deleting : Metadata.t := Metadata.with_state dev Metadata.Deleting.
Definition d1 : shared := with_phase "dev" Holding t5.
Definition d2 : shared :=
  MkShared (note_valid_record "dev" dev (led d1)).2.1 (<["dev" := Known dev]> (phases d1)) (frozen d1).
Definition d3 : shared :=
  with_phase "dev" (Known dev_deleting) (with_led (replace_record dev_deleting (led d2)) d2).

Definition d4 : shared := with_led (cancel_marks "dev" (led d3)).2 d3.

Lemma d2_phase : phases d2 !! "dev" = Some (Known dev).
Proof. vm_compute. reflexivity. Qed.

Lemma d3_inv : inv sample_caps d3.
Proof.
  eapply step_inv; [apply (step_replace _ d2 dev Metadata.Deleting d2_phase)|].
  eapply step_inv; [apply (step_note _ d1 "dev" dev true (note_valid_record "dev" dev (led d1)).2.1 []);
    vm_compute; reflexivity|].
  eapply step_inv; [apply (step_acquire _ t5 "dev"); by vm_compute|].
  apply (reachable_inv _ sample_scan); [apply sample_scan_wf|apply trace_to_t5].
Qed.

Lemma d3_phase : phases d3 !! "dev" = Some (Known dev_deleting).
Proof. vm_compute. reflexivity. Qed.

Lemma deletion_stops_launches_witness :
  phases d3 !! "dev" = Some (Known dev_deleting)
  ∧ winding_down (runtime (led d3)) (fun e => sandbox_id e = "dev") (led d4).
Proof.
  split; [exact d3_phase|].
  destruct (deletion_stops_launches sample_caps d3 d4 "dev" dev_deleting d3_inv d3_phase) as [Hw _];
    [reflexivity|apply rtc_refl|exact Hw].
Defined.
End RuntimeSafety.
