(* ===== verification/LifecycleLocks.v ===== *)
(** * The per-sandbox lifecycle locks ([LifecycleLock] of [sandbox/manager.rs])

    The manager keeps a map from sandbox IDs to reference-counted mutexes.  An
    operation on a sandbox takes a clone of its entry, locks it, and drops both
    when it returns.  Reference counts are kept as the code has them: one for
    the map, one for each clone. *)

From stdpp Require Import relations.
From S2P Require Import Prelude.

Module LifecycleLocks.

(** An [Arc] is the place of its mutex; a [LifecycleLock] is known by the thread
    that took it. *)
Abbreviation arc := nat.
Abbreviation thread := nat.

Record LifecycleLock := MkLock { lock_id : string; entry : arc }.

Record state := MkState
  { lifecycle_locks : gmap string arc;
    strong_count : gmap arc Z;
    taken : gmap thread LifecycleLock;
    holder : gmap arc thread;
    next_arc : arc }.

Definition empty : state := MkState ∅ ∅ ∅ ∅ 0.

Definition count_of (s : state) (a : arc) : Z := default 0 (strong_count s !! a).

(** [lifecycle_lock]: [entry(id).or_insert_with(Arc::new).clone()]. *)
Definition lifecycle_lock (id : string) (t : thread) (s : state) : state :=
  match lifecycle_locks s !! id with
  | Some a =>
      MkState (lifecycle_locks s) (<[a := count_of s a + 1]> (strong_count s))
        (<[t := MkLock id a]> (taken s)) (holder s) (next_arc s)
  | None =>
      let a := next_arc s in
      MkState (<[id := a]> (lifecycle_locks s)) (<[a := 2]> (strong_count s))
        (<[t := MkLock id a]> (taken s)) (holder s) (S a)
  end.

(** [LifecycleLock::lock], once the mutex is free. *)
Definition lock (t : thread) (l : LifecycleLock) (s : state) : state :=
  MkState (lifecycle_locks s) (strong_count s) (taken s) (<[entry l := t]> (holder s)) (next_arc s).

(** The guard, declared after the [LifecycleLock], is dropped first. *)
Definition unlock (l : LifecycleLock) (s : state) : state :=
  MkState (lifecycle_locks s) (strong_count s) (taken s) (delete (entry l) (holder s)) (next_arc s).

(** The body of [Drop::drop], under the map's mutex. *)
Definition drop_body (l : LifecycleLock) (s : state) : state :=
  if count_of s (entry l) =? 1 then
    MkState (filter (fun b => b.2 ≠ entry l) (lifecycle_locks s)) (strong_count s) (taken s)
      (holder s) (next_arc s)
  else s.

(** [Drop::drop], then the drop of the field [entry]. *)
Definition drop_lock (t : thread) (l : LifecycleLock) (s : state) : state :=
  let s1 := drop_body l s in
  MkState (lifecycle_locks s1) (<[entry l := count_of s1 (entry l) - 1]> (strong_count s1))
    (delete t (taken s1)) (holder s1) (next_arc s1).

(** The steps of the daemon's threads. *)
Inductive step (s : state) : state → Prop :=
| step_lookup id t : taken s !! t = None → step s (lifecycle_lock id t s)
| step_lock t l :
    taken s !! t = Some l → holder s !! entry l = None → step s (lock t l s)
| step_unlock t l :
    taken s !! t = Some l → holder s !! entry l = Some t → step s (unlock l s)
| step_drop t l :
    taken s !! t = Some l → holder s !! entry l ≠ Some t → step s (drop_lock t l s).

(** ** The invariant *)

(** The clones of an entry that threads have. *)
Definition clones (a : arc) (ts : gmap thread LifecycleLock) : Z :=
  Z.of_nat (size (filter (fun b : thread * LifecycleLock => entry b.2 = a) ts)).

Record inv (s : state) : Prop := MkInv {
  iv_fresh : ∀ id a, lifecycle_locks s !! id = Some a → (a < next_arc s)%nat;
  iv_injective : ∀ id1 id2 a, lifecycle_locks s !! id1 = Some a → lifecycle_locks s !! id2 = Some a → id1 = id2;
  iv_taken : ∀ t l, taken s !! t = Some l → lifecycle_locks s !! lock_id l = Some (entry l);
  iv_count : ∀ id a, lifecycle_locks s !! id = Some a → count_of s a = 1 + clones a (taken s);
  iv_holder : ∀ a t, holder s !! a = Some t → ∃ l, taken s !! t = Some l ∧ entry l = a;
}.

Lemma clones_insert a t l (ts : gmap thread LifecycleLock) :
  ts !! t = None → clones a (<[t := l]> ts) = clones a ts + if bool_decide (entry l = a) then 1 else 0.
Proof.
  intros Hn. unfold clones. case_bool_decide as He.
  - rewrite map_filter_insert_True by done. rewrite map_size_insert_None; [lia|].
    apply map_lookup_filter_None. by left.
  - rewrite map_filter_insert_False by done. rewrite delete_id by done. lia.
Qed.

Lemma clones_delete a t l (ts : gmap thread LifecycleLock) :
  ts !! t = Some l → clones a (delete t ts) = clones a ts - if bool_decide (entry l = a) then 1 else 0.
Proof.
  intros Hl. assert (Hd : delete t ts !! t = None) by apply lookup_delete_eq.
  pose proof (clones_insert a t l (delete t ts) Hd) as Hc.
  rewrite insert_delete_id in Hc by done. lia.
Qed.

Lemma clones_nonneg a ts : 0 <= clones a ts.
Proof. unfold clones. lia. Qed.

(** A live clone of an entry that is in the map is never the only reference. *)
Lemma never_alone s t l : inv s → taken s !! t = Some l → 2 <= count_of s (entry l).
Proof.
  intros Hi Hl. rewrite (iv_count _ Hi _ _ (iv_taken _ Hi _ _ Hl)).
  pose proof (clones_delete (entry l) t l _ Hl) as Hc. rewrite bool_decide_true in Hc by done.
  pose proof (clones_nonneg (entry l) (delete t (taken s))). lia.
Qed.

Lemma drop_keeps_the_map s t l :
  inv s → taken s !! t = Some l → drop_body l s = s.
Proof.
  intros Hi Hl. unfold drop_body. pose proof (never_alone _ _ _ Hi Hl).
  destruct (count_of s (entry l) =? 1) eqn:He; [|done]. bool_to_prop. lia.
Qed.

Lemma inv_empty : inv empty.
Proof. split; simpl; intros *; rewrite ?lookup_empty; done. Qed.

Lemma clones_zero a ts : (∀ t l, ts !! t = Some l → entry l ≠ a) → clones a ts = 0.
Proof.
  intros Hn. unfold clones.
  replace (filter _ ts) with (∅ : gmap thread LifecycleLock); [by rewrite map_size_empty|].
  symmetry. apply map_empty. intros t. apply map_lookup_filter_None. right. intros l Hl. by eapply Hn.
Qed.

Lemma fresh_clones s : inv s → clones (next_arc s) (taken s) = 0.
Proof.
  intros Hi. apply clones_zero. intros t l Hl He.
  pose proof (iv_fresh _ Hi _ _ (iv_taken _ Hi _ _ Hl)). lia.
Qed.

Lemma inv_lookup s id t : inv s → taken s !! t = None → inv (lifecycle_lock id t s).
Proof.
  intros Hi Hn. pose proof Hi as [Hf Hj Ht Hc Hh]. unfold lifecycle_lock.
  assert (Hhold : ∀ l a t', holder s !! a = Some t' → ∃ l', <[t := l]> (taken s) !! t' = Some l' ∧ entry l' = a).
  { intros l a t' Hx. destruct (Hh _ _ Hx) as (l' & Hl & He). exists l'. split; [|done].
    rewrite lookup_insert_ne; [done|]. congruence. }
  destruct (lifecycle_locks s !! id) as [a|] eqn:Ha; split; simpl; try done.
  - intros t' l' [[<- <-]|[_ Hx]]%lookup_insert_Some; [done|by eapply Ht].
  - intros id' a' Ha'. rewrite clones_insert by done. unfold count_of in *. simpl. specialize (Hc _ _ Ha').
    destruct (decide (a = a')) as [->|Hne].
    + rewrite lookup_insert_eq, bool_decide_true by done. simpl. lia.
    + rewrite lookup_insert_ne, bool_decide_false by done. lia.
  - apply Hhold.
  - intros id' a' [[<- <-]|[_ Hx%Hf]]%lookup_insert_Some; lia.
  - intros id1 id2 a' [[<- <-]|[_ Hx]]%lookup_insert_Some [[<- Hy]|[_ Hy]]%lookup_insert_Some; try done.
    + apply Hf in Hy. lia.
    + apply Hf in Hx. lia.
    + by eapply Hj.
  - intros t' l' [[<- <-]|[_ Hx%Ht]]%lookup_insert_Some; simpl; [by rewrite lookup_insert_eq|].
    rewrite lookup_insert_ne; [done|]. congruence.
  - intros id' a'. rewrite clones_insert by done. unfold count_of in *. simpl.
    intros [[<- <-]|[_ Hx]]%lookup_insert_Some.
    + rewrite lookup_insert_eq, bool_decide_true, (fresh_clones s Hi) by done. done.
    + apply Hf in Hx as Hlt. rewrite lookup_insert_ne, bool_decide_false by lia. specialize (Hc _ _ Hx). lia.
  - apply Hhold.
Qed.

Lemma inv_drop s t l :
  inv s → taken s !! t = Some l → holder s !! entry l ≠ Some t → inv (drop_lock t l s).
Proof.
  intros Hi Hl Hno. unfold drop_lock. rewrite (drop_keeps_the_map _ _ _ Hi Hl).
  destruct Hi as [Hf Hj Ht Hc Hh]. split; simpl; try done.
  - intros t' l' [_ Hx]%lookup_delete_Some. by eapply Ht.
  - intros id' a' Ha'. rewrite (clones_delete _ _ _ _ Hl). unfold count_of in *. simpl.
    specialize (Hc _ _ Ha'). destruct (decide (entry l = a')) as [<-|Hne].
    + rewrite lookup_insert_eq, bool_decide_true by done. simpl. lia.
    + rewrite lookup_insert_ne, bool_decide_false by done. lia.
  - intros a' t' Hx. destruct (Hh _ _ Hx) as (l' & Hl' & He). exists l'. split; [|done].
    rewrite lookup_delete_ne; [done|]. intros <-. rewrite Hl in Hl'. congruence.
Qed.

Lemma locks_step_inv s s' : step s s' → inv s → inv s'.
Proof.
  intros [id t Hn|t l Hl Hfree|t l Hl Hown|t l Hl Hno] Hi.
  - by apply inv_lookup.
  - destruct Hi as [Hf Hj Ht Hc Hh]. split; simpl; try done.
    intros a t' [[<- <-]|[_ Hx]]%lookup_insert_Some; eauto.
  - destruct Hi as [Hf Hj Ht Hc Hh]. split; simpl; try done.
    intros a t' [_ Hx]%lookup_delete_Some. eauto.
  - by apply inv_drop.
Qed.

Lemma locks_reachable_inv s : rtc step empty s → inv s.
Proof.
  intros Hr. eapply (rtc_ind_r inv); [apply inv_empty|intros; by eapply locks_step_inv|exact Hr].
Qed.

(** ** Theorems *)

(** The lifecycle locks exclude each other.  Whatever the interleaving,
    threads that hold the lock of the same sandbox are the same thread: all the
    clones taken for one identifier are clones of one mutex, and locks of
    different sandboxes are different mutexes, so that one sandbox's operations
    never wait for another's. *)
Theorem lifecycle_locks_exclude s t1 t2 l1 l2 :
  rtc step empty s → taken s !! t1 = Some l1 → taken s !! t2 = Some l2 →
  (lock_id l1 = lock_id l2 ↔ entry l1 = entry l2)
  ∧ (holder s !! entry l1 = Some t1 → holder s !! entry l2 = Some t2 → lock_id l1 = lock_id l2 → t1 = t2).
Proof.
  intros Hr H1 H2. pose proof (locks_reachable_inv _ Hr) as Hi.
  pose proof (iv_taken _ Hi _ _ H1) as Ha. pose proof (iv_taken _ Hi _ _ H2) as Hb.
  assert (He : lock_id l1 = lock_id l2 ↔ entry l1 = entry l2).
  { split; intros Heq; [congruence|]. eapply (iv_injective _ Hi); [exact Ha|]. by rewrite Heq. }
  split; [done|]. intros Hh1 Hh2 Hid. apply He in Hid. rewrite Hid in Hh1. congruence.
Qed.

(** A defect of the code: the lock map only grows.  [Drop] removes an entry
    when its clone is the only reference, but the map itself holds another, so
    the test never succeeds: every sandbox identifier that was ever claimed or
    deleted, valid or not, by anyone, keeps its entry, although the comment on
    [LifecycleLock] promises the opposite. *)
Theorem lock_map_never_shrinks s s' id :
  rtc step empty s → rtc step s s' →
  lifecycle_locks s !! id = None ∨ lifecycle_locks s' !! id = lifecycle_locks s !! id.
Proof.
  intros Hr Hs. apply locks_reachable_inv in Hr. induction Hs as [s|s s1 s' Hst _ IH]; [by right|].
  assert (Hone : lifecycle_locks s !! id = None ∨ lifecycle_locks s1 !! id = lifecycle_locks s !! id).
  { destruct Hst as [id' t Hn|t l Hl Hfree|t l Hl Hown|t l Hl Hno]; [|by right..|right].
    - unfold lifecycle_lock. destruct (lifecycle_locks s !! id') eqn:Ha; [by right|]. simpl.
      destruct (decide (id' = id)) as [->|]; [by left|right]. by rewrite lookup_insert_ne.
    - unfold drop_lock. by rewrite (drop_keeps_the_map _ _ _ Hr Hl). }
  specialize (IH (locks_step_inv _ _ Hst Hr)). destruct Hone as [|Hone]; [by left|].
  rewrite Hone in IH. done.
Qed.

(** ** A run: one thread claims [dev] and returns *)

Definition dev : LifecycleLock := MkLock "dev" 0.
Definition s1 : state := lifecycle_lock "dev" 7 empty.
Definition s2 : state := lock 7 dev s1.
Definition s3 : state := unlock dev s2.
Definition s4 : state := drop_lock 7 dev s3.

Lemma to_s2 : rtc step empty s2.
Proof.
  apply (rtc_l _ _ s1); [apply step_lookup; reflexivity|].
  apply (rtc_l _ _ s2); [|apply rtc_refl]. apply (step_lock s1 7 dev); reflexivity.
Qed.

Lemma from_s2 : rtc step s2 s4.
Proof.
  apply (rtc_l _ _ s3); [apply (step_unlock s2 7 dev); reflexivity|].
  apply (rtc_l _ _ s4); [|apply rtc_refl].
  apply (step_drop s3 7 dev); [reflexivity|]. vm_compute. discriminate.
Qed.

Lemma lifecycle_locks_exclude_witness :
  holder s2 !! 0%nat = Some 7%nat ∧ (lock_id dev = lock_id dev ↔ entry dev = entry dev).
Proof.
  split; [reflexivity|].
  destruct (lifecycle_locks_exclude s2 7 7 dev dev to_s2) as [He _]; [reflexivity|reflexivity|].
  exact He.
Defined.

(** Nobody uses [dev] any more, but its entry is still there. *)
Lemma lock_map_never_shrinks_witness :
  taken s4 = ∅ ∧ lifecycle_locks s4 !! "dev" = Some 0%nat.
Proof.
  split; [vm_compute; reflexivity|].
  destruct (lock_map_never_shrinks s2 s4 "dev" to_s2 from_s2) as [Hn|He].
  - vm_compute in Hn. discriminate Hn.
  - rewrite He. vm_compute. reflexivity.
Defined.
End LifecycleLocks.
