(* ===== verification/Manager.v ===== *)
(** * The sandbox manager ([sandbox/manager.rs])

    The lifecycle service the SSH layer calls: it composes the durable registry
    ([Storage]), the subordinate-ID allocator ([Allocator]), the in-memory ledger
    ([RuntimeLedger]) and the process launcher.  An operation here is what one
    thread does from beginning to end; what other threads may do to the ledger
    while it waits for processes is an argument, and [RuntimeSafety] treats their
    interleavings.  The random lease token of a claim is an argument. *)

From S2P Require Import Prelude BTree Text Toml Idents Metadata Delegation FileSystem Storage LeaseRecord LedgerSpec LeaseStore Allocator RuntimeLedger.

Module Manager.
Import RuntimeLedger.

Export Principals.

Definition authorized (principal : Principal) (owner : string) : bool :=
  bool_decide (role principal = Admin) || bool_decide (fingerprint principal = owner).

Inductive DeleteResult := Noop | Deleted.

(** [shbox_sandbox::IsolatedIdentity]. *)
Record IsolatedIdentity := MkIdentity
  { runtime_uid : Z; runtime_gid : Z; host_uid : Z; host_gid : Z }.

Definition ISOLATED_RUNTIME_UID_GID : Z := 1000.
Definition RUNTIME_CLEANUP_TIMEOUT : Z := 5.

Record SandboxHandle := MkHandle
  { h_id : string; h_owner : string; h_workspace : string;
    h_identity : option IsolatedIdentity; h_created : bool }.

Inductive LaunchOperation := Shell | Exec (command : string).

(** [platform::LaunchRequest]; the terminal settings are passed through. *)
Record LaunchRequest (Pty : Type) := MkRequest
  { rq_sandbox_id : string; rq_workspace : string; rq_identity : option IsolatedIdentity;
    rq_operation : LaunchOperation; rq_pty : option Pty; rq_environment : list (string * string) }.
Arguments MkRequest {Pty}.

(** The traits [platform::ProcessLauncher] and [platform::RunningProcess], over
    the platform's state [L] and its process controls [P].  Timeouts are seconds. *)
Class ProcessLauncher (Pty P L : Type) := {
  launch_process : LaunchRequest Pty → M L LaunchError P;
  release_sandbox_resources : string → M L LaunchError unit;
  reconcile_startup_resources : M L LaunchError unit;
  shutdown_sandbox_resources : M L LaunchError unit;
  force_shutdown_sandbox_resources : L → L;
  terminate : P → L → L;
  force_terminate : P → L → L;
  wait_for_cleanup : P → Z → L → bool * L;
}.

Section manager.
Context `{TomlCrate} `{UnicodeTables} `{Host}.
Context {St : Type} `{!LeaseLedger St}.
Context {Pty P L : Type} `{!ProcessLauncher Pty P L}.
(** The registry root and the configured caps. *)
Context (root_path : string) (caps : Caps).

(** [SandboxManager], with the disk, the platform and the process-wide
    delegation cache it acts on.  [host_ids n] is what the account database and
    the [getsubids] helper answer to query number [n]. *)
Record SandboxManager := MkManager
  { disk : world;
    subids : option (Allocator.SubidAllocator St);
    ledger : Ledger P;
    platform : L;
    host_ids : nat → Delegation.world;
    queries : nat;
    delegation_cache : Delegation.DelegationCache;
    ready : bool;
    launch_admission_frozen : bool }.

Abbreviation Mg := (M SandboxManager Error).

Definition set_disk (w : world) (s : SandboxManager) : SandboxManager :=
  MkManager w (subids s) (ledger s) (platform s) (host_ids s) (queries s) (delegation_cache s)
    (ready s) (launch_admission_frozen s).
Definition set_subids (a : option (Allocator.SubidAllocator St)) (s : SandboxManager) : SandboxManager :=
  MkManager (disk s) a (ledger s) (platform s) (host_ids s) (queries s) (delegation_cache s)
    (ready s) (launch_admission_frozen s).
Definition set_ledger (l : Ledger P) (s : SandboxManager) : SandboxManager :=
  MkManager (disk s) (subids s) l (platform s) (host_ids s) (queries s) (delegation_cache s)
    (ready s) (launch_admission_frozen s).
Definition set_platform (p : L) (s : SandboxManager) : SandboxManager :=
  MkManager (disk s) (subids s) (ledger s) p (host_ids s) (queries s) (delegation_cache s)
    (ready s) (launch_admission_frozen s).
Definition set_cache (c : Delegation.DelegationCache) (s : SandboxManager) : SandboxManager :=
  MkManager (disk s) (subids s) (ledger s) (platform s) (host_ids s) (S (queries s)) c (ready s)
    (launch_admission_frozen s).
Definition set_ready (b : bool) (s : SandboxManager) : SandboxManager :=
  MkManager (disk s) (subids s) (ledger s) (platform s) (host_ids s) (queries s) (delegation_cache s)
    b (launch_admission_frozen s).
Definition set_frozen (b : bool) (s : SandboxManager) : SandboxManager :=
  MkManager (disk s) (subids s) (ledger s) (platform s) (host_ids s) (queries s) (delegation_cache s)
    (ready s) b.

(** Calls into the parts. *)
Definition on_disk {A} (m : M world Storage.Error A) : Mg A := fun s =>
  let '(r, w) := m (disk s) in (map_err StorageError r, set_disk w s).

Abbreviation Al := (M (Allocator.SubidAllocator St) Allocator.Error).

(** Called where the manager is known to have an allocator. *)
Definition on_allocator {A} (m : Al A) : Mg A := fun s =>
  match subids s with
  | Some a => let '(r, a') := m a in (map_err SubidError r, set_subids (Some a') s)
  | None => (Err Unavailable, s)
  end.

Definition on_platform {A} (m : M L LaunchError A) : Mg A := fun s =>
  let '(r, p) := m (platform s) in (map_err Launch r, set_platform p s).

Definition on_ledger {A} (f : Ledger P → A * Ledger P) : Mg A := fun s =>
  let '(a, l) := f (ledger s) in (Ok a, set_ledger l s).

(** A ledger section that terminates processes. *)
Definition on_ledger_terminating {A} (f : Ledger P → A * (Ledger P * list P)) : Mg A := fun s =>
  let '(a, (l, ps)) := f (ledger s) in
  (Ok a, set_platform (foldl (fun p c => terminate c p) (platform s) ps) (set_ledger l s)).

Definition remove_record (id : string) : Mg unit :=
  on_ledger_terminating (fun l => (tt, remove_record_from_ledger id l)).

(** [subid::delegation::query_delegation]. *)
Definition query_delegation : Mg Delegation.Delegation := fun s =>
  let '(r, c) := Delegation.query (host_ids s (queries s)) (delegation_cache s) in
  (map_err DelegationError r, set_cache c s).

Definition ensure_ready : Mg unit :=
  s ← getS;
  if ready s then mret tt else fail Unavailable.

Definition handle (metadata : Metadata.t) (identity : option IsolatedIdentity) (created : bool)
    : SandboxHandle :=
  MkHandle (Metadata.id metadata) (Metadata.owner metadata)
    (Storage.workspace_path root_path (Metadata.id metadata)) identity created.

(** ** Identities *)

Definition reserve_identity (token : Z) (id owner : string) : Mg (option Lease.LeaseRecord) :=
  s ← getS;
  match subids s with
  | None => mret None
  | Some _ =>
      d ← query_delegation;
      record ← on_allocator (Allocator.claim token id owner d);
      mret (Some record)
  end.

Definition identity_for (metadata : Metadata.t) : Mg (option IsolatedIdentity) :=
  s ← getS;
  match subids s with
  | None => mret None
  | Some _ =>
      found ← on_allocator (Allocator.lease_for (Metadata.id metadata));
      record ← liftR (ok_or Unavailable found);
      if negb (bool_decide (Lease.owner record = Metadata.owner metadata))
         || negb (bool_decide (Lease.state record = Lease.Active))
      then fail Unavailable
      else
        d ← query_delegation;
        _ ← liftR (map_err SubidError (Allocator.validate_delegated record d));
        mret (Some (MkIdentity ISOLATED_RUNTIME_UID_GID ISOLATED_RUNTIME_UID_GID
                      (Lease.uid record) (Lease.gid record)))
  end.

Definition release_reserved_identity (record : Lease.LeaseRecord) : Mg unit :=
  s ← getS;
  match subids s with
  | None => mret tt
  | Some _ =>
      r ← tryM (on_allocator
                  (_ ← Allocator.begin_release record; Allocator.finish_release record));
      match r with
      | Ok tt => mret tt
      | Err _ =>
          _ ← (tryM (on_allocator (Allocator.quarantine record "reservation cleanup was ambiguous"))
               : Mg (result Error unit));
          mret tt
      end
  end.

(** ** Claiming *)

(** The activation of the lease of a sandbox just published. *)
Definition activate_identity (record : Lease.LeaseRecord) : Mg unit :=
  s ← getS;
  match subids s with
  | None => mret tt
  | Some _ =>
      r ← tryM (on_allocator (Allocator.activate record));
      match r with
      | Ok _ => mret tt
      | Err _ =>
          _ ← (tryM (on_allocator (Allocator.quarantine record
                 "activation failed after sandbox publication")) : Mg (result Error unit));
          fail Unavailable
      end
  end.

(** [claim] once a place and an identity are reserved. *)
Definition create_claimed (id owner : string) (reserved_identity : option Lease.LeaseRecord)
    : Mg SandboxHandle :=
  created ← (fun s => let '(r, w) := Storage.create_active root_path id owner (disk s) in
                      (Ok r, set_disk w s) : result Error _ * _);
  match created with
  | Ok metadata =>
      _ ← on_ledger (fun l => (tt, insert_reserved metadata l));
      _ ← match reserved_identity with
          | Some record => activate_identity record
          | None => mret tt
          end;
      identity ← identity_for metadata;
      mret (handle metadata identity true)
  | Err error =>
      _ ← match reserved_identity with
          | Some record => release_reserved_identity record
          | None => mret tt
          end;
      _ ← on_ledger (fun l => (tt, release_sandbox owner l));
      match error with
      | Storage.AlreadyExists _ => fail Unavailable
      | _ => fail (StorageError error)
      end
  end.

(** The [Absent] arm of [claim]. *)
Definition claim_absent (token : Z) (principal : Principal) (id : string) : Mg SandboxHandle :=
  let owner := fingerprint principal in
  s ← getS;
  if is_blocked id (ledger s) || has_record id (ledger s) then fail Unavailable
  else
    admitted ← on_ledger (reserve_sandbox caps owner);
    _ ← liftR (map_err Limit admitted);
    identity ← tryM (reserve_identity token id owner);
    match identity with
    | Err error =>
        _ ← on_ledger (fun l => (tt, release_sandbox owner l));
        fail error
    | Ok reserved_identity => create_claimed id owner reserved_identity
    end.

Definition claim (token : Z) (principal : Principal) (id : string) : Mg SandboxHandle :=
  _ ← ensure_ready;
  entry ← on_disk (Storage.inspect root_path id);
  match entry with
  | Storage.Active metadata =>
      valid ← on_ledger_terminating (note_valid_record id metadata);
      if negb valid then fail Unavailable
      else if negb (authorized principal (Metadata.owner metadata)) then fail Unavailable
      else
        identity ← identity_for metadata;
        mret (handle metadata identity false)
  | Storage.Deleting metadata =>
      _ ← on_ledger_terminating (note_valid_record id metadata);
      fail Unavailable
  | Storage.Corrupt _ =>
      _ ← on_ledger_terminating (fun l => (tt, note_corrupt id l));
      fail Unavailable
  | Storage.Absent => claim_absent token principal id
  end.

(** ** Listing *)

Definition listed (principal : Principal) (blocked : gset string) (b : string * Storage.Entry)
    : option string :=
  match b.2 with
  | Storage.Active metadata =>
      if negb (bool_decide (b.1 ∈ blocked)) && authorized principal (Metadata.owner metadata)
      then Some b.1 else None
  | _ => None
  end.

Definition string_leb (a b : string) : bool :=
  match kcompare a b with Gt => false | _ => true end.

(** [Vec::dedup]. *)
Fixpoint dedup (l : list string) : list string :=
  match l with
  | a :: (b :: _) as l' => if bool_decide (a = b) then dedup l' else a :: dedup l'
  | _ => l
  end.

Definition list (principal : Principal) : Mg (list string) :=
  _ ← ensure_ready;
  scan ← on_disk (Storage.scan root_path);
  s ← getS;
  mret (dedup (sort_by string_leb
    (omap (listed principal (blocked (ledger s))) (Storage.entries_found scan)))).

(** ** Waiting for processes

    Between the critical sections of a wait the other threads of the daemon run:
    [rival] is a ledger section of a thread that holds no lifecycle lock. *)

Inductive rival :=
| RivalBegin (h : HandleKey)
| RivalFinish (durable : result Storage.Error Storage.Entry) (lease : RuntimeLease) (control : P)
| RivalClear (clean : P → bool) (lease : RuntimeLease).

(** A launch is admitted only while the token loop can find a free token. *)
Definition rival_step (frozen : bool) (l : Ledger P) (r : rival) : Ledger P :=
  match r with
  | RivalBegin h =>
      if bool_decide (Z.of_nat (size (runtime l)) + 2 <= 2 ^ 64)
      then (begin_launch caps frozen h l).2 else l
  | RivalFinish durable lease control => (finish_launch durable lease control l).2
  | RivalClear clean lease => clear_runtime clean lease l
  end.

(** One turn of a wait loop that begins before the deadline: the time left, what
    happens while the mutex is released, whether the condition variable timed
    out, and for which processes the deadline passed before their wait began.
    The list of turns ends when the deadline has passed. *)
Record tick := MkTick
  { left : Z; rivals : Datatypes.list rival; drift : L → L; timed_out : bool; late : Z → bool }.

Definition run_tick (t : tick) (s : SandboxManager) : SandboxManager :=
  set_platform (drift t (platform s))
    (set_ledger (foldl (rival_step (launch_admission_frozen s)) (ledger s) (rivals t)) s).

(** [find_map] over a sandbox's tokens: the first one with a process. *)
Fixpoint first_process (tokens : Datatypes.list Z) (l : Ledger P) : option (Z * P) :=
  match tokens with
  | [] => None
  | token :: tokens' =>
      match runtime l !! token ≫= process with
      | Some p => Some (token, p)
      | None => first_process tokens' l
      end
  end.

Definition reap (id : string) (token : Z) (l : Ledger P) : Ledger P :=
  match runtime l !! token with
  | Some entry => if bool_decide (sandbox_id entry = id) then (remove_runtime token l).2 else l
  | None => l
  end.

Fixpoint wait_for_runtime_cleanup (id : string) (ticks : Datatypes.list tick) (s : SandboxManager)
    : bool * SandboxManager :=
  let found := first_process (runtime_tokens_for (ledger s) id) (ledger s) in
  if bool_decide (default ∅ (runtime_by_sandbox (ledger s) !! id) = ∅) then (true, s)
  else match ticks with
       | [] => (false, s)
       | t :: ticks' =>
           match found with
           | Some (token, control) =>
               let '(reaped, p) := wait_for_cleanup control (left t) (platform s) in
               let s1 := run_tick t (set_platform p s) in
               if negb reaped then (false, s1)
               else wait_for_runtime_cleanup id ticks' (set_ledger (reap id token (ledger s1)) s1)
           | None =>
               let s1 := run_tick t s in
               if timed_out t then (false, s1) else wait_for_runtime_cleanup id ticks' s1
           end
       end.

Definition terminate_all (ps : Datatypes.list P) (s : SandboxManager) : SandboxManager :=
  set_platform (foldl (fun p c => terminate c p) (platform s) ps) s.
Definition force_terminate_all (ps : Datatypes.list P) (s : SandboxManager) : SandboxManager :=
  set_platform (foldl (fun p c => force_terminate c p) (platform s) ps) s.

Definition cancel_runtime (id : string) (graceful forced : Datatypes.list tick) (s : SandboxManager)
    : bool * SandboxManager :=
  let '(ps, l) := cancel_marks id (ledger s) in
  let '(clean, s1) := wait_for_runtime_cleanup id graceful (terminate_all ps (set_ledger l s)) in
  if clean then (true, s1)
  else
    let ps' := controls (runtime_tokens_for (ledger s1) id) (ledger s1) in
    wait_for_runtime_cleanup id forced (force_terminate_all ps' s1).

(** ** Deletion *)

(** The [Absent] arm of [delete]. *)
Definition delete_absent (principal : Principal) (id : string) : Mg DeleteResult :=
  s ← getS;
  refused ←
    match subids s with
    | None => mret false
    | Some _ =>
        found ← on_allocator (Allocator.lease_for id);
        match found with
        | None => mret false
        | Some record =>
            if negb (authorized principal (Lease.owner record)) then mret true
            else match Lease.state record with
                 | Lease.Releasing =>
                     _ ← on_platform (release_sandbox_resources id);
                     _ ← on_allocator (Allocator.finish_release record);
                     mret false
                 | Lease.Quarantined =>
                     _ ← on_platform (release_sandbox_resources id);
                     mret false
                 | _ => fail Unavailable
                 end
        end
    end;
  if (refused : bool) then mret Noop
  else
    _ ← remove_record id;
    mret Noop.

(** [delete] of an authorized, valid entry. *)
Definition delete_valid (id : string) (metadata : Metadata.t)
    (graceful forced : Datatypes.list tick) : Mg DeleteResult :=
  s ← getS;
  lease ← match subids s with
          | None => mret None
          | Some _ =>
              found ← on_allocator (Allocator.lease_for id);
              record ← liftR (ok_or Unavailable found);
              mret (Some record)
          end;
  _ ← (if bool_decide (Metadata.state metadata = Metadata.Active) then
         let deleting := Metadata.with_state metadata Metadata.Deleting in
         _ ← on_disk (Storage.write_metadata root_path deleting);
         on_ledger (fun l => (tt, replace_record deleting l))
       else mret tt);
  _ ← match lease with
      | Some record =>
          if bool_decide (Lease.state record = Lease.Active)
             || bool_decide (Lease.state record = Lease.Reserved)
          then on_allocator (Allocator.begin_release record) else mret tt
      | None => mret tt
      end;
  clean ← (fun s => let '(b, s') := cancel_runtime id graceful forced s in
                    (Ok b, s') : result Error _ * _);
  if negb clean then fail RuntimeCleanup
  else
    _ ← on_platform (release_sandbox_resources id);
    _ ← (fun s => let '(r, w) := Storage.remove_tree root_path id (disk s) in
                  (map_err Cleanup r, set_disk w s));
    _ ← match lease with
        | Some record =>
            if negb (bool_decide (Lease.state record = Lease.Quarantined))
            then on_allocator (Allocator.finish_release record) else mret tt
        | None => mret tt
        end;
    _ ← remove_record id;
    mret Deleted.

Definition delete (principal : Principal) (id : string) (graceful forced : Datatypes.list tick)
    : Mg DeleteResult :=
  _ ← ensure_ready;
  entry ← on_disk (Storage.inspect root_path id);
  match entry with
  | Storage.Absent => delete_absent principal id
  | Storage.Corrupt _ =>
      _ ← on_ledger_terminating (fun l => (tt, note_corrupt id l));
      fail Unavailable
  | Storage.Active metadata | Storage.Deleting metadata =>
      valid ← on_ledger_terminating (note_valid_record id metadata);
      if negb valid then fail Unavailable
      else if negb (authorized principal (Metadata.owner metadata)) then mret Noop
      else delete_valid id metadata graceful forced
  end.

(** ** Launching *)

Definition terminate_and_wait (control : P) (s : SandboxManager) : SandboxManager :=
  let '(reaped, p) := wait_for_cleanup control RUNTIME_CLEANUP_TIMEOUT (terminate control (platform s)) in
  if reaped then set_platform p s
  else set_platform
         (wait_for_cleanup control RUNTIME_CLEANUP_TIMEOUT (force_terminate control p)).2 s.

(** [clear_runtime]: [wait_for_cleanup] is asked once, of the entry's process. *)
Definition clear_runtime_of (lease : RuntimeLease) (s : SandboxManager) : SandboxManager :=
  match runtime (ledger s) !! lease_token lease ≫= process with
  | Some control =>
      let '(clean, p) := wait_for_cleanup control 0 (platform s) in
      set_platform p (set_ledger (clear_runtime (fun _ => clean) lease (ledger s)) s)
  | None => set_ledger (clear_runtime (fun _ => true) lease (ledger s)) s
  end.

Record ManagedProcess := MkManaged { process_control : P; process_lease : RuntimeLease }.

Definition launch_handle_with_environment (h : SandboxHandle) (operation : LaunchOperation)
    (pty : option Pty) (environment : Datatypes.list (string * string)) : Mg ManagedProcess :=
  s ← getS;
  admitted ← on_ledger (begin_launch caps (launch_admission_frozen s)
                          (MkHandleKey (h_id h) (h_owner h)));
  lease ← liftR admitted;
  launched ← tryM (on_platform (launch_process
    (MkRequest (h_id h) (h_workspace h) (h_identity h) operation pty environment)));
  match launched with
  | Err error =>
      _ ← modifyS (clear_runtime_of lease);
      fail error
  | Ok control =>
      accepted ← (fun s =>
        let '(durable, w) := Storage.inspect root_path (lease_sandbox lease) (disk s) in
        let '(b, l) := finish_launch durable lease control (ledger s) in
        (Ok b, set_ledger l (set_disk w s)) : result Error _ * _);
      if negb accepted then
        _ ← modifyS (terminate_and_wait control);
        _ ← modifyS (clear_runtime_of lease);
        fail Unavailable
      else mret (MkManaged control lease)
  end.

(** [launch] is this with an empty environment. *)
Definition launch_with_environment (token : Z) (principal : Principal) (id : string)
    (operation : LaunchOperation) (pty : option Pty)
    (environment : Datatypes.list (string * string)) : Mg ManagedProcess :=
  s ← getS;
  if launch_admission_frozen s then fail Unavailable
  else
    h ← claim token principal id;
    launch_handle_with_environment h operation pty environment.

(** ** Startup *)

Definition load_registry : Mg unit :=
  scan ← on_disk (Storage.scan root_path);
  on_ledger_terminating (fun l => (tt, reconcile_scan scan l)).

(** The lookup closure of [reconcile_subid_leases]; the registry is only read,
    and [envs] is the kernel's behaviour during each call. *)
Definition lookup_view (envs : string → Datatypes.list bool) (w : world) (id : string)
    : result string (option Allocator.SandboxView) :=
  match (Storage.inspect root_path id (MkWorld (w_root w) (envs id) (w_fault w) (w_counter w))).1 with
  | Ok (Storage.Active m) => Ok (Some (Allocator.ViewActive (Metadata.owner m)))
  | Ok (Storage.Deleting m) => Ok (Some (Allocator.ViewDeleting (Metadata.owner m)))
  | Ok (Storage.Corrupt reason) => Ok (Some (Allocator.ViewCorrupt reason))
  | Ok Storage.Absent => Ok None
  | Err e => Err (Storage.display e)
  end.

Definition reconcile_subid_leases (envs : string → Datatypes.list bool) (runtime_proof : bool)
    : Mg unit :=
  s ← getS;
  match subids s with
  | None => mret tt
  | Some _ =>
      _ ← on_allocator (Allocator.reconcile (lookup_view envs (disk s)) runtime_proof);
      mret tt
  end.

(** One turn of [reconcile_deleting] up to its tree removal: the lease to
    release, or [None] where the loop goes on to the next sandbox. *)
Definition resume_release (id : string) : Mg (option (option Lease.LeaseRecord)) :=
  s ← getS;
  match subids s with
  | None => mret (Some None)
  | Some _ =>
      found ← tryM (on_allocator (Allocator.lease_for id));
      match found with
      | Ok (Some record) =>
          match Lease.state record with
          | Lease.Active | Lease.Reserved =>
              r ← tryM (on_allocator (Allocator.begin_release record));
              mret (if is_ok (r : result Error unit) then Some (Some record) else None)
          | Lease.Releasing | Lease.Quarantined => mret (Some (Some record))
          end
      | Ok None => mret None
      | Err _ => mret None
      end
  end.

Definition reconcile_deleting_one (id : string) : Mg unit :=
  lease ← resume_release id;
  match lease with
  | None => mret tt
  | Some lease =>
      released ← tryM (on_platform (release_sandbox_resources id));
      if negb (is_ok (released : result Error unit)) then mret tt
      else
        removed ← tryM (on_disk (Storage.remove_tree root_path id));
        if negb (is_ok (removed : result Error unit)) then mret tt
        else
          finished ← match lease with
                     | Some record =>
                         if negb (bool_decide (Lease.state record = Lease.Quarantined)) then
                           r ← tryM (on_allocator (Allocator.finish_release record));
                           mret (is_ok (r : result Error unit))
                         else mret true
                     | None => mret true
                     end;
          if (finished : bool) then remove_record id else mret tt
  end.

Fixpoint reconcile_deleting_loop (ids : Datatypes.list string) : Mg unit :=
  match ids with
  | [] => mret tt
  | id :: ids' => _ ← reconcile_deleting_one id; reconcile_deleting_loop ids'
  end.

Definition reconcile_deleting : Mg unit :=
  s ← getS;
  reconcile_deleting_loop
    (omap (fun b => if bool_decide (Metadata.state b.2 = Metadata.Deleting) then Some b.1 else None)
       (records (ledger s))).

Definition reconcile_startup (envs : string → Datatypes.list bool) : Mg unit :=
  swept ← tryM (on_platform reconcile_startup_resources);
  if negb (is_ok (swept : result Error unit)) then mret tt
  else
    reconciled ← tryM (reconcile_subid_leases envs true);
    if negb (is_ok (reconciled : result Error unit)) then mret tt
    else
      _ ← reconcile_deleting;
      modifyS (set_ready true).

(** ** Daemon shutdown *)

(** One scan of the selected tokens: those with a process, and whether one is
    still launching. *)
Fixpoint scan_tokens (tokens : Datatypes.list Z) (l : Ledger P) : Datatypes.list (Z * P) * bool :=
  match tokens with
  | [] => ([], false)
  | token :: tokens' =>
      let '(pending, launching) := scan_tokens tokens' l in
      match runtime l !! token with
      | None => (pending, launching)
      | Some entry =>
          match process entry with
          | Some control => ((token, control) :: pending, launching)
          | None => (pending, true)
          end
      end
  end.

(** The scoped threads of one turn; the order of their waits does not matter to
    the ledger. *)
Fixpoint wait_each (t : tick) (pending : Datatypes.list (Z * P)) (p : L)
    : Datatypes.list (Z * bool) * L :=
  match pending with
  | [] => ([], p)
  | (token, control) :: pending' =>
      let '(complete, p1) :=
        if late t token then (false, p) else wait_for_cleanup control (left t) p in
      let '(completed, p2) := wait_each t pending' p1 in
      ((token, complete) :: completed, p2)
  end.

Definition reap_completed (completed : Datatypes.list (Z * bool)) (l : Ledger P) : Ledger P :=
  foldl (fun l b =>
    if b.2 && match runtime l !! b.1 with Some e => bool_decide (is_Some (process e)) | None => false end
    then (remove_runtime b.1 l).2 else l) l completed.

Fixpoint wait_for_runtime_tokens (tokens : Datatypes.list Z) (ticks : Datatypes.list tick)
    (s : SandboxManager) : bool * SandboxManager :=
  let '(pending, launching) := scan_tokens tokens (ledger s) in
  match pending, launching with
  | [], false => (true, s)
  | _, _ =>
      match ticks with
      | [] => (false, s)
      | t :: ticks' =>
          match pending with
          | _ :: _ =>
              let '(completed, p) := wait_each t pending (platform s) in
              let s1 := run_tick t (set_platform p s) in
              let s2 := set_ledger (reap_completed completed (ledger s1)) s1 in
              if existsb (fun b => negb b.2) completed then (false, s2)
              else wait_for_runtime_tokens tokens ticks' s2
          | [] =>
              let s1 := run_tick t s in
              if timed_out t && launching then (false, s1)
              else wait_for_runtime_tokens tokens ticks' s1
          end
      end
  end.

Definition shutdown_runtime (graceful forced : Datatypes.list tick) (s : SandboxManager)
    : SandboxManager :=
  let s0 := set_frozen true s in
  let tokens := sort_by Z.leb (elements (dom (runtime (ledger s0)))) in
  let '(ps, l) := shutdown_marks (ledger s0) in
  let '(clean, s1) := wait_for_runtime_tokens tokens graceful (terminate_all ps (set_ledger l s0)) in
  let s2 :=
    if clean then s1
    else (wait_for_runtime_tokens tokens forced
            (force_terminate_all (controls tokens (ledger s1)) s1)).2 in
  set_platform (shutdown_sandbox_resources (platform s2)).2 s2.

Definition force_shutdown_runtime (s : SandboxManager) : SandboxManager :=
  let s0 := set_frozen true s in
  let '(ps, l) := shutdown_marks (ledger s0) in
  let s1 := force_terminate_all ps (set_ledger l s0) in
  set_platform (force_shutdown_sandbox_resources (platform s1)) s1.
End manager.

(** ** A small daemon to run examples with

    Its launcher numbers the processes it starts, and reaps each one when it is
    waited for; its registry holds the sandbox [dev], leased the first pair of a
    delegation of four. *)

#[local] Existing Instance sample_host.

#[global] Instance sample_launcher : ProcessLauncher unit nat nat := {|
  launch_process := fun _ n => (Ok n, S n);
  release_sandbox_resources := fun _ n => (Ok tt, n);
  reconcile_startup_resources := fun n => (Ok tt, n);
  shutdown_sandbox_resources := fun n => (Ok tt, n);
  force_shutdown_sandbox_resources := fun n => n;
  terminate := fun _ n => n;
  force_terminate := fun _ n => n;
  wait_for_cleanup := fun _ _ n => (true, n) |}.

Definition sample_caps : Caps := MkCaps 4 3 2.
Definition sample_owner : Principal := MkPrincipal (Metadata.owner Metadata.sample) Normal.
Definition sample_stranger : Principal :=
  MkPrincipal "SHA256:BBBBBBBBBBBBBBBBBBBBBBBBBBBBBBBBBBBBBBBBBBA" Normal.

Definition sample_delegation : Delegation.Delegation :=
  Delegation.MkDelegation [Delegation.MkRange 100000 4] [Delegation.MkRange 200000 4].
Definition sample_ids : Delegation.world :=
  Delegation.MkWorld Delegation.gen_a Delegation.gen_a Delegation.gen_a (Ok "shbox")
    (fun _ => Ok sample_delegation) (fun _ => Ok sample_delegation).

Definition empty_leases : world := MkWorld (Some (NDir 448 1000 [])) [] None 0.
Definition sample_allocator : Allocator.SubidAllocator world :=
  (Allocator.claim 1 "dev" (Metadata.owner Metadata.sample) sample_delegation
     (Allocator.new empty_leases)).2.

Definition sample_boot : @SandboxManager world nat nat :=
  MkManager (Storage.registry []) (Some sample_allocator) empty_ledger 0%nat (fun _ => sample_ids) 0
    Delegation.empty_cache false false.

(** After the registry has been read, and after startup. *)
Definition sample_opened : @SandboxManager world nat nat := (load_registry "/r" sample_boot).2.
Definition sample_ready : @SandboxManager world nat nat :=
  (reconcile_startup "/r" (fun _ => []) sample_opened).2.

Example sample_startup :
  (is_ok (load_registry "/r" sample_boot).1, ready sample_opened, ready sample_ready) = (true, false, true).
Proof. vm_compute. reflexivity. Qed.

(** The whole life of a sandbox: created with the next pair of IDs, entered
    again, deleted. *)
Definition session : SandboxManager → _ := fun s =>
  let '(r1, s1) := claim "/r" sample_caps 2 sample_owner "new" s in
  let '(r2, s2) := claim "/r" sample_caps 3 sample_owner "new" s1 in
  let '(r3, s3) := list "/r" sample_owner s2 in
  let '(r4, s4) := delete "/r" sample_caps sample_owner "new" [] [] s3 in
  let '(r5, s5) := list "/r" sample_owner s4 in
  (to_option r1, to_option r2, to_option r3, to_option r4, to_option r5).

Example sample_session :
  session sample_ready =
  (Some (MkHandle "new" (fingerprint sample_owner) (Storage.workspace_path "/r" "new")
         (Some (MkIdentity 1000 1000 100001 200001)) true),
   Some (MkHandle "new" (fingerprint sample_owner) (Storage.workspace_path "/r" "new")
         (Some (MkIdentity 1000 1000 100001 200001)) false),
   Some ["dev"; "new"], Some Deleted, Some ["dev"]).
Proof. vm_compute. reflexivity. Qed.
End Manager.
