(* ===== verification/BrokerWire.v ===== *)
(** * The ID-map broker's wire format ([platform/idmap_broker.rs])

    The fixed-size request and response between the daemon and the privileged
    mount broker, and the ancillary data that carries descriptors next to them:
    what [send_with_fds] builds and what [collect_control_fds] reads back from
    raw memory.  Byte arrays are lists of integers below 256; a read outside the
    control buffer, which would be undefined behaviour, is [None]. *)

From S2P Require Import Prelude BTree Text Toml FileSystem RuntimeLedger Manager.

Module Wire.
Import RuntimeLedger.

Definition PROTOCOL_VERSION : Z := 1.
Definition OP_CREATE_IDMAPPED_MOUNTS : Z := 1.
Definition REQUEST_LEN : nat := 40.
Definition RESPONSE_LEN : nat := 32.
Definition SOURCE_COUNT : Z := 2.
Definition SOURCE_FD_COUNT : nat := 3.
Definition MOUNT_FD_COUNT : nat := 2.

Definition STATUS_OK : Z := 0.
Definition STATUS_INVALID_REQUEST : Z := 1.
Definition STATUS_UNAUTHORIZED : Z := 2.
Definition STATUS_SOURCE_REJECTED : Z := 3.
Definition STATUS_MOUNT_UNSUPPORTED : Z := 4.

(** ** Little-endian fields *)

(** [to_le_bytes] of an [n]-byte integer, and back. *)
Fixpoint le_bytes (n : nat) (v : Z) : list Z :=
  match n with
  | O => []
  | S n' => v mod 256 :: le_bytes n' (v / 256)
  end.

Fixpoint from_le (bs : list Z) : Z :=
  match bs with
  | [] => 0
  | b :: bs' => b + 256 * from_le bs'
  end.

(** [bytes[offset..offset + n].copy_from_slice(field)], the offsets of the source
    being constants inside the arrays. *)
Definition put (bytes : list Z) (offset : nat) (field : list Z) : list Z :=
  take offset bytes ++ field ++ drop (offset + length field) bytes.
Definition put_u32 (bytes : list Z) (offset : nat) (v : Z) : list Z := put bytes offset (le_bytes 4 v).
Definition put_u64 (bytes : list Z) (offset : nat) (v : Z) : list Z := put bytes offset (le_bytes 8 v).

(** [get_u32] and [get_u64], by the size of the field. *)
Definition get_field (n : nat) (bytes : list Z) (offset : Z) : result io_error Z :=
  let end_ := offset + Z.of_nat n in
  if u64_max <? end_ then Err (IoOther "protocol field overflow")
  else if Z.of_nat (length bytes) <? end_ then Err (IoOther "short protocol field")
  else Ok (from_le (take n (drop (Z.to_nat offset) bytes))).
Definition get_u32 : list Z → Z → result io_error Z := get_field 4.
Definition get_u64 : list Z → Z → result io_error Z := get_field 8.

(** ** Requests and responses *)

Record BrokerRequest := MkBrokerRequest
  { request_id : Z; daemon_uid : Z; daemon_gid : Z; leased_uid : Z; leased_gid : Z;
    source_count : Z }.

Definition encode_request (euid egid : Z) (id : Z) (identity : Manager.IsolatedIdentity) : list Z :=
  let r := replicate REQUEST_LEN 0 in
  let r := put_u32 r 0 PROTOCOL_VERSION in
  let r := put_u32 r 4 OP_CREATE_IDMAPPED_MOUNTS in
  let r := put_u64 r 8 id in
  let r := put_u32 r 16 euid in
  let r := put_u32 r 20 egid in
  let r := put_u32 r 24 (Manager.host_uid identity) in
  let r := put_u32 r 28 (Manager.host_gid identity) in
  put_u32 r 32 SOURCE_COUNT.

Definition any_nonzero (bytes : list Z) : bool := existsb (fun b => negb (b =? 0)) bytes.

Definition decode_request (bytes : list Z) : result io_error BrokerRequest :=
  if negb (Nat.eqb (length bytes) REQUEST_LEN)
  then Err (IoOther "ID-map broker request has the wrong size")
  else
    version ← get_u32 bytes 0;
    operation ← get_u32 bytes 4;
    if negb (version =? PROTOCOL_VERSION) || negb (operation =? OP_CREATE_IDMAPPED_MOUNTS)
    then Err (IoOther "ID-map broker request has an unsupported operation")
    else if any_nonzero (drop 36 bytes)
    then Err (IoOther "ID-map broker request has non-zero reserved bytes")
    else
      id ← get_u64 bytes 8;
      duid ← get_u32 bytes 16;
      dgid ← get_u32 bytes 20;
      luid ← get_u32 bytes 24;
      lgid ← get_u32 bytes 28;
      count ← get_u32 bytes 32;
      Ok (MkBrokerRequest id duid dgid luid lgid count).

(** The buffer [send_response] fills. *)
Definition encode_response (status id mount_count error_code : Z) : list Z :=
  let r := replicate RESPONSE_LEN 0 in
  let r := put_u32 r 0 PROTOCOL_VERSION in
  let r := put_u32 r 4 status in
  let r := put_u64 r 8 id in
  let r := put_u32 r 16 mount_count in
  put_u32 r 20 error_code.

Definition invalid_response : LaunchError :=
  MkLaunchError "ID-map broker returned an invalid protocol response".

Definition decode_response (bytes : list Z) : result LaunchError (Z * Z * Z * Z) :=
  if negb (Nat.eqb (length bytes) RESPONSE_LEN) then Err invalid_response
  else
    version ← map_err (fun _ => invalid_response) (get_u32 bytes 0);
    if negb (version =? PROTOCOL_VERSION) then Err invalid_response
    else if any_nonzero (drop 24 bytes)
    then Err (MkLaunchError "ID-map broker returned non-zero reserved bytes")
    else
      status ← map_err (fun _ => invalid_response) (get_u32 bytes 4);
      id ← map_err (fun _ => invalid_response) (get_u64 bytes 8);
      count ← map_err (fun _ => invalid_response) (get_u32 bytes 16);
      code ← map_err (fun _ => invalid_response) (get_u32 bytes 20);
      Ok (status, id, count, code).

(** ** Ancillary data

    A [cmsghdr] of a 64-bit system: an 8-byte length, a 4-byte level and a 4-byte
    type, then the payload; descriptors are 4-byte integers. *)

Definition CMSGHDR_SIZE : Z := 16.
Definition SOL_SOCKET : Z := 1.
Definition SCM_RIGHTS : Z := 1.

(** [align]: up to a multiple of the word size, in [usize] arithmetic. *)
Definition align (value : Z) : Z := Z.land (wrap_u64 (value + 8 - 1)) (u64_max - 7).
Definition cmsg_header_len : Z := align CMSGHDR_SIZE.
Definition cmsg_len (payload : Z) : Z := cmsg_header_len + payload.
Definition cmsg_space (payload : Z) : Z := align CMSGHDR_SIZE + align payload.

(** The control buffer [send_with_fds] hands to [sendmsg]. *)
Definition control_of (fds : list Z) : list Z :=
  let size := 4 * Z.of_nat (length fds) in
  let control := replicate (Z.to_nat (cmsg_space size)) 0 in
  match fds with
  | [] => control
  | _ =>
      let control := put control 0 (le_bytes 8 (cmsg_len size)) in
      let control := put control 8 (le_bytes 4 SOL_SOCKET) in
      let control := put control 12 (le_bytes 4 SCM_RIGHTS) in
      put control (Z.to_nat cmsg_header_len) (concat (le_bytes 4 <$> fds))
  end.

(** [read_unaligned] at an address of the control buffer, which starts at [base]. *)
Definition read_mem (base : Z) (control : list Z) (address : Z) (n : nat) : option (list Z) :=
  let offset := address - base in
  if (0 <=? offset) && (offset + Z.of_nat n <=? Z.of_nat (length control))
  then Some (take n (drop (Z.to_nat offset) control)) else None.

Definition to_i32 (v : Z) : Z := if v <? 2 ^ 31 then v else v - 2 ^ 32.

(** The descriptors of one [SCM_RIGHTS] record, [n] of them left to read. *)
Fixpoint read_fds (base : Z) (control : list Z) (data : Z) (n : nat)
    : option (result io_error (list Z)) :=
  match n with
  | O => Some (Ok [])
  | S n' =>
      field ← read_mem base control data 4;
      let raw := to_i32 (from_le field) in
      if raw <? 0 then Some (Err (IoOther "ID-map broker returned a negative descriptor"))
      else
        rest ← read_fds base control (data + 4) n';
        Some (match rest with Ok fds => Ok (raw :: fds) | Err e => Err e end)
  end.

Fixpoint collect_loop (fuel : nat) (base end_ : Z) (control : list Z) (offset : Z)
    (descriptors : list Z) : option (result io_error (list Z)) :=
  match fuel with
  | O => None
  | S fuel' =>
      let header_address := wrap_u64 (base + offset) in
      if CMSGHDR_SIZE <=? Z.max 0 (end_ - header_address) then
        header ← read_mem base control header_address 16;
        let len := from_le (take 8 header) in
        let level := from_le (take 4 (drop 8 header)) in
        let type := from_le (take 4 (drop 12 header)) in
        let remaining := end_ - header_address in
        if (len <? cmsg_len 0) || (remaining <? len)
        then Some (Err (IoOther "ID-map broker control message has an invalid length"))
        else if remaining <? align len
        then Some (Err (IoOther "ID-map broker control message extends beyond the buffer"))
        else if (level =? SOL_SOCKET) && (type =? SCM_RIGHTS) then
          let payload_bytes := len - cmsg_header_len in
          if negb (payload_bytes mod 4 =? 0)
          then Some (Err (IoOther "ID-map broker descriptor payload is not aligned"))
          else
            fds ← read_fds base control (header_address + cmsg_header_len)
                    (Z.to_nat (payload_bytes / 4));
            match fds with
            | Err e => Some (Err e)
            | Ok fds =>
                collect_loop fuel' base end_ control (wrap_u64 (offset + align len)) (descriptors ++ fds)
            end
        else collect_loop fuel' base end_ control (wrap_u64 (offset + align len)) descriptors
      else Some (Ok descriptors)
  end.

(** [collect_control_fds] of a buffer at [base] with the length [recvmsg] left;
    each round consumes at least a header. *)
Definition collect_control_fds (base : Z) (control : list Z) : option (result io_error (list Z)) :=
  let end_ := base + Z.of_nat (length control) in
  if u64_max <? end_ then Some (Err (IoOther "control buffer overflow"))
  else collect_loop (S (length control)) base end_ control 0 [].

(** ** Fields *)

Definition is_byte (b : Z) : Prop := 0 <= b < 256.
Definition all_bytes (bs : list Z) : Prop := Forall is_byte bs.

Lemma le_bytes_length n v : length (le_bytes n v) = n.
Proof. revert v; induction n; intros v; simpl; auto. Qed.

Lemma le_bytes_all n v : all_bytes (le_bytes n v).
Proof.
  revert v; induction n; intros v; constructor; [|by apply IHn].
  apply Z.mod_pos_bound. lia.
Qed.

Lemma pow_256_S n : 256 ^ Z.of_nat (S n) = 256 * 256 ^ Z.of_nat n.
Proof. rewrite Nat2Z.inj_succ, Z.pow_succ_r by lia. done. Qed.

Lemma from_le_bytes n v : 0 <= v < 256 ^ Z.of_nat n → from_le (le_bytes n v) = v.
Proof.
  revert v; induction n as [|n IH]; intros v Hv; simpl.
  - change (256 ^ Z.of_nat 0) with 1 in Hv. lia.
  - rewrite pow_256_S in Hv. rewrite IH.
    + pose proof (Z.div_mod v 256). lia.
    + split; [apply Z.div_pos; lia|]. apply Z.div_lt_upper_bound; lia.
Qed.

Lemma from_le_bound bs : all_bytes bs → 0 <= from_le bs < 256 ^ Z.of_nat (length bs).
Proof.
  induction 1 as [|b bs Hb _ IH]; [done|]. simpl length. rewrite pow_256_S.
  unfold is_byte in Hb. simpl. lia.
Qed.

Lemma le_from_bytes bs : all_bytes bs → le_bytes (length bs) (from_le bs) = bs.
Proof.
  induction 1 as [|b bs Hb Hbs IH]; [done|]. unfold is_byte in Hb. simpl.
  rewrite (Z.mul_comm 256), Z.mod_add, Z.div_add by lia.
  rewrite Z.mod_small, Z.div_small by lia. f_equal. by rewrite Z.add_0_l.
Qed.

(** Reading a field back from where it stands, and taking one off the front. *)
Lemma get_field_at n bytes offset v rest :
  drop (Z.to_nat offset) bytes = le_bytes n v ++ rest →
  0 <= v < 256 ^ Z.of_nat n → (0 < n)%nat → 0 <= offset → offset + Z.of_nat n <= u64_max →
  get_field n bytes offset = Ok v.
Proof.
  intros Hdrop Hv Hn H0 Hmax. unfold get_field.
  assert (length bytes - Z.to_nat offset = n + length rest)%nat as Hlen.
  { rewrite <-length_drop, Hdrop, length_app, le_bytes_length. done. }
  destruct (Z.ltb_spec u64_max (offset + Z.of_nat n)); [lia|].
  destruct (Z.ltb_spec (Z.of_nat (length bytes)) (offset + Z.of_nat n)); [lia|].
  rewrite Hdrop, take_app_length' by (by rewrite le_bytes_length). by rewrite from_le_bytes.
Qed.

Lemma drop_field n off bytes :
  all_bytes bytes → (off + n <= length bytes)%nat →
  drop off bytes = le_bytes n (from_le (take n (drop off bytes))) ++ drop (off + n) bytes.
Proof.
  intros Hb Hlen. rewrite <-drop_drop.
  rewrite <-(take_drop n (drop off bytes)) at 1. f_equal.
  assert (length (take n (drop off bytes)) = n) as Hn by (rewrite length_take, length_drop; lia).
  rewrite <-Hn at 2. symmetry. apply le_from_bytes. by apply Forall_take, Forall_drop.
Qed.

Lemma field_bound n off bytes :
  all_bytes bytes → (off + n <= length bytes)%nat →
  0 <= from_le (take n (drop off bytes)) < 256 ^ Z.of_nat n.
Proof.
  intros Hb Hlen. pose proof (from_le_bound (take n (drop off bytes))) as Hfl.
  rewrite length_take, length_drop, Nat.min_l in Hfl by lia.
  by apply Hfl, Forall_take, Forall_drop.
Qed.

Lemma any_nonzero_false bs : any_nonzero bs = false ↔ bs = replicate (length bs) 0.
Proof.
  induction bs as [|b bs IH]; [done|]. simpl. rewrite orb_false_iff, negb_false_iff, Z.eqb_eq.
  split.
  - intros [-> Hz%IH]. by rewrite <-Hz.
  - intros [= -> Hz]. split; [done|]. by apply IH.
Qed.

(** ** The two messages *)

Definition u32 (v : Z) : Prop := 0 <= v < 2 ^ 32.
Definition u64 (v : Z) : Prop := 0 <= v < 2 ^ 64.

Definition request_ok (r : BrokerRequest) : Prop :=
  u64 (request_id r) ∧ u32 (daemon_uid r) ∧ u32 (daemon_gid r) ∧
  u32 (leased_uid r) ∧ u32 (leased_gid r) ∧ u32 (source_count r).

(** The documented layout of a request, field by field. *)
Definition request_bytes (r : BrokerRequest) : list Z :=
  le_bytes 4 PROTOCOL_VERSION ++ le_bytes 4 OP_CREATE_IDMAPPED_MOUNTS ++
  le_bytes 8 (request_id r) ++ le_bytes 4 (daemon_uid r) ++ le_bytes 4 (daemon_gid r) ++
  le_bytes 4 (leased_uid r) ++ le_bytes 4 (leased_gid r) ++ le_bytes 4 (source_count r) ++
  replicate 4 0.

Definition response_bytes (status id count code : Z) : list Z :=
  le_bytes 4 PROTOCOL_VERSION ++ le_bytes 4 status ++ le_bytes 8 id ++ le_bytes 4 count ++
  le_bytes 4 code ++ replicate 8 0.

Lemma encode_request_layout euid egid id i :
  encode_request euid egid id i =
    request_bytes (MkBrokerRequest id euid egid (Manager.host_uid i) (Manager.host_gid i) SOURCE_COUNT).
Proof. reflexivity. Qed.

Lemma encode_response_layout status id count code :
  encode_response status id count code = response_bytes status id count code.
Proof. reflexivity. Qed.

(** Read the field that stands at a constant offset of a laid-out message. *)
Ltac read_field :=
  match goal with
  | |- context [get_field ?n ?bs ?off] =>
      erewrite (get_field_at n bs off); [|reflexivity|first [done|vm_compute; done]|lia|lia|done]
  end.

Lemma decode_request_bytes r : request_ok r → decode_request (request_bytes r) = Ok r.
Proof.
  intros (? & ? & ? & ? & ? & ?). unfold decode_request, get_u32, get_u64.
  do 2 (read_field; cbn [mbind result_bind]).
  change (any_nonzero (drop 36 (request_bytes r))) with false.
  cbn [negb Z.eqb orb PROTOCOL_VERSION OP_CREATE_IDMAPPED_MOUNTS].
  do 6 (read_field; cbn [mbind result_bind]). by destruct r.
Qed.

Lemma decode_response_bytes status id count code :
  u32 status → u64 id → u32 count → u32 code →
  decode_response (response_bytes status id count code) = Ok (status, id, count, code).
Proof.
  intros ? ? ? ?. unfold decode_response, get_u32, get_u64.
  read_field. cbn [mbind result_bind map_err].
  change (any_nonzero (drop 24 (response_bytes status id count code))) with false.
  cbn [negb Z.eqb orb PROTOCOL_VERSION].
  do 4 (read_field; cbn [mbind result_bind map_err]). done.
Qed.

Lemma get_field_Ok n bytes off v :
  get_field n bytes off = Ok v → v = from_le (take n (drop (Z.to_nat off) bytes)).
Proof. unfold get_field. by repeat case_match; intros; simplify_eq. Qed.

Lemma bind_result_Ok {E A B} (m : result E A) (f : A → result E B) b :
  m ≫= f = Ok b → ∃ a, m = Ok a ∧ f a = Ok b.
Proof. destruct m; [eauto|done]. Qed.

Ltac take_field :=
  match goal with
  | H : get_field _ _ _ ≫= _ = Ok _ |- _ =>
      apply bind_result_Ok in H as (? & ->%get_field_Ok & H)
  end.

Ltac peel n off :=
  etrans; [apply (drop_field n off); [done|lia]|f_equal; cbn [Nat.add]].

(** C30: requests are exact on the wire.  The broker decodes a 40-byte message to a
    request precisely if the message is the documented little-endian layout of
    that request, reserved bytes zero, so no request has two encodings and none
    is read differently from how the daemon writes it. *)
Theorem request_codec_exact bytes r :
  all_bytes bytes →
  decode_request bytes = Ok r ↔ request_ok r ∧ bytes = request_bytes r.
Proof.
  intros Hb. split; [|by intros [? ->]; apply decode_request_bytes].
  unfold decode_request, get_u32, get_u64. destruct (Nat.eqb_spec (length bytes) REQUEST_LEN) as [Hlen|];
    [|done]. unfold REQUEST_LEN in Hlen. simpl negb. cbv iota. intros Hd.
  do 2 take_field.
  case_match eqn:Hver; [done|]. case_match eqn:Hres; [done|].
  do 6 take_field. injection Hd as <-.
  apply orb_false_iff in Hver as [Hver%negb_false_iff%Z.eqb_eq Hop%negb_false_iff%Z.eqb_eq].
  apply any_nonzero_false in Hres. rewrite length_drop, Hlen in Hres.
  assert (∀ n off, (off + n <= 40)%nat → 0 <= from_le (take n (drop off bytes)) < 256 ^ Z.of_nat n)
    as Hbound by (intros; apply field_bound; [done|lia]).
  split.
  { unfold request_ok, u32, u64. cbn [request_id daemon_uid daemon_gid leased_uid leased_gid source_count].
    split_and!; apply Hbound; simpl; lia. }
  unfold request_bytes. cbn [request_id daemon_uid daemon_gid leased_uid leased_gid source_count].
  rewrite <-Hver, <-Hop. change bytes with (drop 0 bytes) at 1.
  peel 4%nat 0%nat. peel 4%nat 4%nat. peel 8%nat 8%nat. peel 4%nat 16%nat.
  peel 4%nat 20%nat. peel 4%nat 24%nat. peel 4%nat 28%nat. peel 4%nat 32%nat.
  exact Hres.
Qed.

Lemma decode_response_exact bytes status id count code :
  all_bytes bytes → decode_response bytes = Ok (status, id, count, code) →
  bytes = response_bytes status id count code.
Proof.
  intros Hb. unfold decode_response, get_u32, get_u64.
  destruct (Nat.eqb_spec (length bytes) RESPONSE_LEN) as [Hlen|]; [|done].
  unfold RESPONSE_LEN in Hlen. simpl negb. cbv iota. intros Hd.
  apply bind_result_Ok in Hd as (v & ->%map_err_Ok%get_field_Ok & Hd).
  case_match eqn:Hver; [done|]. case_match eqn:Hres; [done|].
  do 4 apply bind_result_Ok in Hd as (? & ->%map_err_Ok%get_field_Ok & Hd). injection Hd as <- <- <- <-.
  apply negb_false_iff, Z.eqb_eq in Hver.
  apply any_nonzero_false in Hres. rewrite length_drop, Hlen in Hres.
  unfold response_bytes. rewrite <-Hver. change bytes with (drop 0 bytes) at 1.
  peel 4%nat 0%nat. peel 4%nat 4%nat. peel 8%nat 8%nat. peel 4%nat 16%nat. peel 4%nat 20%nat.
  exact Hres.
Qed.

(** ** Ancillary data *)

Lemma land_low_clear x : 0 <= x < 2 ^ 64 → Z.land x (u64_max - 7) = 8 * (x / 8).
Proof.
  intros Hx. change (u64_max - 7) with (Z.shiftl (Z.ones 61) 3).
  assert (8 * (x / 8) = Z.shiftl (Z.shiftr x 3) 3) as ->.
  { rewrite Z.shiftl_mul_pow2, Z.shiftr_div_pow2 by lia. change (2 ^ 3) with 8. lia. }
  apply Z.bits_inj'. intros n Hn. rewrite Z.land_spec, !Z.shiftl_spec by lia.
  destruct (Z.lt_ge_cases n 3); [rewrite !(Z.testbit_neg_r _ (n - 3)) by lia; apply andb_false_r|].
  rewrite Z.shiftr_spec by lia. replace (n - 3 + 3) with n by lia.
  destruct (Z.lt_ge_cases n 64).
  - rewrite Z.ones_spec_low by lia. apply andb_true_r.
  - rewrite Z.bits_above_log2, andb_false_l; [done|lia|].
    destruct (decide (x = 0)) as [->|]; [simpl; lia|]. apply Z.log2_lt_pow2; [lia|].
    assert (2 ^ 64 <= 2 ^ n) by (apply Z.pow_le_mono_r; lia). lia.
Qed.

Lemma align_spec v : 0 <= v < 2 ^ 63 → align v = 8 * ((v + 7) / 8).
Proof.
  intros Hv. unfold align, wrap_u64. replace (v + 8 - 1) with (v + 7) by lia.
  rewrite Z.mod_small, land_low_clear by lia. done.
Qed.

Lemma align_bounds v : 0 <= v < 2 ^ 63 → v <= align v < v + 8.
Proof.
  intros Hv. rewrite align_spec by done.
  pose proof (Z.div_mod (v + 7) 8). pose proof (Z.mod_pos_bound (v + 7) 8). lia.
Qed.

Lemma align_header p : 0 <= p < 2 ^ 62 → align (16 + p) = 16 + align p.
Proof.
  intros Hp. rewrite !align_spec by lia. replace (16 + p + 7) with (p + 7 + 2 * 8) by lia.
  rewrite Z.div_add by lia. lia.
Qed.

Lemma cmsg_header_len_16 : cmsg_header_len = 16.
Proof. done. Qed.

Lemma read_mem_in base control address n :
  base <= address → address + Z.of_nat n <= base + Z.of_nat (length control) →
  read_mem base control address n = Some (take n (drop (Z.to_nat (address - base)) control)).
Proof.
  intros H1 H2. unfold read_mem.
  destruct (Z.leb_spec 0 (address - base)); [|lia].
  destruct (Z.leb_spec (address - base + Z.of_nat n) (Z.of_nat (length control))); [done|lia].
Qed.

Lemma read_fds_in base control data n :
  base <= data → data + 4 * Z.of_nat n <= base + Z.of_nat (length control) →
  is_Some (read_fds base control data n).
Proof.
  revert data; induction n as [|n IH]; intros data H1 H2; [done|]. simpl.
  rewrite read_mem_in by lia. simpl. case_match; [done|].
  destruct (IH (data + 4)) as [r ->]; [lia..|]. done.
Qed.

Lemma collect_loop_in fuel base control offset acc :
  0 <= base → base + Z.of_nat (length control) <= u64_max → Z.of_nat (length control) < 2 ^ 63 →
  0 <= offset <= Z.of_nat (length control) →
  Z.of_nat (length control) - offset < Z.of_nat fuel → all_bytes control →
  is_Some (collect_loop fuel base (base + Z.of_nat (length control)) control offset acc).
Proof.
  intros Hbase Hmax Hsize Hoff Hfuel Hb. revert offset acc Hoff Hfuel.
  induction fuel as [|fuel IH]; intros offset acc Hoff Hfuel; [lia|]. cbn [collect_loop].
  assert (wrap_u64 (base + offset) = base + offset) as ->
    by (apply Z.mod_small; unfold u64_max in Hmax; lia).
  unfold CMSGHDR_SIZE. case_match; [|done]. bool_to_prop.
  rewrite read_mem_in by lia. cbn [mbind option_bind].
  set (hdr := take 16 _). set (len := from_le (take 8 hdr)).
  case_match eqn:Hlen; [done|]. case_match eqn:Hal; [done|].
  apply orb_false_iff in Hlen as [Hmin%Z.ltb_ge Hrem%Z.ltb_ge]. apply Z.ltb_ge in Hal.
  change (cmsg_len 0) with 16 in Hmin. rewrite cmsg_header_len_16.
  pose proof (align_bounds len ltac:(lia)) as Hab.
  assert (wrap_u64 (offset + align len) = offset + align len) as ->
    by (apply Z.mod_small; unfold u64_max in Hmax; lia).
  case_match; [|apply IH; lia]. case_match; [done|].
  destruct (read_fds_in base control (base + offset + 16) (Z.to_nat ((len - 16) / 4))) as [r ->];
    [lia|rewrite Z2Nat.id by (apply Z.div_pos; lia); pose proof (Z.mul_div_le (len - 16) 4); lia|].
  cbn [mbind option_bind]. destruct r; [apply IH; lia|done].
Qed.

(** Reading the ancillary data is memory-safe and terminates, whatever bytes
    the buffer holds: for every buffer that an allocation can be, no read leaves
    it and the loop ends with the descriptors or an error. *)
Theorem control_parsing_stays_inside base control :
  0 <= base → base + Z.of_nat (length control) <= u64_max → Z.of_nat (length control) < 2 ^ 63 →
  all_bytes control → ∃ r, collect_control_fds base control = Some r.
Proof.
  intros Hbase Hmax Hsize Hb. unfold collect_control_fds.
  case_match; [eauto|]. apply collect_loop_in; first [done | lia].
Qed.

(** Writing the next field of a zeroed buffer. *)
Lemma put_next pre k field off :
  off = length pre → (length field <= k)%nat →
  put (pre ++ replicate k 0) off field = (pre ++ field) ++ replicate (k - length field) 0.
Proof.
  intros -> Hk. unfold put. rewrite take_app_length, drop_app_ge by lia.
  replace (length pre + length field - length pre)%nat with (length field) by lia.
  by rewrite drop_replicate, <-app_assoc.
Qed.

Definition descriptor (fd : Z) : Prop := 0 <= fd < 2 ^ 31.

Lemma fds_bytes_length fds : length (concat (le_bytes 4 <$> fds)) = (4 * length fds)%nat.
Proof.
  induction fds as [|fd fds IH]; [done|]. rewrite fmap_cons. cbn [concat].
  rewrite length_app, le_bytes_length, IH. cbn [length]. lia.
Qed.

(** The buffer [send_with_fds] builds: one record, padded to the word size. *)
Lemma control_of_layout fds :
  fds ≠ [] → 4 * Z.of_nat (length fds) < 2 ^ 62 →
  ∃ pad,
    control_of fds = le_bytes 8 (16 + 4 * Z.of_nat (length fds)) ++ le_bytes 4 SOL_SOCKET ++
      le_bytes 4 SCM_RIGHTS ++ concat (le_bytes 4 <$> fds) ++ replicate pad 0 ∧
    Z.of_nat (length (control_of fds)) = 16 + align (4 * Z.of_nat (length fds)).
Proof.
  intros Hne Hsize. unfold control_of.
  set (size := 4 * Z.of_nat (length fds)) in *. set (k := Z.to_nat (cmsg_space size)).
  pose proof (align_bounds size ltac:(lia)) as Hal.
  assert (Z.of_nat k = 16 + align size) as Hk.
  { unfold k, cmsg_space. change (align CMSGHDR_SIZE) with 16. lia. }
  destruct fds as [|fd fds]; [done|]. set (all := fd :: fds) in *.
  change (cmsg_len size) with (16 + size). rewrite cmsg_header_len_16.
  change (replicate k 0) with ([] ++ replicate k 0).
  pose proof (fds_bytes_length all) as Hlen.
  change (Z.to_nat 16) with 16%nat.
  assert (length all = S (length fds)) as Hall by done.
  do 4 (rewrite put_next by (rewrite ?length_app, ?le_bytes_length, ?Hlen; cbn [length]; lia)).
  eexists. split; [by rewrite <-!app_assoc|].
  rewrite !length_app, !le_bytes_length, length_replicate, Hlen. simpl length. lia.
Qed.

Lemma read_fds_back base control data fds rest :
  Forall descriptor fds → base <= data →
  drop (Z.to_nat (data - base)) control = concat (le_bytes 4 <$> fds) ++ rest →
  read_fds base control data (length fds) = Some (Ok fds).
Proof.
  intros Hfds. revert data. induction Hfds as [|fd fds Hfd _ IH]; intros data Hle Hdrop; [done|].
  simpl length. cbn [read_fds]. rewrite fmap_cons in Hdrop. cbn [concat] in Hdrop.
  rewrite <-app_assoc in Hdrop.
  assert (length control - Z.to_nat (data - base) >= 4)%nat as Hlen.
  { rewrite <-length_drop, Hdrop, length_app, le_bytes_length. lia. }
  rewrite read_mem_in by lia. cbn [mbind option_bind].
  rewrite Hdrop, take_app_length' by (by rewrite le_bytes_length).
  unfold descriptor in Hfd. rewrite from_le_bytes by (change (256 ^ Z.of_nat 4) with (2 ^ 32); lia).
  unfold to_i32. destruct (Z.ltb_spec fd (2 ^ 31)); [|lia]. destruct (Z.ltb_spec fd 0); [lia|].
  rewrite IH; [done|lia|]. replace (data + 4 - base) with (data - base + 4) by lia.
  rewrite Z2Nat.inj_add, <-drop_drop, Hdrop by lia.
  by rewrite drop_app_length' by (by rewrite le_bytes_length).
Qed.

(** Descriptors survive the trip.  Whatever descriptors [send_with_fds] packs,
    up to the limits of memory, [collect_control_fds] reads exactly those, in
    order, from the buffer, wherever it lies. *)
Theorem descriptors_roundtrip base fds :
  fds ≠ [] → Forall descriptor fds → 4 * Z.of_nat (length fds) < 2 ^ 62 →
  0 <= base → base + Z.of_nat (length (control_of fds)) <= u64_max →
  collect_control_fds base (control_of fds) = Some (Ok fds).
Proof.
  intros Hne Hfds Hsize Hbase Hmax.
  destruct (control_of_layout fds Hne Hsize) as (pad & Hctl & Hlen).
  set (n := 4 * Z.of_nat (length fds)) in *.
  pose proof (align_bounds n ltac:(lia)) as Hal.
  unfold collect_control_fds, u64_max in *.
  destruct (Z.ltb_spec (2 ^ 64 - 1) (base + Z.of_nat (length (control_of fds)))); [lia|].
  assert (wrap_u64 (base + 0) = base) as Hw by (unfold wrap_u64; rewrite Z.mod_small; lia).
  cbn [collect_loop]. rewrite Hw. unfold CMSGHDR_SIZE.
  destruct (Z.leb_spec 16 (Z.max 0 (base + Z.of_nat (length (control_of fds)) - base))); [|lia].
  rewrite read_mem_in by lia. rewrite Z.sub_diag. change (Z.to_nat 0) with 0%nat.
  cbn [mbind option_bind]. rewrite drop_0.
  set (hdr := take 16 (control_of fds)).
  assert (hdr = le_bytes 8 (16 + n) ++ le_bytes 4 SOL_SOCKET ++ le_bytes 4 SCM_RIGHTS) as ->
    by (unfold hdr; rewrite Hctl; reflexivity).
  change (from_le (take 8 _)) with (from_le (le_bytes 8 (16 + n))).
  rewrite from_le_bytes by (change (256 ^ Z.of_nat 8) with (2 ^ 64); lia).
  change (from_le (take 4 (drop 8 _)) =? SOL_SOCKET) with true.
  change (from_le (take 4 (drop 12 _)) =? SCM_RIGHTS) with true.
  change (cmsg_len 0) with 16. rewrite cmsg_header_len_16, align_header by lia.
  destruct (Z.ltb_spec (16 + n) 16); [lia|].
  destruct (Z.ltb_spec (base + Z.of_nat (length (control_of fds)) - base) (16 + n)); [lia|].
  destruct (Z.ltb_spec (base + Z.of_nat (length (control_of fds)) - base) (16 + align n)); [lia|].
  cbn [orb andb]. replace (16 + n - 16) with n by lia.
  assert (n mod 4 = 0) as -> by (unfold n; rewrite Z.mul_comm; apply Z.mod_mul; lia).
  assert (n / 4 = Z.of_nat (length fds)) as -> by (unfold n; rewrite Z.mul_comm; apply Z.div_mul; lia).
  rewrite Nat2Z.id, (read_fds_back _ _ _ _ (replicate pad 0)); [|done|lia|].
  2:{ replace (base + 16 - base) with 16 by lia. by rewrite Hctl. }
  cbn [negb Z.eqb mbind option_bind app]. rewrite Z.add_0_l.
  destruct (length (control_of fds)) as [|fuel] eqn:Hf; [lia|]. cbn [collect_loop].
  assert (wrap_u64 (base + wrap_u64 (16 + align n)) = base + (16 + align n)) as ->.
  { unfold wrap_u64. rewrite !Z.mod_small; [done|lia|]. rewrite Z.mod_small; lia. }
  destruct (Z.leb_spec CMSGHDR_SIZE (Z.max 0 (base + Z.of_nat (S fuel) - (base + (16 + align n)))));
    [unfold CMSGHDR_SIZE in *; lia|done].
Qed.

(** ** Samples *)

Definition sample_request : BrokerRequest := MkBrokerRequest 42 1000 1000 165536 165537 2.

Lemma request_codec_exact_witness :
  all_bytes (request_bytes sample_request) ∧ decode_request (request_bytes sample_request) = Ok sample_request.
Proof.
  assert (all_bytes (request_bytes sample_request)) as Hb.
  { unfold request_bytes, all_bytes. repeat (apply Forall_app; split); try apply le_bytes_all.
    repeat constructor; unfold is_byte; lia. }
  split; [exact Hb|]. apply (request_codec_exact _ _ Hb). split; [|reflexivity].
  unfold request_ok, u32, u64. simpl. lia.
Defined.

Lemma control_parsing_stays_inside_witness :
  ∃ r, collect_control_fds 4096 (replicate 24 255) = Some r.
Proof.
  apply control_parsing_stays_inside; [done..|]. repeat constructor; unfold is_byte; lia.
Defined.

Lemma descriptors_roundtrip_witness :
  collect_control_fds 4096 (control_of [10; 11; 12]) = Some (Ok [10; 11; 12]).
Proof.
  apply descriptors_roundtrip; [done|repeat constructor; unfold descriptor; lia|done|done|].
  vm_compute. done.
Defined.

End Wire.
