(* ===== verification/IdmapBroker.v ===== *)
(** * The privileged ID-map broker ([platform/idmap_broker.rs])

    The broker runs as root and turns a daemon's directories into detached
    ID-mapped mounts.  [handle_client] is what it does with one connection, and
    [create_idmapped_mounts] the daemon's side.  Descriptors and directories are
    in a client's hands, so the kernel's answers are a history, one answer per
    system call, and nothing is assumed between two calls.  [b_sent] records the
    messages that [sendmsg] accepted. *)

From S2P Require Import Prelude BTree Text PathNames Toml FileSystem RuntimeLedger Manager BrokerWire.

Module Broker.
Import RuntimeLedger Wire Path.

(** ** The kernel *)

Definition EINVAL : Z := 22.

Record fd_stat := MkFdStat { fs_mode : Z; fs_uid : Z; fs_gid : Z; fs_dev : Z; fs_ino : Z }.

(** What [recvmsg] leaves in the buffers: the bytes, the control buffer, its
    address, and the truncation flags. *)
Record received := MkReceived
  { rx_bytes : list Z; rx_base : Z; rx_control : list Z; rx_truncated : bool }.

Class BrokerKernel := {
  setsockopt_at : nat → result io_error unit;
  peercred_at : nat → result io_error (Z * Z);
  recvmsg_at : nat → Z → result io_error received;
  sendmsg_at : nat → list Z → list Z → result io_error Z;
  fstat_at : nat → Z → result io_error fd_stat;
  fd_link_at : nat → Z → result io_error string;
  own_userns_at : nat → result io_error fd_stat;
  openat2_at : nat → Z → list string → result io_error Z;
  open_tree_at : nat → Z → result io_error Z;
  mount_setattr_at : nat → Z → Z → result io_error unit;
  open_dot_at : nat → Z → result io_error Z;
  socket_at : nat → result io_error unit;
  connect_at : nat → string → result io_error unit;
  canonicalize_at : nat → string → result io_error string;
  open_root_at : nat → string → result io_error Z;
  client_euid : Z;
  client_egid : Z;
  (** [shbox_sandbox::syscall_number]: whether the build knows the call. *)
  has_syscall : string → bool }.

Record broker_state := MkBroker
  { b_clock : nat; b_sent : list (list Z * list Z); b_next : Z }.

(** ** Roots *)

Record PinnedRoot := MkRoot { root_fd : Z; root_path : string }.
Record BrokerRoots := MkRoots { roots_data : PinnedRoot; roots_runtime : PinnedRoot }.

Section broker.
Context `{BrokerKernel}.

Notation B := (M broker_state io_error).

(** One system call: the kernel answers and time passes. *)
Definition call {A} (k : nat → result io_error A) : B A := fun s =>
  (k (b_clock s), MkBroker (S (b_clock s)) (b_sent s) (b_next s)).

(** [PinnedRoot::open]; the messages leave out the operating system's text. *)
Definition pinned_root_open (configured_path : string) : B PinnedRoot :=
  path ← mapE (fun _ => IoOther ("cannot resolve ID-map broker root " +:+ configured_path))
           (call (fun t => canonicalize_at t configured_path));
  if has_nul path then fail (IoOther "ID-map broker root contains an interior NUL")
  else
    fd ← mapE (fun _ => IoOther ("cannot open ID-map broker root " +:+ path))
           (call (fun t => open_root_at t path));
    md ← call (fun t => fstat_at t fd);
    if negb (is_directory (fs_mode md)) then fail (IoOther ("ID-map broker root " +:+ path +:+ " is not a directory"))
    else if negb (Z.land (fs_mode md) 18 =? 0)
    then fail (IoOther ("ID-map broker root " +:+ path +:+ " is group or world writable"))
    else mret (MkRoot fd path).

(** [BrokerRoots::from_paths]. *)
Definition from_paths (data runtime : string) : B BrokerRoots :=
  d ← pinned_root_open data;
  r ← pinned_root_open runtime;
  mret (MkRoots d r).

(** ** Messages *)

Definition send_with_fds (bytes fds : list Z) : B unit := fun s =>
  match sendmsg_at (b_clock s) bytes (control_of fds) with
  | Err e => (Err e, MkBroker (S (b_clock s)) (b_sent s) (b_next s))
  | Ok sent =>
      (if negb (sent =? Z.of_nat (length bytes)) then Err (IoOther "short ID-map broker message") else Ok tt,
       MkBroker (S (b_clock s)) (b_sent s ++ [(bytes, control_of fds)]) (b_next s))
  end.

Definition send_response (status id mount_count error_code : Z) (mount_fds : list Z) : B unit :=
  send_with_fds (encode_response status id mount_count error_code) mount_fds.

Definition receive_message (expected_fds : nat) : B (list Z * list Z) :=
  rx ← call (fun t => recvmsg_at t (cmsg_space (4 * Z.of_nat expected_fds)));
  match collect_control_fds (rx_base rx) (rx_control rx) with
  | None => fail (IoOther "read outside the control buffer")
  | Some (Err e) => fail e
  | Some (Ok descriptors) =>
      if rx_truncated rx then fail (IoOther "ID-map broker message was truncated")
      else mret (rx_bytes rx, descriptors)
  end.

(** ** What the broker checks *)

Definition same_file (a b : fd_stat) : bool := (fs_dev a =? fs_dev b) && (fs_ino a =? fs_ino b).

Definition openat2_beneath (root : Z) (relative : list string) : B Z :=
  if existsb has_nul relative
  then fail (IoOther "ID-map broker source path contains an interior NUL")
  else if negb (has_syscall "openat2")
  then fail (IoOther "ID-map broker requires the openat2 system call")
  else call (fun t => openat2_at t root relative).

(** The empty relative path is the root itself, [.]. *)
Definition source_path_beneath_root (fd : Z) (root : PinnedRoot) : B (list string) :=
  link ← call (fun t => fd_link_at t fd);
  match strip_components (components (root_path root)) (components link) with
  | None => fail (IoOther "ID-map broker source is outside its configured shbox root")
  | Some [] => mret ["."]
  | Some relative => mret relative
  end.

Definition validate_source_fd (fd uid gid : Z) (allowed_root : PinnedRoot) : B unit :=
  md ← call (fun t => fstat_at t fd);
  if negb (is_directory (fs_mode md)) || negb (fs_uid md =? uid) || negb (fs_gid md =? gid)
     || negb (Z.land (fs_mode md) 18 =? 0)
  then fail (IoOther "ID-map broker source is not a private daemon-owned directory")
  else
    relative ← source_path_beneath_root fd allowed_root;
    fresh ← openat2_beneath (root_fd allowed_root) relative;
    fresh_md ← call (fun t => fstat_at t fresh);
    if negb (same_file md fresh_md)
    then fail (IoOther "ID-map broker source descriptor does not match its configured shbox root entry")
    else mret tt.

Definition is_user_namespace_fd (fd : Z) : B bool :=
  link ← tryM (call (fun t => fd_link_at t fd));
  let named := match link with
               | Ok path => utf8_valid path && starts_with "user:[" path && ends_with "]" path
               | Err _ => false
               end in
  if negb named then mret false
  else
    supplied ← tryM (call (fun t => fstat_at t fd));
    match supplied with
    | Err _ => mret false
    | Ok supplied =>
        initial ← tryM (call own_userns_at);
        match initial with
        | Err _ => mret false
        | Ok initial => mret (negb (same_file supplied initial))
        end
    end.

Definition validate_mapped_root (fd expected_uid expected_gid : Z) : B unit :=
  root ← call (fun t => open_dot_at t fd);
  md ← call (fun t => fstat_at t root);
  if negb (fs_uid md =? expected_uid) || negb (fs_gid md =? expected_gid)
  then fail (IoOther "mount ID-map namespace does not translate the source root to the leased IDs")
  else mret tt.

(** The body of [create_mounts]'s loop: one detached, mapped, checked mount. *)
Definition create_mount (userns source leased_uid leased_gid : Z) : B Z :=
  if negb (has_syscall "open_tree") then fail (IoOther "open_tree is unavailable")
  else
    detached ← call (fun t => open_tree_at t source);
    if negb (has_syscall "mount_setattr") then fail (IoOther "mount_setattr is unavailable")
    else
      _ ← call (fun t => mount_setattr_at t detached userns);
      _ ← validate_mapped_root detached leased_uid leased_gid;
      mret detached.

Definition create_mounts (userns workspace runtime leased_uid leased_gid : Z) : B (Z * Z) :=
  w ← create_mount userns workspace leased_uid leased_gid;
  r ← create_mount userns runtime leased_uid leased_gid;
  mret (w, r).

(** [error.raw_os_error().unwrap_or(libc::EIO) as u32]. *)
Definition error_code_of (e : io_error) : Z :=
  match e with Errno n => wrap_u32 n | IoOther _ => EIO end.

(** ** One connection *)

(** From the three received descriptors on: both sources are checked, then
    mounted. *)
Definition serve_sources (roots : BrokerRoots) (request : BrokerRequest)
    (userns workspace runtime : Z) : B unit :=
  let reject := send_response STATUS_SOURCE_REJECTED (request_id request) 0 4 [] in
  named ← is_user_namespace_fd userns;
  if negb named then reject
  else
    w ← tryM (validate_source_fd workspace (daemon_uid request) (daemon_gid request) (roots_data roots));
    if negb (is_ok w) then reject
    else
      r ← tryM (validate_source_fd runtime (daemon_uid request) (daemon_gid request)
                  (roots_runtime roots));
      if negb (is_ok r) then reject
      else
        mounts ← tryM (create_mounts userns workspace runtime (leased_uid request) (leased_gid request));
        match mounts with
        | Err error =>
            send_response STATUS_MOUNT_UNSUPPORTED (request_id request) 0 (error_code_of error) []
        | Ok (mw, mr) => send_response STATUS_OK (request_id request) 2 0 [mw; mr]
        end.

Definition handle_client (roots : BrokerRoots) : B unit :=
  _ ← call setsockopt_at;
  peer ← call peercred_at;
  message ← receive_message SOURCE_FD_COUNT;
  match decode_request message.1 with
  | Err e =>
      _ ← (tryM (send_response STATUS_INVALID_REQUEST 0 0 1 []) : B (result io_error unit));
      fail e
  | Ok request =>
      if negb (source_count request =? SOURCE_COUNT)
         || negb (Nat.eqb (length message.2) SOURCE_FD_COUNT)
      then send_response STATUS_INVALID_REQUEST (request_id request) 0 2 []
      else if (peer.1 =? 0) || negb (daemon_uid request =? peer.1) || negb (daemon_gid request =? peer.2)
      then send_response STATUS_UNAUTHORIZED (request_id request) 0 2 []
      else if (leased_uid request =? 0) || (leased_gid request =? 0)
              || (leased_uid request =? daemon_uid request)
              || (leased_gid request =? daemon_gid request)
      then send_response STATUS_INVALID_REQUEST (request_id request) 0 3 []
      else match message.2 with
           | [userns; workspace; runtime] => serve_sources roots request userns workspace runtime
           | _ => mret tt
           end
  end.

(** ** The service *)

(** [run_from_systemd] up to [serve]: one activated listener, as root, with both
    roots configured.  The environment and the process's IDs are arguments. *)
Definition run_from_systemd (listen_fds listen_pid : string) (pid : Z) (listener : result io_error unit)
    (geteuid : Z) (data runtime : option string) : B BrokerRoots :=
  if negb (bool_decide (listen_fds = "1")) || negb (bool_decide (listen_pid = fmt_dec pid))
  then fail (IoOther "ID-map broker requires one socket-activated listener")
  else
    _ ← liftR listener;
    if negb (geteuid =? 0)
    then fail (IoOther "ID-map broker must run in the initial user namespace as root")
    else match data, runtime with
         | None, _ => fail (IoOther "ID-map broker data root is not configured")
         | _, None => fail (IoOther "ID-map broker runtime root is not configured")
         | Some data, Some runtime => from_paths data runtime
         end.

Definition is_transient_accept_error (error : io_error) : bool :=
  match error with
  | Errno n => bool_decide (n ∈ [4; 24; 23; 103]) || (n =? 11)
  | IoOther _ => false
  end.

(** [HandlerSemaphore]: at most sixteen connections are handled at once. *)
Definition MAX_HANDLER_THREADS : Z := 16.

(** [acquire] takes a permit, or waits ([None]). *)
Definition acquire (active : Z) : option Z :=
  if MAX_HANDLER_THREADS <=? active then None else Some (active + 1).
Definition release (active : Z) : Z := Z.max 0 (active - 1).

(** The accept loop takes permits, handlers drop theirs when they end. *)
Inductive sem_step : Z * nat → Z * nat → Prop :=
| sem_acquire active permits active' :
    acquire active = Some active' → sem_step (active, permits) (active', S permits)
| sem_release active permits : sem_step (active, S permits) (release active, permits).

Lemma handlers_are_bounded x :
  rtc sem_step (0, 0%nat) x → x.1 = Z.of_nat x.2 ∧ x.1 <= MAX_HANDLER_THREADS.
Proof.
  intros Hr.
  assert (∀ a b, rtc sem_step a b → a.1 = Z.of_nat a.2 ∧ a.1 <= MAX_HANDLER_THREADS →
    b.1 = Z.of_nat b.2 ∧ b.1 <= MAX_HANDLER_THREADS) as Hinv; [|by eapply Hinv].
  clear. induction 1 as [|a b c Hstep _ IH]; [done|]. intros [H1 H2]. apply IH.
  destruct Hstep as [active permits active' Hacq|active permits]; simpl in *.
  - unfold acquire in Hacq. case_match; [done|]. simplify_eq. bool_to_prop. lia.
  - unfold release. lia.
Qed.

(** ** The daemon's side *)

Record BrokerMounts := MkMounts { mount_workspace : Z; mount_runtime : Z }.

Definition fetch_request_id : M broker_state LaunchError Z := fun s =>
  (Ok (b_next s), MkBroker (b_clock s) (b_sent s) (wrap_u64 (b_next s + 1))).

(** [connect] with [unix_address]: the path has to fit a socket address. *)
Definition connect (socket_path : string) : B unit :=
  _ ← call socket_at;
  if (str_len socket_path =? 0) || (108 <=? str_len socket_path)
  then fail (IoOther "ID-map broker socket path is empty or too long")
  else call (fun t => connect_at t socket_path).

Definition create_idmapped_mounts (socket_path : string) (identity : Manager.IsolatedIdentity)
    (mount_idmap_userns workspace_source runtime_source : Z)
    : M broker_state LaunchError BrokerMounts :=
  _ ← mapE (fun _ => MkLaunchError "isolated sandbox ID-map mount broker is unavailable")
        (connect socket_path);
  id ← fetch_request_id;
  _ ← mapE (fun _ => MkLaunchError "ID-map broker request failed")
        (send_with_fds (encode_request client_euid client_egid id identity)
           [mount_idmap_userns; workspace_source; runtime_source]);
  message ← mapE (fun _ => MkLaunchError "ID-map broker response failed")
              (receive_message MOUNT_FD_COUNT);
  response ← liftR (decode_response message.1);
  let '(status, response_id, mount_count, error_code) := response in
  if negb (response_id =? id)
  then fail (MkLaunchError "ID-map broker returned a mismatched request identifier")
  else if negb (status =? STATUS_OK)
  then fail (MkLaunchError ("ID-map broker rejected the mount request (status " +:+ fmt_dec status
                              +:+ ", code " +:+ fmt_dec error_code +:+ ")"))
  else if negb (mount_count =? Z.of_nat MOUNT_FD_COUNT) || negb (Nat.eqb (length message.2) MOUNT_FD_COUNT)
  then fail (MkLaunchError "ID-map broker returned an invalid detached-mount descriptor count")
  else match message.2 with
       | [w; r] => mret (MkMounts w r)
       | _ => fail (MkLaunchError "checked mount fd count")
       end.

(** ** Calls that send nothing *)

Definition silent {E A} (m : M broker_state E A) : Prop :=
  ∀ s, b_sent (m s).2 = b_sent s ∧ (b_clock s <= b_clock (m s).2)%nat.

Lemma silent_ret {E A} (a : A) : silent (mret a : M broker_state E A).
Proof. by intros s. Qed.
Lemma silent_fail {E A} (e : E) : silent (fail e : M broker_state E A).
Proof. by intros s. Qed.
Lemma silent_call {A} (k : nat → result io_error A) : silent (call k).
Proof. intros s. simpl. split; [done|lia]. Qed.
Lemma silent_tryM {E E' A} (m : M broker_state E A) : silent m → silent (tryM m : M broker_state E' _).
Proof. intros Hm s. specialize (Hm s). unfold tryM. by destruct (m s). Qed.
Lemma silent_bind {E A C} (m : M broker_state E A) (f : A → M broker_state E C) :
  silent m → (∀ a, silent (f a)) → silent (m ≫= f).
Proof.
  intros Hm Hf s. unfold mbind, M_bind. specialize (Hm s).
  destruct (m s) as [[a|e] s1]; simpl in *; [|done]. destruct Hm as [Hs1 Hc1], (Hf a s1) as [Hs2 Hc2].
  split; [by rewrite Hs2|lia].
Qed.
#[local] Hint Resolve silent_ret silent_fail silent_call silent_tryM silent_bind : core.

Ltac quiet :=
  repeat match goal with
  | |- silent (_ ≫= _) => apply silent_bind; [|intros]
  | |- silent (tryM _) => apply silent_tryM
  | |- silent (match ?x with _ => _ end) => destruct x
  end; auto.

Lemma silent_validate fd uid gid root : silent (validate_source_fd fd uid gid root).
Proof. unfold validate_source_fd, source_path_beneath_root, openat2_beneath. quiet. Qed.
Lemma silent_userns fd : silent (is_user_namespace_fd fd).
Proof. unfold is_user_namespace_fd. quiet. Qed.
Lemma silent_mount userns source uid gid : silent (create_mount userns source uid gid).
Proof. unfold create_mount, validate_mapped_root. quiet. Qed.
Lemma silent_mounts userns w r uid gid : silent (create_mounts userns w r uid gid).
Proof. unfold create_mounts. quiet; apply silent_mount. Qed.
Lemma silent_receive n : silent (receive_message n).
Proof. unfold receive_message. quiet. Qed.

Lemma silent_run {E A} (m : M broker_state E A) s r s' :
  silent m → m s = (r, s') → b_sent s' = b_sent s ∧ (b_clock s <= b_clock s')%nat.
Proof. intros Hm Hrun. specialize (Hm s). by rewrite Hrun in Hm. Qed.

(** ** What the checks establish *)

(** Something the kernel answered between two moments. *)
Definition during (t t' : nat) (P : nat → Prop) : Prop := ∃ u, (t <= u < t')%nat ∧ P u.

Lemma during_mono t t' u u' P :
  (u <= t)%nat → (t' <= u')%nat → during t t' P → during u u' P.
Proof. intros ? ? (v & ? & ?). exists v. split; [lia|done]. Qed.

(** A private directory of the peer's, which the pinned root reaches under the
    name the kernel gives the descriptor. *)
Definition vetted_source (t t' : nat) (fd uid gid : Z) (root : PinnedRoot) : Prop :=
  ∃ md link relative fresh fresh_md,
    during t t' (fun u => fstat_at u fd = Ok md) ∧
    is_directory (fs_mode md) = true ∧ fs_uid md = uid ∧ fs_gid md = gid ∧
    Z.land (fs_mode md) 18 = 0 ∧
    during t t' (fun u => fd_link_at u fd = Ok link) ∧
    components link = components (root_path root) ++ relative ∧
    during t t' (fun u => openat2_at u (root_fd root)
                            (match relative with [] => ["."] | _ => relative end) = Ok fresh) ∧
    during t t' (fun u => fstat_at u fresh = Ok fresh_md) ∧
    fs_dev md = fs_dev fresh_md ∧ fs_ino md = fs_ino fresh_md.

(** A detached clone of [source] with the namespace's map, whose root was seen to
    belong to the leased identity. *)
Definition mapped_mount (t t' : nat) (userns source uid gid mount : Z) : Prop :=
  ∃ root md,
    during t t' (fun u => open_tree_at u source = Ok mount) ∧
    during t t' (fun u => mount_setattr_at u mount userns = Ok ()) ∧
    during t t' (fun u => open_dot_at u mount = Ok root) ∧
    during t t' (fun u => fstat_at u root = Ok md) ∧
    fs_uid md = uid ∧ fs_gid md = gid.

(** A user namespace other than the broker's own. *)
Definition other_namespace (t t' : nat) (fd : Z) : Prop :=
  ∃ link md own,
    during t t' (fun u => fd_link_at u fd = Ok link) ∧ starts_with "user:[" link = true ∧
    during t t' (fun u => fstat_at u fd = Ok md) ∧ during t t' (fun u => own_userns_at u = Ok own) ∧
    same_file md own = false.

Lemma call_Ok {A} (k : nat → result io_error A) s a s' :
  call k s = (Ok a, s') → k (b_clock s) = Ok a ∧ b_clock s' = S (b_clock s) ∧ b_sent s' = b_sent s.
Proof. unfold call. intros Hrun. by simplify_eq. Qed.

(** Open the next call of a successful run. *)
Ltac next_call H a s1 Ha :=
  let Hc := fresh "Hclock" in
  apply bind_Ok in H as (a & s1 & Ha & H); apply call_Ok in Ha as (Ha & Hc & _).

Ltac by_call := eexists; split; [|eassumption]; lia.

Lemma source_path_ok fd root s relative s' :
  source_path_beneath_root fd root s = (Ok relative, s') →
  b_clock s' = S (b_clock s) ∧
  ∃ link rest, fd_link_at (b_clock s) fd = Ok link ∧
    components link = components (root_path root) ++ rest ∧
    relative = match rest with [] => ["."] | _ => rest end.
Proof.
  unfold source_path_beneath_root. intros Hrun. next_call Hrun link s1 Hlink.
  destruct (strip_components _ _) as [rest|] eqn:Hstrip; [|done].
  apply strip_components_Some in Hstrip.
  destruct rest; apply ret_Ok in Hrun as [-> ->]; (split; [done|]); eexists _, _; done.
Qed.

Lemma openat2_beneath_ok root relative s fd s' :
  openat2_beneath root relative s = (Ok fd, s') →
  b_clock s' = S (b_clock s) ∧ openat2_at (b_clock s) root relative = Ok fd.
Proof.
  unfold openat2_beneath. do 2 (case_match; [done|]). by intros (? & ? & _)%call_Ok.
Qed.

Lemma validate_source_fd_ok fd uid gid root s s' :
  validate_source_fd fd uid gid root s = (Ok (), s') →
  vetted_source (b_clock s) (b_clock s') fd uid gid root.
Proof.
  unfold validate_source_fd. intros Hrun. next_call Hrun md s1 Hmd.
  case_match eqn:Hbad; [done|]. bool_to_prop.
  apply bind_Ok in Hrun as (relative & s2 & (Hc2 & link & rest & Hlink & Hcomp & ->)%source_path_ok & Hrun).
  apply bind_Ok in Hrun as (fresh & s3 & (Hc3 & Hfresh)%openat2_beneath_ok & Hrun).
  next_call Hrun fresh_md s4 Hfmd. case_match eqn:Hsame; [done|].
  apply ret_Ok in Hrun as [_ ->]. unfold same_file in Hsame. bool_to_prop.
  exists md, link, rest, fresh, fresh_md. split_and!; try done; by_call.
Qed.

Lemma is_user_namespace_fd_true fd s s' :
  is_user_namespace_fd fd s = (Ok true, s') → other_namespace (b_clock s) (b_clock s') fd.
Proof.
  unfold is_user_namespace_fd. intros Hrun.
  apply bind_Ok in Hrun as (link & s1 & Hlink%tryM_Ok & Hrun).
  destruct link as [link|]; [|done]. apply call_Ok in Hlink as (Hlink & Hc1 & _).
  case_match eqn:Hname; [done|]. bool_to_prop.
  apply bind_Ok in Hrun as (md & s2 & Hmd%tryM_Ok & Hrun).
  destruct md as [md|]; [|done]. apply call_Ok in Hmd as (Hmd & Hc2 & _).
  apply bind_Ok in Hrun as (own & s3 & Hown%tryM_Ok & Hrun).
  destruct own as [own|]; [|done]. apply call_Ok in Hown as (Hown & Hc3 & _).
  apply ret_Ok in Hrun as [Hsame ->].
  exists link, md, own. split_and!; try done; try by_call. by destruct (same_file md own).
Qed.

Lemma create_mount_ok userns source uid gid s mount s' :
  create_mount userns source uid gid s = (Ok mount, s') →
  mapped_mount (b_clock s) (b_clock s') userns source uid gid mount.
Proof.
  unfold create_mount, validate_mapped_root. intros Hrun.
  case_match; [done|]. next_call Hrun d s1 Hd. case_match; [done|]. next_call Hrun u s2 Hu.
  apply bind_Ok in Hrun as ([] & s5 & Hroot & Hrun). apply ret_Ok in Hrun as [-> ->].
  next_call Hroot root s3 Hopen. next_call Hroot md s4 Hmd.
  case_match eqn:Hids; [done|]. apply ret_Ok in Hroot as [_ ->]. bool_to_prop. destruct u.
  exists root, md. split_and!; try done; by_call.
Qed.

Lemma create_mounts_ok userns workspace runtime uid gid s mw mr s' :
  create_mounts userns workspace runtime uid gid s = (Ok (mw, mr), s') →
  ∃ t, (b_clock s <= t <= b_clock s')%nat ∧
    mapped_mount (b_clock s) t userns workspace uid gid mw ∧
    mapped_mount t (b_clock s') userns runtime uid gid mr.
Proof.
  unfold create_mounts. intros (w & s1 & Hw & Hrun)%bind_Ok.
  apply bind_Ok in Hrun as (r & s2 & Hr & Hrun). apply ret_Ok in Hrun as [[= -> ->] ->].
  exists (b_clock s1).
  pose proof (silent_run _ _ _ _ (silent_mount _ _ _ _) Hw) as [_ ?].
  pose proof (silent_run _ _ _ _ (silent_mount _ _ _ _) Hr) as [_ ?].
  split; [lia|]. split; by apply create_mount_ok.
Qed.

Lemma vetted_mono t t' u u' fd uid gid root :
  (u <= t)%nat → (t' <= u')%nat → vetted_source t t' fd uid gid root → vetted_source u u' fd uid gid root.
Proof.
  intros ? ? (md & link & rel & fresh & fmd & ? & ? & ? & ? & ? & ? & ? & ? & ? & ? & ?).
  exists md, link, rel, fresh, fmd. split_and!; try done; by eapply during_mono.
Qed.

Lemma mapped_mono t t' u u' userns source uid gid mount :
  (u <= t)%nat → (t' <= u')%nat →
  mapped_mount t t' userns source uid gid mount → mapped_mount u u' userns source uid gid mount.
Proof.
  intros ? ? (root & md & ? & ? & ? & ? & ? & ?).
  exists root, md. split_and!; try done; by eapply during_mono.
Qed.

Lemma other_namespace_mono t t' u u' fd :
  (u <= t)%nat → (t' <= u')%nat → other_namespace t t' fd → other_namespace u u' fd.
Proof.
  intros ? ? (link & md & own & ? & ? & ? & ? & ?).
  exists link, md, own. split_and!; try done; by eapply during_mono.
Qed.

(** ** The answer to a connection *)

(** The message one run added to those sent. *)
Definition answers (s s' : broker_state) (status id count code : Z) (fds : list Z) : Prop :=
  b_sent s' = b_sent s ++ [(encode_response status id count code, control_of fds)].

(** A refusal carries no mounts. *)
Definition refused (s s' : broker_state) : Prop :=
  ∃ status id code, status ≠ STATUS_OK ∧ answers s s' status id 0 code [].

(** Everything behind the mounts of the descriptors [userns], [workspace] and
    [runtime], which came with [request]. *)
Definition mounts_granted (t t' : nat) (roots : BrokerRoots) (request : BrokerRequest)
    (userns workspace runtime mw mr : Z) : Prop :=
  other_namespace t t' userns ∧
  vetted_source t t' workspace (daemon_uid request) (daemon_gid request) (roots_data roots) ∧
  vetted_source t t' runtime (daemon_uid request) (daemon_gid request) (roots_runtime roots) ∧
  mapped_mount t t' userns workspace (leased_uid request) (leased_gid request) mw ∧
  mapped_mount t t' userns runtime (leased_uid request) (leased_gid request) mr.

Lemma send_response_sent status id count code fds s r s' :
  send_response status id count code fds s = (r, s') →
  b_clock s' = S (b_clock s) ∧
  (b_sent s' = b_sent s ∧ is_ok r = false ∨ answers s s' status id count code fds).
Proof.
  unfold send_response, send_with_fds, answers. destruct (sendmsg_at _ _ _); intros; simplify_eq/=; auto.
Qed.

Lemma refuse_sent status id code s r s' s0 :
  status ≠ STATUS_OK → b_sent s = b_sent s0 →
  send_response status id 0 code [] s = (r, s') →
  b_sent s' = b_sent s0 ∧ is_ok r = false ∨ refused s0 s'.
Proof.
  intros Hst Hs [_ [[Hsent Hr]|Hans]]%send_response_sent; [left; split; [congruence|done]|].
  right. exists status, id, code. split; [done|]. unfold answers in *. congruence.
Qed.

Lemma bind_tryM_inv {E E' A C} (m : M broker_state E A) (f : result E A → M broker_state E' C) s r s' :
  (tryM m ≫= f) s = (r, s') → ∃ x s1, m s = (x, s1) ∧ f x s1 = (r, s').
Proof. unfold_monad. destruct (m s) as [x s1]. eauto. Qed.

Lemma is_user_namespace_fd_total fd s : ∃ b s', is_user_namespace_fd fd s = (Ok b, s').
Proof.
  unfold is_user_namespace_fd. unfold_monad. unfold call.
  repeat (case_match; simplify_eq/=); eauto.
Qed.

Lemma serve_sources_answer roots request userns workspace runtime s r s' :
  serve_sources roots request userns workspace runtime s = (r, s') →
  b_sent s' = b_sent s ∧ is_ok r = false ∨ refused s s' ∨
  ∃ mw mr, answers s s' STATUS_OK (request_id request) 2 0 [mw; mr] ∧
    mounts_granted (b_clock s) (b_clock s') roots request userns workspace runtime mw mr.
Proof.
  unfold serve_sources. intros Hrun.
  destruct (is_user_namespace_fd_total userns s) as (b & s1 & Hns).
  unfold mbind at 1, M_bind at 1 in Hrun. rewrite Hns in Hrun.
  pose proof (silent_run _ _ _ _ (silent_userns _) Hns) as [Hs1 Hc1].
  destruct b; simpl negb in Hrun; cbv iota in Hrun; [|apply (refuse_sent _ _ _ _ _ _ s) in Hrun; tauto || done].
  apply bind_tryM_inv in Hrun as (w & s2 & Hw & Hrun).
  pose proof (silent_run _ _ _ _ (silent_validate _ _ _ _) Hw) as [Hs2 Hc2].
  rewrite Hs1 in Hs2.
  destruct w as [[]|]; simpl negb in Hrun; cbv iota in Hrun;
    [|apply (refuse_sent _ _ _ _ _ _ s) in Hrun; tauto || done].
  apply bind_tryM_inv in Hrun as (v & s3 & Hv & Hrun).
  pose proof (silent_run _ _ _ _ (silent_validate _ _ _ _) Hv) as [Hs3 Hc3].
  rewrite Hs2 in Hs3.
  destruct v as [[]|]; simpl negb in Hrun; cbv iota in Hrun;
    [|apply (refuse_sent _ _ _ _ _ _ s) in Hrun; tauto || done].
  apply bind_tryM_inv in Hrun as (mounts & s4 & Hm & Hrun).
  pose proof (silent_run _ _ _ _ (silent_mounts _ _ _ _ _) Hm) as [Hs4 Hc4].
  rewrite Hs3 in Hs4.
  destruct mounts as [[mw mr]|]; [|apply (refuse_sent _ _ _ _ _ _ s) in Hrun; tauto || done].
  apply send_response_sent in Hrun as [Hc5 [[Hs5 Hr]|Hans]]; [left; split; [congruence|done]|].
  right; right. exists mw, mr. split; [unfold answers in *; congruence|].
  apply create_mounts_ok in Hm as (t & Ht & Hmw & Hmr).
  apply is_user_namespace_fd_true in Hns. apply validate_source_fd_ok in Hw, Hv.
  split_and!; [eapply other_namespace_mono; [..|exact Hns]|eapply vetted_mono; [..|exact Hw]|
    eapply vetted_mono; [..|exact Hv]|eapply mapped_mono; [..|exact Hmw]|
    eapply mapped_mono; [..|exact Hmr]]; lia.
Qed.

Lemma mounts_granted_clock t t' roots request userns workspace runtime mw mr :
  mounts_granted t t' roots request userns workspace runtime mw mr → (t < t')%nat.
Proof. intros ((link & md & own & (u & ? & _) & _) & _). lia. Qed.

(** What a granted connection was: an unprivileged peer that is who the request
    says, asking for an identity that is neither root's nor its own, with three
    descriptors that passed every check. *)
Definition granted (t t' : nat) (roots : BrokerRoots) (request : BrokerRequest) (mw mr : Z) : Prop :=
  ∃ bytes userns workspace runtime,
    during t t' (fun u => peercred_at u = Ok (daemon_uid request, daemon_gid request)) ∧
    daemon_uid request ≠ 0 ∧
    during t t' (fun u => ∃ rx, recvmsg_at u (cmsg_space 12) = Ok rx ∧ rx_bytes rx = bytes ∧
      rx_truncated rx = false ∧
      collect_control_fds (rx_base rx) (rx_control rx) = Some (Ok [userns; workspace; runtime])) ∧
    decode_request bytes = Ok request ∧
    leased_uid request ≠ 0 ∧ leased_gid request ≠ 0 ∧
    leased_uid request ≠ daemon_uid request ∧ leased_gid request ≠ daemon_gid request ∧
    mounts_granted t t' roots request userns workspace runtime mw mr.

Lemma receive_message_ok n s message s' :
  receive_message n s = (Ok message, s') →
  b_clock s' = S (b_clock s) ∧
  ∃ rx, recvmsg_at (b_clock s) (cmsg_space (4 * Z.of_nat n)) = Ok rx ∧ rx_bytes rx = message.1 ∧
    rx_truncated rx = false ∧ collect_control_fds (rx_base rx) (rx_control rx) = Some (Ok message.2).
Proof.
  unfold receive_message. intros Hrun. next_call Hrun rx s1 Hrx.
  repeat case_match; try done. apply ret_Ok in Hrun as [-> ->]. split; [done|]. by exists rx.
Qed.

Lemma quiet_bind_inv {A C} (m : B A) (f : A → B C) s r s' :
  silent m → (m ≫= f) s = (r, s') →
  (b_sent s' = b_sent s ∧ is_ok r = false) ∨
  ∃ a s1, m s = (Ok a, s1) ∧ b_sent s1 = b_sent s ∧ f a s1 = (r, s').
Proof.
  intros Hq [(a & s1 & Hm & Hf)|(e & Hm & ->)]%bind_inv;
    apply (silent_run _ _ _ _ Hq) in Hm as Hs; [right; naive_solver|left; tauto].
Qed.

Lemma mounts_granted_mono t t' u u' roots request userns workspace runtime mw mr :
  (u <= t)%nat → (t' <= u')%nat →
  mounts_granted t t' roots request userns workspace runtime mw mr →
  mounts_granted u u' roots request userns workspace runtime mw mr.
Proof.
  intros ? ? (? & ? & ? & ? & ?). split_and!;
    [eapply other_namespace_mono|eapply vetted_mono|eapply vetted_mono|
     eapply mapped_mono|eapply mapped_mono]; [..|eassumption]; done.
Qed.

(** C29: the broker mounts nothing unvetted and says one thing.  Whatever a client
    sends and however the kernel's answers change in between, a connection gets at
    most one message; it carries mounts only if the peer is an unprivileged
    process with the credentials it claims, the leased identity is neither root's
    nor the peer's, the namespace is a user namespace other than the broker's, and
    both sources are private directories of the peer's that the pinned roots reach
    themselves; each mount is a clone of that source under that namespace whose
    root was seen to belong to the leased identity.  Every other message carries
    nothing. *)
Theorem broker_grants_are_vetted roots s r s' :
  handle_client roots s = (r, s') →
  b_sent s' = b_sent s ∧ is_ok r = false ∨ refused s s' ∨
  ∃ request mw mr, answers s s' STATUS_OK (request_id request) 2 0 [mw; mr] ∧
    granted (b_clock s) (b_clock s') roots request mw mr.
Proof.
  unfold handle_client. intros Hrun.
  apply (quiet_bind_inv _ _ _ _ _ (silent_call _)) in Hrun as [?|(u & s1 & Hopt & Hs1 & Hrun)]; [by left|].
  apply call_Ok in Hopt as (_ & Hc1 & _).
  apply (quiet_bind_inv _ _ _ _ _ (silent_call _)) in Hrun as [[? ?]|(peer & s2 & Hpeer & Hs2 & Hrun)];
    [left; split; [congruence|done]|].
  apply call_Ok in Hpeer as (Hpeer & Hc2 & _).
  apply (quiet_bind_inv _ _ _ _ _ (silent_receive _)) in Hrun
    as [[? ?]|(message & s3 & Hrx & Hs3 & Hrun)]; [left; split; [congruence|done]|].
  apply receive_message_ok in Hrx as (Hc3 & rx & Hrx & Hbytes & Htr & Hfds).
  assert (b_sent s3 = b_sent s) as Hs by congruence.
  destruct (decode_request message.1) as [request|e] eqn:Hdec.
  2:{ apply bind_tryM_inv in Hrun as (x & s4 & Hsend & [= <- <-]).
      apply (refuse_sent _ _ _ _ _ _ s) in Hsend as [[? ?]|?]; tauto || done. }
  do 3 (case_match; [apply (refuse_sent _ _ _ _ _ _ s) in Hrun; tauto || done|]). bool_to_prop.
  destruct message as [bytes [|userns [|workspace [|runtime []]]]]; try done. simpl in *.
  destruct peer as [puid pgid]. simpl in *.
  apply serve_sources_answer in Hrun as [[? ?]|[(st & id & code & ? & ?)|(mw & mr & Hans & Hgr)]].
  - left. split; [congruence|done].
  - right; left. exists st, id, code. split; [done|]. unfold answers in *. congruence.
  - right; right. exists request, mw, mr. split; [unfold answers in *; congruence|].
    pose proof (mounts_granted_clock _ _ _ _ _ _ _ _ _ Hgr).
    exists bytes, userns, workspace, runtime.
    split_and!; try done; try congruence.
    + exists (b_clock s1). split; [lia|]. congruence.
    + exists (b_clock s2). split; [lia|]. by exists rx.
    + eapply mounts_granted_mono; [..|exact Hgr]; lia.
Qed.

(** ** What the kernel accepts *)

(** Every message a run adds to those sent was accepted by [sendmsg]. *)
Definition accepted {E A} (m : M broker_state E A) : Prop :=
  ∀ s, ∃ l, b_sent (m s).2 = b_sent s ++ l ∧
    Forall (fun msg => ∃ t n, sendmsg_at t msg.1 msg.2 = Ok n) l.

Lemma accepted_silent {E A} (m : M broker_state E A) : silent m → accepted m.
Proof. intros Hm s. destruct (Hm s) as [-> _]. exists []. by rewrite app_nil_r. Qed.

Lemma accepted_bind {E A C} (m : M broker_state E A) (f : A → M broker_state E C) :
  accepted m → (∀ a, accepted (f a)) → accepted (m ≫= f).
Proof.
  intros Hm Hf s. unfold mbind, M_bind. specialize (Hm s).
  destruct (m s) as [[a|e] s1]; simpl in *; [|apply Hm].
  destruct Hm as (l & Hl & Hall), (Hf a s1) as (l' & Hl' & Hall').
  exists (l ++ l'). rewrite Hl', Hl, app_assoc. split; [done|]. by apply Forall_app.
Qed.

Lemma accepted_tryM {E E' A} (m : M broker_state E A) :
  accepted m → accepted (tryM m : M broker_state E' _).
Proof. intros Hm s. specialize (Hm s). unfold tryM. by destruct (m s). Qed.

Lemma accepted_send bytes fds : accepted (send_with_fds bytes fds).
Proof.
  intros s. unfold send_with_fds. destruct (sendmsg_at _ _ _) as [n|] eqn:Hn; simpl.
  - eexists. split; [done|]. constructor; [|constructor]. by exists (b_clock s), n.
  - exists []. by rewrite app_nil_r.
Qed.

Lemma handle_client_accepted roots : accepted (handle_client roots).
Proof.
  unfold handle_client, serve_sources, send_response.
  repeat match goal with
  | |- accepted (call _ ≫= _) => apply accepted_bind; [apply accepted_silent; auto|intros]
  | |- accepted (receive_message _ ≫= _) =>
      apply accepted_bind; [apply accepted_silent, silent_receive|intros]
  | |- accepted (is_user_namespace_fd _ ≫= _) =>
      apply accepted_bind; [apply accepted_silent, silent_userns|intros]
  | |- accepted (tryM (validate_source_fd _ _ _ _) ≫= _) =>
      apply accepted_bind; [apply accepted_silent, silent_tryM, silent_validate|intros]
  | |- accepted (tryM (create_mounts _ _ _ _ _) ≫= _) =>
      apply accepted_bind; [apply accepted_silent, silent_tryM, silent_mounts|intros]
  | |- accepted (tryM (send_with_fds _ _) ≫= _) =>
      apply accepted_bind; [apply accepted_tryM, accepted_send|intros]
  | |- accepted (send_with_fds _ _) => apply accepted_send
  | |- accepted (mret _) => apply accepted_silent; auto
  | |- accepted (fail _) => apply accepted_silent; auto
  | |- accepted (match ?x with _ => _ end) => destruct x
  end.
Qed.

(** [sendmsg] with a control buffer whose first header is shorter than a header
    is invalid. *)
Definition short_headers_are_invalid : Prop :=
  ∀ t bytes control,
    CMSGHDR_SIZE <= Z.of_nat (length control) → from_le (take 8 control) < CMSGHDR_SIZE →
    sendmsg_at t bytes control = Err (Errno EINVAL).

(** A refusal never reaches the client.  [send_with_fds] passes a zeroed
    header of control data even when there are no descriptors to send; where the
    kernel calls that invalid, as Linux does, no connection is ever answered with
    a refusal, so the status and error code of the protocol are never seen and a
    refused client only finds the connection closed. *)
Theorem refusals_never_arrive roots s r s' :
  short_headers_are_invalid → handle_client roots s = (r, s') → ¬ refused s s'.
Proof.
  intros Hinv Hrun (status & id & code & _ & Hans).
  destruct (handle_client_accepted roots s) as (l & Hl & Hall).
  rewrite Hrun in Hl. simpl in Hl. unfold answers in Hans. rewrite Hans in Hl.
  apply (inj (app (b_sent s))) in Hl as <-. apply Forall_singleton in Hall as (t & n & Hsend).
  rewrite Hinv in Hsend; [done|vm_compute; done..].
Qed.

(** ** The daemon's side *)

Lemma send_with_fds_ok bytes fds s s' :
  send_with_fds bytes fds s = (Ok (), s') →
  b_clock s' = S (b_clock s) ∧ b_sent s' = b_sent s ++ [(bytes, control_of fds)] ∧ b_next s' = b_next s.
Proof.
  unfold send_with_fds. destruct (sendmsg_at _ _ _) as [n|]; [|done].
  destruct (negb _); intros; by simplify_eq/=.
Qed.

Lemma connect_ok path s s' :
  connect path s = (Ok (), s') → b_sent s' = b_sent s ∧ b_next s' = b_next s.
Proof.
  unfold connect. intros (u & s1 & Hsock & Hrun)%bind_Ok. unfold call in Hsock. simplify_eq/=.
  case_match; [done|]. unfold call in Hrun. by simplify_eq/=.
Qed.

Lemma receive_message_next n s message s' :
  receive_message n s = (Ok message, s') → b_next s' = b_next s.
Proof.
  unfold receive_message. intros (rx & s1 & Hrx & Hrun)%bind_Ok. unfold call in Hrx. simplify_eq/=.
  repeat case_match; try done. by apply ret_Ok in Hrun as [_ ->].
Qed.

(** The daemon takes only the grant it asked for.  Mounts are returned only
    for the identity's leased IDs under a request number of their own: the one
    request sent is exactly the layout of that number, the daemon's own
    credentials and the leased IDs, with the three descriptors in their order, and
    the answer is exactly a success for that number with two descriptors, which
    become the workspace and the runtime mount in this order. *)
Theorem client_takes_its_own_grant path identity userns workspace runtime s mounts s' :
  (∀ t n rx, recvmsg_at t n = Ok rx → all_bytes (rx_bytes rx)) →
  create_idmapped_mounts path identity userns workspace runtime s = (Ok mounts, s') →
  let id := b_next s in
  b_next s' = wrap_u64 (id + 1) ∧
  b_sent s' = b_sent s ++
    [(request_bytes (MkBrokerRequest id client_euid client_egid (Manager.host_uid identity)
                       (Manager.host_gid identity) 2),
      control_of [userns; workspace; runtime])] ∧
  ∃ t rx code,
    recvmsg_at t (cmsg_space 8) = Ok rx ∧ rx_bytes rx = response_bytes STATUS_OK id 2 code ∧
    collect_control_fds (rx_base rx) (rx_control rx)
      = Some (Ok [mount_workspace mounts; mount_runtime mounts]).
Proof.
  intros Hbytes. unfold create_idmapped_mounts.
  intros ([] & s1 & [Hs1 Hn1]%mapE_Ok%connect_ok & Hrun)%bind_Ok.
  apply bind_Ok in Hrun as (id & s2 & Hid & Hrun). unfold fetch_request_id in Hid. simplify_eq/=.
  apply bind_Ok in Hrun as ([] & s3 & (_ & Hs3 & Hn3)%mapE_Ok%send_with_fds_ok & Hrun).
  apply bind_Ok in Hrun as (message & s4 & Hrx%mapE_Ok & Hrun).
  assert (b_next s4 = b_next s3) as Hn4 by (by apply receive_message_next in Hrx).
  pose proof (silent_run _ _ _ _ (silent_receive _) Hrx) as [Hs4 _].
  apply receive_message_ok in Hrx as (_ & rx & Hrx & Hb & _ & Hfds).
  apply bind_Ok in Hrun as ([[[status rid] count] code] & s5 & [Hdec ->]%liftR_Ok & Hrun).
  do 3 (case_match; [done|]). bool_to_prop. subst.
  destruct (message.2) as [|w [|r []]]; try done. apply ret_Ok in Hrun as [-> ->].
  simpl in *. rewrite Hs4, Hs3, Hn4, Hn3, Hn1, Hs1. split_and!; [done| |].
  - by rewrite encode_request_layout.
  - exists (b_clock s3), rx, code. split_and!; [done| |done].
    rewrite Hn1 in Hdec. apply decode_response_exact; [by eapply Hbytes|]. by rewrite Hb.
Qed.

End broker.

(** ** Samples

    A daemon (user 1000) with the namespace descriptor 10, the workspace 11 and
    the runtime directory 12; [message] is what the next [recvmsg] delivers. *)

Module Sample.

Definition directory (uid gid ino : Z) : fd_stat := MkFdStat (S_IFDIR + 448) uid gid 1 ino.

Definition stat_of_fd (fd : Z) : result io_error fd_stat :=
  if fd =? 10 then Ok (MkFdStat 0 0 0 9 42)
  else if (fd =? 11) || (fd =? 31) then Ok (directory 1000 1000 11)
  else if (fd =? 12) || (fd =? 32) then Ok (directory 1000 1000 12)
  else if (fd =? 51) || (fd =? 52) then Ok (directory 165536 165537 11)
  else Err (Errno 9).

Definition kernel (message : list Z) (fds : list Z) : BrokerKernel := {|
  setsockopt_at _ := Ok ();
  peercred_at _ := Ok (1000, 1000);
  recvmsg_at _ _ := Ok (MkReceived message 4096 (control_of fds) false);
  sendmsg_at _ bytes control :=
    if (CMSGHDR_SIZE <=? Z.of_nat (length control)) && (from_le (take 8 control) <? CMSGHDR_SIZE)
    then Err (Errno EINVAL) else Ok (Z.of_nat (length bytes));
  fstat_at _ := stat_of_fd;
  fd_link_at _ fd := if fd =? 10 then Ok "user:[42]" else if fd =? 11 then Ok "/data/ws" else Ok "/run/rt";
  own_userns_at _ := Ok (MkFdStat 0 0 0 9 1);
  openat2_at _ root _ := if root =? 20 then Ok 31 else Ok 32;
  open_tree_at _ source := Ok (source + 30);
  mount_setattr_at _ _ _ := Ok ();
  open_dot_at _ mount := Ok (mount + 10);
  socket_at _ := Ok ();
  connect_at _ _ := Ok ();
  canonicalize_at _ path := Ok path;
  open_root_at _ _ := Ok 20;
  client_euid := 1000;
  client_egid := 1000;
  has_syscall _ := true |}.

Definition roots : BrokerRoots := MkRoots (MkRoot 20 "/data") (MkRoot 21 "/run").
Definition start : broker_state := MkBroker 0 [] 42.

Lemma broker_grants_are_vetted_witness :
  ∃ s', @handle_client (kernel (request_bytes sample_request) [10; 11; 12]) roots start = (Ok (), s') ∧
    ∃ request mw mr, answers start s' STATUS_OK (request_id request) 2 0 [mw; mr].
Proof.
  destruct (@handle_client (kernel (request_bytes sample_request) [10; 11; 12]) roots start)
    as [r s'] eqn:Hrun.
  destruct (@broker_grants_are_vetted _ _ _ _ _ Hrun) as [[_ Hr]|[Href|(request & mw & mr & Hans & _)]].
  - exfalso. vm_compute in Hrun. injection Hrun as <- _. discriminate Hr.
  - exfalso. destruct Href as (st & id & code & _ & Hans). unfold answers in Hans.
    apply (f_equal (fun l => length ∘ snd <$> l)) in Hans.
    vm_compute in Hrun. injection Hrun as _ <-. vm_compute in Hans. discriminate Hans.
  - exists s'. split; [|by exists request, mw, mr].
    vm_compute in Hrun. injection Hrun as <- _. reflexivity.
Defined.

(** The same daemon claiming to be another user. *)
Definition impostor : BrokerRequest := MkBrokerRequest 42 1001 1000 165536 165537 2.

Lemma refusals_never_arrive_witness :
  ∃ s', @handle_client (kernel (request_bytes impostor) [10; 11; 12]) roots start
          = (Err (Errno EINVAL), s') ∧ ¬ refused start s'.
Proof.
  destruct (@handle_client (kernel (request_bytes impostor) [10; 11; 12]) roots start)
    as [r s'] eqn:Hrun.
  exists s'. split; [vm_compute in Hrun; injection Hrun as <- _; reflexivity|].
  apply (@refusals_never_arrive _ _ _ _ _) in Hrun; [exact Hrun|].
  intros t bytes control H1 H2. simpl.
  rewrite (proj2 (Z.leb_le _ _) H1), (proj2 (Z.ltb_lt _ _) H2). reflexivity.
Defined.

Definition identity : Manager.IsolatedIdentity := Manager.MkIdentity 1000 1000 165536 165537.
Definition grant : list Z := response_bytes STATUS_OK 42 2 0.

Lemma client_takes_its_own_grant_witness :
  ∃ s', @create_idmapped_mounts (kernel grant [7; 8]) "/run/shbox-idmap-broker.sock" identity 10 11 12 start
          = (Ok (MkMounts 7 8), s') ∧ b_next s' = 43.
Proof.
  destruct (@create_idmapped_mounts (kernel grant [7; 8]) "/run/shbox-idmap-broker.sock" identity 10 11 12 start)
    as [r s'] eqn:Hrun.
  assert (r = Ok (MkMounts 7 8)) as -> by (vm_compute in Hrun; injection Hrun as <- _; reflexivity).
  exists s'. split; [reflexivity|].
  apply client_takes_its_own_grant in Hrun as (Hnext & _); [rewrite Hnext; reflexivity|].
  intros t n rx [= <-]. simpl. unfold grant, response_bytes, all_bytes.
  repeat (apply Forall_app; split); try apply le_bytes_all.
  repeat constructor; unfold is_byte; lia.
Defined.

End Sample.
End Broker.
