(* ===== verification/ManagerProtocol.v ===== *)
(** * The manager's operations follow the ledger protocol

    Every operation of [Manager], whether it succeeds or fails and at whichever
    call, is a sequence of the critical sections of [RuntimeSafety], in the phases of
    a thread that holds the lifecycle lock of its sandbox; the phases are the proof's,
    the manager's operations do not carry the lock.  So the invariants of the protocol
    hold of the manager between operations that run one after the other, and a
    completed operation leaves no reservation behind. *)

From stdpp Require Import relations.
From S2P Require Import Prelude BTree Text Toml Idents Metadata Delegation FileSystem Storage LeaseRecord LedgerSpec LeaseStore Allocator RuntimeLedger RuntimeSafety Manager StorageScan.

Module ManagerProtocol.
Import RuntimeLedger RuntimeSafety Manager.

Section protocol.
Context `{TomlCrate} `{UnicodeTables} `{Host}.
Context {St : Type} `{!LeaseLedger St}.
Context {Pty P L : Type} `{!ProcessLauncher Pty P L}.
Context (root_path : string) (caps : Caps).

Abbreviation manager := (@SandboxManager St P L).
Abbreviation Mg := (M manager Error).
Implicit Types s : manager.
Implicit Types ph : gmap string phase.

(** The shared state of [RuntimeSafety] in a manager. *)
Definition shared_of s ph : shared := MkShared (ledger s) ph (launch_admission_frozen s).

(** ** Computations that do not touch the ledger *)

Definition quiet {E A} (m : M manager E A) : Prop := ∀ s,
  ledger (m s).2 = ledger s ∧ launch_admission_frozen (m s).2 = launch_admission_frozen s.

Lemma quiet_ret {E A} (a : A) : quiet (mret a : M manager E A).
Proof. done. Qed.

Lemma quiet_fail {E A} (e : E) : quiet (fail e : M manager E A).
Proof. done. Qed.

Lemma quiet_liftR {E A} (r : result E A) : quiet (liftR r).
Proof. done. Qed.

Lemma quiet_getS {E} : quiet (getS : M manager E _).
Proof. done. Qed.

Lemma quiet_bind {E A B} (m : M manager E A) (f : A → M manager E B) :
  quiet m → (∀ a, quiet (f a)) → quiet (m ≫= f).
Proof.
  intros Hm Hf s. unfold mbind, M_bind. specialize (Hm s). destruct (m s) as [[a|e] s1]; [|done].
  destruct (Hf a s1) as [-> ->]. done.
Qed.

Lemma quiet_tryM {E E' A} (m : M manager E A) : quiet m → quiet (tryM m : M manager E' _).
Proof. intros Hm s. unfold tryM. specialize (Hm s). by destruct (m s). Qed.

Lemma quiet_disk {A} (m : M world Storage.Error A) : quiet (on_disk m : Mg A).
Proof. intros s. unfold on_disk. by destruct (m (disk s)). Qed.

Lemma quiet_allocator {A} (m : M (Allocator.SubidAllocator St) Allocator.Error A) :
  quiet (on_allocator m : Mg A).
Proof. intros s. unfold on_allocator. destruct (subids s) as [a|]; [|done]. by destruct (m a). Qed.

Lemma quiet_platform {A} (m : M L LaunchError A) : quiet (on_platform m : Mg A).
Proof. intros s. unfold on_platform. by destruct (m (platform s)). Qed.

Lemma quiet_query : quiet (query_delegation : Mg _).
Proof. intros s. unfold query_delegation. by destruct (Delegation.query _ _). Qed.

Create HintDb quiet.
#[local] Hint Resolve quiet_ret quiet_fail quiet_liftR quiet_getS quiet_bind quiet_tryM quiet_disk
  quiet_allocator quiet_platform quiet_query : quiet.

(** Case analysis inside a computation. *)
Ltac quiet_tac :=
  repeat first
    [ progress intros
    | apply quiet_bind
    | apply quiet_tryM
    | solve [auto with quiet]
    | case_match ].

Lemma quiet_ensure_ready : quiet (ensure_ready : Mg unit).
Proof. unfold ensure_ready. quiet_tac. Qed.

Lemma quiet_reserve_identity token id own : quiet (reserve_identity token id own : Mg _).
Proof. unfold reserve_identity. quiet_tac. Qed.

Lemma quiet_identity_for m : quiet (identity_for m : Mg _).
Proof. unfold identity_for. quiet_tac. Qed.

Lemma quiet_release_identity r : quiet (release_reserved_identity r : Mg _).
Proof. unfold release_reserved_identity. quiet_tac. Qed.

Lemma quiet_activate_identity r : quiet (activate_identity r : Mg _).
Proof. unfold activate_identity. quiet_tac. Qed.

Lemma quiet_resume_release id : quiet (resume_release id : Mg _).
Proof. unfold resume_release. quiet_tac. Qed.

Lemma quiet_reconcile_leases envs b : quiet (reconcile_subid_leases root_path envs b : Mg _).
Proof. unfold reconcile_subid_leases. quiet_tac. Qed.

#[local] Hint Resolve quiet_ensure_ready quiet_reserve_identity quiet_identity_for
  quiet_release_identity quiet_activate_identity quiet_resume_release quiet_reconcile_leases : quiet.

(** Computations that never fail. *)
Definition total {E A} (m : M manager E A) : Prop := ∀ s, ∃ a, (m s).1 = Ok a.

Lemma total_ret {E A} (a : A) : total (mret a : M manager E A).
Proof. intros s. by exists a. Qed.

Lemma total_getS {E} : total (getS : M manager E _).
Proof. intros s. by exists s. Qed.

Lemma total_tryM {E E' A} (m : M manager E A) : total (tryM m : M manager E' _).
Proof. intros s. unfold tryM. destruct (m s). by eexists. Qed.

Lemma total_bind {E A B} (m : M manager E A) (f : A → M manager E B) :
  total m → (∀ a, total (f a)) → total (m ≫= f).
Proof.
  intros Hm Hf s. unfold mbind, M_bind. destruct (Hm s) as [a Ha].
  destruct (m s) as [r s1]. simpl in Ha. subst r. apply Hf.
Qed.

Lemma total_release_identity r : total (release_reserved_identity r : Mg _).
Proof.
  unfold release_reserved_identity. apply total_bind; [apply total_getS|]. intros s.
  destruct (subids s); [|apply total_ret]. apply total_bind; [apply total_tryM|].
  intros [[]|]; [apply total_ret|]. apply total_bind; [apply total_tryM|]. intros. apply total_ret.
Qed.

(** ** Computations under a lifecycle lock

    [locked id ph p m Q]: run by a thread that holds the lock of [id] in phase
    [p], beside threads in phases [ph], [m] goes through steps of the protocol
    and ends in a phase that satisfies [Q] with its result. *)

Section locked.
Context (id : string) (ph : gmap string phase).
Hypothesis unheld : ph !! id = None.

Definition at_phase s (p : phase) : shared := shared_of s (<[id := p]> ph).

Definition locked {E A} (p : phase) (m : M manager E A) (Q : result E A → phase → Prop) : Prop :=
  ∀ s, ∃ p', steps caps (at_phase s p) (at_phase (m s).2 p') ∧ Q (m s).1 p'.

Lemma locked_conseq {E A} p (m : M manager E A) (Q R : result E A → phase → Prop) :
  locked p m Q → (∀ r p', Q r p' → R r p') → locked p m R.
Proof. intros Hm Hq s. destruct (Hm s) as (p' & Hs & HQ). eauto. Qed.

Lemma locked_bind {E A B} p (m : M manager E A) (f : A → M manager E B) Q R :
  locked p m Q → (∀ a p', Q (Ok a) p' → locked p' (f a) R) →
  (∀ e p', Q (Err e) p' → R (Err e) p') → locked p (m ≫= f) R.
Proof.
  intros Hm Hf He s. destruct (Hm s) as (p1 & Hs1 & HQ1). unfold mbind, M_bind.
  destruct (m s) as [[a|e] s1]; simpl in *; [|eauto].
  destruct (Hf a p1 HQ1 s1) as (p2 & Hs2 & HR). exists p2. split; [by etrans|done].
Qed.

Lemma locked_quiet {E A} p (m : M manager E A) : quiet m → locked p m (fun _ p' => p' = p).
Proof.
  intros Hm s. exists p. split; [|done]. unfold at_phase, shared_of.
  destruct (Hm s) as [-> ->]. apply rtc_refl.
Qed.

(** The common case: the rest of the computation after a quiet part. *)
Lemma locked_quiet_bind {E A B} p (m : M manager E A) (f : A → M manager E B) R :
  quiet m → (∀ a, locked p (f a) R) → (∀ e, R (Err e) p) → locked p (m ≫= f) R.
Proof.
  intros Hm Hf He. eapply locked_bind; [by apply locked_quiet|..]; simpl; by intros ? ? ->.
Qed.

Lemma locked_total_bind {E A B} p (m : M manager E A) (f : A → M manager E B) R :
  quiet m → total m → (∀ a, locked p (f a) R) → locked p (m ≫= f) R.
Proof.
  intros Hq Ht Hf s. destruct (Ht s) as [a Ha]. destruct (Hq s) as [Hl Hz].
  unfold mbind, M_bind. destruct (m s) as [r s1]. simpl in *. subst r.
  destruct (Hf a s1) as (p' & Hs & HR). exists p'. split; [|done].
  unfold at_phase, shared_of in *. by rewrite <-Hl, <-Hz.
Qed.

Lemma locked_ret {E A} p (a : A) (Q : result E A → phase → Prop) : Q (Ok a) p → locked p (mret a) Q.
Proof. intros HQ s. exists p. split; [apply rtc_refl|done]. Qed.

Lemma locked_fail {E A} p (e : E) (Q : result E A → phase → Prop) : Q (Err e) p → locked p (fail e) Q.
Proof. intros HQ s. exists p. split; [apply rtc_refl|done]. Qed.

Lemma locked_tryM {E E' A} p (m : M manager E A) (Q : result E' (result E A) → phase → Prop) :
  locked p m (fun r p' => Q (Ok r) p') → locked p (tryM m) Q.
Proof.
  intros Hm s. destruct (Hm s) as (p' & Hs & HQ). exists p'. unfold tryM. by destruct (m s).
Qed.

(** A step of the protocol. *)
Lemma at_phase_step s s' p p' who (x : shared) :
  step caps who (at_phase s p) x → x = at_phase s' p' → steps caps (at_phase s p) (at_phase s' p').
Proof. intros Hst ->. apply rtc_once. by exists who. Qed.

Lemma held s p : phases (at_phase s p) !! id = Some p.
Proof. apply lookup_insert_eq. Qed.

Lemma locked_note m :
  Metadata.id m = id →
  locked Holding (on_ledger_terminating (note_valid_record id m) : Mg bool)
    (fun r p => ∃ b, r = Ok b ∧ p = if b then Known m else Holding).
Proof.
  intros Hid s. unfold on_ledger_terminating.
  destruct (note_valid_record id m (ledger s)) as [b [l ps]] eqn:Hn.
  exists (if b then Known m else Holding). split; [|by exists b].
  eapply at_phase_step; [by apply (step_note _ (at_phase s Holding) id m b l ps); [apply held|..]|].
  unfold at_phase, shared_of. destruct b; simpl; [by rewrite insert_insert_eq|done].
Qed.

Lemma locked_corrupt :
  locked Holding (on_ledger_terminating (fun l => (tt, note_corrupt id l)) : Mg unit)
    (fun _ p => p = Holding).
Proof.
  intros s. unfold on_ledger_terminating. destruct (note_corrupt id (ledger s)) as [l ps] eqn:Hn.
  exists Holding. split; [|done].
  eapply at_phase_step; [by apply (step_corrupt _ (at_phase s Holding) id l ps); [apply held|]|done].
Qed.

Lemma locked_remove p :
  ¬ reserving p → locked p (remove_record id : Mg unit) (fun _ p' => p' = Holding).
Proof.
  intros Hp s. unfold remove_record, on_ledger_terminating.
  destruct (remove_record_from_ledger id (ledger s)) as [l ps] eqn:Hr.
  exists Holding. split; [|done].
  eapply at_phase_step; [by eapply (step_remove _ (at_phase s p) id p l ps); [apply held|..]|].
  unfold at_phase, with_phase, with_led, shared_of. simpl. by rewrite insert_insert_eq.
Qed.

Lemma locked_release own :
  locked (InFlight own) (on_ledger (fun l => (tt, release_sandbox own l)) : Mg unit)
    (fun _ p => p = Holding).
Proof.
  intros s. exists Holding. split; [|done].
  eapply at_phase_step; [by apply (step_unreserve _ (at_phase s (InFlight own)) id own), held|].
  unfold at_phase, with_phase, with_led, shared_of. simpl. by rewrite insert_insert_eq.
Qed.

Lemma locked_publish m :
  Metadata.id m = id →
  locked (InFlight (Metadata.owner m)) (on_ledger (fun l => (tt, insert_reserved m l)) : Mg unit)
    (fun _ p => p = Known m).
Proof.
  intros Hid s. exists (Known m). split; [|done].
  eapply at_phase_step; [apply (step_publish _ (at_phase s (InFlight (Metadata.owner m))) m)|].
  - rewrite Hid. apply held.
  - unfold at_phase, with_phase, with_led, shared_of. simpl. by rewrite Hid, insert_insert_eq.
Qed.

Lemma locked_replace m st :
  Metadata.id m = id →
  locked (Known m) (on_ledger (fun l => (tt, replace_record (Metadata.with_state m st) l)) : Mg unit)
    (fun _ p => p = Known (Metadata.with_state m st)).
Proof.
  intros Hid s. exists (Known (Metadata.with_state m st)). split; [|done].
  eapply at_phase_step; [apply (step_replace _ (at_phase s (Known m)) m st)|].
  - rewrite Hid. apply held.
  - unfold at_phase, with_phase, with_led, shared_of. simpl. by rewrite Hid, insert_insert_eq.
Qed.

(** A place is reserved only under a fresh look at the ledger. *)
Lemma locked_reserve s own l :
  is_blocked id (ledger s) = false → has_record id (ledger s) = false →
  reserve_sandbox caps own (ledger s) = (Ok tt, l) →
  steps caps (at_phase s Holding) (at_phase (set_ledger l s) (InFlight own)).
Proof.
  intros Hb Hh Hr. eapply rtc_l.
  - exists (Some id). apply (step_vacant _ (at_phase s Holding) id); [apply held|done..].
  - apply rtc_once. exists (Some id). unfold at_phase, shared_of, with_phase. simpl.
    rewrite insert_insert_eq.
    assert (Hp : <[id := Vacant]> ph !! id = Some Vacant) by apply lookup_insert_eq.
    pose proof (step_reserve caps (MkShared (ledger s) (<[id := Vacant]> ph) (launch_admission_frozen s))
      id own l Hp Hr) as Hst.
    unfold with_phase, with_led in Hst. simpl in Hst. by rewrite insert_insert_eq in Hst.
Qed.

Abbreviation settled := (fun _ p => ¬ reserving p).

Lemma locked_inspect p :
  locked p (on_disk (Storage.inspect root_path id) : Mg Storage.Entry)
    (fun r p' => p' = p ∧ ∀ e m, r = Ok e → Storage.reported e = Some m → Metadata.id m = id).
Proof.
  intros s. destruct (locked_quiet p _ (quiet_disk (Storage.inspect root_path id)) s) as (p' & Hs & ->).
  exists p. split; [exact Hs|]. split; [done|]. intros e m. unfold on_disk.
  destruct (Storage.inspect root_path id (disk s)) as [[e'|] w'] eqn:Hi; simpl; [|done].
  intros [= <-] Hr. by apply (Storage.inspect_Ok root_path id (disk s) e' w') in Hr as (_ & _ & ? & _).
Qed.

Lemma create_active_value own w m w' :
  Storage.create_active root_path id own w = (Ok m, w') → m = Metadata.active id own.
Proof.
  unfold Storage.create_active. intros Hc. inv_run. split_run; [|by case_match]. inv_run.
  case_match. inv_run. done.
Qed.

(** *** Claim *)

Lemma locked_create own ri :
  locked (InFlight own) (create_claimed root_path id own ri : Mg SandboxHandle) settled.
Proof.
  intros s. unfold create_claimed.
  destruct (Storage.create_active root_path id own (disk s)) as [r w] eqn:Hc.
  rewrite (bind_run _ _ s r (set_disk w s)) by by rewrite Hc.
  change (at_phase s (InFlight own)) with (at_phase (set_disk w s) (InFlight own)).
  match goal with |- ∃ p', steps _ _ (at_phase (snd (?m ?s)) p') ∧ _ =>
    refine ((_ : locked (InFlight own) m settled) s) end.
  destruct r as [m|error].
  - apply create_active_value in Hc as ->. eapply locked_bind;
      [by apply (locked_publish (Metadata.active id own))|..]; simpl; [|by intros ? ? -> []].
    intros _ p ->. apply locked_quiet_bind; [destruct ri; auto with quiet| |by intros ? []].
    intros _. apply locked_quiet_bind; [auto with quiet| |by intros ? []].
    intros identity. apply locked_ret. by intros [].
  - apply locked_total_bind; [destruct ri; auto with quiet| |].
    { destruct ri; [apply total_release_identity|apply total_ret]. }
    intros _. eapply locked_bind; [apply locked_release|..]; simpl; [|by intros ? ? -> []].
    intros _ p ->. destruct error; apply locked_fail; by intros [].
Qed.

Lemma locked_claim_absent token principal :
  locked Holding (claim_absent root_path caps token principal id : Mg _) settled.
Proof.
  intros s. unfold claim_absent. rewrite (bind_run _ _ s s s) by done.
  destruct (is_blocked id (ledger s) || has_record id (ledger s)) eqn:Hb.
  { exists Holding. split; [apply rtc_refl|by intros []]. }
  apply orb_false_iff in Hb as [Hb Hh].
  destruct (reserve_sandbox caps (fingerprint principal) (ledger s)) as [r l] eqn:Hr.
  rewrite (bind_run _ _ s r (set_ledger l s)) by (unfold on_ledger; by rewrite Hr).
  destruct r as [[]|limit]; simpl.
  - pose proof (locked_reserve s _ l Hb Hh Hr) as Hs.
    rewrite (bind_run _ _ _ tt (set_ledger l s)) by done.
    assert (Hk : locked (InFlight (fingerprint principal))
      (identity ← tryM (reserve_identity token id (fingerprint principal));
       match identity with
       | Err error =>
           _ ← on_ledger (fun l => (tt, release_sandbox (fingerprint principal) l));
           fail error
       | Ok reserved_identity => create_claimed root_path id (fingerprint principal) reserved_identity
       end : Mg SandboxHandle) settled).
    { apply locked_total_bind; [auto with quiet|apply total_tryM|]. intros [ri|error].
      - apply locked_create.
      - eapply locked_bind; [apply locked_release|..]; simpl; [|by intros ? ? -> []].
        intros _ p ->. apply locked_fail. by intros []. }
    destruct (Hk (set_ledger l s)) as (p & Hs' & Hp). exists p. split; [by etrans|done].
  - exists Holding. unfold reserve_sandbox in Hr. split; [|by intros []].
    repeat case_match; simplify_eq; apply rtc_refl.
Qed.

Lemma locked_claim token principal :
  locked Holding (claim root_path caps token principal id : Mg _) settled.
Proof.
  unfold claim. apply locked_quiet_bind; [auto with quiet| |by intros ? []]. intros _.
  eapply locked_bind; [apply locked_inspect|..]; simpl; [|by intros ? ? [-> _] []].
  intros e p [-> Hid]. destruct e as [|m|m|reason].
  - apply locked_claim_absent.
  - eapply locked_bind; [apply locked_note; by apply (Hid (Storage.Active m))|..]; simpl;
      [|by intros ? ? (? & ? & _)].
    intros b p (b' & [= <-] & ->). destruct b; simpl; [|apply locked_fail; by intros []].
    destruct (authorized _ _); simpl; [|apply locked_fail; by intros []].
    apply locked_quiet_bind; [auto with quiet| |by intros ? []]. intros. apply locked_ret. by intros [].
  - eapply locked_bind; [apply locked_note; by apply (Hid (Storage.Deleting m))|..]; simpl;
      [|by intros ? ? (? & ? & _)].
    intros b p (b' & [= <-] & ->). apply locked_fail. destruct b; by intros [].
  - eapply locked_bind; [apply locked_corrupt|..]; simpl; [|by intros ? ? -> []].
    intros _ p ->. apply locked_fail. by intros [].
Qed.
(** *** Waiting and deletion *)

Lemma free_step s s' p (x : shared) :
  step caps None (at_phase s p) x → x = at_phase s' p → steps caps (at_phase s p) (at_phase s' p).
Proof. apply at_phase_step. Qed.

Lemma rivals_steps s rs p :
  steps caps (at_phase s p)
    (at_phase (set_ledger (foldl (rival_step caps (launch_admission_frozen s)) (ledger s) rs) s) p).
Proof.
  revert s. induction rs as [|r rs IH]; intros s; [apply rtc_refl|]. simpl.
  set (l1 := rival_step _ _ _ _). etrans; [|apply (IH (set_ledger l1 s))].
  subst l1. destruct r as [h|durable lease control|clean lease]; simpl.
  - case_bool_decide as Hsz; [|apply rtc_refl].
    destruct (begin_launch caps (launch_admission_frozen s) h (ledger s)) as [r l] eqn:Hb.
    by eapply free_step; [eapply (step_begin _ (at_phase s p)); [exact Hsz|exact Hb]|].
  - destruct (finish_launch durable lease control (ledger s)) as [b l] eqn:Hf.
    by eapply free_step; [eapply (step_finish _ (at_phase s p)); exact Hf|].
  - by eapply free_step; [apply (step_clear _ (at_phase s p) clean lease)|].
Qed.

Lemma tick_steps t s p : steps caps (at_phase s p) (at_phase (run_tick caps t s) p).
Proof. apply (rivals_steps s (rivals t) p). Qed.

Lemma reap_steps token s p :
  steps caps (at_phase s p) (at_phase (set_ledger (reap id token (ledger s)) s) p).
Proof.
  unfold reap. destruct (runtime (ledger s) !! token) as [e|]; [|apply rtc_refl].
  case_bool_decide; [|apply rtc_refl]. by eapply free_step; [apply (step_reap _ (at_phase s p) token)|].
Qed.

Lemma wait_steps ticks : ∀ s p,
  steps caps (at_phase s p) (at_phase (wait_for_runtime_cleanup caps id ticks s).2 p).
Proof.
  induction ticks as [|t ticks IH]; intros s p; simpl;
    (case_bool_decide; [apply rtc_refl|]); [apply rtc_refl|].
  destruct (first_process _ _) as [[token control]|].
  - destruct (wait_for_cleanup control (left t) (platform s)) as [reaped q].
    set (s1 := run_tick caps t (set_platform q s)).
    assert (Hs1 : steps caps (at_phase s p) (at_phase s1 p)) by apply (tick_steps t (set_platform q s) p).
    destruct reaped; simpl; [|done]. etrans; [exact Hs1|]. etrans; [apply (reap_steps token)|apply IH].
  - destruct (timed_out t); simpl; [apply tick_steps|]. etrans; [apply tick_steps|apply IH].
Qed.

Lemma cancel_steps graceful forced s p :
  steps caps (at_phase s p) (at_phase (cancel_runtime caps id graceful forced s).2 p).
Proof.
  unfold cancel_runtime. destruct (cancel_marks id (ledger s)) as [ps l] eqn:Hc.
  set (s1 := terminate_all ps (set_ledger l s)).
  assert (Hs1 : steps caps (at_phase s p) (at_phase s1 p)).
  { eapply at_phase_step; [apply (step_cancel _ (at_phase s p) id)|].
    simpl. unfold with_led. simpl. by rewrite Hc. }
  pose proof (wait_steps graceful s1 p) as Hw.
  destruct (wait_for_runtime_cleanup caps id graceful s1) as [[] s2]; simpl in *; [by etrans|].
  etrans; [exact Hs1|]. etrans; [exact Hw|]. apply (wait_steps forced (force_terminate_all _ s2) p).
Qed.

Lemma locked_delete_absent principal :
  locked Holding (delete_absent principal id : Mg _) settled.
Proof.
  unfold delete_absent. apply locked_quiet_bind; [auto with quiet| |by intros ? []]. intros s.
  apply locked_quiet_bind; [quiet_tac| |by intros ? []]. intros [].
  - apply locked_ret. by intros [].
  - eapply locked_bind; [apply locked_remove; by intros []|..]; simpl; [|by intros ? ? -> []].
    intros _ p ->. apply locked_ret. by intros [].
Qed.

Lemma locked_delete_valid m graceful forced :
  Metadata.id m = id →
  locked (Known m) (delete_valid root_path caps id m graceful forced : Mg _) settled.
Proof.
  intros Hid. unfold delete_valid.
  apply locked_quiet_bind; [auto with quiet| |by intros ? []]. intros s.
  apply locked_quiet_bind; [quiet_tac| |by intros ? []]. intros lease.
  eapply (locked_bind _ _ _ (fun _ p => ∃ m', p = Known m')).
  { case_bool_decide; [|apply locked_ret; by eexists].
    apply locked_quiet_bind; [auto with quiet| |by eexists]. intros _.
    eapply locked_conseq; [by apply locked_replace|]. simpl. by eexists. }
  2:{ by intros ? ? [? ->] []. }
  intros _ p [m' ->]. clear Hid m. rename m' into m.
  apply locked_quiet_bind; [destruct lease; [case_match|]; auto with quiet| |by intros ? []]. intros _.
  eapply (locked_bind _ _ _ (fun _ p => p = Known m)); [| |by intros ? ? -> []].
  { intros s'. exists (Known m). pose proof (cancel_steps graceful forced s' (Known m)).
    by destruct (cancel_runtime caps id graceful forced s'). }
  intros clean p ->. destruct clean; simpl; [|apply locked_fail; by intros []].
  apply locked_quiet_bind; [auto with quiet| |by intros ? []]. intros _.
  apply locked_quiet_bind; [|intros _|by intros ? []].
  { intros s'. by destruct (Storage.remove_tree root_path id (disk s')). }
  apply locked_quiet_bind; [destruct lease; [case_match|]; auto with quiet| |by intros ? []]. intros _.
  eapply locked_bind; [apply locked_remove; by intros []|..]; simpl; [|by intros ? ? -> []].
  intros _ p ->. apply locked_ret. by intros [].
Qed.

Lemma locked_delete principal graceful forced :
  locked Holding (delete root_path caps principal id graceful forced : Mg _) settled.
Proof.
  unfold delete. apply locked_quiet_bind; [auto with quiet| |by intros ? []]. intros _.
  eapply locked_bind; [apply locked_inspect|..]; simpl; [|by intros ? ? [-> _] []].
  assert (Hvalid : ∀ m, Metadata.id m = id → locked Holding
    (valid ← on_ledger_terminating (note_valid_record id m);
     if negb valid then fail Unavailable
     else if negb (authorized principal (Metadata.owner m)) then mret Noop
     else delete_valid root_path caps id m graceful forced : Mg DeleteResult) settled).
  { intros m Hm. eapply locked_bind; [by apply locked_note|..]; simpl; [|by intros ? ? (? & ? & _)].
    intros b p (b' & [= <-] & ->). destruct b; simpl; [|apply locked_fail; by intros []].
    destruct (authorized _ _); simpl; [|apply locked_ret; by intros []].
    by apply locked_delete_valid. }
  intros e p [-> Hid]. destruct e as [|m|m|reason].
  - apply locked_delete_absent.
  - apply Hvalid. by apply (Hid (Storage.Active m)).
  - apply Hvalid. by apply (Hid (Storage.Deleting m)).
  - eapply locked_bind; [apply locked_corrupt|..]; simpl; [|by intros ? ? -> []].
    intros _ p ->. apply locked_fail. by intros [].
Qed.

Lemma locked_reconcile_one :
  locked Holding (reconcile_deleting_one root_path id : Mg _) settled.
Proof.
  unfold reconcile_deleting_one. apply locked_quiet_bind; [auto with quiet| |by intros ? []].
  intros [lease|]; [|apply locked_ret; by intros []].
  apply locked_quiet_bind; [auto with quiet| |by intros ? []]. intros r.
  destruct (is_ok r); simpl; [|apply locked_ret; by intros []].
  apply locked_quiet_bind; [auto with quiet| |by intros ? []]. intros r'.
  destruct (is_ok r'); simpl; [|apply locked_ret; by intros []].
  apply locked_quiet_bind; [destruct lease; [case_match|]; quiet_tac| |by intros ? []].
  intros []; [|apply locked_ret; by intros []].
  eapply locked_conseq; [apply locked_remove; by intros []|]. by intros ? ? -> [].
Qed.

(** Releasing the lock when the operation returns. *)
Lemma unlocked {E A} (m : M manager E A) Q s :
  locked Holding m Q → (∀ r p, Q r p → ¬ reserving p) →
  steps caps (shared_of s ph) (shared_of (m s).2 ph).
Proof.
  intros Hm HQ. destruct (Hm s) as (p & Hs & Hp).
  eapply rtc_l; [exists (Some id); by apply (step_acquire _ (shared_of s ph) id)|].
  etrans; [exact Hs|]. apply rtc_once. exists (Some id).
  pose proof (step_unlock caps (at_phase (m s).2 p) id p ltac:(apply held) (HQ _ _ Hp)) as Hst.
  simpl in Hst. rewrite delete_insert_id in Hst by done. exact Hst.
Qed.
End locked.

(** ** Computations without a lock *)

Section free.
Context (ph : gmap string phase).

Lemma loose_step s s' (x : shared) :
  step caps None (shared_of s ph) x → x = shared_of s' ph →
  steps caps (shared_of s ph) (shared_of s' ph).
Proof. intros Hst ->. apply rtc_once. by exists None. Qed.

Lemma quiet_steps {E A} (m : M manager E A) s :
  quiet m → steps caps (shared_of s ph) (shared_of (m s).2 ph).
Proof. intros Hm. unfold shared_of. destruct (Hm s) as [-> ->]. apply rtc_refl. Qed.

Lemma clear_steps lease s :
  steps caps (shared_of s ph) (shared_of (clear_runtime_of lease s) ph).
Proof.
  unfold clear_runtime_of. destruct (runtime (ledger s) !! lease_token lease ≫= process) as [c|].
  - destruct (wait_for_cleanup c 0 (platform s)) as [clean p].
    by eapply loose_step; [apply (step_clear _ (shared_of s ph) (fun _ => clean) lease)|].
  - by eapply loose_step; [apply (step_clear _ (shared_of s ph) (fun _ => true) lease)|].
Qed.

Lemma terminate_and_wait_same control s :
  shared_of (terminate_and_wait control s) ph = shared_of s ph.
Proof. unfold terminate_and_wait. destruct (wait_for_cleanup _ _ _) as [[] p]; done. Qed.

Lemma launch_steps h operation pty environment s :
  Z.of_nat (size (runtime (ledger s))) + 2 <= 2 ^ 64 →
  steps caps (shared_of s ph)
    (shared_of (launch_handle_with_environment root_path caps h operation pty environment s).2 ph).
Proof.
  intros Hsz. unfold launch_handle_with_environment. rewrite (bind_run _ _ s s s) by done.
  destruct (begin_launch caps (launch_admission_frozen s) (MkHandleKey (h_id h) (h_owner h)) (ledger s))
    as [r l] eqn:Hb.
  rewrite (bind_run _ _ s r (set_ledger l s)) by (unfold on_ledger; by rewrite Hb).
  assert (Hs1 : steps caps (shared_of s ph) (shared_of (set_ledger l s) ph))
    by (eapply loose_step; [eapply (step_begin _ (shared_of s ph)); [exact Hsz|exact Hb]|done]).
  destruct r as [lease|e]; [|exact Hs1]. etrans; [exact Hs1|]. clear Hs1 Hb Hsz.
  generalize (set_ledger l s). clear s l. intros s.
  rewrite (bind_run _ _ s lease s) by done.
  unfold on_platform at 1. unfold tryM. set (rq := MkRequest _ _ _ _ _ _).
  destruct (launch_process rq (platform s)) as [launched p] eqn:Hl.
  rewrite (bind_run _ _ s (map_err Launch launched) (set_platform p s)) by by rewrite Hl.
  change (shared_of s ph) with (shared_of (set_platform p s) ph).
  generalize (set_platform p s). clear s Hl p rq. intros s. destruct launched as [control|e]; simpl.
  - destruct (Storage.inspect root_path (lease_sandbox lease) (disk s)) as [durable w] eqn:Hi.
    destruct (finish_launch durable lease control (ledger s)) as [b l] eqn:Hf.
    rewrite (bind_run _ _ s b (set_ledger l (set_disk w s))) by by rewrite Hi, Hf.
    assert (Hs1 : steps caps (shared_of s ph) (shared_of (set_ledger l (set_disk w s)) ph))
      by (eapply loose_step; [eapply (step_finish _ (shared_of s ph)); exact Hf|done]).
    etrans; [exact Hs1|]. destruct b; simpl; [apply rtc_refl|].
    rewrite <-(terminate_and_wait_same control). apply clear_steps.
  - apply clear_steps.
Qed.

Lemma remove_steps token s :
  steps caps (shared_of s ph) (shared_of (set_ledger (remove_runtime token (ledger s)).2 s) ph).
Proof. by eapply loose_step; [apply (step_reap _ (shared_of s ph) token)|]. Qed.

Lemma completed_steps completed : ∀ s,
  steps caps (shared_of s ph) (shared_of (set_ledger (reap_completed completed (ledger s)) s) ph).
Proof.
  induction completed as [|b completed IH]; intros s; [apply rtc_refl|].
  change (reap_completed (b :: completed) (ledger s)) with (reap_completed completed
    (if b.2 && match runtime (ledger s) !! b.1 with
               | Some e => bool_decide (is_Some (process e)) | None => false end
     then (remove_runtime b.1 (ledger s)).2 else ledger s)).
  destruct (b.2 && _); [|apply IH].
  etrans; [apply (remove_steps b.1)|]. apply (IH (set_ledger (remove_runtime b.1 (ledger s)).2 s)).
Qed.
End free.

(** What other threads do during one turn of a wait needs no lock. *)
Lemma loose_tick_steps t s ph : steps caps (shared_of s ph) (shared_of (run_tick caps t s) ph).
Proof.
  unfold run_tick. change (shared_of (set_platform _ ?x) ph) with (shared_of x ph).
  generalize (rivals t). intros rs. revert s. induction rs as [|r rs IH]; intros s; [apply rtc_refl|].
  simpl. set (l1 := rival_step _ _ _ _). etrans; [|apply (IH (set_ledger l1 s))].
  subst l1. destruct r as [h|durable lease control|clean lease]; simpl.
  - case_bool_decide as Hsz; [|apply rtc_refl].
    destruct (begin_launch caps (launch_admission_frozen s) h (ledger s)) as [r l] eqn:Hb.
    by eapply loose_step; [eapply (step_begin _ (shared_of s ph)); [exact Hsz|exact Hb]|].
  - destruct (finish_launch durable lease control (ledger s)) as [b l] eqn:Hf.
    by eapply loose_step; [eapply (step_finish _ (shared_of s ph)); exact Hf|].
  - by eapply loose_step; [apply (step_clear _ (shared_of s ph) clean lease)|].
Qed.

Lemma wait_tokens_steps tokens ticks : ∀ s ph,
  steps caps (shared_of s ph) (shared_of (wait_for_runtime_tokens caps tokens ticks s).2 ph).
Proof.
  induction ticks as [|t ticks IH]; intros s ph; simpl;
    destruct (scan_tokens tokens (ledger s)) as [pending launching].
  { destruct pending, launching; apply rtc_refl. }
  destruct pending as [|b pending].
  - destruct launching; [|apply rtc_refl]. destruct (timed_out t && true); [apply loose_tick_steps|].
    etrans; [apply loose_tick_steps|apply IH].
  - destruct (wait_each t (b :: pending) (platform s)) as [completed p].
    set (s1 := run_tick caps t (set_platform p s)).
    assert (Hs1 : steps caps (shared_of s ph)
      (shared_of (set_ledger (reap_completed completed (ledger s1)) s1) ph)).
    { etrans; [|apply completed_steps]. apply (loose_tick_steps t (set_platform p s)). }
    destruct (existsb _ completed); [exact Hs1|]. etrans; [exact Hs1|apply IH].
Qed.

Lemma marks_steps s ph :
  steps caps (shared_of s ph) (shared_of (set_ledger (shutdown_marks (ledger s)).2 (set_frozen true s)) ph).
Proof.
  eapply rtc_l; [exists None; apply (step_freeze _ (shared_of s ph))|].
  apply rtc_once. exists None. apply (step_marks caps (MkShared (ledger s) ph true)).
Qed.

Lemma shutdown_steps graceful forced s ph :
  steps caps (shared_of s ph) (shared_of (shutdown_runtime caps graceful forced s) ph).
Proof.
  unfold shutdown_runtime. destruct (shutdown_marks _) as [ps l] eqn:Hm.
  pose proof (marks_steps s ph) as Hs. change (ledger s) with (ledger (set_frozen true s)) in Hs.
  rewrite Hm in Hs. simpl in Hs. set (tokens := sort_by _ _). set (s1 := terminate_all ps _).
  pose proof (wait_tokens_steps tokens graceful s1 ph) as Hw.
  destruct (wait_for_runtime_tokens caps tokens graceful s1) as [clean s2]. simpl in Hw.
  assert (Hs2 : steps caps (shared_of s ph) (shared_of s2 ph)) by (etrans; [exact Hs|exact Hw]).
  destruct clean; [exact Hs2|]. etrans; [exact Hs2|].
  apply (wait_tokens_steps tokens forced (force_terminate_all (controls tokens (ledger s2)) s2)).
Qed.

Lemma force_shutdown_steps s ph :
  steps caps (shared_of s ph) (shared_of (force_shutdown_runtime s) ph).
Proof. apply marks_steps. Qed.

(** ** Operations

    The calls the SSH layer and the daemon make, each with what the environment
    contributes to it. *)
Inductive operation :=
| OpClaim (token : Z) (principal : Principal) (id : string)
| OpList (principal : Principal)
| OpDelete (principal : Principal) (id : string) (graceful forced : Datatypes.list (@tick P L))
| OpLaunch (h : SandboxHandle) (op : LaunchOperation) (pty : option Pty)
    (environment : Datatypes.list (string * string))
| OpClaimAndLaunch (token : Z) (principal : Principal) (id : string) (op : LaunchOperation)
    (pty : option Pty) (environment : Datatypes.list (string * string))
| OpProcessEnded (lease : RuntimeLease)
| OpStartup (envs : string → Datatypes.list bool)
| OpShutdown (graceful forced : Datatypes.list (@tick P L))
| OpForceShutdown.

Definition run_operation (o : operation) (s : manager) : manager :=
  match o with
  | OpClaim token principal id => (claim root_path caps token principal id s).2
  | OpList principal => (Manager.list root_path principal s).2
  | OpDelete principal id graceful forced => (delete root_path caps principal id graceful forced s).2
  | OpLaunch h op pty environment =>
      (launch_handle_with_environment root_path caps h op pty environment s).2
  | OpClaimAndLaunch token principal id op pty environment =>
      (launch_with_environment root_path caps token principal id op pty environment s).2
  | OpProcessEnded lease => clear_runtime_of lease s
  | OpStartup envs => (reconcile_startup root_path envs s).2
  | OpShutdown graceful forced => shutdown_runtime caps graceful forced s
  | OpForceShutdown => force_shutdown_runtime s
  end.

(** A launch token is free: fewer than [2^64 - 1] launches are live. *)
Definition token_free s : Prop := Z.of_nat (size (runtime (ledger s))) + 2 <= 2 ^ 64.

Definition has_room (o : operation) s : Prop :=
  match o with
  | OpLaunch _ _ _ _ => token_free s
  | OpClaimAndLaunch token principal id _ _ _ => token_free (claim root_path caps token principal id s).2
  | _ => True
  end.

(** A computation that is a run of the protocol, from and to states in which no
    lock is held. *)
Definition calm {E A} (m : M manager E A) : Prop := ∀ s,
  steps caps (shared_of s ∅) (shared_of (m s).2 ∅).

Lemma calm_quiet {E A} (m : M manager E A) : quiet m → calm m.
Proof. intros Hm s. by apply quiet_steps. Qed.

Lemma calm_bind {E A B} (m : M manager E A) (f : A → M manager E B) :
  calm m → (∀ a, calm (f a)) → calm (m ≫= f).
Proof.
  intros Hm Hf s. specialize (Hm s). unfold mbind, M_bind.
  destruct (m s) as [[a|e] s1]; [|exact Hm]. etrans; [exact Hm|apply Hf].
Qed.

Lemma calm_locked {E A} id (m : M manager E A) Q :
  locked id ∅ Holding m Q → (∀ r p, Q r p → ¬ reserving p) → calm m.
Proof. intros Hm HQ s. by eapply unlocked; [apply lookup_empty|..]. Qed.

Lemma calm_claim token principal id : calm (claim root_path caps token principal id : Mg _).
Proof. by eapply calm_locked; [apply locked_claim|]. Qed.

Lemma calm_delete principal id graceful forced :
  calm (delete root_path caps principal id graceful forced : Mg _).
Proof. by eapply calm_locked; [apply locked_delete|]. Qed.

Lemma calm_deleting ids : calm (reconcile_deleting_loop root_path ids : Mg _).
Proof.
  induction ids as [|id ids IH]; simpl; [by apply calm_quiet|].
  apply calm_bind; [by eapply calm_locked; [apply locked_reconcile_one|]|done].
Qed.

Lemma calm_startup envs : calm (reconcile_startup root_path envs : Mg _).
Proof.
  unfold reconcile_startup. apply calm_bind; [apply calm_quiet; auto with quiet|]. intros swept.
  destruct (is_ok swept); simpl; [|by apply calm_quiet].
  apply calm_bind; [apply calm_quiet; auto with quiet|]. intros reconciled.
  destruct (is_ok reconciled); simpl; [|by apply calm_quiet].
  apply calm_bind; [|by intros _; apply calm_quiet].
  apply calm_bind; [by apply calm_quiet|]. intros s. apply calm_deleting.
Qed.

Lemma quiet_list principal : quiet (Manager.list root_path principal : Mg _).
Proof. unfold Manager.list. quiet_tac. Qed.

Lemma operation_steps o s :
  has_room o s → steps caps (shared_of s ∅) (shared_of (run_operation o s) ∅).
Proof.
  intros Hroom. destruct o; simpl in *.
  - apply calm_claim.
  - apply quiet_steps, quiet_list.
  - apply calm_delete.
  - by apply launch_steps.
  - unfold launch_with_environment. rewrite (bind_run _ _ s s s) by done.
    destruct (launch_admission_frozen s); [apply rtc_refl|].
    pose proof (calm_claim token principal id s) as Hc. unfold mbind, M_bind.
    destruct (claim root_path caps token principal id s) as [[h|e] s1]; [|exact Hc].
    etrans; [exact Hc|]. by apply launch_steps.
  - apply clear_steps.
  - apply calm_startup.
  - apply shutdown_steps.
  - apply force_shutdown_steps.
Qed.

(** ** The life of a manager *)

Definition operates s s' : Prop := ∃ o, has_room o s ∧ s' = run_operation o s.

(** A manager that has just read its registry. *)
Definition opened s : Prop := ∃ s0,
  ledger s0 = empty_ledger ∧ launch_admission_frozen s0 = false
  ∧ load_registry root_path s0 = (Ok tt, s).

Lemma opened_loaded s :
  opened s → ∃ scan, scan_wf scan ∧ shared_of s ∅ = loaded scan.
Proof.
  intros (s0 & Hl & Hf & Ho). unfold load_registry in Ho. apply bind_Ok in Ho as (scan & s1 & Hs & Ho).
  unfold on_disk in Hs. destruct (Storage.scan root_path (disk s0)) as [r w] eqn:Hsc.
  injection Hs as Hr <-. apply map_err_Ok in Hr as ->. exists scan. split.
  - intros id e m Hin Hm. destruct (StorageScan.scan_Ok _ _ _ _ Hsc) as (_ & _ & _ & _ & _ & He).
    by apply (He id e Hin) in Hm as (_ & ? & _).
  - unfold on_ledger_terminating in Ho. simpl in Ho. rewrite Hl in Ho.
    destruct (reconcile_scan scan empty_ledger) as [l ps] eqn:Hr. injection Ho as <-.
    unfold shared_of, loaded. simpl. by rewrite Hr, Hf.
Qed.

Lemma operates_steps s s' : rtc operates s s' → steps caps (shared_of s ∅) (shared_of s' ∅).
Proof.
  induction 1 as [|s1 s2 s3 (o & Hroom & ->) _ IH]; [apply rtc_refl|].
  etrans; [by apply operation_steps|done].
Qed.

(** The manager's ledger follows the protocol.  From a manager that has read its
    registry, every sequence of claims, listings, deletions, launches, process ends,
    startup and shutdown, one after the other and however each of them fails, takes the
    ledger through steps of the protocol of [RuntimeSafety].  The lock phases are those
    the proof assigns to the sandbox being worked on, not a state of the manager; while
    a deletion or a shutdown waits, other threads begin, finish and drop launches
    ([rival]), and do nothing else.  So every property of the reachable states of that
    protocol holds of the ledger between operations. *)
Theorem manager_refines_the_protocol s s' :
  opened s → rtc operates s s' →
  ∃ scan, scan_wf scan ∧ shared_of s ∅ = loaded scan ∧ steps caps (loaded scan) (shared_of s' ∅).
Proof.
  intros (scan & Hw & Hl)%opened_loaded Ho. exists scan. split_and!; [done..|].
  rewrite <-Hl. by apply operates_steps.
Qed.

(** No reservation leaks.  Between operations no sandbox is reserved and
    every owner's counter is exactly the number of sandboxes it owns: whichever
    call of a claim failed, what it had reserved has been given back. *)
Theorem no_reservation_leaks s s' :
  opened s → rtc operates s s' →
  reserved_sandboxes (ledger s') = 0
  ∧ ∀ o, default 0 (owner_counts (ledger s') !! o) = owned o (records (ledger s')).
Proof.
  intros (scan & Hw & Hl)%opened_loaded Ho%operates_steps. rewrite Hl in Ho.
  destruct (reachable_inv _ _ _ Hw Ho) as [Hb _]. simpl in Hb. split.
  - apply (bk_reserved _ _ Hb).
  - intros o. rewrite (bk_counts _ _ Hb). unfold inflight. rewrite Z.add_comm. done.
Qed.
End protocol.

(** ** A run *)

#[local] Existing Instance sample_host.

Lemma unit_run {S E} (m : M S E unit) s : is_ok (m s).1 = true → m s = (Ok tt, (m s).2).
Proof. by destruct (m s) as [[[]|] s']. Qed.

Lemma sample_is_opened : opened "/r" sample_opened.
Proof.
  exists sample_boot. split; [reflexivity|]. split; [reflexivity|].
  apply unit_run. vm_compute. reflexivity.
Qed.

(** Startup, a new sandbox with a process in it, the deletion of the first
    sandbox, and a claim that is refused. *)
Definition new_handle : SandboxHandle :=
  MkHandle "new" (fingerprint sample_owner) (Storage.workspace_path "/r" "new")
    (Some (MkIdentity 1000 1000 100001 200001)) true.

Definition sample_operations : Datatypes.list (@operation unit nat nat) :=
  [OpStartup (fun _ => []); OpClaim 2 sample_owner "new"; OpLaunch new_handle Shell None [];
   OpDelete sample_owner "dev" [] []; OpClaim 3 sample_stranger "new"].

Definition sample_end : @SandboxManager world nat nat :=
  foldl (fun s o => run_operation "/r" sample_caps o s) sample_opened sample_operations.

Lemma run_operates (ops : Datatypes.list (@operation unit nat nat)) : ∀ s : @SandboxManager world nat nat,
  (∀ n o, ops !! n = Some o →
     has_room "/r" sample_caps o (foldl (fun s o => run_operation "/r" sample_caps o s) s (take n ops))) →
  rtc (operates "/r" sample_caps) s (foldl (fun s o => run_operation "/r" sample_caps o s) s ops).
Proof.
  induction ops as [|o ops IH]; intros s Hr; simpl; [apply rtc_refl|].
  eapply rtc_l; [exists o; split; [apply (Hr 0%nat o eq_refl)|reflexivity]|].
  apply IH. intros n o' Ho'. apply (Hr (S n) o' Ho').
Qed.

Lemma sample_run : rtc (operates "/r" sample_caps) sample_opened sample_end.
Proof.
  apply (run_operates sample_operations). intros n o Ho.
  do 5 (destruct n as [|n]; [injection Ho as <-; first [exact I|vm_compute; discriminate]|]).
  discriminate Ho.
Qed.

Lemma manager_refines_the_protocol_witness :
  (length (records (ledger sample_end)), size (runtime (ledger sample_end))) = (1, 1)%nat
  ∧ ∃ scan, shared_of sample_opened ∅ = loaded scan
      ∧ steps sample_caps (loaded scan) (shared_of sample_end ∅).
Proof.
  split; [vm_compute; reflexivity|].
  destruct (manager_refines_the_protocol "/r" sample_caps sample_opened sample_end
    sample_is_opened sample_run) as (scan & _ & Hl & Hs).
  exists scan. split; [exact Hl|exact Hs].
Defined.

Lemma no_reservation_leaks_witness :
  reserved_sandboxes (ledger sample_end) = 0
  ∧ default 0 (owner_counts (ledger sample_end) !! fingerprint sample_owner)
    = owned (fingerprint sample_owner) (records (ledger sample_end)).
Proof.
  destruct (no_reservation_leaks "/r" sample_caps sample_opened sample_end
    sample_is_opened sample_run) as [Hr Ho].
  split; [exact Hr|exact (Ho (fingerprint sample_owner))].
Defined.
End ManagerProtocol.
