(* ===== verification/ManagerSafety.v ===== *)
(** * What the manager guarantees its callers

    The operations of [Manager] composed with the disk, the lease ledger and the
    platform: who may touch a sandbox, what a success means, in which order a
    deletion frees what it frees, and that a daemon that cannot prove its
    startup clean serves nobody. *)

From stdpp Require Import relations.
From S2P Require Import Prelude BTree Text Toml Idents Metadata Delegation FileSystem Storage StorageDeletion StorageFrame StorageScan LeaseRecord LedgerSpec LeaseStore Allocator AllocatorSafety RuntimeLedger RuntimeSafety Manager ManagerProtocol.

Module ManagerSafety.
Import RuntimeLedger RuntimeSafety Manager ManagerProtocol.

(** ** Symbolic execution

    [wp m Q s]: the run of [m] from [s] ends in a result and a state in [Q]. *)
Definition wp {S E A} (m : M S E A) (Q : result E A → S → Prop) (s : S) : Prop := Q (m s).1 (m s).2.

Section wp_rules.
Context {S E : Type}.
Implicit Types s : S.

Lemma wp_run {A} (m : M S E A) Q s : wp m Q s → ∀ r s', m s = (r, s') → Q r s'.
Proof. unfold wp. intros Hw r s' Hr. by rewrite Hr in Hw. Qed.

Lemma wp_mono {A} (m : M S E A) (Q R : result E A → S → Prop) s :
  wp m Q s → (∀ r s', Q r s' → R r s') → wp m R s.
Proof. unfold wp. auto. Qed.

Lemma wp_bind {A B} (m : M S E A) (f : A → M S E B) Q s :
  wp m (fun r s1 => match r with Ok a => wp (f a) Q s1 | Err e => Q (Err e) s1 end) s →
  wp (m ≫= f) Q s.
Proof. unfold wp, mbind, M_bind. by destruct (m s) as [[a|e] s1]. Qed.

Lemma wp_ret {A} (a : A) (Q : result E A → S → Prop) s : Q (Ok a) s → wp (mret a) Q s.
Proof. done. Qed.

Lemma wp_fail {A} (e : E) (Q : result E A → S → Prop) s : Q (Err e) s → wp (fail e) Q s.
Proof. done. Qed.

Lemma wp_getS (Q : result E S → S → Prop) s : Q (Ok s) s → wp getS Q s.
Proof. done. Qed.

Lemma wp_liftR {A} (r : result E A) (Q : result E A → S → Prop) s : Q r s → wp (liftR r) Q s.
Proof. done. Qed.

Lemma wp_tryM {E' A} (m : M S E A) (Q : result E' (result E A) → S → Prop) s :
  wp m (fun r s' => Q (Ok r) s') s → wp (tryM m) Q s.
Proof. unfold wp, tryM. by destruct (m s). Qed.
End wp_rules.

(** ** What the allocator's calls do to the ledger *)

Section leases.
Context `{TomlCrate} `{UnicodeTables} `{!TomlLaws} {St : Type} `{!LeaseLedger St}.
Import Allocator.
Implicit Types a : SubidAllocator St.

Lemma lease_for_spec sandbox a r a' :
  ledger_ok (store a) → lease_for sandbox a = (r, a') →
  reads a a' ∧ match r with
               | Ok (Some c) => view (store a) (Lease.lease_id c) = Some c ∧ Lease.sandbox_id c = sandbox
               | Ok None => ∀ lid c, view (store a) lid = Some c → Lease.sandbox_id c ≠ sandbox
               | Err _ => True
               end.
Proof.
  intros Hok Hl. split; [by eapply AllocatorSafety.lease_for_reads|].
  assert (Hcold : ∀ a1, reads a a1 →
    (m ← load_indexed; mret (bt_get sandbox m)) a1 = (r, a') →
    match r with
    | Ok (Some c) => view (store a) (Lease.lease_id c) = Some c ∧ Lease.sandbox_id c = sandbox
    | Ok None => ∀ lid c, view (store a) lid = Some c → Lease.sandbox_id c ≠ sandbox
    | Err _ => True
    end).
  { intros a1 [Hok1 Hr1] Hk. apply bind_inv in Hk as [(m & a2 & Hld & Hk)|(x & Hld & ->)]; [|done].
    apply load_indexed_spec in Hld as [_ Hm]; [|done]. destruct (Hm m eq_refl) as (Hin & _ & Hs & Hkey).
    unfold_monad. simplify_eq. destruct (bt_get sandbox m) as [c|] eqn:Hg.
    - apply bt_get_elem in Hg; [|done]. rewrite <-Hr1. split; [apply Hin|by apply Hkey in Hg].
      apply list_elem_of_fmap. by exists (sandbox, c).
    - intros lid c Hc Heq. destruct (view_wf _ _ _ Hc) as [_ Hid]. rewrite <-Hr1, <-Hid in Hc.
      apply Hin, list_elem_of_fmap in Hc as ([sb x] & -> & Hx). apply Hkey in Hx as Hsb. simpl in *.
      subst. apply bt_get_elem in Hx; [|done]. congruence. }
  unfold lease_for in Hl. rewrite (bind_run _ _ _ a a) in Hl by done.
  destruct (lease_ids a !! sandbox) as [lid|]; [|by apply (Hcold a)].
  apply bind_inv in Hl as [(o & a1 & Hs & Hk)|(x & Hs & ->)]; [|done].
  apply on_store_inv in Hs as (r0 & Hs & Hr0 & _). apply l_read_spec in Hs as (Hok' & Hv & Hx); [|done].
  destruct r0 as [o'|]; [|done]. injection Hr0 as <-. specialize (Hx _ eq_refl).
  destruct o as [c|]; [|by apply (Hcold a1)].
  case_bool_decide; unfold_monad; simplify_eq; [|done].
  destruct (view_wf _ _ _ Hx) as [_ ->]. done.
Qed.

(** A release that begins moves the lease or leaves the ledger as it was. *)
Lemma begin_release_result e a r a' :
  ledger_ok (store a) → begin_release e a = (r, a') →
  ledger_ok (store a')
  ∧ ((∀ id, view (store a') id = view (store a) id)
     ∨ ∃ c, view (store a) (Lease.lease_id e) = Some c ∧ same_incarnation c e = true
         ∧ updates (view (store a)) (Lease.lease_id e) (Some (Lease.with_state c Lease.Releasing))
             (view (store a'))).
Proof.
  intros Hok Hb. unfold begin_release, transition in Hb.
  assert (Hsame : ∀ a1, reads a a1 → ledger_ok (store a1) ∧
    ((∀ id, view (store a1) id = view (store a) id) ∨ ∃ c, view (store a) (Lease.lease_id e) = Some c
      ∧ same_incarnation c e = true ∧ updates (view (store a)) (Lease.lease_id e)
          (Some (Lease.with_state c Lease.Releasing)) (view (store a1)))) by (intros a1 [? ?]; auto).
  assert (Ht : ∃ r0, transition e [Lease.Active; Lease.Reserved] Lease.Releasing a = (r0, a')).
  { apply bind_inv in Hb as [(x & a1 & Ht & Hk)|(x & Ht & ->)]; [|by eexists].
    unfold_monad. simplify_eq. by eexists. }
  clear Hb. destruct Ht as [r0 Ht]. unfold transition in Ht.
  apply bind_inv in Ht as [(u & a1 & Hg & Ht)|(x & Hg & _)];
    apply guard_reads in Hg as [Hg _]; [|done| |done]; [|by apply Hsame].
  apply bind_inv in Ht as [(c & a2 & He & Ht)|(x & He & _)];
    apply expected_reads in He as [He Hc]; [|apply Hg| |apply Hg];
    pose proof (reads_trans _ _ _ Hg He) as Hr; [|by apply Hsame].
  destruct (Hc c eq_refl) as (Hv & Hi & _). rewrite (proj2 Hg) in Hv.
  destruct (view_wf _ _ _ Hv) as [Hwf Hid].
  assert (Hw : ∃ (r1 : result Error unit), on_store (l_write (Lease.with_state c Lease.Releasing)) a2 = (r1, a')).
  { apply bind_inv in Ht as [(x & a3 & Hw & Hk)|(x & Hw & _)]; [|by eexists].
    unfold_monad. simplify_eq. by eexists. }
  destruct Hw as [r1 Hw]. apply write_step in Hw as (Hok' & _ & Hw); [|apply Hr|apply Hwf].
  split; [done|]. destruct Hw as [Hu|[_ Hu]]; [right|left; intros; by rewrite Hu, (proj2 Hr)].
  rewrite stored_with_state in Hu by done. apply (updates_from _ _ _ _ _ (proj2 Hr)) in Hu.
  exists c. simpl in Hu. rewrite Hid in Hu. done.
Qed.

Lemma finish_release_result e a r a' :
  ledger_ok (store a) → finish_release e a = (r, a') →
  ledger_ok (store a')
  ∧ ((∀ id, view (store a') id = view (store a) id) ∧ is_ok r = false
     ∨ updates (view (store a)) (Lease.lease_id e) None (view (store a'))).
Proof.
  intros Hok Hf. unfold finish_release, remove_expected in Hf.
  apply bind_inv in Hf as [(u & a1 & Hg & Hf)|(x & Hg & ->)];
    apply guard_reads in Hg as [Hg _]; [|done| |done]; [|split; [apply Hg|left; split; [apply Hg|done]]].
  apply bind_inv in Hf as [(c & a2 & He & Hf)|(x & He & ->)];
    apply expected_reads in He as [He _]; [|apply Hg| |apply Hg];
    pose proof (reads_trans _ _ _ Hg He) as Hr; [|split; [apply Hr|left; split; [apply Hr|done]]].
  apply bind_inv in Hf as [(u2 & a3 & Hs & Hf)|(x & Hs & ->)];
    apply remove_step in Hs as [Hok' Hs]; [|apply Hr| |apply Hr].
  - unfold set_pending, set_lease_ids in Hf. unfold_monad. simplify_eq/=. split; [done|].
    destruct Hs as [Hu|[? _]]; [|done]. right. by apply (updates_from _ _ _ _ _ (proj2 Hr)).
  - split; [done|]. destruct Hs as [Hu|[_ Hu]]; [right; by apply (updates_from _ _ _ _ _ (proj2 Hr))|].
    left. split; [|done]. intros. by rewrite Hu, (proj2 Hr).
Qed.
End leases.

Section safety.
Context `{TomlCrate} `{UnicodeTables} `{Host}.
Context {St : Type} `{!LeaseLedger St}.
Context {Pty P L : Type} `{!ProcessLauncher Pty P L}.
Context (root_path : string) (caps : Caps).

Abbreviation manager := (@SandboxManager St P L).
Abbreviation Mg := (M manager Error).
Implicit Types s : manager.

(** ** Frames of the calls *)

Lemma wp_disk {A} (m : M world Storage.Error A) (Q : result Error A → manager → Prop) s :
  wp m (fun r w => Q (map_err StorageError r) (set_disk w s)) (disk s) → wp (on_disk m) Q s.
Proof. unfold wp, on_disk. by destruct (m (disk s)). Qed.

Lemma wp_allocator {A} (m : M (Allocator.SubidAllocator St) Allocator.Error A)
    (Q : result Error A → manager → Prop) s a :
  subids s = Some a →
  wp m (fun r a' => Q (map_err SubidError r) (set_subids (Some a') s)) a → wp (on_allocator m) Q s.
Proof. unfold wp, on_allocator. intros ->. by destruct (m a). Qed.

Lemma wp_platform {A} (m : M L LaunchError A) (Q : result Error A → manager → Prop) s :
  (∀ r p, Q (map_err Launch r) (set_platform p s)) → wp (on_platform m) Q s.
Proof. intros HQ. unfold wp, on_platform. destruct (m (platform s)). apply HQ. Qed.

Lemma wp_ledger {A} (f : Ledger P → A * Ledger P) (Q : result Error A → manager → Prop) s :
  Q (Ok (f (ledger s)).1) (set_ledger (f (ledger s)).2 s) → wp (on_ledger f) Q s.
Proof. unfold wp, on_ledger. by destruct (f (ledger s)). Qed.

Lemma wp_terminating {A} (f : Ledger P → A * (Ledger P * Datatypes.list P))
    (Q : result Error A → manager → Prop) s :
  (∀ p, Q (Ok (f (ledger s)).1) (set_platform p (set_ledger (f (ledger s)).2.1 s))) →
  wp (on_ledger_terminating f) Q s.
Proof. intros HQ. unfold wp, on_ledger_terminating. destruct (f (ledger s)) as [a [l ps]]. apply HQ. Qed.

Lemma wp_query (Q : result Error Delegation.Delegation → manager → Prop) s :
  (∀ r c, Q r (set_cache c s)) → wp query_delegation Q s.
Proof. intros HQ. unfold wp, query_delegation. destruct (Delegation.query _ _). apply HQ. Qed.

Lemma wp_ready {A} (k : Mg A) Q s :
  (ready s = true → wp k Q s) → (ready s = false → Q (Err Unavailable) s) →
  wp (_ ← ensure_ready; k) Q s.
Proof.
  intros Hk Hn. unfold ensure_ready. apply wp_bind, wp_bind, wp_getS.
  destruct (ready s); [by apply wp_ret, Hk|by apply wp_fail, Hn].
Qed.

(** ** Strangers *)

(** The durable state: the registry and the lease ledger. *)
Definition durable_same s s' : Prop :=
  w_root (disk s') = w_root (disk s) ∧ subids s' = subids s.

(** C6: strangers get nothing and change nothing.  For a principal that neither
    owns the sandbox nor is an administrator, a claim answers [Unavailable], as for
    a sandbox that cannot be opened, a deletion answers [Noop] or [Unavailable],
    and after either the registry and the lease ledger are what they were. *)
Theorem strangers_change_nothing principal id s e m w :
  Storage.inspect root_path id (disk s) = (Ok e, w) → Storage.reported e = Some m →
  authorized principal (Metadata.owner m) = false →
  (∀ token r s', claim root_path caps token principal id s = (r, s') →
     r = Err Unavailable ∧ durable_same s s')
  ∧ ∀ graceful forced r s', delete root_path caps principal id graceful forced s = (r, s') →
     (r = Ok Noop ∨ r = Err Unavailable) ∧ durable_same s s'.
Proof.
  intros Hi Hm Hau. pose proof (ro_root _ _ _ _ (Storage.read_only_inspect root_path id) Hi) as Hroot.
  split.
  - intros token. apply (wp_run _ (fun r s' => r = Err Unavailable ∧ durable_same s s')). unfold claim. apply wp_ready; [|done]. intros _.
    apply wp_bind, wp_disk. unfold wp at 1. rewrite Hi. simpl. destruct e; simplify_eq/=.
    + apply wp_bind, wp_terminating. intros p. simpl.
      destruct (note_valid_record _ _ _) as [[] x]; simpl; [|done]. by rewrite Hau.
    + apply wp_bind, wp_terminating. intros p. done.
  - intros graceful forced.
    apply (wp_run _ (fun r s' => (r = Ok Noop ∨ r = Err Unavailable) ∧ durable_same s s')).
    unfold delete. apply wp_ready; [|by split; [right|]]. intros _.
    apply wp_bind, wp_disk. unfold wp at 1. rewrite Hi. simpl. destruct e; simplify_eq/=;
      apply wp_bind, wp_terminating; intros p; simpl;
      (destruct (note_valid_record _ _ _) as [[] x]; simpl; [|by split; [right|]]);
      rewrite Hau; simpl; by split; [left|].
Qed.

(** ** Deletion *)

Section deletion.
Context `{!TomlLaws}.

(** The leases the manager's allocator reads. *)
Definition leases s : lview :=
  match subids s with Some a => view (Allocator.store a) | None => fun _ => None end.

(** A well-formed manager between operations. *)
Record sound s : Prop := MkSound {
  sd_names : StorageFrame.names_distinct (w_root (disk s));
  sd_inv : inv caps (shared_of s ∅);
  sd_ok : ∀ a, subids s = Some a → ledger_ok (Allocator.store a);
  sd_unique : Allocator.unique (leases s);
}.

(** What other threads and the platform do during a wait is not durable. *)
Definition untouched s s' : Prop :=
  disk s' = disk s ∧ subids s' = subids s ∧ host_ids s' = host_ids s
  ∧ delegation_cache s' = delegation_cache s.

Lemma untouched_trans s1 s2 s3 : untouched s1 s2 → untouched s2 s3 → untouched s1 s3.
Proof. unfold untouched. naive_solver congruence. Qed.

Lemma wait_frame id ticks : ∀ s, untouched s (wait_for_runtime_cleanup caps id ticks s).2.
Proof.
  induction ticks as [|t ticks IH]; intros s; simpl; (case_bool_decide; [done|]); [done|].
  destruct (first_process _ _) as [[token control]|].
  - destruct (wait_for_cleanup _ _ _) as [[] p]; simpl; [|done].
    eapply untouched_trans; [|apply IH]. done.
  - destruct (timed_out t); simpl; [done|]. eapply untouched_trans; [|apply IH]. done.
Qed.

Lemma cancel_frame id graceful forced s : untouched s (cancel_runtime caps id graceful forced s).2.
Proof.
  unfold cancel_runtime. destruct (cancel_marks _ _) as [ps l].
  pose proof (wait_frame id graceful (terminate_all ps (set_ledger l s))) as Hw.
  destruct (wait_for_runtime_cleanup caps id graceful _) as [[] s1]; simpl in *; [done|].
  eapply untouched_trans; [exact Hw|].
  apply (wait_frame id forced (force_terminate_all (controls (runtime_tokens_for (ledger s1) id) (ledger s1)) s1)).
Qed.

(** A section of the protocol, under the lifecycle lock, keeps the ledger's
    invariant. *)
Definition held s id p : Prop := inv caps (at_phase id ∅ s p).

Lemma held_locked {E A} id p (m : M manager E A) Q s :
  held s id p → locked caps id ∅ p m Q → ∃ p', held (m s).2 id p' ∧ Q (m s).1 p'.
Proof.
  intros Hh Hm. destruct (Hm s) as (p' & Hs & HQ). exists p'. split; [|done]. by eapply steps_inv.
Qed.

Lemma held_acquire s id : inv caps (shared_of s ∅) → held s id Holding.
Proof.
  intros Hi. eapply steps_inv; [|exact Hi]. apply rtc_once. exists (Some id).
  by apply (step_acquire caps (shared_of s ∅) id).
Qed.

(** How far a deletion has come: the disk differs below [id] only, the ledger
    of leases only in the lease of [id]. *)
Record progress id (lease : option Lease.LeaseRecord) s s1 : Prop := MkProgress {
  pg_frame : ∀ id' p, id' ≠ id → w_root (disk s1) ≫= node_at (id' :: p) = w_root (disk s) ≫= node_at (id' :: p);
  pg_names : StorageFrame.names_distinct (w_root (disk s1));
  pg_ok : ∀ a, subids s1 = Some a → ledger_ok (Allocator.store a);
  pg_some : is_Some (subids s1) ↔ is_Some (subids s);
  pg_others : ∀ lid, (∀ c, lease = Some c → lid ≠ Lease.lease_id c) → leases s1 lid = leases s lid;
  pg_lease : ∀ c, lease = Some c → is_Some (leases s1 (Lease.lease_id c));
  pg_quarantined : ∀ c, lease = Some c → Lease.state c = Lease.Quarantined →
    leases s1 (Lease.lease_id c) = leases s (Lease.lease_id c);
}.

Lemma progress_same id lease s s1 s2 :
  progress id lease s s1 → w_root (disk s2) = w_root (disk s1) → subids s2 = subids s1 →
  progress id lease s s2.
Proof.
  intros [Hf Hn Ho Hs Hv Hl Hq] Hd Ha. unfold leases in *. split; unfold leases; by rewrite ?Hd, ?Ha.
Qed.

Lemma progress_disk {E A} id lease s s1 (m : M world E A) :
  progress id lease s s1 → (∀ Inv, StorageFrame.local_to id Inv → StorageDeletion.preserves Inv m) →
  progress id lease s (set_disk (m (disk s1)).2 s1).
Proof.
  intros [Hf Hn Ho Hs Hv Hl Hq] Hm. split; try done.
  - intros id' p Hne. simpl.
    apply (Hm (fun t => t ≫= node_at (id' :: p) = w_root (disk s) ≫= node_at (id' :: p))); [|by apply Hf].
    by apply StorageFrame.others_local.
  - simpl. by apply (Hm _ (StorageFrame.names_local id)).
Qed.

Lemma progress_release id c s s1 a r a' :
  progress id (Some c) s s1 → subids s1 = Some a → Lease.state c ≠ Lease.Quarantined →
  Allocator.begin_release c a = (r, a') → progress id (Some c) s (set_subids (Some a') s1).
Proof.
  intros [Hf Hn Ho Hs Hv Hl Hq] Ha Hst Hb. apply begin_release_result in Hb as [Hok Hb]; [|by apply Ho].
  unfold leases in *. rewrite Ha in *. split; try done; simpl.
  - by intros ? [= <-].
  - split; [by intros _; apply Hs|done].
  - intros lid Hlid. rewrite <-Hv by done. destruct Hb as [Hb|(c' & _ & _ & _ & Hb)]; [apply Hb|].
    apply Hb. by apply Hlid.
  - intros c' [= <-]. specialize (Hl c eq_refl). unfold leases. simpl. destruct Hb as [Hb|(c' & _ & _ & Hb & _)].
    + by rewrite Hb.
    + rewrite Hb. by eexists.
  - by intros ? [= <-].
Qed.

(** What a deletion may have done, whatever it reports. *)
Record deletion_frame id s s' : Prop := MkFrame {
  df_disk : ∀ id' p, id' ≠ id →
    w_root (disk s') ≫= node_at (id' :: p) = w_root (disk s) ≫= node_at (id' :: p);
  df_leases : ∀ lid c, leases s lid = Some c → Lease.sandbox_id c ≠ id → leases s' lid = Some c;
  df_order : ∀ lid, is_Some (leases s lid) → leases s' lid = None →
    StorageDeletion.absent [id] (w_root (disk s'));
}.

Lemma progress_frame id lease s s' :
  progress id lease s s' →
  (∀ c, lease = Some c → leases s (Lease.lease_id c) = Some c ∧ Lease.sandbox_id c = id) →
  deletion_frame id s s'.
Proof.
  intros [Hf Hn Ho Hs Hv Hl Hq] Hlease. split; [done|..].
  - intros lid c Hc Hne. rewrite Hv; [done|]. intros c' Hc' ->. destruct (Hlease _ Hc') as [Hx Hid].
    congruence.
  - intros lid [x Hx] Hnone. exfalso. destruct lease as [c|]; [|by rewrite Hv, Hx in Hnone].
    destruct (decide (lid = Lease.lease_id c)) as [->|Hne].
    + destruct (Hl c eq_refl) as [y Hy]. congruence.
    + rewrite Hv, Hx in Hnone; [done|]. by intros ? [= <-].
Qed.

(** What the success of a deletion means. *)
Record gone id s' : Prop := MkGone {
  gn_tree : StorageDeletion.absent [id] (w_root (disk s'));
  gn_record : bt_get id (records (ledger s')) = None;
  gn_runtime : ∀ t e, runtime (ledger s') !! t = Some e → sandbox_id e ≠ id;
  gn_lease : ∀ lid c, leases s' lid = Some c → Lease.sandbox_id c = id → Lease.state c = Lease.Quarantined;
}.

(** The lease is freed at the end, unless it is quarantined. *)
Lemma wp_finish_lease id lease s s1 :
  progress id lease s s1 → (is_Some lease → is_Some (subids s)) →
  wp (match lease with
      | Some record =>
          if negb (bool_decide (Lease.state record = Lease.Quarantined))
          then on_allocator (Allocator.finish_release record) else mret tt
      | None => mret tt
      end : Mg unit)
    (fun r s2 => disk s2 = disk s1 ∧ ledger s2 = ledger s1
       ∧ launch_admission_frozen s2 = launch_admission_frozen s1
       ∧ (∀ lid, (∀ c, lease = Some c → lid ≠ Lease.lease_id c) → leases s2 lid = leases s lid)
       ∧ (is_ok r = true → ∀ c, lease = Some c → Lease.state c ≠ Lease.Quarantined →
            leases s2 (Lease.lease_id c) = None)
       ∧ (∀ c, lease = Some c → Lease.state c = Lease.Quarantined →
            leases s2 (Lease.lease_id c) = leases s (Lease.lease_id c))) s1.
Proof.
  intros [_ _ Hok Hsome Hv Hl Hq] Hsub. destruct lease as [c|].
  2:{ apply wp_ret. split_and!; [done..|by intros ?? ?|done]. }
  case_bool_decide as Hst; simpl.
  { apply wp_ret. split_and!; [done..|intros _ ? [= <-]; done|done]. }
  destruct (proj2 Hsome (Hsub ltac:(by eexists))) as [a Ha].
  apply (wp_allocator _ _ _ a Ha). unfold wp.
  destruct (Allocator.finish_release c a) as [r a'] eqn:Hf.
  apply finish_release_result in Hf as [Hok' Hf]; [|by apply Hok]. unfold leases in *. rewrite Ha in *.
  simpl. split_and!; [done..| | |].
  - intros lid Hlid. rewrite <-Hv by done. destruct Hf as [[Hf _]|[_ Hf]]; [apply Hf|]. apply Hf. by apply Hlid.
  - rewrite Allocator.map_err_ok. intros Hr ? [= <-] _. destruct Hf as [[_ Hf]|[Hf _]]; [congruence|done].
  - by intros ? [= <-].
Qed.

(** The tail of a deletion, once the processes have been waited for. *)
Lemma wp_delete_tail id lease p s s1 :
  progress id lease s s1 → held s1 id p → ¬ reserving p →
  (∀ c, lease = Some c → leases s (Lease.lease_id c) = Some c ∧ Lease.sandbox_id c = id) →
  (lease = None → ∀ lid c, leases s lid = Some c → Lease.sandbox_id c ≠ id) →
  (is_Some lease → is_Some (subids s)) → Allocator.unique (leases s) →
  wp (_ ← on_platform (release_sandbox_resources id);
      _ ← (fun s => let '(r, w) := Storage.remove_tree root_path id (disk s) in
                    (map_err Cleanup r, set_disk w s));
      _ ← match lease with
          | Some record =>
              if negb (bool_decide (Lease.state record = Lease.Quarantined))
              then on_allocator (Allocator.finish_release record) else mret tt
          | None => mret tt
          end;
      _ ← remove_record id;
      mret Deleted : Mg DeleteResult)
     (fun r s' => deletion_frame id s s' ∧ (r = Ok Deleted → gone id s')) s1.
Proof.
  intros Hpg Hh Hp Hlease Hnone Hsub Hu.
  apply wp_bind, wp_platform. intros [[]|e] q; cbn [map_err];
    (assert (Hpg1 : progress id lease s (set_platform q s1)) by by eapply progress_same);
    [|by split; [eapply progress_frame|]].
  change (held (set_platform q s1) id p) in Hh. revert Hpg1 Hh. generalize (set_platform q s1).
  clear s1 Hpg q. intros s1 Hpg Hh.
  apply wp_bind. unfold wp at 1.
  destruct (Storage.remove_tree root_path id (disk s1)) as [r w] eqn:Hrm.
  pose proof (progress_disk id lease s s1 (Storage.remove_tree root_path id) Hpg) as Hpg1.
  rewrite Hrm in Hpg1. simpl in Hpg1. specialize (Hpg1 ltac:(intros; by apply StorageFrame.local_remove_tree)).
  simpl. destruct r as [[]|e]; simpl; [|by split; [eapply progress_frame|]].
  apply StorageFrame.remove_tree_gone in Hrm; [|apply Hpg].
  change (held (set_disk w s1) id p) in Hh.
  change (w_root w) with (w_root (disk (set_disk w s1))) in Hrm.
  revert Hpg1 Hh Hrm. generalize (set_disk w s1). clear s1 Hpg w. intros s1 Hpg Hh Hgone.
  eapply wp_bind, wp_mono; [by apply (wp_finish_lease id lease s)|]. simpl.
  intros r s2 (Hd & Hl & Hfr & Hv & Hfree & Hq).
  assert (Hframe : deletion_frame id s s2).
  { split.
    - intros id' q Hne. rewrite Hd. by apply Hpg.
    - intros lid c Hc Hne. rewrite Hv; [done|]. intros c' Hc' ->. destruct (Hlease _ Hc') as [Hx Hid].
      congruence.
    - intros lid _ _. by rewrite Hd. }
  destruct r as [[]|e]; [|by split].
  assert (Hh2 : held s2 id p) by (unfold held, at_phase, shared_of in *; by rewrite Hl, Hfr).
  apply wp_bind. unfold remove_record. apply wp_terminating. intros q. simpl.
  destruct (remove_record_from_ledger id (ledger s2)) as [l ps] eqn:Hr. simpl. split.
  { destruct Hframe. by split. }
  intros _. destruct Hh2 as [Hb Hrg]. simpl in Hb, Hrg.
  destruct (remove_record_spec _ _ _ _ (rg_indexed _ _ Hrg) Hr) as (_ & Hrec & _ & _ & _ & _ & Hrt & _).
  split; simpl.
  - by rewrite Hd.
  - rewrite Hrec. apply bt_get_remove_eq, Hb.
  - intros t e. rewrite Hrt. destruct (runtime (ledger s2) !! t); [|done]. case_bool_decide; [done|].
    by intros [= <-].
  - change (leases _) with (leases s2). intros lid c Hc Hid.
    destruct lease as [c0|].
    + destruct (Hlease c0 eq_refl) as [Hc0 Hid0]. destruct (decide (lid = Lease.lease_id c0)) as [->|Hne].
      * destruct (decide (Lease.state c0 = Lease.Quarantined)) as [Hs|Hs].
        -- rewrite Hq, Hc0 in Hc by done. by simplify_eq.
        -- by rewrite Hfree in Hc.
      * rewrite Hv in Hc by by intros ? [= <-]. destruct Hne.
        apply (Hu lid (Lease.lease_id c0) c c0 Hc Hc0). right. right. congruence.
    + rewrite Hv in Hc by done. by destruct (Hnone eq_refl lid c).
Qed.

(** The lookup that opens a deletion. *)
Lemma wp_lease_for id s a (Q : result Error (option Lease.LeaseRecord) → manager → Prop) :
  subids s = Some a → ledger_ok (Allocator.store a) →
  (∀ r a', Allocator.reads a a' →
     match r with
     | Ok (Some c) => leases s (Lease.lease_id c) = Some c ∧ Lease.sandbox_id c = id
     | Ok None => ∀ lid c, leases s lid = Some c → Lease.sandbox_id c ≠ id
     | Err _ => True
     end → Q (map_err SubidError r) (set_subids (Some a') s)) →
  wp (on_allocator (Allocator.lease_for id)) Q s.
Proof.
  intros Ha Hok HQ. apply (wp_allocator _ _ _ a Ha). unfold wp.
  destruct (Allocator.lease_for id a) as [r a'] eqn:Hl. apply lease_for_spec in Hl as [Hr Hl]; [|done].
  simpl. apply HQ; [done|]. unfold leases. by rewrite Ha.
Qed.

Lemma progress_start id lease s s1 :
  sound s → w_root (disk s1) = w_root (disk s) → subids s1 = subids s →
  (∀ c, lease = Some c → leases s (Lease.lease_id c) = Some c) → progress id lease s s1.
Proof.
  intros [Hn _ Hok _] Hd Ha Hl. unfold leases in *. split; unfold leases; rewrite ?Hd, ?Ha; try done.
  intros c Hc. rewrite Hl by done. by eexists.
Qed.

(** A ledger read back with the same leases. *)
Lemma progress_reads id lease s s1 a a' :
  progress id lease s s1 → subids s1 = Some a → Allocator.reads a a' →
  progress id lease s (set_subids (Some a') s1).
Proof.
  intros [Hf Hn Ho Hs Hv Hl Hq] Ha [Hok Hr]. unfold leases in *. rewrite Ha in *.
  split; unfold leases; simpl; try done.
  - by intros ? [= <-].
  - split; [by intros _; apply Hs|done].
  - intros lid Hlid. rewrite Hr. by apply Hv.
  - intros c Hc. rewrite Hr. by apply Hl.
  - intros c Hc Hst. rewrite Hr. by apply Hq.
Qed.

(** The pieces of [delete_valid], in the order of the code. *)
Definition found_lease id lease s s1 : Prop :=
  progress id lease s s1 ∧ (is_Some lease → is_Some (subids s))
  ∧ (∀ c, lease = Some c → leases s (Lease.lease_id c) = Some c ∧ Lease.sandbox_id c = id)
  ∧ (lease = None → ∀ lid c, leases s lid = Some c → Lease.sandbox_id c ≠ id).

Lemma wp_find_lease id s s1 :
  sound s → w_root (disk s1) = w_root (disk s) → subids s1 = subids s →
  wp (match subids s1 with
      | None => mret None
      | Some _ =>
          found ← on_allocator (Allocator.lease_for id);
          record ← liftR (ok_or Unavailable found);
          mret (Some record)
      end : Mg _)
    (fun r s2 => ledger s2 = ledger s1 ∧ launch_admission_frozen s2 = launch_admission_frozen s1
       ∧ match r with Ok lease => found_lease id lease s s2 | Err _ => progress id None s s2 end) s1.
Proof.
  intros Hs Hd Ha. destruct (subids s1) as [a|] eqn:Ha1.
  - apply wp_bind. apply (wp_lease_for id s1 a _ Ha1); [by apply (sd_ok _ Hs)|].
    intros r a' Hr Hl.
    assert (Hpg : ∀ lease, (∀ c, lease = Some c → leases s (Lease.lease_id c) = Some c) →
      progress id lease s (set_subids (Some a') s1)).
    { intros lease Hx. eapply progress_reads; [|exact Ha1|exact Hr]. apply progress_start; try done.
      congruence. }
    assert (Hls : leases s1 = leases s) by (unfold leases; by rewrite Ha1, <-Ha). rewrite Hls in Hl.
    destruct r as [[c|]|e]; simpl; [apply wp_bind, wp_liftR, wp_ret|apply wp_bind, wp_liftR; simpl|];
      (split_and!; [done|done|]); [|by apply Hpg..]. split_and!; [..|done].
    + apply Hpg. intros ? [= <-]. apply Hl.
    + rewrite <-Ha. by eexists.
    + by intros ? [= <-].
  - apply wp_ret. split_and!; [done|done|]. split_and!; [|by intros []|done|].
    + apply progress_start; try done. congruence.
    + intros _ lid c. unfold leases. by rewrite <-Ha.
Qed.

Lemma wp_mark_deleting id m lease s s1 :
  Metadata.id m = id → progress id lease s s1 → held s1 id (Known m) →
  wp (if bool_decide (Metadata.state m = Metadata.Active) then
        let deleting := Metadata.with_state m Metadata.Deleting in
        _ ← on_disk (Storage.write_metadata root_path deleting);
        on_ledger (fun l => (tt, replace_record deleting l))
      else mret tt : Mg unit)
    (fun _ s2 => progress id lease s s2 ∧ ∃ m', held s2 id (Known m')) s1.
Proof.
  intros Hid Hpg Hh. case_bool_decide; [|by apply wp_ret; eauto].
  apply wp_bind, wp_disk. unfold wp at 1. set (deleting := Metadata.with_state m Metadata.Deleting).
  pose proof (progress_disk id lease s s1 (Storage.write_metadata root_path deleting) Hpg) as Hpg1.
  destruct (Storage.write_metadata root_path deleting (disk s1)) as [r w]. simpl in *.
  specialize (Hpg1 ltac:(intros Inv HI; by apply (StorageFrame.local_write_metadata root_path id Inv HI))).
  destruct r as [[]|e]; simpl; [|by eauto].
  apply wp_ledger. split; [by eapply progress_same|].
  destruct (held_locked id (Known m) (on_ledger (fun l => (tt, replace_record deleting l)) : Mg unit) _
    (set_disk w s1) Hh (locked_replace caps id ∅ m Metadata.Deleting Hid)) as (p' & Hh' & ->).
  by exists deleting.
Qed.

Lemma wp_begin_release id lease p s s1 :
  progress id lease s s1 → held s1 id p → (is_Some lease → is_Some (subids s)) →
  wp (match lease with
      | Some record =>
          if bool_decide (Lease.state record = Lease.Active)
             || bool_decide (Lease.state record = Lease.Reserved)
          then on_allocator (Allocator.begin_release record) else mret tt
      | None => mret tt
      end : Mg unit)
    (fun _ s2 => progress id lease s s2 ∧ held s2 id p) s1.
Proof.
  intros Hpg Hh Hsub. destruct lease as [c|]; [|by apply wp_ret]. destruct (_ || _) eqn:Hst; [|by apply wp_ret].
  destruct (proj2 (pg_some _ _ _ _ Hpg) (Hsub ltac:(by eexists))) as [a Ha].
  apply (wp_allocator _ _ _ a Ha). unfold wp. destruct (Allocator.begin_release c a) as [r a'] eqn:Hb.
  split; [|exact Hh]. eapply progress_release; [done|done| |done]. intros Hq. by rewrite Hq in Hst.
Qed.

Lemma wp_delete_valid id m graceful forced s s1 :
  sound s → Metadata.id m = id → held s1 id (Known m) →
  w_root (disk s1) = w_root (disk s) → subids s1 = subids s →
  wp (delete_valid root_path caps id m graceful forced)
    (fun r s' => deletion_frame id s s' ∧ (r = Ok Deleted → gone id s')) s1.
Proof.
  intros Hs Hid Hh Hd Ha. unfold delete_valid. apply wp_bind, wp_getS.
  eapply wp_bind, wp_mono; [by apply (wp_find_lease id s s1)|]. intros r s2 (Hl & Hfz & Hr).
  assert (Hh2 : held s2 id (Known m)) by (unfold held, at_phase, shared_of in *; by rewrite Hl, Hfz).
  clear Hh Hd Ha Hl Hfz s1. destruct r as [lease|e]; [|by split; [eapply progress_frame|]].
  destruct Hr as (Hpg & Hsub & Hlease & Hnone).
  eapply wp_bind, wp_mono; [by apply (wp_mark_deleting id m lease s s2)|].
  intros r s3 (Hpg3 & m' & Hh3). destruct r as [[]|e]; [|by split; [eapply progress_frame|]].
  eapply wp_bind, wp_mono; [by apply (wp_begin_release id lease (Known m') s s3)|].
  intros r s4 [Hpg4 Hh4]. destruct r as [[]|e]; [|by split; [eapply progress_frame|]].
  apply wp_bind. unfold wp at 1.
  pose proof (cancel_steps caps id ∅ graceful forced s4 (Known m')) as Hc.
  destruct (cancel_frame id graceful forced s4) as (Hcd & Hcs & _).
  destruct (cancel_runtime caps id graceful forced s4) as [clean s5]. simpl in *.
  apply (progress_same _ _ _ _ s5) in Hpg4; [|by rewrite Hcd|done].
  destruct clean; simpl; [|by split; [eapply progress_frame|]].
  apply (wp_delete_tail id lease (Known m')); try done; [by eapply steps_inv|by intros []|by apply Hs].
Qed.

(** An entry reported absent is not on disk. *)
Lemma inspect_Absent id w w' :
  Storage.inspect root_path id w = (Ok Storage.Absent, w') → StorageDeletion.absent [id] (w_root w).
Proof.
  unfold Storage.inspect. intros Hi. apply bind_Ok in Hi as (d & w1 & Ho & Hi).
  apply Storage.open_root_Ok in Ho as (-> & Hr1 & mode & u & es & Hdir).
  apply bind_Ok in Hi as (o & w2 & Ho & Hi). apply tryM_Ok in Ho. destruct o as [d|e].
  - exfalso. unfold Storage.inspect_directory, Storage.inspect_metadata, Storage.inspect_workspace in Hi.
    repeat (inv_run; simplify_eq/=; try split_run; simplify_eq/=).
    by destruct (Metadata.state _).
  - unfold StorageDeletion.absent. rewrite <-Hr1.
    destruct (errno_is e ENOENT) eqn:He; [|by repeat case_match; inv_run].
    eapply (entry_absent [] id (fun o => open_as_directory o ([] ++ [id]))) in Ho; [done|..|done].
    + by rewrite Hr1, Hdir.
    + intros n w0 Heq. by rewrite (StorageDeletion.open_as_error n _ _ _ Heq) in He.
Qed.

Lemma frame_same id s s' :
  w_root (disk s') = w_root (disk s) → (∀ lid, leases s' lid = leases s lid) → deletion_frame id s s'.
Proof.
  intros Hd Hl. split; [by rewrite Hd|intros lid c; by rewrite Hl|].
  intros lid [c Hc]. rewrite Hl. congruence.
Qed.

Lemma wp_delete_absent principal id s s1 :
  sound s → StorageDeletion.absent [id] (w_root (disk s)) →
  w_root (disk s1) = w_root (disk s) → subids s1 = subids s →
  wp (delete_absent principal id : Mg _)
    (fun r s' => deletion_frame id s s' ∧ r ≠ Ok Deleted) s1.
Proof.
  intros Hs Hab Hd Ha. unfold delete_absent. apply wp_bind, wp_getS.
  assert (Htail : ∀ (b : bool) s2, deletion_frame id s s2 →
    wp (if b then mret Noop else _ ← remove_record id; mret Noop : Mg DeleteResult)
      (fun r s' => deletion_frame id s s' ∧ r ≠ Ok Deleted) s2).
  { intros [] s2 Hf; [by apply wp_ret|]. apply wp_bind, wp_terminating. intros p. simpl.
    apply wp_ret. split; [|done]. by destruct Hf. }
  assert (Hok : ∀ a, subids s1 = Some a → ledger_ok (Allocator.store a))
    by (rewrite Ha; apply (sd_ok _ Hs)).
  assert (Hls : leases s1 = leases s) by (unfold leases; by rewrite Ha).
  apply wp_bind. destruct (subids s1) as [a|] eqn:Ha1.
  2:{ apply wp_ret, (Htail false), frame_same; [done|]. by rewrite Hls. }
  apply wp_bind, (wp_lease_for id s1 a _ Ha1); [by apply Hok|]. intros r a' [Hok' Hr] Hl.
  assert (Hsame : ∀ q s2, s2 = set_platform q (set_subids (Some a') s1) ∨ s2 = set_subids (Some a') s1 →
    deletion_frame id s s2).
  { intros q s2 Hs2. apply frame_same; [by destruct Hs2 as [-> | ->]|]. intros lid.
    unfold leases in *. rewrite Ha1 in Hls. destruct Hs2 as [-> | ->]; simpl; by rewrite Hr, Hls. }
  destruct r as [[c|]|e]; simpl; [|by apply wp_ret, (Htail false), (Hsame (platform s1)); right|
    by split; [apply (Hsame (platform s1)); right|]].
  destruct (authorized principal (Lease.owner c)); simpl;
    [|by apply wp_ret, (Htail true), (Hsame (platform s1)); right].
  destruct Hl as [Hc Hid]. rewrite Hls in Hc.
  destruct (Lease.state c); try (by apply wp_fail; split; [apply (Hsame (platform s1)); right|]).
  - apply wp_bind, wp_platform. intros [[]|e] q; simpl; [|by split; [apply (Hsame q); left|]].
    apply wp_bind, (wp_allocator _ _ _ a'); [done|]. unfold wp at 1.
    destruct (Allocator.finish_release c a') as [r a2] eqn:Hf.
    apply finish_release_result in Hf as [Hok2 Hf]; [|done].
    assert (Hfr : deletion_frame id s (set_subids (Some a2) (set_platform q (set_subids (Some a') s1)))).
    { destruct Hf as [[Hf _]|Hf].
      - apply frame_same; [done|]. intros lid. unfold leases. simpl. rewrite Hf, Hr.
        unfold leases in Hls. rewrite Ha1 in Hls. by rewrite Hls.
      - split; [by rewrite <-Hd| |by intros; simpl; rewrite Hd].
        intros lid x Hx Hne. unfold leases. simpl. rewrite (proj2 Hf); [|by intros ->; congruence].
        rewrite Hr. unfold leases in Hls. rewrite Ha1 in Hls. by rewrite Hls. }
    simpl. destruct r as [[]|e]; simpl; [by apply wp_ret, (Htail false)|done].
  - apply wp_bind, wp_platform. intros [[]|e] q; simpl; [|by split; [apply (Hsame q); left|]].
    by apply wp_ret, (Htail false), (Hsame q); left.
Qed.

Lemma wp_delete principal id graceful forced s :
  sound s →
  wp (delete root_path caps principal id graceful forced)
    (fun r s' => deletion_frame id s s' ∧ (r = Ok Deleted → gone id s')) s.
Proof.
  intros Hs. unfold delete. apply wp_ready; [intros _|intros _; split; [by apply frame_same|done]].
  apply wp_bind, wp_disk. unfold wp at 1.
  destruct (Storage.inspect root_path id (disk s)) as [r w] eqn:Hi.
  pose proof (ro_root _ _ _ _ (Storage.read_only_inspect root_path id) Hi) as Hroot. simpl.
  destruct r as [e|e]; simpl; [|split; [by apply frame_same|done]].
  assert (Hvalid : ∀ m, Storage.reported e = Some m →
    wp (valid ← on_ledger_terminating (note_valid_record id m);
        if negb valid then fail Unavailable
        else if negb (authorized principal (Metadata.owner m)) then mret Noop
        else delete_valid root_path caps id m graceful forced)
      (fun r s' => deletion_frame id s s' ∧ (r = Ok Deleted → gone id s')) (set_disk w s)).
  { intros m Hm. apply (Storage.inspect_Ok root_path id (disk s) e w) in Hm as (_ & _ & Hid & _); [|done].
    apply wp_bind. unfold wp at 1.
    destruct (held_locked id Holding (on_ledger_terminating (note_valid_record id m) : Mg bool) _ (set_disk w s)
      (held_acquire (set_disk w s) id (sd_inv _ Hs)) (locked_note caps id ∅ m Hid)) as (p & Hh & b & Hb & ->).
    unfold on_ledger_terminating in *. destruct (note_valid_record id m (ledger (set_disk w s))) as [b' [l ps]].
    simpl in *. injection Hb as ->. destruct b; simpl; [|by split; [apply frame_same|]].
    destruct (authorized principal (Metadata.owner m)); simpl; [|by split; [apply frame_same|]].
    by apply (wp_delete_valid id m). }
  destruct e as [|m|m|reason]; [|by apply Hvalid|by apply Hvalid|].
  - apply inspect_Absent in Hi. eapply wp_mono; [by apply (wp_delete_absent principal id s)|].
    by intros r s' [Hf Hn].
  - apply wp_bind, wp_terminating. intros p. simpl. by split; [apply frame_same|].
Qed.

(** ** Every operation keeps the manager sound *)

Definition delegation_wf (d : Delegation.Delegation) : Prop :=
  Forall Delegation.range_wf (Delegation.uid_ranges d) ∧ Forall Delegation.range_wf (Delegation.gid_ranges d).

(** What the host's [getsubids] answers, and has answered, are ranges of IDs. *)
Record host_ok s : Prop := MkHostOk {
  ho_first : ∀ n name d, Delegation.first_query (host_ids s n) name = Ok d → delegation_wf d;
  ho_second : ∀ n name d, Delegation.second_query (host_ids s n) name = Ok d → delegation_wf d;
  ho_cached : ∀ g d, Delegation.cached (delegation_cache s) = Some (g, d) → delegation_wf d;
}.

Record durable_ok s : Prop := MkDurable {
  du_names : StorageFrame.names_distinct (w_root (disk s));
  du_ok : ∀ a, subids s = Some a → ledger_ok (Allocator.store a);
  du_unique : Allocator.unique (leases s);
  du_host : host_ok s;
}.

(** [stays m Q]: [m] keeps the durable state well formed, and its results are in
    [Q]. *)
Definition stays {E A} (m : M manager E A) (Q : A → Prop) : Prop := ∀ s,
  durable_ok s → durable_ok (m s).2 ∧ ∀ a, (m s).1 = Ok a → Q a.

Abbreviation any := (fun _ => True).

Lemma stays_bind {E A B} (m : M manager E A) (f : A → M manager E B) Q R :
  stays m Q → (∀ a, Q a → stays (f a) R) → stays (m ≫= f) R.
Proof.
  intros Hm Hf s Hs. destruct (Hm s Hs) as [Hs1 HQ]. unfold mbind, M_bind.
  destruct (m s) as [[a|e] s1]; simpl in *; [|by split]. apply Hf; auto.
Qed.

(** The common case: nothing is needed of the intermediate result. *)
Lemma stays_then {E A B} (m : M manager E A) (f : A → M manager E B) R :
  stays m any → (∀ a, stays (f a) R) → stays (m ≫= f) R.
Proof. intros Hm Hf. by eapply stays_bind. Qed.

Lemma stays_ret {E A} (a : A) : stays (mret a : M manager E A) any.
Proof. by intros s Hs. Qed.

Lemma stays_fail {E A} (e : E) : stays (fail e : M manager E A) any.
Proof. by intros s Hs. Qed.

Lemma stays_liftR {E A} (r : result E A) : stays (liftR r) any.
Proof. by intros s Hs. Qed.

Lemma stays_getS {E} : stays (getS : M manager E _) any.
Proof. by intros s Hs. Qed.

Lemma stays_tryM {E E' A} (m : M manager E A) Q : stays m Q → stays (tryM m : M manager E' _) any.
Proof. intros Hm s Hs. destruct (Hm s Hs) as [Hs1 _]. unfold tryM. by destruct (m s). Qed.

(** Changes outside the durable state. *)
Lemma durable_frame s s' :
  w_root (disk s') = w_root (disk s) → subids s' = subids s → host_ids s' = host_ids s →
  delegation_cache s' = delegation_cache s → durable_ok s → durable_ok s'.
Proof.
  intros Hd Ha Hh Hc [Hn Hok Hu [Hf1 Hf2 Hf3]]. unfold leases in *.
  split; unfold leases; rewrite ?Hd, ?Ha; try done. split; by rewrite ?Hh, ?Hc.
Qed.

Lemma stays_platform {A} (m : M L LaunchError A) : stays (on_platform m : Mg A) any.
Proof.
  intros s Hs. unfold on_platform. destruct (m (platform s)). split; [|done]. by apply (durable_frame s).
Qed.

Lemma stays_ledger {A} (f : Ledger P → A * Ledger P) : stays (on_ledger f : Mg A) any.
Proof.
  intros s Hs. unfold on_ledger. destruct (f (ledger s)). split; [|done]. by apply (durable_frame s).
Qed.

Lemma stays_terminating {A} (f : Ledger P → A * (Ledger P * Datatypes.list P)) :
  stays (on_ledger_terminating f : Mg A) any.
Proof.
  intros s Hs. unfold on_ledger_terminating. destruct (f (ledger s)) as [a [l ps]].
  split; [|done]. by apply (durable_frame s).
Qed.

Lemma stays_modify {E} (f : manager → manager) :
  (∀ s, w_root (disk (f s)) = w_root (disk s) ∧ subids (f s) = subids s ∧ host_ids (f s) = host_ids s
     ∧ delegation_cache (f s) = delegation_cache s) →
  stays (modifyS f : M manager E _) any.
Proof. intros Hf s Hs. split; [|done]. destruct (Hf s) as (? & ? & ? & ?). by apply (durable_frame s). Qed.

(** Changes to the disk. *)
Lemma stays_world {E A} (m : M world E A) g :
  StorageDeletion.preserves StorageFrame.names_distinct m →
  stays (fun s => let '(r, w) := m (disk s) in (g r, set_disk w s) : result Error A * _) any.
Proof.
  intros Hm s [Hn Hok Hu [? ? ?]]. specialize (Hm _ Hn). destruct (m (disk s)) as [r w].
  split; [|done]. by split.
Qed.

Lemma stays_try_world {E A} (m : M world E A) :
  StorageDeletion.preserves StorageFrame.names_distinct m →
  stays (fun s => let '(r, w) := m (disk s) in (Ok r, set_disk w s) : result Error (result E A) * _) any.
Proof.
  intros Hm s [Hn Hok Hu [? ? ?]]. specialize (Hm _ Hn). destruct (m (disk s)) as [r w].
  split; [|done]. by split.
Qed.

Lemma stays_disk {A} (m : M world Storage.Error A) :
  StorageDeletion.preserves StorageFrame.names_distinct m → stays (on_disk m : Mg A) any.
Proof. intros Hm. by apply (stays_world m (map_err StorageError)). Qed.

(** Calls of the allocator, by its refinement of the lease protocol. *)
Lemma stays_allocator {A} (m : M (Allocator.SubidAllocator St) Allocator.Error A) (o : AllocatorSafety.op) :
  (∀ a, (m a).2 = AllocatorSafety.run o a) → AllocatorSafety.valid_op o →
  stays (on_allocator m : Mg A) any.
Proof.
  intros Hm Ho s Hs. pose proof Hs as [Hn Hok Hu [? ? ?]]. unfold on_allocator. destruct (subids s) as [a|] eqn:Ha; [|by split].
  specialize (Hm a). destruct (m a) as [r a']. simpl in Hm. subst a'.
  destruct (AllocatorSafety.run_refines o a Ho (Hok a eq_refl)) as [Hok' Hr].
  split; [|done]. unfold leases in Hu. rewrite Ha in Hu. split; try done; simpl.
  - by intros ? [= <-].
  - by eapply Allocator.rtc_unique.
Qed.

Lemma publish_wf g d c g' d' :
  delegation_wf d → (∀ g d, Delegation.cached c = Some (g, d) → delegation_wf d) →
  Delegation.cached (Delegation.publish g d c) = Some (g', d') → delegation_wf d'.
Proof.
  intros Hd Hc. unfold Delegation.publish.
  destruct (Delegation.cached c) as [[g0 d0]|] eqn:He; [case_bool_decide|]; simpl;
    [rewrite He; apply Hc|by intros [= <- <-]..].
Qed.

Lemma query_wf s r c :
  host_ok s → Delegation.query (host_ids s (queries s)) (delegation_cache s) = (r, c) →
  (∀ d, r = Ok d → delegation_wf d) ∧ ∀ g d, Delegation.cached c = Some (g, d) → delegation_wf d.
Proof.
  intros [Hf1 Hf2 Hf3] Hq. unfold Delegation.query, Delegation.query_with_generation in Hq.
  assert (Hfresh : Delegation.query_fresh (host_ids s (queries s)) (delegation_cache s) = (r, c) →
    (∀ d, r = Ok d → delegation_wf d) ∧ ∀ g d, Delegation.cached c = Some (g, d) → delegation_wf d).
  { unfold Delegation.query_fresh. intros Hf.
    destruct (Delegation.current_account_name _ _) as [rn c1] eqn:Hn.
    assert (Hc1 : ∀ g d, Delegation.cached c1 = Some (g, d) → delegation_wf d).
    { unfold Delegation.current_account_name in Hn.
      destruct (Delegation.account (delegation_cache s)); simplify_eq; exact Hf3. }
    destruct rn as [name|]; [|by simplify_eq].
    destruct (Delegation.first_query _ name) as [d|] eqn:Hd; [|by simplify_eq].
    destruct (negb _); [|simplify_eq; split; [by intros ? [= <-]; eapply Hf1|];
      intros g0 d0; apply publish_wf; [by eapply Hf1|exact Hc1]].
    destruct (Delegation.second_query _ name) as [d'|] eqn:Hd'; [|by simplify_eq].
    destruct (negb _); simplify_eq; [done|]. split; [by intros ? [= <-]; eapply Hf2|].
    intros g0 d0. apply publish_wf; [by eapply Hf2|exact Hc1]. }
  destruct (Delegation.cached _) as [[g d]|] eqn:Hc; [|by apply Hfresh].
  case_bool_decide; [|by apply Hfresh]. simplify_eq. split; [|rewrite Hc; done].
  intros ? [= <-]. by eapply Hf3.
Qed.

Lemma stays_query : stays (query_delegation : Mg _) delegation_wf.
Proof.
  intros s [Hn Hok Hu Hh]. unfold query_delegation. destruct (Delegation.query _ _) as [r c] eqn:Hq.
  destruct (query_wf s r c Hh Hq) as [Hr Hc]. simpl. split.
  - destruct Hh. by split.
  - intros d Hd. apply map_err_Ok in Hd. auto.
Qed.

Lemma stays_lease_for id : stays (on_allocator (Allocator.lease_for id) : Mg _) any.
Proof. by apply (stays_allocator _ (AllocatorSafety.OpLeaseFor id)). Qed.

Lemma stays_begin_release c : stays (on_allocator (Allocator.begin_release c) : Mg _) any.
Proof. by apply (stays_allocator _ (AllocatorSafety.OpBeginRelease c)). Qed.

Lemma stays_finish_release c : stays (on_allocator (Allocator.finish_release c) : Mg _) any.
Proof. by apply (stays_allocator _ (AllocatorSafety.OpFinishRelease c)). Qed.

Lemma stays_activate c : stays (on_allocator (Allocator.activate c) : Mg _) any.
Proof. by apply (stays_allocator _ (AllocatorSafety.OpActivate c)). Qed.

Lemma stays_quarantine c reason :
  str_all ascii_char reason = true → stays (on_allocator (Allocator.quarantine c reason) : Mg _) any.
Proof. by apply (stays_allocator _ (AllocatorSafety.OpQuarantine c reason)). Qed.

Lemma stays_read_only {A} (m : M world Storage.Error A) : read_only m → stays (on_disk m : Mg A) any.
Proof. intros Hm. by apply stays_disk, StorageDeletion.preserves_read_only. Qed.

Lemma stays_inspect id : stays (on_disk (Storage.inspect root_path id) : Mg _) any.
Proof. apply stays_read_only, Storage.read_only_inspect. Qed.

Lemma stays_write m : stays (on_disk (Storage.write_metadata root_path m) : Mg _) any.
Proof. by eapply stays_disk, StorageFrame.local_write_metadata; [apply StorageFrame.names_local|]. Qed.

Lemma stays_removal id : stays (on_disk (Storage.remove_tree root_path id) : Mg _) any.
Proof. apply stays_disk, StorageFrame.local_remove_tree, StorageFrame.names_local. Qed.

Lemma stays_remove_record id : stays (remove_record id : Mg _) any.
Proof. apply stays_terminating. Qed.

Create HintDb stays.
#[local] Hint Resolve stays_ret stays_fail stays_liftR stays_getS stays_tryM stays_platform stays_ledger
  stays_terminating stays_lease_for stays_begin_release stays_finish_release stays_activate
  stays_inspect stays_write stays_removal stays_remove_record : stays.
#[local] Hint Extern 2 (stays (on_allocator (Allocator.quarantine _ _)) _) =>
  apply stays_quarantine; vm_compute; reflexivity : stays.

Ltac stays_tac :=
  repeat first
    [ progress intros
    | solve [eauto with stays]
    | apply stays_then
    | eapply stays_tryM
    | case_match ].

Lemma stays_ensure_ready : stays (ensure_ready : Mg _) any.
Proof. unfold ensure_ready. stays_tac. Qed.
#[local] Hint Resolve stays_ensure_ready : stays.

Lemma stays_reserve_identity token id own :
  0 <= token → Id.grammar id → Fingerprint.parse own = Ok own →
  stays (reserve_identity token id own : Mg _) any.
Proof.
  intros Ht Hi Ho. unfold reserve_identity. apply stays_then; [apply stays_getS|]. intros s.
  case_match; [|apply stays_ret]. eapply stays_bind; [apply stays_query|]. intros d [Hu Hg].
  apply stays_then; [|intros; apply stays_ret].
  by apply (stays_allocator _ (AllocatorSafety.OpClaim token id own d)).
Qed.

Lemma stays_identity_for m : stays (identity_for m : Mg _) any.
Proof.
  unfold identity_for. apply stays_then; [apply stays_getS|]. intros s.
  case_match; [|apply stays_ret]. apply stays_then; [auto with stays|]. intros found.
  apply stays_then; [auto with stays|]. intros record. case_match; [apply stays_fail|].
  eapply stays_bind; [apply stays_query|]. intros d _. stays_tac.
Qed.

Lemma stays_release_identity c : stays (release_reserved_identity c : Mg _) any.
Proof.
  unfold release_reserved_identity. apply stays_then; [apply stays_getS|]. intros s.
  case_match; [|apply stays_ret]. apply stays_then; [|stays_tac]. apply (stays_tryM _ any).
  intros s' Hs'. unfold on_allocator. destruct (subids s') as [a0|] eqn:Ha; [|by split].
  pose proof (stays_begin_release c s' Hs') as [Hb _]. unfold on_allocator in Hb. rewrite Ha in Hb.
  unfold mbind, M_bind. destruct (Allocator.begin_release c a0) as [[[]|e] a1]; [|by split].
  simpl in Hb. pose proof (stays_finish_release c _ Hb) as [Hf _]. unfold on_allocator in Hf. simpl in Hf.
  destruct (Allocator.finish_release c a1). simpl in *. split; [|done].
  by apply (durable_frame _ _ eq_refl eq_refl eq_refl eq_refl) in Hf.
Qed.

Lemma stays_activate_identity c : stays (activate_identity c : Mg _) any.
Proof. unfold activate_identity. stays_tac. Qed.
#[local] Hint Resolve stays_identity_for stays_release_identity stays_activate_identity : stays.

Lemma stays_create id own ri : stays (create_claimed root_path id own ri : Mg _) any.
Proof.
  unfold create_claimed. apply stays_then.
  - apply stays_try_world, StorageFrame.local_create, StorageFrame.names_local.
  - intros [m|e]; stays_tac.
Qed.
#[local] Hint Resolve stays_create : stays.

(** The types [SandboxId] and [KeyFingerprint] hold only parsed values, and a
    token is a random number. *)
Definition claimable token principal id : Prop :=
  0 <= token ∧ Id.grammar id ∧ Fingerprint.parse (fingerprint principal) = Ok (fingerprint principal).

Lemma stays_claim token principal id :
  claimable token principal id → stays (claim root_path caps token principal id : Mg _) any.
Proof.
  intros (Ht & Hi & Hf). unfold claim. apply stays_then; [auto with stays|]. intros _.
  apply stays_then; [auto with stays|]. intros e. destruct e; [unfold claim_absent|stays_tac..].
  apply stays_then; [auto with stays|]. intros s. case_match; [apply stays_fail|].
  apply stays_then; [auto with stays|]. intros r. apply stays_then; [auto with stays|]. intros _.
  apply stays_then; [by eapply stays_tryM, stays_reserve_identity|]. stays_tac.
Qed.

Lemma stays_delete principal id graceful forced :
  stays (delete root_path caps principal id graceful forced : Mg _) any.
Proof.
  unfold delete. apply stays_then; [auto with stays|]. intros _.
  apply stays_then; [auto with stays|]. intros e.
  assert (Hvalid : ∀ m, stays (delete_valid root_path caps id m graceful forced : Mg _) any).
  { intros m. unfold delete_valid. apply stays_then; [auto with stays|]. intros s.
    apply stays_then; [stays_tac|]. intros lease. apply stays_then; [stays_tac|]. intros _.
    apply stays_then; [stays_tac|]. intros _. apply stays_then.
    { intros s' Hs'. destruct (cancel_frame id graceful forced s') as (Hd & Ha & Hh & Hc).
      destruct (cancel_runtime caps id graceful forced s') as [b s2]. split; [|done]. simpl in *.
      apply (durable_frame s'); [by rewrite Hd|done..]. }
    intros clean. case_match; [apply stays_fail|]. apply stays_then; [auto with stays|]. intros _.
    apply stays_then; [|stays_tac].
    apply (stays_world _ (map_err Cleanup)), StorageFrame.local_remove_tree, StorageFrame.names_local. }
  destruct e; [unfold delete_absent|..]; stays_tac.
Qed.

Lemma untouched_durable s s' : untouched s s' → durable_ok s → durable_ok s'.
Proof. intros (Hd & Ha & Hh & Hc). apply durable_frame; [by rewrite Hd|done..]. Qed.

Lemma clear_untouched lease s : untouched s (clear_runtime_of lease s).
Proof.
  unfold clear_runtime_of. case_match; [|done]. by destruct (wait_for_cleanup _ _ _).
Qed.

Lemma stays_launch h op pty environment :
  stays (launch_handle_with_environment root_path caps h op pty environment : Mg _) any.
Proof.
  unfold launch_handle_with_environment.
  assert (Hclear : ∀ lease, stays (modifyS (clear_runtime_of lease) : Mg unit) any)
    by (intros lease s Hs; split; [|done]; eapply untouched_durable; [apply clear_untouched|done]).
  do 3 (apply stays_then; [eauto with stays|]; intros ?). apply stays_then; [eauto with stays|].
  intros [control|e]; [|stays_tac]. apply stays_then.
  { intros s [Hn Hok Hu [? ? ?]].
    destruct (Storage.inspect root_path (lease_sandbox _) (disk s)) as [durable w] eqn:Hi.
    apply (ro_root _ _ _ _ (Storage.read_only_inspect _ _)) in Hi.
    destruct (finish_launch _ _ _ _). split; [|done]. split; try done. simpl. by rewrite Hi. }
  intros accepted. case_match; [|apply stays_ret]. apply stays_then; [|stays_tac].
  intros s Hs. split; [|done]. apply (untouched_durable s); [|done]. simpl. unfold terminate_and_wait.
  by destruct (wait_for_cleanup _ _ _) as [[] p].
Qed.

Lemma stays_reconcile_one id : stays (reconcile_deleting_one root_path id : Mg _) any.
Proof.
  unfold reconcile_deleting_one, resume_release. stays_tac.
Qed.

Lemma stays_deleting ids : stays (reconcile_deleting_loop root_path ids : Mg _) any.
Proof.
  induction ids as [|id ids IH]; simpl; [apply stays_ret|].
  apply stays_then; [apply stays_reconcile_one|done].
Qed.

Lemma tokens_untouched tokens ticks : ∀ s, untouched s (wait_for_runtime_tokens caps tokens ticks s).2.
Proof.
  induction ticks as [|t ticks IH]; intros s; simpl; destruct (scan_tokens tokens (ledger s)) as [pending launching].
  { by destruct pending, launching. }
  destruct pending as [|b pending]; [destruct launching; [|done]|].
  - destruct (timed_out t && true); [done|]. eapply untouched_trans; [|apply IH]. done.
  - destruct (wait_each _ _ _) as [completed p]. destruct (existsb _ _); [done|].
    eapply untouched_trans; [|apply IH]. done.
Qed.

Lemma shutdown_untouched graceful forced s : untouched s (shutdown_runtime caps graceful forced s).
Proof.
  unfold shutdown_runtime. destruct (shutdown_marks _) as [ps l].
  match goal with |- context [wait_for_runtime_tokens caps ?ts graceful ?s0] =>
    pose proof (tokens_untouched ts graceful s0) as Hw end.
  destruct (wait_for_runtime_tokens caps _ graceful _) as [[] s1]; simpl in *; [done|].
  match goal with |- context [wait_for_runtime_tokens caps ?ts forced ?s0] =>
    pose proof (tokens_untouched ts forced s0) as Hw2 end.
  eapply untouched_trans; [exact Hw|]. exact Hw2.
Qed.

(** Operations with the arguments the source's types allow.  The reports of
    corrupt entries that startup writes into the ledger are ASCII. *)
Definition valid_operation (o : @operation Pty P L) s : Prop :=
  match o with
  | OpClaim token principal id | OpClaimAndLaunch token principal id _ _ _ => claimable token principal id
  | OpStartup envs => ∀ id v, lookup_view root_path envs (disk s) id = Ok v → Allocator.ascii_view v
  | _ => True
  end.

Lemma reconcile_leases_durable envs s :
  (∀ id v, lookup_view root_path envs (disk s) id = Ok v → Allocator.ascii_view v) →
  durable_ok s → durable_ok (reconcile_subid_leases root_path envs true s).2.
Proof.
  intros Hv Hs. unfold reconcile_subid_leases. rewrite (bind_run _ _ s s s) by done.
  case_match; [|done].
  assert (Hm : stays (_ ← on_allocator (Allocator.reconcile (lookup_view root_path envs (disk s)) true);
    mret tt : Mg unit) any); [|by apply Hm].
  apply stays_then; [|intros; apply stays_ret].
  by apply (stays_allocator _ (AllocatorSafety.OpReconcile (lookup_view root_path envs (disk s)) true)).
Qed.

Lemma startup_durable envs s :
  (∀ id v, lookup_view root_path envs (disk s) id = Ok v → Allocator.ascii_view v) →
  durable_ok s → durable_ok (reconcile_startup root_path envs s).2.
Proof.
  intros Hv Hs. unfold reconcile_startup.
  destruct (reconcile_startup_resources (platform s)) as [swept q] eqn:Hsw.
  rewrite (bind_run _ _ s (map_err Launch swept) (set_platform q s))
    by (unfold tryM, on_platform; by rewrite Hsw).
  assert (Hs1 : durable_ok (set_platform q s)) by by apply (durable_frame s). case_match; [done|].
  pose proof (reconcile_leases_durable envs (set_platform q s) Hv Hs1) as Hs2.
  destruct (reconcile_subid_leases root_path envs true (set_platform q s)) as [r s2] eqn:Hr.
  rewrite (bind_run _ _ _ r s2) by (unfold tryM; by rewrite Hr). case_match; [done|].
  assert (Hm : stays (_ ← reconcile_deleting root_path; modifyS (set_ready true) : Mg unit) any);
    [|by apply Hm].
  apply stays_then; [|by intros; apply stays_modify].
  unfold reconcile_deleting. apply stays_then; [auto with stays|]. intros s0. apply stays_deleting.
Qed.

Lemma operation_durable o s :
  valid_operation o s → durable_ok s → durable_ok (run_operation root_path caps o s).
Proof.
  intros Hv Hs. destruct o; simpl in *.
  - by apply stays_claim.
  - assert (Hl : stays (Manager.list root_path principal : Mg _) any); [|by apply Hl].
    unfold Manager.list. apply stays_then; [auto with stays|]. intros _.
    apply stays_then; [|stays_tac]. apply stays_read_only, Storage.read_only_scan.
  - by apply stays_delete.
  - by apply stays_launch.
  - assert (Hl : stays (launch_with_environment root_path caps token principal id op pty environment : Mg _) any);
      [|by apply Hl].
    unfold launch_with_environment. apply stays_then; [auto with stays|]. intros s0.
    case_match; [apply stays_fail|]. apply stays_then; [by apply stays_claim|]. intros h. apply stays_launch.
  - eapply untouched_durable; [apply clear_untouched|done].
  - by apply startup_durable.
  - eapply untouched_durable; [apply shutdown_untouched|done].
  - by apply (untouched_durable s).
Qed.

Definition serves s s' : Prop :=
  ∃ o, has_room root_path caps o s ∧ valid_operation o s ∧ s' = run_operation root_path caps o s.

Lemma served_sound s s' :
  opened root_path s → durable_ok s → rtc serves s s' → sound s'.
Proof.
  intros Ho Hd Hr. assert (Hd' : durable_ok s').
  { clear Ho. induction Hr as [|s1 s2 s3 (o & _ & Hv & ->) _ IH]; [done|]. apply IH. by apply operation_durable. }
  apply opened_loaded in Ho as (scan & Hw & Hl).
  assert (Hst : steps caps (shared_of s ∅) (shared_of s' ∅)).
  { apply (operates_steps root_path). eapply rtc_subrel; [|exact Hr]. intros s1 s2 (o & Hroom & _ & ->). by exists o. }
  destruct Hd' as [? ? ? _]. split; try done. rewrite Hl in Hst. by eapply reachable_inv.
Qed.

(** C3: the manager's bookkeeping survives its operations.  A manager has read its
    registry, the registry root's and the lease ledger's names are distinct, and no lease
    shares an ID; what [getsubids] answers are ranges of IDs.  It then serves any sequence
    of claims, listings, deletions, launches, process ends, start-ups and shutdowns, one
    after the other, each of which may fail at any of its calls, with parsed identifiers
    and ASCII reports of corrupt entries, while during the waits of deletions and
    shutdowns other threads begin, finish and drop launches.  After each of them: the
    registry root's names are distinct; no subordinate UID, GID or sandbox is in two
    leases of the ledger; no place is still reserved for a sandbox under creation, and
    every owner's counter is exactly the number of sandboxes it owns, so that whichever
    call of a claim failed gave back what it had taken; and no sandbox has more live
    launches than the configured bound. *)
Theorem manager_stays_sound s s' :
  opened root_path s → durable_ok s → rtc serves s s' →
  StorageFrame.names_distinct (w_root (disk s')) ∧
  Allocator.unique (leases s') ∧
  reserved_sandboxes (ledger s') = 0 ∧
  (∀ o, default 0 (owner_counts (ledger s') !! o) = owned o (records (ledger s'))) ∧
  (∀ id, Z.of_nat (size (index_of (ledger s') id)) <= Z.max 0 (max_concurrent_launches_per_sandbox caps)).
Proof.
  intros Ho Hd Hr. destruct (served_sound s s' Ho Hd Hr) as [Hn [Hb Hg] _ Hu]. simpl in Hb.
  split_and!; [done|done|apply (bk_reserved _ _ Hb)| |apply (rg_launches _ _ Hg)].
  intros o. rewrite (bk_counts _ _ Hb). unfold inflight. rewrite Z.add_comm. done.
Qed.

(** C2: a deletion frees what it frees in order.  Whatever it reports, the trees
    of other sandboxes and their leases are as before, and a lease that is gone
    is one whose sandbox directory is gone.  If it reports success, the directory
    is gone, the ledger has no record and no runtime entry of the sandbox, and no
    lease names it unless it was quarantined. *)
Theorem deletion_frees_in_order principal id graceful forced s r s' :
  sound s → delete root_path caps principal id graceful forced s = (r, s') →
  deletion_frame id s s' ∧ (r = Ok Deleted → gone id s').
Proof. intros Hs Hd. exact (wp_run _ _ _ (wp_delete principal id graceful forced s Hs) _ _ Hd). Qed.
End deletion.
End safety.

(** ** A run *)

#[local] Existing Instance sample_host.

Lemma sample_delegation_wf : delegation_wf sample_delegation.
Proof.
  split; (apply Forall_cons; split; [unfold Delegation.range_wf, Delegation.end_; simpl; lia|]);
    apply Forall_nil; exact I.
Qed.

(** A daemon that is ready to serve. *)
Definition sample_serving : @SandboxManager world nat nat :=
  (load_registry "/r" (set_ready true sample_boot)).2.

Lemma serving_is_opened : opened "/r" sample_serving.
Proof.
  exists (set_ready true sample_boot). split; [reflexivity|]. split; [reflexivity|].
  apply unit_run. vm_compute. reflexivity.
Qed.

Lemma serving_durable : durable_ok (St := world) sample_serving.
Proof.
  assert (Hv : AllocatorSafety.valid_op (AllocatorSafety.OpClaim 1 "dev" (Metadata.owner Metadata.sample) sample_delegation)).
  { split_and!; [lia|exact AllocatorSafety.dev_grammar|reflexivity|apply sample_delegation_wf..]. }
  destruct (AllocatorSafety.run_refines _ (Allocator.new empty_leases) Hv) as [Hok Hr];
    [apply NoDup_nil; exact I|].
  assert (Hsame : w_root (disk sample_serving) = w_root (Storage.registry [])
    ∧ subids sample_serving = Some sample_allocator ∧ host_ids sample_serving = (fun _ => sample_ids)
    ∧ delegation_cache sample_serving = Delegation.empty_cache).
  { unfold sample_serving, load_registry, mbind, M_bind, on_disk, on_ledger_terminating.
    destruct (Storage.scan "/r" (disk (set_ready true sample_boot))) as [r w] eqn:Hs.
    apply (ro_root _ _ _ _ (Storage.read_only_scan "/r")) in Hs. destruct r as [sc|e]; simpl; [|done].
    destruct (reconcile_scan sc empty_ledger). simpl. by rewrite Hs. }
  destruct Hsame as (Hroot & Hsub & Hids & Hcache). split.
  - rewrite Hroot. apply (bool_decide_unpack (NoDup ["dev"; "web"])). vm_compute. exact I.
  - rewrite Hsub. intros a [= <-]. exact Hok.
  - unfold leases. rewrite Hsub. eapply Allocator.rtc_unique; [|exact Hr].
    intros id1 id2 r1 r2 Hx. discriminate Hx.
  - split; rewrite ?Hids, ?Hcache; [intros n name d [= <-]; apply sample_delegation_wf..|].
    intros g d Hd. discriminate Hd.
Qed.

Definition new_sandbox : @operation unit nat nat := OpClaim 2 sample_owner "new".
Definition sample_new : @SandboxManager world nat nat := run_operation "/r" sample_caps new_sandbox sample_serving.

Lemma new_grammar : Id.grammar "new".
Proof. apply (Id.parse_ok "new" "new"). reflexivity. Qed.

Lemma new_claimable : claimable 2 sample_owner "new".
Proof. split; [lia|]. split; [exact new_grammar|reflexivity]. Qed.

Lemma serving_run : rtc (serves "/r" sample_caps) sample_serving sample_new.
Proof. apply rtc_once. exists new_sandbox. split; [exact I|]. split; [exact new_claimable|reflexivity]. Qed.

Lemma manager_stays_sound_witness :
  is_ok (claim "/r" sample_caps 2 sample_owner "new" sample_serving).1 = true
  ∧ Allocator.unique (leases sample_new).
Proof.
  split; [vm_compute; reflexivity|].
  destruct (manager_stays_sound "/r" sample_caps sample_serving sample_new serving_is_opened
    serving_durable serving_run) as (_ & Hu & _).
  exact Hu.
Defined.

Lemma strangers_change_nothing_witness :
  is_ok (claim "/r" sample_caps 2 sample_stranger "dev" sample_serving).1 = false
  ∧ durable_same sample_serving (delete "/r" sample_caps sample_stranger "dev" [] [] sample_serving).2.
Proof.
  destruct (Storage.inspect "/r" "dev" (disk sample_serving)) as [r w] eqn:Hi.
  assert (Hr : to_option r = Some (Storage.Active Storage.dev)).
  { replace r with (Storage.inspect "/r" "dev" (disk sample_serving)).1 by (rewrite Hi; reflexivity).
    vm_compute. reflexivity. }
  destruct r as [e|]; [|discriminate Hr]. injection Hr as ->.
  destruct (strangers_change_nothing "/r" sample_caps sample_stranger "dev" sample_serving _ Storage.dev w
    Hi eq_refl) as [Hc Hd]; [vm_compute; reflexivity|].
  split; [vm_compute; reflexivity|].
  destruct (delete "/r" sample_caps sample_stranger "dev" [] [] sample_serving) as [r s'] eqn:Hdel.
  destruct (Hd [] [] r s' Hdel) as [_ Hsame]. exact Hsame.
Defined.

Lemma deletion_frees_in_order_witness :
  to_option (delete "/r" sample_caps sample_owner "dev" [] [] sample_new).1 = Some Deleted
  ∧ gone "dev" (delete "/r" sample_caps sample_owner "dev" [] [] sample_new).2.
Proof.
  assert (Hok : to_option (delete "/r" sample_caps sample_owner "dev" [] [] sample_new).1 = Some Deleted)
    by (vm_compute; reflexivity).
  split; [exact Hok|].
  destruct (delete "/r" sample_caps sample_owner "dev" [] [] sample_new) as [r s'] eqn:Hd.
  destruct (deletion_frees_in_order "/r" sample_caps sample_owner "dev" [] [] sample_new r s') as [_ Hg].
  - exact (served_sound "/r" sample_caps sample_serving sample_new serving_is_opened serving_durable serving_run).
  - exact Hd.
  - apply Hg. destruct r; [|discriminate Hok]. injection Hok as ->. reflexivity.
Defined.
End ManagerSafety.
