(* ===== verification/ManagerClaims.v ===== *)
(** * Claiming, listing and starting up

    What [claim] and [list] return, and that a daemon whose startup failed serves
    nobody. *)

From Stdlib Require Import Sorted.
From stdpp Require Import relations.
From S2P Require Import Prelude BTree Text Toml Idents Metadata Delegation FileSystem Storage StorageDeletion StorageFrame StorageScan LeaseRecord LedgerSpec LeaseStore Allocator AllocatorSafety RuntimeLedger RuntimeSafety Manager ManagerProtocol ManagerSafety.

Module ManagerClaims.
Import RuntimeLedger RuntimeSafety Manager ManagerProtocol ManagerSafety.

(** ** Sorted lists of names *)

Lemma string_leb_le a b : string_leb a b = true ↔ kle a b.
Proof. unfold string_leb, kle. destruct (kcompare a b); split; intros; congruence. Qed.

Lemma kle_trans (a b c : string) : kle a b → kle b c → kle a c.
Proof. rewrite !kle_lt_or_eq. intros [Hab| ->] [Hbc| ->]; eauto using klt_trans. Qed.

Lemma insert_names_sorted a l :
  StronglySorted kle l → StronglySorted kle (insert_by string_leb a l).
Proof.
  induction 1 as [|b l Hl IH Hb]; simpl; [repeat constructor|].
  destruct (string_leb a b) eqn:Hab.
  - apply string_leb_le in Hab. repeat constructor; try done.
    eapply List.Forall_impl; [|exact Hb]. intros x. by apply kle_trans.
  - constructor; [done|]. apply List.Forall_forall. intros x Hx%list_elem_of_In%elem_insert_by.
    destruct Hx as [->|Hx].
    + unfold string_leb in Hab. destruct (kcompare a b) eqn:Hc; try done.
      apply kle_lt_or_eq. left. by apply kcompare_gt.
    + rewrite List.Forall_forall in Hb. apply Hb. by apply list_elem_of_In.
Qed.

Lemma sort_names_sorted l : StronglySorted kle (sort_by string_leb l).
Proof. unfold sort_by. induction l; simpl; [constructor|by apply insert_names_sorted]. Qed.

Lemma elem_dedup l x : x ∈ dedup l ↔ x ∈ l.
Proof.
  induction l as [|a l IH]; [done|]. destruct l as [|b l]; [done|].
  change (dedup (a :: b :: l)) with (if bool_decide (a = b) then dedup (b :: l) else a :: dedup (b :: l)).
  case_bool_decide as He; [subst; rewrite IH|]; rewrite !elem_of_cons in *; [naive_solver|].
  rewrite IH. naive_solver.
Qed.

(** Without its duplicates, a sorted list is strictly increasing. *)
Lemma dedup_strict l : StronglySorted kle l → StronglySorted klt (dedup l).
Proof.
  induction 1 as [|a l Hl IH Ha]; [constructor|]. destruct l as [|b l]; [repeat constructor|].
  change (dedup (a :: b :: l)) with (if bool_decide (a = b) then dedup (b :: l) else a :: dedup (b :: l)).
  case_bool_decide as He; [done|]. constructor; [done|].
  apply List.Forall_forall. intros x Hx%list_elem_of_In. rewrite elem_dedup in Hx.
  apply List.Forall_cons_iff in Ha as [Hab Ha].
  assert (Hlt : klt a b) by (apply kle_lt_or_eq in Hab as [?|?]; done).
  apply elem_of_cons in Hx as [->|Hx]; [done|].
  apply StronglySorted_inv in Hl as [_ Hb]. rewrite List.Forall_forall in Hb.
  apply list_elem_of_In, Hb, kle_lt_or_eq in Hx as [Hx|<-]; [by eapply klt_trans|done].
Qed.

Section claims.
Context `{TomlCrate} `{UnicodeTables} `{Host}.
Context {St : Type} `{!LeaseLedger St}.
Context {Pty P L : Type} `{!ProcessLauncher Pty P L}.
Context (root_path : string) (caps : Caps).

Abbreviation manager := (@SandboxManager St P L).
Abbreviation Mg := (M manager Error).
Implicit Types s : manager.

(** ** Listing *)

(** The entries a principal may see. *)
Definition visible principal s id : Prop :=
  id ∉ blocked (ledger s) ∧ ∃ m, Storage.entry_valid (w_root (disk s)) id m
    ∧ Metadata.state m = Metadata.Active ∧ authorized principal (Metadata.owner m) = true.

Lemma valid_name t id m :
  Storage.entry_valid t id m → utf8_valid id = true ∧ is_ok (Id.parse id) = true
  ∧ ∀ mode u es, t = Some (NDir mode u es) → id ∈ es.*1.
Proof.
  intros [(n & Hn & _) _ (mode & data & _ & _ & Hdec) _].
  apply Metadata.decode_wf in Hdec as [[Hg _] Hid]. rewrite Hid in Hg. split_and!.
  - apply utf8_valid_ascii, (str_all_impl _ _ _ plain_ascii). by apply Id.grammar_plain.
  - by rewrite Id.parse_self.
  - intros mode' u es ->. simpl in Hn. destruct (ent_get id es) as [n'|] eqn:He; [|done].
    apply ent_get_elem in He. apply list_elem_of_fmap. by exists (id, n').
Qed.

(** The listing is exact.  It is strictly increasing, so without
    duplicates; it names exactly the sandboxes that are valid and [Active] on
    disk, not blocked in the ledger, and owned by the principal or any if it is
    an administrator; and it changes nothing durable. *)
Theorem list_is_exact principal s ids s' :
  Manager.list root_path principal s = (Ok ids, s') → StorageScan.plain_modes (w_root (disk s)) →
  StronglySorted klt ids ∧ (∀ id, id ∈ ids ↔ visible principal s id) ∧ durable_same s s'.
Proof.
  intros Hl Hp. unfold Manager.list in Hl. apply bind_Ok in Hl as ([] & s0 & Hr & Hl).
  assert (s0 = s) as ->.
  { unfold ensure_ready in Hr. rewrite (bind_run _ _ _ s s) in Hr by done.
    destruct (ready s); unfold_monad; by simplify_eq. }
  apply bind_Ok in Hl as (scan & s1 & Hs & Hl). unfold on_disk in Hs.
  destruct (Storage.scan root_path (disk s)) as [r w] eqn:Hsc.
  pose proof (ro_root _ _ _ _ (Storage.read_only_scan root_path) Hsc) as Hroot.
  injection Hs as Hr0 <-. apply map_err_Ok in Hr0 as ->.
  rewrite (bind_run _ _ _ (set_disk w s) (set_disk w s)) in Hl by done. inv_run.
  split; [apply dedup_strict, sort_names_sorted|]. split; [|done].
  destruct (StorageScan.scan_Ok _ _ _ _ Hsc) as (mode & u & es & Hes & Hnames & Hent).
  intros id. rewrite elem_dedup, elem_sort_by, list_elem_of_omap. simpl. split.
  - intros ([id' e] & Hin & Hsome). unfold listed in Hsome. simpl in Hsome.
    destruct e as [|m|m|]; try done. destruct (negb _ && _) eqn:Hb; simplify_eq.
    apply andb_true_iff in Hb as [Hb Hau]. apply negb_true_iff, bool_decide_eq_false in Hb.
    destruct (Hent _ _ Hin) as [Hv _]. destruct (Hv m eq_refl) as (Hv1 & _ & Hst).
    split; [done|]. exists m. split_and!; [done| |done]. by destruct (Metadata.state m).
  - intros (Hb & m & Hv & Hst & Hau).
    destruct (valid_name _ _ _ Hv) as (Hu & Hid & Hmem). specialize (Hmem _ _ _ Hes).
    assert (Hin : id ∈ (Storage.entries_found scan).*1)
      by (rewrite Hnames; by apply list_elem_of_filter).
    apply list_elem_of_fmap in Hin as ([id' e] & -> & Hin). exists (id', e). split; [done|].
    destruct (Hent _ _ Hin) as [Hs1 Hs2]. pose proof (Hs2 Hp m Hv) as Hrep.
    destruct (Hs1 m Hrep) as (_ & _ & ->). rewrite Hst. unfold listed. simpl.
    by rewrite bool_decide_eq_false_2, Hau.
Qed.

(** ** Starting up *)

Lemma total_deleting ids : total (reconcile_deleting_loop root_path ids : Mg _).
Proof.
  induction ids as [|id ids IH]; simpl; [apply total_ret|]. apply total_bind; [|done].
  unfold reconcile_deleting_one, resume_release.
  repeat first [apply total_ret|apply total_getS|apply total_tryM|apply total_bind; [|intros ?]|case_match].
  all: intros s; unfold remove_record, on_ledger_terminating.
  all: destruct (remove_record_from_ledger id (ledger s)); by eexists.
Qed.

(** The result of the lease reconciliation that follows a successful sweep. *)
Definition leases_reconciled envs s : bool :=
  is_ok (reconcile_subid_leases root_path envs true
    (set_platform (reconcile_startup_resources (platform s)).2 s)).1.

(** Startup fails closed.  A daemon becomes ready exactly if the sweep of
    leftover process domains and the reconciliation of the leases both succeed.
    A failed sweep changes nothing but the platform; and while the daemon is not
    ready the registry and the ledger are untouched, and every claim, listing and
    deletion answers [Unavailable] and changes nothing at all. *)
Theorem startup_fails_closed envs s :
  ready s = false →
  let s' := (reconcile_startup root_path envs s).2 in
  let swept := is_ok (reconcile_startup_resources (platform s)).1 in
  (ready s' = true ↔ swept = true ∧ leases_reconciled envs s = true)
  ∧ (swept = false → s' = set_platform (platform s') s)
  ∧ (ready s' = false → disk s' = disk s ∧ ledger s' = ledger s
     ∧ (∀ token principal id, claim root_path caps token principal id s' = (Err Unavailable, s'))
     ∧ (∀ principal, Manager.list root_path principal s' = (Err Unavailable, s'))
     ∧ ∀ principal id graceful forced,
         delete root_path caps principal id graceful forced s' = (Err Unavailable, s')).
Proof.
  intros Hn. unfold leases_reconciled.
  assert (Hclosed : ∀ s', ready s' = false →
     (∀ token principal id, claim root_path caps token principal id s' = (Err Unavailable, s'))
     ∧ (∀ principal, Manager.list root_path principal s' = (Err Unavailable, s'))
     ∧ ∀ principal id graceful forced,
         delete root_path caps principal id graceful forced s' = (Err Unavailable, s')).
  { intros s' Hr. unfold claim, Manager.list, delete, ensure_ready, mbind, M_bind, getS. by rewrite Hr. }
  unfold reconcile_startup. destruct (reconcile_startup_resources (platform s)) as [swept q] eqn:Hsw.
  rewrite (bind_run _ _ s (map_err Launch swept) (set_platform q s))
    by (unfold tryM, on_platform; by rewrite Hsw).
  rewrite Allocator.map_err_ok. simpl. destruct (is_ok swept); simpl.
  2:{ rewrite Hn. split; [naive_solver|]. split; [done|]. intros _. split_and!; try done; by apply Hclosed. }
  set (s1 := set_platform q s). destruct (reconcile_subid_leases root_path envs true s1) as [r s2] eqn:Hr.
  rewrite (bind_run _ _ s1 r s2) by (unfold tryM; by rewrite Hr).
  assert (Hs2 : disk s2 = disk s ∧ ledger s2 = ledger s ∧ ready s2 = false).
  { unfold reconcile_subid_leases in Hr. rewrite (bind_run _ _ s1 s1 s1) in Hr by done.
    destruct (subids s1) as [a|] eqn:Ha; [|unfold_monad; by simplify_eq].
    unfold mbind, M_bind, on_allocator in Hr. rewrite Ha in Hr.
    destruct (Allocator.reconcile _ true a) as [[t|e] a']; simpl in Hr; unfold_monad; by simplify_eq. }
  destruct Hs2 as (Hd & Hl & Hnr). simpl. destruct (is_ok r); simpl.
  2:{ rewrite Hnr. split; [naive_solver|]. split; [done|]. intros _. split_and!; try done; by apply Hclosed. }
  assert (Htot : total (reconcile_deleting root_path : Mg unit))
    by (apply total_bind; [apply total_getS|intros; apply total_deleting]).
  destruct (Htot s2) as [[] Ht]. destruct (reconcile_deleting root_path s2) as [r' s3] eqn:Hdl.
  simpl in Ht. subst r'. rewrite (bind_run _ _ _ _ _ Hdl). simpl. naive_solver.
Qed.

(** ** Claiming *)

Section claim.
Context `{!TomlLaws}.

(** The delegation cache after [k] queries that start in [s]. *)
Fixpoint cache_after s (k : nat) : Delegation.DelegationCache :=
  match k with
  | O => delegation_cache s
  | S k => (Delegation.query (host_ids s (queries s + k)) (cache_after s k)).2
  end.

(** The identity of a handle is the one of the sandbox's [Active] lease, and both of its
    IDs are in the delegation that query number [k] of the claim, counted from zero,
    answered; that query was the last one. *)
Definition identity_of s (k : nat) s' m (identity : option IsolatedIdentity) : Prop :=
  match identity with
  | None => subids s' = None
  | Some i => ∃ c d,
      leases s' (Lease.lease_id c) = Some c ∧ Lease.sandbox_id c = Metadata.id m
      ∧ Lease.owner c = Metadata.owner m ∧ Lease.state c = Lease.Active
      ∧ i = MkIdentity ISOLATED_RUNTIME_UID_GID ISOLATED_RUNTIME_UID_GID (Lease.uid c) (Lease.gid c)
      ∧ Delegation.query (host_ids s (queries s + k)) (cache_after s k) = (Ok d, delegation_cache s')
      ∧ Delegation.contains_uid d (Lease.uid c) = true ∧ Delegation.contains_gid d (Lease.gid c) = true
  end.

(** From [s] to [s'] the delegation was queried [k] times. *)
Definition asked (k : nat) s s' : Prop :=
  host_ids s' = host_ids s ∧ queries s' = (queries s + k)%nat ∧ delegation_cache s' = cache_after s k.

(** The same, where there are leases at all. *)
Definition due (k : nat) s s' : Prop := subids s' = None ∨ asked k s s'.

Definition unasked {E A} (m : M manager E A) : Prop := ∀ s,
  asked 0 s (m s).2 ∧ (subids s = None → subids (m s).2 = None).

Lemma asked_refl s : asked 0 s s.
Proof. by split_and!; rewrite ?Nat.add_0_r. Qed.

Lemma asked_same k s s1 s2 : asked k s s1 → asked 0 s1 s2 → asked k s s2.
Proof. intros (H1' & H2' & H3') (H4' & H5' & H6'). unfold asked. rewrite H4', H5', H6', H1', H2'. by rewrite Nat.add_0_r. Qed.

Lemma cache_after_same s s1 k : asked 0 s s1 → cache_after s1 k = cache_after s k.
Proof.
  intros (Hh & Hq & Hc). rewrite Nat.add_0_r in Hq. induction k as [|k IH]; simpl; [done|]. by rewrite IH, Hh, Hq.
Qed.

Lemma due_from k s s1 s2 : asked 0 s s1 → due k s1 s2 → due k s s2.
Proof.
  intros Ha [Hn|(Hh & Hq & Hc)]; [by left|right]. rewrite (cache_after_same _ _ _ Ha) in Hc.
  destruct Ha as (Hh' & Hq' & _). rewrite Nat.add_0_r in Hq'. split_and!; congruence.
Qed.

Lemma due_unasked {E A} (m : M manager E A) k s s1 : unasked m → due k s s1 → due k s (m s1).2.
Proof. intros Hm [Hn|Ha]; [left; by apply Hm|right]. eapply asked_same; [exact Ha|apply Hm]. Qed.

Lemma unasked_pure {E A} (m : M manager E A) : (∀ s, (m s).2 = s) → unasked m.
Proof. intros Hm s. rewrite Hm. split; [apply asked_refl|done]. Qed.

Lemma unasked_bind {E A B} (m : M manager E A) (f : A → M manager E B) :
  unasked m → (∀ a, unasked (f a)) → unasked (m ≫= f).
Proof.
  intros Hm Hf s. unfold mbind, M_bind. specialize (Hm s). destruct (m s) as [[a|e] s1]; [|done].
  destruct (Hf a s1) as [Ha Hn], Hm as [Ha' Hn']. simpl in *. split; [by eapply asked_same|auto].
Qed.

Lemma unasked_allocator {A} (m : M (Allocator.SubidAllocator St) Allocator.Error A) :
  unasked (tryM (on_allocator m) : M manager Error (result Error A)).
Proof.
  intros s. unfold tryM, on_allocator. destruct (subids s) as [a|] eqn:Ha; [destruct (m a)|]; simpl;
    (split; [split_and!; by rewrite ?Nat.add_0_r|done]).
Qed.

Lemma unasked_activate c : unasked (activate_identity c : Mg _).
Proof.
  unfold activate_identity. apply unasked_bind; [by apply unasked_pure|]. intros s. case_match; [|by apply unasked_pure].
  apply unasked_bind; [apply unasked_allocator|]. intros [|]; [by apply unasked_pure|].
  apply unasked_bind; [apply unasked_allocator|intros ?; by apply unasked_pure].
Qed.

(** Reserving an identity is one query. *)
Lemma reserve_asks token id own s ri s' :
  (tryM (reserve_identity token id own) : M manager Error _) s = (Ok (Ok ri), s') → due 1 s s'.
Proof.
  unfold tryM, reserve_identity. rewrite (bind_run _ _ s s s) by done.
  destruct (subids s) as [a|] eqn:Ha; [|simpl; intros [= _ <-]; by left].
  unfold mbind, M_bind, query_delegation. destruct (Delegation.query _ _) as [[d|e] c] eqn:Hq; simpl; [|done].
  unfold on_allocator. simpl. rewrite Ha. destruct (Allocator.claim token id own d a) as [[r|e] a']; simpl; [|done].
  intros [= _ <-]. right. split_and!; [done|simpl; lia|]. simpl. by rewrite Nat.add_0_r, Hq.
Qed.

(** Computations that leave the registry and the ledger alone. *)
Definition shelved s s' : Prop :=
  disk s' = disk s ∧ ledger s' = ledger s ∧ launch_admission_frozen s' = launch_admission_frozen s.

Lemma wp_identity m s0 k s :
  (∀ a, subids s = Some a → ledger_ok (Allocator.store a)) → due k s0 s →
  wp (identity_for m : Mg _)
    (fun r s' => shelved s s' ∧ ∀ i, r = Ok i → identity_of s0 k s' m i) s.
Proof.
  intros Hok Hdue. unfold identity_for. apply wp_bind, wp_getS. destruct (subids s) as [a|] eqn:Ha.
  2:{ apply wp_ret. split; [done|]. by intros i [= <-]. }
  apply wp_bind, (wp_lease_for _ _ a _ Ha); [by apply Hok|]. intros r a' [_ Hr] Hl.
  destruct r as [[c|]|e]; simpl; [|by apply wp_bind, wp_liftR|done].
  apply wp_bind, wp_liftR. simpl. destruct (_ || _) eqn:Hc; [by apply wp_fail|].
  apply orb_false_iff in Hc as [Ho Hst]. apply negb_false_iff, bool_decide_eq_true in Ho, Hst.
  apply wp_bind. unfold wp at 1, query_delegation. simpl.
  destruct (Delegation.query (host_ids s (queries s)) (delegation_cache s)) as [[d|e] cache'] eqn:Hq;
    simpl; [|done].
  apply wp_bind, wp_liftR. unfold Allocator.validate_delegated.
  destruct (Delegation.contains_uid d _) eqn:Hu, (Delegation.contains_gid d _) eqn:Hg; simpl; try done.
  apply wp_ret. split; [done|]. intros i [= <-]. destruct Hl as [Hl Hid].
  exists c, d. unfold leases in *. rewrite Ha in Hl. destruct Hdue as [Hno|(Hhost & Hn & Hcache)]; [by rewrite Ha in Hno|].
  split_and!; try done; simpl; [by rewrite Hr|]. by rewrite <-Hhost, <-Hn, <-Hcache.
Qed.

Lemma held_record s id m : held caps s id (Known m) → bt_get id (records (ledger s)) = Some m.
Proof.
  intros [Hb _]. apply (bk_phases _ _ Hb id (Known m)). simpl. apply lookup_insert_eq.
Qed.

(** What a successful claim promises. *)
Record granted principal id s h s' m : Prop := MkGranted {
  gr_valid : Storage.entry_valid (w_root (disk s')) id m;
  gr_active : Metadata.state m = Metadata.Active;
  gr_authorized : authorized principal (Metadata.owner m) = true;
  gr_handle : h_id h = id ∧ h_owner h = Metadata.owner m
    ∧ h_workspace h = Storage.workspace_path root_path id;
  gr_identity : identity_of s (if h_created h then 1 else 0) s' m (h_identity h);
  gr_record : bt_get id (records (ledger s')) = Some m;
  gr_created : if h_created h
    then StorageDeletion.absent [id] (w_root (disk s)) ∧ Metadata.owner m = fingerprint principal
    else w_root (disk s') = w_root (disk s) ∧ Storage.entry_valid (w_root (disk s)) id m;
}.

Lemma wp_claim_known principal id m s s1 :
  durable_ok s → asked 0 s s1 → held caps s1 id (Known m) → Metadata.id m = id →
  w_root (disk s1) = w_root (disk s) → subids s1 = subids s →
  Storage.entry_valid (w_root (disk s)) id m → Metadata.state m = Metadata.Active →
  authorized principal (Metadata.owner m) = true →
  wp (identity ← identity_for m; mret (handle root_path m identity false) : Mg _)
    (fun r s' => ∀ h, r = Ok h → granted principal id s h s' m) s1.
Proof.
  intros Hs Hask Hh Hid Hd Ha Hv Hst Hau. eapply wp_bind, wp_mono.
  { apply (wp_identity m s 0); [|by right]. rewrite Ha. apply (du_ok _ Hs). }
  intros r s2 [(Hd2 & Hl2 & _) Hi]. destruct r as [i|e]; [|done]. apply wp_ret. intros h [= <-].
  split; simpl; rewrite ?Hd2, ?Hl2, ?Hd, ?Hid; try done; [by apply Hi|by apply held_record].
Qed.

Definition shelves {E A} (m : M manager E A) : Prop := ∀ s, shelved s (m s).2.

Lemma shelves_bind {E A B} (m : M manager E A) (f : A → M manager E B) :
  shelves m → (∀ a, shelves (f a)) → shelves (m ≫= f).
Proof.
  intros Hm Hf s. unfold mbind, M_bind. specialize (Hm s). destruct (m s) as [[a|e] s1]; [|done].
  destruct Hm as (H1' & H2' & H3'), (Hf a s1) as (H4' & H5' & H6'). unfold shelved. simpl in *. by split_and!; etrans.
Qed.

Lemma shelves_tryM {E E' A} (m : M manager E A) : shelves m → shelves (tryM m : M manager E' _).
Proof. intros Hm s. specialize (Hm s). unfold tryM. by destruct (m s). Qed.

Lemma shelves_allocator {A} (m : M (Allocator.SubidAllocator St) Allocator.Error A) :
  shelves (on_allocator m : Mg A).
Proof. intros s. unfold on_allocator. destruct (subids s) as [a|]; [|done]. by destruct (m a). Qed.

Lemma shelves_query : shelves (query_delegation : Mg _).
Proof. intros s. unfold query_delegation. by destruct (Delegation.query _ _). Qed.

Lemma shelves_activate c : shelves (activate_identity c : Mg _).
Proof.
  unfold activate_identity. apply shelves_bind; [done|]. intros s. case_match; [|done].
  apply shelves_bind; [apply shelves_tryM, shelves_allocator|]. intros [|]; [done|].
  apply shelves_bind; [apply shelves_tryM, shelves_allocator|done].
Qed.

Lemma shelves_reserve token id own : shelves (reserve_identity token id own : Mg _).
Proof.
  unfold reserve_identity. apply shelves_bind; [done|]. intros s. case_match; [|done].
  apply shelves_bind; [apply shelves_query|]. intros d.
  apply shelves_bind; [apply shelves_allocator|done].
Qed.

(** A computation that keeps the state well formed and the registry alone. *)
Lemma wp_stays {A} (m : Mg A) (Q : result Error A → manager → Prop) s :
  durable_ok s → stays m (fun _ => True) → shelves m →
  (∀ r s', m s = (r, s') → durable_ok s' → shelved s s' → Q r s') → wp m Q s.
Proof. intros Hs Hm Hsh HQ. apply HQ; [by destruct (m s)|by apply Hm|apply Hsh]. Qed.

Lemma held_shelved s s' id p : shelved s s' → held caps s id p → held caps s' id p.
Proof. intros (_ & Hl & Hf). unfold held, at_phase, shared_of. by rewrite Hl, Hf. Qed.

Lemma wp_create principal id ri s s1 :
  claimable 0 principal id → durable_ok s1 → due 1 s s1 → StorageDeletion.absent [id] (w_root (disk s)) →
  held caps s1 id (InFlight (fingerprint principal)) →
  wp (create_claimed root_path id (fingerprint principal) ri : Mg _)
    (fun r s' => ∀ h, r = Ok h → ∃ m, granted principal id s h s' m) s1.
Proof.
  intros (_ & Hg & Hf) Hs Hdue Hab Hh. unfold create_claimed. apply wp_bind. unfold wp at 1.
  destruct (Storage.create_active root_path id (fingerprint principal) (disk s1)) as [r w] eqn:Hc.
  assert (Hs2 : durable_ok (set_disk w s1)).
  { destruct (stays_try_world (Storage.create_active root_path id (fingerprint principal))
      ltac:(apply StorageFrame.local_create, StorageFrame.names_local) s1 Hs) as [Hs2 _]. by rewrite Hc in Hs2. }
  simpl. destruct r as [m|error]; simpl.
  - apply Storage.create_active_Ok in Hc as [-> Hv]; [|done..]. set (m := Metadata.active id (fingerprint principal)) in *.
    apply wp_bind, wp_ledger. simpl.
    destruct (held_locked caps id (InFlight (Metadata.owner m)) (on_ledger (fun l => (tt, insert_reserved m l)) : Mg unit) _
      (set_disk w s1) Hh (locked_publish caps id ∅ m eq_refl)) as (p & Hh3 & ->).
    set (s3 := set_ledger _ (set_disk w s1)) in *. change (held caps s3 id (Known m)) in Hh3.
    assert (Hs3 : durable_ok s3) by by apply (durable_frame (set_disk w s1)).
    apply wp_bind. apply (wp_stays _ _ s3 Hs3).
    { destruct ri; [apply stays_activate_identity|apply stays_ret]. }
    { destruct ri; [apply shelves_activate|done]. }
    intros [[]|e] s4 Hrun Hs4 Hsh4; [|done].
    assert (Hdue4 : due 1 s s4).
    { replace s4 with ((match ri with Some c => activate_identity c | None => mret tt end : Mg unit) s3).2 by (by rewrite Hrun).
      apply due_unasked; [destruct ri; [apply unasked_activate|by apply unasked_pure]|exact Hdue]. }
    eapply wp_bind, wp_mono; [apply (wp_identity m s 1); [apply (du_ok _ Hs4)|exact Hdue4]|].
    intros r s5 [Hsh5 Hi]. destruct r as [i|e]; [|done]. apply wp_ret. intros h [= <-]. exists m.
    destruct Hsh5 as (Hd5 & Hl5 & _). assert (Hdisk : disk s5 = w) by (rewrite Hd5; apply Hsh4).
    split; simpl; try done.
    + by rewrite Hdisk.
    + unfold authorized. simpl. by rewrite (bool_decide_true (fingerprint principal = fingerprint principal)), orb_true_r.
    + by apply Hi.
    + rewrite Hl5. apply held_record. by eapply held_shelved.
  - apply wp_bind. unfold wp at 1.
    match goal with |- match fst ?x with _ => _ end => destruct x as [[[]|] s3] end; simpl; [|done].
    apply wp_bind, wp_ledger. simpl. by destruct error.
Qed.

Lemma wp_claim_absent token principal id s s1 :
  claimable token principal id → durable_ok s1 → asked 0 s s1 → StorageDeletion.absent [id] (w_root (disk s)) →
  held caps s1 id Holding →
  wp (claim_absent root_path caps token principal id : Mg _)
    (fun r s' => ∀ h, r = Ok h → ∃ m, granted principal id s h s' m) s1.
Proof.
  intros Hcl Hs1 Hask Hab Hacq. unfold claim_absent. apply wp_bind, wp_getS.
  destruct (_ || _) eqn:Hb; [by apply wp_fail|]. apply orb_false_iff in Hb as [Hb Hr].
  apply wp_bind, wp_ledger.
  destruct (reserve_sandbox caps (fingerprint principal) (ledger s1)) as [adm l] eqn:Hres.
  cbn [fst snd]. apply wp_bind, wp_liftR. destruct adm as [[]|lim]; simpl; [|done].
  assert (Hh2 : held caps (set_ledger l s1) id (InFlight (fingerprint principal)))
    by (eapply steps_inv; [by apply (locked_reserve caps id ∅ s1)|exact Hacq]).
  apply wp_bind. apply (wp_stays _ _ (set_ledger l s1)); [by apply (durable_frame s1)|..].
  { eapply stays_tryM. destruct Hcl as (? & ? & ?). by apply stays_reserve_identity. }
  { apply shelves_tryM, shelves_reserve. }
  intros ri s2 Hrun Hs2 Hsh2. destruct ri as [[ri|e]|e]; [| |done].
  - apply (wp_create principal id ri s);
      [by destruct Hcl as (_ & ? & ?)|done| |done|by eapply held_shelved].
    apply (due_from _ _ (set_ledger l s1)); [exact Hask|]. by eapply reserve_asks.
  - apply wp_bind, wp_ledger. done.
Qed.

Lemma wp_claim token principal id s :
  claimable token principal id → sound caps s → host_ok s →
  wp (claim root_path caps token principal id : Mg _)
    (fun r s' => ∀ h, r = Ok h → ∃ m, granted principal id s h s' m) s.
Proof.
  intros Hcl Hs Hho. assert (Hd : durable_ok s) by (destruct Hs; by split).
  unfold claim. apply wp_ready; [intros _|done]. apply wp_bind, wp_disk. unfold wp at 1.
  destruct (Storage.inspect root_path id (disk s)) as [r w] eqn:Hi.
  pose proof (ro_root _ _ _ _ (Storage.read_only_inspect root_path id) Hi) as Hroot. simpl.
  destruct r as [e|e]; simpl; [|done].
  assert (Hs1 : durable_ok (set_disk w s)) by by apply (durable_frame s).
  assert (Hacq : held caps (set_disk w s) id Holding) by (apply held_acquire; apply (sd_inv _ _ Hs)).
  destruct e as [|m|m|reason]; [| |by apply wp_bind, wp_terminating..].
  - apply inspect_Absent in Hi as Hab. apply (wp_claim_absent token principal id s); [done|done|exact (asked_refl s)|done|done].
  - pose proof (Storage.inspect_Ok root_path id (disk s) _ w m Hi eq_refl) as (_ & Hv & Hid & He).
    apply wp_bind. unfold wp at 1.
    destruct (held_locked caps id Holding (on_ledger_terminating (note_valid_record id m) : Mg bool) _ (set_disk w s)
      Hacq (locked_note caps id ∅ m Hid)) as (p & Hh & b & Hb & ->).
    unfold on_ledger_terminating in *. destruct (note_valid_record id m (ledger (set_disk w s))) as [b' [l ps]].
    simpl in *. injection Hb as ->. destruct b; simpl; [|done].
    destruct (authorized principal (Metadata.owner m)) eqn:Hau; simpl; [|done].
    eapply wp_mono; [apply (wp_claim_known principal id m s); try done|by eauto].
    by destruct (Metadata.state m).
Qed.

(** C27: what a claim grants.  A handle is given out only for a sandbox that is
    valid and [Active] on disk and recorded in the ledger, to its owner or an
    administrator; its fields are those of the record; its identity is that of
    the sandbox's [Active] lease, both of whose IDs are in the delegation that the last
    query of the claim answered, from the cache the manager held then (its only query,
    or the second one where the entry had to be created first).
    It says [created] exactly if there was no such entry before, and then the
    sandbox belongs to the caller; otherwise the registry is unchanged. *)
Theorem claim_is_sound token principal id s h s' :
  claimable token principal id → sound caps s → host_ok s →
  claim root_path caps token principal id s = (Ok h, s') →
  ∃ m, granted principal id s h s' m.
Proof.
  intros Hcl Hs Hho Hc. exact (wp_run _ _ _ (wp_claim token principal id s Hcl Hs Hho) _ _ Hc h eq_refl).
Qed.
End claim.
End claims.

(** ** A run *)

#[local] Existing Instance sample_host.

Lemma serving_root : w_root (disk sample_serving) = w_root (Storage.registry []).
Proof.
  unfold sample_serving, load_registry, mbind, M_bind, on_disk, on_ledger_terminating.
  destruct (Storage.scan "/r" (disk (set_ready true sample_boot))) as [r w] eqn:Hs.
  apply (ro_root _ _ _ _ (Storage.read_only_scan "/r")) in Hs. destruct r as [sc|e]; simpl; [|exact Hs].
  destruct (reconcile_scan sc empty_ledger). exact Hs.
Qed.

Lemma serving_modes : StorageScan.plain_modes (w_root (disk sample_serving)).
Proof. rewrite serving_root. apply StorageScan.modes_check_sound. vm_compute. reflexivity. Qed.

Lemma list_is_exact_witness :
  to_option (Manager.list "/r" sample_owner sample_serving).1 = Some ["dev"]
  ∧ visible sample_owner sample_serving "dev".
Proof.
  assert (Hl : to_option (Manager.list "/r" sample_owner sample_serving).1 = Some ["dev"])
    by (vm_compute; reflexivity).
  split; [exact Hl|].
  destruct (Manager.list "/r" sample_owner sample_serving) as [r s'] eqn:Hr.
  destruct r as [ids|]; [|discriminate Hl]. injection Hl as ->.
  destruct (list_is_exact "/r" sample_owner sample_serving ["dev"] s' Hr serving_modes) as (_ & Hv & _).
  apply Hv. left.
Defined.

Lemma startup_fails_closed_witness :
  ready (reconcile_startup "/r" (fun _ => []) sample_opened).2 = true
  ∧ leases_reconciled "/r" (fun _ => []) sample_opened = true.
Proof.
  assert (Hr : ready (reconcile_startup "/r" (fun _ => []) sample_opened).2 = true)
    by (vm_compute; reflexivity).
  split; [exact Hr|].
  destruct (startup_fails_closed "/r" sample_caps (fun _ => []) sample_opened) as [Hready _];
    [vm_compute; reflexivity|].
  exact (proj2 (proj1 Hready Hr)).
Defined.

Lemma serving_sound : sound sample_caps sample_serving.
Proof.
  apply (served_sound "/r" sample_caps sample_serving); [exact serving_is_opened|exact serving_durable|].
  apply rtc_refl.
Qed.

Lemma claim_is_sound_witness :
  is_ok (claim "/r" sample_caps 2 sample_owner "new" sample_serving).1 = true
  ∧ ∃ h m, granted "/r" sample_owner "new" sample_serving h
      (claim "/r" sample_caps 2 sample_owner "new" sample_serving).2 m.
Proof.
  assert (Hk : is_ok (claim "/r" sample_caps 2 sample_owner "new" sample_serving).1 = true)
    by (vm_compute; reflexivity).
  split; [exact Hk|].
  destruct (claim "/r" sample_caps 2 sample_owner "new" sample_serving) as [r s'] eqn:Hc.
  destruct r as [h|]; [|discriminate Hk]. exists h.
  exact (claim_is_sound "/r" sample_caps 2 sample_owner "new" sample_serving h s' new_claimable
    serving_sound (du_host _ serving_durable) Hc).
Defined.
End ManagerClaims.
