(* ===== verification/EnginePolicy.v ===== *)
(** * The sandbox engine's policies ([shbox-sandbox]: policy.rs, command.rs,
    error.rs, validate.rs)

    The explicit configuration one spawn takes, the command it runs, the errors
    the engine reports, and the validation that runs before any child exists. *)

From S2P Require Import Prelude Text PathNames Toml FileSystem RuntimeLedger Manager.

Module Engine.

Abbreviation IsolatedIdentity := Manager.IsolatedIdentity.

#[global] Instance IsolatedIdentity_eq_dec : EqDecision IsolatedIdentity.
Proof. solve_decision. Defined.

(** ** Policies *)

Inductive Limit (A : Type) :=
| Inherit
| Unlimited
| Value (a : A).
Arguments Inherit {A}.
Arguments Unlimited {A}.
Arguments Value {A} a.

Definition requires_own_cgroup {A} (l : Limit A) : bool :=
  match l with Inherit => false | _ => true end.

Inductive FilesystemPolicy :=
| FsUnrestricted
| Restricted (read_only read_write execute : list string).

Inductive NetworkPolicy := NetUnrestricted | OutboundTcp | NetDisabled.

Inductive NetworkNamespacePolicy := NsHost | NsIsolated.

Inductive IdentityPolicy :=
| IdHost
| CallerMappedRoot
| IdIsolated (identity : IsolatedIdentity).

Record NamespacePolicy := MkNamespaces
  { ns_pid : bool; ns_mount : bool; ns_ipc : bool; ns_uts : bool;
    ns_network : NetworkNamespacePolicy }.

Definition NamespacePolicy_default : NamespacePolicy := MkNamespaces false false false false NsHost.

Record CpuMax := MkCpuMax { quota_us : Z; period_us : Z }.

Record ResourceLimits := MkLimits
  { lim_memory_bytes : Limit Z; lim_swap_bytes : Limit Z; lim_pids : Limit Z; lim_cpu_max : Limit CpuMax }.

Definition requires_cgroup (r : ResourceLimits) : bool :=
  requires_own_cgroup (lim_memory_bytes r) || requires_own_cgroup (lim_swap_bytes r)
  || requires_own_cgroup (lim_pids r) || requires_own_cgroup (lim_cpu_max r).

Inductive Syscall := Named (name : string) | Number (n : Z).
Inductive ArgLen := Dword | Qword.
Inductive CmpOp := Equal | Greater | GreaterEqual | Less | LessEqual | MaskedEqual | NotEqual.
Record SyscallCondition := MkCondition { arg : Z; arg_len : ArgLen; op : CmpOp; value : Z }.
Record SyscallRule := MkRule { syscall : Syscall; conditions : list SyscallCondition }.
Inductive SeccompAction :=
| Allow | ActErrno (n : Z) | KillThread | KillProcess | Log | Trace (n : Z) | Trap.

#[global] Instance SeccompAction_eq_dec : EqDecision SeccompAction.
Proof. solve_decision. Defined.

Inductive SyscallPolicy :=
| SysUnrestricted
| Filter (default_action matched_action : SeccompAction) (rules : list SyscallRule).

Definition CAP_LAST_NUMBER : Z := 40.
Definition from_number (number : Z) : option Z :=
  if number <=? CAP_LAST_NUMBER then Some number else None.

Inductive CapabilityPolicy := DropAll | Retain (caps : list Z).

Record SandboxConfig := MkSandboxConfig
  { cf_filesystem : FilesystemPolicy; cf_network : NetworkPolicy; cf_resources : ResourceLimits;
    cf_syscalls : SyscallPolicy; cf_namespaces : NamespacePolicy; cf_identity : IdentityPolicy;
    cf_capabilities : CapabilityPolicy; cf_inherited_fds : list Z; cf_cgroup_parent : option string }.

Definition unrestricted : SandboxConfig :=
  {| cf_filesystem := FsUnrestricted; cf_network := NetUnrestricted;
     cf_resources := MkLimits Inherit Inherit Inherit Inherit; cf_syscalls := SysUnrestricted;
     cf_namespaces := NamespacePolicy_default; cf_identity := IdHost; cf_capabilities := DropAll;
     cf_inherited_fds := []; cf_cgroup_parent := None |}.

(** ** Commands *)

Inductive Stdio := StdioNull | StdioPipe | StdioFd (fd : Z).
Inductive SessionSetup := SessionInherit | NewSession | NewSessionWithControllingTerminal.

Record CommandSpec := MkCommand
  { program : string; args : list string; argv0 : option string; env : list (string * string);
    cwd : option string; stdin : Stdio; stdout : Stdio; stderr : Stdio; session : SessionSetup }.

Definition new_command (program : string) : CommandSpec :=
  MkCommand program [] None [] None StdioNull StdioNull StdioNull SessionInherit.

(** ** Errors *)

Inductive ChildStage :=
| ParentDeath | Session | ControllingTerminal | WorkingDirectory | UserNamespace | MapBarrier
| GroupClear | MountAttach | MountReadOnly | SetUid | SetGid | Securebits | MountPropagation
| NoNewPrivs | Capabilities | Landlock | Supervisor | Seccomp | FdHygiene | StageResourceLimits | ExecStage.

#[global] Instance ChildStage_eq_dec : EqDecision ChildStage.
Proof. solve_decision. Defined.

Definition STAGES : list ChildStage :=
  [ParentDeath; Session; ControllingTerminal; WorkingDirectory; UserNamespace; MountPropagation;
   NoNewPrivs; Capabilities; Landlock; Seccomp; FdHygiene; ExecStage; Supervisor; StageResourceLimits;
   MapBarrier; GroupClear; MountAttach; MountReadOnly; SetUid; SetGid; Securebits].

Fixpoint position (stage : ChildStage) (l : list ChildStage) : option Z :=
  match l with
  | [] => None
  | s :: rest => if bool_decide (s = stage) then Some 0 else (fun i => i + 1) <$> position stage rest
  end.

Definition code (stage : ChildStage) : Z :=
  match position stage STAGES with Some index => index mod 256 + 1 | None => 0 end.

Definition from_code (code : Z) : option ChildStage :=
  if code <? 1 then None else STAGES !! Z.to_nat (code - 1).

Inductive SandboxError :=
| Unsupported (feature reason : string)
| InvalidPolicy (field reason : string)
| Setup (stage : ChildStage) (detail : Z) (errno : option Z)
| EngineIo (e : io_error)
| Internal (message : string).

(** The wire codes of the child's status record name the stages: decoding undoes
    encoding, and no other byte decodes. *)
Lemma stage_codes_roundtrip stage : from_code (code stage) = Some stage.
Proof. by destruct stage. Qed.

Lemma stage_codes_exact n stage : from_code n = Some stage → n = code stage.
Proof.
  unfold from_code. destruct (n <? 1) eqn:Hn; [done|]. bool_to_prop. intros Hl.
  assert (Hk : n = Z.of_nat (Z.to_nat (n - 1)) + 1) by lia. rewrite Hk. clear Hk Hn.
  revert Hl. generalize (Z.to_nat (n - 1)) as k. clear n. intros k.
  do 21 (destruct k as [|k]; [intros [= <-]; vm_compute; reflexivity|]). done.
Qed.

(** ** Validation *)

Class EngineKernel := {
  engine_realpath_at : nat → string → result io_error string;
  (** [fcntl(fd, F_GETFD)] succeeds. *)
  fd_open_at : nat → Z → bool;
  (** [linux::syscall_number]: the target's table knows the name. *)
  known_syscall : string → bool }.

Section validate.
Context `{EngineKernel} `{UnicodeTables}.

Notation V := (M nat SandboxError).

Definition check_no_nul (field value : string) : result SandboxError unit :=
  if has_nul value
  then Err (InvalidPolicy field "path contains a NUL byte and cannot be passed to the OS")
  else Ok tt.

(** [for x in xs { f(x)?; }]. *)
Fixpoint for_each {A} (f : A → result SandboxError unit) (l : list A) : result SandboxError unit :=
  match l with
  | [] => Ok tt
  | a :: rest => _ ← f a; for_each f rest
  end.

Definition check_env (binding : string * string) : result SandboxError unit :=
  let '(name, value) := binding in
  _ ← check_no_nul "env" name;
  _ ← check_no_nul "env" value;
  if bool_decide (name = "") then Err (InvalidPolicy "env" "environment variable name is empty")
  else if contains_char (byte_of 61) name
  then Err (InvalidPolicy "env"
              ("environment variable name " +:+ debug_str printable (from_utf8_lossy name)
                 +:+ " contains '='"))
  else Ok tt.

(** [i32]'s [Display]. *)
Definition fmt_signed (n : Z) : string := if n <? 0 then "-" +:+ fmt_dec (- n) else fmt_dec n.

Definition check_stdio (field : string) (stdio : Stdio) : result SandboxError unit :=
  match stdio with
  | StdioFd fd =>
      if fd <? 0
      then Err (InvalidPolicy field ("stdio source descriptor " +:+ fmt_signed fd +:+ " is negative"))
      else Ok tt
  | _ => Ok tt
  end.

Definition validate_command (command : CommandSpec) : result SandboxError unit :=
  if bool_decide (program command = "") then Err (InvalidPolicy "program" "program path is empty")
  else if negb (Path.is_absolute (program command))
  then Err (InvalidPolicy "program"
              ("program path " +:+ from_utf8_lossy (program command)
                 +:+ " is not absolute (execve performs no PATH search)"))
  else
    _ ← check_no_nul "program" (program command);
    _ ← for_each (check_no_nul "args") (option_list (argv0 command) ++ args command);
    _ ← for_each check_env (env command);
    _ ← match cwd command with
        | Some cwd =>
            _ ← check_no_nul "cwd" cwd;
            if negb (Path.is_absolute cwd)
            then Err (InvalidPolicy "cwd"
                        ("working directory " +:+ from_utf8_lossy cwd +:+ " is not absolute"))
            else Ok tt
        | None => Ok tt
        end;
    _ ← check_stdio "stdin" (stdin command);
    _ ← check_stdio "stdout" (stdout command);
    check_stdio "stderr" (stderr command).

Fixpoint validate_inherited_fds (seen : list Z) (fds : list Z) : V unit :=
  match fds with
  | [] => mret tt
  | fd :: rest =>
      if fd <? 3
      then fail (InvalidPolicy "inherited_fds"
                   ("descriptor " +:+ fmt_signed fd
                      +:+ " is a standard-stream slot; inherited descriptors must be >= 3"))
      else if bool_decide (fd ∈ seen)
      then fail (InvalidPolicy "inherited_fds"
                   ("descriptor " +:+ fmt_signed fd +:+ " is listed more than once"))
      else
        open ← (fun now => (Ok (fd_open_at now fd), S now) : _ * _);
        if negb open
        then fail (InvalidPolicy "inherited_fds"
                     ("descriptor " +:+ fmt_signed fd +:+ " is not open in the parent"))
        else validate_inherited_fds (fd :: seen) rest
  end.

Definition check_rule (tier path : string) : result SandboxError unit :=
  if negb (Path.is_absolute path)
  then Err (InvalidPolicy tier ("rule path " +:+ from_utf8_lossy path +:+ " is not absolute"))
  else check_no_nul "filesystem" path.

Definition engine_canonicalize (p : string) : V (result io_error string) := fun now =>
  (Ok (engine_realpath_at now p), S now).

(** [path.starts_with(grant)], component-wise. *)
Definition covered_by (path grant : string) : bool :=
  match Path.strip_components (Path.components grant) (Path.components path) with
  | Some _ => true
  | None => false
  end.

(** [rules.any(|rule| covered_by_grant(path, rule))]. *)
Fixpoint any_covers (path : string) (rules : list string) : V bool :=
  match rules with
  | [] => mret false
  | rule :: rest =>
      found ← engine_canonicalize rule;
      let grant := match found with Ok canonical => canonical | Err _ => rule end in
      if covered_by path grant then mret true else any_covers path rest
  end.

(** A path that resolves is to be covered by one of the rules. *)
Definition check_covered (field what : string) (found : result io_error string) (rules : list string)
    : V unit :=
  match found with
  | Err _ => mret tt
  | Ok path =>
      covered ← any_covers path rules;
      if (covered : bool) then mret tt
      else fail (InvalidPolicy field
                   (what +:+ from_utf8_lossy path +:+ " is not covered by any filesystem rule"))
  end.

Definition validate_filesystem (policy : FilesystemPolicy) (command : CommandSpec) : V unit :=
  match policy with
  | FsUnrestricted => mret tt
  | Restricted read_only read_write execute =>
      _ ← liftR (for_each (check_rule "filesystem.read_only") read_only);
      _ ← liftR (for_each (check_rule "filesystem.read_write") read_write);
      _ ← liftR (for_each (check_rule "filesystem.execute") execute);
      found ← engine_canonicalize (program command);
      _ ← check_covered "filesystem" "program " found (read_write ++ execute);
      match cwd command with
      | None => mret tt
      | Some cwd =>
          found ← engine_canonicalize cwd;
          check_covered "filesystem.read_only" "working directory " found
            (read_only ++ read_write ++ execute)
      end
  end.

Definition validate_resources (resources : ResourceLimits) : result SandboxError unit :=
  _ ← (match lim_cpu_max resources with
      | Value cpu =>
          if quota_us cpu =? 0
          then Err (InvalidPolicy "resources.cpu_max" "CPU quota must be greater than zero")
          else if (1000 <=? period_us cpu) && (period_us cpu <=? 1000000) then Ok tt
          else Err (InvalidPolicy "resources.cpu_max"
                      ("CPU period " +:+ fmt_dec (period_us cpu)
                         +:+ " microseconds is outside the kernel range 1000..=1000000"))
      | _ => Ok tt
      end : result SandboxError unit);
  _ ← match lim_memory_bytes resources with
      | Value 0 => Err (InvalidPolicy "resources.memory_bytes"
                          "memory limit must be greater than zero (use Unlimited for no limit)")
      | _ => Ok tt
      end;
  match lim_pids resources with
  | Value 0 => Err (InvalidPolicy "resources.pids"
                      "PID limit must be greater than zero (use Unlimited for no limit)")
  | _ => Ok tt
  end.

Definition check_condition (condition : SyscallCondition) : result SandboxError unit :=
  if 5 <? arg condition
  then Err (InvalidPolicy "syscalls.rules"
              ("condition argument index " +:+ fmt_dec (arg condition) +:+ " is outside 0..=5"))
  else Ok tt.

Definition check_syscall_rule (rule : SyscallRule) : result SandboxError unit :=
  _ ← match syscall rule with
      | Named name =>
          if known_syscall name then Ok tt
          else Err (InvalidPolicy "syscalls.rules"
                      ("unknown syscall name " +:+ debug_str printable name +:+ " for this architecture"))
      | Number number =>
          if number <? 0
          then Err (InvalidPolicy "syscalls.rules"
                      ("syscall number " +:+ fmt_signed number +:+ " is negative"))
          else Ok tt
      end;
  for_each check_condition (conditions rule).

Definition validate_syscalls (policy : SyscallPolicy) : result SandboxError unit :=
  match policy with
  | SysUnrestricted => Ok tt
  | Filter default_action matched_action rules =>
      if bool_decide (default_action = matched_action)
      then Err (InvalidPolicy "syscalls"
                  ("default and matched actions are identical; the filter would be a no-op "
                     +:+ "(use SyscallPolicy::Unrestricted to install no filter)"))
      else for_each check_syscall_rule rules
  end.

Definition validate_identity (config : SandboxConfig) : result SandboxError unit :=
  match cf_identity config with
  | IdIsolated identity =>
      if (Manager.runtime_uid identity =? 0) || (Manager.runtime_gid identity =? 0)
      then Err (InvalidPolicy "identity"
             "isolated identity must not map namespace UID/GID 0: no bootstrap identity may exist")
      else if (Manager.host_uid identity =? 0) || (Manager.host_gid identity =? 0)
      then Err (InvalidPolicy "identity" "isolated identity must not map to host UID/GID 0 (root)")
      else if negb (ns_mount (cf_namespaces config))
      then Err (InvalidPolicy "identity"
             ("isolated identity requires a fresh mount namespace (NamespacePolicy::mount) for "
                +:+ "ID-mapped writable views"))
      else match cf_capabilities config with
           | Retain (_ :: _) =>
               Err (InvalidPolicy "identity"
                 ("isolated identity is incompatible with retained capabilities: the runtime "
                    +:+ "process must end with empty capability sets"))
           | _ => Ok tt
           end
  | _ => Ok tt
  end.

Definition validate (config : SandboxConfig) (command : CommandSpec) : V unit :=
  _ ← liftR (validate_command command);
  _ ← validate_inherited_fds [] (cf_inherited_fds config);
  _ ← validate_filesystem (cf_filesystem config) command;
  _ ← liftR (validate_resources (cf_resources config));
  _ ← liftR (validate_syscalls (cf_syscalls config));
  liftR (validate_identity config).

(** ** When validation passes *)

Lemma for_each_Ok {A} (f : A → result SandboxError unit) l :
  for_each f l = Ok tt ↔ Forall (fun a => f a = Ok tt) l.
Proof.
  induction l as [|a l IH]; cbn; [by split|]. rewrite Forall_cons, <-IH.
  destruct (f a) as [[]|]; cbn; naive_solver.
Qed.

Lemma covered_by_prefix path grant :
  covered_by path grant = true ↔ Path.components grant `prefix_of` Path.components path.
Proof.
  unfold covered_by. generalize (Path.components path) as p, (Path.components grant) as g. clear.
  intros p g. revert p; induction g as [|a g IH]; intros p; cbn.
  - split; [intros _; apply prefix_nil|done].
  - destruct p as [|b p]; [split; [done|by intros ?%prefix_nil_not]|]. case_bool_decide as Hab.
    + subst. rewrite IH. split; [apply prefix_cons|apply prefix_cons_inv_2].
    + split; [done|]. intros Hp%prefix_cons_inv_1. congruence.
Qed.

(** A rule that resolves to a place covering the path makes the search succeed. *)
Lemma any_covers_found path rules now rule :
  rule ∈ rules →
  (∀ u, covered_by path (match engine_realpath_at u rule with Ok c => c | Err _ => rule end) = true) →
  ∃ now', any_covers path rules now = (Ok true, now').
Proof.
  intros Hin Hcov. revert now; induction rules as [|r rules IH]; intros now; [by apply not_elem_of_nil in Hin|].
  cbn [any_covers]. unfold mbind, M_bind, engine_canonicalize.
  destruct (covered_by path _) eqn:Hc; [by eexists|].
  apply elem_of_cons in Hin as [-> |Hin]; [by rewrite Hcov in Hc|]. by apply IH.
Qed.
End validate.
End Engine.
