(* ===== verification/LaunchPolicy.v ===== *)
(** * The launch policy ([platform/policy.rs])

    What shbox allows a sandbox process: the snapshot made once at start-up, the
    engine configuration and environment derived from it for each launch, and the
    private temporary directories.  [canonicalize] and [exists] are numbered calls
    to the kernel; random names are an argument. *)

From S2P Require Import Prelude BTree Text PathNames Toml SocketAddr Endpoint FileSystem RuntimeLedger Manager Auth Paths Config EnginePolicy.

Module Policy.
Import Engine.

Abbreviation NetworkMode := Config.NetworkMode.
Abbreviation SandboxIdentity := Config.SandboxIdentity.

Definition MAX_COMMAND_BYTES : Z := 32768.

Definition launch_error (message : string) : RuntimeLedger.LaunchError :=
  RuntimeLedger.MkLaunchError message.

(** ** Curated paths *)

Inductive ReadPathClass := ExecutableRuntime | SystemData | TerminalDevice.

Definition curated_linux : list (string * ReadPathClass) :=
  [("/usr", ExecutableRuntime); ("/lib", ExecutableRuntime); ("/lib64", ExecutableRuntime);
   ("/bin", ExecutableRuntime); ("/sbin", ExecutableRuntime);
   ("/etc/ssl", SystemData); ("/etc/pki", SystemData); ("/etc/ca-certificates", SystemData);
   ("/etc/bash.bashrc", SystemData); ("/etc/resolv.conf", SystemData); ("/etc/hosts", SystemData);
   ("/etc/host.conf", SystemData); ("/etc/nsswitch.conf", SystemData); ("/etc/ld.so.cache", SystemData);
   ("/etc/localtime", SystemData); ("/etc/passwd", SystemData); ("/etc/group", SystemData);
   ("/dev/zero", SystemData); ("/dev/urandom", SystemData); ("/dev/random", SystemData);
   ("/dev/tty", TerminalDevice)].

Definition curated_macos : list (string * ReadPathClass) :=
  [("/usr", ExecutableRuntime); ("/bin", ExecutableRuntime); ("/sbin", ExecutableRuntime);
   ("/System", ExecutableRuntime); ("/Library/Frameworks", ExecutableRuntime);
   ("/Library/Apple/System/Library", ExecutableRuntime); ("/opt/homebrew", ExecutableRuntime);
   ("/private/var/select", SystemData); ("/private/var/db/timezone", SystemData);
   ("/private/etc/hosts", SystemData); ("/private/etc/resolv.conf", SystemData);
   ("/private/etc/localtime", SystemData); ("/private/etc/ssl", SystemData);
   ("/dev/zero", SystemData); ("/dev/urandom", SystemData); ("/dev/random", SystemData);
   ("/dev/fd", SystemData)].

Definition CURATED_READ_PATHS `{Build} : list (string * ReadPathClass) :=
  if target_linux then curated_linux else curated_macos.

Definition CURATED_WRITE_PATHS : list string := ["/dev/null"].

(** ** Resolving paths *)

Class PolicyKernel := {
  exists_at : nat → string → bool;
  policy_realpath_at : nat → string → result io_error string }.

(** The text of a path with these components. *)
Definition path_of_components (p : list string) : string :=
  match p with
  | "/" :: names => "/" +:+ Net.join "/" names
  | names => Net.join "/" names
  end.

(** [Path]'s order, which compares components. *)
Fixpoint components_compare (a b : list string) : comparison :=
  match a, b with
  | [], [] => Eq
  | [], _ => Lt
  | _, [] => Gt
  | x :: a', y :: b' =>
      match String.compare x y with Eq => components_compare a' b' | c => c end
  end.
Definition path_leb (a b : string) : bool :=
  match components_compare (Path.components a) (Path.components b) with Gt => false | _ => true end.

(** [Vec::dedup]: drop an element equal to the one before it. *)
Fixpoint dedup (l : list string) : list string :=
  match l with
  | a :: ((b :: _) as rest) => if Config.same_path a b then dedup rest else a :: dedup rest
  | _ => l
  end.

Section policy.
Context `{Build} `{PolicyKernel}.

Fixpoint retain_existing (paths : list string) (now : nat) : list string * nat :=
  match paths with
  | [] => ([], now)
  | p :: rest =>
      let '(kept, now') := retain_existing rest (S now) in
      ((if exists_at now p then p :: kept else kept), now')
  end.

Fixpoint filter_canonical (paths : list string) (now : nat) : list string * nat :=
  match paths with
  | [] => ([], now)
  | p :: rest =>
      let '(kept, now') := filter_canonical rest (S now) in
      (match policy_realpath_at now p with Ok c => c :: kept | Err _ => kept end, now')
  end.

Definition canonicalize_existing_paths (paths : list string) (now : nat) : list string * nat :=
  let '(existing, now) := retain_existing paths now in
  let '(canonical, now) := filter_canonical existing now in
  (dedup (sort_by path_leb canonical), now).

(** ** The snapshot *)

Record t := MkPolicy
  { shell : string; network : NetworkMode; sandbox_env : list (string * string);
    temp_root : Auth.path; resources : Config.SandboxResources; cgroup_parent : option string;
    identity : SandboxIdentity; resolved_read_only : list string; resolved_execute : list string }.

Definition is_executable (class : ReadPathClass) : bool :=
  match class with ExecutableRuntime => true | SystemData | TerminalDevice => false end.

Definition curated (executable : bool) : list string :=
  (filter (fun e => is_executable e.2 = executable) CURATED_READ_PATHS).*1.

Definition from_parts (shell : string) (network : NetworkMode) (read_paths : list string)
    (sandbox_env : list (string * string)) (temp_root : Auth.path)
    (resources : Config.SandboxResources) (cgroup_parent : option string) (now : nat) : t * nat :=
  let execute := curated true ++ [shell]
    ++ match Path.parent (Path.components shell) with
       | Some parent => [path_of_components parent]
       | None => []
       end in
  let read_only := curated false ++ read_paths in
  let '(read_only, now) := canonicalize_existing_paths read_only now in
  let '(execute, now) := canonicalize_existing_paths execute now in
  (MkPolicy shell network sandbox_env temp_root resources cgroup_parent Config.Host read_only execute, now).

Definition from_config (config : Config.t) (shell_path : string) (root : Auth.path) (now : nat)
    : t * nat :=
  let '(p, now) :=
    from_parts shell_path (Config.network config) (Config.read_paths config)
      (Config.sandbox_env config) root (Config.resources config) (Config.cgroup_parent config) now in
  (MkPolicy (shell p) (network p) (sandbox_env p) (temp_root p) (resources p)
     (cgroup_parent p) (Config.identity config) (resolved_read_only p) (resolved_execute p), now).

(** ** The engine configuration of a launch *)

Definition engine_network (p : t) : NetworkPolicy :=
  match network p with
  | Config.Disabled => NetDisabled
  | Config.Outbound => if target_linux then NetUnrestricted else OutboundTcp
  end.

Definition engine_namespaces (p : t) : NamespacePolicy :=
  if target_linux then
    MkNamespaces false (bool_decide (identity p = Config.Isolated)) false false
      (if bool_decide (network p = Config.Disabled) then NsIsolated else NsHost)
  else NamespacePolicy_default.

Definition engine_identity (p : t) (isolated_identity : option IsolatedIdentity)
    : result RuntimeLedger.LaunchError IdentityPolicy :=
  if target_linux then
    match identity p, isolated_identity with
    | Config.Isolated, Some identity => Ok (IdIsolated identity)
    | Config.Isolated, None =>
        Err (launch_error "isolated sandbox launch has no active subordinate identity lease")
    | Config.Host, _ =>
        if bool_decide (network p = Config.Disabled) then Ok CallerMappedRoot else Ok IdHost
    end
  else if bool_decide (identity p = Config.Isolated)
  then Err (launch_error ("sandbox identity " +:+ String quote_char ("isolated" +:+ String quote_char "")
                            +:+ " is unsupported on this platform"))
  else Ok IdHost.

Definition option_limit {A} (value : option A) : Limit A :=
  match value with Some value => Value value | None => Inherit end.

Definition engine_resources (p : t) : ResourceLimits :=
  let r := resources p in
  {| lim_memory_bytes := option_limit (Config.memory_bytes r);
     lim_swap_bytes := option_limit (Config.swap_bytes r);
     lim_pids := option_limit (Config.pids r);
     lim_cpu_max :=
       option_limit
         ((fun quota => MkCpuMax quota (default 100000 (Config.cpu_period_micros r)))
            <$> Config.cpu_quota_micros r) |}.

Definition curated_write_paths : list string := CURATED_WRITE_PATHS.

Definition is_curated_write (p : string) : bool :=
  existsb (fun write => Config.same_path write p) CURATED_WRITE_PATHS.

Definition try_engine_config_with_identity (p : t) (workspace launch_temp : string)
    (isolated_identity : option IsolatedIdentity) : result RuntimeLedger.LaunchError SandboxConfig :=
  let read_write := curated_write_paths ++ [workspace] ++ [launch_temp] in
  let read_only := filter (fun path => negb (is_curated_write path)) (resolved_read_only p) in
  identity ← engine_identity p isolated_identity;
  mret {| cf_filesystem := Restricted read_only read_write (resolved_execute p);
          cf_network := engine_network p; cf_resources := engine_resources p;
          cf_syscalls := SysUnrestricted; cf_namespaces := engine_namespaces p;
          cf_identity := identity; cf_capabilities := DropAll; cf_inherited_fds := [];
          cf_cgroup_parent := cgroup_parent p |}.

(** ** The environment of a launch *)

(** [env.retain(|(existing, _)| existing != name); env.push((name, value))]. *)
Definition override (name value : string) (env : list (string * string)) : list (string * string) :=
  filter (fun b => b.1 ≠ name) env ++ [(name, value)].

Definition environment_for_with_overrides (p : t) (workspace : string) (term temp_dir : option string)
    (overrides : list (string * string)) : list (string * string) :=
  let workspace := from_utf8_lossy workspace in
  let env := [("HOME", workspace); ("PWD", workspace); ("SHELL", from_utf8_lossy (shell p))]
    ++ sandbox_env p in
  let env := foldl (fun env b => override b.1 b.2 env) env overrides in
  let env := match term with Some term => override "TERM" term env | None => env end in
  match temp_dir with
  | Some temp_dir => override "TMPDIR" (from_utf8_lossy temp_dir) env
  | None => env
  end.

(** ** The command of a launch *)

Definition validated_shell_command (operation : Manager.LaunchOperation)
    : result RuntimeLedger.LaunchError (option string) :=
  match operation with
  | Manager.Shell => Ok None
  | Manager.Exec bytes =>
      if MAX_COMMAND_BYTES <? str_len bytes then Err (launch_error "sandbox command is too large")
      else if has_nul bytes then Err (launch_error "sandbox command contains NUL")
      else Ok (Some bytes)
  end.

(** [Path::file_name]: the last component, when it is a name. *)
Definition file_name (p : string) : option string :=
  match last (Path.components p) with
  | Some name =>
      if bool_decide (name = "/") || bool_decide (name = ".") || bool_decide (name = "..")
      then None else Some name
  | None => None
  end.

Definition login_shell_argv0 (shell : string) : result RuntimeLedger.LaunchError string :=
  name ← ok_or (launch_error "sandbox shell path has no file name") (file_name shell);
  mret ("-" +:+ name).

End policy.

(** ** Private temporary directories *)

(** One entry of a directory listing: its name (when it is UTF-8) and whether it
    is a directory; reading either may fail. *)
Record entry := MkEntry { entry_name : option string; entry_path : Auth.path;
                          entry_is_dir : result io_error bool }.

Class TempKernel := {
  (** [rand::random::<[u8; 16]>()], as one number. *)
  random_at : nat → Z;
  (** [fs::read_dir]: the listing, whose items may fail. *)
  read_dir_at : nat → Auth.path → result io_error (list (result io_error entry)) }.

Section temps.
Context `{Paths.DirKernel} `{TempKernel} `{FileSystem.Host}.

Notation T := (M Paths.dir_state RuntimeLedger.LaunchError).

Definition random {E} : M Paths.dir_state E Z := fun s =>
  (Ok (random_at (Paths.p_clock s)), Paths.MkDirs (S (Paths.p_clock s)) (Paths.p_made s)).

Definition random_hex (r : Z) : string := fmt_hex_fixed 32 r.

(** [let _ = ..]: the error is dropped. *)
Definition ignore {S E E' A} (m : M S E A) : M S E' unit := _ ← tryM m; mret tt.

Definition remove_launch_temp_tree (p : Auth.path) : M Paths.dir_state io_error unit :=
  found ← Paths.lstat p;
  match found with
  | Err error => if errno_is error ENOENT then mret tt else fail error
  | Ok md =>
      if Auth.is_symlink (Auth.md_mode md) || negb (is_directory (Auth.md_mode md))
      then Paths.remove_file p else Paths.remove_dir_all p
  end.

(** A directory made with mode 0700 whatever the umask, and checked. *)
Definition make_private (p : Auth.path) : T (result Paths.PathError unit) :=
  _ ← ignore (Paths.set_permissions p 448);
  tryM (Paths.validate_dir p).

Definition LAUNCH_TEMP_ATTEMPTS : nat := 32.

Fixpoint create_launch_temp_go (attempts : nat) (root : Auth.path) : T Auth.path :=
  match attempts with
  | O => fail (launch_error "sandbox launch temp directory could not be allocated")
  | S attempts' =>
      r ← random;
      let path := Auth.PJoin root ("launch-" +:+ random_hex r) in
      created ← tryM (Paths.create_dir path);
      match created with
      | Ok _ =>
          checked ← make_private path;
          match checked with
          | Err error =>
              _ ← ignore (Paths.remove_dir path);
              fail (launch_error ("sandbox launch temp directory is not private: "
                                    +:+ Paths.display error))
          | Ok _ => mret path
          end
      | Err error =>
          if errno_is error EEXIST then create_launch_temp_go attempts' root
          else fail (launch_error "sandbox launch temp directory could not be created")
      end
  end.
Definition create_launch_temp (p : t) : T Auth.path := create_launch_temp_go LAUNCH_TEMP_ATTEMPTS (temp_root p).

(** The generation's root and, inside it, the directory used as [TMPDIR]. *)
Record RuntimeTemp := MkRuntimeTemp { rt_root : Auth.path; rt_path : Auth.path }.

Fixpoint create_runtime_temp_go (attempts : nat) (temp_root : Auth.path) (generation : Z) : T RuntimeTemp :=
  match attempts with
  | O => fail (launch_error "sandbox runtime temp could not be allocated")
  | S attempts' =>
      r ← random;
      let root := Auth.PJoin temp_root ("sandbox-" +:+ random_hex r +:+ "-" +:+ fmt_dec generation) in
      let path := Auth.PJoin root "tmp" in
      created_root ← tryM (Paths.create_dir root);
      match created_root with
      | Ok _ =>
          checked ← make_private root;
          match checked with
          | Err error =>
              _ ← ignore (Paths.remove_dir root);
              fail (launch_error ("sandbox runtime temp root is not private: " +:+ Paths.display error))
          | Ok _ =>
              created_tmp ← tryM (Paths.create_dir path);
              match created_tmp with
              | Err error =>
                  _ ← ignore (remove_launch_temp_tree root);
                  fail (launch_error ("sandbox runtime temp directory could not be created: "
                                        +:+ io_display error))
              | Ok _ =>
                  checked ← make_private path;
                  match checked with
                  | Err error =>
                      _ ← ignore (remove_launch_temp_tree root);
                      fail (launch_error ("sandbox runtime temp directory is not private: "
                                            +:+ Paths.display error))
                  | Ok _ => mret (MkRuntimeTemp root path)
                  end
              end
          end
      | Err error =>
          if errno_is error EEXIST then create_runtime_temp_go attempts' temp_root generation
          else fail (launch_error "sandbox runtime temp root could not be created")
      end
  end.
Definition create_runtime_temp (p : t) (generation : Z) : T RuntimeTemp :=
  create_runtime_temp_go LAUNCH_TEMP_ATTEMPTS (temp_root p) generation.

Definition remove_runtime_temp (temp : RuntimeTemp) : T unit :=
  mapE (fun error => launch_error ("sandbox runtime temp directory could not be removed: "
                                     +:+ io_display error))
    (remove_launch_temp_tree (rt_root temp)).

Fixpoint reconcile_entries (removed : Z) (entries : list (result io_error entry)) : T Z :=
  match entries with
  | [] => mret removed
  | Err error :: _ =>
      fail (launch_error ("sandbox runtime root entry could not be read: " +:+ io_display error))
  | Ok entry :: rest =>
      if negb (match entry_name entry with
               | Some name => starts_with "sandbox-" name | None => false end)
      then reconcile_entries removed rest
      else match entry_is_dir entry with
           | Err error =>
               fail (launch_error ("sandbox runtime entry type could not be read: " +:+ io_display error))
           | Ok false => reconcile_entries removed rest
           | Ok true =>
               _ ← mapE (fun error => launch_error ("stale sandbox runtime temp could not be removed: "
                                                      +:+ io_display error))
                     (remove_launch_temp_tree (entry_path entry));
               reconcile_entries (removed + 1) rest
           end
  end.

Definition reconcile_runtime_temp (p : t) : T Z :=
  _ ← mapE (fun error => launch_error ("sandbox runtime root is unsafe: " +:+ Paths.display error))
        (Paths.validate_dir (temp_root p));
  found ← (fun s => (Ok (read_dir_at (Paths.p_clock s) (temp_root p)),
                     Paths.MkDirs (S (Paths.p_clock s)) (Paths.p_made s)) : _ * _);
  match found with
  | Err error =>
      fail (launch_error ("sandbox runtime root could not be listed: " +:+ io_display error))
  | Ok entries => reconcile_entries 0 entries
  end.
End temps.

(** ** The environment, by name *)

Fixpoint assoc (name : string) (l : list (string * string)) : option string :=
  match l with
  | [] => None
  | (n, v) :: rest => if bool_decide (n = name) then Some v else assoc name rest
  end.

(** What a process finds under a name: the launch's own settings, then the
    connection's, then the sandbox's home, then the operator's. *)
Definition env_spec (p : t) (workspace : string) (term temp_dir : option string)
    (overrides : list (string * string)) (name : string) : option string :=
  let base :=
    match assoc name overrides with
    | Some value => Some value
    | None =>
        if bool_decide (name = "HOME") || bool_decide (name = "PWD")
        then Some (from_utf8_lossy workspace)
        else if bool_decide (name = "SHELL") then Some (from_utf8_lossy (shell p))
        else assoc name (sandbox_env p)
    end in
  let terminal :=
    match term with
    | Some term => if bool_decide (name = "TERM") then Some term else base
    | None => base
    end in
  match temp_dir with
  | Some d => if bool_decide (name = "TMPDIR") then Some (from_utf8_lossy d) else terminal
  | None => terminal
  end.

(** The names shbox manages are reserved. *)
Definition managed_names : list string := ["HOME"; "PWD"; "SHELL"; "TMPDIR"; "TERM"].

Lemma managed_reserved name : name ∈ managed_names → name ∈ Config.RESERVED_ENV_NAMES.
Proof. intros Hn. change (name ∈ managed_names ++ drop 5 Config.RESERVED_ENV_NAMES). apply elem_of_app. by left. Qed.

Lemma operator_name_unmanaged e : Config.env_entry_ok e → e.1 ∉ managed_names.
Proof. intros (_ & Hres & _) Hin. by apply Hres, managed_reserved. Qed.

Lemma assoc_elem name value l : NoDup l.*1 → assoc name l = Some value ↔ (name, value) ∈ l.
Proof.
  induction l as [|[n v] l IH]; cbn; [intros _; split; [done|by intros ?%not_elem_of_nil]|].
  intros [Hn Hnd]%NoDup_cons. rewrite elem_of_cons. case_bool_decide as Heq.
  - subst. split; [intros [= ->]; by left|]. intros [[= ->]|Hin]; [done|].
    destruct Hn. apply list_elem_of_fmap. by exists (name, value).
  - rewrite IH by done. naive_solver.
Qed.

Lemma assoc_None name l : assoc name l = None ↔ name ∉ l.*1.
Proof.
  induction l as [|[n v] l IH]; cbn; [split; [intros _; apply not_elem_of_nil|done]|].
  rewrite not_elem_of_cons. case_bool_decide; naive_solver.
Qed.

Lemma override_names name value env :
  NoDup env.*1 → NoDup (override name value env).*1.
Proof.
  intros Hnd. unfold override. rewrite fmap_app. apply NoDup_app. split_and!.
  - eapply sublist_NoDup; [exact Hnd|]. apply fmap_sublist, sublist_filter.
  - intros n (b & -> & [Hne _]%list_elem_of_filter)%list_elem_of_fmap.
    by intros ?%list_elem_of_singleton.
  - apply NoDup_singleton.
Qed.

Lemma assoc_override n v env name :
  assoc name (override n v env) = if bool_decide (name = n) then Some v else assoc name env.
Proof.
  unfold override. induction env as [|[m w] env IH].
  - cbn. rewrite (bool_decide_ext (n = name) (name = n)) by naive_solver. done.
  - rewrite filter_cons. cbn [fst]. destruct (decide (m ≠ n)) as [Hmn|Hmn]; cbn [assoc app]; rewrite IH.
    + repeat case_bool_decide; congruence.
    + repeat case_bool_decide; naive_solver.
Qed.

Lemma overrides_names overrides env :
  NoDup env.*1 → NoDup (foldl (fun env b => override b.1 b.2 env) env overrides).*1.
Proof.
  revert env; induction overrides as [|[n v] overrides IH]; intros env Hnd; cbn; [done|].
  by apply IH, override_names.
Qed.

Lemma assoc_overrides overrides env name :
  NoDup overrides.*1 →
  assoc name (foldl (fun env b => override b.1 b.2 env) env overrides)
    = match assoc name overrides with Some v => Some v | None => assoc name env end.
Proof.
  revert env; induction overrides as [|[n v] overrides IH]; intros env; cbn; [done|].
  intros [Hn Hnd]%NoDup_cons. rewrite IH, assoc_override by done. case_bool_decide as Heq.
  - subst. rewrite bool_decide_true by done.
    by rewrite (proj2 (assoc_None n overrides) Hn).
  - rewrite bool_decide_false by congruence. done.
Qed.

(** The operator's names never collide with the sandbox's own. *)
Lemma operator_env_names p workspace :
  sorted (sandbox_env p) → Forall Config.env_entry_ok (sandbox_env p) →
  NoDup ([("HOME", workspace); ("PWD", workspace); ("SHELL", from_utf8_lossy (shell p))]
           ++ sandbox_env p).*1.
Proof.
  intros Hs Hok. rewrite fmap_app. apply NoDup_app. split_and!; [|intros n Hn Hin|by apply sorted_NoDup].
  - refine (bool_decide_unpack (NoDup ["HOME"; "PWD"; "SHELL"]) _). by vm_compute.
  - apply list_elem_of_fmap in Hin as (b & -> & Hb). rewrite Forall_forall in Hok.
    apply (operator_name_unmanaged b (Hok b Hb)). clear -Hn. cbn in Hn. unfold managed_names.
    rewrite !elem_of_cons, elem_of_nil in Hn. rewrite !elem_of_cons. tauto.
Qed.

Lemma environment_by_name p workspace term temp_dir overrides :
  sorted (sandbox_env p) → Forall Config.env_entry_ok (sandbox_env p) → NoDup overrides.*1 →
  let env := environment_for_with_overrides p workspace term temp_dir overrides in
  NoDup env.*1 ∧
  (∀ name value, (name, value) ∈ env ↔ env_spec p workspace term temp_dir overrides name = Some value).
Proof.
  intros Hs Hok Hover env. pose proof (operator_env_names p (from_utf8_lossy workspace) Hs Hok) as Hbase.
  assert (Hnd : NoDup env.*1).
  { unfold env, environment_for_with_overrides.
    destruct temp_dir; [apply override_names|]; (destruct term; [apply override_names|]);
      by apply overrides_names. }
  split; [done|].
  intros name value. rewrite <-assoc_elem by done. unfold env, environment_for_with_overrides, env_spec.
  assert (Hb : assoc name ([("HOME", from_utf8_lossy workspace); ("PWD", from_utf8_lossy workspace);
      ("SHELL", from_utf8_lossy (shell p))] ++ sandbox_env p) =
    if bool_decide (name = "HOME") || bool_decide (name = "PWD") then Some (from_utf8_lossy workspace)
    else if bool_decide (name = "SHELL") then Some (from_utf8_lossy (shell p)) else assoc name (sandbox_env p)).
  { cbn. repeat case_bool_decide; naive_solver. }
  destruct temp_dir as [d|], term as [tm|]; by rewrite ?assoc_override, assoc_overrides, Hb.
Qed.

(** The environment of a launch is exactly the reference one: every name once,
    and under each name the launch's own temporary directory and terminal before the
    connection's variables, those before the workspace and shell, and the operator's
    settings last; an operator's entry never hides what shbox manages. *)
Theorem launch_environment_is_exact p workspace term temp_dir overrides :
  sorted (sandbox_env p) → Forall Config.env_entry_ok (sandbox_env p) → NoDup overrides.*1 →
  let env := environment_for_with_overrides p workspace term temp_dir overrides in
  NoDup env.*1 ∧
  (∀ name value, (name, value) ∈ env ↔ env_spec p workspace term temp_dir overrides name = Some value) ∧
  (∀ b, b ∈ sandbox_env p → b.1 ∉ managed_names).
Proof.
  intros Hs Hok Hover env. destruct (environment_by_name p workspace term temp_dir overrides) as [Hnd Hin];
    [done..|]. split_and!; [done..|].
  intros b Hb. rewrite Forall_forall in Hok. by apply operator_name_unmanaged, Hok.
Qed.

Definition sample_policy : t :=
  MkPolicy "/bin/bash" Config.Disabled [("LANG", "C.UTF-8"); ("PATH", "/usr/bin")] Auth.PRoot
    (Config.MkResources None None None None None) None Config.Host [] [].

Lemma launch_environment_is_exact_witness :
  environment_for_with_overrides sample_policy "/work" (Some "xterm") (Some "/tmp/x") [("LANG", "de"); ("SSH_CLIENT", "a")]
    = [("HOME", "/work"); ("PWD", "/work"); ("SHELL", "/bin/bash"); ("PATH", "/usr/bin"); ("LANG", "de");
       ("SSH_CLIENT", "a"); ("TERM", "xterm"); ("TMPDIR", "/tmp/x")] ∧
  ∀ b, b ∈ sandbox_env sample_policy → b.1 ∉ managed_names.
Proof.
  split; [vm_compute; reflexivity|].
  apply (launch_environment_is_exact sample_policy "/work" (Some "xterm") (Some "/tmp/x")
           [("LANG", "de"); ("SSH_CLIENT", "a")]).
  - vm_compute. done.
  - repeat apply Forall_cons_2; [..|apply Forall_nil_2];
      (split_and!; [done|refine (bool_decide_unpack (_ ∉ _) _); vm_compute; done
                   |refine (bool_decide_unpack _ _); vm_compute; done|done|vm_compute; done]).
  - refine (bool_decide_unpack _ _). vm_compute. done.
Defined.

(** ** Resolved tiers *)

Lemma dedup_incl l x : x ∈ dedup l → x ∈ l.
Proof.
  induction l as [|a l IH]; [done|]. destruct l as [|b l]; [done|].
  change (dedup (a :: b :: l)) with (if Config.same_path a b then dedup (b :: l) else a :: dedup (b :: l)).
  destruct (Config.same_path a b); rewrite !elem_of_cons in *; naive_solver.
Qed.

Lemma dedup_covers l x : x ∈ l → ∃ y, y ∈ dedup l ∧ Path.components y = Path.components x.
Proof.
  revert x; induction l as [|a l IH]; intros x; [by intros ?%not_elem_of_nil|]. destruct l as [|b l].
  - intros Hx. exists x. by split.
  - change (dedup (a :: b :: l)) with (if Config.same_path a b then dedup (b :: l) else a :: dedup (b :: l)).
    destruct (Config.same_path a b) eqn:Hs.
    + intros [-> |Hx]%elem_of_cons; [|by apply IH]. unfold Config.same_path in Hs. bool_to_prop.
      destruct (IH b ltac:(by left)) as (y & Hy & Heq). exists y. split; [done|congruence].
    + intros [-> |Hx]%elem_of_cons; [exists a; split; [by left|done]|].
      destruct (IH x Hx) as (y & Hy & Heq). exists y. split; [by right|done].
Qed.

(** ** The temporary trees *)

Section temp_facts.
Context `{Paths.DirKernel} `{TempKernel} `{FileSystem.Host}.

(** A run only appends to the record of changes, and time passes. *)
Definition extends (s s' : Paths.dir_state) (l : list Paths.made) : Prop :=
  Paths.p_made s' = Paths.p_made s ++ l ∧ (Paths.p_clock s <= Paths.p_clock s')%nat.

Lemma extends_trans s1 s2 s3 l l' : extends s1 s2 l → extends s2 s3 l' → extends s1 s3 (l ++ l').
Proof. intros [Hm Hc] [Hm' Hc']. split; [by rewrite Hm', Hm, app_assoc|lia]. Qed.

Lemma change_run m r s :
  ∃ l, extends s (Paths.change m r s).2 l ∧ (Paths.change m r s).1 = r ∧ l = if is_ok r then [m] else [].
Proof.
  eexists. split_and!; [|done|done]. unfold Paths.change, extends. cbn.
  split; [|lia]. destruct r; cbn; [done|by rewrite app_nil_r].
Qed.

Lemma validate_dir_extends p s r s' : Paths.validate_dir p s = (r, s') → extends s s' [].
Proof.
  unfold Paths.validate_dir, mbind, M_bind, Paths.lstat. intros Hr.
  assert (s' = Paths.MkDirs (S (Paths.p_clock s)) (Paths.p_made s)) as ->.
  { by repeat (case_match; try (by injection Hr as _ <-)). }
  split; cbn; [by rewrite app_nil_r|lia].
Qed.

Lemma make_private_Ok (p : Auth.path) s s' :
  make_private p s = (Ok (Ok tt), s') →
  Paths.private_dir (Paths.p_clock s) (Paths.p_clock s') p ∧ ∃ l, extends s s' l.
Proof.
  unfold make_private, ignore. intros Hr. apply bind_Ok in Hr as ([] & s1 & Hperm & Hval).
  apply bind_Ok in Hperm as (r & s2 & Hset%tryM_Ok & [_ ->]%ret_Ok). apply tryM_Ok in Hval.
  pose proof (validate_dir_extends _ _ _ _ Hval) as Hext. apply Paths.validate_dir_Ok in Hval as (Hp & _ & _).
  destruct (change_run (Paths.Chmod p 448) (Paths.chmod_at (Paths.p_clock s) p 448) s) as (l & Hl & _ & _).
  unfold Paths.set_permissions in Hset. rewrite Hset in Hl. cbn in Hl.
  split; [|eexists; by eapply extends_trans].
  eapply Paths.private_dir_weaken; [..|exact Hp]; [apply Hl|lia].
Qed.

Lemma runtime_temp_go_Ok attempts root generation s rt s' :
  create_runtime_temp_go attempts root generation s = (Ok rt, s') →
  ∃ name l, rt_root rt = Auth.PJoin root name ∧ starts_with "sandbox-" name = true ∧
    rt_path rt = Auth.PJoin (rt_root rt) "tmp" ∧
    Paths.private_dir (Paths.p_clock s) (Paths.p_clock s') (rt_root rt) ∧
    Paths.private_dir (Paths.p_clock s) (Paths.p_clock s') (rt_path rt) ∧
    extends s s' l ∧ Paths.Mkdir (rt_root rt) ∈ l ∧ Paths.Mkdir (rt_path rt) ∈ l.
Proof.
  revert s; induction attempts as [|attempts IH]; intros s Hr; cbn [create_runtime_temp_go] in Hr; [done|].
  apply bind_Ok in Hr as (r & s1 & Hrand & Hr). unfold random in Hrand. injection Hrand as <- <-.
  set (name := "sandbox-" +:+ _) in Hr. set (p := Auth.PJoin root name) in Hr.
  apply bind_Ok in Hr as (c & s2 & Hc%tryM_Ok & Hr). unfold Paths.create_dir in Hc.
  destruct (change_run (Paths.Mkdir p) (Paths.mkdir_at (S (Paths.p_clock s)) p)
    (Paths.MkDirs (S (Paths.p_clock s)) (Paths.p_made s))) as (l1 & Hl1 & Hr1 & Hm1).
  cbn [Paths.p_clock] in Hc. rewrite Hc in Hl1, Hr1. cbn in Hl1, Hr1. subst c.
  assert (Hext1 : extends s s2 l1) by (destruct Hl1 as [Hm Hk]; split; [done|cbn in Hk; lia]).
  destruct (Paths.mkdir_at _ p) as [[]|err] eqn:Hmk.
  - apply bind_Ok in Hr as ([[]|e] & s3 & Hp & Hr); [|by apply bind_Ok in Hr as (? & ? & _ & ?)].
    apply make_private_Ok in Hp as [Hpriv [l2 Hext2]].
    apply bind_Ok in Hr as (c2 & s4 & Hc2%tryM_Ok & Hr). unfold Paths.create_dir in Hc2.
    destruct (change_run (Paths.Mkdir (Auth.PJoin p "tmp"))
      (Paths.mkdir_at (Paths.p_clock s3) (Auth.PJoin p "tmp")) s3) as (l3 & Hext3 & Hr3 & Hm3).
    rewrite Hc2 in Hext3, Hr3. cbn in Hext3, Hr3. subst c2.
    destruct (Paths.mkdir_at _ (Auth.PJoin p "tmp")) as [[]|]; [|by apply bind_Ok in Hr as (? & ? & _ & ?)].
    apply bind_Ok in Hr as ([[]|e] & s5 & Hp2 & Hr); [|by apply bind_Ok in Hr as (? & ? & _ & ?)].
    apply make_private_Ok in Hp2 as [Hpriv2 [l4 Hext4]]. apply ret_Ok in Hr as [-> ->]. cbn in *. subst l1 l3.
    exists name, ([Paths.Mkdir p] ++ l2 ++ [Paths.Mkdir (Auth.PJoin p "tmp")] ++ l4).
    destruct Hext1 as [Hext1m Hext1c], Hext2 as [Hext2m Hext2c], Hext3 as [Hext3m Hext3c], Hext4 as [Hext4m Hext4c].
    split_and!; [done|by vm_compute|done| | | | |].
    + eapply Paths.private_dir_weaken; [..|exact Hpriv]; lia.
    + eapply Paths.private_dir_weaken; [..|exact Hpriv2]; lia.
    + split; [by rewrite Hext4m, Hext3m, Hext2m, Hext1m, <-!app_assoc|lia].
    + rewrite !elem_of_app. left. by left.
    + rewrite !elem_of_app. right. right. left. by left.
  - destruct (errno_is err EEXIST); [|done].
    apply IH in Hr as (name' & l' & ? & ? & ? & Hp1 & Hp2 & Hext & ? & ?).
    destruct Hext1 as [Hext1m Hext1c]. exists name', (l1 ++ l'). split_and!; try done.
    + eapply Paths.private_dir_weaken; [..|exact Hp1]; lia.
    + eapply Paths.private_dir_weaken; [..|exact Hp2]; lia.
    + by eapply extends_trans.
    + apply elem_of_app. by right.
    + apply elem_of_app. by right.
Qed.

(** A listed entry that start-up may remove. *)
Definition stale (entries : list (result io_error entry)) (q : Auth.path) : Prop :=
  ∃ e name, Ok e ∈ entries ∧ entry_name e = Some name ∧ starts_with "sandbox-" name = true ∧
    entry_is_dir e = Ok true ∧ entry_path e = q.

Definition removes_only (P : Auth.path → Prop) (l : list Paths.made) : Prop :=
  Forall (fun m => ∃ q, (m = Paths.RemoveTree q ∨ m = Paths.RemoveFile q) ∧ P q) l.

Lemma launch_tree_run q s r s' :
  remove_launch_temp_tree q s = (r, s') → ∃ l, extends s s' l ∧ removes_only (eq q) l.
Proof.
  unfold remove_launch_temp_tree, mbind, M_bind, Paths.lstat. set (s1 := Paths.MkDirs _ _).
  assert (Hs1 : extends s s1 []) by (split; cbn; [by rewrite app_nil_r|lia]).
  assert (Hchange : ∀ m res, (m = Paths.RemoveTree q ∨ m = Paths.RemoveFile q) →
    ∃ l, extends s (Paths.change m res s1).2 l ∧ removes_only (eq q) l).
  { intros m res Hm. destruct (change_run m res s1) as (l & Hl & _ & ->). eexists.
    split; [by eapply extends_trans|]. destruct (is_ok res); [|constructor].
    apply Forall_singleton. by exists q. }
  destruct (Paths.lstat_at (Paths.p_clock s) q) as [md|err].
  - destruct (_ || _); unfold Paths.remove_file, Paths.remove_dir_all; intros Hr;
      [destruct (Hchange (Paths.RemoveFile q) (Paths.remove_file_at (Paths.p_clock s1) q)) as (l & Hl); [by right|]
      |destruct (Hchange (Paths.RemoveTree q) (Paths.remove_tree_at (Paths.p_clock s1) q)) as (l & Hl); [by left|]];
      rewrite Hr in Hl; by exists l.
  - destruct (errno_is err ENOENT); intros Hr; (assert (s' = s1) as -> by (by injection Hr)); exists [];
      (split; [done|constructor]).
Qed.

Lemma removes_only_weaken (P Q : Auth.path → Prop) l : (∀ q, P q → Q q) → removes_only P l → removes_only Q l.
Proof. intros HPQ Hl. eapply Forall_impl; [exact Hl|]. intros m (q & Hm & Hq). exists q. auto. Qed.

Lemma reconcile_entries_run removed entries s r s' :
  reconcile_entries removed entries s = (r, s') → ∃ l, extends s s' l ∧ removes_only (stale entries) l.
Proof.
  assert (Hnone : ∀ s, ∃ l, extends s s l ∧ removes_only (stale entries) l).
  { intros s0. exists []. split; [split; [by rewrite app_nil_r|lia]|constructor]. }
  revert Hnone removed s; induction entries as [|[e|err] entries IH]; intros Hnone removed s; cbn [reconcile_entries].
  - intros [= _ <-]. apply Hnone.
  - assert (Hmono : ∀ q, stale entries q → stale (Ok e :: entries) q).
    { intros q (e' & n & Hin & Hrest). exists e', n. split; [by right|done]. }
    assert (Hskip : reconcile_entries removed entries s = (r, s') →
      ∃ l, extends s s' l ∧ removes_only (stale (Ok e :: entries)) l).
    { intros Hr. apply IH in Hr as (l & Hl & Hrem).
      - exists l. split; [done|]. by eapply removes_only_weaken.
      - intros s0. exists []. split; [split; [by rewrite app_nil_r|lia]|constructor]. }
    destruct (negb _) eqn:Hname; [done|]. apply negb_false_iff in Hname.
    destruct (entry_is_dir e) as [[]|err] eqn:Hdir; [|done|by intros [= _ <-]].
    intros Hr. apply bind_inv in Hr as [([] & s1 & Hrm & Hr)|(err & Hrm & _)];
      unfold mapE in Hrm; destruct (remove_launch_temp_tree (entry_path e) s) as [res s2] eqn:Hrun;
      injection Hrm as _ ->; apply launch_tree_run in Hrun as (l1 & Hl1 & Hrem1).
    all: assert (Hst : removes_only (stale (Ok e :: entries)) l1) by
      (eapply removes_only_weaken; [|exact Hrem1]; intros q <-;
       destruct (entry_name e) as [name|] eqn:Hn; [|done]; exists e, name; split_and!; (done || by left)).
    + apply IH in Hr as (l2 & Hl2 & Hrem2).
      * exists (l1 ++ l2). split; [by eapply extends_trans|]. apply Forall_app. split; [done|].
        by eapply removes_only_weaken.
      * intros s0. exists []. split; [split; [by rewrite app_nil_r|lia]|constructor].
    + exists l1. by split.
  - intros [= _ <-]. apply Hnone.
Qed.

(** Runtime temporary trees are private, fresh and reclaimable: creating one made a
    new directory under the runtime root, with the [tmp] directory inside it, and saw
    both as the daemon's own and private; its name is one start-up recognises, and
    start-up's cleaning removes nothing but directories it listed under such names. *)
Theorem runtime_temps_are_private_and_reclaimed p :
  (∀ generation s rt s',
    create_runtime_temp p generation s = (Ok rt, s') →
    ∃ name l, rt_root rt = Auth.PJoin (temp_root p) name ∧ starts_with "sandbox-" name = true ∧
      rt_path rt = Auth.PJoin (rt_root rt) "tmp" ∧
      Forall (Paths.private_dir (Paths.p_clock s) (Paths.p_clock s')) [rt_root rt; rt_path rt] ∧
      Paths.p_made s' = Paths.p_made s ++ l ∧
      Paths.Mkdir (rt_root rt) ∈ l ∧ Paths.Mkdir (rt_path rt) ∈ l) ∧
  (∀ s r s',
    reconcile_runtime_temp p s = (r, s') →
    ∃ entries l, Paths.p_made s' = Paths.p_made s ++ l ∧ removes_only (stale entries) l ∧
      (l ≠ [] → read_dir_at (S (Paths.p_clock s)) (temp_root p) = Ok entries)).
Proof.
  split.
  - intros generation s rt s' Hr.
    apply runtime_temp_go_Ok in Hr as (name & l & ? & ? & ? & ? & ? & [? _] & ? & ?).
    exists name, l. split_and!; try done. by repeat apply Forall_cons_2.
  - intros s r s' Hr. unfold reconcile_runtime_temp in Hr.
    apply bind_inv in Hr as [([] & s1 & Hv & Hr)|(e & Hv & _)];
      unfold mapE in Hv; destruct (Paths.validate_dir (temp_root p) s) as [res s2] eqn:Hval;
      injection Hv as Hres ->; pose proof (validate_dir_extends _ _ _ _ Hval) as [Hm Hc].
    2: { exists [], []. rewrite Hm, app_nil_r. split_and!; [done|constructor|done]. }
    assert (Hclock : Paths.p_clock s1 = S (Paths.p_clock s)).
    { revert Hval. unfold Paths.validate_dir, mbind, M_bind, Paths.lstat. intros Hval.
      by repeat (case_match; try (by injection Hval as _ <-)). }
    unfold mbind, M_bind in Hr. set (s2 := Paths.MkDirs (S (Paths.p_clock s1)) (Paths.p_made s1)) in Hr.
    assert (Hm2 : Paths.p_made s2 = Paths.p_made s) by (cbn; by rewrite Hm, app_nil_r).
    destruct (read_dir_at (Paths.p_clock s1) (temp_root p)) as [entries|err] eqn:Hread.
    + apply reconcile_entries_run in Hr as (l & [Hl _] & Hrem). exists entries, l.
      rewrite Hl, Hm2. split_and!; [done..|]. intros _. by rewrite <-Hclock.
    + injection Hr as _ <-. exists [], []. rewrite Hm2, app_nil_r. split_and!; [done|constructor|done].
Qed.
End temp_facts.

Definition quiet_dirs : Paths.DirKernel := {|
  Paths.lstat_at := fun _ _ => Ok (Auth.MkMetadata 16832 1000 0 0 0 0 0);
  Paths.mkdir_at := fun _ _ => Ok tt; Paths.chmod_at := fun _ _ _ => Ok tt;
  Paths.rmdir_at := fun _ _ => Ok tt; Paths.remove_file_at := fun _ _ => Ok tt;
  Paths.remove_tree_at := fun _ _ => Ok tt; Paths.geteuid := 1000 |}.

Definition quiet_temps : TempKernel := {| random_at := fun _ => 255; read_dir_at := fun _ _ => Ok [] |}.

Definition sample_runtime_root : Auth.path :=
  Auth.PJoin Auth.PRoot "sandbox-000000000000000000000000000000ff-1".

Lemma runtime_temps_are_private_and_reclaimed_witness :
  ∃ rt s', @create_runtime_temp quiet_dirs quiet_temps sample_host sample_policy 1 (Paths.MkDirs 0 [])
      = (Ok rt, s') ∧ rt_root rt = sample_runtime_root ∧
    Forall (@Paths.private_dir quiet_dirs 0%nat (Paths.p_clock s')) [rt_root rt; rt_path rt].
Proof.
  eexists _, _. split; [vm_compute; reflexivity|]. split; [reflexivity|].
  edestruct (proj1 (@runtime_temps_are_private_and_reclaimed quiet_dirs quiet_temps sample_host sample_policy)
           1 (Paths.MkDirs 0 [])) as (name & l & _ & _ & _ & Hp & _).
  - vm_compute; reflexivity.
  - exact Hp.
Defined.
End Policy.
