(* ===== verification/LinuxLaunch.v ===== *)
(** * What a Linux launch asks of the engine ([platform/linux.rs])

    The command and engine configuration [LinuxLauncher::launch] builds from the
    policy snapshot and a request, and the proof that an accepted configuration
    gives launches the engine's validation accepts.  The process domains a launch
    joins are in [Domains]. *)

From S2P Require Import Prelude BTree Text PathNames Toml SocketAddr Endpoint FileSystem RuntimeLedger Manager Auth Paths Config EnginePolicy LaunchPolicy.

Module LinuxLaunch.
Import Engine.

Definition validate_request_identity (policy : Config.SandboxIdentity) (request : option IsolatedIdentity)
    : result RuntimeLedger.LaunchError unit :=
  match policy, request with
  | Config.Isolated, None =>
      Err (Policy.launch_error "isolated sandbox launch has no active subordinate identity lease")
  | Config.Host, Some _ =>
      Err (Policy.launch_error "host sandbox launch received an isolated identity lease")
  | _, _ => Ok tt
  end.

Definition command_spec (p : Policy.t) (operation : Manager.LaunchOperation) (workspace : string)
    : result RuntimeLedger.LaunchError CommandSpec :=
  command ← Policy.validated_shell_command operation;
  match command with
  | Some command_arg =>
      mret (MkCommand (Policy.shell p) ["-c"; command_arg] None [] (Some workspace)
              StdioNull StdioNull StdioNull SessionInherit)
  | None =>
      argv0 ← Policy.login_shell_argv0 (Policy.shell p);
      mret (MkCommand (Policy.shell p) [] (Some argv0) [] (Some workspace)
              StdioNull StdioNull StdioNull SessionInherit)
  end.

(** The command [launch] hands to the engine: its environment, and the streams of
    the terminal ([setup_fd]) or pipes. *)
Definition launch_command (p : Policy.t) (operation : Manager.LaunchOperation) (workspace temp : string)
    (term : option string) (environment : list (string * string)) (setup_fd : option Z)
    : result RuntimeLedger.LaunchError CommandSpec :=
  command ← command_spec p operation workspace;
  let env := Policy.environment_for_with_overrides p workspace term (Some temp) environment in
  let stdio := match setup_fd with Some fd => StdioFd fd | None => StdioPipe end in
  mret (MkCommand (program command) (args command) (argv0 command) env (cwd command)
          stdio stdio stdio
          (match setup_fd with Some _ => NewSessionWithControllingTerminal | None => NewSession end)).

(** ** Names and values without NUL *)

Lemma has_nul_app a b : has_nul (a +:+ b) = has_nul a || has_nul b.
Proof. unfold has_nul. by rewrite str_all_app, negb_andb. Qed.

Lemma str_all_take f n s : str_all f s = true → str_all f (str_take n s) = true.
Proof.
  revert s; induction n as [|n IH]; intros [|c s]; cbn; try done. rewrite !andb_true_iff. naive_solver.
Qed.

Lemma str_all_drop f n s : str_all f s = true → str_all f (str_drop n s) = true.
Proof.
  revert s; induction n as [|n IH]; intros [|c s]; cbn; try done. rewrite andb_true_iff. naive_solver.
Qed.

Lemma lossy_no_nul s : has_nul s = false → has_nul (from_utf8_lossy s) = false.
Proof.
  unfold has_nul, from_utf8_lossy. rewrite !negb_false_iff. generalize (String.length s) as fuel.
  intros fuel. revert s; induction fuel as [|fuel IH]; intros s Hs; cbn [utf8_lossy_go]; [by destruct s|].
  destruct s as [|c s]; [done|]. destruct (utf8_next (String c s)) as [ok n].
  rewrite str_all_app, andb_true_iff. split; [|by apply IH, str_all_drop].
  destruct ok; [by apply str_all_take|by vm_compute].
Qed.

Definition name_char (c : Ascii.ascii) : bool := is_ascii_alphanumeric c || (byte_val c =? 95).

Lemma valid_name_chars name :
  Config.is_valid_env_name name = true → name ≠ "" ∧ str_all name_char name = true.
Proof.
  destruct name as [|c name]; cbn; [done|]. rewrite !andb_true_iff, orb_true_iff. intros [Hc Hn].
  split_and!; [done| |done]. unfold name_char, is_ascii_alphanumeric.
  destruct Hc as [-> | ->]; [by rewrite orb_true_r|by rewrite orb_true_r].
Qed.

Lemma name_char_not c d : name_char c = true → name_char d = false → c ≠ d.
Proof. congruence. Qed.

Lemma valid_name_safe name :
  Config.is_valid_env_name name = true →
  name ≠ "" ∧ has_nul name = false ∧ contains_char (byte_of 61) name = false.
Proof.
  intros [Hne Hall]%valid_name_chars. split; [done|]. unfold has_nul, contains_char.
  split; apply negb_false_iff; eapply str_all_impl; try exact Hall; intros c Hc; apply negb_true_iff.
  - apply Z.eqb_neq. intros H0. apply (name_char_not c (byte_of 0)); [done|by vm_compute|].
    unfold byte_val in H0. assert (Ascii.N_of_ascii c = 0%N) as Hc0 by lia.
    rewrite <-(Ascii.ascii_N_embedding c), Hc0. done.
  - apply bool_decide_eq_false_2. apply name_char_not; [done|by vm_compute].
Qed.

(** ** A file system that keeps still

    What [realpath] documents, for a tree nobody changes between start-up and the
    launch: one answer per path, and a canonical path that is absolute and resolves
    to itself. *)
Class StaticPaths `{Policy.PolicyKernel} `{EngineKernel} := {
  resolve : string → result io_error string;
  policy_resolves : ∀ u p, Policy.policy_realpath_at u p = resolve p;
  engine_resolves : ∀ u p, engine_realpath_at u p = resolve p;
  exists_resolves : ∀ u p, Policy.exists_at u p = is_ok (resolve p);
  resolve_canonical : ∀ p c, resolve p = Ok c →
    Path.is_absolute c = true ∧ has_nul c = false ∧ resolve c = Ok c }.

Section launch.
Context `{Build} `{UnicodeTables} `{StaticPaths}.

Lemma retain_existing_elem paths now x :
  x ∈ (Policy.retain_existing paths now).1 ↔ x ∈ paths ∧ is_ok (resolve x) = true.
Proof.
  revert now; induction paths as [|p paths IH]; intros now; cbn.
  - split; [by intros ?%not_elem_of_nil|by intros [?%not_elem_of_nil _]].
  - specialize (IH (S now)). destruct (Policy.retain_existing paths (S now)) as [kept now'].
    cbn in *. rewrite exists_resolves. destruct (is_ok (resolve p)) eqn:Hp; rewrite ?elem_of_cons, IH.
    + split; [intros [-> |[??]]; auto|intros [[-> |?] ?]; auto].
    + split; [intros [??]; auto|intros [[-> |?] ?]; [congruence|auto]].
Qed.

Lemma filter_canonical_elem paths now c :
  c ∈ (Policy.filter_canonical paths now).1 ↔ ∃ p, p ∈ paths ∧ resolve p = Ok c.
Proof.
  revert now; induction paths as [|p paths IH]; intros now; cbn.
  - split; [by intros ?%not_elem_of_nil|by intros (? & ?%not_elem_of_nil & _)].
  - specialize (IH (S now)). destruct (Policy.filter_canonical paths (S now)) as [kept now'].
    cbn in *. rewrite policy_resolves. setoid_rewrite elem_of_cons.
    destruct (resolve p) as [c'|] eqn:Hp; rewrite ?elem_of_cons, IH.
    + split.
      * intros [-> |(q & Hq & Hr)]; [exists p|exists q]; auto.
      * intros (q & [-> |Hq] & Hr); [left; congruence|right; eauto].
    + split; [intros (q & Hq & Hr); exists q; auto|].
      intros (q & [-> |Hq] & Hr); [congruence|eauto].
Qed.

Lemma canonicalize_existing_incl paths now c :
  c ∈ (Policy.canonicalize_existing_paths paths now).1 → ∃ p, p ∈ paths ∧ resolve p = Ok c.
Proof.
  unfold Policy.canonicalize_existing_paths.
  pose proof (retain_existing_elem paths now) as Hret.
  destruct (Policy.retain_existing paths now) as [existing now1]. cbn in Hret.
  pose proof (filter_canonical_elem existing now1 c) as Hcan.
  destruct (Policy.filter_canonical existing now1) as [canonical now2]. cbn in *.
  intros Hc%Policy.dedup_incl. apply elem_sort_by, Hcan in Hc as (p & Hp & Hres).
  exists p. split; [by apply Hret|done].
Qed.

Lemma canonicalize_existing_covers paths now p c :
  p ∈ paths → resolve p = Ok c →
  ∃ y, y ∈ (Policy.canonicalize_existing_paths paths now).1 ∧ Path.components y = Path.components c.
Proof.
  intros Hp Hres. unfold Policy.canonicalize_existing_paths.
  pose proof (retain_existing_elem paths now) as Hret.
  destruct (Policy.retain_existing paths now) as [existing now1]. cbn in Hret.
  pose proof (filter_canonical_elem existing now1 c) as Hcan.
  destruct (Policy.filter_canonical existing now1) as [canonical now2]. cbn in *.
  apply Policy.dedup_covers, elem_sort_by, Hcan. exists p. split; [|done].
  apply Hret. by rewrite Hres.
Qed.

Lemma no_nul_passes field value : has_nul value = false → check_no_nul field value = Ok tt.
Proof. unfold check_no_nul. by intros ->. Qed.

Definition good_rule (r : string) : Prop := Path.is_absolute r = true ∧ has_nul r = false.

Lemma check_rules_pass tier rules : Forall good_rule rules → for_each (check_rule tier) rules = Ok tt.
Proof.
  intros Hr. apply for_each_Ok. eapply Forall_impl; [exact Hr|]. intros r [Ha Hn].
  unfold check_rule, check_no_nul. by rewrite Ha, Hn.
Qed.

Lemma resolved_rules_good paths now : Forall good_rule (Policy.canonicalize_existing_paths paths now).1.
Proof.
  apply Forall_forall. intros c (p & _ & Hc)%canonicalize_existing_incl.
  apply resolve_canonical in Hc as (? & ? & _). by split.
Qed.

Lemma resolved_rule_self paths now c : c ∈ (Policy.canonicalize_existing_paths paths now).1 → resolve c = Ok c.
Proof. intros (p & _ & Hc)%canonicalize_existing_incl. by apply resolve_canonical in Hc as (_ & _ & ?). Qed.

(** What one launch supplies. *)
Record request_ok (p : Policy.t) (operation : Manager.LaunchOperation) (workspace temp : string)
    (term : option string) (environment : list (string * string)) (setup_fd : option Z)
    (id : option IsolatedIdentity) : Prop := MkRequestOk
  { rq_identity : validate_request_identity (Policy.identity p) id = Ok tt;
    rq_ids : ∀ i, id = Some i → Manager.runtime_uid i ≠ 0 ∧ Manager.runtime_gid i ≠ 0 ∧
                                Manager.host_uid i ≠ 0 ∧ Manager.host_gid i ≠ 0;
    rq_workspace : resolve workspace = Ok workspace;
    rq_temp : good_rule temp;
    rq_command : is_ok (Policy.validated_shell_command operation) = true;
    rq_term : ∀ s, term = Some s → has_nul s = false;
    rq_names : NoDup environment.*1;
    rq_environment : Forall (fun b => Config.is_valid_env_name b.1 = true ∧ has_nul b.2 = false) environment;
    rq_fd : ∀ fd, setup_fd = Some fd → 0 <= fd }.

Lemma good_binding name value :
  Config.is_valid_env_name name = true → has_nul value = false → check_env (name, value) = Ok tt.
Proof.
  intros (Hne & Hnul & Heq)%valid_name_safe Hv. unfold check_env, check_no_nul.
  rewrite Hnul, Hv. cbn [mbind result_bind]. rewrite bool_decide_false by done. by rewrite Heq.
Qed.

Lemma environment_passes p workspace term temp environment :
  sorted (Policy.sandbox_env p) → Forall Config.env_entry_ok (Policy.sandbox_env p) →
  has_nul (Policy.shell p) = false → good_rule workspace → good_rule temp →
  (∀ s, term = Some s → has_nul s = false) → NoDup environment.*1 →
  Forall (fun b => Config.is_valid_env_name b.1 = true ∧ has_nul b.2 = false) environment →
  for_each check_env (Policy.environment_for_with_overrides p workspace term (Some temp) environment) = Ok tt.
Proof.
  intros Hs Hok Hshell [_ Hws] [_ Htemp] Hterm Hnd Henv. apply for_each_Ok, Forall_forall.
  intros [name value] Hin.
  destruct (Policy.environment_by_name p workspace term (Some temp) environment) as [_ Hby]; [done..|].
  apply Hby in Hin. unfold Policy.env_spec in Hin.
  case_bool_decide; [subst; simplify_eq; apply good_binding; [done|by apply lossy_no_nul]|].
  destruct term as [tm|]; [case_bool_decide; [subst; simplify_eq; apply good_binding; [done|by apply Hterm]|]|];
    (destruct (Policy.assoc name environment) as [v|] eqn:Ha;
     [simplify_eq; apply Policy.assoc_elem in Ha; [|done]; rewrite Forall_forall in Henv;
      apply good_binding; by apply (Henv (name, value))|]);
    (destruct (bool_decide (name = "HOME") || bool_decide (name = "PWD")) eqn:Hhome;
     [apply orb_prop in Hhome as [Hhome|Hhome]; bool_to_prop; subst; simplify_eq;
      (apply good_binding; [done|by apply lossy_no_nul])|]);
    (case_bool_decide; [subst; simplify_eq; apply good_binding; [done|by apply lossy_no_nul]|]);
    (apply Policy.assoc_elem in Hin; [|by apply sorted_NoDup]; rewrite Forall_forall in Hok;
     destruct (Hok _ Hin) as (? & _ & _ & ? & _); by apply good_binding).
Qed.

(** The snapshot's fields, and its tiers. *)
Lemma from_config_fields config shell root now c :
  resolve shell = Ok c →
  let p := (Policy.from_config config shell root now).1 in
  Policy.shell p = shell ∧ Policy.network p = Config.network config ∧
  Policy.sandbox_env p = Config.sandbox_env config ∧ Policy.resources p = Config.resources config ∧
  Policy.identity p = Config.identity config ∧
  Forall good_rule (Policy.resolved_read_only p) ∧ Forall good_rule (Policy.resolved_execute p) ∧
  ∃ y, y ∈ Policy.resolved_execute p ∧ resolve y = Ok y ∧ Path.components y = Path.components c.
Proof.
  intros Hc. unfold Policy.from_config, Policy.from_parts.
  set (ro := _ ++ Config.read_paths config). set (ex := Policy.curated true ++ _).
  pose proof (resolved_rules_good ro now) as Hro.
  destruct (Policy.canonicalize_existing_paths ro now) as [ro' now1]. cbn in Hro.
  pose proof (resolved_rules_good ex now1) as Hex.
  destruct (canonicalize_existing_covers ex now1 shell c) as (y & Hy & Heq); [unfold ex; set_solver|done|].
  pose proof (resolved_rule_self ex now1 y Hy) as Hself.
  destruct (Policy.canonicalize_existing_paths ex now1) as [ex' now2]. cbn in *.
  split_and!; [done..|]. by exists y.
Qed.

Lemma covered_refl path y : Path.components y = Path.components path → covered_by path y = true.
Proof. intros Heq. apply covered_by_prefix. by rewrite Heq. Qed.

(** A rule that resolves to itself and names the path lets the check pass. *)
Lemma check_covered_passes field what path rules rule now :
  rule ∈ rules → resolve rule = Ok rule → Path.components rule = Path.components path →
  ∃ now', check_covered field what (Ok path) rules now = (Ok tt, now').
Proof.
  intros Hin Hself Heq. destruct (any_covers_found path rules now rule) as [now' Hrun]; [done| |].
  { intros u. rewrite engine_resolves, Hself. by apply covered_refl. }
  exists now'. unfold check_covered, mbind, M_bind. by rewrite Hrun.
Qed.

Lemma resources_pass p : Config.resources_ok (Policy.resources p) → validate_resources (Policy.engine_resources p) = Ok tt.
Proof.
  destruct p as [? ? ? ? r ? ? ? ?]. destruct r as [memory swap pids quota period].
  intros (Hm & _ & Hp & Hq & Hper). cbn in *.
  unfold validate_resources, Policy.engine_resources. cbn.
  assert (Hpos : ∀ o : option Z, Config.positive o → match Policy.option_limit o with Value 0 => False | _ => True end).
  { intros [n|] Ho; cbn; [|done]. specialize (Ho n eq_refl). destruct n; (done || lia). }
  assert (Hcpu : match Policy.option_limit ((fun q => MkCpuMax q (default 100000 period)) <$> quota) with
     | Value cpu => quota_us cpu ≠ 0 ∧ 1000 <= period_us cpu <= 1000000 | _ => True end).
  { destruct quota as [q|]; cbn; [|done]. specialize (Hq q eq_refl). split; [lia|].
    destruct period as [n|]; cbn; [by apply Hper|lia]. }
  apply Hpos in Hm, Hp. destruct (Policy.option_limit (_ <$> quota)) as [| |cpu]; cbn.
  3: destruct Hcpu as [Hq0 [Hlo Hhi]]; apply Z.eqb_neq in Hq0; apply Z.leb_le in Hlo, Hhi;
     rewrite Hq0, Hlo, Hhi; cbn.
  all: destruct (Policy.option_limit memory) as [| |[]]; try done; cbn;
    by destruct (Policy.option_limit pids) as [| |[]].
Qed.

Lemma engine_config_exists p workspace temp id :
  validate_request_identity (Policy.identity p) id = Ok tt →
  (Policy.identity p = Config.Isolated → target_linux = true) →
  (∀ i, id = Some i → Manager.runtime_uid i ≠ 0 ∧ Manager.runtime_gid i ≠ 0 ∧
                      Manager.host_uid i ≠ 0 ∧ Manager.host_gid i ≠ 0) →
  ∃ cfg, Policy.try_engine_config_with_identity p workspace temp id = Ok cfg ∧
    cf_filesystem cfg = Restricted
      (filter (fun path => negb (Policy.is_curated_write path)) (Policy.resolved_read_only p))
      ["/dev/null"; workspace; temp] (Policy.resolved_execute p) ∧
    cf_resources cfg = Policy.engine_resources p ∧ cf_syscalls cfg = SysUnrestricted ∧
    cf_inherited_fds cfg = [] ∧ cf_capabilities cfg = DropAll ∧ validate_identity cfg = Ok tt ∧
    (Policy.identity p = Config.Isolated →
       ∃ i, id = Some i ∧ cf_identity cfg = IdIsolated i ∧ ns_mount (cf_namespaces cfg) = true) ∧
    (Policy.network p = Config.Disabled → target_linux = true →
       cf_network cfg = NetDisabled ∧ ns_network (cf_namespaces cfg) = NsIsolated).
Proof.
  intros Hreq Hlinux Hids. unfold Policy.try_engine_config_with_identity, Policy.engine_identity.
  destruct (Policy.identity p) eqn:Hid, id as [i|]; try done.
  - destruct target_linux eqn:Htl; [destruct (bool_decide (Policy.network p = Config.Disabled)) eqn:Hnet|];
      cbn; (eexists; split; [done|]); cbn; split_and!; try done;
      intros Hn Htl'; try discriminate Htl';
      unfold Policy.engine_network, Policy.engine_namespaces; by rewrite Hn, ?Htl.
  - rewrite (Hlinux eq_refl). cbn. eexists. split; [done|]. cbn.
    destruct (Hids i eq_refl) as (H1' & H2' & H3' & H4').
    assert (Hmount : ns_mount (Policy.engine_namespaces p) = true).
    { unfold Policy.engine_namespaces. rewrite (Hlinux eq_refl), Hid. done. }
    split_and!; try done.
    + unfold validate_identity. cbn. apply Z.eqb_neq in H1', H2', H3', H4'.
      by rewrite H1', H2', H3', H4', Hmount.
    + intros _. by exists i.
    + intros Hn _. unfold Policy.engine_network, Policy.engine_namespaces. by rewrite Hn, (Hlinux eq_refl).
Qed.

Lemma components_no_nul s name : has_nul s = false → name ∈ Path.components s → has_nul name = false.
Proof.
  assert (Hsplit : ∀ s cur n, (∀ t, has_nul t = false → has_nul (cur t) = false) → has_nul s = false →
    n ∈ split_on (byte_of 47) cur s → has_nul n = false).
  { clear. induction s as [|a s IH]; intros cur n Hcur Hs; cbn.
    - intros ->%list_elem_of_singleton. by apply Hcur.
    - unfold has_nul in Hs. cbn in Hs. rewrite negb_andb, orb_false_iff in Hs. destruct Hs as [Ha Hs].
      case_bool_decide.
      + intros [-> |Hn]%elem_of_cons; [by apply Hcur|]. by apply (IH (fun t => t)).
      + apply IH; [|done]. intros t Ht. apply Hcur. unfold has_nul in *. cbn.
        by rewrite negb_andb, Ha, Ht. }
  intros Hs. unfold Path.components. specialize (Hsplit s (fun t => t)).
  set (names := split_on (byte_of 47) (fun t => t) s) in *.
  assert (Hnames : ∀ n, n ∈ names → has_nul n = false) by (intros n; by apply Hsplit).
  destruct (starts_with "/" s).
  - intros [-> |[_ Hn]%list_elem_of_filter]%elem_of_cons; [done|auto].
  - clearbody names. destruct names as [|n names]; [by intros [_ ?%not_elem_of_nil]%list_elem_of_filter|].
    assert (Hrest : ∀ m, m ∈ filter (fun n => n ≠ "" ∧ n ≠ ".") (n :: names) → has_nul m = false).
    { intros m [_ Hm]%list_elem_of_filter. auto. }
    assert (Hdot : name ∈ "." :: filter (fun n => n ≠ "" ∧ n ≠ ".") names → has_nul name = false).
    { intros [-> |[_ Hm]%list_elem_of_filter]%elem_of_cons; [done|]. apply Hnames. by right. }
    repeat (case_match; try (by apply Hrest)). subst. exact Hdot.
Qed.

Lemma file_name_no_nul s name : has_nul s = false → Policy.file_name s = Some name → has_nul name = false.
Proof.
  unfold Policy.file_name. intros Hs. destruct (last (Path.components s)) as [n|] eqn:Hl; [|done].
  case_match; [done|]. intros [= <-]. eapply components_no_nul; [done|].
  apply last_Some in Hl as [l ->]. apply elem_of_app. right. by left.
Qed.

Lemma filesystem_passes cfg command workspace temp y c now :
  Forall good_rule (match cf_filesystem cfg with Restricted read_only _ _ => read_only | _ => [] end) →
  Forall good_rule (match cf_filesystem cfg with Restricted _ _ execute => execute | _ => [] end) →
  (∃ read_only execute, cf_filesystem cfg = Restricted read_only ["/dev/null"; workspace; temp] execute ∧
     y ∈ execute) →
  resolve (program command) = Ok c → resolve y = Ok y → Path.components y = Path.components c →
  cwd command = Some workspace → resolve workspace = Ok workspace → good_rule temp →
  ∃ now', validate_filesystem (cf_filesystem cfg) command now = (Ok tt, now').
Proof.
  intros Hro Hex (ro & ex & Hfs & Hy) Hprog Hself Heq Hcwd Hws Htemp. rewrite Hfs in *.
  pose proof (resolve_canonical _ _ Hws) as (Hwabs & Hwnul & _).
  unfold validate_filesystem. rewrite !check_rules_pass; [|done| |done].
  2: { repeat apply Forall_cons_2; [done|by split|done|apply Forall_nil_2]. }
  unfold liftR, mbind, M_bind, engine_canonicalize. rewrite engine_resolves, Hprog.
  destruct (check_covered_passes "filesystem" "program " c (["/dev/null"; workspace; temp] ++ ex) y (S now))
    as [now1 ->]; [set_solver|done|done|].
  rewrite Hcwd, engine_resolves, Hws.
  destruct (check_covered_passes "filesystem.read_only" "working directory " workspace
    (ro ++ ["/dev/null"; workspace; temp] ++ ex) workspace (S now1)) as [now2 ->]; [set_solver|done|done|].
  by eexists.
Qed.

(** Read the fields of a command that was just built. *)
Ltac fields :=
  cbn [mbind mret result_bind result_ret program args argv0 env cwd stdin stdout stderr negb].

Lemma launch_command_passes p operation workspace temp term environment setup_fd id :
  sorted (Policy.sandbox_env p) → Forall Config.env_entry_ok (Policy.sandbox_env p) →
  good_rule (Policy.shell p) → is_Some (Policy.file_name (Policy.shell p)) →
  request_ok p operation workspace temp term environment setup_fd id →
  ∃ command, launch_command p operation workspace temp term environment setup_fd = Ok command ∧
    program command = Policy.shell p ∧ cwd command = Some workspace ∧ validate_command command = Ok tt.
Proof.
  intros Hs Hok [Habs Hnul] [name Hname] Hrq.
  pose proof (resolve_canonical _ _ (rq_workspace _ _ _ _ _ _ _ _ Hrq)) as (Hwabs & Hwnul & _).
  pose proof (environment_passes p workspace term temp environment Hs Hok Hnul (conj Hwabs Hwnul)
    (rq_temp _ _ _ _ _ _ _ _ Hrq) (rq_term _ _ _ _ _ _ _ _ Hrq) (rq_names _ _ _ _ _ _ _ _ Hrq)
    (rq_environment _ _ _ _ _ _ _ _ Hrq)) as Henv.
  assert (Hspec : ∃ args argv0, command_spec p operation workspace =
      Ok (MkCommand (Policy.shell p) args argv0 [] (Some workspace) StdioNull StdioNull StdioNull SessionInherit) ∧
      for_each (check_no_nul "args") (option_list argv0 ++ args) = Ok tt).
  { pose proof (rq_command _ _ _ _ _ _ _ _ Hrq) as Hcmd. unfold command_spec.
    destruct operation as [|bytes]; cbn in Hcmd |- *.
    - unfold Policy.login_shell_argv0. rewrite Hname. cbn. eexists _, _. split; [done|]. cbn.
      unfold check_no_nul. rewrite has_nul_app. cbn.
      rewrite (file_name_no_nul _ _ Hnul Hname). done.
    - destruct (_ <? _); [done|]. destruct (has_nul bytes) eqn:Hb; [done|]. cbn. eexists _, _.
      split; [done|]. cbn. unfold check_no_nul. by rewrite Hb. }
  destruct Hspec as (args & argv0 & Hspec & Hargs). unfold launch_command. rewrite Hspec. fields.
  eexists. split_and!; [done..|]. unfold validate_command. fields.
  rewrite bool_decide_false by (intros He; rewrite He in Habs; done). rewrite Habs. fields.
  rewrite (no_nul_passes "program") by done. fields. rewrite Hargs. fields. rewrite Henv. fields.
  rewrite (no_nul_passes "cwd") by done. fields. rewrite Hwabs. fields.
  destruct setup_fd as [fd|]; [|done]. unfold check_stdio.
  pose proof (rq_fd _ _ _ _ _ _ _ _ Hrq fd eq_refl) as Hfd. apply Z.ltb_ge in Hfd. by rewrite Hfd.
Qed.

(** C21: An accepted configuration never makes the engine refuse a launch: when the
    configuration is well formed, the shell resolves, and the request carries an
    identity exactly in isolated mode, the engine configuration exists and the engine
    validates it with the command.  The only writable grants are the null device, the
    workspace and the launch's temporary directory; no capability is kept and no
    descriptor inherited; an isolated launch has its lease and its own mount
    namespace, and without networking it has its own network namespace. *)
Theorem launches_pass_engine_validation `{Config.ConfigKernel} paths t t' config shell c root now operation workspace temp
    term environment setup_fd id now1 :
  Config.wf paths t t' config →
  good_rule shell → is_Some (Policy.file_name shell) → resolve shell = Ok c →
  let p := (Policy.from_config config shell root now).1 in
  request_ok p operation workspace temp term environment setup_fd id →
  ∃ cfg command now2,
    Policy.try_engine_config_with_identity p workspace temp id = Ok cfg ∧
    launch_command p operation workspace temp term environment setup_fd = Ok command ∧
    validate cfg command now1 = (Ok tt, now2) ∧
    (∃ read_only execute, cf_filesystem cfg = Restricted read_only ["/dev/null"; workspace; temp] execute) ∧
    cf_inherited_fds cfg = [] ∧ cf_capabilities cfg = DropAll ∧
    (Config.identity config = Config.Isolated →
       ∃ i, id = Some i ∧ cf_identity cfg = IdIsolated i ∧ ns_mount (cf_namespaces cfg) = true) ∧
    (Config.network config = Config.Disabled → target_linux = true →
       cf_network cfg = NetDisabled ∧ ns_network (cf_namespaces cfg) = NsIsolated).
Proof.
  intros Hwf Hshell Hname Hc p Hrq.
  destruct (from_config_fields config shell root now c Hc)
    as (Es & En & Ee & Er & Ei & Hro & Hex & y & Hy & Hself & Heq). fold p in Es, En, Ee, Er, Ei, Hro, Hex, Hy.
  destruct (Config.wf_env _ _ _ _ Hwf) as [Hsorted Hentries]. rewrite <-Ee in Hsorted, Hentries.
  destruct (engine_config_exists p workspace temp id) as (cfg & Hcfg & Hfs & Hres & Hsys & Hfds & Hcaps & Hid & Hiso & Hnet).
  { apply Hrq. } { rewrite Ei. apply Hwf. } { apply Hrq. }
  rewrite Ei in Hiso. rewrite En in Hnet.
  destruct (launch_command_passes p operation workspace temp term environment setup_fd id)
    as (command & Hcmd & Hprog & Hcwd & Hval); [done|done|by rewrite Es|by rewrite Es|done|].
  pose proof (rq_workspace _ _ _ _ _ _ _ _ Hrq) as Hws.
  pose proof (resolve_canonical _ _ Hws) as (Hwabs & Hwnul & _).
  destruct (filesystem_passes cfg command workspace temp y c now1) as [now2 Hfiles]; try done.
  { rewrite Hfs. apply Forall_forall. intros r [_ Hr]%list_elem_of_filter.
    rewrite Forall_forall in Hro. by apply Hro. }
  { by rewrite Hfs. } { rewrite Hfs. by eexists _, _. } { by rewrite Hprog, Es. } { apply Hrq. }
  exists cfg, command, now2. split_and!; try done; [|by rewrite Hfs; eexists _, _].
  unfold validate. rewrite Hval, Hfds. unfold liftR, mbind, M_bind. cbn [validate_inherited_fds mret M_ret].
  rewrite Hfiles, Hres, resources_pass, Hsys, Hid; [done|]. rewrite Er. apply Hwf.
Qed.
End launch.

(** ** A concrete launch *)

Definition flat_resolve (p : string) : result io_error string :=
  if Path.is_absolute p && negb (has_nul p) then Ok p else Err (Errno ENOENT).

Definition flat_policy_kernel : Policy.PolicyKernel :=
  {| Policy.exists_at := fun _ p => is_ok (flat_resolve p);
     Policy.policy_realpath_at := fun _ p => flat_resolve p |}.

Definition flat_engine_kernel : EngineKernel :=
  {| engine_realpath_at := fun _ p => flat_resolve p; fd_open_at := fun _ _ => true;
     known_syscall := fun _ => true |}.

Definition flat_paths : @StaticPaths flat_policy_kernel flat_engine_kernel.
Proof.
  refine (@Build_StaticPaths flat_policy_kernel flat_engine_kernel flat_resolve _ _ _ _); try done.
  intros p c. unfold flat_resolve. destruct (Path.is_absolute p) eqn:Ha, (has_nul p) eqn:Hn; try done.
  cbn. intros [= <-]. by rewrite Ha, Hn.
Defined.

Definition isolated_config : Config.t :=
  {| Config.listen := [Endpoint.Tcp (Net.unspecified 22)]; Config.log_level := Config.LInfo;
     Config.network := Config.Disabled; Config.sandbox_shell := None; Config.read_paths := [];
     Config.sandbox_env := [("LANG", "C.UTF-8")];
     Config.resources := Config.MkResources (Some 1073741824) None (Some 64) (Some 50000) None;
     Config.cgroup_parent := None; Config.identity := Config.Isolated |}.

Lemma isolated_config_wf :
  @Config.wf Config.sample_build Config.sample_kernel Config.sample_paths 0%nat 1%nat isolated_config.
Proof.
  split; cbn; try done.
  - split_and!; [done|apply NoDup_singleton|]. apply Forall_singleton. split; [done|].
    split_and!; [done| |lia|lia]. repeat apply Forall_cons_2; (lia || apply Forall_nil_2).
  - split; [apply Forall_nil_2|apply NoDup_nil_2].
  - split; [done|]. apply Forall_singleton.
    split_and!; [done|refine (bool_decide_unpack (_ ∉ _) _); vm_compute; done
                |refine (bool_decide_unpack _ _); vm_compute; done|done|vm_compute; done].
  - split_and!; try (intros n Hn; cbn in Hn; simplify_eq; lia).
Qed.

Definition sample_identity : IsolatedIdentity := Manager.MkIdentity 1000 1000 100000 100000.

Lemma launches_pass_engine_validation_witness :
  let p := (@Policy.from_config Config.sample_build flat_policy_kernel isolated_config "/bin/sh" Auth.PRoot 0%nat).1 in
  ∃ cfg command now,
    @Policy.try_engine_config_with_identity Config.sample_build p "/work" "/run/t" (Some sample_identity) = Ok cfg ∧
    launch_command p (Manager.Exec "ls") "/work" "/run/t" (Some "xterm") [] (Some 7) = Ok command ∧
    @validate flat_engine_kernel Config.sample_tables cfg command 0%nat = (Ok tt, now) ∧
    cf_identity cfg = IdIsolated sample_identity.
Proof.
  destruct (@launches_pass_engine_validation Config.sample_build Config.sample_tables flat_policy_kernel
    flat_engine_kernel flat_paths Config.sample_kernel Config.sample_paths 0%nat 1%nat isolated_config "/bin/sh"
    "/bin/sh" Auth.PRoot 0%nat (Manager.Exec "ls") "/work" "/run/t" (Some "xterm") [] (Some 7)
    (Some sample_identity) 0%nat)
    as (cfg & command & now & Hcfg & Hcmd & Hval & _ & _ & _ & Hiso & _).
  - apply isolated_config_wf.
  - by split.
  - by eexists.
  - reflexivity.
  - split; try done.
    + intros i [= <-]. cbn. lia.
    + by intros s [= <-].
    + apply NoDup_nil_2.
    + by intros fd [= <-].
  - exists cfg, command, now. split_and!; [done..|]. destruct (Hiso eq_refl) as (i & [= <-] & Hi & _). done.
Defined.
End LinuxLaunch.
