(* ===== verification/Domains.v ===== *)
(** * Process domains ([platform/linux.rs])

    Each durable sandbox runs its processes in one process domain (a control
    group), kept in a slot of [DomainRegistry].  Launches join or create the
    domain, a dropped lease may retire it, deletion and shutdown tear it down.

    The registry's mutex makes each critical section atomic: a section is a
    function on the slots here, with the kernel's answers as arguments, and
    [step] interleaves the sections of any number of threads with the work they do
    outside the lock.  Waiting on the condition variable is a thread state that may
    resume at any time.  A poisoned mutex is not modelled. *)

From S2P Require Import Prelude Text PathNames Toml FileSystem RuntimeLedger Manager Auth Paths Endpoint Config EnginePolicy LaunchPolicy.

Module Domains.
Import Engine.

Abbreviation RuntimeTemp := Policy.RuntimeTemp.
Abbreviation LaunchError := RuntimeLedger.LaunchError.

(** A domain is named by its handle, a namespace by its descriptor. *)
Inductive DomainSlot :=
| Creating
| Active (generation in_flight domain : Z) (runtime_temp : RuntimeTemp)
    (identity : option IsolatedIdentity) (mount_idmap_userns : option Z)
| Deleting (generation in_flight : Z) (domain : option Z) (runtime_temp : option RuntimeTemp)
    (identity : option IsolatedIdentity) (mount_idmap_userns : option Z)
| CleanupPending (runtime_temp : RuntimeTemp).

Abbreviation slots_map := (gmap string DomainSlot).

(** ** Ending a launch *)

(** [DomainRegistry::launch_finished]: the answers are the domain's population
    ([None] for an error), whether its directory went away, and whether the
    temporary tree was removed.  The second result is the domain removed. *)
Definition launch_finished (populated : option bool) (remove_empty remove_temp : bool) (id : string)
    (slots : slots_map) : slots_map * option Z :=
  match slots !! id with
  | Some (Active g n d t i u) =>
      let n := Z.max 0 (n - 1) in
      if (n =? 0) && negb (default true populated) && remove_empty then
        if remove_temp then (delete id slots, Some d)
        else (<[id := CleanupPending t]> slots, Some d)
      else (<[id := Active g n d t i u]> slots, None)
  | Some (Deleting g n d t i u) => (<[id := Deleting g (Z.max 0 (n - 1)) d t i u]> slots, None)
  | _ => (slots, None)
  end.

(** ** Joining a domain *)

Inductive join_result :=
| Refused (e : LaunchError)
| StartCreating
| WaitCreating
| Joined (domain : Z) (temp : RuntimeTemp) (mount_idmap_userns : option Z)
| CleanPending (temp : RuntimeTemp).

Definition refused (message : string) : join_result := Refused (Policy.launch_error message).

(** One turn of the loop of [process_domain]; [dup] is what duplicating a
    descriptor answers. *)
Definition join (dup : Z → option Z) (accepting : bool) (id : string)
    (identity : option IsolatedIdentity) (slots : slots_map) : join_result * slots_map :=
  if negb accepting
  then (refused "sandbox process adapter is shutting down; new launches are rejected", slots)
  else
    match slots !! id with
    | None => (StartCreating, <[id := Creating]> slots)
    | Some Creating => (WaitCreating, slots)
    | Some (Active g n d t current u) =>
        if bool_decide (current = identity) then
          match current, u with
          | None, None => (Joined d t None, <[id := Active g (n + 1) d t current u]> slots)
          | Some _, Some namespace =>
              match dup namespace with
              | Some fd => (Joined d t (Some fd), <[id := Active g (n + 1) d t current u]> slots)
              | None => (refused "sandbox mount ID-map namespace could not be duplicated", slots)
              end
          | _, _ => (refused "sandbox mount ID-map namespace state is inconsistent", slots)
          end
        else (refused "sandbox process domain identity does not match the durable lease", slots)
    | Some (Deleting _ _ _ _ _ _) =>
        (refused "sandbox process domain is being deleted; new launches are rejected", slots)
    | Some (CleanupPending t) => (CleanPending t, <[id := Creating]> slots)
    end.

Definition is_creating (slot : option DomainSlot) : bool :=
  match slot with Some Creating => true | _ => false end.

(** After the wait of a launch: a wait that timed out while the marker is still
    there gives up, any other turns the loop again. *)
Definition after_launch_wait (timed_out : bool) (id : string) (slots : slots_map) : option LaunchError :=
  if timed_out && is_creating (slots !! id)
  then Some (Policy.launch_error "sandbox process domain creation did not complete in time")
  else None.

(** The pending tree was removed, or not, outside the lock. *)
Definition after_clean (removed : bool) (temp : RuntimeTemp) (id : string) (slots : slots_map)
    : bool * slots_map :=
  if removed then (is_creating (slots !! id), slots)
  else (false, <[id := CleanupPending temp]> slots).

(** What [create_generation] made. *)
Record generation_parts := MkParts
  { gp_generation : Z; gp_domain : Z; gp_temp : RuntimeTemp; gp_userns : option Z }.

Inductive publish_result :=
| Published (domain : Z) (temp : RuntimeTemp) (mount_idmap_userns : option Z)
| PublishFailed (e : LaunchError)
| Discarded (domain : Z) (e : LaunchError).

(** The last section of [process_domain]. *)
Definition publish (dup : Z → option Z) (id : string) (identity : option IsolatedIdentity)
    (create : result LaunchError generation_parts) (slots : slots_map) : publish_result * slots_map :=
  match create with
  | Ok (MkParts g d t u) =>
      match slots !! id with
      | None | Some Creating =>
          let slots := <[id := Active g 1 d t identity u]> slots in
          match u with
          | None => (Published d t None, slots)
          | Some namespace =>
              match dup namespace with
              | Some fd => (Published d t (Some fd), slots)
              | None =>
                  (PublishFailed (Policy.launch_error
                     "sandbox mount ID-map namespace could not be duplicated"), slots)
              end
          end
      | Some _ =>
          (Discarded d (Policy.launch_error "sandbox process domain state changed during creation"), slots)
      end
  | Err e => (PublishFailed e, if is_creating (slots !! id) then delete id slots else slots)
  end.

(** ** Deletion *)

Inductive release_result :=
| Absent
| ReleaseWait
| TakeOver (domain : option Z) (temp : option RuntimeTemp) (identity : option IsolatedIdentity)
    (mount_idmap_userns : option Z)
| Marked
| KillFailed
| FinishPendingCleanup (temp : RuntimeTemp).

(** One turn of the loop of [release_sandbox_resources]; [killed] is what
    [kill_all] answers. *)
Definition release (killed : bool) (id : string) (slots : slots_map) : release_result * slots_map :=
  match slots !! id with
  | None => (Absent, slots)
  | Some Creating => (ReleaseWait, slots)
  | Some (Deleting g n d t i u) =>
      if n =? 0 then (TakeOver d t i u, <[id := Deleting g n None None i None]> slots)
      else (ReleaseWait, slots)
  | Some (Active g n d t i u) =>
      if killed then (Marked, <[id := Deleting g n (Some d) (Some t) i u]> slots)
      else (KillFailed, slots)
  | Some (CleanupPending t) => (FinishPendingCleanup t, <[id := Creating]> slots)
  end.

(** After a wait of a deletion. *)
Definition after_release_wait (timed_out : bool) (id : string) (slots : slots_map) : option LaunchError :=
  if timed_out then
    match slots !! id with
    | Some Creating =>
        Some (Policy.launch_error "sandbox process domain creation did not complete before deletion")
    | Some (Deleting _ n _ _ _ _) =>
        if 0 <? n then Some (Policy.launch_error "sandbox launch barrier did not drain before deletion")
        else None
    | _ => None
    end
  else None.

(** The section after [FinishPendingCleanup]'s removal. *)
Definition after_finish (removed : bool) (temp : RuntimeTemp) (id : string) (slots : slots_map) : slots_map :=
  if is_creating (slots !! id)
  then if removed then delete id slots else <[id := CleanupPending temp]> slots
  else slots.

(** The teardown outside the lock: kill, wait, remove the directory, then the
    temporary tree.  The first result is the domain still owned. *)
Record teardown_answers := MkTeardown
  { td_killed : bool; td_emptied : bool; td_removed : bool; td_temp_removed : bool }.

Definition teardown (a : teardown_answers) (domain : option Z) (temp : option RuntimeTemp)
    : option Z * bool :=
  let gone := match domain with
              | None => true
              | Some _ => td_killed a && td_emptied a && td_removed a
              end in
  if gone then (None, match temp with Some _ => td_temp_removed a | None => true end)
  else (domain, false).

(** The section that ends a deletion. *)
Definition finish_release (ok : bool) (domain : option Z) (temp : option RuntimeTemp)
    (identity : option IsolatedIdentity) (userns : option Z) (id : string) (slots : slots_map) : slots_map :=
  if ok then delete id slots
  else
    let generation := match slots !! id with Some (Deleting g _ _ _ _ _) => g | _ => 0 end in
    <[id := Deleting generation 0 domain temp identity userns]> slots.

(** ** Shutdown *)

(** Every active domain is killed and marked; the other slots stay. *)
Definition mark_slot (slot : DomainSlot) : DomainSlot :=
  match slot with
  | Active g n d t i u => Deleting g n (Some d) (Some t) i u
  | other => other
  end.
Definition mark_all (slots : slots_map) : slots_map := mark_slot <$> slots.

(** ** Threads *)

Inductive thread :=
| Launch (id : string) (identity : option IsolatedIdentity)
| LaunchWaiting (id : string) (identity : option IsolatedIdentity)
| Cleaning (id : string) (identity : option IsolatedIdentity) (temp : RuntimeTemp)
| Generating (id : string) (identity : option IsolatedIdentity)
| Publishing (id : string) (identity : option IsolatedIdentity) (create : result LaunchError generation_parts)
| Holding (id : string) (domain : Z)
| Release (id : string)
| ReleaseWaiting (id : string)
| Finishing (id : string) (temp : RuntimeTemp)
| Tearing (id : string) (domain : option Z) (temp : option RuntimeTemp)
    (identity : option IsolatedIdentity) (userns : option Z).

(** [live]: the control groups that exist.  [orphans]: those a failed creation
    could not remove again, which only the next start-up reclaims. *)
Record world := MkWorld
  { slots : slots_map; accepting : bool; next_generation : Z; live : gset Z; orphans : gset Z }.

Definition set_slots (s : slots_map) (w : world) : world :=
  MkWorld s (accepting w) (next_generation w) (live w) (orphans w).
Definition kill_domain (d : option Z) (w : world) : world :=
  MkWorld (slots w) (accepting w) (next_generation w)
    (match d with Some d => live w ∖ {[d]} | None => live w end) (orphans w).

(** What one thread does between two points where others may run. *)
Inductive thread_step : thread → world → list thread → world → Prop :=
| ts_join id identity dup w r s :
    join dup (accepting w) id identity (slots w) = (r, s) →
    thread_step (Launch id identity) w
      (match r with
       | Refused _ => []
       | StartCreating => [Generating id identity]
       | WaitCreating => [LaunchWaiting id identity]
       | Joined d _ _ => [Holding id d]
       | CleanPending t => [Cleaning id identity t]
       end) (set_slots s w)
| ts_launch_wake id identity timed_out w :
    thread_step (LaunchWaiting id identity) w
      (match after_launch_wait timed_out id (slots w) with
       | Some _ => [] | None => [Launch id identity] end) w
| ts_clean id identity temp removed w go s :
    after_clean removed temp id (slots w) = (go, s) →
    thread_step (Cleaning id identity temp) w
      (if removed then if go then [Generating id identity] else [Launch id identity] else [])
      (set_slots s w)
(* [create_generation]: the generation number is taken first, from a counter that wraps
   around; a failure may leave the new control group behind. *)
| ts_generate_ok id identity d temp userns w :
    d ∉ live w → (is_Some userns ↔ is_Some identity) →
    thread_step (Generating id identity) w
      [Publishing id identity (Ok (MkParts (next_generation w) d temp userns))]
      (MkWorld (slots w) (accepting w) (wrap_u64 (next_generation w + 1)) ({[d]} ∪ live w) (orphans w))
| ts_generate_fail id identity e taken w :
    thread_step (Generating id identity) w [Publishing id identity (Err e)]
      (MkWorld (slots w) (accepting w) (if taken : bool then wrap_u64 (next_generation w + 1) else next_generation w) (live w) (orphans w))
| ts_generate_orphan id identity e d w :
    d ∉ live w →
    thread_step (Generating id identity) w [Publishing id identity (Err e)]
      (MkWorld (slots w) (accepting w) (wrap_u64 (next_generation w + 1)) ({[d]} ∪ live w) ({[d]} ∪ orphans w))
| ts_publish id identity dup create w r s :
    publish dup id identity create (slots w) = (r, s) →
    thread_step (Publishing id identity create) w
      (match r with Published d _ _ => [Holding id d] | _ => [] end)
      (match r with
       | Discarded d _ => MkWorld s (accepting w) (next_generation w) (live w) ({[d]} ∪ orphans w)
       | _ => set_slots s w
       end)
(* The lease is dropped: the launch failed later on, or its waiter ended. *)
| ts_drop id d populated removed temp_removed w s gone :
    launch_finished populated removed temp_removed id (slots w) = (s, gone) →
    thread_step (Holding id d) w [] (kill_domain gone (set_slots s w))
| ts_release id killed w r s :
    release killed id (slots w) = (r, s) →
    thread_step (Release id) w
      (match r with
       | Absent | KillFailed => []
       | ReleaseWait => [ReleaseWaiting id]
       | TakeOver d t i u => [Tearing id d t i u]
       | Marked => [Release id]
       | FinishPendingCleanup t => [Finishing id t]
       end) (set_slots s w)
| ts_release_wake id timed_out w :
    thread_step (ReleaseWaiting id) w
      (match after_release_wait timed_out id (slots w) with
       | Some _ => [] | None => [Release id] end) w
| ts_finish id temp removed w :
    thread_step (Finishing id temp) w [] (set_slots (after_finish removed temp id (slots w)) w)
| ts_teardown id d t i u answers w d' ok :
    teardown answers d t = (d', ok) →
    thread_step (Tearing id d t i u) w []
      (kill_domain (if bool_decide (d' = None) then d else None)
         (set_slots (finish_release ok d' t i u id (slots w)) w)).

Record system := MkSystem { w : world; threads : list thread }.

(** A thread that is deleting this sandbox. *)
Definition releases (id : string) (t : thread) : bool :=
  match t with
  | Release i | ReleaseWaiting i | Finishing i _ | Tearing i _ _ _ _ => bool_decide (i = id)
  | _ => false
  end.

(** Any thread may take its next step; launches may start at any time.  The manager
    deletes a sandbox under its exclusive lifecycle lock, so two deletions of one
    sandbox never overlap, unless the daemon is shutting down. *)
Inductive step : system → system → Prop :=
| st_thread w w' l t ts r :
    thread_step t w ts w' → step (MkSystem w (l ++ t :: r)) (MkSystem w' (l ++ ts ++ r))
| st_launch w ths id identity : step (MkSystem w ths) (MkSystem w (Launch id identity :: ths))
| st_release w ths id :
    (accepting w = false ∨ Forall (fun t => releases id t = false) ths) →
    step (MkSystem w ths) (MkSystem w (Release id :: ths))
| st_stop w ths :
    step (MkSystem w ths)
      (MkSystem (MkWorld (slots w) false (next_generation w) (live w) (orphans w)) ths)
| st_mark w ths :
    accepting w = false → step (MkSystem w ths) (MkSystem (set_slots (mark_all (slots w)) w) ths).

Definition init : system := MkSystem (MkWorld ∅ true 1 ∅ ∅) [].

Definition reachable (s : system) : Prop := rtc step init s.

(** ** Counting threads *)

Definition about (t : thread) : string :=
  match t with
  | Launch i _ | LaunchWaiting i _ | Cleaning i _ _ | Generating i _ | Publishing i _ _
  | Holding i _ | Release i | ReleaseWaiting i | Finishing i _ | Tearing i _ _ _ _ => i
  end.

Definition holds (t : thread) : bool := match t with Holding _ _ => true | _ => false end.

(** The threads a [Creating] marker stands for. *)
Definition marks (t : thread) : bool :=
  match t with Cleaning _ _ _ | Generating _ _ | Publishing _ _ _ | Finishing _ _ => true | _ => false end.

Definition deletes (t : thread) : bool :=
  match t with Release _ | ReleaseWaiting _ | Finishing _ _ | Tearing _ _ _ _ _ => true | _ => false end.

(** The threads that work on one sandbox. *)
Definition of_sandbox (id : string) (l : list thread) : list thread := filter (fun t => about t = id) l.

(** ** What every reachable system satisfies, one sandbox at a time *)

Definition slot_domain (slot : option DomainSlot) : option Z :=
  match slot with
  | Some (Active _ _ d _ _ _) => Some d
  | Some (Deleting _ _ d _ _ _) => d
  | _ => None
  end.

(** The slot of a sandbox whose domain a deletion is tearing down. *)
Definition drained (acc : bool) (slot : option DomainSlot) : Prop :=
  match slot with
  | Some (Deleting _ n d _ _ _) => n = 0 ∧ (acc = true → d = None)
  | None => acc = false
  | _ => False
  end.

Definition agrees (acc : bool) (slot : option DomainSlot) (t : thread) : Prop :=
  match t with
  | Holding _ d => slot_domain slot = Some d
  | Tearing _ _ _ _ _ => drained acc slot
  | _ => True
  end.

(** How many launches hold the domain, and whether the marker has its owner. *)
Definition balanced (slot : option DomainSlot) (held marked : Z) : Prop :=
  match slot with
  | Some Creating => held = 0 ∧ marked = 1
  | Some (Active _ n _ _ i u) => held <= n ∧ marked = 0 ∧ (is_Some u ↔ is_Some i)
  | Some (Deleting _ n _ _ _ _) => held <= n ∧ marked = 0
  | None | Some (CleanupPending _) => held = 0 ∧ marked = 0
  end.

Record local_ok (acc : bool) (slot : option DomainSlot) (ths : list thread) : Prop := MkLocal
  { lo_agrees : Forall (agrees acc slot) ths;
    lo_balanced : balanced slot (count_by holds ths) (count_by marks ths);
    lo_deletes : acc = true → count_by deletes ths <= 1 }.

(** A slot may change under the other threads of its sandbox when nobody holds the
    domain or it stays, and nobody tears it down or it stays drained. *)
Lemma agrees_change acc slot slot' l :
  Forall (agrees acc slot) l →
  (count_by holds l = 0 ∨ slot_domain slot' = slot_domain slot) →
  (count_by deletes l = 0 ∨ (drained acc slot → drained acc slot')) →
  Forall (agrees acc slot') l.
Proof.
  intros Hl Hh Hd. apply Forall_forall. intros t Ht. rewrite Forall_forall in Hl. specialize (Hl t Ht).
  destruct t; try done; cbn in *.
  - destruct Hh as [Hh%count_by_zero|Hh]; [|by rewrite Hh].
    rewrite Forall_forall in Hh. by specialize (Hh _ Ht).
  - destruct Hd as [Hd%count_by_zero|Hd]; [|auto]. rewrite Forall_forall in Hd. by specialize (Hd _ Ht).
Qed.

#[global] Instance local_ok_perm acc slot : Proper ((≡ₚ) ==> iff) (local_ok acc slot).
Proof.
  assert (Himp : ∀ l l', l ≡ₚ l' → local_ok acc slot l → local_ok acc slot l').
  { intros l l' Hp [Ha Hb Hd]. split; [by rewrite <-Hp|by rewrite <-!(count_by_perm _ _ _ Hp)
      |by rewrite <-(count_by_perm _ _ _ Hp)]. }
  intros l l' Hp. split; apply Himp; [done|by symmetry].
Qed.

(** A launch that waits or has not begun owns nothing. *)
Lemma local_neutral acc slot t rest :
  match t with Launch _ _ | LaunchWaiting _ _ => True | _ => False end →
  local_ok acc slot (t :: rest) ↔ local_ok acc slot rest.
Proof.
  destruct t; try done; intros _; (split; (intros [Ha Hb Hd]; split; cbn in *;
    [try (by apply Forall_cons in Ha as [_ Ha]); try (by apply Forall_cons_2)
    |by rewrite ?Z.add_0_l in Hb |- *|by rewrite ?Z.add_0_l in Hd |- *])).
Qed.

(** Open the invariant of a sandbox around the thread that steps. *)
Ltac open_local H :=
  let Ha := fresh "Hagree" in let Hb := fresh "Hbal" in let Hd := fresh "Hdel" in let Ht := fresh "Hself" in
  destruct H as [Ha Hb Hd]; apply Forall_cons in Ha as [Ht Ha]; cbn [count_by holds marks deletes] in Hb, Hd.

(** Close it: the other threads still agree, and the counts are arithmetic. *)
Ltac close_local :=
  split; cbn [app count_by holds marks deletes];
  [ repeat (apply Forall_cons_2; [cbn; auto|]);
    first [assumption
          | eapply agrees_change; [eassumption|..];
            first [left; lia | left; assumption | right; done | right; cbn; lia]]
  | cbn in *; first [lia | destruct_and?; split_and?; first [lia | tauto | done]]
  | let Hacc := fresh in intros Hacc;
    repeat match goal with H : _ = true → _ |- _ => specialize (H Hacc) end; cbn in *; try lia ].

Lemma join_local dup acc id identity slots r s rest :
  join dup acc id identity slots = (r, s) →
  local_ok acc (slots !! id) (Launch id identity :: rest) →
  local_ok acc (s !! id)
    (match r with
     | Refused _ => []
     | StartCreating => [Generating id identity]
     | WaitCreating => [LaunchWaiting id identity]
     | Joined d _ _ => [Holding id d]
     | CleanPending t => [Cleaning id identity t]
     end ++ rest).
Proof.
  intros Hjoin Hok. apply local_neutral in Hok as Hsame; [|done]. open_local Hok. unfold join in Hjoin.
  destruct acc; [|injection Hjoin as <- <-; exact Hsame]. cbn [negb] in Hjoin.
  destruct (slots !! id) as [[|g n d t i u|g n d t i u|t]|] eqn:Hslot.
  - injection Hjoin as <- <-. rewrite Hslot. by apply local_neutral.
  - assert (Hjoined : local_ok true (Some (Active g (n + 1) d t i u)) ([Holding id d] ++ rest)).
    { cbn in Hbal. destruct Hbal as (? & ? & ?). close_local. }
    case_bool_decide; [|injection Hjoin as <- <-; by rewrite Hslot].
    destruct i as [i|], u as [u|]; try (injection Hjoin as <- <-; by rewrite Hslot).
    + destruct (dup u); injection Hjoin as <- <-; [by rewrite lookup_insert_eq|by rewrite Hslot].
    + injection Hjoin as <- <-. by rewrite lookup_insert_eq.
  - injection Hjoin as <- <-. by rewrite Hslot.
  - injection Hjoin as <- <-. rewrite lookup_insert_eq. cbn in Hbal. close_local.
  - injection Hjoin as <- <-. rewrite lookup_insert_eq. cbn in Hbal. close_local.
Qed.

(** A marker's owner finds the marker. *)
Lemma marker_found acc slot t rest :
  marks t = true → local_ok acc slot (t :: rest) → slot = Some Creating ∧ count_by holds rest = 0 ∧ count_by marks rest = 0.
Proof.
  intros Hm Hok. destruct Hok as [_ Hb _]. cbn in Hb. rewrite Hm in Hb.
  pose proof (count_by_nonneg marks rest). pose proof (count_by_nonneg holds rest).
  assert (holds t = false) as Hh by by destruct t. rewrite Hh in Hb.
  destruct slot as [[| | |]|]; cbn in Hb; try lia. split_and!; [done|lia|lia].
Qed.

Lemma clean_local acc id identity temp removed slots go s rest :
  after_clean removed temp id slots = (go, s) →
  local_ok acc (slots !! id) (Cleaning id identity temp :: rest) →
  local_ok acc (s !! id)
    ((if removed then if go then [Generating id identity] else [Launch id identity] else []) ++ rest).
Proof.
  intros Hrun Hok. destruct (marker_found _ _ (Cleaning id identity temp) _ eq_refl Hok) as (Hslot & Hh & Hm).
  open_local Hok. unfold after_clean in Hrun. destruct removed; injection Hrun as <- <-.
  - rewrite Hslot in *. cbn [is_creating]. close_local.
  - rewrite lookup_insert_eq. rewrite Hslot in *. close_local.
Qed.

Lemma publish_local acc dup id identity create slots r s rest :
  (∀ p, create = Ok p → is_Some (gp_userns p) ↔ is_Some identity) →
  publish dup id identity create slots = (r, s) →
  local_ok acc (slots !! id) (Publishing id identity create :: rest) →
  local_ok acc (s !! id) (match r with Published d _ _ => [Holding id d] | _ => [] end ++ rest) ∧
  (∀ d e, r ≠ Discarded d e).
Proof.
  intros Hu Hrun Hok. destruct (marker_found _ _ (Publishing id identity create) _ eq_refl Hok) as (Hslot & Hh & Hm).
  open_local Hok. unfold publish in Hrun. rewrite Hslot in *. destruct create as [[g d t u]|e].
  - specialize (Hu _ eq_refl). cbn in Hu.
    assert (Hpub : ∀ ths, ths = [Holding id d] ∨ ths = [] →
      local_ok acc (Some (Active g 1 d t identity u)) (ths ++ rest)).
    { intros ths [-> | ->]; close_local. }
    destruct u as [u|]; [destruct (dup u)|]; injection Hrun as <- <-; rewrite lookup_insert_eq;
      (split; [|done]); apply Hpub; auto.
  - injection Hrun as <- <-. cbn. rewrite lookup_delete_eq. split; [|done].
    close_local.
Qed.

Lemma drop_local acc populated removed temp_removed id d slots s gone rest :
  launch_finished populated removed temp_removed id slots = (s, gone) →
  local_ok acc (slots !! id) (Holding id d :: rest) →
  local_ok acc (s !! id) rest ∧ (∀ d', gone = Some d' → d' = d ∧ count_by holds rest = 0).
Proof.
  intros Hrun Hok. open_local Hok. unfold launch_finished in Hrun.
  pose proof (count_by_nonneg holds rest) as Hnn.
  destruct (slots !! id) as [[|g n d' t i u|g n d' t i u|t]|] eqn:Hslot; cbn in Hbal, Hself; try lia; try done.
  - injection Hself as ->. destruct Hbal as (Hn & Hm & Hu).
    destruct ((Z.max 0 (n - 1) =? 0) && negb (default true populated) && removed) eqn:Hret.
    + apply andb_prop in Hret as [Hret _]. apply andb_prop in Hret as [Hret _]. bool_to_prop.
      assert (Hh : count_by holds rest = 0) by lia.
      destruct temp_removed; injection Hrun as <- <-.
      * rewrite lookup_delete_eq. split; [|by intros d' [= <-]]. close_local.
      * rewrite lookup_insert_eq. split; [|by intros d' [= <-]]. close_local.
    + injection Hrun as <- <-. rewrite lookup_insert_eq. split; [|done].
      close_local.
  - injection Hrun as <- <-. rewrite lookup_insert_eq. split; [|done].
    close_local.
Qed.

Lemma release_local acc killed id slots r s rest :
  release killed id slots = (r, s) →
  local_ok acc (slots !! id) (Release id :: rest) →
  local_ok acc (s !! id)
    (match r with
     | Absent | KillFailed => []
     | ReleaseWait => [ReleaseWaiting id]
     | TakeOver d t i u => [Tearing id d t i u]
     | Marked => [Release id]
     | FinishPendingCleanup t => [Finishing id t]
     end ++ rest).
Proof.
  intros Hrun Hok. open_local Hok. unfold release in Hrun.
  destruct (slots !! id) as [[|g n d t i u|g n d t i u|t]|] eqn:Hslot; cbn in Hbal.
  - injection Hrun as <- <-. rewrite Hslot. close_local.
  - destruct killed; injection Hrun as <- <-; [rewrite lookup_insert_eq|rewrite Hslot].
    + close_local.
    + close_local.
  - destruct (n =? 0) eqn:Hn; bool_to_prop; injection Hrun as <- <-; [rewrite lookup_insert_eq|rewrite Hslot].
    + pose proof (count_by_nonneg holds rest). close_local.
    + close_local.
  - injection Hrun as <- <-. rewrite lookup_insert_eq. close_local.
  - injection Hrun as <- <-. rewrite Hslot. close_local.
Qed.

Lemma finish_local acc id temp removed slots rest :
  local_ok acc (slots !! id) (Finishing id temp :: rest) →
  local_ok acc (after_finish removed temp id slots !! id) rest.
Proof.
  intros Hok. destruct (marker_found _ _ (Finishing id temp) _ eq_refl Hok) as (Hslot & Hh & Hm).
  open_local Hok. unfold after_finish. rewrite Hslot in *. cbn [is_creating].
  destruct removed; [rewrite lookup_delete_eq|rewrite lookup_insert_eq]; close_local.
Qed.

Lemma teardown_local acc id d t i u ok d' slots rest :
  local_ok acc (slots !! id) (Tearing id d t i u :: rest) →
  local_ok acc (finish_release ok d' t i u id slots !! id) rest ∧ count_by holds rest = 0.
Proof.
  intros Hok. open_local Hok. pose proof (count_by_nonneg holds rest). pose proof (count_by_nonneg deletes rest).
  assert (Hz : count_by holds rest = 0 ∧ count_by marks rest = 0).
  { destruct (slots !! id) as [[| | |]|]; cbn in *; lia. }
  destruct Hz as [Hh Hm]. split; [|done].
  assert (Hfree : acc = true → count_by deletes rest = 0) by (intros Ha; specialize (Hdel Ha); lia).
  assert (Hchange : ∀ slot', (acc = false → drained false slot') → balanced slot' 0 0 →
    local_ok acc slot' rest).
  { intros slot' Hdr Hb. split.
    - eapply agrees_change; [exact Hagree|by left|].
      destruct acc; [left; auto|right; auto].
    - by rewrite Hh, Hm.
    - intros Ha. rewrite Hfree by done. lia. }
  unfold finish_release. destruct ok; [rewrite lookup_delete_eq|rewrite lookup_insert_eq];
    apply Hchange; cbn; auto; lia.
Qed.

Lemma deleter_swap acc slot t t' rest :
  match t with Release _ | ReleaseWaiting _ => True | _ => False end →
  match t' with Release _ | ReleaseWaiting _ => True | _ => False end →
  local_ok acc slot (t :: rest) → local_ok acc slot (t' :: rest).
Proof. intros Ht Ht' Hok. open_local Hok. destruct t, t'; try done; close_local. Qed.

Lemma deleter_leaves acc slot t rest :
  match t with Release _ | ReleaseWaiting _ => True | _ => False end →
  local_ok acc slot (t :: rest) → local_ok acc slot rest.
Proof. intros Ht Hok. open_local Hok. destruct t; try done; close_local. Qed.

(** What was made and not published keeps its namespace with its identity. *)
Definition made_whole (t : thread) : Prop :=
  match t with
  | Publishing _ identity (Ok p) => is_Some (gp_userns p) ↔ is_Some identity
  | _ => True
  end.

(** One thread's step keeps its sandbox's invariant. *)
Lemma local_step t w ts w' rest :
  thread_step t w ts w' → made_whole t →
  local_ok (accepting w) (slots w !! about t) (t :: rest) →
  local_ok (accepting w') (slots w' !! about t) (ts ++ rest) ∧ Forall made_whole ts.
Proof.
  intros Hstep Hwhole Hok. destruct Hstep; cbn [about accepting slots set_slots kill_domain] in *.
  - split; [by eapply join_local|]. by destruct r; repeat constructor.
  - apply local_neutral in Hok; [|done].
    destruct (after_launch_wait _ _ _); [by split|]. split; [by apply local_neutral|by repeat constructor].
  - split; [by eapply clean_local|]. by destruct removed; [destruct go|]; repeat constructor.
  - destruct (marker_found _ _ (Generating id identity) _ eq_refl Hok) as (Hslot & Hh & Hm). open_local Hok.
    split; [|by apply Forall_singleton]. rewrite Hslot in *. close_local.
  - destruct (marker_found _ _ (Generating id identity) _ eq_refl Hok) as (Hslot & Hh & Hm). open_local Hok.
    split; [|by apply Forall_singleton]. rewrite Hslot in *. close_local.
  - destruct (marker_found _ _ (Generating id identity) _ eq_refl Hok) as (Hslot & Hh & Hm). open_local Hok.
    split; [|by apply Forall_singleton]. rewrite Hslot in *. close_local.
  - destruct (publish_local (accepting w0) dup id identity create (slots w0) r s rest) as [Hpub Hnd]; [|done|done|].
    { intros p ->. exact Hwhole. }
    destruct r as [d t u|e|d e]; cbn [accepting slots set_slots]; [..|by destruct (Hnd d e)];
      (split; [done|by repeat constructor]).
  - split; [|constructor]. exact (proj1 (drop_local _ _ _ _ _ _ _ _ _ _ H Hok)).
  - split; [by eapply release_local|]. by destruct r; repeat constructor.
  - destruct (after_release_wait _ _ _).
    + split; [|constructor]. by apply (deleter_leaves _ _ (ReleaseWaiting id)).
    + split; [|by repeat constructor]. by apply (deleter_swap _ _ (ReleaseWaiting id)).
  - split; [|constructor]. by eapply finish_local.
  - split; [|constructor]. exact (proj1 (teardown_local _ _ _ _ _ _ ok d' _ _ Hok)).
Qed.

(** ** The whole system *)

Lemma join_frame dup acc id identity slots r s j :
  join dup acc id identity slots = (r, s) → j ≠ id → s !! j = slots !! j.
Proof.
  intros Hrun Hj. unfold join in Hrun.
  repeat (case_match; simplify_eq; try done); by rewrite lookup_insert_ne.
Qed.

Lemma publish_frame dup id identity create slots r s j :
  publish dup id identity create slots = (r, s) → j ≠ id → s !! j = slots !! j.
Proof.
  intros Hrun Hj. unfold publish in Hrun.
  repeat (case_match; simplify_eq; try done); by rewrite ?lookup_insert_ne, ?lookup_delete_ne.
Qed.

Lemma launch_finished_frame populated removed temp_removed id slots s gone j :
  launch_finished populated removed temp_removed id slots = (s, gone) → j ≠ id → s !! j = slots !! j.
Proof.
  intros Hrun Hj. unfold launch_finished in Hrun.
  repeat (case_match; simplify_eq; try done); by rewrite ?lookup_insert_ne, ?lookup_delete_ne.
Qed.

Lemma release_frame killed id slots r s j :
  release killed id slots = (r, s) → j ≠ id → s !! j = slots !! j.
Proof.
  intros Hrun Hj. unfold release in Hrun.
  repeat (case_match; simplify_eq; try done); by rewrite lookup_insert_ne.
Qed.

(** A thread changes its own sandbox's slot only, and stays with it. *)
Lemma step_frame t w ts w' :
  thread_step t w ts w' →
  accepting w' = accepting w ∧ Forall (fun t' => about t' = about t) ts ∧
  ∀ j, j ≠ about t → slots w' !! j = slots w !! j.
Proof.
  intros Hstep. destruct Hstep; cbn [about accepting slots set_slots kill_domain].
  - split_and!; [done|by destruct r; repeat constructor|]. intros j. by eapply join_frame.
  - split_and!; [done|by destruct (after_launch_wait _ _ _); repeat constructor|done].
  - split_and!; [done|by destruct removed; [destruct go|]; repeat constructor|].
    intros j Hj. unfold after_clean in *. destruct removed; simplify_eq; [done|by rewrite lookup_insert_ne].
  - split_and!; [done|by repeat constructor|done].
  - split_and!; [done|by repeat constructor|done].
  - split_and!; [done|by repeat constructor|done].
  - destruct r; cbn; (split_and!; [done|by repeat constructor|]); intros j; by eapply publish_frame.
  - split_and!; [done|constructor|]. intros j. by eapply launch_finished_frame.
  - split_and!; [done|by destruct r; repeat constructor|]. intros j. by eapply release_frame.
  - split_and!; [done|by destruct (after_release_wait _ _ _); repeat constructor|done].
  - split_and!; [done|constructor|]. intros j Hj. unfold after_finish.
    repeat case_match; by rewrite ?lookup_insert_ne, ?lookup_delete_ne.
  - split_and!; [done|constructor|]. intros j Hj. unfold finish_release.
    destruct ok; by rewrite ?lookup_insert_ne, ?lookup_delete_ne.
Qed.

Definition inv (sys : system) : Prop :=
  (∀ id, local_ok (accepting (w sys)) (slots (w sys) !! id) (of_sandbox id (threads sys))) ∧
  Forall made_whole (threads sys).

Lemma of_sandbox_same l t r : of_sandbox (about t) (l ++ t :: r) ≡ₚ t :: of_sandbox (about t) (l ++ r).
Proof.
  unfold of_sandbox. rewrite !filter_app, filter_cons_True by done. by rewrite Permutation_middle.
Qed.

Lemma of_sandbox_new ts id l r :
  Forall (fun t => about t = id) ts → of_sandbox id (l ++ ts ++ r) ≡ₚ ts ++ of_sandbox id (l ++ r).
Proof.
  intros Hts. unfold of_sandbox. rewrite !filter_app.
  assert (filter (fun t => about t = id) ts = ts) as ->.
  { induction Hts as [|t ts Ht Hts IH]; [done|]. by rewrite filter_cons_True, IH. }
  by rewrite !app_assoc, (Permutation_app_comm (filter _ l) ts).
Qed.

Lemma of_sandbox_other ts id id' l r :
  Forall (fun t => about t = id') ts → id ≠ id' → of_sandbox id (l ++ ts ++ r) = of_sandbox id (l ++ r).
Proof.
  intros Hts Hne. unfold of_sandbox. rewrite !filter_app.
  assert (filter (fun t => about t = id) ts = []) as ->; [|done].
  induction Hts as [|t ts Ht Hts IH]; [done|]. rewrite filter_cons_False by congruence. done.
Qed.

Lemma no_release_counts id ths :
  Forall (fun t => releases id t = false) ths → count_by deletes (of_sandbox id ths) = 0.
Proof.
  intros Hr. apply count_by_zero, Forall_forall. intros t [Hid Ht]%list_elem_of_filter.
  rewrite Forall_forall in Hr. specialize (Hr t Ht). destruct t; try done; cbn in *;
    by rewrite bool_decide_true in Hr.
Qed.

Lemma local_stop slot ths acc : local_ok acc slot ths → local_ok false slot ths.
Proof.
  intros [Ha Hb Hd]. split; [|done..]. eapply Forall_impl; [exact Ha|]. intros t. destruct t; try done. cbn.
  destruct slot as [[| | |]|]; cbn; try done. by intros [-> _].
Qed.

Lemma local_mark slot ths : local_ok false slot ths → local_ok false (mark_slot <$> slot) ths.
Proof.
  intros [Ha Hb Hd]. split; [|destruct slot as [[| | |]|]; cbn in *; naive_solver|done].
  eapply agrees_change; [exact Ha|..].
  - right. by destruct slot as [[| | |]|].
  - right. by destruct slot as [[| | |]|].
Qed.

Lemma domains_init : inv init.
Proof. split; [|constructor]. intros id. cbn. rewrite lookup_empty. by repeat constructor. Qed.

Lemma domains_step sys sys' : step sys sys' → inv sys → inv sys'.
Proof.
  intros Hstep [Hloc Hwhole]. destruct Hstep as [w w' l t ts r Hts|w ths id identity|w ths id Hex|w ths|w ths Hacc];
    cbn [Domains.w threads] in *.
  - apply Forall_app in Hwhole as [Hwl Hwr]. apply Forall_cons in Hwr as [Hwt Hwr].
    destruct (step_frame _ _ _ _ Hts) as (Hacc & Habout & Hframe).
    pose proof (Hloc (about t)) as Hself. rewrite of_sandbox_same in Hself.
    destruct (local_step _ _ _ _ _ Hts Hwt Hself) as [Hnew Hwhole'].
    split; [|cbn; by rewrite !Forall_app]. intros id. cbn [Domains.w threads]. destruct (decide (id = about t)) as [-> |Hne].
    + by rewrite of_sandbox_new.
    + rewrite Hacc, Hframe by done. rewrite (of_sandbox_other ts id (about t)) by done.
      specialize (Hloc id). change (l ++ t :: r) with (l ++ [t] ++ r) in Hloc.
      by rewrite (of_sandbox_other [t] id (about t)) in Hloc by (done || by constructor).
  - split; [|by apply Forall_cons_2]. intros j. specialize (Hloc j). cbn [Domains.w threads]. unfold of_sandbox in *.
    rewrite filter_cons. case_decide; [by apply local_neutral|done].
  - split; [|by apply Forall_cons_2]. intros j. specialize (Hloc j). cbn [Domains.w threads]. unfold of_sandbox in *.
    rewrite filter_cons. case_decide as Hj; [|done]. cbn in Hj. subst j. destruct Hloc as [Ha Hb Hd].
    split; cbn [count_by holds marks deletes]; [by apply Forall_cons_2|by rewrite !Z.add_0_l|].
    intros Hacc. destruct Hex as [Hex|Hex]; [congruence|].
    apply no_release_counts in Hex. unfold of_sandbox in Hex. lia.
  - split; [|done]. intros j. cbn [Domains.w threads slots accepting set_slots]. by eapply local_stop.
  - split; [|done]. intros j. cbn [Domains.w threads slots accepting set_slots]. specialize (Hloc j). rewrite Hacc in *. unfold mark_all.
    rewrite lookup_fmap. by apply local_mark.
Qed.

Lemma domains_steps sys sys' : rtc step sys sys' → inv sys → inv sys'.
Proof. induction 1 as [|x y z Hstep _ IH]; [done|]. intros Hinv. by apply IH, (domains_step x). Qed.

Lemma domains_reachable sys : reachable sys → inv sys.
Proof. intros Hr. exact (domains_steps _ _ Hr domains_init). Qed.
End Domains.
