(* ===== verification/DomainSafety.v ===== *)
(** * What the process-domain registry guarantees ([platform/linux.rs])

    Who owns each control group, at every point of every interleaving of launches,
    dropped leases, deletions and shutdown; and what a failed descriptor duplication
    does to the launch barrier. *)

From S2P Require Import Prelude Text FileSystem RuntimeLedger Manager Auth EnginePolicy LaunchPolicy Domains.

Module DomainSafety.
Import Domains.

(** ** Ownership *)

(** The domain a thread alone can still remove. *)
Definition thread_owns (t : thread) : list Z :=
  match t with
  | Tearing _ (Some d) _ _ _ => [d]
  | Publishing _ _ (Ok p) => [gp_domain p]
  | _ => []
  end.

Definition slot_owns (slot : option DomainSlot) : list Z := option_list (slot_domain slot).

Definition slots_own (m : slots_map) : list Z := map_to_list m ≫= fun kv => slot_owns (Some kv.2).

Definition owned (sys : system) : list Z := (threads sys ≫= thread_owns) ++ slots_own (slots (w sys)).

Lemma slots_own_at m id : slots_own m ≡ₚ slot_owns (m !! id) ++ slots_own (delete id m).
Proof.
  unfold slots_own. destruct (m !! id) as [x|] eqn:Hx; [|by rewrite delete_id].
  by rewrite <-(insert_delete_id m id x Hx) at 1; rewrite map_to_list_insert by apply lookup_delete_eq.
Qed.

Lemma slots_own_mark m : slots_own (mark_all m) = slots_own m.
Proof.
  unfold slots_own, mark_all. rewrite map_to_list_fmap. induction (map_to_list m) as [|[k x] l IH]; [done|].
  cbn. rewrite IH. f_equal. by destruct x.
Qed.

(** How one step changes the domains of its sandbox, [A] before and [B] after:
    nothing, one is made, one is removed, one is made and left behind.  [lost] are
    those nobody owns any more, which happens only while shutting down. *)
Definition moves (acc : bool) (A B : list Z) (live orphans live' orphans' : gset Z) : Prop :=
  ∃ lost, (acc = true → lost = []) ∧
    ((A ≡ₚ lost ++ B ∧ live' = live ∧ orphans' = orphans) ∨
     (∃ d, A ≡ₚ d :: lost ++ B ∧ live' = live ∖ {[d]} ∧ orphans' = orphans) ∨
     (∃ d, d ∉ live ∧ B ≡ₚ d :: A ∧ live' = {[d]} ∪ live ∧ orphans' = orphans) ∨
     (∃ d, d ∉ live ∧ B ≡ₚ A ∧ live' = {[d]} ∪ live ∧ orphans' = {[d]} ∪ orphans)).

Lemma moves_keep acc A B l o : A ≡ₚ B → moves acc A B l o l o.
Proof. intros Hp. exists []. split; [done|]. by left. Qed.

Lemma moves_remove acc A B d l o : A ≡ₚ d :: B → moves acc A B l o (l ∖ {[d]}) o.
Proof. intros Hp. exists []. split; [done|]. right; left. by exists d. Qed.

Lemma join_moves dup acc id identity m r s :
  join dup acc id identity m = (r, s) → slot_owns (s !! id) = slot_owns (m !! id).
Proof.
  intros Hrun. unfold join in Hrun.
  repeat (case_match; simplify_eq; try done); by simplify_map_eq.
Qed.

Lemma release_moves killed id m r s :
  release killed id m = (r, s) →
  match r with TakeOver (Some d) _ _ _ => [d] | _ => [] end ++ slot_owns (s !! id) = slot_owns (m !! id).
Proof.
  intros Hrun. unfold release in Hrun.
  repeat (case_match; simplify_eq; try done); simplify_map_eq;
    match goal with Hm : _ !! id = _ |- _ => by rewrite ?Hm end.
Qed.

(** The end of a deletion: the control group is removed, or given back to the slot. *)
Lemma teardown_moves acc answers id d t i u m d' ok rest l o :
  local_ok acc (m !! id) (Tearing id d t i u :: rest) → teardown answers d t = (d', ok) →
  moves acc (option_list d ++ slot_owns (m !! id)) (slot_owns (finish_release ok d' t i u id m !! id)) l o
    (match (if bool_decide (d' = None) then d else None) with Some d => l ∖ {[d]} | None => l end) o.
Proof.
  intros Hok Hrun.
  assert (Hnew : slot_owns (finish_release ok d' t i u id m !! id) = option_list d').
  { unfold teardown in Hrun. unfold finish_release.
    destruct ok; [|by rewrite lookup_insert_eq]. rewrite lookup_delete_eq. repeat case_match; by simplify_eq. }
  rewrite Hnew. exists (slot_owns (m !! id)). split.
  { intros ->. apply lo_agrees, Forall_cons_1 in Hok as [Hdr _]. cbn in Hdr.
    destruct (m !! id) as [[| |? ? ? ? ? ?|]|]; try done. destruct Hdr as [_ Hnone]. cbn. by rewrite Hnone. }
  assert (Hd' : d' = None ∨ d' = d).
  { unfold teardown in Hrun. repeat case_match; simplify_eq; auto. }
  destruct Hd' as [-> | ->].
  - rewrite bool_decide_true by done. rewrite app_nil_r. destruct d as [d|]; [right; left; by exists d|by left].
  - left. split_and!; [by rewrite Permutation_app_comm| |done]. by destruct d; [rewrite bool_decide_false|rewrite bool_decide_true].
Qed.

Lemma owners_step t v ts v' rest :
  thread_step t v ts v' →
  made_whole t →
  local_ok (accepting v) (slots v !! about t) (t :: rest) →
  moves (accepting v) (thread_owns t ++ slot_owns (slots v !! about t))
    ((ts ≫= thread_owns) ++ slot_owns (slots v' !! about t)) (live v) (orphans v) (live v') (orphans v').
Proof.
  intros Hstep Hwhole Hok. destruct Hstep as
    [id identity dup v r s Hrun|id identity timed_out v|id identity temp removed v go s Hrun
    |id identity d temp userns v Hd Hu|id identity e taken v|id identity e d v Hd
    |id identity dup create v r s Hrun|id d populated removed temp_removed v s gone Hrun
    |id killed v r s Hrun|id timed_out v|id temp removed v|id d t i u answers v d' ok Hrun];
    cbn [about slots live orphans accepting set_slots kill_domain thread_owns app] in *.
  - apply moves_keep. rewrite (join_moves _ _ _ _ _ _ _ Hrun). by destruct r.
  - apply moves_keep. by destruct (after_launch_wait _ _ _).
  - apply moves_keep. destruct (marker_found _ _ (Cleaning id identity temp) _ eq_refl Hok) as (Hslot & _).
    unfold after_clean in Hrun. rewrite Hslot in *. destruct removed; simplify_eq.
    + by rewrite Hslot.
    + by rewrite lookup_insert_eq.
  - exists []. split; [done|]. right; right; left. by exists d.
  - by apply moves_keep.
  - exists []. split; [done|]. right; right; right. by exists d.
  - destruct (publish_local (accepting v) dup id identity create (slots v) r s rest) as [_ Hnd]; [|done|done|].
    { intros p ->. exact Hwhole. }
    destruct (marker_found _ _ (Publishing id identity create) _ eq_refl Hok) as (Hslot & _).
    unfold publish in Hrun. rewrite Hslot in *. destruct create as [[g d t u]|e]; cbn in Hrun |- *.
    + destruct u as [u|]; [destruct (dup u)|]; simplify_eq; apply moves_keep; cbn; by rewrite lookup_insert_eq.
    + simplify_eq. apply moves_keep. cbn. by rewrite lookup_delete_eq.
  - unfold launch_finished in Hrun. destruct (slots v !! id) as [[|g n d0 t i u|g n d0 t i u|t]|] eqn:Hslot;
      repeat (case_match; simplify_eq); cbn; rewrite ?lookup_insert_eq, ?lookup_delete_eq, ?Hslot;
      first [by apply moves_keep | by apply moves_remove].
  - apply moves_keep. rewrite <-(release_moves _ _ _ _ _ Hrun). destruct r as [| |[|]| | |]; done.
  - apply moves_keep. by destruct (after_release_wait _ _ _).
  - apply moves_keep. destruct (marker_found _ _ (Finishing id temp) _ eq_refl Hok) as (Hslot & _).
    unfold after_finish. rewrite Hslot. cbn.
    destruct removed; by rewrite ?lookup_insert_eq, ?lookup_delete_eq.
  - rewrite app_nil_l. assert (Hd : match d with Some d => [d] | None => [] end = option_list d) by by destruct d.
    rewrite Hd. by eapply teardown_moves.
Qed.

(** While the daemon serves, every control group that exists has exactly one owner
    or was left behind by a failed creation; always, what is owned exists. *)
Record ownership (sys : system) : Prop := MkOwnership
  { os_nodup : NoDup (owned sys);
    os_live : ∀ d, d ∈ owned sys → d ∈ live (w sys) ∧ d ∉ orphans (w sys);
    os_orphans : orphans (w sys) ⊆ live (w sys);
    os_kept : accepting (w sys) = true → ∀ d, d ∈ live (w sys) → d ∈ owned sys ∨ d ∈ orphans (w sys) }.

(** The global account follows the local one. *)
Lemma moves_ownership acc A B R l o l' o' :
  moves acc A B l o l' o' →
  NoDup (A ++ R) → (∀ d, d ∈ A ++ R → d ∈ l ∧ d ∉ o) → o ⊆ l →
  (acc = true → ∀ d, d ∈ l → d ∈ A ++ R ∨ d ∈ o) →
  NoDup (B ++ R) ∧ (∀ d, d ∈ B ++ R → d ∈ l' ∧ d ∉ o') ∧ o' ⊆ l' ∧
  (acc = true → ∀ d, d ∈ l' → d ∈ B ++ R ∨ d ∈ o').
Proof.
  intros (lost & Hlost & Hcase) Hnd Hlive Ho Hkept.
  destruct Hcase as [(Hp & -> & ->)|[(d & Hp & -> & ->)|[(d & Hd & Hp & -> & ->)|(d & Hd & Hp & -> & ->)]]].
  - rewrite Hp, <-app_assoc in Hnd. apply NoDup_app in Hnd as (_ & _ & Hnd).
    setoid_rewrite Hp in Hlive. setoid_rewrite Hp in Hkept. split_and!; [done|set_solver|done|].
    intros Ha x Hx. specialize (Hkept Ha x Hx). rewrite (Hlost Ha) in Hkept. done.
  - rewrite Hp in Hnd. cbn in Hnd. apply NoDup_cons in Hnd as [Hd Hnd].
    rewrite <-app_assoc in Hd, Hnd. apply NoDup_app in Hnd as (_ & _ & Hnd).
    setoid_rewrite Hp in Hlive. setoid_rewrite Hp in Hkept.
    assert (d ∉ o) by (apply Hlive; set_solver). split_and!; [done|set_solver|set_solver|].
    intros Ha x Hx. specialize (Hkept Ha x). rewrite (Hlost Ha) in Hkept. set_solver.
  - setoid_rewrite Hp. split_and!; [|set_solver..].
    cbn. apply NoDup_cons. split; [|done]. intros Hin. by apply Hlive in Hin as [? _].
  - setoid_rewrite Hp. split_and!; [done|..]; [|set_solver|set_solver].
    intros x Hx. destruct (Hlive x Hx) as [? ?]. set_solver.
Qed.

Lemma owned_split v l t r :
  owned (MkSystem v (l ++ t :: r)) ≡ₚ
  (thread_owns t ++ slot_owns (slots v !! about t)) ++
  (((l ++ r) ≫= thread_owns) ++ slots_own (delete (about t) (slots v))).
Proof.
  unfold owned. cbn [threads w]. rewrite (slots_own_at (slots v) (about t)).
  rewrite !bind_app. cbn. solve_Permutation.
Qed.

Lemma owned_split_list v l ts r id :
  owned (MkSystem v (l ++ ts ++ r)) ≡ₚ
  ((ts ≫= thread_owns) ++ slot_owns (slots v !! id)) ++
  (((l ++ r) ≫= thread_owns) ++ slots_own (delete id (slots v))).
Proof.
  unfold owned. cbn [threads w]. rewrite (slots_own_at (slots v) id).
  rewrite !bind_app. solve_Permutation.
Qed.

Lemma delete_frame (m m' : slots_map) id :
  (∀ j, j ≠ id → m' !! j = m !! j) → delete id m' = delete id m.
Proof.
  intros Hf. apply map_eq. intros j. destruct (decide (j = id)) as [-> |Hj]; [by rewrite !lookup_delete_eq|].
  rewrite !lookup_delete_ne by done. auto.
Qed.

Lemma ownership_step sys sys' : step sys sys' → inv sys → ownership sys → ownership sys'.
Proof.
  intros Hstep [Hloc Hwhole] [Hnd Hlive Ho Hkept].
  destruct Hstep as [v v' l t ts r Hts|v ths id identity|v ths id Hex|v ths|v ths Hacc];
    cbn [Domains.w threads] in *; [|by split..|].
  - apply Forall_app in Hwhole as [_ Hwr]. apply Forall_cons in Hwr as [Hwt _].
    destruct (step_frame _ _ _ _ Hts) as (Hacc & _ & Hframe).
    pose proof (Hloc (about t)) as Hself. rewrite of_sandbox_same in Hself.
    pose proof (owners_step _ _ _ _ _ Hts Hwt Hself) as Hmoves.
    pose proof (owned_split_list v' l ts r (about t)) as Hnew.
    rewrite (delete_frame _ _ _ Hframe) in Hnew.
    rewrite (owned_split v l t r) in Hnd. setoid_rewrite (owned_split v l t r) in Hlive.
    setoid_rewrite (owned_split v l t r) in Hkept.
    destruct (moves_ownership _ _ _ _ _ _ _ _ Hmoves Hnd Hlive Ho Hkept) as (H1 & H2 & H3 & H4).
    split; cbn [Domains.w]; [by rewrite Hnew|by setoid_rewrite Hnew|done|].
    rewrite Hacc. by setoid_rewrite Hnew.
  - assert (Heq : owned (MkSystem (set_slots (mark_all (slots v)) v) ths) = owned (MkSystem v ths)).
    { unfold owned. cbn [threads Domains.w slots set_slots]. by rewrite slots_own_mark. }
    split; cbn [Domains.w live orphans accepting set_slots]; rewrite ?Heq; done.
Qed.

Lemma reachable_ownership sys : reachable sys → ownership sys.
Proof.
  intros Hr. assert (Hgo : ∀ x y, rtc step x y → inv x → ownership x → ownership y).
  { induction 1 as [|x y z Hstep _ IH]; [done|]. intros Hinv Hown.
    apply IH; [by eapply domains_step|by eapply ownership_step]. }
  apply (Hgo _ _ Hr domains_init). split; cbn; [constructor|set_solver..].
Qed.

(** The barrier of a slot. *)
Definition in_flight (slot : option DomainSlot) : Z :=
  match slot with
  | Some (Active _ n _ _ _ _) | Some (Deleting _ n _ _ _ _) => n
  | _ => 0
  end.

Lemma held_barrier acc slot ths t :
  local_ok acc slot ths → holds t = true → t ∈ ths → 1 <= count_by holds ths <= in_flight slot.
Proof.
  intros [_ Hb _] Hh [l [r ->]]%list_elem_of_split. rewrite count_by_app in *. cbn [count_by] in *. rewrite Hh in *.
  pose proof (count_by_nonneg holds l). pose proof (count_by_nonneg holds r).
  destruct slot as [[| | |]|]; cbn in *; lia.
Qed.

(** ** A lost lease *)

(** More launches in flight than leases to drop. *)
Definition leaks (id : string) (sys : system) : Prop :=
  1 + count_by holds (of_sandbox id (threads sys)) <= in_flight (slots (w sys) !! id).

Lemma leak_active acc slot ths :
  local_ok acc slot ths → 1 + count_by holds ths <= in_flight slot →
  count_by marks ths = 0 ∧ Forall (fun t => match t with Tearing _ _ _ _ _ => False | _ => True end) ths.
Proof.
  intros [Ha Hb _] Hn. pose proof (count_by_nonneg holds ths).
  destruct slot as [[| | |]|]; cbn in *; try lia.
  - split; [lia|]. eapply Forall_impl; [exact Ha|]. by intros [].
  - split; [lia|]. eapply Forall_impl; [exact Ha|]. intros []; cbn; try done. lia.
Qed.

(** No thread's step lets the barrier drain. *)
Lemma leak_thread t v ts v' rest :
  thread_step t v ts v' →
  local_ok (accepting v) (slots v !! about t) (t :: rest) →
  1 + count_by holds (t :: rest) <= in_flight (slots v !! about t) →
  1 + count_by holds (ts ++ rest) <= in_flight (slots v' !! about t).
Proof.
  intros Hstep Hok Hn. destruct (leak_active _ _ _ Hok Hn) as [Hm Htear].
  pose proof (count_by_nonneg marks rest). pose proof (count_by_nonneg holds rest).
  destruct Hstep as
    [id identity dup v r s Hrun|id identity timed_out v|id identity temp removed v go s Hrun
    |id identity d temp userns v Hd Hu|id identity e taken v|id identity e d v Hd
    |id identity dup create v r s Hrun|id d populated removed temp_removed v s gone Hrun
    |id killed v r s Hrun|id timed_out v|id temp removed v|id d t i u answers v d' ok Hrun];
    cbn [about slots set_slots kill_domain count_by holds marks app] in *; try lia.
  - unfold join in Hrun. repeat (case_match; simplify_eq); cbn [app count_by holds in_flight] in *;
      simplify_map_eq; cbn in *; lia.
  - by destruct (after_launch_wait _ _ _).
  - unfold launch_finished in Hrun. destruct (slots v !! id) as [[| | |]|] eqn:Hslot; cbn in Hn; try lia.
    + rewrite (proj2 (Z.eqb_neq _ 0)) in Hrun by lia. simplify_eq/=. rewrite lookup_insert_eq. cbn. lia.
    + simplify_eq/=. rewrite lookup_insert_eq. cbn. lia.
  - unfold release in Hrun. destruct (slots v !! id) as [[| | |]|] eqn:Hslot; cbn in Hn; try lia.
    + destruct killed; simplify_eq/=; [rewrite lookup_insert_eq; cbn; lia|]. rewrite Hslot. cbn. lia.
    + rewrite (proj2 (Z.eqb_neq _ 0)) in Hrun by lia. simplify_eq/=. rewrite Hslot. cbn. lia.
  - by destruct (after_release_wait _ _ _).
  - by apply Forall_cons_1 in Htear as [[] _].
Qed.

Lemma leak_step id sys sys' : step sys sys' → inv sys → leaks id sys → leaks id sys'.
Proof.
  intros Hstep [Hloc _] Hleak. unfold leaks in *.
  destruct Hstep as [v v' l t ts r Hts|v ths j identity|v ths j Hex|v ths|v ths Hacc];
    cbn [Domains.w threads slots] in *.
  - destruct (step_frame _ _ _ _ Hts) as (_ & Habout & Hframe). specialize (Hloc id).
    destruct (decide (id = about t)) as [-> |Hne].
    + rewrite of_sandbox_same in Hloc. rewrite (count_by_perm _ _ _ (of_sandbox_same l t r)) in Hleak.
      rewrite (count_by_perm _ _ _ (of_sandbox_new ts _ l r Habout)). by eapply leak_thread.
    + rewrite Hframe by done. rewrite (of_sandbox_other ts id (about t)) by done.
      change (l ++ t :: r) with (l ++ [t] ++ r) in Hleak.
      by rewrite (of_sandbox_other [t] id (about t)) in Hleak by (done || by constructor).
  - unfold of_sandbox in *. rewrite filter_cons. by case_decide.
  - unfold of_sandbox in *. rewrite filter_cons. by case_decide.
  - done.
  - unfold mark_all, set_slots. cbn. rewrite lookup_fmap. by destruct (slots v !! id) as [[| | |]|].
Qed.

Lemma leak_steps id sys sys' : rtc step sys sys' → inv sys → leaks id sys → inv sys' ∧ leaks id sys'.
Proof.
  induction 1 as [|x y z Hstep _ IH]; [done|]. intros Hinv Hleak.
  apply IH; [by eapply domains_step|by eapply leak_step].
Qed.

(** ** Theorems *)

(** C4: at every point of every interleaving of launches, dropped leases, deletions
    and shutdown, no control group has two owners and what the registry or a thread
    owns exists; and until shutdown begins every control group that exists is owned,
    so something will remove it, or was left behind by a creation that failed, which
    the next start-up reconciles. *)
Theorem every_domain_has_one_owner sys :
  reachable sys →
  NoDup (owned sys) ∧ (∀ d, d ∈ owned sys → d ∈ live (w sys) ∧ d ∉ orphans (w sys)) ∧
  (accepting (w sys) = true → ∀ d, d ∈ live (w sys) → d ∈ owned sys ∨ d ∈ orphans (w sys)).
Proof. by intros [Hnd Hlive _ Hkept]%reachable_ownership. Qed.

(** C14: a launch that holds a lease keeps its domain: in every reachable system the
    sandbox's slot still holds that domain, the control group still exists, the
    barrier counts at least the leases, and no thread is creating, cleaning or
    tearing down anything for that sandbox. *)
Theorem leased_domains_stay sys id d :
  reachable sys → Holding id d ∈ threads sys →
  slot_domain (slots (w sys) !! id) = Some d ∧ d ∈ live (w sys) ∧
  1 <= count_by holds (of_sandbox id (threads sys)) <= in_flight (slots (w sys) !! id) ∧
  Forall (fun t => marks t = false ∧ ∀ x temp i u, t ≠ Tearing id x temp i u) (of_sandbox id (threads sys)).
Proof.
  intros Hr Hin. destruct (domains_reachable _ Hr) as [Hloc _]. specialize (Hloc id).
  destruct (reachable_ownership _ Hr) as [_ Hlive _ _].
  assert (Hmine : Holding id d ∈ of_sandbox id (threads sys)) by (by apply list_elem_of_filter).
  pose proof (held_barrier _ _ _ (Holding id d) Hloc eq_refl Hmine) as Hbar.
  destruct Hloc as [Ha Hb _]. pose proof (proj1 (Forall_forall _ _) Ha _ Hmine) as Hdom. cbn in Hdom.
  split_and!; [done| |lia|lia|].
  - apply Hlive. unfold owned. rewrite (slots_own_at _ id). unfold slot_owns. rewrite Hdom. set_solver.
  - assert (Hm : count_by marks (of_sandbox id (threads sys)) = 0).
    { destruct (slots (w sys) !! id) as [[| | |]|]; cbn in *; lia. }
    apply count_by_zero in Hm. rewrite Forall_forall in Hm, Ha |- *. intros t Ht. split; [auto|].
    intros x temp i u ->. specialize (Ha _ Ht). cbn in Ha, Hbar.
    destruct (slots (w sys) !! id) as [[| | |]|]; cbn in *; lia.
Qed.

(** C38: a launch that creates its sandbox's domain and then cannot duplicate the
    ID-map namespace fails with the slot already published as one launch in flight,
    and no lease exists to take that launch back: whatever happens next, the barrier
    never drains, so a deletion never takes the domain over, and one that waits
    gives up with an error. *)
Theorem failed_duplication_blocks_deletion v l r id identity g d temp namespace dup res s sys :
  reachable (MkSystem v (l ++ Publishing id identity (Ok (MkParts g d temp (Some namespace))) :: r)) →
  dup namespace = None →
  publish dup id identity (Ok (MkParts g d temp (Some namespace))) (slots v) = (res, s) →
  rtc step (MkSystem (set_slots s v) (l ++ r)) sys →
  (∃ e, res = PublishFailed e) ∧ 1 <= in_flight (slots (w sys) !! id) ∧
  (∀ killed, (release killed id (slots (w sys))).1 ∈ [ReleaseWait; Marked; KillFailed]) ∧
  ((release true id (slots (w sys))).1 = ReleaseWait → is_Some (after_release_wait true id (slots (w sys)))).
Proof.
  intros Hr Hdup Hpub Hsteps. pose proof (domains_reachable _ Hr) as Hinv.
  pose proof (proj1 Hinv id) as Hloc. cbn [Domains.w threads] in Hloc.
  set (t := Publishing id identity (Ok (MkParts g d temp (Some namespace)))) in *.
  pose proof (of_sandbox_same l t r) as Hsame. cbn [about t] in Hsame. rewrite Hsame in Hloc.
  destruct (marker_found _ _ t _ eq_refl Hloc) as (Hslot & Hh & Hm).
  assert (Hres : (∃ e, res = PublishFailed e) ∧ s !! id = Some (Active g 1 d temp identity (Some namespace))).
  { unfold publish in Hpub. rewrite Hslot, Hdup in Hpub. simplify_eq. rewrite lookup_insert_eq. eauto. }
  destruct Hres as [[e ->] Hs]. split; [by exists e|].
  assert (Hinv1 : inv (MkSystem (set_slots s v) (l ++ [] ++ r))).
  { eapply domains_step; [|exact Hinv]. apply st_thread. exact (ts_publish id identity dup _ v _ s Hpub). }
  destruct (leak_steps id _ _ Hsteps Hinv1) as [_ Hleak].
  { unfold leaks. cbn [Domains.w threads slots set_slots]. rewrite Hs. cbn [app in_flight]. lia. }
  unfold leaks in Hleak. pose proof (count_by_nonneg holds (of_sandbox id (threads sys))).
  assert (Hn : 1 <= in_flight (slots (w sys) !! id)) by lia. split; [done|].
  unfold release, after_release_wait. destruct (slots (w sys) !! id) as [[| | |]|]; cbn in Hn; try lia.
  - split; [intros []; cbn; set_solver|done].
  - rewrite (proj2 (Z.eqb_neq _ 0)) by lia. rewrite (proj2 (Z.ltb_lt _ _)) by lia.
    split; [intros _; cbn; set_solver|by eexists].
Qed.

(** ** Witnesses *)

Definition sample_temp : RuntimeTemp := Policy.MkRuntimeTemp Auth.PRoot (Auth.PJoin Auth.PRoot "t").
Definition sample_identity : Manager.Manager.IsolatedIdentity := Manager.Manager.MkIdentity 1000 1000 165536 165537.

(** The first launch of a sandbox, up to the publication. *)
Definition sample_world : world := MkWorld {["a" := Creating]} true 2 {[7]} ∅.
Definition sample_parts : generation_parts := MkParts 1 7 sample_temp (Some 5).

Lemma sample_creation :
  reachable (MkSystem sample_world [Publishing "a" (Some sample_identity) (Ok sample_parts)]).
Proof.
  eapply rtc_l; [apply (st_launch _ _ "a" (Some sample_identity))|].
  eapply rtc_l; [eapply (st_thread _ _ [] (Launch "a" (Some sample_identity)) [Generating "a" (Some sample_identity)] [])|].
  { exact (ts_join "a" (Some sample_identity) (fun _ => None) (w init) StartCreating _ eq_refl). }
  eapply rtc_l; [eapply (st_thread _ sample_world [] (Generating "a" (Some sample_identity))
    [Publishing "a" (Some sample_identity) (Ok sample_parts)] [])|].
  { apply (ts_generate_ok "a" (Some sample_identity) 7 sample_temp (Some 5)); [cbn; set_solver|naive_solver]. }
  apply rtc_refl.
Qed.

Definition sample_active : world :=
  MkWorld {["a" := Active 1 1 7 sample_temp (Some sample_identity) (Some 5)]} true 2 {[7]} ∅.

Lemma sample_held : reachable (MkSystem sample_active [Holding "a" 7]).
Proof.
  eapply rtc_r; [exact sample_creation|]. eapply (st_thread _ _ [] _ [Holding "a" 7] []).
  exact (ts_publish "a" (Some sample_identity) (fun _ => Some 6) (Ok sample_parts) sample_world
           (Published 7 sample_temp (Some 6)) _ eq_refl).
Qed.

Lemma every_domain_has_one_owner_witness :
  reachable (MkSystem sample_active [Holding "a" 7]) ∧ 7 ∈ owned (MkSystem sample_active [Holding "a" 7]).
Proof.
  split; [exact sample_held|].
  destruct (every_domain_has_one_owner _ sample_held) as (_ & _ & Hkept).
  destruct (Hkept eq_refl 7) as [Hin|Hin]; [cbn; set_solver|exact Hin|cbn in Hin; set_solver].
Defined.

Lemma leased_domains_stay_witness :
  slot_domain (slots sample_active !! "a") = Some 7 ∧ 7 ∈ live sample_active.
Proof.
  destruct (leased_domains_stay _ "a" 7 sample_held) as (Hd & Hl & _); [cbn; set_solver|]. by split.
Defined.

Lemma failed_duplication_blocks_deletion_witness :
  1 <= in_flight (slots sample_active !! "a") ∧
  (release true "a" (slots sample_active)).1 ∈ [ReleaseWait; Marked; KillFailed].
Proof.
  destruct (failed_duplication_blocks_deletion sample_world [] [] "a" (Some sample_identity) 1 7 sample_temp 5
    (fun _ => None) _ _ _ sample_creation eq_refl eq_refl (rtc_refl _ _)) as (_ & Hn & Hrel & _).
  split; [exact Hn|exact (Hrel true)].
Defined.
End DomainSafety.
