(* ===== verification/Admission.v ===== *)
(** * Connection and host-process admission ([server.rs])

    Three atomic counters bound the connections, the connections that have not
    authenticated, and the host processes.  Every access is one atomic operation on
    a counter; [step] interleaves those of any number of threads, so the
    compare-and-exchange loop of [try_acquire] is a thread that may be overtaken
    between its load and its exchange.  Counters are [usize]. *)

From S2P Require Import Prelude Text FileSystem RuntimeLedger Auth Paths Endpoint Config.

Module Admission.

(** ** The bounded counter *)

(** The test at the head of the loop of [try_acquire]; [None] refuses. *)
Definition acquire_check (limit current : Z) : option Z :=
  if limit <=? current then None else Some current.

(** [compare_exchange_weak]: it may fail spuriously, and reports what it saw. *)
Definition compare_exchange_weak (spurious : bool) (counter current : Z) : result Z Z :=
  if (counter =? current) && negb spurious then Ok (wrap_u64 (current + 1)) else Err counter.

Definition fetch_sub (counter : Z) : Z := wrap_u64 (counter - 1).

(** ** Threads *)

(** One connection, from its admission to the drop of its slot. *)
Inductive thread :=
| Arriving
| TakingTotal (current : Z)
| TookTotal
| TakingUnauthenticated (current : Z)
| Unwinding
| Connected (unauthenticated : bool)
| Authenticating
| Dropping
| Leaving
(* One host process. *)
| HostArriving
| HostTaking (current : Z)
| HostRunning
| Refused.

Record limiter := MkLimiter { unauthenticated : Z; total : Z; in_flight : Z }.

Definition new : limiter := MkLimiter 0 0 0.

Definition set_total (n : Z) (l : limiter) := MkLimiter (unauthenticated l) n (in_flight l).
Definition set_unauthenticated (n : Z) (l : limiter) := MkLimiter n (total l) (in_flight l).
Definition set_in_flight (n : Z) (l : limiter) := MkLimiter (unauthenticated l) (total l) n.

Section admission.
Context (caps : Config.Caps).

Definition retry (limit current : Z) (taking : Z → thread) (refused : thread) : thread :=
  match acquire_check limit current with Some current => taking current | None => refused end.

(** One atomic operation.  [Limiter::admit] takes the total slot and then the
    unauthenticated one, giving the first back when the second is refused;
    [LimiterSlot::authenticated] and the drop of the slot swap the flag before they
    subtract. *)
Inductive thread_step : thread → limiter → thread → limiter → Prop :=
| as_load l :
    thread_step Arriving l (retry (Config.max_connections caps) (total l) TakingTotal Refused) l
| as_total_ok spurious current n l :
    compare_exchange_weak spurious (total l) current = Ok n →
    thread_step (TakingTotal current) l TookTotal (set_total n l)
| as_total_again spurious current seen l :
    compare_exchange_weak spurious (total l) current = Err seen →
    thread_step (TakingTotal current) l (retry (Config.max_connections caps) seen TakingTotal Refused) l
| as_load_unauthenticated l :
    thread_step TookTotal l
      (retry (Config.max_unauthenticated_connections caps) (unauthenticated l) TakingUnauthenticated Unwinding) l
| as_unauthenticated_ok spurious current n l :
    compare_exchange_weak spurious (unauthenticated l) current = Ok n →
    thread_step (TakingUnauthenticated current) l (Connected true) (set_unauthenticated n l)
| as_unauthenticated_again spurious current seen l :
    compare_exchange_weak spurious (unauthenticated l) current = Err seen →
    thread_step (TakingUnauthenticated current) l
      (retry (Config.max_unauthenticated_connections caps) seen TakingUnauthenticated Unwinding) l
| as_unwind l : thread_step Unwinding l Refused (set_total (fetch_sub (total l)) l)
| as_authenticated flag l :
    thread_step (Connected flag) l (if flag then Authenticating else Connected false) l
| as_authenticated_release l :
    thread_step Authenticating l (Connected false) (set_unauthenticated (fetch_sub (unauthenticated l)) l)
| as_drop flag l : thread_step (Connected flag) l (if flag then Dropping else Leaving) l
| as_drop_release l :
    thread_step Dropping l Leaving (set_unauthenticated (fetch_sub (unauthenticated l)) l)
| as_leave l : thread_step Leaving l Refused (set_total (fetch_sub (total l)) l)
| as_host_load l :
    thread_step HostArriving l (retry (Config.max_host_processes caps) (in_flight l) HostTaking Refused) l
| as_host_ok spurious current n l :
    compare_exchange_weak spurious (in_flight l) current = Ok n →
    thread_step (HostTaking current) l HostRunning (set_in_flight n l)
| as_host_again spurious current seen l :
    compare_exchange_weak spurious (in_flight l) current = Err seen →
    thread_step (HostTaking current) l (retry (Config.max_host_processes caps) seen HostTaking Refused) l
| as_host_drop l : thread_step HostRunning l Refused (set_in_flight (fetch_sub (in_flight l)) l).

Inductive step : limiter * list thread → limiter * list thread → Prop :=
| st_thread l l' before t t' after :
    thread_step t l t' l' → step (l, before ++ t :: after) (l', before ++ t' :: after)
| st_connection l ths : step (l, ths) (l, Arriving :: ths)
| st_host l ths : step (l, ths) (l, HostArriving :: ths).

Definition reachable (s : limiter * list thread) : Prop := rtc step (new, []) s.

(** ** The counters are exact *)

Definition in_total (t : thread) : bool :=
  match t with
  | TookTotal | TakingUnauthenticated _ | Unwinding | Connected _ | Authenticating | Dropping | Leaving => true
  | _ => false
  end.
Definition in_unauthenticated (t : thread) : bool :=
  match t with Connected true | Authenticating | Dropping => true | _ => false end.
Definition in_host (t : thread) : bool := match t with HostRunning => true | _ => false end.

(** The connections that are being served. *)
Definition connected (t : thread) : bool := match t with Connected _ => true | _ => false end.
Definition anonymous (t : thread) : bool := match t with Connected true => true | _ => false end.

(** A thread in the loop has checked the value it will exchange. *)
Definition checked (t : thread) : Prop :=
  match t with
  | TakingTotal current => current < Config.max_connections caps
  | TakingUnauthenticated current => current < Config.max_unauthenticated_connections caps
  | HostTaking current => current < Config.max_host_processes caps
  | _ => True
  end.

Definition exact (limit counter : Z) (holds : thread → bool) (ths : list thread) : Prop :=
  counter = count_by holds ths ∧ counter <= Z.max 0 limit.

Record inv (s : limiter * list thread) : Prop := MkInv
  { iv_total : exact (Config.max_connections caps) (total s.1) in_total s.2;
    iv_unauthenticated :
      exact (Config.max_unauthenticated_connections caps) (unauthenticated s.1) in_unauthenticated s.2;
    iv_in_flight : exact (Config.max_host_processes caps) (in_flight s.1) in_host s.2;
    iv_checked : Forall checked s.2 }.

(** The caps are [u32] values. *)
Context (Hcaps : Config.max_connections caps <= u32_max ∧
                 Config.max_unauthenticated_connections caps <= u32_max ∧
                 Config.max_host_processes caps <= u32_max).

Lemma exact_keep limit c holds before t t' after :
  holds t' = holds t → exact limit c holds (before ++ t :: after) → exact limit c holds (before ++ t' :: after).
Proof. unfold exact. rewrite !count_by_app. cbn. by intros ->. Qed.

Lemma exact_gain limit spurious c current n holds before t t' after :
  holds t = false → holds t' = true → current < limit → limit <= u32_max →
  compare_exchange_weak spurious c current = Ok n →
  exact limit c holds (before ++ t :: after) → exact limit n holds (before ++ t' :: after).
Proof.
  unfold exact. rewrite !count_by_app. cbn. intros -> -> Hlt Hlim Hcas [Hc Hle].
  pose proof (count_by_nonneg holds before). pose proof (count_by_nonneg holds after).
  unfold compare_exchange_weak in Hcas. destruct (c =? current) eqn:Heq; [|done]. bool_to_prop. subst current.
  destruct spurious; [done|]. injection Hcas as <-. unfold wrap_u64, u32_max in *. rewrite Z.mod_small; lia.
Qed.

Lemma exact_lose limit c holds before t t' after :
  holds t = true → holds t' = false → limit <= u32_max →
  exact limit c holds (before ++ t :: after) → exact limit (fetch_sub c) holds (before ++ t' :: after).
Proof.
  unfold exact. rewrite !count_by_app. cbn. intros -> -> Hlim [Hc Hle].
  pose proof (count_by_nonneg holds before). pose proof (count_by_nonneg holds after).
  unfold fetch_sub, wrap_u64, u32_max in *. rewrite Z.mod_small; lia.
Qed.

Lemma retry_cases limit current taking refused :
  (current < limit ∧ retry limit current taking refused = taking current) ∨
  retry limit current taking refused = refused.
Proof.
  unfold retry, acquire_check. destruct (limit <=? current) eqn:Hle; bool_to_prop; [by right|left; split; [lia|done]].
Qed.

(** Each counter sees one of three changes. *)
Ltac exact_solve :=
  first [ eapply exact_keep; [|eassumption]; reflexivity
        | eapply exact_gain; [| | | |eassumption|eassumption]; [reflexivity|reflexivity|assumption|lia]
        | eapply exact_lose; [| | |eassumption]; [reflexivity|reflexivity|lia] ].

Lemma inv_thread before t l t' l' after :
  thread_step t l t' l' → inv (l, before ++ t :: after) → inv (l', before ++ t' :: after).
Proof.
  intros Hstep [Ht Hu Hf Hc]. cbn in *. destruct Hcaps as (Hmt & Hmu & Hmf).
  assert (Hcheck : checked t ∧ ∀ t', checked t' → Forall checked (before ++ t' :: after)).
  { apply Forall_app in Hc as [Hb Ha]. apply Forall_cons in Ha as [Hct Ha]. split; [done|].
    intros x Hx. apply Forall_app_2; [done|by apply Forall_cons_2]. }
  destruct Hcheck as [Hct Hcheck].
  destruct Hstep;
    try match goal with |- context [retry ?limit ?v ?f ?r] =>
      destruct (retry_cases limit v f r) as [[Hlt ->]| ->] end;
    try match goal with |- context [if ?flag then _ else _] => destruct flag end;
    cbn in Hct; (split; cbn [fst snd set_total set_unauthenticated set_in_flight total unauthenticated in_flight];
      [exact_solve|exact_solve|exact_solve|apply Hcheck; cbn; auto]).
Qed.

Lemma admission_step s s' : step s s' → inv s → inv s'.
Proof.
  intros Hstep Hinv. destruct Hstep as [l l' before t t' after Hts|l ths|l ths]; [by eapply inv_thread|..];
    destruct Hinv as [Ht Hu Hf Hc]; (split; cbn in *; [exact Ht|exact Hu|exact Hf|by apply Forall_cons_2]).
Qed.

Lemma admission_init : inv (new, []).
Proof. by split; [split; cbn; lia..|constructor]. Qed.

Lemma admission_steps s s' : rtc step s s' → inv s → inv s'.
Proof. induction 1 as [|x y z Hstep _ IH]; [done|]. intros Hinv. by apply IH, (admission_step x). Qed.

Lemma admission_reachable s : reachable s → inv s.
Proof. intros Hr. exact (admission_steps _ _ Hr admission_init). Qed.

(** C18: in every interleaving of the atomic operations of any number of
    connections and host processes, the three counters are exactly the slots taken
    and none ever holds a value above its cap, not even for a moment; so no more connections are served, none more
    unauthenticated and no more host processes run than the caps allow, and no
    subtraction ever wraps a counter below zero. *)
Theorem admission_is_bounded s :
  reachable s →
  total s.1 = count_by in_total s.2 ∧ unauthenticated s.1 = count_by in_unauthenticated s.2 ∧
  in_flight s.1 = count_by in_host s.2 ∧
  0 <= total s.1 <= Z.max 0 (Config.max_connections caps) ∧
  0 <= unauthenticated s.1 <= Z.max 0 (Config.max_unauthenticated_connections caps) ∧
  0 <= in_flight s.1 <= Z.max 0 (Config.max_host_processes caps) ∧
  count_by connected s.2 <= Z.max 0 (Config.max_connections caps) ∧
  count_by anonymous s.2 <= Z.max 0 (Config.max_unauthenticated_connections caps) ∧
  count_by in_host s.2 <= Z.max 0 (Config.max_host_processes caps) ∧
  (∀ t, t ∈ s.2 → in_total t = true → 1 <= total s.1) ∧
  (∀ t, t ∈ s.2 → in_unauthenticated t = true → 1 <= unauthenticated s.1).
Proof.
  intros Hr. destruct (admission_reachable _ Hr) as [[Ht Htc] [Hu Huc] [Hf Hfc] _].
  assert (count_by connected s.2 <= count_by in_total s.2) by (apply count_by_le; by intros []).
  assert (count_by anonymous s.2 <= count_by in_unauthenticated s.2) by (apply count_by_le; by intros [| | | | |[]| | | | | | |]).
  pose proof (count_by_nonneg in_total s.2). pose proof (count_by_nonneg in_unauthenticated s.2).
  pose proof (count_by_nonneg in_host s.2).
  split_and!; [done|done|done|lia..| |].
  - intros t Hin Hh. rewrite Ht. by eapply count_by_pos.
  - intros t Hin Hh. rewrite Hu. by eapply count_by_pos.
Qed.
End admission.

Lemma admission_is_bounded_witness :
  reachable Config.default_caps (MkLimiter 1 1 0, [Connected true]) ∧
  count_by connected [Connected true] <= 128 ∧ count_by anonymous [Connected true] <= 32.
Proof.
  assert (Hr : reachable Config.default_caps (MkLimiter 1 1 0, [Connected true])).
  { eapply rtc_l; [apply st_connection|].
    eapply rtc_l; [apply (st_thread _ new new [] Arriving (TakingTotal 0) []), as_load|].
    eapply rtc_l; [apply (st_thread _ new (MkLimiter 0 1 0) [] (TakingTotal 0) TookTotal []);
                   exact (as_total_ok _ false 0 1 new eq_refl)|].
    eapply rtc_l; [apply (st_thread _ (MkLimiter 0 1 0) (MkLimiter 0 1 0) [] TookTotal (TakingUnauthenticated 0) []);
                   exact (as_load_unauthenticated _ (MkLimiter 0 1 0))|].
    apply rtc_once, (st_thread _ (MkLimiter 0 1 0) (MkLimiter 1 1 0) [] (TakingUnauthenticated 0) (Connected true) []).
    exact (as_unauthenticated_ok _ false 0 1 (MkLimiter 0 1 0) eq_refl). }
  split; [exact Hr|].
  destruct (admission_is_bounded Config.default_caps ltac:(by vm_compute) _ Hr) as (_ & _ & _ & _ & _ & _ & H1 & H2 & _).
  split; [exact H1|exact H2].
Defined.
End Admission.
