(* ===== verification/HostTasks.v ===== *)
(** * Host bridge tasks ([server.rs], [HostTaskRegistry])

    Every host process is driven by a bridge task.  The registry keeps the tasks
    joinable until the shutdown barrier, and keeps their process groups within
    reach of a second shutdown signal.  Each operation runs under the registry's
    mutex, so it is a function on the registry; [step] interleaves them with the
    bridges and with [join_all]. *)

From S2P Require Import Prelude.

Module HostTasks.

(** [tasks] gives each identifier the process group of its control. *)
Record registry := MkRegistry { tasks : gmap Z Z; next_id : Z; closed : bool }.

Definition default_registry : registry := MkRegistry ∅ 0 false.

(** [HostTaskRegistry::track]: [None] when the registry is closed. *)
Definition track (pid : Z) (r : registry) : option Z * registry :=
  if closed r then (None, r)
  else (Some (next_id r), MkRegistry (<[next_id r := pid]> (tasks r)) (wrap_u64 (next_id r + 1)) false).

Definition complete (id : Z) (r : registry) : registry :=
  MkRegistry (delete id (tasks r)) (next_id r) (closed r).

Definition close (r : registry) : registry := MkRegistry (tasks r) (next_id r) true.

(** The process groups [force_stop] sends SIGKILL to. *)
Definition force_stop (r : registry) : gset Z := list_to_set (map_to_list (tasks r)).*2.

(** The section of [join_all] that drains the map. *)
Definition drain (r : registry) : list Z * registry :=
  ((map_to_list (tasks r)).*1, MkRegistry ∅ (next_id r) (closed r)).

(** A bridge task: its future runs, then the guard it carries drops. *)
Record bridge := MkBridge { b_id : Z; b_pid : Z; b_running : bool }.

Inductive joiner := NotJoining | Draining | Awaiting (ids : list Z) | Joined.

(** [killed]: the process groups that were sent SIGKILL by the registry's users. *)
Record system := MkSystem
  { reg : registry; bridges : list bridge; join_all : joiner; killed : gset Z }.

Inductive step : system → system → Prop :=
(* A handler publishes its bridge; identifiers do not run out. *)
| st_track pid r id r' bs j k :
    next_id r < u64_max → track pid r = (Some id, r') →
    step (MkSystem r bs j k) (MkSystem r' (MkBridge id pid true :: bs) j k)
(* Refused: the handler kills the group and runs the bridge itself. *)
| st_refused pid r r' bs j k :
    track pid r = (None, r') → step (MkSystem r bs j k) (MkSystem r' bs j ({[pid]} ∪ k))
| st_ends r before b after j k :
    step (MkSystem r (before ++ b :: after) j k)
         (MkSystem r (before ++ MkBridge (b_id b) (b_pid b) false :: after) j k)
| st_completes r before b after j k :
    b_running b = false →
    step (MkSystem r (before ++ b :: after) j k) (MkSystem (complete (b_id b) r) (before ++ after) j k)
| st_close r bs j k : step (MkSystem r bs j k) (MkSystem (close r) bs j k)
| st_force r bs j k : step (MkSystem r bs j k) (MkSystem r bs j (force_stop r ∪ k))
| st_join r bs k : step (MkSystem r bs NotJoining k) (MkSystem (close r) bs Draining k)
| st_drain r ids r' bs k :
    drain r = (ids, r') →
    step (MkSystem r bs Draining k)
         (MkSystem r' bs (if bool_decide (ids = []) then Joined else Awaiting ids) k)
| st_awaited r bs id ids k :
    id ∉ b_id <$> bs →
    step (MkSystem r bs (Awaiting (id :: ids)) k)
         (MkSystem r bs (match ids with [] => Draining | _ => Awaiting ids end) k).

Definition init : system := MkSystem default_registry [] NotJoining ∅.
Definition reachable (s : system) : Prop := rtc step init s.

(** ** Invariant *)

Definition awaited (j : joiner) : list Z := match j with Awaiting ids => ids | _ => [] end.

(** The registry has not been drained yet. *)
Definition undrained (s : system) : Prop :=
  ∀ b, b ∈ bridges s → tasks (reg s) !! b_id b = Some (b_pid b).

Record inv (s : system) : Prop := MkInv
  { iv_ids : NoDup (b_id <$> bridges s);
    iv_fresh : 0 <= next_id (reg s) <= u64_max ∧
      (∀ b, b ∈ bridges s → b_id b < next_id (reg s)) ∧ (∀ id p, tasks (reg s) !! id = Some p → id < next_id (reg s));
    iv_reach : ∀ b, b ∈ bridges s → tasks (reg s) !! b_id b = Some (b_pid b) ∨ b_id b ∈ awaited (join_all s);
    iv_closed : join_all s ≠ NotJoining → closed (reg s) = true;
    iv_drained : match join_all s with Awaiting _ | Joined => tasks (reg s) = ∅ | _ => True end }.

Lemma tasks_init : inv init.
Proof. split; cbn; [constructor|split_and!; [done|done|set_solver|set_solver]|set_solver|done|done]. Qed.

Lemma ids_split (before : list bridge) b after :
  NoDup (b_id <$> before ++ b :: after) →
  NoDup (b_id <$> before ++ after) ∧ ∀ x, x ∈ before ++ after → b_id x ≠ b_id b.
Proof.
  rewrite !fmap_app. cbn. rewrite <-Permutation_middle. intros [Hb Hnd]%NoDup_cons. split; [done|].
  intros x Hx Heq. apply Hb. rewrite <-fmap_app, <-Heq. by apply list_elem_of_fmap_2.
Qed.

Lemma tasks_step s s' : step s s' → inv s → inv s'.
Proof.
  intros Hstep [Hnd (Hb & Hfr & Hft) Hreach Hcl Hdr].
  destruct Hstep as [pid r id r' bs j k Hlt Hrun|pid r r' bs j k Hrun|r before b after j k|r before b after j k Hend
    |r bs j k|r bs j k|r bs k|r ids r' bs k Hrun|r bs id ids k Hid]; cbn [reg bridges join_all killed] in *.
  - unfold track in Hrun. destruct (closed r) eqn:Hc; [done|]. injection Hrun as <- <-.
    assert (wrap_u64 (next_id r + 1) = next_id r + 1) as Hw.
    { unfold wrap_u64, u64_max in *. rewrite Z.mod_small; lia. }
    assert (Hj : j = NotJoining). { destruct j; [done|by discriminate Hcl..]. } subst j.
    split; cbn [reg bridges join_all tasks next_id closed fmap list_fmap b_id b_pid]; rewrite ?Hw.
    + apply NoDup_cons. split; [|done]. intros [x [Hx Hin]]%list_elem_of_fmap. specialize (Hfr x Hin). lia.
    + split_and!; [lia|lia|..].
      * intros x [-> |Hx]%elem_of_cons; cbn; [lia|]. specialize (Hfr x Hx). lia.
      * intros i p [[<- _]|[_ Hi]]%lookup_insert_Some; [lia|]. specialize (Hft i p Hi). lia.
    + intros x [-> |Hx]%elem_of_cons; left; cbn; [by rewrite lookup_insert_eq|].
      specialize (Hfr x Hx). destruct (Hreach x Hx) as [Ht|Ht]; [|by apply not_elem_of_nil in Ht].
      rewrite lookup_insert_ne by lia. done.
    + done.
    + done.
  - unfold track in Hrun. destruct (closed r) eqn:Hc; simplify_eq. split; cbn; auto.
  - assert (Hids : b_id <$> before ++ MkBridge (b_id b) (b_pid b) false :: after = b_id <$> before ++ b :: after)
      by (rewrite !fmap_app; done).
    assert (Hsame : ∀ x, x ∈ before ++ MkBridge (b_id b) (b_pid b) false :: after →
      ∃ y, y ∈ before ++ b :: after ∧ b_id y = b_id x ∧ b_pid y = b_pid x).
    { intros x Hx. rewrite elem_of_app, elem_of_cons in Hx. destruct Hx as [Hx|[-> |Hx]];
        [exists x; set_solver|exists b; set_solver|exists x; set_solver]. }
    split; cbn [reg bridges join_all]; [by rewrite Hids|split_and!; [lia|lia| |done]| |done|done].
    + intros x (y & Hy & <- & _)%Hsame. by apply Hfr.
    + intros x (y & Hy & <- & <-)%Hsame. by apply Hreach.
  - destruct (ids_split _ _ _ Hnd) as [Hnd' Hne].
    assert (Hold : ∀ x, x ∈ before ++ after → x ∈ before ++ b :: after) by set_solver.
    split; cbn [reg bridges join_all complete tasks next_id closed];
      [done|split_and!; [lia|lia|auto|by intros i p [_ Hi]%lookup_delete_Some; eauto]| |done|].
    + intros x Hx. destruct (Hreach x (Hold x Hx)) as [Ht|Ht]; [|by right]. left.
      rewrite lookup_delete_ne; [done|]. by apply not_eq_sym, Hne.
    + destruct j; [done|done|rewrite Hdr; apply delete_empty..].
  - split; cbn; auto.
  - split; cbn; auto.
  - split; cbn; auto.
  - unfold drain in Hrun. injection Hrun as <- <-.
    split; cbn [reg bridges join_all tasks next_id closed]; [done|split_and!; [lia|lia|done|set_solver]| |auto|].
    + intros x Hx. right. destruct (Hreach x Hx) as [Ht|Ht]; [|by apply not_elem_of_nil in Ht].
      assert (Hin : b_id x ∈ (map_to_list (tasks r)).*1).
      { apply list_elem_of_fmap. exists (b_id x, b_pid x). split; [done|by apply elem_of_map_to_list]. }
      case_bool_decide as Hnil; [by rewrite Hnil in Hin; apply not_elem_of_nil in Hin|done].
    + by case_bool_decide.
  - assert (Haw : awaited (match ids with [] => Draining | _ => Awaiting ids end) = ids) by by destruct ids.
    split; cbn [reg bridges join_all]; [done|done| |by intros _; apply Hcl|by destruct ids].
    intros x Hx. rewrite Haw. destruct (Hreach x Hx) as [Ht|Ht]; [by left|right]. cbn in Ht.
    apply elem_of_cons in Ht as [Ht|Ht]; [|done]. exfalso. apply Hid. rewrite <-Ht. by apply list_elem_of_fmap_2.
Qed.

Lemma tasks_reachable s : reachable s → inv s.
Proof.
  assert (Hsteps : ∀ x y, rtc step x y → inv x → inv y).
  { induction 1 as [|x y z Hstep _ IH]; [done|]. intros Hinv. by apply IH, (tasks_step x). }
  intros Hr. exact (Hsteps _ _ Hr tasks_init).
Qed.

Lemma joined_stays s s' : rtc step s s' → join_all s = Joined → join_all s' = Joined.
Proof.
  induction 1 as [|x y z Hstep _ IH]; [done|]. intros Hj. apply IH. by destruct Hstep; cbn in *; simplify_eq.
Qed.

Lemma joined_empty s : inv s → join_all s = Joined → bridges s = [].
Proof.
  intros [_ _ Hreach _ Hdr] Hj. rewrite Hj in *. destruct (bridges s) as [|b bs]; [done|].
  destruct (Hreach b) as [Ht|Ht]; [by left|by rewrite Hdr, lookup_empty in Ht|by apply not_elem_of_nil in Ht].
Qed.

(** ** Theorems *)

(** When [join_all] returns, every bridge that was ever tracked has finished and
    its guard has dropped, and no bridge is tracked afterwards, whatever the handlers
    that still run do. *)
Theorem join_all_waits_for_every_bridge s s' :
  reachable s → join_all s = Joined → rtc step s s' → bridges s' = [] ∧ closed (reg s') = true.
Proof.
  intros Hr Hj Hs. assert (Hinv : inv s') by (apply tasks_reachable; unfold reachable in *; by etrans).
  pose proof (joined_stays _ _ Hs Hj) as Hj'. split; [by apply joined_empty|].
  apply (iv_closed _ Hinv). by rewrite Hj'.
Qed.

(** [force_stop] reaches every bridge only while [join_all] has not drained the
    registry: before that, it signals the process group of every bridge; afterwards
    the registry is empty while the drained bridges still run, and it signals none
    of them. *)
Theorem force_stop_misses_drained_bridges :
  (∀ s, reachable s → awaited (join_all s) = [] → ∀ b, b ∈ bridges s → b_pid b ∈ force_stop (reg s)) ∧
  (∀ s ids, reachable s → join_all s = Awaiting ids → force_stop (close (reg s)) = ∅) ∧
  (∃ s b, reachable s ∧ b ∈ bridges s ∧ b_running b = true ∧ b_pid b ∉ killed s ∧
     b_pid b ∉ force_stop (close (reg s)) ∪ killed s).
Proof.
  split_and!.
  - intros s Hr Haw b Hb. destruct (iv_reach _ (tasks_reachable _ Hr) b Hb) as [Ht|Ht];
      [|by rewrite Haw in Ht; apply not_elem_of_nil in Ht].
    unfold force_stop. apply elem_of_list_to_set, list_elem_of_fmap. exists (b_id b, b_pid b).
    split; [done|by apply elem_of_map_to_list].
  - intros s ids Hr Hj. pose proof (iv_drained _ (tasks_reachable _ Hr)) as Hdr. rewrite Hj in Hdr.
    unfold force_stop, close. cbn. by rewrite Hdr, map_to_list_empty.
  - exists (MkSystem (MkRegistry ∅ 1 true) [MkBridge 0 700 true] (Awaiting [0]) ∅), (MkBridge 0 700 true).
    split_and!; [|set_solver|done|set_solver|vm_compute; by intros ?].
    eapply rtc_l; [exact (st_track 700 default_registry 0 (MkRegistry {[0 := 700]} 1 false) [] NotJoining ∅ eq_refl eq_refl)|].
    eapply rtc_l; [apply st_join|].
    apply rtc_once. exact (st_drain (MkRegistry {[0 := 700]} 1 true) [0] (MkRegistry ∅ 1 true) _ _ eq_refl).
Qed.

(** One bridge is tracked, ends, and is joined. *)
Lemma join_all_waits_for_every_bridge_witness :
  bridges (MkSystem (MkRegistry ∅ 1 true) [] Joined ∅) = [] ∧ closed (MkRegistry ∅ 1 true) = true.
Proof.
  apply (join_all_waits_for_every_bridge (MkSystem (MkRegistry ∅ 1 true) [] Joined ∅)
           (MkSystem (MkRegistry ∅ 1 true) [] Joined ∅)); [|reflexivity|apply rtc_refl].
  eapply rtc_l; [exact (st_track 700 default_registry 0 (MkRegistry {[0 := 700]} 1 false) [] NotJoining ∅ eq_refl eq_refl)|].
  eapply rtc_l; [apply st_join|].
  eapply rtc_l; [exact (st_drain (MkRegistry {[0 := 700]} 1 true) [0] (MkRegistry ∅ 1 true) _ _ eq_refl)|].
  eapply rtc_l; [exact (st_ends (MkRegistry ∅ 1 true) [] (MkBridge 0 700 true) [] (Awaiting [0]) ∅)|].
  eapply rtc_l; [exact (st_completes (MkRegistry ∅ 1 true) [] (MkBridge 0 700 false) [] (Awaiting [0]) ∅ eq_refl)|].
  eapply rtc_l; [apply (st_awaited (MkRegistry ∅ 1 true) [] 0 [] ∅), not_elem_of_nil|].
  apply rtc_once. exact (st_drain (MkRegistry ∅ 1 true) [] (MkRegistry ∅ 1 true) _ _ eq_refl).
Defined.
End HostTasks.
