(* ===== verification/ChannelBridge.v ===== *)
(** * The channel bridge ([ssh/channel.rs], [ssh/host.rs])

    One task per started channel joins a process to its SSH channel.  Pumps read the
    process's streams into a bounded queue; the bridge selects between client
    events, queued output and the process's exit, and then ends the channel.  Each
    turn of the bridge's loop is a function with the answers of the sink and the
    process as arguments; [step] interleaves the turns with the pumps, which block
    while the queue is full.  Streams are sequences of reads that the kernel chooses. *)

From stdpp Require Import sorting.
From S2P Require Import Prelude Text.

Module Signals.

(** The signal numbers of [libc] on Linux. *)
Definition SIGHUP := 1.
Definition SIGINT := 2.
Definition SIGQUIT := 3.
Definition SIGILL := 4.
Definition SIGABRT := 6.
Definition SIGBUS := 7.
Definition SIGFPE := 8.
Definition SIGKILL := 9.
Definition SIGUSR1 := 10.
Definition SIGSEGV := 11.
Definition SIGUSR2 := 12.
Definition SIGPIPE := 13.
Definition SIGALRM := 14.
Definition SIGTERM := 15.

(** What a client may ask for. *)
Definition signal_table : list (string * Z) :=
  [("ABRT", SIGABRT); ("ALRM", SIGALRM); ("FPE", SIGFPE); ("HUP", SIGHUP); ("ILL", SIGILL); ("INT", SIGINT);
   ("KILL", SIGKILL); ("PIPE", SIGPIPE); ("QUIT", SIGQUIT); ("SEGV", SIGSEGV); ("TERM", SIGTERM);
   ("USR1", SIGUSR1); ("USR2", SIGUSR2)].

(** What a death may be reported as: the table above, then the rest of the match
    (CHLD, CONT, IO, PROF, STOP, SYS, TRAP, TSTP, TTIN, TTOU, URG, VTALRM, WINCH,
    XCPU, XFSZ and Linux's STKFLT). *)
Definition name_table : list (string * Z) :=
  signal_table ++
  [("CHLD", 17); ("CONT", 18); ("IO", 29); ("PROF", 27); ("STOP", 19); ("SYS", 31); ("TRAP", 5); ("TSTP", 20);
   ("TTIN", 21); ("TTOU", 22); ("URG", 23); ("VTALRM", 26); ("WINCH", 28); ("XCPU", 24); ("XFSZ", 25);
   ("STKFLT", 16)].

Definition signal_from_name (name : string) : option Z :=
  option_map snd (find (fun row => bool_decide (row.1 = name)) signal_table).

Definition name_from_signal (number : Z) : option string :=
  option_map fst (find (fun row => row.2 =? number) name_table).

Definition exit_signal_name (number : Z) : string := default "TERM" (name_from_signal number).

(** The names a client may send and the names a death is reported by agree, no
    name stands for two signals, and every standard signal of Linux has its own
    name except two: a death by SIGBUS (7), like one by SIGPWR (30), is reported as
    a death by SIGTERM. *)
Theorem bus_errors_are_reported_as_term :
  (∀ name number, signal_from_name name = Some number → name_from_signal number = Some name) ∧
  (∀ a b name, name_from_signal a = Some name → name_from_signal b = Some name → a = b) ∧
  (∀ number, 1 <= number <= 31 → name_from_signal number = None ↔ number = SIGBUS ∨ number = 30) ∧
  exit_signal_name SIGBUS = "TERM" ∧ exit_signal_name SIGBUS = exit_signal_name SIGTERM.
Proof.
  assert (Hrows : Forall (fun row => name_from_signal row.2 = Some row.1 ∧
      Forall (fun row' => row'.1 = row.1 → row' = row) name_table) name_table).
  { unfold name_table. cbn. repeat first [apply Forall_cons_2 | apply Forall_nil_2 | split | done]. }
  assert (Hname : ∀ number name, name_from_signal number = Some name → (name, number) ∈ name_table).
  { intros number name Hn. unfold name_from_signal in Hn. destruct (find _ _) as [[n k]|] eqn:Hf; [|done].
    injection Hn as <-. apply find_some in Hf as [Hin Hk]. bool_to_prop. cbn in Hk. subst k.
    by apply list_elem_of_In. }
  rewrite Forall_forall in Hrows. split_and!.
  - intros name number Hn. unfold signal_from_name in Hn. destruct (find _ _) as [[n k]|] eqn:Hf; [|done].
    injection Hn as <-. apply find_some in Hf as [Hin Hk]. bool_to_prop. cbn in Hk. subst n.
    apply (Hrows (name, k)). unfold name_table. apply elem_of_app. left. by apply list_elem_of_In.
  - intros a b name Ha%Hname Hb%Hname. destruct (Hrows _ Ha) as [_ Hrow]. rewrite Forall_forall in Hrow.
    specialize (Hrow _ Hb eq_refl). congruence.
  - intros number Hr.
    assert (Hall : Forall (fun k => bool_decide (name_from_signal k = None) = bool_decide (k = SIGBUS ∨ k = 30))
      (seqZ 1 31)) by (vm_compute; repeat constructor).
    rewrite Forall_forall in Hall. specialize (Hall number). rewrite elem_of_seqZ in Hall.
    specialize (Hall ltac:(lia)). split; intros Hk.
    + rewrite bool_decide_true in Hall by done. symmetry in Hall. by apply bool_decide_eq_true in Hall.
    + rewrite (bool_decide_true (_ ∨ _)) in Hall by done. by apply bool_decide_eq_true in Hall.
  - reflexivity.
  - reflexivity.
Qed.
End Signals.

Module Bridge.
Import Signals.

(** ** Data *)

Inductive ChannelEvent :=
| Data (bytes : list Z)
| Eof
| Close
| Signal (number : Z)
| WindowChange (rows cols revision : Z).

Inductive ChannelResult := Completed | Failed | Aborted.

#[global] Instance ChannelResult_eq_dec : EqDecision ChannelResult.
Proof. solve_decision. Defined.

Inductive ExitStatus := Code (code : Z) | Signaled (name : string) (core_dumped : bool).

(** A process's exit as the waiter reports it; [None] when waiting failed. *)
Inductive ProcessExit := ExitCode (code : Z) | ExitSignal (number : Z) (core_dumped : bool).

Definition i32_max : Z := 2 ^ 31 - 1.

(** [normalize_sandbox_exit], and the waiter task of [run_host_process]. *)
Definition normalize_exit (exit : option ProcessExit) : ExitStatus :=
  match exit with
  | Some (ExitCode code) => Code (Z.min (Z.max code 0) i32_max)
  | Some (ExitSignal number core_dumped) => Signaled (exit_signal_name number) core_dumped
  | None => Code 255
  end.

Record OutputChunk := MkChunk { oc_data : list Z; oc_ext : option Z; oc_failed : bool }.

(** What the bridge asks the sink to send. *)
Inductive message :=
| MData (data : list Z)
| MExtended (ext : Z) (data : list Z)
| MEof
| MFailure
| MExitStatus (status : Z)
| MExitSignal (name : string) (core_dumped : bool)
| MClose.

Definition OUTPUT_QUEUE_CHUNKS : nat := 8.
Definition OUTPUT_CHUNK_BYTES : Z := 32 * 1024.
Definition PUMP_HANDOFF_MIN_BYTES : Z := OUTPUT_CHUNK_BYTES / 2.
Definition UNAVAILABLE_EXIT : Z := 255.

(** [finish_failed]; [notice] is the bytes of its line on stderr. *)
Definition finish_failed (notice : list Z) : list message * ChannelResult :=
  ([MFailure; MExtended 1 notice; MEof; MExitStatus UNAVAILABLE_EXIT; MClose], Failed).

(** ** The bridge *)

Inductive kind := Sandbox | Host.

(** The loop's variables, and what the process and the sink were given so far. *)
Record bridge := MkBridge
  { client_eof : bool; stdin : bool; window_revision : Z; exit_status : option ExitStatus;
    output_done : bool;
    input : list Z; signals : list Z; sizes : list (Z * Z * Z); detached : bool; wire : list message }.

Definition set_input (data : list Z) (b : bridge) :=
  MkBridge (client_eof b) (stdin b) (window_revision b) (exit_status b) (output_done b)
    (input b ++ data) (signals b) (sizes b) (detached b) (wire b).
Definition set_eof (b : bridge) :=
  MkBridge true false (window_revision b) (exit_status b) (output_done b)
    (input b) (signals b) (sizes b) (detached b) (wire b).
Definition add_signals (l : list Z) (b : bridge) :=
  MkBridge (client_eof b) (stdin b) (window_revision b) (exit_status b) (output_done b)
    (input b) (signals b ++ l) (sizes b) (detached b) (wire b).
Definition set_size (rows cols revision : Z) (b : bridge) :=
  MkBridge (client_eof b) (stdin b) revision (exit_status b) (output_done b)
    (input b) (signals b) (sizes b ++ [(rows, cols, revision)]) (detached b) (wire b).
Definition set_exit (status : ExitStatus) (b : bridge) :=
  MkBridge (client_eof b) (stdin b) (window_revision b) (Some status) (output_done b)
    (input b) (signals b) (sizes b) (detached b) (wire b).
Definition set_done (b : bridge) :=
  MkBridge (client_eof b) (stdin b) (window_revision b) (exit_status b) true
    (input b) (signals b) (sizes b) (detached b) (wire b).
Definition send (l : list message) (b : bridge) :=
  MkBridge (client_eof b) (stdin b) (window_revision b) (exit_status b) (output_done b)
    (input b) (signals b) (sizes b) (detached b) (wire b ++ l).
Definition close_stdin (b : bridge) :=
  MkBridge (client_eof b) false (window_revision b) (exit_status b) (output_done b)
    (input b) (signals b) (sizes b) (detached b) (wire b).
Definition close_endpoints (b : bridge) :=
  MkBridge (client_eof b) false (window_revision b) (exit_status b) (output_done b)
    (input b) (signals b) (sizes b) true (wire b).

(** Which branch of the [select!] ran, with what its operation answered. *)
Inductive select :=
| OnEvent (event : option ChannelEvent) (ok : bool)
| OnChunk (chunk : option OutputChunk) (sent : bool)
| OnExit (exit : option ProcessExit)
| OnShutdown.

(** How a branch leaves the loop body. *)
Inductive flow := Continue | Check | Break (result : ChannelResult).

Definition on_event (k : kind) (event : option ChannelEvent) (ok : bool) (b : bridge) : bridge * flow :=
  match event with
  | Some (Data data) =>
      if client_eof b then (b, Continue)
      else if stdin b then if ok then (set_input data b, Check) else (b, Break Aborted)
      else match k with Sandbox => (b, Break Aborted) | Host => (b, Check) end
  | Some Eof => (set_eof b, Check)
  | Some Close => (b, Break Aborted)
  | Some (Signal number) => (add_signals [number] b, Check)
  | Some (WindowChange rows cols revision) =>
      if window_revision b <? revision then
        if ok then (set_size rows cols revision b, Check) else (b, Break Aborted)
      else (b, Check)
  | None => (b, Break Aborted)
  end.

Definition output_message (chunk : OutputChunk) : message :=
  match oc_ext chunk with None => MData (oc_data chunk) | Some ext => MExtended ext (oc_data chunk) end.

Definition on_chunk (chunk : option OutputChunk) (sent : bool) (b : bridge) : bridge * flow :=
  match chunk with
  | Some chunk =>
      if oc_failed chunk then (b, Break Aborted)
      else if sent then (send [output_message chunk] b, Check) else (b, Break Aborted)
  | None => (set_done b, Check)
  end.

(** One turn of the loop, with the test that ends it. *)
Definition turn (k : kind) (s : select) (b : bridge) : bridge * option ChannelResult :=
  let '(b, f) := match s with
                 | OnEvent event ok => on_event k event ok b
                 | OnChunk chunk sent => on_chunk chunk sent b
                 | OnExit exit => (set_exit (normalize_exit exit) b, Check)
                 | OnShutdown => (b, Break Aborted)
                 end in
  match f with
  | Continue => (b, None)
  | Check => (b, if bool_decide (is_Some (exit_status b)) && output_done b then Some Completed else None)
  | Break r => (b, Some r)
  end.

Definition exit_message (status : ExitStatus) : message :=
  match status with
  | Code code => MExitStatus code
  | Signaled name core_dumped => MExitSignal name core_dumped
  end.

(** What follows the loop; [graceful]: a host process ended within its grace. *)
Definition finish (k : kind) (graceful : bool) (result : ChannelResult) (b : bridge) : bridge :=
  match result with
  | Completed => send (MEof :: option_list (exit_message <$> exit_status b) ++ [MClose]) b
  | _ =>
      match k with
      | Sandbox => send [MClose] (close_endpoints b)
      | Host => send [MClose] (add_signals (SIGTERM :: if graceful then [] else [SIGKILL]) (close_stdin b))
      end
  end.

(** ** The pumps *)

(** [output_chunk_data]: the bytes handed on, and the buffer left. *)
Definition output_chunk_data (buffer : list Z) (count : Z) : list Z * list Z :=
  if PUMP_HANDOFF_MIN_BYTES <=? count then (buffer, []) else (take (Z.to_nat count) buffer, []).

Inductive pump_state := Reading | Sending (chunk : OutputChunk) | Done.

(** [p_read]: everything the stream gave so far; [p_failed]: a read failed. *)
Record pump := MkPump
  { p_ext : option Z; p_state : pump_state; p_buffer : list Z; p_read : list Z; p_failed : bool }.

(** A read of [spawn_pipe_pump] or [spawn_pty_pump]: bytes, the end of the stream
    (for a terminal, EIO too), or an error. *)
Inductive read := Bytes (bytes : list Z) | End | Error.

Definition pump_read (r : read) (p : pump) : pump :=
  match r with
  | Bytes bytes =>
      let '(data, buffer) := output_chunk_data (p_buffer p ++ bytes) (Z.of_nat (length bytes)) in
      MkPump (p_ext p) (Sending (MkChunk data (p_ext p) false)) buffer (p_read p ++ bytes) (p_failed p)
  | End => MkPump (p_ext p) Done (p_buffer p) (p_read p) (p_failed p)
  | Error => MkPump (p_ext p) (Sending (MkChunk [] (p_ext p) true)) (p_buffer p) (p_read p) true
  end.

Definition pump_sent (chunk : OutputChunk) (p : pump) : pump :=
  MkPump (p_ext p) (if oc_failed chunk then Done else Reading) (p_buffer p) (p_read p) (p_failed p).

(** ** The machine *)

(** [events]: what the bridge took from its mailbox. *)
Record system := MkSystem
  { pumps : list pump; queue : list OutputChunk; br : bridge; events : list ChannelEvent;
    outcome : option ChannelResult }.

(** When a branch is enabled, and the queue it leaves. *)
Definition enabled (k : kind) (s : select) (sys : system) (queue' : list OutputChunk) : Prop :=
  match s with
  | OnEvent _ _ => queue' = queue sys
  | OnChunk (Some chunk) _ => output_done (br sys) = false ∧ queue sys = chunk :: queue'
  | OnChunk None _ =>
      output_done (br sys) = false ∧ queue sys = [] ∧ queue' = [] ∧ Forall (fun p => p_state p = Done) (pumps sys)
  | OnExit _ => exit_status (br sys) = None ∧ queue' = queue sys
  | OnShutdown => k = Host ∧ queue' = queue sys
  end.

Definition taken (s : select) : list ChannelEvent :=
  match s with OnEvent (Some event) _ => [event] | _ => [] end.

Inductive step (k : kind) : system → system → Prop :=
| st_read before p after r q b evs :
    p_state p = Reading → (∀ bytes, r = Bytes bytes → bytes ≠ []) →
    step k (MkSystem (before ++ p :: after) q b evs None)
           (MkSystem (before ++ pump_read r p :: after) q b evs None)
| st_send before p after chunk q b evs :
    p_state p = Sending chunk → (length q < OUTPUT_QUEUE_CHUNKS)%nat →
    step k (MkSystem (before ++ p :: after) q b evs None)
           (MkSystem (before ++ pump_sent chunk p :: after) (q ++ [chunk]) b evs None)
| st_turn ps q b evs s q' b' r graceful :
    enabled k s (MkSystem ps q b evs None) q' → turn k s b = (b', r) →
    step k (MkSystem ps q b evs None)
           (MkSystem ps q' (match r with Some r => finish k graceful r b' | None => b' end) (evs ++ taken s) r).

(** A launch: one pump per stream, the window already applied. *)
Definition start (exts : list (option Z)) (has_stdin : bool) (revision : Z) : system :=
  MkSystem ((fun ext => MkPump ext Reading [] [] false) <$> exts) []
    (MkBridge false has_stdin revision None (bool_decide (exts = [])) [] [] [] false []) [] None.

Definition reachable (k : kind) (exts : list (option Z)) (has_stdin : bool) (revision : Z) (sys : system) : Prop :=
  rtc (step k) (start exts has_stdin revision) sys.

(** ** What the client sees *)

(** The bytes of one stream among messages, and among queued chunks. *)
Definition stream_of (ext : option Z) (m : message) : list Z :=
  match m with
  | MData data => if bool_decide (ext = None) then data else []
  | MExtended e data => if bool_decide (ext = Some e) then data else []
  | _ => []
  end.
Definition sent_bytes (ext : option Z) (l : list message) : list Z := l ≫= stream_of ext.
Definition chunk_bytes (ext : option Z) (c : OutputChunk) : list Z :=
  if bool_decide (oc_ext c = ext) then oc_data c else [].
Definition queued_bytes (ext : option Z) (q : list OutputChunk) : list Z := q ≫= chunk_bytes ext.

Definition is_output (m : message) : bool := match m with MData _ | MExtended _ _ => true | _ => false end.

(** What a process must be given for the events taken. *)
Fixpoint input_of (evs : list ChannelEvent) : list Z :=
  match evs with
  | [] | Eof :: _ => []
  | Data data :: rest => data ++ input_of rest
  | _ :: rest => input_of rest
  end.
Definition has_eof (evs : list ChannelEvent) : bool := existsb (fun e => match e with Eof => true | _ => false end) evs.
Definition signals_of (evs : list ChannelEvent) : list Z :=
  evs ≫= fun e => match e with Signal number => [number] | _ => [] end.

Lemma input_of_app evs evs' : input_of (evs ++ evs') = input_of evs ++ (if has_eof evs then [] else input_of evs').
Proof.
  induction evs as [|e evs IH]; [done|]. destruct e; cbn; rewrite ?IH; try done. by rewrite app_assoc.
Qed.

Lemma has_eof_app evs evs' : has_eof (evs ++ evs') = has_eof evs || has_eof evs'.
Proof. apply existsb_app. Qed.

(** ** Invariant of a running bridge *)

(** What a pump has read is on the wire, queued, or in its hand. *)
Definition pump_ok (q : list OutputChunk) (w : list message) (p : pump) : Prop :=
  p_buffer p = [] ∧
  p_read p = sent_bytes (p_ext p) w ++ queued_bytes (p_ext p) q ++
    match p_state p with Sending c => oc_data c | _ => [] end ∧
  match p_state p with
  | Sending c => oc_ext c = p_ext p ∧ p_failed p = oc_failed c
  | Reading => p_failed p = false
  | Done => p_failed p = true → ∃ c, c ∈ q ∧ oc_failed c = true
  end.

Record running (has_stdin : bool) (revision : Z) (sys : system) : Prop := MkRunning
  { rn_exts : NoDup (p_ext <$> pumps sys);
    rn_pumps : Forall (pump_ok (queue sys) (wire (br sys))) (pumps sys);
    rn_wire : Forall (fun m => is_output m = true) (wire (br sys));
    rn_done : output_done (br sys) = true → queue sys = [] ∧ Forall (fun p => p_state p = Done) (pumps sys);
    rn_queue : (length (queue sys) <= OUTPUT_QUEUE_CHUNKS)%nat;
    rn_eof : client_eof (br sys) = has_eof (events sys);
    rn_stdin : stdin (br sys) = has_stdin && negb (client_eof (br sys));
    rn_input : has_stdin = true → input (br sys) = input_of (events sys);
    rn_signals : signals (br sys) = signals_of (events sys);
    rn_window : StronglySorted Z.lt (revision :: (sizes (br sys)).*2) ∧
                (∀ x, x ∈ revision :: (sizes (br sys)).*2 → x <= window_revision (br sys)) }.

Lemma sent_bytes_app ext l l' : sent_bytes ext (l ++ l') = sent_bytes ext l ++ sent_bytes ext l'.
Proof. apply bind_app. Qed.
Lemma queued_bytes_app ext q q' : queued_bytes ext (q ++ q') = queued_bytes ext q ++ queued_bytes ext q'.
Proof. apply bind_app. Qed.

Lemma sent_chunk ext c : sent_bytes ext [output_message c] = chunk_bytes ext c.
Proof.
  unfold sent_bytes, output_message, chunk_bytes. cbn. rewrite app_nil_r.
  destruct (oc_ext c) as [e|]; cbn; repeat case_bool_decide; congruence.
Qed.

(** Both branches of the hand-off pass on exactly what was read. *)
Lemma output_chunk_exact bytes : output_chunk_data bytes (Z.of_nat (length bytes)) = (bytes, []).
Proof.
  unfold output_chunk_data. destruct (_ <=? _); [done|]. by rewrite Nat2Z.id, firstn_all.
Qed.

Lemma start_running exts has_stdin revision :
  NoDup exts → running has_stdin revision (start exts has_stdin revision).
Proof.
  intros Hnd. unfold start. split; cbn [pumps queue br events wire output_done client_eof stdin input signals sizes
    window_revision fmap].
  - rewrite <-list_fmap_compose. by rewrite (list_fmap_ext _ id), list_fmap_id.
  - apply Forall_fmap, Forall_true. intros ext. by split_and!.
  - constructor.
  - intros ->%bool_decide_eq_true. by split.
  - cbn. lia.
  - done.
  - by rewrite andb_true_r.
  - done.
  - done.
  - cbn. split; [by repeat constructor|]. by intros x ->%list_elem_of_singleton.
Qed.

Lemma pumps_replace q w q' w' (before : list pump) p p' after :
  NoDup (p_ext <$> before ++ p :: after) → p_ext p' = p_ext p →
  (pump_ok q w p → pump_ok q' w' p') →
  (∀ x, p_ext x ≠ p_ext p → pump_ok q w x → pump_ok q' w' x) →
  Forall (pump_ok q w) (before ++ p :: after) → Forall (pump_ok q' w') (before ++ p' :: after).
Proof.
  intros Hnd Hext Hp Hother Hall. rewrite fmap_app in Hnd. cbn in Hnd.
  rewrite <-Permutation_middle in Hnd. apply NoDup_cons in Hnd as [Hin _].
  assert (Hne : ∀ x, x ∈ before ++ after → p_ext x ≠ p_ext p).
  { intros x Hx Heq. apply Hin. rewrite <-fmap_app, <-Heq. by apply list_elem_of_fmap_2. }
  rewrite Forall_forall in Hall. apply Forall_forall. intros x [Hx|[-> |Hx]%elem_of_cons]%elem_of_app.
  - apply Hother; [apply Hne; set_solver|apply Hall; set_solver].
  - apply Hp, Hall. set_solver.
  - apply Hother; [apply Hne; set_solver|apply Hall; set_solver].
Qed.

Lemma running_read has_stdin revision before p after r q b evs :
  p_state p = Reading →
  running has_stdin revision (MkSystem (before ++ p :: after) q b evs None) →
  running has_stdin revision (MkSystem (before ++ pump_read r p :: after) q b evs None).
Proof.
  intros Hr [Hx Hp Hw Hd Hq He Hs Hi Hsg Hwin]. cbn [pumps queue br events] in *.
  assert (Hext : p_ext (pump_read r p) = p_ext p).
  { destruct r; [cbn; by destruct (output_chunk_data _ _)|done..]. }
  split; cbn [pumps queue br events]; [|  |done| |done..].
  - rewrite fmap_app in *. cbn in *. by rewrite Hext.
  - eapply pumps_replace; [exact Hx|done| |done|exact Hp]. intros (Hb & Hread & Hst). rewrite Hr in *.
    rewrite app_nil_r in Hread. unfold pump_ok. destruct r as [bytes| |]; cbn.
    + rewrite Hb. cbn. rewrite output_chunk_exact. cbn. rewrite Hread, <-app_assoc. by split_and!.
    + split_and!; [done|by rewrite app_nil_r|by rewrite Hst].
    + split_and!; [done|by rewrite app_nil_r|done|done].
  - intros Hdone. destruct (Hd Hdone) as [_ Hall]. apply Forall_app in Hall as [_ Hall].
    apply Forall_cons in Hall as [Hall _]. congruence.
Qed.

Lemma queued_other ext c : oc_ext c ≠ ext → queued_bytes ext [c] = [].
Proof. intros Hne. unfold queued_bytes, chunk_bytes. cbn. by rewrite bool_decide_false. Qed.

Lemma queued_same c : queued_bytes (oc_ext c) [c] = oc_data c.
Proof. unfold queued_bytes, chunk_bytes. cbn. by rewrite bool_decide_true, app_nil_r. Qed.

Lemma running_send has_stdin revision before p after chunk q b evs :
  p_state p = Sending chunk → (length q < OUTPUT_QUEUE_CHUNKS)%nat →
  running has_stdin revision (MkSystem (before ++ p :: after) q b evs None) →
  running has_stdin revision (MkSystem (before ++ pump_sent chunk p :: after) (q ++ [chunk]) b evs None).
Proof.
  intros Hst Hlen [Hx Hp Hw Hd Hq He Hs Hi Hsg Hwin]. cbn [pumps queue br events] in *.
  assert (Hown : oc_ext chunk = p_ext p).
  { apply Forall_app in Hp as [_ Hp]. apply Forall_cons in Hp as [(_ & _ & Hp) _]. rewrite Hst in Hp. apply Hp. }
  split; cbn [pumps queue br events]; [by rewrite fmap_app in *| |done| | |done..].
  - eapply pumps_replace; [exact Hx|done| | |exact Hp].
    + intros (Hb & Hread & Hf). rewrite Hst in *. destruct Hf as [_ Hf].
      unfold pump_ok, pump_sent. cbn [p_ext p_state p_buffer p_read p_failed].
      rewrite queued_bytes_app, <-Hown, queued_same, Hown, app_assoc, Hread, app_assoc.
      split_and!; [done|destruct (oc_failed chunk); by rewrite app_nil_r, <-?app_assoc|].
      destruct (oc_failed chunk) eqn:Hfail; [|done]. intros _. exists chunk. split; [set_solver|done].
    + intros x Hne (Hb & Hread & Hf). unfold pump_ok.
      rewrite queued_bytes_app, (queued_other (p_ext x)), app_nil_r by congruence. split_and!; [done|done|].
      destruct (p_state x); [done|done|]. intros Hxf. destruct (Hf Hxf) as (c & Hc & Hcf). exists c. set_solver.
  - intros Hdone. destruct (Hd Hdone) as [_ Hall]. apply Forall_app in Hall as [_ Hall].
    apply Forall_cons in Hall as [Hall _]. congruence.
  - rewrite length_app. cbn. lia.
Qed.

Ltac bridge_cbn :=
  cbn [pumps queue br events set_input set_eof set_size set_done set_exit add_signals send wire output_done client_eof
       stdin input signals sizes window_revision exit_status].

(** A client event keeps the account of what the process was given. *)
Lemma event_running k has_stdin revision ps q b evs event ok b' f :
  on_event k (Some event) ok b = (b', f) → (∀ r, f ≠ Break r) →
  running has_stdin revision (MkSystem ps q b evs None) →
  running has_stdin revision (MkSystem ps q b' (evs ++ [event]) None).
Proof.
  intros Hrun Hf [Hx Hp Hw Hd Hq He Hs Hi Hsg Hwin]. cbn [pumps queue br events] in *. unfold on_event in Hrun.
  destruct event as [data| | |number|rows cols rev]; [..|].
  - assert (Heof : has_eof (evs ++ [Data data]) = client_eof b).
    { rewrite has_eof_app. cbn. by rewrite orb_false_r. }
    assert (Hsig : signals_of (evs ++ [Data data]) = signals_of evs).
    { unfold signals_of. by rewrite bind_app, app_nil_r. }
    assert (Hin : input_of (evs ++ [Data data]) = input_of evs ++ (if client_eof b then [] else data)).
    { rewrite input_of_app, He. destruct (has_eof evs); [done|]. cbn. by rewrite app_nil_r. }
    destruct (client_eof b) eqn:Hce; [|destruct (stdin b) eqn:Hsi; [destruct ok|destruct k]];
      simplify_eq; try (by edestruct Hf); split; bridge_cbn; rewrite ?Heof, ?Hsig, ?Hin, ?Hce, ?Hsi, ?app_nil_r; try done.
    + by intros ->%Hi.
    + by intros ->.
  - simplify_eq. split; bridge_cbn; try done.
    + rewrite has_eof_app. cbn. by rewrite orb_true_r.
    + by rewrite andb_false_r.
    + intros Hst. rewrite input_of_app. cbn. destruct (has_eof evs); rewrite app_nil_r; auto.
    + unfold signals_of in *. by rewrite bind_app, app_nil_r.
  - simplify_eq. by edestruct Hf.
  - simplify_eq. split; bridge_cbn; try done;
      rewrite ?has_eof_app, ?input_of_app; cbn; rewrite ?orb_false_r; try done.
    + intros Hst. destruct (has_eof evs); rewrite app_nil_r; auto.
    + unfold signals_of in *. by rewrite bind_app, Hsg.
  - assert (Hcommon : has_eof (evs ++ [WindowChange rows cols rev]) = has_eof evs ∧
      input_of (evs ++ [WindowChange rows cols rev]) = input_of evs ∧
      signals_of (evs ++ [WindowChange rows cols rev]) = signals_of evs).
    { rewrite has_eof_app, input_of_app. unfold signals_of. rewrite bind_app. cbn.
      rewrite orb_false_r, app_nil_r. destruct (has_eof evs); by rewrite app_nil_r. }
    destruct Hcommon as (Heof & Hin & Hsig).
    destruct (window_revision b <? rev) eqn:Hrev; [destruct ok|]; simplify_eq; try (by edestruct Hf); bool_to_prop;
      split; bridge_cbn;
      rewrite ?Heof, ?Hin, ?Hsig; try done.
    destruct Hwin as [Hsort Hle]. rewrite fmap_app. cbn [fmap list_fmap snd]. split.
    + rewrite app_comm_cons. apply StronglySorted_app_2; [|done|by repeat constructor].
      intros x y Hxin ->%list_elem_of_singleton. specialize (Hle x Hxin). lia.
    + intros x Hxin. rewrite app_comm_cons in Hxin. apply elem_of_app in Hxin as [Hxin| ->%list_elem_of_singleton]; [|done].
      specialize (Hle x Hxin). lia.
Qed.

Lemma chunk_running has_stdin revision ps q b evs chunk sent q' b' f :
  on_chunk chunk sent b = (b', f) → (∀ r, f ≠ Break r) →
  enabled Sandbox (OnChunk chunk sent) (MkSystem ps q b evs None) q' →
  running has_stdin revision (MkSystem ps q b evs None) →
  running has_stdin revision (MkSystem ps q' b' evs None).
Proof.
  intros Hrun Hf Hen [Hx Hp Hw Hd Hq He Hs Hi Hsg Hwin]. cbn [pumps queue br events] in *. unfold on_chunk in Hrun.
  destruct chunk as [c|]; cbn in Hen.
  - destruct Hen as [Hnd ->]. destruct (oc_failed c) eqn:Hfail; [simplify_eq; by edestruct Hf|].
    destruct sent; [|simplify_eq; by edestruct Hf]. simplify_eq.
    split; bridge_cbn;
      try done; [| |congruence|cbn in Hq; lia].
    + eapply Forall_impl; [exact Hp|]. intros p (Hb & Hread & Hst). unfold pump_ok.
      rewrite sent_bytes_app, sent_chunk, <-app_assoc. split_and!; [done|by rewrite Hread; cbn; rewrite <-app_assoc|].
      destruct (p_state p); [done|done|]. intros Hpf. destruct (Hst Hpf) as (c' & Hc & Hcf). exists c'.
      apply elem_of_cons in Hc as [-> |Hc]; [congruence|done].
    + apply Forall_app_2; [done|]. apply Forall_singleton. unfold output_message. by destruct (oc_ext c).
  - destruct Hen as (Hnd & -> & -> & Hall). simplify_eq.
    split; bridge_cbn; done.
Qed.

(** A turn that does not give up keeps the whole account. *)
Lemma turn_running k has_stdin revision ps q b evs s q' b' r :
  enabled k s (MkSystem ps q b evs None) q' → turn k s b = (b', r) → r = None ∨ r = Some Completed →
  running has_stdin revision (MkSystem ps q b evs None) →
  running has_stdin revision (MkSystem ps q' b' (evs ++ taken s) None) ∧
  (r = Some Completed → is_Some (exit_status b') ∧ output_done b' = true).
Proof.
  intros Hen Hturn Hr Hinv. unfold turn in Hturn.
  destruct (match s with OnEvent _ _ => _ | _ => _ end) as [b1 f] eqn:Hbranch.
  assert (Hf : ∀ x, f ≠ Break x ∨ x = Completed).
  { intros x. destruct f as [| |y]; [by left..|]. destruct Hr as [-> | ->]; simplify_eq. destruct x; [by right|by left..]. }
  assert (Hb1 : b1 = b'). { destruct f; by simplify_eq. } subst b1.
  assert (Hnb : ∀ x, f ≠ Break x).
  { intros x ->. destruct (Hf x) as [Hx| ->]; [done|]. destruct s as [[[]|]|[]| |]; cbn in Hbranch; repeat case_match; simplify_eq. }
  split.
  - destruct s as [[event|] ok|chunk sent|exit|]; cbn [taken]; rewrite ?app_nil_r.
    + cbn in Hen. subst q'. by eapply event_running.
    + cbn in Hbranch. simplify_eq. by edestruct Hnb.
    + by eapply chunk_running.
    + cbn in Hen. destruct Hen as [_ ->]. simplify_eq. by destruct Hinv; split.
    + simplify_eq. by edestruct Hnb.
  - intros ->. destruct f; [by simplify_eq| |by edestruct Hnb]. injection Hturn as Hc.
    destruct (bool_decide (is_Some (exit_status b'))) eqn:Hex; [|done]. apply bool_decide_eq_true in Hex.
    by destruct (output_done b').
Qed.

(** A turn that gives up changes nothing but the queue. *)
Lemma turn_aborted k s b b' r : turn k s b = (b', Some r) → r ≠ Completed → b' = b ∧ r = Aborted.
Proof.
  intros Hturn Hr. unfold turn in Hturn.
  destruct s as [[[]|] []|[c|] []| |]; cbn in Hturn; repeat case_match; simplify_eq; done.
Qed.

(** ** Ended bridges *)

Definition prefixed (w : list message) (p : pump) : Prop := sent_bytes (p_ext p) w `prefix_of` p_read p.

Definition delivered (w : list message) (p : pump) : Prop :=
  p_state p = Done ∧ p_failed p = false ∧ sent_bytes (p_ext p) w = p_read p.

Record completed (has_stdin : bool) (sys : system) : Prop := MkCompleted
  { cp_wire : ∃ outs status,
      wire (br sys) = outs ++ [MEof; exit_message status; MClose] ∧ exit_status (br sys) = Some status ∧
      Forall (fun m => is_output m = true) outs ∧ Forall (delivered outs) (pumps sys);
    cp_input : has_stdin = true → input (br sys) = input_of (events sys);
    cp_signals : signals (br sys) = signals_of (events sys) }.

Record aborted (k : kind) (sys : system) : Prop := MkAborted
  { ab_wire : ∃ outs, wire (br sys) = outs ++ [MClose] ∧
      Forall (fun m => is_output m = true) outs ∧ Forall (prefixed outs) (pumps sys);
    ab_closed : stdin (br sys) = false;
    ab_process :
      match k with
      | Sandbox => signals (br sys) = signals_of (events sys) ∧ detached (br sys) = true
      | Host => ∃ kill, signals (br sys) = signals_of (events sys) ++ SIGTERM :: kill ∧ (kill = [] ∨ kill = [SIGKILL])
      end }.

Definition inv (k : kind) (has_stdin : bool) (revision : Z) (sys : system) : Prop :=
  match outcome sys with
  | None => running has_stdin revision sys
  | Some Completed => completed has_stdin sys
  | Some _ => aborted k sys
  end.

Lemma running_completed k has_stdin revision graceful ps q b evs :
  running has_stdin revision (MkSystem ps q b evs None) → is_Some (exit_status b) → output_done b = true →
  completed has_stdin (MkSystem ps q (finish k graceful Completed b) evs (Some Completed)).
Proof.
  intros [Hx Hp Hw Hd Hq He Hs Hi Hsg Hwin] [status Hex] Hdone. cbn [pumps queue br events] in *.
  destruct (Hd Hdone) as [-> Hall].
  split; cbn [pumps br events finish send wire input signals exit_status]; [|done|done].
  exists (wire b), status. rewrite Hex. split_and!; [done|done|done|].
  apply Forall_forall. intros p Hin. rewrite Forall_forall in Hp, Hall.
  specialize (Hall p Hin). destruct (Hp p Hin) as (_ & Hread & Hst). rewrite Hall in *.
  split_and!; [done| |by rewrite Hread; cbn; rewrite app_nil_r].
  destruct (p_failed p); [|done]. destruct (Hst eq_refl) as (c & Hc & _). by apply not_elem_of_nil in Hc.
Qed.

Lemma running_aborted k has_stdin revision graceful ps q q' b evs s :
  running has_stdin revision (MkSystem ps q b evs None) →
  signals_of (evs ++ taken s) = signals_of evs →
  aborted k (MkSystem ps q' (finish k graceful Aborted b) (evs ++ taken s) (Some Aborted)).
Proof.
  intros [Hx Hp Hw Hd Hq He Hs Hi Hsg Hwin] Hsig. cbn [pumps queue br events] in *.
  split; cbn [pumps br events finish].
  - exists (wire b). split_and!; [by destruct k|done|]. eapply Forall_impl; [exact Hp|].
    intros p (_ & Hread & _). unfold prefixed. rewrite Hread. by eexists.
  - by destruct k.
  - rewrite Hsig, <-Hsg. destruct k; [by split|]. eexists. split; [reflexivity|]. destruct graceful; auto.
Qed.

Lemma aborted_signals k s b b' evs :
  turn k s b = (b', Some Aborted) → signals_of (evs ++ taken s) = signals_of evs.
Proof.
  intros Hturn. unfold signals_of. rewrite bind_app.
  destruct s as [[[| | |number|]|] ok|chunk sent|exit|]; cbn [taken]; rewrite ?app_nil_r; try done.
  unfold turn in Hturn. cbn in Hturn. by case_match.
Qed.

Lemma bridge_step k has_stdin revision sys sys' :
  step k sys sys' → inv k has_stdin revision sys → inv k has_stdin revision sys'.
Proof.
  intros Hstep Hinv. destruct Hstep as [before p after r q b evs Hr Hne|before p after c q b evs Hs Hlen
    |ps q b evs s q' b' r graceful Hen Hturn]; cbn in Hinv |- *.
  - by apply running_read.
  - by apply running_send.
  - destruct r as [r|].
    + destruct (decide (r = Completed)) as [-> |Hr].
      * destruct (turn_running _ _ _ _ _ _ _ _ _ _ _ Hen Hturn (or_intror eq_refl) Hinv) as [Hrun Hc].
        destruct (Hc eq_refl) as [Hex Hdone]. by eapply running_completed.
      * destruct (turn_aborted _ _ _ _ _ Hturn Hr) as [-> ->].
        eapply running_aborted; [exact Hinv|]. by eapply aborted_signals.
    + exact (proj1 (turn_running _ _ _ _ _ _ _ _ _ _ _ Hen Hturn (or_introl eq_refl) Hinv)).
Qed.

Lemma bridge_reachable k exts has_stdin revision sys :
  NoDup exts → reachable k exts has_stdin revision sys → inv k has_stdin revision sys.
Proof.
  intros Hnd Hr. assert (Hsteps : ∀ x y, rtc (step k) x y → inv k has_stdin revision x → inv k has_stdin revision y).
  { induction 1 as [|x y z Hstep _ IH]; [done|]. intros Hx. by apply IH, (bridge_step _ _ _ x). }
  apply (Hsteps _ _ Hr). by apply start_running.
Qed.

(** ** Progress *)

(** A bridge still running has something left to do. *)
Definition unfinished (sys : system) : Prop :=
  outcome sys = None → ¬ (is_Some (exit_status (br sys)) ∧ output_done (br sys) = true).

Lemma turn_unfinished k s b b' :
  turn k s b = (b', None) → ¬ (is_Some (exit_status b) ∧ output_done b = true) →
  ¬ (is_Some (exit_status b') ∧ output_done b' = true).
Proof.
  intros Hturn Hb. unfold turn in Hturn. destruct (match s with OnEvent _ _ => _ | _ => _ end) as [b1 f] eqn:Hbranch.
  destruct f; [..|done].
  - injection Hturn as <-. destruct s as [[[]|] []|[c|] []| |]; cbn in Hbranch; repeat case_match; by simplify_eq.
  - injection Hturn as <- Hc. intros [Hex Hd]. by rewrite bool_decide_true, Hd in Hc.
Qed.

Lemma reachable_unfinished k exts has_stdin revision sys :
  reachable k exts has_stdin revision sys → unfinished sys.
Proof.
  intros Hr. assert (Hsteps : ∀ x y, rtc (step k) x y → unfinished x → unfinished y).
  { induction 1 as [|x y z Hstep _ IH]; [done|]. intros Hx. apply IH. unfold unfinished in *.
    destruct Hstep as [| |ps q b evs s q' b' r graceful Hen Hturn]; [done..|]. cbn in *. intros ->.
    eapply turn_unfinished; [exact Hturn|auto]. }
  apply (Hsteps _ _ Hr). intros _ [[? ?] _]. by cbn in *.
Qed.

(** The last two turns. *)
Lemma close_out k ps b evs :
  Forall (fun p => p_state p = Done) ps → ¬ (is_Some (exit_status b) ∧ output_done b = true) →
  ∃ b', rtc (step k) (MkSystem ps [] b evs None) (MkSystem ps [] b' evs (Some Completed)).
Proof.
  intros Hall Hopen. assert (Hev : evs = evs ++ []) by by rewrite app_nil_r.
  assert (Hexit : ∀ b, exit_status b = None → output_done b = true →
    ∃ b', rtc (step k) (MkSystem ps [] b evs None) (MkSystem ps [] b' evs (Some Completed))).
  { intros b0 Hn Hd. eexists. apply rtc_once. rewrite Hev at 2.
    apply (st_turn k ps [] b0 evs (OnExit None) [] (set_exit (Code 255) b0) (Some Completed) true); [done|].
    unfold turn. cbn. by rewrite Hd. }
  destruct (output_done b) eqn:Hd; [destruct (exit_status b) eqn:Hs|].
  - by destruct Hopen.
  - by apply Hexit.
  - assert (Hturn : turn k (OnChunk None true) b =
      (set_done b, if bool_decide (is_Some (exit_status b)) then Some Completed else None)).
    { unfold turn. cbn. by rewrite andb_true_r. }
    destruct (exit_status b) eqn:Hs.
    + eexists. apply rtc_once. rewrite Hev at 2.
      by apply (st_turn k ps [] b evs (OnChunk None true) [] (set_done b) (Some Completed) true).
    + destruct (Hexit (set_done b)) as [b' Hb']; [done|done|]. exists b'. eapply rtc_l; [|exact Hb'].
      rewrite Hev at 2. by apply (st_turn k ps [] b evs (OnChunk None true) [] (set_done b) None true).
Qed.

Lemma drain_queue k ps q b evs :
  Forall (fun p => p_state p = Done) ps → Forall (fun c => oc_failed c = false) q → output_done b = false →
  ∃ b', rtc (step k) (MkSystem ps q b evs None) (MkSystem ps [] b' evs None) ∧ output_done b' = false.
Proof.
  intros Hall Hq. revert b. induction Hq as [|c q Hc Hq IH]; intros b Hd; [by exists b|].
  destruct (IH (send [output_message c] b)) as (b' & Hb' & Hd'); [done|]. exists b'. split; [|done].
  eapply rtc_l; [|exact Hb']. assert (Hev : evs = evs ++ []) by by rewrite app_nil_r. rewrite Hev at 2.
  apply (st_turn k ps (c :: q) b evs (OnChunk (Some c) true) q (send [output_message c] b) None true); [done|].
  unfold turn. cbn. rewrite Hc. cbn. by rewrite Hd, andb_false_r.
Qed.

(** ** Theorems *)

(** C7: when a bridge completes, for a sandbox or a host process and under every
    interleaving of the pumps, the queue, the client's events and the exit, the
    client was sent exactly the bytes each stream gave, in order, then EOF, the exit
    the waiter reported, and one close, in that order, and nothing can follow; the
    process was given exactly the client's input up to its EOF and exactly the
    signals the client asked for. *)
Theorem completed_channels_are_faithful k exts has_stdin revision sys :
  NoDup exts → reachable k exts has_stdin revision sys → outcome sys = Some Completed →
  (∃ outs status,
     wire (br sys) = outs ++ [MEof; exit_message status; MClose] ∧ exit_status (br sys) = Some status ∧
     Forall (fun m => is_output m = true) outs ∧ Forall (delivered outs) (pumps sys)) ∧
  (has_stdin = true → input (br sys) = input_of (events sys)) ∧
  signals (br sys) = signals_of (events sys) ∧ (∀ sys', ¬ step k sys sys').
Proof.
  intros Hnd Hr Ho. pose proof (bridge_reachable _ _ _ _ _ Hnd Hr) as Hinv. unfold inv in Hinv. rewrite Ho in Hinv.
  destruct Hinv as [Hw Hi Hs]. split_and!; [done|done|done|]. intros sys' Hstep. by destruct Hstep.
Qed.

(** When a bridge gives up, the client gets a prefix of each stream and then one
    close, never an EOF or an exit; a sandbox process is detached from its terminal
    and gets no signal the client did not ask for, while a host process gets SIGTERM
    and then, at most, SIGKILL. *)
Theorem aborted_channels_spare_the_sandbox k exts has_stdin revision sys :
  NoDup exts → reachable k exts has_stdin revision sys → outcome sys = Some Aborted →
  (∃ outs, wire (br sys) = outs ++ [MClose] ∧ Forall (fun m => is_output m = true) outs ∧
     Forall (prefixed outs) (pumps sys)) ∧
  stdin (br sys) = false ∧
  match k with
  | Sandbox => signals (br sys) = signals_of (events sys) ∧ detached (br sys) = true
  | Host => ∃ kill, signals (br sys) = signals_of (events sys) ++ SIGTERM :: kill ∧ (kill = [] ∨ kill = [SIGKILL])
  end.
Proof.
  intros Hnd Hr Ho. pose proof (bridge_reachable _ _ _ _ _ Hnd Hr) as Hinv. unfold inv in Hinv. rewrite Ho in Hinv.
  by destruct Hinv.
Qed.

(** C36: a running bridge never holds more than eight chunks in its queue, applies
    window changes in strictly increasing revision, and is never stuck: once every
    pump has ended and no read failed, draining the queue and taking the exit
    completes it with no further help from the client. *)
Theorem bridges_are_bounded_and_complete k exts has_stdin revision sys :
  NoDup exts → reachable k exts has_stdin revision sys → outcome sys = None →
  (length (queue sys) <= OUTPUT_QUEUE_CHUNKS)%nat ∧ StronglySorted Z.lt (revision :: (sizes (br sys)).*2) ∧
  (Forall (fun p => p_state p = Done) (pumps sys) → Forall (fun c => oc_failed c = false) (queue sys) →
   ∃ sys', rtc (step k) sys sys' ∧ outcome sys' = Some Completed ∧ events sys' = events sys).
Proof.
  intros Hnd Hr Ho. pose proof (bridge_reachable _ _ _ _ _ Hnd Hr) as Hinv. unfold inv in Hinv. rewrite Ho in Hinv.
  pose proof (reachable_unfinished _ _ _ _ _ Hr Ho) as Hopen.
  destruct Hinv as [_ _ _ Hd Hq _ _ _ _ [Hwin _]]. split_and!; [done|done|]. intros Hall Hfail.
  destruct sys as [ps q b evs o]. cbn in *. subst o.
  assert (Hdrain : ∃ b', rtc (step k) (MkSystem ps q b evs None) (MkSystem ps [] b' evs None) ∧
    ¬ (is_Some (exit_status b') ∧ output_done b' = true)).
  { destruct (output_done b) eqn:Hdone.
    - destruct (Hd eq_refl) as [-> _]. exists b. split; [done|]. by rewrite Hdone.
    - destruct (drain_queue k ps q b evs Hall Hfail Hdone) as (b' & Hb' & Hdone'). exists b'. split; [done|].
      rewrite Hdone'. by intros [_ ?]. }
  destruct Hdrain as (b1 & Hb1 & Hopen1). destruct (close_out k ps b1 evs Hall Hopen1) as [b2 Hb2].
  eexists. split; [by etrans|done].
Qed.

(** ** Witnesses *)

(** One line of input, one chunk of output, exit 0. *)
Definition sample_pump (state : pump_state) (bytes : list Z) : pump := MkPump None state [] bytes false.
Definition sample_bridge (eof : bool) (status : option ExitStatus) (done : bool) (l : list message) : bridge :=
  MkBridge eof (negb eof) 0 status done [104; 105] [] [] false l.

Lemma sample_reading :
  reachable Sandbox [None] true 0
    (MkSystem [sample_pump Done [111]] [MkChunk [111] None false] (sample_bridge false None false [])
       [Data [104; 105]] None).
Proof.
  eapply rtc_l; [eapply (st_turn _ _ [] _ [] (OnEvent (Some (Data [104; 105])) true) []
                   (sample_bridge false None false []) None true); reflexivity|].
  eapply rtc_l; [eapply (st_read _ [] (sample_pump Reading []) [] (Bytes [111])); [done|by intros bytes [= <-]]|].
  eapply rtc_l; [eapply (st_send _ [] _ [] (MkChunk [111] None false) []); [done|unfold OUTPUT_QUEUE_CHUNKS; cbn; lia]|].
  apply rtc_once. exact (st_read _ [] (sample_pump Reading [111]) [] End _ _ _ eq_refl ltac:(done)).
Qed.

Definition sample_completed : system :=
  MkSystem [sample_pump Done [111]] []
    (sample_bridge false (Some (Code 0)) true [MData [111]; MEof; MExitStatus 0; MClose]) [Data [104; 105]] (Some Completed).

Lemma sample_completes : reachable Sandbox [None] true 0 sample_completed.
Proof.
  unfold reachable. etrans; [exact sample_reading|].
  eapply rtc_l; [eapply (st_turn _ _ _ _ _ (OnChunk (Some (MkChunk [111] None false)) true) []
                   (sample_bridge false None false [MData [111]]) None true); [done|reflexivity]|].
  eapply rtc_l; [eapply (st_turn _ _ _ _ _ (OnExit (Some (ExitCode 0))) []
                   (sample_bridge false (Some (Code 0)) false [MData [111]]) None true); [done|reflexivity]|].
  apply rtc_once.
  eapply (st_turn _ [sample_pump Done [111]] [] (sample_bridge false (Some (Code 0)) false [MData [111]]) [Data [104; 105]]
    (OnChunk None true) [] (sample_bridge false (Some (Code 0)) true [MData [111]]) (Some Completed) true);
    [by repeat constructor|reflexivity].
Qed.

Lemma completed_channels_are_faithful_witness :
  input (br sample_completed) = [104; 105] ∧ signals (br sample_completed) = [].
Proof.
  destruct (completed_channels_are_faithful Sandbox [None] true 0 sample_completed
    ltac:(apply NoDup_singleton) sample_completes eq_refl) as (_ & Hi & Hs & _).
  split; [exact (Hi eq_refl)|exact Hs].
Defined.

Definition sample_aborted : system :=
  MkSystem [sample_pump Reading []] []
    (MkBridge false false 0 None false [] [] [] true [MClose]) [Close] (Some Aborted).

Lemma aborted_channels_spare_the_sandbox_witness :
  signals (br sample_aborted) = [] ∧ detached (br sample_aborted) = true.
Proof.
  assert (Hr : reachable Sandbox [None] true 0 sample_aborted).
  { apply rtc_once. exact (st_turn _ _ [] _ [] (OnEvent (Some Close) true) [] _ _ true eq_refl eq_refl). }
  destruct (aborted_channels_spare_the_sandbox Sandbox [None] true 0 sample_aborted
    ltac:(apply NoDup_singleton) Hr eq_refl) as (_ & _ & Hs). exact Hs.
Defined.

Lemma bridges_are_bounded_and_complete_witness :
  ∃ sys', outcome sys' = Some Completed ∧ events sys' = [Data [104; 105]].
Proof.
  destruct (bridges_are_bounded_and_complete Sandbox [None] true 0 _
    ltac:(apply NoDup_singleton) sample_reading eq_refl) as (_ & _ & Hlive).
  destruct (Hlive ltac:(by repeat constructor) ltac:(by repeat constructor)) as (sys' & _ & Ho & He).
  exists sys'. split; [exact Ho|exact He].
Defined.
End Bridge.
