(* ===== verification/Channels.v ===== *)
(** * Channels of a connection ([ssh/channel.rs] [ChannelRegistry], [ssh/mod.rs])

    The registry of a connection's channels, with the bounded mailbox of each, and
    the handler callbacks that use it.  A mailbox is shared by its sender, kept in
    the channel's state, and its receiver, kept there until an operation starts and
    by the bridge from then on; [boxes] is the store of the mailboxes whose receiver
    is alive.  The SSH library awaits each callback, so a callback is a function
    here, with the answers of the launchers and of the session as arguments; bridges
    take events and end at any point between callbacks. *)

From S2P Require Import Prelude Text PathNames Idents ChannelBridge.

Create HintDb channels.

Module Channels.
Import Bridge Principals.

(** ** The registry *)

Record PtyRequest := MkPty { term : string; rows : Z; cols : Z; modes : list (Z * Z) }.

Record ChannelState := MkState
  { pty : option PtyRequest; window_revision : Z; started : bool; mailbox : Z; mailbox_rx : bool }.

Record registry := MkRegistry
  { channels : gmap Z ChannelState; boxes : gmap Z (list ChannelEvent); next_box : Z }.

Definition new : registry := MkRegistry ∅ ∅ 0.

Definition MAILBOX_CAPACITY : nat := 64.

(** Dropping a state drops its sender, and its receiver if it still has it. *)
Definition drop_state (s : option ChannelState) (bs : gmap Z (list ChannelEvent)) : gmap Z (list ChannelEvent) :=
  match s with
  | Some s => if mailbox_rx s then delete (mailbox s) bs else bs
  | None => bs
  end.

Definition try_open (id cap : Z) (r : registry) : bool * registry :=
  if cap <=? Z.of_nat (size (channels r)) then (false, r)
  else
    (true, MkRegistry (<[id := MkState None 0 false (next_box r) true]> (channels r))
             (<[next_box r := []]> (drop_state (channels r !! id) (boxes r))) (next_box r + 1)).

Definition remove (id : Z) (r : registry) : registry :=
  MkRegistry (delete id (channels r)) (drop_state (channels r !! id) (boxes r)) (next_box r).

(** [clear] drops every state. *)
Definition clear (r : registry) : registry :=
  MkRegistry ∅ (foldr (fun kv bs => drop_state (Some kv.2) bs) (boxes r) (map_to_list (channels r))) (next_box r).

Definition set_state (id : Z) (s : ChannelState) (r : registry) : registry :=
  MkRegistry (<[id := s]> (channels r)) (boxes r) (next_box r).

(** The receiver is the mailbox's name. *)
Definition start (id : Z) (r : registry) : option Z * registry :=
  match channels r !! id with
  | None => (None, r)
  | Some s =>
      if started s then (None, r)
      else (if mailbox_rx s then Some (mailbox s) else None,
            set_state id (MkState (pty s) (window_revision s) true (mailbox s) false) r)
  end.

Definition has_pty (id : Z) (r : registry) : bool :=
  match channels r !! id with Some s => bool_decide (is_Some (pty s)) | None => false end.

Definition pty_snapshot (id : Z) (r : registry) : option (PtyRequest * Z) :=
  match channels r !! id with
  | Some s => match pty s with Some p => Some (p, window_revision s) | None => None end
  | None => None
  end.

Definition update_window (id new_rows new_cols : Z) (r : registry) : option Z * registry :=
  match channels r !! id with
  | None => (None, r)
  | Some s =>
      match pty s with
      | None => (None, r)
      | Some p =>
          if (new_rows =? 0) && (new_cols =? 0) then (Some (window_revision s), r)
          else if u64_max <? window_revision s + 1 then (None, r)
          else
            let p := MkPty (term p) (if new_rows =? 0 then rows p else new_rows)
                       (if new_cols =? 0 then cols p else new_cols) (modes p) in
            (Some (window_revision s + 1),
             set_state id (MkState (Some p) (window_revision s + 1) (started s) (mailbox s) (mailbox_rx s)) r)
      end
  end.

(** [mpsc::Sender::try_send] refuses when the mailbox is full or its receiver gone. *)
Definition try_send (id : Z) (event : ChannelEvent) (r : registry) : bool * registry :=
  match channels r !! id with
  | None => (false, r)
  | Some s =>
      match boxes r !! mailbox s with
      | None => (false, r)
      | Some q =>
          if Nat.ltb (length q) MAILBOX_CAPACITY
          then (true, MkRegistry (channels r) (<[mailbox s := q ++ [event]]> (boxes r)) (next_box r))
          else (false, r)
      end
  end.

(** [synchronize_window]: [resize] answers for the adapter and [snapshots] are what
    the registry answers at the end of each turn; [None] when they run out. *)
Fixpoint synchronize_loop (resize : Z → Z → bool) (p : PtyRequest) (revision : Z)
    (snapshots : list (option (PtyRequest * Z))) : option (option Z) :=
  if resize (rows p) (cols p) then
    match snapshots with
    | [] => None
    | None :: _ => Some None
    | Some (latest, latest_revision) :: rest =>
        if latest_revision =? revision then Some (Some revision)
        else synchronize_loop resize latest latest_revision rest
    end
  else Some None.

Definition synchronize_window (resize : Z → Z → bool) (first : option (PtyRequest * Z))
    (snapshots : list (option (PtyRequest * Z))) : option (option Z) :=
  match first with
  | None => Some (Some 0)
  | Some (p, revision) => synchronize_loop resize p revision snapshots
  end.

(** ** A connection *)

Inductive operation := OpHost | OpSandbox (id : string) | OpList | OpDelete (id : string).

Inductive reply := Success | Failure | Message (m : message).

(** [running]: the bridges, by channel and mailbox.  [begun]: every operation that was
    ever started, with its mailbox. *)
Record conn := MkConn
  { principal : option Principal; username : option string; reg : registry;
    running : list (Z * Z); begun : list (Z * operation); out : list (Z * reply) }.

Definition set_reg (r : registry) (c : conn) : conn :=
  MkConn (principal c) (username c) r (running c) (begun c) (out c).
Definition say (channel : Z) (l : list reply) (c : conn) : conn :=
  MkConn (principal c) (username c) (reg c) (running c) (begun c) (out c ++ ((channel,.) <$> l)).
Definition begin (box : Z) (op : operation) (c : conn) : conn :=
  MkConn (principal c) (username c) (reg c) (running c) ((box, op) :: begun c) (out c).
Definition bridge_up (channel box : Z) (c : conn) : conn :=
  MkConn (principal c) (username c) (reg c) ((channel, box) :: running c) (begun c) (out c).

(** The receiver goes out of scope. *)
Definition drop_receiver (box : Z) (c : conn) : conn :=
  set_reg (MkRegistry (channels (reg c)) (delete box (boxes (reg c))) (next_box (reg c))) c.

Definition remove_channel (channel : Z) (c : conn) : conn := set_reg (remove channel (reg c)) c.

Inductive Route := RouteHost | RouteSandbox (id : string).

(** [ConnHandler::route]; both rejections look the same to the client. *)
Definition route (c : conn) : option Route :=
  match principal c with
  | None => None
  | Some p =>
      let user := default "" (username c) in
      if bool_decide (user = "_") then if bool_decide (role p = Admin) then Some RouteHost else None
      else match Id.parse user with Ok id => Some (RouteSandbox id) | Err _ => None end
  end.

(** What happens between taking the receiver and publishing the bridge: admission,
    launch, the window, the acknowledgement. *)
Inductive launch := NotAdmitted | NotLaunched | NotResized | NotAcknowledged | Launched.

Section handlers.
Context (notice : list Z).

Definition failed_messages : list reply := Message <$> (finish_failed notice).1.

(** The end of [start_sandbox_terminal] and [dispatch_host_channel]. *)
Definition publish (channel box : Z) (answer : launch) (c : conn) : conn :=
  match answer with
  | NotAdmitted | NotLaunched | NotResized =>
      drop_receiver box (remove_channel channel (say channel failed_messages c))
  | NotAcknowledged => drop_receiver box (remove_channel channel c)
  | Launched => bridge_up channel box (say channel [Success] c)
  end.

Definition start_operation (channel : Z) (answer : launch) (c : conn) : conn :=
  match route c with
  | None => say channel [Failure] c
  | Some target =>
      match start channel (reg c) with
      | (None, r) => say channel [Failure] (set_reg r c)
      | (Some box, r) =>
          let op := match target with RouteHost => OpHost | RouteSandbox id => OpSandbox id end in
          publish channel box answer (begin box op (set_reg r c))
      end
  end.

(** [run_management]: [result] is the manager's answer ([None] for an error). *)
Definition run_management (channel : Z) (op : operation) (answer : option (list Z)) (c : conn)
    : option (list Z) * conn :=
  if has_pty channel (reg c) then (None, c)
  else
    match start channel (reg c) with
    | (None, r) => (None, set_reg r c)
    | (Some box, r) =>
        match principal c with
        | None => (None, drop_receiver box (set_reg r c))
        | Some _ => (answer, drop_receiver box (begin box op (set_reg r c)))
        end
    end.

Definition complete_management (channel : Z) (answer : option (list Z)) (c : conn) : conn :=
  let messages :=
    match answer with
    | Some output =>
        Success :: (if bool_decide (output = []) then [] else [Message (MData output)]) ++
        [Message MEof; Message (MExitStatus 0)]
    | None =>
        [Failure; Message (MExtended 1 notice); Message MEof; Message (MExitStatus UNAVAILABLE_EXIT)]
    end in
  remove_channel channel (say channel (messages ++ [Message MClose]) c).

Definition management (channel : Z) (op : operation) (answer : option (list Z)) (c : conn) : conn :=
  let '(answer, c) := run_management channel op answer c in complete_management channel answer c.

Definition MAX_SUBSYSTEM_BYTES : Z := 64.
Definition MAX_TERM_BYTES : Z := 256.
Definition MAX_COMMAND_BYTES : Z := 32 * 1024.

Definition subsystem_request (channel : Z) (name : string) (answer : option (list Z)) (c : conn) : conn :=
  let user := default "" (username c) in
  if MAX_SUBSYSTEM_BYTES <? str_len name then say channel [Failure] c
  else if bool_decide (name = "list") then
    match principal c with
    | None => say channel [Failure] c
    | Some p =>
        if bool_decide (user = "_") && negb (bool_decide (role p = Admin)) then say channel [Failure] c
        else management channel OpList answer c
    end
  else if bool_decide (name = "delete") then
    if bool_decide (user = "_") then say channel [Failure] c
    else match Id.parse user with
         | Err _ => say channel [Failure] c
         | Ok id => management channel (OpDelete id) answer c
         end
  else say channel [Failure] c.

Definition shell_request (channel : Z) (answer : launch) (c : conn) : conn := start_operation channel answer c.

Definition exec_request (channel : Z) (data : list Z) (answer : launch) (c : conn) : conn :=
  if (MAX_COMMAND_BYTES <? Z.of_nat (length data)) || bool_decide (0 ∈ data) then say channel [Failure] c
  else start_operation channel answer c.

Definition pty_request (channel : Z) (p : PtyRequest) (c : conn) : conn :=
  if (MAX_TERM_BYTES <? str_len (term p)) || contains_char (Ascii.ascii_of_nat 0) (term p)
  then say channel [Failure] c
  else
    match channels (reg c) !! channel with
    | Some s =>
        if started s || bool_decide (is_Some (pty s)) then say channel [Failure] c
        else
          say channel [Success]
            (set_reg (set_state channel
               (MkState (Some p) (window_revision s) (started s) (mailbox s) (mailbox_rx s)) (reg c)) c)
    | None => say channel [Failure] c
    end.

(** [channel_open_session]; the answer to an open is not a channel message. *)
Definition channel_open_session (channel cap : Z) (c : conn) : conn :=
  set_reg (try_open channel cap (reg c)).2 c.

Definition window_change_request (channel new_cols new_rows : Z) (c : conn) : conn :=
  match update_window channel new_rows new_cols (reg c) with
  | (Some revision, r) =>
      if negb (new_rows =? 0) || negb (new_cols =? 0) then
        match try_send channel (WindowChange new_rows new_cols revision) r with
        | (true, r) => set_reg r c
        | (false, r) => set_reg (remove channel r) c
        end
      else set_reg r c
  | (None, r) => set_reg r c
  end.

Definition signal (channel : Z) (name : string) (c : conn) : conn :=
  match Signals.signal_from_name name with
  | None => say channel [Failure] c
  | Some number =>
      match try_send channel (Signal number) (reg c) with
      | (true, r) => say channel [Success] (set_reg r c)
      | (false, r) => say channel [Failure] (set_reg r c)
      end
  end.

(** [data] and [channel_eof]: what cannot be queued closes the channel. *)
Definition deliver (channel : Z) (event : ChannelEvent) (c : conn) : conn :=
  match try_send channel event (reg c) with
  | (true, r) => set_reg r c
  | (false, r) => set_reg (remove channel r) (say channel [Message MClose] c)
  end.
Definition data (channel : Z) (bytes : list Z) (c : conn) : conn := deliver channel (Data bytes) c.
Definition channel_eof (channel : Z) (c : conn) : conn := deliver channel Eof c.

Definition channel_close (channel : Z) (c : conn) : conn :=
  match channels (reg c) !! channel with
  | Some s =>
      if started s then
        match try_send channel Close (reg c) with
        | (true, r) => set_reg r c
        | (false, r) => set_reg (remove channel r) c
        end
      else remove_channel channel c
  | None => remove_channel channel c
  end.

(** Every other request the protocol knows is refused: [env], [x11-req]. *)
Definition refused_request (channel : Z) (c : conn) : conn := say channel [Failure] c.
End handlers.

(** ** The connection's life *)

Definition max_channels : Z := 16.

(** Callbacks and bridges in any order.  Only one authentication succeeds on a
    connection, and the host selector needs an admin key (see [Auth.auth_publickey]). *)
Inductive step (notice : list Z) : conn → conn → Prop :=
| st_auth user p c :
    principal c = None → (user = "_" → role p = Admin) →
    step notice c (MkConn (Some p) (Some user) (reg c) (running c) (begun c) (out c))
| st_open channel c : step notice c (channel_open_session channel max_channels c)
| st_pty channel p c : step notice c (pty_request channel p c)
| st_shell channel answer c : step notice c (shell_request notice channel answer c)
| st_exec channel bytes answer c : step notice c (exec_request notice channel bytes answer c)
| st_subsystem channel name answer c : step notice c (subsystem_request notice channel name answer c)
| st_window channel new_cols new_rows c : step notice c (window_change_request channel new_cols new_rows c)
| st_signal channel name c : step notice c (signal channel name c)
| st_data channel bytes c : step notice c (data channel bytes c)
| st_eof channel c : step notice c (channel_eof channel c)
| st_close channel c : step notice c (channel_close channel c)
| st_refused channel c : step notice c (refused_request channel c)
| st_take channel box event rest c :
    (channel, box) ∈ running c → boxes (reg c) !! box = Some (event :: rest) →
    step notice c
      (set_reg (MkRegistry (channels (reg c)) (<[box := rest]> (boxes (reg c))) (next_box (reg c))) c)
| st_end channel box before after c :
    running c = before ++ (channel, box) :: after →
    step notice c
      (let c := remove_channel channel (drop_receiver box c) in
       MkConn (principal c) (username c) (reg c) (before ++ after) (begun c) (out c))
(* The transport handler goes away. *)
| st_drop c : step notice c (set_reg (clear (reg c)) c).

Definition init : conn := MkConn None None new [] [] [].
Definition reachable (notice : list Z) (c : conn) : Prop := rtc (step notice) init c.

(** ** Invariant of the registry *)

(** [bs]: the mailboxes of the operations begun so far. *)
Record reg_ok (bs : list Z) (r : registry) : Prop := MkRegOk
  { ro_cap : Z.of_nat (size (channels r)) <= max_channels;
    ro_boxes : ∀ b q, boxes r !! b = Some q → (length q <= MAILBOX_CAPACITY)%nat ∧ b < next_box r;
    ro_channels : ∀ ch s, channels r !! ch = Some s →
      mailbox s < next_box r ∧ mailbox_rx s = negb (started s) ∧ (started s = false → mailbox s ∉ bs);
    ro_inj : ∀ ch ch' s s', channels r !! ch = Some s → channels r !! ch' = Some s' →
      mailbox s = mailbox s' → ch = ch';
    ro_begun : Forall (fun b => b < next_box r) bs }.

Lemma drop_state_sub s bs b q : drop_state s bs !! b = Some q → bs !! b = Some q.
Proof. unfold drop_state. repeat case_match; try done. by intros [_ ?]%lookup_delete_Some. Qed.

(** Removing states and mailboxes is always fine. *)
Lemma reg_ok_shrink bs r r' :
  reg_ok bs r → next_box r' = next_box r →
  (∀ ch s, channels r' !! ch = Some s → channels r !! ch = Some s) →
  (∀ b q, boxes r' !! b = Some q → boxes r !! b = Some q) → reg_ok bs r'.
Proof.
  intros [Hc Hb Hch Hi Hbs] Hn Hsub Hbsub. split; rewrite ?Hn; eauto.
  assert (channels r' ⊆ channels r) as Hle%map_subseteq_size; [|lia].
  apply map_subseteq_spec. eauto.
Qed.

Lemma remove_ok bs id r : reg_ok bs r → reg_ok bs (remove id r).
Proof.
  intros Hok. eapply reg_ok_shrink; [exact Hok|done|..]; cbn.
  - by intros ch s [_ ?]%lookup_delete_Some.
  - intros b q. apply drop_state_sub.
Qed.

Lemma clear_ok bs r : reg_ok bs r → reg_ok bs (clear r).
Proof.
  intros Hok. eapply reg_ok_shrink; [exact Hok|done|..]; cbn; [by intros ch s; rewrite lookup_empty|].
  induction (map_to_list (channels r)) as [|kv l IH]; cbn; [done|]. intros b q Hq. by apply IH, (drop_state_sub (Some kv.2)).
Qed.

Lemma drop_box_ok bs box r :
  reg_ok bs r → reg_ok bs (MkRegistry (channels r) (delete box (boxes r)) (next_box r)).
Proof. intros Hok. eapply reg_ok_shrink; [exact Hok|done|done|]. cbn. by intros b q [_ ?]%lookup_delete_Some. Qed.

Lemma set_box_ok bs box q r :
  (length q <= MAILBOX_CAPACITY)%nat → is_Some (boxes r !! box) → reg_ok bs r →
  reg_ok bs (MkRegistry (channels r) (<[box := q]> (boxes r)) (next_box r)).
Proof.
  intros Hq [q0 Hq0] [Hc Hb Hch Hi Hbs]. split; cbn; [done| |done|done|done].
  intros b q' [[<- <-]|[_ Hq']]%lookup_insert_Some; [|eauto]. split; [done|]. by eapply Hb.
Qed.

(** A state changes in place: its mailbox stays. *)
Lemma set_state_ok bs id s s' r :
  channels r !! id = Some s → mailbox s' = mailbox s → mailbox_rx s' = negb (started s') →
  (started s' = false → started s = false) → reg_ok bs r → reg_ok bs (set_state id s' r).
Proof.
  intros Hs Hm Hrx Hst [Hc Hb Hch Hi Hbs]. split; cbn.
  - rewrite map_size_insert_Some; [done|by exists s].
  - done.
  - intros ch x [[<- <-]|[_ Hx]]%lookup_insert_Some; [|eauto]. rewrite Hm.
    destruct (Hch _ _ Hs) as (? & _ & ?). split_and!; auto.
  - intros ch ch' x x' [[<- <-]|[Hne Hx]]%lookup_insert_Some [[<- <-]|[Hne' Hx']]%lookup_insert_Some Heq;
      [done|rewrite Hm in Heq; by eapply Hi|rewrite Hm in Heq; by eapply Hi|by eapply Hi].
  - done.
Qed.

Lemma try_open_ok bs id r : reg_ok bs r → reg_ok bs (try_open id max_channels r).2.
Proof.
  intros Hok. unfold try_open. destruct (max_channels <=? _) eqn:Hcap; [done|]. bool_to_prop.
  destruct Hok as [Hc Hb Hch Hi Hbs]. cbn. split; cbn.
  - pose proof (map_size_insert id (MkState None 0 false (next_box r) true) (channels r)) as Hsz.
    rewrite Hsz. destruct (channels r !! id); cbv beta delta [Datatypes.id]; lia.
  - intros b q [[<- <-]|[_ Hq]]%lookup_insert_Some; [split; [cbn; lia|lia]|].
    apply drop_state_sub in Hq. destruct (Hb _ _ Hq). split; [done|lia].
  - intros ch s [[<- <-]|[_ Hs]]%lookup_insert_Some; cbn.
    + split_and!; [lia|done|]. intros _ Hin. rewrite Forall_forall in Hbs. specialize (Hbs _ Hin). lia.
    + destruct (Hch _ _ Hs) as (? & ? & ?). split_and!; [lia|done|done].
  - intros ch ch' s s' [[<- <-]|[Hne Hx]]%lookup_insert_Some [[<- <-]|[Hne' Hx']]%lookup_insert_Some Heq; cbn in *.
    + done.
    + destruct (Hch _ _ Hx') as (? & _). lia.
    + destruct (Hch _ _ Hx) as (? & _). lia.
    + by eapply Hi.
  - eapply Forall_impl; [exact Hbs|]. intros b Hlt. cbn in *. lia.
Qed.

Lemma try_send_ok bs id event r : reg_ok bs r → reg_ok bs (try_send id event r).2.
Proof.
  intros Hok. unfold try_send. destruct (channels r !! id); [|done]. destruct (boxes r !! _) as [q|] eqn:Hq; [|done].
  destruct (Nat.ltb _ _) eqn:Hlen; [|done]. apply Nat.ltb_lt in Hlen. cbn.
  apply set_box_ok; [rewrite length_app; cbn; lia|by eexists|done].
Qed.

Lemma update_window_ok bs id rs cs r : reg_ok bs r → reg_ok bs (update_window id rs cs r).2.
Proof.
  intros Hok. unfold update_window. destruct (channels r !! id) as [s|] eqn:Hs; [|done].
  destruct (pty s); [|done]. destruct (_ && _); [done|]. destruct (u64_max <? _); [done|].
  by eapply set_state_ok; [exact Hs|done|apply (ro_channels _ _ Hok _ _ Hs)|done|].
Qed.

(** Starting takes a mailbox no operation had before. *)
Lemma start_ok bs id r b r' :
  reg_ok bs r → start id r = (b, r') →
  reg_ok (option_list b ++ bs) r' ∧ (∀ box, b = Some box → box ∉ bs).
Proof.
  intros Hok Hrun. unfold start in Hrun. destruct (channels r !! id) as [s|] eqn:Hs; [|by simplify_eq].
  destruct (started s) eqn:Hst; [by simplify_eq|]. destruct (ro_channels _ _ Hok _ _ Hs) as (Hlt & Hrx & Hnew).
  rewrite Hrx, Hst in Hrun. cbn in Hrun. injection Hrun as <- <-. specialize (Hnew Hst).
  split; [|by intros box [= <-]].
  assert (Hok' : reg_ok bs (set_state id (MkState (pty s) (window_revision s) true (mailbox s) false) r))
    by (by eapply set_state_ok).
  destruct Hok' as [Hc Hb Hch Hi Hbs]. cbn [option_list app]. split; [done|done| |done|by apply Forall_cons_2].
  intros ch x Hx. destruct (Hch _ _ Hx) as (? & ? & Hx'). split_and!; [done|done|]. intros Hxs [Heq|Hin]%elem_of_cons.
  - assert (ch = id) as -> by (eapply Hi; [exact Hx|cbn; apply lookup_insert_eq|exact Heq]).
    cbn in Hx. rewrite lookup_insert_eq in Hx. by simplify_eq.
  - by apply Hx'.
Qed.

(** ** Invariant of the connection *)

(** What a principal that chose a user name may start. *)
Definition permitted (p : Principal) (user : string) (op : operation) : Prop :=
  match op with
  | OpHost => user = "_" ∧ role p = Admin
  | OpSandbox id | OpDelete id => user ≠ "_" ∧ Id.parse user = Ok id
  | OpList => user = "_" → role p = Admin
  end.

Record inv (c : conn) : Prop := MkInv
  { iv_reg : reg_ok (begun c).*1 (reg c);
    iv_begun : NoDup (begun c).*1;
    iv_running : NoDup (running c).*2;
    iv_owned : ∀ b, b ∈ (running c).*2 → b ∈ (begun c).*1;
    iv_auth : ∀ b op, (b, op) ∈ begun c →
      ∃ p, principal c = Some p ∧ permitted p (default "" (username c)) op }.

Lemma conn_init : inv init.
Proof.
  split; cbn; [|constructor|constructor|set_solver|set_solver].
  split; cbn; [by rewrite map_size_empty|set_solver|set_solver|set_solver|constructor].
Qed.

Lemma inv_set_reg r c : inv c → reg_ok (begun c).*1 r → inv (set_reg r c).
Proof. intros [Hr Hb Hn Ho Ha] Hr'. by split. Qed.

Lemma inv_say channel l c : inv c → inv (say channel l c).
Proof. intros [Hr Hb Hn Ho Ha]. by split. Qed.

Lemma inv_remove channel c : inv c → inv (remove_channel channel c).
Proof. intros Hinv. apply inv_set_reg; [done|]. by apply remove_ok, iv_reg. Qed.

Lemma inv_drop_receiver box c : inv c → inv (drop_receiver box c).
Proof. intros Hinv. apply inv_set_reg; [done|]. by apply drop_box_ok, iv_reg. Qed.

#[local] Hint Resolve inv_say inv_remove inv_drop_receiver : channels.

(** A refused start changes nothing; another one begins an operation. *)
Lemma inv_start_none channel r c : inv c → start channel (reg c) = (None, r) → inv (set_reg r c).
Proof.
  intros Hinv Hrun. apply inv_set_reg; [done|]. exact (proj1 (start_ok _ _ _ _ _ (iv_reg _ Hinv) Hrun)).
Qed.

Lemma inv_begin channel box op r c p :
  inv c → start channel (reg c) = (Some box, r) → principal c = Some p →
  permitted p (default "" (username c)) op →
  inv (begin box op (set_reg r c)) ∧ box ∉ (running c).*2.
Proof.
  intros [Hr Hb Hn Ho Ha] Hrun Hp Hperm. destruct (start_ok _ _ _ _ _ Hr Hrun) as [Hr' Hnew].
  specialize (Hnew box eq_refl). split; [|intros Hin; by apply Hnew, Ho].
  split; cbn; [done|by apply NoDup_cons|done|set_solver|].
  intros b o [Heq|Hin]%elem_of_cons; [simplify_eq; by exists p|by eapply Ha].
Qed.

Lemma inv_publish notice channel box answer c :
  inv c → box ∈ (begun c).*1 → box ∉ (running c).*2 → inv (publish notice channel box answer c).
Proof.
  intros Hinv Hin Hnew. destruct answer; cbn [publish]; auto with channels.
  destruct Hinv as [Hr Hb Hn Ho Ha]. split; cbn; [done|done|by apply NoDup_cons|set_solver|done].
Qed.

Lemma route_permitted c target :
  route c = Some target →
  ∃ p, principal c = Some p ∧ permitted p (default "" (username c))
         (match target with RouteHost => OpHost | RouteSandbox id => OpSandbox id end).
Proof.
  unfold route. destruct (principal c) as [p|]; [|done]. intros Hr. exists p. split; [done|].
  repeat case_bool_decide; [by simplify_eq|done|]. destruct (Id.parse _) as [id|] eqn:Hid; by simplify_eq.
Qed.

Lemma inv_start_operation notice channel answer c : inv c → inv (start_operation notice channel answer c).
Proof.
  intros Hinv. unfold start_operation. destruct (route c) as [target|] eqn:Hr; [|auto with channels].
  destruct (route_permitted _ _ Hr) as (p & Hp & Hperm).
  destruct (start channel (reg c)) as [[box|] r] eqn:Hs; [|by eapply inv_say, inv_start_none].
  destruct (inv_begin _ _ _ _ _ _ Hinv Hs Hp Hperm) as [Hb Hnew]. apply inv_publish; [done|cbn; set_solver|done].
Qed.

Lemma inv_management notice channel op answer c :
  inv c → (∀ p, principal c = Some p → permitted p (default "" (username c)) op) →
  inv (management notice channel op answer c).
Proof.
  intros Hinv Hperm. unfold management, run_management, complete_management.
  destruct (has_pty channel (reg c)); [by auto with channels|].
  destruct (start channel (reg c)) as [[box|] r] eqn:Hs; [|by eapply inv_remove, inv_say, inv_start_none].
  destruct (principal c) as [p|] eqn:Hp.
  - destruct (inv_begin _ _ op _ _ _ Hinv Hs Hp (Hperm p eq_refl)) as [Hb _]. auto with channels.
  - apply inv_remove, inv_say, inv_drop_receiver, inv_set_reg; [done|].
    destruct (start_ok _ _ _ _ _ (iv_reg _ Hinv) Hs) as [[Hc Hb Hch Hi Hbs] _].
    split; [done|done| |done|by apply Forall_cons in Hbs as [_ ?]].
    intros ch x Hx. destruct (Hch _ _ Hx) as (? & ? & Hx'). split_and!; [done|done|]. set_solver.
Qed.

Lemma inv_subsystem notice channel name answer c : inv c → inv (subsystem_request notice channel name answer c).
Proof.
  intros Hinv. unfold subsystem_request. destruct (_ <? _); [auto with channels|].
  case_bool_decide; [|case_bool_decide; [|auto with channels]].
  - destruct (principal c) as [p|] eqn:Hp; [|auto with channels].
    destruct (bool_decide (default "" (username c) = "_") && _) eqn:Hg; [auto with channels|].
    apply inv_management; [done|]. rewrite Hp. intros p' [= <-] Hu. rewrite bool_decide_true in Hg by done.
    cbn in Hg. by apply negb_false_iff, bool_decide_eq_true in Hg.
  - case_bool_decide as Hu; [auto with channels|]. destruct (Id.parse _) as [id|] eqn:Hid; [|auto with channels].
    by apply inv_management.
Qed.

Lemma inv_window channel cs rs c : inv c → inv (window_change_request channel cs rs c).
Proof.
  intros Hinv. unfold window_change_request.
  pose proof (update_window_ok _ channel rs cs _ (iv_reg _ Hinv)) as Hu.
  destruct (update_window channel rs cs (reg c)) as [[revision|] r] eqn:Hw; cbn in Hu; [|by apply inv_set_reg].
  destruct (_ || _); [|by apply inv_set_reg].
  pose proof (try_send_ok _ channel (WindowChange rs cs revision) _ Hu) as Ht.
  destruct (try_send _ _ r) as [[] r']; cbn in Ht; [by apply inv_set_reg|]. apply inv_set_reg; [done|by apply remove_ok].
Qed.

(** Sending an event, whatever is done when the mailbox refuses it. *)
Lemma inv_try_send channel event c b r :
  inv c → try_send channel event (reg c) = (b, r) → inv (set_reg r c) ∧ inv (set_reg (remove channel r) c).
Proof.
  intros Hinv Hs. pose proof (try_send_ok _ channel event _ (iv_reg _ Hinv)) as Ht. rewrite Hs in Ht.
  split; apply inv_set_reg; [done|done|done|by apply remove_ok].
Qed.

Lemma conn_step notice c c' : step notice c c' → inv c → inv c'.
Proof.
  intros Hstep Hinv. destruct Hstep as [user p c Hp Hu|channel c|channel p c|channel answer c|channel bytes answer c
    |channel name answer c|channel cs rs c|channel name c|channel bytes c|channel c|channel c|channel c
    |channel box event rest c Hin Hbox|channel box before after c Hrun|c].
  - destruct Hinv as [Hr Hb Hn Ho Ha]. split; cbn; [done|done|done|done|].
    intros b op Hin. destruct (Ha b op Hin) as (p' & Hp' & _). congruence.
  - apply inv_set_reg; [done|]. by apply try_open_ok, iv_reg.
  - unfold pty_request. destruct (_ || _); [by apply inv_say|].
    destruct (channels (reg c) !! channel) as [s|] eqn:Hs; [|by apply inv_say].
    destruct (started s || _) eqn:Hst; [by apply inv_say|]. apply inv_say, inv_set_reg; [done|].
    eapply set_state_ok; [exact Hs|done|apply (ro_channels _ _ (iv_reg _ Hinv) _ _ Hs)|done|by apply iv_reg].
  - by apply inv_start_operation.
  - unfold exec_request. destruct (_ || _); [by apply inv_say|by apply inv_start_operation].
  - by apply inv_subsystem.
  - by apply inv_window.
  - unfold signal. destruct (Signals.signal_from_name name); [|by apply inv_say].
    destruct (try_send _ _ _) as [b r] eqn:Hs. destruct (inv_try_send _ _ _ _ _ Hinv Hs).
    destruct b; by apply inv_say.
  - unfold data, deliver. destruct (try_send _ _ _) as [b r] eqn:Hs. destruct (inv_try_send _ _ _ _ _ Hinv Hs).
    destruct b; [done|by apply (inv_say channel [Message MClose] (set_reg (remove channel r) c))].
  - unfold channel_eof, deliver. destruct (try_send _ _ _) as [b r] eqn:Hs. destruct (inv_try_send _ _ _ _ _ Hinv Hs).
    destruct b; [done|by apply (inv_say channel [Message MClose] (set_reg (remove channel r) c))].
  - unfold channel_close. destruct (channels (reg c) !! channel) as [s|]; [|by apply inv_remove].
    destruct (started s); [|by apply inv_remove].
    destruct (try_send _ _ _) as [b r] eqn:Hs. destruct (inv_try_send _ _ _ _ _ Hinv Hs). by destruct b.
  - by apply inv_say.
  - apply inv_set_reg; [done|]. apply set_box_ok; [|by eexists|by apply iv_reg].
    destruct (ro_boxes _ _ (iv_reg _ Hinv) _ _ Hbox) as [Hlen _]. cbn in Hlen. lia.
  - pose proof (inv_remove channel _ (inv_drop_receiver box _ Hinv)) as [Hr Hb Hn Ho Ha].
    cbn [remove_channel drop_receiver set_reg running begun] in *. rewrite Hrun in *.
    rewrite fmap_app in Hn. cbn in Hn. rewrite <-Permutation_middle in Hn. apply NoDup_cons in Hn as [_ Hn].
    split; cbn; [done|done|by rewrite fmap_app| |done]. intros b Hin. apply Ho. rewrite fmap_app in *. set_solver.
  - apply inv_set_reg; [done|]. by apply clear_ok, iv_reg.
Qed.

Lemma conn_reachable notice c : reachable notice c → inv c.
Proof.
  assert (Hsteps : ∀ x y, rtc (step notice) x y → inv x → inv y).
  { induction 1 as [|x y z Hstep _ IH]; [done|]. intros Hx. by apply IH, (conn_step notice x). }
  intros Hr. exact (Hsteps _ _ Hr conn_init).
Qed.

(** A synchronised window is the one the registry last showed: its size was applied
    and the next look found the same revision. *)
Lemma synchronized_window_is_current resize first snapshots revision :
  synchronize_window resize first snapshots = Some (Some revision) →
  (first = None ∧ revision = 0) ∨
  ∃ before p latest after, first :: snapshots = before ++ Some (p, revision) :: Some (latest, revision) :: after ∧
    resize (rows p) (cols p) = true.
Proof.
  destruct first as [[p rev]|]; cbn; [|intros [= <-]; by left]. intros Hrun. right.
  revert p rev Hrun. induction snapshots as [|[[latest rev']|] rest IH]; intros p rev Hrun; cbn in Hrun;
    destruct (resize (rows p) (cols p)) eqn:Hre; try done.
  destruct (rev' =? rev) eqn:Heq; bool_to_prop.
  - injection Hrun as <-. subst rev'. by exists [], p, latest, rest.
  - destruct (IH _ _ Hrun) as (before & p' & latest' & after & Hsplit & Hre').
    exists (Some (p, rev) :: before), p', latest', after. split; [cbn; by rewrite <-Hsplit|done].
Qed.

(** ** Theorems *)

(** C12: on every connection, whatever the client sends and however the bridges
    interleave, at most sixteen channels are open, no mailbox holds more than
    sixty-four events, no channel ever begins two operations (shells, commands,
    listings and deletions alike), and no two bridges share a mailbox. *)
Theorem channels_run_one_operation notice c :
  reachable notice c →
  Z.of_nat (size (channels (reg c))) <= max_channels ∧
  (∀ b q, boxes (reg c) !! b = Some q → (length q <= MAILBOX_CAPACITY)%nat) ∧
  NoDup (begun c).*1 ∧ NoDup (running c).*2 ∧ (∀ b, b ∈ (running c).*2 → b ∈ (begun c).*1) ∧
  (∀ ch s, channels (reg c) !! ch = Some s → started s = false → mailbox s ∉ (begun c).*1).
Proof.
  intros [Hr Hb Hn Ho _]%conn_reachable. split_and!; [apply (ro_cap _ _ Hr)| |done|done|done|].
  - intros b q Hq. exact (proj1 (ro_boxes _ _ Hr _ _ Hq)).
  - intros ch s Hs. exact (proj2 (proj2 (ro_channels _ _ Hr _ _ Hs))).
Qed.

(** C19: every operation a connection ever began was within the rights of its
    authenticated principal: host operations need an admin key and the host selector,
    sandbox operations the valid identifier that the user name spells, and listings
    under the host selector an admin key. *)
Theorem operations_are_authorized notice c b op :
  reachable notice c → (b, op) ∈ begun c →
  ∃ p, principal c = Some p ∧ permitted p (default "" (username c)) op.
Proof. intros Hr. by apply iv_auth, (conn_reachable notice). Qed.

(** C39: a second terminal operation on a channel that runs one is refused: a shell
    request only gets its failure reply.  A [list] request instead ends the running
    operation: the client is sent an error line, EOF, exit status 255 and the close
    on that channel, and the channel's state is dropped with the sender of the
    mailbox the running bridge waits on, so nothing more reaches the process. *)
Theorem second_list_ends_the_running_operation notice c channel s p answer launch :
  channels (reg c) !! channel = Some s → started s = true →
  principal c = Some p → (default "" (username c) = "_" → role p = Admin) →
  shell_request notice channel launch c = say channel [Failure] c ∧
  let c' := subsystem_request notice channel "list" answer c in
  out c' = out c ++ ((channel,.) <$> [Failure; Message (MExtended 1 notice); Message MEof;
                                     Message (MExitStatus UNAVAILABLE_EXIT); Message MClose]) ∧
  channels (reg c') !! channel = None ∧ running c' = running c ∧
  ∀ event, (try_send channel event (reg c')).1 = false.
Proof.
  intros Hs Hst Hp Hu.
  assert (Hstart : start channel (reg c) = (None, reg c)) by (unfold start; by rewrite Hs, Hst).
  assert (Hreg : set_reg (reg c) c = c) by by destruct c.
  split.
  { unfold shell_request, start_operation. destruct (route c); [|done]. by rewrite Hstart, Hreg. }
  assert (Hc : subsystem_request notice channel "list" answer c = complete_management notice channel None c).
  { unfold subsystem_request. cbn [str_len]. rewrite Hp.
    assert (Hg : bool_decide (default "" (username c) = "_") && negb (bool_decide (role p = Admin)) = false).
    { destruct (decide (default "" (username c) = "_")) as [He|He]; [|by rewrite bool_decide_false].
      by rewrite (bool_decide_true (role p = Admin)), andb_false_r by auto. }
    rewrite Hg. unfold management, run_management. rewrite Hstart, Hreg. by destruct (has_pty channel (reg c)). }
  cbn zeta. rewrite Hc. split_and!; [done|cbn; apply lookup_delete_eq|done|].
  intros event. unfold try_send. cbn. by rewrite lookup_delete_eq.
Qed.

(** ** Witnesses *)

Definition sample_admin : Principal := MkPrincipal "SHA256:a" Admin.

(** The admin opens a channel and starts a host shell. *)
Definition sample_shell : conn :=
  shell_request [] 3 Launched
    (channel_open_session 3 max_channels (MkConn (Some sample_admin) (Some "_") new [] [] [])).

Lemma sample_shell_reachable : reachable [] sample_shell.
Proof.
  eapply rtc_l; [exact (st_auth [] "_" sample_admin init eq_refl (fun _ => eq_refl))|].
  eapply rtc_l; [apply (st_open [] 3)|]. apply rtc_once. apply st_shell.
Qed.

Lemma channels_run_one_operation_witness : Z.of_nat (size (channels (reg sample_shell))) <= 16 ∧ NoDup (begun sample_shell).*1.
Proof.
  destruct (channels_run_one_operation [] _ sample_shell_reachable) as (Hc & _ & Hb & _). split; [exact Hc|exact Hb].
Defined.

Lemma operations_are_authorized_witness : ∃ p, principal sample_shell = Some p ∧ permitted p "_" OpHost.
Proof.
  apply (operations_are_authorized [] sample_shell 0 OpHost sample_shell_reachable).
  change (begun sample_shell) with [(0, OpHost)]. set_solver.
Defined.

Lemma second_list_ends_the_running_operation_witness :
  running (subsystem_request [] 3 "list" None sample_shell) = [(3, 0)] ∧
  channels (reg (subsystem_request [] 3 "list" None sample_shell)) !! 3 = None.
Proof.
  destruct (second_list_ends_the_running_operation [] sample_shell 3 (MkState None 0 true 0 false) sample_admin None Launched
    eq_refl eq_refl eq_refl ltac:(done)) as (_ & _ & Hs & Hr & _).
  split; [exact Hr|exact Hs].
Defined.
End Channels.
