(* ===== verification/ProcessControl.v ===== *)
(** * Control of one sandbox process ([platform/linux.rs], [LinuxProcessControl])

    What the manager and the bridge do to a running process: signals, resizes and
    the wait for its cleanup.  [kills] is the list of [kill(2)] calls, by their first
    argument. *)

From S2P Require Import Prelude ChannelBridge.

Module ProcessControl.
Import Signals.

Record control := MkControl
  { pid : Z; finished : bool; termination_requested : bool; lifecycle_fd : option Z;
    cleanup_complete : bool; kills : list (Z * Z) }.

Definition new (pid : Z) (fd : option Z) : control := MkControl pid false false fd false [].

Definition kill (target signal : Z) (c : control) : control :=
  MkControl (pid c) (finished c) (termination_requested c) (lifecycle_fd c) (cleanup_complete c)
    (kills c ++ [(target, signal)]).

(** [u32 as pid_t]. *)
Definition as_pid (z : Z) : Z := if z <? 2 ^ 31 then z else z - 2 ^ 32.

Definition kill_process_group (signal : Z) (c : control) : control :=
  if pid c <=? 1 then c else kill (- as_pid (pid c)) signal c.

Definition mark_cleanup_complete (c : control) : control :=
  MkControl (pid c) (finished c) (termination_requested c) None true (kills c).

(** [tcgetpgrp] is what the terminal answers for its foreground group. *)
Definition signal_target (tcgetpgrp : Z → Z) (number : Z) (c : control) : control :=
  if (pid c <=? 1) || finished c then c
  else
    let foreground := match lifecycle_fd c with
                      | Some fd => if 1 <? tcgetpgrp fd then Some (tcgetpgrp fd) else None
                      | None => None
                      end in
    kill (- default (as_pid (pid c)) foreground) number c.

Definition request (c : control) : control :=
  MkControl (pid c) (finished c) true (lifecycle_fd c) (cleanup_complete c) (kills c).

Definition terminate (c : control) : control :=
  if termination_requested c then request c else kill_process_group SIGTERM (request c).

Definition force_terminate (c : control) : control := kill_process_group SIGKILL (request c).

(** The zero size is ignored; without a terminal a resize fails. *)
Definition resize (apply_window_size : Z → Z → Z → bool) (rows cols : Z) (c : control) : bool :=
  if (rows =? 0) && (cols =? 0) then true
  else match lifecycle_fd c with Some fd => apply_window_size fd rows cols | None => false end.

Definition detach_transport (c : control) : control :=
  MkControl (pid c) (finished c) (termination_requested c) None (cleanup_complete c) (kills c).

(** [wait_for_cleanup_until]: what each wake-up of the condition variable finds, the
    deadline being reached when the list ends. *)
Fixpoint wait_for_cleanup_until (wakes : list bool) (complete : bool) : bool :=
  if complete then true
  else match wakes with [] => false | complete :: wakes => wait_for_cleanup_until wakes complete end.

Definition wait_for_cleanup (wakes : list bool) (c : control) : bool :=
  if cleanup_complete c then true else wait_for_cleanup_until wakes (cleanup_complete c).

(** [channel::wait_for_process_cleanup]: TERM, a grace, then KILL. *)
Definition wait_for_process_cleanup (grace : list bool) (c : control) : control :=
  let c := terminate c in
  if wait_for_cleanup grace c then c else force_terminate c.

Inductive step : control → control → Prop :=
| st_signal tcgetpgrp number c : step c (signal_target tcgetpgrp number c)
| st_terminate c : step c (terminate c)
| st_force c : step c (force_terminate c)
| st_detach c : step c (detach_transport c)
| st_cleanup c : step c (mark_cleanup_complete c)
| st_escalate grace c : step c (wait_for_process_cleanup grace c).

(** Every signal so far named a process group, and nothing sets [finished]. *)
Definition inv (p : Z) (c : control) : Prop :=
  pid c = p ∧ finished c = false ∧ Forall (fun k => k.1 < -1) (kills c).

Lemma inv_kill p target signal c : target < -1 → inv p c → inv p (kill target signal c).
Proof. intros Ht (Hp & Hf & Hk). split_and!; [done|done|]. by apply Forall_app_2; [|apply Forall_singleton]. Qed.

Lemma inv_group p signal c : p < 2 ^ 31 → inv p c → inv p (kill_process_group signal c).
Proof.
  intros Hlt Hinv. unfold kill_process_group. pose proof Hinv as (Hp & _). rewrite Hp.
  destruct (p <=? 1) eqn:Hle; [done|]. bool_to_prop. apply inv_kill; [|done].
  unfold as_pid. rewrite (proj2 (Z.ltb_lt _ _)) by done. lia.
Qed.

Lemma control_step p c c' : p < 2 ^ 31 → step c c' → inv p c → inv p c'.
Proof.
  intros Hlt Hstep Hinv. pose proof Hinv as (Hp & Hf & Hk).
  assert (Hterm : ∀ c, inv p c → inv p (terminate c)).
  { intros c0 (? & ? & ?). unfold terminate. destruct (termination_requested c0); [done|by apply inv_group]. }
  assert (Hforce : ∀ c, inv p c → inv p (force_terminate c)).
  { intros c0 (? & ? & ?). by apply inv_group. }
  destruct Hstep as [tcgetpgrp number c|c|c|c|c|grace c]; [|auto|auto|done|done|].
  - unfold signal_target. rewrite Hp, Hf. destruct (p <=? 1) eqn:Hle; [done|]. bool_to_prop. cbn [orb].
    apply inv_kill; [|done]. unfold as_pid. rewrite (proj2 (Z.ltb_lt p _)) by done.
    destruct (lifecycle_fd c) as [fd|]; cbn; [|lia]. destruct (1 <? tcgetpgrp fd) eqn:Hg; bool_to_prop; cbn; lia.
  - unfold wait_for_process_cleanup. destruct (wait_for_cleanup _ _); auto.
Qed.

Lemma control_steps p c c' : p < 2 ^ 31 → rtc step c c' → inv p c → inv p c'.
Proof. intros Hlt. induction 1 as [|x y z Hstep _ IH]; [done|]. intros Hx. apply IH. by eapply control_step. Qed.

(** Whatever is asked of a process's control and in whatever order, every signal
    it sends addresses one process group with a number above one, never the daemon's
    own group, [init] or every process; but the flag that should stop signals once
    the process has ended is never set, so a signal asked for after its cleanup is
    still sent to the group that had its number. *)
Theorem signals_outlive_the_process p fd c number :
  1 < p < 2 ^ 31 → rtc step (new p fd) c →
  Forall (fun k => k.1 < -1) (kills c) ∧ finished c = false ∧
  kills (signal_target (fun _ => 0) number (mark_cleanup_complete c)) = kills c ++ [(- p, number)].
Proof.
  intros Hp Hr. destruct (control_steps p _ _ ltac:(lia) Hr) as (Hpid & Hfin & Hk); [by split_and!; [| |constructor]|].
  split_and!; [done|done|]. unfold signal_target. cbn. rewrite Hpid, Hfin.
  rewrite (proj2 (Z.leb_gt p 1)) by lia. cbn. unfold as_pid. by rewrite (proj2 (Z.ltb_lt p _)) by lia.
Qed.

Lemma signals_outlive_the_process_witness :
  kills (signal_target (fun _ => 0) SIGHUP (mark_cleanup_complete (new 700 None))) = [(-700, SIGHUP)].
Proof.
  destruct (signals_outlive_the_process 700 None (new 700 None) SIGHUP ltac:(lia) (rtc_refl _ _)) as (_ & _ & Hk).
  exact Hk.
Defined.
End ProcessControl.
