(* ===== verification/CgroupPaths.v ===== *)
(** * Where the daemon's control group lies ([shbox-sandbox]: linux/cgroup.rs)

    The texts of [/proc/self/mountinfo] and [/proc/self/cgroup], the daemon's
    current control group in the mounted hierarchy, and the ancestors under which
    the engine may create groups.  A path is its list of components, which is what
    the source compares. *)

From S2P Require Import Prelude Text PathNames Toml Delegation.

Module CgroupPaths.

(** ** The mount table *)

(** One character of an octal number of [u32::from_str_radix(_, 8)]. *)
Definition octal_digit (c : Ascii.ascii) : option Z :=
  if in_range 48 55 c then Some (byte_val c - 48) else None.

(** [u32::from_str_radix(text, 8)] on three bytes: a sign may stand first. *)
Definition from_octal (a b c : Ascii.ascii) : option Z :=
  high ← (if byte_val a =? 43 then Some 0 else octal_digit a);
  mid ← octal_digit b;
  low ← octal_digit c;
  Some (high * 64 + mid * 8 + low).

(** [String::push] of [char::from_u32(value)] for a value below 512. *)
Definition push_char (value : Z) (s : string) : string :=
  if value <? 128 then String (byte_of value) s
  else String (byte_of (192 + value / 64)) (String (byte_of (128 + value mod 64)) s).

(** Octal escapes are decoded, the rest is copied.  The source copies a character
    at a time; the bytes of a character beyond ASCII are never a backslash, so
    copying bytes is the same. *)
Fixpoint unescape_mountinfo (field : string) : option string :=
  match field with
  | EmptyString => Some EmptyString
  | String a rest =>
      let copy := String a <$> unescape_mountinfo rest in
      if bool_decide (a = backslash_char) then
        match rest with
        | String x (String y (String z rest')) =>
            value ← from_octal x y z;
            push_char value <$> unescape_mountinfo rest'
        | _ => copy
        end
      else copy
  end.

(** [Iterator::position]. *)
Fixpoint position_of (word : string) (fields : list string) : option nat :=
  match fields with
  | [] => None
  | f :: rest => if bool_decide (f = word) then Some 0%nat else S <$> position_of word rest
  end.

(** The mount point and the root of the mounted tree, when the line is a mount of
    the unified hierarchy. *)
Definition parse_cgroup2_mountinfo_line (line : string) : option (string * string) :=
  let fields := split_whitespace line in
  separator ← position_of "-" fields;
  kind ← fields !! (separator + 1)%nat;
  if (separator <? 6)%nat || negb (bool_decide (kind = "cgroup2")) then None
  else
    mount_field ← fields !! 4%nat;
    mount_point ← unescape_mountinfo mount_field;
    root_field ← fields !! 3%nat;
    fs_root ← unescape_mountinfo root_field;
    Some (mount_point, fs_root).

(** [Iterator::find_map]. *)
Fixpoint find_map {A B} (f : A → option B) (l : list A) : option B :=
  match l with
  | [] => None
  | a :: rest => match f a with Some b => Some b | None => find_map f rest end
  end.

(** The two files of [/proc], when they could be read as text. *)
Definition cgroup2_mount (mountinfo : option string) : option (string * string) :=
  content ← mountinfo;
  find_map parse_cgroup2_mountinfo_line (lines content).

Definition current_cgroup_relative (cgroup : option string) : option string :=
  content ← cgroup;
  find_map (strip_prefix "0::") (lines content).

(** [Path::join], on components: an absolute path replaces the first. *)
Definition join (a b : list string) : list string :=
  match b with
  | first :: _ => if bool_decide (first = "/") then b else a ++ b
  | [] => a
  end.

(** The daemon's group in the mounted hierarchy; a view that cannot be mapped is
    taken to be the mount point itself. *)
Definition current_cgroup_path (cgroup mountinfo : option string) : option (list string) :=
  relative ← current_cgroup_relative cgroup;
  '(mount_point, fs_root) ← cgroup2_mount mountinfo;
  match Path.strip_components (Path.components fs_root) (Path.components relative) with
  | Some stripped =>
      Some (match stripped with
            | [] => Path.components mount_point
            | _ => join (Path.components mount_point) stripped
            end)
  | None => Some (Path.components mount_point)
  end.

(** ** Candidates *)

Definition paths_equal (left right : list string) : bool := bool_decide (left = right).

Definition starts_with_path (path prefix : list string) : bool :=
  match Path.strip_components prefix path with Some _ => true | None => false end.

Definition first_candidate (current hierarchy_root : list string) : list string :=
  if paths_equal current hierarchy_root then hierarchy_root
  else if starts_with_path current hierarchy_root then
    match Path.parent current with
    | Some parent => if starts_with_path parent hierarchy_root then parent else hierarchy_root
    | None => hierarchy_root
    end
  else hierarchy_root.

Definition next_candidate (candidate hierarchy_root : list string) : list string :=
  match Path.parent candidate with
  | Some parent => if starts_with_path parent hierarchy_root then parent else hierarchy_root
  | None => hierarchy_root
  end.

(** The loop, whose every turn shortens the candidate towards the root; it needs
    no more turns than the first candidate has components, and one. *)
Fixpoint candidates_go (fuel : nat) (candidate hierarchy_root : list string) : option (list (list string)) :=
  match fuel with
  | O => None
  | S fuel' =>
      if paths_equal candidate hierarchy_root then Some [candidate]
      else cons candidate <$> candidates_go fuel' (next_candidate candidate hierarchy_root) hierarchy_root
  end.

Definition auto_creation_parent_candidates (current hierarchy_root : list string) : list (list string) :=
  let candidate := first_candidate current hierarchy_root in
  default [] (candidates_go (S (length candidate)) candidate hierarchy_root).

(** ** The mount table is read back *)

(** What the kernel writes: the characters [escaped] as three octal digits after a
    backslash. *)
Definition push_octal (n : Z) (rest : string) : string :=
  String backslash_char
    (String (byte_of (48 + n / 64)) (String (byte_of (48 + n / 8 mod 8)) (String (byte_of (48 + n mod 8)) rest))).

Fixpoint mangle (escaped : Ascii.ascii → bool) (s : string) : string :=
  match s with
  | EmptyString => EmptyString
  | String a rest => (if escaped a then push_octal (byte_val a) else String a) (mangle escaped rest)
  end.

Definition ascii_bytes : list Ascii.ascii := map byte_of (seqZ 0 128).

Lemma ascii_bytes_complete c : byte_val c < 128 → c ∈ ascii_bytes.
Proof.
  intros Hc. apply list_elem_of_fmap. exists (byte_val c). split.
  - unfold byte_of, byte_val. by rewrite N2Z.id, Ascii.ascii_N_embedding.
  - apply elem_of_seqZ. unfold byte_val in *. lia.
Qed.

Lemma unescape_escape x y z rest :
  unescape_mountinfo (String backslash_char (String x (String y (String z rest))))
  = (value ← from_octal x y z; push_char value <$> unescape_mountinfo rest).
Proof. done. Qed.

Lemma octal_roundtrip c rest :
  byte_val c < 128 →
  unescape_mountinfo (push_octal (byte_val c) rest) = String c <$> unescape_mountinfo rest.
Proof.
  intros Hc%ascii_bytes_complete.
  assert (Hall : Forall (fun c =>
    match push_octal (byte_val c) EmptyString with
    | String b (String x (String y (String z EmptyString))) =>
        b = backslash_char ∧ from_octal x y z = Some (byte_val c) ∧
        push_char (byte_val c) EmptyString = String c EmptyString ∧ byte_val c <? 128 = true
    | _ => False
    end) ascii_bytes).
  { unfold ascii_bytes. apply Forall_fmap, Forall_forall. intros n Hn.
    repeat (apply elem_of_cons in Hn as [->|Hn]; [by vm_compute|]). by apply not_elem_of_nil in Hn. }
  pose proof (proj1 (Forall_forall _ _) Hall c Hc) as Hcase. clear Hall.
  unfold push_octal in *. destruct Hcase as (_ & Hoct & Hpush & Hlt).
  rewrite unescape_escape, Hoct.
  unfold push_char in *. cbn. rewrite Hlt in *. by injection Hpush as ->.
Qed.

Lemma mangle_roundtrip escaped s :
  escaped backslash_char = true → (∀ c, escaped c = true → byte_val c < 128) →
  unescape_mountinfo (mangle escaped s) = Some s.
Proof.
  intros Hback Hascii. induction s as [|c s IH]; [done|]. cbn [mangle].
  destruct (escaped c) eqn:Hc; [by rewrite octal_roundtrip, IH by auto|].
  assert (Hne : c ≠ backslash_char) by (intros ->; congruence).
  cbn [unescape_mountinfo]. rewrite bool_decide_false by done. by rewrite IH.
Qed.

(** A line of words with one space between them. *)
Fixpoint spaced (words : list string) : string :=
  match words with [] => EmptyString | w :: rest => " " +:+ w +:+ spaced rest end.
Definition line_of (first : string) (words : list string) : string := first +:+ spaced words.

Lemma split_spaced words fuel :
  Forall Delegation.word words → (S (length words) < fuel)%nat →
  split_whitespace_go fuel (spaced words) = words.
Proof.
  intros Hw; revert fuel; induction Hw as [|w words Hw Hws IH]; intros fuel Hf; cbn [length] in Hf.
  - by destruct fuel as [|fuel].
  - destruct words as [|w' words]; cbn [spaced].
    + rewrite str_app_nil_r. apply Delegation.split_whitespace_last; [done|lia].
    + rewrite Delegation.split_whitespace_cons by (done || lia). f_equal. apply IH. cbn [length] in *. lia.
Qed.

Lemma split_line first words :
  Delegation.word first → Forall Delegation.word words → (2 <= length words)%nat →
  split_whitespace (line_of first words) = first :: words.
Proof.
  intros Hf Hw H2. unfold split_whitespace, line_of. set (n := String.length _).
  assert (Hlen : ∀ ws, Forall Delegation.word ws → (2 * length ws <= String.length (spaced ws))%nat).
  { induction 1 as [|w ws [Hne _] _ IH]; cbn [spaced length]; [lia|]. rewrite !str_length_app.
    destruct w; [done|]. cbn. lia. }
  specialize (Hlen words Hw).
  transitivity (split_whitespace_go n (spaced (first :: words))).
  - cbn [spaced]. destruct n as [|k] eqn:Hn; cbn [split_whitespace_go].
    + exfalso. unfold n in Hn. rewrite str_length_app in Hn. destruct Hf as [Hne _]. by destruct first.
    + rewrite Delegation.trim_start_word by done. destruct Hf as [Hne Hg]. destruct first as [|c first]; [done|].
      cbn [str_all] in Hg. apply andb_true_iff in Hg as [Hc _]. rewrite str_app_cons.
      by rewrite Delegation.trim_start_graph.
  - apply split_spaced; [by constructor|]. unfold n. rewrite str_length_app.
    destruct Hf as [Hne _]. destruct first; [done|]. cbn [length String.length]. lia.
Qed.

(** The fields of a mount of the unified hierarchy, as the kernel writes them: the
    mount's and its parent's ID, the device, the root and the mount point, options,
    optional tags, and after the separator the type, the source and more options. *)
Record mount_line := MkMountLine
  { ml_id : string; ml_parent : string; ml_device : string; ml_root : string; ml_mount : string;
    ml_options : string; ml_tags : list string; ml_source : string; ml_super : string }.

Definition print_mount (escaped : Ascii.ascii → bool) (m : mount_line) : string :=
  line_of (ml_id m)
    ([ml_parent m; ml_device m; mangle escaped (ml_root m); mangle escaped (ml_mount m); ml_options m]
     ++ ml_tags m ++ ["-"; "cgroup2"; ml_source m; ml_super m]).

(** A field of the line: a visible ASCII word, and not the separator. *)
Definition field (w : string) : Prop := Delegation.word w ∧ w ≠ "-".

Definition printable_path (escaped : Ascii.ascii → bool) (p : string) : Prop :=
  starts_with "/" p = true ∧ str_all (fun c => Delegation.graph_char c || escaped c) p = true.

Definition well_formed (escaped : Ascii.ascii → bool) (m : mount_line) : Prop :=
  Forall field ([ml_id m; ml_parent m; ml_device m; ml_options m] ++ ml_tags m) ∧
  Delegation.word (ml_source m) ∧ Delegation.word (ml_super m) ∧
  printable_path escaped (ml_root m) ∧ printable_path escaped (ml_mount m).

Lemma octal_graph n : 0 <= n < 512 → Forall (fun d => Delegation.graph_char (byte_of (48 + d)) = true) [n / 64; n / 8 mod 8; n mod 8].
Proof.
  intros Hn. assert (Hd : ∀ d, 0 <= d < 8 → Delegation.graph_char (byte_of (48 + d)) = true).
  { intros d Hd. assert (Hin : d ∈ seqZ 0 8) by (apply elem_of_seqZ; lia).
    repeat (apply elem_of_cons in Hin as [->|Hin]; [by vm_compute|]). by apply not_elem_of_nil in Hin. }
  repeat apply Forall_cons_2; [..|constructor]; apply Hd.
  - split; [apply Z.div_pos; lia|apply Z.div_lt_upper_bound; lia].
  - apply Z.mod_pos_bound. lia.
  - apply Z.mod_pos_bound. lia.
Qed.

Lemma mangle_word escaped p :
  (∀ c, escaped c = true → byte_val c < 128) → printable_path escaped p → field (mangle escaped p).
Proof.
  intros Hascii [Hslash Hp]. destruct p as [|c p]; [done|]. split; [split|].
  - cbn [mangle]. by destruct (escaped c).
  - clear Hslash. induction (String c p) as [|a s IH]; [done|]. cbn [str_all] in Hp. cbn [mangle].
    apply andb_true_iff in Hp as [Ha Hs]. specialize (IH Hs). destruct (escaped a) eqn:He.
    + apply Hascii in He. assert (0 <= byte_val a) by (unfold byte_val; lia).
      pose proof (octal_graph (byte_val a) ltac:(lia)) as Ho. rewrite !Forall_cons in Ho.
      destruct Ho as (H1 & H2 & H3 & _). unfold push_octal. cbn [str_all]. by rewrite H1, H2, H3, IH.
    + cbn [str_all]. rewrite orb_false_r in Ha. by rewrite Ha, IH.
  - cbn [mangle]. destruct (escaped c); [done|]. intros Heq. by injection Heq as -> _.
Qed.

Lemma position_of_app word l1 l2 :
  Forall (λ w, w ≠ word) l1 → position_of word (l1 ++ word :: l2) = Some (length l1).
Proof.
  induction 1 as [|w l1 Hw Hl IH]; cbn; [by rewrite bool_decide_true|].
  rewrite bool_decide_false by done. by rewrite IH.
Qed.

(** C33: The mount table is read back as the kernel wrote it: for every mount of the unified
    hierarchy whose paths are visible text apart from the characters the kernel
    escapes, parsing the printed line gives the mount point and the mounted root
    byte for byte, whatever options and tags the line carries. *)
Theorem mountinfo_roundtrip escaped m :
  escaped backslash_char = true → (∀ c, escaped c = true → byte_val c < 128) →
  well_formed escaped m →
  parse_cgroup2_mountinfo_line (print_mount escaped m) = Some (ml_mount m, ml_root m).
Proof.
  intros Hback Hascii (Hfields & Hsource & Hsuper & Hroot & Hmount).
  apply Forall_app in Hfields as [Hfields Htags]. rewrite !Forall_cons in Hfields.
  destruct Hfields as (Hid & Hparent & Hdev & Hopts & _).
  pose proof (mangle_word _ _ Hascii Hroot) as Hr. pose proof (mangle_word _ _ Hascii Hmount) as Hm.
  unfold parse_cgroup2_mountinfo_line, print_mount.
  assert (Hdash : Delegation.word "-" ∧ Delegation.word "cgroup2") by (split; (split; [done|by vm_compute])).
  rewrite split_line; [|apply Hid| |rewrite length_app; cbn [length]; lia].
  2: { apply Forall_app. split; [repeat constructor; apply Hparent || apply Hdev || apply Hr || apply Hm || apply Hopts|].
       apply Forall_app. split; [eapply Forall_impl; [exact Htags|]; by intros ? [? _]|].
       repeat apply Forall_cons_2; [apply Hdash|apply Hdash|done|done|constructor]. }
  set (head := [ml_id m; ml_parent m; ml_device m; mangle escaped (ml_root m); mangle escaped (ml_mount m);
                ml_options m] ++ ml_tags m).
  set (tail := ["cgroup2"; ml_source m; ml_super m]).
  set (fields := ml_id m :: _). assert (Hsplit : fields = head ++ "-" :: tail).
  { done. }
  assert (Hpos : position_of "-" fields = Some (length head)).
  { rewrite Hsplit. apply position_of_app. unfold head. rewrite !Forall_app, !Forall_cons.
    split_and!; try apply Hid || apply Hparent || apply Hdev || apply Hr || apply Hm || apply Hopts; [constructor|].
    eapply Forall_impl; [exact Htags|]. by intros ? [_ ?]. }
  assert (Hkind : fields !! (length head + 1)%nat = Some "cgroup2").
  { rewrite Hsplit, lookup_app_r by lia. by replace (length head + 1 - length head)%nat with 1%nat by lia. }
  rewrite Hpos. cbn [mbind option_bind]. rewrite Hkind. cbn [mbind option_bind].
  rewrite (proj2 (Nat.ltb_ge _ _)) by (unfold head; rewrite length_app; cbn [length]; lia).
  cbn. by rewrite (mangle_roundtrip _ (ml_mount m)), (mangle_roundtrip _ (ml_root m)).
Qed.

Definition sample_mount : mount_line :=
  MkMountLine "34" "25" "0:29" "/" "/sys/fs/my group" "rw,nosuid" ["shared:9"] "cgroup2" "rw".
Definition seq_escaped (c : Ascii.ascii) : bool :=
  bool_decide (c ∈ [byte_of 32; byte_of 9; byte_of 10; backslash_char]).

Lemma mountinfo_roundtrip_witness :
  parse_cgroup2_mountinfo_line (print_mount seq_escaped sample_mount) = Some ("/sys/fs/my group", "/").
Proof.
  apply (mountinfo_roundtrip seq_escaped sample_mount).
  - by vm_compute.
  - intros c Hc. apply bool_decide_eq_true in Hc.
    repeat (apply elem_of_cons in Hc as [->|Hc]; [by vm_compute|]). by apply not_elem_of_nil in Hc.
  - unfold well_formed, printable_path, field, Delegation.word. cbn. rewrite !Forall_cons. by split_and!.
Defined.

(** White space the kernel does not escape still separates: a mount point with a
    form feed in its name is read only up to it. *)
Example unescaped_white_space_splits :
  parse_cgroup2_mountinfo_line
    ("34 25 0:29 / /sys/fs/a" +:+ String (byte_of 12) "b rw - cgroup2 cgroup2 rw") = Some ("/sys/fs/a", "/").
Proof. by vm_compute. Qed.


(** ** The candidates are the ancestors *)

Lemma starts_with_path_iff path prefix : starts_with_path path prefix = true ↔ prefix `prefix_of` path.
Proof.
  unfold starts_with_path. split.
  - destruct (Path.strip_components prefix path) as [rest|] eqn:Hs; [|done].
    intros _. exists rest. by apply Path.strip_components_Some.
  - intros [rest ->]. induction prefix as [|a prefix IH]; [done|]. cbn. by rewrite bool_decide_true.
Qed.

(** The candidates from [n] components more than the root down to the root. *)
Fixpoint ancestors_down (root suffix : list string) (n : nat) : list (list string) :=
  match n with
  | O => [root]
  | S n' => (root ++ take n suffix) :: ancestors_down root suffix n'
  end.

Lemma next_candidate_empty x : next_candidate [x] [] = [].
Proof.
  unfold next_candidate. destruct (Path.parent [x]) as [q|] eqn:Hp; [|done].
  apply Path.parent_Some in Hp as [n Hq]. symmetry in Hq.
  apply (app_inj_tail _ []) in Hq as [-> _]. done.
Qed.

Lemma next_candidate_shortens root suffix n :
  (n < length suffix)%nat → next_candidate (root ++ take (S n) suffix) root = root ++ take n suffix.
Proof.
  intros Hn. destruct (lookup_lt_is_Some_2 suffix n Hn) as [x Hx].
  rewrite (take_S_r _ _ x Hx), app_assoc.
  destruct (decide (root ++ take n suffix = [])) as [Hnil|Hne].
  - rewrite Hnil. apply app_eq_nil in Hnil as [-> _]. apply next_candidate_empty.
  - unfold next_candidate. rewrite Path.parent_snoc by done.
    rewrite (proj2 (starts_with_path_iff _ _)); [done|]. by apply prefix_app_r.
Qed.

Lemma candidates_go_spec root suffix n fuel :
  (n <= length suffix)%nat → (n < fuel)%nat →
  candidates_go fuel (root ++ take n suffix) root = Some (ancestors_down root suffix n).
Proof.
  revert fuel; induction n as [|n IH]; intros fuel Hn Hfuel; (destruct fuel as [|fuel]; [lia|]); cbn [candidates_go].
  - rewrite app_nil_r. unfold paths_equal. by rewrite bool_decide_true.
  - unfold paths_equal. rewrite bool_decide_false.
    + rewrite next_candidate_shortens, IH by lia. done.
    + intros Heq%(f_equal length). rewrite length_app, length_take in Heq. lia.
Qed.

Lemma first_candidate_spec current root :
  ∃ suffix, first_candidate current root = root ++ suffix ∧
    (suffix = [] ∨ ∃ leaf, current = root ++ suffix ++ [leaf]) ∧
    (∀ leaf rest, current = root ++ rest ++ [leaf] → suffix = rest).
Proof.
  unfold first_candidate, paths_equal. case_bool_decide as Heq.
  { exists []. rewrite app_nil_r. split_and!; [done|by left|]. subst. intros leaf rest Hl%(f_equal length).
    rewrite !length_app in Hl. cbn in Hl. lia. }
  fold (next_candidate current root). destruct (starts_with_path current root) eqn:Hs.
  2: { exists []. rewrite app_nil_r. split_and!; [done|by left|]. intros leaf rest ->.
       exfalso. rewrite (proj2 (starts_with_path_iff _ _)) in Hs; [done|]. by apply prefix_app_r. }
  apply starts_with_path_iff in Hs as [rest ->].
  destruct rest as [|leaf rest _] using rev_ind; [by rewrite app_nil_r in Heq|].
  rewrite app_assoc. exists rest. destruct (decide (root ++ rest = [])) as [Hnil|Hne].
  - apply app_eq_nil in Hnil as [-> ->]. split_and!; [apply next_candidate_empty|by left|].
    intros leaf' rest' [-> _]%(app_inj_tail [] rest'). done.
  - unfold next_candidate. rewrite Path.parent_snoc by done.
    rewrite (proj2 (starts_with_path_iff _ _)) by by apply prefix_app_r.
    split_and!; [done|right; exists leaf; by rewrite app_assoc|].
    intros leaf' rest'. rewrite app_assoc. intros [Hr _]%app_inj_tail. by apply app_inv_head in Hr.
Qed.

Lemma candidates_spec current root :
  ∃ suffix, first_candidate current root = root ++ suffix ∧
    auto_creation_parent_candidates current root = ancestors_down root suffix (length suffix).
Proof.
  destruct (first_candidate_spec current root) as (suffix & Hf & _). exists suffix. split; [done|].
  unfold auto_creation_parent_candidates. rewrite Hf.
  replace (root ++ suffix) with (root ++ take (length suffix) suffix) at 2 by (by rewrite take_ge by lia).
  rewrite candidates_go_spec; [done|lia|]. rewrite length_app. lia.
Qed.

Lemma elem_ancestors_down root suffix n p :
  (n <= length suffix)%nat →
  p ∈ ancestors_down root suffix n ↔ root `prefix_of` p ∧ p `prefix_of` root ++ take n suffix.
Proof.
  induction n as [|n IH]; intros Hn; cbn [ancestors_down].
  - rewrite app_nil_r, list_elem_of_singleton. split; [by intros ->|]. intros [H1 H2]. by apply (anti_symm prefix).
  - destruct (lookup_lt_is_Some_2 suffix n ltac:(lia)) as [x Hx]. rewrite elem_of_cons, IH by lia.
    rewrite (take_S_r _ _ x Hx), app_assoc. split.
    + intros [->|[H1 H2]]; [split; [|done]; rewrite <-app_assoc; by apply prefix_app_r|].
      split; [done|]. by apply prefix_app_r.
    + intros [H1 [rest Hrest]]. destruct rest as [|y rest _] using rev_ind.
      * left. by rewrite app_nil_r in Hrest.
      * right. split; [done|]. rewrite app_assoc in Hrest. apply app_inj_tail in Hrest as [Hr _].
        by exists rest.
Qed.

Lemma lookup_ancestors_down root suffix n i :
  (i <= n)%nat → ancestors_down root suffix n !! i = Some (root ++ take (n - i) suffix).
Proof.
  revert i; induction n as [|n IH]; intros [|i] Hi; cbn [ancestors_down]; [by rewrite app_nil_r|lia|done|].
  cbn. rewrite IH by lia. done.
Qed.

Lemma last_ancestors_down root suffix n : last (ancestors_down root suffix n) = Some root.
Proof.
  induction n as [|n IH]; [done|]. cbn [ancestors_down]. rewrite last_cons, IH. done.
Qed.

Lemma length_ancestors_down root suffix n : length (ancestors_down root suffix n) = S n.
Proof. induction n as [|n IH]; [done|]. cbn [ancestors_down length]. by rewrite IH. Qed.

Lemma elem_candidates current root p :
  p ∈ auto_creation_parent_candidates current root ↔
  p = root ∨ (root `prefix_of` p ∧ ∃ leaf, (p ++ [leaf]) `prefix_of` current).
Proof.
  destruct (candidates_spec current root) as (suffix & Hf & ->).
  destruct (first_candidate_spec current root) as (suffix' & Hf' & Hleaf & Huniq).
  rewrite Hf in Hf'. apply app_inv_head in Hf' as <-.
  rewrite elem_ancestors_down, take_ge by lia. split.
  - intros [H1 H2]. destruct Hleaf as [->|[leaf ->]].
    + left. rewrite app_nil_r in H2. by apply (anti_symm prefix).
    + right. split; [done|]. destruct H2 as [r Hr]. rewrite app_assoc, Hr, <-app_assoc.
      destruct r as [|x r]; [exists leaf|exists x]; by apply prefix_app, prefix_cons, prefix_nil || done.
  - intros [->|[[a ->] (leaf & b & Hb)]]; [split; [done|by apply prefix_app_r]|].
    split; [by apply prefix_app_r|]. apply prefix_app.
    destruct (exists_last (l := [leaf] ++ b)) as (front & x & Hx); [done|].
    rewrite <-!app_assoc, Hx, (app_assoc a) in Hb. apply Huniq in Hb as ->. by apply prefix_app_r.
Qed.

(** Discovering a parent group tries the right places in the right order: whatever
    the daemon's group and the hierarchy's root, the candidates are exactly the
    directories of the hierarchy that contain the daemon's group strictly (the root
    alone when the daemon is at the root or outside the hierarchy), each the parent of
    the one before it, ending at the root.  In particular the daemon's own group, which
    has members, is not tried unless it is the root. *)
Theorem candidates_are_the_ancestors current root :
  let candidates := auto_creation_parent_candidates current root in
  (∀ p, p ∈ candidates ↔
     p = root ∨ (root `prefix_of` p ∧ ∃ leaf, (p ++ [leaf]) `prefix_of` current)) ∧
  last candidates = Some root ∧
  (∀ i p q, candidates !! i = Some p → candidates !! S i = Some q → ∃ name, p = q ++ [name]) ∧
  (current ≠ root → current ∉ candidates).
Proof.
  cbn zeta. split_and!; [apply elem_candidates|..].
  - destruct (candidates_spec current root) as (suffix & _ & ->). apply last_ancestors_down.
  - destruct (candidates_spec current root) as (suffix & _ & ->). intros i p q Hp Hq.
    pose proof (lookup_lt_Some _ _ _ Hq) as Hi. rewrite length_ancestors_down in Hi.
    rewrite lookup_ancestors_down in Hp, Hq by lia. injection Hp as <-. injection Hq as <-.
    replace (length suffix - i)%nat with (S (length suffix - S i)) by lia.
    destruct (lookup_lt_is_Some_2 suffix (length suffix - S i) ltac:(lia)) as [x Hx].
    exists x. by rewrite (take_S_r _ _ x Hx), app_assoc.
  - intros Hne [?|[_ [leaf Hl%prefix_length]]]%elem_candidates; [done|].
    rewrite length_app in Hl. cbn in Hl. lia.
Qed.

End CgroupPaths.
