(* ===== verification/ControlGroups.v ===== *)
(** * Control groups ([shbox-sandbox]: linux/cgroup.rs, linux/mod.rs)

    The groups the Linux engine confines sandboxes in: finding a parent group whose
    controllers can be distributed, creating a group with its limits, watching its
    membership, removing it when it is empty, and reclaiming at start-up the groups a
    previous daemon left.  The kernel answers each call as the class
    [CgroupKernel] says, at the time of the call; the changes it made are recorded
    with their time. *)

From S2P Require Import Prelude Text PathNames Toml SocketAddr Endpoint FileSystem RuntimeLedger Manager EnginePolicy LaunchPolicy Delegation CgroupPaths.

Module Cgroups.
Import Engine CgroupPaths.

Definition EINTR : Z := 4.
Definition PROCESS_DOMAIN_PREFIX : string := "shbox-domain-".

(** Controllers a [ResourceLimits] needs enabled on the creation parent. *)
Definition needed_controllers (limits : ResourceLimits) : list string :=
  (if requires_own_cgroup (lim_memory_bytes limits) || requires_own_cgroup (lim_swap_bytes limits)
   then ["memory"] else [])
  ++ (if requires_own_cgroup (lim_cpu_max limits) then ["cpu"] else [])
  ++ (if requires_own_cgroup (lim_pids limits) then ["pids"] else []).

(** ** The kernel *)

(** A directory, by the path it was opened with or as a child of another. *)
Inductive cdir :=
| AtPath (components : list string)
| Child (parent : cdir) (name : string).

#[global] Instance cdir_eq_dec : EqDecision cdir.
Proof. solve_decision. Defined.

(** What a call changed. *)
Inductive action :=
| Mkdir (parent : cdir) (name : string)
| Rmdir (parent : cdir) (name : string)
| Control (dir : cdir) (file value : string).

#[global] Instance action_eq_dec : EqDecision action.
Proof. solve_decision. Defined.

Class CgroupKernel := {
  (** A file of [/proc] as text, when it can be read. *)
  proc_text_at : nat → string → option string;
  (** [open(2)] of a directory by its path, [openat(2)] below an open directory,
      and duplicating a descriptor. *)
  open_path_at : nat → list string → result io_error unit;
  openat_at : nat → cdir → string → result io_error unit;
  dup_at : nat → cdir → result io_error unit;
  mkdirat_at : nat → cdir → string → result io_error unit;
  rmdirat_at : nat → cdir → string → result io_error unit;
  (** The bytes of a control file, read from its beginning through a new or an open
      descriptor, and writing one. *)
  read_at : nat → cdir → string → result io_error string;
  pread_at : nat → cdir → string → result io_error string;
  write_at : nat → cdir → string → string → result io_error unit;
  (** [poll(2)] for at most so many milliseconds. *)
  poll_at : nat → cdir → Z → result io_error unit;
  (** A directory's entries up to the end, or up to a failure with its [errno]. *)
  readdir_at : nat → cdir → result io_error (list string * option Z);
  (** [st_mode], without following a symbolic link. *)
  mode_at : nat → cdir → string → option Z;
  (** Eight bytes of [/dev/urandom], as one number. *)
  urandom_at : nat → result io_error Z;
  (** The monotonic clock, in nanoseconds. *)
  now_at : nat → Z;
  now_advances : ∀ t, now_at t < now_at (S t) }.

(** Calls made so far, the probes' counter, and the changes with their times. *)
Record cstate := MkCgState { cg_clock : nat; cg_serial : Z; cg_log : list (nat * action) }.

(** The text before the first NUL: what a C string built from [name] denotes. *)
Fixpoint c_str (name : string) : string :=
  match name with
  | EmptyString => EmptyString
  | String c rest => if byte_val c =? 0 then EmptyString else String c (c_str rest)
  end.

(** Run [m], and on an error the cleanup: the drop of a local whose scope an early
    return leaves. *)
Definition cleanup_on_error {S E E' A} (cleanup : M S E' unit) (m : M S E A) : M S E A := fun s =>
  match m s with
  | (Ok a, s') => (Ok a, s')
  | (Err e, s') => (Err e, (cleanup s').2)
  end.

(** A loop of at most [2 ^ k] turns that ends when its body returns a value. *)
Fixpoint repeat_until {S E A} (k : nat) (body : M S E (option A)) : M S E (option A) :=
  match k with
  | O => body
  | S k' =>
      r ← repeat_until k' body;
      match r with Some _ => mret r | None => repeat_until k' body end
  end.

Section loops.
Context {S E A : Type} (body : M S E (option A)).

(** What holds before every turn holds before the last one, or after them all. *)
Lemma repeat_last (I : S → Prop) k s r s' :
  (∀ s1 s2, I s1 → body s1 = (Ok None, s2) → I s2) → I s → repeat_until k body s = (r, s') →
  I s' ∧ r = Ok None ∨ r ≠ Ok None ∧ ∃ s0, I s0 ∧ body s0 = (r, s').
Proof.
  intros Hkeep. revert s r s'; induction k as [|k IH]; intros s r s' Hs; cbn [repeat_until].
  { intros Hr. destruct r as [[a|]|e]; [right; naive_solver| |right; naive_solver]. left. by eauto. }
  intros Hr. apply bind_inv in Hr as [(o & s1 & H1 & Hr)|(e & H1 & ->)].
  - apply IH in H1 as [[Hs1 H1]|[Hne Hlast]]; [| |done].
    + injection H1 as ->. by eapply IH.
    + destruct o as [a|]; [|done]. injection Hr as <- <-. by right.
  - apply IH in H1 as [[_ H1]|[_ Hlast]]; [done| |done]. by right.
Qed.

(** All the turns of a loop in which a quantity grows with every turn, and is within a
    limit before each. *)
Lemma repeat_all (f : S → Z) limit k s s' :
  (∀ s1 s2, body s1 = (Ok None, s2) → f s1 <= limit ∧ f s1 < f s2) → repeat_until k body s = (Ok None, s') →
  f s + (2 ^ Z.of_nat k - 1) <= limit ∧ f s + 2 ^ Z.of_nat k <= f s'.
Proof.
  intros Hturn. revert s s'; induction k as [|k IH]; intros s s'; cbn [repeat_until].
  { intros Hr%Hturn. cbn. lia. }
  intros Hr. apply bind_Ok in Hr as ([b|] & s1 & H1 & Hr); [done|]. apply IH in H1, Hr.
  rewrite Nat2Z.inj_succ, Z.pow_succ_r by lia.
  assert (0 < 2 ^ Z.of_nat k) by (apply Z.pow_pos_nonneg; lia). lia.
Qed.
End loops.

Section calls.
Context `{CgroupKernel}.

Definition ask {E A} (f : nat → A) : M cstate E A := fun s =>
  (Ok (f (cg_clock s)), MkCgState (S (cg_clock s)) (cg_serial s) (cg_log s)).

Definition attempt {A} (f : nat → result io_error A) : M cstate io_error A := fun s =>
  (f (cg_clock s), MkCgState (S (cg_clock s)) (cg_serial s) (cg_log s)).

Definition act (a : action) (f : nat → result io_error unit) : M cstate io_error unit := fun s =>
  let r := f (cg_clock s) in
  (r, MkCgState (S (cg_clock s)) (cg_serial s)
        (if is_ok r then cg_log s ++ [(cg_clock s, a)] else cg_log s)).

Definition mkdirat (d : cdir) (name : string) : M cstate io_error unit :=
  act (Mkdir d (c_str name)) (fun t => mkdirat_at t d (c_str name)).

Definition unlink_directory (d : cdir) (name : string) : M cstate io_error unit :=
  if has_nul name then fail (IoOther "cgroup name contains NUL")
  else act (Rmdir d name) (fun t => rmdirat_at t d name).

(** The names of control files are literals without NUL. *)
Definition write_control (d : cdir) (name value : string) : M cstate io_error unit :=
  act (Control d name value) (fun t => write_at t d name value).

Definition read_control (d : cdir) (name : string) : M cstate io_error string :=
  content ← attempt (fun t => read_at t d name);
  if utf8_valid content then mret content else fail (IoOther "stream did not contain valid UTF-8").

Definition open_control_read (d : cdir) (name : string) : M cstate io_error unit :=
  attempt (fun t => openat_at t d name).

(** A buffer of 256 bytes takes the beginning of the file. *)
Definition read_fd_pread (d : cdir) (name : string) : M cstate io_error string :=
  content ← attempt (fun t => pread_at t d name);
  mret (from_utf8_lossy (str_take 256 content)).

End calls.

(** ** Text *)

Section text.
Context (printable : Z → bool).

(** [Debug] of a path or an [OsStr], which escapes the apostrophe too. *)
Fixpoint debug_os_go (fuel : nat) (s : string) : string :=
  match fuel, s with
  | _, EmptyString => EmptyString
  | O, _ => EmptyString
  | S fuel', _ =>
      let n := (utf8_next s).2 in
      (if utf8_scalar s =? 39 then String backslash_char (String (byte_of 39) EmptyString)
       else escape_char printable s n) +:+ debug_os_go fuel' (str_drop n s)
  end.
Definition debug_os_str (s : string) : string :=
  String quote_char (debug_os_go (String.length s) s) +:+ String quote_char EmptyString.

Definition debug_path (p : list string) : string := debug_os_str (Policy.path_of_components p).

(** [Debug] of a slice of strings. *)
Definition debug_list (l : list string) : string := "[" +:+ Net.join ", " (map (debug_str printable) l) +:+ "]".

(** The authoritative [populated] line; missing or malformed state is an error. *)
Fixpoint populated_of_lines (ls : list string) : result io_error bool :=
  match ls with
  | [] => Err (IoOther "cgroup.events did not contain populated state")
  | line :: rest =>
      match strip_prefix "populated " (trim line) with
      | None => populated_of_lines rest
      | Some value =>
          if bool_decide (value = "0") then Ok false
          else if bool_decide (value = "1") then Ok true
          else Err (IoOther ("invalid cgroup.events populated value " +:+ debug_str printable value))
      end
  end.
Definition populated_from_events (events : string) : result io_error bool := populated_of_lines (lines events).

End text.

(** ** Groups *)

Record Cgroup := MkCgroup { cg_dir : cdir; cg_parent : cdir; cg_name : string; cg_removed : bool }.

Record ResolvedParent := MkResolved { rp_dir : cdir; rp_path : list string }.

Section groups.
Context `{CgroupKernel} `{Host} (printable : Z → bool).

Definition kill_all (c : Cgroup) : M cstate io_error unit := write_control (cg_dir c) "cgroup.kill" "1".

Definition is_populated (c : Cgroup) : M cstate io_error bool :=
  events ← read_control (cg_dir c) "cgroup.events";
  liftR (populated_from_events printable events).

(** What an open descriptor of the events says now. *)
Definition events_populated (d : cdir) : M cstate io_error bool :=
  events ← read_fd_pread d "cgroup.events";
  liftR (populated_from_events printable events).

Definition POLL_SLICE : Z := 50000000.

(** One turn of the loop of [wait_until_empty]; no value means another turn. *)
Definition wait_turn (d : cdir) (deadline : Z) : M cstate io_error (option bool) :=
  populated ← events_populated d;
  if negb populated then mret (Some true)
  else
    now ← ask now_at;
    if deadline <? now then mret (Some false)
    else
      let slice := Z.min (deadline - now) POLL_SLICE in
      ready ← tryM (attempt (fun t => poll_at t d (slice / 1000000)));
      match ready with
      | Err error => if errno_is error EINTR then mret None else fail error
      | Ok _ => _ ← read_fd_pread d "cgroup.events"; mret None
      end.

(** [2 ^ 96] turns are more than any [Duration] has nanoseconds; see
    [wait_ends]. *)
Definition WAIT_TURNS : nat := 96.

Definition wait_until_empty (c : Cgroup) (timeout : Z) : M cstate io_error bool :=
  start ← ask now_at;
  let deadline := start + timeout in
  _ ← open_control_read (cg_dir c) "cgroup.events";
  populated ← events_populated (cg_dir c);
  if negb populated then mret true
  else
    ended ← repeat_until WAIT_TURNS (wait_turn (cg_dir c) deadline);
    match ended with
    | Some empty => mret empty
    | None => fail (IoOther "unreachable: the wait has no end")
    end.

(** Refuses while the group is populated, or may be; [ENOENT] counts as removed.
    Returns the handle with what it knows. *)
Definition remove_empty (c : Cgroup) : M cstate io_error Cgroup :=
  if cg_removed c then mret c
  else
    populated ← tryM (is_populated c);
    if match populated with Ok p => p | Err _ => true end
    then fail (IoOther "sandbox cgroup still contains processes")
    else
      let removed := MkCgroup (cg_dir c) (cg_parent c) (cg_name c) true in
      unlinked ← tryM (unlink_directory (cg_parent c) (cg_name c));
      match unlinked with
      | Ok _ => mret removed
      | Err error => if errno_is error ENOENT then mret removed else fail error
      end.

Definition drop_cgroup {E} (c : Cgroup) : M cstate E unit :=
  if cg_removed c then mret tt else _ ← tryM (remove_empty c); mret tt.

(** An armed [CgroupDirectoryGuard] going out of scope. *)
Definition drop_guard {E} (parent : cdir) (name : string) : M cstate E unit :=
  _ ← tryM (unlink_directory parent name); mret tt.

Definition descriptor (parent : ResolvedParent) : M cstate SandboxError cdir :=
  _ ← mapE (fun error => EngineIo (IoOther (io_display error))) (attempt (fun t => dup_at t (rp_dir parent)));
  mret (rp_dir parent).

Definition open_directory (parent : cdir) (name : string) : M cstate SandboxError cdir :=
  opened ← tryM (attempt (fun t => openat_at t parent (c_str name)));
  match opened with
  | Ok _ => mret (Child parent (c_str name))
  | Err error =>
      fail (Unsupported "cgroup-v2"
              ("sandbox cgroup " +:+ debug_str printable name +:+ " could not be opened: " +:+ io_display error))
  end.

Definition write_limit (c : Cgroup) (file value : string) : M cstate SandboxError unit :=
  mapE (fun error => Unsupported "cgroup-v2"
          ("cgroup control file " +:+ file +:+ " rejected the policy: " +:+ io_display error))
    (write_control (cg_dir c) file value).

Definition apply_limits (c : Cgroup) (limits : ResourceLimits) : M cstate SandboxError unit :=
  _ ← match lim_memory_bytes limits with
      | Value bytes => write_limit c "memory.max" (fmt_dec bytes)
      | Unlimited => write_limit c "memory.max" "max"
      | Inherit => mret tt
      end;
  _ ← match lim_swap_bytes limits with
      | Value bytes => write_limit c "memory.swap.max" (fmt_dec bytes)
      | Unlimited => write_limit c "memory.swap.max" "max"
      | Inherit => mret tt
      end;
  _ ← match lim_pids limits with
      | Value count => write_limit c "pids.max" (fmt_dec count)
      | Unlimited => write_limit c "pids.max" "max"
      | Inherit => mret tt
      end;
  match lim_cpu_max limits with
  | Value cpu => write_limit c "cpu.max" (fmt_dec (quota_us cpu) +:+ " " +:+ fmt_dec (period_us cpu))
  | Unlimited => write_limit c "cpu.max" "max 100000"
  | Inherit => mret tt
  end.

(** What follows a successful [mkdirat]: the guard is armed until the limits hold. *)
Definition configure_cgroup (parent : ResolvedParent) (limits : ResourceLimits) (candidate : string)
    : M cstate SandboxError Cgroup :=
  cleanup_on_error (drop_guard (E := SandboxError) (rp_dir parent) candidate)
    (dir ← open_directory (rp_dir parent) candidate;
     parent_copy ← descriptor parent;
     let cgroup := MkCgroup dir parent_copy candidate false in
     _ ← cleanup_on_error (drop_cgroup (E := SandboxError) cgroup) (apply_limits cgroup limits);
     mret cgroup).

Definition candidate_name (name : string) (attempt : Z) : string :=
  if attempt =? 0 then name else name +:+ "-" +:+ fmt_dec attempt.

Fixpoint create_attempts (left : nat) (attempt : Z) (parent : ResolvedParent) (limits : ResourceLimits)
    (name : string) : M cstate SandboxError Cgroup :=
  match left with
  | O => fail (Unsupported "cgroup-v2" "sandbox cgroup names collided; retry the spawn")
  | S left' =>
      let candidate := candidate_name name attempt in
      made ← tryM (mkdirat (rp_dir parent) candidate);
      match made with
      | Ok _ => configure_cgroup parent limits candidate
      | Err error =>
          if errno_is error EEXIST then create_attempts left' (attempt + 1) parent limits name
          else fail (Unsupported "cgroup-v2"
                       ("sandbox cgroup could not be created under "
                          +:+ Policy.path_of_components (rp_path parent) +:+ ": " +:+ io_display error))
      end
  end.

Definition create_cgroup_under (parent : ResolvedParent) (limits : ResourceLimits)
    (name_prefix random_suffix : string) : M cstate SandboxError Cgroup :=
  create_attempts 8 0 parent limits (name_prefix +:+ random_suffix).

Definition create_process_domain_cgroup_under (parent : ResolvedParent) (limits : ResourceLimits)
    (random_suffix : string) : M cstate SandboxError Cgroup :=
  create_cgroup_under parent limits PROCESS_DOMAIN_PREFIX random_suffix.

(** ** Start-up *)

Definition entry_is_directory (d : cdir) (name : string) : M cstate SandboxError bool :=
  if has_nul name then mret false
  else
    mode ← ask (fun t => mode_at t d name);
    mret (match mode with Some m => is_directory m | None => false end).

(** A name the engine owns: valid text with the reserved prefix. *)
Definition owned_name (name : string) : bool := utf8_valid name && starts_with PROCESS_DOMAIN_PREFIX name.

Fixpoint owned_entries (d : cdir) (entries : list string) : M cstate SandboxError (list string) :=
  match entries with
  | [] => mret []
  | name :: rest =>
      if bool_decide (name = ".") || bool_decide (name = "..") then owned_entries d rest
      else
        is_owned_dir ← (if owned_name name then entry_is_directory d name else mret false);
        names ← owned_entries d rest;
        mret (if is_owned_dir : bool then name :: names else names)
  end.

Definition owned_directory_names (d : cdir) : M cstate SandboxError (list string) :=
  listing ← mapE EngineIo (attempt (fun t => readdir_at t d));
  names ← owned_entries d listing.1;
  match listing.2 with
  | Some errno => fail (EngineIo (Errno errno))
  | None => mret names
  end.

Definition open_existing_cgroup (parent : ResolvedParent) (name : string) : M cstate SandboxError Cgroup :=
  if utf8_valid name then
    dir ← open_directory (rp_dir parent) name;
    parent_copy ← descriptor parent;
    mret (MkCgroup dir parent_copy name false)
  else fail (InvalidPolicy "cgroup_name" "owned cgroup name is not valid UTF-8").

Definition RECONCILE_TIMEOUT : Z := 5 * 1000000000.

(** The group of one stale domain: killed, waited for, removed. *)
Definition reclaim (name : string) (cgroup : Cgroup) : M cstate SandboxError Cgroup :=
  cleanup_on_error (drop_cgroup (E := SandboxError) cgroup)
    (_ ← mapE EngineIo (kill_all cgroup);
     empty ← mapE EngineIo (wait_until_empty cgroup RECONCILE_TIMEOUT);
     if negb empty
     then fail (EngineIo (IoOther ("stale process domain " +:+ debug_os_str printable name +:+ " did not empty")))
     else mapE EngineIo (remove_empty cgroup)).

Fixpoint reconcile_names (parent : ResolvedParent) (names : list string) (removed : Z)
    : M cstate SandboxError Z :=
  match names with
  | [] => mret removed
  | name :: rest =>
      cgroup ← open_existing_cgroup parent name;
      cgroup' ← reclaim name cgroup;
      _ ← drop_cgroup (E := SandboxError) cgroup';
      reconcile_names parent rest (removed + 1)
  end.

Definition reconcile_process_domain_cgroups (parent : ResolvedParent) : M cstate SandboxError Z :=
  names ← owned_directory_names (rp_dir parent);
  reconcile_names parent names 0.

(** ** A parent for new groups *)

(** A scratch group is made and removed; its name is unique in the process. *)
Definition probe_writable (d : cdir) : M cstate io_error unit := fun s =>
  let serial := cg_serial s in
  let s := MkCgState (cg_clock s) (wrap_u64 (serial + 1)) (cg_log s) in
  let name := "probe-" +:+ fmt_dec pid +:+ "-" +:+ fmt_dec serial in
  (_ ← mkdirat d name;
   cleanup_on_error (drop_guard (E := io_error) d name) (unlink_directory d name)) s.

(** One candidate: the parent, or why it is not usable. *)
Definition try_candidate (is_hierarchy_root : bool) (needed : list string) (candidate : list string)
    : M cstate string ResolvedParent :=
  let why := fun reason => debug_path printable candidate +:+ ": " +:+ reason in
  _ ← mapE (fun error => why (io_display error)) (attempt (fun t => open_path_at t candidate));
  let dir := AtPath candidate in
  _ ← (if is_hierarchy_root then mret tt
       else
         processes ← mapE (fun error => why ("cgroup.procs could not be read: " +:+ io_display error))
                       (read_control dir "cgroup.procs");
         if bool_decide (trim processes = "") then mret tt
         else fail (why "cgroup contains member processes and cannot distribute controllers"));
  available ← tryM (read_control dir "cgroup.controllers");
  let available := split_whitespace (match available with Ok text => text | Err _ => "" end) in
  let missing := filter (λ c, c ∉ available) needed in
  _ ← (if bool_decide (missing = []) then mret tt
       else fail (why ("controllers " +:+ debug_list printable missing +:+ " are not available")));
  enabled ← tryM (read_control dir "cgroup.subtree_control");
  let enabled := split_whitespace (match enabled with Ok text => text | Err _ => "" end) in
  let to_enable := filter (λ c, c ∉ enabled) needed in
  let value := Net.join " " (map (fun c => "+" +:+ c) to_enable) in
  _ ← (if bool_decide (to_enable = []) then mret tt
       else mapE (fun error => why ("enabling " +:+ value +:+ " in cgroup.subtree_control failed: "
                                      +:+ io_display error))
              (write_control dir "cgroup.subtree_control" value));
  _ ← mapE (fun error => why (io_display error)) (probe_writable dir);
  mret (MkResolved dir candidate).

Fixpoint try_candidates (global_root : option (list string)) (needed : list string)
    (candidates : list (list string)) (last_error : string) : M cstate SandboxError ResolvedParent :=
  match candidates with
  | [] =>
      fail (Unsupported "cgroup-v2"
              ("no usable cgroup v2 parent for controllers " +:+ debug_list printable needed
                 +:+ "; configure a delegated cgroup parent. Last attempt: " +:+ last_error))
  | candidate :: rest =>
      let is_hierarchy_root :=
        match global_root with Some root => paths_equal root candidate | None => false end in
      tried ← tryM (try_candidate is_hierarchy_root needed candidate);
      match tried with
      | Ok parent => mret parent
      | Err error => try_candidates global_root needed rest error
      end
  end.

Definition read_mountinfo {E} : M cstate E (option string) := ask (fun t => proc_text_at t "/proc/self/mountinfo").

Definition read_current_path {E} : M cstate E (option (list string)) :=
  cgroup ← ask (fun t => proc_text_at t "/proc/self/cgroup");
  match current_cgroup_relative cgroup with
  | None => mret None
  | Some _ => mountinfo ← read_mountinfo; mret (current_cgroup_path cgroup mountinfo)
  end.

(** The directories to try, from most to least specific: the configured one only, or
    the discovered ancestors. *)
Definition creation_candidates (explicit : option string) (hierarchy_root : option (list string))
    : M cstate SandboxError (list (list string)) :=
  match explicit with
  | Some path =>
      if Path.is_absolute path then mret [Path.components path]
      else fail (InvalidPolicy "cgroup_parent" ("cgroup parent " +:+ path +:+ " is not absolute"))
  | None =>
      current ← read_current_path;
      match current, hierarchy_root with
      | Some current, Some root => mret (auto_creation_parent_candidates current root)
      | _, _ => fail (Unsupported "cgroup-v2" "no cgroup v2 hierarchy is active on this system")
      end
  end.

Definition resolve_creation_parent (explicit : option string) (needed : list string)
    : M cstate SandboxError ResolvedParent :=
  mountinfo ← read_mountinfo;
  let cgroup_mount := cgroup2_mount mountinfo in
  let hierarchy_root := (fun m => Path.components m.1) <$> cgroup_mount in
  let hierarchy_root_is_global :=
    match cgroup_mount with
    | Some (_, fs_root) => paths_equal (Path.components fs_root) (Path.components "/")
    | None => false
    end in
  candidates ← creation_candidates explicit hierarchy_root;
  try_candidates (if hierarchy_root_is_global then hierarchy_root else None) needed candidates "".

Definition create_sandbox_cgroup (limits : ResourceLimits) (explicit_parent : option string)
    (random_suffix : string) : M cstate SandboxError Cgroup :=
  parent ← resolve_creation_parent explicit_parent (needed_controllers limits);
  create_cgroup_under parent limits "sandbox-" random_suffix.

Definition create_process_domain_cgroup (limits : ResourceLimits) (explicit_parent : option string)
    (random_suffix : string) : M cstate SandboxError Cgroup :=
  parent ← resolve_creation_parent explicit_parent (needed_controllers limits);
  create_cgroup_under parent limits PROCESS_DOMAIN_PREFIX random_suffix.

(** ** Process domains *)

Definition random_suffix : M cstate SandboxError string :=
  bytes ← mapE (fun error => Unsupported "cgroup-v2"
                  ("/dev/urandom is unavailable for cgroup naming: " +:+ io_display error))
            (attempt urandom_at);
  mret (fmt_hex_fixed 16 bytes).

Record ProcessDomain := MkDomain { pd_cgroup : Cgroup; pd_resources : ResourceLimits }.

Definition resolve_scope (explicit_parent : option string) (limits : ResourceLimits)
    : M cstate SandboxError ResolvedParent :=
  resolve_creation_parent explicit_parent (needed_controllers limits).

Definition create_domain (scope : ResolvedParent) (limits : ResourceLimits) : M cstate SandboxError ProcessDomain :=
  suffix ← random_suffix;
  cgroup ← create_process_domain_cgroup_under scope limits suffix;
  mret (MkDomain cgroup limits).

Definition reconcile_stale (scope : ResolvedParent) : M cstate SandboxError Z :=
  reconcile_process_domain_cgroups scope.

Definition create_process_domain (resources : ResourceLimits) (explicit_parent : option string)
    : M cstate SandboxError ProcessDomain :=
  suffix ← random_suffix;
  cgroup ← create_process_domain_cgroup resources explicit_parent suffix;
  mret (MkDomain cgroup resources).

Definition reconcile_stale_process_domains (explicit_parent : option string) : M cstate SandboxError Z :=
  parent ← resolve_creation_parent explicit_parent [];
  reconcile_process_domain_cgroups parent.

(** The group a one-shot spawn runs in: its own when the limits need one. *)
Definition spawn_cgroup (config : SandboxConfig) : M cstate SandboxError (option Cgroup) :=
  if requires_cgroup (cf_resources config) then
    suffix ← random_suffix;
    cgroup ← create_sandbox_cgroup (cf_resources config) (cf_cgroup_parent config) suffix;
    mret (Some cgroup)
  else mret None.

Definition domain_is_populated (d : ProcessDomain) : M cstate SandboxError bool :=
  mapE EngineIo (is_populated (pd_cgroup d)).
Definition domain_wait_until_empty (d : ProcessDomain) (timeout : Z) : M cstate SandboxError bool :=
  mapE EngineIo (wait_until_empty (pd_cgroup d) timeout).
Definition domain_kill_all (d : ProcessDomain) : M cstate SandboxError unit :=
  mapE EngineIo (kill_all (pd_cgroup d)).
Definition domain_remove_empty (d : ProcessDomain) : M cstate SandboxError ProcessDomain :=
  cgroup ← mapE EngineIo (remove_empty (pd_cgroup d));
  mret (MkDomain cgroup (pd_resources d)).

End groups.

End Cgroups.
