(* ===== verification/ControlGroupSafety.v ===== *)
(** * What control groups guarantee

    The changes a run makes, operation by operation; creation is all or nothing,
    waiting ends, start-up touches its own groups only and removes none that has
    members, and a resolved parent can hold what it was resolved for. *)

From S2P Require Import Prelude Text PathNames Toml SocketAddr Endpoint FileSystem RuntimeLedger Manager EnginePolicy LaunchPolicy Delegation CgroupPaths ControlGroups.

Module CgroupSafety.
Import Engine CgroupPaths Cgroups.

(** A run from [s] to [s'] made the changes [l]: it only appends to the record,
    and their times lie between. *)
Definition made (s s' : cstate) (l : list (nat * action)) : Prop :=
  cg_log s' = cg_log s ++ l ∧ (cg_clock s <= cg_clock s')%nat ∧
  Forall (fun e => cg_clock s <= e.1 < cg_clock s')%nat l.

Lemma made_refl s : made s s [].
Proof. split_and!; [by rewrite app_nil_r|done|constructor]. Qed.

Lemma made_trans s1 s2 s3 l l' : made s1 s2 l → made s2 s3 l' → made s1 s3 (l ++ l').
Proof.
  intros (H1 & H2 & H3) (H1' & H2' & H3'). split_and!; [by rewrite H1', H1, app_assoc|lia|].
  apply Forall_app. split; (eapply Forall_impl; [eassumption|]); cbn; intros; lia.
Qed.

#[local] Hint Resolve made_refl made_trans : shbox.

Lemma made_act a (f : nat → result io_error unit) s :
  made s (act a f s).2 (if is_ok (f (cg_clock s)) then [(cg_clock s, a)] else []).
Proof.
  unfold act. destruct (f (cg_clock s)) as [[]|e]; split_and!; cbn; try lia; try done.
  - repeat constructor; cbn; lia.
  - by rewrite app_nil_r.
Qed.

(** Every change a run of [m] makes satisfies [P], whatever its outcome. *)
Definition tracked {E A} (P : nat → action → Prop) (m : M cstate E A) : Prop :=
  ∀ s, ∃ l, made s (m s).2 l ∧ Forall (fun e => P e.1 e.2) l.

Section tracked.
Context {P : nat → action → Prop}.

Lemma tracked_weaken {E A} (Q : nat → action → Prop) (m : M cstate E A) :
  (∀ t a, Q t a → P t a) → tracked Q m → tracked P m.
Proof.
  intros HQP Hm s. destruct (Hm s) as (l & Hl & HQ). exists l. split; [done|].
  eapply Forall_impl; [exact HQ|]. cbn. auto.
Qed.

Lemma tracked_pure {E A} (m : M cstate E A) : (∀ s, (m s).2 = s) → tracked P m.
Proof. intros Hm s. exists []. rewrite Hm. split; [apply made_refl|constructor]. Qed.

Lemma tracked_ret {E A} (a : A) : tracked (E := E) P (mret a).
Proof. by apply tracked_pure. Qed.
Lemma tracked_fail {E A} (e : E) : tracked (A := A) P (fail e).
Proof. by apply tracked_pure. Qed.
Lemma tracked_lift {E A} (r : result E A) : tracked P (liftR r).
Proof. by apply tracked_pure. Qed.

(** The continuation only runs on values the first part can return. *)
Lemma tracked_bind_run {E A B} (m : M cstate E A) (f : A → M cstate E B) :
  tracked P m → (∀ a s s', m s = (Ok a, s') → tracked P (f a)) → tracked P (m ≫= f).
Proof.
  intros Hm Hf s. destruct (Hm s) as (l & Hl & HP). unfold mbind, M_bind.
  destruct (m s) as [[a|e] s1] eqn:Hrun; [|by exists l]. destruct (Hf a s s1 Hrun s1) as (l' & Hl' & HP').
  exists (l ++ l'). split; [by eapply made_trans|]. by apply Forall_app.
Qed.

Lemma tracked_bind {E A B} (m : M cstate E A) (f : A → M cstate E B) :
  tracked P m → (∀ a, tracked P (f a)) → tracked P (m ≫= f).
Proof. intros Hm Hf. apply tracked_bind_run; [done|]. intros a _ _ _. apply Hf. Qed.

Lemma tracked_mapE {E E' A} (g : E → E') (m : M cstate E A) : tracked P m → tracked P (mapE g m).
Proof. intros Hm s. destruct (Hm s) as (l & Hl & HP). unfold mapE. by destruct (m s) as [[a|e] s1]; exists l. Qed.

Lemma tracked_try {E E' A} (m : M cstate E A) : tracked P m → tracked P (tryM m : M cstate E' _).
Proof. intros Hm s. destruct (Hm s) as (l & Hl & HP). unfold tryM. by destruct (m s) as [r s1]; exists l. Qed.

Lemma tracked_cleanup {E E' A} (c : M cstate E' unit) (m : M cstate E A) :
  tracked P c → tracked P m → tracked P (cleanup_on_error c m).
Proof.
  intros Hc Hm s. destruct (Hm s) as (l & Hl & HP). unfold cleanup_on_error.
  destruct (m s) as [[a|e] s1]; [by exists l|]. cbn in *. destruct (Hc s1) as (l' & Hl' & HP').
  exists (l ++ l'). split; [by eapply made_trans|]. by apply Forall_app.
Qed.

Lemma tracked_ask {E A} (f : nat → A) : tracked (E := E) P (ask f).
Proof. intros s. exists []. split; [split_and!; cbn; [by rewrite app_nil_r|lia|]|]; constructor. Qed.

Lemma tracked_attempt {A} (f : nat → result io_error A) : tracked P (attempt f).
Proof. intros s. exists []. split; [split_and!; cbn; [by rewrite app_nil_r|lia|]|]; constructor. Qed.

Lemma tracked_act a (f : nat → result io_error unit) : (∀ t, f t = Ok tt → P t a) → tracked P (act a f).
Proof.
  intros HP s. eexists. split; [apply made_act|]. destruct (f (cg_clock s)) as [[]|e] eqn:Hf; cbn; [|constructor].
  constructor; [by apply HP|constructor].
Qed.

Lemma tracked_repeat {E A} k (body : M cstate E (option A)) : tracked P body → tracked P (repeat_until k body).
Proof.
  intros Hb. induction k as [|k IH]; cbn [repeat_until]; [done|].
  apply tracked_bind; [done|]. intros [a|]; [apply tracked_ret|done].
Qed.
End tracked.

(** The turns of a wait are not to be unrolled. *)
#[local] Opaque WAIT_TURNS.

#[local] Hint Resolve tracked_ret tracked_fail tracked_lift tracked_ask tracked_attempt : tracked.
Ltac track :=
  repeat first
    [ apply tracked_repeat | apply tracked_bind; [|intros ?] | apply tracked_mapE | apply tracked_try
    | apply tracked_cleanup | progress auto with tracked | case_match ].

Section groups.
Context `{CgroupKernel} `{Host} (printable : Z → bool).

(** No change at all. *)
Definition nothing (t : nat) (a : action) : Prop := False.

Lemma made_nothing {E A} (m : M cstate E A) s : tracked nothing m → made s (m s).2 [].
Proof. intros Hm. destruct (Hm s) as ([|e l] & Hl & HP); [done|]. by apply Forall_cons in HP as [[] _]. Qed.

Lemma read_control_tracked d name : tracked nothing (read_control d name).
Proof. unfold read_control. track. Qed.
Lemma read_fd_tracked d name : tracked nothing (read_fd_pread d name).
Proof. unfold read_fd_pread. track. Qed.
#[local] Hint Resolve read_control_tracked read_fd_tracked : tracked.

Lemma is_populated_tracked c : tracked nothing (is_populated printable c).
Proof. unfold is_populated. track. Qed.

Lemma wait_turn_tracked d deadline : tracked nothing (wait_turn printable d deadline).
Proof. unfold wait_turn, events_populated. track. Qed.

#[local] Hint Resolve wait_turn_tracked : tracked.

Lemma wait_tracked c timeout : tracked nothing (wait_until_empty printable c timeout).
Proof. unfold wait_until_empty, events_populated, open_control_read. track. Qed.

(** The membership file of [d] read at time [t] said [b]. *)
Definition observed (d : cdir) (b : bool) (t : nat) : Prop :=
  ∃ text, read_at t d "cgroup.events" = Ok text ∧ populated_from_events printable text = Ok b.

Lemma is_populated_Ok c s b s' :
  is_populated printable c s = (Ok b, s') → observed (cg_dir c) b (cg_clock s) ∧ cg_clock s' = S (cg_clock s) ∧ cg_log s' = cg_log s.
Proof.
  unfold is_populated, read_control. intros Hr. inv_run. unfold attempt in *. simplify_eq/=.
  split; [|done]. by eexists.
Qed.

(** Removing a group: the directory itself, and right after its membership file
    said that it is empty. *)
Definition removes (c : Cgroup) (t : nat) (a : action) : Prop :=
  a = Rmdir (cg_parent c) (cg_name c) ∧ ∃ t', t = S t' ∧ observed (cg_dir c) false t'.

Lemma remove_empty_tracked c : tracked (removes c) (remove_empty printable c).
Proof.
  unfold remove_empty. case_match; [apply tracked_ret|]. intros s.
  unfold mbind at 1, M_bind at 1, tryM at 1.
  pose proof (made_nothing _ s (is_populated_tracked c)) as Hmade.
  destruct (is_populated printable c s) as [[[]|e] s1] eqn:Hp; cbn in Hmade |- *;
    [by exists []; split; [|constructor]| |by exists []; split; [|constructor]].
  apply is_populated_Ok in Hp as (Hobs & Hclock & _).
  unfold mbind, M_bind, tryM, unlink_directory. destruct (has_nul (cg_name c)).
  { cbn. exists []. split; [|constructor]. done. }
  pose proof (made_act (Rmdir (cg_parent c) (cg_name c)) (fun t => rmdirat_at t (cg_parent c) (cg_name c)) s1) as Hl.
  unfold act in *. set (r := rmdirat_at _ _ _) in *. cbn in Hl.
  exists (if is_ok r then [(cg_clock s1, Rmdir (cg_parent c) (cg_name c))] else []). split.
  - eapply (made_trans _ _ _ []); [exact Hmade|]. destruct r as [[]|e]; cbn in *; [done|].
    by destruct (errno_is e ENOENT).
  - destruct r; [|constructor]. constructor; [|constructor]. split; [done|]. cbn. eauto.
Qed.

Lemma drop_cgroup_tracked {E} c : tracked (removes c) (drop_cgroup (E := E) printable c).
Proof. unfold drop_cgroup. track. apply remove_empty_tracked. Qed.

Lemma tracked_nothing {E A} P (m : M cstate E A) : tracked nothing m → tracked P m.
Proof. apply tracked_weaken. by intros ? ? []. Qed.

(** ** Start-up's reclamation *)

Lemma c_str_id name : has_nul name = false → c_str name = name.
Proof.
  unfold has_nul. rewrite negb_false_iff. induction name as [|c name IH]; [done|]. cbn.
  rewrite andb_true_iff, negb_true_iff. intros [-> Hn]. by rewrite IH.
Qed.

Lemma open_existing_tracked parent name : tracked nothing (open_existing_cgroup printable parent name).
Proof. unfold open_existing_cgroup, open_directory, descriptor. track. Qed.

Lemma open_existing_Ok parent name s c s' :
  open_existing_cgroup printable parent name s = (Ok c, s') →
  c = MkCgroup (Child (rp_dir parent) (c_str name)) (rp_dir parent) name false.
Proof.
  unfold open_existing_cgroup, open_directory, descriptor. intros Hr. inv_run.
  split_run; inv_run. done.
Qed.

(** What start-up may do below [d]: tell a group it owns to kill its members, and
    remove it right after it was seen empty. *)
Definition reclaims (d : cdir) (t : nat) (a : action) : Prop :=
  ∃ name, owned_name name = true ∧
    (a = Control (Child d name) "cgroup.kill" "1" ∨
     (a = Rmdir d name ∧ ∃ t', t = S t' ∧ observed (Child d name) false t')).

Lemma reclaim_tracked d name :
  owned_name name = true →
  tracked (reclaims d) (reclaim printable name (MkCgroup (Child d name) d name false)).
Proof.
  intros Hown. assert (Hrm : ∀ t a, removes (MkCgroup (Child d name) d name false) t a → reclaims d t a).
  { intros t a [-> Ht]. exists name. auto. }
  unfold reclaim, kill_all, write_control. apply tracked_cleanup.
  { eapply tracked_weaken; [exact Hrm|apply drop_cgroup_tracked]. }
  apply tracked_bind; [apply tracked_mapE, tracked_act; intros; exists name; by auto|intros _].
  apply tracked_bind; [apply tracked_mapE, tracked_nothing, wait_tracked|intros empty].
  destruct (negb empty); [apply tracked_fail|]. apply tracked_mapE.
  eapply tracked_weaken; [exact Hrm|apply remove_empty_tracked].
Qed.

Lemma errno_is_eq e n : errno_is e n = true → e = Errno n.
Proof. destruct e as [k|]; cbn; [|done]. by intros ->%Z.eqb_eq. Qed.

Lemma unlink_directory_run d name s r s' :
  unlink_directory d name s = (r, s') →
  (has_nul name = true ∧ r = Err (IoOther "cgroup name contains NUL")) ∨ r = rmdirat_at (cg_clock s) d name.
Proof. unfold unlink_directory, act. destruct (has_nul name); intros [= <- _]; auto. Qed.

(** What reclaiming a group leaves. *)
Definition removed_group (c c' : Cgroup) : Prop :=
  cg_removed c' = true ∧ cg_dir c' = cg_dir c ∧ cg_parent c' = cg_parent c ∧ cg_name c' = cg_name c.

Lemma remove_empty_Ok c s c' s' :
  remove_empty printable c s = (Ok c', s') → cg_removed c = false →
  removed_group c c' ∧ ∃ t, rmdirat_at t (cg_parent c) (cg_name c) = Ok tt
                            ∨ rmdirat_at t (cg_parent c) (cg_name c) = Err (Errno ENOENT).
Proof.
  unfold remove_empty. intros Hr Hc. rewrite Hc in Hr. inv_run.
  match goal with Hl : unlink_directory _ _ _ = _ |- _ => apply unlink_directory_run in Hl as [[_ ->]| ->]; [done|] end.
  destruct (rmdirat_at _ _ _) as [[]|e] eqn:Hrm; inv_run; (split; [done|]); eexists; [by left|]. right.
  match goal with He : errno_is _ _ = true |- _ => apply errno_is_eq in He as -> end. exact Hrm.
Qed.

(** The runs of successful parts are the runs of what they are made of. *)
Lemma tracked_run {E A} P (m : M cstate E A) s r s' :
  tracked P m → m s = (r, s') → ∃ l, made s s' l ∧ Forall (fun e => P e.1 e.2) l.
Proof. intros Hm Hr. destruct (Hm s) as (l & Hl). rewrite Hr in Hl. by exists l. Qed.

Lemma cleanup_Ok {S E E' A} (c : M S E' unit) (m : M S E A) s a s' :
  cleanup_on_error c m s = (Ok a, s') → m s = (Ok a, s').
Proof. unfold cleanup_on_error. destruct (m s) as [[]]; naive_solver. Qed.

Lemma act_Ok a f s u s' :
  act a f s = (Ok u, s') → f (cg_clock s) = Ok tt ∧ made s s' [(cg_clock s, a)].
Proof.
  intros Hr. pose proof (made_act a f s) as Hm. rewrite Hr in Hm. unfold act in Hr.
  destruct u. injection Hr as Hf _. rewrite Hf in Hm. done.
Qed.

(** A group that start-up reclaimed: its members were told to die, and the kernel
    removed the directory or said that there is none. *)
Definition reclaimed (d : cdir) (l : list (nat * action)) (name : string) : Prop :=
  (∃ t, (t, Control (Child d name) "cgroup.kill" "1") ∈ l) ∧
  (∃ t, rmdirat_at t d name = Ok tt ∨ rmdirat_at t d name = Err (Errno ENOENT)).

Lemma reclaimed_mono d l l1 l2 name : reclaimed d l name → reclaimed d (l1 ++ l ++ l2) name.
Proof. intros [[t Ht] Hgone]. split; [|done]. exists t. rewrite !elem_of_app. auto. Qed.

Lemma reclaim_Ok d name s c' s' :
  reclaim printable name (MkCgroup (Child d name) d name false) s = (Ok c', s') →
  cg_removed c' = true ∧ ∃ l, made s s' l ∧ reclaimed d l name.
Proof.
  unfold reclaim. intros Hr%cleanup_Ok. apply bind_Ok in Hr as (u & s1 & Hkill%mapE_Ok & Hr).
  apply act_Ok in Hkill as [_ Hkill].
  apply bind_Ok in Hr as (empty & s2 & Hwait%mapE_Ok & Hr).
  pose proof (tracked_run _ _ _ _ _ (wait_tracked _ _) Hwait) as (l1 & Hl1 & _).
  destruct (negb empty); [done|]. apply mapE_Ok in Hr.
  pose proof (tracked_run _ _ _ _ _ (remove_empty_tracked _) Hr) as (l2 & Hl2 & _).
  apply remove_empty_Ok in Hr as [[Hrem _] Hgone]; [|done]. split; [done|].
  eexists. split; [eapply made_trans; [exact Hkill|eapply made_trans; [exact Hl1|exact Hl2]]|].
  split; [|exact Hgone]. eexists. left.
Qed.

(** The names a listing gives to start-up: they are its own, and all of its own
    that are directories are there. *)
Lemma entry_is_directory_Ok d name s b s' :
  entry_is_directory d name s = (Ok b, s') →
  (b = true → has_nul name = false) ∧
  ((∀ t, ∃ m, mode_at t d name = Some m ∧ is_directory m = true) → has_nul name = false → b = true).
Proof.
  unfold entry_is_directory. destruct (has_nul name); [intros [= <- _]; by split|].
  intros Hr. inv_run. unfold ask in *. simplify_eq/=. split; [done|].
  intros Hdir _. destruct (Hdir (cg_clock s)) as (m & -> & Hm). exact Hm.
Qed.

Lemma owned_entries_Ok d entries s names s' :
  owned_entries d entries s = (Ok names, s') →
  Forall (fun n => owned_name n = true ∧ has_nul n = false) names ∧
  (∀ n, n ∈ entries → owned_name n = true → has_nul n = false →
     (∀ t, ∃ m, mode_at t d n = Some m ∧ is_directory m = true) → n ∈ names).
Proof.
  revert s names; induction entries as [|e entries IH]; intros s names; cbn [owned_entries].
  { intros [= <- _]. split; [constructor|]. by intros n Hn%not_elem_of_nil. }
  destruct (_ || _) eqn:Hdots.
  - intros [Hall Hin]%IH. split; [done|]. intros n [->|Hn]%elem_of_cons Hown; [|by auto].
    exfalso. apply orb_true_iff in Hdots as [->%bool_decide_eq_true | ->%bool_decide_eq_true]; by vm_compute in Hown.
  - intros Hr. apply bind_Ok in Hr as (b & s1 & Hb & Hr). apply bind_Ok in Hr as (names' & s2 & Hrest & Hr).
    apply ret_Ok in Hr as [-> ->]. apply IH in Hrest as [Hall Hin].
    assert (Hcase : (b = true → owned_name e = true ∧ has_nul e = false) ∧
      (owned_name e = true → has_nul e = false →
       (∀ t, ∃ m, mode_at t d e = Some m ∧ is_directory m = true) → b = true)).
    { destruct (owned_name e); [|injection Hb as <- _; by split].
      apply entry_is_directory_Ok in Hb as [H1 H2]. split; auto. }
    destruct Hcase as [H1 H2]. split.
    + destruct b; [constructor; auto|done].
    + intros n [->|Hn]%elem_of_cons Hown Hnul Hdir; [rewrite H2 by done; left|].
      destruct b; [right|]; auto.
Qed.

Lemma owned_entries_tracked d entries : tracked nothing (owned_entries d entries).
Proof.
  induction entries as [|e entries IH]; cbn [owned_entries]; [apply tracked_ret|].
  unfold entry_is_directory. track; done.
Qed.

Lemma owned_names_tracked d : tracked nothing (owned_directory_names d).
Proof. unfold owned_directory_names. track; apply owned_entries_tracked. Qed.

Lemma owned_names_Ok d s names s' :
  owned_directory_names d s = (Ok names, s') →
  ∃ entries, readdir_at (cg_clock s) d = Ok (entries, None) ∧
    Forall (fun n => owned_name n = true ∧ has_nul n = false) names ∧
    (∀ n, n ∈ entries → owned_name n = true → has_nul n = false →
       (∀ t, ∃ m, mode_at t d n = Some m ∧ is_directory m = true) → n ∈ names).
Proof.
  unfold owned_directory_names. intros Hr. apply bind_Ok in Hr as ([entries e] & s1 & Hread%mapE_Ok & Hr).
  injection Hread as Hread _. apply bind_Ok in Hr as (names' & s2 & Hown%owned_entries_Ok & Hr). cbn in *.
  destruct e; [done|]. apply ret_Ok in Hr as [-> _]. exists entries. naive_solver.
Qed.

Lemma reconcile_names_tracked parent names removed :
  Forall (fun n => owned_name n = true ∧ has_nul n = false) names →
  tracked (reclaims (rp_dir parent)) (reconcile_names printable parent names removed).
Proof.
  intros Hnames. revert removed; induction Hnames as [|name names [Hown Hnul] _ IH]; intros removed;
    cbn [reconcile_names]; [apply tracked_ret|].
  apply tracked_bind_run; [apply tracked_nothing, open_existing_tracked|].
  intros c s s' ->%open_existing_Ok. rewrite c_str_id by done.
  apply tracked_bind_run; [by apply reclaim_tracked|].
  intros c' s1 s1' [Hrem _]%reclaim_Ok. unfold drop_cgroup. rewrite Hrem.
  apply tracked_bind; [apply tracked_ret|intros _]. apply IH.
Qed.

Lemma reconcile_names_Ok parent names removed s n s' :
  Forall (fun n => owned_name n = true ∧ has_nul n = false) names →
  reconcile_names printable parent names removed s = (Ok n, s') →
  n = removed + Z.of_nat (length names) ∧
  ∃ l, made s s' l ∧ Forall (reclaimed (rp_dir parent) l) names.
Proof.
  intros Hnames. revert removed s; induction Hnames as [|name names [Hown Hnul] _ IH]; intros removed s;
    cbn [reconcile_names].
  { intros Hr%ret_Ok. destruct Hr as [-> ->]. split; [cbn; lia|]. exists []. split; [apply made_refl|constructor]. }
  intros Hr. apply bind_Ok in Hr as (c & s1 & Hopen & Hr).
  pose proof (tracked_run _ _ _ _ _ (open_existing_tracked _ _) Hopen) as (l1 & Hl1 & _).
  apply open_existing_Ok in Hopen as ->. rewrite c_str_id in Hr by done.
  apply bind_Ok in Hr as (c' & s2 & Hrec & Hr). apply reclaim_Ok in Hrec as (Hrem & l2 & Hl2 & Hgone).
  unfold drop_cgroup in Hr. rewrite Hrem in Hr. cbn in Hr. apply IH in Hr as (-> & l3 & Hl3 & Hall).
  split; [cbn [length]; lia|]. exists (l1 ++ l2 ++ l3).
  split; [eapply made_trans; [exact Hl1|by eapply made_trans]|].
  constructor; [by apply reclaimed_mono|]. eapply Forall_impl; [exact Hall|].
  intros m Hm. rewrite app_assoc, <-(app_nil_r l3). by apply reclaimed_mono.
Qed.

(** C25: Start-up reclaims its own groups and nothing else, and never removes one that
    has members.  Whatever the kernel answers and however the run ends, each change it
    made under the parent is either the order to kill the members of a group whose name
    carries the reserved prefix, or the removal of such a group immediately after its
    membership file said that it is empty.  When it succeeds, the number it returns
    counts the groups it dealt with, every one was told to kill its members and is
    gone, and every listed name of its own that is a directory is among them. *)
Theorem reconciliation_is_confined parent s r s' :
  reconcile_process_domain_cgroups printable parent s = (r, s') →
  ∃ l, cg_log s' = cg_log s ++ l ∧
    Forall (fun e => reclaims (rp_dir parent) e.1 e.2) l ∧
    (∀ n, r = Ok n → ∃ entries names,
       readdir_at (cg_clock s) (rp_dir parent) = Ok (entries, None) ∧
       n = Z.of_nat (length names) ∧
       Forall (fun name => owned_name name = true ∧ reclaimed (rp_dir parent) l name) names ∧
       (∀ name, name ∈ entries → owned_name name = true → has_nul name = false →
          (∀ t, ∃ m, mode_at t (rp_dir parent) name = Some m ∧ is_directory m = true) → name ∈ names)).
Proof.
  intros Hrun. unfold reconcile_process_domain_cgroups in Hrun.
  assert (Htr : tracked (reclaims (rp_dir parent)) (reconcile_process_domain_cgroups printable parent)).
  { apply tracked_bind_run; [apply tracked_nothing, owned_names_tracked|].
    intros names s0 s0' (entries & _ & Hown & _)%owned_names_Ok. by apply reconcile_names_tracked. }
  destruct r as [n|e].
  - apply bind_Ok in Hrun as (names & s1 & Hown & Hr).
    pose proof (tracked_run _ _ _ _ _ (owned_names_tracked _) Hown) as (l1 & Hl1 & Hno).
    destruct l1 as [|x l1]; [|by apply Forall_cons in Hno as [[] _]].
    apply owned_names_Ok in Hown as (entries & Hread & Hnames & Hin).
    pose proof (tracked_run _ _ _ _ _ (reconcile_names_tracked _ _ _ Hnames) Hr) as (l2 & Hl2 & HP).
    apply reconcile_names_Ok in Hr as (-> & l3 & Hl3 & Hall); [|done].
    assert (l3 = l2) as ->.
    { destruct Hl2 as [Hl2 _], Hl3 as [Hl3 _]. rewrite Hl2 in Hl3. by apply app_inv_head in Hl3. }
    exists l2. destruct Hl1 as [Hl1 _], Hl2 as [Hl2 _]. rewrite app_nil_r in Hl1.
    split_and!; [by rewrite Hl2, Hl1|done|]. intros n [= <-]. exists entries, names. split_and!; try done.
    rewrite Forall_forall in *. naive_solver.
  - destruct (tracked_run _ _ _ _ _ Htr Hrun) as (l & [Hl _] & HP). exists l. by split_and!.
Qed.

(** ** Creation *)

(** The control files the limits name, with their values, in order. *)
Definition limit_value {A} (show : A → string) (unlimited : string) (l : Limit A) : option string :=
  match l with Inherit => None | Unlimited => Some unlimited | Value a => Some (show a) end.

Definition limit_writes (limits : ResourceLimits) : list (string * string) :=
  omap (fun w => pair w.1 <$> w.2)
    [("memory.max", limit_value fmt_dec "max" (lim_memory_bytes limits));
     ("memory.swap.max", limit_value fmt_dec "max" (lim_swap_bytes limits));
     ("pids.max", limit_value fmt_dec "max" (lim_pids limits));
     ("cpu.max", limit_value (fun cpu => fmt_dec (quota_us cpu) +:+ " " +:+ fmt_dec (period_us cpu)) "max 100000"
                   (lim_cpu_max limits))].

Definition controls (d : cdir) (writes : list (string * string)) : list action :=
  map (fun w => Control d w.1 w.2) writes.

Fixpoint write_limits (c : Cgroup) (writes : list (string * string)) : M cstate SandboxError unit :=
  match writes with
  | [] => mret tt
  | (file, value) :: rest => _ ← write_limit c file value; write_limits c rest
  end.

Lemma apply_limits_eq c limits s : apply_limits c limits s = write_limits c (limit_writes limits) s.
Proof.
  destruct limits as [mem swap pids cpu]. unfold apply_limits, limit_writes, limit_value.
  destruct mem, swap, pids, cpu; cbn -[fmt_dec write_limit]; unfold mbind, M_bind, mret, M_ret;
    repeat (destruct (write_limit _ _ _ _) as [[[]|] ?]; cbn -[fmt_dec write_limit]); done.
Qed.

Lemma write_limits_run c writes s r s' :
  write_limits c writes s = (r, s') →
  ∃ l written, made s s' l ∧ l.*2 = controls (cg_dir c) written ∧ written `prefix_of` writes ∧
    (is_ok r = true → written = writes).
Proof.
  revert s; induction writes as [|[file value] writes IH]; intros s; cbn [write_limits].
  { intros [= <- <-]. exists [], []. split_and!; [apply made_refl|done|apply prefix_nil|done]. }
  intros Hr. unfold write_limit, write_control in Hr.
  pose proof (made_act (Control (cg_dir c) file value) (fun t => write_at t (cg_dir c) file value) s) as Hm.
  unfold mbind, M_bind, mapE in Hr. destruct (act _ _ s) as [res s1] eqn:Hact. cbn in Hm.
  assert (Hres : res = write_at (cg_clock s) (cg_dir c) file value) by (unfold act in Hact; congruence).
  rewrite <-Hres in Hm. destruct res as [[]|e]; cbn in Hm.
  - apply IH in Hr as (l & written & Hl & Hacts & Hpre & Hok).
    eexists (_ :: l), ((file, value) :: written). split_and!; [exact (made_trans _ _ _ _ _ Hm Hl)| | |].
    + cbn. by rewrite Hacts.
    + by apply prefix_cons.
    + intros Hr'. by rewrite (Hok Hr').
  - injection Hr as <- <-. exists [], []. split_and!; [done|done|apply prefix_nil|done].
Qed.

(** The guard's attempt is the last call of the run that fails. *)
Lemma drop_guard_run {E} d name s :
  has_nul name = false →
  let s' := (drop_guard (E := E) d name s).2 in
  ∃ l, made s s' l ∧ Forall (eq (Rmdir d name)) (l.*2) ∧
    (l ≠ [] ∨ ∃ e, rmdirat_at (pred (cg_clock s')) d name = Err e).
Proof.
  intros Hnul. unfold drop_guard, unlink_directory. rewrite Hnul.
  pose proof (made_act (Rmdir d name) (fun t => rmdirat_at t d name) s) as Hm. cbn in Hm |- *.
  eexists. split; [exact Hm|]. destruct (rmdirat_at (cg_clock s) d name) as [[]|e] eqn:He; cbn.
  - split; [by repeat constructor|by left].
  - split; [constructor|]. right. by exists e.
Qed.

(** What a failed configuration did below [d]: some of the limits, then removals. *)
Definition rolled_back (d : cdir) (name : string) (limits : ResourceLimits) (acts : list action)
    (refused : Prop) : Prop :=
  ∃ written removals, acts = controls (Child d name) written ++ removals ∧
    written `prefix_of` limit_writes limits ∧ Forall (eq (Rmdir d name)) removals ∧
    (removals ≠ [] ∨ refused).

Lemma drop_cgroup_run {E} d name s :
  ∃ l, made s (drop_cgroup (E := E) printable (MkCgroup (Child d name) d name false) s).2 l ∧
    Forall (eq (Rmdir d name)) (l.*2).
Proof.
  destruct (drop_cgroup_tracked (E := E) (MkCgroup (Child d name) d name false) s) as (l & Hl & HP).
  exists l. split; [done|]. rewrite Forall_fmap. eapply Forall_impl; [exact HP|]. intros [t a] [Ha _]. by symmetry.
Qed.

Lemma setup_run parent limits name s r s' :
  has_nul name = false →
  (dir ← open_directory printable (rp_dir parent) name;
   parent_copy ← descriptor parent;
   let cgroup := MkCgroup dir parent_copy name false in
   _ ← cleanup_on_error (drop_cgroup (E := SandboxError) printable cgroup) (apply_limits cgroup limits);
   mret cgroup) s = (r, s') →
  ∃ l, made s s' l ∧
    match r with
    | Ok c => c = MkCgroup (Child (rp_dir parent) name) (rp_dir parent) name false ∧
              l.*2 = controls (Child (rp_dir parent) name) (limit_writes limits)
    | Err _ => rolled_back (rp_dir parent) name limits (l.*2) True
    end.
Proof.
  intros Hnul Hr. set (d := rp_dir parent) in *.
  assert (Hnone : ∀ s, ∃ l, made s s l ∧ rolled_back d name limits (l.*2) True).
  { intros s0. exists []. split; [apply made_refl|]. exists [], []. split_and!; [done|apply prefix_nil|done|by right]. }
  apply bind_inv in Hr as [(dir & s1 & Hopen & Hr)|(e & Hopen & ->)].
  2: { pose proof (made_nothing (open_directory printable d name) s) as Hm. rewrite Hopen in Hm.
       exists []. split; [apply Hm; unfold open_directory; track|].
       exists [], []. split_and!; [done|apply prefix_nil|done|by right]. }
  pose proof (made_nothing (open_directory printable d name) s) as Hm1. rewrite Hopen in Hm1.
  assert (Hm1' : made s s1 []) by (apply Hm1; unfold open_directory; track).
  assert (dir = Child d name) as ->.
  { unfold open_directory in Hopen. inv_run. split_run; inv_run. by rewrite c_str_id. }
  apply bind_inv in Hr as [(copy & s2 & Hdesc & Hr)|(e & Hdesc & ->)];
    (assert (Hm2 : tracked nothing (descriptor parent)) by (unfold descriptor; track));
    pose proof (made_nothing _ s1 Hm2) as Hm2'; rewrite Hdesc in Hm2'; cbn in Hm2'.
  2: { exists []. split; [exact (made_trans _ _ _ _ _ Hm1' Hm2')|].
       exists [], []. split_and!; [done|apply prefix_nil|done|by right]. }
  assert (copy = d) as -> by (unfold descriptor in Hdesc; by inv_run).
  cbn zeta in Hr. set (c := MkCgroup _ _ _ _) in Hr.
  pose proof (made_trans _ _ _ _ _ Hm1' Hm2') as Hm. cbn in Hm. clear Hm1 Hm1' Hm2 Hm2'.
  destruct (apply_limits c limits s2) as [res s3] eqn:Happly. pose proof Happly as Hrun.
  rewrite apply_limits_eq in Hrun. apply write_limits_run in Hrun as (l & written & Hl & Hacts & Hpre & Hok).
  unfold mbind, M_bind, cleanup_on_error in Hr. rewrite Happly in Hr. destruct res as [[]|e].
  - injection Hr as <- <-. exists l. split; [exact (made_trans _ _ _ _ _ Hm Hl)|].
    split; [done|]. by rewrite Hacts, (Hok eq_refl).
  - injection Hr as <- <-. destruct (drop_cgroup_run (E := SandboxError) d name s3) as (l2 & Hl2 & Hrm).
    exists (l ++ l2). split; [exact (made_trans _ _ _ _ _ Hm (made_trans _ _ _ _ _ Hl Hl2))|].
    exists written, (l2.*2). rewrite fmap_app, Hacts. split_and!; [done|done|done|by right].
Qed.

Lemma configure_run parent limits name s r s' :
  has_nul name = false →
  configure_cgroup printable parent limits name s = (r, s') →
  ∃ l, made s s' l ∧
    match r with
    | Ok c => c = MkCgroup (Child (rp_dir parent) name) (rp_dir parent) name false ∧
              l.*2 = controls (Child (rp_dir parent) name) (limit_writes limits)
    | Err _ => rolled_back (rp_dir parent) name limits (l.*2)
                 (∃ e, rmdirat_at (pred (cg_clock s')) (rp_dir parent) name = Err e)
    end.
Proof.
  intros Hnul. unfold configure_cgroup, cleanup_on_error at 1.
  match goal with |- context [match ?m s with _ => _ end] => destruct (m s) as [res s1] eqn:Hsetup end.
  apply setup_run in Hsetup as (l & Hl & Hres); [|done].
  destruct res as [c|e]; intros [= <- <-]; [by exists l|].
  destruct (drop_guard_run (E := SandboxError) (rp_dir parent) name s1 Hnul) as (l2 & Hl2 & Hrm & Hend).
  destruct Hres as (written & removals & Hacts & Hpre & Hrms & _).
  exists (l ++ l2). split; [by eapply made_trans|]. exists written, (removals ++ l2.*2).
  rewrite fmap_app, Hacts, <-app_assoc. split_and!; [done|done|by apply Forall_app|].
  destruct Hend as [Hne|Hend]; [left|by right]. by destruct removals, l2.
Qed.

Lemma candidate_has_nul name k : has_nul name = false → 0 <= k → has_nul (candidate_name name k) = false.
Proof.
  intros Hn Hk. unfold candidate_name. case_match; [done|]. unfold has_nul in *.
  rewrite !str_all_app. apply negb_false_iff in Hn. rewrite Hn. cbn.
  apply negb_false_iff. eapply str_all_impl; [|by apply fmt_dec_digits].
  intros c. unfold is_ascii_digit. rewrite in_range_bounds. lia.
Qed.

Lemma create_attempts_run left k parent limits name s r s' :
  has_nul name = false → 0 <= k →
  create_attempts printable left k parent limits name s = (r, s') →
  ∃ l, made s s' l ∧
    match r with
    | Ok c => ∃ i, k <= i < k + Z.of_nat left ∧
        let n := candidate_name name i in
        c = MkCgroup (Child (rp_dir parent) n) (rp_dir parent) n false ∧
        l.*2 = Mkdir (rp_dir parent) n :: controls (Child (rp_dir parent) n) (limit_writes limits)
    | Err _ => l = [] ∨ ∃ i acts, k <= i < k + Z.of_nat left ∧
        let n := candidate_name name i in
        l.*2 = Mkdir (rp_dir parent) n :: acts ∧
        rolled_back (rp_dir parent) n limits acts
          (∃ e, rmdirat_at (pred (cg_clock s')) (rp_dir parent) n = Err e)
    end.
Proof.
  intros Hnul. revert k s; induction left as [|left IH]; intros k s Hk; cbn [create_attempts].
  { intros [= <- <-]. exists []. split; [apply made_refl|by left]. }
  set (n := candidate_name name k). assert (Hn : has_nul n = false) by by apply candidate_has_nul.
  unfold mkdirat. rewrite c_str_id by done. intros Hr.
  pose proof (made_act (Mkdir (rp_dir parent) n) (fun t => mkdirat_at t (rp_dir parent) n) s) as Hm.
  unfold mbind, M_bind, tryM in Hr. destruct (act _ _ s) as [res s1] eqn:Hact. cbn in Hm.
  assert (Hres : res = mkdirat_at (cg_clock s) (rp_dir parent) n) by (unfold act in Hact; congruence).
  rewrite <-Hres in Hm. destruct res as [[]|e]; cbn in Hm.
  - apply configure_run in Hr as (l & Hl & Hcase); [|done]. eexists. split; [exact (made_trans _ _ _ _ _ Hm Hl)|].
    destruct r as [c|e].
    + destruct Hcase as [-> Hacts]. exists k. split; [lia|]. cbn. by rewrite Hacts.
    + right. exists k, (l.*2). split; [lia|]. by split.
  - destruct (errno_is e EEXIST).
    + apply IH in Hr as (l & Hl & Hcase); [|lia]. exists l. split; [exact (made_trans _ _ _ _ _ Hm Hl)|].
      destruct r as [c|e']; [|destruct Hcase as [->|(i & acts & Hi & Hrest)]; [by left|right; exists i, acts]].
      * destruct Hcase as (i & Hi & Hrest). exists i. split; [lia|done].
      * split; [lia|done].
    + injection Hr as <- <-. exists []. split; [done|by left].
Qed.

(** C24: Creating a group is all or nothing.  On success exactly one directory was made,
    with one of the eight candidate names, and every limit of the policy was written to
    it, in order and nothing else, before the handle existed; so whatever is cloned into
    the group starts under all of its limits.  On failure either nothing was made, or the
    directory was made, some first part of the limits written, and then only its removal
    followed: it is gone unless the kernel refused the very last attempt. *)
Theorem creation_is_all_or_nothing parent limits name_prefix suffix s r s' :
  has_nul (name_prefix +:+ suffix) = false →
  create_cgroup_under printable parent limits name_prefix suffix s = (r, s') →
  ∃ l, cg_log s' = cg_log s ++ l ∧
    match r with
    | Ok c => ∃ i, 0 <= i < 8 ∧
        let n := candidate_name (name_prefix +:+ suffix) i in
        c = MkCgroup (Child (rp_dir parent) n) (rp_dir parent) n false ∧
        l.*2 = Mkdir (rp_dir parent) n :: controls (Child (rp_dir parent) n) (limit_writes limits)
    | Err _ => l = [] ∨ ∃ i acts, 0 <= i < 8 ∧
        let n := candidate_name (name_prefix +:+ suffix) i in
        l.*2 = Mkdir (rp_dir parent) n :: acts ∧
        rolled_back (rp_dir parent) n limits acts
          (∃ e, rmdirat_at (pred (cg_clock s')) (rp_dir parent) n = Err e)
    end.
Proof.
  intros Hnul Hr. apply create_attempts_run in Hr as (l & [Hl _] & Hcase); [|done|lia]. by exists l.
Qed.

(** ** Waiting *)

Lemma now_plus t n : now_at t + Z.of_nat n <= now_at (t + n).
Proof.
  induction n as [|n IH]; [rewrite Nat.add_0_r; lia|]. rewrite Nat.add_succ_r.
  pose proof (now_advances (t + n)). lia.
Qed.

Lemma now_mono t t' : (t <= t')%nat → now_at t + Z.of_nat (t' - t) <= now_at t'.
Proof. intros Ht. pose proof (now_plus t (t' - t)) as Hn. by replace (t + (t' - t))%nat with t' in Hn by lia. Qed.

(** The open descriptor of the events said [b] at time [t]. *)
Definition seen (d : cdir) (b : bool) (t : nat) : Prop :=
  ∃ text, pread_at t d "cgroup.events" = Ok text ∧
    populated_from_events printable (from_utf8_lossy (str_take 256 text)) = Ok b.

Lemma events_populated_Ok d s b s' :
  events_populated printable d s = (Ok b, s') → seen d b (cg_clock s) ∧ cg_clock s' = S (cg_clock s).
Proof.
  unfold events_populated, read_fd_pread. intros Hr. inv_run. unfold attempt in *. simplify_eq/=.
  split; [|done]. by eexists.
Qed.

(** What went wrong with a wait at time [t]: the kernel refused a call, or the membership
    file is malformed. *)
Definition went_wrong (d : cdir) (e : io_error) (t : nat) : Prop :=
  openat_at t d "cgroup.events" = Err e ∨ pread_at t d "cgroup.events" = Err e ∨
  (∃ text, pread_at t d "cgroup.events" = Ok text ∧
     populated_from_events printable (from_utf8_lossy (str_take 256 text)) = Err e) ∨
  ∃ ms, poll_at t d ms = Err e.

Lemma events_populated_run d s r s' :
  events_populated printable d s = (r, s') →
  cg_clock s' = S (cg_clock s) ∧
  match r with Ok b => seen d b (cg_clock s) | Err e => went_wrong d e (cg_clock s) end.
Proof.
  unfold events_populated, read_fd_pread, attempt, mbind, M_bind. cbn. destruct (pread_at _ _ _) as [text|e] eqn:Hp; cbn.
  - intros [= <- <-]. split; [done|]. destruct (populated_from_events _ _) eqn:Hpop; [by eexists|right; right; left; by eexists].
  - intros [= <- <-]. split; [done|]. right; by left.
Qed.

(** A turn makes two calls, or four before its deadline. *)
Lemma wait_turn_run d deadline s r s' :
  wait_turn printable d deadline s = (r, s') →
  (cg_clock s < cg_clock s')%nat ∧
  ((cg_clock s' <= cg_clock s + 2)%nat ∨ now_at (S (cg_clock s)) <= deadline ∧ (cg_clock s' <= cg_clock s + 4)%nat) ∧
  match r with
  | Ok (Some true) => seen d false (cg_clock s)
  | Ok (Some false) => seen d true (cg_clock s) ∧ deadline < now_at (S (cg_clock s))
  | Ok None => now_at (S (cg_clock s)) <= deadline
  | Err e => ∃ t, (cg_clock s <= t < cg_clock s')%nat ∧ went_wrong d e t
  end.
Proof.
  unfold wait_turn. intros Hr.
  apply bind_inv in Hr as [(b & s1 & [Hc Hseen]%events_populated_run & Hr)|(e & [Hc Hw]%events_populated_run & ->)].
  2:{ split_and!; [lia|lia|]. exists (cg_clock s). split; [lia|done]. }
  destruct b; cbn [negb] in Hr; [|injection Hr as <- <-; split_and!; [lia|lia|done]].
  unfold mbind, M_bind at 1, ask in Hr. rewrite Hc in Hr. cbn in Hr.
  destruct (deadline <? now_at (S (cg_clock s))) eqn:Hd.
  { injection Hr as <- <-. cbn. split_and!; [lia|lia|done|]. by apply Z.ltb_lt. }
  apply Z.ltb_ge in Hd. unfold tryM, attempt, read_fd_pread, mbind, M_bind in Hr. cbn in Hr.
  destruct (poll_at _ _ _) as [u|e] eqn:Hpoll; cbn in Hr.
  - destruct (pread_at _ _ _) as [text|e] eqn:Hread; cbn in Hr; injection Hr as <- <-; cbn.
    + split_and!; [lia|right; split; [done|lia]|done].
    + split_and!; [lia|right; split; [done|lia]|]. eexists. split; [|right; left; exact Hread]. lia.
  - destruct (errno_is e EINTR); injection Hr as <- <-; cbn.
    + split_and!; [lia|right; split; [done|lia]|done].
    + split_and!; [lia|right; split; [done|lia]|]. eexists. split; [|right; right; right; eexists; exact Hpoll]. lia.
Qed.

(** Every turn begins after the set-up, or within three calls of a reading of the clock
    before the deadline. *)
Definition turn_begins (s0 : cstate) (deadline : Z) (s : cstate) : Prop :=
  cg_clock s = (cg_clock s0 + 3)%nat ∨
  (cg_clock s0 + 3 <= cg_clock s)%nat ∧ ∃ u, now_at u <= deadline ∧ (cg_clock s <= u + 3)%nat.

Lemma turn_begins_keep s0 d deadline s s' :
  turn_begins s0 deadline s → wait_turn printable d deadline s = (Ok None, s') → turn_begins s0 deadline s'.
Proof.
  intros Hb (Hlt & Hle & Hnow)%wait_turn_run. right. split; [destruct Hb as [Hb|[Hb _]]; lia|].
  exists (S (cg_clock s)). split; [done|lia].
Qed.

Lemma turns_suffice d start timeout s s' :
  timeout < 2 ^ 96 → start < now_at (cg_clock s) →
  repeat_until WAIT_TURNS (wait_turn printable d (start + timeout)) s ≠ (Ok None, s').
Proof.
  intros Ht Hs Hr. apply (repeat_all _ (fun s => now_at (cg_clock s)) (start + timeout)) in Hr as [Hr _].
  - change (Z.of_nat WAIT_TURNS) with 96 in Hr. cbn beta in Hr. lia.
  - intros s1 s2 (Hlt & _ & Hnow)%wait_turn_run. pose proof (now_advances (cg_clock s1)).
    pose proof (now_mono (cg_clock s1) (cg_clock s2)). cbn beta. lia.
Qed.

(** The three ways a wait ends. *)
Lemma wait_run c timeout s r s' :
  0 <= timeout < 2 ^ 96 →
  wait_until_empty printable c timeout s = (r, s') →
  (cg_clock s' <= cg_clock s + 3)%nat ∧
    match r with
    | Ok b => b = true ∧ ∃ t, (cg_clock s <= t < cg_clock s')%nat ∧ seen (cg_dir c) false t
    | Err e => ∃ t, (cg_clock s <= t < cg_clock s')%nat ∧ went_wrong (cg_dir c) e t
    end ∨
  ∃ s0 r0, turn_begins s (now_at (cg_clock s) + timeout) s0 ∧
    wait_turn printable (cg_dir c) (now_at (cg_clock s) + timeout) s0 = (r0, s') ∧
    match r0 with Ok (Some b) => r = Ok b | Ok None => False | Err e => r = Err e end.
Proof.
  intros Ht Hr. unfold wait_until_empty in Hr. unfold mbind, M_bind at 1, ask, open_control_read, attempt in Hr. cbn in Hr.
  destruct (openat_at _ _ _) as [u|e] eqn:Hopen; cbn in Hr.
  2:{ left. injection Hr as <- <-. cbn. split; [lia|]. eexists. split; [|left; exact Hopen]. lia. }
  unfold M_bind at 1 in Hr. destruct (events_populated printable _ _) as [r1 s1] eqn:Hev.
  apply events_populated_run in Hev as [Hc Hev]. cbn in Hc, Hev.
  destruct r1 as [b|e]; [|left; injection Hr as <- <-; split; [lia|]; eexists; split; [|exact Hev]; lia].
  destruct b; [|left; injection Hr as <- <-; split; [lia|]; split; [done|]; eexists; split; [|exact Hev]; lia].
  cbn [negb] in Hr. right. unfold M_bind in Hr. destruct (repeat_until _ _ _) as [r2 s2] eqn:Hrep.
  assert (now_at (cg_clock s) < now_at (cg_clock s1)) by (pose proof (now_mono (cg_clock s) (cg_clock s1)); lia).
  assert (Hfirst : turn_begins s (now_at (cg_clock s) + timeout) s1) by (left; lia).
  destruct (repeat_last _ (turn_begins s (now_at (cg_clock s) + timeout)) _ _ _ _
    (fun s1 s2 => turn_begins_keep s _ _ s1 s2) Hfirst Hrep) as [[_ ->]|[Hne (s0 & Hb & Hturn)]].
  { exfalso. refine (turns_suffice (cg_dir c) (now_at (cg_clock s)) timeout s1 s2 _ _ Hrep); [lia|done]. }
  exists s0, r2. destruct r2 as [[b|]|e]; [|done|]; injection Hr as <- <-; by split_and!.
Qed.

(** C34: Waiting for a group to empty ends in time and tells the truth, whatever the
    kernel answers and however many interruptions or notifications arrive: once the
    timeout has passed, at most four more calls are made (so that no call blocks again);
    "empty" was read from the membership file during the wait, "timed out" means that the
    file still said populated and that the timeout had passed, and an error is one the
    kernel gave or a malformed membership file; and waiting changes nothing. *)
Theorem waiting_ends_and_is_sound c timeout s r s' :
  0 <= timeout < 2 ^ 96 →
  wait_until_empty printable c timeout s = (r, s') →
  cg_log s' = cg_log s ∧
  (∀ t, (cg_clock s <= t)%nat → now_at (cg_clock s) + timeout < now_at t → (cg_clock s' <= t + 4)%nat) ∧
  ∃ t, (cg_clock s <= t < cg_clock s')%nat ∧
    match r with
    | Ok true => seen (cg_dir c) false t
    | Ok false => seen (cg_dir c) true t ∧ now_at (cg_clock s) + timeout < now_at (S t)
    | Err e => went_wrong (cg_dir c) e t
    end.
Proof.
  intros Ht Hr. split_and!.
  - pose proof (made_nothing _ s (wait_tracked c timeout)) as Hm. rewrite Hr in Hm. destruct Hm as [Hm _].
    cbn in Hm. by rewrite Hm, app_nil_r.
  - intros t Hst Hpast. apply wait_run in Hr as [[Hle _]|(s0 & r0 & Hb & (_ & Hle & _)%wait_turn_run & _)]; [lia| |done].
    assert (Hafter : ∀ u, now_at u <= now_at (cg_clock s) + timeout → (u < t)%nat).
    { intros u Hu. destruct (decide (t <= u)%nat) as [Htu|]; [|lia]. pose proof (now_mono t u Htu). lia. }
    pose proof (Hafter (cg_clock s) ltac:(lia)).
    destruct Hb as [Hb|[_ (u & Hu%Hafter & Hb)]], Hle as [Hle|[Hle%Hafter Hle']]; lia.
  - apply wait_run in Hr as [[_ Hr]|(s0 & r0 & Hb & (Hlt & _ & Hturn)%wait_turn_run & Hr0)]; [| |done].
    { destruct r as [[]|]; [by destruct Hr|by destruct Hr|done]. }
    assert (cg_clock s <= cg_clock s0)%nat by (destruct Hb as [Hb|[Hb _]]; lia).
    destruct r0 as [[[]|]|e]; [subst r..|done|subst r]; [by exists (cg_clock s0)..|].
    destruct Hturn as (t & Hin & Hw). exists t. split; [lia|done].
Qed.

(** ** The parent of new groups *)

(** What looking for a parent may do to the candidate [p]: enable controllers for its
    children, and make and remove a scratch group. *)
Definition probes (p : list string) (a : action) : Prop :=
  (∃ value, a = Control (AtPath p) "cgroup.subtree_control" value) ∨
  (∃ name, starts_with "probe-" name = true ∧ (a = Mkdir (AtPath p) name ∨ a = Rmdir (AtPath p) name)).

Definition probe_name (serial : Z) : string := "probe-" +:+ fmt_dec pid +:+ "-" +:+ fmt_dec serial.

Lemma probe_name_prefix serial : starts_with "probe-" (probe_name serial) = true.
Proof. unfold starts_with, probe_name. by rewrite strip_prefix_app. Qed.

Lemma c_str_app a b : has_nul a = false → c_str (a +:+ b) = (a +:+ c_str b).
Proof.
  unfold has_nul. rewrite negb_false_iff. induction a as [|c a IH]; [done|]. rewrite !str_app_cons. cbn.
  rewrite andb_true_iff, negb_true_iff. intros [-> Hn]. by rewrite IH.
Qed.

Lemma probe_tracked p : tracked (fun _ => probes p) (probe_writable (AtPath p)).
Proof.
  intros s. unfold probe_writable. fold (probe_name (cg_serial s)). set (n := probe_name _).
  set (s0 := MkCgState _ _ _). assert (Hm : made s s0 []) by (split_and!; [by rewrite app_nil_r|done|constructor]).
  assert (Hc : starts_with "probe-" (c_str n) = true).
  { unfold n, probe_name. rewrite c_str_app by done. unfold starts_with. by rewrite strip_prefix_app. }
  assert (Hun : tracked (fun _ => probes p) (unlink_directory (AtPath p) n)).
  { unfold unlink_directory. track. apply tracked_act. intros _ _. right. exists n.
    split; [apply probe_name_prefix|by right]. }
  assert (Htr : tracked (fun _ => probes p) (_ ← mkdirat (AtPath p) n;
    cleanup_on_error (drop_guard (E := io_error) (AtPath p) n) (unlink_directory (AtPath p) n))).
  { unfold mkdirat, drop_guard. track; try done. apply tracked_act. intros _ _. right. eauto. }
  destruct (Htr s0) as (l & Hl & HP). exists l. split; [exact (made_trans _ _ _ _ _ Hm Hl)|done].
Qed.

Lemma probe_Ok p s u s' :
  probe_writable (AtPath p) s = (Ok u, s') →
  ∃ l name t1 t2, made s s' l ∧ (t1, Mkdir (AtPath p) name) ∈ l ∧ (t2, Rmdir (AtPath p) name) ∈ l.
Proof.
  unfold probe_writable. set (s0 := MkCgState _ _ _). set (n := "probe-" +:+ _).
  assert (Hm : made s s0 []) by (split_and!; [by rewrite app_nil_r|done|constructor]).
  intros Hr. apply bind_Ok in Hr as ([] & s1 & [_ Hmk]%act_Ok & Hr%cleanup_Ok).
  unfold unlink_directory in Hr. destruct (has_nul n) eqn:Hnul; [done|]. apply act_Ok in Hr as [_ Hrm].
  rewrite c_str_id in Hmk by done.
  exists ([] ++ [(cg_clock s0, Mkdir (AtPath p) n)] ++ [(cg_clock s1, Rmdir (AtPath p) n)]), n, (cg_clock s0), (cg_clock s1).
  split_and!; [exact (made_trans _ _ _ _ _ Hm (made_trans _ _ _ _ _ Hmk Hrm))|left|right; left].
Qed.

(** A word that a control file of [d] holds when it is read. *)
Definition holds_word (d : cdir) (file word : string) : Prop :=
  ∃ t text, read_at t d file = Ok text ∧ word ∈ split_whitespace text.

Lemma holds_of_read d file s res s' word :
  read_control d file s = (res, s') →
  word ∈ split_whitespace (match res with Ok text => text | Err _ => "" end) → holds_word d file word.
Proof.
  unfold read_control. intros Hr Hw. apply bind_inv in Hr as [(text & s1 & Hread & Hr)|(e & Hread & ->)].
  - unfold attempt in Hread. injection Hread as Hread _. destruct (utf8_valid text); injection Hr as <- _;
      [by exists (cg_clock s), text|by apply not_elem_of_nil in Hw].
  - by apply not_elem_of_nil in Hw.
Qed.

(** A controller that the children of [d] have: it was enabled, or the run enabled it. *)
Definition enabled (d : cdir) (l : list (nat * action)) (c : string) : Prop :=
  holds_word d "cgroup.subtree_control" c ∨
  ∃ t value requested, (t, Control d "cgroup.subtree_control" value) ∈ l ∧ c ∈ requested ∧
    value = Net.join " " (map (fun c => "+" +:+ c) requested).

Definition usable (exempt : bool) (needed : list string) (p : list string) (l : list (nat * action)) : Prop :=
  (exempt = true ∨ ∃ t text, read_at t (AtPath p) "cgroup.procs" = Ok text ∧ trim text = "") ∧
  Forall (holds_word (AtPath p) "cgroup.controllers") needed ∧
  Forall (enabled (AtPath p) l) needed ∧
  (∃ name t1 t2, (t1, Mkdir (AtPath p) name) ∈ l ∧ (t2, Rmdir (AtPath p) name) ∈ l).

Lemma try_candidate_tracked exempt needed p : tracked (fun _ => probes p) (try_candidate printable exempt needed p).
Proof.
  unfold try_candidate. track; try (by apply probe_tracked).
  all: apply tracked_act; intros _ _; left; by eexists.
Qed.

(** A part of a run that changes nothing. *)
Lemma quiet_run {E A} (m : M cstate E A) s r s' : tracked nothing m → m s = (r, s') → made s s' [].
Proof. intros Hm Hr. pose proof (made_nothing m s Hm) as Hs. by rewrite Hr in Hs. Qed.

Lemma members_check_Ok (exempt : bool) p (fails : io_error → string) (full : string) s u s' :
  (if exempt then (mret tt : M cstate string unit)
   else processes ← mapE fails (read_control (AtPath p) "cgroup.procs");
        if bool_decide (trim processes = "") then mret tt else fail full) s = (Ok u, s') →
  made s s' [] ∧ (exempt = true ∨ ∃ t text, read_at t (AtPath p) "cgroup.procs" = Ok text ∧ trim text = "").
Proof.
  destruct exempt; [intros [_ ->]%ret_Ok; split; [apply made_refl|by left]|]. intros Hr.
  apply bind_Ok in Hr as (text & s1 & Hread%mapE_Ok & Hr).
  pose proof (quiet_run _ _ _ _ (read_control_tracked _ _) Hread) as Hm.
  case_bool_decide as Htrim; [|done]. apply ret_Ok in Hr as [_ ->]. split; [done|]. right.
  unfold read_control in Hread. inv_run. unfold attempt in *. simplify_eq/=. by eexists _, _.
Qed.

Lemma filter_nil_Forall (l have : list string) : filter (λ c, c ∉ have) l = [] → Forall (λ c, c ∈ have) l.
Proof.
  intros Hf. apply Forall_forall. intros c Hc. destruct (decide (c ∈ have)) as [|Hn]; [done|].
  assert (Hin : c ∈ filter (λ c, c ∉ have) l) by (by apply list_elem_of_filter).
  rewrite Hf in Hin. by apply not_elem_of_nil in Hin.
Qed.

Lemma enable_Ok p (needed have : list string) (fails : io_error → string) s u s' :
  let to_enable := filter (λ c, c ∉ have) needed in
  let value := Net.join " " (map (fun c => "+" +:+ c) to_enable) in
  (if bool_decide (to_enable = []) then (mret tt : M cstate string unit)
   else mapE fails (write_control (AtPath p) "cgroup.subtree_control" value)) s = (Ok u, s') →
  (∀ c, c ∈ have → holds_word (AtPath p) "cgroup.subtree_control" c) →
  ∃ l, made s s' l ∧ Forall (enabled (AtPath p) l) needed.
Proof.
  cbn zeta. intros Hr Hhave. case_bool_decide as Hnil.
  - apply ret_Ok in Hr as [_ ->]. exists []. split; [apply made_refl|].
    eapply Forall_impl; [by apply filter_nil_Forall|]. intros c Hc. left. auto.
  - apply mapE_Ok, act_Ok in Hr as [_ Hm]. eexists. split; [exact Hm|]. apply Forall_forall. intros c Hc.
    destruct (decide (c ∈ have)) as [Hin|Hn]; [left; auto|right].
    eexists _, _, _. split_and!; [left| |done]. by apply list_elem_of_filter.
Qed.

Lemma enabled_mono d l l1 l2 c : enabled d l c → enabled d (l1 ++ l ++ l2) c.
Proof.
  intros [Hh|(t & v & req & Hin & Hrest)]; [by left|]. right. exists t, v, req. split; [|done].
  rewrite !elem_of_app. auto.
Qed.

Lemma try_candidate_Ok exempt needed p s rp s' :
  try_candidate printable exempt needed p s = (Ok rp, s') →
  rp = MkResolved (AtPath p) p ∧ ∃ l, made s s' l ∧ usable exempt needed p l.
Proof.
  unfold try_candidate. intros Hr. apply bind_Ok in Hr as (u1 & s1 & Ho%mapE_Ok & Hr).
  pose proof (quiet_run _ _ _ _ (tracked_attempt _) Ho) as Hm0.
  apply bind_Ok in Hr as (u2 & s2 & [Hm1 Hprocs]%members_check_Ok & Hr).
  apply bind_Ok in Hr as (av & s3 & Hav%tryM_Ok & Hr).
  pose proof (quiet_run _ _ _ _ (read_control_tracked _ _) Hav) as Hm2. cbn zeta in Hr.
  apply bind_Ok in Hr as (u3 & s4 & Hmiss & Hr). case_bool_decide as Hnil; [|done].
  apply ret_Ok in Hmiss as [_ ->]. apply bind_Ok in Hr as (en & s5 & Hen%tryM_Ok & Hr).
  pose proof (quiet_run _ _ _ _ (read_control_tracked _ _) Hen) as Hm3. cbn zeta in Hr.
  apply bind_Ok in Hr as (u4 & s6 & Hwrite & Hr). apply enable_Ok in Hwrite as (lw & Hm4 & Hall).
  2: { intros c Hc. by eapply holds_of_read. }
  apply bind_Ok in Hr as (u5 & s7 & (lp & name & t1 & t2 & Hm5 & Hmk & Hrm)%mapE_Ok%probe_Ok & Hr).
  apply ret_Ok in Hr as [-> ->]. split; [done|]. exists ([] ++ [] ++ [] ++ [] ++ lw ++ lp). split.
  - repeat (eapply made_trans; [eassumption|]). done.
  - cbn [app]. split_and!; [done| | |].
    + eapply Forall_impl; [by apply filter_nil_Forall|]. intros c Hc. by eapply holds_of_read.
    + eapply Forall_impl; [exact Hall|]. intros c Hc. by apply (enabled_mono _ _ [] lp).
    + exists name, t1, t2. rewrite !elem_of_app. auto.
Qed.

Lemma usable_mono exempt needed p l l1 l2 : usable exempt needed p l → usable exempt needed p (l1 ++ l ++ l2).
Proof.
  intros (Hp & Hav & Hen & name & t1 & t2 & Hmk & Hrm). split_and!; [done|done| |].
  - eapply Forall_impl; [exact Hen|]. intros c. apply enabled_mono.
  - exists name, t1, t2. rewrite !elem_of_app. auto.
Qed.

Definition exempt_root (global_root : option (list string)) (candidate : list string) : bool :=
  match global_root with Some root => paths_equal root candidate | None => false end.

Lemma try_candidates_run global_root needed candidates last_error s r s' :
  try_candidates printable global_root needed candidates last_error s = (r, s') →
  ∃ l, made s s' l ∧ Forall (fun e => ∃ p, p ∈ candidates ∧ probes p e.2) l ∧
    (∀ rp, r = Ok rp → rp_path rp ∈ candidates ∧ rp_dir rp = AtPath (rp_path rp) ∧
       usable (exempt_root global_root (rp_path rp)) needed (rp_path rp) l).
Proof.
  revert last_error s; induction candidates as [|p candidates IH]; intros last_error s; cbn [try_candidates].
  { intros [= <- <-]. exists []. split_and!; [apply made_refl|constructor|done]. }
  fold (exempt_root global_root p). set (x := exempt_root global_root p).
  unfold mbind, M_bind, tryM. destruct (try_candidate printable x needed p s) as [res s1] eqn:Htry.
  pose proof (tracked_run _ _ _ _ _ (try_candidate_tracked _ _ _) Htry) as (l1 & Hl1 & HP1).
  assert (HP1' : Forall (fun e => ∃ q, q ∈ p :: candidates ∧ probes q e.2) l1).
  { eapply Forall_impl; [exact HP1|]. cbn. intros e He. exists p. split; [left|done]. }
  destruct res as [rp|error].
  - intros [= <- <-]. apply try_candidate_Ok in Htry as (-> & l & Hl & Hus). exists l.
    assert (l = l1) as ->. { destruct Hl as [Hl _], Hl1 as [Hl1 _]. rewrite Hl in Hl1. by apply app_inv_head in Hl1. }
    split_and!; [done|done|]. intros rp [= <-]. cbn. split_and!; [left|done|done].
  - intros (l2 & Hl2 & HP2 & Hok)%IH. exists (l1 ++ l2). split_and!; [by eapply made_trans| |].
    + apply Forall_app. split; [done|]. eapply Forall_impl; [exact HP2|]. intros e (q & Hq & He). exists q.
      split; [by right|done].
    + intros rp Hr. destruct (Hok rp Hr) as (Hin & Hd & Hus). split_and!; [by right|done|].
      rewrite <-(app_nil_r l2). by apply usable_mono.
Qed.

Lemma read_current_tracked {E} : tracked nothing (read_current_path (E := E)).
Proof. unfold read_current_path, read_mountinfo. track. Qed.

(** The mount of the unified hierarchy as the mount table shows it at time [t]. *)
Definition mounted (t : nat) : option (string * string) := cgroup2_mount (proc_text_at t "/proc/self/mountinfo").

(** Where a parent may be looked for: at the configured path only, or at the
    discovered ancestors. *)
Definition allowed (explicit : option string) (t : nat) (candidates : list (list string)) : Prop :=
  match explicit with
  | Some path => Path.is_absolute path = true ∧ candidates = [Path.components path]
  | None => ∃ current mount fs_root, mounted t = Some (mount, fs_root) ∧
              candidates = auto_creation_parent_candidates current (Path.components mount)
  end.

Lemma creation_candidates_tracked explicit root : tracked nothing (creation_candidates explicit root).
Proof.
  unfold creation_candidates. destruct explicit; [track|].
  apply tracked_bind; [apply read_current_tracked|]. intros. track.
Qed.

Lemma creation_candidates_Ok explicit t s cs s' :
  creation_candidates explicit ((fun m => Path.components m.1) <$> mounted t) s = (Ok cs, s') → allowed explicit t cs.
Proof.
  unfold creation_candidates. destruct explicit as [path|]; cbn.
  - destruct (Path.is_absolute path); [|done]. by intros [-> _]%ret_Ok.
  - intros Hc. apply bind_Ok in Hc as ([current|] & s1 & _ & Hc); [|done].
    destruct (mounted t) as [[mount fs_root]|]; [|done]. apply ret_Ok in Hc as [-> _].
    by exists current, mount, fs_root.
Qed.

(** A resolved parent can hold what it was resolved for.  It is the configured path
    when one is configured, which is then absolute, and a discovered ancestor of the
    daemon's group otherwise; it had no member processes when it was looked at, unless it
    is the root of the whole hierarchy; each controller the limits need was available
    there and is enabled for its children, by what the file said or by the write that was
    made; and a group was made in it and removed.  Looking changes nothing but the
    controllers of the candidates and the scratch groups. *)
Theorem resolved_parents_are_usable explicit needed s r s' :
  resolve_creation_parent printable explicit needed s = (r, s') →
  ∃ l, cg_log s' = cg_log s ++ l ∧
    (l ≠ [] → ∃ candidates, allowed explicit (cg_clock s) candidates ∧
       Forall (fun e => ∃ p, p ∈ candidates ∧ probes p e.2) l) ∧
    (∀ rp, r = Ok rp →
       rp_dir rp = AtPath (rp_path rp) ∧
       (∃ candidates, allowed explicit (cg_clock s) candidates ∧ rp_path rp ∈ candidates) ∧
       ∃ exempt, usable exempt needed (rp_path rp) l ∧
         (exempt = true → ∃ mount fs_root, mounted (cg_clock s) = Some (mount, fs_root) ∧
            Path.components fs_root = ["/"] ∧ rp_path rp = Path.components mount)).
Proof.
  intros Hr. unfold resolve_creation_parent in Hr.
  apply bind_inv in Hr as [(info & s1 & Hinfo & Hr)|(e & Hinfo & _)]; [|done].
  pose proof (quiet_run _ _ _ _ (tracked_ask _) Hinfo) as Hm0.
  unfold read_mountinfo, ask in Hinfo. injection Hinfo as <- _. fold (mounted (cg_clock s)) in Hr. cbn zeta in Hr.
  apply bind_inv in Hr as [(cs & s2 & Hcs & Hr)|(e & Hcs & ->)];
    pose proof (quiet_run _ _ _ _ (creation_candidates_tracked _ _) Hcs) as Hm1;
    pose proof (made_trans _ _ _ _ _ Hm0 Hm1) as [Hlog _]; cbn in Hlog.
  2: { exists []. by split_and!. }
  apply creation_candidates_Ok in Hcs.
  apply try_candidates_run in Hr as (l & [Hl _] & HP & Hok). rewrite app_nil_r in Hlog.
  exists l. split_and!; [by rewrite Hl, Hlog|intros _; by exists cs|].
  intros rp Hrp. destruct (Hok rp Hrp) as (Hin & Hd & Hus). split_and!; [done|by exists cs|].
  eexists. split; [exact Hus|]. unfold exempt_root, paths_equal.
  destruct (mounted (cg_clock s)) as [[mount fs_root]|] eqn:Hmount; [|done].
  destruct (bool_decide (Path.components fs_root = _)) eqn:Hroot; [|done]. apply bool_decide_eq_true in Hroot.
  intros Heq%bool_decide_eq_true. by exists mount, fs_root.
Qed.

(** ** Domains of one daemon and start-up of the next *)

Definition visible (s : string) : bool := str_all Delegation.graph_char s.

Lemma visible_owned name : visible name = true → starts_with PROCESS_DOMAIN_PREFIX name = true →
  owned_name name = true ∧ has_nul name = false.
Proof.
  intros Hv Hp. unfold owned_name, has_nul. rewrite Hp, andb_true_r. split.
  - apply utf8_valid_ascii. eapply str_all_impl; [|exact Hv]. intros c. unfold Delegation.graph_char, ascii_char.
    rewrite !in_range_bounds. lia.
  - apply negb_false_iff. eapply str_all_impl; [|exact Hv]. intros c. unfold Delegation.graph_char.
    rewrite in_range_bounds. lia.
Qed.

Lemma hex_visible w n : visible (fmt_hex_fixed w n) = true.
Proof.
  revert n; induction w as [|w IH]; intros n; cbn [fmt_hex_fixed]; [done|]. unfold visible in *.
  rewrite str_all_app, IH. cbn [str_all]. rewrite andb_true_r. cbn [andb].
  assert (Hd : n mod 16 ∈ seqZ 0 16) by (apply elem_of_seqZ; pose proof (Z.mod_pos_bound n 16); lia).
  revert Hd. generalize (n mod 16). intros d Hd.
  repeat (apply elem_of_cons in Hd as [->|Hd]; [by vm_compute|]). by apply not_elem_of_nil in Hd.
Qed.

Lemma candidate_visible name k : visible name = true → 0 <= k → visible (candidate_name name k) = true.
Proof.
  intros Hn Hk. unfold candidate_name. case_match; [done|]. unfold visible in *.
  rewrite !str_all_app, Hn. cbn [str_all andb]. apply andb_true_iff. split; [by vm_compute|].
  eapply str_all_impl; [|by apply fmt_dec_digits]. apply Delegation.digit_graph.
Qed.

Lemma candidate_prefix p suffix k : starts_with p (candidate_name (p +:+ suffix) k) = true.
Proof.
  unfold starts_with, candidate_name. destruct (k =? 0); rewrite ?str_app_assoc; by rewrite strip_prefix_app.
Qed.

(** What one daemon creates, the next one recognises.  The group of every process
    domain a scope created lies directly below the scope's parent under a name that
    start-up counts as its own; so when a later start-up of a scope with the same parent
    succeeds and the group was listed as a directory, its members were told to die and the
    group is gone. *)
Theorem created_domains_are_reclaimed scope limits s dom s' :
  create_domain printable scope limits s = (Ok dom, s') →
  let name := cg_name (pd_cgroup dom) in
  pd_resources dom = limits ∧
  cg_dir (pd_cgroup dom) = Child (rp_dir scope) name ∧ cg_parent (pd_cgroup dom) = rp_dir scope ∧
  owned_name name = true ∧
  (∀ later t n t', rp_dir later = rp_dir scope →
     reconcile_stale printable later t = (Ok n, t') →
     (∀ entries e, readdir_at (cg_clock t) (rp_dir scope) = Ok (entries, e) → name ∈ entries) →
     (∀ u, ∃ m, mode_at u (rp_dir scope) name = Some m ∧ is_directory m = true) →
     ∃ l, cg_log t' = cg_log t ++ l ∧ reclaimed (rp_dir scope) l name).
Proof.
  intros Hr. unfold create_domain, random_suffix in Hr.
  apply bind_Ok in Hr as (suffix & s1 & Hs & Hr). inv_run.
  match goal with Hc : create_process_domain_cgroup_under _ _ _ _ _ = _ |- _ => rename Hc into Hcreate end.
  unfold create_process_domain_cgroup_under, create_cgroup_under in Hcreate.
  set (base := PROCESS_DOMAIN_PREFIX +:+ _) in Hcreate.
  assert (Hv : visible base = true).
  { unfold base, visible. rewrite str_all_app. apply andb_true_iff. split; [by vm_compute|apply hex_visible]. }
  assert (Hnul : has_nul base = false).
  { apply visible_owned; [done|]. unfold base, starts_with. by rewrite strip_prefix_app. }
  apply create_attempts_run in Hcreate as (l & _ & i & Hi & -> & _); [|done|lia]. cbn.
  destruct (visible_owned (candidate_name base i)) as [Hown Hno];
    [by apply candidate_visible; [|lia]|apply candidate_prefix|].
  split_and!; [done..|]. intros later t n t' Hlater Hrec Hlist Hdir.
  unfold reconcile_stale, reconcile_process_domain_cgroups in Hrec. rewrite Hlater in Hrec.
  apply bind_Ok in Hrec as (names & t1 & Hnames & Hrec).
  pose proof (quiet_run _ _ _ _ (owned_names_tracked _) Hnames) as [Hlog _].
  apply owned_names_Ok in Hnames as (entries & Hread & Hall & Hin).
  apply reconcile_names_Ok in Hrec as (_ & lr & [Hl _] & Hrecl); [|done]. exists lr.
  rewrite Hl, Hlog, app_nil_r. split; [done|]. rewrite Hlater in Hrecl. rewrite Forall_forall in Hrecl.
  apply Hrecl, Hin; [by eapply Hlist|done..].
Qed.

End groups.

(** ** A host to run on *)

(** A delegated service group [/sys/fs/cgroup/shbox] with the daemon in its leaf; one
    domain is left over from an earlier run, and no group has members. *)
Definition sample_mountinfo : string := print_mount seq_escaped
  (MkMountLine "34" "25" "0:29" "/" "/sys/fs/cgroup" "rw,nosuid" ["shared:9"] "cgroup2" "rw").

#[local] Program Instance sample_cgroups : CgroupKernel := {|
  proc_text_at := fun _ file =>
    Some (if bool_decide (file = "/proc/self/cgroup") then "0::/shbox/daemon" else sample_mountinfo);
  open_path_at := fun _ _ => Ok tt; openat_at := fun _ _ _ => Ok tt; dup_at := fun _ _ => Ok tt;
  mkdirat_at := fun _ _ _ => Ok tt; rmdirat_at := fun _ _ _ => Ok tt;
  read_at := fun _ _ file =>
    Ok (if bool_decide (file = "cgroup.events") then "populated 0"
        else if bool_decide (file = "cgroup.controllers") then "cpu memory pids"
        else if bool_decide (file = "cgroup.subtree_control") then "cpu" else "");
  pread_at := fun t _ _ => Ok (if (t <? 20)%nat then "populated 1" else "populated 0");
  write_at := fun _ _ _ _ => Ok tt; poll_at := fun _ _ _ => Ok tt;
  readdir_at := fun _ _ => Ok (["."; ".."; "sandbox-1"; "shbox-domain-00000000000000ff"], None);
  mode_at := fun _ _ _ => Some 16832; urandom_at := fun _ => Ok 255; now_at := fun t => Z.of_nat t |}.
Next Obligation. intros t. cbn. lia. Qed.

#[local] Existing Instance sample_host.
Definition ascii_only : Z → bool := fun _ => true.
Definition sample_scope : ResolvedParent := MkResolved (AtPath ["/"; "sys"; "fs"; "cgroup"; "shbox"]) ["/"; "sys"; "fs"; "cgroup"; "shbox"].
Definition sample_limits : ResourceLimits := MkLimits (Value 1048576) Unlimited (Value 64) Inherit.
Definition start : cstate := MkCgState 0 0 [].

Abbreviation sample_domain := "shbox-domain-00000000000000ff".
Definition sample_group (d : cdir) (name : string) : Cgroup := MkCgroup (Child d name) d name false.

Lemma sample_reconciled :
  ∃ s', reconcile_process_domain_cgroups ascii_only sample_scope start = (Ok 1, s').
Proof. eexists. vm_compute. reflexivity. Qed.

Lemma sample_created :
  ∃ c s', create_cgroup_under ascii_only sample_scope sample_limits "sandbox-" "00ff" start = (Ok c, s').
Proof. do 2 eexists. vm_compute. reflexivity. Qed.

Lemma sample_waited : ∃ s', wait_until_empty ascii_only (sample_group (AtPath []) "g") 1000 start = (Ok true, s').
Proof. eexists. vm_compute. reflexivity. Qed.

Lemma sample_resolved :
  ∃ s', resolve_creation_parent ascii_only None (needed_controllers sample_limits) start = (Ok sample_scope, s').
Proof. eexists. vm_compute. reflexivity. Qed.

Lemma sample_domain_created :
  ∃ s', create_domain ascii_only sample_scope sample_limits start
        = (Ok (MkDomain (sample_group (rp_dir sample_scope) sample_domain) sample_limits), s').
Proof. eexists. vm_compute. reflexivity. Qed.

Lemma reconciliation_is_confined_witness :
  ∃ s' l, reconcile_process_domain_cgroups ascii_only sample_scope start = (Ok 1, s') ∧ cg_log s' = l ∧
    Forall (fun e => reclaims ascii_only (rp_dir sample_scope) e.1 e.2) l ∧
    reclaimed (rp_dir sample_scope) l sample_domain.
Proof.
  destruct sample_reconciled as [s' Hr]. exists s'.
  destruct (reconciliation_is_confined ascii_only sample_scope start (Ok 1) s' Hr) as (l & Hl & HP & Hok).
  exists l. split_and!; [exact Hr|exact Hl|exact HP|].
  destruct (Hok 1 eq_refl) as (entries & names & Hread & _ & Hall & Hin). rewrite Forall_forall in Hall.
  apply Hall, Hin; [injection Hread as <-; right; right; right; left|by vm_compute|by vm_compute|].
  intros t. exists 16832. split; [done|by vm_compute].
Defined.

Lemma creation_is_all_or_nothing_witness :
  ∃ c s' l, create_cgroup_under ascii_only sample_scope sample_limits "sandbox-" "00ff" start = (Ok c, s') ∧
    cg_log s' = l ∧ length l = 4%nat.
Proof.
  destruct sample_created as (c & s' & Hr).
  destruct (creation_is_all_or_nothing ascii_only sample_scope sample_limits "sandbox-" "00ff" start (Ok c) s')
    as (l & Hl & i & Hi & _ & Hacts); [by vm_compute|exact Hr|].
  exists c, s', l. split_and!; [exact Hr|exact Hl|].
  apply (f_equal length) in Hacts. rewrite length_fmap in Hacts. by rewrite Hacts.
Defined.

Lemma waiting_ends_and_is_sound_witness :
  ∃ t s', wait_until_empty ascii_only (sample_group (AtPath []) "g") 1000 start = (Ok true, s') ∧
    (cg_clock start <= t < cg_clock s')%nat ∧ seen ascii_only (Child (AtPath []) "g") false t.
Proof.
  destruct sample_waited as [s' Hr].
  destruct (waiting_ends_and_is_sound ascii_only (sample_group (AtPath []) "g") 1000 start (Ok true) s')
    as (_ & _ & t & Hin & Hseen); [lia|exact Hr|]. exists t, s'. split; [exact Hr|]. split; [exact Hin|exact Hseen].
Defined.

Lemma resolved_parents_are_usable_witness :
  ∃ s' l, resolve_creation_parent ascii_only None (needed_controllers sample_limits) start = (Ok sample_scope, s') ∧
    Forall (holds_word (rp_dir sample_scope) "cgroup.controllers") ["memory"; "pids"] ∧
    Forall (enabled (rp_dir sample_scope) l) ["memory"; "pids"].
Proof.
  destruct sample_resolved as [s' Hr]. exists s'.
  destruct (resolved_parents_are_usable ascii_only None (needed_controllers sample_limits) start (Ok sample_scope) s' Hr)
    as (l & _ & _ & Hok).
  destruct (Hok sample_scope eq_refl) as (_ & _ & exempt & (_ & Hav & Hen & _) & _).
  exists l. split_and!; [exact Hr|exact Hav|exact Hen].
Defined.

Lemma created_domains_are_reclaimed_witness :
  ∃ s' l, reconcile_stale ascii_only sample_scope start = (Ok 1, s') ∧ cg_log s' = l ∧
    reclaimed (rp_dir sample_scope) l sample_domain.
Proof.
  destruct sample_domain_created as [s1 Hc]. destruct sample_reconciled as [s' Hr]. exists s'.
  destruct (created_domains_are_reclaimed ascii_only sample_scope sample_limits start _ s1 Hc) as (_ & _ & _ & _ & Hlater).
  destruct (Hlater sample_scope start 1 s' eq_refl Hr) as (l & Hl & Hrec).
  - intros entries e [= <- _]. right; right; right; left.
  - intros t. exists 16832. split; [done|by vm_compute].
  - exists l. split_and!; [exact Hr|exact Hl|exact Hrec].
Defined.

End CgroupSafety.
