(* ===== verification/ChildRecords.v ===== *)
(** * What crosses the pipes of a launch ([shbox-sandbox]: linux/child.rs, linux/mod.rs, linux/clone3.rs, error.rs)

    The fixed-size records between a launcher and its child: the report of a failed
    set-up stage, the orders to the supervisor of a PID namespace and the exit status
    it sends back; the loops that move them through pipes in pieces; and the
    supervisor's event loop.  Byte arrays are lists of integers below 256, and a
    native-endian field is little-endian, as on the supported architectures. *)

From S2P Require Import Prelude Text Toml FileSystem RuntimeLedger Manager BrokerWire EnginePolicy.

Module Records.
Import Engine.

(** ** Exit statuses *)

Record ExitStatus := MkExit { exit_code : option Z; exit_signal : option Z; core_dumped : bool }.

Definition exit_from_code (code : Z) : ExitStatus := MkExit (Some code) None false.
Definition exit_from_signal (signal : Z) (core : bool) : ExitStatus := MkExit None (Some signal) core.

(** The macros of [waitpid(2)] on a status word. *)
Definition WTERMSIG (status : Z) : Z := Z.land status 127.
Definition WIFEXITED (status : Z) : bool := WTERMSIG status =? 0.
Definition WEXITSTATUS (status : Z) : Z := Z.land (Z.shiftr status 8) 255.
(** [(signed char)((status & 0x7f) + 1) >= 2]. *)
Definition WIFSIGNALED (status : Z) : bool :=
  let c := WTERMSIG status + 1 in 2 <=? (if c <? 128 then c else c - 256).
Definition WCOREDUMP (status : Z) : bool := negb (Z.land status 128 =? 0).

Definition CLD_EXITED : Z := 1.
Definition CLD_KILLED : Z := 2.
Definition CLD_DUMPED : Z := 3.

Definition siginfo_exit (code status : Z) : option ExitStatus :=
  if code =? CLD_EXITED then Some (exit_from_code status)
  else if code =? CLD_KILLED then Some (exit_from_signal status false)
  else if code =? CLD_DUMPED then Some (exit_from_signal status true)
  else None.

(** [waitid] through a pidfd: an error, or the [si_pid], [si_code] and [si_status]. *)
Definition pidfd_wait (answer : result io_error (Z * Z * Z)) (nohang : bool)
    : result io_error (option ExitStatus) :=
  '(si_pid, si_code, si_status) ← answer;
  if nohang && (si_pid =? 0) then mret None
  else mret (Some (default (exit_from_code 255) (siginfo_exit si_code si_status))).

(** ** Records *)

Definition STATUS_MAGIC : list Z := [83; 66; 88; 49].
Definition STATUS_RECORD_LEN : nat := 12.
Definition SUPERVISOR_EXIT_MAGIC : list Z := [83; 66; 88; 69].
Definition SUPERVISOR_EXIT_LEN : nat := 12.
Definition SUPERVISOR_CONTROL_LEN : nat := 8.
Definition SUPERVISOR_SIGNAL_DIRECT : Z := 1.
Definition SUPERVISOR_SIGNAL_GROUP : Z := 2.
Definition CHILD_SETUP_EXIT : Z := 126.
Definition MAP_READY : Z := 1.
Definition MAP_INSTALLED : Z := 2.

(** [i32::to_ne_bytes] and [from_ne_bytes]. *)
Definition i32_bytes (v : Z) : list Z := Wire.le_bytes 4 (v mod 2 ^ 32).
Definition i32_of (bs : list Z) : Z := Wire.to_i32 (Wire.from_le bs).

(** The record [child_fail] writes. *)
Definition status_record (stage : ChildStage) (detail errno : Z) : list Z :=
  let record := repeat 0 STATUS_RECORD_LEN in
  let record := Wire.put record 0 STATUS_MAGIC in
  let record := Wire.put record 4 [code stage] in
  let record := Wire.put record 5 [detail] in
  Wire.put record 8 (i32_bytes errno).

Record ChildFailure := MkFailure { f_stage : ChildStage; f_detail : Z; f_errno : option Z }.

Definition parse_child_failure (record : list Z) : option ChildFailure :=
  if bool_decide (take 4 record ≠ STATUS_MAGIC) then None
  else
    stage ← from_code (nth 4 record 0);
    Some (MkFailure stage (nth 5 record 0) (Some (i32_of (take 4 (drop 8 record))))).

(** The record of [write_supervisor_exit]. *)
Definition supervisor_exit_record (status : Z) : list Z :=
  let '(kind, value, core) :=
    if WIFEXITED status then (0, WEXITSTATUS status, 0)
    else if WIFSIGNALED status then (1, WTERMSIG status, if WCOREDUMP status then 1 else 0)
    else (0, 255, 0) in
  let record := Wire.put (repeat 0 SUPERVISOR_EXIT_LEN) 0 SUPERVISOR_EXIT_MAGIC in
  let record := Wire.put record 4 [kind] in
  let record := Wire.put record 5 [core] in
  Wire.put record 8 (i32_bytes value).

Definition parse_supervisor_exit (record : list Z) : option ExitStatus :=
  if bool_decide (take 4 record ≠ SUPERVISOR_EXIT_MAGIC) then None
  else
    let value := i32_of (take 4 (drop 8 record)) in
    let kind := nth 4 record 0 in
    if kind =? 0 then Some (exit_from_code value)
    else if kind =? 1 then Some (exit_from_signal value (negb (nth 5 record 0 =? 0)))
    else None.

(** The packet of [send_supervisor_signal], and what the supervisor makes of it. *)
Definition control_record (kind number : Z) : list Z :=
  Wire.put (Wire.put (repeat 0 SUPERVISOR_CONTROL_LEN) 0 (Wire.le_bytes 4 kind)) 4 (i32_bytes number).

(** [sent] is what [send(2)] answered. *)
Definition send_supervisor_signal (kind number : Z) (sent : list Z → result io_error Z) : result io_error unit :=
  if negb ((0 <=? number) && (number <=? 64))
  then Err (IoOther ("invalid Linux signal number " +:+ (if number <? 0 then "-" +:+ fmt_dec (- number) else fmt_dec number)))
  else
    let record := control_record kind number in
    count ← sent record;
    if negb (count =? Z.of_nat (length record)) then Err (IoOther "short PID-namespace supervisor control write")
    else mret tt.

Definition control_target (user_pid : Z) (record : list Z) : option (Z * Z) :=
  let kind := Wire.from_le (take 4 record) in
  let signal := i32_of (take 4 (drop 4 record)) in
  if kind =? SUPERVISOR_SIGNAL_DIRECT then Some (user_pid, signal)
  else if kind =? SUPERVISOR_SIGNAL_GROUP then Some (- user_pid, signal)
  else None.

(** ** Pipes *)

(** What one [write(2)] or [read(2)] does: it is interrupted, it fails (or a write moves
    nothing), or it moves at most [n + 1] bytes. *)
Inductive turn := Interrupted | Failed (errno : Z) | Upto (n : nat).

(** The loops that write a record: a failure, or nothing written, ends them.  Gives the
    bytes that got through. *)
Fixpoint write_record (turns : list turn) (bytes : list Z) : list Z :=
  match bytes with
  | [] => []
  | _ =>
      match turns with
      | [] => []
      | Interrupted :: rest => write_record rest bytes
      | Failed _ :: _ => []
      | Upto n :: rest => take (S n) bytes ++ write_record rest (drop (S n) bytes)
      end
  end.

(** The loop that reads up to [want] bytes of what the pipe holds; at its end the
    writer is gone.  No value: the turns given are not enough to finish. *)
Fixpoint read_record (turns : list turn) (want : nat) (data : list Z) : option (result Z (list Z)) :=
  match want with
  | O => Some (Ok [])
  | S _ =>
      match turns with
      | [] => None
      | Interrupted :: rest => read_record rest want data
      | Failed errno :: _ => Some (Err errno)
      | Upto n :: rest =>
          match take (S n `min` want) data with
          | [] => Some (Ok [])
          | got =>
              match read_record rest (want - length got) (drop (length got) data) with
              | Some (Ok more) => Some (Ok (got ++ more))
              | other => other
              end
          end
      end
  end.

Inductive Outcome := Clean | FailedStage (failure : ChildFailure) | Corrupt (message : string).

Section reading.
Context `{Host}.

Definition read_child_failure (turns : list turn) (data : list Z) : option Outcome :=
  read ← read_record turns STATUS_RECORD_LEN data;
  Some (match read with
        | Err errno => Corrupt ("sandbox child status could not be read: " +:+ io_display (Errno errno))
        | Ok [] => Clean
        | Ok record =>
            if negb (length record =? STATUS_RECORD_LEN)%nat
            then Corrupt "sandbox child returned a truncated setup status"
            else match parse_child_failure record with
                 | Some failure => FailedStage failure
                 | None => Corrupt "sandbox child returned an invalid setup status"
                 end
        end).

Definition read_supervisor_exit (turns : list turn) (data : list Z) : option (result io_error ExitStatus) :=
  read ← read_record turns SUPERVISOR_EXIT_LEN data;
  Some (match read with
        | Err errno => Err (Errno errno)
        | Ok record =>
            if negb (length record =? SUPERVISOR_EXIT_LEN)%nat
            then Err (IoOther "PID-namespace supervisor exited without a complete user status")
            else ok_or (IoOther "PID-namespace supervisor returned an invalid user status")
                   (parse_supervisor_exit record)
        end).
End reading.

(** ** The supervisor of a PID namespace *)

Definition ECHILD : Z := 10.
Definition EINTR : Z := 4.
Definition ESRCH : Z := 3.

(** One answer of [waitpid(-1, .., WNOHANG)]. *)
Inductive waited := Reaped (pid status : Z) | NoneReady | WaitError (errno : Z).

(** The main process's status once it is reaped; [None] when the wait failed in a way
    that aborts. *)
Fixpoint reap_nonblocking (user_pid : Z) (answers : list waited) (main_status : option Z) : option (option Z) :=
  match answers with
  | [] => Some main_status
  | Reaped pid status :: rest =>
      reap_nonblocking user_pid rest (if pid =? user_pid then Some status else main_status)
  | NoneReady :: _ => Some main_status
  | WaitError errno :: rest =>
      if errno =? EINTR then reap_nonblocking user_pid rest main_status
      else if errno =? ECHILD then Some main_status
      else None
  end.

Inductive received := NoData | RecvError (errno : Z) | Packet (bytes : list Z).

(** What one turn of the loop sees: the waits, the poll (readable, hung up), the packet
    if there is one, and whether the signal could be sent; and, should the turn be the
    last, the blocking waits that follow and the writes of the report. *)
Record sup_turn := MkTurn
  { st_waits : list waited; st_poll : result Z (option (bool * bool)); (* readable, hung up *)
    st_recv : received; st_kill : result Z unit; st_drain : list (result Z Z); st_writes : list turn }.

(** What the supervisor asks of the kernel. *)
Inductive sup_call :=
| Kill (target signal : Z)
| WaitAny
| WriteExit (bytes : list Z)      (** What got through of the record. *)
| ExitWith (code : Z).

(** The waits, and whether they end in what is given. *)
Fixpoint reap_all_descendants (answers : list (result Z Z)) : list sup_call * bool :=
  match answers with
  | [] => ([], false)
  | Ok _ :: rest => let '(calls, ended) := reap_all_descendants rest in (WaitAny :: calls, ended)
  | Err errno :: rest =>
      if errno =? EINTR then let '(calls, ended) := reap_all_descendants rest in (WaitAny :: calls, ended)
      else ([WaitAny], true)
  end.

Definition SIGKILL : Z := 9.

Definition finish_supervisor (status : Z) (t : sup_turn) : list sup_call :=
  let '(waits, ended) := reap_all_descendants (st_drain t) in
  Kill (-1) SIGKILL :: waits ++
  (if ended then [WriteExit (write_record (st_writes t) (supervisor_exit_record status)); ExitWith 0] else []).

Definition abort_supervisor (t : sup_turn) : list sup_call :=
  let '(waits, ended) := reap_all_descendants (st_drain t) in
  Kill (-1) SIGKILL :: waits ++ (if ended then [ExitWith CHILD_SETUP_EXIT] else []).

(** The loop: every call it makes, with those that end it. *)
Fixpoint supervisor_loop (user_pid : Z) (turns : list sup_turn) : list sup_call :=
  match turns with
  | [] => []
  | t :: rest =>
      match reap_nonblocking user_pid (st_waits t) None with
      | None => abort_supervisor t
      | Some (Some status) => finish_supervisor status t
      | Some None =>
          match st_poll t with
          | Err errno => if errno =? EINTR then supervisor_loop user_pid rest else abort_supervisor t
          | Ok None => supervisor_loop user_pid rest
          | Ok (Some (readable, hung_up)) =>
              let after := if hung_up then abort_supervisor t else supervisor_loop user_pid rest in
              if readable then
                match st_recv t with
                | NoData => abort_supervisor t
                | RecvError errno => if errno =? EINTR then supervisor_loop user_pid rest else abort_supervisor t
                | Packet bytes =>
                    if negb (length bytes =? SUPERVISOR_CONTROL_LEN)%nat then supervisor_loop user_pid rest
                    else match control_target user_pid bytes with
                         | None => supervisor_loop user_pid rest
                         | Some (target, signal) =>
                             Kill target signal ::
                             match st_kill t with
                             | Err errno => if negb (errno =? ESRCH) then supervisor_loop user_pid rest else after
                             | Ok _ => after
                             end
                         end
                end
              else after
          end
      end
  end.

(** ** Records are read back *)

Lemma i32_roundtrip v : - 2 ^ 31 <= v < 2 ^ 31 → i32_of (i32_bytes v) = v.
Proof.
  intros Hv. unfold i32_of, i32_bytes. rewrite Wire.from_le_bytes.
  - unfold Wire.to_i32. destruct (Z.ltb_spec (v mod 2 ^ 32) (2 ^ 31)) as [Hlt|Hge];
      pose proof (Z.div_mod v (2 ^ 32)); pose proof (Z.mod_pos_bound v (2 ^ 32)); lia.
  - change (256 ^ Z.of_nat 4) with (2 ^ 32). apply Z.mod_pos_bound. lia.
Qed.

Lemma i32_bytes_cons v : ∃ a b c d, i32_bytes v = [a; b; c; d].
Proof. unfold i32_bytes. cbn. eauto. Qed.

Lemma status_roundtrip stage detail errno :
  - 2 ^ 31 <= errno < 2 ^ 31 →
  length (status_record stage detail errno) = STATUS_RECORD_LEN ∧
  parse_child_failure (status_record stage detail errno) = Some (MkFailure stage detail (Some errno)).
Proof.
  intros He. pose proof (i32_roundtrip errno He) as Hr. unfold status_record.
  destruct (i32_bytes_cons errno) as (a & b & c & d & Hb). rewrite Hb in *. split; [done|].
  replace (Wire.put _ 8 _) with [83; 66; 88; 49; code stage; detail; 0; 0; a; b; c; d] by done.
  unfold parse_child_failure. cbn [take drop nth]. rewrite bool_decide_false by (intros Hne; by apply Hne).
  by rewrite stage_codes_roundtrip, Hr.
Qed.

(** What a wait status means. *)
Definition exit_of_status (status : Z) : ExitStatus :=
  if WIFEXITED status then exit_from_code (WEXITSTATUS status)
  else if WIFSIGNALED status then exit_from_signal (WTERMSIG status) (WCOREDUMP status)
  else exit_from_code 255.

Lemma land_ones status k : 0 <= k → 0 <= Z.land status (Z.ones k) < 2 ^ k.
Proof. intros Hk. rewrite Z.land_ones by done. apply Z.mod_pos_bound. lia. Qed.

Lemma exit_record_parse kind value core :
  - 2 ^ 31 <= value < 2 ^ 31 →
  let record := Wire.put (Wire.put (Wire.put (Wire.put (repeat 0 SUPERVISOR_EXIT_LEN) 0 SUPERVISOR_EXIT_MAGIC)
                  4 [kind]) 5 [core]) 8 (i32_bytes value) in
  length record = SUPERVISOR_EXIT_LEN ∧
  parse_supervisor_exit record =
    if kind =? 0 then Some (exit_from_code value)
    else if kind =? 1 then Some (exit_from_signal value (negb (core =? 0))) else None.
Proof.
  intros Hv. pose proof (i32_roundtrip value Hv) as Hr. cbn zeta.
  destruct (i32_bytes_cons value) as (a & b & c & d & Hb). rewrite Hb in *. split; [done|].
  replace (Wire.put _ 8 _) with [83; 66; 88; 69; kind; core; 0; 0; a; b; c; d] by done.
  unfold parse_supervisor_exit. cbn [take drop nth]. rewrite bool_decide_false by (intros Hne; by apply Hne).
  by rewrite Hr.
Qed.

Lemma supervisor_exit_roundtrip status :
  length (supervisor_exit_record status) = SUPERVISOR_EXIT_LEN ∧
  parse_supervisor_exit (supervisor_exit_record status) = Some (exit_of_status status).
Proof.
  unfold supervisor_exit_record, exit_of_status.
  pose proof (land_ones status 7 ltac:(lia)) as H7. change (Z.ones 7) with 127 in H7.
  pose proof (land_ones (Z.shiftr status 8) 8 ltac:(lia)) as H8. change (Z.ones 8) with 255 in H8.
  destruct (WIFEXITED status); [|destruct (WIFSIGNALED status)].
  - destruct (exit_record_parse 0 (WEXITSTATUS status) 0) as [Hl ->]; [unfold WEXITSTATUS; lia|by split].
  - destruct (exit_record_parse 1 (WTERMSIG status) (if WCOREDUMP status then 1 else 0)) as [Hl ->];
      [unfold WTERMSIG; lia|]. split; [done|]. by destruct (WCOREDUMP status).
  - destruct (exit_record_parse 0 255 0) as [Hl ->]; [lia|by split].
Qed.

Lemma control_roundtrip user_pid kind number :
  0 <= kind < 2 ^ 32 → - 2 ^ 31 <= number < 2 ^ 31 →
  length (control_record kind number) = SUPERVISOR_CONTROL_LEN ∧
  control_target user_pid (control_record kind number) =
    if kind =? SUPERVISOR_SIGNAL_DIRECT then Some (user_pid, number)
    else if kind =? SUPERVISOR_SIGNAL_GROUP then Some (- user_pid, number) else None.
Proof.
  intros Hk Hn. pose proof (i32_roundtrip number Hn) as Hr. unfold control_record.
  destruct (i32_bytes_cons number) as (a & b & c & d & Hb). rewrite Hb in *.
  assert (Hkb : ∃ w x y z, Wire.le_bytes 4 kind = [w; x; y; z]) by (cbn; eauto).
  pose proof (Wire.from_le_bytes 4 kind ltac:(done)) as Hf.
  destruct Hkb as (w & x & y & z & Hkb). rewrite Hkb in *. split; [done|].
  replace (Wire.put _ 4 _) with [w; x; y; z; a; b; c; d] by done.
  unfold control_target. cbn [take drop]. by rewrite Hf, Hr.
Qed.

(** ** Pipes deliver prefixes *)

Lemma write_record_prefix turns bytes : write_record turns bytes `prefix_of` bytes.
Proof.
  revert bytes; induction turns as [|t turns IH]; intros [|b bytes]; try apply prefix_nil; try done.
  destruct t as [|e|n]; cbn [write_record]; [apply IH|apply prefix_nil|].
  rewrite <-(take_drop (S n) (b :: bytes)) at 3. apply prefix_app, IH.
Qed.

Lemma read_record_Ok turns want data got :
  read_record turns want data = Some (Ok got) →
  got = take want data.
Proof.
  revert want data got; induction turns as [|t turns IH]; intros [|want] data got; cbn [read_record];
    try (by intros [= <-]).
  destruct t as [|e|n]; [apply IH|done|].
  destruct (take (S n `min` S want) data) as [|x part] eqn:Hpart.
  { intros [= <-]. destruct data; [done|]. by rewrite Nat.min_comm in Hpart. }
  rewrite <-Hpart in *. clear Hpart. set (k := (S n `min` S want)%nat) in *.
  assert (Hlen : length (take k data) = (k `min` length data)%nat) by apply length_take. rewrite Hlen.
  destruct (read_record turns _ _) as [[more|]|] eqn:Hmore; [|done..]. intros [= <-]. apply IH in Hmore as ->.
  destruct (decide (k <= length data)%nat) as [Hle|Hgt].
  - rewrite Nat.min_l by done. rewrite take_take_drop. f_equal. lia.
  - rewrite Nat.min_r by lia. rewrite drop_ge, take_nil, app_nil_r by lia. by rewrite !take_ge by lia.
Qed.

Lemma read_record_total turns want data e :
  read_record turns want data = Some (Err e) → Failed e ∈ turns.
Proof.
  revert want data; induction turns as [|t turns IH]; intros [|want] data; cbn [read_record]; try done.
  destruct t as [|e'|n]; [intros H; right; by eapply IH|intros [= ->]; left|].
  destruct (take (S n `min` S want) data) as [|x part]; [done|].
  destruct (read_record turns _ _) as [[more|e']|] eqn:Hmore; [done| |done]. intros [= ->]. right. by eapply IH.
Qed.

(** C32: A failed set-up is reported exactly or not at all.  However the pipe cuts up the
    child's report and the parent's reads, and whichever of them fail, a parent that
    finishes reading sees the very stage, detail and error number the child reported,
    or an explicit corruption, or, when not a byte got through, the same silence as a
    successful launch; and a report that was written in full is never missed unless
    reading fails. *)
Theorem reports_are_exact `{Host} stage detail errno writes reads outcome :
  - 2 ^ 31 <= errno < 2 ^ 31 →
  let written := write_record writes (status_record stage detail errno) in
  read_child_failure reads written = Some outcome →
  (outcome = FailedStage (MkFailure stage detail (Some errno)) ∨ (∃ message, outcome = Corrupt message) ∨
   (outcome = Clean ∧ written = [])) ∧
  (written = status_record stage detail errno → (∀ e, Failed e ∉ reads) →
   outcome = FailedStage (MkFailure stage detail (Some errno))).
Proof.
  intros He written. destruct (status_roundtrip stage detail errno He) as [Hlen Hparse].
  assert (Hpre : written `prefix_of` status_record stage detail errno) by apply write_record_prefix.
  assert (Hle : (length written <= STATUS_RECORD_LEN)%nat) by (rewrite <-Hlen; by apply prefix_length).
  unfold read_child_failure. destruct (read_record reads _ written) as [[got|e]|] eqn:Hread; [| |done]; cbn [mbind option_bind].
  2: { intros [= <-]. split; [right; left; by eexists|]. intros _ Hno. by apply read_record_total, Hno in Hread. }
  apply read_record_Ok in Hread. rewrite take_ge in Hread by done. subst got.
  assert (Hfull : length written = STATUS_RECORD_LEN → written = status_record stage detail errno).
  { intros Hl. destruct Hpre as [rest Hrest]. destruct rest; [by rewrite app_nil_r in Hrest|].
    apply (f_equal length) in Hrest. rewrite length_app, length_cons in Hrest. lia. }
  destruct written as [|b rest] eqn:Hw.
  { intros [= <-]. split; [by right; right|]. intros Heq. by rewrite <-Heq in Hlen. }
  destruct (Nat.eqb_spec (length (b :: rest)) STATUS_RECORD_LEN) as [Hl|Hl]; cbn [negb]; intros [= <-].
  - rewrite (Hfull Hl), Hparse. by split; [left|].
  - split; [right; left; by eexists|]. intros Heq. by rewrite Heq, Hlen in Hl.
Qed.

Lemma reports_are_exact_witness :
  let _ := sample_host in
  read_child_failure [Upto 4; Interrupted; Upto 20] (write_record [Upto 0; Upto 30] (status_record SetUid 3 1))
  = Some (FailedStage (MkFailure SetUid 3 (Some 1))).
Proof.
  cbn zeta. pose (o := @read_child_failure sample_host [Upto 4; Interrupted; Upto 20]
    (write_record [Upto 0; Upto 30] (status_record SetUid 3 1))).
  assert (Ho : o = Some (FailedStage (MkFailure SetUid 3 (Some 1)))) by by vm_compute.
  destruct (@reports_are_exact sample_host SetUid 3 1 [Upto 0; Upto 30] [Upto 4; Interrupted; Upto 20]
    (FailedStage (MkFailure SetUid 3 (Some 1)))) as [_ Hex]; [lia|exact Ho|exact Ho].
Defined.

(** ** The supervisor *)

Lemma reap_main user_pid answers main status :
  reap_nonblocking user_pid answers main = Some (Some status) →
  main = Some status ∨ Reaped user_pid status ∈ answers.
Proof.
  revert main; induction answers as [|a answers IH]; intros main; cbn [reap_nonblocking].
  { intros [= ->]. by left. }
  destruct a as [p st| |e].
  - intros Hr%IH. destruct (Z.eqb_spec p user_pid) as [->|]; [|destruct Hr; [by left|right; by right]].
    right. destruct Hr as [[= ->]|Hr]; [left|by right].
  - intros [= ->]. by left.
  - destruct (e =? EINTR); [|destruct (e =? ECHILD); [intros [= ->]; by left|done]].
    intros [?|?]%IH; [by left|right; by right].
Qed.

Lemma control_target_user user_pid bytes target signal :
  control_target user_pid bytes = Some (target, signal) → target = user_pid ∨ target = - user_pid.
Proof. unfold control_target. repeat case_match; intros [= <- <-]; auto. Qed.

(** A signal a packet asked for, to the user's process or its group. *)
Definition forwarded (user_pid : Z) (turns : list sup_turn) (c : sup_call) : Prop :=
  ∃ t bytes target signal, t ∈ turns ∧ st_recv t = Packet bytes ∧ control_target user_pid bytes = Some (target, signal) ∧
    c = Kill target signal ∧ (target = user_pid ∨ target = - user_pid).

(** How the loop may end: it goes on, it lost its launcher, or the user's process ended. *)
Inductive ending (user_pid : Z) (turns : list sup_turn) : list sup_call → Prop :=
| still_running : ending user_pid turns []
| launcher_lost t : t ∈ turns → ending user_pid turns (abort_supervisor t)
| process_ended t status :
    t ∈ turns → Reaped user_pid status ∈ st_waits t → ending user_pid turns (finish_supervisor status t).

Lemma forwarded_more user_pid t turns c : forwarded user_pid turns c → forwarded user_pid (t :: turns) c.
Proof. intros (t' & Hin & ?). exists t'. destruct_and?. naive_solver (by right). Qed.

Lemma ending_more user_pid t turns l : ending user_pid turns l → ending user_pid (t :: turns) l.
Proof. intros [|t' Hin|t' status Hin Hreap]; [constructor|apply launcher_lost; by right|eapply process_ended; [by right|done]]. Qed.

(** Every run forwards signals, and ends in one of the three ways. *)
Lemma supervisor_run user_pid turns :
  ∃ sent tail, supervisor_loop user_pid turns = sent ++ tail ∧ Forall (forwarded user_pid turns) sent ∧
    ending user_pid turns tail.
Proof.
  induction turns as [|t turns (sent & tail & IH & Hsent & Hend)].
  { exists [], []. split_and!; [done|constructor|constructor]. }
  assert (Hrest : ∃ sent tail, supervisor_loop user_pid turns = sent ++ tail ∧
    Forall (forwarded user_pid (t :: turns)) sent ∧ ending user_pid (t :: turns) tail).
  { exists sent, tail. split_and!; [done| |by apply ending_more]. eapply Forall_impl; [exact Hsent|]. apply forwarded_more. }
  assert (Habort : ∃ sent tail, abort_supervisor t = sent ++ tail ∧
    Forall (forwarded user_pid (t :: turns)) sent ∧ ending user_pid (t :: turns) tail).
  { exists [], (abort_supervisor t). split_and!; [done|constructor|apply launcher_lost; by left]. }
  clear sent tail IH Hsent Hend. cbn [supervisor_loop].
  destruct (reap_nonblocking user_pid (st_waits t) None) as [[status|]|] eqn:Hreap; [| |exact Habort].
  { exists [], (finish_supervisor status t). split_and!; [done|constructor|]. apply reap_main in Hreap as [|Hin]; [done|].
    eapply process_ended; [by left|done]. }
  destruct (st_poll t) as [[[readable hung_up]|]|errno]; [|exact Hrest|by case_match].
  set (after := if hung_up then _ else _).
  assert (Hafter : ∃ sent tail, after = sent ++ tail ∧
    Forall (forwarded user_pid (t :: turns)) sent ∧ ending user_pid (t :: turns) tail) by (unfold after; by destruct hung_up).
  clearbody after. destruct readable; [|exact Hafter].
  destruct (st_recv t) as [|errno|bytes] eqn:Hrecv; [exact Habort|by case_match|].
  case_match; [exact Hrest|]. destruct (control_target user_pid bytes) as [[target signal]|] eqn:Ht; [|exact Hrest].
  assert (Hone : forwarded user_pid (t :: turns) (Kill target signal)).
  { exists t, bytes, target, signal. split_and!; [by left|done|done|done|by eapply control_target_user]. }
  assert (Hcons : ∀ l, (∃ sent tail, l = sent ++ tail ∧ Forall (forwarded user_pid (t :: turns)) sent ∧ ending user_pid (t :: turns) tail) →
    ∃ sent tail, Kill target signal :: l = sent ++ tail ∧ Forall (forwarded user_pid (t :: turns)) sent ∧ ending user_pid (t :: turns) tail).
  { intros l (sent & tail & -> & Hs & He). exists (Kill target signal :: sent), tail. by split_and!; [|constructor|]. }
  apply Hcons. by repeat case_match.
Qed.

(** What of the report got through is read as the status, or as an explicit error. *)
Lemma exit_report_read `{Host} status writes reads answer :
  let written := write_record writes (supervisor_exit_record status) in
  read_supervisor_exit reads written = Some answer →
  (answer = Ok (exit_of_status status) ∨ ∃ e, answer = Err e) ∧
  (written = supervisor_exit_record status → (∀ n, Failed n ∉ reads) → answer = Ok (exit_of_status status)).
Proof.
  intros written Hr. destruct (supervisor_exit_roundtrip status) as [Hlen Hparse]. unfold read_supervisor_exit in Hr.
  assert (Hpre : written `prefix_of` supervisor_exit_record status) by apply write_record_prefix.
  assert (Hle : (length written <= SUPERVISOR_EXIT_LEN)%nat) by (rewrite <-Hlen; by apply prefix_length).
  destruct (read_record reads _ _) as [[got|er]|] eqn:Hg; [| |done]; cbn [mbind option_bind] in Hr; injection Hr as <-.
  2: { split; [right; by eexists|]. intros _ Hno. by apply read_record_total, Hno in Hg. }
  apply read_record_Ok in Hg. rewrite take_ge in Hg by done. subst got.
  destruct (Nat.eqb_spec (length written) SUPERVISOR_EXIT_LEN) as [Hl|Hl]; cbn [negb].
  - assert (Hfull : written = supervisor_exit_record status).
    { destruct Hpre as [rest Hrest]. destruct rest; [by rewrite app_nil_r in Hrest|].
      apply (f_equal length) in Hrest. rewrite length_app, length_cons in Hrest. lia. }
    rewrite Hfull, Hparse. by split; [left|].
  - split; [right; by eexists|]. intros Heq. by rewrite Heq, Hlen in Hl.
Qed.

Lemma drain_waits answers : Forall (eq WaitAny) (reap_all_descendants answers).1.
Proof.
  induction answers as [|[p|e] answers IH]; cbn [reap_all_descendants]; [constructor|..];
    destruct (reap_all_descendants answers) as [calls ended]; [by constructor|].
  destruct (e =? EINTR); by repeat constructor.
Qed.

Lemma waits_no_write answers c : c ∈ (reap_all_descendants answers).1 → c = WaitAny.
Proof. intros Hin. pose proof (drain_waits answers) as Hw. rewrite Forall_forall in Hw. by rewrite (Hw c Hin). Qed.


Definition sample_turns : list sup_turn :=
  [MkTurn [Reaped 7 9; NoneReady] (Ok (Some (true, false))) (Packet (control_record SUPERVISOR_SIGNAL_GROUP 15)) (Ok tt) [] [];
   MkTurn [Reaped 2 256; WaitError ECHILD] (Ok None) NoData (Ok tt) [Ok 8; Err EINTR; Err ECHILD] [Upto 3; Upto 11]].

(** A run: an orphan is reaped, a signal is passed on, the process ends with status 1. *)
Example supervisor_run_example :
  supervisor_loop 2 sample_turns =
    [Kill (-2) 15; Kill (-1) 9; WaitAny; WaitAny; WaitAny; WriteExit (supervisor_exit_record 256); ExitWith 0].
Proof. by vm_compute. Qed.

End Records.
