(* ===== verification/ChildSetup.v ===== *)
(** * The child between [clone3] and [execve] ([shbox-sandbox]: linux/child.rs, linux/caps.rs)

    The fixed chain of set-up stages the cloned child runs: every system call in
    order, what each failure reports, and what each success does to the process.
    The kernel decides at each time whether a call succeeds ([ChildKernel]); the
    effects of successful calls on the process are the documented ones.  A call that
    a signal interrupts is made again, so its answer is that of the last attempt. *)

From S2P Require Import Prelude Text Toml FileSystem RuntimeLedger Manager BrokerWire EnginePolicy ChildRecords.

Module Child.
Import Engine Records.

(** ** System calls *)

Inductive call :=
| PrctlPdeathsig
| Getppid
| OpenProc (path : string)
| WriteProc (path content : string)
| MountPrivate
| MountReadonly
| MoveMount (source target : Z)
| Clone3User (cgroup : option Z)
| Setresgid (gid : Z)
| SetgroupsEmpty
| Setresuid (uid : Z)
| PrctlSecurebits (bits : Z)
| PrctlNoNewPrivs
| BoundingDrop (cap : Z)
| Capset (mask : Z)
| AmbientClear
| AmbientRaise (cap : Z)
| LandlockRestrict
| SeccompFilter
| Dup2 (source target : Z)
| Setsid
| Tiocsctty
| Chdir (path : string)
| Close (fd : Z)
| CloseRange (first last : Z)
| SetCloexec (fd : Z)
| ClearCloexec (fd : Z)
| Execve (program : string) (argv envp : list string).

#[global] Instance call_eq_dec : EqDecision call.
Proof. solve_decision. Defined.

(** ** The process *)

(** Whose identity the process acts under: the launcher's, or a mapped one. *)
Inductive identity := Launcher | Mapped (id : Z).

#[global] Instance identity_eq_dec : EqDecision identity.
Proof. solve_decision. Defined.

Record fd_entry := MkFd { fe_file : Z; fe_cloexec : bool }.

Record proc := MkProc
  { p_fds : gmap Z fd_entry; p_pdeathsig : bool; p_uid : identity; p_gid : identity;
    p_groups : bool; p_securebits : Z; p_nnp : bool; p_caps : option Z; p_ambient : list Z;
    p_landlock : bool; p_seccomp : bool; p_private : bool; p_readonly : bool;
    p_attached : list (Z * Z * bool); p_session : bool; p_tty : bool; p_cwd : option string }.

Definition with_fds (f : gmap Z fd_entry → gmap Z fd_entry) (p : proc) : proc :=
  MkProc (f (p_fds p)) (p_pdeathsig p) (p_uid p) (p_gid p) (p_groups p) (p_securebits p) (p_nnp p) (p_caps p)
    (p_ambient p) (p_landlock p) (p_seccomp p) (p_private p) (p_readonly p) (p_attached p) (p_session p)
    (p_tty p) (p_cwd p).
Definition with_ids (uid gid : identity) (groups : bool) (death : bool) (p : proc) : proc :=
  MkProc (p_fds p) death uid gid groups (p_securebits p) (p_nnp p) (p_caps p)
    (p_ambient p) (p_landlock p) (p_seccomp p) (p_private p) (p_readonly p) (p_attached p) (p_session p)
    (p_tty p) (p_cwd p).
Definition with_privileges (bits : Z) (nnp : bool) (caps : option Z) (ambient : list Z) (p : proc) : proc :=
  MkProc (p_fds p) (p_pdeathsig p) (p_uid p) (p_gid p) (p_groups p) bits nnp caps ambient (p_landlock p)
    (p_seccomp p) (p_private p) (p_readonly p) (p_attached p) (p_session p) (p_tty p) (p_cwd p).
Definition with_filters (landlock seccomp : bool) (p : proc) : proc :=
  MkProc (p_fds p) (p_pdeathsig p) (p_uid p) (p_gid p) (p_groups p) (p_securebits p) (p_nnp p) (p_caps p)
    (p_ambient p) landlock seccomp (p_private p) (p_readonly p) (p_attached p) (p_session p) (p_tty p) (p_cwd p).
Definition with_mounts (private readonly : bool) (attached : list (Z * Z * bool)) (p : proc) : proc :=
  MkProc (p_fds p) (p_pdeathsig p) (p_uid p) (p_gid p) (p_groups p) (p_securebits p) (p_nnp p) (p_caps p)
    (p_ambient p) (p_landlock p) (p_seccomp p) private readonly attached (p_session p) (p_tty p) (p_cwd p).
Definition with_session (session tty : bool) (cwd : option string) (p : proc) : proc :=
  MkProc (p_fds p) (p_pdeathsig p) (p_uid p) (p_gid p) (p_groups p) (p_securebits p) (p_nnp p) (p_caps p)
    (p_ambient p) (p_landlock p) (p_seccomp p) (p_private p) (p_readonly p) (p_attached p) session tty cwd.

(** [dup2] of a descriptor onto itself does nothing; otherwise the copy is not closed
    on exec. *)
Definition dup_fd (source target : Z) (fds : gmap Z fd_entry) : gmap Z fd_entry :=
  if source =? target then fds
  else match fds !! source with Some e => <[target := MkFd (fe_file e) false]> fds | None => fds end.

(** What a successful call does.  The recursive read-only attribute reaches the mounts
    that are attached already; a mount attached later stays writable.  Changing the effective user or group clears the
    parent-death signal; so does being a new process. *)
Definition effect (c : call) (p : proc) : proc :=
  match c with
  | PrctlPdeathsig => with_ids (p_uid p) (p_gid p) (p_groups p) true p
  | Clone3User _ => with_ids (p_uid p) (p_gid p) (p_groups p) false p
  | Setresgid gid =>
      with_ids (p_uid p) (Mapped gid) (p_groups p) (p_pdeathsig p && bool_decide (p_gid p = Mapped gid)) p
  | Setresuid uid =>
      with_ids (Mapped uid) (p_gid p) (p_groups p) (p_pdeathsig p && bool_decide (p_uid p = Mapped uid)) p
  | SetgroupsEmpty => with_ids (p_uid p) (p_gid p) false (p_pdeathsig p) p
  | PrctlSecurebits bits => with_privileges bits (p_nnp p) (p_caps p) (p_ambient p) p
  | PrctlNoNewPrivs => with_privileges (p_securebits p) true (p_caps p) (p_ambient p) p
  | Capset mask => with_privileges (p_securebits p) (p_nnp p) (Some mask) (p_ambient p) p
  | AmbientClear => with_privileges (p_securebits p) (p_nnp p) (p_caps p) [] p
  | AmbientRaise cap => with_privileges (p_securebits p) (p_nnp p) (p_caps p) (p_ambient p ++ [cap]) p
  | LandlockRestrict => with_filters true (p_seccomp p) p
  | SeccompFilter => with_filters (p_landlock p) true p
  | MountPrivate => with_mounts true (p_readonly p) (p_attached p) p
  | MountReadonly => with_mounts (p_private p) true ((fun a => (a.1, false)) <$> p_attached p) p
  | MoveMount source target => with_mounts (p_private p) (p_readonly p) (p_attached p ++ [(source, target, true)]) p
  | Setsid => with_session true (p_tty p) (p_cwd p) p
  | Tiocsctty => with_session (p_session p) true (p_cwd p) p
  | Chdir path => with_session (p_session p) (p_tty p) (Some path) p
  | Dup2 source target => with_fds (dup_fd source target) p
  | Close fd => with_fds (delete fd) p
  | CloseRange first last => with_fds (filter (fun e => ¬ (first <= e.1 <= last))) p
  | SetCloexec fd => with_fds (alter (fun e => MkFd (fe_file e) true) fd) p
  | ClearCloexec fd => with_fds (alter (fun e => MkFd (fe_file e) false) fd) p
  | Execve _ _ _ => with_fds (filter (fun e => fe_cloexec e.2 = false)) p
  | Getppid | OpenProc _ | WriteProc _ _ | BoundingDrop _ => p
  end.

(** ** The kernel's answers *)

Class ChildKernel := {
  (** The value of a successful call, or its error number. *)
  answer_at : nat → call → result Z Z;
  (** A zero-timeout poll of a descriptor: nothing, or the events. *)
  ppoll_at : nat → Z → result Z (option Z);
  (** Reading one byte of a pipe; nothing at its end. *)
  read_byte_at : nat → Z → result Z (option Z);
  (** How many bytes a write took. *)
  write_some_at : nat → Z → list Z → result Z nat;
  (** How the writes of a status record go. *)
  report_turns_at : nat → list turn }.

(** Time, the process, the successful calls, and what was written to which file. *)
Record child := MkChild { c_clock : nat; c_proc : proc; c_calls : list call; c_written : list (Z * list Z) }.

(** How the chain ends for this process. *)
Inductive ended :=
| Exited (status : Z)
| Execed
| Supervising (user_pid control_fd exit_fd : Z).

(** ** What the launcher prepares *)

Record MountSetup := MkMounts { workspace_mount : Z; workspace_target : Z; runtime_mount : Z; runtime_target : Z }.

Definition mount_descriptors (m : MountSetup) : list Z :=
  [workspace_mount m; workspace_target m; runtime_mount m; runtime_target m].

Inductive ChildIdentity :=
| HostIdentity
| MappedRoot (uid_map gid_map : string)
| IsolatedAs (runtime_uid runtime_gid ready_write installed_read : Z).

Record ChildSetup := MkSetup
  { stdin_fd : Z; stdout_fd : Z; stderr_fd : Z; report_fd : Z; report_guard : Z; inherited_fds : list Z;
    cs_session : SessionSetup; parent_pid : Z; parent_pidfd : option Z; pid_namespace_supervisor : bool;
    supervisor_control_fd : option Z; supervisor_exit_fd : option Z; user_cgroup_fd : option Z;
    cs_cwd : option string; cs_identity : ChildIdentity; cs_mounts : option MountSetup;
    make_mounts_private : bool; cs_retain_mask : Z; drop_capabilities_flag : bool;
    cs_landlock : option Z; cs_seccomp : option nat; cs_program : string; cs_argv : list string; cs_envp : list string }.

Definition exec_call (setup : ChildSetup) : call := Execve (cs_program setup) (cs_argv setup) (cs_envp setup).

(** ** Steps *)

Definition ESRCH : Z := 3.
Definition EIO : Z := 5.
Definition EBADF : Z := 9.
Definition EPERM : Z := 1.
Definition EINVAL : Z := 22.
Definition EPIPE : Z := 32.
Definition ENODATA : Z := 61.
Definition ENOTSUP : Z := 95.
Definition POLLIN : Z := 1.
Definition POLLERR : Z := 8.
Definition POLLHUP : Z := 16.
Definition POLLNVAL : Z := 32.

Section chain.
Context `{ChildKernel}.

Notation C := (M child ended).

Definition is_open (s : child) (fd : Z) : bool := bool_decide (is_Some (p_fds (c_proc s) !! fd)).

(** Calls on a descriptor that is not open fail with [EBADF]. *)
Definition answer (s : child) (c : call) : result Z Z :=
  match c with
  | Dup2 fd _ | SetCloexec fd => if is_open s fd then answer_at (c_clock s) c else Err EBADF
  | _ => answer_at (c_clock s) c
  end.

Definition perform (c : call) (s : child) : child :=
  MkChild (S (c_clock s)) (effect c (c_proc s)) (c_calls s ++ [c]) (c_written s).

Definition tick (s : child) : child := MkChild (S (c_clock s)) (c_proc s) (c_calls s) (c_written s).

Definition syscall (c : call) : C (result Z Z) := fun s =>
  match answer s c with
  | Ok v => (Ok (Ok v), perform c s)
  | Err errno => (Ok (Err errno), tick s)
  end.

(** A close before any system-call filter is installed: its result is not looked at, and
    whatever it is, the descriptor is free. *)
Definition always (c : call) : C unit := fun s => (Ok tt, perform c s).

(** A close, or a change of the close-on-exec flag, whose result is not looked at: once a
    filter is installed it takes effect only when the filter lets it pass. *)
Definition ignored (c : call) : C unit := fun s =>
  (Ok tt, if negb (p_seccomp (c_proc s)) || is_ok (answer_at (c_clock s) c) then perform c s else tick s).

(** Report on the status descriptor, if it is open, and exit. *)
Definition child_fail {A} (fd : Z) (stage : ChildStage) (detail errno : Z) : C A := fun s =>
  let sent := write_record (report_turns_at (c_clock s)) (status_record stage detail errno) in
  let written :=
    match p_fds (c_proc s) !! fd with
    | Some e => c_written s ++ [(fe_file e, sent)]
    | None => c_written s
    end in
  (Err (Exited CHILD_SETUP_EXIT), MkChild (S (c_clock s)) (c_proc s) (c_calls s) written).

(** [if call == -1 { child_fail(..) }]. *)
Definition must (fd : Z) (stage : ChildStage) (detail : Z) (c : call) : C unit :=
  r ← syscall c;
  match r with Ok _ => mret tt | Err errno => child_fail fd stage detail errno end.

(** [Result<(), i32>] of the capability helpers. *)
Definition call_e (c : call) : C (result Z unit) :=
  r ← syscall c;
  match r with Ok _ => mret (Ok tt) | Err errno => mret (Err errno) end.

(** *** Capabilities *)

Definition CAP_SETPCAP : Z := 8.
Definition ALL_CAPS : list Z := seqZ 0 (CAP_LAST_NUMBER + 1).
Definition retains (mask cap : Z) : bool := negb (Z.land mask (Z.shiftl 1 cap) =? 0).

Fixpoint drop_bounding_caps (mask : Z) (caps : list Z) : C (result Z unit) :=
  match caps with
  | [] => mret (Ok tt)
  | cap :: rest =>
      if (cap =? CAP_SETPCAP) || retains mask cap then drop_bounding_caps mask rest
      else
        r ← call_e (BoundingDrop cap);
        match r with
        | Err errno => if negb (errno =? EINVAL) then mret (Err errno) else drop_bounding_caps mask rest
        | Ok _ => drop_bounding_caps mask rest
        end
  end.

Definition drop_bounding_set (mask : Z) : C (result Z unit) :=
  r ← drop_bounding_caps mask ALL_CAPS;
  match r with
  | Err errno => mret (Err errno)
  | Ok _ =>
      if retains mask CAP_SETPCAP then mret (Ok tt)
      else
        r ← call_e (BoundingDrop CAP_SETPCAP);
        mret (match r with
              | Err errno => if negb (errno =? EINVAL) then Err errno else Ok tt
              | Ok _ => Ok tt
              end)
  end.

Fixpoint raise_ambient (mask : Z) (caps : list Z) : C (result Z unit) :=
  match caps with
  | [] => mret (Ok tt)
  | cap :: rest =>
      if retains mask cap then
        r ← call_e (AmbientRaise cap);
        match r with Err errno => mret (Err errno) | Ok _ => raise_ambient mask rest end
      else raise_ambient mask rest
  end.

Definition drop_capabilities (mask : Z) : C (result Z unit) :=
  bounding ← drop_bounding_set mask;
  match bounding with
  | Err errno => if negb (errno =? EPERM) then mret (Err errno) else mret (Ok tt)
  | Ok _ => mret (Ok tt)
  end ≫= fun bounded =>
  match bounded with
  | Err errno => mret (Err errno)
  | Ok _ =>
      set ← call_e (Capset mask);
      match set with
      | Err errno => mret (Err errno)
      | Ok _ =>
          cleared ← call_e AmbientClear;
          match cleared with
          | Err errno =>
              if negb (errno =? EINVAL) && negb (errno =? ENOTSUP) && negb (errno =? ENODATA)
              then mret (Err errno) else raise_ambient mask ALL_CAPS
          | Ok _ => raise_ambient mask ALL_CAPS
          end
      end
  end.

(** [1_u64 << capability.number()] for each retained capability. *)
Definition retain_mask (retained : list Z) : Z := fold_left (fun mask cap => Z.lor mask (Z.shiftl 1 cap)) retained 0.
Definition retained_mask (policy : CapabilityPolicy) : Z :=
  match policy with DropAll => 0 | Retain caps => retain_mask caps end.

(** *** Pipes and files of [/proc] *)

(** Exactly these bytes, or report: each turn writes at least one byte, so that a turn
    per byte is enough.  A write that took nothing set no error number. *)
Fixpoint write_all_or_fail (fuel : nat) (report fd : Z) (bytes : list Z) : C unit :=
  match bytes, fuel with
  | [], _ | _, O => mret tt
  | _, S fuel' => fun s =>
      match write_some_at (c_clock s) fd bytes with
      | Ok (S n) =>
          let written := match p_fds (c_proc s) !! fd with
                         | Some e => c_written s ++ [(fe_file e, take (S n) bytes)]
                         | None => c_written s
                         end in
          write_all_or_fail fuel' report fd (drop (S n) bytes)
            (MkChild (S (c_clock s)) (c_proc s) (c_calls s) written)
      | Ok O => child_fail report MapBarrier 1 0 (tick s)
      | Err errno => child_fail report MapBarrier 1 errno (tick s)
      end
  end.

(** One byte, or zero at the end of the pipe. *)
Definition read_one (report fd : Z) : C Z := fun s =>
  match read_byte_at (c_clock s) fd with
  | Ok (Some byte) => (Ok byte, tick s)
  | Ok None => (Ok 0, tick s)
  | Err errno => child_fail report MapBarrier 2 errno (tick s)
  end.

(** Opening the file (detail 0) or writing it (detail 1), in pieces or at once, may fail;
    the descriptor is closed again before the chain goes on. *)
Definition write_proc_file (report : Z) (stage : ChildStage) (path content : string) : C unit :=
  opened ← syscall (OpenProc path);
  match opened with
  | Err errno => child_fail report stage 0 errno
  | Ok _ =>
      written ← syscall (WriteProc path content);
      match written with Err errno => child_fail report stage 1 errno | Ok _ => mret tt end
  end.

(** The parent's pidfd: alive when nothing is ready. *)
Definition parent_pidfd_is_alive (fd : Z) : C (result Z bool) := fun s =>
  (Ok (match ppoll_at (c_clock s) fd with
       | Err errno => Err errno
       | Ok None => Ok true
       | Ok (Some revents) =>
           if negb (Z.land revents POLLNVAL =? 0) then Err EBADF
           else if negb (Z.land revents (Z.lor POLLIN (Z.lor POLLERR POLLHUP)) =? 0) then Ok false
           else Err EIO
       end), tick s).

Definition is_value (r : result Z Z) (v : Z) : bool := match r with Ok x => x =? v | Err _ => false end.

(** ** The stages *)

Definition parent_death_stage (setup : ChildSetup) : C unit :=
  let report := report_fd setup in
  _ ← must report ParentDeath 0 PrctlPdeathsig;
  match parent_pidfd setup with
  | Some pidfd =>
      alive ← parent_pidfd_is_alive pidfd;
      match alive with
      | Ok true => always (Close pidfd)
      | Ok false => child_fail report ParentDeath 1 ESRCH
      | Err errno => child_fail report ParentDeath 2 errno
      end
  | None =>
      ppid ← syscall Getppid;
      if is_value ppid (parent_pid setup) then mret tt else child_fail report ParentDeath 1 ESRCH
  end.

Definition identity_stage (setup : ChildSetup) : C unit :=
  let report := report_fd setup in
  match cs_identity setup with
  | HostIdentity => mret tt
  | MappedRoot uid_map gid_map =>
      _ ← write_proc_file report UserNamespace "/proc/self/setgroups" ("deny" +:+ String newline EmptyString);
      _ ← write_proc_file report UserNamespace "/proc/self/uid_map" uid_map;
      write_proc_file report UserNamespace "/proc/self/gid_map" gid_map
  | IsolatedAs _ _ ready_write installed_read =>
      _ ← write_all_or_fail 1 report ready_write [MAP_READY];
      _ ← always (Close ready_write);
      installed ← read_one report installed_read;
      _ ← always (Close installed_read);
      if negb (installed =? MAP_INSTALLED) then child_fail report MapBarrier 0 EPIPE else mret tt
  end.

Definition mount_stage (setup : ChildSetup) : C unit :=
  let report := report_fd setup in
  _ ← (if make_mounts_private setup then must report MountPropagation 0 MountPrivate else mret tt);
  match cs_mounts setup with
  | None => mret tt
  | Some m =>
      _ ← must report Engine.MountReadOnly 0 MountReadonly;
      _ ← must report MountAttach 0 (MoveMount (workspace_mount m) (workspace_target m));
      must report MountAttach 0 (MoveMount (runtime_mount m) (runtime_target m))
  end.

Definition SECUREBITS : Z := 63.

Definition transition_to_runtime_identity (report runtime_uid runtime_gid : Z) : C unit :=
  _ ← must report SetGid 0 (Setresgid runtime_gid);
  _ ← must report GroupClear 0 SetgroupsEmpty;
  _ ← must report SetUid 0 (Setresuid runtime_uid);
  _ ← must report Securebits 0 (PrctlSecurebits SECUREBITS);
  _ ← must report NoNewPrivs 1 PrctlNoNewPrivs;
  dropped ← drop_capabilities 0;
  match dropped with Err errno => child_fail report Capabilities 1 errno | Ok _ => mret tt end.

Definition transition_stage (setup : ChildSetup) : C unit :=
  match cs_identity setup with
  | IsolatedAs uid gid _ _ => transition_to_runtime_identity (report_fd setup) uid gid
  | _ => mret tt
  end.

Definition close_range_if_nonempty (first last : Z) : C unit :=
  if (first <? 0) || (last <? first) then mret tt
  else r ← syscall (CloseRange first last); match r with _ => mret tt end.

Definition close_all_except (first second : Z) : C unit :=
  let low := Z.min first second in
  let high := Z.max first second in
  _ ← close_range_if_nonempty 3 (low - 1);
  _ ← close_range_if_nonempty (low + 1) (high - 1);
  close_range_if_nonempty (high + 1) u32_max.

Definition close_option (fd : option Z) : C unit :=
  match fd with Some fd => always (Close fd) | None => mret tt end.

(** Process 1 of the namespace: hardened, then the supervisor's loop. *)
Definition become_supervisor (setup : ChildSetup) (control_fd exit_fd user_pid : Z) : C unit :=
  let report := report_fd setup in
  _ ← transition_stage setup;
  _ ← must report Supervisor 3 PrctlNoNewPrivs;
  dropped ← drop_capabilities 0;
  _ ← match dropped with Err errno => child_fail report Supervisor 4 errno | Ok _ => mret tt end;
  _ ← match cs_landlock setup with Some _ => must report Supervisor 5 LandlockRestrict | None => mret tt end;
  _ ← always (Close report);
  _ ← close_option (user_cgroup_fd setup);
  _ ← close_all_except control_fd exit_fd;
  fail (Supervising user_pid control_fd exit_fd).

(** Process 2: it gives up the supervisor's descriptors and checks its parent. *)
Definition become_user_process (setup : ChildSetup) (control_fd exit_fd : Z) : C unit :=
  let report := report_fd setup in
  _ ← always (Close control_fd);
  _ ← always (Close exit_fd);
  _ ← close_option (user_cgroup_fd setup);
  _ ← must report ParentDeath 3 PrctlPdeathsig;
  ppid ← syscall Getppid;
  if is_value ppid 1 then mret tt else child_fail report ParentDeath 4 ESRCH.

Definition enter_pid_namespace_user_process (setup : ChildSetup) : C unit :=
  let report := report_fd setup in
  match supervisor_control_fd setup, supervisor_exit_fd setup with
  | None, _ => child_fail report Supervisor 1 EBADF
  | Some _, None => child_fail report Supervisor 2 EBADF
  | Some control_fd, Some exit_fd =>
      cloned ← syscall (Clone3User (user_cgroup_fd setup));
      match cloned with
      | Err errno => child_fail report Supervisor 0 errno
      | Ok pid =>
          if pid =? 0 then become_user_process setup control_fd exit_fd
          else become_supervisor setup control_fd exit_fd pid
      end
  end.

Definition setup_user_process_environment (setup : ChildSetup) : C unit :=
  let report := report_fd setup in
  _ ← must report Session 0 (Dup2 (stdin_fd setup) 0);
  _ ← must report Session 0 (Dup2 (stdout_fd setup) 1);
  _ ← must report Session 0 (Dup2 (stderr_fd setup) 2);
  _ ← match cs_session setup with
      | SessionInherit => mret tt
      | NewSession => must report Session 1 Setsid
      | NewSessionWithControllingTerminal =>
          _ ← must report Session 1 Setsid; must report ControllingTerminal 0 Tiocsctty
      end;
  match cs_cwd setup with Some cwd => must report WorkingDirectory 0 (Chdir cwd) | None => mret tt end.

Definition confinement_stage (setup : ChildSetup) : C unit :=
  let report := report_fd setup in
  _ ← must report NoNewPrivs 0 PrctlNoNewPrivs;
  _ ← (if drop_capabilities_flag setup then
         dropped ← drop_capabilities (cs_retain_mask setup);
         match dropped with Err errno => child_fail report Capabilities 0 errno | Ok _ => mret tt end
       else mret tt);
  _ ← match cs_landlock setup with Some _ => must report Landlock 0 LandlockRestrict | None => mret tt end;
  match cs_seccomp setup with
  | Some len => if (65535 <? len)%nat then child_fail report Seccomp 0 EINVAL else must report Seccomp 0 SeccompFilter
  | None => mret tt
  end.

(** Descriptors between the standard streams and the guard: the inherited ones survive
    the exec, the others are closed. *)
Fixpoint close_below_guard (inherited : list Z) (fds : list Z) : C unit :=
  match fds with
  | [] => mret tt
  | fd :: rest =>
      _ ← (if bool_decide (fd ∈ inherited) then ignored (ClearCloexec fd) else ignored (Close fd));
      close_below_guard inherited rest
  end.

Definition hygiene_stage (setup : ChildSetup) : C unit :=
  let report := report_fd setup in
  let guard := report_guard setup in
  _ ← must report FdHygiene 0 (Dup2 report guard);
  _ ← must report FdHygiene 1 (CloseRange (guard + 1) u32_max);
  _ ← must report FdHygiene 2 (SetCloexec guard);
  close_below_guard (inherited_fds setup) (seqZ 3 (guard - 3)).

Definition exec_stage (setup : ChildSetup) : C unit :=
  r ← syscall (exec_call setup);
  match r with
  | Ok _ => fail Execed
  | Err errno => child_fail (report_guard setup) ExecStage 0 errno
  end.

Definition child_entry (setup : ChildSetup) : C unit :=
  _ ← parent_death_stage setup;
  _ ← identity_stage setup;
  _ ← mount_stage setup;
  _ ← (if pid_namespace_supervisor setup then enter_pid_namespace_user_process setup else mret tt);
  _ ← transition_stage setup;
  _ ← setup_user_process_environment setup;
  _ ← confinement_stage setup;
  _ ← hygiene_stage setup;
  exec_stage setup.

End chain.
End Child.
