(* ===== verification/ChildSafety.v ===== *)
(** * What holds when user code starts

    The calls a child made when it reaches [execve], and from them the state the
    program starts in: privileges, identity, mounts, filters and descriptors. *)

From S2P Require Import Prelude Text Toml FileSystem RuntimeLedger Manager BrokerWire EnginePolicy ChildRecords ChildSetup.

Module ChildSafety.
Import Engine Records Child.

Definition run_calls (l : list call) (p : proc) : proc := fold_left (fun p c => effect c p) l p.

Lemma run_calls_app l1 l2 p : run_calls (l1 ++ l2) p = run_calls l2 (run_calls l1 p).
Proof. apply fold_left_app. Qed.

(** ** Traces *)

(** From [s] to [s'] exactly the calls [l] succeeded, and they made the process what it
    is. *)
Definition ran (s s' : child) (l : list call) : Prop :=
  c_calls s' = c_calls s ++ l ∧ c_proc s' = run_calls l (c_proc s).

Lemma ran_refl s : ran s s [].
Proof. split; [by rewrite app_nil_r|done]. Qed.

Lemma ran_trans s1 s2 s3 l l' : ran s1 s2 l → ran s2 s3 l' → ran s1 s3 (l ++ l').
Proof. intros [H1 H2] [H1' H2']. split; [by rewrite H1', H1, app_assoc|by rewrite H2', H2, run_calls_app]. Qed.

(** The ways to stop without the user's program: the exit of a failed set-up, or the life
    of a supervisor. *)
Definition stops (e : ended) : Prop :=
  e = Exited CHILD_SETUP_EXIT ∨ ∃ user_pid control exit, e = Supervising user_pid control exit.

Lemma stops_not_execed e : stops e → e ≠ Execed.
Proof. intros [->|(? & ? & ? & ->)]; done. Qed.

(** [m] never reaches the user's program, and when it returns a value its calls are as
    [L] says. *)
Definition traced {A} (m : M child ended A) (L : A → list call → Prop) : Prop :=
  ∀ s, match m s with
       | (Ok a, s') => ∃ l, ran s s' l ∧ L a l
       | (Err e, _) => stops e
       end.

Lemma traced_weaken {A} (m : M child ended A) (L L' : A → list call → Prop) :
  (∀ a l, L a l → L' a l) → traced m L → traced m L'.
Proof. intros HL Hm s. specialize (Hm s). destruct (m s) as [[a|e] s']; [|done]. naive_solver. Qed.

Lemma traced_ret {A} (a : A) (L : A → list call → Prop) : L a [] → traced (mret a) L.
Proof. intros HL s. exists []. split; [apply ran_refl|done]. Qed.

Lemma traced_bind {A B} (m : M child ended A) (f : A → M child ended B) L1 (L : B → list call → Prop) :
  traced m L1 → (∀ a, traced (f a) (fun b l2 => ∀ l1, L1 a l1 → L b (l1 ++ l2))) → traced (m ≫= f) L.
Proof.
  intros Hm Hf s. unfold mbind, M_bind. specialize (Hm s). destruct (m s) as [[a|e] s1]; [|done].
  destruct Hm as (l1 & Hr1 & HL1). specialize (Hf a s1). destruct (f a s1) as [[b|e] s2]; [|done].
  destruct Hf as (l2 & Hr2 & HL2). exists (l1 ++ l2). split; [by eapply ran_trans|auto].
Qed.

Section chain.
Context `{ChildKernel}.

Lemma traced_fail {A} fd stage detail errno (L : A → list call → Prop) : traced (child_fail fd stage detail errno) L.
Proof. intros s. by left. Qed.

Lemma ran_perform c s : ran s (perform c s) [c].
Proof. by split. Qed.
Lemma ran_tick s : ran s (tick s) [].
Proof. split; [by rewrite app_nil_r|done]. Qed.

Lemma traced_syscall c : traced (syscall c) (fun r l => l = if is_ok r then [c] else []).
Proof.
  intros s. unfold syscall. destruct (answer s c); eexists; (split; [|reflexivity]); [apply ran_perform|apply ran_tick].
Qed.

Lemma traced_always c : traced (always c) (fun _ l => l = [c]).
Proof. intros s. eexists. split; [apply ran_perform|done]. Qed.

Lemma traced_must fd stage detail c : traced (must fd stage detail c) (fun _ l => l = [c]).
Proof.
  eapply traced_bind; [apply traced_syscall|]. intros [v|e]; [|apply traced_fail]. apply traced_ret. by intros l ->.
Qed.

Lemma traced_call_e c : traced (call_e c) (fun r l => l = if is_ok r then [c] else []).
Proof. eapply traced_bind; [apply traced_syscall|]. intros [v|e]; apply traced_ret; by intros l ->. Qed.

(** Sequences of steps whose calls are known. *)
Lemma traced_then {A B} (m : M child ended A) (f : A → M child ended B) (P Q : list call → Prop) (L : B → list call → Prop) :
  traced m (fun _ => P) → (∀ a, traced (f a) (fun _ => Q)) → (∀ b l1 l2, P l1 → Q l2 → L b (l1 ++ l2)) →
  traced (m ≫= f) L.
Proof.
  intros Hm Hf HL. eapply traced_bind; [exact Hm|]. intros a. eapply traced_weaken; [|apply Hf]. auto.
Qed.

Lemma traced_seq {A B} (m : M child ended A) (f : A → M child ended B) k1 k2 :
  traced m (fun _ l => l = k1) → (∀ a, traced (f a) (fun _ l => l = k2)) →
  traced (m ≫= f) (fun _ l => l = k1 ++ k2).
Proof. intros Hm Hf. eapply traced_then; [exact Hm|exact Hf|]. by intros b l1 l2 -> ->. Qed.

(** *** Capabilities *)

Definition only_bounding (l : list call) : Prop := Forall (fun c => ∃ cap, c = BoundingDrop cap) l.

Lemma only_bounding_id l p : only_bounding l → run_calls l p = p.
Proof. induction 1 as [|c l [cap ->] Hl IH]; [done|exact IH]. Qed.

Lemma traced_bounding_caps mask caps : traced (drop_bounding_caps mask caps) (fun _ => only_bounding).
Proof.
  induction caps as [|cap caps IH]; cbn [drop_bounding_caps]; [apply traced_ret; constructor|].
  destruct (_ || _); [done|]. eapply traced_bind; [apply traced_call_e|]. intros [u|e].
  - eapply traced_weaken; [|exact IH]. intros r l Hl l1 ->. constructor; [by eexists|done].
  - destruct (negb _); [apply traced_ret; intros l ->; constructor|].
    eapply traced_weaken; [|exact IH]. by intros r l Hl l1 ->.
Qed.

Lemma traced_bounding mask : traced (drop_bounding_set mask) (fun _ => only_bounding).
Proof.
  eapply traced_bind; [apply traced_bounding_caps|]. intros [u|e]; [|apply traced_ret; intros; by rewrite app_nil_r].
  destruct (retains mask CAP_SETPCAP); [apply traced_ret; intros; by rewrite app_nil_r|].
  eapply traced_bind; [apply traced_call_e|]. intros r. apply traced_ret. intros l -> l1 Hl.
  rewrite app_nil_r. apply Forall_app. split; [done|]. destruct (is_ok r); [|constructor].
  constructor; [by eexists|constructor].
Qed.

Definition raises (mask : Z) (caps : list Z) : list call := AmbientRaise <$> filter (fun c => retains mask c = true) caps.

Lemma traced_raise mask caps :
  traced (raise_ambient mask caps) (fun r l => r = Ok tt → l = raises mask caps).
Proof.
  induction caps as [|cap caps IH]; cbn [raise_ambient]; [by apply traced_ret|]. unfold raises.
  rewrite filter_cons. destruct (retains mask cap) eqn:Hr.
  - rewrite decide_True by done. eapply traced_bind; [apply traced_call_e|]. intros [u|e].
    + eapply traced_weaken; [|exact IH]. intros r l Hl l1 -> ->. cbn. by rewrite Hl.
    + by apply traced_ret.
  - rewrite decide_False by done. done.
Qed.

(** What dropping to [mask] does when it succeeds: the ambient set may stay as it was
    only where the kernel has none. *)
Definition drops_to (mask : Z) (l : list call) : Prop :=
  ∃ bounding cleared, only_bounding bounding ∧ (cleared = [AmbientClear] ∨ cleared = []) ∧
    l = bounding ++ [Capset mask] ++ cleared ++ raises mask ALL_CAPS.

Lemma traced_drop mask : traced (drop_capabilities mask) (fun r l => r = Ok tt → drops_to mask l).
Proof.
  unfold drop_capabilities. eapply traced_bind; [apply traced_bounding|]. intros bounding.
  eapply (traced_bind _ _ (fun _ l => l = [])).
  { repeat case_match; by apply traced_ret. }
  intros [u|e]; [|by apply traced_ret].
  eapply traced_bind; [apply traced_call_e|]. intros [u'|e]; [|by apply traced_ret].
  eapply traced_bind; [apply traced_call_e|]. intros cleared.
  assert (Hrest : traced (raise_ambient mask ALL_CAPS) (fun r l2 => ∀ l1, l1 = (if is_ok cleared then [AmbientClear] else []) →
    ∀ l0, l0 = [Capset mask] → ∀ lm, lm = [] → ∀ lb, only_bounding lb → r = Ok tt → drops_to mask (lb ++ lm ++ l0 ++ l1 ++ l2))).
  { eapply traced_weaken; [|apply traced_raise]. intros r l Hl l1 -> l0 -> lm -> lb Hb Hr.
    exists lb, (if is_ok cleared then [AmbientClear] else []). split_and!; [done|by destruct cleared; auto|].
    by rewrite (Hl Hr). }
  destruct cleared as [u''|e]; [exact Hrest|]. destruct (_ && _); [by apply traced_ret|exact Hrest].
Qed.

(** *** The calls of each stage *)

Definition parent_death_calls (setup : ChildSetup) : list call :=
  PrctlPdeathsig :: match parent_pidfd setup with Some fd => [Close fd] | None => [Getppid] end.

Lemma traced_parent_death setup : traced (parent_death_stage setup) (fun _ l => l = parent_death_calls setup).
Proof.
  unfold parent_death_stage, parent_death_calls.
  apply (traced_seq _ _ [PrctlPdeathsig] (match parent_pidfd setup with Some fd => [Close fd] | None => [Getppid] end));
    [apply traced_must|intros ?]. destruct (parent_pidfd setup) as [fd|].
  - eapply (traced_bind _ _ (fun _ l => l = [])).
    { intros s. eexists. split; [apply ran_tick|done]. }
    intros [[]|e]; [|apply traced_fail..]. eapply traced_weaken; [|apply traced_always]. by intros _ l -> l1 ->.
  - eapply traced_bind; [apply traced_syscall|]. intros r. destruct (is_value r _) eqn:Hv; [|apply traced_fail].
    apply traced_ret. intros l ->. by destruct r.
Qed.

Definition proc_calls (path content : string) : list call := [OpenProc path; WriteProc path content].

Lemma traced_write_proc fd stage path content :
  traced (write_proc_file fd stage path content) (fun _ l => l = proc_calls path content).
Proof.
  eapply traced_bind; [apply traced_syscall|]. intros [v|e]; [|apply traced_fail].
  eapply traced_bind; [apply traced_syscall|]. intros [v'|e]; [|apply traced_fail].
  apply traced_ret. by intros l -> l1 ->.
Qed.

Definition identity_calls (setup : ChildSetup) : list call :=
  match cs_identity setup with
  | HostIdentity => []
  | MappedRoot uid_map gid_map =>
      proc_calls "/proc/self/setgroups" ("deny" +:+ String newline EmptyString)
      ++ proc_calls "/proc/self/uid_map" uid_map ++ proc_calls "/proc/self/gid_map" gid_map
  | IsolatedAs _ _ ready_write installed_read => [Close ready_write; Close installed_read]
  end.

(** The launcher released the child from the barrier. *)
Definition released (setup : ChildSetup) : Prop :=
  ∀ uid gid ready installed, cs_identity setup = IsolatedAs uid gid ready installed →
    ∃ t, read_byte_at t installed = Ok (Some MAP_INSTALLED).

Lemma traced_ready report fd : traced (write_all_or_fail 1 report fd [MAP_READY]) (fun _ l => l = []).
Proof.
  intros s. cbn. destruct (write_some_at (c_clock s) fd [MAP_READY]) as [[|n]|e]; [by left| |by left].
  rewrite drop_nil. eexists. split; [|reflexivity]. split; [by rewrite app_nil_r|done].
Qed.

Lemma traced_read_one report fd :
  traced (read_one report fd) (fun b l => l = [] ∧ (b = MAP_INSTALLED → ∃ t, read_byte_at t fd = Ok (Some b))).
Proof.
  intros s. unfold read_one. destruct (read_byte_at (c_clock s) fd) as [[b|]|e] eqn:Hb; [| |by left];
    (eexists; split; [apply ran_tick|]); (split; [done|]); [by eexists|done].
Qed.

Lemma traced_identity setup :
  traced (identity_stage setup) (fun _ l => l = identity_calls setup ∧ released setup).
Proof.
  unfold identity_stage, identity_calls, released. destruct (cs_identity setup) as [|um gm|uid gid ready installed].
  - by apply traced_ret.
  - eapply traced_weaken; [|apply traced_seq; [apply traced_write_proc|intros ?; apply traced_seq;
      [apply traced_write_proc|intros ?; apply traced_write_proc]]]. intros _ l ->. by split.
  - eapply traced_bind; [apply traced_ready|intros ?]. eapply traced_bind; [apply traced_always|intros ?].
    eapply traced_bind; [apply traced_read_one|intros b]. eapply traced_bind; [apply traced_always|intros ?].
    destruct (negb (b =? MAP_INSTALLED)) eqn:Hb; [apply traced_fail|]. apply negb_false_iff, Z.eqb_eq in Hb as ->.
    apply traced_ret. intros l -> l1 [-> Ht] l2 -> l3 ->. split; [done|]. intros ? ? ? ? [= _ _ _ <-]. auto.
Qed.

Definition mount_calls (setup : ChildSetup) : list call :=
  (if make_mounts_private setup then [MountPrivate] else []) ++
  match cs_mounts setup with
  | None => []
  | Some m => [MountReadonly; MoveMount (workspace_mount m) (workspace_target m);
               MoveMount (runtime_mount m) (runtime_target m)]
  end.

Lemma traced_mount setup : traced (mount_stage setup) (fun _ l => l = mount_calls setup).
Proof.
  apply traced_seq; [destruct (make_mounts_private setup); [apply traced_must|by apply traced_ret]|intros ?].
  destruct (cs_mounts setup) as [m|]; [|by apply traced_ret].
  apply (traced_seq _ _ [_] [_; _]); [apply traced_must|intros ?].
  apply (traced_seq _ _ [_] [_]); [apply traced_must|intros ?; apply traced_must].
Qed.

Definition close_calls (fd : option Z) : list call := match fd with Some fd => [Close fd] | None => [] end.

Lemma traced_close_option fd : traced (close_option fd) (fun _ l => l = close_calls fd).
Proof. destruct fd; [apply traced_always|by apply traced_ret]. Qed.

(** Of the two processes of a PID namespace, the second goes on. *)
Definition namespace_calls (setup : ChildSetup) (l : list call) : Prop :=
  if pid_namespace_supervisor setup then
    ∃ control exit, supervisor_control_fd setup = Some control ∧ supervisor_exit_fd setup = Some exit ∧
      l = [Clone3User (user_cgroup_fd setup); Close control; Close exit] ++ close_calls (user_cgroup_fd setup)
          ++ [PrctlPdeathsig; Getppid]
  else l = [].

Lemma traced_no_return {A} (m : M child ended A) (L : A → list call → Prop) :
  (∀ s, match m s with (Ok _, _) => False | (Err e, _) => stops e end) → traced m L.
Proof. intros Hm s. specialize (Hm s). by destruct (m s) as [[a|e] s']. Qed.

Definition identity_transition (setup : ChildSetup) (l : list call) : Prop :=
  match cs_identity setup with
  | IsolatedAs uid gid _ _ => ∃ d, drops_to 0 d ∧
      l = [Setresgid gid; SetgroupsEmpty; Setresuid uid; PrctlSecurebits SECUREBITS; PrctlNoNewPrivs] ++ d
  | _ => l = []
  end.

Lemma traced_transition setup : traced (transition_stage setup) (fun _ => identity_transition setup).
Proof.
  unfold transition_stage, identity_transition. destruct (cs_identity setup) as [| |uid gid ready installed];
    [by apply traced_ret..|]. unfold transition_to_runtime_identity.
  do 5 (eapply traced_bind; [apply traced_must|intros ?]).
  eapply traced_bind; [apply traced_drop|]. intros [[]|e]; [|apply traced_fail].
  apply traced_ret. intros d Hd ? -> ? -> ? -> ? -> ? ->. exists d. split; [auto|]. cbn. by rewrite app_nil_r.
Qed.

Lemma traced_close_range first last : traced (close_range_if_nonempty first last) (fun _ _ => True).
Proof.
  unfold close_range_if_nonempty. destruct (_ || _); [by apply traced_ret|].
  eapply traced_bind; [apply traced_syscall|]. intros r. by apply traced_ret.
Qed.

(** The supervisor never becomes the user's program. *)
Lemma supervisor_no_return setup control exit pid :
  traced (become_supervisor setup control exit pid) (fun _ _ => False).
Proof.
  unfold become_supervisor.
  eapply traced_bind; [apply traced_transition|intros ?]. eapply traced_bind; [apply traced_must|intros ?].
  eapply traced_bind; [apply traced_drop|intros r].
  eapply (traced_bind _ _ (fun _ _ => True)); [destruct r; [by apply traced_ret|apply traced_fail]|intros ?].
  eapply (traced_bind _ _ (fun _ _ => True)).
  { destruct (cs_landlock setup); [eapply traced_weaken; [|apply traced_must]; done|by apply traced_ret]. }
  intros ?. eapply traced_bind; [apply traced_always|intros ?]. eapply traced_bind; [apply traced_close_option|intros ?].
  eapply (traced_bind _ _ (fun _ _ => True)).
  { unfold close_all_except. do 2 (eapply traced_bind; [apply traced_close_range|intros ?]).
    eapply traced_weaken; [|apply traced_close_range]. done. }
  intros _ s. right. by do 3 eexists.
Qed.

Lemma traced_namespace setup :
  traced (if pid_namespace_supervisor setup then enter_pid_namespace_user_process setup else mret tt)
    (fun _ => namespace_calls setup).
Proof.
  unfold namespace_calls, enter_pid_namespace_user_process.
  destruct (pid_namespace_supervisor setup); [|by apply traced_ret].
  destruct (supervisor_control_fd setup) as [control|]; [|apply traced_fail].
  destruct (supervisor_exit_fd setup) as [exit|]; [|apply traced_fail].
  eapply traced_bind; [apply traced_syscall|]. intros [pid|e]; [|apply traced_fail].
  destruct (pid =? 0); [|eapply traced_weaken; [|apply supervisor_no_return]; done].
  unfold become_user_process. do 2 (eapply traced_bind; [apply traced_always|intros ?]).
  eapply traced_bind; [apply traced_close_option|intros ?]. eapply traced_bind; [apply traced_must|intros ?].
  eapply traced_bind; [apply traced_syscall|]. intros r. destruct (is_value r 1) eqn:Hv; [|apply traced_fail].
  apply traced_ret. intros l -> ? -> ? -> ? -> ? -> ? ->. exists control, exit. split_and!; [done..|].
  destruct r; [|done]. cbn. by rewrite <-?app_assoc.
Qed.

Definition environment_calls (setup : ChildSetup) : list call :=
  [Dup2 (stdin_fd setup) 0; Dup2 (stdout_fd setup) 1; Dup2 (stderr_fd setup) 2] ++
  match cs_session setup with
  | SessionInherit => []
  | NewSession => [Setsid]
  | NewSessionWithControllingTerminal => [Setsid; Tiocsctty]
  end ++
  match cs_cwd setup with Some cwd => [Chdir cwd] | None => [] end.

Lemma traced_environment setup :
  traced (setup_user_process_environment setup) (fun _ l => l = environment_calls setup).
Proof.
  unfold setup_user_process_environment, environment_calls.
  apply (traced_seq _ _ [_] ([_; _] ++ _)); [apply traced_must|intros ?].
  apply (traced_seq _ _ [_] ([_] ++ _)); [apply traced_must|intros ?].
  apply (traced_seq _ _ [_] _); [apply traced_must|intros ?].
  apply traced_seq; [|intros ?; destruct (cs_cwd setup); [apply traced_must|by apply traced_ret]].
  destruct (cs_session setup); [by apply traced_ret|apply traced_must|].
  apply (traced_seq _ _ [_] [_]); [apply traced_must|intros ?; apply traced_must].
Qed.

Definition confinement_calls (setup : ChildSetup) (l : list call) : Prop :=
  ∃ d, (if drop_capabilities_flag setup then drops_to (cs_retain_mask setup) d else d = []) ∧
    l = [PrctlNoNewPrivs] ++ d ++ match cs_landlock setup with Some _ => [LandlockRestrict] | None => [] end
        ++ match cs_seccomp setup with Some _ => [SeccompFilter] | None => [] end.

Lemma traced_confinement setup : traced (confinement_stage setup) (fun _ => confinement_calls setup).
Proof.
  unfold confinement_stage, confinement_calls. eapply traced_bind; [apply traced_must|intros ?].
  eapply (traced_bind _ _ (fun _ d => if drop_capabilities_flag setup then drops_to (cs_retain_mask setup) d else d = [])).
  { destruct (drop_capabilities_flag setup); [|by apply traced_ret].
    eapply traced_bind; [apply traced_drop|]. intros [[]|e]; [|apply traced_fail].
    apply traced_ret. intros d Hd. rewrite app_nil_r. auto. }
  intros ?. eapply (traced_bind _ _ (fun _ l => l = match cs_landlock setup with Some _ => [LandlockRestrict] | None => [] end)).
  { destruct (cs_landlock setup); [apply traced_must|by apply traced_ret]. }
  intros ?. destruct (cs_seccomp setup) as [len|].
  - destruct (65535 <? len)%nat; [apply traced_fail|]. eapply traced_weaken; [|apply traced_must].
    intros _ l -> l1 -> d Hd l0 ->. by exists d.
  - apply traced_ret. intros l1 -> d Hd l0 ->. by exists d.
Qed.

Definition below_guard_calls (inherited fds : list Z) : list call :=
  (fun fd => if bool_decide (fd ∈ inherited) then ClearCloexec fd else Close fd) <$> fds.

Lemma traced_ignored c : traced (ignored c) (fun _ l => l `sublist_of` [c]).
Proof.
  intros s. unfold ignored. destruct (negb (p_seccomp (c_proc s)) || is_ok (answer_at (c_clock s) c)).
  - exists [c]. split; [apply ran_perform|done].
  - exists []. split; [apply ran_tick|apply sublist_nil_l].
Qed.

Lemma traced_below_guard inherited fds :
  traced (close_below_guard inherited fds) (fun _ l => l `sublist_of` below_guard_calls inherited fds).
Proof.
  induction fds as [|fd fds IH]; cbn [close_below_guard]; [by apply traced_ret|].
  apply (traced_bind _ _ (fun _ l => l `sublist_of` [if bool_decide (fd ∈ inherited) then ClearCloexec fd else Close fd])).
  - case_bool_decide; apply traced_ignored.
  - intros ?. eapply traced_weaken; [|exact IH]. intros ? l Hl l1 Hl1. exact (sublist_app _ _ _ _ Hl1 Hl).
Qed.

(** The closings of the hygiene stage pass: there is no filter, or it lets them pass. *)
Definition passes (p : proc) : Prop :=
  p_seccomp p = false ∨
  ∀ t fd, is_ok (answer_at t (Close fd)) = true ∧ is_ok (answer_at t (ClearCloexec fd)) = true.

Lemma below_guard_passes inherited fds s :
  passes (c_proc s) → ran s (close_below_guard inherited fds s).2 (below_guard_calls inherited fds).
Proof.
  revert s; induction fds as [|fd fds IH]; intros s Hp; cbn [close_below_guard]; [apply ran_refl|].
  set (c := if bool_decide (fd ∈ inherited) then ClearCloexec fd else Close fd).
  assert (Hone : (if bool_decide (fd ∈ inherited) then ignored (ClearCloexec fd) else ignored (Close fd)) s = (Ok tt, perform c s)).
  { unfold c. case_bool_decide; unfold ignored; (destruct Hp as [->|Hp]; [done|]); destruct (Hp (c_clock s) fd) as [Hc Hf];
      by rewrite ?Hc, ?Hf, orb_true_r. }
  rewrite (bind_run _ _ _ _ _ Hone). eapply (ran_trans _ _ _ [c]); [apply ran_perform|]. apply IH.
  destruct Hp as [Hp|Hp]; [left|by right]. unfold perform, c. cbn. by case_bool_decide.
Qed.

Definition guard_calls (setup : ChildSetup) : list call :=
  [Dup2 (report_fd setup) (report_guard setup); CloseRange (report_guard setup + 1) u32_max;
   SetCloexec (report_guard setup)].

(** All that the hygiene stage means to close. *)
Definition below_calls (setup : ChildSetup) : list call :=
  below_guard_calls (inherited_fds setup) (seqZ 3 (report_guard setup - 3)).

Definition hygiene_calls (setup : ChildSetup) (l : list call) : Prop :=
  ∃ below, below `sublist_of` below_calls setup ∧ l = guard_calls setup ++ below.

Lemma traced_hygiene setup : traced (hygiene_stage setup) (fun _ => hygiene_calls setup).
Proof.
  unfold hygiene_stage. do 3 (eapply traced_bind; [apply traced_must|intros ?]).
  eapply traced_weaken; [|apply traced_below_guard]. intros ? l Hl ? -> ? -> ? ->. by exists l.
Qed.

Lemma hygiene_passes setup s s' :
  hygiene_stage setup s = (Ok tt, s') → passes (c_proc s) → ran s s' (guard_calls setup ++ below_calls setup).
Proof.
  intros Hr Hp. unfold hygiene_stage in Hr.
  assert (Hmust : ∀ fd stage detail c s u s1, must fd stage detail c s = (Ok u, s1) → s1 = perform c s).
  { intros fd stage detail c s0 u s1. unfold must, syscall, mbind, M_bind. destruct (answer s0 c); cbn; [|done].
    by intros [= _ <-]. }
  apply bind_Ok in Hr as (u1 & s1 & ->%Hmust & Hr). apply bind_Ok in Hr as (u2 & s2 & ->%Hmust & Hr).
  apply bind_Ok in Hr as (u3 & s3 & ->%Hmust & Hr). set (q := perform (SetCloexec _) _) in Hr.
  assert (Hq : ran s q (guard_calls setup)) by (by split; [unfold q; cbn; rewrite <-!app_assoc|]).
  eapply ran_trans; [exact Hq|]. replace s' with (close_below_guard (inherited_fds setup) (seqZ 3 (report_guard setup - 3)) q).2
    by (by rewrite Hr). apply below_guard_passes. exact Hp.
Qed.

(** *** The whole chain *)

Lemma execed_bind {A B} (m : M child ended A) (f : A → M child ended B) L s s' :
  traced m L → (m ≫= f) s = (Err Execed, s') →
  ∃ a s1 l, ran s s1 l ∧ L a l ∧ f a s1 = (Err Execed, s').
Proof.
  intros Hm Hr. specialize (Hm s). unfold mbind, M_bind in Hr.
  destruct (m s) as [[a|e] s1]; [|injection Hr as -> _; by apply stops_not_execed in Hm].
  destruct Hm as (l & Hl & HL). by exists a, s1, l.
Qed.

(** The calls of a child that reached its program. *)
Record trace (setup : ChildSetup) := MkTrace
  { tr_namespace : list call; tr_transition : list call; tr_confinement : list call; tr_hygiene : list call;
    tr_namespace_ok : namespace_calls setup tr_namespace;
    tr_transition_ok : identity_transition setup tr_transition;
    tr_confinement_ok : confinement_calls setup tr_confinement;
    tr_hygiene_ok : hygiene_calls setup tr_hygiene }.

(** Everything was closed. *)
Definition tidy (setup : ChildSetup) (tr : trace setup) : Prop := tr_hygiene setup tr = guard_calls setup ++ below_calls setup.

Definition before_hygiene (setup : ChildSetup) (tr : trace setup) : list call :=
  parent_death_calls setup ++ identity_calls setup ++ mount_calls setup ++ tr_namespace setup tr
  ++ tr_transition setup tr ++ environment_calls setup ++ tr_confinement setup tr.

Definition all_calls (setup : ChildSetup) (tr : trace setup) : list call :=
  before_hygiene setup tr ++ tr_hygiene setup tr ++ [exec_call setup].

(** What a run of calls does to the filter. *)
Lemma run_unfiltered l p : SeccompFilter ∉ l → p_seccomp (run_calls l p) = p_seccomp p.
Proof.
  revert p; induction l as [|c l IH]; intros p Hn; [done|]. apply not_elem_of_cons in Hn as [Hc Hn].
  cbn. rewrite IH by done. destruct c; cbn; done.
Qed.

Lemma drops_unfiltered mask d : drops_to mask d → SeccompFilter ∉ d.
Proof.
  intros (b & cl & Hb & Hcl & ->) Hin. rewrite !elem_of_app in Hin. destruct Hin as [Hin|[Hin|[Hin|Hin]]].
  - unfold only_bounding in Hb. rewrite Forall_forall in Hb. by destruct (Hb _ Hin).
  - set_solver.
  - destruct Hcl as [->| ->]; set_solver.
  - unfold raises in Hin. apply list_elem_of_fmap in Hin as (? & ? & _). done.
Qed.

(** Without a filter to install, none is there when the descriptors are tidied. *)
Lemma before_hygiene_unfiltered setup tr :
  cs_seccomp setup = None → SeccompFilter ∉ before_hygiene setup tr.
Proof.
  intros Hnone. unfold before_hygiene. pose proof (tr_namespace_ok setup tr) as Hn. pose proof (tr_transition_ok setup tr) as Ht.
  destruct (tr_confinement_ok setup tr) as (d & Hd & Hc). rewrite Hc, Hnone.
  assert (Hd' : SeccompFilter ∉ d) by (destruct (drop_capabilities_flag setup); [by eapply drops_unfiltered|subst; set_solver]).
  assert (Hn' : SeccompFilter ∉ tr_namespace setup tr).
  { unfold namespace_calls in Hn. destruct (pid_namespace_supervisor setup); [|rewrite Hn; set_solver].
    destruct Hn as (c & e & _ & _ & ->). unfold close_calls. destruct (user_cgroup_fd setup); set_solver. }
  assert (Ht' : SeccompFilter ∉ tr_transition setup tr).
  { unfold identity_transition in Ht. destruct (cs_identity setup); [rewrite Ht; set_solver..|].
    destruct Ht as (d' & Hd'' & ->). apply drops_unfiltered in Hd''. set_solver. }
  unfold parent_death_calls, identity_calls, proc_calls, mount_calls, environment_calls.
  rewrite !not_elem_of_app. split_and!; try done;
    repeat match goal with |- context [match ?x with _ => _ end] => destruct x end; set_solver.
Qed.

(** The closings of this launch pass. *)
Definition closing_passes (setup : ChildSetup) (s : child) : Prop :=
  cs_seccomp setup = None ∧ p_seccomp (c_proc s) = false ∨
  ∀ t fd, is_ok (answer_at t (Close fd)) = true ∧ is_ok (answer_at t (ClearCloexec fd)) = true.

Lemma execed_trace setup s s' :
  child_entry setup s = (Err Execed, s') →
  ∃ tr, ran s s' (all_calls setup tr) ∧ released setup ∧ (closing_passes setup s → tidy setup tr).
Proof.
  unfold child_entry. intros Hr.
  apply (execed_bind _ _ _ _ _ (traced_parent_death setup)) in Hr as (_ & s1 & ? & Hr1 & -> & Hr).
  apply (execed_bind _ _ _ _ _ (traced_identity setup)) in Hr as (_ & s2 & ? & Hr2 & [-> Hrel] & Hr).
  apply (execed_bind _ _ _ _ _ (traced_mount setup)) in Hr as (_ & s3 & ? & Hr3 & -> & Hr).
  apply (execed_bind _ _ _ _ _ (traced_namespace setup)) in Hr as (_ & s4 & ln & Hr4 & Hn & Hr).
  apply (execed_bind _ _ _ _ _ (traced_transition setup)) in Hr as (_ & s5 & lt & Hr5 & Ht & Hr).
  apply (execed_bind _ _ _ _ _ (traced_environment setup)) in Hr as (_ & s6 & ? & Hr6 & -> & Hr).
  apply (execed_bind _ _ _ _ _ (traced_confinement setup)) in Hr as (_ & s7 & lc & Hr7 & Hc & Hr).
  pose proof (traced_hygiene setup s7) as Hhyg. unfold mbind, M_bind in Hr.
  destruct (hygiene_stage setup s7) as [[[]|e] s8] eqn:Hstage; [|injection Hr as -> _; by apply stops_not_execed in Hhyg].
  destruct Hhyg as (lh & Hr8 & Hh).
  assert (Hr9 : ran s8 s' [exec_call setup]).
  { unfold exec_stage, syscall, mbind, M_bind in Hr. destruct (answer s8 _); [|done].
    injection Hr as <-. apply ran_perform. }
  set (tr := MkTrace setup ln lt lc lh Hn Ht Hc Hh). exists tr.
  assert (Hbefore : ran s s7 (before_hygiene setup tr)).
  { exact (ran_trans _ _ _ _ _ Hr1 (ran_trans _ _ _ _ _ Hr2 (ran_trans _ _ _ _ _ Hr3 (ran_trans _ _ _ _ _ Hr4
      (ran_trans _ _ _ _ _ Hr5 (ran_trans _ _ _ _ _ Hr6 Hr7)))))). }
  split_and!; [exact (ran_trans _ _ _ _ _ Hbefore (ran_trans _ _ _ _ _ Hr8 Hr9))|done|].
  intros Hpass. assert (Hp : passes (c_proc s7)).
  { destruct Hpass as [[Hnone Hs]|Hpass]; [left|by right]. destruct Hbefore as [_ ->].
    by rewrite run_unfiltered by by apply before_hygiene_unfiltered. }
  apply (hygiene_passes _ _ _ Hstage) in Hp as [Hp _]. destruct Hr8 as [Hr8 _]. rewrite Hp in Hr8.
  by apply app_inv_head in Hr8.
Qed.

(** ** The state the program starts in *)

(** A call that leaves the part [f] of the process alone. *)
Definition frames {A} (f : proc → A) (c : call) : Prop := ∀ p, f (effect c p) = f p.

Lemma run_frames {A} (f : proc → A) l p : Forall (frames f) l → f (run_calls l p) = f p.
Proof. intros Hl. revert p; induction Hl as [|c l Hc Hl IH]; intros p; [done|]. cbn. by rewrite IH, Hc. Qed.

(** The last call that touches a part decides it. *)
Lemma run_last {A} (f : proc → A) c l1 l2 p :
  Forall (frames f) l2 → f (run_calls (l1 ++ c :: l2) p) = f (effect c (run_calls l1 p)).
Proof. intros Hl. rewrite run_calls_app. cbn. by apply run_frames. Qed.

(** What a call establishes and none undoes. *)
Lemma run_stable (P : proc → Prop) c l p :
  (∀ c p, P p → P (effect c p)) → c ∈ l → (∀ p, P (effect c p)) → P (run_calls l p).
Proof.
  intros Hst Hin Hc. apply list_elem_of_split in Hin as (l1 & l2 & ->). rewrite run_calls_app. cbn.
  generalize (Hc (run_calls l1 p)). generalize (effect c (run_calls l1 p)). clear p.
  induction l2 as [|c' l2 IH]; intros p Hp; [done|]. cbn. apply IH. by apply Hst.
Qed.

Lemma drops_frames {A} (f : proc → A) mask d :
  drops_to mask d → (∀ c, (∃ cap, c = BoundingDrop cap ∨ c = AmbientRaise cap) ∨ c = Capset mask ∨ c = AmbientClear → frames f c) →
  Forall (frames f) d.
Proof.
  intros (b & cl & Hb & Hcl & ->) Hf. rewrite !Forall_app. split_and!.
  - eapply Forall_impl; [exact Hb|]. intros c [cap ->]. apply Hf. left. eauto.
  - constructor; [apply Hf; auto|constructor].
  - destruct Hcl as [->| ->]; [constructor; [apply Hf; auto|]|]; constructor.
  - unfold raises. rewrite Forall_fmap. apply Forall_true. intros cap. apply Hf. left. eauto.
Qed.

Lemma sublist_Forall (P : call → Prop) l k : l `sublist_of` k → Forall P k → Forall P l.
Proof. intros Hl. rewrite !Forall_forall. intros HP c Hc. apply HP. by eapply (sublist_subseteq l k). Qed.

Ltac frame_step :=
  match goal with
  | |- Forall _ (_ ++ _) => apply Forall_app; split
  | |- Forall _ [] => constructor
  | |- Forall _ (_ :: _) => apply Forall_cons_2
  | |- Forall _ (match ?x with _ => _ end) => destruct x
  | |- Forall _ (tr_hygiene ?setup ?tr) =>
      let below := fresh "below" in let Hb := fresh "Hb" in let Hl := fresh "Hl" in
      destruct (tr_hygiene_ok setup tr) as (below & Hb & Hl); rewrite Hl; clear Hl
  | Hb : ?l `sublist_of` below_calls _ |- Forall _ ?l => eapply sublist_Forall; [exact Hb|]
  | |- Forall _ (guard_calls _) => unfold guard_calls
  | |- Forall _ (below_calls _) =>
      unfold below_calls, below_guard_calls; rewrite Forall_fmap; apply Forall_true; intros ?; cbn; case_bool_decide
  | Hd : drops_to _ ?d |- Forall _ ?d =>
      eapply drops_frames; [exact Hd|]; intros ? [[? [->| ->]]|[->| ->]]
  | |- frames _ _ => intros ?; reflexivity
  end.
Ltac frame :=
  unfold guard_calls, environment_calls, parent_death_calls, identity_calls, proc_calls, mount_calls, close_calls in *;
  repeat frame_step.

Definition after_transition (setup : ChildSetup) (tr : trace setup) : list call :=
  environment_calls setup ++ tr_confinement setup tr ++ tr_hygiene setup tr ++ [exec_call setup].

Definition before_transition (setup : ChildSetup) (tr : trace setup) : list call :=
  parent_death_calls setup ++ identity_calls setup ++ mount_calls setup ++ tr_namespace setup tr.

Lemma all_calls_split setup tr :
  all_calls setup tr = before_transition setup tr ++ tr_transition setup tr ++ after_transition setup tr.
Proof. unfold all_calls, before_hygiene, before_transition, after_transition. by rewrite <-!app_assoc. Qed.

Lemma after_transition_frames {A} (f : proc → A) setup tr :
  (∀ c, match c with Setresgid _ | Setresuid _ | SetgroupsEmpty | PrctlSecurebits _ | Clone3User _
                   | PrctlPdeathsig | MountPrivate | MountReadonly | MoveMount _ _ => False | _ => True end → frames f c) →
  Forall (frames f) (after_transition setup tr).
Proof.
  intros Hf. unfold after_transition. destruct (tr_confinement_ok setup tr) as (d & Hd & ->).
  assert (Hdf : Forall (frames f) d).
  { destruct (drop_capabilities_flag setup); [|subst; constructor]. eapply drops_frames; [exact Hd|].
    intros ? [[? [->| ->]]|[->| ->]]; by apply Hf. }
  frame; try done; by apply Hf.
Qed.

(** Peel the calls that leave [f] alone off the end of a run. *)
Ltac peel f := rewrite !run_calls_app; repeat rewrite (run_frames f) by (frame; fail).

Lemma raises_frames {A} (f : proc → A) mask caps : (∀ cap, frames f (AmbientRaise cap)) → Forall (frames f) (raises mask caps).
Proof. intros Hf. unfold raises. rewrite Forall_fmap. by apply Forall_true. Qed.

Lemma caps_final setup tr p :
  drop_capabilities_flag setup = true → p_caps (run_calls (all_calls setup tr) p) = Some (cs_retain_mask setup).
Proof.
  intros Hflag. unfold all_calls, before_hygiene. destruct (tr_confinement_ok setup tr) as (d & Hd & ->).
  rewrite Hflag in Hd. destruct Hd as (b & cl & Hb & Hcl & ->).
  rewrite !run_calls_app. rewrite (run_frames p_caps [exec_call _]) by frame.
  rewrite (run_frames p_caps (tr_hygiene setup tr)) by frame.
  rewrite 2!(run_frames p_caps (match _ with Some _ => _ | None => _ end)) by frame.
  rewrite (run_frames p_caps (raises _ _)) by (by apply raises_frames).
  rewrite (run_frames p_caps cl) by (destruct Hcl as [->| ->]; frame). done.
Qed.

Lemma identity_final setup tr p uid gid ready installed :
  cs_identity setup = IsolatedAs uid gid ready installed →
  let q := run_calls (all_calls setup tr) p in
  p_uid q = Mapped uid ∧ p_gid q = Mapped gid ∧ p_groups q = false ∧ p_securebits q = SECUREBITS.
Proof.
  intros Hid. cbn zeta. rewrite all_calls_split. pose proof (tr_transition_ok setup tr) as Ht.
  unfold identity_transition in Ht. rewrite Hid in Ht. destruct Ht as (d & Hd & ->).
  rewrite !run_calls_app.
  split_and!; rewrite run_frames by (by apply after_transition_frames; intros [] Hc; try done; intros ?);
    (rewrite run_frames by frame); reflexivity.
Qed.

Lemma before_transition_launcher setup tr p :
  p_uid (run_calls (before_transition setup tr) p) = p_uid p ∧ p_gid (run_calls (before_transition setup tr) p) = p_gid p.
Proof.
  pose proof (tr_namespace_ok setup tr) as Hn. unfold namespace_calls in Hn. unfold before_transition.
  assert (Hnf : Forall (frames p_uid) (tr_namespace setup tr) ∧ Forall (frames p_gid) (tr_namespace setup tr)).
  { destruct (pid_namespace_supervisor setup); [destruct Hn as (c & e & _ & _ & ->)|rewrite Hn]; split; frame. }
  destruct Hnf as [Hu Hg]. split; apply run_frames; frame; done.
Qed.

(** The parent-death signal does not survive the change of identity. *)
Lemma pdeathsig_final setup tr p :
  p_uid p = Launcher →
  p_pdeathsig (run_calls (all_calls setup tr) p) =
    match cs_identity setup with IsolatedAs _ _ _ _ => false | _ => true end.
Proof.
  intros Hp. rewrite all_calls_split, !run_calls_app.
  rewrite run_frames by (by apply after_transition_frames; intros [] Hc; try done; intros ?).
  destruct (before_transition_launcher setup tr p) as [Hu _]. rewrite Hp in Hu.
  pose proof (tr_transition_ok setup tr) as Ht. unfold identity_transition in Ht.
  assert (Hbefore : p_pdeathsig (run_calls (before_transition setup tr) p) = true).
  { pose proof (tr_namespace_ok setup tr) as Hn. unfold namespace_calls in Hn. unfold before_transition.
    rewrite !run_calls_app. destruct (pid_namespace_supervisor setup).
    - destruct Hn as (c & e & _ & _ & ->). rewrite !run_calls_app. done.
    - rewrite Hn. cbn [run_calls fold_left]. fold (run_calls (mount_calls setup)).
      rewrite !run_frames by frame. unfold parent_death_calls.
      by destruct (parent_pidfd setup). }
  set (q := run_calls (before_transition setup tr) p) in *.
  destruct (cs_identity setup) as [| |uid gid ready installed]; [by rewrite Ht..|].
  destruct Ht as (d & Hd & ->). rewrite run_calls_app, run_frames by frame. clearbody q. cbn.
  rewrite Hu. rewrite (bool_decide_false (Launcher = Mapped uid)) by done. by rewrite andb_false_r.
Qed.

Lemma mount_frames_after {A} (f : proc → A) setup tr :
  (∀ c, match c with MountPrivate | MountReadonly | MoveMount _ _ => False | _ => True end → frames f c) →
  Forall (frames f) (tr_namespace setup tr ++ tr_transition setup tr ++ after_transition setup tr).
Proof.
  intros Hf. rewrite !Forall_app. split_and!.
  - pose proof (tr_namespace_ok setup tr) as Hn. unfold namespace_calls in Hn.
    destruct (pid_namespace_supervisor setup); [destruct Hn as (c & e & _ & _ & ->)|rewrite Hn]; frame; by apply Hf.
  - pose proof (tr_transition_ok setup tr) as Ht. unfold identity_transition in Ht.
    destruct (cs_identity setup); [rewrite Ht; constructor..|]. destruct Ht as (d & Hd & ->). frame; by apply Hf.
  - apply after_transition_frames. intros c Hc. apply Hf. by destruct c.
Qed.

Lemma mounts_final setup tr p :
  p_attached p = [] →
  let q := run_calls (all_calls setup tr) p in
  (make_mounts_private setup = true → p_private q = true) ∧
  (∀ m, cs_mounts setup = Some m → p_readonly q = true ∧
     p_attached q = [(workspace_mount m, workspace_target m, true); (runtime_mount m, runtime_target m, true)]).
Proof.
  intros Hp. cbn zeta. rewrite all_calls_split. unfold before_transition. rewrite <-!app_assoc.
  rewrite (run_calls_app (parent_death_calls setup)), (run_calls_app (identity_calls setup)),
    (run_calls_app (mount_calls setup)).
  set (q := run_calls (identity_calls setup) _).
  assert (Hq : p_attached q = []).
  { unfold q. rewrite !(run_frames p_attached) by frame. done. }
  clearbody q. split.
  - intros Hm. rewrite run_frames by (by apply mount_frames_after; intros []).
    unfold mount_calls. rewrite Hm. by destruct (cs_mounts setup).
  - intros m Hm. split; rewrite run_frames by (by apply mount_frames_after; intros []);
      unfold mount_calls; rewrite Hm; destruct (make_mounts_private setup); cbn; by rewrite ?Hq.
Qed.

Lemma filters_final setup tr p :
  let q := run_calls (all_calls setup tr) p in
  p_nnp q = true ∧ (cs_landlock setup ≠ None → p_landlock q = true) ∧ (cs_seccomp setup ≠ None → p_seccomp q = true).
Proof.
  cbn zeta. destruct (tr_confinement_ok setup tr) as (d & _ & Hc).
  assert (Hin : ∀ c, c ∈ tr_confinement setup tr → c ∈ all_calls setup tr).
  { intros c Hin. unfold all_calls, before_hygiene. rewrite !elem_of_app. tauto. }
  rewrite Hc in Hin. split_and!.
  - apply (run_stable (fun p => p_nnp p = true) PrctlNoNewPrivs); [intros []; cbn; auto| |done]. apply Hin. left.
  - intros Hl. apply (run_stable (fun p => p_landlock p = true) LandlockRestrict); [intros []; cbn; auto| |done].
    apply Hin. destruct (cs_landlock setup); [|done]. rewrite !elem_of_app. right. right. left. left.
  - intros Hl. apply (run_stable (fun p => p_seccomp p = true) SeccompFilter); [intros []; cbn; auto| |done].
    apply Hin. destruct (cs_seccomp setup); [|done]. rewrite !elem_of_app. right. right. right. left.
Qed.

(** *** Descriptors *)

Lemma below_guard_fds inherited l p fd :
  p_fds (run_calls (below_guard_calls inherited l) p) !! fd =
    if decide (fd ∈ l) then
      if decide (fd ∈ inherited) then (fun e => MkFd (fe_file e) false) <$> p_fds p !! fd else None
    else p_fds p !! fd.
Proof.
  revert p; induction l as [|x l IH]; intros p; [done|]. cbn. fold (run_calls (below_guard_calls inherited l)).
  rewrite IH. destruct (decide (fd = x)) as [->|Hne].
  - assert (Hx : x ∈ x :: l) by left. case_bool_decide as Hin; cbn.
    + rewrite lookup_alter_eq. repeat case_decide; try done. by destruct (p_fds p !! x).
    + rewrite lookup_delete_eq. by repeat case_decide.
  - assert (Hsame : p_fds (effect (if bool_decide (x ∈ inherited) then ClearCloexec x else Close x) p) !! fd = p_fds p !! fd).
    { case_bool_decide; cbn; [by rewrite lookup_alter_ne|by rewrite lookup_delete_ne]. }
    rewrite Hsame. assert (Hl : fd ∈ x :: l ↔ fd ∈ l) by (rewrite elem_of_cons; naive_solver).
    repeat case_decide; try done; tauto.
Qed.

Lemma exec_fds setup p fd :
  p_fds (run_calls [exec_call setup] p) !! fd = (e ← p_fds p !! fd; if fe_cloexec e then None else Some e).
Proof.
  cbn. destruct (p_fds p !! fd) as [e|] eqn:He; cbn.
  - destruct (fe_cloexec e) eqn:Hc.
    + apply map_lookup_filter_None. right. intros e' Heq. rewrite He in Heq. injection Heq as <-. cbn. by rewrite Hc.
    + by apply map_lookup_filter_Some.
  - apply map_lookup_filter_None. by left.
Qed.

Lemma dup_fd_ne source target m fd : fd ≠ target → dup_fd source target m !! fd = m !! fd.
Proof.
  intros Hne. unfold dup_fd. destruct (source =? target); [done|]. destruct (m !! source); [|done].
  by rewrite lookup_insert_ne.
Qed.

(** The report descriptor is moved to the guard, and everything above it is gone. *)
Lemma guard_fds report guard p fd :
  0 <= fd <= u32_max →
  let q := run_calls [Dup2 report guard; CloseRange (guard + 1) u32_max; SetCloexec guard] p in
  (fd < guard → p_fds q !! fd = p_fds p !! fd) ∧ (guard < fd → p_fds q !! fd = None) ∧
  (fd = guard → ∀ e, p_fds q !! fd = Some e → fe_cloexec e = true).
Proof.
  intros Hfd. cbn. split_and!.
  - intros Hlt. rewrite lookup_alter_ne by lia.
    destruct (p_fds p !! fd) as [e|] eqn:He.
    + apply map_lookup_filter_Some. rewrite dup_fd_ne by lia. split; [done|]. cbn. lia.
    + apply map_lookup_filter_None. left. by rewrite dup_fd_ne by lia.
  - intros Hlt. rewrite lookup_alter_ne by lia. apply map_lookup_filter_None. right. intros e _ Hn. cbn in Hn. lia.
  - intros -> e. rewrite lookup_alter_eq. destruct (_ !! guard); [|done]. by intros [= <-].
Qed.

(** The table after the hygiene stage and the exec, for a number a descriptor can have. *)
Lemma hygiene_fds setup p fd :
  0 <= fd <= u32_max → 3 <= report_guard setup →
  p_fds (run_calls ((guard_calls setup ++ below_calls setup) ++ [exec_call setup]) p) !! fd =
    if decide (fd < 3) then (e ← p_fds p !! fd; if fe_cloexec e then None else Some e)
    else if decide (fd < report_guard setup) then
      if decide (fd ∈ inherited_fds setup) then (fun e => MkFd (fe_file e) false) <$> p_fds p !! fd else None
    else None.
Proof.
  intros Hfd Hg. unfold guard_calls, below_calls. rewrite !run_calls_app, exec_fds, below_guard_fds.
  destruct (guard_fds (report_fd setup) (report_guard setup) p fd Hfd) as (Hlt & Hgt & Heq).
  set (q := run_calls _ p) in *. clearbody q.
  assert (Hin : fd ∈ seqZ 3 (report_guard setup - 3) ↔ 3 <= fd < report_guard setup) by (rewrite elem_of_seqZ; lia).
  destruct (decide (fd < report_guard setup)) as [Hl|Hl].
  - rewrite Hlt by done. destruct (decide (fd ∈ seqZ 3 (report_guard setup - 3))) as [Hs|Hs].
    + apply Hin in Hs. rewrite (decide_False (P := fd < 3)) by lia. repeat case_decide; try done. by destruct (p_fds p !! fd).
    + destruct (decide (fd < 3)); [done|]. exfalso. apply Hs, Hin. lia.
  - destruct (decide (fd ∈ seqZ 3 (report_guard setup - 3))); [tauto|].
    rewrite (decide_False (P := fd < 3)) by lia.
    destruct (decide (fd = report_guard setup)) as [->|Hne]; [|by rewrite Hgt by lia].
    destruct (p_fds q !! report_guard setup) as [e|] eqn:He; [|done]. cbn. by rewrite (Heq eq_refl e eq_refl).
Qed.

(** User code starts confined, whatever the kernel answered on the way.  When the
    child reaches its program: it can gain no privileges; its capabilities are exactly
    the retained ones; the file and network rules and the system-call filter are in
    force where the policy asks for them; its mounts are private where asked for, and
    with prepared mounts the inherited tree is read-only and exactly the two prepared
    views are attached, writable; an isolated child has passed the launcher's barrier
    and runs under the leased user and group, with no supplementary groups and the
    secure bits locked; and unless its own system-call filter refuses to let it close the
    others, it holds of the launcher's descriptors the three standard streams and the
    inherited ones that it was meant to have, with their files, and nothing else. *)
Theorem user_code_starts_confined setup s s' :
  drop_capabilities_flag setup = true → 3 <= report_guard setup → p_attached (c_proc s) = [] →
  child_entry setup s = (Err Execed, s') →
  let p := c_proc s' in
  p_nnp p = true ∧ p_caps p = Some (cs_retain_mask setup) ∧
  (cs_landlock setup ≠ None → p_landlock p = true) ∧ (cs_seccomp setup ≠ None → p_seccomp p = true) ∧
  (make_mounts_private setup = true → p_private p = true) ∧
  (∀ m, cs_mounts setup = Some m → p_readonly p = true ∧
     p_attached p = [(workspace_mount m, workspace_target m, true); (runtime_mount m, runtime_target m, true)]) ∧
  (∀ uid gid ready installed, cs_identity setup = IsolatedAs uid gid ready installed →
     p_uid p = Mapped uid ∧ p_gid p = Mapped gid ∧ p_groups p = false ∧ p_securebits p = SECUREBITS ∧
     ∃ t, read_byte_at t installed = Ok (Some MAP_INSTALLED)) ∧
  (closing_passes setup s → ∀ fd e, 0 <= fd <= u32_max → p_fds p !! fd = Some e →
     fe_cloexec e = false ∧ (fd < 3 ∨ (fd ∈ inherited_fds setup ∧ fd < report_guard setup))).
Proof.
  intros Hflag Hguard Hatt Hr. apply execed_trace in Hr as (tr & [_ Hp] & Hrel & Htidy). cbn zeta. rewrite Hp.
  destruct (filters_final setup tr (c_proc s)) as (Hnnp & Hll & Hsc).
  destruct (mounts_final setup tr (c_proc s) Hatt) as (Hpriv & Hm).
  split_and!; [done|by apply caps_final|done|done|done|done| |].
  - intros uid gid ready installed Hid. destruct (identity_final setup tr (c_proc s) _ _ _ _ Hid) as (? & ? & ? & ?).
    split_and!; [done..|by eapply Hrel].
  - intros Hpass fd e Hfd He. unfold all_calls in He. rewrite (Htidy Hpass), run_calls_app, hygiene_fds in He by done.
    set (m := p_fds _) in He. clearbody m. repeat case_decide; [| |done..].
    + destruct (m !! fd) as [e'|]; [|done]. cbn in He. destruct (fe_cloexec e') eqn:Hc; [done|].
      injection He as <-. auto.
    + destruct (m !! fd) as [e'|]; [|done]. injection He as <-. auto.
Qed.

(** *** The inherited descriptors and the standard streams arrive *)

(** Descriptors the chain gives up before the hygiene stage. *)
Definition given_up (setup : ChildSetup) : list Z :=
  option_list (parent_pidfd setup)
  ++ (match cs_identity setup with IsolatedAs _ _ ready installed => [ready; installed] | _ => [] end)
  ++ (if pid_namespace_supervisor setup
      then option_list (supervisor_control_fd setup) ++ option_list (supervisor_exit_fd setup)
           ++ option_list (user_cgroup_fd setup)
      else []).

Lemma frames_close fd x : x ≠ fd → frames (fun p => p_fds p !! fd) (Close x).
Proof. intros Hne p. cbn. by rewrite lookup_delete_ne. Qed.

Lemma before_environment_fds setup tr fd p :
  fd ∉ given_up setup →
  p_fds (run_calls (before_transition setup tr ++ tr_transition setup tr) p) !! fd = p_fds p !! fd.
Proof.
  intros Hfd. apply (run_frames (fun p => p_fds p !! fd)). unfold given_up in Hfd. rewrite !not_elem_of_app in Hfd.
  destruct Hfd as (Hpidfd & Hbarrier & Hns). unfold before_transition. rewrite !Forall_app. split_and!.
  - unfold parent_death_calls. apply Forall_cons_2; [by intros ?|].
    destruct (parent_pidfd setup) as [x|]; (apply Forall_cons_2; [|constructor]); [|by intros ?].
    apply frames_close. intros ->. apply Hpidfd. left.
  - unfold identity_calls, proc_calls. destruct (cs_identity setup) as [| |uid gid ready installed]; [constructor| |].
    + cbn. repeat (apply Forall_cons_2; [by intros ?|]). constructor.
    + apply not_elem_of_cons in Hbarrier as [Hr Hi]. apply not_elem_of_cons in Hi as [Hi _].
      repeat apply Forall_cons_2; [by apply frames_close..|constructor].
  - frame.
  - pose proof (tr_namespace_ok setup tr) as Hn. unfold namespace_calls in Hn.
    destruct (pid_namespace_supervisor setup); [|rewrite Hn; constructor].
    destruct Hn as (c & e & Hc & He & ->). rewrite Hc, He in Hns. rewrite !not_elem_of_app in Hns. cbn in Hns.
    destruct Hns as (Hc' & He' & Hg). apply not_elem_of_cons in Hc' as [Hc' _]. apply not_elem_of_cons in He' as [He' _].
    rewrite !Forall_app. split_and!.
    + repeat apply Forall_cons_2; [by intros ?|by apply frames_close|by apply frames_close|constructor].
    + unfold close_calls. destruct (user_cgroup_fd setup) as [x|]; [|constructor].
      apply Forall_cons_2; [|constructor]. apply frames_close. intros ->. apply Hg. left.
    + repeat (apply Forall_cons_2; [by intros ?|]). constructor.
  - pose proof (tr_transition_ok setup tr) as Ht. unfold identity_transition in Ht.
    destruct (cs_identity setup); [rewrite Ht; constructor..|]. destruct Ht as (d & Hd & ->). frame.
Qed.

(** The streams after the three copies, when no source is itself a stream. *)
Lemma environment_fds setup tr p fd :
  let q := run_calls (environment_calls setup ++ tr_confinement setup tr) p in
  let source := fun fd => if decide (fd = 0) then stdin_fd setup else if decide (fd = 1) then stdout_fd setup else stderr_fd setup in
  (3 <= fd → p_fds q !! fd = p_fds p !! fd) ∧
  (Forall (fun s => 3 <= s) [stdin_fd setup; stdout_fd setup; stderr_fd setup] → 0 <= fd < 3 →
   ∀ e, p_fds p !! source fd = Some e → p_fds q !! fd = Some (MkFd (fe_file e) false)).
Proof.
  cbn zeta. destruct (tr_confinement_ok setup tr) as (d & Hd & ->). unfold environment_calls.
  rewrite <-app_assoc, run_calls_app. set (q := run_calls [_; _; _] p).
  match goal with |- context [run_calls ?l q] => set (rest := l) end.
  assert (Hrest : p_fds (run_calls rest q) = p_fds q).
  { apply run_frames. unfold rest. rewrite !Forall_app. split_and!; try (frame; fail).
    destruct (drop_capabilities_flag setup); [frame|subst; constructor]. }
  rewrite !Hrest. unfold q. cbn. split.
  - intros Hge. rewrite !dup_fd_ne by lia. done.
  - intros Hsrc Hfd e. rewrite !Forall_cons in Hsrc. destruct Hsrc as (H0 & H1 & H2 & _).
    assert (Hdup : ∀ s t m e, 3 <= s → t < 3 → m !! s = Some e → dup_fd s t m !! t = Some (MkFd (fe_file e) false)).
    { intros s t m e' Hs Ht Hm. unfold dup_fd. rewrite (proj2 (Z.eqb_neq s t)) by lia. by rewrite Hm, lookup_insert_eq. }
    assert (fd = 0 ∨ fd = 1 ∨ fd = 2) as [->|[->| ->]] by lia; cbn; intros He.
    + rewrite !(dup_fd_ne _ _ _ 0) by lia. by apply Hdup.
    + rewrite (dup_fd_ne _ _ _ 1) by lia. apply Hdup; [done..|]. by rewrite dup_fd_ne by lia.
    + apply Hdup; [done..|]. by rewrite !dup_fd_ne by lia.
Qed.

(** The program gets the descriptors it was promised: every inherited descriptor that
    was open when the child started, and that the chain itself does not use, is open
    under the same number with the same file and survives the exec; and when the sources
    of the standard streams are not themselves streams, descriptors 0, 1 and 2 are the
    files of the three sources. *)
Theorem promised_descriptors_arrive setup s s' :
  3 <= report_guard setup → report_guard setup <= u32_max → closing_passes setup s →
  child_entry setup s = (Err Execed, s') →
  (∀ fd e, fd ∈ inherited_fds setup → 3 <= fd < report_guard setup → fd ∉ given_up setup →
     p_fds (c_proc s) !! fd = Some e → p_fds (c_proc s') !! fd = Some (MkFd (fe_file e) false)) ∧
  (Forall (fun source => 3 <= source ∧ source ∉ given_up setup) [stdin_fd setup; stdout_fd setup; stderr_fd setup] →
   ∀ fd source e, (fd, source) ∈ [(0, stdin_fd setup); (1, stdout_fd setup); (2, stderr_fd setup)] →
     p_fds (c_proc s) !! source = Some e → p_fds (c_proc s') !! fd = Some (MkFd (fe_file e) false)).
Proof.
  intros Hg Hmax Hpass Hr. apply execed_trace in Hr as (tr & [_ Hp] & _ & Htidy). specialize (Htidy Hpass). rewrite Hp.
  assert (Hsplit : all_calls setup tr = (before_transition setup tr ++ tr_transition setup tr)
    ++ (environment_calls setup ++ tr_confinement setup tr) ++ (guard_calls setup ++ below_calls setup) ++ [exec_call setup]).
  { unfold all_calls, before_hygiene, before_transition. by rewrite Htidy, <-!app_assoc. }
  rewrite Hsplit, run_calls_app, (run_calls_app (environment_calls setup ++ _)).
  set (q := run_calls (_ ++ _) (c_proc s)). split.
  - intros fd e Hin Hfd Hno He. rewrite hygiene_fds by lia.
    rewrite (decide_False (P := fd < 3)), (decide_True (P := fd < report_guard setup)), decide_True by (done || lia).
    rewrite (proj1 (environment_fds setup tr q fd)) by lia.
    unfold q. by rewrite before_environment_fds, He by done.
  - intros Hsrc fd source e Hin He.
    assert (Hs : 3 <= source ∧ source ∉ given_up setup ∧ 0 <= fd < 3 ∧
      source = (if decide (fd = 0) then stdin_fd setup else if decide (fd = 1) then stdout_fd setup else stderr_fd setup)).
    { rewrite !Forall_cons in Hsrc. destruct Hsrc as ((? & ?) & (? & ?) & (? & ?) & _).
      repeat (apply elem_of_cons in Hin as [[= -> ->]|Hin]; [by split_and!|]). by apply not_elem_of_nil in Hin. }
    destruct Hs as (Hs & Hno & Hfd & Hsource). rewrite hygiene_fds by lia. rewrite decide_True by lia.
    rewrite (proj2 (environment_fds setup tr q fd)) with (e := e); [done| |done|].
    + eapply Forall_impl; [exact Hsrc|]. by intros ? [? _].
    + rewrite <-Hsource. unfold q. by rewrite before_environment_fds, He by done.
Qed.

(** ** Failing closed *)

(** Whatever the outcome of [m], its successful calls satisfy [P]. *)
Definition only {A} (P : call → Prop) (m : M child ended A) : Prop :=
  ∀ s, ∃ l, ran s (m s).2 l ∧ Forall P l.

Section only.
Context {P : call → Prop}.

Lemma only_quiet {A} (m : M child ended A) : (∀ s, ran s (m s).2 []) → only P m.
Proof. intros Hm s. exists []. split; [apply Hm|constructor]. Qed.

Lemma only_ret {A} (a : A) : only P (mret a : M child ended A).
Proof. apply only_quiet, ran_refl. Qed.

Lemma only_end {A} (e : ended) : only P (fail e : M child ended A).
Proof. apply only_quiet, ran_refl. Qed.

Lemma only_fail {A} fd stage detail errno : only P (child_fail fd stage detail errno : M child ended A).
Proof. apply only_quiet. intros s. split; [by rewrite app_nil_r|done]. Qed.

Lemma only_bind {A B} (m : M child ended A) (f : A → M child ended B) :
  only P m → (∀ a, only P (f a)) → only P (m ≫= f).
Proof.
  intros Hm Hf s. destruct (Hm s) as (l & Hl & HP). unfold mbind, M_bind.
  destruct (m s) as [[a|e] s1]; [|by exists l]. destruct (Hf a s1) as (l' & Hl' & HP').
  exists (l ++ l'). split; [by eapply ran_trans|]. by apply Forall_app.
Qed.

Lemma only_syscall c : P c → only P (syscall c).
Proof.
  intros Hc s. unfold syscall. destruct (answer s c); [exists [c]|exists []]; (split; [|by repeat constructor]);
    [apply ran_perform|apply ran_tick].
Qed.

Lemma only_always c : P c → only P (always c).
Proof. intros Hc s. exists [c]. split; [apply ran_perform|by repeat constructor]. Qed.

Lemma only_ignored c : P c → only P (ignored c).
Proof.
  intros Hc s. unfold ignored. destruct (_ || _); [exists [c]|exists []]; (split; [|by repeat constructor]);
    [apply ran_perform|apply ran_tick].
Qed.

Lemma only_write fuel report fd bytes : only P (write_all_or_fail fuel report fd bytes).
Proof.
  revert bytes; induction fuel as [|fuel IH]; intros [|b bytes]; try apply only_ret. intros s.
  cbn [write_all_or_fail]. destruct (write_some_at (c_clock s) fd (b :: bytes)) as [[|n]|e].
  - destruct (only_fail (A := unit) report MapBarrier 1 0 (tick s)) as (l & Hl & HP). exists l.
    split; [exact (ran_trans _ _ _ [] _ (ran_tick s) Hl)|done].
  - set (s1 := MkChild _ _ _ _). destruct (IH (drop (S n) (b :: bytes)) s1) as (l & Hl & HP). exists l.
    split; [|done]. apply (ran_trans _ s1 _ [] _); [split; [by rewrite app_nil_r|done]|exact Hl].
  - destruct (only_fail (A := unit) report MapBarrier 1 e (tick s)) as (l & Hl & HP). exists l.
    split; [exact (ran_trans _ _ _ [] _ (ran_tick s) Hl)|done].
Qed.

Lemma only_read_one report fd : only P (read_one report fd).
Proof.
  intros s. unfold read_one. destruct (read_byte_at (c_clock s) fd) as [[b|]|e]; exists [];
    (split; [|constructor]); [apply ran_tick..|]. split; [by rewrite app_nil_r|done].
Qed.

Lemma only_alive fd : only P (parent_pidfd_is_alive fd).
Proof. intros s. exists []. split; [apply ran_tick|constructor]. Qed.
End only.

(** Any call but the one that starts the program. *)
Definition not_exec (c : call) : Prop := match c with Execve _ _ _ => False | _ => True end.

#[local] Hint Resolve only_ret only_end only_fail only_write only_read_one only_alive : only.
Ltac solve_only :=
  repeat first
    [ progress auto with only | apply only_always; exact I | apply only_syscall; exact I
    | apply only_bind; [|intros ?] | case_match ].

Lemma only_must fd stage detail c : not_exec c → only not_exec (must fd stage detail c).
Proof. intros Hc. unfold must. apply only_bind; [by apply only_syscall|intros r]. solve_only. Qed.
Lemma only_call_e c : not_exec c → only not_exec (call_e c).
Proof. intros Hc. unfold call_e. apply only_bind; [by apply only_syscall|intros r]. solve_only. Qed.

Lemma only_bounding_caps mask caps : only not_exec (drop_bounding_caps mask caps).
Proof.
  induction caps as [|cap caps IH]; cbn [drop_bounding_caps]; [apply only_ret|].
  destruct (_ || _); [done|]. apply only_bind; [by apply only_call_e|intros r]. solve_only.
Qed.

Lemma only_raise mask caps : only not_exec (raise_ambient mask caps).
Proof.
  induction caps as [|cap caps IH]; cbn [raise_ambient]; [apply only_ret|].
  destruct (retains mask cap); [|done]. apply only_bind; [by apply only_call_e|intros r]. solve_only.
Qed.

Lemma only_drop mask : only not_exec (drop_capabilities mask).
Proof.
  unfold drop_capabilities, drop_bounding_set.
  apply only_bind; [apply only_bind; [apply only_bounding_caps|intros []]|intros ?].
  - case_match; [apply only_ret|]. apply only_bind; [by apply only_call_e|intros ?; apply only_ret].
  - apply only_ret.
  - apply only_bind; [solve_only|intros []; [|apply only_ret]].
    apply only_bind; [by apply only_call_e|intros []; [|apply only_ret]].
    apply only_bind; [by apply only_call_e|intros []]; [apply only_raise|]. case_match; [apply only_ret|apply only_raise].
Qed.

Lemma only_below inherited fds : only not_exec (close_below_guard inherited fds).
Proof.
  induction fds as [|fd fds IH]; cbn [close_below_guard]; [apply only_ret|].
  apply only_bind; [case_bool_decide; by apply only_ignored|by intros _].
Qed.

#[local] Hint Resolve only_drop only_below : only.
#[local] Hint Extern 1 (only not_exec (must _ _ _ _)) => apply only_must; exact I : only.

Lemma only_stages setup :
  Forall (fun m => only not_exec m)
    [parent_death_stage setup; identity_stage setup; mount_stage setup;
     if pid_namespace_supervisor setup then enter_pid_namespace_user_process setup else mret tt;
     transition_stage setup; setup_user_process_environment setup; confinement_stage setup; hygiene_stage setup].
Proof.
  assert (Ht : only not_exec (transition_stage setup)).
  { unfold transition_stage, transition_to_runtime_identity. solve_only. }
  repeat apply Forall_cons_2; [..|constructor].
  - unfold parent_death_stage. solve_only.
  - unfold identity_stage, write_proc_file. solve_only.
  - unfold mount_stage. solve_only.
  - unfold enter_pid_namespace_user_process, become_user_process, become_supervisor, close_all_except,
      close_range_if_nonempty, close_option. solve_only; done.
  - done.
  - unfold setup_user_process_environment. solve_only.
  - unfold confinement_stage. solve_only.
  - unfold hygiene_stage. solve_only.
Qed.

(** [m] ends, and when it does not start the program it made no call that does. *)
Definition closes {A} (m : M child ended A) : Prop :=
  ∀ s, ∃ e s' l, m s = (Err e, s') ∧ ran s s' l ∧ (e ≠ Execed → stops e ∧ Forall not_exec l).

Lemma closes_bind {A B} (m : M child ended A) (f : A → M child ended B) L :
  only not_exec m → traced m L → (∀ a, closes (f a)) → closes (m ≫= f).
Proof.
  intros Ho Ht Hf s. destruct (Ho s) as (l & Hl & HP). specialize (Ht s). unfold mbind, M_bind.
  destruct (m s) as [[a|e] s1]; [|by exists e, s1, l]. destruct (Hf a s1) as (e & s2 & l2 & -> & Hl2 & Hno).
  exists e, s2, (l ++ l2). split_and!; [done|by eapply ran_trans|]. intros [Hstop HP2]%Hno.
  split; [done|]. by apply Forall_app.
Qed.

Lemma closes_exec setup : closes (exec_stage setup).
Proof.
  intros s. unfold exec_stage, syscall, mbind, M_bind. destruct (answer s _) as [v|e].
  - exists Execed, (perform (exec_call setup) s), [exec_call setup]. split_and!; [done|apply ran_perform|done].
  - eexists _, _, []. split_and!; [reflexivity|split; [by rewrite app_nil_r|done]|].
    split; [by left|constructor].
Qed.

Lemma child_entry_closes setup : closes (child_entry setup).
Proof.
  pose proof (only_stages setup) as Hst. rewrite !Forall_cons in Hst.
  destruct Hst as (H1 & H2 & H3 & H4 & H5 & H6 & H7 & H8 & _).
  eapply closes_bind; [exact H1|apply traced_parent_death|intros _].
  eapply closes_bind; [exact H2|apply traced_identity|intros _].
  eapply closes_bind; [exact H3|apply traced_mount|intros _].
  eapply closes_bind; [exact H4|apply traced_namespace|intros _].
  eapply closes_bind; [exact H5|apply traced_transition|intros _].
  eapply closes_bind; [exact H6|apply traced_environment|intros _].
  eapply closes_bind; [exact H7|apply traced_confinement|intros _].
  eapply closes_bind; [exact H8|apply traced_hygiene|intros _]. apply closes_exec.
Qed.

(** C20: Set-up fails closed.  The chain always ends, in one of two ways.  Either the
    program starts, and then every stage had succeeded before it: the successful calls
    are, in this order, the parent-death signal and the check of the parent, the identity
    maps (or the closing of the barrier, whose release byte was read), the mounts, the
    second clone of a PID namespace, the whole change of identity with its capabilities
    dropped to none, the streams, session and directory, then the refusal of new
    privileges, the drop to exactly the retained capabilities, Landlock and the
    system-call filter wherever they are set, the moved and marked report descriptor, and
    [execve] as the last.  Or the program does not start: the child exits with the set-up
    status or goes on as the supervisor, and made no [execve]. *)
Theorem setup_fails_closed setup s :
  ∃ e s' l, child_entry setup s = (Err e, s') ∧ ran s s' l ∧
    (e = Execed → released setup ∧
       ∃ namespace transition confinement hygiene,
         namespace_calls setup namespace ∧ identity_transition setup transition ∧
         confinement_calls setup confinement ∧ hygiene_calls setup hygiene ∧
         l = parent_death_calls setup ++ identity_calls setup ++ mount_calls setup ++ namespace ++ transition
             ++ environment_calls setup ++ confinement ++ hygiene ++ [exec_call setup]) ∧
    (e ≠ Execed → stops e ∧ Forall not_exec l).
Proof.
  destruct (child_entry_closes setup s) as (e & s' & l & Hr & Hl & Hstop).
  exists e, s', l. split_and!; [done..| |done]. intros ->.
  apply execed_trace in Hr as (tr & [Hcalls _] & Hrel & _). split; [done|].
  exists (tr_namespace setup tr), (tr_transition setup tr), (tr_confinement setup tr), (tr_hygiene setup tr).
  split_and!; [apply tr_namespace_ok|apply tr_transition_ok|apply tr_confinement_ok|apply tr_hygiene_ok|].
  destruct Hl as [Hl _]. rewrite Hcalls in Hl. apply app_inv_head in Hl as <-.
  unfold all_calls, before_hygiene. by rewrite <-!app_assoc.
Qed.

(** An isolated child outlives its launcher: the parent-death signal that the chain asks
    for first is cleared when the child takes its leased user and group, and it is not
    asked for again, so that every isolated program starts without it, while every other
    program starts with it. *)
Theorem isolated_children_lose_the_death_signal setup s s' :
  p_uid (c_proc s) = Launcher →
  child_entry setup s = (Err Execed, s') →
  p_pdeathsig (c_proc s') = match cs_identity setup with IsolatedAs _ _ _ _ => false | _ => true end.
Proof. intros Hl Hr. apply execed_trace in Hr as (tr & [_ Hp] & _). rewrite Hp. by apply pdeathsig_final. Qed.

End chain.

(** ** A launch to run *)

#[local] Instance willing : ChildKernel := {|
  answer_at := fun _ c => match c with Getppid => Ok 77 | _ => Ok 0 end;
  ppoll_at := fun _ _ => Ok None; read_byte_at := fun _ _ => Ok (Some MAP_INSTALLED);
  write_some_at := fun _ _ bytes => Ok (length bytes); report_turns_at := fun _ => [Upto 11] |}.

Definition open_fds (l : list Z) : gmap Z fd_entry := list_to_map ((fun fd => (fd, MkFd (100 + fd) true)) <$> l).

Definition fresh_proc (fds : list Z) : proc :=
  MkProc (open_fds fds) false Launcher Launcher true 0 false None [] false false false false [] false false None.
Definition fresh_child (fds : list Z) : child := MkChild 0 (fresh_proc fds) [] [].

Definition sample_setup : ChildSetup :=
  MkSetup 10 11 12 13 16 [5; 7] NewSession 77 None false None None None (Some "/work")
    (IsolatedAs 1000 1000 14 15) (Some (MkMounts 3 4 6 8)) true 0 true (Some 9) (Some 40%nat) "/bin/sh" ["sh"] [].

Lemma sample_execed : ∃ s', child_entry sample_setup (fresh_child (seqZ 0 16)) = (Err Execed, s').
Proof. eexists. vm_compute. reflexivity. Qed.

Lemma sample_passes s : closing_passes sample_setup s.
Proof. by right. Qed.

Lemma user_code_starts_confined_witness :
  ∃ s', child_entry sample_setup (fresh_child (seqZ 0 16)) = (Err Execed, s') ∧
    p_uid (c_proc s') = Mapped 1000 ∧ p_seccomp (c_proc s') = true ∧ p_fds (c_proc s') !! 6 = None.
Proof.
  destruct sample_execed as [s' Hr]. exists s'.
  destruct (user_code_starts_confined sample_setup (fresh_child (seqZ 0 16)) s') as (_ & _ & _ & Hsc & _ & _ & Hid & Hfd);
    [done|by vm_compute|done|exact Hr|].
  destruct (Hid 1000 1000 14 15 eq_refl) as (Hu & _). split_and!; [exact Hr|exact Hu|by apply Hsc|].
  destruct (p_fds (c_proc s') !! 6) as [e|] eqn:He; [|done].
  assert (H6 : 0 <= 6 <= u32_max) by (split; by apply Z.leb_le).
  assert (Hnot : 6 ∉ inherited_fds sample_setup) by (by apply (bool_decide_unpack _)).
  destruct (Hfd (sample_passes _) 6 e H6 He) as [_ [Hlt|[Hin _]]]; [done|]. destruct (Hnot Hin).
Defined.

Lemma promised_descriptors_arrive_witness :
  ∃ s', child_entry sample_setup (fresh_child (seqZ 0 16)) = (Err Execed, s') ∧
    p_fds (c_proc s') !! 5 = Some (MkFd 105 false) ∧ p_fds (c_proc s') !! 1 = Some (MkFd 111 false).
Proof.
  destruct sample_execed as [s' Hr]. exists s'.
  destruct (promised_descriptors_arrive sample_setup (fresh_child (seqZ 0 16)) s') as [Hinh Hstd];
    [by vm_compute|by vm_compute|apply sample_passes|exact Hr|]. split_and!; [exact Hr|..].
  - apply (Hinh 5 (MkFd 105 true)); [left|cbn; lia|by apply (bool_decide_unpack _)|by vm_compute].
  - apply (fun h => Hstd h 1 11 (MkFd 111 true)); [|right; left|by vm_compute].
    repeat apply Forall_cons_2; [split; [cbn; lia|by apply (bool_decide_unpack _)]..|constructor].
Defined.

Lemma isolated_children_lose_the_death_signal_witness :
  ∃ s', child_entry sample_setup (fresh_child (seqZ 0 16)) = (Err Execed, s') ∧ p_pdeathsig (c_proc s') = false.
Proof.
  destruct sample_execed as [s' Hr]. exists s'. split; [exact Hr|].
  exact (isolated_children_lose_the_death_signal sample_setup (fresh_child (seqZ 0 16)) s' eq_refl Hr).
Defined.

(** ** Corners *)

(** A stream whose source is an earlier stream gets that stream's new file: with standard
    output taken from descriptor 0 and standard input from 10, both are the file of 10. *)
Example swapped_streams_alias :
  let setup := MkSetup 10 0 12 13 14 [] SessionInherit 77 None false None None None None HostIdentity None false 0 true
                 None None "/bin/sh" ["sh"] [] in
  let p := c_proc (child_entry setup (fresh_child (seqZ 0 14))).2 in
  p_fds p !! 1 = Some (MkFd 110 false) ∧ p_fds (c_proc (fresh_child (seqZ 0 14))) !! 0 = Some (MkFd 100 true).
Proof. by vm_compute. Qed.

(** The system-call filter is in force before the descriptors are tidied, and nobody looks
    at what the closings answer: under a filter that refuses [close] the program starts
    with every descriptor below the guard that the launcher held without the close-on-exec
    flag, here 3 and 6, although every stage reported success. *)
Example refused_closes_leak :
  let refusing : ChildKernel := {|
    answer_at := fun _ c => match c with Getppid => Ok 77 | Close _ => Err EPERM | _ => Ok 0 end;
    ppoll_at := fun _ _ => Ok None; read_byte_at := fun _ _ => Ok (Some MAP_INSTALLED);
    write_some_at := fun _ _ bytes => Ok (length bytes); report_turns_at := fun _ => [Upto 11] |} in
  let inheritable : child := MkChild 0 (MkProc ((fun e => MkFd (fe_file e) false) <$> open_fds (seqZ 0 16)) false Launcher
    Launcher true 0 false None [] false false false false [] false false None) [] [] in
  let '(r, s') := @child_entry refusing sample_setup inheritable in
  r = Err Execed ∧ p_seccomp (c_proc s') = true ∧
  p_fds (c_proc s') !! 3 = Some (MkFd 103 false) ∧ p_fds (c_proc s') !! 6 = Some (MkFd 106 false).
Proof. by vm_compute. Qed.

(** When the report descriptor lies above the guard it is closed before the last step that
    still reports on it: that failure reaches nobody, and the launcher takes the silence
    for success. *)
Example late_hygiene_failure_is_silent :
  let refusing : ChildKernel := {|
    answer_at := fun _ c => match c with Getppid => Ok 77 | SetCloexec _ => Err EIO | _ => Ok 0 end;
    ppoll_at := fun _ _ => Ok None; read_byte_at := fun _ _ => Ok None;
    write_some_at := fun _ _ bytes => Ok (length bytes); report_turns_at := fun _ => [Upto 11] |} in
  let setup := MkSetup 10 11 12 13 3 [] SessionInherit 77 None false None None None None HostIdentity None false 0 true
                 None None "/bin/sh" ["sh"] [] in
  let '(r, s') := @child_entry refusing setup (fresh_child (seqZ 0 14)) in
  r = Err (Exited CHILD_SETUP_EXIT) ∧ c_written s' = [] ∧
  @read_child_failure sample_host [Upto 11] [] = Some Clean.
Proof. by vm_compute. Qed.

End ChildSafety.
