(* ===== verification/SyscallNames.v ===== *)
(** * System-call names ([shbox-sandbox]: linux/syscall_names.rs)

    The two tables of names and numbers, and the binary search that resolves a
    name on the target architecture. *)

From S2P Require Import Prelude BTree.

Module SyscallNames.

(** ** The tables *)

Definition numbers_x86_64 : list (string * Z) :=
  [("accept", 43); ("accept4", 288); ("acct", 163); ("add_key", 248); ("adjtimex", 159); ("bind", 49);
   ("bpf", 321); ("brk", 12); ("cachestat", 451); ("capget", 125); ("capset", 126); ("chdir", 80);
   ("chroot", 161); ("clock_adjtime", 305); ("clock_getres", 229); ("clock_gettime", 228);
   ("clock_nanosleep", 230); ("clock_settime", 227); ("clone", 56); ("clone3", 435); ("close", 3);
   ("close_range", 436); ("connect", 42); ("copy_file_range", 326); ("delete_module", 176); ("dup", 32);
   ("dup3", 292); ("epoll_create1", 291); ("epoll_ctl", 233); ("epoll_pwait", 281); ("epoll_pwait2", 441);
   ("eventfd2", 290); ("execve", 59); ("execveat", 322); ("exit", 60); ("exit_group", 231); ("faccessat", 269);
   ("faccessat2", 439); ("fadvise64", 221); ("fallocate", 285); ("fanotify_init", 300); ("fanotify_mark", 301);
   ("fchdir", 81); ("fchmod", 91); ("fchmodat", 268); ("fchmodat2", 452); ("fchown", 93); ("fchownat", 260);
   ("fcntl", 72); ("fdatasync", 75); ("fgetxattr", 193); ("finit_module", 313); ("flistxattr", 196);
   ("flock", 73); ("fremovexattr", 199); ("fsconfig", 431); ("fsetxattr", 190); ("fsmount", 432);
   ("fsopen", 430); ("fspick", 433); ("fstat", 5); ("fstatfs", 138); ("fsync", 74); ("ftruncate", 77);
   ("futex", 202); ("futex_requeue", 456); ("futex_wait", 455); ("futex_waitv", 449); ("futex_wake", 454);
   ("get_mempolicy", 239); ("get_robust_list", 274); ("getcpu", 309); ("getcwd", 79); ("getdents64", 217);
   ("getegid", 108); ("geteuid", 107); ("getgid", 104); ("getgroups", 115); ("getitimer", 36);
   ("getpeername", 52); ("getpgid", 121); ("getpid", 39); ("getppid", 110); ("getpriority", 140);
   ("getrandom", 318); ("getresgid", 120); ("getresuid", 118); ("getrlimit", 97); ("getrusage", 98);
   ("getsid", 124); ("getsockname", 51); ("getsockopt", 55); ("gettid", 186); ("gettimeofday", 96);
   ("getuid", 102); ("getxattr", 191); ("init_module", 175); ("inotify_add_watch", 254); ("inotify_init1", 294);
   ("inotify_rm_watch", 255); ("io_cancel", 210); ("io_destroy", 207); ("io_getevents", 208);
   ("io_pgetevents", 333); ("io_setup", 206); ("io_submit", 209); ("io_uring_enter", 426);
   ("io_uring_register", 427); ("io_uring_setup", 425); ("ioctl", 16); ("ioprio_get", 252); ("ioprio_set", 251);
   ("kcmp", 312); ("kexec_file_load", 320); ("kexec_load", 246); ("keyctl", 250); ("kill", 62);
   ("landlock_add_rule", 445); ("landlock_create_ruleset", 444); ("landlock_restrict_self", 446);
   ("lgetxattr", 192); ("linkat", 265); ("listen", 50); ("listmount", 458); ("listxattr", 194);
   ("llistxattr", 195); ("lookup_dcookie", 212); ("lremovexattr", 198); ("lseek", 8); ("lsetxattr", 189);
   ("lsm_get_self_attr", 459); ("lsm_list_modules", 461); ("lsm_set_self_attr", 460); ("madvise", 28);
   ("map_shadow_stack", 453); ("mbind", 237); ("membarrier", 324); ("memfd_create", 319); ("memfd_secret", 447);
   ("migrate_pages", 256); ("mincore", 27); ("mkdirat", 258); ("mknodat", 259); ("mlock", 149); ("mlock2", 325);
   ("mlockall", 151); ("mmap", 9); ("mount", 165); ("mount_setattr", 442); ("move_mount", 429);
   ("move_pages", 279); ("mprotect", 10); ("mq_getsetattr", 245); ("mq_notify", 244); ("mq_open", 240);
   ("mq_timedreceive", 243); ("mq_timedsend", 242); ("mq_unlink", 241); ("mremap", 25); ("mseal", 462);
   ("msgctl", 71); ("msgget", 68); ("msgrcv", 70); ("msgsnd", 69); ("msync", 26); ("munlock", 150);
   ("munlockall", 152); ("munmap", 11); ("name_to_handle_at", 303); ("nanosleep", 35); ("newfstatat", 262);
   ("nfsservctl", 180); ("open_by_handle_at", 304); ("open_tree", 428); ("openat", 257); ("openat2", 437);
   ("perf_event_open", 298); ("personality", 135); ("pidfd_getfd", 438); ("pidfd_open", 434);
   ("pidfd_send_signal", 424); ("pipe2", 293); ("pivot_root", 155); ("pkey_alloc", 330); ("pkey_free", 331);
   ("pkey_mprotect", 329); ("ppoll", 271); ("prctl", 157); ("pread64", 17); ("preadv", 295); ("preadv2", 327);
   ("prlimit64", 302); ("process_madvise", 440); ("process_mrelease", 448); ("process_vm_readv", 310);
   ("process_vm_writev", 311); ("pselect6", 270); ("ptrace", 101); ("pwrite64", 18); ("pwritev", 296);
   ("pwritev2", 328); ("quotactl", 179); ("quotactl_fd", 443); ("read", 0); ("readahead", 187);
   ("readlinkat", 267); ("readv", 19); ("reboot", 169); ("recvfrom", 45); ("recvmmsg", 299); ("recvmsg", 47);
   ("remap_file_pages", 216); ("removexattr", 197); ("renameat", 264); ("renameat2", 316); ("request_key", 249);
   ("restart_syscall", 219); ("rseq", 334); ("rt_sigaction", 13); ("rt_sigpending", 127);
   ("rt_sigprocmask", 14); ("rt_sigqueueinfo", 129); ("rt_sigreturn", 15); ("rt_sigsuspend", 130);
   ("rt_sigtimedwait", 128); ("rt_tgsigqueueinfo", 297); ("sched_get_priority_max", 146);
   ("sched_get_priority_min", 147); ("sched_getaffinity", 204); ("sched_getattr", 315); ("sched_getparam", 143);
   ("sched_getscheduler", 145); ("sched_rr_get_interval", 148); ("sched_setaffinity", 203);
   ("sched_setattr", 314); ("sched_setparam", 142); ("sched_setscheduler", 144); ("sched_yield", 24);
   ("seccomp", 317); ("semctl", 66); ("semget", 64); ("semop", 65); ("semtimedop", 220); ("sendfile", 40);
   ("sendmmsg", 307); ("sendmsg", 46); ("sendto", 44); ("set_mempolicy", 238); ("set_mempolicy_home_node", 450);
   ("set_robust_list", 273); ("set_tid_address", 218); ("setdomainname", 171); ("setfsgid", 123);
   ("setfsuid", 122); ("setgid", 106); ("setgroups", 116); ("sethostname", 170); ("setitimer", 38);
   ("setns", 308); ("setpgid", 109); ("setpriority", 141); ("setregid", 114); ("setresgid", 119);
   ("setresuid", 117); ("setreuid", 113); ("setrlimit", 160); ("setsid", 112); ("setsockopt", 54);
   ("settimeofday", 164); ("setuid", 105); ("setxattr", 188); ("shmat", 30); ("shmctl", 31); ("shmdt", 67);
   ("shmget", 29); ("shutdown", 48); ("sigaltstack", 131); ("signalfd4", 289); ("socket", 41);
   ("socketpair", 53); ("splice", 275); ("statfs", 137); ("statmount", 457); ("statx", 332); ("swapoff", 168);
   ("swapon", 167); ("symlinkat", 266); ("sync", 162); ("sync_file_range", 277); ("syncfs", 306);
   ("sysinfo", 99); ("syslog", 103); ("tee", 276); ("tgkill", 234); ("timer_create", 222);
   ("timer_delete", 226); ("timer_getoverrun", 225); ("timer_gettime", 224); ("timer_settime", 223);
   ("timerfd_create", 283); ("timerfd_gettime", 287); ("timerfd_settime", 286); ("times", 100); ("tkill", 200);
   ("truncate", 76); ("umask", 95); ("umount2", 166); ("uname", 63); ("unlinkat", 263); ("unshare", 272);
   ("userfaultfd", 323); ("utimensat", 280); ("vhangup", 153); ("vmsplice", 278); ("wait4", 61);
   ("waitid", 247); ("write", 1); ("writev", 20)].

Definition numbers_aarch64 : list (string * Z) :=
  [("accept", 202); ("accept4", 242); ("acct", 89); ("add_key", 217); ("adjtimex", 171); ("bind", 200);
   ("bpf", 280); ("brk", 214); ("cachestat", 451); ("capget", 90); ("capset", 91); ("chdir", 49);
   ("chroot", 51); ("clock_adjtime", 266); ("clock_getres", 114); ("clock_gettime", 113);
   ("clock_nanosleep", 115); ("clock_settime", 112); ("clone", 220); ("clone3", 435); ("close", 57);
   ("close_range", 436); ("connect", 203); ("copy_file_range", 285); ("delete_module", 106); ("dup", 23);
   ("dup3", 24); ("epoll_create1", 20); ("epoll_ctl", 21); ("epoll_pwait", 22); ("epoll_pwait2", 441);
   ("eventfd2", 19); ("execve", 221); ("execveat", 281); ("exit", 93); ("exit_group", 94); ("faccessat", 48);
   ("faccessat2", 439); ("fadvise64", 223); ("fallocate", 47); ("fanotify_init", 262); ("fanotify_mark", 263);
   ("fchdir", 50); ("fchmod", 52); ("fchmodat", 53); ("fchmodat2", 452); ("fchown", 55); ("fchownat", 54);
   ("fcntl", 25); ("fdatasync", 83); ("fgetxattr", 10); ("finit_module", 273); ("flistxattr", 13);
   ("flock", 32); ("fremovexattr", 16); ("fsconfig", 431); ("fsetxattr", 7); ("fsmount", 432); ("fsopen", 430);
   ("fspick", 433); ("fstat", 80); ("fstatfs", 44); ("fsync", 82); ("ftruncate", 46); ("futex", 98);
   ("futex_requeue", 456); ("futex_wait", 455); ("futex_waitv", 449); ("futex_wake", 454);
   ("get_mempolicy", 236); ("get_robust_list", 100); ("getcpu", 168); ("getcwd", 17); ("getdents64", 61);
   ("getegid", 177); ("geteuid", 175); ("getgid", 176); ("getgroups", 158); ("getitimer", 102);
   ("getpeername", 205); ("getpgid", 155); ("getpid", 172); ("getppid", 173); ("getpriority", 141);
   ("getrandom", 278); ("getresgid", 150); ("getresuid", 148); ("getrlimit", 163); ("getrusage", 165);
   ("getsid", 156); ("getsockname", 204); ("getsockopt", 209); ("gettid", 178); ("gettimeofday", 169);
   ("getuid", 174); ("getxattr", 8); ("init_module", 105); ("inotify_add_watch", 27); ("inotify_init1", 26);
   ("inotify_rm_watch", 28); ("io_cancel", 3); ("io_destroy", 1); ("io_getevents", 4); ("io_pgetevents", 292);
   ("io_setup", 0); ("io_submit", 2); ("io_uring_enter", 426); ("io_uring_register", 427);
   ("io_uring_setup", 425); ("ioctl", 29); ("ioprio_get", 31); ("ioprio_set", 30); ("kcmp", 272);
   ("kexec_file_load", 294); ("kexec_load", 104); ("keyctl", 219); ("kill", 129); ("landlock_add_rule", 445);
   ("landlock_create_ruleset", 444); ("landlock_restrict_self", 446); ("lgetxattr", 9); ("linkat", 37);
   ("listen", 201); ("listmount", 458); ("listxattr", 11); ("llistxattr", 12); ("lookup_dcookie", 18);
   ("lremovexattr", 15); ("lseek", 62); ("lsetxattr", 6); ("lsm_get_self_attr", 459); ("lsm_list_modules", 461);
   ("lsm_set_self_attr", 460); ("madvise", 233); ("map_shadow_stack", 453); ("mbind", 235); ("membarrier", 283);
   ("memfd_create", 279); ("memfd_secret", 447); ("migrate_pages", 238); ("mincore", 232); ("mkdirat", 34);
   ("mknodat", 33); ("mlock", 228); ("mlock2", 284); ("mlockall", 230); ("mmap", 222); ("mount", 40);
   ("mount_setattr", 442); ("move_mount", 429); ("move_pages", 239); ("mprotect", 226); ("mq_getsetattr", 185);
   ("mq_notify", 184); ("mq_open", 180); ("mq_timedreceive", 183); ("mq_timedsend", 182); ("mq_unlink", 181);
   ("mremap", 216); ("mseal", 462); ("msgctl", 187); ("msgget", 186); ("msgrcv", 188); ("msgsnd", 189);
   ("msync", 227); ("munlock", 229); ("munlockall", 231); ("munmap", 215); ("name_to_handle_at", 264);
   ("nanosleep", 101); ("newfstatat", 79); ("nfsservctl", 42); ("open_by_handle_at", 265); ("open_tree", 428);
   ("openat", 56); ("openat2", 437); ("perf_event_open", 241); ("personality", 92); ("pidfd_getfd", 438);
   ("pidfd_open", 434); ("pidfd_send_signal", 424); ("pipe2", 59); ("pivot_root", 41); ("pkey_alloc", 289);
   ("pkey_free", 290); ("pkey_mprotect", 288); ("ppoll", 73); ("prctl", 167); ("pread64", 67); ("preadv", 69);
   ("preadv2", 286); ("prlimit64", 261); ("process_madvise", 440); ("process_mrelease", 448);
   ("process_vm_readv", 270); ("process_vm_writev", 271); ("pselect6", 72); ("ptrace", 117); ("pwrite64", 68);
   ("pwritev", 70); ("pwritev2", 287); ("quotactl", 60); ("quotactl_fd", 443); ("read", 63); ("readahead", 213);
   ("readlinkat", 78); ("readv", 65); ("reboot", 142); ("recvfrom", 207); ("recvmmsg", 243); ("recvmsg", 212);
   ("remap_file_pages", 234); ("removexattr", 14); ("renameat", 38); ("renameat2", 276); ("request_key", 218);
   ("restart_syscall", 128); ("rseq", 293); ("rt_sigaction", 134); ("rt_sigpending", 136);
   ("rt_sigprocmask", 135); ("rt_sigqueueinfo", 138); ("rt_sigreturn", 139); ("rt_sigsuspend", 133);
   ("rt_sigtimedwait", 137); ("rt_tgsigqueueinfo", 240); ("sched_get_priority_max", 125);
   ("sched_get_priority_min", 126); ("sched_getaffinity", 123); ("sched_getattr", 275); ("sched_getparam", 121);
   ("sched_getscheduler", 120); ("sched_rr_get_interval", 127); ("sched_setaffinity", 122);
   ("sched_setattr", 274); ("sched_setparam", 118); ("sched_setscheduler", 119); ("sched_yield", 124);
   ("seccomp", 277); ("semctl", 191); ("semget", 190); ("semop", 193); ("semtimedop", 192); ("sendfile", 71);
   ("sendmmsg", 269); ("sendmsg", 211); ("sendto", 206); ("set_mempolicy", 237);
   ("set_mempolicy_home_node", 450); ("set_robust_list", 99); ("set_tid_address", 96); ("setdomainname", 162);
   ("setfsgid", 152); ("setfsuid", 151); ("setgid", 144); ("setgroups", 159); ("sethostname", 161);
   ("setitimer", 103); ("setns", 268); ("setpgid", 154); ("setpriority", 140); ("setregid", 143);
   ("setresgid", 149); ("setresuid", 147); ("setreuid", 145); ("setrlimit", 164); ("setsid", 157);
   ("setsockopt", 208); ("settimeofday", 170); ("setuid", 146); ("setxattr", 5); ("shmat", 196);
   ("shmctl", 195); ("shmdt", 197); ("shmget", 194); ("shutdown", 210); ("sigaltstack", 132); ("signalfd4", 74);
   ("socket", 198); ("socketpair", 199); ("splice", 76); ("statfs", 43); ("statmount", 457); ("statx", 291);
   ("swapoff", 225); ("swapon", 224); ("symlinkat", 36); ("sync", 81); ("sync_file_range", 84); ("syncfs", 267);
   ("sysinfo", 179); ("syslog", 116); ("tee", 77); ("tgkill", 131); ("timer_create", 107);
   ("timer_delete", 111); ("timer_getoverrun", 109); ("timer_gettime", 108); ("timer_settime", 110);
   ("timerfd_create", 85); ("timerfd_gettime", 87); ("timerfd_settime", 86); ("times", 153); ("tkill", 130);
   ("truncate", 45); ("umask", 166); ("umount2", 39); ("uname", 160); ("unlinkat", 35); ("unshare", 97);
   ("userfaultfd", 282); ("utimensat", 88); ("vhangup", 58); ("vmsplice", 75); ("wait4", 260); ("waitid", 95);
   ("write", 64); ("writev", 66)].

Inductive target_arch := X86_64 | Aarch64.

Definition SYSCALL_NUMBERS (target : target_arch) : list (string * Z) :=
  match target with X86_64 => numbers_x86_64 | Aarch64 => numbers_aarch64 end.

(** ** The search *)

(** [slice::binary_search_by] with the names compared byte by byte: the window
    [base, base + size) is halved until one entry is left, which is then compared.
    One halving per entry is more than enough. *)
Fixpoint narrow (fuel : nat) (name : string) (table : list (string * Z)) (base size : nat) : nat :=
  match fuel with
  | O => base
  | S fuel' =>
      if (size <=? 1)%nat then base
      else
        let half := (size / 2)%nat in
        let mid := (base + half)%nat in
        let base :=
          match table !! mid with
          | Some entry => if bool_decide (kcompare entry.1 name = Gt) then base else mid
          | None => base
          end in
        narrow fuel' name table base (size - half)
  end.

Definition binary_search (name : string) (table : list (string * Z)) : option nat :=
  let base := narrow (length table) name table 0 (length table) in
  entry ← table !! base;
  if bool_decide (kcompare entry.1 name = Eq) then Some base else None.

Definition syscall_number (target : target_arch) (name : string) : option Z :=
  index ← binary_search name (SYSCALL_NUMBERS target);
  snd <$> SYSCALL_NUMBERS target !! index.

(** ** Correctness *)

Lemma sorted_lookup_lt (table : list (string * Z)) i j a b :
  sorted table → table !! i = Some a → table !! j = Some b → (i < j)%nat → klt a.1 b.1.
Proof.
  intros Hs Ha Hb Hij. destruct b as [k v]. rewrite <-(take_drop_middle table j (k, v) Hb) in Hs.
  apply (sorted_app_lt _ _ _ _ a Hs). apply list_elem_of_lookup. exists i. by rewrite lookup_take_lt.
Qed.

(** The window always keeps the entry that is looked for. *)
Lemma narrow_finds (table : list (string * Z)) name i entry :
  sorted table → table !! i = Some entry → entry.1 = name →
  ∀ fuel base size, (size <= fuel)%nat → (base <= i < base + size)%nat → (base + size <= length table)%nat →
    narrow fuel name table base size = i.
Proof.
  intros Hs Hi <-. induction fuel as [|fuel IH]; intros base size Hf Hb Hlen; [lia|]. cbn [narrow].
  destruct (Nat.leb_spec size 1); [lia|].
  assert (Hhalf : (0 < size / 2)%nat ∧ (size / 2 + size / 2 <= size)%nat).
  { split; [apply Nat.div_str_pos; lia|]. pose proof (Nat.Div0.div_mod size 2). lia. }
  destruct (table !! (base + size / 2)%nat) as [e|] eqn:Hmid; [|apply lookup_ge_None in Hmid; lia].
  case_bool_decide as Hc.
  - assert (¬ (base + size / 2 <= i)%nat); [|apply IH; lia]. intros Hle. apply kcompare_gt in Hc.
    apply Nat.le_lteq in Hle as [Hlt|Heq].
    + apply (klt_irrefl e.1). eapply klt_trans; [|exact Hc]. by eapply sorted_lookup_lt.
    + rewrite Heq in Hmid. rewrite Hi in Hmid. injection Hmid as <-. by apply klt_irrefl in Hc.
  - assert (base + size / 2 <= i)%nat; [|apply IH; lia].
    destruct (le_lt_dec (base + size / 2) i) as [?|Hlt]; [done|]. destruct Hc.
    apply kcompare_gt. by eapply sorted_lookup_lt.
Qed.

Lemma binary_search_Some name table index :
  sorted table → binary_search name table = Some index ↔ ∃ v, table !! index = Some (name, v).
Proof.
  intros Hs. unfold binary_search. split.
  - cbn zeta. set (base := narrow _ _ _ _ _). destruct (table !! base) as [[k v]|] eqn:Hb; [|done].
    cbn [mbind option_bind fst]. case_bool_decide as Hk; [|done]. intros [= <-]. apply kcompare_eq in Hk as ->. by exists v.
  - intros [v Hv]. pose proof (lookup_lt_Some _ _ _ Hv).
    rewrite (narrow_finds table name index (name, v)) by (done || lia). cbn zeta. rewrite Hv. cbn [mbind option_bind fst].
    by rewrite bool_decide_true by by apply kcompare_eq.
Qed.

Fixpoint aboveb (k : string) (m : list (string * Z)) : bool :=
  match m with
  | [] => true
  | (k', _) :: m' => bool_decide (kcompare k k' = Lt) && aboveb k' m'
  end.

Lemma aboveb_spec k m : aboveb k m = true → above k m.
Proof.
  revert k; induction m as [|[k' v] m IH]; intros k; cbn; [done|]. intros [Hk Hm]%andb_true_iff.
  split; [by apply bool_decide_eq_true in Hk|by apply IH].
Qed.

Lemma tables_sorted target : sorted (SYSCALL_NUMBERS target).
Proof. destruct target; apply aboveb_spec; by vm_compute. Qed.

Lemma tables_same_names : numbers_x86_64.*1 = numbers_aarch64.*1.
Proof. apply (bool_decide_eq_true_1 _). by vm_compute. Qed.

Lemma table_numbers target : Forall (fun e => 0 <= e.2) (SYSCALL_NUMBERS target) ∧ NoDup (SYSCALL_NUMBERS target).*2.
Proof. destruct target; split; apply (bool_decide_eq_true_1 _); by vm_compute. Qed.

Lemma syscall_number_spec target name n :
  syscall_number target name = Some n ↔ (name, n) ∈ SYSCALL_NUMBERS target.
Proof.
  pose proof (tables_sorted target) as Hs. unfold syscall_number. split.
  - destruct (binary_search _ _) as [i|] eqn:Hi; [|done]. apply binary_search_Some in Hi as [v Hv]; [|done].
    cbn. rewrite Hv. cbn. intros [= <-]. by eapply list_elem_of_lookup_2.
  - intros Hin. pose proof Hin as [i Hi]%list_elem_of_lookup.
    assert (binary_search name (SYSCALL_NUMBERS target) = Some i) as -> by (apply binary_search_Some; [done|by eexists]).
    cbn. by rewrite Hi.
Qed.

(** Naming a system call means what the table says: on either architecture the
    search finds a number exactly if the table pairs the name with it, no number belongs
    to two names, none is negative, and a name is known on one architecture exactly if
    it is known on the other, so that whether a policy is accepted does not depend on
    the machine. *)
Theorem syscall_names_are_exact target name n :
  (syscall_number target name = Some n ↔ (name, n) ∈ SYSCALL_NUMBERS target) ∧
  (syscall_number target name = Some n → 0 <= n ∧
     ∀ other, syscall_number target other = Some n → other = name) ∧
  (is_Some (syscall_number X86_64 name) ↔ is_Some (syscall_number Aarch64 name)).
Proof.
  destruct (table_numbers target) as [Hpos Hdup]. split; [apply syscall_number_spec|]. split.
  - rewrite syscall_number_spec. intros Hin. split; [by rewrite Forall_forall in Hpos; apply Hpos in Hin|].
    intros other Ho%syscall_number_spec.
    apply list_elem_of_lookup in Hin as [i Hi]. apply list_elem_of_lookup in Ho as [j Hj].
    assert (i = j) as <-; [|congruence].
    eapply (NoDup_lookup _ _ _ n Hdup); rewrite list_lookup_fmap; [by rewrite Hi|by rewrite Hj].
  - assert (Hkey : ∀ t, is_Some (syscall_number t name) ↔ name ∈ (SYSCALL_NUMBERS t).*1).
    { intros t. rewrite list_elem_of_fmap. split.
      - intros [m ?%syscall_number_spec]. by exists (name, m).
      - intros ([k m] & -> & ?). exists m. by apply syscall_number_spec. }
    rewrite !Hkey. cbn [SYSCALL_NUMBERS]. by rewrite tables_same_names.
Qed.

Lemma syscall_names_are_exact_witness :
  syscall_number Aarch64 "openat" = Some 56 ∧ syscall_number X86_64 "openat" = Some 257 ∧
  ∀ other, syscall_number Aarch64 other = Some 56 → other = "openat".
Proof.
  assert (Ha : syscall_number Aarch64 "openat" = Some 56) by (by vm_compute).
  split_and!; [done|by vm_compute|]. by apply (syscall_names_are_exact Aarch64 "openat" 56).
Defined.

End SyscallNames.
