(* ===== verification/SeccompFilter.v ===== *)
(** * System-call filters ([shbox-sandbox]: linux/seccomp.rs)

    The compilation of a policy's rules into the filter the child installs.  The
    compiler library (seccompiler) is a parameter: its constructors may refuse, and
    what its programs decide is the documented meaning of a filter. *)

From S2P Require Import Prelude BTree Text Toml FileSystem EnginePolicy SyscallNames.

Module SeccompFilter.
Import Engine SyscallNames.

(** ** The compiler library *)

Inductive CompiledOp := CEq | CGt | CGe | CLt | CLe | CMaskedEq (mask : Z) | CNe.

(** What a condition says of the six 64-bit arguments of a call: [Dword] compares the
    low halves. *)
Definition low_half (len : ArgLen) (v : Z) : Z :=
  match len with Dword => v mod 2 ^ 32 | Qword => v mod 2 ^ 64 end.

Definition holds (len : ArgLen) (op : CompiledOp) (value actual : Z) : bool :=
  let v := low_half len value in
  let a := low_half len actual in
  match op with
  | CEq => a =? v
  | CGt => v <? a
  | CGe => v <=? a
  | CLt => a <? v
  | CLe => a <=? v
  | CMaskedEq mask => Z.land a (low_half len mask) =? Z.land v (low_half len mask)
  | CNe => negb (a =? v)
  end.

Class Seccompiler := {
  condition : Type; rule : Type; filter : Type; program : Type;
  condition_new : Z → ArgLen → CompiledOp → Z → result string condition;
  rule_new : list condition → result string rule;
  filter_new : list (Z * list rule) → SeccompAction → SeccompAction → target_arch → result string filter;
  generate : filter → result string program;
  program_len : program → Z;
  (** What the program decides on a call: its number and its arguments. *)
  verdict : program → Z → (Z → Z) → SeccompAction }.

(** The documented meaning: the conditions of a rule all hold; the rules of a system
    call are alternatives; no rules for a known number match on the number alone; other
    numbers take the mismatch action. *)
Class SeccompilerLaws `{Seccompiler} := {
  rule_holds : rule → (Z → Z) → bool;
  condition_holds : condition → (Z → Z) → bool;
  condition_law : ∀ arg len op value c args,
    condition_new arg len op value = Ok c → condition_holds c args = holds len op value (args arg);
  rule_law : ∀ conds r args, rule_new conds = Ok r → rule_holds r args = forallb (fun c => condition_holds c args) conds;
  verdict_law : ∀ rules mismatch matched target f p number args,
    filter_new rules mismatch matched target = Ok f → generate f = Ok p →
    verdict p number args =
      match bt_get number rules with
      | None => mismatch
      | Some [] => matched
      | Some rs => if existsb (fun r => rule_holds r args) rs then matched else mismatch
      end }.

(** ** Compilation *)

Section compile.
Context `{Seccompiler} `{UnicodeTables} (target : target_arch).

Definition compile_op (c : SyscallCondition) : CompiledOp :=
  match op c with
  | Equal => CEq
  | Greater => CGt
  | GreaterEqual => CGe
  | Less => CLt
  | LessEqual => CLe
  | MaskedEqual => CMaskedEq (value c)
  | NotEqual => CNe
  end.

Fixpoint compile_conditions (l : list SyscallCondition) : result SandboxError (list condition) :=
  match l with
  | [] => mret []
  | c :: rest =>
      compiled ← map_err (fun error => InvalidPolicy "syscalls.rules" ("condition rejected by the compiler: " +:+ error))
                   (condition_new (arg c) (arg_len c) (compile_op c) (value c));
      more ← compile_conditions rest;
      mret (compiled :: more)
  end.

Definition rule_number (r : SyscallRule) : result SandboxError Z :=
  match syscall r with
  | Named name =>
      ok_or (InvalidPolicy "syscalls.rules"
               ("unknown syscall name " +:+ debug_str printable name +:+ " for this architecture"))
        (syscall_number target name)
  | Number number => mret number
  end.

(** [entry(number).or_default()], and pushing onto it. *)
Definition or_default (number : Z) (m : list (Z * list rule)) : list (Z * list rule) :=
  match bt_get number m with Some _ => m | None => bt_insert number [] m end.
Definition push_rule (number : Z) (r : rule) (m : list (Z * list rule)) : list (Z * list rule) :=
  bt_insert number (default [] (bt_get number m) ++ [r]) m.

Fixpoint compile_rules (rules : list SyscallRule) (m : list (Z * list rule))
    : result SandboxError (list (Z * list rule)) :=
  match rules with
  | [] => mret m
  | r :: rest =>
      number ← rule_number r;
      match conditions r with
      | [] => compile_rules rest (or_default number m)
      | cs =>
          conds ← compile_conditions cs;
          compiled ← map_err (fun error => InvalidPolicy "syscalls.rules" ("rule rejected by the compiler: " +:+ error))
                       (rule_new conds);
          compile_rules rest (push_rule number compiled m)
      end
  end.

Definition MAX_PROGRAM : Z := 65535.

Definition compile (policy : SyscallPolicy) : result SandboxError (option program) :=
  match policy with
  | SysUnrestricted => mret None
  | Filter default_action matched_action rules =>
      compiled_rules ← compile_rules rules [];
      f ← map_err (fun error => InvalidPolicy "syscalls" ("filter compilation failed: " +:+ error))
            (filter_new compiled_rules default_action matched_action target);
      p ← map_err (fun error => InvalidPolicy "syscalls" ("BPF program generation failed: " +:+ error)) (generate f);
      if program_len p =? 0 then Err (InvalidPolicy "syscalls" "compiled filter is empty")
      else if MAX_PROGRAM <? program_len p
      then Err (InvalidPolicy "syscalls"
                  ("compiled filter has " +:+ fmt_dec (program_len p)
                     +:+ " instructions; the kernel interface accepts at most " +:+ fmt_dec MAX_PROGRAM))
      else mret (Some p)
  end.

(** ** What the policy means *)

(** The conditions of one rule, as the policy documents them. *)
Definition condition_meant (args : Z → Z) (c : SyscallCondition) : bool :=
  let v := low_half (arg_len c) (value c) in
  let a := low_half (arg_len c) (args (arg c)) in
  match op c with
  | Equal => a =? v
  | Greater => v <? a
  | GreaterEqual => v <=? a
  | Less => a <? v
  | LessEqual => a <=? v
  | MaskedEqual => Z.land a v =? v
  | NotEqual => negb (a =? v)
  end.

Definition names (number : Z) (r : SyscallRule) : bool :=
  match rule_number r with Ok n => n =? number | Err _ => false end.

Definition rule_meant (number : Z) (args : Z → Z) (r : SyscallRule) : bool :=
  names number r && forallb (condition_meant args) (conditions r).

(** A call that some rule matches takes the matched action, any other the default. *)
Definition policy_action (default_action matched_action : SeccompAction) (rules : list SyscallRule)
    (number : Z) (args : Z → Z) : SeccompAction :=
  if existsb (rule_meant number args) rules then matched_action else default_action.

Definition conditional (r : SyscallRule) : bool := match conditions r with [] => false | _ => true end.

End compile.

Section meaning.
Context `{SeccompilerLaws} `{UnicodeTables} (target : target_arch).

Notation named := (names target).
Notation meant := (rule_meant target).

Lemma holds_meant c args : holds (arg_len c) (compile_op c) (value c) (args (arg c)) = condition_meant args c.
Proof. unfold holds, condition_meant, compile_op. destruct (op c); try done. by rewrite Z.land_diag. Qed.

Lemma compile_conditions_holds cs conds args :
  compile_conditions cs = Ok conds →
  forallb (fun c => condition_holds c args) conds = forallb (condition_meant args) cs.
Proof.
  revert conds; induction cs as [|c cs IH]; intros conds; [by intros [= <-]|]. cbn [compile_conditions].
  destruct (map_err _ _) as [c'|] eqn:Hc; cbn [mbind result_bind]; [|done]. apply map_err_Ok in Hc.
  destruct (compile_conditions cs) as [more|] eqn:Hm; cbn [mbind result_bind]; [|done]. intros [= <-].
  cbn. by rewrite (condition_law _ _ _ _ _ _ Hc), holds_meant, (IH _ eq_refl).
Qed.

Lemma unnamed_rules number rules :
  existsb (named number) rules = false → existsb (fun r => conditional r && named number r) rules = false.
Proof. induction rules as [|r rules IH]; [done|]; cbn. destruct (named number r); [done|]. by rewrite andb_false_r. Qed.

(** The compiled rules of one number: those of its conditional rules, in order. *)
Lemma compile_rules_get rules m m' number args :
  compile_rules target rules m = Ok m' →
  ∃ rs, bt_get number m' = (if existsb (named number) rules
                            then Some (default [] (bt_get number m) ++ rs) else bt_get number m) ∧
    existsb (fun r => rule_holds r args) rs
      = existsb (fun r => conditional r && meant number args r) rules ∧
    (rs = [] ↔ existsb (fun r => conditional r && named number r) rules = false).
Proof.
  revert m; induction rules as [|r rules IH]; intros m; cbn [compile_rules].
  { intros [= <-]. exists []. by cbn. }
  destruct (rule_number target r) as [n|] eqn:Hn; cbn [mbind result_bind]; [|done].
  assert (Hnamed : named number r = (n =? number)) by (unfold names; by rewrite Hn).
  unfold rule_meant. cbn [existsb]. rewrite Hnamed. fold (meant number args).
  destruct (conditions r) as [|c cs] eqn:Hcs.
  - intros Hrun. apply IH in Hrun as (rs & Hget & Hex & Hnil).
    exists rs. unfold conditional at 1 3. rewrite Hcs. cbn [andb orb]. split; [|done].
    rewrite Hget. unfold or_default. destruct (Z.eqb_spec n number) as [<-|Hne]; cbn [orb].
    + destruct (bt_get n m) eqn:Hg; [rewrite Hg|rewrite bt_get_insert_eq]; destruct (existsb _ rules) eqn:Hr;
        try done; cbn; (assert (rs = []) as -> by by apply Hnil, unnamed_rules); by rewrite ?app_nil_r.
    + destruct (bt_get n m); [done|]. by rewrite bt_get_insert_ne.
  - destruct (compile_conditions (c :: cs)) as [conds|] eqn:Hcc; cbn [mbind result_bind]; [|done].
    destruct (map_err _ _) as [cr|] eqn:Hr; cbn [mbind result_bind]; [|done]. apply map_err_Ok in Hr.
    intros Hrun. apply IH in Hrun as (rs & Hget & Hex & Hnil). unfold conditional at 1 3. rewrite Hcs. cbn [andb].
    destruct (Z.eqb_spec n number) as [<-|Hne]; cbn [orb andb].
    + exists (cr :: rs). rewrite Hget. unfold push_rule. rewrite bt_get_insert_eq. split_and!; [| |done].
      * destruct (existsb _ rules) eqn:Hr'; cbn; [by rewrite <-app_assoc|].
        assert (rs = []) as -> by by apply Hnil, unnamed_rules. done.
      * cbn [existsb]. by rewrite (rule_law _ _ _ Hr), (compile_conditions_holds _ _ _ Hcc), Hex.
    + exists rs. split; [|done]. rewrite Hget. unfold push_rule. by rewrite bt_get_insert_ne.
Qed.

Lemma unnamed_meant number args rules :
  existsb (named number) rules = false → existsb (meant number args) rules = false.
Proof.
  induction rules as [|r rules IH]; [done|]; cbn. unfold rule_meant at 1. destruct (named number r); [done|]. by apply IH.
Qed.

Lemma existsb_ext {A} (f g : A → bool) l : (∀ x, In x l → f x = g x) → existsb f l = existsb g l.
Proof. induction l as [|x l IH]; intros Hfg; [done|]. cbn. rewrite Hfg by by left. f_equal. apply IH. intros y Hy. apply Hfg. by right. Qed.

Lemma compile_len default_action matched_action rules p :
  compile target (Filter default_action matched_action rules) = Ok (Some p) →
  program_len p ≠ 0 ∧ program_len p <= MAX_PROGRAM.
Proof.
  cbn [compile]. repeat (destruct (map_err _ _) || destruct (compile_rules _ _ _); cbn [mbind result_bind]; [|done]).
  unfold mret, result_ret. destruct (_ =? 0) eqn:Hz; [done|]. destruct (_ <? _) eqn:Hm; [done|]. intros [= <-].
  bool_to_prop. lia.
Qed.

(** What a compiled program decides, exactly. *)
Lemma verdict_exact default_action matched_action rules p number args :
  compile target (Filter default_action matched_action rules) = Ok (Some p) →
  verdict p number args =
    if negb (existsb (named number) rules) then default_action
    else if negb (existsb (fun r => conditional r && named number r) rules) then matched_action
    else if existsb (fun r => conditional r && meant number args r) rules then matched_action
    else default_action.
Proof.
  intros Hc. cbn [compile] in Hc.
  destruct (compile_rules _ _ _) as [m|] eqn:Hm; cbn [mbind result_bind] in Hc; [|done].
  destruct (map_err _ (filter_new _ _ _ _)) as [f|] eqn:Hf; cbn [mbind result_bind] in Hc; [|done]. apply map_err_Ok in Hf.
  destruct (map_err _ (generate f)) as [p'|] eqn:Hg; cbn [mbind result_bind] in Hc; [|done]. apply map_err_Ok in Hg.
  assert (p' = p) as -> by (unfold mret, result_ret in Hc; repeat case_match; by simplify_eq).
  rewrite (verdict_law _ _ _ _ _ _ _ _ Hf Hg).
  destruct (compile_rules_get rules [] m number args Hm) as (rs & -> & Hex & Hnil).
  destruct (existsb (named number) rules) eqn:Hn; cbn [negb]; [|done]. cbn [bt_get default app].
  rewrite <-Hex. destruct rs as [|r rs]; [by rewrite (proj1 Hnil eq_refl)|].
  destruct (existsb (fun r => conditional r && named number r) rules) ; [done|]. discriminate (proj2 Hnil eq_refl).
Qed.

(** C15: A filter does what its policy says: on every call whose rules are all
    unconditional or all conditional, the program that the child installs takes the
    matched action exactly if some rule of the policy names the call and all its
    conditions hold, with masked and half-width comparisons as documented, and the
    default action otherwise; and the program fits the kernel interface, so that
    installing it cannot fail for its length. *)
Theorem filters_follow_the_policy default_action matched_action rules p number args :
  compile target (Filter default_action matched_action rules) = Ok (Some p) →
  (∀ r1 r2, r1 ∈ rules → r2 ∈ rules → named number r1 = true → named number r2 = true →
     conditional r1 = conditional r2) →
  verdict p number args = policy_action target default_action matched_action rules number args ∧
  program_len p ≠ 0 ∧ program_len p <= MAX_PROGRAM.
Proof.
  intros Hc Hsame. split; [|by apply compile_len in Hc]. rewrite (verdict_exact _ _ _ _ _ _ Hc). unfold policy_action.
  destruct (existsb (named number) rules) eqn:Hn; cbn [negb].
  2: { by rewrite unnamed_meant. }
  destruct (existsb (fun r => conditional r && named number r) rules) eqn:Hcond; cbn [negb].
  - apply existsb_exists in Hcond as (r & Hr & [Hrc Hrn]%andb_true_iff).
    rewrite (existsb_ext (fun r => conditional r && meant number args r) (meant number args)); [done|].
    intros r' Hr'. unfold rule_meant.
    destruct (named number r') eqn:Hn'; [|by rewrite andb_false_r]. rewrite <-list_elem_of_In in *.
    by rewrite <-(Hsame r r'), Hrc.
  - apply existsb_exists in Hn as (r & Hr & Hrn). replace (existsb (meant number args) rules) with true; [done|].
    symmetry. apply existsb_exists. exists r. split; [done|]. unfold rule_meant. rewrite Hrn.
    destruct (conditional r) eqn:Hrc; [|unfold conditional in Hrc; by destruct (conditions r)].
    apply not_true_iff_false in Hcond. destruct Hcond. apply existsb_exists. exists r. by rewrite Hrc, Hrn.
Qed.

(** C40: A rule without conditions is lost beside one with conditions: when a policy has
    both for one system call, whichever comes first, a call that fulfils no conditional
    rule takes the default action, although the unconditional rule matches it.  In a
    denylist the call is let through. *)
Theorem mixed_rules_lose_the_unconditional_one default_action matched_action rules p number args :
  compile target (Filter default_action matched_action rules) = Ok (Some p) →
  existsb (fun r => negb (conditional r) && named number r) rules = true →
  existsb (fun r => conditional r && named number r) rules = true →
  existsb (fun r => conditional r && meant number args r) rules = false →
  verdict p number args = default_action ∧
  policy_action target default_action matched_action rules number args = matched_action.
Proof.
  intros Hc Hun Hcond Hno. apply existsb_exists in Hun as (r & Hr & [Hrc Hrn]%andb_true_iff). split.
  - rewrite (verdict_exact _ _ _ _ _ _ Hc), Hcond, Hno. cbn [negb].
    assert (existsb (named number) rules = true) as -> by (apply existsb_exists; by exists r). done.
  - unfold policy_action. replace (existsb (meant number args) rules) with true; [done|]. symmetry.
    apply existsb_exists. exists r. split; [done|]. unfold rule_meant. rewrite Hrn.
    unfold conditional in Hrc. by destruct (conditions r).
Qed.
End meaning.

(** ** A library to compile with *)

Definition ref_rule : Type := list (Z * ArgLen * CompiledOp * Z).
Definition ref_rule_holds (r : ref_rule) (args : Z → Z) : bool :=
  forallb (fun '(a, len, o, v) => holds len o v (args a)) r.

#[local] Instance reference_compiler : Seccompiler := {|
  condition := Z * ArgLen * CompiledOp * Z; rule := ref_rule;
  filter := list (Z * list ref_rule) * SeccompAction * SeccompAction;
  program := list (Z * list ref_rule) * SeccompAction * SeccompAction;
  condition_new := fun a len o v => if 5 <? a then Err "invalid argument index" else Ok (a, len, o, v);
  rule_new := fun cs => match cs with [] => Err "empty rule" | _ => Ok cs end;
  filter_new := fun rules mismatch matched _ =>
    if bool_decide (mismatch = matched) then Err "identical actions" else Ok (rules, mismatch, matched);
  generate := fun f => Ok f;
  program_len := fun '(rules, _, _) => 4 + Z.of_nat (length rules);
  verdict := fun '(rules, mismatch, matched) number args =>
    match bt_get number rules with
    | None => mismatch
    | Some [] => matched
    | Some rs => if existsb (fun r => ref_rule_holds r args) rs then matched else mismatch
    end |}.

#[local] Instance reference_laws : SeccompilerLaws.
Proof.
  refine {| rule_holds := ref_rule_holds : rule → (Z → Z) → bool;
            condition_holds := (fun c args => let '(a, len, o, v) := c in holds len o v (args a)) : condition → (Z → Z) → bool |}.
  - intros a len o v c args. cbn -[Z.ltb holds]. by destruct (5 <? a); intros [= <-].
  - intros cs r args. cbn. destruct cs; [done|]. by intros [= <-].
  - intros rules mismatch matched t f p number args. cbn. case_bool_decide; [done|]. by intros [= <-] [= <-].
Defined.

#[local] Instance ascii_tables : UnicodeTables := {| printable := fun v => v <? 128 |}.

(** Denying [ioctl] with one request, and [ptrace] altogether. *)
Definition denylist : list SyscallRule :=
  [MkRule (Named "ioctl") [MkCondition 1 Dword Equal 21522]; MkRule (Named "ptrace") []].

Lemma filters_follow_the_policy_witness :
  ∃ p, compile X86_64 (Filter Allow (ActErrno 1) denylist) = Ok (Some p) ∧
    verdict p 16 (fun i => if i =? 1 then 21522 + 2 ^ 40 else 0) = ActErrno 1 ∧
    verdict p 101 (fun _ => 0) = ActErrno 1 ∧ verdict p 0 (fun _ => 0) = Allow.
Proof.
  assert (Hunmixed : ∀ number r1 r2, r1 ∈ denylist → r2 ∈ denylist →
    names X86_64 number r1 = true → names X86_64 number r2 = true → conditional r1 = conditional r2).
  { assert (Hall : Forall (fun r => rule_number X86_64 r = Ok (if conditional r then 16 else 101)) denylist)
      by (repeat apply Forall_cons_2; [vm_compute; reflexivity..|constructor]).
    rewrite Forall_forall in Hall. intros number r1 r2 H1%Hall H2%Hall. unfold names. rewrite H1, H2.
    destruct (conditional r1), (conditional r2); intros ?%Z.eqb_eq ?%Z.eqb_eq; congruence. }
  eexists. split; [vm_compute; reflexivity|]. split_and!;
    (etransitivity; [refine (proj1 (filters_follow_the_policy X86_64 Allow (ActErrno 1) denylist _ _ _ _ (Hunmixed _)));
      vm_compute; reflexivity|vm_compute; reflexivity]).
Defined.

(** Denying [ptrace] altogether, and naming one request besides. *)
Lemma mixed_rules_lose_the_unconditional_one_witness :
  ∃ p, compile X86_64 (Filter Allow (ActErrno 1)
         [MkRule (Named "ptrace") []; MkRule (Named "ptrace") [MkCondition 0 Qword Equal 16]]) = Ok (Some p) ∧
    verdict p 101 (fun _ => 0) = Allow.
Proof.
  eexists. split; [vm_compute; reflexivity|].
  refine (proj1 (mixed_rules_lose_the_unconditional_one X86_64 Allow (ActErrno 1)
    [MkRule (Named "ptrace") []; MkRule (Named "ptrace") [MkCondition 0 Qword Equal 16]] _ 101 (fun _ => 0) _ _ _ _));
    vm_compute; reflexivity.
Defined.

End SeccompFilter.
