(* ===== verification/LandlockRules.v ===== *)
(** * File and network rules ([shbox-sandbox]: linux/landlock.rs)

    The rule set the launcher builds for a policy and the child enforces.  The
    Landlock library and the kernel are parameters: each step may be refused, and the
    rights that exist depend on the ABI. *)

From S2P Require Import Prelude Text Toml FileSystem EnginePolicy.

Module Landlock.
Import Engine.

(** ** Rights *)

(** Bits of [AccessFs]. *)
Definition EXECUTE : Z := 0.
Definition READ_FILE : Z := 2.
Definition READ_DIR : Z := 3.
Definition REFER : Z := 13.

Definition bits (l : list Z) : Z := fold_right (fun b acc => Z.lor (Z.shiftl 1 b) acc) 0 l.

Definition S_IFMT : Z := 61440.
Definition S_IFDIR : Z := 16384.

Class LandlockApi := {
  (** [AccessFs::from_read], [from_write] of an ABI, and [from_file] of the newest. *)
  from_read : Z → Z; from_write : Z → Z; from_file : Z;
  (** Whether the library or the kernel refuses a step, and why. *)
  refused_at : nat → option string;
  (** [PathFd::new]: the object a path names. *)
  open_path_at : nat → string → result string Z;
  (** [fstat] of an opened object: its mode. *)
  fstat_at : nat → Z → option Z;
  (** The descriptor of the created rule set, if the kernel made one. *)
  ruleset_fd_at : nat → option Z;
  (** Enforcement by the kernel: whether a set that handles the given rights, with the
      given rules on objects, lets a right through beneath the given objects. *)
  permits : Z → list (Z * Z) → list Z → Z → bool }.

(** Reading files and directories and executing are the read rights; no write right is
    one of them.  A right that a set handles passes only beneath an object that one of its
    rules grants it on; about rights that a set does not handle nothing is said (the
    kernel lets them pass, except for moving files between directories, which every set
    denies). *)
Class LandlockLaws `{LandlockApi} := {
  handled_rights : ∀ handled rules objects b, Z.testbit handled b = true → permits handled rules objects b = true →
    ∃ o access, (o, access) ∈ rules ∧ o ∈ objects ∧ Z.testbit access b = true;
  read_rights : ∀ abi b, 1 <= abi → b ∈ [EXECUTE; READ_FILE; READ_DIR] → Z.testbit (from_read abi) b = true;
  write_rights : ∀ abi b, Z.testbit (from_write abi) b = true → 0 <= b ∧ b ∉ [EXECUTE; READ_FILE; READ_DIR] }.

(** ** Building *)

(** The rule set: its descriptor, the rights it handles, whether it handles the network,
    and the rights granted beneath objects. *)
Record PreparedLandlock := MkPrepared
  { ruleset_fd : Z; handled_fs : Z; handled_net : bool; granted : list (Z * Z) }.

Section prepare.
Context `{LandlockApi}.

Notation L := (M nat SandboxError).

Definition map_ruleset_error (error : string) : SandboxError :=
  Unsupported "landlock" ("ruleset could not be built: " +:+ error).

(** One call of the library's builder. *)
Definition build : L unit := fun now =>
  (match refused_at now with Some error => Err (map_ruleset_error error) | None => Ok tt end, S now).

Definition fd_is_dir (fd : Z) : L (option bool) := fun now =>
  (Ok ((fun mode => Z.land mode S_IFMT =? S_IFDIR) <$> fstat_at now fd), S now).

(** One path rule, narrowed to the rights of files when the object is no directory, or
    cannot be told to be one. *)
Definition path_rule (path : string) (access : Z) : L (Z * Z) :=
  fd ← (fun now => (map_err (fun error =>
           InvalidPolicy "filesystem" ("rule path " +:+ from_utf8_lossy path
             +:+ " cannot be opened for Landlock: " +:+ error)) (open_path_at now path), S now));
  is_dir ← fd_is_dir fd;
  mret (fd, if default false is_dir then access else Z.land access from_file).

Fixpoint path_rules (tiers : list (string * Z)) : L (list (Z * Z)) :=
  match tiers with
  | [] => mret []
  | (path, access) :: rest => r ← path_rule path access; more ← path_rules rest; mret (r :: more)
  end.

Fixpoint add_rules (rules : list (Z * Z)) : L unit :=
  match rules with
  | [] => mret tt
  | _ :: rest => _ ← build; add_rules rest
  end.

Definition prepared_ruleset (handled : Z) (net : bool) (rules : list (Z * Z)) : L PreparedLandlock := fun now =>
  (match ruleset_fd_at now with
   | Some fd => Ok (MkPrepared fd handled net rules)
   | None => Err (Unsupported "landlock" "a required Landlock ruleset was not materialized by the kernel")
   end, S now).

Definition read_set : Z := bits [READ_FILE; READ_DIR].
Definition execute_set : Z := Z.lor read_set (bits [EXECUTE]).
Definition read_write_set (abi : Z) : Z := Z.lor execute_set (from_write abi).

Definition tiers (abi : Z) (read_only read_write execute : list string) : list (string * Z) :=
  ((fun p => (p, read_set)) <$> read_only) ++ ((fun p => (p, read_write_set abi)) <$> read_write)
  ++ ((fun p => (p, execute_set)) <$> execute).

Definition restricts_network (network : NetworkPolicy) : bool :=
  match network with NetUnrestricted => false | _ => true end.

Definition check_network (network : NetworkPolicy) (abi : Z) : result SandboxError unit :=
  match network with
  | NetUnrestricted => Ok tt
  | _ =>
      if abi <? 4
      then Err (Unsupported "landlock-network"
             ("network restriction requires Landlock ABI 4 (kernel 6.7) or newer; "
                +:+ "express the restriction with a seccomp SyscallPolicy instead"))
      else match network with
           | OutboundTcp => Err (Unsupported "landlock-network"
               ("outbound-only TCP cannot be expressed: Landlock network rules enumerate "
                  +:+ "ports and cannot allow connect-to-any-port"))
           | _ => Ok tt
           end
  end.

Definition prepare (filesystem : FilesystemPolicy) (network : NetworkPolicy) (abi : Z) : L (option PreparedLandlock) :=
  match filesystem, network with
  | FsUnrestricted, NetUnrestricted => mret None
  | _, _ =>
      if abi =? 0
      then fail (Unsupported "landlock"
             ("the kernel does not support Landlock; a restricted filesystem or "
                +:+ "network policy cannot be enforced"))
      else
        _ ← liftR (check_network network abi);
        match filesystem with
        | FsUnrestricted =>
            _ ← build;
            _ ← build;
            r ← prepared_ruleset 0 true [];
            mret (Some r)
        | Restricted read_only read_write execute =>
            let handled := Z.lor (from_read abi) (from_write abi) in
            _ ← build;
            _ ← (if restricts_network network then build else mret tt);
            _ ← build;
            rules ← path_rules (tiers abi read_only read_write execute);
            _ ← add_rules rules;
            r ← prepared_ruleset handled (restricts_network network) rules;
            mret (Some r)
        end
  end.

(** ** Enforcement *)

Definition allows (r : PreparedLandlock) (objects : list Z) (right : Z) : bool :=
  permits (handled_fs r) (granted r) objects right.

(** An object that a listed path named. *)
Definition opened_from (paths : list string) (objects : list Z) : Prop :=
  ∃ path o now, path ∈ paths ∧ open_path_at now path = Ok o ∧ o ∈ objects.

(** A rule for a path of the tiers. *)
Definition grants (tier : string * Z) (rule : Z * Z) : Prop :=
  ∃ now, open_path_at now tier.1 = Ok rule.1 ∧
    (rule.2 = tier.2 ∨ rule.2 = Z.land tier.2 from_file).

Lemma path_rules_grant l now rules now' :
  path_rules l now = (Ok rules, now') → Forall2 grants l rules.
Proof.
  revert now rules now'; induction l as [|[path access] l IH]; intros now rules now'; cbn [path_rules].
  - intros [-> _]%ret_Ok. constructor.
  - intros (r & n1 & Hr & Hl)%bind_Ok. apply bind_Ok in Hl as (more & n2 & Hm & Hret).
    apply ret_Ok in Hret as [-> _]. constructor; [|by eapply IH].
    unfold path_rule in Hr. apply bind_Ok in Hr as (fd & n3 & Hfd & Hr). apply bind_Ok in Hr as (d & n4 & _ & Hr).
    apply ret_Ok in Hr as [-> _]. injection Hfd as Hfd _. apply map_err_Ok in Hfd. exists now. split; [done|].
    cbn. destruct (default false d); auto.
Qed.

Lemma grants_bit tier rule b : grants tier rule → Z.testbit rule.2 b = true → Z.testbit tier.2 b = true.
Proof. intros (now & _ & [->| ->]); [done|]. rewrite Z.land_spec. by intros [? _]%andb_true_iff. Qed.
End prepare.

Section laws.
Context `{LandlockLaws}.

Lemma read_set_bit b : Z.testbit read_set b = true → b = READ_FILE ∨ b = READ_DIR.
Proof.
  unfold read_set, bits. cbn [fold_right]. rewrite !Z.lor_spec, Z.bits_0, orb_false_r.
  intros [Hb|Hb]%orb_true_iff; rewrite Z.shiftl_1_l, Z.pow2_bits_eqb in Hb by done; apply Z.eqb_eq in Hb; auto.
Qed.

Lemma execute_set_bit b : Z.testbit execute_set b = true → b ∈ [EXECUTE; READ_FILE; READ_DIR].
Proof.
  unfold execute_set. rewrite Z.lor_spec. intros [[-> | ->]%read_set_bit|Hb]%orb_true_iff; [set_solver..|].
  unfold bits in Hb. cbn [fold_right] in Hb. rewrite Z.lor_spec, Z.bits_0, orb_false_r in Hb.
  rewrite Z.shiftl_1_l, Z.pow2_bits_eqb in Hb by done. apply Z.eqb_eq in Hb. set_solver.
Qed.
Lemma read_write_set_bit abi b :
  Z.testbit (read_write_set abi) b = true → b ∈ [EXECUTE; READ_FILE; READ_DIR] ∨ Z.testbit (from_write abi) b = true.
Proof. unfold read_write_set. rewrite Z.lor_spec. intros [?%execute_set_bit|?]%orb_true_iff; auto. Qed.

(** A handled right that is let through was granted by a listed path of a tier that has it. *)
Lemma allowed_by_tier r l objects b :
  Forall2 grants l (granted r) → Z.testbit (handled_fs r) b = true → allows r objects b = true →
  ∃ path access o now, (path, access) ∈ l ∧ Z.testbit access b = true ∧
    open_path_at now path = Ok o ∧ o ∈ objects.
Proof.
  intros Hl Hb (o & a & Hin & Ho & Ha)%(handled_rights _ _ _ _ Hb).
  apply list_elem_of_lookup in Hin as [i Hi].
  destruct (Forall2_lookup_r _ _ _ _ _ Hl Hi) as ([path access] & Hp & Hg).
  pose proof (grants_bit _ _ _ Hg Ha). destruct Hg as (now & Hopen & _).
  exists path, access, o, now. split_and!; try done. by eapply list_elem_of_lookup_2.
Qed.

Lemma elem_of_tiers abi ro rw ex path access :
  (path, access) ∈ tiers abi ro rw ex →
  (path ∈ ro ∧ access = read_set) ∨ (path ∈ rw ∧ access = read_write_set abi) ∨ (path ∈ ex ∧ access = execute_set).
Proof. unfold tiers. rewrite !elem_of_app, !list_elem_of_fmap. intros [|[|]]; destruct_and?; naive_solver. Qed.

Lemma prepare_restricted ro rw ex net abi now r now' :
  prepare (Restricted ro rw ex) net abi now = (Ok r, now') →
  abi ≠ 0 ∧ check_network net abi = Ok tt ∧ ∃ p, r = Some p ∧
    handled_fs p = Z.lor (from_read abi) (from_write abi) ∧ handled_net p = restricts_network net ∧
    Forall2 grants (tiers abi ro rw ex) (granted p).
Proof.
  unfold prepare. intros Hr. destruct (Z.eqb_spec abi 0) as [|Hne]; [by destruct net|].
  assert (Hsame : (_ ← liftR (check_network net abi); _) now = (Ok r, now')) by (destruct net; exact Hr).
  clear Hr. apply bind_Ok in Hsame as ([] & n1 & Hnet & Hr). apply liftR_Ok in Hnet as [Hnet ->].
  split_and!; [done|done|].
  do 3 (apply bind_Ok in Hr as (? & ? & _ & Hr)). apply bind_Ok in Hr as (rules & ? & Hrules & Hr).
  apply bind_Ok in Hr as (? & ? & _ & Hr). apply bind_Ok in Hr as (p & ? & Hp & Hr). apply ret_Ok in Hr as [-> _].
  apply path_rules_grant in Hrules. unfold prepared_ruleset in Hp. destruct (ruleset_fd_at _); [|done].
  injection Hp as <- _. by eexists.
Qed.

Lemma check_network_Ok net abi : check_network net abi = Ok tt → net ≠ OutboundTcp ∧ (restricts_network net = true → 4 <= abi).
Proof. destruct net; cbn; [done|..]; destruct (Z.ltb_spec abi 4); try done. Qed.

Lemma prepare_network net abi now r now' :
  net ≠ NetUnrestricted → prepare FsUnrestricted net abi now = (Ok r, now') →
  check_network net abi = Ok tt ∧ ∃ fd, r = Some (MkPrepared fd 0 true []).
Proof.
  unfold prepare. intros Hn Hr.
  assert (Hsame : (if abi =? 0 then fail (Unsupported "landlock" _) else _) now = (Ok r, now')) by (destruct net; [done|exact Hr..]).
  clear Hr. destruct (abi =? 0); [done|]. apply bind_Ok in Hsame as ([] & n1 & Hnet & Hr). apply liftR_Ok in Hnet as [Hnet ->].
  split; [done|]. do 2 (apply bind_Ok in Hr as (? & ? & _ & Hr)). apply bind_Ok in Hr as (p & ? & Hp & Hr).
  apply ret_Ok in Hr as [-> _]. unfold prepared_ruleset in Hp. destruct (ruleset_fd_at _); [|done].
  injection Hp as <- _. by eexists.
Qed.

(** C16: A restriction is enforced in full or the launch is refused.  Nothing is prepared
    only when nothing is restricted.  Otherwise the rule set handles the network exactly
    if that is restricted, which needs ABI 4, and outbound-only access is never accepted.
    For a restricted file system every listed path got a rule, none was skipped; and an
    access to a file or directory passes only if a listed path names one of the objects
    above it: for a right to write that the ABI knows, a read-write path; for executing, a
    read-write or an executable path; for reading, a listed path. *)
Theorem restrictions_are_enforced_or_refused fs net abi now r now' :
  0 <= abi → prepare fs net abi now = (Ok r, now') →
  (r = None ↔ fs = FsUnrestricted ∧ net = NetUnrestricted) ∧
  (∀ p, r = Some p →
     handled_net p = restricts_network net ∧ net ≠ OutboundTcp ∧ (restricts_network net = true → 4 <= abi) ∧
     (∀ ro rw ex, fs = Restricted ro rw ex →
        Forall2 grants (tiers abi ro rw ex) (granted p) ∧
        (∀ objects b, allows p objects b = true →
           (Z.testbit (from_write abi) b = true → opened_from rw objects) ∧
           (b = EXECUTE → opened_from (rw ++ ex) objects) ∧
           (b = READ_FILE ∨ b = READ_DIR → opened_from (ro ++ rw ++ ex) objects)))).
Proof.
  intros Habi Hr. destruct fs as [|ro rw ex].
  - assert (Hnets : net = NetUnrestricted ∨ net ≠ NetUnrestricted) by (destruct net; [by left|by right..]).
    destruct Hnets as [->|Hne].
    { apply ret_Ok in Hr as [-> _]. split; [done|by intros ? [=]]. }
    apply prepare_network in Hr as (Hnet%check_network_Ok & fd & ->); [|done]. destruct Hnet.
    split; [naive_solver|]. intros p [= <-]. cbn. split_and!; try done. by destruct net.
  - apply prepare_restricted in Hr as (Hne & Hnet%check_network_Ok & p & -> & Hfs & Hnetp & Hgr). destruct Hnet.
    split; [naive_solver|]. intros p' [= <-]. split_and!; try done. intros ro' rw' ex' [= <- <- <-].
    split; [done|]. intros objects b Hal.
      assert (Hsrc : Z.testbit (from_write abi) b = true ∨ b ∈ [EXECUTE; READ_FILE; READ_DIR] →
        ∃ path access o u, (path, access) ∈ tiers abi ro rw ex ∧ Z.testbit access b = true ∧
          open_path_at u path = Ok o ∧ o ∈ objects).
      { intros Hb. eapply allowed_by_tier; [done| |done]. rewrite Hfs, Z.lor_spec.
        destruct Hb as [->|Hb]; [by rewrite orb_true_r|]. by rewrite read_rights by (done || lia). }
      split_and!.
      * intros Hw. destruct (Hsrc (or_introl Hw)) as (path & access & o & u & Hin & Hbit & Ho & Hobj).
        exists path, o, u. split_and!; try done. destruct (write_rights _ _ Hw) as [_ Hno].
        apply elem_of_tiers in Hin as [[_ ->]|[[? _]|[_ ->]]]; [|done|].
        -- apply read_set_bit in Hbit. destruct Hno. destruct Hbit as [->| ->]; set_solver.
        -- by apply execute_set_bit in Hbit.
      * intros ->. destruct Hsrc as (path & access & o & u & Hin & Hbit & Ho & Hobj); [right; set_solver|].
        exists path, o, u. split_and!; try done. apply elem_of_app.
        apply elem_of_tiers in Hin as [[_ ->]|[[? _]|[? _]]]; [|by left|by right].
        apply read_set_bit in Hbit. by destruct Hbit.
      * intros Hrd. destruct Hsrc as (path & access & o & u & Hin & Hbit & Ho & Hobj);
          [right; destruct Hrd as [->| ->]; set_solver|].
        exists path, o, u. split_and!; try done. rewrite !elem_of_app.
        apply elem_of_tiers in Hin as [[? _]|[[? _]|[? _]]]; auto.
Qed.
End laws.

(** ** A kernel to build for *)

#[local] Instance sample_api : LandlockApi := {|
  from_read := fun _ => bits [EXECUTE; READ_FILE; READ_DIR]; from_write := fun _ => bits [1; 4; 5];
  from_file := bits [EXECUTE; 1; READ_FILE]; refused_at := fun _ => None;
  open_path_at := fun _ path => if bool_decide (path = "/work") then Ok 7 else Ok 8;
  fstat_at := fun _ fd => Some (if fd =? 7 then 16877 else 33188); ruleset_fd_at := fun _ => Some 9;
  permits := fun handled rules objects b =>
    if Z.testbit handled b then existsb (fun '(o, access) => bool_decide (o ∈ objects) && Z.testbit access b) rules
    else negb (b =? REFER) |}.

#[local] Instance sample_laws : LandlockLaws.
Proof.
  split.
  - intros handled rules objects b Hb Hp. cbn [permits sample_api] in Hp. rewrite Hb in Hp.
    apply existsb_exists in Hp as ([o access] & Hin & [Ho Ha]%andb_true_iff). apply bool_decide_eq_true in Ho.
    exists o, access. split_and!; [by apply list_elem_of_In|done..].
  - intros abi b _ Hb. repeat (apply elem_of_cons in Hb as [->|Hb]; [done|]). by apply not_elem_of_nil in Hb.
  - intros abi b Hb. cbn [from_write sample_api] in Hb.
    assert (b = 1 ∨ b = 4 ∨ b = 5) as Hcase; [|destruct Hcase as [->|[->| ->]]; (split; [done|set_solver])].
    unfold bits in Hb. cbn [fold_right] in Hb. rewrite !Z.lor_spec, Z.bits_0, orb_false_r in Hb.
    rewrite !Z.shiftl_1_l, !Z.pow2_bits_eqb in Hb by done.
    apply orb_true_iff in Hb as [?%Z.eqb_eq|[?%Z.eqb_eq|?%Z.eqb_eq]%orb_true_iff]; auto.
Defined.

(** A file that may be read and a directory that may be written: writing beneath the file
    is not let through. *)
Lemma restrictions_are_enforced_or_refused_witness :
  ∃ p now', prepare (Restricted ["/etc/hosts"] ["/work"] []) NetDisabled 4 0%nat = (Ok (Some p), now') ∧
    granted p = [(8, bits [READ_FILE]); (7, bits [EXECUTE; 1; READ_FILE; READ_DIR; 4; 5])] ∧
    allows p [7; 1] 4 = true ∧ (allows p [8; 1] 4 = true → opened_from ["/work"] [8; 1]).
Proof.
  assert (Hr : ∃ p now', prepare (Restricted ["/etc/hosts"] ["/work"] []) NetDisabled 4 0%nat = (Ok (Some p), now') ∧
    granted p = [(8, bits [READ_FILE]); (7, bits [EXECUTE; 1; READ_FILE; READ_DIR; 4; 5])] ∧ allows p [7; 1] 4 = true)
    by (do 2 eexists; split_and!; vm_compute; reflexivity).
  destruct Hr as (p & now' & Hr & Hg & Ha). exists p, now'. split_and!; [done..|]. intros Hal.
  destruct (restrictions_are_enforced_or_refused _ _ 4 _ _ _ ltac:(done) Hr) as [_ Hp].
  destruct (Hp p eq_refl) as (_ & _ & _ & Hfs). destruct (Hfs _ _ _ eq_refl) as (_ & Hobj).
  destruct (Hobj _ _ Hal) as [Hw _]. apply Hw. by vm_compute.
Defined.

End Landlock.
