(* ===== verification/LaunchSetup.v ===== *)
(** * What a launch prepares ([shbox-sandbox]: linux/mod.rs)

    The flags of the clone, the text of an identity map, and the set-up of the child
    built from a command and a configuration; and what the program of a child with such
    a set-up starts under, composed with the chain of set-up stages. *)

From Stdlib Require Import Sorting.Sorted.
From S2P Require Import Prelude Text Toml FileSystem RuntimeLedger Manager BrokerWire EnginePolicy.
From S2P Require Import ChildRecords ChildSetup ChildSafety.

Module LaunchSetup.
Import Engine Child.

(** ** Flags *)

Definition CLONE_PIDFD : Z := 4096.
Definition CLONE_INTO_CGROUP : Z := 8589934592.
Definition CLONE_NEWNS : Z := 131072.
Definition CLONE_NEWUTS : Z := 67108864.
Definition CLONE_NEWIPC : Z := 134217728.
Definition CLONE_NEWUSER : Z := 268435456.
Definition CLONE_NEWPID : Z := 536870912.
Definition CLONE_NEWNET : Z := 1073741824.

Definition set_if (b : bool) (flag flags : Z) : Z := if b then Z.lor flags flag else flags.

Definition namespace_flags (config : SandboxConfig) : Z :=
  let ns := cf_namespaces config in
  let flags := set_if (match cf_identity config with CallerMappedRoot | IdIsolated _ => true | IdHost => false end)
                 CLONE_NEWUSER 0 in
  let flags := set_if (ns_pid ns) CLONE_NEWPID flags in
  let flags := set_if (ns_mount ns) CLONE_NEWNS flags in
  let flags := set_if (ns_ipc ns) CLONE_NEWIPC flags in
  let flags := set_if (ns_uts ns) CLONE_NEWUTS flags in
  set_if (match ns_network ns with NsIsolated => true | NsHost => false end) CLONE_NEWNET flags.

(** ** Identity maps *)

(** The digits of a number, the lowest first: [digits] has room for twenty. *)
Fixpoint decimal_digits (room : nat) (value : Z) : list Z :=
  match room with
  | O => []
  | S room' =>
      (48 + value mod 10) :: (if value / 10 =? 0 then [] else decimal_digits room' (value / 10))
  end.

Definition push (state : list Z * nat) (bytes : list Z) : list Z * nat :=
  (Wire.put state.1 state.2 bytes, (state.2 + length bytes)%nat).

(** The buffer and how much of it is valid. *)
Definition format_identity_map (outer : Z) : list Z * nat :=
  let state := push (replicate 64 0, O) [48; 32] in
  let state := fold_left (fun state digit => push state [digit]) (rev (decimal_digits 20 outer)) state in
  push state [32; 49; 10].

Fixpoint text_of (bytes : list Z) : string :=
  match bytes with [] => EmptyString | b :: rest => String (byte_of b) (text_of rest) end.

(** [&uid_map[..uid_map_len]]. *)
Definition identity_map (outer : Z) : string :=
  let '(buffer, len) := format_identity_map outer in text_of (take len buffer).

(** ** The set-up *)

Definition to_cstring (field value : string) : result SandboxError string :=
  if has_nul value then Err (InvalidPolicy field "contains a NUL byte and cannot be passed to the OS") else Ok value.

Fixpoint to_cstrings (field : string) (values : list string) : result SandboxError (list string) :=
  match values with
  | [] => mret []
  | v :: rest => c ← to_cstring field v; more ← to_cstrings field rest; mret (c :: more)
  end.

(** [Vec::dedup]: of equal neighbours the first stays. *)
Fixpoint dedup (l : list Z) : list Z :=
  match l with
  | a :: (b :: _) as rest => if a =? b then dedup rest else a :: dedup rest
  | _ => l
  end.

Definition i32_max : Z := 2 ^ 31 - 1.

(** The descriptors a launch reserves for its own use. *)
Record reserved := MkReserved
  { barrier_fds : option (Z * Z); r_parent_pidfd : option Z; r_control_fd : option Z; r_exit_fd : option Z;
    r_cgroup_fd : option Z }.

Definition reserved_fds (r : reserved) : list Z :=
  match barrier_fds r with Some (ready, installed) => [ready; installed] | None => [] end
  ++ option_list (r_parent_pidfd r) ++ option_list (r_control_fd r) ++ option_list (r_exit_fd r)
  ++ option_list (r_cgroup_fd r).

Section setup.
Context `{Host}.

(** [is_open] answers [fcntl(fd, F_GETFD)]. *)
Fixpoint check_mount_fds (is_open : Z → bool) (inherited stdio own : list Z) (index : Z) (fds : list Z)
    : result SandboxError unit :=
  match fds with
  | [] => Ok tt
  | fd :: rest =>
      if (fd <? 3) || bool_decide (fd ∈ inherited) || bool_decide (fd ∈ stdio) || bool_decide (fd ∈ own)
         || negb (is_open fd)
      then Err (InvalidPolicy "mounts"
                  ("prepared mount descriptor " +:+ fmt_dec index +:+ " is invalid or conflicts with setup"))
      else check_mount_fds is_open inherited stdio own (index + 1) rest
  end.

Definition check_mounts (is_open : Z → bool) (inherited stdio own : list Z) (mounts : option MountSetup)
    : result SandboxError unit :=
  match mounts with
  | None => Ok tt
  | Some m =>
      _ ← check_mount_fds is_open inherited stdio own 0 (mount_descriptors m);
      if (workspace_mount m =? workspace_target m) || (workspace_mount m =? runtime_mount m)
         || (workspace_mount m =? runtime_target m) || (workspace_target m =? runtime_mount m)
         || (workspace_target m =? runtime_target m) || (runtime_mount m =? runtime_target m)
      then Err (InvalidPolicy "mounts" "prepared mount descriptors must be distinct")
      else Ok tt
  end.

(** Above every descriptor that must outlive the stages. *)
Definition guard_of (inherited own : list Z) (mounts : option MountSetup) : Z :=
  let guard := match last inherited with Some fd => Z.max (fd + 1) 3 | None => 3 end in
  fold_left (fun guard fd => Z.max guard (Z.min (fd + 1) i32_max))
    (own ++ match mounts with Some m => mount_descriptors m | None => [] end) guard.

Definition child_identity (policy : IdentityPolicy) (barrier : option (Z * Z)) : result SandboxError ChildIdentity :=
  match policy with
  | IdHost => Ok HostIdentity
  | CallerMappedRoot => Ok (MappedRoot (identity_map euid) (identity_map egid))
  | IdIsolated identity =>
      if (Manager.host_uid identity =? euid) || (Manager.host_gid identity =? egid)
      then Err (InvalidPolicy "identity"
                  "isolated identity must use leased subordinate IDs, not the launcher's own UID/GID")
      else
        '(ready, installed) ← ok_or (Internal "isolated launch is missing its mapping-barrier descriptors") barrier;
        mret (IsolatedAs (Manager.runtime_uid identity) (Manager.runtime_gid identity) ready installed)
  end.

Definition build_child_setup (is_open : Z → bool) (command : CommandSpec) (config : SandboxConfig) (own : reserved)
    (stdio : Z * Z * Z) (status_write : Z) (mounts : option MountSetup) (landlock : option Z) (seccomp : option nat)
    : result SandboxError ChildSetup :=
  let '(in_fd, out_fd, err_fd) := stdio in
  prog ← to_cstring "program" (program command);
  arg0 ← to_cstring "argv0" (default (program command) (argv0 command));
  arguments ← to_cstrings "args" (args command);
  environment ← to_cstrings "env" ((fun '(name, value) => name +:+ "=" +:+ value) <$> env command);
  let inherited := dedup (sort_by Z.leb (cf_inherited_fds config)) in
  _ ← check_mounts is_open inherited [in_fd; out_fd; err_fd] (reserved_fds own) mounts;
  let guard := guard_of inherited (reserved_fds own) mounts in
  identity ← child_identity (cf_identity config) (barrier_fds own);
  directory ← match cwd command with
              | Some cwd => Some <$> to_cstring "cwd" cwd
              | None => mret None
              end;
  mret {| stdin_fd := in_fd; stdout_fd := out_fd; stderr_fd := err_fd; report_fd := status_write;
          report_guard := guard; inherited_fds := inherited; cs_session := session command; parent_pid := pid;
          parent_pidfd := r_parent_pidfd own; pid_namespace_supervisor := ns_pid (cf_namespaces config);
          supervisor_control_fd := r_control_fd own; supervisor_exit_fd := r_exit_fd own;
          user_cgroup_fd := r_cgroup_fd own; cs_cwd := directory; cs_identity := identity; cs_mounts := mounts;
          make_mounts_private := ns_mount (cf_namespaces config);
          cs_retain_mask := retained_mask (cf_capabilities config); drop_capabilities_flag := true;
          cs_landlock := landlock; cs_seccomp := seccomp; cs_program := prog; cs_argv := arg0 :: arguments;
          cs_envp := environment |}.
End setup.

(** ** Identity maps are what the kernel expects *)

Lemma text_of_app a b : text_of (a ++ b) = (text_of a +:+ text_of b)%stdpp.
Proof. induction a as [|x a IH]; [done|]. cbn. by rewrite IH. Qed.

Lemma digit_char_byte d : 0 <= d < 10 → digit_char d = byte_of (48 + d).
Proof. intros Hd. unfold digit_char. destruct (Z.ltb_spec d 10); [|lia]. unfold byte_of. f_equal. Qed.

Lemma radix_digits room : ∀ n acc fuel, (1 <= room)%nat → 0 <= n < 10 ^ Z.of_nat room → n < 2 ^ Z.of_nat fuel → (1 <= fuel)%nat →
  radix_go 10 fuel n acc = (text_of (rev (decimal_digits room n)) +:+ acc)%stdpp.
Proof.
  induction room as [|room IH]; intros n acc fuel Hroom Hn Hf Hf1; [lia|]. destruct fuel as [|fuel]; [lia|].
  cbn [radix_go decimal_digits rev]. rewrite text_of_app. cbn [text_of].
  rewrite digit_char_byte by (apply Z.mod_pos_bound; lia).
  destruct (Z.ltb_spec n 10).
  - rewrite Z.div_small by lia. cbn [Z.eqb rev text_of]. done.
  - destruct (Z.eqb_spec (n / 10) 0) as [Hz|Hz]; [apply Z.div_small_iff in Hz; lia|].
    assert (Hroom2 : (1 <= room)%nat) by (destruct room; [cbn in Hn; lia|lia]).
    rewrite Nat2Z.inj_succ, Z.pow_succ_r in Hn, Hf by lia.
    rewrite IH; [by rewrite str_app_assoc|done| | |].
    + split; [apply Z.div_pos; lia|]. apply Z.div_lt_upper_bound; lia.
    + apply Z.div_lt_upper_bound; lia.
    + destruct fuel; [cbn in Hf; lia|lia].
Qed.

Lemma decimal_digits_length room n : (length (decimal_digits room n) <= room)%nat.
Proof. revert n; induction room as [|room IH]; intros n; cbn; [lia|]. destruct (_ =? 0); cbn; [lia|]. specialize (IH (n / 10)). lia. Qed.

Lemma push_next pre k bytes :
  (length bytes <= k)%nat →
  push (pre ++ replicate k 0, length pre) bytes = ((pre ++ bytes) ++ replicate (k - length bytes) 0, length (pre ++ bytes)).
Proof. intros Hk. unfold push. cbn [fst snd]. rewrite Wire.put_next by done. by rewrite length_app. Qed.

Lemma push_all digits pre k :
  (length digits <= k)%nat →
  fold_left (fun state digit => push state [digit]) digits (pre ++ replicate k 0, length pre)
  = ((pre ++ digits) ++ replicate (k - length digits) 0, length (pre ++ digits)).
Proof.
  revert pre k; induction digits as [|d digits IH]; intros pre k Hk; cbn [fold_left].
  { by rewrite app_nil_r, Nat.sub_0_r. }
  rewrite push_next by (cbn in *; lia). rewrite IH by (cbn in *; lia). rewrite <-!app_assoc. cbn [length app] in *.
  by replace (k - 1 - length digits)%nat with (k - S (length digits))%nat by lia.
Qed.

(** One line that maps the root of the namespace to the outer identity; it never
    reaches the end of the buffer. *)
Lemma identity_map_text outer :
  0 <= outer <= u64_max →
  identity_map outer = ("0 " +:+ fmt_dec outer +:+ " 1" +:+ String newline EmptyString)%stdpp ∧
  ((format_identity_map outer).2 <= 25)%nat.
Proof.
  intros Ho. unfold identity_map, format_identity_map.
  pose proof (decimal_digits_length 20 outer) as Hlen.
  assert (Hdec : fmt_dec outer = text_of (rev (decimal_digits 20 outer))).
  { unfold fmt_dec. rewrite (radix_digits 20); [apply str_app_nil_r|lia| | |lia]; [unfold u64_max in Ho; lia|].
    rewrite Nat2Z.inj_succ, Z2Nat.id by apply Z.log2_nonneg.
    destruct (Z.eq_dec outer 0) as [->|]; [done|]. apply Z.log2_spec. lia. }
  rewrite Hdec. generalize dependent (decimal_digits 20 outer). intros digits Hlen _.
  rewrite <-(length_rev digits) in Hlen. generalize dependent (rev digits). clear digits. intros digits Hlen.
  change (replicate 64 0, O) with (([] : list Z) ++ replicate 64 0, length ([] : list Z)).
  rewrite push_next by (cbn; lia). rewrite push_all by (cbn; lia). rewrite push_next by (cbn; lia).
  cbn [snd]. rewrite take_app_length, !text_of_app. split; [by rewrite !str_app_assoc|]. rewrite !length_app. cbn. lia.
Qed.

(** ** Flags *)

Lemma namespace_flags_exact config :
  let flags := namespace_flags config in
  let ns := cf_namespaces config in
  (Z.land flags CLONE_NEWUSER ≠ 0 ↔ cf_identity config ≠ IdHost) ∧
  (Z.land flags CLONE_NEWPID ≠ 0 ↔ ns_pid ns = true) ∧ (Z.land flags CLONE_NEWNS ≠ 0 ↔ ns_mount ns = true) ∧
  (Z.land flags CLONE_NEWIPC ≠ 0 ↔ ns_ipc ns = true) ∧ (Z.land flags CLONE_NEWUTS ≠ 0 ↔ ns_uts ns = true) ∧
  (Z.land flags CLONE_NEWNET ≠ 0 ↔ ns_network ns = NsIsolated) ∧
  Z.land flags (Z.lor CLONE_PIDFD CLONE_INTO_CGROUP) = 0.
Proof.
  unfold namespace_flags. destruct (cf_namespaces config) as [a b c d n]. cbn.
  destruct (cf_identity config), a, b, c, d, n; cbn; by split_and!.
Qed.

(** ** The guard is above everything that has to last *)

Lemma insert_sorted a l : StronglySorted Z.le l → StronglySorted Z.le (insert_by Z.leb a l).
Proof.
  induction 1 as [|b l Hl IH Hb]; cbn; [by repeat constructor|]. destruct (Z.leb_spec a b).
  - constructor; [by constructor|]. constructor; [done|]. eapply Forall_impl; [exact Hb|]. cbn. lia.
  - constructor; [done|]. rewrite Forall_forall in *. intros x [->|Hx]%elem_insert_by; [lia|by apply Hb].
Qed.

Lemma sort_sorted l : StronglySorted Z.le (sort_by Z.leb l).
Proof. unfold sort_by. induction l; cbn; [constructor|by apply insert_sorted]. Qed.

Lemma elem_dedup_fds l x : x ∈ dedup l ↔ x ∈ l.
Proof.
  induction l as [|a [|b l] IH]; [done|done|]. cbn [dedup]. destruct (Z.eqb_spec a b) as [<-|].
  - rewrite IH. set_solver.
  - rewrite !elem_of_cons. by rewrite IH, elem_of_cons.
Qed.

Lemma dedup_sorted l : StronglySorted Z.le l → StronglySorted Z.le (dedup l).
Proof.
  induction 1 as [|a l Hl IH Ha]; [constructor|]. destruct l as [|b l]; [by repeat constructor|]. cbn [dedup].
  destruct (a =? b); [done|]. constructor; [done|]. rewrite Forall_forall in *. intros x Hx. by apply Ha, elem_dedup_fds.
Qed.

Lemma last_is_greatest l m x : StronglySorted Z.le l → last l = Some m → x ∈ l → x <= m.
Proof.
  induction 1 as [|a l Hl IH Ha]; [done|]. destruct l as [|b l]; cbn [last].
  - intros [= ->] [->|[]%not_elem_of_nil]%elem_of_cons. lia.
  - intros Hm [->|Hx]%elem_of_cons; [|by apply IH]. rewrite Forall_forall in Ha. apply Ha. by apply last_Some_elem_of.
Qed.

Lemma guard_fold l guard :
  let guard' := fold_left (fun guard fd => Z.max guard (Z.min (fd + 1) i32_max)) l guard in
  guard <= guard' ∧ (guard <= i32_max → guard' <= i32_max).
Proof.
  revert guard; induction l as [|a l IH]; intros g; cbn; [lia|].
  specialize (IH (Z.max g (Z.min (a + 1) i32_max))). cbn in IH. lia.
Qed.

Lemma guard_above inherited own mounts fd :
  StronglySorted Z.le inherited → fd ∈ inherited → fd < guard_of inherited own mounts.
Proof.
  intros Hs Hin. unfold guard_of. destruct (last inherited) as [m|] eqn:Hm.
  - pose proof (last_is_greatest _ _ _ Hs Hm Hin). pose proof (guard_fold (own ++ match mounts with Some m => mount_descriptors m | None => [] end) (Z.max (m + 1) 3)).
    cbn in *. lia.
  - apply last_None in Hm as ->. by apply not_elem_of_nil in Hin.
Qed.

Lemma guard_range inherited own mounts :
  Forall (fun fd => fd < i32_max) inherited → 3 <= guard_of inherited own mounts <= i32_max.
Proof.
  intros Hall. unfold guard_of. set (l := own ++ _). set (g := match last inherited with Some _ => _ | None => _ end).
  assert (Hg : 3 <= g <= i32_max).
  { unfold g. destruct (last inherited) as [m|] eqn:Hm; [|unfold i32_max; lia].
    apply last_Some_elem_of in Hm. rewrite Forall_forall in Hall. apply Hall in Hm. unfold i32_max in *. lia. }
  pose proof (guard_fold l g). cbn in *. lia.
Qed.

(** ** From the configuration to the program *)

Lemma to_cstring_Ok field value c : to_cstring field value = Ok c → c = value.
Proof. unfold to_cstring. by destruct (has_nul value); intros [= <-]. Qed.

Lemma to_cstrings_Ok field values cs : to_cstrings field values = Ok cs → cs = values.
Proof.
  revert cs; induction values as [|v values IH]; intros cs; cbn; [by intros [= <-]|].
  destruct (to_cstring field v) as [c|] eqn:Hc; cbn; [|done]. apply to_cstring_Ok in Hc as ->.
  destruct (to_cstrings field values) as [more|]; cbn; [|done]. intros [= <-]. by rewrite (IH more).
Qed.

Section launch.
Context `{Host} `{EngineKernel} `{UnicodeTables} `{ChildKernel}.

Lemma inherited_validated seen fds now now' :
  validate_inherited_fds seen fds now = (Ok tt, now') → Forall (fun fd => 3 <= fd) fds.
Proof.
  revert seen now; induction fds as [|fd fds IH]; intros seen now; cbn [validate_inherited_fds]; [constructor|].
  destruct (Z.ltb_spec fd 3); [done|]. case_bool_decide; [done|].
  intros (b & n1 & _ & Hr)%bind_Ok. destruct b; [|done]. cbn [negb] in Hr. constructor; [done|by eapply IH].
Qed.

Lemma validate_Ok config command now now' :
  validate config command now = (Ok tt, now') →
  Forall (fun fd => 3 <= fd) (cf_inherited_fds config) ∧ validate_identity config = Ok tt.
Proof.
  unfold validate. intros (u1 & n1 & _ & Hr)%bind_Ok. apply bind_Ok in Hr as ([] & n2 & Hinh & Hr).
  do 3 (apply bind_Ok in Hr as (? & ? & _ & Hr)). apply liftR_Ok in Hr as [Hid _].
  split; [by eapply inherited_validated|done].
Qed.

Lemma validate_isolated config identity :
  validate_identity config = Ok tt → cf_identity config = IdIsolated identity →
  Manager.runtime_uid identity ≠ 0 ∧ Manager.runtime_gid identity ≠ 0 ∧ Manager.host_uid identity ≠ 0 ∧
  Manager.host_gid identity ≠ 0 ∧ ns_mount (cf_namespaces config) = true ∧ retained_mask (cf_capabilities config) = 0.
Proof.
  unfold validate_identity. intros Hv Hid. rewrite Hid in Hv. repeat case_match; simplify_eq; bool_to_prop; cbn; by split_and!.
Qed.

(** What a successful build contains. *)
Lemma build_Ok is_open command config own stdio status mounts landlock seccomp setup :
  build_child_setup is_open command config own stdio status mounts landlock seccomp = Ok setup →
  let inherited := dedup (sort_by Z.leb (cf_inherited_fds config)) in
  child_identity (cf_identity config) (barrier_fds own) = Ok (cs_identity setup) ∧
  check_mounts is_open inherited [stdio.1.1; stdio.1.2; stdio.2] (reserved_fds own) mounts = Ok tt ∧
  setup = {| stdin_fd := stdio.1.1; stdout_fd := stdio.1.2; stderr_fd := stdio.2; report_fd := status;
             report_guard := guard_of inherited (reserved_fds own) mounts; inherited_fds := inherited;
             cs_session := session command; parent_pid := pid; parent_pidfd := r_parent_pidfd own;
             pid_namespace_supervisor := ns_pid (cf_namespaces config); supervisor_control_fd := r_control_fd own;
             supervisor_exit_fd := r_exit_fd own; user_cgroup_fd := r_cgroup_fd own; cs_cwd := cwd command;
             cs_identity := cs_identity setup; cs_mounts := mounts;
             make_mounts_private := ns_mount (cf_namespaces config);
             cs_retain_mask := retained_mask (cf_capabilities config); drop_capabilities_flag := true;
             cs_landlock := landlock; cs_seccomp := seccomp; cs_program := program command;
             cs_argv := default (program command) (argv0 command) :: args command;
             cs_envp := (fun '(name, value) => name +:+ "=" +:+ value)%stdpp <$> env command |}.
Proof.
  unfold build_child_setup. destruct stdio as [[i o] e]. cbn [fst snd].
  destruct (to_cstring "program" _) as [prog|] eqn:Hp; cbn [mbind result_bind]; [|done]. apply to_cstring_Ok in Hp as ->.
  destruct (to_cstring "argv0" _) as [a0|] eqn:Ha; cbn [mbind result_bind]; [|done]. apply to_cstring_Ok in Ha as ->.
  destruct (to_cstrings "args" _) as [l|] eqn:Hl; cbn [mbind result_bind]; [|done]. apply to_cstrings_Ok in Hl as ->.
  destruct (to_cstrings "env" _) as [v|] eqn:Hv; cbn [mbind result_bind]; [|done]. apply to_cstrings_Ok in Hv as ->.
  destruct (check_mounts _ _ _ _ _) as [[]|] eqn:Hm; cbn [mbind result_bind]; [|done].
  destruct (child_identity _ _) as [identity|] eqn:Hi; cbn [mbind result_bind]; [|done].
  destruct (cwd command) as [d|].
  - destruct (to_cstring "cwd" d) as [c|] eqn:Hc; cbn; [|done]. apply to_cstring_Ok in Hc as ->. by intros [= <-].
  - cbn. by intros [= <-].
Qed.

Lemma given_up_reserved is_open command config own stdio status mounts landlock seccomp setup fd :
  build_child_setup is_open command config own stdio status mounts landlock seccomp = Ok setup →
  fd ∈ ChildSafety.given_up setup → fd ∈ reserved_fds own.
Proof.
  intros (Hid & _ & ->)%build_Ok. unfold ChildSafety.given_up, reserved_fds. cbn in *.
  assert (Hbar : ∀ u g ready installed, cs_identity setup = IsolatedAs u g ready installed → barrier_fds own = Some (ready, installed)).
  { intros u g ready installed Heq. rewrite Heq in Hid. unfold child_identity in Hid.
    destruct (cf_identity config); [done..|]. destruct (_ || _); [done|]. destruct (barrier_fds own) as [[]|]; [|done].
    cbn in Hid. by injection Hid as _ _ -> ->. }
  rewrite !elem_of_app. intros [?|[Hb|Hs]]; [auto| |].
  - destruct (cs_identity setup) as [| |u g ready installed]; [by apply not_elem_of_nil in Hb..|].
    rewrite (Hbar _ _ _ _ eq_refl). auto.
  - destruct (ns_pid _); [|by apply not_elem_of_nil in Hs]. rewrite !elem_of_app in Hs. naive_solver.
Qed.

Lemma check_mounts_distinct is_open inherited stdio own m :
  check_mounts is_open inherited stdio own (Some m) = Ok tt → NoDup (mount_descriptors m).
Proof.
  unfold check_mounts. destruct (check_mount_fds _ _ _ _ _ _) as [[]|]; cbn [mbind result_bind]; [|done].
  destruct (_ || _) eqn:Hd; [done|]. intros _. rewrite !orb_false_iff, !Z.eqb_neq in Hd. unfold mount_descriptors.
  repeat (apply NoDup_cons_2; [rewrite ?elem_of_cons, elem_of_nil; naive_solver|]). apply NoDup_nil_2.
Qed.

Lemma execed_calls setup s s' :
  child_entry setup s = (Err Execed, s') → ∃ l, c_calls s' = c_calls s ++ l ++ [exec_call setup].
Proof.
  intros (tr & [Hcalls _] & _)%ChildSafety.execed_trace.
  exists (ChildSafety.before_hygiene setup tr ++ ChildSafety.tr_hygiene setup tr). rewrite Hcalls.
  f_equal. apply app_assoc.
Qed.

Lemma isolated_identity policy barrier identity c :
  child_identity policy barrier = Ok c → policy = IdIsolated identity →
  Manager.host_uid identity ≠ euid ∧ Manager.host_gid identity ≠ egid ∧
  ∃ ready installed, barrier = Some (ready, installed) ∧
    c = IsolatedAs (Manager.runtime_uid identity) (Manager.runtime_gid identity) ready installed.
Proof.
  intros Hc ->. cbn [child_identity] in Hc. destruct (_ || _) eqn:Hd; [done|]. bool_to_prop.
  destruct barrier as [[ready installed]|]; [|done]. cbn in Hc. injection Hc as <-. naive_solver.
Qed.

(** C5: A program that starts, starts under its configuration.  For every configuration
    that passed validation, every set-up built from it and every run of the child in
    which the exec happened, whatever the kernel answered on the way: the program,
    arguments and environment are the command's; it can gain no privileges and has
    exactly the retained capabilities; the prepared file, network and system-call rules
    are in force; its mounts are private and read-only with the two prepared views as
    configured; an isolated program runs under its leased identity, which is not the
    launcher's and not root, with no capabilities and no groups, and only after the
    launcher confirmed the identity maps; and unless its own system-call filter refuses the
    closings, which are made under the filter and not checked, it holds no descriptor but
    the standard streams and the configured ones, and of these every one that was open. *)
Theorem programs_start_as_configured is_open config command own stdio status mounts landlock seccomp setup now now' s s' :
  validate config command now = (Ok tt, now') →
  build_child_setup is_open command config own stdio status mounts landlock seccomp = Ok setup →
  Forall (fun fd => fd < i32_max ∧ fd ∉ reserved_fds own) (cf_inherited_fds config) →
  p_attached (c_proc s) = [] →
  child_entry setup s = (Err Execed, s') →
  let p := c_proc s' in
  (∃ l, c_calls s' = c_calls s ++ l ++
     [Execve (program command) (default (program command) (argv0 command) :: args command)
        ((fun '(name, value) => name +:+ "=" +:+ value)%stdpp <$> env command)]) ∧
  p_nnp p = true ∧ p_caps p = Some (retained_mask (cf_capabilities config)) ∧
  (landlock ≠ None → p_landlock p = true) ∧ (seccomp ≠ None → p_seccomp p = true) ∧
  (ns_mount (cf_namespaces config) = true → p_private p = true) ∧
  (∀ m, mounts = Some m → p_readonly p = true ∧ NoDup (mount_descriptors m) ∧
     p_attached p = [(workspace_mount m, workspace_target m, true); (runtime_mount m, runtime_target m, true)]) ∧
  (∀ identity, cf_identity config = IdIsolated identity →
     Manager.host_uid identity ∉ [0; euid] ∧ Manager.host_gid identity ∉ [0; egid] ∧
     p_uid p = Mapped (Manager.runtime_uid identity) ∧ p_gid p = Mapped (Manager.runtime_gid identity) ∧
     Manager.runtime_uid identity ≠ 0 ∧ Manager.runtime_gid identity ≠ 0 ∧
     p_groups p = false ∧ p_securebits p = SECUREBITS ∧ p_caps p = Some 0 ∧
     ∃ ready installed t, barrier_fds own = Some (ready, installed) ∧
       read_byte_at t installed = Ok (Some Records.MAP_INSTALLED)) ∧
  (ChildSafety.closing_passes setup s →
     (∀ fd e, 0 <= fd <= u32_max → p_fds p !! fd = Some e → fd < 3 ∨ fd ∈ cf_inherited_fds config) ∧
     (∀ fd e, fd ∈ cf_inherited_fds config → p_fds (c_proc s) !! fd = Some e →
        p_fds p !! fd = Some (MkFd (fe_file e) false))).
Proof.
  intros [Hinh Hvid]%validate_Ok Hbuild Hown Hatt Hrun.
  pose proof (build_Ok _ _ _ _ _ _ _ _ _ _ Hbuild) as (Hid & Hmounts & Hsetup). cbn zeta in Hid, Hmounts, Hsetup.
  assert (Hfields : report_guard setup = guard_of (dedup (sort_by Z.leb (cf_inherited_fds config))) (reserved_fds own) mounts ∧
    inherited_fds setup = dedup (sort_by Z.leb (cf_inherited_fds config)) ∧ drop_capabilities_flag setup = true ∧
    cs_retain_mask setup = retained_mask (cf_capabilities config) ∧ cs_landlock setup = landlock ∧
    cs_seccomp setup = seccomp ∧ cs_mounts setup = mounts ∧ make_mounts_private setup = ns_mount (cf_namespaces config) ∧
    exec_call setup = Execve (program command) (default (program command) (argv0 command) :: args command)
        ((fun '(name, value) => name +:+ "=" +:+ value)%stdpp <$> env command)) by (rewrite Hsetup; by split_and!).
  clear Hsetup. destruct Hfields as (Hg & Hi & Hflag & Hmask & Hll & Hsc & Hmnt & Hpriv & Hexec).
  assert (Helem : ∀ fd, fd ∈ inherited_fds setup ↔ fd ∈ cf_inherited_fds config)
    by (intros fd; by rewrite Hi, elem_dedup_fds, elem_sort_by).
  assert (Hrange : 3 <= report_guard setup <= i32_max).
  { rewrite Hg. apply guard_range, Forall_forall. intros fd Hfd. rewrite <-Hi, Helem in Hfd.
    rewrite Forall_forall in Hown. by apply Hown. }
  destruct (ChildSafety.user_code_starts_confined setup s s') as (Hnnp & Hcaps & Hlandlock & Hseccomp & Hprivate & Hatts & Hident & Hfds);
    [done|lia|done|done|].
  cbn zeta. rewrite Hmask in Hcaps. rewrite Hll in Hlandlock. rewrite Hsc in Hseccomp. rewrite Hpriv in Hprivate.
  split_and!; try done.
  - rewrite <-Hexec. by apply execed_calls.
  - intros m ->. destruct (Hatts m Hmnt). split_and!; try done. by eapply check_mounts_distinct.
  - intros identity Hiso. destruct (isolated_identity _ _ _ _ Hid Hiso) as (Hu & Hgid & ready & installed & Hbar & Hcs).
    destruct (validate_isolated _ _ Hvid Hiso) as (? & ? & ? & ? & ? & Hzero).
    destruct (Hident _ _ _ _ Hcs) as (? & ? & ? & ? & t & Ht).
    split_and!; try done; [by rewrite !elem_of_cons, elem_of_nil; naive_solver..|by rewrite Hcaps, Hzero|].
    by exists ready, installed, t.
  - intros Hpass.
    destruct (ChildSafety.promised_descriptors_arrive setup s s') as [Harrive _]; [lia|unfold i32_max, u32_max in *; lia|done|done|].
    split.
    { intros fd e Hfd He. destruct (Hfds Hpass fd e Hfd He) as [_ [?|[Hin _]]]; [by left|right]. by apply Helem. }
    intros fd e Hin He. rewrite Forall_forall in Hinh, Hown. destruct (Hown fd Hin) as [_ Hres].
    apply Harrive; [by apply Helem| | |done].
    + split; [by apply Hinh|]. rewrite Hg. apply guard_above; [by apply dedup_sorted, sort_sorted|].
      by rewrite elem_dedup_fds, elem_sort_by.
    + intros Hgiven. by eapply Hres, given_up_reserved.
Qed.
End launch.

(** ** An isolated launch *)

#[local] Instance launcher_host : Host :=
  {| euid := 1000; egid := 1000; pid := 77; data_root := "/data"; io_display := fun _ => "error" |}.
#[local] Existing Instance ChildSafety.willing.
#[local] Instance sample_kernel : EngineKernel := {|
  engine_realpath_at := fun _ p => Ok p; fd_open_at := fun _ _ => true; known_syscall := fun _ => true |}.
#[local] Instance ascii_tables : UnicodeTables := {| printable := fun v => v <? 128 |}.

Definition sample_config : SandboxConfig :=
  {| cf_filesystem := FsUnrestricted; cf_network := NetUnrestricted;
     cf_resources := MkLimits Inherit Inherit Inherit Inherit; cf_syscalls := SysUnrestricted;
     cf_namespaces := MkNamespaces false true false false NsHost;
     cf_identity := IdIsolated (Manager.MkIdentity 1000 1000 100001 100002); cf_capabilities := DropAll;
     cf_inherited_fds := [7; 5]; cf_cgroup_parent := None |}.

Definition sample_command : CommandSpec :=
  MkCommand "/bin/sh" ["-l"] (Some "-sh") [("HOME", "/work")] (Some "/work") StdioNull StdioPipe StdioPipe NewSession.

Definition sample_own : reserved := MkReserved (Some (14, 15)) None None None None.

Definition sample_build : result SandboxError ChildSetup :=
  build_child_setup (fun _ => true) sample_command sample_config sample_own (10, 11, 12) 13
    (Some (MkMounts 3 4 6 8)) (Some 9) (Some 40%nat).

Lemma sample_built : ∃ setup, sample_build = Ok setup.
Proof. eexists. vm_compute. reflexivity. Qed.

Lemma sample_runs setup : sample_build = Ok setup → ∃ s', child_entry setup (ChildSafety.fresh_child (seqZ 0 16)) = (Err Execed, s').
Proof. vm_compute sample_build. intros [= <-]. eexists. vm_compute. reflexivity. Qed.

Lemma programs_start_as_configured_witness :
  ∃ setup s', sample_build = Ok setup ∧
    child_entry setup (ChildSafety.fresh_child (seqZ 0 16)) = (Err Execed, s') ∧
    p_uid (c_proc s') = Mapped 1000 ∧ p_caps (c_proc s') = Some 0 ∧
    p_fds (c_proc s') !! 7 = Some (MkFd 107 false).
Proof.
  destruct sample_built as [setup Hb]. destruct (sample_runs setup Hb) as [s' Hr]. exists setup, s'.
  assert (Hv : ∃ n, validate sample_config sample_command 0%nat = (Ok tt, n)) by (eexists; vm_compute; reflexivity).
  destruct Hv as [n Hv].
  assert (Hinh : Forall (fun fd => fd < i32_max ∧ fd ∉ reserved_fds sample_own) (cf_inherited_fds sample_config))
    by (repeat apply Forall_cons_2; [split; [by vm_compute|by apply (bool_decide_unpack _)]..|constructor]).
  destruct (programs_start_as_configured _ _ _ _ _ _ _ _ _ _ _ _ (ChildSafety.fresh_child (seqZ 0 16)) s' Hv Hb Hinh eq_refl Hr)
    as (_ & _ & Hcaps & _ & _ & _ & _ & Hid & Hfds).
  destruct Hfds as [_ Hfds]; [by right|].
  destruct (Hid _ eq_refl) as (_ & _ & Hu & _). split_and!; [done|done|exact Hu|exact Hcaps|].
  apply (Hfds 7 (MkFd 107 true)); [by left|by vm_compute].
Defined.

End LaunchSetup.
