(* ===== verification/LinuxSpawn.v ===== *)
(** * Launching and owning a child ([shbox-sandbox]: linux/mod.rs)

    The launcher's side of a launch: the standard streams, the identity-map handshake
    with the blocked child, the clone with everything prepared before it and confirmed
    after it, and the handle of the running child.  The kernel's answers are given by
    time ([SpawnKernel]); the state records the launcher's open descriptors and what it
    did, in order.  An owned descriptor is closed when its owner goes out of scope, on an
    early return too. *)

From S2P Require Import Prelude Text Toml FileSystem RuntimeLedger Manager BrokerWire EnginePolicy.
From S2P Require Import ControlGroups ChildRecords ChildSetup SyscallNames SeccompFilter LandlockRules LaunchSetup.

Module Spawn.
Import Engine Records LaunchSetup.

#[global] Instance Limit_eq_dec {A} `{EqDecision A} : EqDecision (Limit A).
Proof. solve_decision. Defined.
#[global] Instance CpuMax_eq_dec : EqDecision CpuMax.
Proof. solve_decision. Defined.
#[global] Instance ResourceLimits_eq_dec : EqDecision ResourceLimits.
Proof. solve_decision. Defined.

Abbreviation MountSetup := Child.MountSetup.
Abbreviation cleanup_on_error := Cgroups.cleanup_on_error.

(** What the launcher does to other processes, and when it waits for the child. *)
Inductive event :=
| Cloned (flags : Z) (cgroup : option Z) (pid pidfd : Z)
| Helper (name : string) (args : list string)
| AwaitedReady (open : gset Z)
| Released
| AwaitedStatus (open : gset Z)
| SentKill (pidfd : Z) (answer : result io_error unit)
| ReapedChild (pidfd : Z) (answer : result io_error unit)
| DroppedCgroup (cgroup : Z).

Record launcher := MkLauncher { l_clock : nat; l_open : gset Z; l_log : list event }.

Class SpawnKernel := {
  (** New descriptors, given those that are open. *)
  pipe_at : nat → gset Z → result io_error (Z * Z);
  socketpair_at : nat → gset Z → result io_error (Z * Z);
  pidfd_open_at : nat → gset Z → result io_error Z;
  devnull_at : nat → gset Z → result io_error Z;
  (** [/proc/self/fd] says that the descriptor is [/dev/null]; [F_GETFD] succeeds. *)
  is_devnull_at : nat → Z → bool;
  fd_valid_at : nat → Z → bool;
  (** The child's process and its descriptor, or an error number. *)
  clone3_at : nat → gset Z → Z → option Z → result Z (Z * Z);
  (** One byte of a pipe, nothing at its end; and writing one. *)
  barrier_byte_at : nat → Z → result Z (option Z);
  release_at : nat → Z → result Z nat;
  (** Opening the child's directory of [/proc], and opening and reading a file of it. *)
  proc_dir_at : nat → gset Z → Z → result Z Z;
  proc_open_at : nat → gset Z → Z → string → result Z Z;
  proc_read_at : nat → Z → string → result Z string;
  (** Sending [SIGKILL] through a pidfd, and waiting until the process is gone. *)
  kill_child_at : nat → Z → result io_error unit;
  reap_child_at : nat → Z → result io_error unit;
  (** The reads of the status pipe, and what it holds. *)
  status_at : nat → Z → list turn * list Z;
  status_ends : ∀ `{Host} t fd, is_Some (read_child_failure (status_at t fd).1 (status_at t fd).2) }.

Notation P := (M launcher).

(** ** Steps *)

Definition drop_fds {E} (fds : list Z) : P E unit := fun s =>
  (Ok tt, MkLauncher (l_clock s) (l_open s ∖ list_to_set fds) (l_log s)).

Definition log {E} (e : event) : P E unit := fun s => (Ok tt, MkLauncher (S (l_clock s)) (l_open s) (l_log s ++ [e])).

Definition log_of {E} (e : nat → event) : P E unit := fun s => log (e (l_clock s)) s.

Definition ask {E A} (f : nat → A) : P E A := fun s =>
  (Ok (f (l_clock s)), MkLauncher (S (l_clock s)) (l_open s) (l_log s)).

(** A call that makes descriptors. *)
Definition acquire {A E'} (f : nat → gset Z → result E' A) (fds : A → list Z) : P E' A := fun s =>
  match f (l_clock s) (l_open s) with
  | Ok a => (Ok a, MkLauncher (S (l_clock s)) (l_open s ∪ list_to_set (fds a)) (l_log s))
  | Err e => (Err e, MkLauncher (S (l_clock s)) (l_open s) (l_log s))
  end.

(** [m] with the given descriptors owned by a local of the caller: an error drops them. *)
Definition own {A} (fds : list Z) (m : P SandboxError A) : P SandboxError A :=
  cleanup_on_error (drop_fds fds : P SandboxError unit) m.

(** A computation that only takes time. *)
Definition timed {E A} (m : M nat E A) : P E A := fun s =>
  let '(r, now) := m (l_clock s) in (r, MkLauncher now (l_open s) (l_log s)).

Section launch.
Context `{Host} `{UnicodeTables} `{SpawnKernel}.

Notation L := (P SandboxError).

Definition make_pipe : L (Z * Z) := mapE EngineIo (acquire pipe_at (fun p => [p.1; p.2])).
Definition make_socketpair : L (Z * Z) := mapE EngineIo (acquire socketpair_at (fun p => [p.1; p.2])).

(** ** Standard streams *)

Record StdioFds := MkStdio { owned : list Z; parent_ends : list (option Z); sources : list Z }.

Definition stdio_fds (s : StdioFds) : list Z := owned s ++ concat (option_list <$> parent_ends s).

Fixpoint find_devnull (fds : list Z) : L (option Z) :=
  match fds with
  | [] => mret None
  | fd :: rest => null ← ask (fun now => is_devnull_at now fd); if (null : bool) then mret (Some fd) else find_devnull rest
  end.

(** The end of a pipe for the child, and the launcher's. *)
Definition pipe_end (index : nat) : L (Z * Z) :=
  '(read_end, write_end) ← make_pipe;
  mret (if (index =? 0)%nat then (read_end, write_end) else (write_end, read_end)).

(** One stream.  A [/dev/null] that cannot be told to be one is a failed assertion. *)
Definition create_stream (index : nat) (spec : Stdio) (acc : StdioFds) : L StdioFds :=
  match spec with
  | StdioNull =>
      known ← find_devnull (owned acc);
      owned' ← match known with
               | Some _ => mret (owned acc)
               | None => fd ← mapE EngineIo (acquire devnull_at (fun fd => [fd])); mret (owned acc ++ [fd])
               end;
      own owned' (
        found ← find_devnull owned';
        match found with
        | Some fd => mret (MkStdio owned' (parent_ends acc ++ [None]) (sources acc ++ [fd]))
        | None => fail (Internal "devnull just opened")
        end)
  | StdioFd fd => mret (MkStdio (owned acc) (parent_ends acc ++ [None]) (sources acc ++ [fd]))
  | StdioPipe =>
      '(child_end, parent_end) ← pipe_end index;
      mret (MkStdio (owned acc ++ [child_end]) (parent_ends acc ++ [Some parent_end]) (sources acc ++ [child_end]))
  end.

Fixpoint create_streams (index : nat) (specs : list Stdio) (acc : StdioFds) : L StdioFds :=
  match specs with
  | [] => mret acc
  | spec :: rest =>
      next ← own (stdio_fds acc) (create_stream index spec acc);
      create_streams (S index) rest next
  end.

Definition create_stdio (command : CommandSpec) : L StdioFds :=
  create_streams 0 [stdin command; stdout command; stderr command] (MkStdio [] [] []).

(** ** The identity-map handshake *)

Definition EPIPE : Z := 32.
Definition EPROTO : Z := 71.

Definition barrier_error (detail : Z) (errno : option Z) : SandboxError := Setup MapBarrier detail errno.

(** At most 256 bytes of a file of the child's [/proc] directory. *)
Definition read_proc_entry (child_pid : Z) (name : string) : L string :=
  fd ← mapE (fun errno => barrier_error 20 (Some errno))
         (acquire (fun now open => proc_open_at now open child_pid name) (fun fd => [fd]));
  bytes ← ask (fun now => proc_read_at now child_pid name);
  _ ← drop_fds [fd];
  match bytes with
  | Err errno => fail (barrier_error 21 (Some errno))
  | Ok text => mret (str_take 256 text)
  end.

Definition expect_map_entry (child_pid : Z) (name : string) (inside outside : Z) : L unit :=
  text ← read_proc_entry child_pid name;
  if bool_decide (split_whitespace (from_utf8_lossy text) = [fmt_dec inside; fmt_dec outside; "1"]) then mret tt
  else fail (barrier_error 23 None).

Definition expect_proc_entry (child_pid : Z) (name expected : string) : L unit :=
  text ← read_proc_entry child_pid name;
  if bool_decide (text = expected) then mret tt else fail (barrier_error 22 None).

(** What installs the maps: the caller's mapper, given the child and its identity. *)
Definition Mapper := Z → IsolatedIdentity → P io_error unit.

(** Steps 1 and 2: the child's announcement, and its directory. *)
Definition await_ready (child_pid ready_read : Z) : L Z :=
  ready ← ask (fun now => barrier_byte_at now ready_read);
  _ ← match ready with
      | Ok (Some byte) => if byte =? MAP_READY then mret tt else fail (barrier_error 12 (Some EPROTO))
      | Ok None => fail (barrier_error 10 (Some EPIPE))
      | Err errno => fail (barrier_error 11 (Some errno))
      end;
  mapE (fun errno => barrier_error 13 (Some errno))
    (acquire (fun now open => proc_dir_at now open child_pid) (fun fd => [fd])).

(** Step 4: the maps read back. *)
Definition verify_maps (child_pid : Z) (identity : IsolatedIdentity) : L unit :=
  _ ← expect_map_entry child_pid "uid_map" (Manager.runtime_uid identity) (Manager.host_uid identity);
  _ ← expect_map_entry child_pid "gid_map" (Manager.runtime_gid identity) (Manager.host_gid identity);
  expect_proc_entry child_pid "setgroups" ("allow" +:+ String newline EmptyString).

(** Step 5.  A write that took nothing set no error number. *)
Definition release_child (installed_write : Z) : L unit :=
  written ← ask (fun now => release_at now installed_write);
  match written with
  | Ok (S _) => log Released
  | Ok O => fail (barrier_error 14 (Some 0))
  | Err errno => fail (barrier_error 14 (Some errno))
  end.

Definition install_isolated_maps (mapper : Mapper) (child_pid : Z) (identity : IsolatedIdentity)
    (ready_read installed_write : Z) : L unit :=
  _ ← (fun s => log (AwaitedReady (l_open s)) s);
  proc_dir ← await_ready child_pid ready_read;
  own [proc_dir] (
    _ ← mapE EngineIo (mapper child_pid identity);
    _ ← verify_maps child_pid identity;
    _ ← release_child installed_write;
    drop_fds [proc_dir]).

(** ** The launch *)

(** Both results are ignored; the log keeps them. *)
Definition kill_and_reap (pidfd : Z) : L unit :=
  _ ← log_of (fun now => SentKill pidfd (kill_child_at now pidfd));
  log_of (fun now => ReapedChild pidfd (reap_child_at now pidfd)).

(** The pipes of the mapping barrier: ready (read, write), installed (read, write). *)
Record Barrier := MkBarrier
  { b_identity : IsolatedIdentity; b_mapper : Mapper; ready_read : Z; ready_write : Z; installed_read : Z;
    installed_write : Z }.

Definition barrier_pipes (b : option Barrier) : list Z :=
  match b with Some b => [ready_read b; ready_write b; installed_read b; installed_write b] | None => [] end.

Definition isolated_launch (config : SandboxConfig) (mapper : option Mapper) : L (option Barrier) :=
  match cf_identity config with
  | IdIsolated identity =>
      mapper ← liftR (ok_or (Unsupported "identity"
        "isolated identity requires a parent mapping helper (UidGidMapper) which was not configured") mapper);
      '(r_read, r_write) ← make_pipe;
      '(i_read, i_write) ← own [r_read; r_write] make_pipe;
      mret (Some (MkBarrier identity mapper r_read r_write i_read i_write))
  | _ => mret None
  end.

(** Child and parent ends of the control socket, read and write ends of the exit pipe. *)
Definition supervisor_channels (config : SandboxConfig) : L (option (Z * Z * Z * Z)) :=
  if ns_pid (cf_namespaces config) then
    '(child, parent) ← make_socketpair;
    '(read, write) ← own [child; parent] make_pipe;
    mret (Some (child, parent, read, write))
  else mret None.

Definition channel_fds (c : option (Z * Z * Z * Z)) : list Z :=
  match c with Some (child, parent, read, write) => [child; parent; read; write] | None => [] end.

Definition open_parent_pidfd (config : SandboxConfig) : L (option Z) :=
  if ns_pid (cf_namespaces config) then
    fd ← mapE (fun error => Unsupported "pidfd" ("parent-liveness pidfd_open failed: " +:+ io_display error))
           (acquire pidfd_open_at (fun fd => [fd]));
    mret (Some fd)
  else mret None.

Record LinuxChild := MkLinuxChild
  { lc_pid : Z; lc_pidfd : Z; lc_cgroup : option Z; lc_status : option ExitStatus; torn_down : bool;
    owns_process_group : bool; pid_namespace_init : bool; supervisor_control : option Z; supervisor_exit : option Z }.

Definition EINVAL : Z := 22.
Definition EPERM : Z := 1.

(** The error of a clone that failed. *)
Definition clone_error (flags errno : Z) : SandboxError :=
  let feature :=
    if (errno =? EINVAL) && negb (Z.land flags CLONE_INTO_CGROUP =? 0) then "clone3-into-cgroup"
    else if errno =? EPERM then "namespace" else "clone3" in
  Unsupported feature
    ("clone3 with flags 0x" +:+ fmt_hex flags +:+ " failed: " +:+ io_display (Errno errno)
       +:+ " (CLONE_PIDFD needs kernel 5.3+, CLONE_INTO_CGROUP 5.7+)").

(** The handshake, when there is one: the launcher's copies of the child's ends go first. *)
Definition run_handshake (barrier : option Barrier) (child pidfd : Z) : L unit :=
  match barrier with
  | None => mret tt
  | Some b =>
      _ ← drop_fds [ready_write b; installed_read b];
      handshake ← tryM (install_isolated_maps (b_mapper b) child (b_identity b) (ready_read b) (installed_write b));
      _ ← drop_fds [ready_read b; installed_write b];
      match handshake with
      | Ok _ => mret tt
      | Err error => _ ← kill_and_reap pidfd; fail error
      end
  end.

(** The end of the status pipe means that the exec happened; anything else ends the
    child. *)
Definition confirm_setup (status_read pidfd : Z) : L unit :=
  outcome ← (fun s =>
    let '(turns, data) := status_at (l_clock s) status_read in
    (Ok (default Clean (read_child_failure turns data)),
     MkLauncher (S (l_clock s)) (l_open s) (l_log s ++ [AwaitedStatus (l_open s)])));
  _ ← drop_fds [status_read];
  match outcome with
  | Clean => mret tt
  | FailedStage failure =>
      _ ← kill_and_reap pidfd; fail (Setup (f_stage failure) (f_detail failure) (f_errno failure))
  | Corrupt message => _ ← kill_and_reap pidfd; fail (Internal message)
  end.

Definition clone_flags (config : SandboxConfig) (cgroup : option Z) : Z * option Z :=
  let flags := Z.lor CLONE_PIDFD (namespace_flags config) in
  if negb (ns_pid (cf_namespaces config)) then
    match cgroup with Some fd => (Z.lor flags CLONE_INTO_CGROUP, Some fd) | None => (flags, None) end
  else (flags, None).

Definition mount_fds (mounts : option MountSetup) : list Z :=
  match mounts with Some m => Child.mount_descriptors m | None => [] end.

(** From the clone on. *)
Definition clone_and_confirm (command : CommandSpec) (config : SandboxConfig) (cgroup : option Z)
    (mounts : option MountSetup) (stdio : StdioFds) (status_read status_write : Z) (barrier : option Barrier)
    (channels : option (Z * Z * Z * Z)) (parent_pidfd : option Z) : L (LinuxChild * list (option Z)) :=
  let '(flags, into) := clone_flags config cgroup in
  '(child, pidfd) ← mapE (clone_error flags) (acquire (fun now open => clone3_at now open flags into) (fun c => [c.2]));
  _ ← log (Cloned flags into child pidfd);
  own [pidfd] (
    _ ← drop_fds (option_list parent_pidfd ++ [status_write]
                  ++ match channels with Some (c, _, _, w) => [c; w] | None => [] end
                  ++ mount_fds mounts ++ owned stdio);
    _ ← run_handshake barrier child pidfd;
    _ ← confirm_setup status_read pidfd;
    mret (MkLinuxChild child pidfd cgroup None false
            (match session command with SessionInherit => false | _ => true end) (ns_pid (cf_namespaces config))
            ((fun '(_, parent, _, _) => parent) <$> channels) ((fun '(_, _, read, _) => read) <$> channels),
          parent_ends stdio)).

(** Everything before the clone; the descriptor of the rule set belongs to the set-up and
    goes with it. *)
Definition spawn_with_cgroup_on_owner `{Landlock.LandlockApi} `{SeccompFilter.Seccompiler} (target : SyscallNames.target_arch) (landlock_abi : option Z)
    (mapper : option Mapper) (command : CommandSpec) (config : SandboxConfig) (cgroup : option Z)
    (mounts : option MountSetup) : L (Child.ChildSetup * (LinuxChild * list (option Z))) :=
  cleanup_on_error (match cgroup with Some fd => log (DroppedCgroup fd) | None => mret tt end : L unit) (
  own (mount_fds mounts) (
  landlock ← timed (Landlock.prepare (cf_filesystem config) (cf_network config) (default 0 landlock_abi));
  seccomp ← liftR (SeccompFilter.compile target (cf_syscalls config));
  stdio ← create_stdio command;
  own (stdio_fds stdio) (
  '(status_read, status_write) ← make_pipe;
  own [status_read; status_write] (
  barrier ← isolated_launch config mapper;
  own (barrier_pipes barrier) (
  channels ← supervisor_channels config;
  own (channel_fds channels) (
  parent_pidfd ← open_parent_pidfd config;
  own (option_list parent_pidfd) (
  now ← (fun s => (Ok (l_clock s), s) : _ * _);
  setup ← liftR (build_child_setup (fd_valid_at now) command config
    {| barrier_fds := (fun b => (ready_write b, installed_read b)) <$> barrier;
       r_parent_pidfd := parent_pidfd;
       r_control_fd := (fun '(child, _, _, _) => child) <$> channels;
       r_exit_fd := (fun '(_, _, _, write) => write) <$> channels;
       r_cgroup_fd := if ns_pid (cf_namespaces config) then cgroup else None |}
    (nth 0 (sources stdio) 0, nth 1 (sources stdio) 0, nth 2 (sources stdio) 0) status_write mounts
    (Landlock.ruleset_fd <$> landlock) ((fun p => Z.to_nat (SeccompFilter.program_len p)) <$> seccomp));
  launched ← clone_and_confirm command config cgroup mounts stdio status_read status_write barrier channels parent_pidfd;
  mret (setup, launched)))))))).

(** A launch in a process domain, with the descriptor of its group: only for the limits
    of that domain. *)
Definition spawn_in_process_domain `{Landlock.LandlockApi} `{SeccompFilter.Seccompiler} (target : SyscallNames.target_arch)
    (landlock_abi : option Z) (mapper : option Mapper) (command : CommandSpec) (config : SandboxConfig)
    (domain : Cgroups.ProcessDomain) (clone_fd : Z) (mounts : option MountSetup)
    : L (Child.ChildSetup * (LinuxChild * list (option Z))) :=
  if bool_decide (cf_resources config ≠ Cgroups.pd_resources domain)
  then fail (InvalidPolicy "resources" "spawn resource limits do not match the resource domain")
  else spawn_with_cgroup_on_owner target landlock_abi mapper command config (Some clone_fd) mounts.

(** ** The mapper of shadow-utils *)

Record MapHelpers := MkHelpers { uid_helper : string; gid_helper : string }.

Definition default_helpers : MapHelpers := MkHelpers "newuidmap" "newgidmap".

Class HelperKernel := {
  (** Duplicating the descriptor of the child's directory, without close-on-exec. *)
  duplicate_at : nat → gset Z → result io_error Z;
  duplicate_fresh : ∀ t open fd, duplicate_at t open = Ok fd → fd ∉ open;
  (** Running a helper: whether it succeeded, its status as text, what it wrote. *)
  helper_at : nat → string → list string → result io_error (bool * string * string) }.

Definition run_helper `{HelperKernel} (helper : string) (inside outside : Z) : P io_error unit :=
  fd ← acquire duplicate_at (fun fd => [fd]);
  let args := ["fd:" +:+ fmt_dec fd; fmt_dec inside; fmt_dec outside; "1"] in
  _ ← log (Helper helper args);
  output ← ask (fun now => helper_at now helper args);
  _ ← drop_fds [fd];
  '(success, status, written) ← liftR output;
  if (success : bool) then mret tt
  else
    let detail := trim (from_utf8_lossy written) in
    fail (IoOther (from_utf8_lossy helper +:+ " failed with status " +:+ status
                     +:+ (if bool_decide (detail = "") then "" else ": " +:+ detail))).

Definition install `{HelperKernel} (helpers : MapHelpers) : Mapper := fun _ identity =>
  _ ← run_helper (uid_helper helpers) (Manager.runtime_uid identity) (Manager.host_uid identity);
  run_helper (gid_helper helpers) (Manager.runtime_gid identity) (Manager.host_gid identity).

(** ** The namespace of an ID-mapped mount *)

Class NamespaceKernel := { open_userns_at : nat → gset Z → Z → result Z Z }.

(** A child that only holds the namespace; it is gone when this returns, whatever
    happened. *)
Definition create_mount_idmap_user_namespace `{NamespaceKernel} (mapper : Mapper) (identity : IsolatedIdentity) : L Z :=
  '(r_read, r_write) ← make_pipe;
  own [r_read; r_write] (
  '(i_read, i_write) ← make_pipe;
  own [i_read; i_write] (
  let flags := Z.lor CLONE_PIDFD CLONE_NEWUSER in
  '(child, pidfd) ← mapE (fun errno => Unsupported "user-namespace"
                      ("auxiliary mount ID-map namespace clone3 failed: " +:+ io_display (Errno errno)))
                    (acquire (fun now open => clone3_at now open flags None) (fun c => [c.2]));
  _ ← log (Cloned flags None child pidfd);
  _ ← drop_fds [r_write; i_read];
  result ← tryM (
    _ ← install_isolated_maps mapper child identity r_read i_write;
    mapE (fun errno => barrier_error 15 (Some errno)) (acquire (fun now open => open_userns_at now open child) (fun fd => [fd])));
  _ ← drop_fds [r_read; i_write];
  _ ← kill_and_reap pidfd;
  _ ← drop_fds [pidfd];
  liftR result)).

(** The identity of the mount's namespace: the launcher's own IDs inside. *)
Definition backend_idmap_namespace `{NamespaceKernel} (mapper : option Mapper) (identity : IsolatedIdentity) : L Z :=
  mapper ← liftR (ok_or (Unsupported "identity"
    "isolated identity requires a parent mapping helper for the mount map namespace") mapper);
  create_mount_idmap_user_namespace mapper
    (Manager.MkIdentity euid egid (Manager.host_uid identity) (Manager.host_gid identity)).
End launch.
End Spawn.
