(* ===== verification/LinuxSpawnSafety.v ===== *)
(** * Launches are verified, confirmed and cleaned up ([shbox-sandbox]: linux/mod.rs)

    The handshake releases the child only under the identity that was asked for; a launch
    that succeeds was confirmed by the child; a launch that fails leaves neither process
    nor descriptor. *)

From S2P Require Import Prelude Text Toml FileSystem RuntimeLedger Manager EnginePolicy.
From S2P Require Import ControlGroups ChildRecords ChildSetup SyscallNames SeccompFilter LandlockRules LaunchSetup LinuxSpawn.

Module SpawnSafety.
Import Engine Records LaunchSetup Spawn.

(** New descriptors were not open. *)
Class SpawnLaws `{SpawnKernel} := {
  pipe_fresh : ∀ t open a b, pipe_at t open = Ok (a, b) → a ∉ open ∧ b ∉ open ∧ a ≠ b;
  socketpair_fresh : ∀ t open a b, socketpair_at t open = Ok (a, b) → a ∉ open ∧ b ∉ open ∧ a ≠ b;
  pidfd_fresh : ∀ t open a, pidfd_open_at t open = Ok a → a ∉ open;
  devnull_fresh : ∀ t open a, devnull_at t open = Ok a → a ∉ open;
  proc_dir_fresh : ∀ t open child a, proc_dir_at t open child = Ok a → a ∉ open;
  proc_open_fresh : ∀ t open child name a, proc_open_at t open child name = Ok a → a ∉ open;
  clone_fresh : ∀ t open flags into c, clone3_at t open flags into = Ok c → c.2 ∉ open }.

Definition is_helper (e : event) : Prop := match e with Helper _ _ => True | _ => False end.

(** A mapper runs helpers and gives back what descriptors it used. *)
Definition quiet_mapper (mapper : Mapper) : Prop := ∀ child identity s,
  let s' := (mapper child identity s).2 in
  l_open s' = l_open s ∧ ∃ l, l_log s' = l_log s ++ l ∧ Forall is_helper l.

(** A descriptor that was opened and closed again. *)
Lemma opened_closed (open : gset Z) fd : fd ∉ open → (open ∪ list_to_set [fd]) ∖ list_to_set [fd] = open.
Proof. set_solver. Qed.

Section handshake.
Context `{Host} `{UnicodeTables} `{SpawnLaws}.

(** A step that changes neither descriptors nor log. *)
Definition still {E A} (m : M launcher E A) : Prop := ∀ s, l_open (m s).2 = l_open s ∧ l_log (m s).2 = l_log s.

Lemma still_ret {E A} (a : A) : still (mret a : M launcher E A).
Proof. by intros s. Qed.
Lemma still_fail {E A} (e : E) : still (fail e : M launcher E A).
Proof. by intros s. Qed.
Lemma still_liftR {E A} (r : result E A) : still (liftR r : M launcher E A).
Proof. by intros s. Qed.
Lemma still_ask {E A} (f : nat → A) : still (ask f : M launcher E A).
Proof. by intros s. Qed.
Lemma still_bind {E A B} (m : M launcher E A) (f : A → M launcher E B) : still m → (∀ a, still (f a)) → still (a ← m; f a).
Proof.
  intros Hm Hf s. unfold mbind, M_bind. specialize (Hm s). destruct (m s) as [[a|e] s1]; cbn in *; [|done].
  destruct (Hf a s1), Hm. split; congruence.
Qed.

(** Reading a file of the child takes two calls, the second of which reads, and leaves the
    descriptors as they were. *)
Lemma read_proc_run child name s r s' :
  read_proc_entry child name s = (r, s') → l_open s' = l_open s ∧ l_log s' = l_log s ∧
  ∀ text, r = Ok text → l_clock s' = (l_clock s + 2)%nat ∧
    ∃ bytes, proc_read_at (S (l_clock s)) child name = Ok bytes ∧ text = str_take 256 bytes.
Proof.
  unfold read_proc_entry, mapE, acquire, ask, drop_fds, mbind, M_bind. cbn.
  destruct (proc_open_at _ _ _ _) as [fd|] eqn:Hp; cbn; [|by intros [= <- <-]].
  apply proc_open_fresh, opened_closed in Hp. cbn in Hp. destruct (proc_read_at _ _ _) as [bytes|]; cbn; intros [= <- <-]; cbn [l_open l_log l_clock];
    rewrite Hp; (split_and!; [done|done|]); intros text Ht; [|done].
  injection Ht as <-. split; [lia|by eexists].
Qed.

(** The file said exactly this mapping at time [t]. *)
Definition map_says (t : nat) (child : Z) (name : string) (inside outside : Z) : Prop :=
  ∃ bytes, proc_read_at t child name = Ok bytes ∧
    split_whitespace (from_utf8_lossy (str_take 256 bytes)) = [fmt_dec inside; fmt_dec outside; "1"].

Definition setgroups_allowed (t : nat) (child : Z) : Prop :=
  ∃ bytes, proc_read_at t child "setgroups" = Ok bytes ∧
    str_take 256 bytes = ("allow" +:+ String newline EmptyString)%stdpp.

Lemma expect_map_run child name inside outside s r s' :
  expect_map_entry child name inside outside s = (r, s') → l_open s' = l_open s ∧ l_log s' = l_log s ∧
  (r = Ok tt → l_clock s' = (l_clock s + 2)%nat ∧ map_says (S (l_clock s)) child name inside outside).
Proof.
  unfold expect_map_entry. intros Hr.
  apply bind_inv in Hr as [(text & s1 & (Ho & Hl & Ht)%read_proc_run & Hr)|(e & (Ho & Hl & _)%read_proc_run & ->)]; [|done].
  destruct (Ht text eq_refl) as (Hc & bytes & Hb & ->).
  case_bool_decide; injection Hr as <- <-; (split_and!; [done|done|]); intros ?; [|done]. split; [done|by exists bytes].
Qed.

Lemma setgroups_run child s r s' :
  expect_proc_entry child "setgroups" ("allow" +:+ String newline EmptyString)%stdpp s = (r, s') →
  l_open s' = l_open s ∧ l_log s' = l_log s ∧
  (r = Ok tt → l_clock s' = (l_clock s + 2)%nat ∧ setgroups_allowed (S (l_clock s)) child).
Proof.
  unfold expect_proc_entry. intros Hr.
  apply bind_inv in Hr as [(text & s1 & (Ho & Hl & Ht)%read_proc_run & Hr)|(e & (Ho & Hl & _)%read_proc_run & ->)]; [|done].
  destruct (Ht text eq_refl) as (Hc & bytes & Hb & ->).
  case_bool_decide; injection Hr as <- <-; (split_and!; [done|done|]); intros ?; [|done]. split; [done|by exists bytes].
Qed.

(** The maps of the child are read back between the moments [from] and [to]. *)
Definition read_back (child : Z) (identity : IsolatedIdentity) (from to : nat) : Prop :=
  ∃ u g a, (from <= u < g)%nat ∧ (g < a < to)%nat ∧
    map_says u child "uid_map" (Manager.runtime_uid identity) (Manager.host_uid identity) ∧
    map_says g child "gid_map" (Manager.runtime_gid identity) (Manager.host_gid identity) ∧
    setgroups_allowed a child.

Lemma verify_run child identity s r s' :
  verify_maps child identity s = (r, s') → l_open s' = l_open s ∧ l_log s' = l_log s ∧
  (r = Ok tt → read_back child identity (l_clock s) (l_clock s')).
Proof.
  unfold verify_maps. intros Hr.
  apply bind_inv in Hr as [([] & s1 & (Ho1 & Hl1 & H1')%expect_map_run & Hr)|(e & (Ho1 & Hl1 & _)%expect_map_run & ->)]; [|done].
  apply bind_inv in Hr as [([] & s2 & (Ho2 & Hl2 & H2')%expect_map_run & Hr)|(e & (Ho2 & Hl2 & _)%expect_map_run & ->)];
    [|split_and!; [congruence|congruence|done]].
  apply setgroups_run in Hr as (Ho3 & Hl3 & H3'). split_and!; [congruence|congruence|]. intros Hok.
  destruct (H1' eq_refl) as [Hc1 Hu], (H2' eq_refl) as [Hc2 Hg], (H3' Hok) as [Hc3 Ha].
  do 3 eexists. split_and!; [| | | |exact Hu|exact Hg|exact Ha]; lia.
Qed.

(** The announcement, in one call, and then the child's directory. *)
Lemma await_run child ready s r s' :
  await_ready child ready s = (r, s') → l_log s' = l_log s ∧
  match r with
  | Ok fd => fd ∉ l_open s ∧ l_open s' = l_open s ∪ list_to_set [fd] ∧ (l_clock s < l_clock s')%nat ∧
      barrier_byte_at (l_clock s) ready = Ok (Some MAP_READY)
  | Err _ => l_open s' = l_open s
  end.
Proof.
  unfold await_ready, ask, mapE, acquire, mbind, M_bind. cbn.
  destruct (barrier_byte_at _ _) as [[b|]|] eqn:Hb; cbn; [|by intros [= <- <-]..].
  destruct (Z.eqb_spec b MAP_READY) as [->|]; cbn; [|by intros [= <- <-]].
  destruct (proc_dir_at _ _ _) as [fd|] eqn:Hp; cbn; intros [= <- <-]; cbn; [|done].
  apply proc_dir_fresh in Hp. split_and!; [done|done|done|lia|done].
Qed.

(** Between [from] and [to] the child announced itself, then the mapper ran and succeeded,
    when [before] had been logged, and then the maps were read back. *)
Definition maps_verified (mapper : Mapper) (child : Z) (identity : IsolatedIdentity) (ready : Z) (from : nat)
    (before : list event) (to : nat) : Prop :=
  ∃ announced s1 s2, (from <= announced < l_clock s1)%nat ∧ barrier_byte_at announced ready = Ok (Some MAP_READY) ∧
    l_log s1 = before ∧ mapper child identity s1 = (Ok tt, s2) ∧ read_back child identity (l_clock s2) to.

(** A step that keeps the descriptors, with what it adds to the log. *)
Lemma still_inv {E A} (m : M launcher E A) s r s' : still m → m s = (r, s') → l_open s' = l_open s ∧ l_log s' = l_log s.
Proof. intros Hm Hr. specialize (Hm s). by rewrite Hr in Hm. Qed.

(** The part of the handshake that holds the child's directory. *)
Lemma mapped_run mapper child identity installed fd s r s' :
  quiet_mapper mapper → fd ∉ l_open s →
  own [fd] (_ ← mapE EngineIo (mapper child identity); _ ← verify_maps child identity;
            _ ← release_child installed; drop_fds [fd]) (MkLauncher (l_clock s) (l_open s ∪ list_to_set [fd]) (l_log s)) = (r, s') →
  l_open s' = l_open s ∧ ∃ l, Forall is_helper l ∧
    match r with
    | Ok _ => l_log s' = l_log s ++ l ++ [Released] ∧
        ∃ s1 s2 to n, l_clock s1 = l_clock s ∧ l_log s1 = l_log s ∧ mapper child identity s1 = (Ok tt, s2) ∧
          l_log s2 = l_log s ++ l ∧ read_back child identity (l_clock s2) to ∧
          (to < l_clock s')%nat ∧ release_at to installed = Ok (S n)
    | Err _ => l_log s' = l_log s ++ l
    end.
Proof.
  intros Hq Hfd. set (s1 := MkLauncher _ _ _). unfold own, Cgroups.cleanup_on_error.
  assert (Hd : ∀ O, O = l_open s1 → O ∖ list_to_set [fd] = l_open s) by (intros O ->; by apply opened_closed).
  specialize (Hq child identity s1). destruct (mapper child identity s1) as [rm sm] eqn:Hmap.
  destruct Hq as (Ho & l & Hl & Hhelp). cbn [snd] in Ho, Hl. unfold mbind at 1, M_bind at 1, mapE. rewrite Hmap.
  destruct rm as [[]|e]; cbn [map_err].
  2:{ intros [= <- <-]. cbn. split; [by apply Hd|]. by exists l. }
  unfold mbind at 1, M_bind at 1. destruct (verify_maps child identity sm) as [rv sv] eqn:Hv.
  apply verify_run in Hv as (Hov & Hlv & Hback). assert (Hov' : l_open sv = l_open s1) by congruence.
  assert (Hlv' : l_log sv = l_log s ++ l) by (rewrite Hlv, Hl; done).
  destruct rv as [[]|e]; [|intros [= <- <-]; cbn; split; [by apply Hd|by exists l]].
  unfold release_child, ask, log, drop_fds, mbind, M_bind. cbn.
  destruct (release_at _ _) as [[|n]|] eqn:Hrel; cbn; intros [= <- <-]; cbn; (split; [by apply Hd|]); exists l; (split; [done|]);
    [done| |done].
  split; [by rewrite Hlv', (assoc_L (++))|]. exists s1, sm, (l_clock sv), n. split_and!; try done; [|lia]. by apply Hback.
Qed.

Lemma handshake_run mapper child identity ready installed s r s' :
  quiet_mapper mapper →
  install_isolated_maps mapper child identity ready installed s = (r, s') →
  l_open s' = l_open s ∧ ∃ l, Forall is_helper l ∧
    match r with
    | Ok _ => l_log s' = l_log s ++ AwaitedReady (l_open s) :: l ++ [Released] ∧
        ∃ to n, maps_verified mapper child identity ready (l_clock s) (l_log s ++ [AwaitedReady (l_open s)]) to ∧
          (to < l_clock s')%nat ∧ release_at to installed = Ok (S n)
    | Err _ => l_log s' = l_log s ++ AwaitedReady (l_open s) :: l
    end.
Proof.
  intros Hq Hr. unfold install_isolated_maps, mbind at 1, M_bind at 1, log in Hr. set (s0 := MkLauncher _ _ _) in Hr.
  apply bind_inv in Hr as [(fd & s1 & [Hl1 (Hfd & Ho1 & Hc1 & Hb)]%await_run & Hr)|(e & [Hl1 Ho1]%await_run & ->)].
  2:{ split; [done|]. exists []. by split. }
  set (s1' := MkLauncher (l_clock s1) (l_open s) (l_log s1)).
  replace s1 with (MkLauncher (l_clock s1') (l_open s1' ∪ list_to_set [fd]) (l_log s1')) in Hr
    by (destruct s1; cbn in *; by subst).
  apply mapped_run in Hr as (Ho & l & Hhelp & Hcase); [|done|done]. split; [done|]. exists l. split; [done|].
  assert (Hs1 : l_log s1' = l_log s ++ [AwaitedReady (l_open s)]) by done.
  destruct r as [[]|e]; [|by rewrite Hcase, Hs1, <-app_assoc].
  destruct Hcase as [Hlog (sa & sb & to & n & Hca & Hla & Hmap & _ & Hback & Hto & Hrel)].
  split; [by rewrite Hlog, Hs1, <-app_assoc|]. exists to, n. split_and!; [|done|done].
  exists (l_clock s0), sa, sb. split_and!; [cbn; lia|rewrite Hca; cbn in *; lia|done|congruence|done|done].
Qed.

(** C9: A child leaves the mapping barrier only under the identity it was leased.  Whatever
    the mapper does and the kernel answers, the launcher sends the release at most once,
    as its last step, and only after, in this order, the child announced itself, the mapper
    ran to a success, and the kernel's own files for that child showed exactly one row
    mapping the runtime user to the leased user, exactly one for the group, and that
    clearing groups is allowed; every error leaves the child blocked, and no descriptor
    stays open. *)
Theorem release_only_after_verified_maps mapper child identity ready installed s r s' :
  quiet_mapper mapper →
  install_isolated_maps mapper child identity ready installed s = (r, s') →
  l_open s' = l_open s ∧
  ∃ helpers, Forall is_helper helpers ∧
    l_log s' = l_log s ++ AwaitedReady (l_open s) :: helpers ++ (if is_ok r then [Released] else []) ∧
    (r = Ok tt → ∃ released n, (released < l_clock s')%nat ∧ release_at released installed = Ok (S n) ∧
       maps_verified mapper child identity ready (l_clock s) (l_log s ++ [AwaitedReady (l_open s)]) released).
Proof.
  intros Hq Hr. destruct (handshake_run _ _ _ _ _ _ _ _ Hq Hr) as (Ho & l & Hhelp & Hcase).
  split; [done|]. exists l. split; [done|].
  destruct r as [[]|e]; cbn [is_ok]; [|by rewrite app_nil_r].
  destruct Hcase as (Hlog & to & n & Hv & Hto & Hrel). split; [done|]. intros _. by exists to, n.
Qed.
End handshake.

(** ** Descriptors *)

Section descriptors.
Context `{Host} `{UnicodeTables} `{SpawnLaws}.

(** [m] opens exactly the descriptors [held], which were not open, or nothing. *)
Definition gives {A} (held : A → list Z) (m : M launcher SandboxError A) : Prop := ∀ s,
  match m s with
  | (Ok a, s') => l_open s' = l_open s ∪ list_to_set (held a) ∧ (∀ x, x ∈ held a → x ∉ l_open s) ∧ l_log s' = l_log s ∧ NoDup (held a)
  | (Err _, s') => l_open s' = l_open s ∧ l_log s' = l_log s
  end.

Lemma nodup_pair (a b : Z) : a ≠ b → NoDup [a; b].
Proof. intros Hne. apply NoDup_cons. split; [set_solver|apply NoDup_singleton]. Qed.

Lemma gives_pipe : gives (fun p => [p.1; p.2]) make_pipe.
Proof.
  intros s. unfold make_pipe, mapE, acquire. destruct (pipe_at _ _) as [[a b]|] eqn:Hp; [|done].
  apply pipe_fresh in Hp as (? & ? & ?). cbn [fst snd]. split_and!; [done|set_solver|done|]. by apply nodup_pair.
Qed.

Lemma gives_socketpair : gives (fun p => [p.1; p.2]) make_socketpair.
Proof.
  intros s. unfold make_socketpair, mapE, acquire. destruct (socketpair_at _ _) as [[a b]|] eqn:Hp; [|done].
  apply socketpair_fresh in Hp as (? & ? & ?). cbn [fst snd]. split_and!; [done|set_solver|done|]. by apply nodup_pair.
Qed.

Lemma gives_none {A} (held : A → list Z) (m : M launcher SandboxError A) :
  still m → (∀ a s s', m s = (Ok a, s') → held a = []) → gives held m.
Proof.
  intros Hm Hnil s. specialize (Hm s). destruct (m s) as [[a|e] s'] eqn:Hr; cbn in Hm; [|done].
  rewrite (Hnil a s s' Hr). destruct Hm. split_and!; [set_solver|set_solver|done|constructor].
Qed.

(** One acquisition after another, the first owned meanwhile. *)
Lemma gives_two {A B C} heldA heldB (held : C → list Z) (m : M launcher SandboxError A) (n : M launcher SandboxError B)
    (g : A → B → C) (f : A → M launcher SandboxError C) :
  gives heldA m → gives heldB n → (∀ a s, f a s = (b ← own (heldA a) n; mret (g a b)) s) →
  (∀ a b, held (g a b) = heldA a ++ heldB b) → gives held (a ← m; f a).
Proof.
  intros Hm Hn Hf Hheld s. specialize (Hm s). unfold mbind at 1, M_bind at 1.
  destruct (m s) as [[a|e] s1]; [|done]. destruct Hm as (Ho & Hfresh & Hl & Hnd). rewrite Hf.
  specialize (Hn s1). unfold mbind, M_bind, own, Cgroups.cleanup_on_error.
  destruct (n s1) as [[b|e] s2]; cbn in *.
  - destruct Hn as (Ho2 & Hfresh2 & Hl2 & Hnd2). rewrite Hheld. split_and!; [by rewrite Ho2, Ho, list_to_set_app_L, (assoc_L _)| |congruence|].
    + intros x [Hx|Hx]%elem_of_app; [by apply Hfresh|]. apply Hfresh2 in Hx. set_solver.
    + apply NoDup_app. split_and!; [done| |done]. intros x Hx Hx2%Hfresh2. set_solver.
  - destruct Hn as [Ho2 Hl2]. split; [|congruence]. rewrite Ho2, Ho. set_solver.
Qed.

Lemma gives_isolated config mapper : gives barrier_pipes (isolated_launch config mapper).
Proof.
  unfold isolated_launch. destruct (cf_identity config) as [| |identity];
    [apply gives_none; [apply still_ret|by intros a s s' [-> _]%ret_Ok]..|].
  intros s. unfold mbind at 1, M_bind at 1. destruct mapper as [m|]; cbn [ok_or liftR]; [|done]. revert s.
  change (gives barrier_pipes ('(r_read, r_write) ← make_pipe; '(i_read, i_write) ← own [r_read; r_write] make_pipe;
    mret (Some (MkBarrier identity m r_read r_write i_read i_write)))).
  eapply (gives_two _ _ _ _ _ (fun a b => Some (MkBarrier identity m a.1 a.2 b.1 b.2))); [apply gives_pipe|apply gives_pipe| |done].
  intros [r w] s. unfold mbind, M_bind. by destruct (own _ _ s) as [[[i o]|] s1].
Qed.

Lemma gives_channels config : gives channel_fds (supervisor_channels config).
Proof.
  unfold supervisor_channels. destruct (ns_pid _); [|apply gives_none; [apply still_ret|by intros a s s' [-> _]%ret_Ok]].
  eapply (gives_two _ _ _ _ _ (fun a b => Some (a.1, a.2, b.1, b.2))); [apply gives_socketpair|apply gives_pipe| |done].
  intros [r w] s. unfold mbind, M_bind. by destruct (own _ _ s) as [[[i o]|] s1].
Qed.

Lemma gives_pidfd config : gives option_list (open_parent_pidfd config).
Proof.
  unfold open_parent_pidfd. destruct (ns_pid _); [|apply gives_none; [apply still_ret|by intros a s s' [-> _]%ret_Ok]].
  intros s. unfold mbind, M_bind, mapE, acquire. destruct (pidfd_open_at _ _) as [fd|] eqn:Hp; [|done].
  apply pidfd_fresh in Hp. cbn. split_and!; [done|set_solver|done|apply NoDup_singleton].
Qed.

Lemma still_find fds : still (find_devnull fds).
Proof. induction fds as [|fd fds IH]; [apply still_ret|]. apply still_bind; [apply still_ask|]. intros []; [apply still_ret|done]. Qed.

(** The streams made so far are open, and nothing else is new. *)
Definition streams_held (base : gset Z) (acc : StdioFds) (s : launcher) : Prop :=
  l_open s = base ∪ list_to_set (stdio_fds acc) ∧ (∀ x, x ∈ stdio_fds acc → x ∉ base) ∧ NoDup (stdio_fds acc).

Lemma own_run {A} fds (m : M launcher SandboxError A) s r s' :
  own fds m s = (r, s') → ∃ s1, m s = (r, s1) ∧ l_log s' = l_log s1 ∧
    l_open s' = (if is_ok r then l_open s1 else l_open s1 ∖ list_to_set fds) ∧ (is_ok r = true → s' = s1).
Proof.
  unfold own, Cgroups.cleanup_on_error. destruct (m s) as [[a|e] s1]; intros [= <- <-]; by exists s1.
Qed.

Lemma stdio_perm o o' p e src :
  stdio_fds (MkStdio (o ++ o') (p ++ [e]) src) ≡ₚ stdio_fds (MkStdio o p src) ++ o' ++ option_list e.
Proof.
  unfold stdio_fds. cbn [owned parent_ends]. rewrite fmap_app, concat_app. cbn. rewrite app_nil_r.
  rewrite <-!app_assoc. apply Permutation_app_head. rewrite !app_assoc. apply Permutation_app_tail, Permutation_app_comm.
Qed.

Lemma streams_more base acc o' e src s s' :
  streams_held base acc s → l_open s' = l_open s ∪ list_to_set (o' ++ option_list e) →
  (∀ x, x ∈ o' ++ option_list e → x ∉ l_open s) → NoDup (o' ++ option_list e) →
  streams_held base (MkStdio (owned acc ++ o') (parent_ends acc ++ [e]) src) s'.
Proof.
  destruct acc as [o p sr]. cbn [owned parent_ends]. intros (Ho & Hfresh & Hnd) Ho' Hnew Hnd'.
  assert (Hel : ∀ x, x ∈ stdio_fds (MkStdio (o ++ o') (p ++ [e]) src) ↔ x ∈ stdio_fds (MkStdio o p sr) ∨ x ∈ o' ++ option_list e).
  { intros x. rewrite stdio_perm. by rewrite elem_of_app. }
  split_and!.
  - rewrite Ho', Ho. apply set_eq. intros x. rewrite !elem_of_union, !elem_of_list_to_set, Hel. tauto.
  - intros x [?|Hx]%Hel; [by apply Hfresh|]. apply Hnew in Hx. set_solver.
  - rewrite stdio_perm. apply NoDup_app. split_and!; [done| |done]. intros x Hx Hx'%Hnew. set_solver.
Qed.

Lemma gives_pipe_end index : gives (fun p => [p.1; p.2]) (pipe_end index).
Proof.
  intros s. unfold pipe_end, mbind, M_bind. pose proof (gives_pipe s) as Hp. destruct (make_pipe s) as [[[a b]|e] s1]; [|done].
  destruct Hp as (Ho & Hf & Hl & Hnd). destruct (index =? 0)%nat; cbn in *; [done|]. split_and!; [set_solver|set_solver|done|].
  by rewrite Permutation_swap.
Qed.

Lemma devnull_run (known : option Z) (o : list Z) s r s' :
  (match known with
   | Some _ => mret o
   | None => fd ← mapE EngineIo (acquire devnull_at (fun fd => [fd])); mret (o ++ [fd])
   end : M launcher SandboxError (list Z)) s = (r, s') →
  l_log s' = l_log s ∧
  match r with
  | Ok o' => ∃ new, o' = o ++ new ∧ l_open s' = l_open s ∪ list_to_set new ∧ (∀ x, x ∈ new → x ∉ l_open s) ∧ NoDup new
  | Err _ => l_open s' = l_open s
  end.
Proof.
  destruct known as [k|].
  - intros [= <- <-]. split; [done|]. exists []. rewrite app_nil_r. split_and!; [done|set_solver|set_solver|constructor].
  - unfold mbind, M_bind, mapE, acquire. destruct (devnull_at _ _) as [fd|] eqn:Hd; intros [= <- <-]; [|done].
    apply devnull_fresh in Hd. split; [done|]. exists [fd]. split_and!; [done|done|set_solver|apply NoDup_singleton].
Qed.

Lemma create_stream_run base index spec acc s r s' :
  streams_held base acc s → own (stdio_fds acc) (create_stream index spec acc) s = (r, s') →
  l_log s' = l_log s ∧
  match r with Ok next => streams_held base next s' | Err _ => l_open s' = base end.
Proof.
  intros Hheld (s1 & Hr & Hl & Ho & Hsame)%own_run.
  assert (Hquit : ∀ e, r = Err e → l_open s1 ∖ list_to_set (stdio_fds acc) = base → l_open s' = base).
  { intros e -> <-. done. }
  assert (Hbase : l_open s ∖ list_to_set (stdio_fds acc) = base) by (destruct Hheld; set_solver).
  destruct spec as [| |fd]; cbn [create_stream] in Hr.
  - apply bind_inv in Hr as [(known & s2 & Hfind & Hr)|(e & Hfind & ->)];
      pose proof (still_inv _ _ _ _ (still_find _) Hfind) as [Ho2 Hl2]; [|split; [congruence|eapply Hquit; [done|congruence]]].
    apply bind_inv in Hr as [(o' & s3 & Hdev & Hr)|(e & Hdev & ->)]; apply devnull_run in Hdev as [Hl3 Hdev];
      [|split; [congruence|eapply Hquit; [done|congruence]]].
    destruct Hdev as (new & -> & Ho3 & Hnew & Hnd). apply own_run in Hr as (s4 & Hr & Hl4 & Ho4 & _).
    apply bind_inv in Hr as [(found & s5 & Hfind2 & Hr)|(e & Hfind2 & ->)];
      pose proof (still_inv _ _ _ _ (still_find _) Hfind2) as [Ho5 Hl5].
    + destruct found as [fd|]; injection Hr as <- <-; (split; [congruence|]).
      * apply (streams_more base acc new None _ s); [done| | |]; cbn [option_list]; rewrite ?app_nil_r; [| |done].
        -- cbn [is_ok] in Ho, Ho4. congruence.
        -- intros x Hx. rewrite <-Ho2. by apply Hnew.
      * eapply Hquit; [done|]. cbn [is_ok] in Ho4. rewrite Ho4, Ho5, Ho3, Ho2, <-Hbase.
        unfold stdio_fds. rewrite list_to_set_app_L, !list_to_set_app_L.
        assert (∀ x, x ∈ new → x ∉ l_open s) by (by rewrite <-Ho2). set_solver.
    + split; [congruence|]. eapply Hquit; [done|]. cbn [is_ok] in Ho4. rewrite Ho4, Ho5, Ho3, Ho2, <-Hbase.
      unfold stdio_fds. rewrite !list_to_set_app_L.
      assert (∀ x, x ∈ new → x ∉ l_open s) by (by rewrite <-Ho2). set_solver.
  - apply bind_inv in Hr as [([c p] & s2 & Hp & Hr)|(e & Hp & ->)]; pose proof (gives_pipe_end index s) as Hg; rewrite Hp in Hg.
    + destruct Hg as (Ho2 & Hnew & Hl2 & Hnd). injection Hr as <- <-. split; [congruence|].
      apply (streams_more base acc [c] (Some p) _ s); [done| | |]; cbn in *; [congruence|done|done].
    + destruct Hg as [Ho2 Hl2]. split; [congruence|]. eapply Hquit; [done|congruence].
  - injection Hr as <- <-. split; [congruence|].
    rewrite <-(app_nil_r (owned acc)). apply (streams_more base acc [] None _ s); [done| | |]; cbn in *; [set_solver..|constructor].
Qed.

Lemma create_streams_run base specs : ∀ index acc s r s',
  streams_held base acc s → create_streams index specs acc s = (r, s') →
  l_log s' = l_log s ∧ match r with Ok next => streams_held base next s' | Err _ => l_open s' = base end.
Proof.
  induction specs as [|spec specs IH]; intros index acc s r s' Hheld; cbn [create_streams].
  { intros [= <- <-]. by split. }
  intros Hr. apply bind_inv in Hr as [(next & s1 & Hs & Hr)|(e & Hs & ->)]; apply (create_stream_run base) in Hs as [Hl Hs]; try done.
  apply IH in Hr as [Hl' Hr]; [|done]. split; [congruence|done].
Qed.

Lemma gives_stdio command : gives stdio_fds (create_stdio command).
Proof.
  intros s. destruct (create_stdio command s) as [r s'] eqn:Hr.
  apply (create_streams_run (l_open s)) in Hr as [Hl Hr]; [|split_and!; [set_solver|by intros x ?%not_elem_of_nil|constructor]].
  destruct r as [st|]; [|done]. by destruct Hr as (? & ? & ?).
Qed.

(** *** Failing *)

(** What ending a child asks of the kernel at time [t], with the answers. *)
Definition kill_events (pidfd : Z) (t : nat) : list event :=
  [SentKill pidfd (kill_child_at t pidfd); ReapedChild pidfd (reap_child_at (S t) pidfd)].

(** What a failed launch did to processes: nothing, or it made one, and killed and awaited
    it. *)
Definition ended_child (l : list event) : Prop :=
  l = [] ∨ ∃ flags into child pidfd mid t,
    l = Cloned flags into child pidfd :: mid ++ kill_events pidfd t ∧
    Forall (fun e => match e with Cloned _ _ _ _ => False | _ => True end) mid.

(** Errors leave no descriptor outside [X] changed, and no child. *)
Definition fails_clean {A} (X : gset Z) (m : M launcher SandboxError A) : Prop := ∀ s e s',
  m s = (Err e, s') → l_open s' ∖ X = l_open s ∖ X ∧ ∃ l, l_log s' = l_log s ++ l ∧ ended_child l.

Lemma fails_still {A} X (m : M launcher SandboxError A) : still m → fails_clean X m.
Proof.
  intros Hm s e s' Hr. destruct (still_inv _ _ _ _ Hm Hr) as [-> ->]. split; [done|]. exists [].
  split; [by rewrite app_nil_r|by left].
Qed.

Lemma fails_own {A} X fds (m : M launcher SandboxError A) :
  fails_clean (X ∪ list_to_set fds) m → ∀ s e s', own fds m s = (Err e, s') →
  l_open s' ∖ X = l_open s ∖ (X ∪ list_to_set fds) ∧ ∃ l, l_log s' = l_log s ++ l ∧ ended_child l.
Proof.
  intros Hm s e s' (s1 & Hr & Hl & Ho & _)%own_run. destruct (Hm _ _ _ Hr) as (Hop & l & Hll & Hend).
  cbn [is_ok] in Ho. split; [|exists l; by rewrite Hl]. rewrite Ho, <-Hop. set_solver.
Qed.

Lemma fails_acquire {A B} held X (m : M launcher SandboxError A) (f : A → M launcher SandboxError B) :
  gives held m →
  (∀ a s s', m s = (Ok a, s') → ∃ k, f a = own (held a) k ∧ fails_clean (X ∪ list_to_set (held a)) k) →
  fails_clean X (a ← m; f a).
Proof.
  intros Hm Hf s e s' Hr. specialize (Hm s).
  apply bind_inv in Hr as [(a & s1 & Ha & Hr)|(e' & Ha & [= <-])]; rewrite Ha in Hm.
  - destruct Hm as (Ho & Hfresh & Hl & _). destruct (Hf a _ _ Ha) as (k & Hk & Hclean). rewrite Hk in Hr.
    apply (fails_own X) in Hr as (Ho' & l & Hl' & Hend); [|done]. split; [|exists l; by rewrite Hl', Hl].
    rewrite Ho', Ho. set_solver.
  - destruct Hm as [Ho Hl]. split; [by rewrite Ho|]. exists []. split; [by rewrite app_nil_r|by left].
Qed.

Lemma fails_quiet {A B} X (m : M launcher SandboxError A) (f : A → M launcher SandboxError B) :
  still m → (∀ a, fails_clean X (f a)) → fails_clean X (a ← m; f a).
Proof.
  intros Hm Hf s e s' Hr. apply bind_inv in Hr as [(a & s1 & Ha & Hr)|(e' & Ha & [= <-])].
  - destruct (still_inv _ _ _ _ Hm Ha) as [Ho Hl]. destruct (Hf _ _ _ _ Hr) as (Ho' & l & Hl' & Hend).
    split; [by rewrite Ho', Ho|]. exists l. by rewrite Hl', Hl.
  - by eapply (fails_still X m).
Qed.

(** *** After the clone *)

Definition no_clone (e : event) : Prop := match e with Cloned _ _ _ _ => False | _ => True end.

Definition barrier_quiet (b : option Barrier) : Prop := ∀ x, b = Some x → quiet_mapper (b_mapper x).

(** What the handshake of a launch adds to the log. *)
Definition handshake_log (b : option Barrier) (child : Z) (open : gset Z) (before l : list event) : Prop :=
  match b with
  | None => l = []
  | Some b =>
      let awaited := AwaitedReady (open ∖ {[ready_write b; installed_read b]}) in
      ∃ hs from to, l = awaited :: hs ++ [Released] ∧ Forall is_helper hs ∧
        maps_verified (b_mapper b) child (b_identity b) (ready_read b) from (before ++ [awaited]) to
  end.

Lemma run_handshake_run b child pidfd s r s' :
  barrier_quiet b → run_handshake b child pidfd s = (r, s') →
  l_open s' = l_open s ∖ list_to_set (barrier_pipes b) ∧ ∃ l, l_log s' = l_log s ++ l ∧ Forall no_clone l ∧
    match r with
    | Ok _ => handshake_log b child (l_open s) (l_log s) l
    | Err _ => ∃ mid t, l = mid ++ kill_events pidfd t ∧ Forall no_clone mid
    end.
Proof.
  intros Hq Hr. destruct b as [b|]; cbn [run_handshake] in Hr.
  2: { injection Hr as <- <-. split; [set_solver|]. exists []. by rewrite app_nil_r. }
  unfold mbind, M_bind, drop_fds, tryM in Hr. cbn [l_clock l_open l_log] in Hr.
  set (s0 := MkLauncher _ _ _) in Hr.
  destruct (install_isolated_maps _ _ _ _ _ s0) as [rh s2] eqn:Hin.
  apply handshake_run in Hin as (Ho & hs & Hhelp & Hcase); [|by apply Hq].
  assert (Hnc : Forall no_clone hs) by (eapply Forall_impl; [exact Hhelp|]; by intros []).
  assert (Hset : ∀ O : gset Z, O ∖ list_to_set [ready_write b; installed_read b] ∖ list_to_set [ready_read b; installed_write b]
    = O ∖ list_to_set (barrier_pipes (Some b))) by (intros O; cbn; set_solver).
  destruct rh as [[]|error]; cbn in Hr; injection Hr as <- <-; cbn [l_open l_log]; rewrite Ho; (split; [apply Hset|]).
  - destruct Hcase as (Hlog & to & n & Hv & _). eexists. split; [exact Hlog|].
    assert (Hs0 : l_open s0 = l_open s ∖ {[ready_write b; installed_read b]}) by (cbn; by rewrite union_empty_r_L).
    rewrite Hs0 in *. split; [|by exists hs, (l_clock s0), to].
    constructor; [done|]. apply Forall_app. split; [done|by repeat constructor].
  - exists (AwaitedReady (l_open s0) :: hs ++ kill_events pidfd (l_clock s2)). rewrite Hcase. split_and!.
    + by rewrite <-!app_assoc.
    + constructor; [done|]. apply Forall_app. split; [done|by repeat constructor].
    + exists (AwaitedReady (l_open s0) :: hs), (l_clock s2). split; [done|by constructor].
Qed.

Lemma confirm_run status pidfd s r s' :
  confirm_setup status pidfd s = (r, s') →
  l_open s' = l_open s ∖ {[status]} ∧
  match r with
  | Ok _ => l_log s' = l_log s ++ [AwaitedStatus (l_open s)] ∧
      ∃ t, read_child_failure (status_at t status).1 (status_at t status).2 = Some Clean
  | Err _ => ∃ t, l_log s' = l_log s ++ AwaitedStatus (l_open s) :: kill_events pidfd t
  end.
Proof.
  unfold confirm_setup, mbind, M_bind, drop_fds. cbn [l_clock l_open l_log].
  pose proof (status_ends (l_clock s) status) as [o Hs]. destruct (status_at _ status) as [turns data] eqn:Hst. cbn [fst snd] in Hs.
  rewrite Hs. cbn [default]. destruct o as [|failure|message]; cbn; intros [= <- <-]; cbn.
  - split; [set_solver|]. split; [done|]. exists (l_clock s). by rewrite Hst.
  - split; [set_solver|]. eexists. by rewrite <-!app_assoc.
  - split; [set_solver|]. eexists. by rewrite <-!app_assoc.
Qed.

Definition child_side (channels : option (Z * Z * Z * Z)) (parent_pidfd : option Z) (status_write : Z) (mounts : option MountSetup)
    (stdio : StdioFds) : list Z :=
  option_list parent_pidfd ++ [status_write] ++ match channels with Some (c, _, _, w) => [c; w] | None => [] end
  ++ mount_fds mounts ++ owned stdio.

Lemma clone_run command config cgroup mounts stdio status_read status_write barrier channels parent_pidfd s r s' :
  barrier_quiet barrier →
  clone_and_confirm command config cgroup mounts stdio status_read status_write barrier channels parent_pidfd s = (r, s') →
  match r with
  | Ok (child, ends) => ∃ l O,
      let open := (l_open s ∪ {[lc_pidfd child]}) ∖ list_to_set (child_side channels parent_pidfd status_write mounts stdio) in
      lc_pidfd child ∉ l_open s ∧
      O = open ∖ list_to_set (barrier_pipes barrier) ∧ l_open s' = O ∖ {[status_read]} ∧
      l_log s' = l_log s ++ Cloned (clone_flags config cgroup).1 (clone_flags config cgroup).2 (lc_pid child) (lc_pidfd child)
                   :: l ++ [AwaitedStatus O] ∧
      handshake_log barrier (lc_pid child) open
        (l_log s ++ [Cloned (clone_flags config cgroup).1 (clone_flags config cgroup).2 (lc_pid child) (lc_pidfd child)]) l ∧
      (∃ t, read_child_failure (status_at t status_read).1 (status_at t status_read).2 = Some Clean) ∧
      ends = parent_ends stdio ∧ lc_cgroup child = cgroup ∧
      supervisor_control child = (fun '(_, parent, _, _) => parent) <$> channels ∧
      supervisor_exit child = (fun '(_, _, read, _) => read) <$> channels ∧
      pid_namespace_init child = ns_pid (cf_namespaces config) ∧ lc_status child = None ∧ torn_down child = false ∧
      owns_process_group child = match session command with SessionInherit => false | _ => true end
  | Err _ => ∃ l, l_log s' = l_log s ++ l ∧ ended_child l ∧
      l_open s' ⊆ l_open s ∧
      l_open s ∖ list_to_set (child_side channels parent_pidfd status_write mounts stdio ++ barrier_pipes barrier ++ [status_read])
        ⊆ l_open s'
  end.
Proof.
  intros Hq Hr. unfold clone_and_confirm in Hr. destruct (clone_flags config cgroup) as [flags into].
  unfold mbind at 1, M_bind at 1, mapE, acquire in Hr.
  destruct (clone3_at _ _ _ _) as [[child pidfd]|errno] eqn:Hc.
  2: { injection Hr as <- <-. cbn. exists []. rewrite app_nil_r. split_and!; [done|by left|done|set_solver]. }
  apply clone_fresh in Hc. cbn [snd] in Hc, Hr. unfold mbind at 1, M_bind at 1, log in Hr. cbn [l_clock l_open l_log] in Hr.
  apply own_run in Hr as (s3 & Hr & Hl3 & Ho3 & _).
  unfold mbind at 1, M_bind at 1, drop_fds at 1 in Hr. cbn [l_clock l_open l_log] in Hr.
  fold (child_side channels parent_pidfd status_write mounts stdio) in Hr.
  set (s1 := MkLauncher _ _ _) in Hr.
  assert (Hs1 : l_open s1 = (l_open s ∪ {[pidfd]}) ∖ list_to_set (child_side channels parent_pidfd status_write mounts stdio))
    by (unfold s1; cbn; by rewrite union_empty_r_L).
  assert (Hl1 : l_log s1 = l_log s ++ [Cloned flags into child pidfd]) by done. clearbody s1.
  apply bind_inv in Hr as [([] & s2 & Hh & Hr)|(e & Hh & ->)]; apply run_handshake_run in Hh as (Ho2 & l & Hl2 & Hnc & Hcase); try exact Hq.
  - apply bind_inv in Hr as [([] & s4 & Hcf & Hr)|(e & Hcf & ->)]; apply confirm_run in Hcf as [Ho4 Hcf].
    + injection Hr as <- <-. cbn [lc_pidfd lc_pid lc_cgroup supervisor_control supervisor_exit pid_namespace_init lc_status torn_down
        owns_process_group is_ok] in *. destruct Hcf as [Hl4 Hclean]. exists l, (l_open s2). cbn zeta. rewrite <-Hs1. cbn [fst snd]. rewrite <-Hl1.
      split_and!; try done; [by rewrite Ho3, Ho4|]. by rewrite Hl3, Hl4, Hl2, Hl1, <-!app_assoc.
    + destruct Hcf as [t Hcf]. exists (Cloned flags into child pidfd :: (l ++ [AwaitedStatus (l_open s2)]) ++ kill_events pidfd t).
      cbn [is_ok] in Ho3. split_and!.
      * by rewrite Hl3, Hcf, Hl2, Hl1, <-!app_assoc.
      * right. do 6 eexists. split; [done|]. apply Forall_app. split; [exact Hnc|by repeat constructor].
      * rewrite Ho3, Ho4, Ho2, Hs1. set_solver.
      * rewrite Ho3, Ho4, Ho2, Hs1, !list_to_set_app_L. set_solver.
  - destruct Hcase as (mid & t & -> & Hmid). exists (Cloned flags into child pidfd :: mid ++ kill_events pidfd t).
    cbn [is_ok] in Ho3. split_and!.
    + by rewrite Hl3, Hl2, Hl1, <-!app_assoc.
    + right. do 6 eexists. split; [done|exact Hmid].
    + rewrite Ho3, Ho2, Hs1. set_solver.
    + rewrite Ho3, Ho2, Hs1, !list_to_set_app_L. set_solver.
Qed.

Lemma fails_clone X command config cgroup mounts stdio status_read status_write barrier channels parent_pidfd :
  barrier_quiet barrier →
  (∀ x, x ∈ child_side channels parent_pidfd status_write mounts stdio ++ barrier_pipes barrier ++ [status_read] → x ∈ X) →
  fails_clean X (clone_and_confirm command config cgroup mounts stdio status_read status_write barrier channels parent_pidfd).
Proof.
  intros Hq HX s e s' Hr. apply clone_run in Hr as (l & Hl & Hend & Hsub & Hsup); [|done]. split; [|by exists l].
  apply set_eq. intros x. rewrite !elem_of_difference. specialize (Hsub x). specialize (Hsup x). specialize (HX x).
  rewrite elem_of_difference, elem_of_list_to_set in Hsup. tauto.
Qed.

Lemma still_timed {E A} (m : M nat E A) : still (timed m).
Proof. intros s. unfold timed. by destruct (m (l_clock s)). Qed.

Lemma isolated_quiet config mapper s b s' :
  (∀ m, mapper = Some m → quiet_mapper m) → isolated_launch config mapper s = (Ok b, s') → barrier_quiet b.
Proof.
  intros Hq. unfold isolated_launch. destruct (cf_identity config); [by intros [-> _]%ret_Ok..|].
  intros (m & s1 & Hm & Hr)%bind_Ok x ->. apply liftR_Ok in Hm as [Hm%ok_or_Ok _].
  apply bind_Ok in Hr as ([r w] & s2 & _ & Hr). apply bind_Ok in Hr as ([i o] & s3 & _ & Hr).
  apply ret_Ok in Hr as [Hx _]. injection Hx as ->. by apply Hq.
Qed.

Lemma fails_map {A B} X (m : M launcher SandboxError A) (g : A → B) : fails_clean X m → fails_clean X (a ← m; mret (g a)).
Proof. intros Hm s e s' Hr. apply bind_inv in Hr as [(a & s1 & _ & Hr)|(e' & Hr & [= <-])]; [done|by eapply Hm]. Qed.

Lemma child_side_held channels ppid sr sw mounts stdio barrier x :
  x ∈ child_side channels ppid sw mounts stdio ++ barrier_pipes barrier ++ [sr] →
  x ∈ mount_fds mounts ∨ x ∈ stdio_fds stdio ∨ x ∈ [sr; sw] ∨ x ∈ barrier_pipes barrier ∨ x ∈ channel_fds channels ∨ x ∈ option_list ppid.
Proof.
  unfold child_side, stdio_fds. rewrite !elem_of_app, !elem_of_cons. destruct channels as [[[[c p] r] w]|]; cbn;
    rewrite ?elem_of_cons, ?elem_of_nil; tauto.
Qed.

(** C10: A launch that fails leaves nothing behind.  Wherever it fails, and whatever the
    kernel and the mapper do: exactly the descriptors that were open are open again, less
    the prepared mounts, which were given to the launch, and the files of [/proc] that were
    read are closed too; if a child was made it was made once, was sent a kill and was then
    waited for through its own pidfd, as the last thing done to it (what the kernel answers
    to these two is recorded; the code ignores it); and only then is the launch's hold on
    the control group given up. *)
Theorem failed_launches_leave_nothing `{Landlock.LandlockApi} `{SeccompFilter.Seccompiler} target abi mapper command config
    cgroup mounts s e s' :
  (∀ m, mapper = Some m → quiet_mapper m) →
  spawn_with_cgroup_on_owner target abi mapper command config cgroup mounts s = (Err e, s') →
  l_open s' = l_open s ∖ list_to_set (mount_fds mounts) ∧
  ∃ l, l_log s' = l_log s ++ l ++ option_list (DroppedCgroup <$> cgroup) ∧ ended_child l.
Proof.
  intros Hq Hr. unfold spawn_with_cgroup_on_owner in Hr. unfold Cgroups.cleanup_on_error at 1 in Hr.
  destruct (own (mount_fds mounts) _ s) as [[a|e'] s1] eqn:Hown; [done|]. injection Hr as -> <-.
  assert (Hmain : l_open s1 ∖ ∅ = l_open s ∖ (∅ ∪ list_to_set (mount_fds mounts)) ∧ ∃ l, l_log s1 = l_log s ++ l ∧ ended_child l).
  { revert s e s1 Hown. apply fails_own.
    apply fails_quiet; [apply still_timed|intros landlock]. apply fails_quiet; [apply still_liftR|intros seccomp].
    eapply fails_acquire; [apply gives_stdio|]. intros stdio ? ? _. eexists. split; [reflexivity|].
    eapply fails_acquire; [apply gives_pipe|]. intros [sr sw] ? ? _. eexists. split; [reflexivity|].
    eapply fails_acquire; [apply gives_isolated|]. intros barrier ? ? Hb%isolated_quiet; [|done]. eexists. split; [reflexivity|].
    eapply fails_acquire; [apply gives_channels|]. intros channels ? ? _. eexists. split; [reflexivity|].
    eapply fails_acquire; [apply gives_pidfd|]. intros ppid ? ? _. eexists. split; [reflexivity|].
    apply fails_quiet; [by intros ?|intros now]. apply fails_quiet; [apply still_liftR|intros setup].
    apply fails_map, fails_clone; [done|]. intros x Hx. apply child_side_held in Hx. set_solver. }
  destruct Hmain as (Ho & l & Hl & Hend). destruct cgroup as [fd|]; cbn; (split; [set_solver|]); exists l; (split; [|done]).
  - by rewrite Hl, <-app_assoc.
  - by rewrite Hl, app_nil_r.
Qed.

(** *** Succeeding *)

Lemma isolated_shape config mapper s b s' :
  isolated_launch config mapper s = (Ok b, s') →
  match cf_identity config with IdIsolated identity => ∃ x, b = Some x ∧ b_identity x = identity ∧ mapper = Some (b_mapper x) | _ => b = None end.
Proof.
  unfold isolated_launch. destruct (cf_identity config); [by intros [-> _]%ret_Ok..|].
  intros (m & s1 & [Hm%ok_or_Ok _]%liftR_Ok & Hr)%bind_Ok. apply bind_Ok in Hr as ([r w] & s2 & _ & Hr).
  apply bind_Ok in Hr as ([i o] & s3 & _ & Hr). apply ret_Ok in Hr as [-> _]. by eexists.
Qed.

Lemma gives_Ok {A} held (m : M launcher SandboxError A) s a s' :
  gives held m → m s = (Ok a, s') →
  l_open s' = l_open s ∪ list_to_set (held a) ∧ (∀ x, x ∈ held a → x ∉ l_open s) ∧ l_log s' = l_log s ∧ NoDup (held a).
Proof. intros Hm Hr. specialize (Hm s). by rewrite Hr in Hm. Qed.

Lemma own_Ok {A} fds (m : M launcher SandboxError A) s a s' : own fds m s = (Ok a, s') → m s = (Ok a, s').
Proof. intros (s1 & Hr & _ & _ & Hs)%own_run. by rewrite Hs. Qed.

Lemma prepare_None `{Landlock.LandlockApi} fs net abi now r now' :
  Landlock.prepare fs net abi now = (Ok r, now') → r = None ↔ fs = FsUnrestricted ∧ net = NetUnrestricted.
Proof.
  intros Hr. destruct fs as [|ro rw ex].
  - assert (Hnets : net = NetUnrestricted ∨ net ≠ NetUnrestricted) by (destruct net; [by left|by right..]).
    destruct Hnets as [->|Hne]; [by apply ret_Ok in Hr as [-> _]|].
    apply Landlock.prepare_network in Hr as (_ & fd & ->); [|done]. naive_solver.
  - apply Landlock.prepare_restricted in Hr as (_ & _ & p & -> & _). naive_solver.
Qed.

Lemma timed_prepare_None `{Landlock.LandlockApi} {A} (f : _ → A) fs net abi s r s' :
  (timed (Landlock.prepare fs net abi) : P SandboxError _) s = (Ok r, s') →
  f <$> r = None ↔ fs = FsUnrestricted ∧ net = NetUnrestricted.
Proof.
  intros Hr. rewrite fmap_None. unfold timed in Hr. destruct (Landlock.prepare _ _ _ _) as [r0 n0] eqn:Hprep.
  injection Hr as -> _. by eapply prepare_None.
Qed.

Lemma compile_None `{SeccompFilter.Seccompiler} target policy r :
  SeccompFilter.compile target policy = Ok r → r = None ↔ policy = SysUnrestricted.
Proof.
  destruct policy as [|d m rules]; cbn [SeccompFilter.compile]; [by intros [= <-]|].
  repeat (destruct (map_err _ _) || destruct (SeccompFilter.compile_rules _ _ _); cbn [mbind result_bind]; [|done]).
  unfold mret, result_ret. repeat case_match; naive_solver.
Qed.

(** The descriptors a handle owns, with the launcher's ends of the streams. *)
Definition handle_fds (child : LinuxChild) (ends : list (option Z)) : list Z :=
  lc_pidfd child :: concat (option_list <$> ends) ++ option_list (supervisor_control child) ++ option_list (supervisor_exit child).

(** What is left of all that was opened. *)
Lemma launch_leaves (open : gset Z) (mounts : option MountSetup) stdio sr sw barrier channels ppid pidfd :
  list_to_set (mount_fds mounts) ⊆ open →
  (∀ x, x ∈ stdio_fds stdio → x ∉ open) → NoDup (stdio_fds stdio) →
  let o1 := open ∪ list_to_set (stdio_fds stdio) in
  (∀ x, x ∈ [sr; sw] → x ∉ o1) → sr ≠ sw → let o2 := o1 ∪ list_to_set [sr; sw] in
  (∀ x, x ∈ barrier_pipes barrier → x ∉ o2) → let o3 := o2 ∪ list_to_set (barrier_pipes barrier) in
  (∀ x, x ∈ channel_fds channels → x ∉ o3) → NoDup (channel_fds channels) → let o4 := o3 ∪ list_to_set (channel_fds channels) in
  (∀ x, x ∈ option_list ppid → x ∉ o4) → let o5 := o4 ∪ list_to_set (option_list ppid) in
  pidfd ∉ o5 →
  (o5 ∪ {[pidfd]}) ∖ list_to_set (child_side channels ppid sw mounts stdio) ∖ list_to_set (barrier_pipes barrier) ∖ {[sr]}
  = (open ∖ list_to_set (mount_fds mounts))
      ∪ list_to_set (pidfd :: concat (option_list <$> parent_ends stdio)
          ++ option_list ((fun '(_, parent, _, _) => parent) <$> channels) ++ option_list ((fun '(_, _, read, _) => read) <$> channels)).
Proof.
  intros Hm Hst Hnst o1 Hs Hsr o2 Hb o3 Hc Hnc o4 Hp o5 Hpid.
  apply set_eq. intros x. unfold o5, o4, o3, o2, o1 in *.
  specialize (Hm x). specialize (Hst x). specialize (Hs x). specialize (Hb x). specialize (Hc x). specialize (Hp x).
  assert (Hown : x ∈ owned stdio → x ∈ concat (option_list <$> parent_ends stdio) → False).
  { unfold stdio_fds in Hnst. apply NoDup_app in Hnst as (_ & Hd & _). intros ??. by eapply Hd. }
  unfold child_side, stdio_fds in *.
  rewrite ?elem_of_difference, ?elem_of_union, ?elem_of_list_to_set, ?elem_of_app, ?elem_of_cons, ?elem_of_singleton, ?elem_of_nil in *.
  clear o1 o2 o3 o4 o5 Hnst.
  destruct channels as [[[[c p] r] w]|]; cbn in *; rewrite ?elem_of_cons, ?elem_of_nil in *.
  - assert (Hd : c ≠ p ∧ c ≠ r ∧ w ≠ p ∧ w ≠ r) by (rewrite !NoDup_cons, !elem_of_cons in Hnc; naive_solver). clear Hnc.
    assert (Hx : ¬ (x = c ∧ x = p) ∧ ¬ (x = c ∧ x = r) ∧ ¬ (x = w ∧ x = p) ∧ ¬ (x = w ∧ x = r) ∧ ¬ (x = sr ∧ x = sw)) by naive_solver.
    clear Hd Hsr.
    assert (Hpf : x = pidfd → ¬ (((((x ∈ open ∨ x ∈ owned stdio ∨ x ∈ concat (option_list <$> parent_ends stdio)) ∨ x = sr ∨ x = sw ∨ False)
       ∨ x ∈ barrier_pipes barrier) ∨ x = c ∨ x = p ∨ x = r ∨ x = w ∨ False) ∨ x ∈ option_list ppid)) by (intros ->; tauto).
    clear Hpid. rewrite elem_of_difference, elem_of_list_to_set, elem_of_app, !elem_of_cons, elem_of_nil. tauto.
  - rewrite ?elem_of_difference, ?elem_of_list_to_set, ?elem_of_app, ?elem_of_nil.
    assert (Hx : ¬ (x = sr ∧ x = sw)) by naive_solver.
    assert (Hpf : x = pidfd → ¬ (((((x ∈ open ∨ x ∈ owned stdio ∨ x ∈ concat (option_list <$> parent_ends stdio)) ∨ x = sr ∨ x = sw ∨ False)
       ∨ x ∈ barrier_pipes barrier) ∨ False) ∨ x ∈ option_list ppid)) by (intros ->; tauto).
    clear Hpid. tauto.
Qed.

Lemma reserved_of_launch barrier channels ppid cgroup (pid : bool) x :
  x ∈ reserved_fds
    {| barrier_fds := (fun b => (ready_write b, installed_read b)) <$> barrier; r_parent_pidfd := ppid;
       r_control_fd := (fun '(child, _, _, _) => child) <$> channels;
       r_exit_fd := (fun '(_, _, _, write) => write) <$> channels;
       r_cgroup_fd := if pid then cgroup else None |} →
  x ∈ barrier_pipes barrier ∨ x ∈ channel_fds channels ∨ x ∈ option_list ppid ∨ cgroup = Some x.
Proof.
  unfold reserved_fds. cbn. rewrite !elem_of_app. destruct barrier as [b|], channels as [[[[c p] r] w]|], pid, cgroup; cbn;
    rewrite ?elem_of_cons, ?elem_of_nil; naive_solver.
Qed.

(** An isolated set-up announces itself on the barrier's own pipe. *)
Lemma isolated_ready `{Host} identity ready installed u g rw ir :
  child_identity (IdIsolated identity) (Some (ready, installed)) = Ok (Child.IsolatedAs u g rw ir) → rw = ready.
Proof. cbn [child_identity]. destruct (_ || _); [done|]. cbn. by intros [= _ _ <- _]. Qed.

(** C8: A launch that succeeds was confirmed.  The set-up handed to the child was built
    from the command and the configuration, with file and network rules and a
    system-call filter exactly when the configuration restricts them; one child was
    cloned, with exactly the namespaces of the configuration and into the launch's
    control group, or with that group handed to the process-1 supervisor; an isolated
    child was released only with its maps verified; the child's status pipe ended
    without a report; while the launcher waited for the announcement and for the end of
    the status pipe it did not itself hold the write ends it waited on; and of all it
    opened it keeps the handle's descriptors and its ends of the streams. *)
Theorem successful_launches_were_confirmed `{Landlock.LandlockApi} `{SeccompFilter.Seccompiler} target abi mapper command config
    cgroup mounts s setup child ends s' :
  (∀ m, mapper = Some m → quiet_mapper m) → list_to_set (mount_fds mounts) ⊆ l_open s →
  spawn_with_cgroup_on_owner target abi mapper command config cgroup mounts s = (Ok (setup, (child, ends)), s') →
  (∃ now own stdio status landlock seccomp,
     build_child_setup (fd_valid_at now) command config own stdio status mounts landlock seccomp = Ok setup ∧
     (∀ x, x ∈ l_open s → x ∈ reserved_fds own → cgroup = Some x) ∧
     (landlock = None ↔ cf_filesystem config = FsUnrestricted ∧ cf_network config = NetUnrestricted) ∧
     (seccomp = None ↔ cf_syscalls config = SysUnrestricted)) ∧
  (∃ l O, l_log s' = l_log s ++ Cloned (clone_flags config cgroup).1 (clone_flags config cgroup).2 (lc_pid child) (lc_pidfd child)
                       :: l ++ [AwaitedStatus O] ∧
     Child.report_fd setup ∉ O ∧
     match cf_identity config with
     | IdIsolated identity => ∃ O' helpers ready, l = AwaitedReady O' :: helpers ++ [Released] ∧ Forall is_helper helpers ∧
         (∃ m from to, mapper = Some m ∧ maps_verified m (lc_pid child) identity ready from
            (l_log s ++ [Cloned (clone_flags config cgroup).1 (clone_flags config cgroup).2 (lc_pid child) (lc_pidfd child);
                         AwaitedReady O']) to) ∧
         ∀ u g rw ir, Child.cs_identity setup = Child.IsolatedAs u g rw ir → rw ∉ O'
     | _ => l = []
     end) ∧
  (∃ t fd, read_child_failure (status_at t fd).1 (status_at t fd).2 = Some Clean) ∧
  (ns_pid (cf_namespaces config) = true → Child.user_cgroup_fd setup = cgroup) ∧
  l_open s' = (l_open s ∖ list_to_set (mount_fds mounts)) ∪ list_to_set (handle_fds child ends).
Proof.
  intros Hq Hmounts Hr. unfold spawn_with_cgroup_on_owner in Hr. unfold Cgroups.cleanup_on_error at 1 in Hr.
  destruct (own (mount_fds mounts) _ s) as [[a|e'] s1] eqn:Hown; [|done]. injection Hr as -> ->. apply own_Ok in Hown as Hr. clear Hown.
  apply bind_Ok in Hr as (landlock & sa & Hland & Hr). pose proof (still_inv _ _ _ _ (still_timed _) Hland) as [Hoa Hla].
  apply bind_Ok in Hr as (seccomp & sb & Hsec & Hr). apply liftR_Ok in Hsec as [Hsec ->].
  apply bind_Ok in Hr as (stdio & s2 & Hstdio & Hr). apply (gives_Ok _ _ _ _ _ (gives_stdio _)) in Hstdio as (Ho2 & Hf2 & Hl2 & Hn2).
  apply own_Ok in Hr. apply bind_Ok in Hr as ([sr sw] & s3 & Hpipe & Hr).
  apply (gives_Ok _ _ _ _ _ gives_pipe) in Hpipe as (Ho3 & Hf3 & Hl3 & Hn3). apply own_Ok in Hr.
  apply bind_Ok in Hr as (barrier & s4 & Hbar & Hr). pose proof (isolated_quiet _ _ _ _ _ Hq Hbar) as Hbq.
  pose proof (isolated_shape _ _ _ _ _ Hbar) as Hshape.
  apply (gives_Ok _ _ _ _ _ (gives_isolated _ _)) in Hbar as (Ho4 & Hf4 & Hl4 & Hn4). apply own_Ok in Hr.
  apply bind_Ok in Hr as (channels & s5 & Hch & Hr).
  apply (gives_Ok _ _ _ _ _ (gives_channels _)) in Hch as (Ho5 & Hf5 & Hl5 & Hn5). apply own_Ok in Hr.
  apply bind_Ok in Hr as (ppid & s6 & Hpp & Hr).
  apply (gives_Ok _ _ _ _ _ (gives_pidfd _)) in Hpp as (Ho6 & Hf6 & Hl6 & Hn6). apply own_Ok in Hr.
  apply bind_Ok in Hr as (now & s7 & Hnow & Hr). injection Hnow as <- <-.
  apply bind_Ok in Hr as (setup' & s8 & Hbuild & Hr). apply liftR_Ok in Hbuild as [Hbuild ->].
  apply bind_Ok in Hr as ([child' ends'] & s9 & Hclone & Hr). apply ret_Ok in Hr as [Hpair ->]. injection Hpair as -> -> ->.
  apply clone_run in Hclone as (l & O & Hpid & HO & Ho9 & Hl9 & Hhs & Hclean & -> & _ & Hctl & Hexit & _); [|done].
  cbn [fst snd] in Hf3, Hn3, Ho3.
  assert (Hsw : sr ≠ sw) by (apply NoDup_cons in Hn3 as [Hn3 _]; set_solver).
  pose proof (build_Ok _ _ _ _ _ _ _ _ _ _ Hbuild) as (Hident & _ & Hsetup). cbn zeta in Hsetup.
  split_and!.
  - do 6 eexists. split_and!; [exact Hbuild| | |].
    + intros x Hx Hres. apply reserved_of_launch in Hres as [Hb|[Hc|[Hp|Hcg]]]; [..|done]; exfalso.
      * apply Hf4 in Hb. rewrite Ho3, Ho2, Hoa in Hb. set_solver.
      * apply Hf5 in Hc. rewrite Ho4, Ho3, Ho2, Hoa in Hc. set_solver.
      * apply Hf6 in Hp. rewrite Ho5, Ho4, Ho3, Ho2, Hoa in Hp. set_solver.
    + by eapply timed_prepare_None.
    + rewrite fmap_None. by eapply compile_None.
  - exists l, O. split_and!.
    + rewrite Hl9. by rewrite Hl6, Hl5, Hl4, Hl3, Hl2, Hla.
    + rewrite Hsetup. cbn [Child.report_fd]. rewrite HO. unfold child_side. set_solver.
    + destruct (cf_identity config) as [| |identity]; [by rewrite Hshape in Hhs..|].
      destruct Hshape as (b & -> & <- & Hm). destruct Hhs as (hs & from & to & -> & Hhelp & Hv).
      rewrite Hl6, Hl5, Hl4, Hl3, Hl2, Hla, <-app_assoc in Hv.
      do 3 eexists. split_and!; [done|done|do 3 eexists; split; [exact Hm|exact Hv]|]. intros u g rw ir Hcs.
      rewrite Hcs in Hident. apply isolated_ready in Hident as ->. set_solver.
  - destruct Hclean as [t Ht]. by exists t, sr.
  - intros Hns. rewrite Hsetup. cbn [Child.user_cgroup_fd r_cgroup_fd]. by rewrite Hns.
  - rewrite Ho9, HO, Ho6, Ho5, Ho4, Ho3, Ho2, Hoa. unfold handle_fds. rewrite Hctl, Hexit.
    rewrite Hoa in Hf2, Ho2. cbn [fst snd]. apply launch_leaves; try done; rewrite <-?Ho2, <-?Ho3, <-?Ho4, <-?Ho5, <-?Ho6; done.
Qed.

(** *** The namespace of an ID-mapped mount *)

(** What is open while the keeper is mapped, and afterwards. *)
Lemma keeper_open (open : gset Z) rr rw ir iw pidfd :
  (∀ x, x ∈ [rr; rw; ir; iw; pidfd] → x ∉ open) → rr ≠ rw → rr ≠ ir → iw ≠ rw → iw ≠ ir → pidfd ≠ rw → pidfd ≠ ir →
  (((open ∪ list_to_set [rr; rw]) ∪ list_to_set [ir; iw]) ∪ {[pidfd]}) ∖ {[rw; ir]} = open ∪ list_to_set [rr; iw; pidfd].
Proof.
  intros Hf ??????. apply set_eq. intros x. pose proof (Hf rw ltac:(set_solver)). pose proof (Hf ir ltac:(set_solver)). clear Hf.
  rewrite !elem_of_difference, !elem_of_union, !elem_of_list_to_set, !elem_of_cons, !elem_of_singleton, !elem_of_nil.
  destruct (decide (x = rw)) as [->|]; [naive_solver|]. destruct (decide (x = ir)) as [->|]; [naive_solver|]. tauto.
Qed.

Lemma keeper_closed (open : gset Z) rr iw pidfd :
  (∀ x, x ∈ [rr; iw; pidfd] → x ∉ open) →
  (open ∪ list_to_set [rr; iw; pidfd]) ∖ list_to_set [rr; iw] ∖ list_to_set [pidfd] = open.
Proof.
  intros Hf. pose proof (Hf rr ltac:(set_solver)). pose proof (Hf iw ltac:(set_solver)). pose proof (Hf pidfd ltac:(set_solver)).
  clear Hf. apply set_eq; intros x. set_unfold. naive_solver.
Qed.

Lemma keeper_failed (open : gset Z) rr rw ir iw pidfd :
  (∀ x, x ∈ [rr; rw; ir; iw; pidfd] → x ∉ open) → (∀ x, x ∈ [rr; iw; pidfd] → x ∉ open) →
  (open ∪ list_to_set [rr; iw; pidfd]) ∖ list_to_set [rr; iw] ∖ list_to_set [pidfd] ∖ list_to_set [ir; iw] ∖ list_to_set [rr; rw] = open.
Proof.
  intros Hf Hf3. rewrite (keeper_closed _ _ _ _ Hf3). clear Hf3. apply set_eq. intros x. specialize (Hf x).
  rewrite !elem_of_difference, !elem_of_list_to_set. set_solver.
Qed.

Lemma keeper_leaves (open : gset Z) rr iw pidfd fd :
  (∀ x, x ∈ [rr; iw; pidfd] → x ∉ open) → fd ∉ open ∪ list_to_set [rr; iw; pidfd] →
  ((open ∪ list_to_set [rr; iw; pidfd]) ∪ list_to_set [fd]) ∖ list_to_set [rr; iw] ∖ list_to_set [pidfd] = open ∪ {[fd]}.
Proof.
  intros Hf Hfd. rewrite <-(keeper_closed open rr iw pidfd Hf) at 2. set (O := open ∪ list_to_set [rr; iw; pidfd]) in *.
  assert (fd ∉ list_to_set (C := gset Z) [rr; iw; pidfd]) as Hno by (unfold O in Hfd; clear - Hfd; set_solver). clearbody O. clear - Hno.
  apply set_eq. intros x. set_unfold. destruct (decide (x = fd)) as [->|]; [|tauto]. naive_solver.
Qed.

(** A namespace for an ID-mapped mount is handed out only with verified maps, and its
    keeper never survives: whatever happens, a keeper that was cloned is killed and waited
    for before the call returns; on success the launcher holds one more descriptor, and
    the maps of the keeper's namespace were read back exactly; on failure it holds what it
    held before. *)
Theorem idmap_namespaces_are_verified `{NamespaceKernel} mapper identity s r s' :
  quiet_mapper mapper → (∀ t open child fd, open_userns_at t open child = Ok fd → fd ∉ open) →
  create_mount_idmap_user_namespace mapper identity s = (r, s') →
  (∃ l, l_log s' = l_log s ++ l ∧ ended_child l) ∧
  match r with
  | Ok fd => l_open s' = l_open s ∪ {[fd]} ∧ fd ∉ l_open s ∧
      ∃ child ready from before to, maps_verified mapper child identity ready from before to
  | Err _ => l_open s' = l_open s
  end.
Proof.
  intros Hq Hfresh Hr. unfold create_mount_idmap_user_namespace in Hr.
  apply bind_inv in Hr as [([rr rw] & s1 & Hp1 & Hr)|(e & Hp1 & ->)]; pose proof (gives_pipe s) as Hg1; rewrite Hp1 in Hg1;
    [|destruct Hg1 as [Ho1 Hl1]; split; [exists []; rewrite app_nil_r; split; [done|by left]|done]].
  destruct Hg1 as (Ho1 & Hf1 & Hl1 & Hn1). apply own_run in Hr as (s2 & Hr & Hl2 & Ho2 & _).
  apply bind_inv in Hr as [([ir iw] & s3 & Hp2 & Hr)|(e & Hp2 & ->)]; pose proof (gives_pipe s1) as Hg2; rewrite Hp2 in Hg2.
  2: { destruct Hg2 as [Ho3 Hl3]. cbn [is_ok] in Ho2. split; [exists []; rewrite app_nil_r; split; [congruence|by left]|].
       rewrite Ho2, Ho3, Ho1. cbn [fst snd] in *. set_solver. }
  destruct Hg2 as (Ho3 & Hf3 & Hl3 & Hn3). apply own_run in Hr as (s4 & Hr & Hl4 & Ho4 & _).
  unfold mbind at 1, M_bind at 1, mapE, acquire in Hr. destruct (clone3_at _ _ _ _) as [[child pidfd]|errno] eqn:Hc.
  2: { injection Hr as <- <-. cbn [is_ok l_open l_log fst snd] in *.
       split; [exists []; rewrite app_nil_r; split; [congruence|by left]|]. rewrite Ho2, Ho4, Ho3, Ho1. clear - Hf1 Hf3 Ho1 Ho3. set_solver. }
  apply clone_fresh in Hc. cbn [fst snd] in *.
  unfold mbind, M_bind, log, drop_fds, tryM, kill_and_reap, mbind, M_bind, log_of, log in Hr. cbn [map_err l_clock l_open l_log] in Hr.
  match type of Hr with context [install_isolated_maps _ _ _ _ _ ?x] => set (s5 := x) in Hr end.
  assert (Ho5 : l_open s5 = (l_open s3 ∪ {[pidfd]}) ∖ {[rw; ir]}) by (unfold s5; cbn; by rewrite !union_empty_r_L).
  assert (Hl5 : l_log s5 = l_log s ++ [Cloned (Z.lor CLONE_PIDFD CLONE_NEWUSER) None child pidfd]) by (unfold s5; cbn; congruence).
  assert (Hd : (∀ x, x ∈ [rr; rw; ir; iw; pidfd] → x ∉ l_open s) ∧ rr ≠ rw ∧ rr ≠ ir ∧ iw ≠ rw ∧ iw ≠ ir ∧ pidfd ≠ rw ∧ pidfd ≠ ir).
  { rewrite Ho3, Ho1 in Hc. rewrite Ho1 in Hf3. apply NoDup_cons in Hn1 as [Hn1 _]. apply NoDup_cons in Hn3 as [Hn3 _].
    clear - Hc Hf1 Hf3 Hn1 Hn3. split_and!; set_solver. }
  destruct Hd as (Hall & Hd). rewrite Ho3, Ho1, keeper_open in Ho5 by (done || apply Hd).
  assert (Hall3 : ∀ x, x ∈ [rr; iw; pidfd] → x ∉ l_open s) by (intros x Hx; apply Hall; clear - Hx; set_solver).
  clearbody s5. destruct (install_isolated_maps _ _ _ _ _ s5) as [rh s6] eqn:Hin.
  apply handshake_run in Hin as (Ho6 & hs & Hhelp & Hcase); [|done].
  assert (Hnc : ∀ tail, Forall no_clone tail → Forall no_clone (AwaitedReady (l_open s5) :: hs ++ tail)).
  { intros tail Ht. constructor; [done|]. apply Forall_app. split; [|done].
    eapply Forall_impl; [exact Hhelp|]. by intros []. }
  destruct rh as [u|e].
  - destruct Hcase as (Hl6 & to & n & Hv & _). unfold acquire in Hr. destruct (open_userns_at _ _ _) as [fd|errno] eqn:Hns; cbn in Hr;
      injection Hr as <- <-; cbn [is_ok l_open l_log] in *.
    + split.
      * eexists. split; [|right; exists (Z.lor CLONE_PIDFD CLONE_NEWUSER), None, child, pidfd,
          (AwaitedReady (l_open s5) :: hs ++ [Released]); eexists; split; [reflexivity|apply Hnc; by repeat constructor]].
        rewrite Hl2, Hl4, Hl6, Hl5, <-!app_assoc. cbn. by rewrite <-!app_assoc.
      * apply Hfresh in Hns. rewrite Ho6, Ho5 in Hns. rewrite Ho2, Ho4, Ho6, Ho5.
        split_and!; [by apply keeper_leaves|clear - Hns; set_solver|by do 5 eexists].
    + split.
      * eexists. split; [|right; exists (Z.lor CLONE_PIDFD CLONE_NEWUSER), None, child, pidfd,
          (AwaitedReady (l_open s5) :: hs ++ [Released]); eexists; split; [reflexivity|apply Hnc; by repeat constructor]].
        rewrite Hl2, Hl4, Hl6, Hl5, <-!app_assoc. cbn. by rewrite <-!app_assoc.
      * rewrite Ho2, Ho4, Ho6, Ho5. exact (keeper_failed _ _ _ _ _ _ Hall Hall3).
  - cbn in Hr. injection Hr as <- <-. cbn [is_ok l_open l_log] in *. split.
    + eexists. split; [|right; exists (Z.lor CLONE_PIDFD CLONE_NEWUSER), None, child, pidfd,
        (AwaitedReady (l_open s5) :: hs); eexists; split; [reflexivity|rewrite <-(app_nil_r hs); by apply Hnc]].
      by rewrite Hl2, Hl4, Hcase, Hl5, <-!app_assoc.
    + rewrite Ho2, Ho4, Ho6, Ho5. exact (keeper_failed _ _ _ _ _ _ Hall Hall3).
Qed.
End descriptors.

(** ** The mapper of shadow-utils is quiet *)

Section shadow.
Context `{HelperKernel}.

Lemma run_helper_quiet helper inside outside s :
  let s' := (run_helper helper inside outside s).2 in
  l_open s' = l_open s ∧ ∃ l, l_log s' = l_log s ++ l ∧ Forall is_helper l.
Proof.
  unfold run_helper, mbind, M_bind, acquire, ask, log, drop_fds, liftR. cbn [l_clock l_open].
  destruct (duplicate_at _ _) as [fd|e] eqn:Hd; cbn.
  - apply duplicate_fresh, opened_closed in Hd. cbn in Hd.
    destruct (helper_at _ _ _) as [[[b st] w]|e]; [destruct b|]; cbn; rewrite Hd;
      (split; [done|]); eexists; (split; [done|by repeat constructor]).
  - split; [done|]. exists []. split; [by rewrite app_nil_r|constructor].
Qed.

Lemma install_quiet helpers : quiet_mapper (install helpers).
Proof.
  intros child identity s. unfold install, mbind, M_bind.
  pose proof (run_helper_quiet (uid_helper helpers) (Manager.runtime_uid identity) (Manager.host_uid identity) s) as [Ho (l & Hl & Hh)].
  destruct (run_helper (uid_helper helpers) _ _ s) as [[u|e] s1]; cbn in *; [|split; [done|by exists l]].
  pose proof (run_helper_quiet (gid_helper helpers) (Manager.runtime_gid identity) (Manager.host_gid identity) s1) as [Ho2 (l2 & Hl2 & Hh2)].
  split; [congruence|]. exists (l ++ l2). rewrite Hl2, Hl, app_assoc. split; [done|]. by apply Forall_app.
Qed.
End shadow.

(** ** A launcher to run *)

Definition top (open : gset Z) : Z := foldr Z.max 2 (elements open) + 1.

Lemma top_above open x : x ∈ open → x < top open.
Proof.
  rewrite <-elem_of_elements. unfold top. generalize (elements open) as l. induction l as [|y l IH]; [by intros ?%not_elem_of_nil|].
  intros [->|Hx]%elem_of_cons; cbn; [lia|]. apply IH in Hx. lia.
Qed.

(** The status pipe holds [report]; the maps are those of the identity below. *)
Definition sample_spawn (report : list Z) : SpawnKernel.
Proof.
  refine {|
    pipe_at := fun _ open => Ok (top open, top open + 1); socketpair_at := fun _ open => Ok (top open, top open + 1);
    pidfd_open_at := fun _ open => Ok (top open); devnull_at := fun _ open => Ok (top open);
    is_devnull_at := fun _ _ => true; fd_valid_at := fun _ _ => true;
    clone3_at := fun _ open _ _ => Ok (4242, top open);
    barrier_byte_at := fun _ _ => Ok (Some MAP_READY); release_at := fun _ _ => Ok 1%nat;
    proc_dir_at := fun _ open _ => Ok (top open); proc_open_at := fun _ open _ _ => Ok (top open);
    kill_child_at := fun _ _ => Ok tt; reap_child_at := fun _ _ => Ok tt;
    proc_read_at := fun _ _ name =>
      Ok (if bool_decide (name = "uid_map") then "      1000     100001          1"
          else if bool_decide (name = "gid_map") then "      1000     100002          1"
          else "allow" +:+ String newline EmptyString)%stdpp;
    status_at := fun _ _ => ([Upto 11; Upto 11], take 12 report) |}.
  intros Hh t fd. cbn [fst snd]. unfold read_child_failure.
  destruct (read_record [Upto 11; Upto 11] STATUS_RECORD_LEN (take 12 report)) as [x|] eqn:Hr; [by eexists|].
  exfalso. do 13 (destruct report as [|? report]; [done|]). done.
Defined.

#[local] Instance sample_spawn_laws report : @SpawnLaws (sample_spawn report).
Proof.
  split; cbn; intros; simplify_eq/=; split_and?; try (intros Hin; apply top_above in Hin; lia); lia.
Defined.

#[local] Existing Instance launcher_host.
#[local] Existing Instance LaunchSetup.ascii_tables.
#[local] Existing Instance Landlock.sample_api.
#[local] Existing Instance SeccompFilter.reference_compiler.

#[local] Program Instance sample_helpers : HelperKernel := {|
  duplicate_at := fun _ open => Ok (top open); helper_at := fun _ _ _ => Ok (true, "exit status: 0", "") |}.
Next Obligation. intros t open fd [= <-] Hin%top_above. lia. Qed.

Definition sample_launcher : launcher := MkLauncher 0 (list_to_set (seqZ 0 9)) [].
Definition sample_mounts : MountSetup := Child.MkMounts 3 4 6 8.
Definition sample_identity : IsolatedIdentity := Manager.MkIdentity 1000 1000 100001 100002.

Notation sample_launch report :=
  (@spawn_with_cgroup_on_owner launcher_host LaunchSetup.ascii_tables (sample_spawn report) Landlock.sample_api
     SeccompFilter.reference_compiler SyscallNames.X86_64 (Some 4) (Some (install default_helpers)) sample_command sample_config
     (Some 5) (Some sample_mounts) sample_launcher).

Lemma sample_mapper_quiet m : Some (install default_helpers) = Some m → quiet_mapper m.
Proof. intros [= <-]. apply install_quiet. Qed.

Lemma release_only_after_verified_maps_witness :
  let _ := sample_spawn [] in
  ∃ s', install_isolated_maps (install default_helpers) 4242 sample_identity 11 14 sample_launcher = (Ok tt, s') ∧
    Released ∈ l_log s' ∧
    ∃ released, maps_verified (install default_helpers) 4242 sample_identity 11 0 [AwaitedReady (l_open sample_launcher)] released.
Proof.
  cbn zeta. assert (Hr : ∃ s', @install_isolated_maps (sample_spawn []) (install default_helpers) 4242 sample_identity 11 14
    sample_launcher = (Ok tt, s')) by (eexists; vm_compute; reflexivity).
  destruct Hr as [s' Hr]. exists s'. split; [exact Hr|].
  destruct (@release_only_after_verified_maps (sample_spawn []) _ _ _ _ _ _ _ _ _ (install_quiet default_helpers) Hr)
    as (_ & l & _ & -> & Hv).
  split; [|by destruct (Hv eq_refl) as (released & _ & _ & _ & Hm); exists released].
  apply elem_of_app. right. apply elem_of_cons. right. apply elem_of_app. right. by left.
Defined.

(** The child reports that it could not enter its working directory. *)
Lemma sample_failed :
  ∃ s', sample_launch (status_record WorkingDirectory 0 2) = (Err (Setup WorkingDirectory 0 (Some 2)), s') ∧ l_log s' ≠ [].
Proof. eexists. split; [vm_compute; reflexivity|done]. Qed.

Lemma failed_launches_leave_nothing_witness :
  ∃ s', sample_launch (status_record WorkingDirectory 0 2) = (Err (Setup WorkingDirectory 0 (Some 2)), s') ∧
    l_open s' = l_open sample_launcher ∖ list_to_set (mount_fds (Some sample_mounts)) ∧ l_log s' ≠ [].
Proof.
  destruct sample_failed as (s' & Hr & Hl). exists s'. split; [exact Hr|]. split; [|exact Hl].
  apply failed_launches_leave_nothing in Hr as [Ho _]; [exact Ho|exact sample_mapper_quiet].
Defined.

Lemma sample_confirmed :
  ∃ setup child ends s', sample_launch [] = (Ok (setup, (child, ends)), s') ∧ Child.report_fd setup = 15 ∧ lc_pid child = 4242.
Proof. do 4 eexists. split; [vm_compute; reflexivity|by split]. Qed.

Lemma sample_mounts_open : list_to_set (mount_fds (Some sample_mounts)) ⊆ l_open sample_launcher.
Proof. apply (bool_decide_unpack _). by vm_compute. Qed.

Lemma successful_launches_were_confirmed_witness :
  ∃ setup child ends s', sample_launch [] = (Ok (setup, (child, ends)), s') ∧ Child.report_fd setup = 15 ∧ lc_pid child = 4242 ∧
    l_open s' = (l_open sample_launcher ∖ list_to_set (mount_fds (Some sample_mounts))) ∪ list_to_set (handle_fds child ends).
Proof.
  destruct sample_confirmed as (setup & child & ends & s' & Hr & Hf & Hp). exists setup, child, ends, s'.
  split; [exact Hr|]. split; [exact Hf|]. split; [exact Hp|].
  apply successful_launches_were_confirmed in Hr as (_ & _ & _ & _ & Ho); [exact Ho|exact sample_mapper_quiet|exact sample_mounts_open].
Defined.

#[local] Instance sample_namespace : NamespaceKernel := {| open_userns_at := fun _ open _ => Ok (top open) |}.

Notation sample_idmap :=
  (@create_mount_idmap_user_namespace launcher_host (sample_spawn []) sample_namespace (install default_helpers) sample_identity
     sample_launcher).

Lemma sample_idmap_made : ∃ s', sample_idmap = (Ok 14, s').
Proof. eexists. vm_compute. reflexivity. Qed.

Lemma idmap_namespaces_are_verified_witness :
  ∃ s', sample_idmap = (Ok 14, s') ∧ l_open s' = l_open sample_launcher ∪ {[14]} ∧
    ∃ child ready from before to, @maps_verified (sample_spawn []) (install default_helpers) child sample_identity ready from before to.
Proof.
  destruct sample_idmap_made as [s' Hr]. exists s'. split; [exact Hr|].
  apply idmap_namespaces_are_verified in Hr as (_ & Ho & _ & Hv); [by split|apply install_quiet|].
  intros t open child fd. cbn. intros [= <-] Hin%top_above. lia.
Defined.
End SpawnSafety.
