(* ===== verification/ChildHandle.v ===== *)
(** * The handle of a running child ([shbox-sandbox]: linux/mod.rs, LinuxChild)

    Signals, waiting and teardown.  What each operation asks of the kernel is recorded in
    order; the kernel's answers are given by time. *)

From S2P Require Import Prelude Text Toml FileSystem RuntimeLedger Manager EnginePolicy ControlGroups ChildRecords LinuxSpawn.

Module Handle.
Import Engine Records Spawn.

Definition SIGKILL : Z := 9.

(** What is asked of the kernel. *)
Inductive request :=
| ToPidfd (pidfd signal : Z)
| ToGroup (group signal : Z)
| ToSupervisor (kind signal : Z)
| KillCgroup (cgroup : Z)
| DropCgroup (cgroup : Z).

Record hstate := MkH { h_clock : nat; h_log : list request }.

Class HandleKernel := {
  send_pidfd_at : nat → Z → Z → result io_error unit;
  (** [kill(2)] with a negative process number. *)
  kill_group_at : nat → Z → Z → result Z unit;
  send_control_at : nat → Z → list Z → result io_error Z;
  waitid_at : nat → Z → bool → result io_error (Z * Z * Z);
  (** The reads of the supervisor's exit pipe, and what it holds. *)
  exit_pipe_at : nat → Z → list turn * list Z;
  exit_pipe_ends : ∀ t fd, is_Some (read_supervisor_exit (exit_pipe_at t fd).1 (exit_pipe_at t fd).2);
  (** How many handles share the control group. *)
  cgroup_owners_at : nat → Z;
  (** The monotonic clock, in nanoseconds. *)
  instant_at : nat → Z;
  instant_advances : ∀ t, instant_at t < instant_at (S t) }.

Notation HM := (M hstate io_error).

Section handle.
Context `{HandleKernel}.

Definition ask {A} (f : nat → A) : HM A := fun s => (Ok (f (h_clock s)), MkH (S (h_clock s)) (h_log s)).
Definition request_of {A} (r : request) (f : nat → A) : HM A := fun s =>
  (Ok (f (h_clock s)), MkH (S (h_clock s)) (h_log s ++ [r])).

Definition pidfd_send_signal (pidfd number : Z) : HM unit :=
  answer ← request_of (ToPidfd pidfd number) (fun now => send_pidfd_at now pidfd number);
  liftR answer.

(** The packet goes out only for a signal number the supervisor takes. *)
Definition control_signal (control kind number : Z) : HM unit := fun s =>
  let sent := send_supervisor_signal kind number (send_control_at (h_clock s) control) in
  (sent, MkH (S (h_clock s))
           (if (0 <=? number) && (number <=? 64) then h_log s ++ [ToSupervisor kind number] else h_log s)).

Definition signal (c : LinuxChild) (number : Z) : HM unit :=
  match supervisor_control c with
  | Some control => control_signal control SUPERVISOR_SIGNAL_DIRECT number
  | None => pidfd_send_signal (lc_pidfd c) number
  end.

Definition ESRCH : Z := 3.

Definition signal_process_group (c : LinuxChild) (number : Z) : HM unit :=
  if negb (owns_process_group c) || (lc_pid c <=? 1) then mret tt
  else match supervisor_control c with
       | Some control => control_signal control SUPERVISOR_SIGNAL_GROUP number
       | None =>
           answer ← request_of (ToGroup (- lc_pid c) number) (fun now => kill_group_at now (- lc_pid c) number);
           match answer with
           | Ok _ => mret tt
           | Err errno => if errno =? ESRCH then mret tt else fail (Errno errno)
           end
       end.

Definition with_status (c : LinuxChild) (status : ExitStatus) : LinuxChild :=
  MkLinuxChild (lc_pid c) (lc_pidfd c) (lc_cgroup c) (Some status) (torn_down c) (owns_process_group c)
    (pid_namespace_init c) (supervisor_control c) (supervisor_exit c).

(** What the supervisor said of the user's process: the reads of the pipe end, so that
    there is always an answer. *)
Definition exit_said (now : nat) (fd : Z) : result io_error ExitStatus :=
  default (Err (Errno 0)) (read_supervisor_exit (exit_pipe_at now fd).1 (exit_pipe_at now fd).2).

Definition supervised_exit (c : LinuxChild) : HM ExitStatus :=
  fd ← liftR (ok_or (IoOther "missing PID-namespace supervisor exit channel") (supervisor_exit c));
  answer ← ask (fun now => exit_said now fd);
  liftR answer.

Definition waited (c : LinuxChild) (nohang : bool) : HM (option ExitStatus) :=
  answer ← ask (fun now => waitid_at now (lc_pidfd c) nohang);
  liftR (pidfd_wait answer nohang).

(** The status of a process that ended, from the supervisor when there is one. *)
Definition reported (c : LinuxChild) (direct : ExitStatus) : HM ExitStatus :=
  if pid_namespace_init c then supervised_exit c else mret direct.

Definition wait (c : LinuxChild) : HM (ExitStatus * LinuxChild) :=
  match lc_status c with
  | Some status => mret (status, c)
  | None =>
      exited ← waited c false;
      status ← reported c (default (exit_from_code 255) exited);
      mret (status, with_status c status)
  end.

Definition try_wait (c : LinuxChild) : HM (option ExitStatus * LinuxChild) :=
  match lc_status c with
  | Some status => mret (Some status, c)
  | None =>
      exited ← waited c true;
      match exited with
      | None => mret (None, c)
      | Some direct => status ← reported c direct; mret (Some status, with_status c status)
      end
  end.

(** ** Teardown *)

Definition TEARDOWN_TIMEOUT : Z := 500000000.

(** One turn of the bounded reap: nothing to go on, the end with or without a status. *)
Definition reap_turn (c : LinuxChild) (deadline : Z) : HM (option (option ExitStatus)) :=
  now ← ask instant_at;
  if deadline <=? now then mret (Some None)
  else
    exited ← tryM (waited c true);
    mret (match exited with
          | Ok (Some status) => Some (Some status)
          | Ok None => None
          | Err _ => Some None
          end).

(** Every turn takes time, so that a turn per nanosecond of the timeout is enough: the
    turns never run out, see [bounded_reap_run]. *)
Definition REAP_TURNS : nat := 30.

Definition bounded_reap (c : LinuxChild) : HM (option ExitStatus) :=
  start ← ask instant_at;
  ended ← Cgroups.repeat_until REAP_TURNS (reap_turn c (start + TEARDOWN_TIMEOUT));
  match ended with
  | Some status => mret status
  | None => fail (IoOther "unreachable: the reap has no end")
  end.

Definition kill_running (c : LinuxChild) : HM unit :=
  if pid_namespace_init c then _ ← tryM (pidfd_send_signal (lc_pidfd c) SIGKILL); mret tt
  else
    _ ← (if owns_process_group c then _ ← tryM (signal_process_group c SIGKILL); mret tt else mret tt);
    _ ← tryM (signal c SIGKILL);
    mret tt.

Definition release_cgroup (c : LinuxChild) (was_running : bool) : HM unit :=
  match lc_cgroup c with
  | None => mret tt
  | Some cgroup =>
      owners ← ask cgroup_owners_at;
      _ ← (if was_running && (owners =? 1) then request_of (KillCgroup cgroup) (fun _ => tt) else mret tt);
      request_of (DropCgroup cgroup) (fun _ => tt)
  end.

Definition teardown (c : LinuxChild) : HM LinuxChild :=
  if torn_down c then mret c
  else
    let was_running := match lc_status c with None => true | Some _ => false end in
    status ← (if was_running then _ ← kill_running c; bounded_reap c else mret (lc_status c));
    _ ← release_cgroup c was_running;
    mret (MkLinuxChild (lc_pid c) (lc_pidfd c) None status true (owns_process_group c) (pid_namespace_init c) None None).

(** [Drop]. *)
Definition drop_child (c : LinuxChild) : HM unit := _ ← teardown c; mret tt.

(** ** What the operations promise *)

(** Where a status comes from: the record of the supervisor in a PID namespace, the
    kernel's account of the direct child otherwise. *)
Definition status_source (c : LinuxChild) (nohang : bool) (status : ExitStatus) : Prop :=
  ∃ t exited, pidfd_wait (waitid_at t (lc_pidfd c) nohang) nohang = Ok exited ∧
  if pid_namespace_init c
  then ∃ t' fd, supervisor_exit c = Some fd ∧
       read_supervisor_exit (exit_pipe_at t' fd).1 (exit_pipe_at t' fd).2 = Some (Ok status)
  else status = default (exit_from_code 255) exited.

(** What teardown asks of the kernel: the signals for a child whose status is not known,
    then the release of its group. *)
Definition kill_requests (c : LinuxChild) : list request :=
  if pid_namespace_init c then [ToPidfd (lc_pidfd c) SIGKILL]
  else
    (if owns_process_group c && (1 <? lc_pid c)
     then [match supervisor_control c with
           | Some _ => ToSupervisor SUPERVISOR_SIGNAL_GROUP SIGKILL
           | None => ToGroup (- lc_pid c) SIGKILL
           end]
     else [])
    ++ [match supervisor_control c with
        | Some _ => ToSupervisor SUPERVISOR_SIGNAL_DIRECT SIGKILL
        | None => ToPidfd (lc_pidfd c) SIGKILL
        end].

Definition cgroup_requests (c : LinuxChild) (last_owner : bool) : list request :=
  match lc_cgroup c with
  | None => []
  | Some cgroup =>
      (if bool_decide (lc_status c = None) && last_owner then [KillCgroup cgroup] else []) ++ [DropCgroup cgroup]
  end.

Definition teardown_requests (c : LinuxChild) (last_owner : bool) : list request :=
  if torn_down c then []
  else (if bool_decide (lc_status c = None) then kill_requests c else []) ++ cgroup_requests c last_owner.

(** When a teardown that starts in [s] begins to reap. *)
Definition reap_start (c : LinuxChild) (s : hstate) : nat := h_clock s + length (kill_requests c).

(** A step that asks exactly [l], whether it succeeds or not, and one that also succeeds. *)
Definition logged {A} (l : list request) (m : HM A) : Prop := ∀ s,
  h_log (m s).2 = h_log s ++ l ∧ (h_clock s <= h_clock (m s).2)%nat.
Definition succeeds {A} (m : HM A) : Prop := ∀ s, is_ok (m s).1 = true.
End handle.

Section facts.
Context `{HandleKernel}.

Lemma logged_ret {A} (a : A) : logged [] (mret a).
Proof. intros s. cbn. by rewrite app_nil_r. Qed.

Lemma logged_lift {A} (r : result io_error A) : logged [] (liftR r).
Proof. intros s. cbn. by rewrite app_nil_r. Qed.

Lemma logged_ask {A} (f : nat → A) : logged [] (ask f).
Proof. intros s. cbn. rewrite app_nil_r. split; [done|lia]. Qed.

Lemma logged_request {A} r (f : nat → A) : logged [r] (request_of r f).
Proof. intros s. cbn. split; [done|lia]. Qed.

Lemma logged_try {A} l (m : HM A) : logged l m → logged l (tryM m).
Proof. intros Hm s. specialize (Hm s). unfold tryM. by destruct (m s). Qed.

(** A sequence: what follows is asked when the first step succeeds. *)
Lemma logged_bind {A B} l1 l2 (m : HM A) (f : A → HM B) :
  succeeds m → logged l1 m → (∀ a, logged l2 (f a)) → logged (l1 ++ l2) (m ≫= f).
Proof.
  intros Hs Hm Hf s. specialize (Hm s). specialize (Hs s). unfold mbind, M_bind.
  destruct (m s) as [[a|e] s1]; [|done]. specialize (Hf a s1). cbn in Hm.
  destruct Hf as [-> ?], Hm as [-> ?]. rewrite (assoc_L (++)). split; [done|lia].
Qed.

Lemma logged_last {A B} l (m : HM A) (f : A → HM B) :
  logged l m → (∀ a, logged [] (f a)) → logged l (m ≫= f).
Proof.
  intros Hm Hf s. specialize (Hm s). unfold mbind, M_bind.
  destruct (m s) as [[a|e] s1]; [|done]. specialize (Hf a s1). cbn in Hm.
  destruct Hf as [-> ?], Hm as [-> ?]. rewrite app_nil_r. split; [done|lia].
Qed.

Lemma succeeds_try {A} (m : HM A) : succeeds (tryM m).
Proof. intros s. unfold tryM. by destruct (m s). Qed.

Lemma succeeds_bind {A B} (m : HM A) (f : A → HM B) : succeeds m → (∀ a, succeeds (f a)) → succeeds (m ≫= f).
Proof.
  intros Hm Hf s. specialize (Hm s). unfold mbind, M_bind. destruct (m s) as [[a|e] s1]; [|done]. apply Hf.
Qed.

Lemma pidfd_logged pidfd number : logged [ToPidfd pidfd number] (pidfd_send_signal pidfd number).
Proof. apply logged_last; [apply logged_request|]. intros a. apply logged_lift. Qed.

Lemma control_logged control kind number :
  0 <= number <= 64 → logged [ToSupervisor kind number] (control_signal control kind number).
Proof.
  intros Hn s. unfold control_signal. cbn [fst snd h_log h_clock].
  rewrite (proj2 (Z.leb_le 0 number)), (proj2 (Z.leb_le number 64)) by lia. cbn. split; [done|lia].
Qed.

Lemma waited_logged c nohang : logged [] (waited c nohang).
Proof. apply logged_last; [apply logged_ask|]. intros a. apply logged_lift. Qed.

Lemma reported_logged c direct : logged [] (reported c direct).
Proof.
  unfold reported, supervised_exit. case_match; [|apply logged_ret].
  apply logged_last; [apply logged_lift|]. intros fd. apply logged_last; [apply logged_ask|]. intros a. apply logged_lift.
Qed.

Lemma wait_logged c : logged [] (wait c).
Proof.
  unfold wait. case_match; [apply logged_ret|]. apply logged_last; [apply waited_logged|]. intros o.
  apply logged_last; [apply reported_logged|]. intros a. apply logged_ret.
Qed.

Lemma try_wait_logged c : logged [] (try_wait c).
Proof.
  unfold try_wait. case_match; [apply logged_ret|]. apply logged_last; [apply waited_logged|]. intros [o|].
  - apply logged_last; [apply reported_logged|]. intros a. apply logged_ret.
  - apply logged_ret.
Qed.

(** *** Statuses *)

Lemma waited_Ok c nohang s o s' :
  waited c nohang s = (Ok o, s') → pidfd_wait (waitid_at (h_clock s) (lc_pidfd c) nohang) nohang = Ok o.
Proof.
  intros Hw. apply bind_Ok in Hw as (a & s1 & Ha & Hw). apply liftR_Ok in Hw as [Hw ->].
  unfold ask in Ha. by injection Ha as <- <-.
Qed.

Lemma supervised_exit_Ok c s status s' :
  supervised_exit c s = (Ok status, s') →
  ∃ t fd, supervisor_exit c = Some fd ∧
    read_supervisor_exit (exit_pipe_at t fd).1 (exit_pipe_at t fd).2 = Some (Ok status).
Proof.
  intros Hr. apply bind_Ok in Hr as (fd & s1 & Hfd & Hr). apply liftR_Ok in Hfd as [Hfd%ok_or_Ok ->].
  apply bind_Ok in Hr as (r & s2 & Ha & Hr). apply liftR_Ok in Hr as [-> ->]. unfold ask in Ha. injection Ha as Ha _.
  exists (h_clock s), fd. split; [done|].
  destruct (exit_pipe_ends (h_clock s) fd) as [r' Hr']. unfold exit_said in Ha. rewrite Hr' in Ha |- *. by cbn in Ha; subst.
Qed.

(** The status a finished process is given, from what the kernel said of it. *)
Lemma reported_source c nohang t exited s status s' :
  pidfd_wait (waitid_at t (lc_pidfd c) nohang) nohang = Ok exited →
  reported c (default (exit_from_code 255) exited) s = (Ok status, s') →
  status_source c nohang status.
Proof.
  intros Hw Hr. exists t, exited. split; [done|]. unfold reported in Hr.
  case_match; [by eapply supervised_exit_Ok|]. by apply ret_Ok in Hr as [-> _].
Qed.

(** The status of a child is decided once and is the right one: when it is known,
    waiting and polling give it back without asking the kernel anything; when it is not,
    the status they give is kept in the handle and nothing else of it changes, it is the
    record the supervisor wrote when the child is the first process of a PID namespace and
    the kernel's account of the direct child otherwise, polling says "still running" only
    when the kernel said that nothing had ended, and neither ever signals anything. *)
Theorem statuses_are_settled c s :
  (∀ st, lc_status c = Some st → wait c s = (Ok (st, c), s) ∧ try_wait c s = (Ok (Some st, c), s)) ∧
  (∀ st c' s', lc_status c = None → wait c s = (Ok (st, c'), s') → c' = with_status c st ∧ status_source c false st) ∧
  (∀ o c' s', lc_status c = None → try_wait c s = (Ok (o, c'), s') →
     match o with
     | Some st => c' = with_status c st ∧ status_source c true st
     | None => c' = c ∧ pidfd_wait (waitid_at (h_clock s) (lc_pidfd c) true) true = Ok None
     end) ∧
  h_log (wait c s).2 = h_log s ∧ h_log (try_wait c s).2 = h_log s.
Proof.
  split_and!.
  - intros st Hst. unfold wait, try_wait. by rewrite Hst.
  - intros st c' s' Hn Hw. unfold wait in Hw. rewrite Hn in Hw.
    apply bind_Ok in Hw as (o & s1 & Ho%waited_Ok & Hw). apply bind_Ok in Hw as (st' & s2 & Hr & Hw).
    apply ret_Ok in Hw as [[= -> ->] _]. split; [done|]. by eapply reported_source.
  - intros o c' s' Hn Hw. unfold try_wait in Hw. rewrite Hn in Hw.
    apply bind_Ok in Hw as ([d|] & s1 & Ho%waited_Ok & Hw).
    + apply bind_Ok in Hw as (st' & s2 & Hr & Hw). apply ret_Ok in Hw as [[= -> ->] _].
      split; [done|]. by eapply (reported_source c true _ (Some d)).
    + by apply ret_Ok in Hw as [[= -> ->] _].
  - destruct (wait_logged c s) as [-> _]. apply app_nil_r.
  - destruct (try_wait_logged c s) as [-> _]. apply app_nil_r.
Qed.

(** *** Teardown *)

Lemma instant_mono t t' : (t <= t')%nat → instant_at t + Z.of_nat (t' - t) <= instant_at t'.
Proof. induction 1 as [|t' Ht IH]; [lia|]. pose proof (instant_advances t'). lia. Qed.

(** A turn makes at most two calls, and one when the deadline has passed. *)
Lemma reap_turn_run c deadline s :
  ∃ o s', reap_turn c deadline s = (Ok o, s') ∧ h_log s' = h_log s ∧ (h_clock s < h_clock s' <= h_clock s + 2)%nat ∧
    (instant_at (h_clock s) < deadline ∨ h_clock s' = S (h_clock s)) ∧
    (o = None → instant_at (h_clock s) < deadline) ∧
    (∀ st, o = Some (Some st) → ∃ t, pidfd_wait (waitid_at t (lc_pidfd c) true) true = Ok (Some st)).
Proof.
  unfold reap_turn, ask, waited, tryM, liftR, mbind, M_bind. cbn.
  destruct (Z.leb_spec deadline (instant_at (h_clock s))).
  - do 2 eexists. split; [done|]. cbn. split_and!; [done|lia|lia|by right|done|done].
  - do 2 eexists. split; [done|]. cbn. split_and!; [done|lia|lia|by left|done|].
    intros st. case_match eqn:Hw; [|done]. case_match; [|done]. intros [= ->]. by eexists.
Qed.

(** A turn begins right after the start of the reap, or within a call of a reading of the
    clock before the deadline. *)
Definition reap_begins (start : nat) (deadline : Z) (l : list request) (s : hstate) : Prop :=
  h_log s = l ∧
  (h_clock s = S start ∨ (start < h_clock s)%nat ∧ ∃ u, instant_at u < deadline ∧ (h_clock s <= u + 2)%nat).

Lemma reap_begins_keep start deadline l c s s' :
  reap_begins start deadline l s → reap_turn c deadline s = (Ok None, s') → reap_begins start deadline l s'.
Proof.
  intros [Hl Hb] Hr. destruct (reap_turn_run c deadline s) as (o & s1 & Hr' & Hl' & Hle & _ & Hon & _).
  rewrite Hr in Hr'. injection Hr' as <- <-. split; [congruence|]. right.
  split; [destruct Hb as [Hb|[Hb _]]; lia|]. exists (h_clock s). split; [by apply Hon|lia].
Qed.

#[local] Opaque REAP_TURNS.

(** The reap always gives an answer, asks nothing, and after half a second makes at most
    two more calls. *)
Lemma bounded_reap_run c s :
  ∃ o s', bounded_reap c s = (Ok o, s') ∧ h_log s' = h_log s ∧
    (∀ st, o = Some st → ∃ t, pidfd_wait (waitid_at t (lc_pidfd c) true) true = Ok (Some st)) ∧
    (∀ t, (h_clock s <= t)%nat → instant_at (h_clock s) + 500000000 <= instant_at t → (h_clock s' <= t + 2)%nat).
Proof.
  unfold bounded_reap, ask, mbind, M_bind. set (deadline := _ + TEARDOWN_TIMEOUT). set (s1 := MkH _ _).
  destruct (Cgroups.repeat_until REAP_TURNS (reap_turn c deadline) s1) as [r s2] eqn:Hrep.
  assert (Hfirst : reap_begins (h_clock s) deadline (h_log s) s1) by (split; [done|by left]).
  destruct (Cgroups.repeat_last _ _ _ _ _ _ (fun s1 s2 => reap_begins_keep _ _ _ c s1 s2) Hfirst Hrep)
    as [[_ ->]|[Hne (s0 & [Hl Hb] & Hturn)]].
  { exfalso. apply (Cgroups.repeat_all _ (fun s => instant_at (h_clock s)) deadline) in Hrep as [Hrep _].
    - pose proof (instant_advances (h_clock s)). revert Hrep. change (2 ^ Z.of_nat REAP_TURNS) with 1073741824.
      unfold deadline, TEARDOWN_TIMEOUT, s1. cbn [h_clock]. lia.
    - intros x y Hxy. destruct (reap_turn_run c deadline x) as (o & y' & Hr' & _ & Hle & _ & Hon & _).
      rewrite Hxy in Hr'. injection Hr' as <- <-. pose proof (instant_mono (h_clock x) (h_clock y) ltac:(lia)).
      specialize (Hon eq_refl). cbn beta. lia. }
  destruct (reap_turn_run c deadline s0) as (o & y' & Hr' & Hl' & Hle & Hlate & _ & Hst).
  rewrite Hturn in Hr'. injection Hr' as -> <-. destruct o as [o|]; [|done].
  exists o, s2. split_and!; [done|congruence|intros st ->; by apply Hst|].
  intros t Ht Hpast. assert (Hafter : ∀ u, instant_at u < deadline → (u < t)%nat).
  { intros u Hu. destruct (decide (t <= u)%nat) as [Htu|]; [|lia]. pose proof (instant_mono t u Htu).
    revert Hu. unfold deadline, TEARDOWN_TIMEOUT. lia. }
  assert (h_clock s < t)%nat by (apply Hafter; unfold deadline, TEARDOWN_TIMEOUT; lia).
  destruct Hb as [Hb|[_ (u & Hu%Hafter & Hb)]], Hlate as [Hlate%Hafter|Hlate]; lia.
Qed.

Lemma signal_logged c :
  logged [match supervisor_control c with
          | Some _ => ToSupervisor SUPERVISOR_SIGNAL_DIRECT SIGKILL
          | None => ToPidfd (lc_pidfd c) SIGKILL
          end] (signal c SIGKILL).
Proof. unfold signal. case_match; [by apply control_logged|apply pidfd_logged]. Qed.

Lemma group_logged c number :
  0 <= number <= 64 →
  logged (if owns_process_group c && (1 <? lc_pid c)
          then [match supervisor_control c with
                | Some _ => ToSupervisor SUPERVISOR_SIGNAL_GROUP number
                | None => ToGroup (- lc_pid c) number
                end]
          else []) (signal_process_group c number).
Proof.
  intros Hn. unfold signal_process_group. destruct (owns_process_group c); cbn [negb orb andb]; [|apply logged_ret].
  destruct (Z.leb_spec (lc_pid c) 1), (Z.ltb_spec 1 (lc_pid c)); try lia; [apply logged_ret|].
  case_match; [by apply control_logged|]. apply logged_last; [apply logged_request|].
  intros [u|e]; [apply logged_ret|]. case_match; [apply logged_ret|apply (logged_lift (Err _))].
Qed.

Lemma kill_running_logged c : logged (kill_requests c) (kill_running c) ∧ succeeds (kill_running c).
Proof.
  unfold kill_requests, kill_running. case_match.
  - split; [|by apply succeeds_bind; [apply succeeds_try|]].
    apply logged_last; [apply logged_try, pidfd_logged|]. intros r. apply logged_ret.
  - assert (Hs : succeeds (if owns_process_group c
      then (_ ← tryM (signal_process_group c SIGKILL); mret tt : HM unit) else mret tt)).
    { case_match; [apply succeeds_bind; [apply succeeds_try|done]|done]. }
    split.
    + apply logged_bind; [done| |].
      * destruct (owns_process_group c) eqn:Ho; [|apply logged_ret].
        pose proof (group_logged c SIGKILL ltac:(done)) as Hg. rewrite Ho in Hg. cbn [andb] in *.
        apply logged_last; [by apply logged_try|]. intros r. apply logged_ret.
      * intros _. apply logged_last; [apply logged_try, signal_logged|]. intros r. apply logged_ret.
    + apply succeeds_bind; [done|]. intros _. apply succeeds_bind; [apply succeeds_try|done].
Qed.

(** Every signal of the kill is one call. *)
Lemma kill_running_clock c s : h_clock (kill_running c s).2 = reap_start c s.
Proof.
  unfold reap_start, kill_requests, kill_running, signal, signal_process_group, pidfd_send_signal, control_signal,
    request_of, tryM, liftR, fail, mbind, M_bind, mret, M_ret.
  destruct (pid_namespace_init c), (owns_process_group c); cbn [negb orb andb];
    try destruct (Z.leb_spec (lc_pid c) 1), (Z.ltb_spec 1 (lc_pid c)); try lia;
    destruct (supervisor_control c); cbn; repeat case_match; simplify_eq; cbn; lia.
Qed.

(** The group is released as its owners at that time allow, in at most three calls. *)
Lemma release_run c s :
  ∃ t s', release_cgroup c (bool_decide (lc_status c = None)) s = (Ok tt, s') ∧
    h_log s' = h_log s ++ cgroup_requests c (cgroup_owners_at t =? 1) ∧ (h_clock s' <= h_clock s + 3)%nat.
Proof.
  unfold release_cgroup, cgroup_requests. destruct (lc_cgroup c) as [g|].
  - exists (h_clock s). unfold mbind, M_bind, ask. cbn [h_clock h_log].
    destruct (bool_decide _ && _); eexists; cbn; (split; [done|]); cbn; (split; [by rewrite <-?(assoc_L (++))|lia]).
  - exists O, s. rewrite app_nil_r. split_and!; [done|done|lia].
Qed.

(** The kill and the reap of a child that is still running. *)
Lemma stop_run c s :
  ∃ o s', (_ ← kill_running c; bounded_reap c) s = (Ok o, s') ∧ h_log s' = h_log s ++ kill_requests c ∧
    (∀ st, o = Some st → ∃ t, pidfd_wait (waitid_at t (lc_pidfd c) true) true = Ok (Some st)) ∧
    (∀ t, (reap_start c s <= t)%nat → instant_at (reap_start c s) + 500000000 <= instant_at t → (h_clock s' <= t + 2)%nat).
Proof.
  destruct (kill_running_logged c) as [Hl Hs]. specialize (Hl s). specialize (Hs s).
  destruct (kill_running c s) as [[u|] s1] eqn:Hk; [|done]. rewrite (bind_run _ _ _ _ _ Hk). destruct Hl as [Hl _]. cbn in Hl.
  pose proof (kill_running_clock c s) as Hc. rewrite Hk in Hc. cbn in Hc.
  destruct (bounded_reap_run c s1) as (o & s2 & Hb & Hl' & Hst & Htime). exists o, s2. rewrite <-Hc.
  split_and!; [done|congruence|done|done].
Qed.

(** A group that is signalled is the child's own: never the caller's, nor every process. *)
Lemma groups_are_owned c b g n : ToGroup g n ∈ teardown_requests c b → g < -1.
Proof.
  unfold teardown_requests, kill_requests, cgroup_requests.
  repeat case_match; rewrite ?elem_of_app, ?elem_of_cons, ?elem_of_nil; naive_solver lia.
Qed.

(** The first half of a teardown: the status at its end is the old one or a new one. *)
Lemma stop_phase c s :
  ∃ o s', (if bool_decide (lc_status c = None) then _ ← kill_running c; bounded_reap c else mret (lc_status c)) s
      = (Ok o, s') ∧ h_log s' = h_log s ++ (if bool_decide (lc_status c = None) then kill_requests c else []) ∧
    (∀ st, lc_status c = Some st → o = Some st ∧ s' = s) ∧
    (lc_status c = None →
     (∀ st, o = Some st → ∃ t', pidfd_wait (waitid_at t' (lc_pidfd c) true) true = Ok (Some st)) ∧
     (∀ t, (reap_start c s <= t)%nat → instant_at (reap_start c s) + 500000000 <= instant_at t → (h_clock s' <= t + 2)%nat)).
Proof.
  case_bool_decide as Hc.
  - destruct (stop_run c s) as (o & s1 & ? & ? & ? & ?). exists o, s1. split_and!; naive_solver congruence.
  - exists (lc_status c), s. rewrite app_nil_r. split_and!; naive_solver congruence.
Qed.

(** C23: Tearing a child down always succeeds, ends in time, and does exactly what it
    should: when half a second has passed since the signals were sent at most five more
    calls are made, and a child whose status is known is not waited
    for at all; a child whose status is known is not signalled; the first process of a PID
    namespace is killed through its pidfd; any other child is killed directly, after its
    process group when the launch created one (never the caller's own group, nor that of
    every process); the control group is killed only with a running child and by its last
    owner, and released always; a second teardown (or the drop of the handle) asks
    nothing; and a status the handle has at the end is the one it had, or one the kernel
    gave. *)
Theorem teardown_is_exact c s :
  ∃ t c' s', teardown c s = (Ok c', s') ∧
    h_log s' = h_log s ++ teardown_requests c (cgroup_owners_at t =? 1) ∧
    (∀ g n, ToGroup g n ∈ teardown_requests c (cgroup_owners_at t =? 1) → g < -1) ∧
    torn_down c' = true ∧ teardown c' s' = (Ok c', s') ∧
    (torn_down c = false → lc_cgroup c' = None ∧ supervisor_control c' = None ∧ supervisor_exit c' = None) ∧
    (∀ st, lc_status c = Some st → lc_status c' = Some st ∧ (h_clock s' <= h_clock s + 3)%nat) ∧
    (∀ st, lc_status c = None → lc_status c' = Some st →
       ∃ t', pidfd_wait (waitid_at t' (lc_pidfd c) true) true = Ok (Some st)) ∧
    (∀ u, (reap_start c s <= u)%nat → instant_at (reap_start c s) + 500000000 <= instant_at u →
       (h_clock s' <= u + 5)%nat).
Proof.
  destruct (torn_down c) eqn:Ht.
  { exists O, c, s. unfold teardown, teardown_requests, reap_start. rewrite Ht, app_nil_r. split_and!; try done.
    - intros g n. by rewrite elem_of_nil.
    - intros st ->. split; [done|lia].
    - congruence.
    - intros u Hu _. lia. }
  destruct (stop_phase c s) as (o & s1 & Hstop & Hl & Hkeep & Hnew).
  destruct (release_run c s1) as (t & s2 & Hrel & Hl2 & Hc2).
  exists t. do 2 eexists. split_and!.
  - unfold teardown. rewrite Ht.
    replace (match lc_status c with None => true | Some _ => false end) with (bool_decide (lc_status c = None))
      by (destruct (lc_status c); by case_bool_decide).
    rewrite (bind_run _ _ _ _ _ Hstop), (bind_run _ _ _ _ _ Hrel). done.
  - unfold teardown_requests. rewrite Ht, Hl2, Hl. by rewrite (assoc_L (++)).
  - apply groups_are_owned.
  - done.
  - done.
  - done.
  - intros st Hst. destruct (Hkeep st Hst) as [-> ->]. split; [done|lia].
  - intros st Hn. by apply Hnew.
  - intros u Hu Hpast. destruct (lc_status c) as [st|] eqn:Hc.
    + destruct (Hkeep st eq_refl) as [_ ->]. unfold reap_start in Hu. lia.
    + destruct (Hnew eq_refl) as [_ Htime]. specialize (Htime u Hu Hpast). lia.
Qed.
End facts.

(** ** A concrete run *)

(** A kernel in which a signalled child is gone at the next poll, and which hands over a
    full supervisor record in two reads. *)
#[local] Program Instance sample_kernel : HandleKernel := {
  send_pidfd_at _ _ _ := Ok tt;
  kill_group_at _ _ _ := Err 3;
  send_control_at _ _ record := Ok (Z.of_nat (length record));
  waitid_at now _ _ := Ok (if (now <? 3)%nat then (0, 0, 0) else (77, 2, 9));
  exit_pipe_at _ _ := ([Upto 3; Interrupted; Upto 11; Upto 0], supervisor_exit_record (7 * 256));
  cgroup_owners_at _ := 1;
  instant_at now := Z.of_nat now * 1000 }.
Next Obligation. intros. vm_compute. by eexists. Qed.
Next Obligation. intros. cbn beta. lia. Qed.

Definition sample_child : LinuxChild := MkLinuxChild 77 5 (Some 3) None false true false None None.
Definition sample_init : LinuxChild := MkLinuxChild 77 5 (Some 3) None false true true (Some 6) (Some 7).

(** A running child: its group, itself, then its control group. *)
Example teardown_of_a_running_child :
  h_log (teardown sample_child (MkH 0 [])).2 = [ToGroup (-77) 9; ToPidfd 5 9; KillCgroup 3; DropCgroup 3].
Proof. vm_compute. reflexivity. Qed.

(** The first process of a PID namespace: only itself, and the status of the user's
    process is the supervisor's. *)
Example supervised_status :
  h_log (teardown sample_init (MkH 0 [])).2 = [ToPidfd 5 9; KillCgroup 3; DropCgroup 3] ∧
  (wait sample_init (MkH 3 [])).1 = Ok (exit_from_code 7, with_status sample_init (exit_from_code 7)).
Proof. split; vm_compute; reflexivity. Qed.
End Handle.
